(* ===== verification/_CoqProject ===== *)
-Q . S2P
Prelude.v
Text.v
Window.v
ProtoUtil.v
Signing.v
Concrete.v
AtomicWrite.v
AtomicWriteFacts.v
Friends.v
FriendsFacts.v
Mailbox.v
MailboxFacts.v
GroupEpoch.v
GroupEpochFacts.v
ShortCode.v
ShortCodeFacts.v
Destination.v
DestinationFacts.v
Tunnel.v
TunnelFacts.v
Connectivity.v
ConnectivityFacts.v
FileAccess.v
FileAccessFacts.v
Transfers.v
TransfersFacts.v
DmDelivery.v
DmDeliveryFacts.v
DmWorkerFacts.v
RoomSafety.v
RoomSafetyFacts.v
Hyparview.v
HyparviewFacts.v
Plumtree.v
PlumtreeFacts.v
Topic.v
TopicFacts.v
GossipState.v
GossipStateFacts.v
ChatHistory.v
ChatHistoryFacts.v
Outbox.v
OutboxFacts.v
Ordering.v
OrderingFacts.v
Admission.v
AdmissionFacts.v
Joiner.v
JoinerFacts.v
Discovery.v
DiscoveryFacts.v
Authorization.v
AuthorizationFacts.v
GroupEvents.v
GroupEventsFacts.v
CallSession.v
CallSessionFacts.v
CallWire.v
CallWireFacts.v
CallManager.v
CallManagerFacts.v
