(* ===== verification/Prelude.v ===== *)
(** * Boru: a verification library for the gossip protocol and the services on top of it

    Boru is a peer-to-peer chat written in Rust.  Nodes find each other, form one
    overlay swarm per topic, broadcast chat messages through it, and keep what they
    sent and received in local stores.  This library translates the parts that carry
    the program's own logic into Rocq definitions and proves them correct.

    ** The program and how its parts interact

    The protocol is a stack of state machines that perform no I/O: each takes an input
    event and the current instant, mutates its state and pushes output events, which
    the network actor ([src/net]) then executes.

<<
      network actor  (not modelled: sockets, tasks, clocks)
           |  InEvent                         ^  OutEvent
      proto/state.rs      one node: all topics, shared connections, metrics
           |                                  ^
      proto/topic.rs      one topic: routes events between two layers
           |                                  ^
      proto/hyparview.rs  membership   --NeighborUp/Down-->  proto/plumtree.rs  broadcast
           |                                                      |
      proto/util.rs       IndexSet,  TimerMap,  TimeBoundCache
>>

    Beside it, [chat_history.rs] keeps the messages and their delivery state and
    [outbox.rs] keeps what is still to be sent; [group_encryption/ordering.rs] orders the
    messages of an encrypted group before they are decrypted; [candidate_admission.rs]
    limits how many discovered peers the joiner is handed.

    Who may do what in a managed room is decided by the signed events of
    [authorization.rs]; membership of a group by those of [group_events.rs], whose replay
    markers live in the table of [group_replay.rs]; both frame what they sign with
    [protocol_signing.rs].  Calls run beside the swarm on their own connections: the actor
    of [call/manager.rs] owns one [call/session.rs] state machine per call, talks in the
    messages of [call/wire.rs] within the limits of [call/bounds.rs], counts the datagrams
    of [call/media.rs] and adapts the quality with [call/adaptation.rs].

    Peers enter through [discovery_record.rs] (signed records), [discovery_validation.rs]
    (which of them are believed) and [dynamic_joiner.rs] (a loop with concurrent workers
    that joins them to the swarm).  What a stranger may send is limited by
    [public_room_safety.rs], [catalogue_rate_limits.rs] and [abuse_controls.rs].
    Friendships are kept by [friends.rs] and [friend_request.rs] in files written by
    [chat_core/atomic_write.rs]; messages for peers that are away are sealed envelopes of
    [mailbox.rs], which also carry the keys of a new group epoch ([group_epoch.rs]) to the
    members that remain.  [short_code.rs] exchanges tickets for short spoken codes, and
    [safe_destination.rs] with [path_containment.rs] decides where a download is written.

    [tunnel.rs] and the files below it let chosen peers reach a local service through signed
    capabilities or one-time enrollment tokens.  What is known about each peer's
    connectivity is kept by [control_plane/connectivity.rs] and [control_plane/reconnect.rs];
    the tasks of the discovery service ([discovery_service.rs],
    [discovery/connectivity.rs]) share both behind locks.  Who may download a shared file is
    decided at each request by [file_access_handler/], which answers with the short-lived
    signed descriptors of [file_access_protocol.rs] and limits how many requests are served.
    Files sent directly to a peer are offers of [file_offer.rs], streamed by
    [file_offer_protocol.rs] into the destinations of [safe_destination.rs] and shown on the
    dashboard of [transfer_state_projection.rs].

    Direct messages are durable: [storage/conversation.rs] numbers, signs and seals a message
    and stores it with its envelope and a delivery row in one transaction, and the worker of
    [outbox_delivery.rs] claims due rows under a lease, attempts them and records the verdicts,
    until the signed acknowledgement of the recipient arrives through the mailbox.

    ** Files

    - [Prelude] (this file): bytes, machine integers, the handler monad [act] (state,
      emitted events, panic), the monad [res] of fallible functions, the
      weakest-precondition calculus [wp] with the tactics
      [wp_step] and [wp_steps], the interface [HandlerContract] between layers, the
      class [PeerIdentity], and the shared lemmas on lists, maps, chunks and counting.
    - [ProtoUtil]: [src/proto/util.rs].  [Module index_set] is [IndexSet],
      [Module timer_map] is [TimerMap], [Module time_bound_cache] is [TimeBoundCache];
      one definition per method.
    - [Text]: characters, UTF-8 lengths, hexadecimal and decimal numbers, trimming and
      searching.  [Window]: what a rolling
      window over a history of times lets through, shared by the limiters.
    - [Signing]: [src/protocol_signing.rs] and the interfaces [Ed25519], [Hasher] and
      [Postcard].
    - [Concrete]: instances of the external interfaces used to run examples.
    - [AtomicWrite], [AtomicWriteFacts]: [src/chat_core/atomic_write.rs], as the sequence of
      file operations of one save and as a step relation of overlapping saves and crashes.
    - [Friends], [FriendsFacts]: [src/friend_request.rs] and [src/friends.rs].
    - [Mailbox], [MailboxFacts]: [src/mailbox.rs].
    - [GroupEpoch], [GroupEpochFacts]: [src/group_epoch.rs].
    - [ShortCode], [ShortCodeFacts]: [src/short_code.rs].
    - [Destination], [DestinationFacts]: [Module paths] is what is used of [std::path] and
      the file system, then [src/path_containment.rs] and [src/safe_destination.rs].
    - [Tunnel], [TunnelFacts]: [src/tunnel/enrollment.rs], [src/tunnel/service.rs],
      [src/tunnel.rs] (capabilities and the handling of streams, as an interleaving of
      streams, local commands and restarts) and [src/tunnel/reconnect.rs].
    - [Connectivity], [ConnectivityFacts]: [src/control_plane/connectivity.rs],
      [src/control_plane/reconnect.rs], [src/discovery/connectivity.rs]; [Module tasks] is
      the interleaving of the critical sections of the tasks that share them.
    - [FileAccess], [FileAccessFacts]: [src/file_access_protocol.rs],
      [src/file_access_handler/] (nonces, limits, preparation, the decision, and in [Module
      serving] the interleaving of requests) and the queries of [src/storage/transfer.rs]
      that the decision reads, any of which may fail or see another database.
    - [Transfers], [TransfersFacts]: [src/transfer_state_projection.rs], [src/file_offer.rs]
      and [src/file_offer_protocol.rs]: the sender as an interleaving of its connections, the
      receiver composed with the reservations of [Destination].
    - [DmDelivery], [DmDeliveryFacts], [DmWorkerFacts]: [src/outbox_delivery.rs] ([Module
      outbox_delivery] has failures, delays and the reconnect trigger, [Module worker] the
      worker as an interleaving of its passes, attempts and heartbeats with the rest of the
      program), and in [Module dm_storage] the operations of [src/storage/conversation.rs] and
      [src/storage/schema.rs] on direct messages and the outbox.  [DmDeliveryFacts] has the
      invariant of the store, [DmWorkerFacts] the theorems about runs.
    - [RoomSafety], [RoomSafetyFacts]: [src/public_room_config.rs],
      [src/public_room_safety.rs], [src/catalogue_rate_limits.rs] and
      [src/abuse_controls.rs].
    - [Joiner], [JoinerFacts]: [src/dynamic_joiner.rs], a step relation of the loop, its
      workers and the neighbor events.
    - [Discovery], [DiscoveryFacts]: [src/discovery_record.rs] and
      [src/discovery_validation.rs].
    - [Hyparview], [HyparviewFacts]: [src/proto/hyparview.rs].  The record [State] has
      the fields of the Rust struct; [handle] dispatches to one definition per
      [on_...] method and to the view operations [add_active], [remove_active],
      [add_passive], and so on.
    - [Plumtree], [PlumtreeFacts]: [src/proto/plumtree.rs], in the same way.
    - [Topic], [TopicFacts]: [src/proto/topic.rs].  The two layers are fields of
      [topic.State]; [zoom] runs a layer's handler inside the topic.
    - [GossipState], [GossipStateFacts]: [src/proto/state.rs] and the counters of
      [src/metrics.rs].
    - [ChatHistory], [ChatHistoryFacts]: [src/chat_history.rs].
    - [Outbox], [OutboxFacts]: [src/outbox.rs].
    - [Ordering], [OrderingFacts]: [src/group_encryption/ordering.rs] and the envelopes of
      [src/group_encryption/message.rs].
    - [Admission], [AdmissionFacts]: [src/candidate_admission.rs].
    - [Authorization], [AuthorizationFacts]: [src/authorization.rs].
    - [GroupEvents], [GroupEventsFacts]: [Module group_replay] is
      [src/group_replay.rs], [Module group_events] is [src/group_events.rs].
    - [CallSession], [CallSessionFacts]: [src/call/mod.rs], [src/call/session.rs] (the
      tracks in [Module media_session], the lifecycle in [Module session]) and
      [src/call/frame.rs].
    - [CallWire], [CallWireFacts]: [src/call/wire.rs] ([Module wire] has the messages,
      [Module control] the negotiation and the frames), [src/call/bounds.rs] and
      [src/call/media.rs].
    - [CallManager], [CallManagerFacts]: [src/call/adaptation.rs] and
      [src/call/manager.rs]; one definition per command of the actor and
      [handle_control].

    A file [X] holds the data and the operations of a component in a module with the
    name of the Rust module; [XFacts] holds its invariant, lemmas, theorems and
    concrete runs.

    ** How the code is translated

    A Rust method with [&mut self] is an [act]: it takes the state and returns an
    [outcome] (a result, the new state and the events it pushed, in order; or
    [Panic]).  [unreachable!], [unwrap] and [expect] of a missing value, failed
    [assert!]s and checked arithmetic that overflows are [Panic].  Queries with [&self]
    are pure functions.  Collections keep their order where Rust's do: [BTreeMap] and
    [BTreeSet] iterate in ascending order, [VecDeque] and [Vec] are lists, the iteration
    order of a [HashMap] is a parameter.  A fallible function is a [res] ([Ok], [Err] or
    [Panicked]); one that also mutates returns the [res] and the new state.

    Integers: the [u16] hop count of the broadcast layer, the [u16] time-to-live, the
    event ids of the history and the [usize] subtraction in the announcement chunking
    keep Rust's width and its two behaviours on overflow (a panic with overflow checks,
    wrapping without; see [u16_add] and [usize_sub]); the media clock wraps at 32 bits,
    epochs are cast to [i64] for the database, the bitrate comparison and the generation
    counter of calls keep their 64 bits.  Pure statistics counters of 64
    bits are unbounded naturals.

    ** Parameters and hypotheses

    Code outside the repository is an argument of the definitions, with its documented
    behaviour as class fields or hypotheses: [Rng] (the rand crate: a drawn index is in
    range, a shuffle is a permutation), [IndexSetImpl] (the indexmap crate), the
    BLAKE3 hash and the postcard size function of [GossipEnv] and [WireEnv] (the hash is
    never assumed injective), the [HashMap] order [hash_order] of [NodeEnv], the JSON
    parser and the clock of the stores, the encoding, the hash and the orders of
    [OrderEnv], signatures, hash and encodings of [AuthEnv] and [GroupEnv] (what is signed
    verifies, what is encoded decodes; nothing is assumed about forgery or collisions),
    the encodings [Encodable] and [Json], the encryption [Sealing] (both sides agree on the
    key, what is encrypted decrypts under it), upper case beyond ASCII [Uppercase], the
    iteration orders [HashValues], [HashMembers], [HashEntries] and [HashRecords], the hash [Sha256], the
    text of keys [KeyText], the JSON of stored state, random bytes as arguments,
    the row orders of SQLite [RowOrder] and [QueryPlan] and its failures, the jitter of a delay
    and the answers of the recipient policy and the transport, the order [CallOrder] of the
    table of calls, and what one download request finds ([Surroundings]: its database reads,
    clocks, blob store and file system).  [Concrete] and the environments at the end of the files [XFacts]
    instantiate all of them, and every numbered theorem (C1, C2, ...) with a hypothesis
    has a witness that applies it there.

    ** Interfaces between the layers

    [HandlerContract] states what a layer promises to the layer above: its handler
    finishes, keeps its invariant and satisfies a relation between the old state, the
    new state and the events.  [membership_contract] (HyParView) and
    [broadcast_contract] (PlumTree) are its instances; the theorems of [TopicFacts] are
    proved against these instances, and those of [GossipStateFacts] against the topic
    layer.

    ** What the theorems show

    - Containers: the timer queue hands out exactly the entries that are due, in order;
      the expiring cache refines a finite map.
    - Membership: no handler panics; the active and passive views stay disjoint, within
      capacity and free of the node itself; the emitted neighbor events replay to
      exactly the active view (a refinement); joins and high-priority requests are
      always accepted, low-priority ones are refused by a full view; random walks end.
    - Broadcast: no handler panics in a release build; the state invariant is kept; a
      message is delivered at most once per retention window; a fresh message is
      delivered, pushed and announced to the right peers; a missed message is recovered
      by announcement, graft and reply; announcements are flushed completely in messages
      within the size limit; what happens at the limit of the hop counter.
    - Topic and node: both layers' guarantees survive composition, topics do not affect
      each other, connections are reported to every topic, joining and leaving do what
      they say; the case in which a disconnect closes a connection another topic uses.
    - Stores: delivery states never go back, the delivery reducer keeps its evidence
      except in one proved case, ids are fresh and found again, bounded queries agree
      with their definitions, the outbox is a duplicate-free first-in first-out queue.
    - Files: a save that overlaps others, fails or crashes leaves the old or a complete new
      file, also when a crash undoes renames.
    - Friends: the index of pending pairs finds pending requests only, and equals a search for
      every pair of which no settled request was cleared while another was pending; requests
      change once and by the right peer, stores round-trip; and the cases in which clearing
      requests or equal id prefixes lose one.
    - Mailbox: a sealed payload reaches its recipient and no one else, an envelope is
      inserted once unless it is dated in the future, sync pages are the longest allowed
      beginning, an envelope leaves the outgoing store only by its recipient's
      acknowledgement.
    - Group epochs: a removal is all or nothing, survivors and only they get the new
      credentials as far as the listed keys are theirs.
    - Short codes: codes are uniform, resolve to their ticket, and once for each minting
      through failing saves and restarts; announcements are accepted in their window only.
    - Downloads: a reservation is one new file directly in the resolved directory, leaves
      no trace when it is dropped, and is published completely or not at all; the two path
      checks that let something through.
    - Tunnels: slots and limits hold in every interleaving, what is forwarded was
      authorised by a capability or by a token that was redeemed, a revocation reaches every
      stream, tokens are redeemed once when saves succeed, the backoff equals its closed form; and the slot that a peer keeps by
      hanging up, the streams that a revocation stops counting, the token that a failed save
      brings back.
    - Connectivity: the store refines one state machine per peer, being online is decided by
      the last evidence; over every interleaving no attempt is stranded or doubled and a
      signal needs an attempt and evidence; every due peer is dialled; and the orders of
      events in which a connected peer is marked as degraded, a retry does not wait and a
      queued dial counts as a connection.
    - File access: a descriptor is issued only to a requester that is authorised, at both
      checks (the second with the rings of the first), and in a steady database exactly then;
      it verifies for its owner, requester and lifetime; a nonce is accepted once; over every interleaving and cancellation of requests
      the limits hold, no slot leaks and nothing deadlocks; and the cases the comments exclude:
      a refused old client, a panicking id, an offer that is not read again, unverified inline
      data, a nonce forgotten one millisecond early, a peer above its limit.
    - Direct transfers: an event counts exactly if it is new and in sequence, outcomes are
      final and archived once, progress keeps its cadence; the dashboard shows only what was
      written, in every interleaving; a download is all or nothing, gets exactly what was
      sent, and only the peer of an offer is served, within the permits; and the transfer that
      is shown as running for ever, the failure the peer is not told.
    - Direct messages: in every interleaving a queued message is kept with its envelope and
      its delivery row until its recipient, and no one else, acknowledges it; an acknowledged
      row is never claimed again; numbers have no gaps and a request is made once; deliveries
      are bounded and one at a time for a peer; a pass ends and takes the due rows in order; a
      genuine acknowledgement is accepted; and what refusals, expiry, error details and the
      deletion of a conversation do against their intention.
    - Limits and discovery: message, announcement and catalogue limits decide as the
      complete history of the window does; displayed text is clean; the joiner respects its
      bounds in every interleaving and strands no peer; record validation is exact.
    - Group ordering: the cascade over the dependency graph terminates; the orderer
      refines a plain queue in order of arrival, in which nothing ever waits; a control
      message with the content of one of the node's own is never released.
    - Admission: the memory is bounded and consistent; no window of time exceeds the
      limit; with enough memory (the default) every decision is the one that the complete
      history of admissions gives.
    - Rooms: an accepted event is verified, changes only its target, who ranks strictly
      below the actor, and keeps the room valid; the owner never loses control; events
      apply once and in sequence; a revoked ban permission has no effect on a moderator.
    - Groups: only the owner and the peer concerned change the roster; with a store a
      replay is refused across pruning and by every state over the store but one put back to
      the epoch of an event whose marker was pruned; the pruning loop is one
      range delete; the cache keeps the newest epochs; signed events verify; the cases of
      a removed invitee, of epochs beyond the signed range and of a state that starts again.
    - Call sessions: every session follows the lifecycle, is moved by its remote peer
      only, and times out when it waits; tracks are independent; the serial order of the
      media clock survives wrap-around.
    - Call wire format: control streams and media datagrams round-trip, a datagram has one
      encoding, decoded values are within bounds, negotiated media suit both sides, sizing
      never underflows.
    - Call actor: it never panics and reports no call as ended twice; revoking a peer ends
      exactly its calls; quality moves in single steps; and the proved gaps: a caller can
      accept its own call, collisions end both calls, a busy callee still rings, a reused
      id is never released.

    ** Fuel

    [drain_fuel] (the loop of [TimerMap::drain_until]) runs with the number of queued
    entries plus one: each iteration pops an entry, so the bound is never reached, and
    [drain_until_exact] states the complete result.  [chunks_fuel] ([slice::chunks])
    runs with the length of the list, each chunk of positive size takes at least one
    element.  [cascade_fuel] ([cascade_ready] of the orderer) runs with the number of
    waiting messages plus one: a recursive call is made after one of them was removed,
    and [cascade_ready_terminates] proves the recursive equation of the code for the
    result.  [prune_loop] (the batches of [prune_older_than]) runs with the number of rows
    plus one: a round that continues deletes a full batch, and [prune_older_than_exact]
    shows that it never runs out.  [read_all] reads a stream with one unit per message,
    which [control_stream_roundtrip] asks for.  [unused_code] (the
    loop of [ShortCodeStore::mint]) runs with the number of random bytes plus one, since
    every round draws some; the random source itself is a list that may end, which the
    result tells.  [canonicalize_from] runs with the number of components, one of which
    each round drops; [walk] follows at most 40 links, as the system call does.  All other
    recursion is structural on the data.

    ** Not modelled

    The network actor and the transfers of blobs (asynchronous socket I/O), the SQLite storage
    but for the tables of direct messages, the outbox and file access (SQL run by a library,
    migrations), the graphical application, codecs and devices, cryptography,
    the protocol simulator (a test harness), vendored crates.  Of the stores, the
    deprecated [save] functions (they only log) and the paths used for display.  Of the
    calls, the tasks around the connection, the handle and the builder (channels and
    locks); a message handed to a channel counts as sent.  Texts of errors are left out.

    ** Planned extensions

    The guards of control messages, advertisements and extensions ([control_plane]), the
    conversation topics restored after a reconnection ([control_plane/reconcile.rs]),
    deduplication in the chat core, the limits and the startup scheduler of downloads, the
    registries of rooms. *)

From Stdlib Require Import Strings.Byte NArith.
From stdpp Require Import prelude gmap sorting.

(** ** Bytes and fixed-size identifiers *)

Declare Scope boru_scope.
Delimit Scope boru_scope with boru.

(** [bytes::Bytes], [Vec<u8>] and the 32-byte identifiers are byte strings. *)
Abbreviation Bytes := (list Byte.byte).

#[export] Instance byte_eq_dec : EqDecision Byte.byte := Byte.byte_eq_dec.

#[export] Program Instance byte_countable : Countable Byte.byte :=
  {| encode b := encode (Byte.to_N b);
     decode p := n ← decode p; Byte.of_N n |}.
Next Obligation.
  intros b. simpl. rewrite decode_encode. simpl. apply Byte.of_to_N.
Qed.

(** ** Machine integers *)

(** Largest values of Rust's [u16], [u32], [u64] and (64-bit) [usize]. *)
Definition u16_max : N := 65535.
Definition u32_max : N := 4294967295.
Definition u64_max : N := 18446744073709551615.
Definition usize_max : N := 18446744073709551615.

(** ** Outcomes and the handler monad

    A handler of the protocol state machines mutates a state [S], pushes output
    events [E] into an [IO] container, returns a value and may panic (an
    [unreachable!], an [unwrap] of [None], a checked integer operation). *)

Inductive outcome (A : Type) : Type :=
| Done (a : A)
| Panic.
Arguments Done {A} a.
Arguments Panic {A}.

Definition act (S E A : Type) : Type := S → outcome (A * S * list E).

#[export] Instance act_ret {S E} : MRet (act S E) :=
  λ A a s, Done (a, s, []).

#[export] Instance act_bind {S E} : MBind (act S E) :=
  λ A B k m s,
    match m s with
    | Done (a, s1, es1) =>
        match k a s1 with
        | Done (b, s2, es2) => Done (b, s2, es1 ++ es2)
        | Panic => Panic
        end
    | Panic => Panic
    end.

(** Read the state, replace it, apply a function to it. *)
Definition get {S E} : act S E S := λ s, Done (s, s, []).
Definition put {S E} (s' : S) : act S E unit := λ _, Done (tt, s', []).
Definition modify {S E} (f : S → S) : act S E unit := λ s, Done (tt, f s, []).

(** [io.push(event)]. *)
Definition push {S E} (e : E) : act S E unit := λ s, Done (tt, s, [e]).

(** [panic!], [unreachable!], a failed [unwrap]. *)
Definition panic {S E A} : act S E A := λ _, Panic.

(** Rust's [+] on [u16] and [-] on [usize]: a panic when the build has overflow checks
    (debug builds), two's-complement wrap-around otherwise (release builds). *)
Definition u16_add {S E} (checks : bool) (a b : N) : act S E N :=
  λ s, if decide (a + b ≤ u16_max)%N then Done ((a + b)%N, s, [])
       else if checks then Panic
       else Done (((a + b) mod (u16_max + 1))%N, s, []).

Definition usize_sub {S E} (checks : bool) (a b : N) : act S E N :=
  λ s, if decide (b ≤ a)%N then Done ((a - b)%N, s, [])
       else if checks then Panic
       else Done ((usize_max + 1 + a - b)%N, s, []).

(** [x + 1] on [u64]. *)
Definition u64_incr (checks : bool) (n : N) : outcome N :=
  if decide (n < u64_max)%N then Done (n + 1)%N
  else if checks then Panic else Done 0%N.

(** [n as i64] of a [u64] *)
Definition as_i64 (n : N) : Z :=
  if decide (n ≤ 9223372036854775807)%N then Z.of_N n else (Z.of_N n - 2 ^ 64)%Z.

(** [a.abs_diff(b)] *)
Definition abs_diff (a b : N) : N := if decide (a ≤ b)%N then (b - a)%N else (a - b)%N.

(** [for x in l { body(x) }]. *)
Fixpoint for_each {S E A} (l : list A) (body : A → act S E unit) : act S E unit :=
  match l with
  | [] => mret tt
  | x :: l' => body x;; for_each l' body
  end.

(** Run a handler of a component on the part of a larger state it owns, turning
    its output events into those of the enclosing layer ([Into<OutEvent>]). *)
Definition zoom {S S' E E' A} (view : S' → S) (update : S → S' → S')
    (into : E → E') (m : act S E A) : act S' E' A :=
  λ s', match m (view s') with
        | Done (a, s, es) => Done (a, update s s', into <$> es)
        | Panic => Panic
        end.

(** Run a handler and hand the events it pushed to the caller instead of pushing them. *)
Definition collect {S E A} (m : act S E A) : act S E (list E) :=
  λ s, match m s with
       | Done (_, s', es) => Done (es, s', [])
       | Panic => Panic
       end.

(** ** Fallible functions

    [Result<A, E>] with the possibility of a panic.  The [?] operator is the bind of the
    monad. *)

Inductive res (E A : Type) : Type :=
| Ok (a : A)
| Err (e : E)
| Panicked.
Arguments Ok {E A} a.
Arguments Err {E A} e.
Arguments Panicked {E A}.

#[export] Instance res_ret {E} : MRet (res E) := λ A a, Ok a.

#[export] Instance res_bind {E} : MBind (res E) :=
  λ A B k m, match m with
             | Ok a => k a
             | Err e => Err e
             | Panicked => Panicked
             end.

(** [if !b { return Err(e) }] *)
Definition ensure {E} (b : bool) (e : E) : res E unit := if b then Ok tt else Err e.

(** [o.ok_or(e)] *)
Definition ok_or {E A} (e : E) (o : option A) : res E A :=
  match o with
  | Some a => Ok a
  | None => Err e
  end.

(** Arithmetic that may panic, inside a fallible function. *)
Definition checked {E A} (o : outcome A) : res E A :=
  match o with
  | Done a => Ok a
  | Panic => Panicked
  end.

(** [r.is_ok()] *)
Definition is_ok {E A} (r : res E A) : bool :=
  match r with
  | Ok _ => true
  | _ => false
  end.

(** A fallible function that does not panic. *)
Definition settled {E A} (r : res E A) : Prop :=
  match r with
  | Panicked => False
  | _ => True
  end.

(** ** Weakest preconditions of handlers *)

Definition wp {S E A} (m : act S E A) (Q : A → S → list E → Prop) (s : S) : Prop :=
  match m s with
  | Done (a, s', es) => Q a s' es
  | Panic => False
  end.

(** A handler is [ok] for an invariant and a step relation when from every state
    of the invariant it finishes without a panic, re-establishes the invariant and
    relates the states before and after through the events it pushed. *)
Definition ok {S E A} (I : S → Prop) (R : S → list E → S → Prop)
    (m : act S E A) : Prop :=
  ∀ s, I s → wp m (λ _ s' es, I s' ∧ R s es s') s.

(** Step relations that compose along the sequence of pushed events. *)
Class Compositional {S E} (R : S → list E → S → Prop) : Prop := {
  comp_refl : ∀ s, R s [] s;
  comp_trans : ∀ s1 es1 s2 es2 s3, R s1 es1 s2 → R s2 es2 s3 → R s1 (es1 ++ es2) s3
}.

(** What a component promises to the one that drives it: on the allowed inputs its handler
    finishes, keeps the invariant and takes a step of the relation. *)
Class HandlerContract {S E In} (I : S → Prop) (R : S → list E → S → Prop)
    (allowed : In → Prop) (h : In → act S E unit) : Prop := {
  contract_comp :: Compositional R;
  contract_ok : ∀ ev, allowed ev → ok I R (h ev)
}.

(** ** The peer-identity interface ([proto::PeerIdentity])

    [Hash + Eq] become [Countable] and [EqDecision]; [Ord] is a decidable total
    order, which fixes the iteration order of [BTreeSet] and [BTreeMap]. *)
Class PeerIdentity (PI : Type) : Type := {
  pi_eq_dec : EqDecision PI;
  pi_countable : Countable PI;
  pi_le : relation PI;
  pi_le_dec :: RelDecision pi_le;
  pi_le_total :: Total pi_le;
  pi_le_trans :: Transitive pi_le;
  pi_le_antisymm :: AntiSymm (=) pi_le
}.

(** Types with an equality and an encoding of their own use those. *)
#[export] Existing Instance pi_eq_dec | 50.
#[export] Existing Instance pi_countable | 50.

#[export] Program Instance N_peer_identity : PeerIdentity N :=
  {| pi_le := N.le |}.

(** ** Ordered iteration of [BTreeSet] and [BTreeMap] *)

Section btree.
Context {K : Type} `{PeerIdentity K}.

(** [BTreeSet::iter]: ascending order. *)
Definition btree_set_iter (s : gset K) : list K :=
  merge_sort pi_le (elements s).

(** Keys of [BTreeMap::iter]: ascending order. *)
Definition btree_map_keys {V} (m : gmap K V) : list K :=
  btree_set_iter (dom m).

(** [BTreeMap::iter]. *)
Definition btree_map_iter {V} (m : gmap K V) : list (K * V) :=
  omap (λ k, (λ v, (k, v)) <$> m !! k) (btree_map_keys m).

End btree.

(** The derived order of arrays and strings: lexicographic, by the number of the unit. *)
Section lex.
Context {A : Type} `{EqDecision A} (key : A → N).

Fixpoint lex_le (a b : list A) : Prop :=
  match a, b with
  | [], _ => True
  | _ :: _, [] => False
  | x :: a', y :: b' => (key x < key y)%N ∨ (x = y ∧ lex_le a' b')
  end.

#[export] Instance lex_le_dec : RelDecision lex_le.
Proof.
  refine (fix go a b : Decision (lex_le a b) :=
    match a, b with
    | [], _ => left I
    | _ :: _, [] => right (λ f, f)
    | x :: a', y :: b' =>
        match decide (key x < key y)%N with
        | left Hl => left (or_introl Hl)
        | right Hl =>
            match decide (x = y), go a' b' with
            | left He, left Hg => left (or_intror (conj He Hg))
            | right He, _ => right _
            | _, right Hg => right _
            end
        end
    end); simpl; naive_solver.
Defined.

End lex.

(** [Ord] of byte arrays *)
Definition bytes_le : relation Bytes := lex_le Byte.to_N.

#[export] Instance bytes_le_dec : RelDecision bytes_le := lex_le_dec Byte.to_N.

(** [slice::chunks(n)] for a positive [n]: consecutive pieces of length [n], the last
    one possibly shorter.  Each round takes at least one element, so the length of
    the list bounds the number of rounds. *)
Fixpoint chunks_fuel {A} (fuel : nat) (n : N) (l : list A) : list (list A) :=
  match fuel, l with
  | S fuel', _ :: _ =>
      let k := N.to_nat (N.min n (N.of_nat (length l))) in
      take k l :: chunks_fuel fuel' n (drop k l)
  | _, _ => []
  end.

Definition chunks {A} (n : N) (l : list A) : list (list A) := chunks_fuel (length l) n l.

(** ** Lemmas: the weakest-precondition calculus *)

Create HintDb boru discriminated.

Section wp_lemmas.
Context {S E : Type}.
Implicit Types (s : S).

Lemma wp_ret {A} (a : A) (Q : A → S → list E → Prop) s :
  Q a s [] → wp (mret a) Q s.
Proof. done. Qed.

Lemma wp_bind {A B} (m : act S E A) (k : A → act S E B)
    (Q : B → S → list E → Prop) s :
  wp m (λ a s1 es1, wp (k a) (λ b s2 es2, Q b s2 (es1 ++ es2)) s1) s →
  wp (m ≫= k) Q s.
Proof.
  unfold wp, mbind, act_bind. destruct (m s) as [[[a s1] es1]|]; [|done].
  by destruct (k a s1) as [[[b s2] es2]|].
Qed.

Lemma wp_mono {A} (m : act S E A) (Q Q' : A → S → list E → Prop) s :
  wp m Q s → (∀ a s' es, Q a s' es → Q' a s' es) → wp m Q' s.
Proof. unfold wp. destruct (m s) as [[[a s1] es1]|]; naive_solver. Qed.

Lemma wp_conj {A} (m : act S E A) (Q1 Q2 : A → S → list E → Prop) s :
  wp m Q1 s → wp m Q2 s → wp m (λ a s' es, Q1 a s' es ∧ Q2 a s' es) s.
Proof. unfold wp. by destruct (m s) as [[[a s1] es1]|]. Qed.

Lemma wp_collect {A} (m : act S E A) (Q : list E → S → list E → Prop) s :
  wp m (λ _ s' es, Q es s' []) s → wp (collect m) Q s.
Proof. unfold wp, collect. by destruct (m s) as [[[a s1] es1]|]. Qed.

Lemma wp_zoom {S' E' A} (view : S' → S) (update : S → S' → S') (into : E → E')
    (m : act S E A) (Q : A → S' → list E' → Prop) (t : S') :
  wp m (λ a s es, Q a (update s t) (into <$> es)) (view t) →
  wp (zoom view update into m) Q t.
Proof. unfold wp, zoom. by destruct (m (view t)) as [[[a s1] es1]|]. Qed.

Lemma wp_get (Q : S → S → list E → Prop) s : Q s s [] → wp get Q s.
Proof. done. Qed.

Lemma wp_put s' (Q : unit → S → list E → Prop) s : Q tt s' [] → wp (put s') Q s.
Proof. done. Qed.

Lemma wp_modify f (Q : unit → S → list E → Prop) s :
  Q tt (f s) [] → wp (modify f) Q s.
Proof. done. Qed.

Lemma wp_push e (Q : unit → S → list E → Prop) s : Q tt s [e] → wp (push e) Q s.
Proof. done. Qed.

(** Weakest preconditions say that the handler finishes. *)
Lemma wp_done {A} (m : act S E A) (Q : A → S → list E → Prop) s :
  wp m Q s ↔ ∃ a s' es, m s = Done (a, s', es) ∧ Q a s' es.
Proof.
  unfold wp. destruct (m s) as [[[a s1] es1]|]; naive_solver.
Qed.

(** From a run under [wp] to the value of the handler. *)
Lemma wp_eq {A} (m : act S E A) x s :
  wp m (λ a s' es, Done (a, s', es) = x) s → m s = x.
Proof. unfold wp. by destruct (m s) as [[[a s1] es1]|]. Qed.

(** A panic of a step is a panic of the handler. *)
Lemma bind_panic_l {A B} (m : act S E A) (k : A → act S E B) s :
  m s = Panic → (m ≫= k) s = Panic.
Proof. intros Hm. unfold mbind, act_bind. by rewrite Hm. Qed.

Lemma bind_panic_r {A B} (m : act S E A) (k : A → act S E B) a s1 es s :
  m s = Done (a, s1, es) → k a s1 = Panic → (m ≫= k) s = Panic.
Proof. intros Hm Hk. unfold mbind, act_bind. by rewrite Hm, Hk. Qed.

(** A loop whose body pushes exactly one event and leaves the state alone. *)
Lemma for_each_push {A} (l : list A) (f : A → E) s :
  for_each l (λ x, push (f x)) s = Done (tt, s, f <$> l).
Proof.
  induction l as [|x l IH]; [done|]. simpl. unfold mbind, act_bind. simpl.
  by rewrite IH.
Qed.

Lemma for_each_push_all (l : list E) s : for_each l push s = Done (tt, s, l).
Proof. rewrite (for_each_push l (λ e, e)). by rewrite list_fmap_id. Qed.

End wp_lemmas.

Section ok_lemmas.
Context {S E : Type} (I : S → Prop) (R : S → list E → S → Prop)
  `{!Compositional R}.

Lemma ok_ret {A} (a : A) : ok I R (mret a).
Proof. intros s Hs. apply wp_ret. split; [done|]. apply comp_refl. Qed.

Lemma ok_bind {A B} (m : act S E A) (k : A → act S E B) :
  ok I R m → (∀ a, ok I R (k a)) → ok I R (m ≫= k).
Proof.
  intros Hm Hk s Hs. apply wp_bind.
  eapply wp_mono; [by apply Hm|]. intros a s1 es1 [H1 R1].
  eapply wp_mono; [by apply Hk|]. intros b s2 es2 [H2 R2].
  split; [done|]. by eapply comp_trans.
Qed.

(** Reading the state first: the continuation may use what it read. *)
Lemma ok_get_bind {A} (k : S → act S E A) :
  (∀ s, I s → wp (k s) (λ _ s' es, I s' ∧ R s es s') s) → ok I R (get ≫= k).
Proof.
  intros Hk s Hs. apply wp_bind, wp_get.
  eapply wp_mono; [by apply Hk|]. done.
Qed.

Lemma ok_get : ok I R get.
Proof. intros s Hs. apply wp_get. split; [done|]. apply comp_refl. Qed.

Lemma ok_push e : (∀ s, I s → R s [e] s) → ok I R (push e).
Proof. intros He s Hs. apply wp_push. auto. Qed.

Lemma ok_modify f :
  (∀ s, I s → I (f s) ∧ R s [] (f s)) → ok I R (modify f).
Proof. intros Hf s Hs. apply wp_modify. auto. Qed.

Lemma ok_for_each {A} (l : list A) (body : A → act S E unit) :
  (∀ x, x ∈ l → ok I R (body x)) → ok I R (for_each l body).
Proof.
  induction l as [|x l IH]; intros Hb; simpl; [apply ok_ret|].
  apply ok_bind; [apply Hb; left|]. intros _. apply IH.
  intros y Hy. apply Hb. by right.
Qed.

(** From a finished run to the run followed by a continuation. *)
Lemma wp_ok_bind {A B} (m : act S E A) (k : A → act S E B) s :
  wp m (λ a s1 es1, I s1 ∧ R s es1 s1 ∧ ok I R (k a)) s →
  wp (m ≫= k) (λ _ s' es, I s' ∧ R s es s') s.
Proof.
  intros Hm. apply wp_bind. eapply wp_mono; [exact Hm|].
  intros a s1 es1 (H1 & R1 & Hk).
  eapply wp_mono; [by apply Hk|]. intros b s2 es2 [H2 R2].
  split; [done|]. by eapply comp_trans.
Qed.

End ok_lemmas.

(** Two step relations hold together when each composes. *)
Lemma compositional_and {S E} (R1 R2 : S → list E → S → Prop) :
  Compositional R1 → Compositional R2 →
  Compositional (λ s es s', R1 s es s' ∧ R2 s es s').
Proof.
  intros [r1 t1] [r2 t2]. split; [auto|].
  intros s1 es1 s2 es2 s3 [] []. eauto.
Qed.

(** ** Lemmas: removing a list of keys *)

Section deletes.
Context `{Countable K} {V : Type}.
Implicit Types (m : gmap K V) (ks : list K).

Lemma lookup_deletes m ks k :
  foldr delete m ks !! k = if decide (k ∈ ks) then None else m !! k.
Proof.
  induction ks as [|k' ks IH]; simpl; [done|]. destruct (decide (k = k')) as [->|Hne].
  - rewrite lookup_delete_eq, decide_True by set_solver. done.
  - rewrite lookup_delete_ne, IH by done. by repeat case_decide; set_solver.
Qed.

Lemma size_deletes m ks :
  NoDup ks → (∀ k, k ∈ ks → is_Some (m !! k)) → size (foldr delete m ks) + length ks = size m.
Proof.
  induction 1 as [|k ks Hk _ IH]; intros Hin; simpl; [lia|].
  assert (is_Some (m !! k)) as Hs by (apply Hin; left).
  rewrite map_size_delete_Some by (rewrite lookup_deletes, decide_False; done).
  rewrite <- (IH (λ k' Hk', Hin k' (list_elem_of_further _ _ _ Hk'))) in *.
  assert (size (foldr delete m ks) ≠ 0); [|lia].
  apply map_size_ne_0_lookup_2 with k. by rewrite lookup_deletes, decide_False.
Qed.

Lemma foldl_deletes m ks : foldl (λ m' k, delete k m') m ks = foldr delete m ks.
Proof.
  revert m. induction ks as [|k ks IH]; intros m; simpl; [done|]. rewrite IH.
  apply map_eq. intros k'. destruct (decide (k' = k)) as [->|Hne].
  - rewrite lookup_deletes, !lookup_delete_eq. by case_decide.
  - by rewrite lookup_delete_ne, !lookup_deletes, lookup_delete_ne by done.
Qed.

End deletes.

(** ** Lemmas: the lexicographic order *)

Section lex_lemmas.
Context {A : Type} `{EqDecision A} (key : A → N) `{!Inj (=) (=) key}.

#[export] Instance lex_le_total : Total (lex_le key).
Proof.
  intros a. induction a as [|x a IH]; intros [|y b]; simpl; [by left|by left|by right|].
  destruct (N.lt_trichotomy (key x) (key y)) as [?|[->%(inj key)|?]]; [auto| |auto].
  destruct (IH b); auto.
Qed.

#[export] Instance lex_le_trans : Transitive (lex_le key).
Proof.
  intros a. induction a as [|x a IH]; intros [|y b] [|z c]; simpl; try done.
  intros [Hxy|[-> Hab]] [Hyz|[-> Hbc]]; [left; lia|auto|auto|].
  right. eauto.
Qed.

#[export] Instance lex_le_antisymm : AntiSymm (=) (lex_le key).
Proof.
  intros a. induction a as [|x a IH]; intros [|y b]; simpl; try done.
  intros [Hxy|[-> Hab]] [Hyx|[Heq Hba]]; [lia|subst; lia|lia|]. f_equal. by apply IH.
Qed.

End lex_lemmas.

#[export] Instance byte_to_N_inj : Inj (=) (=) Byte.to_N.
Proof.
  intros x y Heq%Byte.to_of_N_iff. rewrite Byte.of_to_N in Heq. by injection Heq.
Qed.

#[export] Instance bytes_le_total : Total bytes_le := lex_le_total Byte.to_N.
#[export] Instance bytes_le_trans : Transitive bytes_le := lex_le_trans Byte.to_N.
#[export] Instance bytes_le_antisymm : AntiSymm (=) bytes_le := lex_le_antisymm Byte.to_N.

(** ** Lemmas: filtered lists *)

Section counting.
Context {A : Type}.

Lemma count_split (P Q R : A → Prop) `{!∀ x, Decision (P x), !∀ x, Decision (Q x),
    !∀ x, Decision (R x)} (l : list A) :
  (∀ x, x ∈ l → P x → Q x ∨ R x) →
  length (filter P l) ≤ length (filter Q l) + length (filter R l).
Proof.
  induction l as [|x l IH]; intros Hx; [done|]. rewrite !filter_cons.
  assert (length (filter P l) ≤ length (filter Q l) + length (filter R l)).
  { apply IH. intros y ?. apply Hx. set_solver. }
  destruct (decide (P x)) as [HP|], (decide (Q x)), (decide (R x)); simpl; try lia.
  destruct (Hx x); [set_solver|done..].
Qed.

Lemma count_mono (P Q : A → Prop) `{!∀ x, Decision (P x), !∀ x, Decision (Q x)} (l : list A) :
  (∀ x, x ∈ l → P x → Q x) → length (filter P l) ≤ length (filter Q l).
Proof.
  intros Hx. assert (Hf : length (filter (λ _ : A, False) l) = 0).
  { clear. induction l; [done|]. by rewrite filter_cons_False by tauto. }
  pose proof (count_split P Q (λ _, False) l). rewrite Hf in *. naive_solver lia.
Qed.

Lemma length_filter_fmap {B} (f : A → B) (P : B → Prop) `{!∀ x, Decision (P x)} (l : list A) :
  length (filter P (f <$> l)) = length (filter (λ x, P (f x)) l).
Proof.
  induction l as [|x l IH]; [done|]. rewrite fmap_cons, !filter_cons.
  case_decide; simpl; by rewrite IH.
Qed.

Lemma filter_ext_elem (P Q : A → Prop) `{!∀ x, Decision (P x), !∀ x, Decision (Q x)}
    (l : list A) :
  (∀ x, x ∈ l → P x ↔ Q x) → filter P l = filter Q l.
Proof.
  induction l as [|x l IH]; intros Hx; [done|]. rewrite !filter_cons, IH by set_solver.
  assert (P x ↔ Q x) by (apply Hx; set_solver).
  destruct (decide (P x)), (decide (Q x)); tauto.
Qed.

Lemma filter_all (P : A → Prop) `{!∀ x, Decision (P x)} (l : list A) :
  (∀ x, x ∈ l → P x) → filter P l = l.
Proof.
  induction l as [|x l IH]; intros Hx; [done|].
  rewrite filter_cons_True by (apply Hx; set_solver). rewrite IH by set_solver. done.
Qed.

Lemma StronglySorted_filter (R : relation A) (P : A → Prop) `{!∀ x, Decision (P x)}
    (l : list A) :
  StronglySorted R l → StronglySorted R (filter P l).
Proof.
  induction 1 as [|x l Hl IH Hx]; [constructor|]. rewrite filter_cons.
  case_decide; [|done]. constructor; [done|]. rewrite Forall_forall in Hx |- *.
  intros y [_ ?]%list_elem_of_filter. auto.
Qed.

End counting.

(** ** Lists without repetitions *)

Section first_occurrences.
Context {A : Type} `{EqDecision A}.
Implicit Types (l : list A) (x : A).

(** The first occurrence of every element, in order. *)
Fixpoint first_occurrences l : list A :=
  match l with
  | [] => []
  | x :: l' => x :: filter (λ y, y ≠ x) (first_occurrences l')
  end.

Lemma NoDup_first_occurrences l : NoDup (first_occurrences l).
Proof.
  induction l as [|x l IH]; simpl; constructor.
  - rewrite list_elem_of_filter. naive_solver.
  - by apply NoDup_filter.
Qed.

Lemma elem_of_first_occurrences l x : x ∈ first_occurrences l ↔ x ∈ l.
Proof.
  induction l as [|y l IH]; simpl; [done|].
  rewrite !elem_of_cons, list_elem_of_filter, IH. destruct (decide (x = y)); naive_solver.
Qed.

(** What a list adds to the elements collected so far, when its head is one of them or
    not. *)
Lemma first_occurrences_old (acc : list A) x l :
  x ∈ acc →
  filter (λ y, y ∉ acc) (first_occurrences (x :: l)) =
  filter (λ y, y ∉ acc) (first_occurrences l).
Proof.
  intros Hx. simpl. rewrite filter_cons_False by tauto. rewrite list_filter_filter.
  apply list_filter_iff. naive_solver.
Qed.

Lemma first_occurrences_new (acc : list A) x l :
  x ∉ acc →
  filter (λ y, y ∉ acc) (first_occurrences (x :: l)) =
  x :: filter (λ y, y ∉ acc ++ [x]) (first_occurrences l).
Proof.
  intros Hx. simpl. rewrite filter_cons_True by done. f_equal. rewrite list_filter_filter.
  apply list_filter_iff. set_solver.
Qed.

End first_occurrences.

(** ** Lemmas: ordered iteration *)

Section btree_lemmas.
Context {K : Type} `{PeerIdentity K}.
Implicit Types (s : gset K).

Lemma btree_set_iter_perm s : btree_set_iter s ≡ₚ elements s.
Proof. apply merge_sort_Permutation. Qed.

Lemma elem_of_btree_set_iter s x : x ∈ btree_set_iter s ↔ x ∈ s.
Proof. rewrite btree_set_iter_perm. apply elem_of_elements. Qed.

Lemma NoDup_btree_set_iter s : NoDup (btree_set_iter s).
Proof. rewrite btree_set_iter_perm. apply NoDup_elements. Qed.

Lemma btree_set_iter_sorted s : StronglySorted pi_le (btree_set_iter s).
Proof. apply StronglySorted_merge_sort; apply _. Qed.

Lemma length_btree_set_iter s : length (btree_set_iter s) = size s.
Proof. by rewrite btree_set_iter_perm. Qed.

Lemma elem_of_btree_map_keys {V} (m : gmap K V) k :
  k ∈ btree_map_keys m ↔ is_Some (m !! k).
Proof. unfold btree_map_keys. rewrite elem_of_btree_set_iter. apply elem_of_dom. Qed.

Lemma elem_of_btree_map_iter {V} (m : gmap K V) k v :
  (k, v) ∈ btree_map_iter m ↔ m !! k = Some v.
Proof.
  unfold btree_map_iter. rewrite list_elem_of_omap. split.
  - intros (k' & _ & Hf). by apply fmap_Some in Hf as (v' & Hl & [= -> ->]).
  - intros Hl. exists k. rewrite elem_of_btree_map_keys, Hl. split; [by eexists|done].
Qed.

Lemma NoDup_fst_btree_map_iter {V} (m : gmap K V) : NoDup (btree_map_iter m).*1.
Proof.
  unfold btree_map_iter.
  enough (∀ l : list K, NoDup l →
    NoDup (omap (λ k, (λ v, (k, v)) <$> m !! k) l).*1 ∧
    ∀ x, x ∈ (omap (λ k, (λ v, (k, v)) <$> m !! k) l).*1 → x ∈ l) as Hl
    by (apply Hl, NoDup_btree_set_iter).
  induction 1 as [|k l Hk Hnd [IH1 IH2]]; simpl; [split; [constructor|done]|].
  destruct (m !! k); simpl; split; try done.
  - constructor; auto.
  - intros x [->|Hx]%elem_of_cons; [left|right; auto].
  - intros x Hx. right. auto.
Qed.

Lemma btree_map_iter_singleton {V} (k : K) (v : V) :
  btree_map_iter ({[k := v]} : gmap K V) = [(k, v)].
Proof.
  unfold btree_map_iter, btree_map_keys, btree_set_iter.
  rewrite dom_singleton_L, elements_singleton. cbn. by rewrite lookup_singleton_eq.
Qed.

End btree_lemmas.

(** ** Lemmas: chunks *)

Lemma concat_chunks {A} n (l : list A) : (0 < n)%N → concat (chunks n l) = l.
Proof.
  intros Hn. unfold chunks. assert (length l ≤ length l) as Hf by done.
  revert Hf. generalize (length l) at 2 3 as fuel. intros fuel. revert l.
  induction fuel as [|fuel IH]; intros l Hf; [by destruct l; simpl in *; [|lia]|].
  destruct l as [|x l]; [done|]. cbn [chunks_fuel concat].
  set (k := N.to_nat _). rewrite IH; [apply take_drop|].
  rewrite length_drop. simpl in *. lia.
Qed.

Lemma chunks_bounded {A} n (l c : list A) :
  (0 < n)%N → c ∈ chunks n l → c ≠ [] ∧ (N.of_nat (length c) ≤ n)%N.
Proof.
  intros Hn. unfold chunks. generalize (length l) as fuel. intros fuel. revert l.
  induction fuel as [|fuel IH]; intros l Hc; [set_solver|].
  destruct l as [|x l]; [set_solver|]. cbn [chunks_fuel] in Hc.
  apply elem_of_cons in Hc as [->|Hc]; [|eauto].
  rewrite length_take. split; [|simpl; lia].
  destruct (N.to_nat _) as [|k] eqn:Hk; [simpl in Hk; lia|]. done.
Qed.

(** ** Lemmas: fallible functions *)

Section res_lemmas.
Context {E : Type}.

Lemma bind_Ok {A B} (m : res E A) (k : A → res E B) b :
  (x ← m; k x) = Ok b ↔ ∃ a, m = Ok a ∧ k a = Ok b.
Proof. destruct m; naive_solver. Qed.

Lemma ensure_Ok b (e : E) u : ensure b e = Ok u ↔ b = true.
Proof. destruct b, u; naive_solver. Qed.

Lemma ok_or_Ok {A} (e : E) (o : option A) a : ok_or e o = Ok a ↔ o = Some a.
Proof. destruct o; naive_solver. Qed.

Lemma is_ok_true {A} (r : res E A) : is_ok r = true ↔ ∃ a, r = Ok a.
Proof. destruct r; naive_solver. Qed.

Lemma is_ok_unit (r : res E unit) : is_ok r = true ↔ r = Ok tt.
Proof. destruct r as [[]| |]; naive_solver. Qed.

Lemma settled_ret {A} (a : A) : settled (mret a : res E A).
Proof. exact I. Qed.

Lemma settled_Ok {A} (a : A) : settled (Ok a : res E A).
Proof. exact I. Qed.

Lemma settled_bind {A B} (m : res E A) (k : A → res E B) :
  settled m → (∀ a, settled (k a)) → settled (x ← m; k x).
Proof. destruct m; simpl; auto. Qed.

Lemma settled_ensure b (e : E) : settled (ensure b e).
Proof. by destruct b. Qed.

Lemma settled_ok_or {A} (e : E) (o : option A) : settled (ok_or e o).
Proof. by destruct o. Qed.

Lemma settled_cases {A} (r : res E A) :
  settled r → (∃ a, r = Ok a) ∨ (∃ e, r = Err e).
Proof. destruct r; simpl; eauto; done. Qed.

End res_lemmas.

#[export] Hint Resolve settled_ret settled_Ok settled_bind settled_ensure settled_ok_or : boru.

#[export] Hint Resolve ok_ret ok_get ok_push : boru.
#[export] Hint Resolve NoDup_btree_set_iter btree_set_iter_sorted : boru.

(** ** Tactics *)

(** Run one step of a handler under [wp]. *)
Ltac wp_step :=
  match goal with
  | |- wp (_ ≫= _) _ _ => apply wp_bind
  | |- wp (mret _) _ _ => apply wp_ret
  | |- wp get _ _ => apply wp_get
  | |- wp (put _) _ _ => apply wp_put
  | |- wp (modify _) _ _ => apply wp_modify
  | |- wp (push _) _ _ => apply wp_push
  end; cbn beta.

Ltac wp_steps := repeat wp_step.

(** Prove a decidable proposition by evaluating its decision procedure. *)
Ltac decide_compute := refine (bool_decide_unpack _ _); vm_compute; exact I.

(** Take a successful run of a fallible function apart. *)
Ltac res_inv :=
  repeat match goal with
  | H : mbind _ _ = Ok _ |- _ => apply bind_Ok in H as (? & ? & ?)
  | H : ensure _ _ = Ok _ |- _ => apply ensure_Ok in H
  | H : ok_or _ _ = Ok _ |- _ => apply ok_or_Ok in H
  | H : mret _ = Ok _ |- _ => injection H as <-
  | H : Ok _ = Ok _ |- _ => injection H as <-
  | H : Err _ = Ok _ |- _ => discriminate H
  | H : Panicked = Ok _ |- _ => discriminate H
  end.

(** ** Counting the entries of a table *)

Definition one (b : bool) : nat := if b then 1 else 0.

Definition cnt {A} (f : A → bool) (m : gmap N A) : nat := size (filter (λ kx, f kx.2 = true) m).

Section tables.
Context {A : Type}.
Implicit Types (f g : A → bool) (m : gmap N A) (x y : A).

Lemma cnt_insert f m k x : m !! k = None → cnt f (<[k := x]> m) = one (f x) + cnt f m.
Proof.
  intros Hk. unfold cnt. rewrite map_filter_insert. simpl. destruct (f x) eqn:Hf; case_decide; try done.
  - rewrite map_size_insert_None; [done|]. apply map_lookup_filter_None. by left.
  - by rewrite delete_id.
Qed.

(** Replacing an entry changes the count by what the two contribute. *)
Lemma cnt_update f m k x y :
  m !! k = Some x → cnt f (<[k := y]> m) + one (f x) = cnt f m + one (f y).
Proof.
  intros Hk. rewrite <-(insert_delete_id m k x) at 2 by done.
  rewrite <-insert_delete_eq, !cnt_insert by apply lookup_delete_eq. lia.
Qed.

Lemma cnt_zero f m : (∀ k x, m !! k = Some x → f x = false) → cnt f m = 0.
Proof.
  intros Hf. unfold cnt. apply map_size_empty_iff, map_empty. intros k. apply map_lookup_filter_None.
  right. intros x Hk. simpl. by rewrite (Hf k x Hk).
Qed.

Lemma cnt_pos f m k x : m !! k = Some x → f x = true → 0 < cnt f m.
Proof.
  intros Hk Hf. destruct (decide (cnt f m = 0)) as [Hz|]; [|lia]. exfalso.
  apply map_size_empty_iff in Hz. assert (filter (λ kx, f kx.2 = true) m !! k = Some x) as Hx.
  { by apply map_lookup_filter_Some. }
  by rewrite Hz, lookup_empty in Hx.
Qed.

Lemma cnt_exists f m : 0 < cnt f m → ∃ k x, m !! k = Some x ∧ f x = true.
Proof.
  unfold cnt. intros Hf. destruct (map_choose (filter (λ kx, f kx.2 = true) m)) as (k & x & Hk).
  - intros Hz. rewrite Hz, map_size_empty in Hf. lia.
  - apply map_lookup_filter_Some in Hk. eauto.
Qed.

End tables.
