(* ===== verification/Text.v ===== *)
(** * Strings: what the code uses of [char], [str] and [String]

    A string is the list of its Unicode scalar values; [str::len] and slicing count UTF-8
    bytes.  The order of strings compares their bytes, which for UTF-8 is the order of the
    scalar values.  Numbers are printed in base ten and sixteen as [format!] does. *)

From Stdlib Require Import Strings.Byte NArith.
From stdpp Require Import prelude gmap strings.
From S2P Require Import Prelude.

Abbreviation Char := N.
Abbreviation Text := (list N).

(** A string literal of ASCII characters. *)
Definition txt (s : string) : Text := Byte.to_N <$> String.list_byte_of_string s.

(** ** Lengths and slices *)

(** [char::len_utf8] *)
Definition len_utf8 (c : Char) : nat :=
  if decide (c < 128)%N then 1
  else if decide (c < 2048)%N then 2
  else if decide (c < 65536)%N then 3
  else 4.

(** [str::len] *)
Fixpoint text_len (t : Text) : nat :=
  match t with
  | [] => 0
  | c :: t' => len_utf8 c + text_len t'
  end.

(** The prefix of [n] bytes; [None] when the cut is not between two characters. *)
Fixpoint prefix_bytes (t : Text) (n : nat) : option Text :=
  if decide (n = 0) then Some []
  else match t with
       | [] => None
       | c :: t' => if decide (len_utf8 c ≤ n) then (c ::.) <$> prefix_bytes t' (n - len_utf8 c)
                    else None
       end.

(** [str::is_char_boundary] *)
Definition is_char_boundary (t : Text) (n : nat) : bool := bool_decide (is_Some (prefix_bytes t n)).

(** [&t[..n]]: a panic when the cut is not between two characters. *)
Definition slice_to (t : Text) (n : nat) : outcome Text :=
  match prefix_bytes t n with
  | Some p => Done p
  | None => Panic
  end.

(** ** The order *)

Definition text_le : relation Text := lex_le (λ c, c).

#[export] Instance text_le_dec : RelDecision text_le := lex_le_dec (λ c, c).
#[export] Instance text_le_total : Total text_le := lex_le_total (λ c, c).
#[export] Instance text_le_trans : Transitive text_le := lex_le_trans (λ c, c).
#[export] Instance text_le_antisymm : AntiSymm (=) text_le := lex_le_antisymm (λ c, c).

#[export] Instance text_identity : PeerIdentity Text := {| pi_le := text_le |}.

(** ** Printing numbers *)

Definition digit (d : N) : Char := if decide (d < 10)%N then (48 + d)%N else (87 + d)%N.

Definition undigit (c : Char) : N := if decide (c < 58)%N then (c - 48)%N else (c - 87)%N.

(** The last digit is printed last; the number of bits bounds the number of digits. *)
Fixpoint digits_fuel (b : N) (fuel : nat) (n : N) : Text :=
  match fuel with
  | 0 => []
  | S fuel' =>
      if decide (n < b)%N then [digit n]
      else digits_fuel b fuel' (n / b) ++ [digit (n mod b)]
  end.

Definition digits (b n : N) : Text := digits_fuel b (S (N.size_nat n)) n.

(** [format!("{n}")] and [format!("{n:x}")] *)
Definition decimal (n : N) : Text := digits 10 n.
Definition lower_hex (n : N) : Text := digits 16 n.

(** ** Characters *)

(** [char::is_whitespace] *)
Definition is_whitespace (c : Char) : bool :=
  bool_decide (9 ≤ c ≤ 13)%N || bool_decide (8192 ≤ c ≤ 8202)%N ||
  bool_decide (c ∈ [32; 133; 160; 5760; 8232; 8233; 8239; 8287; 12288]%N).

(** [char::is_control] *)
Definition is_control (c : Char) : bool :=
  bool_decide (c ≤ 31)%N || (bool_decide (127 ≤ c)%N && bool_decide (c ≤ 159)%N).

(** [hex::decode]: both cases, two digits for each byte. *)
Definition hex_digit (c : Char) : option N :=
  if decide (48 ≤ c ≤ 57)%N then Some (c - 48)%N
  else if decide (97 ≤ c ≤ 102)%N then Some (c - 87)%N
  else if decide (65 ≤ c ≤ 70)%N then Some (c - 55)%N
  else None.

Fixpoint from_hex (t : Text) : option Bytes :=
  match t with
  | [] => Some []
  | [_] => None
  | a :: b :: t' =>
      x ← hex_digit a; y ← hex_digit b; z ← Byte.of_N (16 * x + y); rest ← from_hex t';
      Some (z :: rest)
  end.

(** [str::to_ascii_lowercase] *)
Definition to_ascii_lowercase (t : Text) : Text :=
  (λ c, if decide (65 ≤ c ≤ 90)%N then (c + 32)%N else c) <$> t.

(** [blake3::Hash::to_hex] *)
Definition to_hex (b : Bytes) : Text :=
  b ≫= λ x, [digit (Byte.to_N x / 16); digit (Byte.to_N x mod 16)].

(** [str::trim] *)
Fixpoint trim_start (t : Text) : Text :=
  match t with
  | [] => []
  | c :: t' => if is_whitespace c then trim_start t' else t
  end.

Definition trim (t : Text) : Text := reverse (trim_start (reverse (trim_start t))).

(** [t.split(c).next()] *)
Fixpoint before (c : Char) (t : Text) : Text :=
  match t with
  | [] => []
  | x :: t' => if decide (x = c) then [] else x :: before c t'
  end.

(** [str::contains] *)
Fixpoint text_contains (p t : Text) : bool :=
  bool_decide (p `prefix_of` t) ||
  match t with
  | [] => false
  | _ :: t' => text_contains p t'
  end.

(** ** Lemmas *)

Lemma len_utf8_pos c : 1 ≤ len_utf8 c ≤ 4.
Proof. unfold len_utf8. repeat case_decide; lia. Qed.

Lemma text_len_app t u : text_len (t ++ u) = text_len t + text_len u.
Proof. induction t; simpl; lia. Qed.

Lemma prefix_bytes_0 t : prefix_bytes t 0 = Some [].
Proof. by destruct t. Qed.

(** A slice is the prefix of the given length. *)
Lemma prefix_bytes_Some t n p :
  prefix_bytes t n = Some p ↔ p `prefix_of` t ∧ text_len p = n.
Proof.
  revert n p. induction t as [|c t IH]; intros n p.
  - simpl. case_decide as Hn.
    + subst. split; [intros [= <-]; by split|]. intros [->%prefix_nil_inv _]. done.
    + split; [done|]. intros [->%prefix_nil_inv <-]. done.
  - simpl. case_decide as Hn.
    + subst. split; [intros [= <-]; split; [apply prefix_nil|done]|].
      intros [_ Hl]. destruct p as [|c' p]; [done|]. simpl in Hl. pose proof (len_utf8_pos c'). lia.
    + case_decide as Hc.
      * rewrite fmap_Some. split.
        -- intros (q & [Hq Hl]%IH & ->). split; [by apply prefix_cons|]. simpl. lia.
        -- intros [Hp Hl]. destruct p as [|c' p]; [by simpl in Hl|].
           pose proof (prefix_cons_inv_1 _ _ _ _ Hp) as ->. apply prefix_cons_inv_2 in Hp.
           exists p. split; [|done]. apply IH. split; [done|]. simpl in Hl. lia.
      * split; [done|]. intros [Hp Hl]. destruct p as [|c' p]; [by simpl in Hl|].
        pose proof (prefix_cons_inv_1 _ _ _ _ Hp) as ->. simpl in Hl. lia.
Qed.

Lemma is_char_boundary_true t n :
  is_char_boundary t n = true ↔ ∃ p, p `prefix_of` t ∧ text_len p = n.
Proof.
  unfold is_char_boundary. rewrite bool_decide_eq_true. unfold is_Some.
  by setoid_rewrite prefix_bytes_Some.
Qed.

Lemma undigit_digit d : (d < 16)%N → undigit (digit d) = d.
Proof. intros Hd. unfold undigit, digit. repeat case_decide; lia. Qed.

Lemma hex_digit_digit d : (d < 16)%N → hex_digit (digit d) = Some d.
Proof.
  intros Hd. unfold hex_digit, digit. destruct (decide (d < 10)%N).
  - rewrite decide_True by lia. f_equal. lia.
  - rewrite decide_False by lia. rewrite decide_True by lia. f_equal. lia.
Qed.

Lemma from_hex_to_hex b : from_hex (to_hex b) = Some b.
Proof.
  induction b as [|x b IH]; [done|]. change (to_hex (x :: b)) with
    (digit (Byte.to_N x / 16) :: digit (Byte.to_N x mod 16) :: to_hex b).
  cbn [from_hex]. pose proof (Byte.to_N_bounded x) as Hx.
  rewrite !hex_digit_digit by (apply N.Div0.div_lt_upper_bound || apply N.mod_lt; lia). simpl.
  rewrite <-N.div_mod by done. rewrite Byte.of_to_N. simpl. by rewrite IH.
Qed.

(** What a digit of a number can be: neither a separator nor a letter after [f]. *)
Lemma digit_range d : (d < 16)%N → (48 ≤ digit d ≤ 57 ∨ 97 ≤ digit d ≤ 102)%N.
Proof. intros Hd. unfold digit. case_decide; lia. Qed.

Lemma size_nat_size n : N.size n = N.of_nat (N.size_nat n).
Proof.
  destruct n as [|p]; [done|]. cbn [N.size N.size_nat].
  induction p as [p IH|p IH|]; [| |done]; cbn [Pos.size Pos.size_nat];
    by rewrite Nat2N.inj_succ, <- IH.
Qed.

Section digits.
Context (b : N) (Hb : (2 ≤ b ≤ 16)%N).

Definition value (t : Text) : N := foldl (λ acc c, acc * b + undigit c)%N 0%N t.

Lemma value_digits_fuel fuel n : (n < b ^ N.of_nat fuel)%N → value (digits_fuel b fuel n) = n.
Proof.
  revert n. induction fuel as [|fuel IH]; intros n Hn.
  - rewrite N.pow_0_r in Hn. unfold value. simpl. lia.
  - cbn [digits_fuel]. case_decide as Hs.
    + unfold value. simpl. apply undigit_digit. lia.
    + unfold value. rewrite foldl_app. simpl. fold (value (digits_fuel b fuel (n / b))).
      pose proof (N.mod_lt n b). pose proof (N.div_mod n b).
      rewrite IH, undigit_digit; [lia|lia|].
      apply N.Div0.div_lt_upper_bound. rewrite Nat2N.inj_succ, N.pow_succ_r' in Hn. done.
Qed.

Lemma value_digits n : value (digits b n) = n.
Proof.
  apply value_digits_fuel. pose proof (N.size_gt n) as Hn.
  eapply N.lt_le_trans; [exact Hn|]. rewrite size_nat_size.
  transitivity (b ^ N.of_nat (N.size_nat n))%N.
  - apply N.pow_le_mono_l. lia.
  - apply N.pow_le_mono_r; lia.
Qed.

#[export] Instance digits_inj : Inj (=) (=) (digits b).
Proof. intros n m Heq. by rewrite <- (value_digits n), <- (value_digits m), Heq. Qed.

Lemma digits_fuel_range fuel n c :
  c ∈ digits_fuel b fuel n → (48 ≤ c ≤ 57 ∨ 97 ≤ c ≤ 102)%N.
Proof.
  revert n. induction fuel as [|fuel IH]; intros n; cbn [digits_fuel]; [set_solver|].
  case_decide as Hs.
  - intros ->%list_elem_of_singleton. apply digit_range. lia.
  - intros [Hc| ->%list_elem_of_singleton]%elem_of_app; [by eapply IH|].
    apply digit_range. pose proof (N.mod_lt n b). lia.
Qed.

End digits.

#[export] Instance decimal_inj : Inj (=) (=) decimal.
Proof. apply digits_inj. lia. Qed.

#[export] Instance lower_hex_inj : Inj (=) (=) lower_hex.
Proof. apply digits_inj. lia. Qed.

Lemma decimal_range n c : c ∈ decimal n → (48 ≤ c ≤ 57 ∨ 97 ≤ c ≤ 102)%N.
Proof. apply digits_fuel_range. lia. Qed.

Lemma lower_hex_range n c : c ∈ lower_hex n → (48 ≤ c ≤ 57 ∨ 97 ≤ c ≤ 102)%N.
Proof. apply digits_fuel_range. lia. Qed.

(** What follows the last separator determines the text before it. *)
Lemma last_separator_inj (sep : Char) (a a' d d' : Text) :
  sep ∉ d → sep ∉ d' → a ++ sep :: d = a' ++ sep :: d' → a = a' ∧ d = d'.
Proof.
  revert a'. induction a as [|x a IH]; intros [|y a'] Hd Hd' Heq; simplify_eq/=.
  - done.
  - destruct Hd. apply elem_of_app. right. by left.
  - destruct Hd'. apply elem_of_app. right. by left.
  - destruct (IH a') as [-> ->]; done.
Qed.

Example lower_hex_sample : lower_hex 48879 = txt "beef".
Proof. reflexivity. Qed.

Example decimal_sample : decimal 1024 = txt "1024".
Proof. reflexivity. Qed.
