(* ===== verification/Window.v ===== *)
(** * Sliding-window logs

    Several rate limiters keep the instants of what they let through, forget those that have
    left the window, and refuse while the log is full.  This file holds the log once, with
    the two facts the limiters need: no span of the window's width contains more than the
    maximum, and a call is refused exactly when the maximum was reached within the width
    before it.  The window may include the instant exactly one width ago ([closed]) or
    not. *)

From Stdlib Require Import ZArith.
From stdpp Require Import prelude sorting.
From S2P Require Import Prelude.

Section window.
Context (width : Z) (closed : bool) (max : nat).
Implicit Types (now t : Z) (l h : list Z).

(** Whether an instant is still in the window that ends now. *)
Definition live now t : Prop := if closed then (now - width ≤ t)%Z else (now - width < t)%Z.

#[export] Instance live_dec now t : Decision (live now t).
Proof. unfold live. destruct closed; apply _. Defined.

(** Forget what has left the window, let the call through if there is room. *)
Definition log_check now l : bool * list Z :=
  let l := filter (live now) l in
  if decide (max ≤ length l) then (false, l) else (true, l ++ [now]).

(** Instants within a span of the width that begins at [t]. *)
Definition in_span t x : Prop :=
  if closed then (t ≤ x ≤ t + width)%Z else (t ≤ x < t + width)%Z.

#[export] Instance in_span_dec t x : Decision (in_span t x).
Proof. unfold in_span. destruct closed; apply _. Defined.

(** [h] is what was let through up to [now], [l] the log. *)
Record tracks now h l : Prop := mkTracks {
  tracks_past : Forall (λ x, (x ≤ now)%Z) h;
  tracks_log : filter (live now) l = filter (live now) h;
  tracks_span t : length (filter (in_span t) h) ≤ max
}.

Lemma live_mono now now' t : (now ≤ now')%Z → live now' t → live now t.
Proof. unfold live. destruct closed; lia. Qed.

Lemma span_live t now x : (x ≤ now)%Z → in_span t now → in_span t x → live now x.
Proof. unfold in_span, live. destruct closed; lia. Qed.

Lemma tracks_later now now' h l : (now ≤ now')%Z → tracks now h l → tracks now' h l.
Proof.
  intros Hle [Hp Hl Hs]. split; [|..|done].
  - eapply Forall_impl; [exact Hp|]. simpl. lia.
  - rewrite <- (list_filter_filter_l (live now') (live now) l) by eauto using live_mono.
    rewrite <- (list_filter_filter_l (live now') (live now) h) by eauto using live_mono.
    by rewrite Hl.
Qed.

(** A new instant is in a span only with instants that are still live. *)
Lemma tracks_push now h :
  Forall (λ x, (x ≤ now)%Z) h → (∀ t, length (filter (in_span t) h) ≤ max) →
  length (filter (live now) h) < max →
  ∀ t, length (filter (in_span t) (h ++ [now])) ≤ max.
Proof.
  intros Hp Hs Hl t. rewrite filter_app, length_app. specialize (Hs t).
  destruct (decide (in_span t now)) as [Hn|Hn].
  - assert (length (filter (in_span t) h) ≤ length (filter (live now) h)) as Hle.
    { apply count_mono. intros x Hx. apply span_live; [|done].
      by eapply Forall_forall in Hp. }
    rewrite filter_cons_True by done. simpl. lia.
  - rewrite filter_cons_False by done. simpl. lia.
Qed.

Lemma tracks_check now h l :
  tracks now h l →
  let '(ok, l') := log_check now l in
  ok = bool_decide (length (filter (live now) h) < max) ∧
  tracks now (if ok then h ++ [now] else h) l'.
Proof.
  intros [Hp Hl Hs]. unfold log_check. rewrite Hl.
  assert (filter (live now) (filter (live now) h) = filter (live now) h) as Hff
    by (apply list_filter_filter_l; tauto).
  case_decide as Hm; (split; [symmetry; (apply bool_decide_eq_true || apply bool_decide_eq_false); lia|]).
  - by split.
  - split.
    + apply Forall_app. split; [done|]. by apply Forall_singleton.
    + by rewrite !filter_app, Hff.
    + apply tracks_push; [done..|lia].
Qed.

Lemma tracks_nil now : tracks now [] [].
Proof. split; [constructor|done|]. intros t. simpl. lia. Qed.

(** ** Queues

    A queue that is purged from the front is a log when the instants in it do not
    decrease. *)

Section queue.
Context {A : Type} (at_ : A → Z).
Implicit Types (hist q : list A).

(** [q] holds what is live of the history, in order. *)
Record mirrors now hist q : Prop := mkMirrors {
  mirrors_past : Forall (λ x, (at_ x ≤ now)%Z) q;
  mirrors_sorted : StronglySorted (λ x y, (at_ x ≤ at_ y)%Z) q;
  mirrors_live : filter (λ x, live now (at_ x)) q = filter (λ x, live now (at_ x)) hist
}.

Lemma mirrors_nil now : mirrors now [] [].
Proof. split; [constructor..|done]. Qed.

Lemma mirrors_later now now' hist q :
  (now ≤ now')%Z → mirrors now hist q → mirrors now' hist q.
Proof.
  intros Hle [Hp Hs Hl]. split; [|done|].
  - eapply Forall_impl; [exact Hp|]. simpl. lia.
  - rewrite <- (list_filter_filter_l (λ x, live now' (at_ x)) (λ x, live now (at_ x)) q)
      by eauto using live_mono.
    rewrite <- (list_filter_filter_l (λ x, live now' (at_ x)) (λ x, live now (at_ x)) hist)
      by eauto using live_mono.
    by rewrite Hl.
Qed.

(** What remains of the queue when the old part is dropped is the live history. *)
Lemma mirrors_purge now hist q :
  mirrors now hist q → mirrors now hist (filter (λ x, live now (at_ x)) hist).
Proof.
  intros [Hp Hs Hl]. rewrite <- Hl. split.
  - apply Forall_forall. intros x [_ Hx]%list_elem_of_filter. by eapply Forall_forall in Hp.
  - by apply StronglySorted_filter.
  - rewrite Hl. apply list_filter_filter_l. tauto.
Qed.

Lemma mirrors_push now hist q x :
  at_ x = now → mirrors now hist q → mirrors now (hist ++ [x]) (q ++ [x]).
Proof.
  intros Hx [Hp Hs Hl]. split.
  - apply Forall_app. split; [done|]. apply Forall_singleton. lia.
  - apply StronglySorted_app. split_and!; [|done|repeat constructor].
    intros x1 x2 H1 ->%list_elem_of_singleton. rewrite Forall_forall in Hp.
    apply Hp in H1. lia.
  - by rewrite !filter_app, Hl.
Qed.

End queue.
End window.
