(* ===== verification/ProtoUtil.v ===== *)
(** * Utilities of the gossip protocol: [src/proto/util.rs]

    The randomised insertion-ordered set [IndexSet], the timer queue [TimerMap] and
    the expiring map [TimeBoundCache].  The crates they are built on ([rand],
    [indexmap]) are the classes [Rng] and [IndexSetImpl]: their operations with the
    documented behaviour the protocol relies on.  [BinaryHeap] is the standard
    library's: a bag of entries whose [peek] and [pop] return a greatest one. *)

From Stdlib Require Import NArith.
From stdpp Require Import prelude gmap sorting.
From S2P Require Import Prelude.

(** ** Interface of the [rand] crate *)

Class Rng (R : Type) : Type := {
  (** [rng.random_range(0..n)] *)
  random_range : nat → R → nat * R;
  (** [IteratorRandom::choose] *)
  choose : ∀ {A : Type}, list A → R → option A * R;
  (** [SliceRandom::shuffle] *)
  shuffle : ∀ {A : Type}, list A → R → list A * R;
  (** [SeedableRng::from_rng]: the new generator and the advanced old one *)
  from_rng : R → R * R;
  random_range_lt : ∀ n r, 0 < n → (random_range n r).1 < n;
  choose_elem_of : ∀ {A} (l : list A) r x, (choose l r).1 = Some x → x ∈ l;
  choose_nonempty : ∀ {A} (l : list A) r, l ≠ [] → is_Some (choose l r).1;
  shuffle_perm : ∀ {A} (l : list A) r, (shuffle l r).1 ≡ₚ l
}.

(** ** Interface of the [indexmap] crate *)

(** [swap_remove]: the removed position is filled with the last element. *)
Definition swap_remove {A} (i : nat) (l : list A) : list A :=
  match last l with
  | Some z => take (length l - 1) (<[i := z]> l)
  | None => l
  end.

(** Position of the first occurrence. *)
Definition index_of {A} `{EqDecision A} (x : A) (l : list A) : option nat :=
  fst <$> list_find (x =.) l.

(** [indexmap::IndexSet<T>]: a set that remembers an order, observed through its
    iteration order [ixs_iter]. *)
Class IndexSetImpl (T : Type) `{EqDecision T} (IS : Type) : Type := {
  ixs_iter : IS → list T;
  ixs_new : IS;
  ixs_insert : T → IS → bool * IS;
  ixs_swap_remove_index : nat → IS → option T * IS;
  ixs_swap_remove_full : T → IS → option (nat * T) * IS;
  ixs_shift_remove_index : nat → IS → option T * IS;
  ixs_nodup : ∀ s, NoDup (ixs_iter s);
  ixs_iter_new : ixs_iter ixs_new = [];
  ixs_iter_insert_in : ∀ x s, x ∈ ixs_iter s →
    (ixs_insert x s).1 = false ∧ ixs_iter (ixs_insert x s).2 = ixs_iter s;
  ixs_iter_insert_out : ∀ x s, x ∉ ixs_iter s →
    (ixs_insert x s).1 = true ∧ ixs_iter (ixs_insert x s).2 = ixs_iter s ++ [x];
  ixs_iter_swap_remove_index : ∀ i s,
    (ixs_swap_remove_index i s).1 = ixs_iter s !! i ∧
    ixs_iter (ixs_swap_remove_index i s).2 =
      (if decide (i < length (ixs_iter s)) then swap_remove i (ixs_iter s) else ixs_iter s);
  ixs_iter_swap_remove_full : ∀ x s,
    (ixs_swap_remove_full x s).1 = (λ i, (i, x)) <$> index_of x (ixs_iter s) ∧
    ixs_iter (ixs_swap_remove_full x s).2 =
      match index_of x (ixs_iter s) with
      | Some i => swap_remove i (ixs_iter s)
      | None => ixs_iter s
      end;
  ixs_iter_shift_remove_index : ∀ i s,
    (ixs_shift_remove_index i s).1 = ixs_iter s !! i ∧
    ixs_iter (ixs_shift_remove_index i s).2 = delete i (ixs_iter s)
}.

(** ** [IndexSet<T>] (the wrapper) *)

Module index_set.
Section defs.
Context {T : Type} `{EqDecision T} {IS : Type} `{!IndexSetImpl T IS}
  {R : Type} `{!Rng R}.

Definition new : IS := ixs_new.

Definition iter (s : IS) : list T := ixs_iter s.

Definition contains (x : T) (s : IS) : bool := bool_decide (x ∈ iter s).

Definition len (s : IS) : nat := length (iter s).

Definition is_empty (s : IS) : bool := bool_decide (len s = 0).

Definition get_index (i : nat) (s : IS) : option T := iter s !! i.

Definition get_index_of (x : T) (s : IS) : option nat := index_of x (iter s).

Definition insert (x : T) (s : IS) : bool * IS := ixs_insert x s.

Definition pick_random_index (s : IS) (r : R) : option nat * R :=
  if is_empty s then (None, r)
  else let '(i, r') := random_range (len s) r in (Some i, r').

Definition remove_random (s : IS) (r : R) : option T * IS * R :=
  match pick_random_index s r with
  | (Some i, r') => let '(x, s') := ixs_shift_remove_index i s in (x, s', r')
  | (None, r') => (None, s, r')
  end.

Definition pick_random (s : IS) (r : R) : option T * R :=
  match pick_random_index s r with
  | (Some i, r') => (get_index i s, r')
  | (None, r') => (None, r')
  end.

Definition pick_random_without (without : list T) (s : IS) (r : R) : option T * R :=
  choose (filter (.∉ without) (iter s)) r.

Definition remove (x : T) (s : IS) : option T * IS :=
  let '(o, s') := ixs_swap_remove_full x s in (snd <$> o, s').

Definition remove_index (i : nat) (s : IS) : option T * IS :=
  ixs_swap_remove_index i s.

Definition iter_without (x : T) (s : IS) : list T := filter (.≠ x) (iter s).

Definition shuffled (s : IS) (r : R) : list T * R := shuffle (iter s) r.

Definition shuffled_and_capped (s : IS) (n : nat) (r : R) : list T * R :=
  let '(items, r') := shuffled s r in (take n items, r').

Definition shuffled_without (without : list T) (s : IS) (r : R) : list T * R :=
  shuffle (filter (.∉ without) (iter s)) r.

Definition shuffled_without_and_capped (without : list T) (n : nat) (s : IS) (r : R)
    : list T * R :=
  let '(items, r') := shuffled_without without s r in (take n items, r').

(** [FromIterator]: insert every element in order. *)
Definition from_iter (l : list T) : IS :=
  foldl (λ s x, (insert x s).2) new l.

End defs.
End index_set.

(** ** [TimerMap<T>] *)

Module timer_map.

Record TimerMapEntry (T : Type) : Type := mkEntry {
  time : N;
  seq : N;
  item : T
}.
Arguments mkEntry {T}.
Arguments time {T}.
Arguments seq {T}.
Arguments item {T}.

(** [Ord::cmp]: earlier times, then smaller sequence numbers, are greater. *)
Definition cmp {T} (a b : TimerMapEntry T) : comparison :=
  match CompOpp (N.compare (time a) (time b)) with
  | Eq => CompOpp (N.compare (seq a) (seq b))
  | c => c
  end.

Record TimerMap (T : Type) : Type := mkTimerMap {
  heap : list (TimerMapEntry T);
  next_seq : N
}.
Arguments mkTimerMap {T}.
Arguments heap {T}.
Arguments next_seq {T}.

Section defs.
Context {T : Type}.
Implicit Types (m : TimerMap T) (e : TimerMapEntry T).

(** [BinaryHeap::peek]: a greatest entry, here with its position in the bag. *)
Fixpoint heap_max (l : list (TimerMapEntry T)) : option (nat * TimerMapEntry T) :=
  match l with
  | [] => None
  | e :: l' =>
      match heap_max l' with
      | None => Some (0, e)
      | Some (i, e') =>
          match cmp e e' with
          | Lt => Some (S i, e')
          | _ => Some (0, e)
          end
      end
  end.

Definition heap_peek (l : list (TimerMapEntry T)) : option (TimerMapEntry T) :=
  snd <$> heap_max l.

(** [BinaryHeap::pop]. *)
Definition heap_pop (l : list (TimerMapEntry T))
    : option (TimerMapEntry T * list (TimerMapEntry T)) :=
  '(i, e) ← heap_max l; Some (e, delete i l).

Definition new : TimerMap T := mkTimerMap [] 0.

Definition insert (instant : N) (x : T) (m : TimerMap T) : TimerMap T :=
  mkTimerMap (mkEntry instant (next_seq m) x :: heap m) (next_seq m + 1).

Definition pop_before (limit : N) (m : TimerMap T) : option (N * T) * TimerMap T :=
  match heap_peek (heap m) with
  | Some e =>
      if decide (time e ≤ limit)%N then
        match heap_pop (heap m) with
        | Some (e', h') => (Some (time e', item e'), mkTimerMap h' (next_seq m))
        | None => (None, m)
        end
      else (None, m)
  | None => (None, m)
  end.

(** [std::iter::from_fn(|| self.pop_before(from))], with at most [fuel] calls. *)
Fixpoint drain_fuel (fuel : nat) (from : N) (m : TimerMap T)
    : list (N * T) * TimerMap T :=
  match fuel with
  | 0 => ([], m)
  | S fuel' =>
      match pop_before from m with
      | (None, m') => ([], m')
      | (Some x, m') =>
          let '(xs, m'') := drain_fuel fuel' from m' in (x :: xs, m'')
      end
  end.

(** One call more than there are entries reaches the final [None]. *)
Definition drain_until (from : N) (m : TimerMap T) : list (N * T) * TimerMap T :=
  drain_fuel (S (length (heap m))) from m.

Definition first (m : TimerMap T) : option N := time <$> heap_peek (heap m).

End defs.
End timer_map.

(** ** [TimeBoundCache<K, V>] *)

Module time_bound_cache.

Record TimeBoundCache (K V : Type) `{Countable K} : Type := mkCache {
  map : gmap K (N * V);
  expiry : timer_map.TimerMap K
}.
Arguments mkCache {K V _ _}.
Arguments map {K V _ _}.
Arguments expiry {K V _ _}.

Section defs.
Context {K V : Type} `{Countable K}.
Implicit Types (c : TimeBoundCache K V).

Definition new : TimeBoundCache K V := mkCache ∅ timer_map.new.

Definition insert (k : K) (v : V) (expires : N) (c : TimeBoundCache K V)
    : TimeBoundCache K V :=
  mkCache (<[k := (expires, v)]> (map c)) (timer_map.insert expires k (expiry c)).

Definition contains_key (k : K) (c : TimeBoundCache K V) : bool :=
  bool_decide (is_Some (map c !! k)).

Definition len (c : TimeBoundCache K V) : nat := size (map c).

Definition is_empty (c : TimeBoundCache K V) : bool := bool_decide (map c = ∅).

Definition get (k : K) (c : TimeBoundCache K V) : option V := snd <$> map c !! k.

Definition expires (k : K) (c : TimeBoundCache K V) : option N := fst <$> map c !! k.

(** The loop body of [expire_until] for one drained [(time, key)]. *)
Definition expire_one (tk : N * K) (mc : gmap K (N * V) * nat)
    : gmap K (N * V) * nat :=
  let '(time, key) := tk in
  let '(m, count) := mc in
  match m !! key with
  | Some (e, _) => if decide (e = time) then (delete key m, S count) else (m, count)
  | None => (m, count)
  end.

Definition expire_until (instant : N) (c : TimeBoundCache K V)
    : nat * TimeBoundCache K V :=
  let '(drained, expiry') := timer_map.drain_until instant (expiry c) in
  let '(m', count) := foldl (λ acc tk, expire_one tk acc) (map c, 0) drained in
  (count, mkCache m' expiry').

End defs.
End time_bound_cache.

(** ** Lemmas on the list views *)

Lemma swap_remove_perm {A} (i : nat) (l : list A) (x : A) :
  l !! i = Some x → l ≡ₚ x :: swap_remove i l.
Proof.
  intros Hi. unfold swap_remove.
  destruct (last l) as [z|] eqn:Hlast.
  2:{ apply last_None in Hlast. subst. done. }
  apply last_Some in Hlast as [l' ->].
  rewrite length_app. simpl. replace (length l' + 1 - 1) with (length l') by lia.
  destruct (decide (i < length l')) as [Hlt|Hge].
  - rewrite insert_app_l by done. rewrite take_app_length'; [|by rewrite length_insert].
    rewrite lookup_app_l in Hi by done.
    rewrite <- (take_drop_middle l' i x Hi) at 1.
    rewrite (insert_take_drop l' i z) by done. solve_Permutation.
  - assert (i = length l') as ->.
    { apply lookup_lt_Some in Hi. rewrite length_app in Hi. simpl in Hi. lia. }
    rewrite list_lookup_middle in Hi by done. simplify_eq.
    rewrite insert_app_r_alt by lia. rewrite Nat.sub_diag. simpl.
    rewrite take_app_length. solve_Permutation.
Qed.

Lemma index_of_Some {A} `{EqDecision A} (x : A) (l : list A) i :
  index_of x l = Some i → l !! i = Some x.
Proof.
  unfold index_of. intros Hf. apply fmap_Some in Hf as ([j y] & Hf & ->). simpl.
  apply list_find_Some in Hf as (? & -> & _). done.
Qed.

Lemma index_of_None {A} `{EqDecision A} (x : A) (l : list A) :
  index_of x l = None ↔ x ∉ l.
Proof.
  unfold index_of. rewrite fmap_None, list_find_None, Forall_forall.
  split; [|naive_solver]. intros Hall Hin. by apply (Hall x Hin).
Qed.

Lemma index_of_elem {A} `{EqDecision A} (x : A) (l : list A) :
  x ∈ l → ∃ i, index_of x l = Some i ∧ l !! i = Some x.
Proof.
  intros Hin. destruct (index_of x l) as [i|] eqn:E.
  - eauto using index_of_Some.
  - by apply index_of_None in E.
Qed.

(** ** Lemmas on [IndexSet] *)

Module index_set_facts.
Import index_set.
Section facts.
Context {T : Type} `{EqDecision T} {IS : Type} `{!IndexSetImpl T IS}
  {R : Type} `{!Rng R}.
Implicit Types (s : IS) (r : R) (x y : T).

Lemma iter_nodup s : NoDup (iter s).
Proof. apply ixs_nodup. Qed.

Lemma iter_new : iter new = [].
Proof. apply ixs_iter_new. Qed.

Lemma contains_true x s : contains x s = true ↔ x ∈ iter s.
Proof. apply bool_decide_eq_true. Qed.

Lemma contains_false x s : contains x s = false ↔ x ∉ iter s.
Proof. apply bool_decide_eq_false. Qed.

Lemma is_empty_true s : is_empty s = true ↔ iter s = [].
Proof. unfold is_empty, len. rewrite bool_decide_eq_true. apply length_zero_iff_nil. Qed.

Lemma elem_of_insert x y s : y ∈ iter (insert x s).2 ↔ y = x ∨ y ∈ iter s.
Proof.
  unfold insert, iter in *.
  destruct (decide (x ∈ iter s)) as [Hin|Hout].
  - destruct (ixs_iter_insert_in x s Hin) as [_ ->]. set_solver.
  - destruct (ixs_iter_insert_out x s Hout) as [_ ->].
    rewrite elem_of_app, list_elem_of_singleton. tauto.
Qed.

Lemma insert_fresh x s : (insert x s).1 = true ↔ x ∉ iter s.
Proof.
  unfold insert, iter in *.
  destruct (decide (x ∈ iter s)) as [Hin|Hout].
  - destruct (ixs_iter_insert_in x s Hin) as [-> _]. naive_solver.
  - destruct (ixs_iter_insert_out x s Hout) as [-> _]. naive_solver.
Qed.

Lemma len_insert x s :
  len (insert x s).2 = if contains x s then len s else S (len s).
Proof.
  unfold len, insert. destruct (contains x s) eqn:E.
  - apply contains_true in E. unfold iter in *. by destruct (ixs_iter_insert_in x s E) as [_ ->].
  - apply contains_false in E. unfold iter in *.
    destruct (ixs_iter_insert_out x s E) as [_ ->].
    rewrite length_app. simpl. lia.
Qed.

Lemma remove_index_perm i x s :
  iter s !! i = Some x →
  (remove_index i s).1 = Some x ∧ iter s ≡ₚ x :: iter (remove_index i s).2.
Proof.
  intros Hi. unfold remove_index, iter in *.
  destruct (ixs_iter_swap_remove_index i s) as [-> ->].
  rewrite decide_True by eauto using lookup_lt_Some.
  split; [done|]. by apply swap_remove_perm.
Qed.

Lemma remove_index_None i s :
  iter s !! i = None → (remove_index i s).1 = None ∧ iter (remove_index i s).2 = iter s.
Proof.
  intros Hi. unfold remove_index, iter in *.
  destruct (ixs_iter_swap_remove_index i s) as [-> ->].
  rewrite decide_False; [done|]. apply lookup_ge_None in Hi. lia.
Qed.

Lemma remove_perm x s : x ∈ iter s → iter s ≡ₚ x :: iter (remove x s).2.
Proof.
  intros Hx. destruct (index_of_elem _ _ Hx) as (i & Hi & Hl).
  unfold remove, iter in *. pose proof (ixs_iter_swap_remove_full x s) as [_ Hs].
  destruct (ixs_swap_remove_full x s) as [o s']. simpl in *.
  rewrite Hs, Hi. by apply swap_remove_perm.
Qed.

Lemma remove_absent x s : x ∉ iter s → iter (remove x s).2 = iter s.
Proof.
  intros Hx%index_of_None. unfold remove, iter in *.
  pose proof (ixs_iter_swap_remove_full x s) as [_ Hs].
  destruct (ixs_swap_remove_full x s) as [o s']. simpl in *. by rewrite Hs, Hx.
Qed.

(** A duplicate-free list loses exactly the head of a permutation of it. *)
Lemma perm_cons_elem x y s l :
  iter s ≡ₚ x :: l → y ∈ l ↔ y ∈ iter s ∧ y ≠ x.
Proof.
  intros Hp. pose proof (iter_nodup s) as Hnd. rewrite Hp in Hnd.
  apply NoDup_cons in Hnd as [Hnx _]. rewrite Hp, elem_of_cons. naive_solver.
Qed.

Lemma elem_of_remove x y s : y ∈ iter (remove x s).2 ↔ y ∈ iter s ∧ y ≠ x.
Proof.
  destruct (decide (x ∈ iter s)) as [Hx|Hx].
  - by apply perm_cons_elem, remove_perm.
  - rewrite remove_absent by done. split; [|naive_solver].
    intros Hy. split; [done|]. by intros ->.
Qed.

Lemma len_remove x s : len (remove x s).2 ≤ len s.
Proof.
  unfold len. destruct (decide (x ∈ iter s)) as [Hx|Hx].
  - apply remove_perm in Hx. apply Permutation_length in Hx. simpl in *. lia.
  - by rewrite remove_absent.
Qed.

Lemma pick_random_index_spec s r :
  match (pick_random_index s r).1 with
  | Some i => i < len s
  | None => iter s = []
  end.
Proof.
  unfold pick_random_index. destruct (is_empty s) eqn:E; [by apply is_empty_true|].
  destruct (random_range (len s) r) as [i r'] eqn:Hr. simpl.
  replace i with (random_range (len s) r).1 by (by rewrite Hr).
  apply random_range_lt. unfold is_empty in E. apply bool_decide_eq_false in E. lia.
Qed.

Lemma pick_random_spec s r :
  match (pick_random s r).1 with
  | Some x => x ∈ iter s
  | None => iter s = []
  end.
Proof.
  unfold pick_random. pose proof (pick_random_index_spec s r) as Hp.
  destruct (pick_random_index s r) as [[i|] r']; simpl in *; [|done].
  destruct (lookup_lt_is_Some_2 (iter s) i Hp) as [x Hx].
  unfold get_index. rewrite Hx. eauto using list_elem_of_lookup_2.
Qed.

(** The element leaves a non-empty set; order is kept, nothing else changes. *)
Lemma remove_random_spec s r :
  let '(o, s', _) := remove_random s r in
  match o with
  | Some x => iter s ≡ₚ x :: iter s'
  | None => iter s = [] ∧ iter s' = iter s
  end.
Proof.
  unfold remove_random. pose proof (pick_random_index_spec s r) as Hp.
  destruct (pick_random_index s r) as [[i|] r']; simpl in *; [|done].
  destruct (lookup_lt_is_Some_2 (iter s) i Hp) as [x Hx].
  pose proof (ixs_iter_shift_remove_index i s) as [H1 H2].
  destruct (ixs_shift_remove_index i s) as [o s']. simpl in *.
  unfold iter in *. rewrite H1, Hx, H2. by apply delete_Permutation.
Qed.

Lemma pick_random_without_spec without s r :
  match (pick_random_without without s r).1 with
  | Some x => x ∈ iter s ∧ x ∉ without
  | None => ∀ x, x ∈ iter s → x ∈ without
  end.
Proof.
  unfold pick_random_without.
  destruct (choose (filter (.∉ without) (iter s)) r).1 as [x|] eqn:E.
  - apply choose_elem_of in E. rewrite list_elem_of_filter in E. tauto.
  - intros x Hx. destruct (decide (x ∈ without)) as [|Hn]; [done|].
    destruct (choose_nonempty (filter (.∉ without) (iter s)) r) as [y Hy].
    + intros Hnil. apply (not_elem_of_nil x). rewrite <- Hnil.
      by apply list_elem_of_filter.
    + congruence.
Qed.

Lemma elem_of_iter_without x y s : y ∈ iter_without x s ↔ y ∈ iter s ∧ y ≠ x.
Proof. unfold iter_without. rewrite list_elem_of_filter. tauto. Qed.

Lemma shuffled_without_and_capped_spec without n s r :
  let l := (shuffled_without_and_capped without n s r).1 in
  NoDup l ∧ length l ≤ n ∧ ∀ x, x ∈ l → x ∈ iter s ∧ x ∉ without.
Proof.
  unfold shuffled_without_and_capped, shuffled_without.
  pose proof (shuffle_perm (filter (.∉ without) (iter s)) r) as Hp.
  destruct (shuffle (filter (.∉ without) (iter s)) r) as [l r']. simpl in *.
  split; [|split].
  - eapply sublist_NoDup; [|apply sublist_take]. rewrite Hp.
    apply NoDup_filter, iter_nodup.
  - rewrite length_take. lia.
  - intros x Hx. apply elem_of_take in Hx as (i & Hx & _).
    apply list_elem_of_lookup_2 in Hx. rewrite Hp, list_elem_of_filter in Hx. tauto.
Qed.

Lemma shuffled_and_capped_spec n s r :
  let l := (shuffled_and_capped s n r).1 in
  NoDup l ∧ length l = n `min` len s ∧ ∀ x, x ∈ l → x ∈ iter s.
Proof.
  unfold shuffled_and_capped, shuffled.
  pose proof (shuffle_perm (iter s) r) as Hp.
  destruct (shuffle (iter s) r) as [l r']. simpl in *.
  split; [|split].
  - eapply sublist_NoDup; [|apply sublist_take]. rewrite Hp. apply iter_nodup.
  - rewrite length_take, Hp. done.
  - intros x Hx. apply elem_of_take in Hx as (i & Hx & _).
    apply list_elem_of_lookup_2 in Hx. by rewrite Hp in Hx.
Qed.

End facts.
End index_set_facts.

(** ** Lemmas on [TimerMap] *)

Module timer_map_facts.
Import timer_map.
Section facts.
Context {T : Type}.
Implicit Types (m : TimerMap T) (e : TimerMapEntry T) (l : list (TimerMapEntry T)).

(** [a] is due no later than [b]: earlier time, or same time and inserted first. *)
Definition due_before (a b : TimerMapEntry T) : Prop :=
  (time a < time b)%N ∨ (time a = time b ∧ (seq a ≤ seq b)%N).

Lemma cmp_spec a b : cmp a b ≠ Lt ↔ due_before a b.
Proof.
  unfold cmp, due_before.
  destruct (N.compare_spec (time a) (time b)); simpl;
    destruct (N.compare_spec (seq a) (seq b)); simpl; intuition (try congruence; lia).
Qed.

Lemma due_before_trans a b c : due_before a b → due_before b c → due_before a c.
Proof. unfold due_before. lia. Qed.

Lemma heap_max_None l : heap_max l = None ↔ l = [].
Proof.
  split; [|by intros ->]. destruct l as [|e l]; [done|]. simpl.
  destruct (heap_max l) as [[i e']|]; [|done]. by destruct (cmp e e').
Qed.

Lemma heap_max_spec l i e :
  heap_max l = Some (i, e) → l !! i = Some e ∧ ∀ e', e' ∈ l → due_before e e'.
Proof.
  revert i e. induction l as [|e0 l IH]; intros i e; simpl; [done|].
  destruct (heap_max l) as [[j e1]|] eqn:Hm.
  - destruct (IH j e1 eq_refl) as [Hj Hmin].
    destruct (cmp e0 e1) eqn:Hc; intros [= <- <-].
    + split; [done|]. assert (due_before e0 e1) as Hd by (apply cmp_spec; congruence).
      intros e' [->|He']%elem_of_cons; [apply cmp_spec; unfold cmp; rewrite !N.compare_refl; done|].
      eauto using due_before_trans.
    + split; [done|]. intros e' [->|He']%elem_of_cons; [|auto].
      unfold cmp, due_before in *. destruct (N.compare_spec (time e0) (time e1));
        simpl in *; destruct (N.compare_spec (seq e0) (seq e1)); simpl in *; try done; lia.
    + split; [done|]. assert (due_before e0 e1) as Hd by (apply cmp_spec; congruence).
      intros e' [->|He']%elem_of_cons; [apply cmp_spec; unfold cmp; rewrite !N.compare_refl; done|].
      eauto using due_before_trans.
  - apply heap_max_None in Hm as ->. intros [= <- <-]. split; [done|].
    intros e' ->%list_elem_of_singleton. apply cmp_spec. unfold cmp.
    by rewrite !N.compare_refl.
Qed.

(** One call of [pop_before]. *)
Lemma pop_before_spec limit m :
  match pop_before limit m with
  | (Some x, m') => ∃ e, x = (time e, item e) ∧ (time e ≤ limit)%N ∧
      heap m ≡ₚ e :: heap m' ∧ next_seq m' = next_seq m ∧
      ∀ e', e' ∈ heap m → due_before e e'
  | (None, m') => m' = m ∧ ∀ e, e ∈ heap m → (limit < time e)%N
  end.
Proof.
  unfold pop_before, heap_peek, heap_pop.
  destruct (heap_max (heap m)) as [[i e]|] eqn:Hm; simpl.
  - destruct (heap_max_spec _ _ _ Hm) as [Hi Hmin]. case_decide as Hle.
    + exists e. split_and!; auto. simpl. by apply delete_Permutation.
    + split; [done|]. intros e' He'. specialize (Hmin e' He').
      unfold due_before in Hmin. lia.
  - apply heap_max_None in Hm. rewrite Hm. split; [done|].
    intros e He. by apply not_elem_of_nil in He.
Qed.

Lemma drain_fuel_spec fuel from m :
  length (heap m) < fuel →
  ∃ es, (drain_fuel fuel from m).1 = (λ e, (time e, item e)) <$> es ∧
    heap m ≡ₚ es ++ heap (drain_fuel fuel from m).2 ∧
    next_seq (drain_fuel fuel from m).2 = next_seq m ∧
    StronglySorted due_before es ∧
    (∀ e, e ∈ es → (time e ≤ from)%N) ∧
    (∀ e, e ∈ heap (drain_fuel fuel from m).2 → (from < time e)%N).
Proof.
  revert m. induction fuel as [|fuel IH]; intros m Hlen; [lia|]. simpl.
  pose proof (pop_before_spec from m) as Hp.
  destruct (pop_before from m) as [[x|] m'].
  - destruct Hp as (e & -> & Hle & Hperm & Hseq & Hmin).
    assert (length (heap m') < fuel) as Hlen'.
    { apply Permutation_length in Hperm. simpl in Hperm. lia. }
    destruct (IH m' Hlen') as (es & H1 & H2 & H3 & H4 & H5 & H6).
    destruct (drain_fuel fuel from m') as [xs m'']. simpl in *.
    exists (e :: es). split_and!; simpl; try done.
    + by rewrite H1.
    + by rewrite Hperm, H2.
    + congruence.
    + constructor; [done|]. apply Forall_forall. intros e' He'. apply Hmin.
      rewrite Hperm, H2. set_solver.
    + intros e' [->|He']%elem_of_cons; auto.
  - destruct Hp as [-> Hall]. exists []. simpl.
    split_and!; first [done | by constructor | set_solver].
Qed.

(** [drain_until] always terminates and hands out exactly the entries due at or before
    the instant, earliest first and in insertion order at equal times; what stays in the
    queue is due later. *)
Theorem drain_until_exact from m :
  ∃ es, (drain_until from m).1 = (λ e, (time e, item e)) <$> es ∧
    heap m ≡ₚ es ++ heap (drain_until from m).2 ∧
    StronglySorted due_before es ∧
    (∀ e, e ∈ es → (time e ≤ from)%N) ∧
    (∀ e, e ∈ heap (drain_until from m).2 → (from < time e)%N).
Proof.
  destruct (drain_fuel_spec (S (length (heap m))) from m) as (es & ? & ? & _ & ? & ? & ?); [lia|].
  by exists es.
Qed.

End facts.
End timer_map_facts.

(** ** Lemmas on [TimeBoundCache] *)

Module time_bound_cache_facts.
Import time_bound_cache.
Section facts.
Context {K V : Type} `{Countable K}.
Implicit Types (c : TimeBoundCache K V) (k : K) (m : gmap K (N * V)).

(** Every entry of the map has its expiry queued. *)
Definition wf (c : TimeBoundCache K V) : Prop :=
  ∀ k e v, map c !! k = Some (e, v) →
    ∃ en, en ∈ timer_map.heap (expiry c) ∧ timer_map.time en = e ∧ timer_map.item en = k.

(** The reference behaviour of [expire_until]: keep what expires later. *)
Definition live_after (t : N) (m : gmap K (N * V)) : gmap K (N * V) :=
  filter (λ kv, (t < kv.2.1)%N) m.

Lemma wf_new : wf new.
Proof. intros k e v. unfold new. cbn [map]. by rewrite lookup_empty. Qed.

Lemma wf_insert k v t c : wf c → wf (insert k v t c).
Proof.
  intros Hwf k' e' v'. unfold insert. simpl. rewrite lookup_insert.
  case_decide as Hk; subst; intros Hl.
  - simplify_eq. eexists. split; [left|]. done.
  - destruct (Hwf _ _ _ Hl) as (en & Hin & ?). exists en. split; [by right|done].
Qed.

(** One drained entry removes its key if the key still expires at that time. *)
Lemma expire_one_spec t k m n :
  let '(m', n') := expire_one (t, k) (m, n) in
  m' = filter (λ kv, (kv.2.1, kv.1) ≠ (t, k)) m ∧ n' + size m' = n + size m.
Proof.
  assert ((∀ v, m !! k ≠ Some (t, v)) → m = filter (λ kv, (kv.2.1, kv.1) ≠ (t, k)) m) as Hid.
  { intros Hno. symmetry. apply map_filter_id. intros k' [e' v'] Hl [= -> ->].
    by apply (Hno v'). }
  simpl. destruct (m !! k) as [[e v]|] eqn:Hk; [case_decide as He; [subst e|]|].
  - split.
    + apply map_eq. intros k'. apply option_eq. intros [e' v'].
      rewrite map_lookup_filter_Some, lookup_delete_Some. simpl.
      destruct (decide (k = k')) as [->|Hne]; naive_solver.
    + rewrite map_size_delete, Hk. simpl.
      assert (size m ≠ 0) by (apply map_size_non_empty_iff; intros ->; naive_solver). lia.
  - split; [|done]. apply Hid. naive_solver.
  - split; [|done]. apply Hid. naive_solver.
Qed.

(** The loop of [expire_until] removes the keys whose current expiry was drained. *)
Lemma expire_fold drained m n :
  let '(m', n') := foldl (λ acc tk, expire_one tk acc) (m, n) drained in
  m' = filter (λ kv, (kv.2.1, kv.1) ∉ drained) m ∧ n' + size m' = n + size m.
Proof.
  revert m n. induction drained as [|[t k] drained IH]; intros m n.
  - split; [|done]. symmetry. apply map_filter_id. intros. apply not_elem_of_nil.
  - cbn [foldl]. pose proof (expire_one_spec t k m n) as Ho.
    destruct (expire_one (t, k) (m, n)) as [m1 n1]. destruct Ho as [-> Hn1].
    specialize (IH (filter (λ kv, (kv.2.1, kv.1) ≠ (t, k)) m) n1).
    destruct (foldl _ _ _) as [m' n']. destruct IH as [-> Hn]. split; [|lia].
    rewrite map_filter_filter. apply map_filter_ext. intros k' [e' v'] _. simpl.
    rewrite not_elem_of_cons. tauto.
Qed.

(** [expire_until] computes the reference behaviour and keeps the cache well-formed. *)
Lemma expire_until_spec t c :
  wf c →
  map (expire_until t c).2 = live_after t (map c) ∧
  (expire_until t c).1 + size (live_after t (map c)) = size (map c) ∧
  wf (expire_until t c).2.
Proof.
  intros Hwf. unfold expire_until, timer_map.drain_until.
  destruct (timer_map_facts.drain_fuel_spec
    (S (length (timer_map.heap (expiry c)))) t (expiry c)) as (es & H1 & H2 & _ & _ & H5 & H6);
    [lia|].
  destruct (timer_map.drain_fuel _ _ _) as [drained exp']. simpl in *.
  pose proof (expire_fold drained (map c) 0) as Hf.
  destruct (foldl _ _ _) as [m' n']. destruct Hf as [-> Hn]. simpl.
  assert (filter (λ kv : K * (N * V), (kv.2.1, kv.1) ∉ drained) (map c)
          = live_after t (map c)) as Heq.
  { apply map_filter_ext. intros k [e v] Hl. simpl. subst drained.
    destruct (Hwf _ _ _ Hl) as (en & Hin & Ht & Hi).
    rewrite H2, elem_of_app in Hin. rewrite list_elem_of_fmap. split.
    - intros Hnot. destruct Hin as [Hin|Hin]; [|apply H6 in Hin; congruence].
      destruct Hnot. exists en. split; congruence.
    - intros Hlt (en' & [= Ht' Hi'] & Hin'). apply H5 in Hin'. lia. }
  rewrite Heq in *. split; [done|split; [lia|]].
  intros k e v Hl. simpl in *. apply map_lookup_filter_Some in Hl as [Hl Hlt].
  destruct (Hwf _ _ _ Hl) as (en & Hin & Ht & Hi). simpl in Hlt.
  rewrite H2, elem_of_app in Hin. destruct Hin as [Hin|Hin].
  - apply H5 in Hin. lia.
  - eauto.
Qed.

Lemma contains_key_true k c : contains_key k c = true ↔ is_Some (map c !! k).
Proof. apply bool_decide_eq_true. Qed.

Lemma contains_key_false k c : contains_key k c = false ↔ map c !! k = None.
Proof. unfold contains_key. rewrite bool_decide_eq_false. symmetry. apply eq_None_not_Some. Qed.

(** The operations that change a cache, and their effect on the implementation and on the
    reference: a map from keys to expiry and value. *)
Inductive cache_op : Type :=
| OpInsert (k : K) (v : V) (expires : N)
| OpExpire (instant : N).

Definition apply_op (c : TimeBoundCache K V) (op : cache_op) : TimeBoundCache K V :=
  match op with
  | OpInsert k v t => insert k v t c
  | OpExpire t => (expire_until t c).2
  end.

Definition reference_op (m : gmap K (N * V)) (op : cache_op) : gmap K (N * V) :=
  match op with
  | OpInsert k v t => <[k := (t, v)]> m
  | OpExpire t => live_after t m
  end.

Lemma apply_op_refines c op :
  wf c → wf (apply_op c op) ∧ map (apply_op c op) = reference_op (map c) op.
Proof.
  intros Hwf. destruct op as [k v t|t]; simpl; [split; [by apply wf_insert|done]|].
  destruct (expire_until_spec t c Hwf) as (? & _ & ?). done.
Qed.

(** After any sequence of insertions and expirations the cache holds exactly what the
    reference map holds: a key re-inserted with another expiry follows the last
    insertion only, although its earlier expiry is still queued; and the next
    [expire_until] returns the number of keys it removes. *)
Theorem cache_refines_map ops t :
  let c := foldl apply_op new ops in
  map c = foldl reference_op ∅ ops ∧
  (expire_until t c).1 = size (map c) - size (live_after t (map c)).
Proof.
  assert (∀ c, wf c → wf (foldl apply_op c ops) ∧
    map (foldl apply_op c ops) = foldl reference_op (map c) ops) as Hrun.
  { induction ops as [|op ops IH]; intros c Hwf; [done|]. simpl.
    destruct (apply_op_refines c op Hwf) as [Hwf' <-]. by apply IH. }
  intros c. destruct (Hrun new wf_new) as [Hwf Hmap]. split; [done|].
  destruct (expire_until_spec t c Hwf) as (_ & ? & _). lia.
Qed.

End facts.
End time_bound_cache_facts.
