(* ===== verification/Signing.v ===== *)
(** * Signatures and canonical framing: [src/protocol_signing.rs]

    [Module protocol_signing] translates the framing of signed objects.  The crates below
    it are interfaces: [Ed25519] (key pairs of iroh), [Hasher] (blake3) and [Postcard]
    (the serialization of one type, with the round trip the format guarantees).  Nothing
    is assumed about forging signatures or about collisions of the hash. *)

From Stdlib Require Import NArith.
From stdpp Require Import prelude gmap strings.
From S2P Require Import Prelude.

Abbreviation PublicKey := Bytes.

(** [postcard::to_stdvec] and [postcard::from_bytes] at one type. *)
Class Postcard (A : Type) : Type := {
  to_stdvec : A → option Bytes;
  from_bytes : Bytes → option A;
  postcard_roundtrip a b : to_stdvec a = Some b → from_bytes b = Some a
}.

(** [iroh::SecretKey] and [iroh::PublicKey]. *)
Class Ed25519 : Type := {
  SecretKey : Type;
  public : SecretKey → PublicKey;
  sign : SecretKey → Bytes → Bytes;
  key_verify : PublicKey → Bytes → Bytes → bool;
  sign_length sk data : length (sign sk data) = 64;
  key_verify_sign sk data : key_verify (public sk) data (sign sk data) = true
}.

(** [blake3::hash] *)
Class Hasher : Type := { blake3 : Bytes → Bytes }.

Lemma to_stdvec_inj {A} `{!Postcard A} a a' b :
  to_stdvec a = Some b → to_stdvec a' = Some b → a = a'.
Proof.
  intros Ha%postcard_roundtrip Ha'%postcard_roundtrip. congruence.
Qed.

Module protocol_signing.

Definition SIGNATURE_LEN : nat := 64.

Section signing.
Context `{!Ed25519}.
Implicit Types (key : PublicKey) (signature data : Bytes).

Definition canonical_signed_bytes {F} `{!Postcard (string * N * F)} (protocol : string)
    (version : N) (fields : F) : option Bytes :=
  to_stdvec (protocol, version, fields).

Definition verify key signature data : bool :=
  bool_decide (length signature = SIGNATURE_LEN) && key_verify key data signature.

Definition verify_canonical_or_legacy key signature (canonical legacy : Bytes) : bool :=
  verify key signature canonical || verify key signature legacy.

(** A signature made over the canonical bytes is accepted, whatever the legacy ones. *)
Lemma verify_signed sk data legacy :
  verify_canonical_or_legacy (public sk) (sign sk data) data legacy = true.
Proof.
  unfold verify_canonical_or_legacy, verify, SIGNATURE_LEN.
  by rewrite bool_decide_true, key_verify_sign by apply sign_length.
Qed.

(** The protocol tag, the version and the fields are bound by the canonical bytes. *)
Lemma canonical_signed_bytes_inj {F} `{!Postcard (string * N * F)} p v (f : F) p' v' f' b :
  canonical_signed_bytes p v f = Some b → canonical_signed_bytes p' v' f' = Some b →
  p = p' ∧ v = v' ∧ f = f'.
Proof.
  intros H1 H2. pose proof (to_stdvec_inj _ _ _ H1 H2). naive_solver.
Qed.

End signing.
End protocol_signing.
