(* ===== verification/Concrete.v ===== *)
(** * Concrete instances of the external interfaces

    A linear congruential generator for [Rng] and duplicate-free lists for
    [IndexSetImpl]; a bit-by-bit encoding of countable types for [Postcard] and a keyed
    digest without secrecy for [Ed25519].  They show that the interfaces can be implemented and let the
    witnesses of the component files run the protocol on concrete inputs. *)

From Stdlib Require Import Strings.Byte NArith.
From stdpp Require Import prelude gmap sorting strings.
From S2P Require Import Prelude ProtoUtil Signing.

(** ** A seeded generator *)

Definition lcg_next (r : N) : N := ((1103515245 * r + 12345) mod 2147483648)%N.

Definition lcg_range (n : nat) (r : N) : nat * N :=
  (N.to_nat ((lcg_next r / 65536) mod N.of_nat n)%N, lcg_next r).

Definition lcg_choose {A} (l : list A) (r : N) : option A * N :=
  let '(i, r') := lcg_range (length l) r in (l !! i, r').

(** Repeatedly draw one of the remaining elements. *)
Fixpoint lcg_shuffle_fuel {A} (fuel : nat) (l : list A) (r : N) : list A * N :=
  match fuel with
  | 0 => (l, r)
  | S fuel' =>
      let '(i, r') := lcg_range (length l) r in
      match l !! i with
      | Some x =>
          let '(l', r'') := lcg_shuffle_fuel fuel' (delete i l) r' in (x :: l', r'')
      | None => (l, r')
      end
  end.

Lemma lcg_range_lt n r : 0 < n → (lcg_range n r).1 < n.
Proof.
  intros Hn. unfold lcg_range. cbn [fst].
  pose proof (N.mod_upper_bound (lcg_next r / 65536)%N (N.of_nat n)). lia.
Qed.

Lemma lcg_shuffle_perm {A} fuel (l : list A) r : (lcg_shuffle_fuel fuel l r).1 ≡ₚ l.
Proof.
  revert l r. induction fuel as [|fuel IH]; intros l r; [done|]. cbn [lcg_shuffle_fuel].
  destruct (lcg_range (length l) r) as [i r'].
  destruct (l !! i) as [x|] eqn:Hi; [|done].
  specialize (IH (delete i l) r'). destruct (lcg_shuffle_fuel fuel _ _) as [l' r''].
  simpl in *. rewrite IH. symmetry. by apply delete_Permutation.
Qed.

#[export] Program Instance lcg_rng : Rng N := {|
  random_range := lcg_range;
  choose A l r := lcg_choose l r;
  shuffle A l r := lcg_shuffle_fuel (length l) l r;
  from_rng r := (lcg_next r, lcg_next (lcg_next r))
|}.
Next Obligation. apply lcg_range_lt. Qed.
Next Obligation.
  intros A l r x. unfold lcg_choose. destruct (lcg_range (length l) r) as [i r'].
  apply list_elem_of_lookup_2.
Qed.
Next Obligation.
  intros A l r Hl. unfold lcg_choose. pose proof (lcg_range_lt (length l) r) as Hlt.
  destruct (lcg_range (length l) r) as [i r']. simpl in *.
  apply lookup_lt_is_Some_2, Hlt. destruct l; [done|simpl; lia].
Qed.
Next Obligation. intros A l r. apply lcg_shuffle_perm. Qed.

(** ** Duplicate-free lists *)

Record nodup_list (T : Type) : Type := mkNL {
  nl_list : list T;
  nl_nodup : NoDup nl_list
}.
Arguments mkNL {T}.
Arguments nl_list {T}.
Arguments nl_nodup {T}.

Section nodup_list.
Context {T : Type} `{EqDecision T}.
Implicit Types (s : nodup_list T) (x : T).

Lemma nl_insert_nodup x s : x ∉ nl_list s → NoDup (nl_list s ++ [x]).
Proof.
  intros Hx. apply NoDup_app. split_and!; [apply nl_nodup| |apply NoDup_singleton].
  intros y Hy ->%list_elem_of_singleton. done.
Qed.

Lemma nl_swap_remove_nodup i s : NoDup (swap_remove i (nl_list s)).
Proof.
  pose proof (nl_nodup s) as Hnd. destruct (nl_list s !! i) as [x|] eqn:Hi.
  - rewrite (swap_remove_perm _ _ _ Hi) in Hnd. by apply NoDup_cons in Hnd as [_ ?].
  - unfold swap_remove. destruct (last (nl_list s)) as [z|]; [|done].
    rewrite list_insert_ge by (by apply lookup_ge_None).
    eapply sublist_NoDup; [done|apply sublist_take].
Qed.

Lemma nl_delete_nodup i s : NoDup (delete i (nl_list s)).
Proof.
  eapply sublist_NoDup; [apply (nl_nodup s)|]. apply sublist_delete.
Qed.

Definition nl_insert (x : T) (s : nodup_list T) : bool * nodup_list T :=
  match decide (x ∈ nl_list s) with
  | left _ => (false, s)
  | right Hx => (true, mkNL (nl_list s ++ [x]) (nl_insert_nodup x s Hx))
  end.

Definition nl_swap_remove (i : nat) (s : nodup_list T) : nodup_list T :=
  mkNL (swap_remove i (nl_list s)) (nl_swap_remove_nodup i s).

Definition nl_shift_remove (i : nat) (s : nodup_list T) : nodup_list T :=
  mkNL (delete i (nl_list s)) (nl_delete_nodup i s).

#[export] Program Instance nodup_list_index_set : IndexSetImpl T (nodup_list T) := {|
  ixs_iter := nl_list;
  ixs_new := mkNL [] (NoDup_nil_2 (A:=T));
  ixs_insert := nl_insert;
  ixs_swap_remove_index i s :=
    match nl_list s !! i with
    | Some x => (Some x, nl_swap_remove i s)
    | None => (None, s)
    end;
  ixs_swap_remove_full x s :=
    match index_of x (nl_list s) with
    | Some i => (Some (i, x), nl_swap_remove i s)
    | None => (None, s)
    end;
  ixs_shift_remove_index i s := (nl_list s !! i, nl_shift_remove i s)
|}.
Next Obligation. apply nl_nodup. Qed.
Next Obligation. done. Qed.
Next Obligation. intros x s Hx. unfold nl_insert. by destruct (decide _). Qed.
Next Obligation. intros x s Hx. unfold nl_insert. by destruct (decide _). Qed.
Next Obligation.
  intros i s. simpl. destruct (nl_list s !! i) as [x|] eqn:Hi; simpl.
  - rewrite decide_True by eauto using lookup_lt_Some. done.
  - rewrite decide_False; [done|]. apply lookup_ge_None in Hi. lia.
Qed.
Next Obligation. intros x s. simpl. by destruct (index_of x (nl_list s)). Qed.
Next Obligation. done. Qed.

End nodup_list.

Arguments nodup_list_index_set {T _}.

(** The unit tests of [proto::util]: the order after [swap_remove] and expiry. *)
Example index_set_remove_moves_last :
  index_set.iter (index_set.remove (IS := nodup_list N) 2%N
    (index_set.from_iter [1; 2; 3; 4]%N)).2 = [1; 4; 3]%N.
Proof. vm_compute. reflexivity. Qed.

(** ** A linear serialization *)

(** A prefix code: a decoder returns the value and the rest. *)
Class Ser (A : Type) : Type := {
  ser : A → Bytes;
  de : Bytes → option (A * Bytes);
  de_ser a rest : de (ser a ++ rest) = Some (a, rest)
}.

#[export] Program Instance ser_byte : Ser Byte.byte :=
  {| ser b := [b]; de bs := match bs with b :: rest => Some (b, rest) | [] => None end |}.
Next Obligation. done. Qed.

#[export] Program Instance ser_prod {A B} `{!Ser A, !Ser B} : Ser (A * B) :=
  {| ser p := ser p.1 ++ ser p.2;
     de bs := match de bs with
              | Some (a, bs') =>
                  match de bs' with Some (b, rest) => Some ((a, b), rest) | None => None end
              | None => None
              end |}.
Next Obligation. intros A B ? ? [a b] rest. simpl. by rewrite <- app_assoc, !de_ser. Qed.

#[export] Instance ser_sum {A B} `{!Ser A, !Ser B} : Ser (A + B).
Proof.
  refine {|
    ser x := match x with inl a => x00 :: ser a | inr b => x01 :: ser b end;
    de bs := match bs with
             | x00 :: bs' =>
                 match de bs' with Some (a, rest) => Some (inl a, rest) | None => None end
             | x01 :: bs' =>
                 match de bs' with Some (b, rest) => Some (inr b, rest) | None => None end
             | _ => None
             end |}.
  intros [a|b] rest; simpl; by rewrite de_ser.
Defined.

#[export] Program Instance ser_unit : Ser unit := {| ser _ := []; de bs := Some (tt, bs) |}.
Next Obligation. by intros []. Qed.

Fixpoint ser_list_go {A} `{!Ser A} (l : list A) : Bytes :=
  match l with
  | [] => [x00]
  | a :: l' => x01 :: ser a ++ ser_list_go l'
  end.

Fixpoint de_list_go {A} `{!Ser A} (fuel : nat) (bs : Bytes) : option (list A * Bytes) :=
  match fuel, bs with
  | S n, x00 :: rest => Some ([], rest)
  | S n, x01 :: bs' =>
      match de bs' with
      | Some (a, bs'') =>
          match de_list_go n bs'' with
          | Some (l, rest) => Some (a :: l, rest)
          | None => None
          end
      | None => None
      end
  | _, _ => None
  end.

Lemma de_ser_list {A} `{!Ser A} (l : list A) n rest :
  length (ser_list_go l) ≤ n → de_list_go n (ser_list_go l ++ rest) = Some (l, rest).
Proof.
  revert n. induction l as [|a l IH]; intros [|n] Hn; simpl in *; try lia; [done|].
  rewrite <- app_assoc, de_ser, IH; [done|]. rewrite length_app in Hn. lia.
Qed.

#[export] Program Instance ser_list {A} `{!Ser A} : Ser (list A) :=
  {| ser := ser_list_go; de bs := de_list_go (length bs) bs |}.
Next Obligation. intros A ? l rest. simpl. apply de_ser_list. rewrite length_app. lia. Qed.

(** A type with an injection into a serializable one. *)
Definition ser_inj {A B} `{!Ser B} (f : A → B) (g : B → option A)
    (Hfg : ∀ a, g (f a) = Some a) : Ser A.
Proof.
  refine {| ser a := ser (f a);
            de bs := match de bs with
                     | Some (b, rest) =>
                         match g b with Some a => Some (a, rest) | None => None end
                     | None => None
                     end |}.
  intros a rest. by rewrite de_ser, Hfg.
Defined.

Fixpoint pos_bytes (p : positive) : Bytes :=
  match p with
  | xH => []
  | xO q => x00 :: pos_bytes q
  | xI q => x01 :: pos_bytes q
  end.

Fixpoint bytes_pos (b : Bytes) : positive :=
  match b with
  | [] => xH
  | x00 :: b' => xO (bytes_pos b')
  | _ :: b' => xI (bytes_pos b')
  end.

Lemma bytes_pos_bytes p : bytes_pos (pos_bytes p) = p.
Proof. induction p as [q IH|q IH|]; simpl; congruence. Qed.

(** Any countable type, by the bits of its code. *)
Definition ser_countable {A} `{Countable A} : Ser A.
Proof.
  refine (ser_inj (λ a, pos_bytes (encode a)) (λ b, decode (bytes_pos b)) _).
  intros a. rewrite bytes_pos_bytes. apply decode_encode.
Defined.

#[export] Instance ser_N : Ser N := ser_countable.

#[export] Instance ser_string : Ser string.
Proof.
  refine (ser_inj String.list_byte_of_string (λ b, Some (String.string_of_list_byte b)) _).
  intros s. by rewrite String.string_of_list_byte_of_string.
Defined.

#[export] Instance ser_option {A} `{!Ser A} : Ser (option A).
Proof.
  refine (ser_inj (B := A + unit)
    (λ o, match o with Some a => inl a | None => inr tt end)
    (λ x, Some match x with inl a => Some a | inr _ => None end) _).
  by intros [].
Defined.

Definition ser_postcard {A} `{!Ser A} : Postcard A.
Proof.
  refine {| to_stdvec a := Some (ser a);
            from_bytes b := match de b with Some (a, []) => Some a | _ => None end |}.
  intros a b [= <-]. by rewrite <- (app_nil_r (ser a)), de_ser.
Defined.

(** ** A keyed digest in place of signatures *)

Definition toy_sign (key data : Bytes) : Bytes := take 64 (key ++ data ++ replicate 64 x00).

Program Definition toy_ed25519 : Ed25519 :=
  {| SecretKey := Bytes; public key := key; sign := toy_sign;
     key_verify key data s := bool_decide (s = toy_sign key data) |}.
Next Obligation.
  intros key data. unfold toy_sign. rewrite length_take, !length_app, length_replicate. lia.
Qed.
Next Obligation. intros key data. by apply bool_decide_eq_true. Qed.

(** Two bytes of a polynomial checksum in place of the hash. *)
Definition toy_hash (data : Bytes) : Bytes :=
  let sum := foldl (λ acc b, (acc * 31 + Byte.to_N b + 1) mod 65521)%N 0%N data in
  (λ n, default x00 (Byte.of_N n)) <$> [sum / 256; sum mod 256]%N.

Definition toy_hasher : Hasher := {| blake3 := toy_hash |}.
