(* ===== verification/AtomicWrite.v ===== *)
(** * Atomic file updates: [src/chat_core/atomic_write.rs]

    [Module atomic_write] translates the file mechanics the JSON stores share.  A path is
    a directory and a file name; a disk maps paths to files.  A crash may lose or garble data
    that was not synced and, as the directory is never synced, may undo changes of names
    since the last start, path by path.  The data a [BufWriter] still holds counts as
    unsynced content.  Access rights are not modelled: the results of setting them are
    ignored by the code.  serde_json is the interface [Json]. *)

From Stdlib Require Import Strings.Byte NArith.
From stdpp Require Import prelude gmap strings.
From S2P Require Import Prelude Text.

(** [serde_json::to_vec_pretty] and [serde_json::from_slice] at one type.  Reading skips
    white space at the end; [normal] is what a value becomes when its skipped fields are
    replaced by their defaults. *)
Class Json (T : Type) : Type := {
  to_vec_pretty : T → option Bytes;
  from_slice : Bytes → option T;
  normal : T → T;
  json_roundtrip t b : to_vec_pretty t = Some b → from_slice b = Some (normal t);
  json_newline b : from_slice (b ++ [x0a]) = from_slice b
}.

Module atomic_write.

Abbreviation Path := (Text * Text)%type.

Record File : Type := mkFile {
  content : Bytes;
  synced : bool
}.

Abbreviation Disk := (gmap Path File).

(** The fallible operations in the order of the code. *)
Inductive IoStep : Type :=
| CreateDir | CreateTemp | WriteTemp | FinaliseTemp | FlushTemp | SyncTemp | Replace.

#[export] Instance io_step_eq_dec : EqDecision IoStep.
Proof. solve_decision. Defined.

Inductive WriteError : Type :=
| EncodeFailed
| ValidationFailed
| IoFailed (step : IoStep).

Implicit Types (path tmp : Path) (encoded : Bytes) (d : Disk).

(** The temporary sibling: [.<name>.<pid>.<seq>.tmp] *)
Definition tmp_path (pid seq : N) path : Path :=
  (path.1, txt "." ++ path.2 ++ txt "." ++ decimal pid ++ txt "." ++ decimal seq ++ txt ".tmp").

(** [TMP_SEQ.fetch_add(1)]: wraps around. *)
Definition fetch_add (seq : N) : N := ((seq + 1) mod (u64_max + 1))%N.

Definition after (step : IoStep) : option IoStep :=
  match step with
  | CreateDir => Some CreateTemp
  | CreateTemp => Some WriteTemp
  | WriteTemp => Some FinaliseTemp
  | FinaliseTemp => Some FlushTemp
  | FlushTemp => Some SyncTemp
  | SyncTemp => Some Replace
  | Replace => None
  end.

Definition append tmp (data : Bytes) d : option Disk :=
  f ← d !! tmp; Some (<[tmp := mkFile (content f ++ data) false]> d).

(** What an operation does when it succeeds; [None] when the temporary file is gone. *)
Definition perform (step : IoStep) tmp path encoded d : option Disk :=
  match step with
  | CreateDir => Some d
  | CreateTemp => Some (<[tmp := mkFile [] false]> d)
  | WriteTemp => append tmp encoded d
  | FinaliseTemp => append tmp [x0a] d
  | FlushTemp => Some d
  | SyncTemp => f ← d !! tmp; Some (<[tmp := mkFile (content f) true]> d)
  | Replace => f ← d !! tmp; Some (<[path := f]> (delete tmp d))
  end.

(** What it leaves behind when it fails: a write that fails may have written anything
    into the temporary file. *)
Definition fault (step : IoStep) tmp (left : Bytes) d : Disk :=
  match step with
  | WriteTemp | FinaliseTemp | FlushTemp | SyncTemp => <[tmp := mkFile left false]> d
  | _ => d
  end.

(** [io] says which operations succeed. *)
Fixpoint atomic_write_from (fuel : nat) (io : IoStep → bool) (left : Bytes) (step : IoStep)
    tmp path encoded d : res WriteError unit * Disk :=
  match fuel with
  | 0 => (Ok tt, d)
  | S fuel' =>
      match (if io step then perform step tmp path encoded d else None) with
      | None => (Err (IoFailed step), fault step tmp left d)
      | Some d' =>
          match after step with
          | Some step' => atomic_write_from fuel' io left step' tmp path encoded d'
          | None => (Ok tt, d')
          end
      end
  end.

(** There are seven operations. *)
Definition atomic_write_bytes (io : IoStep → bool) (left : Bytes) (pid seq : N) path encoded d
    : res WriteError unit * Disk :=
  atomic_write_from 7 io left CreateDir (tmp_path pid seq path) path encoded d.

Definition atomic_write_json {T} `{!Json T} (io : IoStep → bool) (left : Bytes) (pid seq : N)
    path (data : T) d : res WriteError unit * Disk :=
  match to_vec_pretty data with
  | None => (Err EncodeFailed, d)
  | Some encoded =>
      match from_slice (T := T) encoded with
      | None => (Err ValidationFailed, d)
      | Some _ => atomic_write_bytes io left pid seq path encoded d
      end
  end.

(** ** Overlapping saves and crashes

    The stores save on spawned threads, so several calls may be under way at once; each is
    a writer at some operation.  The process may crash at any time and start again. *)

Record Writer : Type := mkWriter {
  w_path : Path;
  w_data : Bytes;
  w_at : IoStep
}.

(** [past] holds the disks since the last start. *)
Record Sys : Type := mkSys {
  disk : Disk;
  past : list Disk;
  pid : N;
  tmp_seq : N;
  writers : gmap N Writer
}.

Definition w_tmp (s : Sys) (n : N) (w : Writer) : Path := tmp_path (pid s) n (w_path w).

(** After a crash a path names what it named at some moment since the last start; a synced
    file is as it was and any other may hold anything. *)
Definition crashed (ds : list Disk) d' : Prop :=
  ∀ p, ∃ d, d ∈ ds ∧
       match d !! p with
       | Some f => synced f = true → d' !! p = Some f
       | None => d' !! p = None
       end.

(** One step, with the saves it starts. *)
Inductive sys_step : Sys → list (Path * Bytes) → Sys → Prop :=
| step_start s path encoded :
    writers s !! tmp_seq s = None →
    sys_step s [(path, encoded)]
      (mkSys (disk s) (past s) (pid s) (fetch_add (tmp_seq s))
         (<[tmp_seq s := mkWriter path encoded CreateDir]> (writers s)))
| step_io s n w d' :
    writers s !! n = Some w →
    perform (w_at w) (w_tmp s n w) (w_path w) (w_data w) (disk s) = Some d' →
    sys_step s []
      (mkSys d' (disk s :: past s) (pid s) (tmp_seq s)
         (match after (w_at w) with
          | Some next => <[n := mkWriter (w_path w) (w_data w) next]> (writers s)
          | None => delete n (writers s)
          end))
| step_fault s n w left :
    writers s !! n = Some w →
    sys_step s []
      (mkSys (fault (w_at w) (w_tmp s n w) left (disk s)) (disk s :: past s) (pid s) (tmp_seq s)
         (delete n (writers s)))
| step_crash s d' pid' :
    crashed (disk s :: past s) d' → sys_step s [] (mkSys d' [] pid' 0 ∅).

Inductive sys_run : Sys → list (Path * Bytes) → Sys → Prop :=
| run_refl s : sys_run s [] s
| run_step s1 h1 s2 h2 s3 : sys_run s1 h1 s2 → sys_step s2 h2 s3 → sys_run s1 (h1 ++ h2) s3.

End atomic_write.
