(* ===== verification/AtomicWriteFacts.v ===== *)
(** * Correctness of atomic file updates

    A save either leaves the target as it was or puts the whole encoding there, whichever
    operation fails; overlapping saves and crashes never leave a mixture. *)

From Stdlib Require Import Strings.Byte NArith.
From stdpp Require Import prelude gmap strings.
From S2P Require Import Prelude Text Signing Concrete AtomicWrite.
Import atomic_write.

Implicit Types (path tmp q : Path) (encoded : Bytes) (d : Disk) (s : Sys).

(** The names the stores use do not start with a dot. *)
Definition plain path : Prop := head path.2 ≠ Some 46%N.

(** A complete, durable file. *)
Definition saved encoded : File := mkFile (encoded ++ [x0a]) true.

Lemma tmp_not_plain pid seq path q : plain q → tmp_path pid seq path ≠ q.
Proof. intros Hq <-. by apply Hq. Qed.

Lemma tmp_path_name pid seq path :
  (tmp_path pid seq path).2 =
  ((txt "." ++ path.2 ++ txt "." ++ decimal pid) ++ 46%N :: decimal seq) ++ txt ".tmp".
Proof. unfold tmp_path. cbn [snd]. rewrite <- !app_assoc. reflexivity. Qed.

Lemma tmp_path_inj pid seq seq' path path' :
  tmp_path pid seq path = tmp_path pid seq' path' → seq = seq'.
Proof.
  intros Heq%(f_equal snd). rewrite !tmp_path_name in Heq. apply app_inv_tail in Heq.
  apply last_separator_inj in Heq as [_ Heq]; [by apply (inj decimal)|..];
    intros Hin%decimal_range; lia.
Qed.

(** ** One save *)

(** The content of the temporary file before each operation. *)
Definition temp_ok (step : IoStep) encoded (o : option File) : Prop :=
  match step with
  | CreateDir | CreateTemp => True
  | WriteTemp => o = Some (mkFile [] false)
  | FinaliseTemp => o = Some (mkFile encoded false)
  | FlushTemp | SyncTemp => o = Some (mkFile (encoded ++ [x0a]) false)
  | Replace => o = Some (saved encoded)
  end.

(** An operation only touches the temporary file, prepares it for the next one, and the
    last one moves the complete file into place. *)
Lemma perform_spec step tmp path encoded d d' :
  tmp ≠ path → temp_ok step encoded (d !! tmp) → perform step tmp path encoded d = Some d' →
  (∀ q, q ≠ tmp → q ≠ path → d' !! q = d !! q) ∧
  match after step with
  | Some step' => temp_ok step' encoded (d' !! tmp) ∧ d' !! path = d !! path
  | None => d' !! path = Some (saved encoded)
  end.
Proof.
  intros Hne Ht Hp. destruct step; simpl in *; unfold append in *;
    rewrite ?Ht in Hp; simplify_eq/=; split; try done;
    try (intros q Hq1 Hq2); by simplify_map_eq.
Qed.

Lemma perform_enabled step tmp path encoded d :
  temp_ok step encoded (d !! tmp) → is_Some (perform step tmp path encoded d).
Proof.
  intros Ht. destruct step; simpl in *; unfold append; try rewrite Ht; simpl; by eexists.
Qed.

Lemma fault_other step tmp left d q : q ≠ tmp → fault step tmp left d !! q = d !! q.
Proof. intros Hq. destruct step; simpl; by simplify_map_eq. Qed.

(** The number of operations left. *)
Definition rank (step : IoStep) : nat :=
  match step with
  | CreateDir => 7 | CreateTemp => 6 | WriteTemp => 5 | FinaliseTemp => 4
  | FlushTemp => 3 | SyncTemp => 2 | Replace => 1
  end.

Lemma atomic_write_from_spec fuel io left step tmp path encoded d :
  tmp ≠ path → rank step ≤ fuel → temp_ok step encoded (d !! tmp) →
  let r := atomic_write_from fuel io left step tmp path encoded d in
  (∀ q, q ≠ tmp → q ≠ path → r.2 !! q = d !! q) ∧
  ((r.1 = Ok tt ∧ (∀ st, rank st ≤ rank step → io st = true) ∧ r.2 !! path = Some (saved encoded)) ∨
   (∃ st, r.1 = Err (IoFailed st) ∧ io st = false ∧ r.2 !! path = d !! path)).
Proof.
  intros Hne. revert step d. induction fuel as [|fuel IH]; intros step d Hr Ht.
  { destruct step; simpl in Hr; lia. }
  cbn zeta. cbn [atomic_write_from].
  destruct (io step) eqn:Hio.
  - destruct (perform_enabled _ _ path _ _ Ht) as [d' Hd']. rewrite Hd'.
    apply perform_spec in Hd' as [Hq Ha]; [|done..].
    destruct (after step) as [step'|] eqn:Hs.
    + destruct Ha as [Ht' Hp]. specialize (IH step' d'). cbn zeta in IH.
      destruct IH as [Hf Hc]; [destruct step; simplify_eq/=; lia|done|].
      split; [intros q H1 H2; rewrite Hf by done; auto|].
      destruct Hc as [(? & Hall & ?)|(st & ? & ? & Hk)]; [left|right].
      * split_and!; [done| |done]. intros st Hst.
        destruct (decide (st = step)) as [->|Hne']; [done|]. apply Hall.
        destruct st, step; simplify_eq/=; lia.
      * exists st. split_and!; [done|done|]. by rewrite Hk.
    + split; [done|]. left. split_and!; [done| |done]. intros st Hst.
      destruct step; simplify_eq/=. destruct st; simpl in *; (done || lia).
  - split; [intros q Hq _; by apply fault_other|]. right. exists step.
    split_and!; [done..|]. by apply fault_other.
Qed.

(** A save of a value that round-trips either puts its whole encoding at the path, where it
    reads back as the value, or reports the operation that failed and leaves the path as it
    was; no other file but the temporary one is touched. *)
Theorem atomic_write_json_spec {T} `{!Json T} io left pid seq path (data : T) d :
  plain path →
  let r := atomic_write_json io left pid seq path data d in
  (∀ q, plain q → q ≠ path → r.2 !! q = d !! q) ∧
  match r.1 with
  | Ok _ => ∃ f, r.2 !! path = Some f ∧ synced f = true ∧
              from_slice (T := T) (content f) = Some (normal data)
  | Err _ => r.2 !! path = d !! path
  | Panicked => False
  end.
Proof.
  intros Hp. cbn zeta. unfold atomic_write_json.
  destruct (to_vec_pretty data) as [encoded|] eqn:He; [|done].
  rewrite (json_roundtrip _ _ He). unfold atomic_write_bytes.
  destruct (atomic_write_from_spec 7 io left CreateDir (tmp_path pid seq path) path encoded d)
    as [Hf Hc]; [by apply tmp_not_plain|done..|].
  split; [intros q Hq Hne; apply Hf; [apply not_eq_sym; by apply tmp_not_plain|done]|].
  destruct Hc as [(-> & _ & Hs)|(st & -> & _ & Hs)]; [|done].
  exists (saved encoded). split_and!; [done..|]. simpl. rewrite json_newline.
  by apply json_roundtrip.
Qed.

(** ** Overlapping saves and crashes *)

Record sys_inv (d0 : Disk) (h : list (Path * Bytes)) s : Prop := mkInv {
  inv_live n w : writers s !! n = Some w →
    (w_path w, w_data w) ∈ h ∧ plain (w_path w) ∧
    temp_ok (w_at w) (w_data w) (disk s !! w_tmp s n w);
  inv_target d q : d ∈ disk s :: past s → plain q →
    d !! q = d0 !! q ∨ ∃ encoded, (q, encoded) ∈ h ∧ d !! q = Some (saved encoded)
}.

Lemma inv_disk d0 h s q :
  sys_inv d0 h s → plain q →
  disk s !! q = d0 !! q ∨ ∃ encoded, (q, encoded) ∈ h ∧ disk s !! q = Some (saved encoded).
Proof. intros Hi. apply (inv_target _ _ _ Hi). left. Qed.

(** A change of the temporary file of one writer is no concern of the others. *)
Lemma inv_live_frame d0 h s d' n n' w w' :
  sys_inv d0 h s → writers s !! n = Some w → writers s !! n' = Some w' → n ≠ n' →
  (∀ q, q ≠ w_tmp s n w → q ≠ w_path w → d' !! q = disk s !! q) →
  (w_path w', w_data w') ∈ h ∧ plain (w_path w') ∧
  temp_ok (w_at w') (w_data w') (d' !! w_tmp s n' w').
Proof.
  intros Hi Hw Hw' Hne Hd. destruct (inv_live _ _ _ Hi _ _ Hw') as (Hin & Hpl & Ht).
  destruct (inv_live _ _ _ Hi _ _ Hw) as (_ & Hpl' & _).
  split_and!; [done..|]. rewrite Hd; [done| |by apply tmp_not_plain].
  intros ?%tmp_path_inj. done.
Qed.

Lemma inv_io d0 h s n w d' :
  sys_inv d0 h s → writers s !! n = Some w →
  perform (w_at w) (w_tmp s n w) (w_path w) (w_data w) (disk s) = Some d' →
  sys_inv d0 h
    (mkSys d' (disk s :: past s) (pid s) (tmp_seq s)
       (match after (w_at w) with
        | Some next => <[n := mkWriter (w_path w) (w_data w) next]> (writers s)
        | None => delete n (writers s)
        end)).
Proof.
  intros Hi Hw Hp. destruct (inv_live _ _ _ Hi _ _ Hw) as (Hin & Hpl & Ht).
  apply perform_spec in Hp as [Hq Ha]; [|by apply tmp_not_plain|done].
  split; cbn [writers disk past].
  - intros n' w' Hw'. destruct (after (w_at w)) as [next|].
    + apply lookup_insert_Some in Hw' as [[<- <-]|[Hne Hw']].
      * destruct Ha as [Ha _]. split_and!; done.
      * by eapply (inv_live_frame d0 h s _ n n').
    + apply lookup_delete_Some in Hw' as [Hne Hw']. by eapply (inv_live_frame d0 h s _ n n').
  - intros d q [->|Hin']%elem_of_cons Hqp; [|by apply (inv_target _ _ _ Hi)].
    destruct (decide (q = w_path w)) as [->|Hne].
    + destruct (after (w_at w)); [destruct Ha as [_ ->]; by apply (inv_disk _ _ _ _ Hi)|].
      right. eauto.
    + rewrite Hq; [by apply (inv_disk _ _ _ _ Hi)| |done].
      apply not_eq_sym. by apply tmp_not_plain.
Qed.

Lemma inv_fault d0 h s n w left :
  sys_inv d0 h s → writers s !! n = Some w →
  sys_inv d0 h
    (mkSys (fault (w_at w) (w_tmp s n w) left (disk s)) (disk s :: past s) (pid s) (tmp_seq s)
       (delete n (writers s))).
Proof.
  intros Hi Hw. split; cbn [writers disk past].
  - intros n' w' [Hne Hw']%lookup_delete_Some. eapply (inv_live_frame d0 h s _ n n'); try done.
    intros q Hq _. by apply fault_other.
  - intros d q [->|Hin]%elem_of_cons Hqp; [|by apply (inv_target _ _ _ Hi)].
    rewrite fault_other by (apply not_eq_sym; by apply tmp_not_plain).
    by apply (inv_disk _ _ _ _ Hi).
Qed.

Lemma inv_step d0 h1 h2 s1 s2 :
  (∀ q f, plain q → d0 !! q = Some f → synced f = true) →
  Forall (λ x, plain x.1) h2 → sys_inv d0 h1 s1 → sys_step s1 h2 s2 → sys_inv d0 (h1 ++ h2) s2.
Proof.
  intros Hd0 Hh Hi Hs. destruct Hs as [s path encoded Hfree|s n w d' Hw Hp|s n w left Hw|s d' pid' Hc].
  - rewrite Forall_singleton in Hh. split; cbn [writers disk past].
    + intros n' w' [[<- <-]|[Hne Hw']]%lookup_insert_Some.
      * split_and!; [set_solver|exact Hh|exact I].
      * destruct (inv_live _ _ _ Hi _ _ Hw') as (? & ? & ?). split_and!; [set_solver|done..].
    + intros d q Hd Hq. destruct (inv_target _ _ _ Hi d q Hd Hq) as [?|(e & ? & ?)]; [by left|].
      right. exists e. split; [set_solver|done].
  - rewrite app_nil_r. by apply inv_io.
  - rewrite app_nil_r. by apply inv_fault.
  - rewrite app_nil_r. split; cbn [writers disk past]; [by intros n w ?%lookup_empty_Some|].
    intros d q ->%list_elem_of_singleton Hq. destruct (Hc q) as (d & Hd & Hc').
    destruct (inv_target _ _ _ Hi d q Hd Hq) as [He|(e & Hin & He)].
    + left. destruct (d0 !! q) as [f|] eqn:Hf; rewrite He in Hc'; [|done]. by eapply Hc', Hd0.
    + right. exists e. rewrite He in Hc'. auto.
Qed.

(** C9: However many saves overlap, whichever operations fail, in whatever order their
    operations interleave and wherever the process crashes and restarts (a crash may also
    undo renames), a file the stores write to is either as it was at the start or holds the
    complete encoding of one of the saves that were started for it, in synced data. *)
Theorem saves_are_atomic s0 h s q :
  sys_run s0 h s → writers s0 = ∅ → past s0 = [] →
  (∀ q f, plain q → disk s0 !! q = Some f → synced f = true) →
  Forall (λ x, plain x.1) h → plain q →
  disk s !! q = disk s0 !! q ∨
  ∃ encoded, (q, encoded) ∈ h ∧ disk s !! q = Some (mkFile (encoded ++ [x0a]) true).
Proof.
  intros Hr Hw Hp Hd Hh Hq. enough (sys_inv (disk s0) h s) as Hi by by apply (inv_disk _ _ _ _ Hi).
  induction Hr as [s|s1 h1 s2 h2 s3 _ IH Hs].
  - split; [rewrite Hw; by intros n w ?%lookup_empty_Some|].
    rewrite Hp. intros d q' ->%list_elem_of_singleton _. by left.
  - apply Forall_app in Hh as [Hh1 Hh2]. eapply inv_step; eauto.
Qed.

Definition sample_path : Path := (txt "data", txt "friends.json").

Definition sample_start : Sys :=
  mkSys {[sample_path := mkFile [x41; x0a] true]} [] 7 0 ∅.

Lemma saves_are_atomic_witness :
  ∃ s, sys_run sample_start [(sample_path, [x42]); (sample_path, [x43])] s ∧
  (disk s !! sample_path = disk sample_start !! sample_path ∨
   ∃ encoded, (sample_path, encoded) ∈ [(sample_path, [x42]); (sample_path, [x43])] ∧
     disk s !! sample_path = Some (mkFile (encoded ++ [x0a]) true)).
Proof.
  assert (sys_run sample_start [(sample_path, [x42]); (sample_path, [x43])]
    (mkSys (disk sample_start) [] 7 2
       (<[1%N := mkWriter sample_path [x43] CreateDir]>
          (<[0%N := mkWriter sample_path [x42] CreateDir]> ∅)))) as Hr.
  { apply (run_step _ [(sample_path, [x42])]
      (mkSys (disk sample_start) [] 7 1 (<[0%N := mkWriter sample_path [x42] CreateDir]> ∅))
      [(sample_path, [x43])]).
    - apply (run_step _ [] sample_start [(sample_path, [x42])]); [apply run_refl|].
      by apply (step_start sample_start).
    - by apply (step_start (mkSys (disk sample_start) [] 7 1 _)). }
  eexists. split; [exact Hr|].
  apply (saves_are_atomic _ _ _ _ Hr); [done|done| |by repeat constructor|done].
  intros q f _ Hl. unfold sample_start in Hl. cbn [disk] in Hl.
  by apply lookup_singleton_Some in Hl as [_ <-].
Defined.

(** ** A concrete format

    A serialization closed by a mark; new lines after it are skipped. *)

Fixpoint strip_newlines (b : Bytes) : Bytes :=
  match b with
  | [] => []
  | x :: b' =>
      match strip_newlines b' with
      | [] => if decide (x = x0a) then [] else [x]
      | c => x :: c
      end
  end.

Lemma strip_newlines_snoc b : strip_newlines (b ++ [x0a]) = strip_newlines b.
Proof. induction b as [|x b IH]; simpl; [done|]. by rewrite IH. Qed.

Lemma strip_newlines_marked b : strip_newlines (b ++ [x01]) = b ++ [x01].
Proof. induction b as [|x b IH]; simpl; [done|]. rewrite IH. by destruct b. Qed.

Definition toy_json {A} `{!Ser A} (f : A → A) : Json A.
Proof.
  refine {| to_vec_pretty a := Some (ser a ++ [x01]);
            from_slice b := match de (strip_newlines b) with
                            | Some (a, [x01]) => Some (f a)
                            | _ => None
                            end;
            normal := f |}.
  - intros a b [= <-]. by rewrite strip_newlines_marked, de_ser.
  - intros b. by rewrite strip_newlines_snoc.
Defined.
