(* ===== verification/Friends.v ===== *)
(** * Friend requests and the friends list: [src/friend_request.rs], [src/friends.rs]

    [Module friend_request] translates the durable store of friend requests with its pair
    index, [Module friends] the friends list.  Peers, ids and labels are strings.  The
    clock's reading is an argument; the file is the disk of [AtomicWrite]; the JSON formats
    are the interface [Json]; the texts of errors are left out except for the names they
    carry. *)

From Stdlib Require Import Strings.Byte NArith.
From stdpp Require Import prelude gmap sorting strings.
From S2P Require Import Prelude Text AtomicWrite.

Module friend_request.
Import atomic_write.

Definition SCHEMA_VERSION : N := 1.
Definition FRIEND_REQUESTS_FILE_NAME : Text := txt "friend_requests.json".

Definition friend_requests_file_path (data_dir : Text) : Path :=
  (data_dir, FRIEND_REQUESTS_FILE_NAME).

Definition make_request_id (requester recipient : Text) (timestamp : N) : Text :=
  take 8 requester ++ txt ":" ++ take 8 recipient ++ txt ":" ++ lower_hex timestamp.

Inductive FriendRequestStatus : Type := Pending | Accepted | Declined | Cancelled.

#[export] Instance status_eq_dec : EqDecision FriendRequestStatus.
Proof. solve_decision. Defined.

(** [Display] *)
Definition status_text (st : FriendRequestStatus) : Text :=
  match st with
  | Pending => txt "Pending"
  | Accepted => txt "Accepted"
  | Declined => txt "Declined"
  | Cancelled => txt "Cancelled"
  end.

Definition is_terminal (st : FriendRequestStatus) : bool :=
  match st with
  | Accepted | Declined | Cancelled => true
  | Pending => false
  end.

Definition is_accepted (st : FriendRequestStatus) : bool := bool_decide (st = Accepted).

Record FriendRequest : Type := mkRequest {
  id : Text;
  requester : Text;
  recipient : Text;
  status : FriendRequestStatus;
  created_at_unix_ms : N;
  updated_at_unix_ms : N;
  message : option Text
}.

#[export] Instance request_eq_dec : EqDecision FriendRequest.
Proof. solve_decision. Defined.

(** [FriendRequest::new] *)
Definition new (rq rc : Text) (msg : option Text) (now : N) : FriendRequest :=
  mkRequest (make_request_id rq rc now) rq rc Pending now now msg.

Inductive FriendRequestError : Type :=
| SelfRequest
| DuplicatePending (existing_id : Text)
| NotFound (id : Text)
| Unauthorized (action expected : Text)
| InvalidTransition (from to : FriendRequestStatus).

Record FriendRequestStore : Type := mkStore {
  schema_version : N;
  requests : gmap Text FriendRequest;
  pending_signed_messages : gmap Text Bytes;
  pair_index : gmap (Text * Text) Text;
  data_dir : Text
}.

Implicit Types (s : FriendRequestStore) (r : FriendRequest).

Definition default_store : FriendRequestStore := mkStore SCHEMA_VERSION ∅ ∅ ∅ [].
Definition empty_at (dir : Text) : FriendRequestStore := mkStore SCHEMA_VERSION ∅ ∅ ∅ dir.

Definition set_requests (m : gmap Text FriendRequest) s : FriendRequestStore :=
  mkStore (schema_version s) m (pending_signed_messages s) (pair_index s) (data_dir s).
Definition set_index (ix : gmap (Text * Text) Text) s : FriendRequestStore :=
  mkStore (schema_version s) (requests s) (pending_signed_messages s) ix (data_dir s).
Definition set_messages (m : gmap Text Bytes) s : FriendRequestStore :=
  mkStore (schema_version s) (requests s) m (pair_index s) (data_dir s).

(** ** Queries *)

Definition len s : nat := size (requests s).
Definition is_empty s : bool := bool_decide (requests s = ∅).
Definition iter s : list FriendRequest := (btree_map_iter (requests s)).*2.
Definition get (i : Text) s : option FriendRequest := requests s !! i.

Definition store_pending_signed_message (i : Text) (m : Bytes) s : FriendRequestStore :=
  set_messages (<[i := m]> (pending_signed_messages s)) s.

Definition has_pending_signed_message (i : Text) s : bool :=
  bool_decide (is_Some (pending_signed_messages s !! i)).

Definition take_pending_signed_message (i : Text) s : option Bytes * FriendRequestStore :=
  (pending_signed_messages s !! i, set_messages (delete i (pending_signed_messages s)) s).

(** ** The pair index *)

Definition pair_key (rq rc : Text) : Text * Text :=
  if decide (text_le rq rc) then (rq, rc) else (rc, rq).

Definition key_of r : Text * Text := pair_key (requester r) (recipient r).

Definition index_request r (ix : gmap (Text * Text) Text) : gmap (Text * Text) Text :=
  if decide (status r = Pending) then <[key_of r := id r]> ix else ix.

Definition rebuild_pair_index s : FriendRequestStore :=
  set_index (foldl (λ ix r, index_request r ix) ∅ (iter s)) s.

Definition add_to_index r s : FriendRequestStore := set_index (index_request r (pair_index s)) s.

Definition remove_from_index r s : FriendRequestStore :=
  set_index (delete (key_of r) (pair_index s)) s.

(** ** Mutations *)

(** The pending request the duplicate check of [send_request] finds. *)
Definition find_pending (rq rc : Text) s : option FriendRequest :=
  i ← pair_index s !! pair_key rq rc;
  r ← requests s !! i;
  if decide (status r = Pending) then Some r else None.

Definition send_request (rq rc : Text) (msg : option Text) (now : N) s
    : res FriendRequestError FriendRequest * FriendRequestStore :=
  if decide (rq = rc) then (Err SelfRequest, s)
  else
    match find_pending rq rc s with
    | Some existing => (Err (DuplicatePending (id existing)), s)
    | None =>
        let r := new rq rc msg now in
        (Ok r, add_to_index r (set_requests (<[id r := r]> (requests s)) s))
    end.

(** The end of both transitions: the index entry goes, the request changes. *)
Definition settle (i : Text) r (st : FriendRequestStatus) (now : N) s
    : res FriendRequestError FriendRequest * FriendRequestStore :=
  let s := remove_from_index r s in
  match requests s !! i with
  | Some stored =>
      let r' := mkRequest (id stored) (requester stored) (recipient stored) st
                  (created_at_unix_ms stored) now (message stored) in
      (Ok r', set_requests (<[i := r']> (requests s)) s)
  | None => (Panicked, s)
  end.

(** Who may make the transition to a status; [None] when nobody may. *)
Definition expected_caller r (st : FriendRequestStatus) : option Text :=
  match st with
  | Accepted | Declined => Some (recipient r)
  | Cancelled => Some (requester r)
  | Pending => None
  end.

Definition transition_request (i caller : Text) (st : FriendRequestStatus) (now : N) s
    : res FriendRequestError FriendRequest * FriendRequestStore :=
  match requests s !! i with
  | None => (Err (NotFound i), s)
  | Some r =>
      match expected_caller r st with
      | None => (Err (InvalidTransition (status r) st), s)
      | Some who =>
          if decide (caller ≠ who) then (Err (Unauthorized (status_text st) who), s)
          else if decide (status r ≠ Pending) then (Err (InvalidTransition (status r) st), s)
          else settle i r st now s
      end
  end.

Definition accept_request (i caller : Text) := transition_request i caller Accepted.
Definition decline_request (i caller : Text) := transition_request i caller Declined.
Definition cancel_request (i caller : Text) := transition_request i caller Cancelled.

Definition confirm_outgoing_accepted (i caller : Text) (now : N) s
    : res FriendRequestError FriendRequest * FriendRequestStore :=
  match requests s !! i with
  | None => (Err (NotFound i), s)
  | Some r =>
      if decide (caller ≠ requester r)
      then (Err (Unauthorized (txt "confirm_outgoing_accepted") (requester r)), s)
      else if decide (status r ≠ Pending) then (Err (InvalidTransition (status r) Accepted), s)
      else settle i r Accepted now s
  end.

(** The loop of [clear_by_status] over the collected ids. *)
Fixpoint clear_loop (ids : list Text) s : FriendRequestStore :=
  match ids with
  | [] => s
  | i :: ids' =>
      let s := match requests s !! i with
               | Some r => remove_from_index r s
               | None => s
               end in
      clear_loop ids' (set_requests (delete i (requests s)) s)
  end.

Definition clear_by_status (st : FriendRequestStatus) s : nat * FriendRequestStore :=
  let ids := (filter (λ kv, status kv.2 = st) (btree_map_iter (requests s))).*1 in
  (length ids, clear_loop ids s).

(** ** Listings *)

(** [sort_by_key(|r| Reverse(r.created_at_unix_ms))]: stable. *)
Definition newer r1 r2 : Prop := (created_at_unix_ms r2 ≤ created_at_unix_ms r1)%N.

#[export] Instance newer_dec : RelDecision newer.
Proof. unfold newer. solve_decision. Defined.

Definition listing (P : FriendRequest → bool) s : list FriendRequest :=
  merge_sort newer (filter (λ r, P r = true) (iter s)).

Definition list_outgoing (peer : Text) := listing (λ r, bool_decide (requester r = peer)).

Definition list_incoming (peer : Text) := listing (λ r, bool_decide (recipient r = peer)).

Definition list_incoming_by_status (peer : Text) (st : FriendRequestStatus) :=
  listing (λ r, bool_decide (recipient r = peer) && bool_decide (status r = st)).

Definition list_outgoing_by_status (peer : Text) (st : FriendRequestStatus) :=
  listing (λ r, bool_decide (requester r = peer) && bool_decide (status r = st)).

Definition list_pending (peer : Text) :=
  listing (λ r, bool_decide (status r = Pending)
                && (bool_decide (requester r = peer) || bool_decide (recipient r = peer))).

(** ** Persistence *)

(** The fields serde skips take their defaults. *)
Definition stored_form s : FriendRequestStore :=
  mkStore (schema_version s) (requests s) (pending_signed_messages s) ∅ [].

Inductive LoadError : Type := ParseFailed | UnsupportedSchema (v : N).

Section persistence.
Context `{!Json FriendRequestStore}.

Definition load (dir : Text) (d : Disk) : res LoadError FriendRequestStore :=
  match d !! friend_requests_file_path dir with
  | None => Ok (empty_at dir)
  | Some f =>
      s ← ok_or ParseFailed (from_slice (content f));
      if decide (1 ≤ schema_version s ≤ SCHEMA_VERSION)%N then
        Ok (rebuild_pair_index
              (mkStore SCHEMA_VERSION (requests s) (pending_signed_messages s) (pair_index s) dir))
      else Err (UnsupportedSchema (schema_version s))
  end.

Definition load_or_default (dir : Text) (d : Disk) : FriendRequestStore :=
  match load dir d with
  | Ok s => s
  | _ => empty_at dir
  end.

(** [None] is the error of a store without a directory. *)
Definition save (io : IoStep → bool) (left : Bytes) (pid seq : N) s (d : Disk)
    : res (option WriteError) unit * Disk :=
  if decide (data_dir s = []) then (Err None, d)
  else
    match atomic_write_json io left pid seq (friend_requests_file_path (data_dir s)) s d with
    | (Ok u, d') => (Ok u, d')
    | (Err e, d') => (Err (Some e), d')
    | (Panicked, d') => (Panicked, d')
    end.

End persistence.
End friend_request.

(** ** The friends list

    [EndpointAddr], [Ticket] and [MailboxPublicKey] come from other crates or components and
    are only compared and kept; [parse] is [PublicKey::from_str]. *)
Module friends.
Import atomic_write.

Definition SCHEMA_VERSION : N := 4.
Definition MAX_KNOWN_ADDRS : nat := 5.
Definition FRIENDS_FILE_NAME : Text := txt "friends.json".

Definition friends_file_path (data_dir : Text) : Path := (data_dir, FRIENDS_FILE_NAME).

Abbreviation FriendId := Text.
Abbreviation TopicId := Bytes.

Record FriendStatus : Type := mkStatus {
  online : bool;
  last_seen_at_unix_ms : option N;
  last_offline_at_unix_ms : option N
}.

Inductive FriendRelationship : Type :=
| NotFriend | OutgoingPending | IncomingPending | Friends | Blocked.

#[export] Instance relationship_eq_dec : EqDecision FriendRelationship.
Proof. solve_decision. Defined.

Definition can_message (rel : FriendRelationship) : bool :=
  match rel with
  | Friends => true
  | _ => false
  end.

Inductive DirectConversationState : Type := CPending | CActive | CArchived.

Record DirectConversation : Type := mkConversation {
  topic : TopicId;
  state : DirectConversationState
}.

Section friends.
Context {EndpointAddr Ticket MailboxPublicKey : Type} `{EqDecision EndpointAddr}.

Record FriendRecord : Type := mkRecord {
  label : option Text;
  last_announced_name : option Text;
  last_announced_profile_image_ticket : option Text;
  status : FriendStatus;
  known_addrs : list EndpointAddr;
  addrs_updated_at_unix_ms : option N;
  relationship : FriendRelationship;
  rooms : gmap TopicId Ticket;
  direct_conversation : option DirectConversation;
  mailbox_public_key : option MailboxPublicKey
}.

Definition default_record : FriendRecord :=
  mkRecord None None None (mkStatus false None None) [] None NotFriend ∅ None None.

Implicit Types (r : FriendRecord) (t : TopicId).

Definition set_label_field (v : option Text) r : FriendRecord :=
  mkRecord v (last_announced_name r) (last_announced_profile_image_ticket r) (status r)
    (known_addrs r) (addrs_updated_at_unix_ms r) (relationship r) (rooms r)
    (direct_conversation r) (mailbox_public_key r).
Definition set_name_field (v : option Text) r : FriendRecord :=
  mkRecord (label r) v (last_announced_profile_image_ticket r) (status r)
    (known_addrs r) (addrs_updated_at_unix_ms r) (relationship r) (rooms r)
    (direct_conversation r) (mailbox_public_key r).
Definition set_image_field (v : option Text) r : FriendRecord :=
  mkRecord (label r) (last_announced_name r) v (status r)
    (known_addrs r) (addrs_updated_at_unix_ms r) (relationship r) (rooms r)
    (direct_conversation r) (mailbox_public_key r).
Definition set_status_field (v : FriendStatus) r : FriendRecord :=
  mkRecord (label r) (last_announced_name r) (last_announced_profile_image_ticket r) v
    (known_addrs r) (addrs_updated_at_unix_ms r) (relationship r) (rooms r)
    (direct_conversation r) (mailbox_public_key r).
Definition set_addrs_fields (l : list EndpointAddr) (at_ : option N) r : FriendRecord :=
  mkRecord (label r) (last_announced_name r) (last_announced_profile_image_ticket r) (status r)
    l at_ (relationship r) (rooms r) (direct_conversation r) (mailbox_public_key r).
Definition set_relationship_field (v : FriendRelationship) r : FriendRecord :=
  mkRecord (label r) (last_announced_name r) (last_announced_profile_image_ticket r) (status r)
    (known_addrs r) (addrs_updated_at_unix_ms r) v (rooms r) (direct_conversation r)
    (mailbox_public_key r).
Definition set_rooms_field (v : gmap TopicId Ticket) r : FriendRecord :=
  mkRecord (label r) (last_announced_name r) (last_announced_profile_image_ticket r) (status r)
    (known_addrs r) (addrs_updated_at_unix_ms r) (relationship r) v (direct_conversation r)
    (mailbox_public_key r).
Definition set_conversation_field (v : option DirectConversation) r : FriendRecord :=
  mkRecord (label r) (last_announced_name r) (last_announced_profile_image_ticket r) (status r)
    (known_addrs r) (addrs_updated_at_unix_ms r) (relationship r) (rooms r) v
    (mailbox_public_key r).
Definition set_mailbox_field (v : option MailboxPublicKey) r : FriendRecord :=
  mkRecord (label r) (last_announced_name r) (last_announced_profile_image_ticket r) (status r)
    (known_addrs r) (addrs_updated_at_unix_ms r) (relationship r) (rooms r)
    (direct_conversation r) v.

(** ** Records *)

(** The body of both loops of [record_addrs]. *)
Definition push_new (merged : list EndpointAddr) (addr : EndpointAddr) : list EndpointAddr :=
  if decide (addr ∈ merged) then merged else merged ++ [addr].

(** The known addresses are drained before the comparison, which is therefore against an
    empty list. *)
Definition record_addrs (addrs : list EndpointAddr) (now : N) r : FriendRecord :=
  let merged := foldl push_new (foldl push_new [] addrs) (known_addrs r) in
  let r := set_addrs_fields [] (addrs_updated_at_unix_ms r) r in
  let merged := take MAX_KNOWN_ADDRS merged in
  if decide (merged ≠ known_addrs r) then set_addrs_fields merged (Some now) r else r.

Definition record_room t (ticket : Ticket) r : FriendRecord :=
  set_rooms_field (<[t := ticket]> (rooms r)) r.

Definition set_direct_conversation t (st : DirectConversationState) r : FriendRecord :=
  set_conversation_field (Some (mkConversation t st)) r.

Definition set_mailbox_public_key (key : MailboxPublicKey) r : FriendRecord :=
  set_mailbox_field (Some key) r.

Definition remove_room t r : bool * FriendRecord :=
  let changed := bool_decide (is_Some (rooms r !! t)) in
  let r := set_rooms_field (delete t (rooms r)) r in
  if decide (topic <$> direct_conversation r = Some t)
  then (true, set_conversation_field (Some (mkConversation t CArchived)) r)
  else (changed, r).

(** ** The store *)

Record FriendsStore : Type := mkFriends {
  schema_version : N;
  friends : gmap FriendId FriendRecord;
  data_dir : Text
}.

Implicit Types (s : FriendsStore) (fid : FriendId).

Definition empty_at (dir : Text) : FriendsStore := mkFriends SCHEMA_VERSION ∅ dir.

Definition set_friends (m : gmap FriendId FriendRecord) s : FriendsStore :=
  mkFriends (schema_version s) m (data_dir s).

Definition upsert fid r s : FriendsStore := set_friends (<[fid := r]> (friends s)) s.

Definition remove fid s : option FriendRecord * FriendsStore :=
  (friends s !! fid, set_friends (delete fid (friends s)) s).

Definition get fid s : option FriendRecord := friends s !! fid.

(** [remove_room]: every record in turn, counting the ones that changed. *)
Definition remove_room_all t s : nat * FriendsStore :=
  (length (filter (λ kv, (remove_room t kv.2).1 = true) (btree_map_iter (friends s))),
   set_friends ((λ r, (remove_room t r).2) <$> friends s) s).

(** [ensure_friend] followed by an update of the record. *)
Definition update_friend fid (f : FriendRecord → FriendRecord) s : FriendsStore :=
  set_friends (<[fid := f (default default_record (friends s !! fid))]> (friends s)) s.

Definition ensure_friend fid s : FriendsStore := update_friend fid (λ r, r) s.

Definition mark_online fid (now : N) s : FriendsStore :=
  update_friend fid
    (λ r, set_status_field
            (mkStatus true (Some now) (last_offline_at_unix_ms (status r))) r) s.

Definition mark_offline fid (now : N) s : FriendsStore :=
  update_friend fid
    (λ r, set_status_field
            (mkStatus false (last_seen_at_unix_ms (status r)) (Some now)) r) s.

Definition set_label fid (l : Text) s : FriendsStore :=
  update_friend fid (set_label_field (Some l)) s.

Definition set_last_announced_name fid (n : Text) s : FriendsStore :=
  update_friend fid (set_name_field (Some n)) s.

Definition set_relationship fid (rel : FriendRelationship) s : FriendsStore :=
  update_friend fid (set_relationship_field rel) s.

Definition set_last_announced_profile_image_ticket fid (ticket : Text) s : FriendsStore :=
  update_friend fid (set_image_field (Some ticket)) s.

(** ** Persistence *)

Inductive LoadError : Type := ParseFailed | UnsupportedSchema (v : N) | InvalidFriendId (fid : FriendId).

(** The migration of the deprecated relationships. *)
Definition migrate r : FriendRecord :=
  match relationship r with
  | OutgoingPending | IncomingPending => set_relationship_field NotFriend r
  | _ => r
  end.

Section persistence.
Context `{!Json FriendsStore} (parse : Text → bool).

Definition load (dir : Text) (d : Disk) : res LoadError FriendsStore :=
  match d !! friends_file_path dir with
  | None => Ok (empty_at dir)
  | Some f =>
      s ← ok_or ParseFailed (from_slice (content f));
      ensure (bool_decide (1 ≤ schema_version s ≤ SCHEMA_VERSION)%N)
        (UnsupportedSchema (schema_version s));;
      let m : gmap FriendId FriendRecord := migrate <$> friends s in
      match filter (λ fid, parse fid = false) (btree_map_keys m) with
      | fid :: _ => Err (InvalidFriendId fid)
      | [] => Ok (mkFriends SCHEMA_VERSION m dir)
      end
  end.

Definition load_or_default (dir : Text) (d : Disk) : FriendsStore :=
  match load dir d with
  | Ok s => s
  | _ => empty_at dir
  end.

(** [kv] is the value under the key [friends] of the storage, [None] when reading fails. *)
Definition save_to_sqlite s : option Bytes := to_vec_pretty s.

Definition load_from_sqlite (dir : Text) (kv : option (option Bytes)) : FriendsStore :=
  match kv with
  | Some (Some value) =>
      match from_slice value with
      | Some s => mkFriends (schema_version s) (friends s) dir
      | None => empty_at dir
      end
  | _ => empty_at dir
  end.

End persistence.
End friends.
End friends.
