(* ===== verification/FriendsFacts.v ===== *)
(** * Correctness of friend requests and the friends list

    While the clock advances between requests, what the pair index finds is pending; it finds
    exactly the pending request of a pair, so sending behaves as a search of all requests
    would, as long as no settled request of the pair is cleared while one is pending, which
    breaks the index; a request changes only out of [Pending] and only by the right peer;
    saving and loading gives the store back. *)

From Stdlib Require Import Strings.Byte NArith.
From stdpp Require Import prelude gmap sorting strings.
From S2P Require Import Prelude Text Signing Concrete AtomicWrite AtomicWriteFacts Friends.
Import atomic_write friend_request.

Implicit Types (s : FriendRequestStore) (r : FriendRequest) (i : Text).

(** ** Keys and ids *)

Lemma pair_key_comm a b : pair_key a b = pair_key b a.
Proof.
  unfold pair_key. repeat case_decide; try done.
  - by rewrite (anti_symm text_le a b).
  - by destruct (total text_le a b).
Qed.

(** Two requests have the same key when they are between the same peers. *)
Lemma pair_key_inj a b a' b' :
  pair_key a b = pair_key a' b' ↔ (a = a' ∧ b = b') ∨ (a = b' ∧ b = a').
Proof.
  split; [unfold pair_key; repeat case_decide; naive_solver|].
  intros [[-> ->]|[-> ->]]; [done|apply pair_key_comm].
Qed.

(** The id determines the time of the request. *)
Lemma make_request_id_time a b t a' b' t' :
  make_request_id a b t = make_request_id a' b' t' → t = t'.
Proof.
  unfold make_request_id. change (txt ":") with [58%N]. simpl.
  rewrite !app_comm_cons, !app_assoc.
  intros Heq%last_separator_inj; [|intros Hin%lower_hex_range; lia..].
  by destruct Heq as [_ ?%(inj lower_hex)].
Qed.

(** ** Well-formed stores *)

Definition pending_for (k : Text * Text) r : Prop := status r = Pending ∧ key_of r = k.

(** Every store: ids name their requests, and what is indexed is pending. *)
Record sound s : Prop := mkSound {
  wf_id i r : requests s !! i = Some r →
    i = id r ∧ id r = make_request_id (requester r) (recipient r) (created_at_unix_ms r);
  wf_peers i r : requests s !! i = Some r → requester r ≠ recipient r;
  wf_index k i : pair_index s !! k = Some i → ∃ r, requests s !! i = Some r ∧ pending_for k r
}.

(** The pending requests of the pair are indexed. *)
Definition exact (k : Text * Text) s : Prop :=
  ∀ i r, requests s !! i = Some r → pending_for k r → pair_index s !! k = Some i.

Lemma sound_empty dir : sound (empty_at dir).
Proof.
  split; simpl; [by intros i r ?%lookup_empty_Some..|]. intros k i. by rewrite lookup_empty.
Qed.

Lemma exact_empty k dir : exact k (empty_at dir).
Proof. intros i r Hr. cbn in Hr. by apply lookup_empty_Some in Hr. Qed.

(** At most one request between two peers is pending. *)
Lemma pending_unique s i i' r r' k :
  exact k s → requests s !! i = Some r → requests s !! i' = Some r' →
  pending_for k r → pending_for k r' → i = i' ∧ r = r'.
Proof.
  intros Hx Hr Hr' Hp Hp'. pose proof (Hx _ _ Hr Hp). pose proof (Hx _ _ Hr' Hp'). naive_solver.
Qed.

Lemma find_pending_sound s a b r :
  sound s → find_pending a b s = Some r →
  ∃ i, requests s !! i = Some r ∧ pending_for (pair_key a b) r.
Proof.
  intros Hs (i & Hi & (r' & Hr' & Hd)%bind_Some)%bind_Some. case_decide; simplify_eq.
  exists i. split; [done|]. apply (wf_index _ Hs) in Hi as (r2 & Hr2 & Hp). by simplify_eq.
Qed.

Lemma find_pending_Some s a b r :
  sound s → exact (pair_key a b) s →
  find_pending a b s = Some r ↔ ∃ i, requests s !! i = Some r ∧ pending_for (pair_key a b) r.
Proof.
  intros Hs Hx. split; [by apply find_pending_sound|].
  intros (i & Hr & Hp). unfold find_pending. rewrite (Hx _ _ Hr Hp).
  simpl. rewrite Hr. simpl. destruct Hp as [Hp _]. by rewrite decide_True.
Qed.

(** A reference without an index: search all requests. *)
Definition scan_pending (a b : Text) (m : gmap Text FriendRequest) : option FriendRequest :=
  head (filter (λ r, status r = Pending ∧
                     ((requester r = a ∧ recipient r = b) ∨ (requester r = b ∧ recipient r = a)))
          (btree_map_iter m).*2).

Lemma elem_of_iter s r : r ∈ iter s ↔ ∃ i, requests s !! i = Some r.
Proof.
  unfold iter. rewrite list_elem_of_fmap. split.
  - intros ([i r'] & -> & Hin%elem_of_btree_map_iter). eauto.
  - intros [i Hi]. exists (i, r). split; [done|]. by apply elem_of_btree_map_iter.
Qed.

Lemma key_of_pair r a b :
  key_of r = pair_key a b ↔
  (requester r = a ∧ recipient r = b) ∨ (requester r = b ∧ recipient r = a).
Proof. apply pair_key_inj. Qed.

Lemma find_pending_scan s a b :
  sound s → exact (pair_key a b) s → find_pending a b s = scan_pending a b (requests s).
Proof.
  intros Hs Hx. unfold scan_pending. destruct (filter _ _) as [|r l] eqn:Hf; simpl.
  - destruct (find_pending a b s) as [r|] eqn:Hp; [|done].
    apply find_pending_sound in Hp as (i & Hi & Hst & Hk%key_of_pair); [|done].
    assert (r ∈ @nil FriendRequest) as []%not_elem_of_nil. rewrite <- Hf.
    apply list_elem_of_filter. split; [done|]. by apply elem_of_iter; eauto.
  - assert (r ∈ r :: l) as Hr by left. rewrite <- Hf in Hr.
    apply list_elem_of_filter in Hr as [[Hst Hk] [i Hi]%elem_of_iter].
    apply find_pending_Some; [done..|]. exists i. split; [done|]. split; [done|].
    by apply key_of_pair.
Qed.

(** ** The operations keep the index *)

(** Every request is older than [now]. *)
Definition before (now : N) s : Prop :=
  ∀ i r, requests s !! i = Some r → (created_at_unix_ms r < now)%N.

Lemma fresh_id s a b now :
  sound s → before now s → requests s !! make_request_id a b now = None.
Proof.
  intros Hw Hb. destruct (requests s !! _) as [r|] eqn:Hr; [|done].
  destruct (wf_id _ Hw _ _ Hr) as [He Hi]. rewrite Hi in He.
  apply make_request_id_time in He. apply Hb in Hr. lia.
Qed.

Lemma sound_send s a b msg now :
  sound s → before now s → a ≠ b →
  let r := new a b msg now in
  sound (add_to_index r (set_requests (<[id r := r]> (requests s)) s)).
Proof.
  intros Hs Hb Hne r. pose proof (fresh_id s a b now Hs Hb) as Hfr. split; simpl.
  - intros i r' [[<- <-]|[_ Hr']]%lookup_insert_Some; [done|]. by apply (wf_id _ Hs).
  - intros i r' [[<- <-]|[_ Hr']]%lookup_insert_Some; [done|]. by eapply (wf_peers _ Hs).
  - intros k i. unfold index_request. rewrite decide_True by done.
    intros [[<- <-]|[Hk Hi]]%lookup_insert_Some.
    + exists r. by rewrite lookup_insert_eq.
    + apply (wf_index _ Hs) in Hi as (r' & Hr' & Hp). exists r'. split; [|done].
      rewrite lookup_insert_ne; [done|]. intros <-. simpl in *. congruence.
Qed.

Lemma exact_send k s a b msg now :
  sound s → find_pending a b s = None → exact k s →
  let r := new a b msg now in
  exact k (add_to_index r (set_requests (<[id r := r]> (requests s)) s)).
Proof.
  intros Hs Hf Hx r i r'. simpl. unfold index_request. rewrite decide_True by done.
  intros [[<- <-]|[Hi Hr']]%lookup_insert_Some Hp.
  - destruct Hp as [_ <-]. apply lookup_insert_eq.
  - rewrite lookup_insert_ne; [by eapply Hx|]. intros <-.
    assert (find_pending a b s = Some r') by (apply find_pending_Some; eauto). congruence.
Qed.

(** Both transitions end in the same update. *)
Definition settled_request r (st : FriendRequestStatus) (now : N) : FriendRequest :=
  mkRequest (id r) (requester r) (recipient r) st (created_at_unix_ms r) now (message r).

Lemma settle_eq s i r st now :
  requests s !! i = Some r →
  settle i r st now s =
  (Ok (settled_request r st now),
   set_requests (<[i := settled_request r st now]> (requests s)) (remove_from_index r s)).
Proof. intros Hr. unfold settle. simpl. by rewrite Hr. Qed.

Lemma sound_settle s i r st now :
  sound s → requests s !! i = Some r → sound (settle i r st now s).2.
Proof.
  intros Hs Hr. rewrite settle_eq by done. split; simpl.
  - intros j r' [[<- <-]|[_ Hr']]%lookup_insert_Some; [by apply (wf_id _ Hs) in Hr|].
    by apply (wf_id _ Hs).
  - intros j r' [[<- <-]|[_ Hr']]%lookup_insert_Some; [by apply (wf_peers _ Hs) in Hr|].
    by eapply (wf_peers _ Hs).
  - intros k j [Hk (r' & Hr' & Hp')%(wf_index _ Hs)]%lookup_delete_Some. exists r'. split; [|done].
    rewrite lookup_insert_ne; [done|]. intros <-. destruct Hp' as [_ <-]. naive_solver.
Qed.

Lemma exact_settle k s i r st now :
  requests s !! i = Some r → status r = Pending → st ≠ Pending →
  exact k s → exact k (settle i r st now s).2.
Proof.
  intros Hr Hp Hst Hx. rewrite settle_eq by done. intros j r'. simpl.
  intros [[<- <-]|[Hj Hr']]%lookup_insert_Some Hp'; [by destruct Hp'|].
  apply lookup_delete_Some. split; [|by eapply Hx]. intros <-. destruct Hj.
  by eapply (pending_unique s i j r r' (key_of r)).
Qed.

(** Clearing a settled request of a pair while one is pending: the index entry goes, the
    pending request stays. *)
Definition disturbs (k : Text * Text) (st : FriendRequestStatus) s : Prop :=
  st ≠ Pending ∧ (∃ i r, requests s !! i = Some r ∧ pending_for k r) ∧
  ∃ i r, requests s !! i = Some r ∧ status r = st ∧ key_of r = k.

Lemma sound_clear_one s i r :
  sound s → requests s !! i = Some r →
  sound (set_requests (delete i (requests s)) (remove_from_index r s)).
Proof.
  intros Hs Hr. split; simpl.
  - intros j r' [_ Hr']%lookup_delete_Some. by apply (wf_id _ Hs).
  - intros j r' [_ Hr']%lookup_delete_Some. by eapply (wf_peers _ Hs).
  - intros k j [Hk (r' & Hr' & Hp')%(wf_index _ Hs)]%lookup_delete_Some. exists r'. split; [|done].
    rewrite lookup_delete_ne; [done|]. intros <-. destruct Hp' as [_ <-]. naive_solver.
Qed.

Lemma exact_clear_one k st s i r :
  requests s !! i = Some r → status r = st → ¬ disturbs k st s → exact k s →
  exact k (set_requests (delete i (requests s)) (remove_from_index r s)).
Proof.
  intros Hr Hst Hd Hx j r'. simpl. intros [Hj Hr']%lookup_delete_Some Hp.
  apply lookup_delete_Some. split; [|by eapply Hx]. intros Hk.
  destruct (decide (st = Pending)) as [->|Hne].
  - destruct Hj. by eapply (pending_unique s i j r r' k).
  - apply Hd. split_and!; eauto.
Qed.

Lemma disturbs_delete k st i r s :
  disturbs k st (set_requests (delete i (requests s)) (remove_from_index r s)) → disturbs k st s.
Proof.
  unfold disturbs. simpl.
  intros (Hne & (j & r' & [_ Hj]%lookup_delete_Some & Hp) &
          (j' & r2 & [_ Hj']%lookup_delete_Some & H2)).
  split_and!; eauto.
Qed.

Lemma clear_loop_requests ids s : requests (clear_loop ids s) = foldr delete (requests s) ids.
Proof.
  rewrite <- foldl_deletes. revert s. induction ids as [|i ids IH]; intros s; [done|]. simpl.
  rewrite IH. simpl. by destruct (requests s !! i).
Qed.

Lemma clear_loop_keeps k st ids s :
  NoDup ids → (∀ i, i ∈ ids → ∃ r, requests s !! i = Some r ∧ status r = st) → sound s →
  sound (clear_loop ids s) ∧ (¬ disturbs k st s → exact k s → exact k (clear_loop ids s)).
Proof.
  intros Hnd. revert s. induction Hnd as [|i ids Hi Hnd IH]; intros s Hids Hs; [done|].
  simpl. destruct (Hids i) as (r & Hr & Hst); [left|]. rewrite Hr.
  set (s1 := set_requests (delete i (requests s)) (remove_from_index r s)).
  destruct (IH s1) as [Hso Hex].
  - intros j Hj. simpl. destruct (Hids j) as (r' & Hr' & Hst'); [by right|].
    exists r'. rewrite lookup_delete_ne; [done|]. intros <-. done.
  - by apply sound_clear_one.
  - split; [done|]. intros Hd Hx. apply Hex; [by intros ?%disturbs_delete|].
    by apply (exact_clear_one k st).
Qed.

Definition ids_with (st : FriendRequestStatus) s : list Text :=
  (filter (λ kv, status kv.2 = st) (btree_map_iter (requests s))).*1.

Lemma elem_of_ids_with st s i :
  i ∈ ids_with st s ↔ ∃ r, requests s !! i = Some r ∧ status r = st.
Proof.
  unfold ids_with. rewrite list_elem_of_fmap. split.
  - intros ([j r] & -> & [Hst Hin%elem_of_btree_map_iter]%list_elem_of_filter). eauto.
  - intros (r & Hr & Hst). exists (i, r). split; [done|].
    apply list_elem_of_filter. split; [done|]. by apply elem_of_btree_map_iter.
Qed.

Lemma NoDup_ids_with st s : NoDup (ids_with st s).
Proof.
  unfold ids_with. eapply sublist_NoDup;
    [apply (NoDup_fst_btree_map_iter (H := text_identity) (requests s))|].
  apply fmap_sublist, sublist_filter.
Qed.

Lemma clear_keeps k st s :
  sound s → sound (clear_by_status st s).2 ∧
  (¬ disturbs k st s → exact k s → exact k (clear_by_status st s).2).
Proof.
  intros Hs. apply clear_loop_keeps; [apply NoDup_ids_with| |done].
  intros i. apply elem_of_ids_with.
Qed.

(** ** Rebuilding the index *)

Lemma rebuild_lookup l k i :
  (∀ r r', r ∈ l → r' ∈ l → pending_for k r → pending_for k r' → id r = id r') →
  foldl (λ ix r, index_request r ix) ∅ l !! k = Some i ↔
  ∃ r, r ∈ l ∧ pending_for k r ∧ id r = i.
Proof.
  induction l as [|r l IH] using rev_ind; intros Hu.
  - simpl. rewrite lookup_empty. split; [done|]. set_solver.
  - rewrite foldl_app. simpl. unfold index_request at 1.
    assert (∀ r1 r2, r1 ∈ l → r2 ∈ l → pending_for k r1 → pending_for k r2 → id r1 = id r2)
      as Hu' by (intros; apply Hu; set_solver).
    specialize (IH Hu'). case_decide as Hp; [destruct (decide (key_of r = k)) as [Hk|Hk]|].
    + rewrite Hk, lookup_insert_eq. split.
      * intros [= <-]. exists r. split; [set_solver|done].
      * intros (r' & Hin & Hp' & <-). f_equal. apply Hu; [set_solver|done|by split|done].
    + rewrite lookup_insert_ne, IH by done. split.
      * intros (r' & Hin & ?). exists r'. split; [set_solver|done].
      * intros (r' & [Hin| ->%list_elem_of_singleton]%elem_of_app & [Hp' Hi]); [eauto|].
        by destruct Hp'.
    + rewrite IH. split.
      * intros (r' & Hin & ?). exists r'. split; [set_solver|done].
      * intros (r' & [Hin| ->%list_elem_of_singleton]%elem_of_app & [Hp' Hi]); [eauto|].
        by destruct Hp'.
Qed.

(** The requests determine the index of an exact pair. *)
Lemma rebuild_exact s s' k :
  sound s → exact k s → requests s' = requests s →
  pair_index (rebuild_pair_index s') !! k = pair_index s !! k.
Proof.
  intros Hs Hx Hr. unfold rebuild_pair_index. simpl. apply option_eq. intros i.
  rewrite rebuild_lookup.
  - split.
    + intros (r & [j Hj]%elem_of_iter & Hp & <-). rewrite Hr in Hj.
      destruct (wf_id _ Hs _ _ Hj) as [<- _]. by eapply Hx.
    + intros (r & Hi & Hp)%(wf_index _ Hs).
      exists r. split_and!; [apply elem_of_iter; rewrite Hr; eauto|done|].
      by destruct (wf_id _ Hs _ _ Hi) as [-> _].
  - intros r r' [j Hj]%elem_of_iter [j' Hj']%elem_of_iter Hp Hp'. rewrite Hr in Hj, Hj'.
    by destruct (pending_unique _ _ _ _ _ _ Hx Hj Hj' Hp Hp') as [_ ->].
Qed.

Lemma rebuild_sound s s' :
  sound s → (∀ k, exact k s) → requests s' = requests s →
  rebuild_pair_index s' = set_index (pair_index s) s'.
Proof.
  intros Hs Hx Hr. unfold rebuild_pair_index. f_equal. apply map_eq. intros k.
  exact (rebuild_exact s s' k Hs (Hx k) Hr).
Qed.

(** ** Runs *)

Inductive Op : Type :=
| OSend (rq rc : Text) (msg : option Text)
| OTransition (i caller : Text) (st : FriendRequestStatus)
| OConfirm (i caller : Text)
| OClear (st : FriendRequestStatus)
| OStoreMessage (i : Text) (m : Bytes)
| OTakeMessage (i : Text).

Definition apply_op (now : N) (o : Op) s : FriendRequestStore :=
  match o with
  | OSend rq rc msg => (send_request rq rc msg now s).2
  | OTransition i caller st => (transition_request i caller st now s).2
  | OConfirm i caller => (confirm_outgoing_accepted i caller now s).2
  | OClear st => (clear_by_status st s).2
  | OStoreMessage i m => store_pending_signed_message i m s
  | OTakeMessage i => (take_pending_signed_message i s).2
  end.

Definition apply_ops (ops : list (N * Op)) s : FriendRequestStore :=
  foldl (λ s no, apply_op no.1 no.2 s) s ops.

(** The clock advances before every new request and never goes back. *)
Fixpoint well_clocked (t : N) (ops : list (N * Op)) : Prop :=
  match ops with
  | [] => True
  | (now, o) :: ops' =>
      match o with
      | OSend _ _ _ => (t < now)%N
      | _ => (t ≤ now)%N
      end ∧ well_clocked now ops'
  end.

(** No settled request of the pair is cleared while another one is pending. *)
Fixpoint undisturbed (k : Text * Text) (ops : list (N * Op)) s : Prop :=
  match ops with
  | [] => True
  | (now, o) :: ops' =>
      match o with
      | OClear st => ¬ disturbs k st s
      | _ => True
      end ∧ undisturbed k ops' (apply_op now o s)
  end.

(** What a transition that is not refused does. *)
Lemma transition_cases s i caller st now :
  (∃ e, transition_request i caller st now s = (Err e, s)) ∨
  (∃ r, requests s !! i = Some r ∧ status r = Pending ∧ expected_caller r st = Some caller ∧
        transition_request i caller st now s = settle i r st now s).
Proof.
  unfold transition_request. destruct (requests s !! i) as [r|] eqn:Hr; [|eauto].
  destruct (expected_caller r st) as [who|] eqn:Hw; [|eauto].
  case_decide as Hc; [eauto|]. case_decide as Hp; [eauto|]. right. exists r.
  by subst.
Qed.

Lemma confirm_cases s i caller now :
  (∃ e, confirm_outgoing_accepted i caller now s = (Err e, s)) ∨
  (∃ r, requests s !! i = Some r ∧ status r = Pending ∧ caller = requester r ∧
        confirm_outgoing_accepted i caller now s = settle i r Accepted now s).
Proof.
  unfold confirm_outgoing_accepted. destruct (requests s !! i) as [r|] eqn:Hr; [|eauto].
  case_decide as Hc; [eauto|]. case_decide as Hp; [eauto|]. right. exists r.
  by subst.
Qed.

Lemma before_empty t dir : before t (empty_at dir).
Proof. intros i r Hr. cbn in Hr. by apply lookup_empty_Some in Hr. Qed.

Lemma before_mono now now' s : (now ≤ now')%N → before now s → before now' s.
Proof. intros Hle Hb i r Hr. apply Hb in Hr. lia. Qed.

Lemma before_settle s i r st now t :
  requests s !! i = Some r → before t s → before t (settle i r st now s).2.
Proof.
  intros Hr Hb. rewrite settle_eq by done. intros j r' Hj. simpl in Hj.
  apply lookup_insert_Some in Hj as [[<- <-]|[_ Hj]]; [exact (Hb _ _ Hr)|by eapply Hb].
Qed.

Lemma expected_not_pending r st who : expected_caller r st = Some who → st ≠ Pending.
Proof. by intros Hw ->. Qed.

(** One operation at a time later than every request. *)
Lemma apply_op_keeps k now o s :
  sound s → match o with OSend _ _ _ => before now s | _ => True end →
  sound (apply_op now o s) ∧
  (match o with OClear st => ¬ disturbs k st s | _ => True end →
   exact k s → exact k (apply_op now o s)).
Proof.
  intros Hs Ho. destruct o as [rq rc msg|i caller st|i caller|st|i m|i]; simpl.
  - unfold send_request. case_decide as Hne; [done|].
    destruct (find_pending rq rc s) eqn:Hf; [done|].
    split; [by apply sound_send|]. intros _. by apply exact_send.
  - destruct (transition_cases s i caller st now) as [[e ->]|(r & Hr & Hp & Hx & ->)]; [done|].
    split; [by apply sound_settle|]. intros _. apply exact_settle; eauto using expected_not_pending.
  - destruct (confirm_cases s i caller now) as [[e ->]|(r & Hr & Hp & Hx & ->)]; [done|].
    split; [by apply sound_settle|]. intros _. by apply exact_settle.
  - by apply clear_keeps.
  - split; [|done]. by destruct Hs.
  - split; [|done]. by destruct Hs.
Qed.

(** Requests are never dated after the operation that created them. *)
Lemma before_apply_op now o s : before (now + 1) s → before (now + 1) (apply_op now o s).
Proof.
  intros Hb.
  destruct o as [rq rc msg|i caller st|i caller|st|i m|i]; simpl; try done.
  - unfold send_request. case_decide; [done|]. destruct (find_pending rq rc s); [done|].
    intros j r Hj. simpl in Hj. apply lookup_insert_Some in Hj as [[<- <-]|[_ Hj]];
      [simpl; lia|by eapply Hb].
  - destruct (transition_cases s i caller st now) as [[e ->]|(r & Hr & _ & _ & ->)]; [done|].
    by apply before_settle.
  - destruct (confirm_cases s i caller now) as [[e ->]|(r & Hr & _ & _ & ->)]; [done|].
    by apply before_settle.
  - intros j r Hj. rewrite clear_loop_requests in Hj. rewrite lookup_deletes in Hj.
    case_decide; [done|]. by eapply Hb.
Qed.

Lemma apply_ops_keeps t ops s :
  sound s → before (t + 1) s → well_clocked t ops →
  sound (apply_ops ops s) ∧ ∀ k, undisturbed k ops s → exact k s → exact k (apply_ops ops s).
Proof.
  revert t s. induction ops as [|[now o] ops IH]; intros t s Hs Hb Hc; [done|].
  destruct Hc as [Ho Hc]. simpl.
  assert (match o with OSend _ _ _ => before now s | _ => True end) as Hnow.
  { destruct o; try done. eapply before_mono; [|done]. lia. }
  destruct (IH now (apply_op now o s)) as [Hso Hex]; [| |done|].
  - by destruct (apply_op_keeps ([], []) now o s Hs Hnow).
  - apply before_apply_op. eapply before_mono; [|done]. destruct o; lia.
  - split; [done|]. intros k [Hu Hus] Hx. apply Hex; [done|].
    by apply (apply_op_keeps k now o s Hs Hnow).
Qed.

Lemma run_keeps dir t ops :
  well_clocked t ops → let s := apply_ops ops (empty_at dir) in
  sound s ∧ ∀ k, undisturbed k ops (empty_at dir) → exact k s.
Proof.
  intros Hc s. destruct (apply_ops_keeps t ops (empty_at dir)) as [Hs Hx];
    [apply sound_empty|apply before_empty|done|].
  split; [done|]. intros k Hu. apply Hx; [done|apply exact_empty].
Qed.

(** Stores reached from an empty one, at time [now], while the clock advances and no pair is
    disturbed. *)
Definition reachable (now : N) s : Prop :=
  ∃ dir t ops, well_clocked t ops ∧ s = apply_ops ops (empty_at dir) ∧
    (∀ k, undisturbed k ops (empty_at dir)) ∧ before now s.

Lemma reachable_keeps now s : reachable now s → sound s ∧ (∀ k, exact k s) ∧ before now s.
Proof.
  intros (dir & t & ops & Hc & -> & Hu & Hb). destruct (run_keeps dir t ops Hc) as [Hs Hx].
  split_and!; [done| |done]. intros k. by apply Hx.
Qed.

(** C14: The duplicate check of friend requests.  After any operations on a new store, as long as
    the clock advances between two requests: what the index finds for two peers is always a
    pending request between them; and for every pair of peers of which no settled request was
    cleared while another one was pending, the index finds exactly what a search of all
    requests finds, agrees with the index rebuilt from all requests, and at most one request
    of the pair is pending, whichever of them sent it; if that holds for all pairs, rebuilding
    changes nothing. *)
Theorem index_equals_search dir t ops :
  well_clocked t ops →
  let s := apply_ops ops (empty_at dir) in
  let between a b r :=
    (requester r = a ∧ recipient r = b) ∨ (requester r = b ∧ recipient r = a) in
  (∀ a b r, find_pending a b s = Some r → r ∈ iter s ∧ status r = Pending ∧ between a b r) ∧
  (∀ a b, undisturbed (pair_key a b) ops (empty_at dir) →
     find_pending a b s = scan_pending a b (requests s) ∧
     pair_index (rebuild_pair_index s) !! pair_key a b = pair_index s !! pair_key a b ∧
     ∀ i j r r', requests s !! i = Some r → requests s !! j = Some r' →
       status r = Pending → status r' = Pending → between a b r → between a b r' → i = j) ∧
  ((∀ k, undisturbed k ops (empty_at dir)) → rebuild_pair_index s = s).
Proof.
  intros Hc s between. destruct (run_keeps dir t ops Hc) as [Hs Hx]. fold s in Hs, Hx. split_and!.
  - intros a b r (i & Hi & Hp & Hk%key_of_pair)%find_pending_sound; [|done].
    split_and!; [apply elem_of_iter; eauto|done..].
  - intros a b Hu%Hx. split_and!.
    + by apply find_pending_scan.
    + by apply rebuild_exact.
    + intros i j r r' Hr Hr' Hp Hp' Hk%key_of_pair Hk'%key_of_pair.
      by destruct (pending_unique s i j r r' (pair_key a b) Hu).
  - intros Hu. rewrite (rebuild_sound s s Hs); [by destruct s|auto|done].
Qed.

(** Sending a request fails without effect when the peers are the same or a request
    between them is pending, which it then names; otherwise it stores a new pending request
    under an unused id and keeps all others. *)
Theorem send_request_exact now s a b msg :
  reachable now s →
  (a = b → send_request a b msg now s = (Err SelfRequest, s)) ∧
  (a ≠ b →
   (∃ r, r ∈ iter s ∧ status r = Pending ∧
         ((requester r = a ∧ recipient r = b) ∨ (requester r = b ∧ recipient r = a)) ∧
         send_request a b msg now s = (Err (DuplicatePending (id r)), s)) ∨
   ((∀ r, r ∈ iter s → status r = Pending →
          ¬ ((requester r = a ∧ recipient r = b) ∨ (requester r = b ∧ recipient r = a))) ∧
    let r := new a b msg now in
    (send_request a b msg now s).1 = Ok r ∧ requests s !! id r = None ∧
    requests (send_request a b msg now s).2 = <[id r := r]> (requests s))).
Proof.
  intros (Hs & Hx & Hb)%reachable_keeps. unfold send_request.
  split; [intros ->; by rewrite decide_True|]. intros Hne. rewrite decide_False by done.
  destruct (find_pending a b s) as [r|] eqn:Hf; [left|right].
  - apply find_pending_sound in Hf as (i & Hi & Hp & Hk%key_of_pair); [|done].
    exists r. split_and!; [apply elem_of_iter; eauto|done..].
  - split; [|split_and!; [done|by apply fresh_id|done]].
    intros r [i Hi]%elem_of_iter Hp Hk%key_of_pair.
    assert (find_pending a b s = Some r) by (apply find_pending_Some; [done..|]; exists i; done).
    congruence.
Qed.

(** Under an advancing clock a request changes only once, from pending, and only by the
    right peer: the recipient accepts or declines it, the requester cancels it or confirms
    its acceptance; apart from status and time of change nothing of it changes.  A request
    disappears only when its status is cleared. *)
Theorem requests_change_by_right now o s i r :
  reachable now s → requests s !! i = Some r →
  match requests (apply_op now o s) !! i with
  | Some r' =>
      r' = r ∨
      (status r = Pending ∧ r' = settled_request r (status r') now ∧
       ((o = OTransition i (recipient r) (status r') ∧
           (status r' = Accepted ∨ status r' = Declined)) ∨
        (o = OTransition i (requester r) Cancelled ∧ status r' = Cancelled) ∨
        (o = OConfirm i (requester r) ∧ status r' = Accepted)))
  | None => o = OClear (status r)
  end.
Proof.
  intros (Hw & _ & Hb)%reachable_keeps Hr.
  assert (∀ j st r0, requests s !! j = Some r0 → requests (settle j r0 st now s).2 =
            <[j := settled_request r0 st now]> (requests s)) as Hset
    by (intros j st r0 Hj; by rewrite settle_eq).
  destruct o as [rq rc msg|j caller st|j caller|st|j m|j]; simpl; try (rewrite Hr; by left).
  - unfold send_request. case_decide; [simpl; rewrite Hr; by left|].
    destruct (find_pending rq rc s); [simpl; rewrite Hr; by left|]. simpl.
    rewrite lookup_insert_ne, Hr; [by left|]. intros He.
    pose proof (fresh_id s rq rc now Hw Hb). simpl in *. congruence.
  - destruct (transition_cases s j caller st now) as [[e ->]|(r0 & Hr0 & Hp & Hx & ->)];
      [simpl; rewrite Hr; by left|].
    rewrite Hset by done. destruct (decide (j = i)) as [->|Hne];
      [|rewrite lookup_insert_ne, Hr by done; by left].
    rewrite lookup_insert_eq. simplify_eq. right. split_and!; [done..|].
    destruct st; simplify_eq/=; auto.
  - destruct (confirm_cases s j caller now) as [[e ->]|(r0 & Hr0 & Hp & -> & ->)];
      [simpl; rewrite Hr; by left|].
    rewrite Hset by done. destruct (decide (j = i)) as [->|Hne];
      [|rewrite lookup_insert_ne, Hr by done; by left].
    rewrite lookup_insert_eq. simplify_eq. right. split_and!; auto.
  - rewrite clear_loop_requests, lookup_deletes. fold (ids_with st s).
    case_decide as Hin; [|rewrite Hr; by left].
    apply elem_of_ids_with in Hin as (r' & Hr' & <-). by simplify_eq.
Qed.

(** ** Clearing and colliding requests *)

Lemma send_request_stored s a b msg now :
  a ≠ b → find_pending a b s = None →
  send_request a b msg now s =
  (Ok (new a b msg now),
   mkStore (schema_version s)
     (<[make_request_id a b now := new a b msg now]> (requests s))
     (pending_signed_messages s) (<[pair_key a b := make_request_id a b now]> (pair_index s))
     (data_dir s)).
Proof. intros Hne Hf. unfold send_request. by rewrite decide_False, Hf. Qed.

Lemma transition_stored s i r st now caller :
  requests s !! i = Some r → expected_caller r st = Some caller → status r = Pending →
  transition_request i caller st now s =
  (Ok (settled_request r st now),
   mkStore (schema_version s) (<[i := settled_request r st now]> (requests s))
     (pending_signed_messages s) (delete (key_of r) (pair_index s)) (data_dir s)).
Proof.
  intros Hr Hc Hp. unfold transition_request. rewrite Hr, Hc, !decide_False by naive_solver.
  by rewrite settle_eq.
Qed.

Lemma find_pending_unindexed s a b : pair_index s !! pair_key a b = None → find_pending a b s = None.
Proof. intros Hk. unfold find_pending. by rewrite Hk. Qed.

(** The ids collected when exactly one request has the status. *)
Lemma ids_with_one st s i :
  (∀ j, (∃ r, requests s !! j = Some r ∧ status r = st) ↔ j = i) → ids_with st s = [i].
Proof.
  intros Hj. apply Permutation_singleton_r, NoDup_Permutation;
    [apply NoDup_ids_with|apply NoDup_singleton|].
  intros j. by rewrite elem_of_ids_with, list_elem_of_singleton.
Qed.

(** The store with a declined and a newer pending request between [a] and [b]. *)
Definition declined_then_pending dir a b t1 t2 : FriendRequestStore :=
  mkStore SCHEMA_VERSION
    (<[make_request_id a b t2 := new a b None t2]>
       {[make_request_id a b t1 := settled_request (new a b None t1) Declined t1]})
    ∅ {[pair_key a b := make_request_id a b t2]} dir.

Lemma declined_then_pending_reached dir a b t1 t2 :
  a ≠ b →
  apply_ops
    [(t1, OSend a b None); (t1, OTransition (make_request_id a b t1) b Declined);
     (t2, OSend a b None)] (empty_at dir) = declined_then_pending dir a b t1 t2.
Proof.
  intros Hne. unfold apply_ops. simpl.
  rewrite (send_request_stored (empty_at dir)) by (done || by apply find_pending_unindexed).
  erewrite transition_stored; [|apply lookup_insert_eq|done|done]. simpl.
  rewrite send_request_stored by (done || apply find_pending_unindexed, lookup_delete_eq).
  unfold declined_then_pending. simpl. f_equal.
  - by rewrite insert_insert_eq.
  - unfold key_of. simpl. by rewrite delete_insert_eq.
Qed.

(** Clearing the declined requests also removes the index entry of a pending request
    between the same peers, so that a second pending request between them is accepted. *)
Theorem clear_terminal_allows_duplicate dir a b t1 t2 t3 :
  a ≠ b → (t1 < t2)%N → (t2 < t3)%N →
  let s := apply_ops
    [(t1, OSend a b None); (t1, OTransition (make_request_id a b t1) b Declined);
     (t2, OSend a b None); (t3, OClear Declined)] (empty_at dir) in
  iter s = [new a b None t2] ∧
  (send_request a b None t3 s).1 = Ok (new a b None t3) ∧
  len (send_request a b None t3 s).2 = 2.
Proof.
  intros Hne H12 H23. cbn zeta.
  assert (make_request_id a b t1 ≠ make_request_id a b t2) as H1
    by (intros ?%make_request_id_time; lia).
  assert (make_request_id a b t3 ≠ make_request_id a b t2) as H2
    by (intros ?%make_request_id_time; lia).
  set (s0 := declined_then_pending dir a b t1 t2).
  assert (apply_op t3 (OClear Declined) s0 =
    mkStore SCHEMA_VERSION {[make_request_id a b t2 := new a b None t2]} ∅ ∅ dir) as Hc.
  { change (clear_loop (ids_with Declined s0) s0 = mkStore SCHEMA_VERSION
      {[make_request_id a b t2 := new a b None t2]} ∅ ∅ dir). rewrite (ids_with_one _ _ (make_request_id a b t1)).
    - simpl. rewrite lookup_insert_ne, lookup_singleton_eq by done. simpl.
      unfold set_requests, remove_from_index. simpl. f_equal.
      + rewrite delete_insert_ne, delete_singleton_eq by done. apply insert_empty.
      + unfold key_of. simpl. apply delete_singleton_eq.
    - intros j. unfold s0. simpl. split.
      + intros (r & [[<- <-]|[_ [<- <-]%lookup_singleton_Some]]%lookup_insert_Some & ?); done.
      + intros ->. eexists. by rewrite lookup_insert_ne, lookup_singleton_eq. }
  change (apply_ops _ _) with (apply_op t3 (OClear Declined) (apply_ops
    [(t1, OSend a b None); (t1, OTransition (make_request_id a b t1) b Declined);
     (t2, OSend a b None)] (empty_at dir))).
  rewrite declined_then_pending_reached by done. unfold s0 in Hc. rewrite Hc. split.
  - exact (f_equal (λ l, l.*2) (btree_map_iter_singleton (H := text_identity)
      (make_request_id a b t2) (new a b None t2))).
  - rewrite send_request_stored by (done || by apply find_pending_unindexed).
    split; [done|]. unfold len. simpl.
    rewrite map_size_insert_None, map_size_singleton; [done|]. by rewrite lookup_singleton_ne.
Qed.

(** Ids keep eight characters of each peer: two requests of one millisecond to peers that
    agree in these collide.  The second replaces the first, and sending to the first peer
    again is refused as a duplicate of the request to the second. *)
Theorem colliding_request_replaces dir a b c t t' :
  a ≠ b → a ≠ c → pair_key a b ≠ pair_key a c → take 8 b = take 8 c →
  let s := apply_ops [(t, OSend a b None); (t, OSend a c None)] (empty_at dir) in
  requests s = {[make_request_id a c t := new a c None t]} ∧
  (send_request a b None t' s).1 = Err (DuplicatePending (make_request_id a c t)).
Proof.
  intros Hb Hc Hk Hp. cbn zeta. unfold apply_ops. simpl.
  assert (make_request_id a b t = make_request_id a c t) as Hi
    by (unfold make_request_id; by rewrite Hp).
  rewrite (send_request_stored (empty_at dir)) by (done || by apply find_pending_unindexed).
  rewrite send_request_stored; [|done|].
  2: { apply find_pending_unindexed. simpl. by rewrite lookup_insert_ne. }
  simpl. rewrite <- Hi, insert_insert_eq, insert_empty. split; [done|].
  unfold send_request. rewrite decide_False by done. unfold find_pending. simpl.
  rewrite lookup_insert_ne, lookup_insert_eq by done. simpl.
  rewrite lookup_singleton_eq. by rewrite Hi.
Qed.

(** ** Listings *)

#[export] Instance newer_total : Total newer.
Proof. intros x y. unfold newer. lia. Qed.

#[export] Instance newer_trans : Transitive newer.
Proof. intros x y z. unfold newer. lia. Qed.

(** Every listing holds exactly the requests it is for, newest first. *)
Theorem listing_exact P s :
  StronglySorted newer (listing P s) ∧
  listing P s ≡ₚ filter (λ r, P r = true) (iter s) ∧
  ∀ r, r ∈ listing P s ↔ P r = true ∧ ∃ i, requests s !! i = Some r.
Proof.
  assert (listing P s ≡ₚ filter (λ r, P r = true) (iter s)) as Hp
    by apply merge_sort_Permutation.
  split_and!; [apply StronglySorted_merge_sort; apply _|done|].
  intros r. by rewrite Hp, list_elem_of_filter, elem_of_iter.
Qed.

(** ** Persistence *)

Lemma requests_path_plain dir : plain (friend_requests_file_path dir).
Proof. done. Qed.

Lemma clear_loop_schema ids s : schema_version (clear_loop ids s) = schema_version s.
Proof.
  revert s. induction ids as [|i ids IH]; intros s; simpl; [done|]. rewrite IH.
  by destruct (requests s !! i).
Qed.

Lemma apply_op_schema now o s : schema_version (apply_op now o s) = schema_version s.
Proof.
  destruct o as [rq rc msg|i caller st|i caller|st|i m|i]; simpl; [| | | |done..].
  - unfold send_request. case_decide; [done|]. by destruct (find_pending rq rc s).
  - destruct (transition_cases s i caller st now) as [[e ->]|(r & Hr & _ & _ & ->)]; [done|].
    by rewrite settle_eq.
  - destruct (confirm_cases s i caller now) as [[e ->]|(r & Hr & _ & _ & ->)]; [done|].
    by rewrite settle_eq.
  - apply clear_loop_schema.
Qed.

Lemma reachable_schema now s : reachable now s → schema_version s = SCHEMA_VERSION.
Proof.
  intros (dir & t & ops & _ & -> & _). unfold apply_ops.
  induction ops as [|[now' o] ops IH] using rev_ind; [done|].
  rewrite foldl_app. simpl. by rewrite apply_op_schema.
Qed.

(** Once a store reached under an advancing clock is saved, loading it gives the same
    store back: requests, queued messages, the index, which is not in the file, and the
    directory. *)
Theorem save_load_roundtrip `{!Json FriendRequestStore} io left pid seq now s d d' u :
  (∀ s', normal s' = stored_form s') →
  reachable now s → data_dir s ≠ [] →
  save io left pid seq s d = (Ok u, d') → load (data_dir s) d' = Ok s.
Proof.
  intros Hn Hr Hdir Hs. pose proof (reachable_keeps _ _ Hr) as (Hw & Hx & _).
  unfold save in Hs. rewrite decide_False in Hs by done.
  pose proof (atomic_write_json_spec io left pid seq (friend_requests_file_path (data_dir s)) s d
    (requests_path_plain _)) as [_ Hsp].
  destruct (atomic_write_json _ _ _ _ _ _ _) as [[u'|e|] d''] eqn:Hj; simplify_eq/=.
  destruct Hsp as (f & Hf & _ & Hc). unfold load. rewrite Hf, Hc, Hn. simpl.
  unfold mbind, res_bind. simpl. rewrite (reachable_schema _ _ Hr), decide_True by done.
  f_equal. rewrite (rebuild_sound s) by done. rewrite <- (reachable_schema _ _ Hr). by destruct s.
Qed.

(** ** Witnesses *)

Definition alice : Text := txt "alice".
Definition bob : Text := txt "bob".
Definition carol : Text := txt "carol".

Definition sample_ops : list (N * Op) :=
  [(5%N, OSend alice bob None); (6%N, OTransition (make_request_id alice bob 5) bob Accepted);
   (7%N, OSend carol alice (Some (txt "hi"))); (8%N, OSend alice carol None);
   (9%N, OClear Pending); (9%N, OClear Accepted); (10%N, OSend bob carol None)].

Definition sample_store : FriendRequestStore := apply_ops sample_ops (empty_at (txt "d")).

Lemma sample_clocked : well_clocked 0 sample_ops.
Proof. simpl. repeat split; lia. Qed.

Lemma sample_undisturbed k : undisturbed k sample_ops (empty_at (txt "d")).
Proof.
  unfold sample_ops. do 4 (split; [done|]). split; [by intros [? _]|]. split; [|done].
  intros (_ & (i & r & Hi & Hp & _) & _).
  assert (map_Forall (λ _ r, status r ≠ Pending)
    (requests (apply_ops (take 5 sample_ops) (empty_at (txt "d"))))) as Hf by decide_compute.
  by destruct (Hf i r Hi).
Qed.

Lemma sample_reachable : reachable 11 sample_store.
Proof.
  exists (txt "d"), 0%N, sample_ops.
  split_and!; [apply sample_clocked|done|apply sample_undisturbed|].
  assert (map_Forall (λ _ r, (created_at_unix_ms r < 11)%N) (requests sample_store)) as Hf
    by decide_compute.
  intros i r Hr. by apply (Hf i).
Qed.

Lemma index_equals_search_witness :
  rebuild_pair_index sample_store = sample_store ∧
  find_pending carol bob sample_store = scan_pending carol bob (requests sample_store) ∧
  find_pending carol bob sample_store = Some (new bob carol None 10).
Proof.
  destruct (index_equals_search (txt "d") 0 sample_ops sample_clocked) as (_ & Hp & Hr).
  split; [exact (Hr sample_undisturbed)|]. split; [|vm_compute; reflexivity].
  exact (proj1 (Hp carol bob (sample_undisturbed _))).
Defined.

Lemma send_request_exact_witness :
  send_request alice alice None 11 sample_store = (Err SelfRequest, sample_store).
Proof. by apply (send_request_exact 11 sample_store alice alice None sample_reachable). Defined.

Lemma requests_change_by_right_witness :
  let i := make_request_id bob carol 10 in
  let o := OTransition i carol Accepted in
  let r := new bob carol None 10 in
  match requests (apply_op 11 o sample_store) !! i with
  | Some r' =>
      r' = r ∨
      (status r = Pending ∧ r' = settled_request r (status r') 11 ∧
       ((o = OTransition i (recipient r) (status r') ∧
           (status r' = Accepted ∨ status r' = Declined)) ∨
        (o = OTransition i (requester r) Cancelled ∧ status r' = Cancelled) ∨
        (o = OConfirm i (requester r) ∧ status r' = Accepted)))
  | None => o = OClear (status r)
  end.
Proof.
  intros i o r. apply (requests_change_by_right 11 o sample_store i r sample_reachable).
  vm_compute. reflexivity.
Defined.

Lemma clear_terminal_allows_duplicate_witness :
  len (send_request alice bob None 3 (apply_ops
    [(1%N, OSend alice bob None);
     (1%N, OTransition (make_request_id alice bob 1) bob Declined);
     (2%N, OSend alice bob None); (3%N, OClear Declined)] (empty_at (txt "d")))).2 = 2.
Proof. by apply (clear_terminal_allows_duplicate (txt "d") alice bob 1 2 3). Defined.

(** A concrete file format. *)
#[local] Instance ser_status : Ser FriendRequestStatus.
Proof.
  refine (ser_inj (λ st, match st with
                         | Pending => 0 | Accepted => 1 | Declined => 2 | Cancelled => 3
                         end%N)
    (λ n, match n with
          | 0 => Some Pending | 1 => Some Accepted | 2 => Some Declined | _ => Some Cancelled
          end%N) _).
  by intros [].
Defined.

#[local] Instance ser_request : Ser FriendRequest.
Proof.
  refine (ser_inj (B := Text * Text * Text * FriendRequestStatus * N * N * option Text)
    (λ r, (id r, requester r, recipient r, status r, created_at_unix_ms r,
           updated_at_unix_ms r, message r))
    (λ '(a, b, c, st, t, u, m), Some (mkRequest a b c st t u m)) _).
  by intros [].
Defined.

#[local] Instance ser_store : Ser FriendRequestStore.
Proof.
  refine (ser_inj
    (B := N * list (Text * FriendRequest) * list (Text * Bytes) * list (Text * Text * Text) * Text)
    (λ s, (schema_version s, map_to_list (requests s), map_to_list (pending_signed_messages s),
           map_to_list (pair_index s), data_dir s))
    (λ '(v, m, p, x, dir), Some (mkStore v (list_to_map m) (list_to_map p) (list_to_map x) dir)) _).
  intros []. simpl. by rewrite !list_to_map_to_list.
Defined.

Definition sample_json : Json FriendRequestStore := toy_json stored_form.

Definition sample_save : res (option WriteError) unit * Disk :=
  save (Json0 := sample_json) (λ _, true) [] 7 0 sample_store ∅.

Lemma save_load_roundtrip_witness :
  sample_save.1 = Ok tt ∧
  load (Json0 := sample_json) (data_dir sample_store) sample_save.2 = Ok sample_store.
Proof.
  assert (sample_save.1 = Ok tt) as Hs by (vm_compute; reflexivity).
  split; [exact Hs|].
  refine (save_load_roundtrip (Json0 := sample_json) (λ _, true) [] 7 0 11 sample_store ∅ _ tt
    (λ s, eq_refl) sample_reachable _ _).
  - intros He. vm_compute in He. discriminate He.
  - fold sample_save. rewrite <- Hs. apply surjective_pairing.
Defined.

(** ** The friends list *)

Module friends_facts.
Import friends.

Section facts.
Context {EndpointAddr Ticket MailboxPublicKey : Type} `{EqDecision EndpointAddr}.
Abbreviation FRecord := (@FriendRecord EndpointAddr Ticket MailboxPublicKey).
Abbreviation FStore := (@FriendsStore EndpointAddr Ticket MailboxPublicKey).
Implicit Types (fr : FRecord) (fs : FStore) (l : list EndpointAddr).

Lemma foldl_push_new acc l :
  foldl push_new acc l = acc ++ filter (λ y, y ∉ acc) (first_occurrences l).
Proof.
  revert acc. induction l as [|x l IH]; intros acc; [simpl; by rewrite app_nil_r|].
  cbn [foldl]. rewrite IH. unfold push_new. case_decide as Hx.
  - by rewrite first_occurrences_old.
  - by rewrite first_occurrences_new, <- app_assoc.
Qed.

(** Recording addresses keeps the first five of the new ones followed by the known ones,
    each once. *)
Theorem record_addrs_exact addrs now fr :
  known_addrs (record_addrs addrs now fr) =
    take MAX_KNOWN_ADDRS (first_occurrences (addrs ++ known_addrs fr)) ∧
  NoDup (known_addrs (record_addrs addrs now fr)).
Proof.
  assert (known_addrs (record_addrs addrs now fr) =
    take MAX_KNOWN_ADDRS (first_occurrences (addrs ++ known_addrs fr))) as ->.
  { unfold record_addrs. rewrite <- foldl_app.
    assert (foldl push_new [] (addrs ++ known_addrs fr)
            = first_occurrences (addrs ++ known_addrs fr)) as ->.
    { rewrite foldl_push_new. simpl. apply filter_all.
      intros. apply not_elem_of_nil. }
    cbn [known_addrs set_addrs_fields]. case_decide as Hd; [done|].
    simpl. destruct (take _ _); [done|]. by destruct Hd. }
  split; [done|]. eapply sublist_NoDup; [apply NoDup_first_occurrences|]. apply sublist_take.
Qed.

(** The time of the last change of the addresses is set even when they did not change. *)
Theorem addrs_stamped_without_change now fr :
  known_addrs fr ≠ [] → NoDup (known_addrs fr) → length (known_addrs fr) ≤ MAX_KNOWN_ADDRS →
  record_addrs [] now fr = set_addrs_fields (known_addrs fr) (Some now) fr.
Proof.
  intros Hne Hnd Hl. destruct (record_addrs_exact [] now fr) as [He _].
  assert (first_occurrences (known_addrs fr) = known_addrs fr) as Hf.
  { clear -Hnd. induction Hnd as [|x l Hx _ IH]; simpl; [done|]. rewrite IH. f_equal.
    clear IH. induction l as [|y l IH]; [done|]. rewrite filter_cons_True, IH; set_solver. }
  simpl in He. rewrite Hf, take_ge in He by done. unfold record_addrs in *. simpl in *.
  case_decide as Hd; simpl in *; [by rewrite He|]. congruence.
Qed.

(** ** Relationships *)

Inductive FriendOp : Type :=
| FEnsure (fid : FriendId)
| FOnline (fid : FriendId) (now : N)
| FOffline (fid : FriendId) (now : N)
| FLabel (fid : FriendId) (l : Text)
| FName (fid : FriendId) (n : Text)
| FImage (fid : FriendId) (t : Text)
| FAddrs (fid : FriendId) (addrs : list EndpointAddr) (now : N)
| FRoom (fid : FriendId) (t : TopicId) (ticket : Ticket)
| FConversation (fid : FriendId) (t : TopicId) (st : DirectConversationState)
| FMailbox (fid : FriendId) (key : MailboxPublicKey)
| FRemoveRoom (t : TopicId)
| FRemove (fid : FriendId)
| FRelationship (fid : FriendId) (rel : FriendRelationship)
| FUpsert (fid : FriendId) (fr : FRecord).

Definition apply_friend_op (o : FriendOp) fs : FStore :=
  match o with
  | FEnsure fid => ensure_friend fid fs
  | FOnline fid now => mark_online fid now fs
  | FOffline fid now => mark_offline fid now fs
  | FLabel fid l => set_label fid l fs
  | FName fid n => set_last_announced_name fid n fs
  | FImage fid t => set_last_announced_profile_image_ticket fid t fs
  | FAddrs fid addrs now => update_friend fid (record_addrs addrs now) fs
  | FRoom fid t ticket => update_friend fid (record_room t ticket) fs
  | FConversation fid t st => update_friend fid (set_direct_conversation t st) fs
  | FMailbox fid key => update_friend fid (set_mailbox_public_key key) fs
  | FRemoveRoom t => (remove_room_all t fs).2
  | FRemove fid => (remove fid fs).2
  | FRelationship fid rel => set_relationship fid rel fs
  | FUpsert fid fr => upsert fid fr fs
  end.

(** Whether direct messages with a peer are allowed. *)
Definition may_message fid fs : bool :=
  match get fid fs with
  | Some fr => can_message (relationship fr)
  | None => false
  end.

Lemma may_message_update fid fid' f fs :
  (∀ fr, relationship (f fr) = relationship fr) →
  may_message fid (update_friend fid' f fs) = may_message fid fs.
Proof.
  intros Hf. unfold may_message, get, update_friend. simpl.
  destruct (decide (fid' = fid)) as [->|Hne]; [|by rewrite lookup_insert_ne].
  rewrite lookup_insert_eq, Hf. by destruct (friends fs !! fid).
Qed.

(** Direct messages with a peer become possible only by setting the relationship to
    friends or by storing a record that says so: not by being seen, named, reachable, by sharing rooms or by a conversation. *)
Theorem messaging_needs_friendship o fs fid :
  may_message fid (apply_friend_op o fs) = true →
  may_message fid fs = true ∨ o = FRelationship fid Friends ∨
  ∃ fr, o = FUpsert fid fr ∧ relationship fr = Friends.
Proof.
  destruct o as [fid'|fid'|fid'|fid'|fid'|fid'|fid' addrs now|fid'|fid'|fid'|t|fid'|fid' rel|fid' fr];
    simpl; try (unfold mark_online, mark_offline, set_label, set_last_announced_name,
      set_last_announced_profile_image_ticket, ensure_friend;
      rewrite may_message_update by done; by left).
  - rewrite may_message_update; [by left|]. intros fr. unfold record_addrs. by case_decide.
  - unfold may_message, get. simpl. rewrite lookup_fmap.
    destruct (friends fs !! fid) as [fr|]; simpl; [|done]. unfold remove_room.
    case_decide; by left.
  - unfold may_message, get. simpl. destruct (decide (fid' = fid)) as [->|Hne];
      [by rewrite lookup_delete_eq|]. rewrite lookup_delete_ne by done. by left.
  - unfold may_message, get. simpl. destruct (decide (fid' = fid)) as [->|Hne];
      [|rewrite lookup_insert_ne by done; by left].
    rewrite lookup_insert_eq. simpl. destruct rel; try done. by right; left.
  - unfold may_message, get. simpl. destruct (decide (fid' = fid)) as [->|Hne];
      [|rewrite lookup_insert_ne by done; by left].
    rewrite lookup_insert_eq. intros Hr. right. right. exists fr. split; [done|].
    by destruct (relationship fr).
Qed.

(** ** Loading *)

Section loading.
Context `{!Json FStore} (parse : Text → bool).

Lemma migrate_current fr :
  relationship (migrate fr) ≠ OutgoingPending ∧ relationship (migrate fr) ≠ IncomingPending.
Proof. unfold migrate. by destruct (relationship fr) eqn:Hr; rewrite ?Hr. Qed.

(** A store read from the file has no deprecated relationship, only valid ids, the current
    version and the given directory. *)
Theorem load_migrates dir d fs :
  load parse dir d = Ok fs →
  schema_version fs = SCHEMA_VERSION ∧ data_dir fs = dir ∧
  ∀ fid fr, friends fs !! fid = Some fr →
    (d !! friends_file_path dir ≠ None → parse fid = true) ∧
    relationship fr ≠ OutgoingPending ∧ relationship fr ≠ IncomingPending.
Proof.
  unfold load. destruct (d !! friends_file_path dir) as [f|].
  - intros Hl. res_inv. destruct (filter _ _) as [|] eqn:Hf; [|done]. res_inv.
    split_and!; [done..|]. intros fid fr Hfr. cbn [friends] in Hfr. split; [intros _|].
    + destruct (parse fid) eqn:Hp; [done|].
      assert (fid ∈ @nil FriendId) as []%not_elem_of_nil. rewrite <- Hf.
      apply list_elem_of_filter. split; [done|]. apply elem_of_btree_map_keys. eauto.
    + rewrite lookup_fmap in Hfr. apply fmap_Some in Hfr as (fr' & _ & ->). apply migrate_current.
  - intros [= <-]. split_and!; [done..|]. intros fid fr Hfr. cbn in Hfr. by apply lookup_empty_Some in Hfr.
Qed.

(** The store in SQLite comes back with every record as it was saved: nothing is migrated. *)
Theorem sqlite_roundtrip fs dir b :
  (∀ fs', friends (normal fs') = friends fs') → save_to_sqlite fs = Some b →
  friends (load_from_sqlite dir (Some (Some b))) = friends fs ∧
  data_dir (load_from_sqlite dir (Some (Some b))) = dir.
Proof.
  intros Hn Hs%json_roundtrip. unfold load_from_sqlite. rewrite Hs. simpl. by rewrite Hn.
Qed.

End loading.
End facts.
End friends_facts.
