(* ===== verification/Mailbox.v ===== *)
(** * Sealed envelopes and the mailbox: [src/mailbox.rs]

    [Module mailbox] translates the envelopes (sealing, opening, validation, both wire
    formats), the signed acknowledgements and the store of undelivered envelopes.  The
    cryptography is behind interfaces: [Ed25519], [Hasher] and, here, [Sealing] (X25519 and
    AES-GCM, with what makes a sealed payload readable for its recipient; nothing is assumed
    about secrecy).  The tuples that are signed have an encoding that cannot fail
    ([Encodable]), as the code says where it unwraps it.  Random values and the readings of
    the clock, in milliseconds, are arguments. *)

From Stdlib Require Import Strings.Byte NArith.
From stdpp Require Import prelude gmap sorting strings.
From S2P Require Import Prelude Text Signing AtomicWrite.

(** Postcard at a type whose encoding cannot fail. *)
Class Encodable (A : Type) : Type := {
  encoded : A → Bytes;
  decoded : Bytes → option A;
  decoded_encoded a : decoded (encoded a) = Some a
}.

#[export] Program Instance encodable_postcard {A} `{!Encodable A} : Postcard A :=
  {| to_stdvec a := Some (encoded a); from_bytes := decoded |}.
Next Obligation. intros A ? a b [= <-]. apply decoded_encoded. Qed.

#[export] Instance encoded_inj {A} `{!Encodable A} : Inj (=) (=) (encoded (A := A)).
Proof. intros a b Heq%(f_equal decoded). rewrite !decoded_encoded in Heq. by simplify_eq. Qed.

(** [x25519_dalek] and [aes_gcm]. *)
Class Sealing `{!Ed25519} : Type := {
  StaticSecret : Type;
  encryption_public : StaticSecret → Bytes;
  diffie_hellman : StaticSecret → Bytes → Bytes;
  (** [StaticSecret::from(secret.to_bytes())] *)
  static_from : SecretKey → StaticSecret;
  (** key, nonce, associated data *)
  aead_encrypt : Bytes → Bytes → Bytes → Bytes → option Bytes;
  aead_decrypt : Bytes → Bytes → Bytes → Bytes → option Bytes;
  diffie_hellman_comm a b :
    diffie_hellman a (encryption_public b) = diffie_hellman b (encryption_public a);
  aead_decrypt_encrypt key nonce aad msg c :
    aead_encrypt key nonce aad msg = Some c → aead_decrypt key nonce aad c = Some msg
}.

Module mailbox.

Definition SCHEMA_VERSION : N := 1.
Definition NONCE_LEN : nat := 12.
Definition MAILBOX_DOMAIN : string := "boru/mailbox".
Definition ENVELOPE_VERSION_V1 : N := 1.
Definition ENVELOPE_VERSION_V2 : N := 2.
Definition MAX_FUTURE_SKEW_MS : N := 60000.
Definition DEFAULT_MAILBOX_TTL : N := 7 * 24 * 60 * 60 * 1000.
Definition MAX_SYNC_ENVELOPES : nat := 64.
Definition MAX_SYNC_RESPONSE_BYTES : N := 512 * 1024.
Definition MAX_SYNC_LOOKBACK : N := DEFAULT_MAILBOX_TTL.
Definition MAILBOX_FILE_NAME : Text := txt "mailbox.json".
Definition ACKNOWLEDGEMENT_VERSION : N := 1.
Definition MAILBOX_ACK_PROTOCOL : string := "boru/mailbox-ack".
Definition ACCEPTED : Text := txt "accepted".

Record MailboxPublicKey : Type := mkPublicKey {
  identity : PublicKey;
  encryption : Bytes
}.

#[export] Instance mailbox_public_key_eq_dec : EqDecision MailboxPublicKey.
Proof. solve_decision. Defined.

Record MailboxEnvelopeV1 : Type := mkV1 {
  v1_from : PublicKey;
  v1_recipient : MailboxPublicKey;
  v1_ephemeral : Bytes;
  v1_nonce : Bytes;
  v1_ciphertext : Bytes;
  v1_created_at : N;
  v1_signature : Bytes
}.

Record MailboxEnvelopeV2 : Type := mkV2 {
  v2_version : N;
  v2_from : PublicKey;
  v2_recipient : MailboxPublicKey;
  v2_ephemeral : Bytes;
  v2_nonce : Bytes;
  v2_ciphertext : Bytes;
  v2_created_at : N;
  v2_signature : Bytes
}.

Inductive MailboxEnvelope : Type :=
| V1 (e : MailboxEnvelopeV1)
| V2 (e : MailboxEnvelopeV2).

#[export] Instance envelope_v1_eq_dec : EqDecision MailboxEnvelopeV1.
Proof. solve_decision. Defined.

#[export] Instance envelope_v2_eq_dec : EqDecision MailboxEnvelopeV2.
Proof. solve_decision. Defined.

#[export] Instance envelope_eq_dec : EqDecision MailboxEnvelope.
Proof. solve_decision. Defined.

Definition version (m : MailboxEnvelope) : N :=
  match m with V1 _ => ENVELOPE_VERSION_V1 | V2 e => v2_version e end.

Definition from (m : MailboxEnvelope) : PublicKey :=
  match m with V1 e => v1_from e | V2 e => v2_from e end.

Definition recipient (m : MailboxEnvelope) : MailboxPublicKey :=
  match m with V1 e => v1_recipient e | V2 e => v2_recipient e end.

Definition ephemeral (m : MailboxEnvelope) : Bytes :=
  match m with V1 e => v1_ephemeral e | V2 e => v2_ephemeral e end.

Definition nonce (m : MailboxEnvelope) : Bytes :=
  match m with V1 e => v1_nonce e | V2 e => v2_nonce e end.

Definition ciphertext (m : MailboxEnvelope) : Bytes :=
  match m with V1 e => v1_ciphertext e | V2 e => v2_ciphertext e end.

Definition created_at (m : MailboxEnvelope) : N :=
  match m with V1 e => v1_created_at e | V2 e => v2_created_at e end.

Definition signature (m : MailboxEnvelope) : Bytes :=
  match m with V1 e => v1_signature e | V2 e => v2_signature e end.

Record MessageAcknowledgement : Type := mkAck {
  ack_version : N;
  ack_message_id : Text;
  original_sender : PublicKey;
  ack_recipient : PublicKey;
  acknowledged_at_ms : N;
  ack_status : option Text;
  ack_signature : Bytes
}.

Inductive MailboxError : Type :=
| BadSignature
| UnsupportedVersion (v : N)
| SenderNotAuthorized
| OtherRecipient
| ExpiredOrFuture
| AuthenticationFailed
| NonceFailed
| EncryptFailed
| DecodeLegacy
| AckVersion (v : N)
| AckSigner
| AckNotAccepted
| AckSignature
| AckOriginalSender
| RecipientMismatch
| DuplicateMessage
| Conflicting (i : Text)
| NotConfigured
| ParseFailed
| UnsupportedSchema (v : N).

Inductive IncomingAcceptance : Type := Inserted | Duplicate.

#[export] Instance incoming_acceptance_eq_dec : EqDecision IncomingAcceptance.
Proof. solve_decision. Defined.

(** The tuples that are signed or hashed. *)
Abbreviation SignedV1 := (PublicKey * MailboxPublicKey * Bytes * Bytes * Bytes)%type.
Abbreviation ContextV2 :=
  (string * N * PublicKey * MailboxPublicKey * Bytes * Bytes * N)%type.
Abbreviation SignedV2 :=
  (string * N * PublicKey * MailboxPublicKey * Bytes * Bytes * N * Bytes)%type.
Abbreviation AckFields := (Text * PublicKey * PublicKey * N * option Text)%type.
Abbreviation LegacyAck := (N * Text * PublicKey * PublicKey * N * option Text)%type.

(** [expect("postcard encoding cannot fail")] *)
Definition expect (o : option Bytes) : Bytes := default [] o.

Section mailbox.
Context `{!Ed25519, !Sealing, !Hasher}.
Context `{!Encodable SignedV1, !Encodable ContextV2, !Encodable SignedV2}.
Context `{!Encodable MailboxEnvelope, !Postcard MailboxEnvelopeV1}.
Context `{!Encodable (string * N * AckFields), !Encodable LegacyAck}.

(** ** Envelopes *)

Record MailboxIdentity : Type := mkIdentity {
  id_identity : PublicKey;
  id_secret : StaticSecret
}.

Implicit Types (id : MailboxIdentity) (m : MailboxEnvelope) (sender : SecretKey) (now : N).

Definition from_secret (secret : SecretKey) : MailboxIdentity :=
  mkIdentity (public secret) (static_from secret).

Definition public_key id : MailboxPublicKey :=
  mkPublicKey (id_identity id) (encryption_public (id_secret id)).

Definition signing_bytes_v1 (e : MailboxEnvelopeV1) : Bytes :=
  encoded (v1_from e, v1_recipient e, v1_ephemeral e, v1_nonce e, v1_ciphertext e).

Definition context_bytes (e : MailboxEnvelopeV2) : Bytes :=
  encoded (MAILBOX_DOMAIN, v2_version e, v2_from e, v2_recipient e, v2_ephemeral e,
           v2_nonce e, v2_created_at e).

Definition signing_bytes_v2 (e : MailboxEnvelopeV2) : Bytes :=
  encoded (MAILBOX_DOMAIN, v2_version e, v2_from e, v2_recipient e, v2_ephemeral e,
           v2_nonce e, v2_created_at e, v2_ciphertext e).

Definition message_id m : Text :=
  match m with
  | V1 e => to_hex (blake3 (signing_bytes_v1 e))
  | V2 e => to_hex (blake3 (signing_bytes_v2 e))
  end.

Definition derive_key_v1 (shared : Bytes) : Bytes :=
  blake3 (String.list_byte_of_string "iroh-gossip-chat/mailbox/v1" ++ shared).

Definition derive_key_v2 (shared : Bytes) : Bytes :=
  blake3 (String.list_byte_of_string "boru/mailbox/v2" ++ shared).

Definition verify_signature m : res MailboxError unit :=
  match m with
  | V1 e => ensure (key_verify (v1_from e) (signing_bytes_v1 e) (v1_signature e)) BadSignature
  | V2 e =>
      ensure (bool_decide (v2_version e = ENVELOPE_VERSION_V2)) (UnsupportedVersion (v2_version e));;
      ensure (key_verify (v2_from e) (signing_bytes_v2 e) (v2_signature e)) BadSignature
  end.

(** The legacy format has no associated data. *)
Definition decrypt m id : res MailboxError Bytes :=
  match m with
  | V1 e =>
      let shared := diffie_hellman (id_secret id) (v1_ephemeral e) in
      ok_or AuthenticationFailed
        (aead_decrypt (derive_key_v1 shared) (v1_nonce e) [] (v1_ciphertext e))
  | V2 e =>
      let shared := diffie_hellman (id_secret id) (v2_ephemeral e) in
      ok_or AuthenticationFailed
        (aead_decrypt (derive_key_v2 shared) (v2_nonce e) (context_bytes e) (v2_ciphertext e))
  end.

Definition open_with m id : res MailboxError Bytes :=
  verify_signature m;;
  ensure (bool_decide (recipient m = public_key id)) OtherRecipient;;
  decrypt m id.

Definition open m (secret : SecretKey) : res MailboxError Bytes := open_with m (from_secret secret).

(** [ttl.as_millis() as u64] *)
Definition ttl_ms (ttl : N) : N := (ttl mod (u64_max + 1))%N.

Definition validate_for id (allowed_senders : list PublicKey) (ttl now : N) m
    : res MailboxError Bytes :=
  verify_signature m;;
  ensure (bool_decide (from m ∈ allowed_senders)) SenderNotAuthorized;;
  ensure (bool_decide (recipient m = public_key id)) OtherRecipient;;
  ensure (bool_decide (¬ ((N.min u64_max (now + MAX_FUTURE_SKEW_MS) < created_at m)%N
                          ∨ (ttl_ms ttl < now - created_at m)%N))) ExpiredOrFuture;;
  decrypt m id.

Definition decode_legacy (bytes : Bytes) : res MailboxError MailboxEnvelope :=
  e ← ok_or DecodeLegacy (from_bytes bytes); Ok (V1 e).

Definition decode (bytes : Bytes) : res MailboxError MailboxEnvelope :=
  match decoded (A := MailboxEnvelope) bytes with
  | Some m => if is_ok (verify_signature m) then Ok m else decode_legacy bytes
  | None => decode_legacy bytes
  end.

(** [eph] and [fresh] are the random ephemeral secret and nonce. *)
Definition seal_at sender (to : MailboxPublicKey) (payload : Bytes) (at_ : N)
    (eph : StaticSecret) (fresh : option Bytes) : res MailboxError MailboxEnvelope :=
  let shared := diffie_hellman eph (encryption to) in
  nonce ← ok_or NonceFailed fresh;
  let envelope c sig :=
    mkV2 ENVELOPE_VERSION_V2 (public sender) to (encryption_public eph) nonce c at_ sig in
  let aad := context_bytes (envelope [] (replicate 64 x00)) in
  c ← ok_or EncryptFailed (aead_encrypt (derive_key_v2 shared) nonce aad payload);
  Ok (V2 (envelope c (sign sender (signing_bytes_v2 (envelope c (replicate 64 x00)))))).

Definition seal_for sender (to : MailboxPublicKey) (payload : Bytes) now
    (eph : StaticSecret) (fresh : option Bytes) : res MailboxError MailboxEnvelope :=
  seal_at sender to payload now eph fresh.

(** ** Acknowledgements *)

Implicit Types (ack : MessageAcknowledgement).

Definition is_success ack : bool := bool_decide (ack_status ack = Some ACCEPTED).

Definition ack_signing_bytes ack : Bytes :=
  expect (protocol_signing.canonical_signed_bytes MAILBOX_ACK_PROTOCOL
            (ack_version ack mod (u16_max + 1))%N
            (ack_message_id ack, original_sender ack, ack_recipient ack,
             acknowledged_at_ms ack, ack_status ack)).

Definition ack_legacy_signing_bytes ack : Bytes :=
  encoded (ack_version ack, ack_message_id ack, original_sender ack, ack_recipient ack,
           acknowledged_at_ms ack, ack_status ack).

Definition ack_sign_at (signer : SecretKey) (i : Text) (orig : PublicKey) (at_ : N)
    (status : option Text) : MessageAcknowledgement :=
  let ack sig := mkAck ACKNOWLEDGEMENT_VERSION i orig (public signer) at_ status sig in
  ack (sign signer (ack_signing_bytes (ack (replicate 64 x00)))).

Definition ack_sign (signer : SecretKey) (i : Text) (orig : PublicKey) now
    : MessageAcknowledgement := ack_sign_at signer i orig now (Some ACCEPTED).

Definition ack_verify ack (expected : PublicKey) : res MailboxError unit :=
  ensure (bool_decide (ack_version ack = ACKNOWLEDGEMENT_VERSION)) (AckVersion (ack_version ack));;
  ensure (bool_decide (ack_recipient ack = expected)) AckSigner;;
  ensure (bool_decide (ack_status ack = Some ACCEPTED)) AckNotAccepted;;
  ensure (protocol_signing.verify_canonical_or_legacy (ack_recipient ack) (ack_signature ack)
            (ack_signing_bytes ack) (ack_legacy_signing_bytes ack)) AckSignature.

(** ** The store *)

Record MailboxStore : Type := mkStore {
  schema_version : N;
  store_recipient : option PublicKey;
  entries : gmap Text MailboxEnvelope;
  dedup : gmap Text (N * Bytes);
  data_dir : Text;
  ttl : N
}.

Implicit Types (s : MailboxStore).

Definition empty_at (dir : Text) : MailboxStore :=
  mkStore SCHEMA_VERSION None ∅ ∅ dir DEFAULT_MAILBOX_TTL.

Definition for_recipient (dir : Text) (who : PublicKey) : MailboxStore :=
  mkStore SCHEMA_VERSION (Some who) ∅ ∅ dir DEFAULT_MAILBOX_TTL.

Definition with_ttl (dir : Text) (ttl : N) : MailboxStore :=
  mkStore SCHEMA_VERSION None ∅ ∅ dir ttl.

Definition set_entries (es : gmap Text MailboxEnvelope) s : MailboxStore :=
  mkStore (schema_version s) (store_recipient s) es (dedup s) (data_dir s) (ttl s).

Definition set_dedup (dd : gmap Text (N * Bytes)) s : MailboxStore :=
  mkStore (schema_version s) (store_recipient s) (entries s) dd (data_dir s) (ttl s).

Definition set_recipient (r : option PublicKey) s : MailboxStore :=
  mkStore (schema_version s) r (entries s) (dedup s) (data_dir s) (ttl s).

Definition expire now s : MailboxStore :=
  let cutoff := (now - ttl_ms (ttl s))%N in
  set_dedup (filter (λ kv, (cutoff < kv.2.1)%N) (dedup s))
    (set_entries (filter (λ kv, (cutoff < created_at kv.2)%N) (entries s)) s).

Definition envelope_fingerprint m : Bytes := blake3 (encoded m).

Definition insert_envelope m s : res MailboxError Text * MailboxStore :=
  match entries s !! message_id m with
  | Some _ => (Err DuplicateMessage, s)
  | None => (Ok (message_id m), set_entries (<[message_id m := m]> (entries s)) s)
  end.

(** The recipient of an unbound mailbox is set before the check for duplicates. *)
Definition enqueue m (allowed_senders : list PublicKey) s
    : res MailboxError Text * MailboxStore :=
  match verify_signature m with
  | Ok _ =>
      if decide (from m ∈ allowed_senders) then
        match store_recipient s with
        | Some r =>
            if decide (identity (recipient m) = r) then insert_envelope m s
            else (Err RecipientMismatch, s)
        | None => insert_envelope m (set_recipient (Some (identity (recipient m))) s)
        end
      else (Err SenderNotAuthorized, s)
  | Err e => (Err e, s)
  | Panicked => (Panicked, s)
  end.

Definition enqueue_outgoing m s : res MailboxError Text * MailboxStore := insert_envelope m s.

(** [HashMap::values]: some order. *)
Class HashValues : Type := {
  hash_values : gmap Text MailboxEnvelope → list MailboxEnvelope;
  hash_values_perm es : hash_values es ≡ₚ (map_to_list es).*2
}.

(** [sort_by_key(|e| (e.created_at(), e.message_id()))] *)
Definition replay_le m m' : Prop :=
  (created_at m < created_at m')%N ∨
  (created_at m = created_at m' ∧ text_le (message_id m) (message_id m')).

#[export] Instance replay_le_dec : RelDecision replay_le.
Proof. intros m m'. unfold replay_le. apply _. Defined.

Definition acknowledge ack s : res MailboxError bool * MailboxStore :=
  match store_recipient s with
  | None => (Err NotConfigured, s)
  | Some r =>
      match ack_verify ack r with
      | Ok _ => (Ok (bool_decide (is_Some (entries s !! ack_message_id ack))),
                 set_entries (delete (ack_message_id ack) (entries s)) s)
      | Err e => (Err e, s)
      | Panicked => (Panicked, s)
      end
  end.

Definition acknowledge_outgoing ack s : res MailboxError bool * MailboxStore :=
  match entries s !! ack_message_id ack with
  | None => (Ok false, s)
  | Some m =>
      if is_success ack then
        match ack_verify ack (identity (recipient m)) with
        | Ok _ =>
            if decide (original_sender ack = from m) then
              (Ok true, set_entries (delete (ack_message_id ack) (entries s)) s)
            else (Err AckOriginalSender, s)
        | Err e => (Err e, s)
        | Panicked => (Panicked, s)
        end
      else (Err AckNotAccepted, s)
  end.

(** The fields the code compares. *)
Definition same_envelope m m' : Prop :=
  from m = from m' ∧ recipient m = recipient m' ∧ ephemeral m = ephemeral m' ∧
  nonce m = nonce m' ∧ ciphertext m = ciphertext m' ∧ created_at m = created_at m' ∧
  signature m = signature m'.

#[export] Instance same_envelope_dec m m' : Decision (same_envelope m m').
Proof. unfold same_envelope. apply _. Defined.

(** [now] is the reading of the clock for validation, [now'] the one for the replay
    evidence. *)
Definition accept_incoming_with_status id m (allowed_senders : list PublicKey) (now now' : N) s
    : res MailboxError (Text * Bytes * IncomingAcceptance) * MailboxStore :=
  match validate_for id allowed_senders (ttl s) now m with
  | Err e => (Err e, s)
  | Panicked => (Panicked, s)
  | Ok payload =>
      let i := message_id m in
      match entries s !! i with
      | Some existing =>
          if decide (same_envelope existing m) then (Ok (i, payload, Duplicate), s)
          else (Err (Conflicting i), s)
      | None =>
          match dedup s !! i with
          | Some (_, stored) =>
              if decide (stored = envelope_fingerprint m) then (Ok (i, payload, Duplicate), s)
              else (Err (Conflicting i), s)
          | None =>
              match enqueue m allowed_senders s with
              | (Ok _, s') =>
                  (Ok (i, payload, Inserted),
                   set_dedup (<[i := (now', envelope_fingerprint m)]> (dedup s')) s')
              | (Err e, s') => (Err e, s')
              | (Panicked, s') => (Panicked, s')
              end
          end
      end
  end.

Definition accept_incoming id m (allowed_senders : list PublicKey) (now now' : N) s
    : res MailboxError (Text * Bytes) * MailboxStore :=
  match accept_incoming_with_status id m allowed_senders now now' s with
  | (Ok (i, payload, _), s') => (Ok (i, payload), s')
  | (Err e, s') => (Err e, s')
  | (Panicked, s') => (Panicked, s')
  end.

Section serving.
Context `{!HashValues}.

Definition pending now s : list MailboxEnvelope * MailboxStore :=
  let s := expire now s in (merge_sort replay_le (hash_values (entries s)), s).

(** The page: as long as count and size allow. *)
Fixpoint page_loop (es : list MailboxEnvelope) (count : nat) (bytes : N) : list MailboxEnvelope :=
  match es with
  | [] => []
  | m :: es' =>
      if decide (MAX_SYNC_ENVELOPES ≤ count) then []
      else
        let size := N.of_nat (length (encoded m)) in
        if decide (MAX_SYNC_RESPONSE_BYTES < N.min usize_max (bytes + size))%N then []
        else m :: page_loop es' (S count) (bytes + size)
  end.

Definition pending_for_recipient_since (who : PublicKey) (since : N) (now now' : N) s
    : list MailboxEnvelope * MailboxStore :=
  let s := expire now s in
  let since := N.max since (now' - MAX_SYNC_LOOKBACK) in
  let es := filter (λ m, identity (recipient m) = who ∧ (since ≤ created_at m)%N)
              (hash_values (entries s)) in
  (page_loop (merge_sort replay_le es) 0 0, s).

Definition pending_for_recipient (who : PublicKey) (now now' : N) s
    : list MailboxEnvelope * MailboxStore := pending_for_recipient_since who 0 now now' s.

End serving.

Definition len now s : nat * MailboxStore := let s := expire now s in (size (entries s), s).

Definition is_empty s : bool := bool_decide (entries s = ∅).

(** ** Persistence *)

Import atomic_write.

Section persistence.
Context `{!Json MailboxStore}.

Definition load (dir : Text) (d : Disk) : res MailboxError (option MailboxStore) :=
  match d !! (dir, MAILBOX_FILE_NAME) with
  | None => Ok None
  | Some f =>
      s ← ok_or ParseFailed (from_slice (content f));
      if decide (schema_version s = SCHEMA_VERSION) then
        Ok (Some (mkStore (schema_version s) (store_recipient s) (entries s) (dedup s) dir
                    DEFAULT_MAILBOX_TTL))
      else Err (UnsupportedSchema (schema_version s))
  end.

Definition save (io : IoStep → bool) (left : Bytes) (pid seq now : N) s (d : Disk)
    : res WriteError unit * Disk :=
  atomic_write_json io left pid seq (data_dir s, MAILBOX_FILE_NAME) (expire now s) d.

End persistence.
End mailbox.
End mailbox.

#[export] Existing Instances mailbox.mailbox_public_key_eq_dec mailbox.envelope_eq_dec mailbox.replay_le_dec
  mailbox.same_envelope_dec.
