(* ===== verification/MailboxFacts.v ===== *)
(** * Correctness of envelopes and the mailbox

    Sealed payloads reach their recipient and nobody else's identity opens them; an
    envelope is inserted once as long as its replay evidence is kept; acknowledgements
    remove exactly what they acknowledge; a sync page is the longest one that fits. *)

From Stdlib Require Import Strings.Byte NArith.
From stdpp Require Import prelude gmap sorting strings.
From S2P Require Import Prelude Text Signing Concrete AtomicWrite Mailbox.
Import mailbox.

Section facts.
Context `{!Ed25519, !Sealing, !Hasher}.
Context `{!Encodable SignedV1, !Encodable ContextV2, !Encodable SignedV2}.
Context `{!Encodable MailboxEnvelope, !Postcard MailboxEnvelopeV1}.
Context `{!Encodable (string * N * AckFields), !Encodable LegacyAck}.
Implicit Types (id : MailboxIdentity) (m : MailboxEnvelope) (s : MailboxStore).
Implicit Types (ack : MessageAcknowledgement) (now : N).

(** ** Envelopes *)

Lemma seal_at_Ok sender to payload t eph fresh m :
  seal_at sender to payload t eph fresh = Ok m →
  ∃ nonce c, fresh = Some nonce ∧
    let e sig := mkV2 ENVELOPE_VERSION_V2 (public sender) to (encryption_public eph) nonce c t sig in
    aead_encrypt (derive_key_v2 (diffie_hellman eph (encryption to))) nonce
      (context_bytes (e [])) payload = Some c ∧
    m = V2 (e (sign sender (signing_bytes_v2 (e [])))).
Proof.
  unfold seal_at, mbind, res_bind. intros Hs. res_inv. destruct fresh as [n|]; [|done].
  simpl in Hs. unfold context_bytes in Hs. simpl in Hs.
  destruct (aead_encrypt _ _ _ _) as [c|] eqn:Hc; simpl in Hs; [|done].
  exists n, c. split; [done|]. split; [exact Hc|]. by simplify_eq.
Qed.

Lemma sealed_verifies sender to payload t eph fresh m :
  seal_at sender to payload t eph fresh = Ok m →
  verify_signature m = Ok tt ∧ from m = public sender ∧ recipient m = to ∧ created_at m = t.
Proof.
  intros (n & c & _ & _ & ->)%seal_at_Ok. split; [|done].
  unfold verify_signature, mbind, res_bind. simpl.
  match goal with
  | |- ensure (key_verify _ ?d (sign _ ?d')) _ = _ => change d with d'
  end.
  by rewrite key_verify_sign.
Qed.

Lemma sealed_decrypts sender id payload t eph fresh m :
  seal_at sender (public_key id) payload t eph fresh = Ok m → decrypt m id = Ok payload.
Proof.
  intros (n & c & _ & Hc & ->)%seal_at_Ok. unfold decrypt. simpl in *.
  rewrite diffie_hellman_comm in Hc.
  apply aead_decrypt_encrypt in Hc. unfold context_bytes in *. simpl in *. by rewrite Hc.
Qed.

Lemma sealed_opens sender id payload t eph fresh m :
  seal_at sender (public_key id) payload t eph fresh = Ok m → open_with m id = Ok payload.
Proof.
  intros Hs. pose proof (sealed_decrypts _ _ _ _ _ _ _ Hs) as Hd.
  apply sealed_verifies in Hs as (Hv & _ & Hr & _). unfold open_with. rewrite Hv, Hr.
  unfold mbind, res_bind. simpl. by rewrite bool_decide_true.
Qed.

Lemma sealed_not_for sender to payload t eph fresh m id :
  seal_at sender to payload t eph fresh = Ok m → to ≠ public_key id →
  open_with m id = Err OtherRecipient.
Proof.
  intros (Hv & _ & Hr & _)%sealed_verifies Hne. unfold open_with. rewrite Hv, Hr.
  unfold mbind, res_bind. simpl. by rewrite bool_decide_false.
Qed.

(** A payload sealed for a recipient is opened by that recipient, on its own and after
    the way over the wire, and accepted while it is neither expired nor from the future and
    its sender is allowed; any other identity is refused. *)
Theorem sealed_reaches_recipient sender id payload t eph fresh m :
  seal_at sender (public_key id) payload t eph fresh = Ok m →
  decode (encoded m) = Ok m ∧ open_with m id = Ok payload ∧
  (∀ allowed ttl now, public sender ∈ allowed → (t ≤ N.min u64_max (now + MAX_FUTURE_SKEW_MS))%N →
     (now - t ≤ ttl_ms ttl)%N → validate_for id allowed ttl now m = Ok payload) ∧
  (∀ id', public_key id' ≠ public_key id → open_with m id' = Err OtherRecipient).
Proof.
  intros Hs. pose proof (sealed_decrypts _ _ _ _ _ _ _ Hs) as Hd.
  pose proof (sealed_verifies _ _ _ _ _ _ _ Hs) as (Hv & Hf & Hr & Ht). split_and!.
  - unfold decode. by rewrite decoded_encoded, Hv.
  - by eapply sealed_opens.
  - intros allowed ttl now Ha Hlo Hhi. unfold validate_for. rewrite Hv, Hf, Hr, Ht.
    unfold mbind, res_bind. simpl. rewrite !bool_decide_true; [done| |done|done]. lia.
  - intros id' Hne. by eapply sealed_not_for.
Qed.

(** The signature of the current format covers every field but itself. *)
Theorem v2_fields_bound e e' :
  signing_bytes_v2 e = signing_bytes_v2 e' →
  e' = mkV2 (v2_version e) (v2_from e) (v2_recipient e) (v2_ephemeral e) (v2_nonce e)
         (v2_ciphertext e) (v2_created_at e) (v2_signature e').
Proof. intros Heq%(inj encoded). destruct e, e'. simpl in *. by simplify_eq. Qed.

(** In the legacy format the date is not covered: changing it keeps signature, id and
    content, so that an expired envelope becomes acceptable again. *)
Theorem v1_date_unbound id allowed ttl now payload e :
  let redated := V1 (mkV1 (v1_from e) (v1_recipient e) (v1_ephemeral e) (v1_nonce e)
                       (v1_ciphertext e) now (v1_signature e)) in
  open_with (V1 e) id = Ok payload → v1_from e ∈ allowed → (now ≤ u64_max)%N →
  message_id redated = message_id (V1 e) ∧ validate_for id allowed ttl now redated = Ok payload.
Proof.
  intros r Ho Ha Hn. split; [done|]. unfold open_with, mbind, res_bind in Ho. subst r.
  unfold validate_for, verify_signature in *. unfold signing_bytes_v1 in *. simpl in *.
  destruct (key_verify _ _ _) eqn:Hk; [|done]. simpl in *.
  destruct (decide (v1_recipient e = public_key id)) as [Hr|Hr];
    [|by rewrite bool_decide_false in Ho]. rewrite bool_decide_true in Ho by done.
  unfold mbind, res_bind. simpl. rewrite !bool_decide_true; [exact Ho| |done|done].
  unfold MAX_FUTURE_SKEW_MS. lia.
Qed.

(** ** The store *)

Inductive Op : Type :=
| OAccept id m (allowed : list PublicKey) (now now' : N)
| OEnqueue m (allowed : list PublicKey)
| OOutgoing m
| OAcknowledge ack
| OAcknowledgeOutgoing ack
| OExpire now.

(** Serving envelopes and counting them expires old ones. *)
Definition apply_op (o : Op) s : MailboxStore :=
  match o with
  | OAccept id m allowed now now' => (accept_incoming_with_status id m allowed now now' s).2
  | OEnqueue m allowed => (enqueue m allowed s).2
  | OOutgoing m => (enqueue_outgoing m s).2
  | OAcknowledge ack => (acknowledge ack s).2
  | OAcknowledgeOutgoing ack => (acknowledge_outgoing ack s).2
  | OExpire now => expire now s
  end.

Definition apply_ops (ops : list Op) s : MailboxStore := foldl (λ s o, apply_op o s) s ops.

(** No operation expires anything with a clock beyond [now]. *)
Definition expires_by now (ops : list Op) : Prop :=
  ∀ t, OExpire t ∈ ops → (t ≤ now)%N.

Lemma insert_envelope_frame m s :
  dedup (insert_envelope m s).2 = dedup s ∧ ttl (insert_envelope m s).2 = ttl s.
Proof. unfold insert_envelope. by destruct (entries s !! _). Qed.

Lemma enqueue_frame m allowed s :
  dedup (enqueue m allowed s).2 = dedup s ∧ ttl (enqueue m allowed s).2 = ttl s.
Proof.
  unfold enqueue. destruct (verify_signature m); [|done..]. case_decide; [|done].
  destruct (store_recipient s); [case_decide; [|done]; apply insert_envelope_frame|].
  apply (insert_envelope_frame m (set_recipient _ s)).
Qed.

(** An envelope that is newly inserted was unknown, and its evidence is kept. *)
Lemma accept_Inserted id m allowed now now' s i p :
  (accept_incoming_with_status id m allowed now now' s).1 = Ok (i, p, Inserted) →
  validate_for id allowed (ttl s) now m = Ok p ∧ i = message_id m ∧
  entries s !! i = None ∧ dedup s !! i = None ∧
  dedup (accept_incoming_with_status id m allowed now now' s).2 =
    <[i := (now', envelope_fingerprint m)]> (dedup s) ∧
  ttl (accept_incoming_with_status id m allowed now now' s).2 = ttl s.
Proof.
  unfold accept_incoming_with_status. destruct (validate_for _ _ _ _ _) as [q|e|]; [|done..].
  destruct (entries s !! message_id m) as [m'|] eqn:He; [by case_decide|].
  destruct (dedup s !! message_id m) as [[t f]|] eqn:Hd; [by case_decide|].
  pose proof (enqueue_frame m allowed s) as [Hf Ht].
  destruct (enqueue m allowed s) as [[j|e|] s']; simpl in *; [|done..].
  intros ?. simplify_eq. by rewrite Hf, Ht.
Qed.

(** Accepting leaves the evidence of other messages alone and never replaces any. *)
Lemma accept_keeps_dedup id m allowed now now' s i x :
  dedup s !! i = Some x →
  dedup (accept_incoming_with_status id m allowed now now' s).2 !! i = Some x ∧
  ttl (accept_incoming_with_status id m allowed now now' s).2 = ttl s.
Proof.
  intros Hi. unfold accept_incoming_with_status.
  destruct (validate_for _ _ _ _ _) as [q|e|]; [|done..].
  destruct (entries s !! message_id m) as [m'|]; [by case_decide|].
  destruct (dedup s !! message_id m) as [[t f]|] eqn:Hd; [by case_decide|].
  pose proof (enqueue_frame m allowed s) as [Hf Ht].
  destruct (enqueue m allowed s) as [[j|e|] s']; simpl in *; rewrite ?Hf, ?Ht; [|done..].
  split; [|done]. rewrite lookup_insert_ne; [done|]. congruence.
Qed.

Lemma accept_ttl id m allowed now now' s :
  ttl (accept_incoming_with_status id m allowed now now' s).2 = ttl s.
Proof.
  unfold accept_incoming_with_status.
  destruct (validate_for _ _ _ _ _) as [q|e|]; [|done..].
  destruct (entries s !! message_id m) as [m'|]; [by case_decide|].
  destruct (dedup s !! message_id m) as [[t f]|]; [by case_decide|].
  pose proof (enqueue_frame m allowed s) as [_ Ht].
  by destruct (enqueue m allowed s) as [[j|e|] s'].
Qed.

Lemma acknowledge_frame ack s :
  dedup (acknowledge ack s).2 = dedup s ∧ ttl (acknowledge ack s).2 = ttl s.
Proof.
  unfold acknowledge. destruct (store_recipient s); [|done]. by destruct (ack_verify _ _).
Qed.

Lemma acknowledge_outgoing_frame ack s :
  dedup (acknowledge_outgoing ack s).2 = dedup s ∧ ttl (acknowledge_outgoing ack s).2 = ttl s.
Proof.
  unfold acknowledge_outgoing. destruct (entries s !! _); [|done]. destruct (is_success ack); [|done].
  destruct (ack_verify _ _); [|done..]. by case_decide.
Qed.

(** Evidence is kept by every operation, until its time to live has passed. *)
Lemma apply_op_keeps_dedup o s i t f :
  dedup s !! i = Some (t, f) →
  ttl (apply_op o s) = ttl s ∧
  (dedup (apply_op o s) !! i = Some (t, f) ∨
   ∃ now, o = OExpire now ∧ (t ≤ now - ttl_ms (ttl s))%N).
Proof.
  intros Hi. destruct o as [id m allowed now now'|m allowed|m|ack|ack|now]; simpl.
  - pose proof (accept_keeps_dedup id m allowed now now' s i _ Hi). naive_solver.
  - pose proof (enqueue_frame m allowed s) as [-> ->]. eauto.
  - unfold enqueue_outgoing. pose proof (insert_envelope_frame m s) as [-> ->]. eauto.
  - pose proof (acknowledge_frame ack s) as [-> ->]. eauto.
  - pose proof (acknowledge_outgoing_frame ack s) as [-> ->]. eauto.
  - split; [done|]. destruct (decide (now - ttl_ms (ttl s) < t)%N) as [Hlt|Hge].
    + left. apply map_lookup_filter_Some. done.
    + right. exists now. split; [done|]. lia.
Qed.

Lemma apply_op_ttl o s : ttl (apply_op o s) = ttl s.
Proof.
  destruct o as [id m allowed now now'|m allowed|m|ack|ack|now]; simpl.
  - apply accept_ttl.
  - apply enqueue_frame.
  - apply insert_envelope_frame.
  - apply acknowledge_frame.
  - apply acknowledge_outgoing_frame.
  - done.
Qed.

Lemma apply_ops_ttl ops s : ttl (apply_ops ops s) = ttl s.
Proof.
  unfold apply_ops. revert s. induction ops as [|o ops IH]; intros s; simpl; [done|].
  by rewrite IH, apply_op_ttl.
Qed.

Lemma apply_ops_keeps_dedup now ops s i t f :
  dedup s !! i = Some (t, f) → expires_by now ops → (now - ttl_ms (ttl s) < t)%N →
  dedup (apply_ops ops s) !! i = Some (t, f).
Proof.
  unfold apply_ops. revert s. induction ops as [|o ops IH]; intros s Hi He Ht; simpl; [done|].
  pose proof (apply_op_keeps_dedup o s i t f Hi) as [Htl [Hd|(x & -> & Hx)]].
  - apply IH; [done| |by rewrite Htl]. intros x Hx. apply He. set_solver.
  - specialize (He x (list_elem_of_here _ _)). lia.
Qed.

(** C15: An envelope dated before the moment its replay evidence was recorded is inserted at
    most once: whatever is accepted, enqueued, acknowledged and expired afterwards, as long
    as nothing was expired by a later clock than the current one, accepting it again never
    reports it as new. *)
Theorem inserted_at_most_once id m allowed t t' s i p ops id' allowed' now now' :
  (accept_incoming_with_status id m allowed t t' s).1 = Ok (i, p, Inserted) →
  (created_at m < t')%N →
  expires_by now ops →
  let s' := apply_ops ops (accept_incoming_with_status id m allowed t t' s).2 in
  ∀ q, (accept_incoming_with_status id' m allowed' now now' s').1 ≠ Ok (i, q, Inserted).
Proof.
  intros Hi Hc He s' q Hq. apply accept_Inserted in Hi as (_ & -> & _ & _ & Hd & Ht).
  apply accept_Inserted in Hq as (Hv & _ & _ & Hn & _).
  assert (now - ttl_ms (ttl s) < t')%N as Hlt.
  { unfold validate_for, mbind, res_bind in Hv.
    destruct (verify_signature m) as [u|e|]; [|done..]. destruct (bool_decide (from m ∈ _)); [|done].
    destruct (bool_decide (recipient m = _)); [|done]. simpl in Hv.
    destruct (decide (created_at m + ttl_ms (ttl s) < now)%N); [|lia].
    rewrite bool_decide_false in Hv; [done|]. intros Hx. apply Hx. right.
    subst s'. rewrite apply_ops_ttl, Ht. lia. }
  subst s'. rewrite (apply_ops_keeps_dedup now _ _ _ t' (envelope_fingerprint m)) in Hn; [done| |done|].
  - rewrite Hd. by simplify_map_eq.
  - by rewrite Ht.
Qed.

Lemma ack_sign_verifies sk i orig t :
  ack_verify (ack_sign sk i orig t) (public sk) = Ok tt.
Proof.
  unfold ack_verify, mbind, res_bind. simpl. rewrite !bool_decide_true by done. simpl.
  match goal with
  | |- context [protocol_signing.verify_canonical_or_legacy _ _ ?d _] =>
      change d with (ack_signing_bytes (mkAck ACKNOWLEDGEMENT_VERSION i orig (public sk) t
        (Some ACCEPTED) (replicate 64 x00)))
  end.
  by rewrite protocol_signing.verify_signed.
Qed.

Lemma insert_envelope_unknown m s :
  entries s !! message_id m = None →
  insert_envelope m s = (Ok (message_id m), set_entries (<[message_id m := m]> (entries s)) s).
Proof. intros Hn. unfold insert_envelope. by rewrite Hn. Qed.

(** What validation checks is what enqueuing checks, but for the binding of the store. *)
Lemma enqueue_validated id m allowed ttl' now s p :
  validate_for id allowed ttl' now m = Ok p → entries s !! message_id m = None →
  store_recipient s = Some (id_identity id) →
  enqueue m allowed s = (Ok (message_id m), set_entries (<[message_id m := m]> (entries s)) s).
Proof.
  unfold validate_for, mbind, res_bind. intros Hv Hn Hr. unfold enqueue.
  destruct (verify_signature m) as [u|e|]; [|done..].
  destruct (decide (from m ∈ allowed)) as [Ha|Ha]; [|by rewrite bool_decide_false in Hv].
  rewrite bool_decide_true in Hv by done. simpl in Hv.
  destruct (decide (recipient m = public_key id)) as [Hp|Hp]; [|by rewrite bool_decide_false in Hv].
  rewrite Hr, Hp, decide_True by done. by apply insert_envelope_unknown.
Qed.

Lemma accept_fresh id m allowed now now' s p :
  validate_for id allowed (ttl s) now m = Ok p → store_recipient s = Some (id_identity id) →
  entries s !! message_id m = None → dedup s !! message_id m = None →
  accept_incoming_with_status id m allowed now now' s =
  (Ok (message_id m, p, Inserted),
   set_dedup (<[message_id m := (now', envelope_fingerprint m)]> (dedup s))
     (set_entries (<[message_id m := m]> (entries s)) s)).
Proof.
  intros Hv Hr He Hd. unfold accept_incoming_with_status. rewrite Hv, He, Hd.
  by rewrite (enqueue_validated _ _ _ _ _ _ _ Hv He Hr).
Qed.

(** Validation depends on the time only through the age of the envelope. *)
Lemma validate_for_later id allowed ttl' t later m p :
  validate_for id allowed ttl' t m = Ok p →
  (t ≤ later)%N → (later ≤ created_at m + ttl_ms ttl')%N →
  validate_for id allowed ttl' later m = Ok p.
Proof.
  unfold validate_for, mbind, res_bind. intros Hv Ht Hl.
  destruct (verify_signature m); [|done..].
  do 2 (case_bool_decide; [simpl in Hv|done]).
  case_bool_decide as Hn; [|done]. rewrite bool_decide_true; [done|]. intros [?|?]; lia.
Qed.

(** C40: An envelope dated at or after its acceptance outlives its replay evidence.  When it is
    accepted and then acknowledged, at every time from the end of the time to live after the
    acceptance to the end of the time to live after its date, its evidence is expired although
    it still validates, and accepting it reports it as new a second time. *)
Theorem future_dated_inserted_twice sk m allowed t later s p :
  let id := from_secret sk in
  store_recipient s = Some (public sk) → entries s !! message_id m = None →
  dedup s !! message_id m = None →
  validate_for id allowed (ttl s) t m = Ok p → (t ≤ created_at m)%N →
  (t + ttl_ms (ttl s) ≤ later ≤ created_at m + ttl_ms (ttl s))%N →
  let s1 := (accept_incoming_with_status id m allowed t t s).2 in
  let s2 := (acknowledge (ack_sign sk (message_id m) (from m) t) s1).2 in
  (accept_incoming_with_status id m allowed t t s).1 = Ok (message_id m, p, Inserted) ∧
  (accept_incoming_with_status id m allowed later later (expire later s2)).1 =
    Ok (message_id m, p, Inserted).
Proof.
  intros id Hr He Hd Hv Hc [Hl Hl'].
  assert (validate_for id allowed (ttl s) later m = Ok p) as Hv'
    by (apply (validate_for_later _ _ _ t); [done|lia|done]).
  rewrite (accept_fresh id m allowed t t s p) by done.
  cbn [fst snd]. split; [done|]. unfold acknowledge. cbn [store_recipient set_dedup set_entries].
  rewrite Hr, ack_sign_verifies. cbn [snd].
  rewrite (accept_fresh id m allowed later later _ p); [done|done|done|..]; simpl.
  - apply map_lookup_filter_None. left. by rewrite lookup_delete_eq.
  - apply map_lookup_filter_None. right. intros [x f]. rewrite lookup_insert_eq.
    intros [= <- <-]. simpl. lia.
Qed.

(** An acknowledgement removes an outgoing envelope exactly when it names its id, states
    acceptance in the current version, carries a valid signature of the envelope's recipient
    and the envelope's sender; nothing else is removed, and every other acknowledgement
    leaves the store as it is.  The acknowledgement the recipient makes is one that
    removes it. *)
Theorem acknowledge_outgoing_exact ack s :
  let valid m :=
    ack_version ack = ACKNOWLEDGEMENT_VERSION ∧ ack_status ack = Some ACCEPTED ∧
    ack_recipient ack = identity (recipient m) ∧ original_sender ack = from m ∧
    protocol_signing.verify_canonical_or_legacy (identity (recipient m)) (ack_signature ack)
      (ack_signing_bytes ack) (ack_legacy_signing_bytes ack) = true in
  match entries s !! ack_message_id ack with
  | None => acknowledge_outgoing ack s = (Ok false, s)
  | Some m =>
      (valid m → acknowledge_outgoing ack s =
                 (Ok true, set_entries (delete (ack_message_id ack) (entries s)) s)) ∧
      (¬ valid m → ∃ e, acknowledge_outgoing ack s = (Err e, s)) ∧
      (∀ sk t, identity (recipient m) = public sk →
         ack = ack_sign sk (ack_message_id ack) (from m) t → valid m)
  end.
Proof.
  intros valid. unfold acknowledge_outgoing.
  destruct (entries s !! ack_message_id ack) as [m|] eqn:Hm; [|done]. split_and!.
  - intros (Hv & Hst & Hr & Ho & Hs). unfold is_success, ack_verify, mbind, res_bind.
    rewrite Hst, Hv, Hr, Hs, !bool_decide_true by done. simpl. by rewrite decide_True.
  - intros Hn. unfold is_success, ack_verify, mbind, res_bind, ensure.
    repeat (case_bool_decide; [|by eauto]). destruct (protocol_signing.verify_canonical_or_legacy
      _ _ _ _) eqn:Hs; [|by eauto]. simpl. case_decide; [|by eauto]. exfalso. apply Hn.
    unfold valid. by match goal with H : ack_recipient ack = _ |- _ => rewrite <- H end.
  - intros sk t Hsk Ha. pose proof (ack_sign_verifies sk (ack_message_id ack) (from m) t) as Hv.
    rewrite <- Ha in Hv. unfold ack_verify, mbind, res_bind, ensure in Hv.
    repeat (case_bool_decide; [|done]).
    destruct (protocol_signing.verify_canonical_or_legacy _ _ _ _) eqn:Hs; [|done].
    unfold valid. rewrite Hsk. split_and!; [done..| |by simplify_eq/=; congruence].
    by rewrite Ha.
Qed.

(** ** Serving *)

#[export] Instance replay_le_total : Total replay_le.
Proof.
  intros m m'. unfold replay_le.
  destruct (N.lt_trichotomy (created_at m) (created_at m')) as [?|[?|?]]; [by eauto| |by eauto].
  destruct (total text_le (message_id m) (message_id m')); eauto 6.
Qed.

#[export] Instance replay_le_trans : Transitive replay_le.
Proof.
  intros m1 m2 m3 [?|[??]] [?|[??]]; unfold replay_le; [left; lia..|].
  right. split; [congruence|]. by etrans.
Qed.

Definition encoded_size (es : list MailboxEnvelope) : N :=
  foldr (λ m acc, N.of_nat (length (encoded m)) + acc)%N 0%N es.

(** The loop takes the longest beginning that fits. *)
Lemma page_loop_exact es count bytes :
  (bytes ≤ MAX_SYNC_RESPONSE_BYTES)%N → count ≤ MAX_SYNC_ENVELOPES →
  ∃ rest, es = page_loop es count bytes ++ rest ∧
    count + length (page_loop es count bytes) ≤ MAX_SYNC_ENVELOPES ∧
    (bytes + encoded_size (page_loop es count bytes) ≤ MAX_SYNC_RESPONSE_BYTES)%N ∧
    match rest with
    | [] => True
    | m :: _ =>
        count + length (page_loop es count bytes) = MAX_SYNC_ENVELOPES ∨
        (MAX_SYNC_RESPONSE_BYTES <
           bytes + encoded_size (page_loop es count bytes) + N.of_nat (length (encoded m)))%N
    end.
Proof.
  revert count bytes. induction es as [|m es IH]; intros count bytes Hb Hc; simpl.
  { exists []. simpl. split_and!; [done|lia..|done]. }
  case_decide as Hn; [|case_decide as Hs].
  - exists (m :: es). simpl. split_and!; [done|lia|lia|]. left. lia.
  - exists (m :: es). simpl. split_and!; [done|lia|lia|]. right. lia.
  - destruct (IH (S count) (bytes + N.of_nat (length (encoded m)))%N)
      as (rest & Heq & Hl & Hsz & Hr); [|lia|].
    { unfold MAX_SYNC_RESPONSE_BYTES, usize_max in *. lia. }
    exists rest. simpl. split_and!; [by f_equal|lia|lia|].
    destruct rest as [|m' rest]; [done|]. destruct Hr; [left|right]; lia.
Qed.

Section serving.
Context `{!HashValues}.

(** What a peer may be served: its envelopes within the window. *)
Definition servable (who : PublicKey) (since now now' : N) s : list MailboxEnvelope :=
  merge_sort replay_le
    (filter (λ m, identity (recipient m) = who ∧
                  (N.max since (now' - MAX_SYNC_LOOKBACK) ≤ created_at m)%N)
       (hash_values (entries (expire now s)))).

Lemma elem_of_servable who since now now' s m :
  m ∈ servable who since now now' s ↔
  (∃ i, entries s !! i = Some m) ∧ identity (recipient m) = who ∧
  (now - ttl_ms (ttl s) < created_at m)%N ∧
  (N.max since (now' - MAX_SYNC_LOOKBACK) ≤ created_at m)%N.
Proof.
  unfold servable. rewrite merge_sort_Permutation, list_elem_of_filter, hash_values_perm.
  rewrite list_elem_of_fmap. split.
  - intros [[Hw Hc] ([i m'] & -> & Hin%elem_of_map_to_list)]. simpl in *.
    apply map_lookup_filter_Some in Hin as [Hi Ht]. eauto 10.
  - intros ([i Hi] & Hw & Ht & Hc). split; [done|]. exists (i, m). split; [done|].
    apply elem_of_map_to_list, map_lookup_filter_Some. done.
Qed.

(** A sync page is the longest beginning of what may be served to the peer (its
    unexpired envelopes within the window, ordered by date and id) that has at most 64
    envelopes and 512 KiB; serving changes nothing but that expired entries go. *)
Theorem sync_page_exact who since now now' s :
  let '(page, s') := pending_for_recipient_since who since now now' s in
  let all := servable who since now now' s in
  s' = expire now s ∧ StronglySorted replay_le all ∧
  (∀ m, m ∈ all ↔ (∃ i, entries s !! i = Some m) ∧ identity (recipient m) = who ∧
     (now - ttl_ms (ttl s) < created_at m)%N ∧
     (N.max since (now' - MAX_SYNC_LOOKBACK) ≤ created_at m)%N) ∧
  ∃ rest, all = page ++ rest ∧ length page ≤ 64 ∧ (encoded_size page ≤ 524288)%N ∧
    match rest with
    | [] => True
    | m :: _ => length page = 64 ∨
                (524288 < encoded_size page + N.of_nat (length (encoded m)))%N
    end.
Proof.
  unfold pending_for_recipient_since. simpl. split; [done|].
  split; [apply StronglySorted_merge_sort; apply _|]. split; [apply elem_of_servable|].
  destruct (page_loop_exact (servable who since now now' s) 0 0) as (rest & Heq & Hl & Hsz & Hr);
    [done|unfold MAX_SYNC_ENVELOPES; lia|].
  exists rest. split; [done|]. split; [done|]. split; [done|].
  by destruct rest.
Qed.

(** One envelope that does not fit a page keeps all later ones of the peer from being
    served, until it expires or is acknowledged. *)
Theorem oversized_blocks_sync who since now now' s m :
  m ∈ servable who since now now' s →
  (∀ m', m' ∈ servable who since now now' s → m' ≠ m → ¬ replay_le m' m) →
  (MAX_SYNC_RESPONSE_BYTES < N.of_nat (length (encoded m)) ≤ usize_max)%N →
  (pending_for_recipient_since who since now now' s).1 = [].
Proof.
  intros Hm Hmin Hs. unfold pending_for_recipient_since. cbn [fst].
  assert (StronglySorted replay_le (servable who since now now' s)) as Hss
    by (apply StronglySorted_merge_sort; apply _).
  change (page_loop (servable who since now now' s) 0 0 = []).
  destruct (servable who since now now' s) as [|x es]; [by apply not_elem_of_nil in Hm|].
  assert (x = m) as ->.
  { destruct (decide (x = m)) as [|Hne]; [done|]. exfalso.
    apply (Hmin x); [by left|done|]. apply StronglySorted_inv in Hss as [_ Hf].
    apply elem_of_cons in Hm as [->|Hm]; [done|]. rewrite Forall_forall in Hf. by apply Hf. }
  cbn [page_loop]. rewrite decide_False by (unfold MAX_SYNC_ENVELOPES; lia).
  rewrite decide_True; [done|]. unfold usize_max, MAX_SYNC_RESPONSE_BYTES in *. lia.
Qed.

End serving.

End facts.

(** ** Concrete keys, encodings and messages *)

Definition ser_encodable {A} `{!Ser A} : Encodable A.
Proof.
  refine {| encoded := ser; decoded b := match de b with Some (a, []) => Some a | _ => None end |}.
  intros a. by rewrite <- (app_nil_r (ser a)), de_ser.
Defined.

(** The shared secret is made of both keys; the tag is a checksum of key, nonce and
    associated data. *)
Definition toy_shared (a b : Bytes) : Bytes := if decide (bytes_le a b) then a ++ b else b ++ a.

Lemma toy_shared_comm a b : toy_shared a b = toy_shared b a.
Proof.
  unfold toy_shared. repeat case_decide; [|done|done|].
  - by rewrite (anti_symm bytes_le a b).
  - destruct (total bytes_le a b); done.
Qed.

Definition toy_tag (key nonce aad : Bytes) : Bytes := toy_hash (key ++ nonce ++ aad).

Definition toy_sealing : @Sealing toy_ed25519.
Proof.
  refine (@Build_Sealing toy_ed25519 Bytes (λ a, a) toy_shared (λ sk, sk)
    (λ key nonce aad msg, Some (toy_tag key nonce aad ++ msg))
    (λ key nonce aad c,
      if decide (take 2 c = toy_tag key nonce aad) then Some (drop 2 c) else None) _ _).
  - apply toy_shared_comm.
  - intros key nonce aad msg c [= <-]. by rewrite decide_True.
Defined.

#[export] Instance ser_mailbox_key : Ser MailboxPublicKey.
Proof.
  refine (ser_inj (B := Bytes * Bytes) (λ k, (identity k, encryption k))
    (λ '(a, b), Some (mkPublicKey a b)) _).
  by intros [].
Defined.

#[export] Instance ser_envelope_v1 : Ser MailboxEnvelopeV1.
Proof.
  refine (ser_inj (B := Bytes * MailboxPublicKey * Bytes * Bytes * Bytes * N * Bytes)
    (λ e, (v1_from e, v1_recipient e, v1_ephemeral e, v1_nonce e, v1_ciphertext e,
           v1_created_at e, v1_signature e))
    (λ '(a, b, c, d, e, f, g), Some (mkV1 a b c d e f g)) _).
  by intros [].
Defined.

#[export] Instance ser_envelope_v2 : Ser MailboxEnvelopeV2.
Proof.
  refine (ser_inj (B := N * Bytes * MailboxPublicKey * Bytes * Bytes * Bytes * N * Bytes)
    (λ e, (v2_version e, v2_from e, v2_recipient e, v2_ephemeral e, v2_nonce e, v2_ciphertext e,
           v2_created_at e, v2_signature e))
    (λ '(v, a, b, c, d, e, f, g), Some (mkV2 v a b c d e f g)) _).
  by intros [].
Defined.

#[export] Instance ser_envelope : Ser MailboxEnvelope.
Proof.
  refine (ser_inj (B := MailboxEnvelopeV1 + MailboxEnvelopeV2)
    (λ m, match m with V1 e => inl e | V2 e => inr e end)
    (λ x, Some match x with inl e => V1 e | inr e => V2 e end) _).
  by intros [].
Defined.

Module samples.

#[local] Existing Instances toy_ed25519 toy_sealing toy_hasher.
#[local] Instance encodable_ser {A} `{!Ser A} : Encodable A | 100 := ser_encodable.

Definition alice : Bytes := [x61].
Definition bob : Bytes := [x62].
Definition alice_key : @SecretKey toy_ed25519 := alice.
Definition bob_key : @SecretKey toy_ed25519 := bob.
Definition ephemeral_key : @StaticSecret toy_ed25519 toy_sealing := ([x05] : Bytes).

(** A message Alice seals for Bob at a date. *)
Definition sealed (t : N) : MailboxEnvelope :=
  match seal_at alice_key (public_key (from_secret bob_key)) [x68; x69] t
          ephemeral_key (Some (replicate 12 x07)) with
  | Ok m => m
  | _ => V1 (mkV1 [] (mkPublicKey [] []) [] [] [] 0 [])
  end.

Definition box : MailboxStore := for_recipient (txt "d") bob.
Definition week : N := DEFAULT_MAILBOX_TTL.
Definition bob_id : MailboxIdentity := from_secret bob_key.

Lemma sealed_reaches_recipient_witness :
  open_with (sealed 100) bob_id = Ok [x68; x69] ∧
  validate_for bob_id [alice] week 200 (sealed 100) = Ok [x68; x69].
Proof.
  destruct (sealed_reaches_recipient alice_key bob_id [x68; x69] 100
    ephemeral_key (Some (replicate 12 x07)) (sealed 100)) as (_ & Ho & Hv & _);
    [vm_compute; reflexivity|].
  split; [exact Ho|]. apply Hv; [|vm_compute; discriminate..]. by left.
Defined.

Lemma inserted_at_most_once_witness :
  (accept_incoming_with_status bob_id (sealed 100) [alice] 400 400
     (apply_ops [OExpire 300]
        (accept_incoming_with_status bob_id (sealed 100) [alice] 200 200 box).2)).1
  ≠ Ok (message_id (sealed 100), [x68; x69], Inserted).
Proof.
  refine (inserted_at_most_once bob_id (sealed 100) [alice] 200 200 box _ [x68; x69]
    [OExpire 300] bob_id [alice] 400 400 _ _ _ [x68; x69]); [vm_compute; reflexivity..|].
  intros t Ht. apply list_elem_of_singleton in Ht. simplify_eq. vm_compute. discriminate.
Defined.

Lemma future_dated_inserted_twice_witness :
  let s1 := (accept_incoming_with_status bob_id (sealed 130) [alice] 100 100 box).2 in
  let s2 := (acknowledge (ack_sign bob_key (message_id (sealed 130)) alice 100) s1).2 in
  (accept_incoming_with_status bob_id (sealed 130) [alice] (100 + week) (100 + week)
     (expire (100 + week) s2)).1 = Ok (message_id (sealed 130), [x68; x69], Inserted).
Proof.
  refine (proj2 (future_dated_inserted_twice bob_key (sealed 130) [alice] 100 (100 + week) box
    [x68; x69] _ _ _ _ _ _)); try (vm_compute; reflexivity); [|split]; vm_compute; discriminate.
Defined.

End samples.
