(* ===== verification/GroupEpoch.v ===== *)
(** * Rotation of group credentials: [src/group_epoch.rs]

    [Module group_epoch] translates the removal of a member by the owner: the signed control
    events, the sealed deliveries of the next credentials to the survivors, and the state of
    the current epoch.  Random values and clock readings are arguments; the order in which a
    [HashSet] yields its elements is the interface [HashMembers]. *)

From Stdlib Require Import Strings.Byte NArith.
From stdpp Require Import prelude gmap strings.
From S2P Require Import Prelude Text Signing AtomicWrite Mailbox.

Module group_epoch.
Import mailbox.

Definition GROUP_EPOCH_REMOVED_PROTOCOL : string := "boru/group-epoch-removed".
Definition GROUP_EPOCH_CHANGED_PROTOCOL : string := "boru/group-epoch-changed".
Definition GROUP_EPOCH_VERSION : N := 1.

Record EpochCredentials : Type := from_parts {
  group_id : Bytes;
  epoch : N;
  topic : Bytes;
  discovery_secret : Bytes
}.

(** [bytes] and [secret] are drawn at random.  A failing entropy source panics here, before
    anything has changed; that draw is not modelled. *)
Definition generate (group : Bytes) (ep : N) (bytes secret : Bytes) : EpochCredentials :=
  from_parts group ep bytes secret.

Record MemberRemovedEvent : Type := mkRemoved {
  mr_group_id : Bytes;
  mr_epoch : N;
  mr_member : PublicKey;
  mr_actor : PublicKey;
  mr_timestamp : N;
  mr_signature : Bytes
}.

Record EpochChangedEvent : Type := mkChanged {
  ec_group_id : Bytes;
  ec_old_epoch : N;
  ec_new_epoch : N;
  ec_actor : PublicKey;
  ec_timestamp : N;
  ec_signature : Bytes
}.

Record CredentialDelivery : Type := mkDelivery {
  cd_recipient : PublicKey;
  cd_envelope : MailboxEnvelope
}.

Record EpochRotation : Type := mkRotation {
  credentials : EpochCredentials;
  member_removed : MemberRemovedEvent;
  epoch_changed : EpochChangedEvent;
  deliveries : list CredentialDelivery
}.

(** The texts of the errors are left out. *)
Inductive EpochRotationError : Type :=
| NotOwner
| NotMember
| MissingRecipient (member : PublicKey)
| Encode
| EncryptionFailed
| DecryptionFailed
| Decode
| NotRecipient.

Record EpochRotationState : Type := mkState {
  current : EpochCredentials;
  owner : PublicKey;
  members : gset PublicKey
}.

Abbreviation RemovedFields := (Bytes * N * PublicKey * PublicKey * N)%type.
Abbreviation ChangedFields := (Bytes * N * N * PublicKey * N)%type.

(** [HashSet::iter]: some order. *)
Class HashMembers : Type := {
  hash_members : gset PublicKey → list PublicKey;
  hash_members_perm ms : hash_members ms ≡ₚ elements ms
}.

Section epoch.
Context `{!Ed25519, !Sealing, !Hasher, !HashMembers}.
Context `{!Encodable SignedV1, !Encodable ContextV2, !Encodable SignedV2}.
Context `{!Encodable (string * N * RemovedFields), !Encodable RemovedFields}.
Context `{!Encodable (string * N * ChangedFields), !Encodable ChangedFields}.
Context `{!Postcard EpochCredentials}.
Implicit Types (s : EpochRotationState) (id : MailboxIdentity).

(** ** Signed events *)

Definition removed_signing_bytes (e : MemberRemovedEvent) : Bytes :=
  expect (protocol_signing.canonical_signed_bytes GROUP_EPOCH_REMOVED_PROTOCOL GROUP_EPOCH_VERSION
            (mr_group_id e, mr_epoch e, mr_member e, mr_actor e, mr_timestamp e)).

Definition removed_legacy_signing_bytes (e : MemberRemovedEvent) : Bytes :=
  encoded (mr_group_id e, mr_epoch e, mr_member e, mr_actor e, mr_timestamp e).

Definition removed_verify (e : MemberRemovedEvent) (who : PublicKey) : bool :=
  bool_decide (mr_actor e = who) &&
  protocol_signing.verify_canonical_or_legacy who (mr_signature e)
    (removed_signing_bytes e) (removed_legacy_signing_bytes e).

Definition changed_signing_bytes (e : EpochChangedEvent) : Bytes :=
  expect (protocol_signing.canonical_signed_bytes GROUP_EPOCH_CHANGED_PROTOCOL GROUP_EPOCH_VERSION
            (ec_group_id e, ec_old_epoch e, ec_new_epoch e, ec_actor e, ec_timestamp e)).

Definition changed_legacy_signing_bytes (e : EpochChangedEvent) : Bytes :=
  encoded (ec_group_id e, ec_old_epoch e, ec_new_epoch e, ec_actor e, ec_timestamp e).

Definition changed_verify (e : EpochChangedEvent) (who : PublicKey) : bool :=
  bool_decide (ec_actor e = who) &&
  protocol_signing.verify_canonical_or_legacy who (ec_signature e)
    (changed_signing_bytes e) (changed_legacy_signing_bytes e).

Definition sign_removed (key : SecretKey) (group : Bytes) (ep : N) (member : PublicKey)
    (timestamp : N) : MemberRemovedEvent :=
  let event sig := mkRemoved group ep member (public key) timestamp sig in
  event (sign key (removed_signing_bytes (event (replicate 64 x00)))).

Definition sign_epoch (key : SecretKey) (group : Bytes) (old_epoch new_epoch : N)
    (timestamp : N) : EpochChangedEvent :=
  let event sig := mkChanged group old_epoch new_epoch (public key) timestamp sig in
  event (sign key (changed_signing_bytes (event (replicate 64 x00)))).

(** ** Deliveries *)

Definition open_delivery (d : CredentialDelivery) id : res EpochRotationError EpochCredentials :=
  match open_with (cd_envelope d) id with
  | Ok bytes => ok_or Decode (from_bytes bytes)
  | Err _ => Err DecryptionFailed
  | Panicked => Panicked
  end.

Definition open_for (r : EpochRotation) id : res EpochRotationError EpochCredentials :=
  d ← ok_or NotRecipient
        (snd <$> list_find (λ d, cd_recipient d = identity (public_key id)) (deliveries r));
  open_delivery d id.

(** ** The state *)

Definition new (c : EpochCredentials) (who : PublicKey) : EpochRotationState :=
  mkState c who {[who]}.

Definition add_member (member : PublicKey) s : EpochRotationState :=
  mkState (current s) (owner s) ({[member]} ∪ members s).

(** What one call of [seal_for] draws: the ephemeral secret, the nonce and the time. *)
Abbreviation Draw := (StaticSecret * option Bytes * N)%type.

Fixpoint seal_all (key : SecretKey) (keys : gmap PublicKey MailboxPublicKey) (payload : Bytes)
    (draws : nat → Draw) (i : nat) (survivors : list PublicKey)
    : res EpochRotationError (list CredentialDelivery) :=
  match survivors with
  | [] => Ok []
  | member :: rest =>
      match keys !! member with
      | None => Panicked
      | Some to =>
          let '(eph, fresh, now) := draws i in
          match seal_for key to payload now eph fresh with
          | Ok envelope =>
              ds ← seal_all key keys payload draws (S i) rest;
              Ok (mkDelivery member envelope :: ds)
          | Err _ => Err EncryptionFailed
          | Panicked => Panicked
          end
      end
  end.

(** The first survivor without a key, in the order of iteration. *)
Definition first_missing (keys : gmap PublicKey MailboxPublicKey) (survivors : list PublicKey)
    : option PublicKey :=
  snd <$> list_find (λ member, keys !! member = None) survivors.

Definition survivors_of (removed : PublicKey) s : list PublicKey :=
  filter (λ p, p ≠ removed ∧ p ≠ owner s) (hash_members (members s)).

Definition rotate_after_removal (key : SecretKey) (removed : PublicKey)
    (keys : gmap PublicKey MailboxPublicKey) (bytes secret : Bytes) (timestamp : N)
    (draws : nat → Draw) s : res EpochRotationError EpochRotation * EpochRotationState :=
  if decide (public key ≠ owner s) then (Err NotOwner, s)
  else if decide (removed ∉ members s ∨ removed = owner s) then (Err NotMember, s)
  else
    let survivors := survivors_of removed s in
    match first_missing keys survivors with
    | Some member => (Err (MissingRecipient member), s)
    | None =>
        if decide (epoch (current s) = u64_max) then (Err Encode, s)
        else
          let next := generate (group_id (current s)) (epoch (current s) + 1) bytes secret in
          let member_removed :=
            sign_removed key (group_id (current s)) (epoch (current s)) removed timestamp in
          let epoch_changed :=
            sign_epoch key (group_id (current s)) (epoch (current s)) (epoch next) timestamp in
          match to_stdvec next with
          | None => (Err Encode, s)
          | Some payload =>
              match seal_all key keys payload draws 0 survivors with
              | Ok ds =>
                  (Ok (mkRotation next member_removed epoch_changed ds),
                   mkState next (owner s) (members s ∖ {[removed]}))
              | Err e => (Err e, s)
              | Panicked => (Panicked, s)
              end
          end
    end.

End epoch.
End group_epoch.
