(* ===== verification/GroupEpochFacts.v ===== *)
(** * Correctness of the rotation of group credentials

    A removal is all or nothing; on success exactly the survivors get the next credentials,
    which each of them can open and the removed member cannot. *)

From Stdlib Require Import Strings.Byte NArith.
From stdpp Require Import prelude gmap strings.
From S2P Require Import Prelude Text Signing Concrete AtomicWrite Mailbox MailboxFacts GroupEpoch.
Import mailbox group_epoch.

Section facts.
Context `{!Ed25519, !Sealing, !Hasher, !HashMembers}.
Context `{!Encodable SignedV1, !Encodable ContextV2, !Encodable SignedV2}.
Context `{!Encodable (string * N * RemovedFields), !Encodable RemovedFields}.
Context `{!Encodable (string * N * ChangedFields), !Encodable ChangedFields}.
Context `{!Postcard EpochCredentials}.
Implicit Types (s : EpochRotationState) (id : MailboxIdentity) (key : SecretKey).
Implicit Types (keys : gmap PublicKey MailboxPublicKey) (member removed : PublicKey).

Lemma sign_removed_verifies key group ep member t :
  removed_verify (sign_removed key group ep member t) (public key) = true.
Proof.
  unfold removed_verify. simpl. rewrite bool_decide_true by done. simpl.
  match goal with
  | |- context [protocol_signing.verify_canonical_or_legacy _ _ ?d _] =>
      change d with (removed_signing_bytes (mkRemoved group ep member (public key) t
        (replicate 64 x00)))
  end.
  apply protocol_signing.verify_signed.
Qed.

Lemma sign_epoch_verifies key group old_epoch new_epoch t :
  changed_verify (sign_epoch key group old_epoch new_epoch t) (public key) = true.
Proof.
  unfold changed_verify. simpl. rewrite bool_decide_true by done. simpl.
  match goal with
  | |- context [protocol_signing.verify_canonical_or_legacy _ _ ?d _] =>
      change d with (changed_signing_bytes (mkChanged group old_epoch new_epoch (public key) t
        (replicate 64 x00)))
  end.
  apply protocol_signing.verify_signed.
Qed.

(** ** Survivors and deliveries *)

Lemma elem_of_survivors removed s p :
  p ∈ survivors_of removed s ↔ p ∈ members s ∧ p ≠ removed ∧ p ≠ owner s.
Proof.
  unfold survivors_of. rewrite list_elem_of_filter, hash_members_perm, elem_of_elements. tauto.
Qed.

Lemma NoDup_survivors removed s : NoDup (survivors_of removed s).
Proof.
  unfold survivors_of. apply NoDup_filter. rewrite hash_members_perm. apply NoDup_elements.
Qed.

Lemma first_missing_None keys l : first_missing keys l = None ↔ ∀ p, p ∈ l → is_Some (keys !! p).
Proof.
  unfold first_missing. rewrite fmap_None, list_find_None, Forall_forall.
  setoid_rewrite not_eq_None_Some. done.
Qed.

Lemma first_missing_Some keys l p : first_missing keys l = Some p → p ∈ l ∧ keys !! p = None.
Proof.
  unfold first_missing. rewrite fmap_Some. intros ([i x] & Hf & ->).
  apply list_find_Some in Hf as (Hx & Hk & _). split; [|done]. by eapply list_elem_of_lookup_2.
Qed.

(** Each delivery is sealed by the owner with the key listed for its recipient. *)
Definition sealed_for key keys (payload : Bytes) (d : CredentialDelivery) : Prop :=
  ∃ to now eph fresh, keys !! cd_recipient d = Some to ∧
    seal_for key to payload now eph fresh = Ok (cd_envelope d).

Lemma seal_all_Ok key keys payload draws i l ds :
  seal_all key keys payload draws i l = Ok ds →
  cd_recipient <$> ds = l ∧ Forall (sealed_for key keys payload) ds.
Proof.
  revert i ds. induction l as [|p l IH]; intros i ds; simpl; [intros [= <-]; by split|].
  destruct (keys !! p) as [to|] eqn:Hk; [|done]. destruct (draws i) as [[eph fresh] now].
  destruct (seal_for key to payload now eph fresh) as [m|e|] eqn:Hs; [|done..].
  unfold mbind, res_bind. destruct (seal_all _ _ _ _ _ l) as [ds'|e|] eqn:Hr; [|done..].
  intros [= <-]. apply IH in Hr as [Hl Hf]. simpl. split; [by f_equal|].
  constructor; [|done]. exists to, now, eph, fresh. done.
Qed.

Lemma seal_all_settled key keys payload draws i l :
  (∀ p, p ∈ l → is_Some (keys !! p)) → settled (seal_all key keys payload draws i l).
Proof.
  revert i. induction l as [|p l IH]; intros i Hl; simpl; [done|].
  destruct (Hl p (list_elem_of_here _ _)) as [to ->]. destruct (draws i) as [[eph fresh] now].
  assert (settled (seal_for key to payload now eph fresh)) as Hs.
  { unfold seal_for, seal_at. eauto 10 with boru. }
  destruct (seal_for key to payload now eph fresh); [|done|done].
  apply settled_bind; [|by intros]. apply IH. intros q Hq. apply Hl. by right.
Qed.

(** ** Rotation *)

(** What the code checks before it changes anything. *)
Definition may_rotate key removed keys s : Prop :=
  public key = owner s ∧ removed ∈ members s ∧ removed ≠ owner s ∧
  (∀ p, p ∈ members s → p ≠ removed → p ≠ owner s → is_Some (keys !! p)) ∧
  epoch (current s) ≠ u64_max.

Lemma survivors_keyed removed keys s :
  first_missing keys (survivors_of removed s) = None ↔
  ∀ p, p ∈ members s → p ≠ removed → p ≠ owner s → is_Some (keys !! p).
Proof. rewrite first_missing_None. setoid_rewrite elem_of_survivors. naive_solver. Qed.

(** Past the checks only the encoding and the sealing can fail. *)
Lemma rotate_checked key removed keys bytes secret t draws s :
  may_rotate key removed keys s →
  let next := generate (group_id (current s)) (epoch (current s) + 1) bytes secret in
  rotate_after_removal key removed keys bytes secret t draws s =
  match to_stdvec next with
  | None => (Err Encode, s)
  | Some payload =>
      match seal_all key keys payload draws 0 (survivors_of removed s) with
      | Ok ds =>
          (Ok (mkRotation next
                 (sign_removed key (group_id (current s)) (epoch (current s)) removed t)
                 (sign_epoch key (group_id (current s)) (epoch (current s)) (epoch next) t) ds),
           mkState next (owner s) (members s ∖ {[removed]}))
      | Err e => (Err e, s)
      | Panicked => (Panicked, s)
      end
  end.
Proof.
  intros (Ho & Hm & Hne & Hk & He) next. unfold rotate_after_removal.
  rewrite decide_False by (intros Hx; done). rewrite decide_False by naive_solver.
  rewrite (proj2 (survivors_keyed removed keys s)) by done. by rewrite decide_False.
Qed.

Lemma rotate_refused key removed keys bytes secret t draws s :
  ¬ may_rotate key removed keys s →
  ∃ e, rotate_after_removal key removed keys bytes secret t draws s = (Err e, s).
Proof.
  intros Hn. unfold rotate_after_removal. case_decide; [by eauto|]. case_decide; [by eauto|].
  destruct (first_missing keys _) as [p|] eqn:Hf; [by eauto|].
  case_decide; [by eauto|]. exfalso. apply Hn. rewrite survivors_keyed in Hf.
  unfold may_rotate. destruct (decide (removed ∈ members s)); naive_solver.
Qed.

(** The outcome of a rotation. *)
Lemma rotate_cases key removed keys bytes secret t draws s :
  (∃ e, rotate_after_removal key removed keys bytes secret t draws s = (Err e, s)) ∨
  may_rotate key removed keys s ∧
  let next := generate (group_id (current s)) (epoch (current s) + 1) bytes secret in
  ∃ payload ds, to_stdvec next = Some payload ∧
    cd_recipient <$> ds = survivors_of removed s ∧ Forall (sealed_for key keys payload) ds ∧
    rotate_after_removal key removed keys bytes secret t draws s =
    (Ok (mkRotation next
           (sign_removed key (group_id (current s)) (epoch (current s)) removed t)
           (sign_epoch key (group_id (current s)) (epoch (current s)) (epoch next) t) ds),
     mkState next (owner s) (members s ∖ {[removed]})).
Proof.
  destruct (decide (public key = owner s ∧ removed ∈ members s ∧ removed ≠ owner s ∧
    first_missing keys (survivors_of removed s) = None ∧ epoch (current s) ≠ u64_max))
    as [Hd|Hd].
  2: { left. apply rotate_refused. intros (?&?&?&?&?). apply Hd. by rewrite survivors_keyed. }
  assert (may_rotate key removed keys s) as Hm.
  { destruct Hd as (?&?&?&Hk&?). by rewrite survivors_keyed in Hk. }
  rewrite (rotate_checked _ _ _ _ _ _ _ _ Hm).
  destruct (to_stdvec _) as [payload|] eqn:Hp; [|by eauto].
  pose proof (seal_all_settled key keys payload draws 0 (survivors_of removed s)) as Hst.
  destruct (seal_all _ _ _ _ _ _) as [ds|e|] eqn:Hs; [|by eauto|].
  - apply seal_all_Ok in Hs as [Hl Hf]. right. split; [done|]. exists payload, ds. done.
  - destruct Hst. apply first_missing_None, Hd.
Qed.

(** C34: A removal is all or nothing.  It never panics; when it fails nothing changes; it
    succeeds only for the owner's key, an existing member other than the owner and keys for
    all survivors.  Then exactly the removed member leaves, the credentials are of the same
    group and the next epoch, both signed events verify for the owner and name the epochs,
    and each survivor gets exactly one delivery, sealed by the owner with the key listed for
    it. *)
Theorem rotation_exact key removed keys bytes secret t draws s :
  let '(r, s') := rotate_after_removal key removed keys bytes secret t draws s in
  match r with
  | Panicked => False
  | Err _ => s' = s
  | Ok rot =>
      may_rotate key removed keys s ∧
      (owner s' = owner s ∧ members s' = members s ∖ {[removed]} ∧ current s' = credentials rot) ∧
      credentials rot = from_parts (group_id (current s)) (epoch (current s) + 1) bytes secret ∧
      (removed_verify (member_removed rot) (owner s) = true ∧
       mr_member (member_removed rot) = removed ∧ mr_epoch (member_removed rot) = epoch (current s) ∧
       changed_verify (epoch_changed rot) (owner s) = true ∧
       ec_old_epoch (epoch_changed rot) = epoch (current s) ∧
       ec_new_epoch (epoch_changed rot) = epoch (current s')) ∧
      cd_recipient <$> deliveries rot ≡ₚ elements (members s ∖ {[removed; owner s]}) ∧
      ∃ payload, to_stdvec (credentials rot) = Some payload ∧
        Forall (sealed_for key keys payload) (deliveries rot)
  end.
Proof.
  destruct (rotate_cases key removed keys bytes secret t draws s)
    as [[e ->]|(Hm & payload & ds & Hp & Hl & Hf & ->)]; [done|].
  pose proof Hm as (Ho & _). simpl. split_and!; try done.
  - rewrite <- Ho. apply sign_removed_verifies.
  - rewrite <- Ho. apply sign_epoch_verifies.
  - rewrite Hl. apply NoDup_Permutation; [apply NoDup_survivors|apply NoDup_elements|].
    intros p. rewrite elem_of_survivors, elem_of_elements. set_solver.
  - eauto.
Qed.

Lemma rotation_delivers key removed keys bytes secret t draws s rot s' :
  rotate_after_removal key removed keys bytes secret t draws s = (Ok rot, s') →
  current s' = credentials rot ∧
  (∀ p, p ∈ cd_recipient <$> deliveries rot ↔ p ∈ members s ∧ p ≠ removed ∧ p ≠ owner s) ∧
  ∃ payload, to_stdvec (credentials rot) = Some payload ∧
    Forall (sealed_for key keys payload) (deliveries rot).
Proof.
  destruct (rotate_cases key removed keys bytes secret t draws s)
    as [[e ->]|(Hm & payload & ds & Hp & Hl & Hf & ->)]; [done|]. intros [= <- <-]. simpl.
  split_and!; [done| |by eauto]. intros p. rewrite Hl. apply elem_of_survivors.
Qed.

(** A delivery is opened by the identity whose key was listed for its recipient. *)
Lemma delivery_opens key keys c payload d sk :
  to_stdvec c = Some payload → sealed_for key keys payload d →
  keys !! cd_recipient d = Some (public_key (from_secret sk)) →
  open_delivery d (from_secret sk) = Ok c.
Proof.
  intros Hp (to & now & eph & fresh & Hto & Hs) Hk. rewrite Hk in Hto. simplify_eq.
  unfold open_delivery. unfold seal_for in Hs. rewrite (sealed_opens _ _ _ _ _ _ _ Hs).
  by rewrite (postcard_roundtrip _ _ Hp).
Qed.

(** After a removal, a survivor whose key was listed opens its delivery and gets the new
    credentials; the removed member finds no delivery for it and can open none of the
    survivors' deliveries whose keys are theirs. *)
Theorem survivors_only key removed keys bytes secret t draws s rot s' sk :
  rotate_after_removal key removed keys bytes secret t draws s = (Ok rot, s') →
  (public sk ∈ members s → public sk ≠ removed → public sk ≠ owner s →
   keys !! public sk = Some (public_key (from_secret sk)) →
   open_for rot (from_secret sk) = Ok (current s')) ∧
  (public sk = removed →
   open_for rot (from_secret sk) = Err NotRecipient ∧
   ∀ d to, d ∈ deliveries rot → keys !! cd_recipient d = Some to → identity to = cd_recipient d →
     open_delivery d (from_secret sk) = Err DecryptionFailed).
Proof.
  intros Hr. apply rotation_delivers in Hr as (-> & Hd & payload & Hp & Hf).
  rewrite Forall_forall in Hf.
  split.
  - intros Hm Hne Hno Hk. unfold open_for, mbind, res_bind.
    assert (public sk ∈ cd_recipient <$> deliveries rot) as (d0 & Heq0 & Hd0)%list_elem_of_fmap
      by by apply Hd.
    destruct (list_find (λ d, cd_recipient d = identity (public_key (from_secret sk)))
      (deliveries rot)) as [[i d]|] eqn:Hfind.
    2: { apply list_find_None in Hfind. rewrite Forall_forall in Hfind.
         by destruct (Hfind d0 Hd0). }
    apply list_find_Some in Hfind as (Hi & Heq & _). simpl in Heq. simpl.
    apply list_elem_of_lookup_2, Hf in Hi. eapply delivery_opens; [done..|]. by rewrite Heq.
  - intros Hrem. split.
    + unfold open_for, mbind, res_bind.
      destruct (list_find _ _) as [[i d]|] eqn:Hfind; [|done]. exfalso.
      apply list_find_Some in Hfind as (Hi & Heq & _). simpl in Heq.
      assert (removed ∈ cd_recipient <$> deliveries rot) as Hin%Hd.
      { apply list_elem_of_fmap. exists d. split; [congruence|]. by eapply list_elem_of_lookup_2. }
      naive_solver.
    + intros d to Hin Hto Hid. assert (cd_recipient d ≠ removed) as Hne.
      { assert (cd_recipient d ∈ cd_recipient <$> deliveries rot) as Hx%Hd
          by by apply list_elem_of_fmap_2. naive_solver. }
      apply Hf in Hin as (to' & now & eph & fresh & Hto' & Hs). simplify_eq.
      unfold open_delivery. unfold seal_for in Hs.
      rewrite (sealed_not_for _ _ _ _ _ _ _ (from_secret sk) Hs); [done|].
      intros ->. simpl in *. congruence.
Qed.

(** The keys are taken as they are listed: when the key listed for a survivor belongs to
    the removed member, the removed member opens that delivery and gets the new
    credentials. *)
Theorem listed_key_decides key removed keys bytes secret t draws s rot s' sk member :
  rotate_after_removal key removed keys bytes secret t draws s = (Ok rot, s') →
  public sk = removed → member ∈ members s → member ≠ removed → member ≠ owner s →
  keys !! member = Some (public_key (from_secret sk)) →
  ∃ d, d ∈ deliveries rot ∧ open_delivery d (from_secret sk) = Ok (current s').
Proof.
  intros Hr _ Hm Hne Hno Hk. apply rotation_delivers in Hr as (-> & Hd & payload & Hp & Hf).
  assert (member ∈ cd_recipient <$> deliveries rot) as (d & -> & Hin)%list_elem_of_fmap
    by by apply Hd.
  exists d. split; [done|]. rewrite Forall_forall in Hf. eapply delivery_opens; eauto.
Qed.

End facts.

(** ** Witnesses: a group of an owner and two members *)

Module samples.

#[local] Existing Instances toy_ed25519 toy_sealing toy_hasher.
#[local] Instance encodable_ser {A} `{!Ser A} : Encodable A | 100 := ser_encodable.

#[local] Instance ser_credentials : Ser EpochCredentials.
Proof.
  refine (ser_inj (B := Bytes * N * Bytes * Bytes)
    (λ c, (group_id c, epoch c, topic c, discovery_secret c))
    (λ '(a, b, c, d), Some (from_parts a b c d)) _).
  by intros [].
Defined.

#[local] Program Instance elements_order : HashMembers := {| hash_members := elements |}.
Next Obligation. done. Qed.

Definition olga : @SecretKey toy_ed25519 := ([x6f] : Bytes).
Definition anna : @SecretKey toy_ed25519 := ([x61] : Bytes).
Definition bert : @SecretKey toy_ed25519 := ([x62] : Bytes).

Definition group : EpochRotationState :=
  add_member (public bert) (add_member (public anna)
    (new (from_parts [x67] 4 [x01] [x02]) (public olga))).

Definition draws (_ : nat) : @StaticSecret toy_ed25519 toy_sealing * option Bytes * N :=
  ([x05] : Bytes, Some (replicate 12 x07), 1000%N).

Definition own_keys : gmap PublicKey MailboxPublicKey :=
  {[public anna := public_key (from_secret anna)]}.

Definition stale_keys : gmap PublicKey MailboxPublicKey :=
  {[public anna := public_key (from_secret bert)]}.

(** Bert is removed. *)
Definition rotation (keys : gmap PublicKey MailboxPublicKey)
    : res EpochRotationError EpochRotation * EpochRotationState :=
  rotate_after_removal olga (public bert) keys [x11] [x12] 77 draws group.

Definition the_rotation (keys : gmap PublicKey MailboxPublicKey) : EpochRotation :=
  match (rotation keys).1 with
  | Ok rot => rot
  | _ => mkRotation (current group) (sign_removed olga [] 0 [] 0) (sign_epoch olga [] 0 0 0) []
  end.

Lemma survivors_only_witness :
  open_for (the_rotation own_keys) (from_secret anna) = Ok (from_parts [x67] 5 [x11] [x12]) ∧
  open_for (the_rotation own_keys) (from_secret bert) = Err NotRecipient.
Proof.
  assert (rotation own_keys = (Ok (the_rotation own_keys), (rotation own_keys).2)) as Hr
    by (vm_compute; reflexivity).
  split.
  - refine (proj1 (survivors_only _ _ _ _ _ _ _ _ _ _ anna Hr) _ _ _ _); by vm_compute.
  - by apply (proj2 (survivors_only _ _ _ _ _ _ _ _ _ _ bert Hr)).
Defined.

Lemma listed_key_decides_witness :
  ∃ d, d ∈ deliveries (the_rotation stale_keys) ∧
    open_delivery d (from_secret bert) = Ok (current (rotation stale_keys).2).
Proof.
  assert (rotation stale_keys = (Ok (the_rotation stale_keys), (rotation stale_keys).2)) as Hr
    by (vm_compute; reflexivity).
  refine (listed_key_decides _ _ _ _ _ _ _ _ _ _ bert (public anna) Hr _ _ _ _ _);
    by vm_compute.
Defined.

End samples.
