(* ===== verification/ShortCode.v ===== *)
(** * Short codes for file shares: [src/short_code.rs]

    [Module short_code] translates the codes (drawing, normalising), the store of grants
    with its file, and the signed announcements.  The bytes of the operating system's random
    generator are a tape; the draw that fails is a [None] on it, and a loop that reads past
    its end has not returned yet.  Unicode upper case beyond ASCII is the interface
    [Uppercase].  The rendezvous topic is a hash of the code. *)

From Stdlib Require Import Strings.Byte NArith.
From stdpp Require Import prelude gmap strings.
From S2P Require Import Prelude Text Signing AtomicWrite Mailbox.

(** [char::to_uppercase] *)
Class Uppercase : Type := {
  upper_char : Char → Text;
  upper_ascii c :
    (c < 128)%N →
    upper_char c = [if decide (97 ≤ c ∧ c ≤ 122)%N then (c - 32)%N else c]
}.

Module short_code.
Import atomic_write.

Definition SHORT_CODES_FILE : Text := txt "short_codes.json".
Definition SHORT_CODE_LEN : nat := 7.
Definition DEFAULT_SHORT_CODE_TTL : N := 15 * 60 * 1000.
Definition CODE_ALPHABET : Text := txt "ABCDEFGHJKMNPQRSTUVWXYZ23456789".
Definition SHORTCODE_DOMAIN_SEPARATOR : Bytes := String.list_byte_of_string "boru-chat/short-code/v1".

Record ShortCodeGrant : Type := mkGrant {
  code : Text;
  ticket : Text;
  name : Text;
  size : N;
  created_at_ms : N;
  expires_at_ms : N;
  used : bool
}.

Definition is_expired (now : N) (g : ShortCodeGrant) : bool := bool_decide (expires_at_ms g < now)%N.

Definition mark_used (g : ShortCodeGrant) : ShortCodeGrant :=
  mkGrant (code g) (ticket g) (name g) (size g) (created_at_ms g) (expires_at_ms g) true.

Inductive ShortCodeError : Type := UnknownCode | Expired | AlreadyUsed | Stale.

Record ResolvedShortCode : Type := mkResolved {
  r_ticket : Text;
  r_name : Text;
  r_size : N
}.

(** ** Drawing codes *)

(** What the random generator yields. *)
Abbreviation Tape := (list (option Byte.byte)).

Definition ALPHABET_LEN : N := N.of_nat (length CODE_ALPHABET).
Definition LIMIT : N := 255 / ALPHABET_LEN * ALPHABET_LEN.

(** The symbol of an accepted byte. *)
Definition symbol (b : Byte.byte) : option Char :=
  if decide (Byte.to_N b < LIMIT)%N
  then CODE_ALPHABET !! N.to_nat (Byte.to_N b mod ALPHABET_LEN)
  else None.

(** [None] when the tape ends, [Some None] when the generator fails. *)
Fixpoint random_alphabet_byte (tape : Tape) : option (option (Char * Tape)) :=
  match tape with
  | [] => None
  | None :: _ => Some None
  | Some b :: tape' =>
      match symbol b with
      | Some c => Some (Some (c, tape'))
      | None => random_alphabet_byte tape'
      end
  end.

Fixpoint draw_code (n : nat) (tape : Tape) : option (option (Text * Tape)) :=
  match n with
  | 0 => Some (Some ([], tape))
  | S n' =>
      match random_alphabet_byte tape with
      | None => None
      | Some None => Some None
      | Some (Some (c, tape')) =>
          match draw_code n' tape' with
          | Some (Some (t, tape'')) => Some (Some (c :: t, tape''))
          | r => r
          end
      end
  end.

Definition generate_code (tape : Tape) : option (option (Text * Tape)) :=
  draw_code SHORT_CODE_LEN tape.

Section codes.
Context `{!Uppercase}.

Definition normalise_code (input : Text) : Text :=
  filter (λ c, is_whitespace c = false ∧ c ≠ 45%N) input ≫= upper_char.

Definition derive_shortcode_topic `{!Hasher} (utf8 : Text → Bytes) (c : Text) : Bytes :=
  blake3 (SHORTCODE_DOMAIN_SEPARATOR ++ utf8 c).

(** ** The store *)

Record ShortCodeStore : Type := mkStore {
  data_dir : Text;
  grants_of : list ShortCodeGrant
}.

Implicit Types (s : ShortCodeStore) (d : Disk).

Definition short_codes_path (dir : Text) : Path := (dir, SHORT_CODES_FILE).

(** How one save goes: which file operations succeed, what a failing write leaves, and the
    process and sequence numbers of its temporary file. *)
Record Io : Type := mkIo {
  io_ok : IoStep → bool;
  io_left : Bytes;
  io_pid : N;
  io_seq : N
}.

Section store.
Context `{!Json (list ShortCodeGrant)}.

(** [None] for a file that cannot be parsed. *)
Definition load_or_default (dir : Text) d : option ShortCodeStore :=
  match d !! short_codes_path dir with
  | None => Some (mkStore dir [])
  | Some f => gs ← from_slice (content f); Some (mkStore dir gs)
  end.

Definition save (io : Io) s d : res WriteError unit * Disk :=
  atomic_write_json (io_ok io) (io_left io) (io_pid io) (io_seq io)
    (short_codes_path (data_dir s)) (grants_of s) d.

Inductive MintError : Type := RngFailure | SaveFailed (e : WriteError).

(** Draws until the code is new.  Each round takes at least one byte, so the length of the
    tape bounds the number of rounds. *)
Fixpoint unused_code (fuel : nat) (gs : list ShortCodeGrant) (tape : Tape)
    : option (option (Text * Tape)) :=
  match fuel with
  | 0 => None
  | S fuel' =>
      match generate_code tape with
      | Some (Some (c, tape')) =>
          if decide (Exists (λ g, code g = c) gs) then unused_code fuel' gs tape'
          else Some (Some (c, tape'))
      | r => r
      end
  end.

(** [now_ms + ttl.as_millis() as u64]; a panic in builds with overflow checks. *)
Definition expiry (checks : bool) (now ttl : N) : outcome N :=
  let sum := (now + ttl mod (u64_max + 1))%N in
  if decide (sum ≤ u64_max)%N then Done sum
  else if checks then Panic else Done (sum mod (u64_max + 1))%N.

(** [None]: the tape ended before a new code was drawn. *)
Definition mint (checks : bool) (tk nm : Text) (sz ttl now : N) (tape : Tape) (io : Io) s d
    : option (res MintError Text * ShortCodeStore * Disk) :=
  match unused_code (S (length tape)) (grants_of s) tape with
  | None => None
  | Some None => Some (Err RngFailure, s, d)
  | Some (Some (c, _)) =>
      match expiry checks now ttl with
      | Panic => Some (Panicked, s, d)
      | Done ex =>
          let s' := mkStore (data_dir s) (grants_of s ++ [mkGrant c tk nm sz now ex false]) in
          match save io s' d with
          | (Ok _, d') => Some (Ok c, s', d')
          | (Err e, d') => Some (Err (SaveFailed e), s', d')
          | (Panicked, d') => Some (Panicked, s', d')
          end
      end
  end.

Definition find_code (c : Text) (gs : list ShortCodeGrant) : option (nat * ShortCodeGrant) :=
  list_find (λ g, code g = c) gs.

Definition resolve (input : Text) (now : N) (io : Io) s d
    : res ShortCodeError ResolvedShortCode * ShortCodeStore * Disk :=
  match find_code (normalise_code input) (grants_of s) with
  | None => (Err UnknownCode, s, d)
  | Some (idx, grant) =>
      if used grant then (Err AlreadyUsed, s, d)
      else if is_expired now grant then (Err Expired, s, d)
      else
        let s' := mkStore (data_dir s) (<[idx := mark_used grant]> (grants_of s)) in
        match save io s' d with
        | (Ok _, d') => (Ok (mkResolved (ticket grant) (name grant) (size grant)), s', d')
        | (Err _, d') => (Err UnknownCode, s', d')
        | (Panicked, d') => (Panicked, s', d')
        end
  end.

Definition lookup_code (input : Text) s : option ShortCodeGrant :=
  snd <$> find_code (normalise_code input) (grants_of s).

Definition remove (input : Text) (io : Io) s d : res WriteError unit * ShortCodeStore * Disk :=
  let s' := mkStore (data_dir s) (filter (λ g, code g ≠ normalise_code input) (grants_of s)) in
  if decide (length (grants_of s') = length (grants_of s)) then (Ok tt, s', d)
  else let '(r, d') := save io s' d in (r, s', d').

Definition grants s : list ShortCodeGrant := reverse (grants_of s).

End store.

(** ** Announcements *)

Record ShortCodeAnnouncement : Type := mkAnnouncement {
  a_code : Text;
  a_name : Text;
  a_ticket : Text;
  a_size : N;
  a_created_at_ms : N
}.

Record ShortCodeFreshnessPolicy : Type := mkPolicy {
  max_age : N;
  max_future_skew : N
}.

(** In seconds *)
Definition DEFAULT_POLICY : ShortCodeFreshnessPolicy := mkPolicy (5 * 60) 60.

Record SignedShortCodeAnnouncement : Type := mkSigned {
  from : PublicKey;
  sent_at_unix_secs : N;
  data : Bytes;
  signature : Bytes
}.

Definition SHORT_CODE_ANNOUNCEMENT_PROTOCOL : string := "boru/short-code-announcement".
Definition SHORT_CODE_ANNOUNCEMENT_VERSION : N := 1.

(** [to_le_bytes] of the lowest [n] bytes *)
Fixpoint to_le (n : nat) (x : N) : Bytes :=
  match n with
  | 0 => []
  | S n' => default x00 (Byte.of_N (x mod 256)) :: to_le n' (x / 256)
  end.

Section announcements.
Context `{!Ed25519, !Encodable (string * N * (N * Bytes))}.
Context `{!Postcard ShortCodeAnnouncement, !Postcard SignedShortCodeAnnouncement}.

Definition signing_bytes (timestamp : N) (data : Bytes) : Bytes :=
  mailbox.expect (protocol_signing.canonical_signed_bytes SHORT_CODE_ANNOUNCEMENT_PROTOCOL
                    SHORT_CODE_ANNOUNCEMENT_VERSION (timestamp, data)).

Definition legacy_signing_bytes (timestamp : N) (data : Bytes) : Bytes :=
  to_le 8 timestamp ++ data.

Definition sign_at (key : SecretKey) (a : ShortCodeAnnouncement) (sent_at : N) : option Bytes :=
  data ← to_stdvec a;
  to_stdvec (mkSigned (public key) sent_at data (sign key (signing_bytes sent_at data))).

Definition verify_signature_only (bytes : Bytes) (expected_code : Text)
    : res ShortCodeError (PublicKey * ShortCodeAnnouncement * N) :=
  e ← ok_or UnknownCode (from_bytes (A := SignedShortCodeAnnouncement) bytes);
  ensure (protocol_signing.verify_canonical_or_legacy (from e) (signature e)
            (signing_bytes (sent_at_unix_secs e) (data e))
            (legacy_signing_bytes (sent_at_unix_secs e) (data e))) UnknownCode;;
  a ← ok_or UnknownCode (from_bytes (A := ShortCodeAnnouncement) (data e));
  ensure (bool_decide (normalise_code (a_code a) = normalise_code expected_code)) UnknownCode;;
  Ok (from e, a, sent_at_unix_secs e).

(** [now] is [None] for a clock before 1970. *)
Definition verify_at (now : option N) (policy : ShortCodeFreshnessPolicy) (bytes : Bytes)
    (expected_code : Text) : res ShortCodeError (PublicKey * ShortCodeAnnouncement) :=
  '(key, a, sent_at) ← verify_signature_only bytes expected_code;
  now_secs ← ok_or Stale now;
  ensure (bool_decide (¬ ((now_secs < sent_at)%N ∧ (max_future_skew policy < sent_at - now_secs)%N)))
    Stale;;
  ensure (bool_decide (¬ ((sent_at < now_secs)%N ∧ (max_age policy < now_secs - sent_at)%N))) Stale;;
  Ok (key, a).

Definition verify (now : option N) (bytes : Bytes) (expected_code : Text)
    : res ShortCodeError (PublicKey * ShortCodeAnnouncement) :=
  verify_at now DEFAULT_POLICY bytes expected_code.

End announcements.
End codes.
End short_code.
