(* ===== verification/ShortCodeFacts.v ===== *)
(** * Correctness of short codes

    Codes are drawn uniformly from the alphabet, a minted code resolves to its ticket in any
    spelling, a code resolves at most once however often the process restarts, and signed
    announcements are accepted exactly within their window. *)

From Stdlib Require Import Strings.Byte NArith.
From stdpp Require Import prelude gmap strings.
From S2P Require Import Prelude Text Signing Concrete AtomicWrite AtomicWriteFacts Mailbox MailboxFacts ShortCode.
Import short_code atomic_write.

(** ** Drawing codes *)

Definition all_bytes : Bytes := omap Byte.of_N (N.of_nat <$> seq 0 256).

Lemma elem_of_all_bytes b : b ∈ all_bytes.
Proof.
  unfold all_bytes. apply list_elem_of_omap. exists (Byte.to_N b). split; [|apply Byte.of_to_N].
  apply list_elem_of_fmap. exists (N.to_nat (Byte.to_N b)). split; [lia|].
  apply elem_of_seq. pose proof (Byte.to_N_bounded b). lia.
Qed.

(** What the drawing loops read from a tape without failures. *)
Lemma random_alphabet_byte_exact bs :
  match random_alphabet_byte (Some <$> bs) with
  | Some (Some (c, tape)) => ∃ bs', tape = Some <$> bs' ∧ omap symbol bs = c :: omap symbol bs' ∧
                               length bs' < length bs
  | Some None => False
  | None => omap symbol bs = []
  end.
Proof.
  induction bs as [|b bs IH]; simpl; [done|]. destruct (symbol b) as [c|] eqn:Hb.
  - exists bs. split_and!; [done..|lia].
  - destruct (random_alphabet_byte _) as [[[c tape]|]|]; [|done..].
    destruct IH as (bs' & ? & ? & ?). exists bs'. split_and!; [done..|lia].
Qed.

Lemma draw_code_exact n bs :
  match draw_code n (Some <$> bs) with
  | Some (Some (t, tape)) =>
      t = take n (omap symbol bs) ∧ length t = n ∧
      ∃ bs', tape = Some <$> bs' ∧ omap symbol bs = t ++ omap symbol bs' ∧
        length bs' + n ≤ length bs
  | Some None => False
  | None => length (omap symbol bs) < n
  end.
Proof.
  revert bs. induction n as [|n IH]; intros bs; simpl.
  { split_and!; [by rewrite take_0|done|]. exists bs. split_and!; [done..|lia]. }
  pose proof (random_alphabet_byte_exact bs) as Hr.
  destruct (random_alphabet_byte _) as [[[c tape]|]|]; [|done|rewrite Hr; simpl; lia].
  destruct Hr as (bs' & -> & -> & Hl). specialize (IH bs').
  destruct (draw_code n _) as [[[t tape']|]|]; [|done|simpl; lia].
  destruct IH as (-> & Hn & bs'' & -> & Heq & Hl'). simpl. split_and!; [done|by f_equal|].
  exists bs''. split_and!; [done|by f_equal|lia].
Qed.

Lemma symbol_in_alphabet b c : symbol b = Some c → c ∈ CODE_ALPHABET.
Proof. unfold symbol. case_decide; [|done]. apply list_elem_of_lookup_2. Qed.

(** A code consists of the first seven symbols the random bytes stand for, and is
    complete as soon as there are seven; every symbol of the alphabet stands for exactly
    eight of the 256 byte values and eight values are skipped, so uniform bytes give uniform
    codes. *)
Theorem codes_uniform bs :
  (match generate_code (Some <$> bs) with
   | Some (Some (t, _)) => t = take 7 (omap symbol bs) ∧ length t = 7 ∧
                           Forall (.∈ CODE_ALPHABET) t
   | Some None => False
   | None => length (omap symbol bs) < 7
   end) ∧
  (∀ c, c ∈ CODE_ALPHABET → length (filter (λ b, symbol b = Some c) all_bytes) = 8) ∧
  length (filter (λ b, symbol b = None) all_bytes) = 8 ∧
  NoDup CODE_ALPHABET ∧ NoDup all_bytes ∧ ∀ b, b ∈ all_bytes.
Proof.
  split_and!.
  - pose proof (draw_code_exact SHORT_CODE_LEN bs) as Hd. unfold generate_code.
    destruct (draw_code _ _) as [[[t tape]|]|]; [|done..]. destruct Hd as (-> & Hl & _).
    split_and!; [done..|]. apply Forall_take, Forall_forall. intros c Hc.
    apply list_elem_of_omap in Hc as (b & _ & Hb). by eapply symbol_in_alphabet.
  - apply Forall_forall. decide_compute.
  - vm_compute. reflexivity.
  - decide_compute.
  - decide_compute.
  - apply elem_of_all_bytes.
Qed.

Section facts.
Context `{!Uppercase}.

(** ** Spelling *)

Lemma alphabet_upper c :
  c ∈ CODE_ALPHABET → upper_char c = [c] ∧ is_whitespace c = false ∧ c ≠ 45%N.
Proof.
  intros Hc.
  assert (Forall (λ c, (c < 128)%N ∧ ¬ (97 ≤ c ∧ c ≤ 122)%N ∧ is_whitespace c = false ∧ c ≠ 45%N)
    CODE_ALPHABET) as Hf by decide_compute.
  rewrite Forall_forall in Hf. destruct (Hf _ Hc) as (Hlt & Hlow & Hw & Hh).
  split_and!; [|done..]. rewrite upper_ascii by done. by rewrite decide_False.
Qed.

Lemma normalise_alphabet t : Forall (.∈ CODE_ALPHABET) t → normalise_code t = t.
Proof.
  unfold normalise_code. induction 1 as [|c t Hc _ IH]; [done|].
  destruct (alphabet_upper c Hc) as (Hu & Hw & Hh). rewrite filter_cons_True by done.
  cbn [mbind list_bind]. by rewrite Hu, IH.
Qed.

(** ** Minting and resolving *)

Context `{!Json (list ShortCodeGrant)}.
Implicit Types (s : ShortCodeStore) (d : Disk) (c : Text) (gs : list ShortCodeGrant).


Lemma random_alphabet_byte_sound tape (x : Char) tape' :
  random_alphabet_byte tape = Some (Some (x, tape')) →
  x ∈ CODE_ALPHABET ∧ length tape' < length tape.
Proof.
  induction tape as [|[b|] tape IH]; simpl; [done| |done].
  destruct (symbol b) as [c'|] eqn:Hb.
  - intros [= <- <-]. split; [by eapply symbol_in_alphabet|lia].
  - intros Hr%IH. destruct Hr. split; [done|lia].
Qed.

Lemma draw_code_sound n tape t tape' :
  draw_code n tape = Some (Some (t, tape')) →
  length t = n ∧ Forall (.∈ CODE_ALPHABET) t ∧ length tape' + n ≤ length tape.
Proof.
  revert tape t. induction n as [|n IH]; intros tape t; simpl.
  { intros [= <- <-]. split_and!; [done..|lia]. }
  destruct (random_alphabet_byte tape) as [[[c tape1]|]|] eqn:Hr; [|done..].
  apply random_alphabet_byte_sound in Hr as [Hc Hl].
  destruct (draw_code n tape1) as [[[t1 tape2]|]|] eqn:Hd; [|done..]. intros [= <- <-].
  apply IH in Hd as (Hn & Hf & Hl'). split_and!; [by simpl; f_equal|by constructor|lia].
Qed.

Lemma unused_code_sound fuel gs tape c tape' :
  unused_code fuel gs tape = Some (Some (c, tape')) →
  Forall (λ g, code g ≠ c) gs ∧ length c = SHORT_CODE_LEN ∧ Forall (.∈ CODE_ALPHABET) c.
Proof.
  revert tape. induction fuel as [|fuel IH]; intros tape; simpl; [done|].
  destruct (generate_code tape) as [[[c1 tape1]|]|] eqn:Hg; [|done..].
  case_decide as He; [apply IH|]. intros [= <- <-].
  apply draw_code_sound in Hg as (Hl & Hf & _). split_and!; [|done..].
  by apply not_Exists_Forall in He; [|apply _].
Qed.

(** More rounds than the tape has bytes make no difference. *)
Lemma unused_code_fuel fuel fuel' gs tape :
  length tape < fuel → fuel ≤ fuel' → unused_code fuel' gs tape = unused_code fuel gs tape.
Proof.
  revert fuel' tape. induction fuel as [|fuel IH]; intros fuel' tape Hl Hle; [lia|].
  destruct fuel' as [|fuel']; [lia|]. simpl.
  destruct (generate_code tape) as [[[c1 tape1]|]|] eqn:Hg; [|done..].
  apply draw_code_sound in Hg as (_ & _ & Hd). unfold SHORT_CODE_LEN in Hd.
  case_decide; [|done]. apply IH; lia.
Qed.

Lemma find_code_snoc c gs g :
  Forall (λ g, code g ≠ c) gs → code g = c → find_code c (gs ++ [g]) = Some (length gs, g).
Proof.
  intros Hf Hg. apply list_find_Some. split_and!; [by rewrite list_lookup_middle|done|].
  intros i g' Hi Hlt. rewrite lookup_app_l in Hi by done.
  rewrite Forall_lookup in Hf. by eapply Hf.
Qed.

(** Minting gives a new code of seven symbols of the alphabet, stored with the ticket
    and its expiry; typed in any way that normalises to it, in particular as it is, it
    resolves to that ticket until it expires, and from then on is refused as used. *)
Theorem minted_code_resolves checks tk nm sz ttl now tape io s d c s' d' :
  mint checks tk nm sz ttl now tape io s d = Some (Ok c, s', d') →
  (now + ttl ≤ u64_max)%N →
  (length c = 7 ∧ Forall (.∈ CODE_ALPHABET) c ∧ Forall (λ g, code g ≠ c) (grants_of s) ∧
   normalise_code c = c) ∧
  ∀ input now' io', normalise_code input = c → (now' ≤ now + ttl)%N →
    let '(r, s2, d2) := resolve input now' io' s' d' in
    (save io' s2 d').1 = Ok tt →
    r = Ok (mkResolved tk nm sz) ∧
    ∀ input' now'' io'', normalise_code input' = c →
      resolve input' now'' io'' s2 d2 = (Err AlreadyUsed, s2, d2).
Proof.
  unfold mint. intros Hm Ht.
  destruct (unused_code _ _ _) as [[[c' rest]|]|] eqn:Hu; [|done..].
  apply unused_code_sound in Hu as (Hf & Hl & Ha).
  unfold expiry in Hm. rewrite N.mod_small, decide_True in Hm by lia.
  set (g := mkGrant c' tk nm sz now (now + ttl) false) in *.
  destruct (save io _ d) as [[u|e|] d1]; simplify_eq/=.
  split; [split_and!; [done..|by apply normalise_alphabet]|].
  intros input now' io' Hin Hnow. unfold resolve. rewrite Hin. cbn [grants_of].
  rewrite (find_code_snoc c _ g) by done. cbn [used g]. unfold is_expired.
  rewrite bool_decide_false by (cbn; lia). cbn [data_dir].
  replace (<[length (grants_of s) := mark_used g]> (grants_of s ++ [g]))
    with (grants_of s ++ [mark_used g]) by (by rewrite insert_app_r_alt, Nat.sub_diag by done).
  set (s2 := mkStore (data_dir s) (grants_of s ++ [mark_used g])).
  destruct (save io' s2 d') as [[u'|e|] d2] eqn:Hs; cbn; rewrite ?Hs; intros Hok; simplify_eq/=.
  split; [done|]. intros input' now'' io'' Hin'. unfold resolve. rewrite Hin'. subst s2. cbn [grants_of].
  pose proof (find_code_snoc _ _ (mark_used g) Hf eq_refl) as Hg. unfold find_code in Hg. by rewrite Hg.
Qed.

(** ** Single use, across restarts *)

(** A process over a directory: its store, once loaded, and the disk. *)
Record Proc : Type := mkProc {
  mem : option ShortCodeStore;
  disk : Disk
}.

Inductive Op : Type :=
| OMint (checks : bool) (tk nm : Text) (sz ttl now : N) (tape : Tape) (io : Io)
| OResolve (input : Text) (now : N) (io : Io)
| ORemove (input : Text) (io : Io)
| ORestart (dir : Text).

(** A code was added to the store; a code was resolved to its ticket. *)
Inductive Event : Type := Minted (c : Text) | Resolved (c : Text).

#[export] Instance event_eq_dec : EqDecision Event.
Proof. solve_decision. Defined.

(** The code that was pushed, if any, whether or not saving it succeeded. *)
Definition minted_by (s s' : ShortCodeStore) : list Event :=
  if decide (length (grants_of s) < length (grants_of s'))
  then Minted ∘ code <$> drop (length (grants_of s)) (grants_of s') else [].

Definition run_op (o : Op) (p : Proc) : list Event * Proc :=
  match o, mem p with
  | ORestart dir, _ => ([], mkProc (load_or_default dir (disk p)) (disk p))
  | _, None => ([], p)
  | OMint checks tk nm sz ttl now tape io, Some s =>
      match mint checks tk nm sz ttl now tape io s (disk p) with
      | Some (_, s', d') => (minted_by s s', mkProc (Some s') d')
      | None => ([], p)
      end
  | OResolve input now io, Some s =>
      let '(r, s', d') := resolve input now io s (disk p) in
      (if is_ok r then [Resolved (normalise_code input)] else [], mkProc (Some s') d')
  | ORemove input io, Some s =>
      let '(_, s', d') := remove input io s (disk p) in ([], mkProc (Some s') d')
  end.

Fixpoint run_ops (ops : list Op) (p : Proc) : list Event * Proc :=
  match ops with
  | [] => ([], p)
  | o :: ops' =>
      let '(evs, p') := run_op o p in
      let '(evs', p'') := run_ops ops' p' in (evs ++ evs', p'')
  end.

(** The grant a code leads to, if any, is used. *)
Definition spent c gs : Prop := ∀ i g, find_code c gs = Some (i, g) → used g = true.

Definition spent_on_disk c (dir : Text) d : Prop :=
  ∀ f gs, d !! short_codes_path dir = Some f → from_slice (content f) = Some gs → spent c gs.

Record spent_everywhere c (dir : Text) (p : Proc) : Prop := mkSpent {
  spent_mem s : mem p = Some s → data_dir s = dir ∧ spent c (grants_of s);
  spent_disk : spent_on_disk c dir (disk p)
}.

Lemma spent_snoc c gs g : spent c gs → code g ≠ c → spent c (gs ++ [g]).
Proof.
  intros Hs Hg i g' Hf. apply (Hs i). unfold find_code in *.
  apply list_find_Some in Hf as (Hi & Hc & Hb). apply list_find_Some.
  rewrite lookup_app in Hi. destruct (gs !! i) as [x|] eqn:Hx.
  - simplify_eq. split_and!; [done..|]. intros j y Hj Hlt. apply (Hb j y); [|done].
    by apply lookup_app_l_Some.
  - apply list_lookup_singleton_Some in Hi as [_ <-]. done.
Qed.

Lemma spent_filter c (P : ShortCodeGrant → Prop) `{!∀ g, Decision (P g)} gs :
  (∀ g, code g = c → P g) → spent c gs → spent c (filter P gs).
Proof.
  intros HP. unfold spent, find_code. induction gs as [|g gs IH]; [done|]. intros Hs i g'.
  rewrite filter_cons. destruct (decide (P g)) as [Hp|Hp].
  - simpl. destruct (decide (code g = c)) as [Hc|Hc].
    + intros [= <- <-]. apply (Hs 0).
      simpl. by rewrite decide_True.
    + intros Hf. apply fmap_Some in Hf as ([j x] & Hf & [= -> ->]).
      eapply IH, Hf. intros k y Hk. apply (Hs (S k)). simpl. rewrite decide_False by done.
      by rewrite Hk.
  - apply IH. intros k y Hk. apply (Hs (S k)). simpl.
    rewrite decide_False by (intros Hc; by apply Hp, HP). by rewrite Hk.
Qed.

Lemma find_code_mark_used c gs idx g c' i x :
  find_code c gs = Some (idx, g) → find_code c' (<[idx := mark_used g]> gs) = Some (i, x) →
  (c' = c ∧ used x = true) ∨ (c' ≠ c ∧ find_code c' gs = Some (i, x)).
Proof.
  unfold find_code. revert idx i. induction gs as [|y gs IH]; intros idx i; simpl; [done|].
  destruct (decide (code y = c)) as [Hc|Hc].
  - intros [= <- <-]. simpl. destruct (decide (code y = c')) as [Hc'|Hc'].
    + intros [= <- <-]. left. split; [congruence|done].
    + intros Hf. right. split; [congruence|done].
  - intros Hf. apply fmap_Some in Hf as ([j z] & Hj & [= -> ->]).
    simpl. destruct (decide (code y = c')) as [Hc'|Hc'].
    + intros Hx. right. split; [congruence|done].
    + intros Hf. apply fmap_Some in Hf as ([k w] & Hk & [= -> ->]).
      destruct (IH _ _ Hj Hk) as [?|[? Hfk]]; [by left|]. right. split; [done|]. by rewrite Hfk.
Qed.

Lemma spent_mark c gs idx g c' :
  find_code c gs = Some (idx, g) → spent c' gs → spent c' (<[idx := mark_used g]> gs).
Proof.
  intros Hf Hs i x Hx. destruct (find_code_mark_used _ _ _ _ _ _ _ Hf Hx) as [[_ ?]|[_ Hx']];
    [done|by eapply Hs].
Qed.

Section single_use.
Variable dir : Text.
Hypothesis normal_id : ∀ gs, normal gs = gs.

Definition here (p : Proc) : Prop := ∀ s, mem p = Some s → data_dir s = dir.

Definition restarts_here (o : Op) : Prop :=
  match o with
  | ORestart dir' => dir' = dir
  | _ => True
  end.

(** Either the file holds the grants of the store, or it is as it was. *)
Lemma save_cases io s d :
  (∃ u f, (save io s d).1 = Ok u ∧ (save io s d).2 !! short_codes_path (data_dir s) = Some f ∧
     from_slice (content f) = Some (grants_of s)) ∨
  (∃ e, (save io s d).1 = Err e ∧
     (save io s d).2 !! short_codes_path (data_dir s) = d !! short_codes_path (data_dir s)).
Proof.
  unfold save.
  pose proof (atomic_write_json_spec (io_ok io) (io_left io) (io_pid io) (io_seq io)
    (short_codes_path (data_dir s)) (grants_of s) d) as Hw.
  destruct Hw as [_ Hw]; [done|]. destruct (atomic_write_json _ _ _ _ _ _ _) as [[u|e|] d'];
    simpl in *; [|by eauto|done].
  left. destruct Hw as (f & Hf & _ & Hc). rewrite normal_id in Hc. eauto.
Qed.

Lemma save_spent c io s d :
  data_dir s = dir → spent c (grants_of s) → spent_on_disk c dir d →
  spent_on_disk c dir (save io s d).2.
Proof.
  intros Hd Hs Hk f gs Hf Hc.
  destruct (save_cases io s d) as [(u & f' & _ & Hf' & Hc')|(e & _ & He)]; rewrite Hd in *.
  - rewrite Hf' in Hf. simplify_eq. done.
  - rewrite He in Hf. by eapply Hk.
Qed.

(** What the operations do to the grants. *)
Lemma mint_cases checks tk nm sz ttl now tape io s d r s' d' :
  mint checks tk nm sz ttl now tape io s d = Some (r, s', d') →
  (s' = s ∧ d' = d) ∨
  ∃ g, s' = mkStore (data_dir s) (grants_of s ++ [g]) ∧ d' = (save io s' d).2.
Proof.
  unfold mint. destruct (unused_code _ _ _) as [[[c rest]|]|]; [|intros [= <- <- <-]; by left|done].
  destruct (expiry checks now ttl) as [ex|]; [|intros [= <- <- <-]; by left].
  intros Hm. right.
  destruct (save io _ d) as [[u|e|] d1] eqn:Hs; simplify_eq; eexists; (split; [reflexivity|]);
    by rewrite Hs.
Qed.

Lemma minted_by_refl s : minted_by s s = [].
Proof. unfold minted_by. by rewrite decide_False by lia. Qed.

Lemma minted_by_snoc s g dir' :
  minted_by s (mkStore dir' (grants_of s ++ [g])) = [Minted (code g)].
Proof.
  unfold minted_by. cbn [grants_of]. rewrite decide_True by (rewrite length_app; simpl; lia).
  by rewrite drop_app_length.
Qed.

Lemma resolve_cases input now io s d :
  let '(r, s', d') := resolve input now io s d in
  let c := normalise_code input in
  (is_ok r = false ∧ s' = s ∧ d' = d) ∨
  ∃ idx g, find_code c (grants_of s) = Some (idx, g) ∧ used g = false ∧
    s' = mkStore (data_dir s) (<[idx := mark_used g]> (grants_of s)) ∧ d' = (save io s' d).2 ∧
    is_ok r = is_ok (save io s' d).1.
Proof.
  unfold resolve. destruct (find_code _ _) as [[idx g]|]; [|by eauto].
  destruct (used g) eqn:Hu; [by eauto|]. destruct (is_expired now g); [by eauto|].
  destruct (save io _ d) as [[u|e|] d1] eqn:Hs; right; exists idx, g; by rewrite Hs.
Qed.

Lemma load_spent c d s :
  spent_on_disk c dir d → load_or_default dir d = Some s → data_dir s = dir ∧ spent c (grants_of s).
Proof.
  intros Hk Hs. unfold load_or_default in Hs. destruct (d !! _) as [f|] eqn:Hf.
  - destruct (from_slice (content f)) as [gs|] eqn:Hg; simplify_eq/=. split; [done|]. by eapply Hk.
  - simplify_eq/=. split; [done|]. by intros i g Hi.
Qed.

(** The store after an operation that saved it, or tried to. *)
Lemma saved_spent c io s d :
  data_dir s = dir → spent c (grants_of s) → spent_on_disk c dir d →
  spent_everywhere c dir (mkProc (Some s) (save io s d).2).
Proof. intros Hd Hs Hk. split; simpl; [by intros ? [= <-]|]. by apply save_spent. Qed.

Lemma remove_spent c input io s d :
  data_dir s = dir → spent c (grants_of s) → spent_on_disk c dir d →
  spent_everywhere c dir (run_op (ORemove input io) (mkProc (Some s) d)).2.
Proof.
  intros Hd Hs Hk. simpl. unfold remove.
  set (s' := mkStore (data_dir s) (filter (λ g, code g ≠ normalise_code input) (grants_of s))).
  assert (spent c (grants_of s')) as Hs'.
  { destruct (decide (c = normalise_code input)) as [->|Hne].
    - intros i g Hf. unfold find_code in Hf. apply list_find_Some in Hf as (Hi & Hc & _).
      apply list_elem_of_lookup_2, list_elem_of_filter in Hi. by destruct Hi.
    - apply spent_filter; [congruence|done]. }
  case_decide; [by split; [intros ? [= <-]|]|].
  pose proof (saved_spent c io s' d Hd Hs' Hk) as Hp. by destruct (save io s' d).
Qed.

(** A spent code stays spent and does not resolve, unless it is minted anew. *)
Lemma run_op_spent c o p :
  restarts_here o → spent_everywhere c dir p → Minted c ∉ (run_op o p).1 →
  spent_everywhere c dir (run_op o p).2 ∧ Resolved c ∉ (run_op o p).1.
Proof.
  intros Hr Hp Hn. destruct o as [checks tk nm sz ttl now tape io|input now io|input io|dir'].
  4: { simpl in Hr. subst. split; [|apply not_elem_of_nil]. destruct Hp as [_ Hk].
       split; [|done]. intros s Hs. by eapply load_spent. }
  all: destruct p as [[s|] d]; [|by split; [|apply not_elem_of_nil]];
    pose proof Hp as [Hm Hk]; destruct (Hm s eq_refl) as [Hd Hs]; simpl in *.
  - destruct (mint _ _ _ _ _ _ _ _ _ _) as [[[r s'] d']|] eqn:Hmint;
      [|by split; [|apply not_elem_of_nil]].
    apply mint_cases in Hmint as [[-> ->]|(g & -> & ->)]; simpl in *.
    + rewrite minted_by_refl. by split; [|apply not_elem_of_nil].
    + rewrite minted_by_snoc in *. split; [|by rewrite list_elem_of_singleton].
      apply saved_spent; [done| |done].
      apply spent_snoc; [done|]. intros Heq. apply Hn. rewrite Heq. by left.
  - pose proof (resolve_cases input now io s d) as Hc. cbn zeta in Hc.
    destruct (resolve input now io s d) as [[r s'] d']. simpl in *.
    destruct Hc as [(-> & -> & ->)|(idx & g & Hf & Hu & -> & -> & ->)];
      [by split; [|apply not_elem_of_nil]|].
    assert (c ≠ normalise_code input) as Hne.
    { intros ->. apply Hs in Hf. congruence. }
    split; [apply saved_spent; [done|by eapply spent_mark|done]|].
    destruct (is_ok (save io _ d).1); [|apply not_elem_of_nil].
    rewrite list_elem_of_singleton. congruence.
  - split; [|by destruct (remove input io s d) as [[r s'] d']; apply not_elem_of_nil].
    by apply remove_spent.
Qed.

(** A code that has just been resolved is spent, in memory and on disk. *)
Lemma run_op_resolved c o p :
  here p → Resolved c ∈ (run_op o p).1 → spent_everywhere c dir (run_op o p).2.
Proof.
  intros Hh Hin. destruct o as [checks tk nm sz ttl now tape io|input now io|input io|dir'];
    destruct p as [[s|] d]; simpl in *; try by apply not_elem_of_nil in Hin.
  - destruct (mint _ _ _ _ _ _ _ _ _ _) as [[[r s'] d']|] eqn:Hmint;
      [|by apply not_elem_of_nil in Hin].
    apply mint_cases in Hmint as [[-> ->]|(g & -> & ->)]; simpl in *.
    + rewrite minted_by_refl in Hin. by apply not_elem_of_nil in Hin.
    + rewrite minted_by_snoc in Hin. by apply list_elem_of_singleton in Hin.
  - pose proof (resolve_cases input now io s d) as Hc. cbn zeta in Hc.
    destruct (resolve input now io s d) as [[r s'] d']. simpl in *.
    destruct (is_ok r); [|by apply not_elem_of_nil in Hin].
    apply list_elem_of_singleton in Hin as [= ->].
    destruct Hc as [[? _]|(idx & g & Hf & Hu & -> & -> & Hok)]; [done|].
    set (s' := mkStore (data_dir s) (<[idx := mark_used g]> (grants_of s))) in *.
    assert (spent (normalise_code input) (grants_of s')) as Hs'.
    { intros i x Hx. destruct (find_code_mark_used _ _ _ _ _ _ _ Hf Hx) as [[_ ?]|[? _]]; done. }
    split; simpl; [intros ? [= <-]; split; [exact (Hh s eq_refl)|done]|].
    intros f gs Hfl Hgs.
    destruct (save_cases io s' d) as [(u & f' & _ & Hf' & Hc')|(e & He & _)].
    + change (data_dir s') with (data_dir s) in Hf'. rewrite (Hh s) in Hf' by done.
      rewrite Hf' in Hfl. by simplify_eq.
    + by rewrite He in Hok.
  - by destruct (remove input io s d) as [[r s'] d']; apply not_elem_of_nil in Hin.
Qed.

Lemma run_op_here o p : restarts_here o → here p → here (run_op o p).2.
Proof.
  intros Hr Hh. destruct o as [checks tk nm sz ttl now tape io|input now io|input io|dir'].
  4: { intros s Hs. simpl in Hr, Hs. subst. unfold load_or_default in Hs.
       destruct (disk p !! _) as [f|]; [|by simplify_eq].
       by destruct (from_slice (content f)); simplify_eq/=. }
  all: destruct p as [[s|] d]; [|done]; simpl.
  - destruct (mint _ _ _ _ _ _ _ _ _ _) as [[[r s'] d']|] eqn:Hmint; [|done].
    intros x [= <-]. apply mint_cases in Hmint as [[-> ->]|(g & -> & ->)]; exact (Hh s eq_refl).
  - pose proof (resolve_cases input now io s d) as Hc. cbn zeta in Hc.
    destruct (resolve input now io s d) as [[r s'] d']. intros x [= <-].
    destruct Hc as [(_ & -> & _)|(idx & g & _ & _ & -> & _)]; exact (Hh s eq_refl).
  - intros x. unfold remove. case_decide; simpl; [|destruct (save _ _ _)]; intros [= <-]; exact (Hh s eq_refl).
Qed.

(** Every operation reports at most one event. *)
Lemma run_op_events o p : (run_op o p).1 = [] ∨ ∃ e, (run_op o p).1 = [e].
Proof.
  destruct o as [checks tk nm sz ttl now tape io|input now io|input io|dir'];
    destruct p as [[s|] d]; simpl; try by left.
  - destruct (mint _ _ _ _ _ _ _ _ _ _) as [[[r s'] d']|] eqn:Hmint; [|by left].
    apply mint_cases in Hmint as [[-> ->]|(g & -> & ->)]; simpl;
      rewrite ?minted_by_refl, ?minted_by_snoc; eauto.
  - destruct (resolve input now io s d) as [[r s'] d']. destruct (is_ok r); eauto.
  - destruct (remove input io s d) as [[r s'] d']. by left.
Qed.

Lemma spent_needs_minting c ops p l l' :
  Forall restarts_here ops → spent_everywhere c dir p →
  (run_ops ops p).1 = l ++ Resolved c :: l' → Minted c ∈ l.
Proof.
  revert p l. induction ops as [|o ops IH]; intros p l Hr Hp; simpl; [by destruct l|].
  apply Forall_cons in Hr as [Ho Hr]. pose proof (run_op_spent c o p Ho Hp) as Hstep.
  destruct (run_op_events o p) as [He|[e He]]; destruct (run_op o p) as [evs p']; simpl in *; subst.
  - destruct (run_ops ops p') as [evs' p''] eqn:Hrun. simpl. intros ->.
    apply (IH p'); [done|apply Hstep, not_elem_of_nil|]. by rewrite Hrun.
  - destruct (run_ops ops p') as [evs' p''] eqn:Hrun. simpl.
    destruct (decide (Minted c ∈ [e])) as [<-%list_elem_of_singleton|Hne].
    { destruct l as [|e' l]; intros Heq; simplify_eq/=. by left. }
    destruct (Hstep Hne) as [Hp' Hnr]. destruct l as [|e' l]; intros Heq; simplify_eq/=.
    { destruct Hnr. by left. }
    right. apply (IH p'); [done..|]. by rewrite Hrun.
Qed.

(** C17: A code is used once.  In every history of minting, resolving and removing codes and
    of restarts that reload the file, whatever saves fail, between two successful
    resolutions of the same code that code is minted anew. *)
Theorem resolved_at_most_once c ops p l1 l2 l3 :
  Forall restarts_here ops → here p →
  (run_ops ops p).1 = l1 ++ Resolved c :: l2 ++ Resolved c :: l3 → Minted c ∈ l2.
Proof.
  revert p l1. induction ops as [|o ops IH]; intros p l1 Hr Hh; simpl; [by destruct l1|].
  apply Forall_cons in Hr as [Ho Hr]. pose proof (run_op_here o p Ho Hh) as Hh'.
  pose proof (run_op_resolved c o p Hh) as Hres.
  destruct (run_op_events o p) as [He|[e He]]; destruct (run_op o p) as [evs p']; simpl in *; subst.
  - destruct (run_ops ops p') as [evs' p''] eqn:Hrun. simpl. intros ->.
    apply (IH p' l1); [done..|]. by rewrite Hrun.
  - destruct (run_ops ops p') as [evs' p''] eqn:Hrun. simpl. destruct l1 as [|e' l1]; intros Heq;
      simplify_eq/=.
    + eapply (spent_needs_minting c ops p'); [done|apply Hres; by left|]. by rewrite Hrun.
    + apply (IH p' l1); [done..|]. by rewrite Hrun.
Qed.

End single_use.

(** ** Announcements *)

Section announcements.
Context `{!Ed25519, !Encodable (string * N * (N * Bytes))}.
Context `{!Postcard ShortCodeAnnouncement, !Postcard SignedShortCodeAnnouncement}.

(** What a bound on age and skew allows. *)
Definition within_window (policy : ShortCodeFreshnessPolicy) (now sent : N) : Prop :=
  (sent ≤ now + max_future_skew policy)%N ∧ (now ≤ sent + max_age policy)%N.

#[export] Instance within_window_dec policy now sent : Decision (within_window policy now sent).
Proof. unfold within_window. apply _. Defined.

Lemma verify_at_fresh now policy bytes expected key a sent :
  verify_signature_only bytes expected = Ok (key, a, sent) →
  verify_at (Some now) policy bytes expected =
  if decide (within_window policy now sent) then Ok (key, a) else Err Stale.
Proof.
  intros Hv. unfold verify_at, mbind, res_bind. rewrite Hv. simpl.
  unfold within_window. destruct (decide (max_future_skew policy < sent - now)%N) as [Hs|Hs].
  { rewrite bool_decide_false, decide_False by lia. done. }
  rewrite bool_decide_true by lia. simpl.
  destruct (decide (max_age policy < now - sent)%N) as [Ha|Ha].
  - rewrite bool_decide_false, decide_False by lia. done.
  - rewrite bool_decide_true, decide_True by lia. done.
Qed.

(** An announcement signed by a sender is accepted for its code, in any spelling,
    exactly while it is neither older than the maximal age nor further in the future than
    the allowed skew, both bounds included, and then yields the sender and the announcement;
    outside the window it is refused as stale, with a clock before 1970 always, and for
    another code it is unknown. *)
Theorem announcement_window_exact key a sent bytes policy expected :
  sign_at key a sent = Some bytes →
  verify_at None policy bytes expected =
    (if decide (normalise_code (a_code a) = normalise_code expected) then Err Stale
     else Err UnknownCode) ∧
  ∀ now, verify_at (Some now) policy bytes expected =
    if decide (normalise_code (a_code a) = normalise_code expected) then
      if decide (within_window policy now sent) then Ok (public key, a) else Err Stale
    else Err UnknownCode.
Proof.
  unfold sign_at. intros Hs. destruct (to_stdvec a) as [data|] eqn:Ha; [|done].
  simpl in Hs. apply postcard_roundtrip in Hs, Ha.
  assert (verify_signature_only bytes expected =
    if decide (normalise_code (a_code a) = normalise_code expected)
    then Ok (public key, a, sent) else Err UnknownCode) as Hv.
  { unfold verify_signature_only, mbind, res_bind. rewrite Hs. simpl.
    rewrite protocol_signing.verify_signed, Ha. simpl.
    case_decide; [by rewrite bool_decide_true|by rewrite bool_decide_false]. }
  split; [|intros now]; case_decide.
  - unfold verify_at, mbind, res_bind. by rewrite Hv.
  - unfold verify_at, mbind, res_bind. by rewrite Hv.
  - by apply verify_at_fresh.
  - unfold verify_at, mbind, res_bind. by rewrite Hv.
Qed.

End announcements.
End facts.

(** ** Witnesses *)

Module samples.

#[local] Existing Instance toy_ed25519.
#[local] Instance encodable_ser {A} `{!Ser A} : Encodable A | 100 := ser_encodable.

(** Upper case of ASCII letters only. *)
#[local] Instance ascii_upper : Uppercase :=
  {| upper_char c := [if decide (97 ≤ c ∧ c ≤ 122)%N then (c - 32)%N else c];
     upper_ascii c _ := eq_refl |}.

#[local] Instance ser_bool : Ser bool.
Proof.
  refine (ser_inj (λ b : bool, if b then 1 else 0)%N (λ n, Some (bool_decide (n = 1%N))) _).
  by intros [].
Defined.

#[local] Instance ser_grant : Ser ShortCodeGrant.
Proof.
  refine (ser_inj (B := Text * Text * Text * N * N * N * bool)
    (λ g, (code g, ticket g, name g, size g, created_at_ms g, expires_at_ms g, used g))
    (λ '(a, b, c, d, e, f, u), Some (mkGrant a b c d e f u)) _).
  by intros [].
Defined.

#[local] Instance grants_json : Json (list ShortCodeGrant) := toy_json (λ gs, gs).

#[local] Instance ser_announcement : Ser ShortCodeAnnouncement.
Proof.
  refine (ser_inj (B := Text * Text * Text * N * N)
    (λ a, (a_code a, a_name a, a_ticket a, a_size a, a_created_at_ms a))
    (λ '(a, b, c, d, e), Some (mkAnnouncement a b c d e)) _).
  by intros [].
Defined.

#[local] Instance ser_signed : Ser SignedShortCodeAnnouncement.
Proof.
  refine (ser_inj (B := Bytes * N * Bytes * Bytes)
    (λ e, (from e, sent_at_unix_secs e, data e, signature e))
    (λ '(a, b, c, d), Some (mkSigned a b c d)) _).
  by intros [].
Defined.

Definition fine (n : N) : Io := mkIo (λ _, true) [] 7 n.

(** Bytes for the code BCDEFGH; 250 is skipped. *)
Definition tape : Tape := Some <$> [x01; xfa; x02; x03; x04; x05; x06; x07].

Definition empty_store : ShortCodeStore := mkStore (txt "d") [].

Definition minted : ShortCodeStore :=
  mkStore (txt "d") [mkGrant (txt "BCDEFGH") (txt "tk") (txt "nm") 3 100 1100 false].

Lemma minted_code_resolves_witness :
  let d' := (save (fine 0) minted ∅).2 in
  let '(r, s2, d2) := resolve (txt "bcd-efgh") 500 (fine 1) minted d' in
  r = Ok (mkResolved (txt "tk") (txt "nm") 3) ∧
  resolve (txt "BCD EFGH") 600 (fine 2) s2 d2 = (Err AlreadyUsed, s2, d2).
Proof.
  intros d'.
  assert (mint true (txt "tk") (txt "nm") 3 1000 100 tape (fine 0) empty_store ∅ =
    Some (Ok (txt "BCDEFGH"), minted, d')) as Hm by (vm_compute; reflexivity).
  destruct (minted_code_resolves true (txt "tk") (txt "nm") 3 1000 100 tape (fine 0) empty_store ∅
    (txt "BCDEFGH") minted d' Hm) as [_ Hr]; [by vm_compute|].
  specialize (Hr (txt "bcd-efgh") 500%N (fine 1) eq_refl).
  destruct (resolve (txt "bcd-efgh") 500 (fine 1) minted d') as [[r s2] d2] eqn:He.
  destruct Hr as [Hok Hu]; [by vm_compute| |].
  - assert (s2 = (resolve (txt "bcd-efgh") 500 (fine 1) minted d').1.2) as -> by by rewrite He.
    vm_compute. reflexivity.
  - split; [exact Hok|]. by apply Hu.
Defined.

(** Minted, resolved, tried again before and after a restart, minted again. *)
Definition history : list Op :=
  [OMint true (txt "tk") (txt "nm") 3 1000 100 tape (fine 0);
   OResolve (txt "bcdefgh") 200 (fine 1); OResolve (txt "bcdefgh") 210 (fine 2);
   ORestart (txt "d"); OResolve (txt "bcdefgh") 220 (fine 3);
   ORemove (txt "bcdefgh") (fine 4);
   OMint true (txt "tk") (txt "nm") 3 1000 300 tape (fine 5);
   OResolve (txt "bcdefgh") 400 (fine 6)].

Lemma resolved_at_most_once_witness : Minted (txt "BCDEFGH") ∈ [Minted (txt "BCDEFGH")].
Proof.
  refine (resolved_at_most_once (txt "d") (λ gs, eq_refl) (txt "BCDEFGH") history
    (mkProc (Some empty_store) ∅) [Minted (txt "BCDEFGH")] _ [] _ _ _).
  - repeat constructor.
  - intros s [= <-]. reflexivity.
  - vm_compute. reflexivity.
Defined.

Definition sender : @SecretKey toy_ed25519 := ([x61] : Bytes).

Definition announcement : ShortCodeAnnouncement :=
  mkAnnouncement (txt "BCDEFGH") (txt "nm") (txt "tk") 3 100.

Definition announced : Bytes := default [] (sign_at sender announcement 1000).

Lemma announcement_window_exact_witness :
  verify_at (Some 1300%N) DEFAULT_POLICY announced (txt "bcd efgh") = Ok (public sender, announcement) ∧
  verify_at (Some 1301%N) DEFAULT_POLICY announced (txt "bcd efgh") = Err Stale.
Proof.
  destruct (announcement_window_exact sender announcement 1000 announced DEFAULT_POLICY
    (txt "bcd efgh")) as [_ Hw]; [vm_compute; reflexivity|].
  split; rewrite Hw; vm_compute; reflexivity.
Defined.

End samples.
