(* ===== verification/Destination.v ===== *)
(** * Where downloads are written: [src/path_containment.rs], [src/safe_destination.rs]

    [Module paths] models what the code uses of [std::path] on Unix (a path is the list of
    its components) and of the file system: a tree of directories, files and symbolic links,
    with the resolution of links the kernel does.  [Module path_containment] and
    [Module safe_destination] translate the two files.  A file has an identity (device and
    inode); whether the operating system refuses a creation for other reasons is an argument.
    Access rights are not modelled. *)

From Stdlib Require Import Strings.Byte NArith.
From stdpp Require Import prelude gmap strings.
From S2P Require Import Prelude Text Signing AtomicWrite Mailbox ShortCode.

Module paths.

(** ** Paths *)

Inductive Component : Type := RootDir | CurDir | ParentDir | Normal (t : Text).

#[export] Instance component_eq_dec : EqDecision Component.
Proof. solve_decision. Defined.

Abbreviation Path := (list Component).

Definition SEP : Char := 47.
Definition DOT : Char := 46.
Definition BACKSLASH : Char := 92.

(** [str::split] at a character *)
Fixpoint split_at (c : Char) (t : Text) : list Text :=
  match t with
  | [] => [[]]
  | x :: t' =>
      if decide (x = c) then [] :: split_at c t'
      else match split_at c t' with
           | p :: ps => (x :: p) :: ps
           | [] => [[x]]
           end
  end.

(** A piece between separators; empty ones and dots are dropped. *)
Definition piece (t : Text) : option Component :=
  if decide (t = []) then None
  else if decide (t = [DOT]) then None
  else if decide (t = [DOT; DOT]) then Some ParentDir
  else Some (Normal t).

(** [Path::components] *)
Definition components (t : Text) : Path :=
  match t with
  | c :: t' =>
      if decide (c = SEP) then RootDir :: omap piece (split_at SEP t')
      else match split_at SEP t with
           | p :: ps => if decide (p = [DOT]) then CurDir :: omap piece ps
                        else omap piece (p :: ps)
           | [] => []
           end
  | [] => []
  end.

Definition is_absolute (p : Path) : bool := bool_decide (head p = Some RootDir).

(** [Path::join] *)
Definition join (p : Path) (t : Text) : Path :=
  let c := components t in
  if is_absolute c then c
  else match p, c with
       | [], _ => c
       | _, CurDir :: c' => p ++ c'
       | _, _ => p ++ c
       end.

Definition file_name (p : Path) : option Text :=
  match last p with
  | Some (Normal t) => Some t
  | _ => None
  end.

Definition parent (p : Path) : option Path :=
  match last p with
  | Some (Normal _) | Some CurDir | Some ParentDir => Some (removelast p)
  | _ => None
  end.

Definition starts_with (p q : Path) : bool := bool_decide (q `prefix_of` p).

(** ** The file system *)

Inductive Node : Type :=
| Dir
| File (inode : N)
| Link (target : Text).

#[export] Instance node_eq_dec : EqDecision Node.
Proof. solve_decision. Defined.

(** Places are the names below the root; the root is a directory. *)
Abbreviation Place := (list Text).

Record Fs : Type := mkFs {
  cwd : Place;
  nodes : gmap Place Node
}.

Definition node_at (fs : Fs) (d : Place) : option Node :=
  if decide (d = []) then Some Dir else nodes fs !! d.

Definition MAX_LINKS : nat := 40.

(** Follows a path from a place, component by component; a link is followed at most
    [links] times in all. *)
Fixpoint walk (fs : Fs) (links : nat) : Place → Path → option Place :=
  fix go (here : Place) (todo : Path) {struct todo} : option Place :=
    match todo with
    | [] => Some here
    | RootDir :: rest => go [] rest
    | CurDir :: rest => go here rest
    | ParentDir :: rest => go (removelast here) rest
    | Normal t :: rest =>
        match node_at fs (here ++ [t]) with
        | None => None
        | Some Dir => go (here ++ [t]) rest
        | Some (File _) => if decide (rest = []) then Some (here ++ [t]) else None
        | Some (Link target) =>
            match links with
            | 0 => None
            | S links' => walk fs links' here (components target ++ rest)
            end
        end
    end.

Definition to_path (d : Place) : Path := RootDir :: (Normal <$> d).

Definition canonicalize (fs : Fs) (p : Path) : option Path :=
  to_path <$> walk fs MAX_LINKS (cwd fs) p.

(** [Path::exists]: links are followed. *)
Definition exists_at (fs : Fs) (p : Path) : bool :=
  bool_decide (is_Some (walk fs MAX_LINKS (cwd fs) p)).

(** The place a path names when its last component is not followed. *)
Definition place_of (fs : Fs) (p : Path) : option Place :=
  match last p with
  | Some (Normal t) =>
      d ← walk fs MAX_LINKS (cwd fs) (removelast p);
      if decide (node_at fs d = Some Dir) then Some (d ++ [t]) else None
  | _ => walk fs MAX_LINKS (cwd fs) p
  end.

(** [std::fs::symlink_metadata] and [std::fs::read_link] *)
Definition symlink_metadata (fs : Fs) (p : Path) : option Node :=
  place_of fs p ≫= node_at fs.

(** [std::fs::metadata]: the identity of the file the path leads to. *)
Definition metadata (fs : Fs) (p : Path) : option Node :=
  walk fs MAX_LINKS (cwd fs) p ≫= node_at fs.

Definition set_node (d : Place) (n : Node) (fs : Fs) : Fs :=
  mkFs (cwd fs) (<[d := n]> (nodes fs)).

Definition unset_node (d : Place) (fs : Fs) : Fs :=
  mkFs (cwd fs) (delete d (nodes fs)).

End paths.

Module path_containment.
Import paths.

(** The rest of the path is joined again, last component first. *)
Fixpoint canonicalize_from (fuel : nat) (fs : Fs) (path cur : Path) (tail : list Text) : Path :=
  match canonicalize fs cur with
  | Some canon => canon ++ (Normal <$> reverse tail)
  | None =>
      match fuel, file_name cur, parent cur with
      | S fuel', Some name, Some up => canonicalize_from fuel' fs path up (tail ++ [name])
      | _, _, _ => path
      end
  end.

(** Each round drops a component. *)
Definition canonicalize_allow_missing (fs : Fs) (path : Path) : Path :=
  canonicalize_from (length path) fs path path [].

Definition is_path_contained (fs : Fs) (path root : Path) : bool :=
  starts_with (canonicalize_allow_missing fs path) (canonicalize_allow_missing fs root).

Definition symlink_is_safe (fs : Fs) (path root : Path) : bool :=
  match symlink_metadata fs path with
  | None => false
  | Some (Link target) =>
      let resolved :=
        if is_absolute (components target) then components target
        else join (default [CurDir] (parent path)) target in
      is_path_contained fs resolved root
  | Some _ => true
  end.

End path_containment.

Module safe_destination.
Import paths path_containment.

Definition MAX_DEDUP_ATTEMPTS : nat := N.to_nat 10000.

Inductive DestError : Type :=
| NotAbsolute
| DirectoryReference
| DriveLetter
| Escapes
| NoFileName
| Exhausted
| NoParent
| EmptyName
| Io.

Inductive OverwritePolicy : Type := KeepBoth | Overwrite | SkipExisting.

#[export] Instance overwrite_policy_eq_dec : EqDecision OverwritePolicy.
Proof. solve_decision. Defined.

Section names.
Context `{!Uppercase}.

(** [chars().filter(|c| c != '/' && c != '\\')] *)
Definition strip (t : Text) : Text := filter (λ c, c ≠ SEP ∧ c ≠ BACKSLASH) t.

(** [to_uppercase] *)
Definition to_uppercase (t : Text) : Text := t ≫= upper_char.

Definition RESERVED : list Text :=
  [txt "CON"; txt "PRN"; txt "AUX"; txt "NUL";
   txt "COM1"; txt "COM2"; txt "COM3"; txt "COM4"; txt "COM5"; txt "COM6"; txt "COM7"; txt "COM8";
   txt "COM9"; txt "LPT1"; txt "LPT2"; txt "LPT3"; txt "LPT4"; txt "LPT5"; txt "LPT6"; txt "LPT7";
   txt "LPT8"; txt "LPT9"].

Definition is_reserved_platform_name (name : Text) : bool :=
  bool_decide (to_uppercase (default name (head (split_at DOT name))) ∈ RESERVED).

Definition is_all_dots (name : Text) : bool :=
  bool_decide (name ≠ []) && forallb (λ c, bool_decide (c = DOT)) name.

(** [rsplit_once('.')] and [rfind('.')]: what is before and after the last dot. *)
Fixpoint last_dot (t : Text) : option (Text * Text) :=
  match t with
  | [] => None
  | c :: t' =>
      match last_dot t' with
      | Some (a, b) => Some (c :: a, b)
      | None => if decide (c = DOT) then Some ([], t') else None
      end
  end.

Definition sanitise_filename (name fallback_stem : Text) : Text :=
  let cleaned := strip name in
  if forallb is_whitespace cleaned then fallback_stem
  else if is_reserved_platform_name cleaned || is_all_dots cleaned then
    let stem := default [] (snd <$> last_dot cleaned) in
    if bool_decide (stem ≠ []) && negb (is_reserved_platform_name stem) && negb (is_all_dots stem)
    then fallback_stem ++ [DOT] ++ stem
    else fallback_stem
  else cleaned.

(** The second byte is a colon only after a one-byte character. *)
Definition check_traversal (name : Text) : res DestError unit :=
  if decide (name = [DOT; DOT] ∨ name = [DOT]) then Err DirectoryReference
  else match name with
       | drive :: 58%N :: _ =>
           if decide ((65 ≤ drive ≤ 90)%N ∨ (97 ≤ drive ≤ 122)%N) then Err DriveLetter else Ok tt
       | _ => Ok tt
       end.

Definition dedup_name (filename : Text) (n : N) : Text :=
  if decide (n = 0%N) then filename
  else
    let '(stem, ext) :=
      match last_dot filename with
      | Some (base, suffix) =>
          if decide (base = []) then (filename, []) else (base, DOT :: suffix)
      | None => (filename, [])
      end in
    stem ++ txt " (" ++ decimal n ++ txt ")" ++ ext.

(** ** Paths only *)

Implicit Types (fs : Fs) (dir path : Path).

Definition safe_destination_path_no_dedup fs dir (display_name fallback_stem : Text)
    : res DestError Path :=
  if is_absolute dir then
    check_traversal (strip display_name);;
    let candidate := join dir (sanitise_filename display_name fallback_stem) in
    if starts_with (canonicalize_allow_missing fs candidate) (canonicalize_allow_missing fs dir)
    then Ok candidate else Err Escapes
  else Err NotAbsolute.

(** The first free variant from number [i] on. *)
Fixpoint dedup_from (attempts : nat) fs (up : Path) (filename : Text) (i : N) : res DestError Path :=
  match attempts with
  | 0 => Err Exhausted
  | S attempts' =>
      let candidate := join up (dedup_name filename i) in
      if exists_at fs candidate then dedup_from attempts' fs up filename (i + 1) else Ok candidate
  end.

Definition deduplicate_path fs path (max_attempts : nat) : res DestError Path :=
  if exists_at fs path then
    match file_name path with
    | None => Err NoFileName
    | Some filename => dedup_from max_attempts fs (default [] (parent path)) filename 1
    end
  else Ok path.

Definition safe_destination_path fs dir (display_name fallback_stem : Text) : res DestError Path :=
  candidate ← safe_destination_path_no_dedup fs dir display_name fallback_stem;
  deduplicate_path fs candidate MAX_DEDUP_ATTEMPTS.

Definition prepare_download_destination fs dir (display_name content_hash : Text)
    : res DestError Path :=
  dest ← safe_destination_path fs dir display_name content_hash;
  match file_name dest with
  | None | Some [] => Err EmptyName
  | Some _ => Ok dest
  end.

Inductive DestinationDecision : Type := UsePath (path : Path) | SkipDownload.

Definition resolve_destination_with_policy fs dir (display_name fallback_stem : Text)
    (policy : OverwritePolicy) : res DestError DestinationDecision :=
  exact ← safe_destination_path_no_dedup fs dir display_name fallback_stem;
  match policy with
  | KeepBoth => p ← deduplicate_path fs exact MAX_DEDUP_ATTEMPTS; Ok (UsePath p)
  | Overwrite => Ok (UsePath exact)
  | SkipExisting => if exists_at fs exact then Ok SkipDownload else Ok (UsePath exact)
  end.

(** ** Reservations *)

Record ReservedDestination : Type := mkReserved {
  file : option N;
  write_path : Path;
  final_path : Path;
  rename_on_publish : bool;
  published : bool
}.

Inductive Reservation : Type := Use (r : ReservedDestination) | Skip.

Inductive IoError : Type := AlreadyExists | OtherIo.

(** [O_EXCL]: nothing, not even a link, may be there.  [refused] is a refusal for another
    reason, [inode] the identity of the new file. *)
Definition open_exclusive_at fs dir (name : Text) (refused : bool) (inode : N)
    : res IoError Fs :=
  match place_of fs (join dir name) with
  | None => Err OtherIo
  | Some place =>
      match node_at fs place with
      | Some _ => Err AlreadyExists
      | None => if refused then Err OtherIo else Ok (set_node place (File inode) fs)
      end
  end.

(** [refused n] is what the operating system answers to attempt [n]. *)
Fixpoint reserve_from (attempts : nat) fs dir (base : Text) (final : option Path)
    (refused : N → bool) (inode n : N) : res DestError Reservation * Fs :=
  match attempts with
  | 0 => (Err Exhausted, fs)
  | S attempts' =>
      let name := dedup_name base n in
      match open_exclusive_at fs dir name (refused n) inode with
      | Ok fs' =>
          let path := join dir name in
          (Ok (Use (mkReserved (Some inode) path (default path final)
                      (bool_decide (is_Some final)) false)), fs')
      | Err AlreadyExists => reserve_from attempts' fs dir base final refused inode (n + 1)
      | Err OtherIo => (Err Io, fs)
      | Panicked => (Panicked, fs)
      end
  end.

Definition reserve_download_destination fs dir (display_name fallback_stem : Text)
    (policy : OverwritePolicy) (refused : N → bool) (inode : N)
    : res DestError Reservation * Fs :=
  match safe_destination_path_no_dedup fs dir display_name fallback_stem with
  | Err e => (Err e, fs)
  | Panicked => (Panicked, fs)
  | Ok exact =>
      let safe_name := sanitise_filename display_name fallback_stem in
      match policy with
      | KeepBoth => reserve_from MAX_DEDUP_ATTEMPTS fs dir safe_name None refused inode 0
      | SkipExisting =>
          if exists_at fs exact then (Ok Skip, fs)
          else
            match open_exclusive_at fs dir safe_name (refused 0%N) inode with
            | Ok fs' => (Ok (Use (mkReserved (Some inode) exact exact false false)), fs')
            | Err AlreadyExists => (Ok Skip, fs)
            | Err OtherIo => (Err Io, fs)
            | Panicked => (Panicked, fs)
            end
      | Overwrite =>
          reserve_from MAX_DEDUP_ATTEMPTS fs dir (txt ".boru-part-" ++ safe_name) (Some exact)
            refused inode 0
      end
  end.

(** [std::fs::rename] of a file: replaces what is there, which is not a directory. *)
Definition rename fs (from to : Path) : option Fs :=
  a ← place_of fs from; b ← place_of fs to; n ← node_at fs a;
  if decide (node_at fs b = Some Dir) then None
  else Some (set_node b n (unset_node a fs)).

(** Dropping an unpublished reservation removes the file it created, if the path still leads
    to it. *)
Definition drop_reservation (r : ReservedDestination) fs : Fs :=
  if published r then fs
  else
    let mine :=
      match file r with
      | Some inode => bool_decide (metadata fs (write_path r) = Some (File inode))
      | None => true
      end in
    if mine then
      match place_of fs (write_path r) with
      | Some place => if decide (node_at fs place = Some Dir) then fs else unset_node place fs
      | None => fs
      end
    else fs.

(** [renamed] tells whether the rename itself succeeds; an error drops the reservation. *)
Definition publish (r : ReservedDestination) (renamed : bool) fs : res DestError Path * Fs :=
  if rename_on_publish r then
    match parent (final_path r) with
    | None => (Err NoParent, drop_reservation r fs)
    | Some root =>
        if starts_with (canonicalize_allow_missing fs (final_path r))
             (canonicalize_allow_missing fs root)
        then
          match (if renamed then rename fs (write_path r) (final_path r) else None) with
          | Some fs' => (Ok (final_path r), fs')
          | None => (Err Io, drop_reservation r fs)
          end
        else (Err Escapes, drop_reservation r fs)
    end
  else (Ok (final_path r), fs).

End names.
End safe_destination.
