(* ===== verification/DestinationFacts.v ===== *)
(** * Correctness of download destinations

    A reserved destination is a new file directly inside the download directory, whatever
    name the peer announces and whatever links are around; abandoning it leaves no trace and
    publishing it replaces one file or nothing.  Two statements show where the checks that
    only compute paths let something through. *)

From Stdlib Require Import Strings.Byte NArith.
From stdpp Require Import prelude gmap strings.
From S2P Require Import Prelude Text Signing AtomicWrite Mailbox ShortCode Destination.
Import paths path_containment safe_destination.

#[local] Arguments walk : simpl never.

Implicit Types (fs : Fs) (dir p q : Path) (d here : Place) (t : Text).

(** ** Names *)

(** A name of one component. *)
Definition plain t : Prop := t ≠ [] ∧ t ≠ [DOT] ∧ t ≠ [DOT; DOT] ∧ SEP ∉ t.

Lemma split_at_none c t : c ∉ t → split_at c t = [t].
Proof.
  induction t as [|x t IH]; intros Hc; simpl; [done|]. apply not_elem_of_cons in Hc as [Hx Ht].
  rewrite decide_False by done. by rewrite IH.
Qed.

Lemma components_plain t : plain t → components t = [Normal t].
Proof.
  intros (Hne & H1 & H2 & Hs). unfold components. destruct t as [|c t]; [done|].
  rewrite decide_False by (intros ->; apply Hs; by left).
  rewrite split_at_none by done. rewrite decide_False by done. simpl. unfold piece.
  by rewrite !decide_False.
Qed.

Lemma join_plain p t : p ≠ [] → plain t → join p t = p ++ [Normal t].
Proof. intros Hp Ht. unfold join. rewrite components_plain by done. by destruct p. Qed.

Lemma last_dot_eq t a b : last_dot t = Some (a, b) → t = a ++ DOT :: b ∧ DOT ∉ b.
Proof.
  revert a. induction t as [|c t IH]; intros a; simpl; [done|].
  destruct (last_dot t) as [[a' b']|] eqn:Hl.
  - intros [= <- <-]. destruct (IH _ eq_refl) as [-> ?]. done.
  - case_decide; [|done]. intros [= <- <-]. subst. split; [done|].
    clear IH. induction t as [|x t IH]; [apply not_elem_of_nil|]. simpl in Hl.
    destruct (last_dot t) as [[? ?]|]; [done|]. case_decide; [done|].
    apply not_elem_of_cons. split; [congruence|auto].
Qed.

Section facts.
Context `{!Uppercase}.

Lemma strip_clean t : SEP ∉ strip t.
Proof. unfold strip. intros Hin%list_elem_of_filter. naive_solver. Qed.

Lemma is_all_dots_false t : t ≠ [] → is_all_dots t = false → t ≠ [DOT] ∧ t ≠ [DOT; DOT].
Proof. intros _ Hd. split; intros ->; vm_compute in Hd; discriminate Hd. Qed.

(** Whatever the remote name, the sanitised one is a plain name. *)
Lemma sanitise_plain name fb : plain fb → plain (sanitise_filename name fb).
Proof.
  intros Hfb. unfold sanitise_filename. pose proof (strip_clean name) as Hs.
  destruct (forallb is_whitespace (strip name)) eqn:Hw; [done|].
  assert (strip name ≠ []) as Hne by (intros He; by rewrite He in Hw).
  destruct (is_reserved_platform_name _ || is_all_dots _) eqn:Hr.
  - destruct (last_dot (strip name)) as [[a b]|] eqn:Hl; simpl; [|done].
    case_bool_decide as Hb; [|done].
    destruct (is_reserved_platform_name b), (is_all_dots b); simpl; [done..|].
    apply last_dot_eq in Hl as [Heq _]. destruct Hfb as (? & ? & ? & Hf).
    destruct fb as [|x fb]; [done|]. destruct b as [|y b]; [done|].
    split_and!; [done|destruct fb; done|destruct fb as [|? [|? ?]]; done|].
    intros Hin. apply elem_of_app in Hin as [Hin|Hin]; [done|].
    apply elem_of_cons in Hin as [Hin|Hin]; [done|].
    apply Hs. rewrite Heq. apply elem_of_app. right. by right.
  - apply orb_false_iff in Hr as [_ Hd]. destruct (is_all_dots_false _ Hne Hd). done.
Qed.

Lemma decimal_no_sep n : SEP ∉ decimal n.
Proof. intros Hin%decimal_range. unfold SEP in Hin. lia. Qed.


(** The numbered variants of a name. *)
Lemma dedup_name_shape t :
  ∃ stem ext, t = stem ++ ext ∧ (t ≠ [] → stem ≠ []) ∧
    ∀ n, n ≠ 0%N → dedup_name t n = stem ++ txt " (" ++ decimal n ++ txt ")" ++ ext.
Proof.
  destruct (last_dot t) as [[a b]|] eqn:Hl; [destruct (decide (a = [])) as [Ha|Ha]|].
  - exists t, []. split_and!; [by rewrite app_nil_r|done|]. intros n Hn. unfold dedup_name.
    rewrite decide_False by done. by rewrite Hl, decide_True.
  - exists a, (DOT :: b). split_and!; [by apply last_dot_eq in Hl as [-> _]|done|].
    intros n Hn. unfold dedup_name. rewrite decide_False by done. by rewrite Hl, decide_False.
  - exists t, []. split_and!; [by rewrite app_nil_r|done|]. intros n Hn. unfold dedup_name.
    rewrite decide_False by done. by rewrite Hl.
Qed.

Lemma dedup_name_plain t n : plain t → plain (dedup_name t n).
Proof.
  intros Ht. destruct (decide (n = 0%N)) as [->|Hn]; [done|].
  destruct (dedup_name_shape t) as (stem & ext & Heq & Hne & Hd). rewrite Hd by done.
  destruct Ht as (Ht & _ & _ & Hs). specialize (Hne Ht). destruct stem as [|x stem]; [done|].
  assert (∀ y z : list N, length (x :: stem) + 3 ≤ length ((x :: stem) ++ txt " (" ++ y ++ txt ")" ++ z))
    as Hlen by (intros; rewrite !length_app; simpl; lia).
  specialize (Hlen (decimal n) ext). split_and!.
  - done.
  - intros He. rewrite He in Hlen. simpl in Hlen. lia.
  - intros He. rewrite He in Hlen. simpl in Hlen. lia.
  - rewrite Heq, elem_of_app in Hs. rewrite !elem_of_app.
    intros [?|[Hin|[Hin|[Hin|?]]]]; [tauto| |by apply decimal_no_sep in Hin| |tauto];
      vm_compute in Hin; apply list_elem_of_In in Hin; simpl in Hin;
      repeat (destruct Hin as [Hin|Hin]; [discriminate Hin|]); done.
Qed.

(** Different numbers give different names. *)
Lemma dedup_name_inj t n m : dedup_name t n = dedup_name t m → n = m.
Proof.
  destruct (dedup_name_shape t) as (stem & ext & Heq & _ & Hd).
  assert (∀ k, k ≠ 0%N → dedup_name t k ≠ t) as Hlong.
  { intros k Hk He. rewrite (Hd k Hk) in He. apply (f_equal length) in He.
    rewrite Heq, !length_app in He. simpl in He. lia. }
  destruct (decide (n = 0%N)) as [->|Hn], (decide (m = 0%N)) as [->|Hm]; [done|..].
  - intros He. by destruct (Hlong m Hm).
  - intros He. by destruct (Hlong n Hn).
  - rewrite !Hd by done. intros He%app_inv_head%app_inv_head. rewrite !app_assoc in He.
    apply app_inv_tail in He. by apply app_inv_tail, (inj decimal) in He.
Qed.

(** ** Walking *)

Lemma walk_eq fs links here todo :
  walk fs links here todo =
  match todo with
  | [] => Some here
  | RootDir :: rest => walk fs links [] rest
  | CurDir :: rest => walk fs links here rest
  | ParentDir :: rest => walk fs links (removelast here) rest
  | Normal t :: rest =>
      match node_at fs (here ++ [t]) with
      | None => None
      | Some Dir => walk fs links (here ++ [t]) rest
      | Some (File _) => if decide (rest = []) then Some (here ++ [t]) else None
      | Some (Link target) =>
          match links with
          | 0 => None
          | S links' => walk fs links' here (components target ++ rest)
          end
      end
  end.
Proof. by destruct links, todo as [|[]]. Qed.

(** A walk that ends in a directory goes on from there, with some links left. *)
Lemma walk_app fs links here p d :
  walk fs links here p = Some d → node_at fs d = Some Dir →
  ∃ left, ∀ q, walk fs links here (p ++ q) = walk fs left d q.
Proof.
  revert here p. induction links as [links IHl] using lt_wf_ind. intros here p.
  revert here. induction p as [|c p IH]; intros here Hw Hd.
  { rewrite walk_eq in Hw. simplify_eq. by exists links. }
  rewrite walk_eq in Hw. destruct c as [| | |t].
  1-3: destruct (IH _ Hw Hd) as [l Hl]; exists l; intros q;
    rewrite <- Hl, <- app_comm_cons, walk_eq; done.
  destruct (node_at fs (here ++ [t])) as [[|i|target]|] eqn:Hn; [| | |done].
  - destruct (IH _ Hw Hd) as [l Hl]. exists l. intros q.
    rewrite <- Hl, <- app_comm_cons, walk_eq. by rewrite Hn.
  - case_decide; [|done]. simplify_eq.
  - destruct links as [|links]; [done|].
    destruct (IHl links (Nat.lt_succ_diag_r _) _ _ Hw Hd) as [l Hl]. exists l. intros q.
    rewrite <- Hl, <- app_comm_cons, walk_eq. rewrite Hn. by rewrite app_assoc.
Qed.

(** More nodes keep every walk. *)
Lemma walk_mono fs fs' links here p d :
  (∀ x n, node_at fs x = Some n → node_at fs' x = Some n) →
  walk fs links here p = Some d → walk fs' links here p = Some d.
Proof.
  intros Hm. revert here p. induction links as [links IHl] using lt_wf_ind. intros here p.
  revert here. induction p as [|c p IH]; intros here;
    rewrite (walk_eq fs), (walk_eq fs'); [done|].
  destruct c as [| | |t]; [by apply IH..|].
  destruct (node_at fs (here ++ [t])) as [[|i|target]|] eqn:Hn; [| | |done];
    rewrite (Hm _ _ Hn); [apply IH|done|]. destruct links as [|links]; [done|].
  apply IHl. lia.
Qed.

Lemma node_at_set fs d n x : x ≠ [] → node_at (set_node d n fs) x = (<[d := n]> (nodes fs)) !! x.
Proof. intros Hx. unfold node_at. by rewrite decide_False. Qed.

Lemma snoc_not_nil d t : d ++ [t] ≠ [].
Proof. by destruct d. Qed.

(** A new entry in a directory. *)
Lemma set_fresh fs d t i :
  node_at fs (d ++ [t]) = None →
  (∀ x n, node_at fs x = Some n → node_at (set_node (d ++ [t]) (File i) fs) x = Some n) ∧
  node_at (set_node (d ++ [t]) (File i) fs) (d ++ [t]) = Some (File i) ∧
  unset_node (d ++ [t]) (set_node (d ++ [t]) (File i) fs) = fs.
Proof.
  pose proof (snoc_not_nil d t) as Hne. intros Hn.
  assert (nodes fs !! (d ++ [t]) = None) as Hl by (unfold node_at in Hn; by rewrite decide_False in Hn).
  split_and!.
  - intros x n Hx. unfold node_at in *. case_decide; [done|]. simpl.
    rewrite lookup_insert_ne; [done|]. congruence.
  - rewrite node_at_set by done. by rewrite lookup_insert_eq.
  - unfold unset_node, set_node. simpl. rewrite delete_insert_id by done. by destruct fs.
Qed.

(** A directory and a plain name below it. *)
Lemma place_of_child fs dir t :
  place_of fs (dir ++ [Normal t]) =
  (d ← walk fs MAX_LINKS (cwd fs) dir; if decide (node_at fs d = Some Dir) then Some (d ++ [t]) else None).
Proof. unfold place_of. by rewrite last_snoc, removelast_last. Qed.

(** What a successful exclusive creation did. *)
Lemma open_exclusive_Ok fs dir t refused i fs' :
  dir ≠ [] → plain t → open_exclusive_at fs dir t refused i = Ok fs' →
  ∃ d, walk fs MAX_LINKS (cwd fs) dir = Some d ∧ node_at fs d = Some Dir ∧
    node_at fs (d ++ [t]) = None ∧ fs' = set_node (d ++ [t]) (File i) fs.
Proof.
  intros Hdir Ht. unfold open_exclusive_at. rewrite join_plain, place_of_child by done.
  destruct (walk fs MAX_LINKS (cwd fs) dir) as [d|]; simpl; [|done]. case_decide; [|done].
  destruct (node_at fs (d ++ [t])) eqn:Hn; [done|]. destruct refused; [done|]. intros [= <-].
  by exists d.
Qed.

Lemma open_exclusive_taken fs dir t refused i :
  dir ≠ [] → plain t → open_exclusive_at fs dir t refused i = Err AlreadyExists →
  ∃ d n, walk fs MAX_LINKS (cwd fs) dir = Some d ∧ node_at fs (d ++ [t]) = Some n.
Proof.
  intros Hdir Ht. unfold open_exclusive_at. rewrite join_plain, place_of_child by done.
  destruct (walk fs MAX_LINKS (cwd fs) dir) as [d|]; simpl; [|done]. case_decide; [|done].
  destruct (node_at fs (d ++ [t])) eqn:Hn; [by eauto|]. by destruct refused.
Qed.

Lemma open_exclusive_settled fs dir t refused i : settled (open_exclusive_at fs dir t refused i).
Proof.
  unfold open_exclusive_at. destruct (place_of _ _); [|done].
  destruct (node_at _ _); [done|]. by destruct refused.
Qed.

(** ** Reservations *)

(** A reservation of a new file in the directory. *)
Record reserves fs dir (r : ReservedDestination) (i : N) fs' d t : Prop := mkReserves {
  rv_dir : walk fs MAX_LINKS (cwd fs) dir = Some d;
  rv_is_dir : node_at fs d = Some Dir;
  rv_plain : plain t;
  rv_write : write_path r = dir ++ [Normal t];
  rv_new : node_at fs (d ++ [t]) = None;
  rv_fs : fs' = set_node (d ++ [t]) (File i) fs;
  rv_file : file r = Some i;
  rv_published : published r = false
}.

Lemma reserve_from_cases attempts fs dir base final refused i n :
  dir ≠ [] → plain base →
  match reserve_from attempts fs dir base final refused i n with
  | (Ok (Use r), fs') =>
      ∃ d k, (n ≤ k)%N ∧ reserves fs dir r i fs' d (dedup_name base k) ∧
        final_path r = default (write_path r) final ∧
        rename_on_publish r = bool_decide (is_Some final) ∧
        ∀ m, (n ≤ m < k)%N → is_Some (node_at fs (d ++ [dedup_name base m]))
  | (Ok Skip, _) => False
  | (Err _, fs') => fs' = fs
  | (Panicked, _) => False
  end.
Proof.
  intros Hdir Hb. revert n. induction attempts as [|a IH]; intros n; simpl; [done|].
  pose proof (dedup_name_plain base n Hb) as Hp.
  pose proof (open_exclusive_settled fs dir (dedup_name base n) (refused n) i) as Hs.
  destruct (open_exclusive_at _ _ _ _ _) as [fs1|[|]|] eqn:Ho; [| |done|done].
  - apply open_exclusive_Ok in Ho as (d & Hw & Hd & Hn & ->); [|done..].
    exists d, n. split; [lia|]. split; [split; simpl; try done; by apply join_plain|].
    split_and!; [done..|]. lia.
  - apply open_exclusive_taken in Ho as (d & x & Hw & Hx); [|done..]. specialize (IH (n + 1)%N).
    destruct (reserve_from a _ _ _ _ _ _ _) as [[[r|]|e|] fs']; [|done..].
    destruct IH as (d' & k & Hk & Hr & Hf & Hre & Hall). exists d', k. split; [lia|].
    split_and!; [done..|]. intros m Hm. destruct (decide (m = n)) as [->|]; [|apply Hall; lia].
    pose proof (rv_dir _ _ _ _ _ _ _ Hr) as Hw'. rewrite Hw in Hw'. simplify_eq. eauto.
Qed.

Lemma no_dedup_Ok fs dir name fb exact :
  safe_destination_path_no_dedup fs dir name fb = Ok exact → plain fb →
  dir ≠ [] ∧ exact = dir ++ [Normal (sanitise_filename name fb)].
Proof.
  unfold safe_destination_path_no_dedup, mbind, res_bind. intros Hs Hfb.
  destruct (is_absolute dir) eqn:Ha; [|done]. destruct (check_traversal _); [|done..].
  destruct (starts_with _ _); [|done]. simplify_eq.
  assert (dir ≠ []) as Hne by (intros ->; by vm_compute in Ha).
  split; [done|]. by rewrite join_plain by (done || by apply sanitise_plain).
Qed.

Lemma part_plain t : plain t → plain (txt ".boru-part-" ++ t).
Proof.
  intros (Ht & _ & _ & Hs). split_and!; [done..|]. rewrite elem_of_app. intros [Hin|]; [|done].
  vm_compute in Hin. apply list_elem_of_In in Hin. simpl in Hin.
  repeat (destruct Hin as [Hin|Hin]; [discriminate Hin|]). done.
Qed.

(** Every outcome of a reservation. *)
Lemma reserve_cases fs dir name fb policy refused i :
  plain fb →
  match reserve_download_destination fs dir name fb policy refused i with
  | (Ok (Use r), fs') =>
      (∃ d t, reserves fs dir r i fs' d t) ∧ dir ≠ [] ∧
      (if decide (policy = Overwrite)
       then final_path r = dir ++ [Normal (sanitise_filename name fb)] ∧ rename_on_publish r = true
       else final_path r = write_path r ∧ rename_on_publish r = false)
  | (Panicked, _) => False
  | (_, fs') => fs' = fs
  end.
Proof.
  intros Hfb. unfold reserve_download_destination.
  destruct (safe_destination_path_no_dedup fs dir name fb) as [exact|e|] eqn:Hs; [|done|].
  2: { unfold safe_destination_path_no_dedup, mbind, res_bind in Hs.
       destruct (is_absolute dir); [|done]. unfold check_traversal in Hs.
       repeat (case_match || case_decide); simplify_eq. }
  apply no_dedup_Ok in Hs as [Hdir ->]; [|done].
  pose proof (sanitise_plain name fb Hfb) as Hp. destruct policy.
  - pose proof (reserve_from_cases MAX_DEDUP_ATTEMPTS fs dir (sanitise_filename name fb) None
      refused i 0 Hdir Hp) as Hc.
    destruct (reserve_from _ _ _ _ _ _ _ _) as [[[r|]|e|] fs']; [|done..].
    destruct Hc as (d & k & _ & Hr & Hf & Hre & _). rewrite decide_False by done.
    split_and!; [by eauto|done..].
  - pose proof (reserve_from_cases MAX_DEDUP_ATTEMPTS fs dir
      (txt ".boru-part-" ++ sanitise_filename name fb)
      (Some (dir ++ [Normal (sanitise_filename name fb)])) refused i 0 Hdir (part_plain _ Hp)) as Hc.
    destruct (reserve_from _ _ _ _ _ _ _ _) as [[[r|]|e|] fs']; [|done..].
    destruct Hc as (d & k & _ & Hr & Hf & Hre & _). rewrite decide_True by done.
    split_and!; [by eauto|done..].
  - destruct (exists_at _ _); [done|].
    pose proof (open_exclusive_settled fs dir (sanitise_filename name fb) (refused 0%N) i) as Hst.
    destruct (open_exclusive_at _ _ _ _ _) as [fs1|[|]|] eqn:Ho; [|done..].
    apply open_exclusive_Ok in Ho as (d & Hw & Hd & Hn & ->); [|done..].
    rewrite decide_False by done. split; [|done]. by exists d, (sanitise_filename name fb).
Qed.

(** The new file, seen through the path that was reserved. *)
Lemma reserved_walk fs dir r i fs' d t :
  reserves fs dir r i fs' d t →
  cwd fs' = cwd fs ∧ walk fs' MAX_LINKS (cwd fs') dir = Some d ∧ node_at fs' d = Some Dir ∧
  node_at fs' (d ++ [t]) = Some (File i) ∧
  walk fs' MAX_LINKS (cwd fs') (write_path r) = Some (d ++ [t]) ∧ unset_node (d ++ [t]) fs' = fs.
Proof.
  intros [Hw Hd _ Hwr Hn -> _ _]. destruct (set_fresh fs d t i Hn) as (Hm & Hf & Hu).
  pose proof (walk_mono _ _ _ _ _ _ Hm Hw) as Hw'. split_and!; [done|exact Hw'|by apply Hm|done| |done].
  rewrite Hwr. destruct (walk_app _ _ _ _ _ Hw' (Hm _ _ Hd)) as [l Hl]. simpl.
  rewrite Hl, walk_eq, Hf. by rewrite decide_True.
Qed.

(** C16: Whatever name a peer announces and whatever links there are, a reservation either
    changes nothing or creates exactly one new file, where there was nothing before, named
    by a single component directly in the download directory; the path that was reserved
    leads to that file, inside the resolved directory. *)
Theorem reservation_contained fs dir name fb policy refused i :
  plain fb →
  match reserve_download_destination fs dir name fb policy refused i with
  | (Ok (Use r), fs') =>
      ∃ d t, walk fs MAX_LINKS (cwd fs) dir = Some d ∧ plain t ∧
        write_path r = dir ++ [Normal t] ∧ node_at fs (d ++ [t]) = None ∧
        fs' = set_node (d ++ [t]) (File i) fs ∧
        canonicalize fs' (write_path r) = Some (to_path d ++ [Normal t])
  | (Panicked, _) => False
  | (_, fs') => fs' = fs
  end.
Proof.
  intros Hfb. pose proof (reserve_cases fs dir name fb policy refused i Hfb) as Hc.
  destruct (reserve_download_destination _ _ _ _ _ _ _) as [[[r|]|e|] fs']; [|done..].
  destruct Hc as [(d & t & Hr) _]. exists d, t. pose proof Hr as [Hw Hd Hp Hwr Hn Hfs _ _].
  split_and!; [done..|]. apply reserved_walk in Hr as (_ & _ & _ & _ & Hwalk & _).
  unfold canonicalize. rewrite Hwalk. simpl. unfold to_path. by rewrite fmap_app.
Qed.

(** With both files kept, the name is the first free one of the numbered variants, all
    of which differ. *)
Theorem keep_both_first_free fs dir name fb refused i r fs' :
  plain fb →
  reserve_download_destination fs dir name fb KeepBoth refused i = (Ok (Use r), fs') →
  ∃ d n, walk fs MAX_LINKS (cwd fs) dir = Some d ∧
    write_path r = dir ++ [Normal (dedup_name (sanitise_filename name fb) n)] ∧
    (∀ m, (m < n)%N → is_Some (node_at fs (d ++ [dedup_name (sanitise_filename name fb) m]))) ∧
    ∀ m, dedup_name (sanitise_filename name fb) m = dedup_name (sanitise_filename name fb) n → m = n.
Proof.
  intros Hfb. unfold reserve_download_destination.
  destruct (safe_destination_path_no_dedup fs dir name fb) as [exact|e|] eqn:Hs; [|done..].
  apply no_dedup_Ok in Hs as [Hdir ->]; [|done].
  pose proof (reserve_from_cases MAX_DEDUP_ATTEMPTS fs dir (sanitise_filename name fb) None
    refused i 0 Hdir (sanitise_plain name fb Hfb)) as Hc. intros Heq. rewrite Heq in Hc.
  destruct Hc as (d & k & _ & Hr & _ & _ & Hall). exists d, k. destruct Hr as [Hw _ _ Hwr _ _ _ _].
  split_and!; [done..| |].
  - intros m Hm. apply Hall. lia.
  - intros m. apply dedup_name_inj.
Qed.

Lemma drop_reserved fs dir r i fs' d t :
  reserves fs dir r i fs' d t → drop_reservation r fs' = fs.
Proof.
  intros Hr. pose proof (reserved_walk _ _ _ _ _ _ _ Hr) as (_ & Hw & Hd & Hf & Hwalk & Hu).
  destruct Hr as [_ _ _ Hwr _ _ Hfile Hpub]. unfold drop_reservation. rewrite Hpub, Hfile.
  unfold metadata. rewrite Hwalk. simpl. rewrite Hf, bool_decide_true by done.
  rewrite Hwr, place_of_child, Hw. simpl. rewrite decide_True by done.
  rewrite Hf, decide_False by done. done.
Qed.

(** A reservation that is dropped leaves the file system as it was.  One that is
    published leaves the new file at its final path: where it was created, or in place of
    what was there under the sanitised name, with no temporary file left; when publishing
    fails the file system is as it was before the reservation. *)
Theorem publish_or_nothing fs dir name fb policy refused i r fs' renamed :
  plain fb →
  reserve_download_destination fs dir name fb policy refused i = (Ok (Use r), fs') →
  drop_reservation r fs' = fs ∧
  match publish r renamed fs' with
  | (Ok path, fs'') =>
      path = final_path r ∧
      if decide (policy = Overwrite)
      then ∃ d, walk fs MAX_LINKS (cwd fs) dir = Some d ∧
             path = dir ++ [Normal (sanitise_filename name fb)] ∧
             fs'' = set_node (d ++ [sanitise_filename name fb]) (File i) fs
      else path = write_path r ∧ fs'' = fs'
  | (Err _, fs'') => policy = Overwrite ∧ fs'' = fs
  | (Panicked, _) => False
  end.
Proof.
  intros Hfb Hres. pose proof (reserve_cases fs dir name fb policy refused i Hfb) as Hc.
  rewrite Hres in Hc. destruct Hc as ((d & t & Hr) & Hdir & Hfin).
  pose proof (drop_reserved _ _ _ _ _ _ _ Hr) as Hdrop. split; [done|].
  unfold publish. destruct (decide (policy = Overwrite)) as [Ho|Ho]; destruct Hfin as [Hf ->].
  2: { split; [done|]. done. }
  rewrite Hf. unfold parent. rewrite last_snoc. destruct (starts_with _ _); [|by rewrite Hdrop].
  destruct renamed; [|by rewrite Hdrop].
  pose proof (reserved_walk _ _ _ _ _ _ _ Hr) as (Hcwd & Hw & Hd & Hfile & _ & Hu).
  destruct Hr as [Hw0 Hd0 _ Hwr Hn Hfs' _ _]. unfold rename.
  rewrite Hwr, !place_of_child, Hw. cbn [mbind option_bind]. rewrite !decide_True by done.
  cbn [mbind option_bind]. rewrite Hfile. cbn [mbind option_bind].
  case_decide as Hx; [by rewrite Hdrop|]. split; [done|]. exists d.
  split; [exact Hw0|]. split; [reflexivity|]. by rewrite Hu.
Qed.

(** ** What the checks on paths let through *)

Lemma canonicalize_from_eq fuel fs path cur tail :
  canonicalize_from fuel fs path cur tail =
  match canonicalize fs cur with
  | Some canon => canon ++ (Normal <$> reverse tail)
  | None =>
      match fuel, file_name cur, parent cur with
      | S fuel', Some name, Some up => canonicalize_from fuel' fs path up (tail ++ [name])
      | _, _, _ => path
      end
  end.
Proof. by destruct fuel. Qed.

Lemma canonicalize_existing fs p d :
  walk fs MAX_LINKS (cwd fs) p = Some d → canonicalize_allow_missing fs p = to_path d.
Proof.
  intros Hw. unfold canonicalize_allow_missing. rewrite canonicalize_from_eq.
  unfold canonicalize. rewrite Hw. simpl. by rewrite app_nil_r.
Qed.

(** A missing name in an existing directory. *)
Lemma canonicalize_child fs dir d t :
  walk fs MAX_LINKS (cwd fs) dir = Some d →
  walk fs MAX_LINKS (cwd fs) (dir ++ [Normal t]) = None →
  canonicalize_allow_missing fs (dir ++ [Normal t]) = to_path d ++ [Normal t].
Proof.
  intros Hd Hn. unfold canonicalize_allow_missing. rewrite length_app, Nat.add_1_r.
  rewrite canonicalize_from_eq. unfold canonicalize at 1. rewrite Hn. cbn [fmap option_fmap option_map].
  unfold file_name, parent. rewrite last_snoc, removelast_last, canonicalize_from_eq.
  unfold canonicalize. by rewrite Hd.
Qed.

Lemma file_name_app p c q : file_name (p ++ c :: q) = file_name (c :: q).
Proof. unfold file_name. by rewrite last_app_cons. Qed.

Lemma parent_app p c q : parent (p ++ c :: q) = (λ u, p ++ u) <$> parent (c :: q).
Proof.
  unfold parent. rewrite last_app_cons, removelast_app by done.
  by destruct (last (c :: q)) as [[]|].
Qed.

(** The containment check is meant to refuse what it cannot resolve; but a path that
    goes through a missing directory and up again is taken as it is written and counts as
    contained.  Once the directory exists, the same path leads outside and is refused. *)
Theorem unresolvable_path_contained fs up b m x i :
  let root := to_path (up ++ [b]) in
  let path := root ++ [Normal m; ParentDir; ParentDir; Normal x] in
  walk fs MAX_LINKS (cwd fs) root = Some (up ++ [b]) → node_at fs (up ++ [b]) = Some Dir →
  node_at fs ((up ++ [b]) ++ [m]) = None → node_at fs (up ++ [x]) = Some (File i) → x ≠ b →
  is_path_contained fs path root = true ∧
  is_path_contained (set_node ((up ++ [b]) ++ [m]) Dir fs) path root = false.
Proof.
  intros root path Hr Hd Hm Hx Hne. unfold is_path_contained. split.
  - rewrite (canonicalize_existing fs root _ Hr). apply bool_decide_eq_true.
    destruct (walk_app _ _ _ _ _ Hr Hd) as [l Hl].
    assert (∀ rest, canonicalize fs (root ++ Normal m :: rest) = None) as Hnone.
    { intros rest. unfold canonicalize. by rewrite Hl, walk_eq, Hm. }
    assert (canonicalize_allow_missing fs path = path) as ->; [|by eexists].
    unfold canonicalize_allow_missing. set (fuel := length path).
    rewrite canonicalize_from_eq. unfold path at 1. rewrite Hnone.
    replace (file_name path) with (Some x) by (unfold path; by rewrite file_name_app).
    replace (parent path) with (Some (root ++ [Normal m; ParentDir; ParentDir]))
      by (unfold path; by rewrite parent_app).
    destruct fuel as [|fuel]; [done|]. rewrite canonicalize_from_eq, Hnone.
    rewrite file_name_app. by destruct fuel.
  - set (fs' := set_node ((up ++ [b]) ++ [m]) Dir fs).
    assert (∀ y n, node_at fs y = Some n → node_at fs' y = Some n) as Hmono.
    { intros y n Hy. destruct (decide (y = (up ++ [b]) ++ [m])) as [->|Hy']; [congruence|].
      revert Hy. unfold node_at. case_decide; [done|]. subst fs'. simpl.
      by rewrite lookup_insert_ne. }
    pose proof (walk_mono _ _ _ _ _ _ Hmono Hr) as Hr'.
    change (cwd fs) with (cwd fs') in Hr'. rewrite (canonicalize_existing fs' root _ Hr').
    destruct (walk_app _ _ _ _ _ Hr' (Hmono _ _ Hd)) as [l Hl].
    assert (walk fs' MAX_LINKS (cwd fs') path = Some (up ++ [x])) as Hp.
    { unfold path. rewrite Hl, walk_eq. subst fs'. rewrite node_at_set by apply snoc_not_nil.
      rewrite lookup_insert_eq. rewrite walk_eq, removelast_last, walk_eq, removelast_last, walk_eq.
      rewrite (Hmono _ _ Hx). by rewrite decide_True. }
    rewrite (canonicalize_existing fs' path _ Hp). apply bool_decide_eq_false. unfold to_path.
    intros [rest Heq]. injection Heq as Heq. rewrite !fmap_app, <- app_assoc in Heq.
    apply app_inv_head in Heq. simpl in Heq. by injection Heq as [= ?].
Qed.

(** The destination that is only computed may be a dangling link: it does not exist, so
    it is neither refused as a link to the outside nor given another name; what is then
    written to that path goes where the link points. *)
Theorem dangling_link_accepted fs dir name fb d target :
  let t := sanitise_filename name fb in
  plain fb → is_absolute dir = true → check_traversal (strip name) = Ok tt →
  walk fs MAX_LINKS (cwd fs) dir = Some d → node_at fs d = Some Dir →
  node_at fs (d ++ [t]) = Some (Link target) →
  (∀ links, walk fs links d (components target) = None) →
  safe_destination_path fs dir name fb = Ok (dir ++ [Normal t]) ∧
  symlink_metadata fs (dir ++ [Normal t]) = Some (Link target).
Proof.
  intros t Hfb Ha Ht Hw Hd Hl Hdang.
  assert (dir ≠ []) as Hne by (intros ->; by vm_compute in Ha).
  assert (walk fs MAX_LINKS (cwd fs) (dir ++ [Normal t]) = None) as Hn.
  { destruct (walk_app _ _ _ _ _ Hw Hd) as [l Hq]. rewrite Hq, walk_eq, Hl.
    destruct l; [done|]. by rewrite app_nil_r. }
  split.
  - unfold safe_destination_path, safe_destination_path_no_dedup, mbind, res_bind.
    rewrite Ha, Ht, join_plain by (done || by apply sanitise_plain).
    rewrite (canonicalize_existing fs dir d Hw). fold t. rewrite (canonicalize_child fs dir d t Hw Hn).
    unfold starts_with. rewrite bool_decide_true by by eexists.
    unfold deduplicate_path, exists_at. rewrite Hn. by rewrite bool_decide_false by by intros [? ?].
  - unfold symlink_metadata. rewrite place_of_child, Hw. cbn [mbind option_bind].
    by rewrite decide_True.
Qed.

End facts.

(** ** Evaluations *)

Module samples.

(** Upper case of ASCII letters only. *)
#[local] Instance upper_of_ascii : Uppercase :=
  {| upper_char c := [if decide (97 ≤ c ∧ c ≤ 122)%N then (c - 32)%N else c];
     upper_ascii c _ := eq_refl |}.

(** A download directory with a file and a dangling link, and a file beside it. *)
Definition disk : Fs := mkFs []
  {[ [txt "d"] := Dir; [txt "d"; txt "a.txt"] := File 1; [txt "d"; txt "l"] := Link (txt "/x/y");
     [txt "s"] := File 2 ]}.

Definition downloads : Path := to_path [txt "d"].

Definition granted (n : N) : bool := false.

Lemma hash_plain : plain (txt "hash").
Proof. repeat split; try done. apply (bool_decide_unpack _). by vm_compute. Defined.

Definition reserved (policy : OverwritePolicy) : option (ReservedDestination * Fs) :=
  match reserve_download_destination disk downloads (txt "../a.txt") (txt "hash") policy granted 7 with
  | (Ok (Use r), fs') => Some (r, fs')
  | _ => None
  end.

(** The name is stripped to [..a.txt]; the three policies on a name that is taken. *)
Example names_evaluated :
  (write_path ∘ fst <$> reserved KeepBoth) = Some (downloads ++ [Normal (txt "..a.txt")]) ∧
  safe_destination_path disk downloads (txt "a.txt") (txt "hash")
    = Ok (downloads ++ [Normal (txt "a (1).txt")]) ∧
  resolve_destination_with_policy disk downloads (txt "a.txt") (txt "hash") SkipExisting
    = Ok SkipDownload ∧
  prepare_download_destination disk downloads (txt "CON.txt") (txt "hash")
    = Ok (downloads ++ [Normal (txt "hash.txt")]) ∧
  symlink_is_safe disk (downloads ++ [Normal (txt "l")]) downloads = false.
Proof. split_and!; by vm_compute. Qed.

Lemma kept_both : ∃ r fs',
  reserve_download_destination disk downloads (txt "a.txt") (txt "hash") KeepBoth granted 7
    = (Ok (Use r), fs').
Proof. eexists _, _. vm_compute. reflexivity. Qed.

Lemma overwritten : ∃ r fs',
  reserve_download_destination disk downloads (txt "a.txt") (txt "hash") Overwrite granted 7
    = (Ok (Use r), fs').
Proof. eexists _, _. vm_compute. reflexivity. Qed.

Lemma reservation_contained_witness :
  plain (txt "hash") ∧
  ∃ r fs', reserve_download_destination disk downloads (txt "a.txt") (txt "hash") KeepBoth granted 7
    = (Ok (Use r), fs') ∧
  ∃ d t, walk disk MAX_LINKS (cwd disk) downloads = Some d ∧ plain t ∧
    write_path r = downloads ++ [Normal t] ∧ node_at disk (d ++ [t]) = None.
Proof.
  split; [exact hash_plain|].
  pose proof (reservation_contained disk downloads (txt "a.txt") (txt "hash") KeepBoth granted 7
    hash_plain) as H.
  destruct kept_both as (r & fs' & Heq). exists r, fs'. split; [exact Heq|]. rewrite Heq in H.
  destruct H as (d & t & Hw & Hp & Hwr & Hn & _). exists d, t. auto.
Defined.

Lemma keep_both_first_free_witness :
  plain (txt "hash") ∧
  ∃ r fs', reserve_download_destination disk downloads (txt "a.txt") (txt "hash") KeepBoth granted 7
    = (Ok (Use r), fs') ∧
  ∃ d n, walk disk MAX_LINKS (cwd disk) downloads = Some d ∧
    write_path r = downloads ++ [Normal (dedup_name (sanitise_filename (txt "a.txt") (txt "hash")) n)].
Proof.
  split; [exact hash_plain|]. destruct kept_both as (r & fs' & Heq). exists r, fs'.
  split; [exact Heq|].
  destruct (keep_both_first_free _ _ _ _ _ _ _ _ hash_plain Heq) as (d & n & Hw & Hp & _).
  exists d, n. auto.
Defined.

Lemma publish_or_nothing_witness :
  plain (txt "hash") ∧
  ∃ r fs', reserve_download_destination disk downloads (txt "a.txt") (txt "hash") Overwrite granted 7
    = (Ok (Use r), fs') ∧ drop_reservation r fs' = disk.
Proof.
  split; [exact hash_plain|]. destruct overwritten as (r & fs' & Heq). exists r, fs'.
  split; [exact Heq|]. exact (proj1 (publish_or_nothing _ _ _ _ _ _ _ _ _ true hash_plain Heq)).
Defined.

Lemma unresolvable_path_contained_witness :
  node_at disk [txt "d"; txt "m"] = None ∧
  is_path_contained disk
    (downloads ++ [Normal (txt "m"); ParentDir; ParentDir; Normal (txt "s")]) downloads = true.
Proof.
  split; [by vm_compute|].
  by apply (unresolvable_path_contained disk [] (txt "d") (txt "m") (txt "s") 2).
Defined.

Lemma dangling_link_accepted_witness :
  node_at disk [txt "d"; txt "l"] = Some (Link (txt "/x/y")) ∧
  safe_destination_path disk downloads (txt "l") (txt "hash")
    = Ok (downloads ++ [Normal (sanitise_filename (txt "l") (txt "hash"))]) ∧
  symlink_metadata disk (downloads ++ [Normal (sanitise_filename (txt "l") (txt "hash"))])
    = Some (Link (txt "/x/y")).
Proof.
  split; [by vm_compute|].
  apply (dangling_link_accepted disk downloads (txt "l") (txt "hash") [txt "d"] (txt "/x/y"));
    [exact hash_plain|by vm_compute..|].
  intros links. replace (components (txt "/x/y")) with [RootDir; Normal (txt "x"); Normal (txt "y")]
    by (by vm_compute).
  rewrite walk_eq. rewrite walk_eq. by vm_compute.
Defined.

End samples.
