(* ===== verification/Tunnel.v ===== *)
(** * Secure tunnels: [src/tunnel.rs], [src/tunnel/service.rs], [src/tunnel/enrollment.rs],
      [src/tunnel/reconnect.rs]

    [Module enrollment] holds the one-time tokens and the pinned peers, [Module service] the
    configured tunnels with their limits and the backoff of reconnections, [Module tunnel]
    the signed capabilities and the handling of incoming streams, [Module reconnect] the loop
    that keeps a link.  A method of the service is one step; the task of a stream is at one
    point of its code, and the tasks, the user and restarts take steps in any order.  Most
    methods hold their locks to the end; [redeem] releases the write lock before [persist],
    which reads the table again under a lock it holds until the file is written, so that a
    write of another redemption in between only stores what this one stores again.  The
    semaphore of [TunnelProtocol::accept], which limits connections (each may carry any number
    of streams), is left out: the model allows more interleavings than the code.  Copying of bytes, the network and the local service belong to the environment;
    times are arguments. *)

From Stdlib Require Import Strings.Byte NArith ZArith QArith.
From stdpp Require Import prelude gmap sorting strings.
From S2P Require Import Prelude Text Signing Mailbox.

Abbreviation TunnelId := Bytes.

(** [sha2::Sha256] *)
Class Sha256 : Type := { sha256 : Bytes → Bytes }.

(** [iroh::PublicKey]'s [Display]: one text for one key. *)
Class KeyText : Type := {
  key_text : PublicKey → Text;
  key_text_inj : Inj (=) (=) key_text
}.
#[export] Existing Instance key_text_inj.

Module enrollment.

Definition ENROLLMENT_STORE_FILE : Text := txt "tunnel_enrollments.json".
Definition DEFAULT_ENROLLMENT_TTL_SECS : N := 600.

Inductive EnrollmentError : Type :=
| UnknownToken | TokenExpired | TokenAlreadyUsed | TunnelMismatch.

Record EnrollmentToken : Type := mkToken {
  token : Text;
  token_expires_at_ms : N
}.

Record StoredToken : Type := mkStored {
  token_hash : Text;
  token_tunnel_id : TunnelId;
  token_created_at_ms : N;
  stored_expires_at_ms : N;
  used : bool
}.

Record StoredPin : Type := mkPin {
  pin_tunnel_id : TunnelId;
  pin_peer : Text
}.

#[export] Instance stored_token_eq_dec : EqDecision StoredToken.
Proof. solve_decision. Defined.

#[export] Instance stored_pin_eq_dec : EqDecision StoredPin.
Proof. solve_decision. Defined.

Record StoreState : Type := mkState {
  tokens : list StoredToken;
  pins : list StoredPin
}.

Definition state_default : StoreState := mkState [] [].

(** serde_json at the type of the state, whose serialization cannot fail. *)
Class StateJson : Type := {
  to_string_pretty : StoreState → Bytes;
  from_str : Bytes → option StoreState;
  from_str_pretty s : from_str (to_string_pretty s) = Some s
}.

Record EnrollmentTokenStore : Type := mkStore {
  state : StoreState;
  path : option Text
}.

(** What is in the file of the store; [None] when it cannot be read. *)
Abbreviation FileState := (option Bytes).

(** How [std::fs::write] ends: as it should, or with an error and whatever is in the file
    then. *)
Inductive WriteEnd : Type := Written | WriteFailed (content : FileState).

Section store.
Context `{!Sha256, !KeyText, !StateJson}.
(** [str::as_bytes] *)
Context (utf8 : Text → Bytes).
Implicit Types (s : EnrollmentTokenStore) (f : FileState) (w : WriteEnd).

Definition sha256_hex (b : Bytes) : Text := to_hex (sha256 b).

Definition new : EnrollmentTokenStore := mkStore state_default None.

Definition load_or_default (data_dir : Text) f : EnrollmentTokenStore :=
  mkStore (default state_default (f ≫= from_str))
    (Some (data_dir ++ txt "/" ++ ENROLLMENT_STORE_FILE)).

Definition persist w s f : FileState :=
  match path s, w with
  | None, _ => f
  | Some _, Written => Some (to_string_pretty (state s))
  | Some _, WriteFailed content => content
  end.

Definition with_state (st : StoreState) s : EnrollmentTokenStore := mkStore st (path s).

(** [raw] are the random bytes. *)
Definition mint (tunnel_id : TunnelId) (ttl_secs : N) (now : N) (raw : Bytes) w s f
    : EnrollmentToken * EnrollmentTokenStore * FileState :=
  let tok := to_hex raw in
  let expires := N.min u64_max (now + N.min u64_max (ttl_secs * 1000)) in
  let s' := with_state (mkState (tokens (state s) ++
              [mkStored (sha256_hex (utf8 tok)) tunnel_id now expires false]) (pins (state s))) s in
  (mkToken tok expires, s', persist w s' f).

(** [iter_mut().find(..)] *)
Fixpoint find_token (h : Text) (l : list StoredToken) : option (nat * StoredToken) :=
  match l with
  | [] => None
  | t :: l' => if decide (token_hash t = h) then Some (0, t)
               else (λ '(i, t), (S i, t)) <$> find_token h l'
  end.

Definition mark_used (t : StoredToken) : StoredToken :=
  mkStored (token_hash t) (token_tunnel_id t) (token_created_at_ms t) (stored_expires_at_ms t) true.

Definition add_pin (tunnel_id : TunnelId) (peer : PublicKey) (l : list StoredPin) : list StoredPin :=
  if decide (mkPin tunnel_id (key_text peer) ∈ l) then l else l ++ [mkPin tunnel_id (key_text peer)].

Definition redeem (tok : Text) (tunnel_id : TunnelId) (peer : PublicKey) (now_ms : N) w s f
    : res EnrollmentError unit * EnrollmentTokenStore * FileState :=
  match find_token (sha256_hex (utf8 tok)) (tokens (state s)) with
  | None => (Err UnknownToken, s, f)
  | Some (i, stored) =>
      if decide (token_tunnel_id stored ≠ tunnel_id) then (Err TunnelMismatch, s, f)
      else if decide (stored_expires_at_ms stored < now_ms)%N then (Err TokenExpired, s, f)
      else if used stored then (Err TokenAlreadyUsed, s, f)
      else
        let s' := with_state (mkState (<[i := mark_used stored]> (tokens (state s)))
                                (add_pin tunnel_id peer (pins (state s)))) s in
        (Ok tt, s', persist w s' f)
  end.

Definition is_pinned (tunnel_id : TunnelId) (peer : PublicKey) s : bool :=
  bool_decide (mkPin tunnel_id (key_text peer) ∈ pins (state s)).

Definition unpin (tunnel_id : TunnelId) (peer : PublicKey) w s f
    : EnrollmentTokenStore * FileState :=
  let s' := with_state (mkState (tokens (state s))
              (filter (λ p, p ≠ mkPin tunnel_id (key_text peer)) (pins (state s)))) s in
  (s', persist w s' f).

Definition remove_tunnel (tunnel_id : TunnelId) w s f : EnrollmentTokenStore * FileState :=
  let s' := with_state (mkState (filter (λ t, token_tunnel_id t ≠ tunnel_id) (tokens (state s)))
              (filter (λ p, pin_tunnel_id p ≠ tunnel_id) (pins (state s)))) s in
  (s', persist w s' f).

End store.
End enrollment.

Module service.
Import enrollment.

Definition MAX_ACTIVE_SHARED_TUNNELS : nat := 32.
Definition MAX_ACTIVE_RECEIVED_TUNNELS : nat := 32.
Definition DEFAULT_MAX_CONNECTIONS_PER_TUNNEL : nat := 16.
Definition MAX_CONNECTION_ATTEMPTS_PER_INTERVAL : nat := 8.
(** Durations and instants are in nanoseconds. *)
Definition CONNECTION_ATTEMPT_INTERVAL : Z := 60000000000.
Definition MAX_TRACKED_ATTEMPT_PEERS : nat := 256.
Definition MIN_TUNNEL_IDLE_TIMEOUT : N := 1000000000.
Definition MAX_TUNNEL_IDLE_TIMEOUT : N := 86400000000000.

Definition clamp_tunnel_idle_timeout (timeout : N) : N :=
  N.min MAX_TUNNEL_IDLE_TIMEOUT (N.max MIN_TUNNEL_IDLE_TIMEOUT timeout).

(** ** Targets, states, delays *)

(** [std::net::IpAddr]: the bits of the address. *)
Inductive IpAddr : Type := V4 (bits : N) | V6 (bits : N).

Definition ip_is_loopback (a : IpAddr) : bool :=
  match a with
  | V4 b => bool_decide (N.shiftr b 24 = 127)%N
  | V6 b => bool_decide (b = 1)%N
  end.

Inductive TunnelTarget : Type := Tcp (host : IpAddr) (port : N).

Definition is_loopback (t : TunnelTarget) : bool :=
  match t with Tcp host _ => ip_is_loopback host end.

Inductive TunnelStatus : Type :=
| Active | Connecting | Connected | Revoked | Failed | Disconnected | Reconnecting.

#[export] Instance tunnel_status_eq_dec : EqDecision TunnelStatus.
Proof. solve_decision. Defined.

Record ReconnectPolicy : Type := mkPolicy {
  initial_delay : N;
  max_delay : N;
  factor : N;
  jitter : Q
}.

Definition policy_default : ReconnectPolicy :=
  mkPolicy 1000000000 30000000000 2 (1 # 5).

(** [Duration::as_millis], [Duration::from_millis] *)
Definition as_millis (d : N) : N := d / 1000000.
Definition from_millis (ms : N) : N := ms * 1000000.

Definition u128_max : N := 340282366920938463463374607431768211455.

(** The loop over the attempts, left when the bound is reached. *)
Fixpoint raw_loop (attempts : nat) (factor bound ms : N) : N :=
  match attempts with
  | 0 => ms
  | S attempts' =>
      let ms := N.min u128_max (ms * factor) in
      if decide (bound ≤ ms)%N then ms else raw_loop attempts' factor bound ms
  end.

Definition raw_delay_for (p : ReconnectPolicy) (attempt : N) : N :=
  let bound := as_millis (max_delay p) in
  let ms := raw_loop (N.to_nat attempt) (N.max (factor p) 1) bound (as_millis (initial_delay p)) in
  from_millis (N.min ms bound mod (u64_max + 1)).

(** [jittered] is the product with the random multiplier, in floating-point arithmetic, cut
    to an integer. *)
Definition delay_for (p : ReconnectPolicy) (jittered : N → N) (attempt : N) : N :=
  let raw := raw_delay_for p attempt in
  if Qle_bool (jitter p) 0 then raw
  else from_millis (N.min u64_max (N.max 1 (jittered (N.max 1 (as_millis raw))))).

Record ReconnectInfo : Type := mkReconnect {
  attempt : N;
  next_delay : N
}.

Inductive TunnelRoute : Type := Direct | Relay | Unknown | RouteConnected.

(** ** Live information *)

Record TunnelLiveInfo : Type := mkLive {
  route : TunnelRoute;
  bytes_sent : N;
  bytes_received : N;
  connected_at_ms : N;
  tcp_connections : N;
  reconnecting : bool
}.

Definition live_default : TunnelLiveInfo := mkLive RouteConnected 0 0 0 0 false.

Definition set_route (r : TunnelRoute) (i : TunnelLiveInfo) : TunnelLiveInfo :=
  mkLive r (bytes_sent i) (bytes_received i) (connected_at_ms i) (tcp_connections i) (reconnecting i).

Definition set_reconnecting (b : bool) (i : TunnelLiveInfo) : TunnelLiveInfo :=
  mkLive (route i) (bytes_sent i) (bytes_received i) (connected_at_ms i) (tcp_connections i) b.

(** [fetch_add] wraps. *)
Definition add_bytes (sent received : N) (i : TunnelLiveInfo) : TunnelLiveInfo :=
  mkLive (route i) ((bytes_sent i + sent) mod (u64_max + 1))
    ((bytes_received i + received) mod (u64_max + 1)) (connected_at_ms i) (tcp_connections i)
    (reconnecting i).

Definition connection_opened (now : N) (i : TunnelLiveInfo) : TunnelLiveInfo :=
  mkLive (route i) (bytes_sent i) (bytes_received i)
    (if decide (connected_at_ms i = 0%N) then now else connected_at_ms i)
    ((tcp_connections i + 1) mod (usize_max + 1)) (reconnecting i).

Definition connection_closed (i : TunnelLiveInfo) : TunnelLiveInfo :=
  mkLive (route i) (bytes_sent i) (bytes_received i) (connected_at_ms i) (tcp_connections i - 1)
    (reconnecting i).

(** ** Definitions of tunnels *)

Inductive TunnelDuration : Type := TenMinutes | ThirtyMinutes | OneHour | EightHours | UntilExit.

Definition duration_expires_at_ms (d : TunnelDuration) (created : N) : N :=
  match d with
  | TenMinutes => N.min u64_max (created + 600000)
  | ThirtyMinutes => N.min u64_max (created + 1800000)
  | OneHour => N.min u64_max (created + 3600000)
  | EightHours => N.min u64_max (created + 28800000)
  | UntilExit => u64_max
  end.

Record TunnelDefinition : Type := mkDefinition {
  id : TunnelId;
  owner : PublicKey;
  target : TunnelTarget;
  allowed_peer : PublicKey;
  created_at_ms : N;
  expires_at_ms : N;
  status : TunnelStatus;
  max_connections : nat;
  active_connections : nat
}.

Definition set_status (st : TunnelStatus) (d : TunnelDefinition) : TunnelDefinition :=
  mkDefinition (id d) (owner d) (target d) (allowed_peer d) (created_at_ms d) (expires_at_ms d) st
    (max_connections d) (active_connections d).

Definition set_active (n : nat) (d : TunnelDefinition) : TunnelDefinition :=
  mkDefinition (id d) (owner d) (target d) (allowed_peer d) (created_at_ms d) (expires_at_ms d)
    (status d) (max_connections d) n.

Inductive TunnelServiceError : Type :=
| AlreadyExists | NotFound | InvalidExpiry | InvalidState | NonLoopbackTarget
| ConnectionLimitReached | InvalidConnectionLimit | Expired | TunnelLimitReached
| ReceivedTunnelLimitReached | ConnectionAttemptLimitReached.

(** A cancellation token is its identity; whether it is cancelled is part of the state. *)
Abbreviation Token := nat.

Record TunnelService : Type := mkService {
  tunnels : gmap TunnelId TunnelDefinition;
  cancellation : gmap TunnelId Token;
  next_token : Token;
  cancelled : gset Token;
  attempt_times : gmap PublicKey (list Z);
  live_info : gmap TunnelId TunnelLiveInfo;
  reconnect : gmap TunnelId ReconnectInfo;
  enrollment : EnrollmentTokenStore;
  idle_timeout : N
}.

Implicit Types (s : TunnelService) (d : TunnelDefinition) (i : TunnelId).

Definition set_tunnels (ts : gmap TunnelId TunnelDefinition) s : TunnelService :=
  mkService ts (cancellation s) (next_token s) (cancelled s) (attempt_times s) (live_info s)
    (reconnect s) (enrollment s) (idle_timeout s).

Definition set_live (l : gmap TunnelId TunnelLiveInfo) s : TunnelService :=
  mkService (tunnels s) (cancellation s) (next_token s) (cancelled s) (attempt_times s) l
    (reconnect s) (enrollment s) (idle_timeout s).

Definition set_reconnect (r : gmap TunnelId ReconnectInfo) s : TunnelService :=
  mkService (tunnels s) (cancellation s) (next_token s) (cancelled s) (attempt_times s)
    (live_info s) r (enrollment s) (idle_timeout s).

Definition set_attempts (a : gmap PublicKey (list Z)) s : TunnelService :=
  mkService (tunnels s) (cancellation s) (next_token s) (cancelled s) a (live_info s)
    (reconnect s) (enrollment s) (idle_timeout s).

Definition set_enrollment (e : EnrollmentTokenStore) s : TunnelService :=
  mkService (tunnels s) (cancellation s) (next_token s) (cancelled s) (attempt_times s)
    (live_info s) (reconnect s) e (idle_timeout s).

Definition TUNNEL_IDLE_TIMEOUT : N := 300000000000.

Definition with_enrollment_store (e : EnrollmentTokenStore) : TunnelService :=
  mkService ∅ ∅ 0 ∅ ∅ ∅ ∅ e TUNNEL_IDLE_TIMEOUT.

Definition new : TunnelService := with_enrollment_store enrollment.new.

Definition with_idle_timeout (timeout : N) s : TunnelService :=
  mkService (tunnels s) (cancellation s) (next_token s) (cancelled s) (attempt_times s)
    (live_info s) (reconnect s) (enrollment s) (clamp_tunnel_idle_timeout timeout).

Definition create_tunnel_with_limit i (own : PublicKey) (tgt : TunnelTarget) (peer : PublicKey)
    (created expires : N) (limit : nat) s : res TunnelServiceError TunnelDefinition * TunnelService :=
  if negb (is_loopback tgt) then (Err NonLoopbackTarget, s)
  else if decide (expires ≤ created)%N then (Err InvalidExpiry, s)
  else if decide (limit = 0) then (Err InvalidConnectionLimit, s)
  else
    let d := mkDefinition i own tgt peer created expires Active limit 0 in
    if decide (is_Some (tunnels s !! i)) then (Err AlreadyExists, s)
    else if decide (MAX_ACTIVE_SHARED_TUNNELS ≤ size (tunnels s)) then (Err TunnelLimitReached, s)
    else (Ok d, mkService (<[i := d]> (tunnels s)) (<[i := next_token s]> (cancellation s))
                  (S (next_token s)) (cancelled s) (attempt_times s) (live_info s) (reconnect s)
                  (enrollment s) (idle_timeout s)).

Definition create_tunnel i (own : PublicKey) (tgt : TunnelTarget) (peer : PublicKey)
    (created expires : N) s : res TunnelServiceError TunnelDefinition * TunnelService :=
  create_tunnel_with_limit i own tgt peer created expires DEFAULT_MAX_CONNECTIONS_PER_TUNNEL s.

Definition create_tunnel_for_duration i (own : PublicKey) (tgt : TunnelTarget) (peer : PublicKey)
    (duration : TunnelDuration) (now : N) s : res TunnelServiceError TunnelDefinition * TunnelService :=
  create_tunnel i own tgt peer now (duration_expires_at_ms duration now) s.

Definition get_tunnel i s : option TunnelDefinition := tunnels s !! i.

Definition id_le d d' : Prop := bytes_le (id d) (id d').

#[export] Instance id_le_dec : RelDecision id_le.
Proof. intros d d'. unfold id_le. apply _. Defined.

(** [sort_by_key]: the ids are the keys of the map, so the order of its iteration does not
    matter. *)
Definition list_tunnels s : list TunnelDefinition :=
  merge_sort id_le (map_to_list (tunnels s)).*2.

(** [live_info_entry] and the update of the entry. *)
Definition live_update i (f : TunnelLiveInfo → TunnelLiveInfo) s : TunnelService :=
  set_live (<[i := f (default live_default (live_info s !! i))]> (live_info s)) s.

Definition record_route i (r : TunnelRoute) s : TunnelService := live_update i (set_route r) s.

Definition record_transfer i (sent received : N) s : TunnelService :=
  live_update i (add_bytes sent received) s.

Definition record_connection_opened i (now : N) s : TunnelService :=
  live_update i (connection_opened now) s.

Definition record_connection_closed i s : TunnelService :=
  set_live (alter connection_closed i (live_info s)) s.

Definition connection_info i s : option TunnelLiveInfo := live_info s !! i.

Definition revoke_tunnel_with_termination i (terminate : bool) s
    : res TunnelServiceError TunnelDefinition * TunnelService :=
  match tunnels s !! i with
  | None => (Err NotFound, s)
  | Some d =>
      (Ok (set_status Revoked d),
       mkService (delete i (tunnels s)) (delete i (cancellation s)) (next_token s)
         (match cancellation s !! i with
          | Some tok => if terminate then {[tok]} ∪ cancelled s else cancelled s
          | None => cancelled s
          end)
         (attempt_times s) (delete i (live_info s)) (reconnect s) (enrollment s) (idle_timeout s))
  end.

Definition revoke_tunnel i s : res TunnelServiceError TunnelDefinition * TunnelService :=
  revoke_tunnel_with_termination i false s.

Definition cancellation_token i s : res TunnelServiceError Token :=
  ok_or NotFound (cancellation s !! i).

(** [get_mut(&id).ok_or(NotFound)?], with what is then done to the definition. *)
Definition with_definition {A} i s
    (k : TunnelDefinition → res TunnelServiceError A * TunnelService)
    : res TunnelServiceError A * TunnelService :=
  match tunnels s !! i with
  | None => (Err NotFound, s)
  | Some d => k d
  end.

Definition put_definition i d s : TunnelService := set_tunnels (<[i := d]> (tunnels s)) s.

Definition connect_tunnel i (now : N) s : res TunnelServiceError TunnelDefinition * TunnelService :=
  with_definition i s (λ d,
    if decide (expires_at_ms d < now)%N then (Err Expired, s)
    else if decide (status d ≠ Active) then (Err InvalidState, s)
    else let d' := set_status Connecting d in (Ok d', put_definition i d' s)).

Definition mark_connected i s : res TunnelServiceError TunnelDefinition * TunnelService :=
  with_definition i s (λ d,
    if decide (status d ∈ [Connecting; Connected; Reconnecting]) then
      let d' := set_status Connected d in
      (Ok d', set_reconnect (delete i (reconnect s)) (put_definition i d' s))
    else (Err InvalidState, s)).

Definition mark_failed i s : res TunnelServiceError TunnelDefinition * TunnelService :=
  with_definition i s (λ d,
    if decide (status d ∈ [Connecting; Connected]) then
      let d' := set_status Failed d in (Ok d', put_definition i d' s)
    else (Err InvalidState, s)).

Definition mark_disconnected i s : res TunnelServiceError TunnelDefinition * TunnelService :=
  with_definition i s (λ d,
    if decide (status d = Connected) then
      let d' := set_status Disconnected d in
      (Ok d', set_reconnect (delete i (reconnect s)) (put_definition i d' s))
    else (Err InvalidState, s)).

(** [attempt + 1] on [u32], in a build with or without overflow checks. *)
Definition next_attempt (checks : bool) (n : N) : outcome N :=
  if decide (n < u32_max)%N then Done (n + 1)%N else if checks then Panic else Done 0%N.

Definition mark_reconnecting (checks : bool) i (p : ReconnectPolicy) (jittered : N → N) (now : N) s
    : res TunnelServiceError ReconnectInfo * TunnelService :=
  with_definition i s (λ d,
    if decide (status d = Revoked) then (Err InvalidState, s)
    else if decide (expires_at_ms d < now)%N then (Err Expired, s)
    else
      match (match reconnect s !! i with
             | None => Done 0%N
             | Some info => next_attempt checks (attempt info)
             end) with
      | Panic => (Panicked, s)
      | Done n =>
          let info := mkReconnect n (delay_for p jittered n) in
          let d' := if decide (status d = Connecting) then d else set_status Reconnecting d in
          (Ok info, put_definition i d' (set_reconnect (<[i := info]> (reconnect s)) s))
      end).

(** [values().map(|t| t.active_connections).sum()] *)
Definition total_connections s : nat :=
  map_fold (λ _ n total, n + total) 0 (active_connections <$> tunnels s).

Definition try_acquire_connection i (now : N) s
    : res TunnelServiceError TunnelDefinition * TunnelService :=
  if decide (MAX_ACTIVE_RECEIVED_TUNNELS ≤ total_connections s) then (Err ReceivedTunnelLimitReached, s)
  else with_definition i s (λ d,
    if decide (expires_at_ms d < now)%N then (Err Expired, s)
    else if decide (max_connections d ≤ active_connections d) then (Err ConnectionLimitReached, s)
    else
      let d := set_active (S (active_connections d)) d in
      let d' := if decide (status d = Active) then set_status Connecting d else d in
      (Ok d', put_definition i d' s)).

Definition release_connection i s : TunnelService :=
  match tunnels s !! i with
  | None => s
  | Some d =>
      let d := set_active (pred (active_connections d)) d in
      let d' := if decide (active_connections d = 0 ∧ status d = Connected)
                then set_status Active d else d in
      put_definition i d' s
  end.

(** [while front <= cutoff { pop_front }] *)
Fixpoint pop_old (cutoff : Z) (l : list Z) : list Z :=
  match l with
  | [] => []
  | t :: l' => if decide (t ≤ cutoff)%Z then pop_old cutoff l' else l
  end.

(** [Instant::checked_sub]: [earliest] is the first instant the platform represents. *)
Definition cutoff_of (earliest now : Z) : Z :=
  if decide (earliest ≤ now - CONNECTION_ATTEMPT_INTERVAL)%Z
  then (now - CONNECTION_ATTEMPT_INTERVAL)%Z else now.

Definition record_connection_attempt (earliest : Z) (peer : PublicKey) (now : Z) s
    : res TunnelServiceError unit * TunnelService :=
  let attempts := attempt_times s in
  if decide (attempts !! peer = None ∧ MAX_TRACKED_ATTEMPT_PEERS ≤ size attempts)
  then (Err ConnectionAttemptLimitReached, s)
  else
    let history := pop_old (cutoff_of earliest now) (default [] (attempts !! peer)) in
    if decide (MAX_CONNECTION_ATTEMPTS_PER_INTERVAL ≤ length history)
    then (Err ConnectionAttemptLimitReached, set_attempts (<[peer := history]> attempts) s)
    else (Ok tt, set_attempts (<[peer := history ++ [now]]> attempts) s).

End service.

Module tunnel.
Import enrollment service.

Definition TUNNEL_PROTOCOL_VERSION : N := 1.
Definition TUNNEL_CAPABILITY_VERSION : N := 1.
Definition TUNNEL_CAPABILITY_PROTOCOL : string := "boru/tunnel-capability".

Record TunnelCapability : Type := mkCapability {
  version : N;
  cap_tunnel_id : TunnelId;
  owner_endpoint_id : PublicKey;
  allowed_peer_endpoint_id : PublicKey;
  cap_created_at_ms : N;
  cap_expires_at_ms : N;
  nonce : Bytes;
  signature : Bytes
}.

Inductive CapabilityVerificationError : Type :=
| InvalidSignature | OwnerMismatch | RecipientMismatch | TunnelMismatched | CapabilityExpired
| NotYetValid | UnsupportedVersion | TunnelInactive.

#[export] Instance capability_error_eq_dec : EqDecision CapabilityVerificationError.
Proof. solve_decision. Defined.

Inductive TunnelRequest : Type :=
| Open (protocol_version : N) (tunnel_id : TunnelId) (capability : TunnelCapability)
| Enroll (protocol_version : N) (tunnel_id : TunnelId) (tok : option Text).

Definition open (i : TunnelId) (c : TunnelCapability) : TunnelRequest :=
  Open TUNNEL_PROTOCOL_VERSION i c.

Definition enroll (i : TunnelId) (tok : option Text) : TunnelRequest :=
  Enroll TUNNEL_PROTOCOL_VERSION i tok.

Definition protocol_version (r : TunnelRequest) : N :=
  match r with Open v _ _ | Enroll v _ _ => v end.

Definition tunnel_id (r : TunnelRequest) : TunnelId :=
  match r with Open _ i _ | Enroll _ i _ => i end.

Inductive TunnelRejectReason : Type :=
| UnknownTunnel | NotAuthorised | ReasonExpired | InvalidCapability | TargetUnavailable | Busy
| ProtocolMismatch | InternalError.

Inductive TunnelResponse : Type := Accepted | Rejected (r : TunnelRejectReason).

Definition reject_for_protocol_version (v : N) : TunnelResponse :=
  if decide (v = TUNNEL_PROTOCOL_VERSION) then Accepted else Rejected ProtocolMismatch.

Abbreviation CapFields := (TunnelId * PublicKey * PublicKey * N * N * Bytes)%type.
Abbreviation LegacyCap := (N * TunnelId * PublicKey * PublicKey * N * N * Bytes)%type.

(** ** The task of an incoming stream *)

(** The locals of the task once the request is authorised: the request, the definition that
    was looked up, and the time at which it was authorised. *)
Record Access : Type := mkAccess {
  a_request : TunnelRequest;
  a_definition : TunnelDefinition;
  a_time : N
}.

(** Where the task is.  Between two points it calls the service once or waits for the
    network. *)
Inductive Phase : Type :=
| Reading
| Requested (r : TunnelRequest)
| Limited (r : TunnelRequest)
| Known (r : TunnelRequest) (d : TunnelDefinition)
| Authorised (a : Access)
| Reserved (a : Access)
| Dialing (a : Access) (tok : Token)
| Dialed (a : Access) (tok : Token)
| Marked (a : Access) (tok : Token)
| Opened (a : Access) (tok : Token)
| Forwarding (a : Access) (tok : Token)
| Released (a : Access)
| Rejecting (response : TunnelResponse)
| Ended.

(** What the environment contributes to a step: whether the pending input or output
    succeeds, the clocks, the request that arrives, the route, and how a write of the
    enrollment file ends. *)
Record Input : Type := mkInput {
  in_ok : bool;
  in_now : N;
  in_instant : Z;
  in_request : TunnelRequest;
  in_route : TunnelRoute;
  in_write : WriteEnd
}.

Section tunnel.
Context `{!Ed25519, !Sha256, !KeyText, !StateJson}.
Context `{!Encodable (string * N * CapFields), !Encodable LegacyCap}.
Context (utf8 : Text → Bytes) (earliest : Z).
Implicit Types (c : TunnelCapability) (s : TunnelService) (f : FileState).

Definition signing_bytes c : Bytes :=
  mailbox.expect (protocol_signing.canonical_signed_bytes TUNNEL_CAPABILITY_PROTOCOL (version c)
    (cap_tunnel_id c, owner_endpoint_id c, allowed_peer_endpoint_id c, cap_created_at_ms c,
     cap_expires_at_ms c, nonce c)).

Definition legacy_signing_bytes c : Bytes :=
  encoded (version c, cap_tunnel_id c, owner_endpoint_id c, allowed_peer_endpoint_id c,
           cap_created_at_ms c, cap_expires_at_ms c, nonce c).

(** [fresh] are the random bytes of the nonce. *)
Definition sign (own : SecretKey) (peer : PublicKey) (i : TunnelId) (created expires : N)
    (fresh : Bytes) : TunnelCapability :=
  let cap sig := mkCapability TUNNEL_CAPABILITY_VERSION i (public own) peer created expires fresh sig in
  cap (Signing.sign own (signing_bytes (cap (replicate 64 x00)))).

Definition verify_for (expected_owner requesting_peer : PublicKey) (expected_tunnel : TunnelId)
    (now_ms : N) (tunnel_active : bool) c : res CapabilityVerificationError unit :=
  ensure (bool_decide (version c = TUNNEL_CAPABILITY_VERSION)) UnsupportedVersion;;
  ensure (bool_decide (owner_endpoint_id c = expected_owner)) OwnerMismatch;;
  ensure (bool_decide (allowed_peer_endpoint_id c = requesting_peer)) RecipientMismatch;;
  ensure (bool_decide (cap_tunnel_id c = expected_tunnel)) TunnelMismatched;;
  ensure tunnel_active TunnelInactive;;
  ensure (bool_decide (cap_created_at_ms c ≤ now_ms)%N) NotYetValid;;
  ensure (bool_decide (now_ms ≤ cap_expires_at_ms c)%N) CapabilityExpired;;
  ensure (protocol_signing.verify_canonical_or_legacy (owner_endpoint_id c) (signature c)
            (signing_bytes c) (legacy_signing_bytes c)) InvalidSignature.

(** The error of the enrollment store as the one of a capability. *)
Definition enrollment_error (e : EnrollmentError) : CapabilityVerificationError :=
  match e with
  | TokenExpired => CapabilityExpired
  | _ => InvalidSignature
  end.

Definition map_err {E E' A} (g : E → E') (r : res E A) : res E' A :=
  match r with
  | Ok a => Ok a
  | Err e => Err (g e)
  | Panicked => Panicked
  end.

Definition authorize (own peer : PublicKey) (r : TunnelRequest) (d : TunnelDefinition) (now : N)
    (w : WriteEnd) s f : res CapabilityVerificationError unit * TunnelService * FileState :=
  match r with
  | Open _ i c => (verify_for own peer i now (bool_decide (status d ≠ Revoked)) c, s, f)
  | Enroll _ i (Some tok) =>
      let '(e, es, f') := redeem utf8 tok i peer now w (enrollment s) f in
      (map_err enrollment_error e, set_enrollment es s, f')
  | Enroll _ i None =>
      (if is_pinned i peer (enrollment s) then Ok tt else Err (enrollment_error UnknownToken), s, f)
  end.

(** [handle_incoming_stream], one step. *)
Definition stream_step (own peer : PublicKey) (x : Input) (ph : Phase) s f
    : Phase * TunnelService * FileState :=
  match ph with
  | Reading => (if in_ok x then Requested (in_request x) else Ended, s, f)
  | Requested r =>
      if decide (protocol_version r ≠ TUNNEL_PROTOCOL_VERSION)
      then (Rejecting (reject_for_protocol_version (protocol_version r)), s, f)
      else
        let '(e, s') := record_connection_attempt earliest peer (in_instant x) s in
        (if is_ok e then Limited r else Rejecting (Rejected Busy), s', f)
  | Limited r =>
      (match get_tunnel (tunnel_id r) s with
       | Some d => Known r d
       | None => Rejecting (Rejected UnknownTunnel)
       end, s, f)
  | Known r d =>
      let '(e, s', f') := authorize own peer r d (in_now x) (in_write x) s f in
      (match e with
       | Ok _ => Authorised (mkAccess r d (in_now x))
       | Err CapabilityExpired => Rejecting (Rejected ReasonExpired)
       | _ => Rejecting (Rejected InvalidCapability)
       end, s', f')
  | Authorised a =>
      let '(e, s') := try_acquire_connection (tunnel_id (a_request a)) (in_now x) s in
      (match e with
       | Ok _ => Reserved a
       | Err ConnectionLimitReached | Err ReceivedTunnelLimitReached => Rejecting (Rejected Busy)
       | Err Expired => Rejecting (Rejected ReasonExpired)
       | _ => Rejecting (Rejected InvalidCapability)
       end, s', f)
  | Reserved a =>
      (match cancellation_token (tunnel_id (a_request a)) s with
       | Ok tok => Dialing a tok
       | _ => Ended
       end, s, f)
  | Dialing a tok =>
      if in_ok x then (Dialed a tok, s, f)
      else (Rejecting (Rejected TargetUnavailable), release_connection (tunnel_id (a_request a)) s, f)
  | Dialed a tok =>
      let '(e, s') := mark_connected (tunnel_id (a_request a)) s in
      (if is_ok e then Marked a tok else Ended, s', f)
  | Marked a tok =>
      (Opened a tok, record_connection_opened (tunnel_id (a_request a)) (in_now x)
                       (record_route (tunnel_id (a_request a)) (in_route x) s), f)
  | Opened a tok => (if in_ok x then Forwarding a tok else Ended, s, f)
  | Forwarding a tok => (Released a, release_connection (tunnel_id (a_request a)) s, f)
  | Released a => (Ended, record_connection_closed (tunnel_id (a_request a)) s, f)
  | Rejecting _ => (Ended, s, f)
  | Ended => (Ended, s, f)
  end.

(** ** A node: its streams, the user and restarts *)

Record Node : Type := mkNode {
  n_service : TunnelService;
  n_file : FileState;
  n_streams : list (PublicKey * Phase)
}.

Inductive LocalOp : Type :=
| Create (i : TunnelId) (tgt : TunnelTarget) (peer : PublicKey) (created expires : N) (limit : nat)
| Revoke (i : TunnelId) (terminate : bool)
| Connect (i : TunnelId) (now : N)
| MarkConnected (i : TunnelId)
| MarkFailed (i : TunnelId)
| MarkDisconnected (i : TunnelId)
| MarkReconnecting (i : TunnelId) (p : ReconnectPolicy) (jittered : N → N) (now : N)
| Mint (i : TunnelId) (ttl_secs now : N) (raw : Bytes) (w : WriteEnd)
| Unpin (i : TunnelId) (peer : PublicKey) (w : WriteEnd)
| RemoveEnrollments (i : TunnelId) (w : WriteEnd).

(** What the application calls on the service and its store. *)
Definition local_op (own : PublicKey) (op : LocalOp) s f : TunnelService * FileState :=
  match op with
  | Create i tgt peer created expires limit =>
      (snd (create_tunnel_with_limit i own tgt peer created expires limit s), f)
  | Revoke i terminate => (snd (revoke_tunnel_with_termination i terminate s), f)
  | Connect i now => (snd (connect_tunnel i now s), f)
  | MarkConnected i => (snd (mark_connected i s), f)
  | MarkFailed i => (snd (mark_failed i s), f)
  | MarkDisconnected i => (snd (mark_disconnected i s), f)
  | MarkReconnecting i p jittered now => (snd (mark_reconnecting false i p jittered now s), f)
  | Mint i ttl now raw w =>
      let '(_, es, f') := mint utf8 i ttl now raw w (enrollment s) f in (set_enrollment es s, f')
  | Unpin i peer w =>
      let '(es, f') := unpin i peer w (enrollment s) f in (set_enrollment es s, f')
  | RemoveEnrollments i w =>
      let '(es, f') := remove_tunnel i w (enrollment s) f in (set_enrollment es s, f')
  end.

Inductive Action : Type :=
| Accept (peer : PublicKey)
| Stream (k : nat) (x : Input)
| Local (op : LocalOp)
| Restart (data_dir : Text).

(** A stream of a connection becomes a task; a restart ends all tasks and forgets all
    tunnels. *)
Definition node_step (own : PublicKey) (act : Action) (n : Node) : Node :=
  match act with
  | Accept peer => mkNode (n_service n) (n_file n) (n_streams n ++ [(peer, Reading)])
  | Stream k x =>
      match n_streams n !! k with
      | None => n
      | Some (peer, ph) =>
          let '(ph', s', f') := stream_step own peer x ph (n_service n) (n_file n) in
          mkNode s' f' (<[k := (peer, ph')]> (n_streams n))
      end
  | Local op => let '(s', f') := local_op own op (n_service n) (n_file n) in mkNode s' f' (n_streams n)
  | Restart dir => mkNode (with_enrollment_store (load_or_default dir (n_file n))) (n_file n) []
  end.

Definition node_run (own : PublicKey) (acts : list Action) (n : Node) : Node :=
  foldl (λ n act, node_step own act n) n acts.

End tunnel.
End tunnel.

Module reconnect_link.
Import service.

Inductive TunnelLinkStatus : Type :=
| Idle | LinkConnecting | LinkConnected | LinkReconnecting (attempt next_delay : N) | Stopped.

(** Where the loop is: before the checks, waiting for the connection, waiting for its end,
    after it, and waiting for the next attempt. *)
Inductive LoopPc : Type :=
| Top (attempt : N) | Dial (attempt : N) | Up | Down (attempt : N) | Sleep (attempt : N) | Finished.

Record LoopInput : Type := mkLoopInput {
  li_cancelled : bool;
  li_expired : bool;
  li_connected : bool;
  li_jittered : N → N
}.

(** [run_reconnect_loop], one step, with the status it sends. *)
Definition loop_step (p : ReconnectPolicy) (x : LoopInput) (pc : LoopPc) : LoopPc * list TunnelLinkStatus :=
  match pc with
  | Top n =>
      if li_cancelled x then (Finished, [Stopped])
      else if li_expired x then (Finished, [Stopped])
      else (Dial n, [LinkConnecting])
  | Dial n => if li_connected x then (Up, [LinkConnected]) else (Down n, [])
  | Up => if li_cancelled x then (Finished, [Stopped]) else (Down 0, [])
  | Down n =>
      if li_cancelled x then (Finished, [Stopped])
      else if li_expired x then (Finished, [Stopped])
      else (Sleep (N.min u32_max (n + 1)), [LinkReconnecting n (delay_for p (li_jittered x) n)])
  | Sleep n => if li_cancelled x then (Finished, [Stopped]) else (Top n, [])
  | Finished => (Finished, [])
  end.

Fixpoint loop_run (p : ReconnectPolicy) (xs : list LoopInput) (pc : LoopPc) : LoopPc * list TunnelLinkStatus :=
  match xs with
  | [] => (pc, [])
  | x :: xs' =>
      let '(pc, out) := loop_step p x pc in
      let '(pc, out') := loop_run p xs' pc in (pc, out ++ out')
  end.

End reconnect_link.
