(* ===== verification/TunnelFacts.v ===== *)
(** * Correctness of tunnels

    Slots, access and termination are proved of every run of a node, in which the tasks of
    the streams, the user and restarts take steps in any order; the tokens of the enrollment
    store of every history of it; the limiter against the log of [Window]; the backoff
    against its closed form.  The last part shows what is lost when a peer hangs up early,
    when a file is not written and when a tunnel is revoked. *)

From Stdlib Require Import Strings.Byte NArith ZArith QArith.
From stdpp Require Import prelude gmap sorting strings.
From S2P Require Import Prelude Text Window Signing Concrete Mailbox MailboxFacts Tunnel.
Import enrollment service tunnel.

Implicit Types (s : TunnelService) (d : TunnelDefinition) (i j : TunnelId) (f : FileState).

(** ** Services *)

(** What matters of a definition for access and slots. *)
Definition shape d : TunnelId * TunnelTarget * nat * nat :=
  (id d, target d, max_connections d, active_connections d).

Record same_slots s s' : Prop := mkSame {
  same_shape : shape <$> tunnels s' = shape <$> tunnels s;
  same_cancellation : cancellation s' = cancellation s;
  same_next : next_token s' = next_token s;
  same_cancelled : cancelled s' = cancelled s
}.

#[export] Instance same_slots_refl : Reflexive same_slots.
Proof. by split. Qed.

#[export] Instance same_slots_trans : Transitive same_slots.
Proof. intros s s' s'' [] []. split; congruence. Qed.

Lemma shape_status st d : shape (set_status st d) = shape d.
Proof. done. Qed.

Lemma same_put i d d' s :
  tunnels s !! i = Some d → shape d' = shape d → same_slots s (put_definition i d' s).
Proof.
  intros Hi Hs. split; try done. simpl. rewrite fmap_insert, Hs. apply insert_id.
  by rewrite lookup_fmap, Hi.
Qed.

Lemma same_set_reconnect r s : same_slots s (set_reconnect r s).
Proof. by split. Qed.

Lemma same_enrollment e s : same_slots s (set_enrollment e s).
Proof. by split. Qed.

Lemma same_put_reconnect i d d' r s :
  tunnels s !! i = Some d → shape d' = shape d →
  same_slots s (set_reconnect r (put_definition i d' s)).
Proof. intros Hi Hs. etrans; [by apply (same_put i d d')|]. apply same_set_reconnect. Qed.

Lemma same_reconnect_put i d d' r s :
  tunnels s !! i = Some d → shape d' = shape d →
  same_slots s (put_definition i d' (set_reconnect r s)).
Proof. intros Hi Hs. etrans; [apply (same_set_reconnect r)|]. by apply (same_put i d d'). Qed.

(** The operations that change the state of a tunnel. *)
Ltac same_case s i :=
  unfold with_definition; destruct (tunnels s !! i) as [d|] eqn:Hd; [|reflexivity];
  repeat (case_match || case_decide); try reflexivity;
  eauto using same_put, same_put_reconnect, same_reconnect_put, shape_status.

Lemma same_connect i now s : same_slots s (snd (connect_tunnel i now s)).
Proof. unfold connect_tunnel. same_case s i. Qed.

Lemma same_mark_connected i s : same_slots s (snd (mark_connected i s)).
Proof. unfold mark_connected. same_case s i. Qed.

Lemma same_mark_failed i s : same_slots s (snd (mark_failed i s)).
Proof. unfold mark_failed. same_case s i. Qed.

Lemma same_mark_disconnected i s : same_slots s (snd (mark_disconnected i s)).
Proof. unfold mark_disconnected. same_case s i. Qed.

Lemma same_mark_reconnecting checks i p g now s :
  same_slots s (snd (mark_reconnecting checks i p g now s)).
Proof. unfold mark_reconnecting. same_case s i. Qed.

Lemma same_attempt e peer now s : same_slots s (snd (record_connection_attempt e peer now s)).
Proof. unfold record_connection_attempt. repeat case_decide; by split. Qed.

(** ** Totals *)

Abbreviation total m := (map_fold (λ (_ : TunnelId) n total, n + total) 0 m).

Lemma total_insert_new (m : gmap TunnelId nat) i n : m !! i = None → total (<[i := n]> m) = n + total m.
Proof.
  intros Hi. apply (map_fold_insert_L (λ (_ : TunnelId) n total, n + total)); [intros; lia|done].
Qed.

Lemma total_delete (m : gmap TunnelId nat) i n : m !! i = Some n → total m = n + total (delete i m).
Proof.
  intros Hi. apply (map_fold_delete_L (λ (_ : TunnelId) n total, n + total)); [intros; lia|done].
Qed.

Lemma total_insert (m : gmap TunnelId nat) i n n' :
  m !! i = Some n → n + total (<[i := n']> m) = n' + total m.
Proof.
  intros Hi. rewrite (total_delete _ _ _ Hi), <- insert_delete_eq.
  rewrite total_insert_new by apply lookup_delete_eq. lia.
Qed.

Lemma total_shape s s' :
  shape <$> tunnels s' = shape <$> tunnels s → total_connections s' = total_connections s.
Proof.
  intros Heq%(f_equal (fmap snd)). rewrite <- !map_fmap_compose in Heq.
  unfold total_connections. change active_connections with (snd ∘ shape). by rewrite Heq.
Qed.

Lemma size_shape s s' : shape <$> tunnels s' = shape <$> tunnels s → size (tunnels s') = size (tunnels s).
Proof. intros Heq%(f_equal size). by rewrite !map_size_fmap in Heq. Qed.

Lemma same_lookup s s' i d' :
  same_slots s s' → tunnels s' !! i = Some d' →
  ∃ d, tunnels s !! i = Some d ∧ shape d' = shape d.
Proof.
  intros [Hs _ _ _] Hi. apply (f_equal (lookup i)) in Hs. rewrite !lookup_fmap, Hi in Hs.
  destruct (tunnels s !! i) as [d|]; [|done]. exists d.
  split; [done|]. simpl in Hs. congruence.
Qed.

Lemma acquire_Ok i now s :
  is_ok (try_acquire_connection i now s).1 = true →
  total_connections s < 32 ∧
  ∃ d d', tunnels s !! i = Some d ∧ active_connections d < max_connections d ∧
    shape d' = (id d, target d, max_connections d, S (active_connections d)) ∧
    (try_acquire_connection i now s).2 = put_definition i d' s.
Proof.
  unfold try_acquire_connection, with_definition, MAX_ACTIVE_RECEIVED_TUNNELS.
  case_decide as Ht; [done|]. destruct (tunnels s !! i) as [d|]; [|done].
  case_decide; [done|]. case_decide; [done|]. simpl. intros _. split; [lia|].
  eexists d, _. split_and!; [done|lia| |reflexivity]. by case_decide.
Qed.

Lemma release_shape i s d :
  tunnels s !! i = Some d →
  ∃ d', shape d' = (id d, target d, max_connections d, pred (active_connections d)) ∧
    release_connection i s = put_definition i d' s.
Proof.
  intros Hi. unfold release_connection. rewrite Hi. eexists. split; [|reflexivity]. by case_decide.
Qed.

Lemma total_put i d d' s :
  tunnels s !! i = Some d →
  active_connections d + total_connections (put_definition i d' s) =
  active_connections d' + total_connections s.
Proof.
  intros Hi. unfold total_connections. simpl. rewrite fmap_insert.
  apply total_insert. by rewrite lookup_fmap, Hi.
Qed.

Lemma size_put i d d' s :
  tunnels s !! i = Some d → size (tunnels (put_definition i d' s)) = size (tunnels s).
Proof. intros Hi. apply map_size_insert_Some. by rewrite Hi. Qed.

(** ** Streams *)

Definition slot_of (ph : Phase) : option Access :=
  match ph with
  | Reserved a | Dialing a _ | Dialed a _ | Marked a _ | Opened a _ | Forwarding a _ => Some a
  | _ => None
  end.

(** The tunnel whose slot the task holds, and the tunnel and token it watches. *)
Definition slot_id (ph : Phase) : option TunnelId := tunnel_id ∘ a_request <$> slot_of ph.

Definition token_of (ph : Phase) : option (TunnelId * Token) :=
  match ph with
  | Dialing a tok | Dialed a tok | Marked a tok | Opened a tok | Forwarding a tok =>
      Some (tunnel_id (a_request a), tok)
  | _ => None
  end.

Definition access_of (ph : Phase) : option Access :=
  match ph with
  | Authorised a | Released a => Some a
  | _ => slot_of ph
  end.

(** How many tasks hold a slot of the tunnel. *)
Definition holding i (l : list (PublicKey * Phase)) : nat :=
  length (filter (λ x, slot_id x.2 = Some i) l).

Definition one (P : Prop) `{!Decision P} : nat := if decide P then 1 else 0.

Lemma filter_cons_length {A} (P : A → Prop) `{!∀ x, Decision (P x)} x l :
  length (filter P (x :: l)) = one (P x) + length (filter P l).
Proof. rewrite filter_cons. unfold one. by case_decide. Qed.

Lemma count_insert {A} (P : A → Prop) `{!∀ x, Decision (P x)} (l : list A) k x y :
  l !! k = Some x →
  one (P x) + length (filter P (<[k := y]> l)) = one (P y) + length (filter P l).
Proof.
  revert k. induction l as [|z l IH]; intros [|k] Hk; simplify_eq/=; rewrite !filter_cons_length.
  - lia.
  - apply IH in Hk. lia.
Qed.

Lemma holding_insert i l k peer ph ph' :
  l !! k = Some (peer, ph) →
  one (slot_id ph = Some i) + holding i (<[k := (peer, ph')]> l) =
  one (slot_id ph' = Some i) + holding i l.
Proof.
  intros Hk. exact (count_insert (λ x : PublicKey * Phase, slot_id x.2 = Some i) l k _ (peer, ph') Hk).
Qed.

Lemma holding_accept i l peer : holding i (l ++ [(peer, Reading)]) = holding i l.
Proof.
  unfold holding. rewrite filter_app, length_app, filter_cons_length. unfold one.
  rewrite decide_False by done. simpl. lia.
Qed.

Lemma holding_elem i l k peer ph : l !! k = Some (peer, ph) → slot_id ph = Some i → 1 ≤ holding i l.
Proof.
  intros Hk Hs. pose proof (holding_insert i l k peer ph Ended Hk) as Heq. revert Heq.
  unfold one. rewrite decide_True by done. rewrite decide_False by done. lia.
Qed.

(** ** Runs *)

Section runs.
Context `{!Ed25519, !Sha256, !KeyText, !StateJson}.
Context `{!Encodable (string * N * CapFields), !Encodable LegacyCap}.
Context (utf8 : Text → Bytes) (earliest : Z) (own : PublicKey).
Implicit Types (n : Node) (x : Input) (ph : Phase) (peer : PublicKey) (used : gset TunnelId)
  (g : TunnelId → nat).

Abbreviation step := (node_step utf8 earliest own).
Abbreviation run := (node_run utf8 earliest own).
Abbreviation sstep := (stream_step utf8 earliest own).

Lemma same_authorize peer r d now w s f : same_slots s (authorize utf8 own peer r d now w s f).1.2.
Proof.
  unfold authorize. destruct r as [|? ? [tok|]]; try reflexivity.
  destruct (redeem _ _ _ _ _ _ _ _) as [[e es] f']. apply same_enrollment.
Qed.

(** Steps of a task that take or give back no slot. *)
Definition quiet ph : bool :=
  match ph with
  | Authorised _ | Dialing _ _ | Forwarding _ _ => false
  | _ => true
  end.

Lemma same_quiet peer x ph s f : quiet ph = true → same_slots s (sstep peer x ph s f).1.2.
Proof.
  intros Hq. destruct ph; try done; cbn [stream_step].
  - case_decide; [done|]. pose proof (same_attempt earliest peer (in_instant x) s) as Hs.
    by destruct (record_connection_attempt _ _ _ _).
  - pose proof (same_authorize peer r d (in_now x) (in_write x) s f) as Hs.
    by destruct (authorize _ _ _ _ _ _ _ _) as [[e s'] f'].
  - pose proof (same_mark_connected (tunnel_id (a_request a)) s) as Hs.
    by destruct (mark_connected _ _).
Qed.

(** Operations of the user that neither create nor revoke a tunnel. *)
Definition steady (op : LocalOp) : bool :=
  match op with
  | Create _ _ _ _ _ _ | Revoke _ _ => false
  | _ => true
  end.

Lemma same_local op s f : steady op = true → same_slots s (local_op utf8 own op s f).1.
Proof.
  intros Hs. destruct op; try done; cbn [local_op fst];
    [apply same_connect|apply same_mark_connected|apply same_mark_failed
    |apply same_mark_disconnected|apply same_mark_reconnecting].
Qed.

(** What a task holds after a step. *)
Lemma slot_step peer x ph s f ph' s' f' :
  sstep peer x ph s f = (ph', s', f') →
  match ph with
  | Authorised a =>
      slot_of ph' = None ∧ s' = s ∨
      slot_of ph' = Some a ∧ ph' = Reserved a ∧
        (try_acquire_connection (tunnel_id (a_request a)) (in_now x) s).2 = s' ∧
        is_ok (try_acquire_connection (tunnel_id (a_request a)) (in_now x) s).1 = true
  | Dialing a _ =>
      slot_of ph' = Some a ∧ s' = s ∨
      slot_of ph' = None ∧ s' = release_connection (tunnel_id (a_request a)) s
  | Forwarding a _ => slot_of ph' = None ∧ s' = release_connection (tunnel_id (a_request a)) s
  | _ => slot_of ph' = slot_of ph ∨ slot_of ph' = None
  end.
Proof.
  intros Heq. destruct ph; cbn [stream_step] in Heq; simplify_eq/=; auto.
  - left. by destruct (in_ok x).
  - left. revert Heq. case_decide; [intros; by simplify_eq|].
    destruct (record_connection_attempt _ _ _ _) as [e ?]. intros. simplify_eq. by destruct (is_ok e).
  - left. by destruct (get_tunnel _ _).
  - left. revert Heq. destruct (authorize _ _ _ _ _ _ _ _) as [[[] ?] ?]; intros; simplify_eq; try done.
    by destruct e.
  - destruct (try_acquire_connection _ _ _) as [[d|e|] s1] eqn:Ha; simplify_eq/=; [by right|left..].
    + split; [by destruct e|]. revert Ha. unfold try_acquire_connection, with_definition.
      repeat case_match; naive_solver.
    + revert Ha. unfold try_acquire_connection, with_definition. repeat case_match; naive_solver.
  - destruct (cancellation_token _ _); auto.
  - destruct (in_ok x); simplify_eq/=; auto.
  - destruct (mark_connected _ _) as [e ?]. simplify_eq. destruct (is_ok e); auto.
  - destruct (in_ok x); auto.
Qed.

(** ** Slots *)

(** [g] counts slots that are taken but held by no task. *)
Record node_inv used g n : Prop := mkInv {
  ni_defs i d :
    tunnels (n_service n) !! i = Some d →
    id d = i ∧ is_loopback (target d) = true ∧ active_connections d ≤ max_connections d ∧
    i ∈ used ∧ holding i (n_streams n) + g i ≤ active_connections d;
  ni_total : total_connections (n_service n) ≤ 32;
  ni_size : size (tunnels (n_service n)) ≤ 32;
  ni_unused i : i ∉ used → holding i (n_streams n) + g i = 0
}.

Lemma inv_same used g n s' f' l' :
  node_inv used g n → same_slots (n_service n) s' →
  (∀ i, holding i l' ≤ holding i (n_streams n)) → node_inv used g (mkNode s' f' l').
Proof.
  intros [Hd Ht Hz Hu] Hs Hl. split; cbn [n_service n_streams].
  - intros i d' Hi. destruct (same_lookup _ _ _ _ Hs Hi) as (d & Hi' & Heq).
    apply Hd in Hi'. unfold shape in Heq. simplify_eq. specialize (Hl i). intuition congruence || lia.
  - by rewrite (total_shape _ _ (same_shape _ _ Hs)).
  - by rewrite (size_shape _ _ (same_shape _ _ Hs)).
  - intros i Hi. specialize (Hl i). apply Hu in Hi. lia.
Qed.

(** A task takes a slot or gives one back. *)
Lemma inv_put used g n i d d' f' l' :
  node_inv used g n → tunnels (n_service n) !! i = Some d →
  id d' = id d → target d' = target d → max_connections d' = max_connections d →
  active_connections d' ≤ max_connections d → holding i l' + g i ≤ active_connections d' →
  active_connections d' + total_connections (n_service n) ≤ 32 + active_connections d →
  (∀ j, j ≠ i → holding j l' = holding j (n_streams n)) →
  node_inv used g (mkNode (put_definition i d' (n_service n)) f' l').
Proof.
  intros [Hd Ht Hz Hu] Hi Hid Htg Hmx Ha Hh Htot Hl. destruct (Hd _ _ Hi) as (E1 & E2 & E3 & E4 & E5).
  split; cbn [n_service n_streams].
  - intros j e. cbn. destruct (decide (j = i)) as [->|Hne].
    + rewrite lookup_insert_eq. intros [= <-]. rewrite Hid, Htg, Hmx. auto.
    + rewrite lookup_insert_ne by done. intros He. rewrite (Hl j Hne). by apply Hd.
  - pose proof (total_put _ _ d' _ Hi). lia.
  - by rewrite (size_put _ _ _ _ Hi).
  - intros j Hj. rewrite Hl by (intros ->; done). by apply Hu.
Qed.

Ltac count_slots Hc :=
  revert Hc; unfold slot_id, one; simpl; repeat case_decide; simplify_eq; try congruence; lia.

Lemma inv_release used g n k peer ph a ph' f' :
  node_inv used g n → n_streams n !! k = Some (peer, ph) →
  slot_of ph = Some a → slot_of ph' = None →
  node_inv used g (mkNode (release_connection (tunnel_id (a_request a)) (n_service n)) f'
                   (<[k := (peer, ph')]> (n_streams n))).
Proof.
  intros Hinv Hk Ha Hn. set (i := tunnel_id (a_request a)).
  pose proof (λ i, holding_insert i _ _ _ _ ph' Hk) as Hcount. unfold slot_id in Hcount.
  rewrite Ha, Hn in Hcount. simpl in Hcount.
  destruct (tunnels (n_service n) !! i) as [d|] eqn:Hi.
  - destruct (release_shape _ _ _ Hi) as (d' & Hsh & ->). unfold shape in Hsh. simplify_eq.
    destruct (ni_defs _ _ _ Hinv _ _ Hi) as (E1 & E2 & E3 & E4 & E5).
    assert (1 ≤ holding i (n_streams n)).
    { eapply holding_elem; [exact Hk|]. unfold slot_id. by rewrite Ha. }
    pose proof (ni_total _ _ _ Hinv).
    apply (inv_put used g n i d); [done..|lia| |lia|].
    + specialize (Hcount i). count_slots Hcount.
    + intros j Hj. specialize (Hcount j). count_slots Hcount.
  - unfold release_connection. fold i. rewrite Hi. apply (inv_same used g n); [done..|].
    intros j. specialize (Hcount j). count_slots Hcount.
Qed.

Lemma inv_stream used g n k x : node_inv used g n → node_inv used g (step (Stream k x) n).
Proof.
  intros Hinv. cbn [node_step]. destruct (n_streams n !! k) as [[peer ph]|] eqn:Hk; [|done].
  destruct (sstep peer x ph (n_service n) (n_file n)) as [[ph' s'] f'] eqn:Hst.
  pose proof (slot_step _ _ _ _ _ _ _ _ Hst) as Hslot.
  pose proof (λ i, holding_insert i _ _ _ _ ph' Hk) as Hcount.
  destruct (quiet ph) eqn:Hq.
  { assert (same_slots (n_service n) s') as Hs.
    { pose proof (same_quiet peer x ph (n_service n) (n_file n) Hq). by rewrite Hst in *. }
    apply (inv_same used g n); [done..|]. intros i. specialize (Hcount i).
    assert (slot_id ph' = slot_id ph ∨ slot_id ph' = None) as [Heq|Heq].
    { unfold slot_id. destruct ph; try done; destruct Hslot as [->| ->]; auto. }
    - rewrite Heq in Hcount. lia.
    - rewrite Heq in Hcount. count_slots Hcount. }
  destruct ph; try done.
  - destruct Hslot as [[Hn ->]|(Hn & -> & <- & Hok)].
    + apply (inv_same used g n); [done..|]. intros i. specialize (Hcount i). unfold slot_id in Hcount.
      rewrite Hn in Hcount. count_slots Hcount.
    + destruct (acquire_Ok _ _ _ Hok) as (Ht & d & d' & Hi & Hlt & Hsh & ->).
      unfold shape in Hsh. simplify_eq. destruct (ni_defs _ _ _ Hinv _ _ Hi) as (E1 & E2 & E3 & E4 & E5).
      apply (inv_put used g n _ d); [done..|lia| |lia|].
      * specialize (Hcount (tunnel_id (a_request a))). count_slots Hcount.
      * intros j Hj. specialize (Hcount j). count_slots Hcount.
  - destruct Hslot as [[Hn ->]|[Hn ->]].
    + apply (inv_same used g n); [done..|]. intros i. specialize (Hcount i). unfold slot_id in Hcount.
      rewrite Hn in Hcount. count_slots Hcount.
    + by apply (inv_release used g n k peer (Dialing a tok) a).
  - destruct Hslot as [Hn ->]. by apply (inv_release used g n k peer (Forwarding a tok) a).
Qed.

Lemma inv_create used g n i tgt peer created expires limit f' :
  node_inv used g n → i ∉ used →
  node_inv ({[i]} ∪ used) g
    (mkNode (snd (create_tunnel_with_limit i own tgt peer created expires limit (n_service n))) f'
       (n_streams n)).
Proof.
  intros [Hd Ht Hz Hu] Hi.
  assert (tunnels (n_service n) !! i = None) as Hnone.
  { destruct (tunnels (n_service n) !! i) eqn:Heq; [|done]. apply Hd in Heq. naive_solver. }
  assert (node_inv ({[i]} ∪ used) g (mkNode (n_service n) f' (n_streams n))) as Hweak.
  { split; cbn [n_service n_streams]; [|done..|].
    - intros j d Hj. apply Hd in Hj. set_solver.
    - intros j Hj. apply Hu. set_solver. }
  unfold create_tunnel_with_limit. destruct (is_loopback tgt) eqn:Hlo; [|done]. simpl.
  case_decide; [done|]. case_decide; [done|]. case_decide; [done|].
  case_decide as Hsz; [done|]. unfold MAX_ACTIVE_SHARED_TUNNELS in Hsz. simpl.
  split; cbn [n_service n_streams tunnels].
  - intros j d. destruct (decide (j = i)) as [->|Hne].
    + rewrite lookup_insert_eq. intros [= <-]. simpl. pose proof (Hu i Hi).
      split_and!; [done..|lia|set_solver|lia].
    + rewrite lookup_insert_ne by done. intros Hj. apply Hd in Hj. set_solver.
  - unfold total_connections in *. simpl. rewrite fmap_insert, total_insert_new; [simpl; lia|].
    by rewrite lookup_fmap, Hnone.
  - rewrite map_size_insert_None by done. lia.
  - intros j Hj. apply Hu. set_solver.
Qed.

Lemma inv_revoke used g n i terminate f' :
  node_inv used g n →
  node_inv used g (mkNode (snd (revoke_tunnel_with_termination i terminate (n_service n))) f' (n_streams n)).
Proof.
  intros [Hd Ht Hz Hu]. unfold revoke_tunnel_with_termination.
  destruct (tunnels (n_service n) !! i) as [d|] eqn:Hi; [|by split].
  split; cbn [n_service n_streams tunnels snd].
  - intros j e [_ He]%lookup_delete_Some. by apply Hd.
  - unfold total_connections in *. simpl. rewrite fmap_delete.
    rewrite (total_delete _ i (active_connections d)) in Ht by by rewrite lookup_fmap, Hi. lia.
  - rewrite map_size_delete, Hi. lia.
  - done.
Qed.

(** Ids that tunnels have had since the last restart. *)
Definition used_after (act : Action) used : gset TunnelId :=
  match act with
  | Local (Create i _ _ _ _ _) => {[i]} ∪ used
  | Restart _ => ∅
  | _ => used
  end.

(** A restart frees all slots. *)
Definition leaks_after (act : Action) (g : TunnelId → nat) : TunnelId → nat :=
  match act with
  | Restart _ => λ _, 0
  | _ => g
  end.

(** No id is given to two tunnels between restarts. *)
Fixpoint fresh_ids used (acts : list Action) : Prop :=
  match acts with
  | [] => True
  | act :: acts' =>
      match act with
      | Local (Create i _ _ _ _ _) => i ∉ used
      | _ => True
      end ∧ fresh_ids (used_after act used) acts'
  end.

Lemma slots_step used g n act :
  match act with
  | Local (Create i _ _ _ _ _) => i ∉ used
  | _ => True
  end → node_inv used g n → node_inv (used_after act used) (leaks_after act g) (step act n).
Proof.
  intros Hf Hinv. destruct act as [peer|k x|op|dir].
  - apply (inv_same used g n); [done..|]. intros i. by rewrite holding_accept.
  - by apply inv_stream.
  - destruct (steady op) eqn:Hs.
    + pose proof (same_local op (n_service n) (n_file n) Hs) as Hsame. cbn [node_step].
      destruct (local_op _ _ _ _ _) as [s' f']. replace (used_after _ used) with used by by destruct op.
      by apply (inv_same used g n).
    + destruct op; try done; [by apply inv_create|by apply inv_revoke].
  - cbn. split; cbn; [done|unfold total_connections; cbn; rewrite fmap_empty, map_fold_empty; lia
      |rewrite map_size_empty; lia|done].
Qed.

Lemma inv_run used n acts :
  fresh_ids used acts → node_inv used (λ _, 0) n → ∃ used', node_inv used' (λ _, 0) (run acts n).
Proof.
  revert used n. induction acts as [|act acts IH]; intros used n Hf Hinv; [by exists used|].
  destruct Hf as [Ha Hf]. cbn. apply (IH (used_after act used)); [done|].
  pose proof (slots_step _ _ _ _ Ha Hinv) as Hs. by destruct act.
Qed.

(** A node without tunnels and streams. *)
Definition fresh_node (es : EnrollmentTokenStore) f : Node := mkNode (with_enrollment_store es) f [].

Lemma inv_fresh es f : node_inv ∅ (λ _, 0) (fresh_node es f).
Proof.
  split; cbn; [done|unfold total_connections; cbn; rewrite fmap_empty, map_fold_empty; lia
    |rewrite map_size_empty; lia|done].
Qed.

(** ** Access *)

(** What every service keeps: targets on the local machine, counters and tables within their
    limits. *)
Record defs_ok s : Prop := mkDefsOk {
  do_defs i d : tunnels s !! i = Some d →
    id d = i ∧ is_loopback (target d) = true ∧ active_connections d ≤ max_connections d;
  do_total : total_connections s ≤ 32;
  do_size : size (tunnels s) ≤ 32
}.

Lemma defs_fresh es : defs_ok (with_enrollment_store es).
Proof.
  split; cbn; [done|unfold total_connections; cbn; rewrite fmap_empty, map_fold_empty; lia
    |rewrite map_size_empty; lia].
Qed.

Lemma defs_same s s' : same_slots s s' → defs_ok s → defs_ok s'.
Proof.
  intros Hs [Hd Ht Hz]. split.
  - intros i d' Hi. destruct (same_lookup _ _ _ _ Hs Hi) as (d & Hi' & Heq).
    apply Hd in Hi' as (<- & <- & Hle). unfold shape in Heq. split_and!; congruence.
  - by rewrite (total_shape _ _ (same_shape _ _ Hs)).
  - by rewrite (size_shape _ _ (same_shape _ _ Hs)).
Qed.

Lemma defs_put i d d' s :
  tunnels s !! i = Some d → id d' = id d → target d' = target d →
  max_connections d' = max_connections d → active_connections d' ≤ max_connections d →
  active_connections d' + total_connections s ≤ 32 + active_connections d →
  defs_ok s → defs_ok (put_definition i d' s).
Proof.
  intros Hi Hid Htg Hmx Hle Htot [Hd Ht Hz]. split.
  - intros j e. simpl. destruct (decide (j = i)) as [->|Hne].
    + rewrite lookup_insert_eq. intros [= <-]. rewrite Hid, Htg, Hmx.
      apply Hd in Hi as (? & ? & _). by split_and!.
    + rewrite lookup_insert_ne by done. by apply Hd.
  - pose proof (total_put _ _ d' _ Hi). lia.
  - by rewrite (size_put _ _ _ _ Hi).
Qed.

Lemma defs_release i s : defs_ok s → defs_ok (release_connection i s).
Proof.
  intros Hd. destruct (tunnels s !! i) as [d|] eqn:Hi.
  - destruct (release_shape _ _ _ Hi) as (d' & Hsh & ->). unfold shape in Hsh. simplify_eq.
    destruct (do_defs _ Hd _ _ Hi) as (_ & _ & Hle). pose proof (do_total _ Hd).
    apply (defs_put i d); congruence || lia || done.
  - unfold release_connection. by rewrite Hi.
Qed.

Lemma defs_stream peer x ph s f : defs_ok s → defs_ok (sstep peer x ph s f).1.2.
Proof.
  intros Hd. destruct (sstep peer x ph s f) as [[ph' s'] f'] eqn:Hst. simpl.
  destruct (quiet ph) eqn:Hq.
  { apply (defs_same s); [|done]. pose proof (same_quiet peer x ph s f Hq). by rewrite Hst in *. }
  pose proof (slot_step _ _ _ _ _ _ _ _ Hst) as Hslot. destruct ph; try done.
  - destruct Hslot as [[_ ->]|(_ & _ & <- & Hok)]; [done|].
    destruct (acquire_Ok _ _ _ Hok) as (Ht & d & d' & Hi & Hlt & Hsh & ->).
    unfold shape in Hsh. simplify_eq. apply (defs_put _ d); congruence || lia || done.
  - destruct Hslot as [[_ ->]|[_ ->]]; [done|]. by apply defs_release.
  - destruct Hslot as [_ ->]. by apply defs_release.
Qed.

Lemma defs_local op s f : defs_ok s → defs_ok (local_op utf8 own op s f).1.
Proof.
  intros Hd. destruct (steady op) eqn:Hs; [by apply (defs_same s); [apply same_local|]|].
  destruct op; try done; cbn [local_op fst].
  - unfold create_tunnel_with_limit. destruct (is_loopback tgt) eqn:Hl; [|done]. simpl.
    do 2 (case_decide; [done|]). case_decide as Hex; [done|]. apply eq_None_not_Some in Hex.
    case_decide as Hsz; [done|]. unfold MAX_ACTIVE_SHARED_TUNNELS in Hsz. destruct Hd as [Hd Ht Hz].
    split; cbn [snd tunnels].
    + intros j d. destruct (decide (j = i)) as [->|Hne].
      * rewrite lookup_insert_eq. intros [= <-]. simpl. split_and!; [done..|lia].
      * rewrite lookup_insert_ne by done. apply Hd.
    + unfold total_connections in *. simpl. rewrite fmap_insert, total_insert_new; [simpl; lia|].
      by rewrite lookup_fmap, Hex.
    + rewrite map_size_insert_None by done. lia.
  - unfold revoke_tunnel_with_termination. destruct (tunnels s !! i) as [d|] eqn:Hi; [|done].
    destruct Hd as [Hd Ht Hz]. split; cbn [snd tunnels].
    + intros j e [_ Hj]%lookup_delete_Some. by apply Hd.
    + unfold total_connections in *. simpl. rewrite fmap_delete.
      rewrite (total_delete _ i (active_connections d)) in Ht by by rewrite lookup_fmap, Hi. lia.
    + rewrite map_size_delete, Hi. lia.
Qed.

(** Why a request is granted; [pin] tells which peers have been pinned to which tunnels. *)
Definition granted (pin : TunnelId → PublicKey → Prop) peer (r : TunnelRequest) (time : N) : Prop :=
  protocol_version r = TUNNEL_PROTOCOL_VERSION ∧
  match r with
  | Open _ i c => verify_for own peer i time true c = Ok tt
  | Enroll _ i _ => pin i peer
  end.

Definition for_tunnel (r : TunnelRequest) d : Prop :=
  id d = tunnel_id r ∧ is_loopback (target d) = true.

Definition stream_ok (pin : TunnelId → PublicKey → Prop) peer ph : Prop :=
  match ph with
  | Limited r => protocol_version r = TUNNEL_PROTOCOL_VERSION
  | Known r d => protocol_version r = TUNNEL_PROTOCOL_VERSION ∧ for_tunnel r d
  | _ =>
      match access_of ph with
      | Some a => granted pin peer (a_request a) (a_time a) ∧ for_tunnel (a_request a) (a_definition a)
      | None => True
      end
  end.

Lemma verify_for_active peer i now b c :
  verify_for own peer i now b c = Ok tt → verify_for own peer i now true c = Ok tt.
Proof. destruct b; [done|]. unfold verify_for, ensure, mbind, res_bind. by repeat case_match. Qed.

Lemma add_pin_elem i peer l : mkPin i (key_text peer) ∈ add_pin i peer l.
Proof. unfold add_pin. case_decide; [done|]. set_solver. Qed.

Lemma redeem_pins tok i peer now w es f es' f' :
  redeem utf8 tok i peer now w es f = (Ok tt, es', f') → is_pinned i peer es' = true.
Proof.
  unfold redeem. destruct (find_token _ _) as [[k t]|]; [|done]. repeat case_decide; try done.
  destruct (used t); [done|]. intros [= <- <-]. apply bool_decide_eq_true, add_pin_elem.
Qed.

Lemma authorize_granted (pin pin' : TunnelId → PublicKey → Prop) peer r d now w s f :
  protocol_version r = TUNNEL_PROTOCOL_VERSION →
  (authorize utf8 own peer r d now w s f).1.1 = Ok tt →
  (∀ i, is_pinned i peer (enrollment (authorize utf8 own peer r d now w s f).1.2) = true → pin' i peer) →
  granted pin' peer r now.
Proof.
  intros Hv. unfold authorize, granted. destruct r as [v i c|v i [tok|]]; simpl.
  - intros Hok _. split; [done|]. by eapply verify_for_active.
  - destruct (redeem _ _ _ _ _ _ _ _) as [[[[]| |] es] f'] eqn:Hr; try done. simpl. intros _ Hp.
    split; [done|]. apply Hp. by eapply redeem_pins.
  - destruct (is_pinned i peer (enrollment s)) eqn:Hp; [|done]. intros _ Hq. split; [done|]. by apply Hq.
Qed.

Lemma stream_ok_step (pin : TunnelId → PublicKey → Prop) peer x ph s f :
  stream_ok pin peer ph → defs_ok s →
  (∀ i, is_pinned i peer (enrollment (sstep peer x ph s f).1.2) = true → pin i peer) →
  stream_ok pin peer (sstep peer x ph s f).1.1.
Proof.
  intros Hok Hd. destruct ph; cbn [stream_step].
  - by destruct (in_ok x).
  - case_decide as Hv; [done|]. destruct (record_connection_attempt _ _ _ _) as [e ?]. intros _.
    destruct (is_ok e); [|done]. simpl. by destruct (decide (protocol_version r = TUNNEL_PROTOCOL_VERSION)).
  - intros _. simpl. unfold get_tunnel. destruct (tunnels s !! _) as [d|] eqn:Hi; [|done].
    by apply (do_defs _ Hd) in Hi as (? & ? & _).
  - destruct Hok as [Hv Hf]. pose proof (authorize_granted pin pin peer r d (in_now x) (in_write x) s f Hv) as Hg.
    destruct (authorize _ _ _ _ _ _ _ _) as [[[[]|e|] s'] f']; simpl in *; intros Hp; [by auto|by destruct e|done].
  - destruct (try_acquire_connection _ _ _) as [[?|e|] s']; intros _; simpl; [done|by destruct e|done].
  - intros _. simpl. by destruct (cancellation_token _ _).
  - by destruct (in_ok x).
  - destruct (mark_connected _ _) as [e s']. intros _. simpl. by destruct (is_ok e).
  - done.
  - by destruct (in_ok x).
  - done.
  - done.
  - done.
  - done.
Qed.

Lemma stream_ok_mono (pin pin' : TunnelId → PublicKey → Prop) peer ph :
  (∀ i q, pin i q → pin' i q) → stream_ok pin peer ph → stream_ok pin' peer ph.
Proof.
  intros Hp. unfold stream_ok, granted. destruct ph; simpl; try done;
    destruct (a_request a); naive_solver.
Qed.

(** ** Theorems on runs *)

Definition in_tunnels (m : gmap TunnelId nat) (x : PublicKey * Phase) : bool :=
  match slot_id x.2 with
  | Some i => bool_decide (is_Some (m !! i))
  | None => false
  end.

Lemma held_total (m : gmap TunnelId nat) (l : list (PublicKey * Phase)) :
  (∀ i c, m !! i = Some c → holding i l ≤ c) →
  length (filter (λ y, in_tunnels m y = true) l) ≤ total m.
Proof.
  induction m as [|i c m Hi IH] using map_ind; intros Hm.
  { rewrite map_fold_empty. clear Hm. induction l as [|[q ph] l IHl]; [done|].
    rewrite filter_cons_False; [done|]. unfold in_tunnels. simpl.
    destruct (slot_id ph); [|done]. by rewrite lookup_empty. }
  rewrite total_insert_new by done.
  assert (holding i l ≤ c) by (apply Hm, lookup_insert_eq).
  assert (length (filter (λ y, in_tunnels m y = true) l) ≤ total m).
  { apply IH. intros j k Hj. apply Hm. rewrite lookup_insert_ne; [done|]. congruence. }
  etrans; [|apply Nat.add_le_mono; [done|done]]. clear. unfold holding.
  assert (∀ y, one (in_tunnels (<[i := c]> m) y = true) ≤
               one (slot_id y.2 = Some i) + one (in_tunnels m y = true)) as Hone.
  { intros [q ph]. unfold one. case_decide as Hin; [|lia]. case_decide as Hi; [lia|].
    rewrite decide_True; [lia|]. revert Hin Hi. unfold in_tunnels. simpl.
    destruct (slot_id ph) as [j|]; [|done]. intros Hin Hne. by rewrite lookup_insert_ne in Hin by congruence. }
  induction l as [|y l IH]; [done|]. rewrite !filter_cons_length. specialize (Hone y). lia.
Qed.

Lemma defs_run es f acts : defs_ok (n_service (run acts (fresh_node es f))).
Proof.
  induction acts as [|act acts IH] using rev_ind; [apply defs_fresh|].
  unfold node_run in *. rewrite foldl_app. cbn [foldl].
  set (n := foldl _ (fresh_node es f) acts) in *. destruct act as [q|k x|op|dir]; cbn [node_step].
  - done.
  - destruct (n_streams n !! k) as [[peer ph]|]; [|done].
    pose proof (defs_stream peer x ph (n_service n) (n_file n) IH) as Hd.
    by destruct (sstep peer x ph (n_service n) (n_file n)) as [[ph' s'] f'].
  - pose proof (defs_local op (n_service n) (n_file n) IH) as Hd. by destruct (local_op _ _ _ _ _).
  - apply defs_fresh.
Qed.

(** C18: Limits of a tunnel service.  In every run of streams, local commands and restarts, at
    most 32 tunnels are configured, all of them lead to the local machine, the counter of a
    tunnel never exceeds the limit of the tunnel and the counters add up to at most 32.  If
    moreover no two tunnels between two restarts get the same (random) id, the counters do not
    lag behind: at least as many slots of a configured tunnel are counted as tasks hold one, so
    that at most 32 tasks hold slots of tunnels that are still configured. *)
Theorem slots_respected es f acts :
  let n := run acts (fresh_node es f) in
  let s := n_service n in
  (∀ i d, tunnels s !! i = Some d →
     active_connections d ≤ max_connections d ∧ is_loopback (target d) = true) ∧
  size (tunnels s) ≤ 32 ∧ total_connections s ≤ 32 ∧
  (fresh_ids ∅ acts →
     (∀ i d, tunnels s !! i = Some d → holding i (n_streams n) ≤ active_connections d) ∧
     length (filter (λ y, in_tunnels (active_connections <$> tunnels s) y = true)
               (n_streams n)) ≤ 32).
Proof.
  intros n s. destruct (defs_run es f acts) as [Hd Ht Hz]. fold n s in Hd, Ht, Hz.
  split_and!; [by intros i d (_ & ? & ?)%Hd|done..|].
  intros Hf. destruct (inv_run ∅ _ acts Hf (inv_fresh es f)) as (used & [Hi _ _ _]). fold n s in Hi.
  assert (∀ i d, tunnels s !! i = Some d → holding i (n_streams n) ≤ active_connections d) as Hh.
  { intros i d Hi'. apply Hi in Hi'. lia. }
  split; [done|]. etrans; [|exact Ht]. apply held_total. intros i k. rewrite lookup_fmap, fmap_Some.
  intros (d & Hi' & ->). by apply Hh.
Qed.

(** The peers that were pinned at some moment of the run. *)
Definition pinned_in acts n i peer : Prop :=
  ∃ acts1 acts2, acts = acts1 ++ acts2 ∧
    is_pinned i peer (enrollment (n_service (run acts1 n))) = true.

Lemma run_snoc acts act n : run (acts ++ [act]) n = step act (run acts n).
Proof. unfold node_run. by rewrite foldl_app. Qed.

Lemma access_run es f acts :
  let n := run acts (fresh_node es f) in
  defs_ok (n_service n) ∧
  ∀ k peer ph, n_streams n !! k = Some (peer, ph) →
    stream_ok (pinned_in acts (fresh_node es f)) peer ph.
Proof.
  induction acts as [|act acts [Hd Hs]] using rev_ind; simpl; [by split; [apply defs_fresh|]|].
  rewrite run_snoc.
  set (n := run acts (fresh_node es f)) in *.
  assert (∀ i q, pinned_in acts (fresh_node es f) i q → pinned_in (acts ++ [act]) (fresh_node es f) i q)
    as Hmono.
  { intros i q (a1 & a2 & -> & Hp). exists a1, (a2 ++ [act]). by rewrite app_assoc. }
  assert (∀ i q, is_pinned i q (enrollment (n_service (step act n))) = true →
            pinned_in (acts ++ [act]) (fresh_node es f) i q) as Hnow.
  { intros i q Hp. exists (acts ++ [act]), []. by rewrite app_nil_r, run_snoc. }
  assert (∀ k peer ph, n_streams n !! k = Some (peer, ph) →
            stream_ok (pinned_in (acts ++ [act]) (fresh_node es f)) peer ph) as Hs'.
  { intros k peer ph Hk. eapply stream_ok_mono; [exact Hmono|]. by eapply Hs. }
  destruct act as [q|k x|op|dir]; cbn [node_step] in *.
  - split; [done|]. intros k peer ph [Hk|[_ Hk]]%lookup_app_Some; [by eapply Hs'|].
    apply list_lookup_singleton_Some in Hk as [_ Hk]. by simplify_eq.
  - destruct (n_streams n !! k) as [[peer ph]|] eqn:Hk; [|done].
    pose proof (defs_stream peer x ph (n_service n) (n_file n) Hd) as Hd'.
    pose proof (stream_ok_step _ peer x ph (n_service n) (n_file n) (Hs' _ _ _ Hk) Hd) as Hok.
    destruct (sstep peer x ph (n_service n) (n_file n)) as [[ph' s'] f']. simpl in *.
    split; [done|]. intros j q ph2 Hj. apply list_lookup_insert_Some in Hj as [(-> & Hq & _)|[_ Hj]].
    + simplify_eq. apply Hok. auto.
    + by eapply Hs'.
  - pose proof (defs_local op (n_service n) (n_file n) Hd) as Hd'.
    destruct (local_op _ _ _ _ _) as [s' f']. by split.
  - split; [apply defs_fresh|done].
Qed.

(** *** Where pins come from *)

(** A token of the tunnel, known to the store, neither expired nor used, was redeemed by the
    peer in a step of the run. *)
Definition redeemed_in acts n i peer : Prop :=
  ∃ acts1 k x acts2 v tok d pos st,
    acts = acts1 ++ Stream k x :: acts2 ∧
    n_streams (run acts1 n) !! k = Some (peer, Known (Enroll v i (Some tok)) d) ∧
    find_token (sha256_hex (utf8 tok)) (tokens (state (enrollment (n_service (run acts1 n))))) =
      Some (pos, st) ∧
    token_tunnel_id st = i ∧ (in_now x ≤ stored_expires_at_ms st)%N ∧ used st = false.

Definition pinned_by (st : StoreState) i peer : Prop := mkPin i (key_text peer) ∈ pins st.

(** A write of the enrollment file that fails leaves it as it was, or unreadable, or holding
    what should have been written. *)
Definition orderly acts n : Prop :=
  ∀ acts1 act acts2, acts = acts1 ++ act :: acts2 →
    let n1 := run acts1 n in
    let n2 := step act n1 in
    n_file n2 = n_file n1 ∨ (n_file n2 ≫= from_str) = None ∨
    n_file n2 = Some (to_string_pretty (state (enrollment (n_service n2)))).

Lemma orderly_prefix acts act n : orderly (acts ++ [act]) n → orderly acts n.
Proof.
  intros Ho acts1 a acts2 ->. apply (Ho acts1 a (acts2 ++ [act])). by rewrite <- app_assoc.
Qed.

(** How the write of an action ends. *)
Definition write_of (act : Action) : WriteEnd :=
  match act with
  | Stream _ x => in_write x
  | Local (Mint _ _ _ _ w) | Local (Unpin _ _ w) | Local (RemoveEnrollments _ w) => w
  | _ => Written
  end.

Lemma persist_written es f :
  persist Written es f = f ∨ persist Written es f = Some (to_string_pretty (state es)).
Proof. unfold persist. destruct (path es); auto. Qed.

(** Writes that succeed are orderly. *)
Lemma orderly_written acts n : Forall (λ act, write_of act = Written) acts → orderly acts n.
Proof.
  intros Hw acts1 act acts2 ->. apply Forall_app in Hw as [_ [Ha _]%Forall_cons].
  cbn zeta. set (m := run acts1 n). destruct act as [p|k x|op|dir]; cbn [node_step]; [by left| | |by left].
  - destruct (n_streams m !! k) as [[peer ph]|]; [|by left]. simpl in Ha.
    destruct ph; cbn [stream_step]; try (left; repeat case_match; simplify_eq/=; done).
    destruct r as [|v i [tok|]]; cbn [authorize]; [by left| |by left]. unfold redeem. rewrite Ha.
    repeat case_match; simplify_eq/=; auto.
    match goal with |- context [persist Written ?es _] =>
      destruct (persist_written es (n_file m)) as [Hp|Hp] end; rewrite Hp; auto.
  - destruct op; cbn [local_op]; try (by left); simpl in Ha; subst; simpl;
      match goal with |- context [persist Written ?es _] =>
        destruct (persist_written es (n_file m)) as [Hp|Hp] end; rewrite Hp; auto.
Qed.

Lemma redeemed_more acts acts' n i peer : redeemed_in acts n i peer → redeemed_in (acts ++ acts') n i peer.
Proof.
  intros (acts1 & k & x & acts2 & v & tok & d & pos & st & -> & Hx).
  exists acts1, k, x, (acts2 ++ acts'), v, tok, d, pos, st. split; [|done]. by rewrite <- app_assoc.
Qed.

(** The operations that pin nobody. *)
Lemma enrollment_local op s f i peer :
  pinned_by (state (enrollment (local_op utf8 own op s f).1)) i peer →
  pinned_by (state (enrollment s)) i peer.
Proof.
  unfold pinned_by. destruct op; cbn [local_op fst];
    try (unfold create_tunnel_with_limit, revoke_tunnel_with_termination, connect_tunnel,
           mark_connected, mark_failed, mark_disconnected, mark_reconnecting, with_definition;
         repeat case_match; done).
  - done.
  - simpl. by intros [_ ?]%list_elem_of_filter.
  - simpl. by intros [_ ?]%list_elem_of_filter.
Qed.

(** A task pins by redeeming. *)
Lemma enrollment_stream peer x ph s f i q :
  pinned_by (state (enrollment (sstep peer x ph s f).1.2)) i q →
  pinned_by (state (enrollment s)) i q ∨
  q = peer ∧ ∃ v tok d pos st, ph = Known (Enroll v i (Some tok)) d ∧
    find_token (sha256_hex (utf8 tok)) (tokens (state (enrollment s))) = Some (pos, st) ∧
    token_tunnel_id st = i ∧ (in_now x ≤ stored_expires_at_ms st)%N ∧ used st = false.
Proof.
  destruct ph; cbn [stream_step]; try (left; done).
  - case_decide; [by left|]. unfold record_connection_attempt. by repeat case_decide; left.
  - destruct r as [v i' c|v i' [tok|]]; cbn [authorize]; [by left| |by left].
    unfold redeem. destruct (find_token _ _) as [[pos st]|] eqn:Hf; [|by left].
    destruct (decide (token_tunnel_id st = i')) as [Ht|]; [|by rewrite decide_True; [left|]].
    rewrite decide_False by tauto. case_decide as He; [by left|].
    destruct (used st) eqn:Hu; [by left|]. unfold pinned_by. simpl. unfold add_pin.
    case_decide; [by left|].
    intros [?|[= -> Hq%(inj key_text)]%list_elem_of_singleton]%elem_of_app; [by left|].
    right. split; [done|]. exists v, tok, d, pos, st. split_and!; done || lia.
  - unfold try_acquire_connection, with_definition. repeat case_match; simplify_eq/=; by left.
  - destruct (in_ok x); [by left|]. unfold release_connection. repeat case_match; by left.
  - unfold mark_connected, with_definition. repeat case_match; simplify_eq/=; by left.
  - unfold release_connection. repeat case_match; by left.
Qed.

(** Every pin, in memory and in the file, was there at the start or was redeemed. *)
Lemma pins_redeemed es f acts :
  let n0 := fresh_node es f in
  let n := run acts n0 in
  let origin i peer :=
    pinned_by (state es) i peer ∨ (∃ st, (f ≫= from_str) = Some st ∧ pinned_by st i peer) ∨
    redeemed_in acts n0 i peer in
  orderly acts n0 →
  (∀ i peer, pinned_by (state (enrollment (n_service n))) i peer → origin i peer) ∧
  (∀ i peer st, (n_file n ≫= from_str) = Some st → pinned_by st i peer → origin i peer).
Proof.
  intros n0. induction acts as [|act acts IH] using rev_ind; simpl.
  { intros _. split; [auto|]. intros i peer st Hst Hp. right. left. eauto. }
  intros Ho. destruct (IH (orderly_prefix _ _ _ Ho)) as [Hmem Hfile]. clear IH.
  specialize (Ho acts act [] eq_refl). cbn zeta in Ho.
  rewrite run_snoc. set (n := run acts n0) in *.
  assert (∀ i peer, redeemed_in acts n0 i peer → redeemed_in (acts ++ [act]) n0 i peer) as Hmore
    by (intros; by apply redeemed_more).
  assert (∀ i peer, pinned_by (state (enrollment (n_service (step act n)))) i peer →
    pinned_by (state es) i peer ∨ (∃ st, (f ≫= from_str) = Some st ∧ pinned_by st i peer) ∨
    redeemed_in (acts ++ [act]) n0 i peer) as Hnew.
  { intros i q. destruct act as [p|k x|op|dir]; cbn [node_step].
    - intros Hp. apply Hmem in Hp. naive_solver.
    - destruct (n_streams n !! k) as [[peer ph]|] eqn:Hk; [|intros Hp; apply Hmem in Hp; naive_solver].
      pose proof (enrollment_stream peer x ph (n_service n) (n_file n) i q) as Hst.
      destruct (sstep peer x ph (n_service n) (n_file n)) as [[ph' s'] f']. simpl in *.
      intros [Hp|(-> & v & tok & d & pos & st & -> & Hf & Hr)]%Hst; [apply Hmem in Hp; naive_solver|].
      right. right. exists acts, k, x, [], v, tok, d, pos, st. split; [done|]. split; [exact Hk|]. by split.
    - pose proof (enrollment_local op (n_service n) (n_file n) i q) as Hl.
      destruct (local_op _ _ _ _ _) as [s' f']. simpl in *. intros Hp%Hl%Hmem. naive_solver.
    - simpl. destruct (n_file n ≫= from_str) as [st|] eqn:Hst; simpl.
      + intros Hp. eapply Hfile in Hp; [|reflexivity]. naive_solver.
      + by intros ?%elem_of_nil. }
  split; [done|]. intros i q st Hst Hp. destruct Ho as [Ho|[Ho|Ho]].
  - rewrite Ho in Hst. eapply Hfile in Hp; [|done]. naive_solver.
  - congruence.
  - rewrite Ho in Hst. simpl in Hst. rewrite from_str_pretty in Hst. simplify_eq. auto.
Qed.

(** C19: Whatever requests arrive in whatever order, a task that takes a slot, connects to
    the local service or forwards bytes does so for a tunnel to the local machine that was
    configured under the id the peer named.  Either the peer presented a capability of the
    supported version, signed by the owner for this peer and this tunnel and valid at the
    time.  Or it asked to be enrolled, and unless its pin was already in the store or the file
    at the start, this very peer redeemed, in a step of the run, a token that the store knew
    for this tunnel and that was neither expired nor used; this holds across restarts as long
    as a write of the enrollment file that fails leaves it as it was or unreadable. *)
Theorem forwarding_authorised es f acts k peer ph a :
  n_streams (run acts (fresh_node es f)) !! k = Some (peer, ph) → access_of ph = Some a →
  let r := a_request a in
  protocol_version r = TUNNEL_PROTOCOL_VERSION ∧ id (a_definition a) = tunnel_id r ∧
  is_loopback (target (a_definition a)) = true ∧
  match r with
  | Open _ i c =>
      version c = TUNNEL_CAPABILITY_VERSION ∧ owner_endpoint_id c = own ∧
      allowed_peer_endpoint_id c = peer ∧ cap_tunnel_id c = i ∧
      (cap_created_at_ms c ≤ a_time a ≤ cap_expires_at_ms c)%N ∧
      protocol_signing.verify_canonical_or_legacy own (signature c) (signing_bytes c)
        (legacy_signing_bytes c) = true
  | Enroll _ i _ =>
      orderly acts (fresh_node es f) →
      pinned_by (state es) i peer ∨ (∃ st, (f ≫= from_str) = Some st ∧ pinned_by st i peer) ∨
      redeemed_in acts (fresh_node es f) i peer
  end.
Proof.
  intros Hk Ha r. destruct (access_run es f acts) as [_ Hs]. apply Hs in Hk.
  assert (granted (pinned_in acts (fresh_node es f)) peer (a_request a) (a_time a) ∧
          for_tunnel (a_request a) (a_definition a)) as [[Hv Hg] [Hid Hl]].
  { revert Hk. unfold stream_ok. destruct ph; simpl in Ha; simplify_eq; done. }
  fold r in Hv, Hg, Hid. split_and!; [done..|]. destruct r as [v i c|v i tok].
  - unfold verify_for, ensure, mbind, res_bind in Hg. repeat case_match; try done.
    repeat match goal with Hb : bool_decide _ = true |- _ => apply bool_decide_eq_true in Hb end.
    subst. split_and!; try done. congruence.
  - intros Ho. destruct Hg as (acts1 & acts2 & -> & Hp%bool_decide_eq_true).
    destruct (pins_redeemed es f acts1) as [Hmem _].
    { clear -Ho. induction acts2 as [|act acts2 IH] using rev_ind; [by rewrite app_nil_r in Ho|].
      rewrite app_assoc in Ho. by apply IH, (orderly_prefix _ act). }
    destruct (Hmem _ _ Hp) as [?|[?|?]]; auto using redeemed_more.
Qed.

(** ** Termination of streams *)

(** Tokens belong to the tunnel under whose id they are watched. *)
Record token_inv used n : Prop := mkTokenInv {
  ti_dom i : is_Some (tunnels (n_service n) !! i) ↔ is_Some (cancellation (n_service n) !! i);
  ti_used i : is_Some (cancellation (n_service n) !! i) → i ∈ used;
  ti_streams k peer ph i tok :
    n_streams n !! k = Some (peer, ph) → token_of ph = Some (i, tok) →
    i ∈ used ∧ ∀ tok', cancellation (n_service n) !! i = Some tok' → tok' = tok
}.

Lemma same_is_Some s s' i : same_slots s s' → is_Some (tunnels s' !! i) ↔ is_Some (tunnels s !! i).
Proof.
  intros [Hs _ _ _]. apply (f_equal (lookup i)) in Hs. rewrite !lookup_fmap in Hs.
  destruct (tunnels s' !! i), (tunnels s !! i); by split.
Qed.

Lemma stream_kind peer x ph s f ph' s' f' :
  sstep peer x ph s f = (ph', s', f') →
  same_slots s s' ∨ ∃ i d d', tunnels s !! i = Some d ∧ s' = put_definition i d' s.
Proof.
  intros Hst. destruct (quiet ph) eqn:Hq.
  { left. pose proof (same_quiet peer x ph s f Hq). by rewrite Hst in *. }
  assert (∀ j, same_slots s (release_connection j s) ∨
    ∃ i d d', tunnels s !! i = Some d ∧ release_connection j s = put_definition i d' s) as Hrel.
  { intros j. destruct (tunnels s !! j) as [d|] eqn:Hj.
    - destruct (release_shape _ _ _ Hj) as (d' & _ & ->). right. eauto.
    - left. unfold release_connection. by rewrite Hj. }
  pose proof (slot_step _ _ _ _ _ _ _ _ Hst) as Hslot. destruct ph; try done.
  - destruct Hslot as [[_ ->]|(_ & _ & <- & Hok)]; [by left|].
    destruct (acquire_Ok _ _ _ Hok) as (_ & d & d' & Hi & _ & _ & ->). right. eauto.
  - destruct Hslot as [[_ ->]|[_ ->]]; [by left|apply Hrel].
  - destruct Hslot as [_ ->]. apply Hrel.
Qed.

(** What a step of a task does to tunnels and tokens. *)
Lemma stream_tokens peer x ph s f ph' s' f' :
  sstep peer x ph s f = (ph', s', f') →
  (∀ i, is_Some (tunnels s' !! i) ↔ is_Some (tunnels s !! i)) ∧
  cancellation s' = cancellation s ∧ cancelled s' = cancelled s ∧
  ∀ i tok, token_of ph' = Some (i, tok) →
    token_of ph = Some (i, tok) ∨ cancellation s !! i = Some tok.
Proof.
  intros Hst. split_and!.
  - destruct (stream_kind _ _ _ _ _ _ _ _ Hst) as [Hs|(j & d & d' & Hj & ->)]; intros i.
    + by apply same_is_Some.
    + simpl. rewrite lookup_insert_is_Some.
      destruct (decide (j = i)) as [->|]; [rewrite Hj|]; naive_solver.
  - by destruct (stream_kind _ _ _ _ _ _ _ _ Hst) as [[]|(j & d & d' & Hj & ->)].
  - by destruct (stream_kind _ _ _ _ _ _ _ _ Hst) as [[]|(j & d & d' & Hj & ->)].
  - intros i tok. replace ph' with (sstep peer x ph s f).1.1 by (by rewrite Hst). clear Hst.
    destruct ph; cbn [stream_step]; auto; try done.
    + by destruct (in_ok x).
    + case_decide; [done|]. destruct (record_connection_attempt _ _ _ _) as [e ?]. simpl. by destruct (is_ok e).
    + simpl. by destruct (get_tunnel _ _).
    + destruct (authorize _ _ _ _ _ _ _ _) as [[[?|e|] ?] ?]; try done. by destruct e.
    + destruct (try_acquire_connection _ _ _) as [[?|e|] ?]; try done. by destruct e.
    + simpl. unfold cancellation_token, ok_or. destruct (cancellation s !! _) eqn:Hc; [|done].
      intros [= <- <-]. by right.
    + destruct (in_ok x); auto. done.
    + destruct (mark_connected _ _) as [e ?]. simpl. destruct (is_ok e); auto. done.
    + simpl. destruct (in_ok x); auto. done.
Qed.

Lemma token_fresh es f : token_inv ∅ (fresh_node es f).
Proof. split; cbn; [|by intros i [? ?]|done]. intros i. by split; intros [? ?]. Qed.

Lemma token_same used n s' f' l' :
  token_inv used n → same_slots (n_service n) s' →
  (∀ k peer ph, l' !! k = Some (peer, ph) →
     token_of ph = None ∨ ∃ k, n_streams n !! k = Some (peer, ph)) →
  token_inv used (mkNode s' f' l').
Proof.
  intros [Hd Hu Hs] Hsame Hl. split; cbn [n_service n_streams];
    rewrite ?(same_cancellation _ _ Hsame); [|done|].
  - intros i. rewrite (same_is_Some _ _ _ Hsame). apply Hd.
  - intros k peer ph i tok Hk Ht. apply Hl in Hk as [Hn|[j Hj]]; [congruence|by eapply Hs].
Qed.

Lemma token_step used n act :
  match act with
  | Local (Create i _ _ _ _ _) => i ∉ used
  | _ => True
  end → token_inv used n → token_inv (used_after act used) (step act n).
Proof.
  intros Hf Hinv. pose proof Hinv as [Hd Hu Hs]. destruct act as [peer|k x|op|dir].
  - apply (token_same used n); [done..|].
    intros k q ph [Hk|[_ Hk]]%lookup_app_Some; [by eauto|].
    apply list_lookup_singleton_Some in Hk as [_ Hk]. simplify_eq. by left.
  - cbn [node_step used_after]. destruct (n_streams n !! k) as [[peer ph]|] eqn:Hk; [|done].
    destruct (sstep peer x ph (n_service n) (n_file n)) as [[ph' s'] f'] eqn:Hst.
    destruct (stream_tokens _ _ _ _ _ _ _ _ Hst) as (Ht & Hc & _ & Htok).
    split; cbn [n_service n_streams]; rewrite ?Hc; [|done|].
    + intros i. rewrite Ht. apply Hd.
    + intros j q ph2 i tok Hj Hph. apply list_lookup_insert_Some in Hj as [(-> & Hq & _)|[_ Hj]]; [|by eapply Hs].
      simplify_eq. destruct (Htok _ _ Hph) as [Hold|Hnew]; [by eapply Hs|].
      split; [apply Hu; eauto|congruence].
  - destruct (steady op) eqn:Hst.
    + pose proof (same_local op (n_service n) (n_file n) Hst) as Hsame. cbn [node_step].
      destruct (local_op _ _ _ _ _) as [s' f']. replace (used_after _ used) with used by by destruct op.
      apply (token_same used n); [done..|]. eauto.
    + destruct op; try done; cbn [node_step local_op used_after].
      * assert (token_inv ({[i]} ∪ used) (mkNode (n_service n) (n_file n) (n_streams n))) as Hweak.
        { split; [done|set_solver|]. intros k q ph j tok Hk Ht. destruct (Hs _ _ _ _ _ Hk Ht). set_solver. }
        unfold create_tunnel_with_limit. destruct (is_loopback tgt); [|done]. simpl.
        repeat (case_decide; [done|]). simpl.
        split; cbn [n_service n_streams tunnels cancellation].
        -- intros j. rewrite !lookup_insert_is_Some. by rewrite Hd.
        -- intros j. rewrite lookup_insert_is_Some. intros [->|[_ Hj]]; [set_solver|]. apply Hu in Hj. set_solver.
        -- intros k q ph j tok Hk Ht. destruct (Hs _ _ _ _ _ Hk Ht) as [Hj Htok]. split; [set_solver|].
           intros tok'. rewrite lookup_insert_ne by (intros ->; done). apply Htok.
      * unfold revoke_tunnel_with_termination. destruct (tunnels (n_service n) !! i); [|by destruct n]. simpl.
        split; cbn [n_service n_streams tunnels cancellation].
        -- intros j. rewrite !lookup_delete_is_Some. by rewrite Hd.
        -- intros j. rewrite lookup_delete_is_Some. intros [_ Hj]. by apply Hu.
        -- intros k q ph j tok Hk Ht. destruct (Hs _ _ _ _ _ Hk Ht) as [Hj Htok]. split; [done|].
           intros tok' [_ Hd']%lookup_delete_Some. by apply Htok.
  - apply token_fresh.
Qed.

Lemma token_run used n acts :
  fresh_ids used acts → token_inv used n → ∃ used', token_inv used' (run acts n).
Proof.
  revert used n. induction acts as [|act acts IH]; intros used n Hf Hinv; [by exists used|].
  destruct Hf as [Ha Hf]. cbn. apply (IH (used_after act used)); [done|]. by apply token_step.
Qed.

(** What holds of a tunnel whose streams were terminated until its id is used again. *)
Record stopped i n : Prop := mkStopped {
  st_tunnel : tunnels (n_service n) !! i = None;
  st_token : cancellation (n_service n) !! i = None;
  st_streams k peer ph tok :
    n_streams n !! k = Some (peer, ph) → token_of ph = Some (i, tok) → tok ∈ cancelled (n_service n)
}.

Definition creates (act : Action) : option TunnelId :=
  match act with
  | Local (Create i _ _ _ _ _) => Some i
  | _ => None
  end.

Lemma stopped_step i n act : creates act ≠ Some i → stopped i n → stopped i (step act n).
Proof.
  intros Hc Hst. pose proof Hst as [Ht Hk Hs]. destruct act as [peer|k x|op|dir].
  - split; cbn; [done..|]. intros k q ph tok [Hj|[_ Hj]]%lookup_app_Some Htok; [by eapply Hs|].
    apply list_lookup_singleton_Some in Hj as [_ Hj]. by simplify_eq.
  - cbn [node_step]. destruct (n_streams n !! k) as [[peer ph]|] eqn:Hph; [|done].
    destruct (sstep peer x ph (n_service n) (n_file n)) as [[ph' s'] f'] eqn:Hstep.
    destruct (stream_tokens _ _ _ _ _ _ _ _ Hstep) as (Hiff & Hca & Hcd & Htok).
    split; cbn [n_service n_streams]; rewrite ?Hca, ?Hcd; [|done|].
    + apply eq_None_not_Some. rewrite Hiff. rewrite Ht. by intros [? ?].
    + intros j q ph2 tok Hj Hp. apply list_lookup_insert_Some in Hj as [(-> & Hq & _)|[_ Hj]]; [|by eapply Hs].
      simplify_eq. destruct (Htok _ _ Hp) as [Hold|Hnew]; [by eapply Hs|congruence].
  - destruct (steady op) eqn:Hop.
    + pose proof (same_local op (n_service n) (n_file n) Hop) as Hsame. cbn [node_step].
      destruct (local_op _ _ _ _ _) as [s' f']. simpl in Hsame.
      split; cbn [n_service n_streams]; [|by rewrite (same_cancellation _ _ Hsame)
        |by rewrite (same_cancelled _ _ Hsame)].
      apply eq_None_not_Some. rewrite (same_is_Some _ _ _ Hsame). rewrite Ht. by intros [? ?].
    + destruct op as [j|j terminate| | | | | | | |]; try done; cbn [node_step local_op].
      * assert (j ≠ i) by (intros ->; done).
        unfold create_tunnel_with_limit. destruct (is_loopback tgt); [|by destruct n]. simpl.
        repeat (case_decide; [by destruct n|]). simpl.
        split; cbn; rewrite ?lookup_insert_ne by done; done.
      * unfold revoke_tunnel_with_termination. destruct (tunnels (n_service n) !! j); [|by destruct n]. simpl.
        split; cbn; [by apply lookup_delete_None; right..|].
        intros k q ph tok Hj Hp. pose proof (Hs _ _ _ _ Hj Hp).
        destruct (cancellation (n_service n) !! j), terminate; set_solver.
  - by split.
Qed.

Lemma stopped_run i n acts :
  Forall (λ act, creates act ≠ Some i) acts → stopped i n → stopped i (run acts n).
Proof.
  intros Hf. revert n. induction Hf as [|act acts Hc Hf IH]; intros n Hst; [done|].
  cbn. apply IH. by apply stopped_step.
Qed.

(** When a configured tunnel is revoked and its streams are terminated, it is gone, and
    every task that watches a token of this tunnel, then or at any later moment until the id
    is used again, watches a cancelled one: forwarding ends, and no later request reaches
    the local service. *)
Theorem revocation_terminates es f acts i acts' d :
  fresh_ids ∅ acts → tunnels (n_service (run acts (fresh_node es f))) !! i = Some d →
  Forall (λ act, creates act ≠ Some i) acts' →
  let n := run (acts ++ Local (Revoke i true) :: acts') (fresh_node es f) in
  get_tunnel i (n_service n) = None ∧
  ∀ k peer ph tok, n_streams n !! k = Some (peer, ph) → token_of ph = Some (i, tok) →
    tok ∈ cancelled (n_service n).
Proof.
  intros Hf Hi Hc n. destruct (token_run ∅ _ acts Hf (token_fresh es f)) as (used & [Hd Hu Hs]).
  assert (stopped i n) as [Ht _ Hst]; [|by split].
  unfold n, node_run. rewrite foldl_app. cbn [foldl]. apply stopped_run; [done|].
  fold (run acts (fresh_node es f)). set (n0 := run acts (fresh_node es f)) in *.
  cbn [node_step local_op]. unfold revoke_tunnel_with_termination. rewrite Hi. simpl.
  destruct (proj1 (Hd i)) as [tok0 Htok0]; [by rewrite Hi|].
  split; cbn; [apply lookup_delete_eq..|]. rewrite Htok0. intros k peer ph tok Hk Hph.
  destruct (Hs _ _ _ _ _ Hk Hph) as [_ Heq]. rewrite (Heq _ Htok0). set_solver.
Qed.

(** ** Slots that are lost *)

Definition add_leak i g : TunnelId → nat := λ j, g j + one (j = i).

Lemma inv_hangup used g n k x peer a tok :
  node_inv used g n → n_streams n !! k = Some (peer, Opened a tok) → in_ok x = false →
  node_inv used (add_leak (tunnel_id (a_request a)) g) (step (Stream k x) n).
Proof.
  intros [Hd Ht Hz Hu] Hk Hx. cbn [node_step]. rewrite Hk. cbn [stream_step]. rewrite Hx.
  pose proof (λ i, holding_insert i _ _ _ _ Ended Hk) as Hcount.
  unfold add_leak. split; cbn [n_service n_streams]; [|done..|].
  - intros i d Hi. destruct (Hd _ _ Hi) as (E1 & E2 & E3 & E4 & E5). specialize (Hcount i).
    split_and!; [done..|]. count_slots Hcount.
  - intros i Hi. specialize (Hu i Hi). specialize (Hcount i). count_slots Hcount.
Qed.

Definition restarts (act : Action) : bool :=
  match act with
  | Restart _ => true
  | _ => false
  end.

Lemma inv_run_leaks used g n acts :
  fresh_ids used acts → Forall (λ act, restarts act = false) acts → node_inv used g n →
  ∃ used', node_inv used' g (run acts n).
Proof.
  revert used n. induction acts as [|act acts IH]; intros used n Hf Hr Hinv; [by exists used|].
  destruct Hf as [Ha Hf]. apply Forall_cons in Hr as [Hact Hr]. cbn.
  apply (IH (used_after act used)); [done..|].
  pose proof (slots_step _ _ _ _ Ha Hinv) as Hs. by destruct act.
Qed.

Lemma fresh_ids_app used acts acts' :
  fresh_ids used (acts ++ acts') → fresh_ids used acts ∧
  fresh_ids (foldl (λ u act, used_after act u) used acts) acts'.
Proof.
  revert used. induction acts as [|act acts IH]; intros used; simpl; [done|].
  intros [Ha Hf]. apply IH in Hf. naive_solver.
Qed.

Lemma inv_run_used used n acts :
  fresh_ids used acts → node_inv used (λ _, 0) n →
  node_inv (foldl (λ u act, used_after act u) used acts) (λ _, 0) (run acts n).
Proof.
  revert used n. induction acts as [|act acts IH]; intros used n Hf Hinv; [done|].
  destruct Hf as [Ha Hf]. cbn. apply IH; [done|].
  pose proof (slots_step _ _ _ _ Ha Hinv) as Hs. by destruct act.
Qed.

(** When the peer has hung up before it is told that it was accepted, the task ends
    without giving its slot back; whatever happens afterwards, until the tunnel is gone or
    the node restarts, at least one slot of it is counted as taken that no task holds. *)
Theorem hangup_leaks_slot es f acts k x peer a tok acts' d :
  fresh_ids ∅ (acts ++ Stream k x :: acts') → Forall (λ act, restarts act = false) acts' →
  n_streams (run acts (fresh_node es f)) !! k = Some (peer, Opened a tok) → in_ok x = false →
  let i := tunnel_id (a_request a) in
  let n := run (acts ++ Stream k x :: acts') (fresh_node es f) in
  tunnels (n_service n) !! i = Some d →
  n_streams (run (acts ++ [Stream k x]) (fresh_node es f)) !! k = Some (peer, Ended) ∧
  holding i (n_streams n) < active_connections d.
Proof.
  intros Hf Hr Hk Hx i n Hi. apply fresh_ids_app in Hf as [Hf1 [_ Hf2]].
  pose proof (inv_run_used _ _ _ Hf1 (inv_fresh es f)) as Hinv.
  pose proof (inv_hangup _ _ _ _ _ _ _ _ Hinv Hk Hx) as Hleak.
  destruct (inv_run_leaks _ _ _ acts' Hf2 Hr Hleak) as (used' & [Hd _ _ _]).
  assert (n = run acts' (step (Stream k x) (run acts (fresh_node es f)))) as Hn.
  { unfold n, node_run. by rewrite foldl_app. }
  rewrite <- Hn in Hd. destruct (Hd _ _ Hi) as (_ & _ & _ & _ & Hh). split.
  - rewrite run_snoc. cbn [node_step]. rewrite Hk. cbn [stream_step]. rewrite Hx. simpl.
    apply list_lookup_insert_eq. by eapply lookup_lt_Some.
  - revert Hh. unfold add_leak, one. fold i. rewrite decide_True by done. lia.
Qed.

End runs.

(** ** Enrollment *)

Section tokens.
Context `{!Sha256, !KeyText, !StateJson}.
Context (utf8 : Text → Bytes).
Implicit Types (es : EnrollmentTokenStore) (h : Text).

Inductive EnrollOp : Type :=
| OMint (i : TunnelId) (ttl_secs now : N) (raw : Bytes) (w : WriteEnd)
| ORedeem (tok : Text) (i : TunnelId) (peer : PublicKey) (now : N) (w : WriteEnd)
| OUnpin (i : TunnelId) (peer : PublicKey) (w : WriteEnd)
| ORemove (i : TunnelId) (w : WriteEnd)
| OReload (dir : Text).

(** Tokens that are minted and tokens that are redeemed, by their hashes. *)
Inductive EnrollEvent : Type := Minted (h : Text) | Redeemed (h : Text).

#[local] Instance enroll_event_eq_dec : EqDecision EnrollEvent.
Proof. solve_decision. Defined.

Definition enroll_step (op : EnrollOp) es f : list EnrollEvent * EnrollmentTokenStore * FileState :=
  match op with
  | OMint i ttl now raw w =>
      let '(tok, es', f') := mint utf8 i ttl now raw w es f in
      ([Minted (sha256_hex (utf8 (token tok)))], es', f')
  | ORedeem tok i peer now w =>
      let '(r, es', f') := redeem utf8 tok i peer now w es f in
      (if is_ok r then [Redeemed (sha256_hex (utf8 tok))] else [], es', f')
  | OUnpin i peer w => let '(es', f') := unpin i peer w es f in ([], es', f')
  | ORemove i w => let '(es', f') := remove_tunnel i w es f in ([], es', f')
  | OReload dir => ([], load_or_default dir f, f)
  end.

Fixpoint enroll_run (ops : list EnrollOp) es f : list EnrollEvent * EnrollmentTokenStore * FileState :=
  match ops with
  | [] => ([], es, f)
  | op :: ops' =>
      let '(out, es', f') := enroll_step op es f in
      let '(out', es'', f'') := enroll_run ops' es' f' in (out ++ out', es'', f'')
  end.

Definition writes (op : EnrollOp) : Prop :=
  match op with
  | OMint _ _ _ _ w | ORedeem _ _ _ _ w | OUnpin _ _ w | ORemove _ w => w = Written
  | OReload _ => True
  end.

Definition count (e : EnrollEvent) (l : list EnrollEvent) : nat := length (filter (eq e) l).

Definition unused h (l : list StoredToken) : nat :=
  length (filter (λ t, token_hash t = h ∧ used t = false) l).

Lemma find_token_Some h l k t : find_token h l = Some (k, t) → l !! k = Some t ∧ token_hash t = h.
Proof.
  revert k. induction l as [|u l IH]; intros k; simpl; [done|]. case_decide as Hh.
  - intros [= <- <-]. done.
  - destruct (find_token h l) as [[j v]|]; [|done]. intros [= <- <-]. by apply IH.
Qed.

(** The file, when there is one, holds the state. *)
Definition in_file es f : Prop :=
  is_Some (path es) ∧ default state_default (f ≫= from_str) = state es.

Lemma in_file_persist es f : is_Some (path es) → in_file es (persist Written es f).
Proof. intros [p Hp]. split; [by eexists|]. unfold persist. rewrite Hp. simpl. by rewrite from_str_pretty. Qed.

Lemma filter_le {A} (P Q : A → Prop) `{!∀ x, Decision (P x), !∀ x, Decision (Q x)} l :
  length (filter P (filter Q l)) ≤ length (filter P l).
Proof.
  induction l as [|x l IH]; [done|]. rewrite (filter_cons Q). case_decide.
  - rewrite !filter_cons_length. lia.
  - rewrite (filter_cons_length P x l). lia.
Qed.

Lemma enroll_step_count h op es f out es' f' :
  writes op → in_file es f → enroll_step op es f = (out, es', f') →
  in_file es' f' ∧
  count (Redeemed h) out + unused h (tokens (state es')) ≤
  count (Minted h) out + unused h (tokens (state es)).
Proof.
  intros Hw [Hp Hf]. unfold unused. destruct op as [i ttl now raw w|tok i peer now w|i peer w|i w|dir]; simpl in Hw; subst;
    cbn [enroll_step].
  - unfold mint. intros [= <- <- <-]. split; [by apply in_file_persist|]. simpl.
    rewrite filter_app, length_app, filter_cons_length. unfold count, one. simpl.
    rewrite !filter_cons, !filter_nil. repeat case_decide; simpl; try lia; naive_solver.
  - unfold redeem. destruct (find_token _ _) as [[k t]|] eqn:Hfind; [|intros; simplify_eq/=; split; [by split|lia]].
    repeat (case_decide; [intros; simplify_eq/=; split; [by split|lia]|]).
    destruct (used t) eqn:Hu; [intros; simplify_eq/=; split; [by split|lia]|].
    intros [= <- <- <-]. split; [by apply in_file_persist|]. simpl.
    apply find_token_Some in Hfind as [Hk Hh].
    pose proof (count_insert (λ t, token_hash t = h ∧ used t = false) _ k t (mark_used t) Hk) as Hc.
    revert Hc. unfold count, one. rewrite filter_cons, filter_nil. simpl.
    repeat case_decide; simpl; try lia; naive_solver.
  - intros. simplify_eq/=. split; [by apply in_file_persist|lia].
  - intros. simplify_eq/=. split; [by apply in_file_persist|]. apply filter_le.
  - intros. simplify_eq/=. split; [by split|]. rewrite Hf. lia.
Qed.

(** As long as the file is written, through minting, redeeming, unpinning, removals and
    restarts in any order, a token is redeemed at most as often as it was minted. *)
Theorem redeemed_at_most_minted ops dir h :
  Forall writes ops →
  let log := (enroll_run ops (load_or_default dir None) None).1.1 in
  count (Redeemed h) log ≤ count (Minted h) log.
Proof.
  intros Hw. assert (∀ es f, in_file es f →
    count (Redeemed h) (enroll_run ops es f).1.1 ≤
    count (Minted h) (enroll_run ops es f).1.1 + unused h (tokens (state es))) as Hgen.
  { induction Hw as [|op ops Hop Hw IH]; intros es f Hin; simpl; [unfold count; simpl; lia|].
    destruct (enroll_step op es f) as [[out es'] f'] eqn:Hs.
    destruct (enroll_step_count h _ _ _ _ _ _ Hop Hin Hs) as [Hin' Hc]. specialize (IH _ _ Hin').
    destruct (enroll_run ops es' f') as [[out' es''] f'']. simpl in *.
    unfold count in *. rewrite !filter_app, !length_app. lia. }
  specialize (Hgen (load_or_default dir None) None). unfold unused in Hgen. simpl in Hgen.
  rewrite Nat.add_0_r in Hgen. apply Hgen. split; [by eexists|done].
Qed.

(** When the file cannot be written, a redeemed token is as good as new after a
    restart. *)
Theorem unsaved_redemption_replayed es f tok i peer now peer' now' dir es' f' w :
  in_file es f →
  redeem utf8 tok i peer now (WriteFailed f) es f = (Ok tt, es', f') →
  (∀ k t, find_token (sha256_hex (utf8 tok)) (tokens (state es)) = Some (k, t) →
     (now' ≤ stored_expires_at_ms t)%N) →
  (redeem utf8 tok i peer' now' w (load_or_default dir f') f').1.1 = Ok tt.
Proof.
  intros [[p Hp] Hf] Hr Hexp. assert (f' = f) as ->.
  { revert Hr. unfold redeem. repeat case_match; intros; simplify_eq; try done. unfold persist. simpl. by rewrite Hp. }
  revert Hr. unfold redeem. cbn [load_or_default state]. rewrite Hf.
  destruct (find_token _ _) as [[k t]|]; [|done]. specialize (Hexp _ _ eq_refl).
  case_decide; [done|]. case_decide; [done|]. rewrite decide_False by lia. by destruct (used t).
Qed.

End tokens.

(** ** Connection attempts *)

Section attempts.
Context (earliest : Z).
Implicit Types (peer : PublicKey) (now t : Z) (h : list (PublicKey * Z)).

Definition of_peer peer h : list Z := (filter (λ a, a.1 = peer) h).*2.

Definition times_of peer s : list Z := default [] (attempt_times s !! peer).

Abbreviation alive := (live CONNECTION_ATTEMPT_INTERVAL false).

(** The attempts of a sequence that are admitted. *)
Fixpoint admitted (l : list (PublicKey * Z)) s : list (PublicKey * Z) * TunnelService :=
  match l with
  | [] => ([], s)
  | (peer, now) :: l' =>
      let '(r, s) := record_connection_attempt earliest peer now s in
      let '(h, s) := admitted l' s in
      (if is_ok r then (peer, now) :: h else h, s)
  end.

Lemma pop_old_keeps c (l : list Z) :
  StronglySorted Z.le l → pop_old c l = filter (λ t, (c < t)%Z) l.
Proof.
  induction 1 as [|t l Hs IH Ht]; simpl; [done|]. rewrite filter_cons.
  destruct (decide (t ≤ c)%Z); [rewrite decide_False by lia; done|]. rewrite decide_True by lia. f_equal.
  symmetry. apply filter_all. intros x Hx. eapply Forall_forall in Ht; [|exact Hx]. lia.
Qed.

(** The queues mirror what was admitted, and no span of the interval is overfull. *)
Record attempts_inv now h s : Prop := mkAttempts {
  ai_queue peer : mirrors CONNECTION_ATTEMPT_INTERVAL false (λ t, t) now (of_peer peer h) (times_of peer s);
  ai_past peer : Forall (λ t, (t ≤ now)%Z) (of_peer peer h);
  ai_span peer t :
    length (filter (in_span CONNECTION_ATTEMPT_INTERVAL false t) (of_peer peer h)) ≤ 8
}.

Lemma of_peer_snoc peer q now h :
  of_peer peer (h ++ [(q, now)]) = if decide (q = peer) then of_peer peer h ++ [now] else of_peer peer h.
Proof.
  unfold of_peer. rewrite filter_app, fmap_app, filter_cons. simpl.
  case_decide; [done|]. by rewrite app_nil_r.
Qed.

Lemma attempts_later now now' h s : (now ≤ now')%Z → attempts_inv now h s → attempts_inv now' h s.
Proof.
  intros Hle [Hq Hp Hs]. split; [|intros peer|done].
  - intros peer. by eapply mirrors_later.
  - eapply Forall_impl; [apply Hp|]. simpl. lia.
Qed.

Lemma attempt_exact now h s peer :
  (earliest ≤ now - CONNECTION_ATTEMPT_INTERVAL)%Z → attempts_inv now h s →
  let '(r, s') := record_connection_attempt earliest peer now s in
  (is_ok r = true ↔
     length (filter (alive now) (of_peer peer h)) < 8 ∧
     ¬ (attempt_times s !! peer = None ∧ MAX_TRACKED_ATTEMPT_PEERS ≤ size (attempt_times s))) ∧
  attempts_inv now (if is_ok r then h ++ [(peer, now)] else h) s'.
Proof.
  intros He Hinv. pose proof Hinv as [Hq Hp Hs]. unfold record_connection_attempt.
  case_decide as Hfull; [simpl; split; [split; [done|tauto]|done]|].
  assert (cutoff_of earliest now = (now - CONNECTION_ATTEMPT_INTERVAL)%Z) as ->
    by (unfold cutoff_of; by rewrite decide_True).
  fold (times_of peer s).
  assert (pop_old (now - CONNECTION_ATTEMPT_INTERVAL) (times_of peer s) =
          filter (alive now) (of_peer peer h)) as ->.
  { rewrite pop_old_keeps by apply (mirrors_sorted _ _ _ _ _ _ (Hq peer)).
    exact (mirrors_live _ _ _ _ _ _ (Hq peer)). }
  unfold MAX_CONNECTION_ATTEMPTS_PER_INTERVAL.
  assert (∀ q v, times_of q (set_attempts (<[peer := v]> (attempt_times s)) s) =
                 if decide (q = peer) then v else times_of q s) as Htimes.
  { intros q v. unfold times_of. simpl. case_decide as Hqp; [subst; by rewrite lookup_insert_eq|].
    by rewrite lookup_insert_ne by congruence. }
  case_decide as Hlen; simpl; (split; [split; [done || (intros _; split; [lia|done])|lia || done]|]).
  - split; [|done..]. intros q. rewrite Htimes. case_decide; [subst|apply Hq].
    by eapply mirrors_purge.
  - split.
    + intros q. rewrite Htimes, of_peer_snoc.
      destruct (decide (q = peer)) as [->|Hne].
      * rewrite decide_True by done. apply mirrors_push; [done|]. by eapply mirrors_purge.
      * rewrite decide_False by congruence. apply Hq.
    + intros q. rewrite of_peer_snoc. case_decide; [|apply Hp].
      apply Forall_app. split; [apply Hp|]. apply Forall_singleton. lia.
    + intros q t. rewrite of_peer_snoc. case_decide as Hqp; [|apply Hs]. subst.
      apply tracks_push; [apply Hp|apply Hs|]. lia.
Qed.

Lemma admitted_inv l h s now0 now1 :
  attempts_inv now0 h s → (now0 ≤ now1)%Z → Forall (λ a, (now0 ≤ a.2 ≤ now1)%Z) l →
  StronglySorted (λ a b, (a.2 ≤ b.2)%Z) l →
  Forall (λ a, (earliest ≤ a.2 - CONNECTION_ATTEMPT_INTERVAL)%Z) l →
  attempts_inv now1 (h ++ (admitted l s).1) (admitted l s).2.
Proof.
  revert h s now0. induction l as [|[peer now] l IH]; intros h s now0 Hinv Hle Hl Hs He; simpl.
  { rewrite app_nil_r. by eapply attempts_later. }
  apply Forall_cons in Hl as [Hn Hl]. apply Forall_cons in He as [He1 He].
  inversion Hs as [|? ? Hs' Hle']; subst. simpl in Hn.
  pose proof (attempt_exact now h s peer He1 (attempts_later _ _ _ _ (proj1 Hn) Hinv)) as Hx.
  destruct (record_connection_attempt earliest peer now s) as [r s'].
  destruct Hx as [_ Hinv'].
  assert (Forall (λ a, (now ≤ a.2 ≤ now1)%Z) l) as Hl'.
  { apply Forall_forall. intros a Ha. rewrite Forall_forall in Hl, Hle'.
    specialize (Hl _ Ha). specialize (Hle' _ Ha). simpl in *. lia. }
  specialize (IH _ _ _ Hinv' (proj2 Hn) Hl' Hs' He). destruct (admitted l s') as [h' s'']. simpl in *.
  destruct (is_ok r); [|done]. by rewrite <- app_assoc in IH.
Qed.

(** While the clock advances, no peer gets more than eight attempts through in any
    minute, and an attempt is refused only if eight attempts of the peer went through in the
    last minute, or if the peer is unknown and 256 peers are tracked. *)
Theorem attempts_limited l e idle peer now :
  StronglySorted (λ a b, (a.2 ≤ b.2)%Z) (l ++ [(peer, now)]) →
  Forall (λ a, (earliest ≤ a.2 - CONNECTION_ATTEMPT_INTERVAL)%Z) (l ++ [(peer, now)]) →
  let '(h, s) := admitted l (with_idle_timeout idle (with_enrollment_store e)) in
  (∀ q t, length (filter (λ x, (t ≤ x < t + CONNECTION_ATTEMPT_INTERVAL)%Z) (of_peer q h)) ≤ 8) ∧
  (is_ok (record_connection_attempt earliest peer now s).1 = true ↔
     length (filter (λ x, (now - CONNECTION_ATTEMPT_INTERVAL < x)%Z) (of_peer peer h)) < 8 ∧
     ¬ (attempt_times s !! peer = None ∧ 256 ≤ size (attempt_times s))).
Proof.
  intros Hs He. set (s0 := with_idle_timeout idle (with_enrollment_store e)).
  apply StronglySorted_app in Hs as (Hle & Hs & _). apply Forall_app in He as [He Hl].
  apply Forall_cons in Hl as [Hl _]. simpl in Hl.
  assert (∀ t, attempts_inv t [] s0) as H0.
  { intros t. split; [intros q; apply mirrors_nil|intros q; constructor|intros q x; simpl; lia]. }
  assert (Forall (λ a, (a.2 ≤ now)%Z) l) as Hln.
  { apply Forall_forall. intros a Ha. apply (Hle a (peer, now)); [done|by left]. }
  assert (attempts_inv now (admitted l s0).1 (admitted l s0).2) as Hinv.
  { set (t0 := match l with a :: _ => a.2 | [] => now end).
    apply (admitted_inv l [] s0 t0 now); [done| | |done..].
    - subst t0. destruct Hln; [done|]. done.
    - subst t0. destruct Hs as [|a l' Hs' Ha]; [constructor|]. apply Forall_cons in Hln as [Han Hln].
      constructor; [lia|]. apply Forall_forall. intros b Hb. rewrite Forall_forall in Hln, Ha.
      specialize (Hln _ Hb). specialize (Ha _ Hb). simpl in *. lia. }
  pose proof (attempt_exact now _ _ peer Hl Hinv) as Hx.
  destruct (admitted l s0) as [h s]. simpl in *. split; [intros q t; apply (ai_span _ _ _ Hinv)|].
  destruct (record_connection_attempt earliest peer now s) as [r s']. exact (proj1 Hx).
Qed.

End attempts.

(** ** Backoff *)

Lemma raw_loop_exact k fa b ms :
  (1 ≤ fa)%N → (b ≤ u128_max)%N →
  N.min (raw_loop k fa b ms) b = N.min (ms * fa ^ N.of_nat k) b.
Proof.
  intros Hfa Hb. revert ms. induction k as [|k IH]; intros ms; simpl; [by rewrite N.mul_1_r|].
  rewrite Nat2N.inj_succ, N.pow_succ_r' by lia.
  assert (1 ≤ fa ^ N.of_nat k)%N by (apply (N.pow_le_mono_l 1 fa (N.of_nat k)) in Hfa; rewrite N.pow_1_l in Hfa; done).
  case_decide as Hge.
  - rewrite !N.min_r; [done| |done].
    apply (N.le_trans _ (ms * fa)); [lia|]. rewrite N.mul_assoc. nia.
  - rewrite IH. replace (N.min u128_max (ms * fa)) with (ms * fa)%N by lia. by rewrite N.mul_assoc.
Qed.

(** The delay before attempt [n] is the initial delay times the [n]-th power of the
    factor, cut at the maximum; it never decreases with the number of attempts and never
    exceeds the maximum. *)
Theorem backoff_exact p n :
  (as_millis (max_delay p) ≤ u64_max)%N →
  raw_delay_for p n =
    from_millis (N.min (as_millis (initial_delay p) * N.max (factor p) 1 ^ n) (as_millis (max_delay p))) ∧
  (raw_delay_for p n ≤ max_delay p)%N ∧
  ∀ m, (n ≤ m)%N → (raw_delay_for p n ≤ raw_delay_for p m)%N.
Proof.
  intros Hm. set (b := as_millis (max_delay p)) in *. set (fa := N.max (factor p) 1).
  assert (1 ≤ fa)%N as Hfa by (subst fa; lia).
  assert (∀ n, raw_delay_for p n = from_millis (N.min (as_millis (initial_delay p) * fa ^ n) b)) as Heq.
  { intros k. unfold raw_delay_for. fold b fa.
    rewrite raw_loop_exact, N2Nat.id by (done || (unfold u128_max, u64_max in *; lia)).
    rewrite N.mod_small; [done|]. lia. }
  split; [apply Heq|]. split.
  - rewrite Heq. unfold from_millis. apply (N.le_trans _ (b * 1000000)); [lia|].
    subst b. unfold as_millis. pose proof (N.Div0.mul_div_le (max_delay p) 1000000). lia.
  - intros m Hnm. rewrite !Heq. unfold from_millis.
    pose proof (N.pow_le_mono_r fa n m ltac:(lia) Hnm). nia.
Qed.

(** ** The loop that keeps a link *)

Import reconnect_link.

(** Once the tunnel has expired the loop dials no more: it sends no further [Connecting]
    and has stopped after at most four steps, with the status [Stopped] as the last one it
    sends. *)
Theorem expired_link_stops p xs pc :
  Forall (λ x, li_expired x = true) xs → 4 ≤ length xs →
  let '(pc', out) := loop_run p xs pc in
  pc' = Finished ∧ (LinkConnecting ∉ out) ∧ (pc ≠ Finished → last out = Some Stopped).
Proof.
  assert (∀ ys, loop_run p ys Finished = (Finished, [])) as Hfin.
  { induction ys as [|y ys IH]; simpl; [done|]. by rewrite IH. }
  intros Hx Hlen. destruct xs as [|a [|b [|c [|d xs]]]]; simpl in Hlen; try lia.
  rewrite !Forall_cons in Hx. destruct Hx as (Ha & Hb & Hc & Hd & _).
  destruct pc; cbn [loop_run loop_step]; rewrite ?Ha, ?Hb, ?Hc, ?Hd;
    repeat (case_match; simplify_eq/=; rewrite ?Hfin, ?Ha, ?Hb, ?Hc, ?Hd in *); simplify_eq/=;
    (split_and!; [done|set_solver|done]).
Qed.

(** ** Evaluations *)

Module samples.

#[local] Existing Instance toy_ed25519.
#[local] Instance encodable_ser {A} `{!Ser A} : Encodable A | 100 := ser_encodable.
#[local] Instance toy_sha256 : Sha256 := {| sha256 := toy_hash |}.

#[local] Instance byte_text : KeyText := {| key_text k := Byte.to_N <$> k; key_text_inj := _ |}.

#[local] Instance ser_bool : Ser bool.
Proof.
  refine (ser_inj (λ b : bool, if b then 1 else 0)%N (λ n, Some (bool_decide (n = 1%N))) _).
  by intros [].
Defined.

#[local] Instance ser_token : Ser StoredToken.
Proof.
  refine (ser_inj (B := Text * Bytes * N * N * bool)
    (λ t, (token_hash t, token_tunnel_id t, token_created_at_ms t, stored_expires_at_ms t, used t))
    (λ '(a, b, c, d, e), Some (mkStored a b c d e)) _).
  by intros [].
Defined.

#[local] Instance ser_pin : Ser StoredPin.
Proof.
  refine (ser_inj (B := Bytes * Text) (λ p, (pin_tunnel_id p, pin_peer p))
    (λ '(a, b), Some (mkPin a b)) _).
  by intros [].
Defined.

#[local] Instance ser_state : Ser StoreState.
Proof.
  refine (ser_inj (B := list StoredToken * list StoredPin) (λ st, (tokens st, pins st))
    (λ '(a, b), Some (mkState a b)) _).
  by intros [].
Defined.

#[local] Instance state_json : StateJson :=
  {| to_string_pretty := encoded; from_str := decoded; from_str_pretty := decoded_encoded |}.

Definition ascii (t : Text) : Bytes := (λ c, default x00 (Byte.of_N c)) <$> t.

Definition olga : @SecretKey toy_ed25519 := ([x6f] : Bytes).
Definition anna : @SecretKey toy_ed25519 := ([x61] : Bytes).

Definition t7 : TunnelId := [x07].
Definition local_service : TunnelTarget := Tcp (V4 2130706433) 8080.

(** Anna asks for the tunnel with a capability of Olga. *)
Definition ask : TunnelRequest := open t7 (sign olga (public anna) t7 1000 9000 [x2a]).

Definition go (ok : bool) : Input := mkInput ok 2000 100000000000 ask Direct Written.

Definition opening : list Action :=
  Local (Create t7 local_service (public anna) 1000 9000 4) :: Accept (public anna)
    :: replicate 9 (Stream 0 (go true)).

Definition start : Node := fresh_node enrollment.new None.

Abbreviation run_it acts := (node_run ascii 0 (public olga) acts start).

Example forwards :
  snd <$> n_streams (run_it (opening ++ [Stream 0 (go true)])) =
    [Forwarding (mkAccess ask (mkDefinition t7 (public olga) local_service (public anna) 1000 9000
                                 Active 4 0) 2000) 0].
Proof. by vm_compute. Qed.

Lemma opening_fresh acts : Forall (λ act, creates act = None ∧ restarts act = false) acts →
  fresh_ids ∅ (opening ++ acts).
Proof.
  intros Ha. cbn. split; [set_solver|]. split; [done|]. do 9 (split; [done|]).
  generalize ({[t7]} ∪ ∅ : gset TunnelId). induction Ha as [|act acts [Hc Hr] Ha IH]; intros u; [done|].
  destruct act as [| |[]|]; try done; cbn; auto.
Qed.

Lemma slots_respected_witness :
  let n := run_it (opening ++ []) in
  total_connections (n_service n) ≤ 32 ∧
  length (filter (λ y, in_tunnels (active_connections <$> tunnels (n_service n)) y = true)
            (n_streams n)) ≤ 32.
Proof.
  destruct (slots_respected ascii 0 (public olga) enrollment.new None (opening ++ []))
    as (_ & _ & Ht & Hf).
  split; [exact Ht|]. exact (proj2 (Hf (opening_fresh [] (Forall_nil_2 _)))).
Defined.

(** Tasks go on after a revocation without termination, but nobody counts them any more:
    with every slot of [t7] taken, revoking it and sharing [t8] lets a 33rd task in. *)
Definition ask_for (i : TunnelId) (k : nat) : Input :=
  mkInput true 2000 (Z.of_nat k * 100000000000)
    (open i (sign olga (public anna) i 1000 9000 [x2a])) Direct Written.

Definition joins (i : TunnelId) (k : nat) : list Action :=
  Accept (public anna) :: replicate 6 (Stream k (ask_for i k)).

Definition crowd : list Action :=
  Local (Create t7 local_service (public anna) 1000 9000 32) :: mjoin (joins t7 <$> seq 0 32)
    ++ [Local (Revoke t7 false); Local (Create [x08] local_service (public anna) 1000 9000 32)]
    ++ joins [x08] 32.

Example revoked_tasks_uncounted :
  let n := run_it crowd in
  total_connections (n_service n) = 1 ∧
  length (filter (λ y, is_Some (slot_id y.2)) (n_streams n)) = 33.
Proof. by vm_compute. Qed.

Definition access : Access :=
  mkAccess ask (mkDefinition t7 (public olga) local_service (public anna) 1000 9000 Active 4 0) 2000.

Lemma forwarding_now :
  n_streams (run_it (opening ++ [Stream 0 (go true)])) !! 0 = Some (public anna, Forwarding access 0).
Proof. by vm_compute. Qed.

(** Anna redeems a token and then waits for a slot. *)
Definition ticket : Text := to_hex [x01; x02].

Definition enrolls : list Action :=
  Local (Create t7 local_service (public anna) 1000 9000 4) :: Local (Mint t7 600 1000 [x01; x02] Written)
    :: Accept (public anna)
    :: replicate 5 (Stream 0 (mkInput true 2000 100000000000 (enroll t7 (Some ticket)) Direct Written)).

Definition enrolled : Access :=
  mkAccess (enroll t7 (Some ticket))
    (mkDefinition t7 (public olga) local_service (public anna) 1000 9000 Active 4 0) 2000.

Lemma enrolled_now : n_streams (run_it enrolls) !! 0 = Some (public anna, Reserved enrolled).
Proof. by vm_compute. Qed.

Lemma forwarding_authorised_witness :
  is_loopback (target (a_definition access)) = true ∧
  (pinned_by (state enrollment.new) t7 (public anna) ∨
   (∃ st, ((None : FileState) ≫= from_str) = Some st ∧ pinned_by st t7 (public anna)) ∨
   redeemed_in ascii 0 (public olga) enrolls start t7 (public anna)).
Proof.
  split.
  - destruct (forwarding_authorised ascii 0 (public olga) enrollment.new None
      (opening ++ [Stream 0 (go true)]) 0 (public anna) (Forwarding access 0) access
      forwarding_now eq_refl) as (_ & _ & Hl & _). exact Hl.
  - destruct (forwarding_authorised ascii 0 (public olga) enrollment.new None
      enrolls 0 (public anna) (Reserved enrolled) enrolled enrolled_now eq_refl) as (_ & _ & _ & Hr).
    apply Hr, orderly_written. repeat constructor.
Defined.

Lemma tunnel_open : ∃ d, tunnels (n_service (run_it (opening ++ []))) !! t7 = Some d.
Proof. eexists. vm_compute. reflexivity. Qed.

Lemma revocation_terminates_witness :
  ∃ d, tunnels (n_service (run_it (opening ++ []))) !! t7 = Some d ∧
  get_tunnel t7 (n_service (run_it ((opening ++ []) ++ [Local (Revoke t7 true)]))) = None.
Proof.
  destruct tunnel_open as [d Hd]. exists d. split; [exact Hd|].
  destruct (revocation_terminates ascii 0 (public olga) enrollment.new None (opening ++ []) t7 [] d
    (opening_fresh [] (Forall_nil_2 _)) Hd (Forall_nil_2 _)) as [Hg _]. exact Hg.
Defined.

Lemma opened_now : n_streams (run_it opening) !! 0 = Some (public anna, Opened access 0).
Proof. by vm_compute. Qed.

Lemma tunnel_leaking :
  ∃ d, tunnels (n_service (run_it (opening ++ [Stream 0 (go false)]))) !! t7 = Some d.
Proof. eexists. vm_compute. reflexivity. Qed.

Lemma hangup_fresh : fresh_ids ∅ (opening ++ [Stream 0 (go false)]).
Proof. apply opening_fresh. by repeat constructor. Qed.

Lemma hangup_leaks_slot_witness :
  n_streams (run_it opening) !! 0 = Some (public anna, Opened access 0) ∧
  ∃ d, tunnels (n_service (run_it (opening ++ [Stream 0 (go false)]))) !! t7 = Some d ∧
  holding t7 (n_streams (run_it (opening ++ [Stream 0 (go false)]))) < active_connections d.
Proof.
  split; [exact opened_now|]. destruct tunnel_leaking as [d Hd]. exists d. split; [exact Hd|].
  destruct (hangup_leaks_slot ascii 0 (public olga) enrollment.new None opening 0 (go false)
    (public anna) access 0 [] d hangup_fresh (Forall_nil_2 _) opened_now eq_refl Hd) as [_ Hh]. exact Hh.
Defined.

Definition raw : Bytes := [x01; x02].
Definition secret : Text := to_hex raw.

Definition enrolling : list EnrollOp :=
  [OMint t7 600 1000 raw Written; ORedeem secret t7 (public anna) 2000 Written;
   OReload (txt "dir"); ORedeem secret t7 (public olga) 3000 Written].

Lemma redeemed_at_most_minted_witness :
  Forall writes enrolling ∧
  (let log := (enroll_run ascii enrolling (load_or_default (txt "dir") None) None).1.1 in
   let h := sha256_hex (ascii secret) in
   count (Redeemed h) log ≤ count (Minted h) log).
Proof.
  assert (Forall writes enrolling) as Hw by (by repeat constructor).
  split; [exact Hw|]. exact (redeemed_at_most_minted ascii enrolling (txt "dir") _ Hw).
Defined.

(** A store with one token, which is in the file. *)
Definition minted : EnrollmentTokenStore * FileState :=
  let '(_, es, f) := mint ascii t7 600 1000 raw Written (load_or_default (txt "dir") None) None in (es, f).

Definition lost : EnrollmentTokenStore * FileState :=
  let '(_, es, f) := redeem ascii secret t7 (public anna) 2000 (WriteFailed minted.2) minted.1 minted.2 in (es, f).

Lemma unsaved_redemption_replayed_witness :
  in_file minted.1 minted.2 ∧
  redeem ascii secret t7 (public anna) 2000 (WriteFailed minted.2) minted.1 minted.2
    = (Ok tt, lost.1, lost.2) ∧
  (redeem ascii secret t7 (public olga) 3000 Written (load_or_default (txt "dir") lost.2) lost.2).1.1 = Ok tt.
Proof.
  assert (in_file minted.1 minted.2) as Hin by (split; [by eexists|by vm_compute]).
  split; [exact Hin|]. split; [by vm_compute|].
  apply (unsaved_redemption_replayed ascii minted.1 minted.2 secret t7 (public anna) 2000 (public olga) 3000
    (txt "dir") lost.1 lost.2 Written Hin); [by vm_compute|].
  intros k t. vm_compute. by intros [= <- <-].
Defined.

Lemma attempts_limited_witness :
  let l := replicate 9 (public anna, 100000000000%Z) in
  StronglySorted (λ a b : PublicKey * Z, (a.2 ≤ b.2)%Z) (l ++ [(public anna, 100000000000%Z)]) ∧
  Forall (λ a : PublicKey * Z, (0 ≤ a.2 - CONNECTION_ATTEMPT_INTERVAL)%Z) (l ++ [(public anna, 100000000000%Z)]) ∧
  ∀ q t, length (filter (λ x, (t ≤ x < t + CONNECTION_ATTEMPT_INTERVAL)%Z)
    (of_peer q (admitted 0 l (with_idle_timeout 5 (with_enrollment_store enrollment.new))).1)) ≤ 8.
Proof.
  intros l.
  assert (StronglySorted (λ a b : PublicKey * Z, (a.2 ≤ b.2)%Z) (l ++ [(public anna, 100000000000%Z)])) as Hs
    by (by repeat constructor).
  assert (Forall (λ a : PublicKey * Z, (0 ≤ a.2 - CONNECTION_ATTEMPT_INTERVAL)%Z)
    (l ++ [(public anna, 100000000000%Z)])) as He by (by repeat constructor).
  split; [exact Hs|]. split; [exact He|].
  pose proof (attempts_limited 0 l enrollment.new 5 _ _ Hs He) as Hl.
  destruct (admitted 0 l _) as [h s]. exact (proj1 Hl).
Defined.

Lemma backoff_exact_witness :
  (as_millis (max_delay policy_default) ≤ u64_max)%N ∧ raw_delay_for policy_default 4 = 16000000000%N ∧
  (raw_delay_for policy_default 9 ≤ max_delay policy_default)%N.
Proof.
  split; [by vm_compute|]. split; [by vm_compute|].
  exact (proj1 (proj2 (backoff_exact policy_default 9 ltac:(by vm_compute)))).
Defined.

Definition expired_input : LoopInput := mkLoopInput false true true (λ n, n).

Lemma expired_link_stops_witness :
  (loop_run policy_default (replicate 4 expired_input) (Dial 3)).1 = Finished.
Proof.
  pose proof (expired_link_stops policy_default (replicate 4 expired_input) (Dial 3)
    ltac:(by repeat constructor) ltac:(simpl; lia)) as Hx.
  destruct (loop_run _ _ _) as [pc out]. exact (proj1 Hx).
Defined.

End samples.
