(* ===== verification/Connectivity.v ===== *)
(** * Peer connectivity: [src/control_plane/connectivity.rs], [src/control_plane/reconnect.rs],
      [src/discovery/connectivity.rs]

    [Module connectivity] holds the state machine of a peer, the bounded store of peers and
    the comparison of desired with observed connectivity; [Module reconnect] the queue of
    reconnections with its backoff.  [Module tasks] composes them as the discovery service
    does: the store and the queue are behind two locks, a function is the list of its critical
    sections, and the reconnection loop, the dialling loop and any number of calls execute
    theirs in any order.  Times are arguments, in nanoseconds since some instant.  Log output
    is left out. *)

From Stdlib Require Import NArith.
From stdpp Require Import prelude gmap strings.
From S2P Require Import Prelude Text Signing.

(** [HashMap::iter]: some order of the entries. *)
Class HashEntries : Type := {
  hash_entries {V} : gmap PublicKey V → list (PublicKey * V);
  hash_entries_perm {V} (m : gmap PublicKey V) : hash_entries m ≡ₚ map_to_list m
}.

Section by_key.
Context {A : Type} (key : A → N).

(** [Iterator::min_by_key]: the first of the least. *)
Fixpoint min_by_key (l : list A) : option A :=
  match l with
  | [] => None
  | a :: l' =>
      match min_by_key l' with
      | None => Some a
      | Some b => if decide (key a ≤ key b)%N then Some a else Some b
      end
  end.

(** [Iterator::max_by_key]: the last of the greatest. *)
Fixpoint max_by_key (l : list A) : option A :=
  match l with
  | [] => None
  | a :: l' =>
      match max_by_key l' with
      | None => Some a
      | Some b => if decide (key a ≤ key b)%N then Some b else Some a
      end
  end.

End by_key.

Module connectivity.

Definition MAX_CONNECTIVITY_PEERS : nat := 1024.
Definition MAX_TRAIL_PER_PEER : nat := 64.

Inductive PeerConnectivityState : Type :=
| Unknown | Discovered | Connecting | Reachable | DirectTopicReady | Degraded | OfflineStale.

#[export] Instance peer_connectivity_state_eq_dec : EqDecision PeerConnectivityState.
Proof. solve_decision. Defined.

Definition is_known (st : PeerConnectivityState) : bool :=
  match st with Unknown => false | _ => true end.

Definition is_online (st : PeerConnectivityState) : bool :=
  match st with Reachable | DirectTopicReady => true | _ => false end.

Definition is_ready_for_direct (st : PeerConnectivityState) : bool :=
  match st with DirectTopicReady => true | _ => false end.

Inductive ConnectivityEvent : Type :=
| DiscoverySeen | EndpointConnecting | EndpointConnected | EndpointFailed
| TopicJoined | TopicJoinFailed | DirectMessageReceived | Timeout
| PathChangedDirect | PathChangedRelay | PathChangedTransitioning
| DirectMessageSent | InboundGossipEvent | ApplicationMessageDecoded.

#[export] Instance connectivity_event_eq_dec : EqDecision ConnectivityEvent.
Proof. solve_decision. Defined.

Definition transition (state : PeerConnectivityState) (event : ConnectivityEvent)
    : option PeerConnectivityState :=
  match state, event with
  | Unknown, DiscoverySeen => Some Discovered
  | Unknown, EndpointConnecting => Some Connecting
  | Unknown, EndpointConnected => Some Reachable
  | Unknown, DirectMessageReceived => Some DirectTopicReady
  | Unknown, TopicJoined => Some DirectTopicReady

  | Discovered, DiscoverySeen => None
  | Discovered, EndpointConnecting => Some Connecting
  | Discovered, EndpointConnected => Some Reachable
  | Discovered, EndpointFailed => Some Degraded
  | Discovered, TopicJoined => Some DirectTopicReady
  | Discovered, TopicJoinFailed => Some Degraded
  | Discovered, DirectMessageReceived => Some DirectTopicReady
  | Discovered, Timeout => Some OfflineStale

  | Connecting, DiscoverySeen => None
  | Connecting, EndpointConnecting => None
  | Connecting, EndpointConnected => Some Reachable
  | Connecting, EndpointFailed => Some Degraded
  | Connecting, TopicJoined => Some DirectTopicReady
  | Connecting, TopicJoinFailed => Some Degraded
  | Connecting, DirectMessageReceived => Some DirectTopicReady
  | Connecting, Timeout => Some OfflineStale

  | Reachable, DiscoverySeen => None
  | Reachable, EndpointConnecting => None
  | Reachable, EndpointConnected => None
  | Reachable, EndpointFailed => Some Degraded
  | Reachable, TopicJoined => Some DirectTopicReady
  | Reachable, TopicJoinFailed => Some Degraded
  | Reachable, DirectMessageReceived => Some DirectTopicReady
  | Reachable, Timeout => Some OfflineStale

  | DirectTopicReady, DiscoverySeen => None
  | DirectTopicReady, EndpointConnecting => None
  | DirectTopicReady, EndpointConnected => None
  | DirectTopicReady, EndpointFailed => Some Degraded
  | DirectTopicReady, TopicJoined => None
  | DirectTopicReady, TopicJoinFailed => Some Degraded
  | DirectTopicReady, DirectMessageReceived => None
  | DirectTopicReady, Timeout => Some OfflineStale

  | Degraded, DiscoverySeen => None
  | Degraded, EndpointConnecting => Some Connecting
  | Degraded, EndpointConnected => Some Reachable
  | Degraded, EndpointFailed => None
  | Degraded, TopicJoined => Some DirectTopicReady
  | Degraded, TopicJoinFailed => None
  | Degraded, DirectMessageReceived => Some DirectTopicReady
  | Degraded, Timeout => Some OfflineStale

  | OfflineStale, DiscoverySeen => Some Discovered
  | OfflineStale, EndpointConnecting => Some Connecting
  | OfflineStale, EndpointConnected => Some Reachable
  | OfflineStale, EndpointFailed => None
  | OfflineStale, TopicJoined => Some DirectTopicReady
  | OfflineStale, TopicJoinFailed => None
  | OfflineStale, DirectMessageReceived => Some DirectTopicReady
  | OfflineStale, Timeout => None

  | _, _ => None
  end.

Inductive TransitionOutcome : Type :=
| Transitioned (from to : PeerConnectivityState) (event : ConnectivityEvent)
| NoChange.

Record TransitionRecord : Type := mkTransition {
  at_time : N;
  from_state : PeerConnectivityState;
  to_state : PeerConnectivityState;
  caused_by : ConnectivityEvent
}.

Inductive PathKind : Type := PathUnknown | Direct | Relay | Transitioning.

Inductive DirectTopicState : Type := NotAttempted | TopicReady | TopicFailed.

Record PeerConnectivityEntry : Type := mkEntry {
  peer_id : PublicKey;
  entry_state : PeerConnectivityState;
  discovery_last_seen : option N;
  last_seen : N;
  path_kind : PathKind;
  direct_topic_state : DirectTopicState;
  last_inbound_direct : option N;
  last_outbound_direct : option N;
  last_inbound_gossip : option N;
  last_decoded_message : option N;
  last_error : option Text;
  trail : list TransitionRecord
}.

Definition new_entry (peer : PublicKey) (st : PeerConnectivityState) (now : N)
    : PeerConnectivityEntry :=
  mkEntry peer st None now PathUnknown NotAttempted None None None None None [].

Implicit Types (e : PeerConnectivityEntry) (ev : ConnectivityEvent).

Definition set_state (st : PeerConnectivityState) e : PeerConnectivityEntry :=
  mkEntry (peer_id e) st (discovery_last_seen e) (last_seen e) (path_kind e)
    (direct_topic_state e) (last_inbound_direct e) (last_outbound_direct e)
    (last_inbound_gossip e) (last_decoded_message e) (last_error e) (trail e).
Definition set_discovery (t : N) e : PeerConnectivityEntry :=
  mkEntry (peer_id e) (entry_state e) (Some t) (last_seen e) (path_kind e)
    (direct_topic_state e) (last_inbound_direct e) (last_outbound_direct e)
    (last_inbound_gossip e) (last_decoded_message e) (last_error e) (trail e).
Definition set_last_seen (t : N) e : PeerConnectivityEntry :=
  mkEntry (peer_id e) (entry_state e) (discovery_last_seen e) t (path_kind e)
    (direct_topic_state e) (last_inbound_direct e) (last_outbound_direct e)
    (last_inbound_gossip e) (last_decoded_message e) (last_error e) (trail e).
Definition set_path (k : PathKind) e : PeerConnectivityEntry :=
  mkEntry (peer_id e) (entry_state e) (discovery_last_seen e) (last_seen e) k
    (direct_topic_state e) (last_inbound_direct e) (last_outbound_direct e)
    (last_inbound_gossip e) (last_decoded_message e) (last_error e) (trail e).
Definition set_topic (ts : DirectTopicState) e : PeerConnectivityEntry :=
  mkEntry (peer_id e) (entry_state e) (discovery_last_seen e) (last_seen e) (path_kind e)
    ts (last_inbound_direct e) (last_outbound_direct e)
    (last_inbound_gossip e) (last_decoded_message e) (last_error e) (trail e).
Definition set_inbound (t : N) e : PeerConnectivityEntry :=
  mkEntry (peer_id e) (entry_state e) (discovery_last_seen e) (last_seen e) (path_kind e)
    (direct_topic_state e) (Some t) (last_outbound_direct e)
    (last_inbound_gossip e) (last_decoded_message e) (last_error e) (trail e).
Definition set_outbound (t : N) e : PeerConnectivityEntry :=
  mkEntry (peer_id e) (entry_state e) (discovery_last_seen e) (last_seen e) (path_kind e)
    (direct_topic_state e) (last_inbound_direct e) (Some t)
    (last_inbound_gossip e) (last_decoded_message e) (last_error e) (trail e).
Definition set_gossip (t : N) e : PeerConnectivityEntry :=
  mkEntry (peer_id e) (entry_state e) (discovery_last_seen e) (last_seen e) (path_kind e)
    (direct_topic_state e) (last_inbound_direct e) (last_outbound_direct e)
    (Some t) (last_decoded_message e) (last_error e) (trail e).
Definition set_decoded (t : N) e : PeerConnectivityEntry :=
  mkEntry (peer_id e) (entry_state e) (discovery_last_seen e) (last_seen e) (path_kind e)
    (direct_topic_state e) (last_inbound_direct e) (last_outbound_direct e)
    (last_inbound_gossip e) (Some t) (last_error e) (trail e).
Definition set_error (x : option Text) e : PeerConnectivityEntry :=
  mkEntry (peer_id e) (entry_state e) (discovery_last_seen e) (last_seen e) (path_kind e)
    (direct_topic_state e) (last_inbound_direct e) (last_outbound_direct e)
    (last_inbound_gossip e) (last_decoded_message e) x (trail e).
Definition set_trail (l : list TransitionRecord) e : PeerConnectivityEntry :=
  mkEntry (peer_id e) (entry_state e) (discovery_last_seen e) (last_seen e) (path_kind e)
    (direct_topic_state e) (last_inbound_direct e) (last_outbound_direct e)
    (last_inbound_gossip e) (last_decoded_message e) (last_error e) l.

Definition push_trail (now : N) (from to : PeerConnectivityState) ev (max_trail : nat) e
    : PeerConnectivityEntry :=
  let kept := if decide (max_trail ≤ length (trail e)) then tail (trail e) else trail e in
  set_trail (kept ++ [mkTransition now from to ev]) e.

Record PeerConnectivityStore : Type := mkStore {
  peers : gmap PublicKey PeerConnectivityEntry;
  max_peers : nat;
  max_trail : nat
}.

Implicit Types (s : PeerConnectivityStore) (p : PublicKey).

Definition set_peers (m : gmap PublicKey PeerConnectivityEntry) s : PeerConnectivityStore :=
  mkStore m (max_peers s) (max_trail s).

Definition with_limits (mp mt : nat) : PeerConnectivityStore :=
  mkStore ∅ (Nat.max mp 1) (Nat.max mt 1).

Definition new : PeerConnectivityStore := with_limits MAX_CONNECTIVITY_PEERS MAX_TRAIL_PER_PEER.

Definition get p s : option PeerConnectivityEntry := peers s !! p.

Definition state p s : PeerConnectivityState :=
  default Unknown (entry_state <$> peers s !! p).

Definition trail_of p s : list TransitionRecord := default [] (trail <$> peers s !! p).

(** What an event records on a known peer whether or not it moves it. *)
Definition note_event ev (now : N) e : PeerConnectivityEntry :=
  match ev with
  | DiscoverySeen => set_discovery now e
  | DirectMessageReceived => set_inbound now e
  | DirectMessageSent => set_outbound now e
  | InboundGossipEvent => set_gossip now e
  | ApplicationMessageDecoded => set_decoded now e
  | PathChangedDirect => set_path Direct e
  | PathChangedRelay => set_path Relay e
  | PathChangedTransitioning => set_path Transitioning e
  | _ => e
  end.

(** What it records on a known peer that it moves. *)
Definition note_transition ev (error : option Text) e : PeerConnectivityEntry :=
  match ev with
  | EndpointFailed => set_error error e
  | TopicJoinFailed => set_topic TopicFailed (set_error error e)
  | TopicJoined => set_error None (set_topic TopicReady e)
  | EndpointConnected | DirectMessageReceived => set_error None e
  | _ => e
  end.

(** What it records on a new entry. *)
Definition note_creation ev (now : N) e : PeerConnectivityEntry :=
  match ev with
  | DiscoverySeen => set_discovery now e
  | DirectMessageReceived => set_inbound now e
  | PathChangedDirect => set_path Direct e
  | PathChangedRelay => set_path Relay e
  | PathChangedTransitioning => set_path Transitioning e
  | _ => e
  end.

Section store.
Context `{!HashEntries}.

Definition clear s : list PublicKey * PeerConnectivityStore :=
  ((hash_entries (peers s)).*1, set_peers ∅ s).

Definition evict_one s : PeerConnectivityStore :=
  match list_find (λ x, entry_state x.2 = OfflineStale) (hash_entries (peers s)) with
  | Some (_, (key, _)) => set_peers (delete key (peers s)) s
  | None =>
      match min_by_key (λ x, last_seen x.2) (hash_entries (peers s)) with
      | Some (key, _) => set_peers (delete key (peers s)) s
      | None => s
      end
  end.

Definition apply_inner p ev (error : option Text) (now : N) s
    : TransitionOutcome * PeerConnectivityStore :=
  match peers s !! p with
  | Some e =>
      let e := note_event ev now (set_last_seen now e) in
      match transition (entry_state e) ev with
      | Some next =>
          let from := entry_state e in
          let e := note_transition ev error (set_state next e) in
          let e := push_trail now from next ev (max_trail s) e in
          (Transitioned from next ev, set_peers (<[p := e]> (peers s)) s)
      | None => (NoChange, set_peers (<[p := e]> (peers s)) s)
      end
  | None =>
      match transition Unknown ev with
      | None => (NoChange, s)
      | Some next =>
          let s := if decide (max_peers s ≤ size (peers s)) then evict_one s else s in
          let e := note_creation ev now (new_entry p next now) in
          let e := push_trail now Unknown next ev (max_trail s) e in
          (Transitioned Unknown next ev, set_peers (<[p := e]> (peers s)) s)
      end
  end.

Definition apply p ev (now : N) s : TransitionOutcome * PeerConnectivityStore :=
  apply_inner p ev None now s.

Definition apply_with_error p ev (error : option Text) (now : N) s
    : TransitionOutcome * PeerConnectivityStore :=
  apply_inner p ev error now s.

(** The loop of [expire_stale] over the ids collected before it; [duration_since] is zero
    for an instant in the future. *)
Fixpoint expire_loop (ids : list PublicKey) (now ttl : N) s
    : list PublicKey * PeerConnectivityStore :=
  match ids with
  | [] => ([], s)
  | id :: ids' =>
      let stale := match peers s !! id with
                   | Some e => bool_decide (ttl ≤ now - last_seen e)%N
                   | None => false
                   end in
      if stale then
        let '(outcome, s) := apply id Timeout now s in
        let '(expired, s) := expire_loop ids' now ttl s in
        (match outcome with Transitioned _ _ _ => id :: expired | NoChange => expired end, s)
      else expire_loop ids' now ttl s
  end.

Definition expire_stale (now ttl : N) s : list PublicKey * PeerConnectivityStore :=
  expire_loop (hash_entries (peers s)).*1 now ttl s.

End store.

Inductive DesiredConnectivity : Type := DesiredNone | EndpointReachable | DesiredTopicReady.

Definition satisfied_by (d : DesiredConnectivity) (st : PeerConnectivityState) : bool :=
  match d with
  | DesiredNone => true
  | EndpointReachable => match st with Reachable | DirectTopicReady => true | _ => false end
  | DesiredTopicReady => match st with DirectTopicReady => true | _ => false end
  end.

Record ObservedConnectivity : Type := mkObserved {
  observed_state : PeerConnectivityState;
  reconnect_pending : bool;
  reconnect_attempts : N
}.

Inductive ReconcileReason : Type := NotDesired | AlreadySatisfied | ReconnectPending.

Inductive ReconcileDecision : Type :=
| NoAction (reason : ReconcileReason)
| ScheduleReconnect (attempts : N).

Definition reconcile (desired : DesiredConnectivity) (observed : ObservedConnectivity)
    : ReconcileDecision :=
  match desired with
  | DesiredNone => NoAction NotDesired
  | _ =>
      if satisfied_by desired (observed_state observed) then NoAction AlreadySatisfied
      else if reconnect_pending observed then NoAction ReconnectPending
      else ScheduleReconnect (reconnect_attempts observed)
  end.

End connectivity.

Module reconnect.
Import connectivity.

Definition DEFAULT_RECONNECT_INITIAL_BACKOFF : N := 2000000000.
Definition DEFAULT_RECONNECT_MAX_BACKOFF : N := 300000000000.
Definition MAX_RECONNECT_PEERS : nat := 256.
Definition RECONNECT_LOOP_TICK : N := 1000000000.
Definition RECONNECT_CONFIRM_TIMEOUT : N := 3000000000.

Record ReconnectState : Type := mkReconnectState {
  state_attempts : N;
  state_in_flight : bool
}.

(** [ReconnectEntry]; [attempts] has 32 bits. *)
Record ReconnectEntry : Type := mkReconnect {
  attempts : N;
  next_attempt_at : N;
  in_flight : bool
}.

Record ReconnectScheduler : Type := mkScheduler {
  queue : gmap PublicKey ReconnectEntry;
  queue_max : nat;
  initial_backoff : N;
  max_backoff : N
}.

Implicit Types (q : ReconnectScheduler) (p : PublicKey) (x : ReconnectEntry).

Definition set_queue (m : gmap PublicKey ReconnectEntry) q : ReconnectScheduler :=
  mkScheduler m (queue_max q) (initial_backoff q) (max_backoff q).

Definition with_limits (initial maximum : N) (limit : nat) : ReconnectScheduler :=
  mkScheduler ∅ (Nat.max limit 1) initial (N.max maximum initial).

Definition new : ReconnectScheduler :=
  with_limits DEFAULT_RECONNECT_INITIAL_BACKOFF DEFAULT_RECONNECT_MAX_BACKOFF MAX_RECONNECT_PEERS.

Definition set_backoff (initial maximum : N) q : ReconnectScheduler :=
  mkScheduler (queue q) (queue_max q) initial (N.max maximum initial).

(** [as_millis().max(1) as u64] *)
Definition millis_u64 (d : N) : N := (N.max (d / 1000000) 1) mod (u64_max + 1).

Definition backoff_for (n : N) q : N :=
  if decide (n = 0)%N then 0%N
  else
    let shift := N.min (n - 1) 30 in
    let multiplier := N.shiftl 1 shift in
    let initial_ms := millis_u64 (initial_backoff q) in
    let max_ms := millis_u64 (max_backoff q) in
    (N.min (N.min (initial_ms * multiplier) u64_max) max_ms * 1000000)%N.

Definition is_queued p q : bool := bool_decide (is_Some (queue q !! p)).

Definition is_in_flight p q : bool := default false (in_flight <$> queue q !! p).

Definition state p q : option ReconnectState :=
  (λ x, mkReconnectState (attempts x) (in_flight x)) <$> queue q !! p.

Definition reset p q : ReconnectScheduler := set_queue (delete p (queue q)) q.

Definition clear q : ReconnectScheduler := set_queue ∅ q.

Definition on_failure p (now : N) q : ReconnectScheduler :=
  let next_attempts := match queue q !! p with
                       | Some x => N.min (attempts x + 1) u32_max
                       | None => 1%N
                       end in
  let backoff := backoff_for next_attempts q in
  match queue q !! p with
  | None => q
  | Some _ => set_queue (<[p := mkReconnect next_attempts (now + backoff) false]> (queue q)) q
  end.

Section order.
Context `{!HashEntries}.

Definition evict_one q : ReconnectScheduler :=
  let entries := hash_entries (queue q) in
  let victim := match max_by_key (λ y, next_attempt_at y.2)
                        (filter (λ y, in_flight y.2 = false) entries) with
                | Some y => Some y
                | None => min_by_key (λ y, next_attempt_at y.2) entries
                end in
  match victim with
  | Some (p, _) => set_queue (delete p (queue q)) q
  | None => q
  end.

Definition schedule p (now : N) q : bool * ReconnectScheduler :=
  if decide (is_Some (queue q !! p)) then (false, q)
  else
    let q := if decide (queue_max q ≤ size (queue q)) then evict_one q else q in
    (true, set_queue (<[p := mkReconnect 0 now false]> (queue q)) q).

(** What the loop of [due] selects, and what it does with it. *)
Definition is_due (now : N) x : bool := negb (in_flight x) && bool_decide (next_attempt_at x ≤ now)%N.

Definition start_attempt (now : N) x : ReconnectEntry :=
  if is_due now x then mkReconnect (attempts x) (next_attempt_at x) true else x.

Definition due (now : N) q : list PublicKey * ReconnectScheduler :=
  ((filter (λ y, is_due now y.2 = true) (hash_entries (queue q))).*1,
   set_queue (start_attempt now <$> queue q) q).

End order.

Inductive ReconnectSignal : Type := PeerReachable (p : PublicKey).

#[export] Instance reconnect_signal_eq_dec : EqDecision ReconnectSignal.
Proof. solve_decision. Defined.

End reconnect.

(** ** The tasks of the discovery service around the two locks *)
Module tasks.
Import connectivity reconnect.

Implicit Types (p : PublicKey).

(** What is behind the two locks. *)
Record Shared : Type := mkShared {
  store : PeerConnectivityStore;
  scheduler : ReconnectScheduler
}.

(** What happens outside: a peer was queued for a reconnection, a signal was sent, an event
    was applied. *)
Inductive Output : Type :=
| Queued p
| Signalled (s : ReconnectSignal)
| Applied p (ev : ConnectivityEvent).

#[export] Instance output_eq_dec : EqDecision Output.
Proof. solve_decision. Defined.

(** A critical section. *)
Inductive Critical : Type :=
| Apply p (ev : ConnectivityEvent) (error : option Text) (at_ : option N)
    (* the store locked: [apply_inner], at [Instant::now()] or an earlier instant *)
| Reset p                                 (* the queue locked: [reset] *)
| ResetSignalling p                       (* [is_queued], [reset] and the signal *)
| OnFailure p (at_ : N)                   (* [on_failure] with an earlier instant *)
| Observe p (d : DesiredConnectivity)     (* the store locked: [state] *)
| Reconcile p (d : DesiredConnectivity) (st : PeerConnectivityState)
    (* the queue locked: [state]; then [reconcile] *)
| Schedule p.                             (* the queue locked: [schedule] *)

Section run.
Context `{!HashEntries}.

(** One critical section: the new state, what it shows, and what the function does next. *)
Definition exec (x : Critical) (now : N) (sh : Shared) : Shared * list Output * list Critical :=
  match x with
  | Apply p ev error at_ =>
      (mkShared (apply_inner p ev error (default now at_) (store sh)).2 (scheduler sh),
       [Applied p ev], [])
  | Reset p => (mkShared (store sh) (reset p (scheduler sh)), [], [])
  | ResetSignalling p =>
      (mkShared (store sh) (reset p (scheduler sh)),
       if is_queued p (scheduler sh) then [Signalled (PeerReachable p)] else [], [])
  | OnFailure p at_ => (mkShared (store sh) (on_failure p at_ (scheduler sh)), [], [])
  | Observe p d => (sh, [], [Reconcile p d (connectivity.state p (store sh))])
  | Reconcile p d st =>
      let observed := match reconnect.state p (scheduler sh) with
                      | Some r => mkObserved st true (state_attempts r)
                      | None => mkObserved st false 0
                      end in
      (sh, [], match reconcile d observed with
               | ScheduleReconnect _ => [Schedule p]
               | NoAction _ => []
               end)
  | Schedule p =>
      let '(queued, q) := schedule p now (scheduler sh) in
      (mkShared (store sh) q, if queued then [Queued p] else [], [])
  end.

End run.

(** *** The functions as their critical sections *)

Definition queue_reconnect_for p (d : DesiredConnectivity) : list Critical := [Observe p d].
Definition queue_reconnect p : list Critical := queue_reconnect_for p EndpointReachable.

Definition report_topic_ready p : list Critical := [Apply p TopicJoined None None; Reset p].

Definition report_connectivity_event p (ev : ConnectivityEvent) : list Critical :=
  Apply p ev None None ::
  match ev with
  | EndpointConnected | TopicJoined | DirectMessageReceived => [Reset p]
  | _ => []
  end.

Definition report_connectivity_failure p (ev : ConnectivityEvent) (error : Text) : list Critical :=
  [Apply p ev (Some error) None].

(** [drain_loop] *)
Definition neighbor_up p : list Critical :=
  [Apply p EndpointConnected None None; ResetSignalling p].
Definition neighbor_down p : list Critical := [Apply p EndpointFailed None None].

(** The announcement of a peer, and the expiry of its presence. *)
Definition discovery_seen p : list Critical := [Apply p DiscoverySeen None None].
Definition presence_expired p : list Critical := [Apply p Timeout None None; Reset p].

Inductive Call : Type :=
| QueueReconnect p (d : DesiredConnectivity)
| ReportTopicReady p
| ReportEvent p (ev : ConnectivityEvent)
| ReportFailure p (ev : ConnectivityEvent) (error : Text)
| NeighborUp p
| NeighborDown p
| Announced p
| Expired p.

Definition sections_of (c : Call) : list Critical :=
  match c with
  | QueueReconnect p d => queue_reconnect_for p d
  | ReportTopicReady p => report_topic_ready p
  | ReportEvent p ev => report_connectivity_event p ev
  | ReportFailure p ev error => report_connectivity_failure p ev error
  | NeighborUp p => neighbor_up p
  | NeighborDown p => neighbor_down p
  | Announced p => discovery_seen p
  | Expired p => presence_expired p
  end.

(** Where [reconnect_loop] is: sleeping, taking the next peer of the batch, in [join_peers],
    in [wait_for_reconnect_confirmation], in the sections after it, or ended. *)
Inductive LoopPc : Type :=
| Sleeping
| Batch (rest : list PublicKey)
| Joining p (now : N) (rest : list PublicKey)
| Confirming p (now deadline : N) (rest : list PublicKey)
| Finishing p (todo : list Critical) (rest : list PublicKey)
| Ended.

(** Where [connectivity_loop] is: receiving, in [join_peers] of [maybe_dial], or in the
    sections around it. *)
Inductive DialPc : Type :=
| Receiving
| Announcing p
| Dialing p
| Reporting (todo : list Critical).

Record Node : Type := mkNode {
  shared : Shared;
  dialed : gset PublicKey;
  loop_pc : LoopPc;
  dial_pc : DialPc;
  calls : gmap N (list Critical)
}.

(** What the environment decides for a step of the loop: the instant, whether the task is
    cancelled, and what [join_peers] answers. *)
Record LoopInput : Type := mkLoopInput {
  at_instant : N;
  cancelled : bool;
  join_result : option Text    (* [None] is [Ok(())], [Some] the error *)
}.

Section step.
Context `{!HashEntries} (local_node : PublicKey).

(** The sections after a dial that is not confirmed, or failed. *)
Definition attempt_failed p (now : N) (error : Text) : list Critical :=
  [Apply p EndpointFailed (Some error) (Some now); OnFailure p now].

Definition not_confirmed : Text := txt "reconnect dial not confirmed".

Definition loop_step (i : LoopInput) (pc : LoopPc) (sh : Shared) : Shared * list Output * LoopPc :=
  match pc with
  | Sleeping =>
      if cancelled i then (sh, [], Ended)
      else
        let '(ready, q) := due (at_instant i) (scheduler sh) in
        (mkShared (store sh) q, [], match ready with [] => Sleeping | _ => Batch ready end)
  | Batch [] => (sh, [], Sleeping)
  | Batch (p :: rest) => (sh, [], Joining p (at_instant i) rest)
  | Joining p now rest =>
      match join_result i with
      | None =>
          (sh, [], Confirming p now (at_instant i + RECONNECT_CONFIRM_TIMEOUT) rest)
      | Some error => (sh, [], Finishing p (attempt_failed p now error) rest)
      end
  | Confirming p now deadline rest =>
      if is_online (connectivity.state p (store sh)) then
        (sh, [], Finishing p [ResetSignalling p] rest)
      else if decide (deadline ≤ at_instant i)%N then
        (sh, [], Finishing p (attempt_failed p now not_confirmed) rest)
      else (sh, [], Confirming p now deadline rest)
  | Finishing p [] rest => (sh, [], Batch rest)
  | Finishing p (x :: todo) rest =>
      let '(sh, out, more) := exec x (at_instant i) sh in
      (sh, out, Finishing p (more ++ todo) rest)
  | Ended => (sh, [], Ended)
  end.

(** An update for [peer] is received, or the loop goes on. *)
Definition dial_update p (d : gset PublicKey) : gset PublicKey * DialPc :=
  if decide (p = local_node) then (d, Receiving)
  else if decide (p ∈ d) then (d, Receiving)
  else (d ∪ {[p]}, Announcing p).

Definition dial_step (now : N) (answer : option Text) (pc : DialPc) (sh : Shared)
    : Shared * list Output * DialPc :=
  match pc with
  | Receiving => (sh, [], Receiving)
  | Announcing p =>
      let '(sh, out, _) := exec (Apply p EndpointConnecting None None) now sh in (sh, out, Dialing p)
  | Dialing p =>
      match answer with
      | None => (sh, [], Reporting [Apply p EndpointConnected None None; Reset p])
      | Some error => (sh, [], Reporting [Apply p EndpointFailed (Some error) None])
      end
  | Reporting [] => (sh, [], Receiving)
  | Reporting (x :: todo) =>
      let '(sh, out, more) := exec x now sh in (sh, out, Reporting (more ++ todo))
  end.

Inductive Action : Type :=
| Begin (k : N) (c : Call)              (* a function is called *)
| Continue (k : N) (now : N)            (* it executes a critical section *)
| Loop (i : LoopInput)                  (* a step of [reconnect_loop] *)
| Update p                              (* [connectivity_loop] receives an update *)
| Dial (now : N) (answer : option Text).  (* it takes a step *)

Definition node_step (a : Action) (n : Node) : Node * list Output :=
  match a with
  | Begin k c =>
      match calls n !! k with
      | Some _ => (n, [])
      | None =>
          (mkNode (shared n) (dialed n) (loop_pc n) (dial_pc n)
             (<[k := sections_of c]> (calls n)), [])
      end
  | Continue k now =>
      match calls n !! k with
      | Some (x :: todo) =>
          let '(sh, out, more) := exec x now (shared n) in
          (mkNode sh (dialed n) (loop_pc n) (dial_pc n) (<[k := more ++ todo]> (calls n)), out)
      | _ => (n, [])
      end
  | Loop i =>
      let '(sh, out, pc) := loop_step i (loop_pc n) (shared n) in
      (mkNode sh (dialed n) pc (dial_pc n) (calls n), out)
  | Update p =>
      match dial_pc n with
      | Receiving =>
          let '(d, pc) := dial_update p (dialed n) in
          (mkNode (shared n) d (loop_pc n) pc (calls n), [])
      | _ => (n, [])
      end
  | Dial now answer =>
      let '(sh, out, pc) := dial_step now answer (dial_pc n) (shared n) in
      (mkNode sh (dialed n) (loop_pc n) pc (calls n), out)
  end.

(** A run and everything it shows, in order. *)
Fixpoint node_run (acts : list Action) (n : Node) : Node * list Output :=
  match acts with
  | [] => (n, [])
  | a :: acts' =>
      let '(n, out) := node_step a n in
      let '(n, out') := node_run acts' n in
      (n, out ++ out')
  end.

End step.

Definition start (s : PeerConnectivityStore) (q : ReconnectScheduler) : Node :=
  mkNode (mkShared s q) ∅ Sleeping Receiving ∅.

End tasks.
