(* ===== verification/ConnectivityFacts.v ===== *)
(** * Facts about peer connectivity and reconnection

    The store of peers refines one state machine per peer; being online is decided by the last
    evidence; both tables are bounded.  Over every interleaving of the tasks, signals are sent
    at most once per queued attempt and only after evidence, and no attempt is left in flight.
    Three interleavings in which the result is not what the comments say. *)

From Stdlib Require Import Strings.Byte NArith.
From stdpp Require Import prelude gmap strings sorting.
From S2P Require Import Prelude Text Signing Connectivity.

(** ** Choosing an entry *)

Section by_key_facts.
Context {A : Type} (key : A → N).

Lemma min_by_key_Some l a :
  min_by_key key l = Some a → a ∈ l ∧ ∀ b, b ∈ l → (key a ≤ key b)%N.
Proof.
  revert a. induction l as [|c l IH]; intros a; simpl; [done|].
  destruct (min_by_key key l) as [b|] eqn:Hb.
  - destruct (IH b eq_refl) as [Hin Hle]. case_decide; intros [= <-].
    + split; [by left|]. intros x [->|Hx]%elem_of_cons; [lia|]. specialize (Hle x Hx). lia.
    + split; [by right|]. intros x [->|Hx]%elem_of_cons; [lia|by apply Hle].
  - intros [= <-]. destruct l as [|d l]; [|simpl in Hb; repeat case_match; done].
    split; [by left|]. intros x [->|Hx]%elem_of_cons; [lia|by apply elem_of_nil in Hx].
Qed.

Lemma max_by_key_Some l a :
  max_by_key key l = Some a → a ∈ l ∧ ∀ b, b ∈ l → (key b ≤ key a)%N.
Proof.
  revert a. induction l as [|c l IH]; intros a; simpl; [done|].
  destruct (max_by_key key l) as [b|] eqn:Hb.
  - destruct (IH b eq_refl) as [Hin Hle]. case_decide; intros [= <-].
    + split; [by right|]. intros x [->|Hx]%elem_of_cons; [lia|by apply Hle].
    + split; [by left|]. intros x [->|Hx]%elem_of_cons; [lia|]. specialize (Hle x Hx). lia.
  - intros [= <-]. destruct l as [|d l]; [|simpl in Hb; repeat case_match; done].
    split; [by left|]. intros x [->|Hx]%elem_of_cons; [lia|by apply elem_of_nil in Hx].
Qed.

Lemma min_by_key_None l : min_by_key key l = None → l = [].
Proof. destruct l; simpl; [done|]. repeat case_match; done. Qed.

Lemma max_by_key_None l : max_by_key key l = None → l = [].
Proof. destruct l; simpl; [done|]. repeat case_match; done. Qed.

End by_key_facts.

Lemma elem_of_hash_entries `{!HashEntries} {V} (m : gmap PublicKey V) k v :
  (k, v) ∈ hash_entries m ↔ m !! k = Some v.
Proof. by rewrite hash_entries_perm, elem_of_map_to_list. Qed.

Lemma hash_entries_nil `{!HashEntries} {V} (m : gmap PublicKey V) :
  hash_entries m = [] → m = ∅.
Proof.
  intros Hn. apply map_to_list_empty_iff, Permutation_nil. rewrite <-Hn.
  apply hash_entries_perm.
Qed.

(** ** One peer *)

Module machine.
Import connectivity.

(** The state after some events. *)
Definition replay (st : PeerConnectivityState) (evs : list ConnectivityEvent)
    : PeerConnectivityState :=
  foldl (λ st ev, default st (transition st ev)) st evs.

(** The moves they cause. *)
Fixpoint moves (st : PeerConnectivityState) (evs : list ConnectivityEvent)
    : list (PeerConnectivityState * PeerConnectivityState * ConnectivityEvent) :=
  match evs with
  | [] => []
  | ev :: evs' =>
      match transition st ev with
      | Some next => (st, next, ev) :: moves next evs'
      | None => moves st evs'
      end
  end.

(** What an event says about the peer: it is there, it is not, or neither. *)
Definition evidence (ev : ConnectivityEvent) : option bool :=
  match ev with
  | EndpointConnected | TopicJoined | DirectMessageReceived => Some true
  | EndpointFailed | TopicJoinFailed | Timeout => Some false
  | _ => None
  end.

Definition last_evidence (evs : list ConnectivityEvent) : option bool := last (omap evidence evs).

Lemma replay_snoc st evs ev :
  replay st (evs ++ [ev]) = default (replay st evs) (transition (replay st evs) ev).
Proof. unfold replay. by rewrite foldl_app. Qed.

Lemma moves_snoc st evs ev :
  moves st (evs ++ [ev]) =
    moves st evs ++
    match transition (replay st evs) ev with
    | Some next => [(replay st evs, next, ev)]
    | None => []
    end.
Proof.
  revert st. induction evs as [|x evs IH]; intros st; simpl.
  - by destruct (transition st ev).
  - unfold replay in *. simpl. destruct (transition st x); simpl; by rewrite IH.
Qed.

Lemma last_evidence_snoc evs ev :
  last_evidence (evs ++ [ev]) =
    match evidence ev with Some b => Some b | None => last_evidence evs end.
Proof.
  unfold last_evidence. rewrite omap_app. simpl. destruct (evidence ev); [by rewrite last_snoc|].
  by rewrite app_nil_r.
Qed.

Lemma replay_online evs :
  is_online (replay Unknown evs) = bool_decide (last_evidence evs = Some true).
Proof.
  induction evs as [|ev evs IH] using rev_ind; [done|].
  rewrite replay_snoc, last_evidence_snoc.
  destruct (replay Unknown evs), ev; simpl in *; try done;
    symmetry in IH; (by rewrite IH) || (by symmetry in IH).
Qed.

Lemma evidence_creates ev st : evidence ev = Some true →
  is_online (default st (transition st ev)) = true.
Proof. destruct ev, st; done. Qed.

End machine.

(** The last [k] elements. *)
Definition lastn {A} (k : nat) (l : list A) : list A := drop (length l - k) l.

Lemma lastn_app_lastn {A} k (l l' : list A) : lastn k (lastn k l ++ l') = lastn k (l ++ l').
Proof.
  unfold lastn. rewrite !length_app, length_drop.
  destruct (decide (length l ≤ k)).
  - replace (length l - k) with 0 by lia. rewrite drop_0. f_equal. lia.
  - replace (length l - (length l - k) + length l' - k) with (length l') by lia.
    rewrite !drop_app, drop_drop, length_drop. f_equal; f_equal; lia.
Qed.

Lemma lastn_length {A} k (l : list A) : length (lastn k l) ≤ k.
Proof. unfold lastn. rewrite length_drop. lia. Qed.

Lemma lastn_nil {A} k (l : list A) : 1 ≤ k → lastn k l = [] → l = [].
Proof.
  unfold lastn. intros Hk Hd. apply (f_equal length) in Hd. rewrite length_drop in Hd.
  apply nil_length_inv. simpl in *. lia.
Qed.

(** ** The store *)

Module store_facts.
Import connectivity machine.

(** An event of the history: the peer, the event, its error and its time. *)
Abbreviation Occurrence := (PublicKey * ConnectivityEvent * option Text * N)%type.

Definition who (o : Occurrence) : PublicKey := o.1.1.1.
Definition what (o : Occurrence) : ConnectivityEvent := o.1.1.2.

Definition events_of (p : PublicKey) (h : list Occurrence) : list ConnectivityEvent :=
  what <$> filter (λ o, who o = p) h.

Definition move_of (r : TransitionRecord)
    : PeerConnectivityState * PeerConnectivityState * ConnectivityEvent :=
  (from_state r, to_state r, caused_by r).

Section facts.
Context `{!HashEntries}.
Implicit Types (s : PeerConnectivityStore) (p q : PublicKey) (ev : ConnectivityEvent).

Definition apply_one s (o : Occurrence) : PeerConnectivityStore :=
  let '(p, ev, error, t) := o in (apply_inner p ev error t s).2.

Definition store_run (h : list Occurrence) s : PeerConnectivityStore := foldl apply_one s h.

Definition moves_of p s : list (PeerConnectivityState * PeerConnectivityState * ConnectivityEvent) :=
  move_of <$> trail_of p s.

Lemma events_of_snoc p h o :
  events_of p (h ++ [o]) = events_of p h ++ (if decide (who o = p) then [what o] else []).
Proof.
  unfold events_of. rewrite filter_app, fmap_app. f_equal. cbn. by case_decide.
Qed.

Lemma evict_one_cases s :
  (peers s = ∅ ∧ evict_one s = s) ∨
  ∃ k, is_Some (peers s !! k) ∧ peers (evict_one s) = delete k (peers s).
Proof.
  unfold evict_one. destruct (list_find _ _) as [[i [k e]]|] eqn:Hf.
  - right. exists k. split; [|done]. exists e. apply elem_of_hash_entries.
    apply list_find_Some in Hf as (Hl & _ & _). by eapply list_elem_of_lookup_2.
  - destruct (min_by_key _ _) as [[k e]|] eqn:Hm.
    + right. exists k. split; [|done]. exists e. apply elem_of_hash_entries.
      by eapply min_by_key_Some.
    + left. split; [|done]. by eapply hash_entries_nil, min_by_key_None.
Qed.

Lemma evict_one_size s : size (peers s) ≠ 0 → size (peers (evict_one s)) < size (peers s).
Proof.
  intros Hs. destruct (evict_one_cases s) as [[He _]|(k & [e Hk] & ->)].
  - by rewrite He, map_size_empty in Hs.
  - rewrite map_size_delete, Hk. simpl. lia.
Qed.

Lemma evict_one_limits s :
  max_peers (evict_one s) = max_peers s ∧ max_trail (evict_one s) = max_trail s.
Proof. unfold evict_one. repeat case_match; done. Qed.

Lemma apply_limits p ev error t s :
  max_peers (apply_inner p ev error t s).2 = max_peers s ∧
  max_trail (apply_inner p ev error t s).2 = max_trail s.
Proof.
  unfold apply_inner. repeat case_match; simpl; try done. apply evict_one_limits.
Qed.

Lemma apply_size p ev error t s :
  1 ≤ max_peers s → size (peers s) ≤ max_peers s →
  size (peers (apply_inner p ev error t s).2) ≤ max_peers s.
Proof.
  intros H1 Hs. unfold apply_inner. destruct (peers s !! p) as [e|] eqn:Hp.
  - destruct (transition _ _); simpl; rewrite map_size_insert, Hp; simpl; lia.
  - destruct (transition _ _); simpl; [|done]. rewrite map_size_insert. case_decide as Hf.
    + assert (size (peers s) ≠ 0) as Hne by lia. pose proof (evict_one_size s Hne) as Hlt.
      destruct (peers (evict_one s) !! p); simpl; lia.
    + rewrite Hp. simpl. lia.
Qed.

(** What [note_...] leaves alone. *)
Lemma note_event_keeps ev t e :
  entry_state (note_event ev t e) = entry_state e ∧ trail (note_event ev t e) = trail e.
Proof. by destruct ev. Qed.

Lemma note_transition_keeps ev error e :
  entry_state (note_transition ev error e) = entry_state e ∧
  trail (note_transition ev error e) = trail e.
Proof. by destruct ev. Qed.

Lemma note_creation_keeps ev t e :
  entry_state (note_creation ev t e) = entry_state e ∧ trail (note_creation ev t e) = trail e.
Proof. by destruct ev. Qed.

Lemma push_trail_moves t from to ev k e :
  length (trail e) ≤ k → 1 ≤ k →
  move_of <$> trail (push_trail t from to ev k e) =
    lastn k ((move_of <$> trail e) ++ [(from, to, ev)]).
Proof.
  intros Hl Hk. unfold push_trail, lastn. cbn [trail set_trail].
  rewrite fmap_app. cbn. rewrite length_app, length_fmap. simpl. case_decide.
  - assert (length (trail e) = k) as <- by lia.
    replace (length (trail e) + 1 - length (trail e)) with 1 by lia.
    by destruct (trail e); simpl in *; [lia|].
  - by replace (length (trail e) + 1 - k) with 0 by lia.
Qed.

Lemma state_insert q p e s :
  state q (set_peers (<[p := e]> (peers s)) s) = if decide (p = q) then entry_state e else state q s.
Proof.
  unfold state. cbn [peers set_peers]. case_decide as Hq; [subst q; by rewrite lookup_insert_eq|].
  by rewrite lookup_insert_ne.
Qed.

Lemma moves_insert q p e s :
  moves_of q (set_peers (<[p := e]> (peers s)) s) =
    if decide (p = q) then move_of <$> trail e else moves_of q s.
Proof.
  unfold moves_of, trail_of. cbn [peers set_peers].
  case_decide as Hq; [subst q; by rewrite lookup_insert_eq|]. by rewrite lookup_insert_ne.
Qed.

(** An event for the peer is a step of its machine. *)
Lemma apply_same p ev error t s :
  1 ≤ max_trail s → length (moves_of p s) ≤ max_trail s →
  let s' := (apply_inner p ev error t s).2 in
  state p s' = default (state p s) (transition (state p s) ev) ∧
  moves_of p s' =
    match transition (state p s) ev with
    | Some next => lastn (max_trail s) (moves_of p s ++ [(state p s, next, ev)])
    | None => moves_of p s
    end.
Proof.
  intros H1 Hl. unfold apply_inner. cbv zeta. destruct (peers s !! p) as [e|] eqn:Hp.
  - assert (state p s = entry_state e ∧ moves_of p s = move_of <$> trail e) as [Hst Hmv].
    { unfold state, moves_of, trail_of. by rewrite Hp. }
    rewrite Hst. rewrite Hmv, length_fmap in Hl.
    destruct (note_event_keeps ev t (set_last_seen t e)) as [Hn1 Hn2]. rewrite Hn1.
    cbn [entry_state set_last_seen]. destruct (transition (entry_state e) ev) as [next|] eqn:Ht; cbn [snd].
    + rewrite state_insert, moves_insert, !decide_True by done.
      rewrite push_trail_moves; [|
        by rewrite (proj2 (note_transition_keeps _ _ _)); cbn [trail set_state]; rewrite Hn2|done].
      rewrite (proj2 (note_transition_keeps _ _ _)). cbn [trail set_state]. rewrite Hn2.
      cbn [entry_state push_trail set_trail]. rewrite (proj1 (note_transition_keeps _ _ _)).
      by rewrite Hmv.
    + rewrite state_insert, moves_insert, !decide_True by done. rewrite Hn1, Hn2. by rewrite Hmv.
  - assert (state p s = Unknown ∧ moves_of p s = []) as [Hst Hmv].
    { unfold state, moves_of, trail_of. by rewrite Hp. }
    rewrite Hst, Hmv. destruct (transition Unknown ev) as [next|] eqn:Ht; cbn [snd].
    + rewrite state_insert, moves_insert, !decide_True by done.
      rewrite push_trail_moves; rewrite ?(proj2 (note_creation_keeps _ _ _)); simpl;
        [|lia|case_decide; [by rewrite (proj2 (evict_one_limits s))|done]].
      rewrite (proj1 (note_creation_keeps _ _ _)). split; [done|]. rewrite decide_True by done.
      destruct (decide (max_peers s ≤ _)); [by rewrite (proj2 (evict_one_limits s))|done].
    + by rewrite Hst, Hmv.
Qed.

Lemma apply_state p ev error t s :
  state p (apply_inner p ev error t s).2 = default (state p s) (transition (state p s) ev).
Proof.
  unfold apply_inner. destruct (peers s !! p) as [e|] eqn:Hp.
  - assert (state p s = entry_state e) as -> by (unfold state; by rewrite Hp).
    rewrite (proj1 (note_event_keeps _ _ _)). cbn [entry_state set_last_seen].
    destruct (transition (entry_state e) ev); cbn [snd]; rewrite state_insert, decide_True by done.
    + cbn [entry_state push_trail set_trail]. by rewrite (proj1 (note_transition_keeps _ _ _)).
    + by rewrite (proj1 (note_event_keeps _ _ _)).
  - assert (state p s = Unknown) as Hst by (unfold state; by rewrite Hp). rewrite Hst.
    destruct (transition Unknown ev); cbn [snd]; [|done].
    rewrite state_insert, decide_True by done. cbn [entry_state push_trail set_trail].
    by rewrite (proj1 (note_creation_keeps _ _ _)).
Qed.

(** For any other peer it does nothing, or evicts it from a full store. *)
Lemma apply_other p ev error t s q :
  p ≠ q →
  let s' := (apply_inner p ev error t s).2 in
  (state q s' = state q s ∧ moves_of q s' = moves_of q s) ∨
  (max_peers s ≤ size (peers s) ∧ peers s !! p = None ∧ state q s' = Unknown ∧ moves_of q s' = []).
Proof.
  intros Hne. unfold apply_inner. cbv zeta. destruct (peers s !! p) as [e|] eqn:Hp.
  - left. destruct (transition _ _); cbn [snd]; rewrite state_insert, moves_insert;
      by rewrite !(decide_False (P:=p = q)).
  - destruct (transition Unknown ev); cbn [snd]; [|by left].
    rewrite state_insert, moves_insert. rewrite !(decide_False (P:=p = q)) by done.
    destruct (decide (max_peers s ≤ _)) as [Hf|]; [|by left].
    destruct (evict_one_cases s) as [[_ ->]|(k & _ & Hk)]; [by left|].
    unfold state, moves_of, trail_of. rewrite Hk.
    destruct (decide (k = q)) as [->|Hkq]; [|left; by rewrite lookup_delete_ne].
    right. by rewrite lookup_delete_eq.
Qed.

(** The peers of a history fit into the store. *)
Definition ample (h : list Occurrence) s : Prop :=
  size (list_to_set (who <$> h) : gset PublicKey) ≤ max_peers s.

Record follows (h : list Occurrence) s : Prop := {
  f_limits : 1 ≤ max_peers s ∧ 1 ≤ max_trail s;
  f_size : size (peers s) ≤ max_peers s;
  f_dom : dom (peers s) ⊆ (list_to_set (who <$> h) : gset PublicKey);
  f_peer p : ∃ pre suf, events_of p h = pre ++ suf ∧ state p s = replay Unknown suf ∧
    moves_of p s = lastn (max_trail s) (moves Unknown suf) ∧ (ample h s → pre = [])
}.

Lemma follows_new mp mt : follows [] (with_limits mp mt).
Proof.
  split; simpl; [lia|rewrite map_size_empty; lia|set_solver|].
  intros p. exists [], []. split_and!; done.
Qed.

Lemma apply_dom p ev error t s :
  dom (peers (apply_inner p ev error t s).2) ⊆ {[p]} ∪ dom (peers s).
Proof.
  unfold apply_inner. destruct (peers s !! p) as [e|] eqn:Hp.
  - destruct (transition _ _); simpl; rewrite dom_insert; set_solver.
  - destruct (transition _ _); simpl; [|set_solver]. rewrite dom_insert. case_decide; [|set_solver].
    destruct (evict_one_cases s) as [[_ ->]|(k & _ & ->)]; [set_solver|].
    rewrite dom_delete. set_solver.
Qed.

Lemma follows_step h s o : follows h s → follows (h ++ [o]) (apply_one s o).
Proof.
  destruct o as [[[p ev] error] t]. intros [[H1 H2] Hs Hd Hp]. simpl.
  destruct (apply_limits p ev error t s) as [L1 L2].
  split; rewrite ?L1, ?L2; [done|by apply apply_size| |].
  - rewrite fmap_app, list_to_set_app_L. etrans; [apply apply_dom|]. set_solver.
  - intros q. destruct (Hp q) as (pre & suf & He & Hst & Hmv & Ha).
    assert (ample (h ++ [(p, ev, error, t)]) (apply_inner p ev error t s).2 → ample h s) as Hamp.
    { unfold ample. rewrite L1. intros Hle. etrans; [|exact Hle]. apply subseteq_size.
      rewrite fmap_app, list_to_set_app_L. set_solver. }
    rewrite events_of_snoc. cbn [who what fst snd]. case_decide as Hpq.
    + subst q. exists pre, (suf ++ [ev]).
      destruct (apply_same p ev error t s H2) as [Hs' Hm']; [rewrite Hmv; apply lastn_length|].
      split_and!; [by rewrite He, <-app_assoc| | |tauto].
      * by rewrite Hs', replay_snoc, Hst.
      * rewrite Hm', moves_snoc, <-Hst. destruct (transition (state p s) ev).
        -- by rewrite Hmv, lastn_app_lastn.
        -- by rewrite app_nil_r.
    + rewrite app_nil_r. destruct (apply_other p ev error t s q Hpq) as [[E1 E2]|(Hf & Hn & E1 & E2)].
      * exists pre, suf. rewrite E1, E2. tauto.
      * exists (events_of q h), []. rewrite E1, E2, app_nil_r. split_and!; [done..|].
        intros Hle. exfalso. unfold ample in Hle. rewrite L1 in Hle.
        assert ({[p]} ∪ dom (peers s) ⊆ (list_to_set (who <$> h ++ [(p, ev, error, t)]) : gset PublicKey))
          as Hsub%subseteq_size.
        { rewrite fmap_app, list_to_set_app_L. set_solver. }
        rewrite size_union, size_singleton, size_dom in Hsub; [lia|].
        apply disjoint_singleton_l. by rewrite not_elem_of_dom.
Qed.

Lemma follows_run h mp mt : follows h (store_run h (with_limits mp mt)).
Proof.
  induction h as [|o h IH] using rev_ind; [apply follows_new|].
  unfold store_run. rewrite foldl_app. by apply follows_step.
Qed.

Lemma apply_run_limits h s :
  max_peers (store_run h s) = max_peers s ∧ max_trail (store_run h s) = max_trail s.
Proof.
  induction h as [|[[[p ev] error] t] h IH] using rev_ind; [done|].
  unfold store_run. rewrite foldl_app. simpl. destruct IH as [<- <-]. apply apply_limits.
Qed.

(** C29: the store refines one state machine per peer.  After any events it holds at most
    [max_peers] peers, the state of every peer is what its machine reaches on its events since
    it was last forgotten, and its trail is exactly the last [max_trail] moves of that machine;
    if the peers of the history fit into the store, nothing was ever forgotten. *)
Theorem store_refines_machines h mp mt p :
  let s := store_run h (with_limits mp mt) in
  size (peers s) ≤ Nat.max mp 1 ∧
  ∃ pre suf, events_of p h = pre ++ suf ∧ state p s = replay Unknown suf ∧
    moves_of p s = lastn (Nat.max mt 1) (moves Unknown suf) ∧
    (size (list_to_set (who <$> h) : gset PublicKey) ≤ Nat.max mp 1 → pre = []).
Proof.
  intros s. destruct (follows_run h mp mt) as [_ Hs _ Hp].
  destruct (apply_run_limits h (with_limits mp mt)) as [L1 L2].
  unfold ample in Hp. rewrite L1, L2 in *. split; [done|]. apply Hp.
Qed.

(** a peer is online only if the last evidence about it is positive: a connection, a
    joined topic or a received message, with no failure or expiry since.  Announcements, dial
    attempts, path changes and outbound traffic never make it so.  If the peers of the history
    fit into the store, it is online exactly then. *)
Theorem online_is_last_evidence h mp mt p :
  let s := store_run h (with_limits mp mt) in
  (is_online (state p s) = true → last_evidence (events_of p h) = Some true) ∧
  (size (list_to_set (who <$> h) : gset PublicKey) ≤ Nat.max mp 1 →
   last_evidence (events_of p h) = Some true → is_online (state p s) = true).
Proof.
  intros s. destruct (follows_run h mp mt) as [_ _ _ Hp].
  destruct (Hp p) as (pre & suf & He & Hst & _ & Ha). fold s in Hst. rewrite Hst, replay_online, He.
  unfold last_evidence. split.
  - intros Hl%bool_decide_eq_true. by rewrite omap_app, last_app, Hl.
  - intros Hle. rewrite Ha; [|by unfold ample; rewrite (proj1 (apply_run_limits h _))].
    intros Hl. by apply bool_decide_eq_true.
Qed.

End facts.
End store_facts.

(** ** The queue of reconnections *)

Module queue_facts.
Import connectivity reconnect.

Section facts.
Context `{!HashEntries}.
Implicit Types (q : ReconnectScheduler) (p r : PublicKey) (x : ReconnectEntry).

Lemma evict_one_spec q :
  (queue q = ∅ ∧ reconnect.evict_one q = q) ∨
  ∃ p x, queue q !! p = Some x ∧ queue (reconnect.evict_one q) = delete p (queue q) ∧
    ∀ r y, queue q !! r = Some y → in_flight y = false →
      in_flight x = false ∧ (next_attempt_at y ≤ next_attempt_at x)%N.
Proof.
  unfold reconnect.evict_one. cbv zeta. destruct (max_by_key _ _) as [[p x]|] eqn:Hm.
  - right. apply max_by_key_Some in Hm as [Hin Hmax].
    rewrite list_elem_of_filter, elem_of_hash_entries in Hin. destruct Hin as [Hf Hx].
    exists p, x. split_and!; [done..|]. intros r y Hr Hy. split; [done|].
    apply (Hmax (r, y)). by rewrite list_elem_of_filter, elem_of_hash_entries.
  - apply max_by_key_None in Hm. destruct (min_by_key _ _) as [[p x]|] eqn:Hn.
    + right. apply min_by_key_Some in Hn as [Hin _]. rewrite elem_of_hash_entries in Hin.
      exists p, x. split_and!; [done..|]. intros r y Hr Hy. exfalso.
      assert ((r, y) ∈ filter (λ y, in_flight y.2 = false) (hash_entries (queue q))) as Hc
        by by rewrite list_elem_of_filter, elem_of_hash_entries.
      rewrite Hm in Hc. by apply elem_of_nil in Hc.
    + left. split; [|done]. by eapply hash_entries_nil, min_by_key_None.
Qed.

Lemma evict_one_limit q : queue_max (reconnect.evict_one q) = queue_max q.
Proof. unfold reconnect.evict_one. cbv zeta. repeat case_match; done. Qed.

(** scheduling a peer that is queued or being dialled changes nothing; any other peer is
    queued for an immediate attempt, and everything else is kept, but for one entry of a full
    queue: a peer that is being dialled is evicted only if all are, and otherwise it is an
    idle peer with the latest attempt. *)
Theorem schedule_exact p now q :
  1 ≤ queue_max q → size (queue q) ≤ queue_max q →
  let '(queued, q') := schedule p now q in
  queued = negb (is_queued p q) ∧ size (queue q') ≤ queue_max q' ∧
  if is_queued p q then q' = q
  else queue q' !! p = Some (mkReconnect 0 now false) ∧
    (size (queue q) < queue_max q ∧ delete p (queue q') = queue q ∨
     size (queue q) = queue_max q ∧
     ∃ v x, queue q !! v = Some x ∧ delete p (queue q') = delete v (queue q) ∧
       ∀ r y, queue q !! r = Some y → in_flight y = false →
         in_flight x = false ∧ (next_attempt_at y ≤ next_attempt_at x)%N).
Proof.
  intros H1 Hs. unfold schedule, is_queued. destruct (decide (is_Some (queue q !! p))) as [Hp|Hp].
  - rewrite bool_decide_eq_true_2 by done. done.
  - rewrite bool_decide_eq_false_2 by done. apply eq_None_not_Some in Hp. split; [done|].
    cbn [queue queue_max set_queue]. rewrite lookup_insert_eq, delete_insert_eq.
    destruct (decide (queue_max q ≤ size (queue q))) as [Hf|Hf].
    + destruct (evict_one_spec q) as [[He _]|(v & x & Hv & Hd & Hmin)].
      { rewrite He, map_size_empty in Hf. lia. }
      rewrite Hd, evict_one_limit. assert (delete v (queue q) !! p = None) as Hn.
      { rewrite lookup_delete_None. by right. }
      rewrite map_size_insert_None, map_size_delete, Hv by done. simpl.
      split; [lia|]. split; [done|]. right. split; [lia|]. exists v, x.
      split_and!; [done| |done]. by apply delete_id.
    + rewrite map_size_insert_None by done. split; [lia|]. split; [done|]. left.
      split; [lia|]. by apply delete_id.
Qed.

Lemma shiftl_pow n : (N.shiftl 1 n = 2 ^ n)%N.
Proof. by rewrite N.shiftl_1_l. Qed.

(** the backoff after [n] failures is [initial * 2^(n-1)] milliseconds, up to the maximum:
    the bound on the shift and the saturating product never show, as long as the maximum is
    less than [2^30] times the initial delay.  It never exceeds the maximum and never
    decreases with the number of failures. *)
Theorem retry_backoff_exact q n :
  let initial := N.max (initial_backoff q / 1000000) 1 in
  let maximum := N.max (max_backoff q / 1000000) 1 in
  (initial ≤ maximum)%N → (maximum ≤ u64_max)%N → (maximum ≤ initial * 2 ^ 30)%N →
  backoff_for 0 q = 0%N ∧
  ((n ≠ 0)%N → backoff_for n q = (N.min (initial * 2 ^ (n - 1)) maximum * 1000000)%N) ∧
  (backoff_for n q ≤ maximum * 1000000)%N ∧
  ∀ m, (n ≤ m)%N → (backoff_for n q ≤ backoff_for m q)%N.
Proof.
  intros initial maximum Him Hmax Hsh.
  assert (∀ k, (k ≠ 0)%N → backoff_for k q = (N.min (initial * 2 ^ (k - 1)) maximum * 1000000)%N) as Heq.
  { intros k Hk. unfold backoff_for. rewrite decide_False by done. cbv zeta. unfold millis_u64.
    fold initial maximum. rewrite shiftl_pow, !N.mod_small by lia. f_equal.
    destruct (decide (k - 1 ≤ 30)%N); [rewrite (N.min_l (k - 1)) by done; lia|].
    rewrite (N.min_r (k - 1)) by lia.
    assert (2 ^ 30 ≤ 2 ^ (k - 1))%N as Hp by (apply N.pow_le_mono_r; lia).
    assert (initial * 2 ^ 30 ≤ initial * 2 ^ (k - 1))%N by (apply N.mul_le_mono_l; done). lia. }
  assert (∀ k, (backoff_for k q ≤ maximum * 1000000)%N) as Hle.
  { intros k. destruct (decide (k = 0)%N) as [->|Hk]; [unfold backoff_for; simpl; lia|].
    rewrite Heq by done. lia. }
  split_and!; [done|apply Heq|apply Hle|].
  intros m Hm. destruct (decide (n = 0)%N) as [->|Hn]; [unfold backoff_for; simpl; lia|].
  rewrite !Heq by lia. apply N.mul_le_mono_r.
  assert (2 ^ (n - 1) ≤ 2 ^ (m - 1))%N as Hp by (apply N.pow_le_mono_r; lia).
  assert (initial * 2 ^ (n - 1) ≤ initial * 2 ^ (m - 1))%N by (apply N.mul_le_mono_l; done). lia.
Qed.

End facts.
End queue_facts.

(** ** Interleavings of the tasks *)

Module task_facts.
Import connectivity reconnect machine store_facts queue_facts tasks.

Section facts.
Context `{!HashEntries} (me : PublicKey).
Implicit Types (p r : PublicKey) (sh : Shared) (n : Node) (out : list Output).

Abbreviation step := (node_step me).
Abbreviation run := (node_run me).

(** A step leaves the shared state alone, executes one critical section, or takes the due
    attempts. *)
Lemma node_step_shared a n n' out :
  step a n = (n', out) →
  (out = [] ∧ shared n' = shared n) ∨
  (∃ x now more, exec x now (shared n) = (shared n', out, more)) ∨
  (∃ t, out = [] ∧ shared n' = mkShared (store (shared n)) (due t (scheduler (shared n))).2).
Proof.
  destruct a as [k c|k now|i|p|now answer]; cbn [node_step]; intros Hs.
  - repeat case_match; simplify_eq/=; auto.
  - destruct (calls n !! k) as [[|x todo]|]; simplify_eq/=; auto.
    destruct (exec x now (shared n)) as [[sh o] more] eqn:He. simplify_eq/=. eauto 6.
  - destruct (loop_step i (loop_pc n) (shared n)) as [[sh o] pc] eqn:Hl. simplify_eq/=.
    destruct (loop_pc n) as [|[]| | |? [|x todo]|]; simpl in Hl; repeat case_match; simplify_eq/=; auto;
      (right; right; by exists (at_instant i)) || (right; left; eauto).
  - repeat case_match; simplify_eq/=; auto.
  - destruct (dial_step now answer (dial_pc n) (shared n)) as [[sh o] pc] eqn:Hl. simplify_eq/=.
    destruct (dial_pc n) as [| | |[|x todo]]; simpl in Hl; repeat case_match; simplify_eq/=; auto;
      right; left; eauto.
    by exists (Apply p EndpointConnecting None None), now, [].
Qed.

Lemma node_run_app acts acts' n :
  run (acts ++ acts') n =
    let '(n1, out) := run acts n in let '(n2, out') := run acts' n1 in (n2, out ++ out').
Proof.
  revert n. induction acts as [|a acts IH]; intros n; simpl; [by destruct (run acts' n)|].
  destruct (step a n) as [n1 o1]. rewrite IH. destruct (run acts n1) as [n2 o2].
  destruct (run acts' n2). by rewrite app_assoc.
Qed.

(** *** Signals *)

Definition count (o : Output) out : nat := length (filter (λ x, x = o) out).
Definition pending p sh : nat := if is_queued p (scheduler sh) then 1 else 0.

Lemma count_app o out out' : count o (out ++ out') = count o out + count o out'.
Proof. unfold count. by rewrite filter_app, length_app. Qed.

Lemma count_nil o : count o [] = 0.
Proof. done. Qed.

Lemma count_cons o x out : count o (x :: out) = (if decide (x = o) then 1 else 0) + count o out.
Proof. unfold count. rewrite filter_cons. by destruct (decide (x = o)). Qed.

Lemma schedule_pending p r now sh :
  pending p (mkShared (store sh) (schedule r now (scheduler sh)).2) ≤
    pending p sh + (if decide (r = p) then if (schedule r now (scheduler sh)).1 then 1 else 0 else 0).
Proof.
  unfold pending, schedule, is_queued. simpl. destruct (decide (is_Some _)) as [Hr|Hr]; simpl.
  { case_bool_decide; lia. }
  case_bool_decide as H1; [|case_decide; lia]. destruct (decide (r = p)); [lia|].
  rewrite bool_decide_eq_true_2; [lia|]. rewrite lookup_insert_ne in H1 by done.
  destruct (decide _); [|done]. destruct (evict_one_spec (scheduler sh)) as [[_ He]|(v & x & _ & Hd & _)].
  - by rewrite He in H1.
  - rewrite Hd in H1. destruct H1 as [y Hy]. apply lookup_delete_Some in Hy as [_ Hy]. by exists y.
Qed.

Lemma exec_count p x now sh sh' out more :
  exec x now sh = (sh', out, more) →
  count (Signalled (PeerReachable p)) out + pending p sh' ≤ pending p sh + count (Queued p) out.
Proof.
  assert (∀ r, pending p (mkShared (store sh) (reset r (scheduler sh))) +
    (if decide (r = p) then pending p sh else 0) ≤ pending p sh) as Hreset.
  { intros r. unfold pending, is_queued, reset. simpl. destruct (decide (r = p)) as [->|Hne].
    - rewrite lookup_delete_eq. simpl. lia.
    - rewrite lookup_delete_ne by done. lia. }
  destruct x as [r ev e a|r|r|r a|r d|r d st|r]; cbn [exec]; intros Hx; simplify_eq/=.
  - rewrite !count_cons. unfold count, pending. simpl. lia.
  - specialize (Hreset r). unfold count. simpl. lia.
  - specialize (Hreset r). destruct (is_queued r (scheduler sh)) eqn:Hq; [|unfold count; simpl; lia].
    rewrite !count_cons. unfold count. simpl. destruct (decide (r = p)) as [->|].
    + unfold pending at 2 3 in Hreset. rewrite Hq in Hreset. unfold pending at 2. rewrite Hq.
      repeat case_decide; simplify_eq/=; lia.
    + repeat case_decide; simplify_eq/=; lia.
  - unfold count, pending, is_queued, on_failure. simpl. destruct (queue (scheduler sh) !! r) eqn:Hr; [|lia].
    simpl. destruct (decide (r = p)) as [->|]; [rewrite lookup_insert_eq, Hr; simpl; lia|].
    rewrite lookup_insert_ne by done. lia.
  - unfold count. simpl. lia.
  - unfold count. simpl. lia.
  - destruct (schedule r now (scheduler sh)) as [b q] eqn:Hs. simplify_eq/=.
    pose proof (schedule_pending p r now sh) as Hp. rewrite Hs in Hp. simpl in Hp.
    destruct b; rewrite ?count_cons; unfold count; simpl; repeat case_decide; simplify_eq/=; lia.
Qed.

Lemma due_pending p t sh :
  pending p (mkShared (store sh) (due t (scheduler sh)).2) = pending p sh.
Proof.
  unfold pending, is_queued, due. cbn [snd scheduler queue set_queue]. rewrite lookup_fmap.
  by destruct (queue (scheduler sh) !! p).
Qed.

(** a recovery is signalled once: in every interleaving of the reconnection loop, the
    dialling loop, neighbour events and calls of the application, a peer is signalled as
    reachable at most as often as an attempt was queued for it. *)
Theorem signals_at_most_queued acts s initial maximum limit p :
  let out := (run acts (start s (reconnect.with_limits initial maximum limit))).2 in
  count (Signalled (PeerReachable p)) out ≤ count (Queued p) out.
Proof.
  intros out. assert (∀ n, let '(n', out) := run acts n in
    count (Signalled (PeerReachable p)) out + pending p (shared n') ≤
    pending p (shared n) + count (Queued p) out) as Hgen.
  { clear out. induction acts as [|a acts IH]; intros n; simpl; [unfold count; simpl; lia|].
    destruct (step a n) as [n1 o1] eqn:Hs. specialize (IH n1). destruct (run acts n1) as [n2 o2].
    rewrite !count_app.
    destruct (node_step_shared _ _ _ _ Hs) as [[-> Hsh]|[(x & now & more & Hx)|(t & -> & Hsh)]].
    - rewrite Hsh in IH. rewrite !count_nil. lia.
    - apply (exec_count p) in Hx. lia.
    - rewrite Hsh, due_pending in IH. rewrite !count_nil. lia. }
  specialize (Hgen (start s (reconnect.with_limits initial maximum limit))). subst out.
  destruct (run acts _) as [n' out]. simpl in *. unfold pending at 2 in Hgen. simpl in Hgen.
  unfold is_queued in Hgen. simpl in Hgen. rewrite lookup_empty in Hgen. simpl in Hgen. lia.
Qed.

(** *** Evidence behind signals *)

Definition applied p out : list ConnectivityEvent :=
  omap (λ o, match o with
             | Applied r ev => if decide (r = p) then Some ev else None
             | _ => None
             end) out.

(** A positive event for [p] was applied. *)
Definition evident p out : Prop := ∃ ev, Applied p ev ∈ out ∧ evidence ev = Some true.

Lemma evident_app p out out' : evident p out → evident p (out ++ out').
Proof. intros (ev & Hin & He). exists ev. set_solver. Qed.

Lemma last_evidence_elem evs b :
  last_evidence evs = Some b → ∃ ev, ev ∈ evs ∧ evidence ev = Some b.
Proof.
  intros Hl%last_Some. destruct Hl as [l Hl].
  assert (b ∈ omap evidence evs) as Hb by (rewrite Hl; set_solver).
  apply list_elem_of_omap in Hb as (ev & ? & ?). eauto.
Qed.

Lemma elem_of_applied p out ev : ev ∈ applied p out → Applied p ev ∈ out.
Proof.
  unfold applied. rewrite list_elem_of_omap. intros (o & Ho & Hs).
  destruct o; simplify_eq/=. by case_decide; simplify_eq.
Qed.

Lemma exec_history x now sh sh' out more :
  exec x now sh = (sh', out, more) →
  ∃ h, store sh' = store_run h (store sh) ∧ ∀ p, events_of p h = applied p out.
Proof.
  destruct x as [r ev e a|r|r|r a|r d|r d st|r]; cbn [exec]; intros Hx; simplify_eq/=;
    try (exists []; split; [done|intros p; by repeat case_match]).
  - exists [(r, ev, e, default now a)]. split; [done|]. intros p. unfold events_of, applied.
    rewrite filter_cons. cbn. by destruct (decide (r = p)).
  - destruct (schedule r now (scheduler sh)) as [b q]. simplify_eq/=. exists [].
    split; [done|]. intros p. by destruct b.
Qed.

(** Every pending signal of a function has evidence, by now or from an earlier section. *)
Fixpoint justified out (todo : list Critical) : Prop :=
  match todo with
  | [] => True
  | ResetSignalling p :: todo' => evident p out ∧ justified out todo'
  | Apply p ev _ _ :: todo' => justified (out ++ [Applied p ev]) todo'
  | _ :: todo' => justified out todo'
  end.

Lemma justified_mono out out' todo : out ⊆ out' → justified out todo → justified out' todo.
Proof.
  revert out out'. induction todo as [|x todo IH]; intros out out' Hs; simpl; [done|].
  destruct x; try apply IH; try done.
  - set_solver.
  - intros [(ev & Hin & He) Hj]. split; [exists ev; set_solver|by eapply IH].
Qed.

Lemma exec_justified out x todo now sh sh' o more :
  justified out (x :: todo) → exec x now sh = (sh', o, more) →
  justified (out ++ o) (more ++ todo) ∧ ∀ p, Signalled (PeerReachable p) ∈ o → evident p out.
Proof.
  intros Hj Hx. destruct x as [r ev e a|r|r|r a|r d|r d st|r]; cbn [exec] in Hx; simplify_eq/=.
  - split; [done|set_solver].
  - rewrite app_nil_r. split; [done|set_solver].
  - destruct Hj as [He Hj]. split; [eapply justified_mono, Hj; set_solver|].
    intros p. case_match; set_solver.
  - rewrite app_nil_r. split; [done|set_solver].
  - rewrite app_nil_r. split; [done|set_solver].
  - rewrite app_nil_r. split; [by repeat case_match|set_solver].
  - destruct (schedule r now (scheduler sh)) as [b q]. simplify_eq/=.
    split; [eapply justified_mono, Hj; set_solver|]. intros p. destruct b; set_solver.
Qed.

Definition dial_todo (pc : DialPc) : list Critical :=
  match pc with Reporting todo => todo | _ => [] end.

Definition loop_todo (pc : LoopPc) : list Critical :=
  match pc with Finishing _ todo _ => todo | _ => [] end.

Section evidence.
Context (mp mt : nat).

Record backed out n : Prop := {
  b_store : ∃ h, store (shared n) = store_run h (connectivity.with_limits mp mt) ∧
    ∀ p, events_of p h = applied p out;
  b_calls : ∀ k todo, calls n !! k = Some todo → justified out todo;
  b_dial : justified out (dial_todo (dial_pc n));
  b_loop : justified out (loop_todo (loop_pc n))
}.

Lemma online_evident out n p :
  backed out n → is_online (connectivity.state p (store (shared n))) = true → evident p out.
Proof.
  intros [(h & -> & Hh) _ _ _] Ho.
  assert (last_evidence (events_of p h) = Some true) as Hl.
  { destruct (follows_run h mp mt) as [_ _ _ Hp].
    destruct (Hp p) as (pre & suf & He & Hst & _). rewrite Hst, replay_online in Ho.
    apply bool_decide_eq_true in Ho. rewrite He. unfold last_evidence in *.
    by rewrite omap_app, last_app, Ho. }
  rewrite Hh in Hl. apply last_evidence_elem in Hl as (ev & Hin & He). exists ev.
  split; [by apply elem_of_applied|done].
Qed.

Lemma backed_store out n sh h out' :
  backed out n → store sh = store_run h (store (shared n)) →
  (∀ p, events_of p h = applied p out') →
  ∃ h', store sh = store_run h' (connectivity.with_limits mp mt) ∧
    ∀ p, events_of p h' = applied p (out ++ out').
Proof.
  intros [(h0 & Hs & Hh) _ _ _] Hsh Ha. exists (h0 ++ h). split.
  - unfold store_run in *. by rewrite foldl_app, <-Hs.
  - intros p. unfold events_of, applied in *. by rewrite filter_app, fmap_app, omap_app, Hh, Ha.
Qed.

Lemma sections_justified out c : justified out (sections_of c).
Proof.
  assert (∀ p ev, evidence ev = Some true → evident p (out ++ [Applied p ev])) as He.
  { intros p ev Hev. exists ev. set_solver. }
  destruct c as [| |p ev| | | | |]; simpl; try done.
  - by destruct ev.
  - split; [by apply He|done].
Qed.

(** One critical section of some task: what the other tasks have to do stays justified. *)
Lemma backed_exec out n x now sh o more todo :
  backed out n → justified out (x :: todo) → exec x now (shared n) = (sh, o, more) →
  ∀ d lpc dpc cs,
  (∀ k l, cs !! k = Some l → justified out l ∨ l = more ++ todo) →
  (justified out (dial_todo dpc) ∨ dial_todo dpc = more ++ todo) →
  (justified out (loop_todo lpc) ∨ loop_todo lpc = more ++ todo) →
  backed (out ++ o) (mkNode sh d lpc dpc cs) ∧
  ∀ p, Signalled (PeerReachable p) ∈ o → evident p out.
Proof.
  intros Hb Hj Hx d lpc dpc cs Hc Hd Hl.
  destruct (exec_justified _ _ _ _ _ _ _ _ Hj Hx) as [Hj' Hsig]. split; [|done].
  assert (∀ l, justified out l ∨ l = more ++ todo → justified (out ++ o) l) as Hw.
  { intros l [Hm| ->]; [|done]. eapply justified_mono, Hm. set_solver. }
  destruct (exec_history _ _ _ _ _ _ Hx) as (h & Hh & Ha).
  split; simpl; [by eapply backed_store| |by apply Hw|by apply Hw].
  intros k l Hk. by apply Hw, (Hc k).
Qed.

(** A step without output that only moves the tasks. *)
Lemma backed_same out n sh d lpc dpc cs :
  backed out n → store sh = store (shared n) →
  (∀ k l, cs !! k = Some l → justified out l) → justified out (dial_todo dpc) →
  justified out (loop_todo lpc) →
  backed (out ++ []) (mkNode sh d lpc dpc cs) ∧
  ∀ p, Signalled (PeerReachable p) ∈ [] → evident p out.
Proof.
  intros [Hs _ _ _] Hsh Hc Hd Hl. rewrite app_nil_r. split; [|set_solver].
  split; simpl; [by rewrite Hsh|done..].
Qed.

Lemma backed_loop out n i sh o pc :
  backed out n → loop_step i (loop_pc n) (shared n) = (sh, o, pc) →
  backed (out ++ o) (mkNode sh (dialed n) pc (dial_pc n) (calls n)) ∧
  ∀ p, Signalled (PeerReachable p) ∈ o → evident p out.
Proof.
  intros Hb Hs. pose proof Hb as [_ Hc Hd Hl].
  destruct (loop_pc n) as [|[|r rest]|r now rest|r now dl rest|r [|x todo] rest|] eqn:Hpc;
    cbn [loop_step] in Hs.
  - destruct (cancelled i); [|destruct (due (at_instant i) (scheduler (shared n))) as [ready q]];
      simplify_eq/=; apply (backed_same _ n); try done. by destruct ready.
  - simplify_eq. by apply (backed_same _ n).
  - simplify_eq. by apply (backed_same _ n).
  - destruct (join_result i); simplify_eq; by apply (backed_same _ n).
  - destruct (is_online _) eqn:Ho; [|case_decide]; simplify_eq; apply (backed_same _ n); try done.
    split; [by eapply online_evident|done].
  - simplify_eq. by apply (backed_same _ n).
  - destruct (exec x (at_instant i) (shared n)) as [[sh' o'] more] eqn:Hx. simplify_eq.
    eapply (backed_exec out n x (at_instant i)); eauto.
  - simplify_eq. by apply (backed_same _ n).
Qed.

Lemma backed_dial out n now answer sh o pc :
  backed out n → dial_step now answer (dial_pc n) (shared n) = (sh, o, pc) →
  backed (out ++ o) (mkNode sh (dialed n) (loop_pc n) pc (calls n)) ∧
  ∀ p, Signalled (PeerReachable p) ∈ o → evident p out.
Proof.
  intros Hb Hs. pose proof Hb as [_ Hc Hd Hl].
  destruct (dial_pc n) as [|r|r|[|x todo]] eqn:Hpc; cbn [dial_step] in Hs.
  - simplify_eq. by apply (backed_same _ n).
  - destruct (exec (Apply r EndpointConnecting None None) now (shared n)) as [[sh' o'] more] eqn:Hx.
    simplify_eq. eapply (backed_exec out n _ now _ _ _ []); eauto. done.
  - destruct answer; simplify_eq; by apply (backed_same _ n).
  - simplify_eq. by apply (backed_same _ n).
  - destruct (exec x now (shared n)) as [[sh' o'] more] eqn:Hx. simplify_eq.
    eapply (backed_exec out n x now); eauto.
Qed.

Lemma backed_step out a n n' o :
  backed out n → step a n = (n', o) →
  backed (out ++ o) n' ∧ ∀ p, Signalled (PeerReachable p) ∈ o → evident p out.
Proof.
  intros Hb. pose proof Hb as [Hs Hc Hd Hl]. assert (backed (out ++ []) n ∧
    ∀ p, Signalled (PeerReachable p) ∈ [] → evident p out) as Hid.
  { rewrite app_nil_r. split; [done|set_solver]. }
  destruct a as [k c|k now|i|p|now answer]; cbn [node_step].
  - destruct (calls n !! k) eqn:Hk; intros; simplify_eq; [done|].
    apply (backed_same _ n); try done. intros k' l. destruct (decide (k = k')) as [<-|].
    + rewrite lookup_insert_eq. intros [= <-]. apply sections_justified.
    + rewrite lookup_insert_ne by done. apply Hc.
  - destruct (calls n !! k) as [[|x todo]|] eqn:Hk; [by intros; simplify_eq| |by intros; simplify_eq].
    destruct (exec x now (shared n)) as [[sh o'] more] eqn:Hx. intros. simplify_eq.
    eapply (backed_exec out n x now); eauto. intros k' l. destruct (decide (k = k')) as [<-|].
    + rewrite lookup_insert_eq. intros [= <-]. by right.
    + rewrite lookup_insert_ne by done. intros Hl'. left. by eapply Hc.
  - destruct (loop_step i (loop_pc n) (shared n)) as [[sh o'] pc] eqn:Hx. intros. simplify_eq.
    by apply backed_loop with i.
  - destruct (dial_pc n) eqn:Hpc; try (by intros; simplify_eq).
    unfold dial_update. repeat case_decide; intros; simplify_eq; by apply (backed_same _ n).
  - destruct (dial_step now answer (dial_pc n) (shared n)) as [[sh o'] pc] eqn:Hx. intros. simplify_eq.
    by apply backed_dial with now answer.
Qed.

Lemma backed_run acts out n :
  backed out n →
  ∀ l1 p l2, (run acts n).2 = l1 ++ Signalled (PeerReachable p) :: l2 → evident p (out ++ l1).
Proof.
  revert out n. induction acts as [|a acts IH]; intros out n Hb l1 p l2; simpl.
  { by destruct l1. }
  destruct (step a n) as [n1 o1] eqn:Hs. destruct (backed_step _ _ _ _ _ Hb Hs) as [Hb1 Hsig].
  specialize (IH _ _ Hb1). destruct (run acts n1) as [n2 o2]. simpl in *. intros Heq.
  apply app_eq_inv in Heq as [(k & -> & Hk)|(k & -> & Hk)].
  - destruct k as [|x k]; simplify_eq/=.
    + rewrite app_nil_r in *. specialize (IH [] p l2 eq_refl). by rewrite app_nil_r in IH.
    + apply evident_app, Hsig. set_solver.
  - rewrite app_assoc. by eapply IH.
Qed.

End evidence.

(** a peer is signalled as reachable only after evidence: before every signal some event
    that shows the peer (a connection, a joined topic, a received message) was applied.
    However many announcements, dials and expiries happen in whatever order, they never
    produce a signal by themselves. *)
Theorem signal_needs_evidence acts mp mt q p l1 l2 :
  (run acts (start (connectivity.with_limits mp mt) q)).2 = l1 ++ Signalled (PeerReachable p) :: l2 →
  ∃ ev, Applied p ev ∈ l1 ∧ evidence ev = Some true.
Proof.
  apply (backed_run mp mt acts []). split; simpl; [|intros k todo; by rewrite lookup_empty|done..].
  by exists [].
Qed.

(** *** Attempts in flight *)

(** The peers the loop still has to settle. *)
Definition busy (pc : LoopPc) : list PublicKey :=
  match pc with
  | Sleeping | Ended => []
  | Batch rest => rest
  | Joining p _ rest | Confirming p _ _ rest => p :: rest
  | Finishing p [] rest => rest
  | Finishing p _ rest => p :: rest
  end.

(** A section that settles an attempt, and the sections after one. *)
Definition settles p (x : Critical) : Prop :=
  match x with
  | ResetSignalling r | OnFailure r _ => r = p
  | _ => False
  end.

Definition finishing_ok (pc : LoopPc) : Prop :=
  match pc with
  | Finishing p todo _ =>
      todo = [] ∨ (∃ x, todo = [x] ∧ settles p x) ∨
      ∃ r ev error t x, todo = [Apply r ev error t; x] ∧ settles p x
  | _ => True
  end.

Definition flying p (q : ReconnectScheduler) : Prop :=
  ∃ x, queue q !! p = Some x ∧ in_flight x = true.

(** The bound of the queue. *)
Definition bounded (k : nat) (q : ReconnectScheduler) : Prop :=
  queue_max q = k ∧ 1 ≤ k ∧ size (queue q) ≤ k.

Lemma schedule_flying p now q r : flying r (schedule p now q).2 → flying r q.
Proof.
  unfold schedule. destruct (decide (is_Some (queue q !! p))) as [|Hp]; [done|]. simpl.
  intros (x & Hx & Hf). cbn [queue set_queue] in Hx. destruct (decide (p = r)) as [->|].
  - rewrite lookup_insert_eq in Hx. by simplify_eq/=.
  - rewrite lookup_insert_ne in Hx by done. exists x. split; [|done].
    destruct (decide _); [|done].
    destruct (evict_one_spec q) as [[_ He]|(v & y & _ & Hd & _)]; [by rewrite He in Hx|].
    rewrite Hd in Hx. by apply lookup_delete_Some in Hx as [_ ?].
Qed.

Lemma on_failure_flying p now q r : flying r (on_failure p now q) → flying r q ∧ r ≠ p.
Proof.
  unfold on_failure. destruct (queue q !! p) as [y|] eqn:Hp; intros (x & Hx & Hf).
  - cbn [queue set_queue] in Hx. destruct (decide (p = r)) as [->|].
    + rewrite lookup_insert_eq in Hx. by simplify_eq/=.
    + rewrite lookup_insert_ne in Hx by done. split; [by exists x|done].
  - split; [by exists x|]. by intros ->; simplify_eq.
Qed.

Lemma reset_flying p q r : flying r (reset p q) → flying r q ∧ r ≠ p.
Proof.
  intros (x & Hx & Hf). cbn [reset queue set_queue] in Hx. apply lookup_delete_Some in Hx as [Hn Hx].
  split; [by exists x|done].
Qed.

Lemma schedule_bounded k p now q : bounded k q → bounded k (schedule p now q).2.
Proof.
  intros (Hk & H1 & Hs). unfold bounded, schedule. destruct (decide (is_Some (queue q !! p))) as [|Hp]; [done|].
  simpl. destruct (decide _) as [Hf|Hf]; rewrite ?evict_one_limit; (split; [done|]); (split; [done|]).
  - destruct (evict_one_spec q) as [[He _]|(v & y & Hv & Hd & _)].
    + rewrite He, map_size_empty in Hf. lia.
    + rewrite Hd, map_size_insert, map_size_delete, Hv. destruct (delete v _ !! p); simpl; lia.
  - rewrite map_size_insert. destruct (queue q !! p); simpl; lia.
Qed.

Lemma exec_flying x now sh sh' o more :
  exec x now sh = (sh', o, more) →
  (∀ r, flying r (scheduler sh') → flying r (scheduler sh) ∧ ¬ settles r x) ∧
  (∀ k, bounded k (scheduler sh) → bounded k (scheduler sh')).
Proof.
  destruct x as [r ev e a|r|r|r a|r d|r d st|r]; cbn [exec]; intros Hx; simplify_eq/=;
    try (split; [tauto|done]).
  - split; [intros p Hp; split; [by eapply reset_flying|tauto]|]. unfold bounded. simpl.
    rewrite map_size_delete. destruct (_ !! r); simpl; lia.
  - split; [intros p Hp; apply reset_flying in Hp; naive_solver|]. unfold bounded. simpl.
    rewrite map_size_delete. destruct (_ !! r); simpl; lia.
  - split; [intros p Hp; apply on_failure_flying in Hp; naive_solver|].
    unfold bounded, on_failure. destruct (queue (scheduler sh) !! r) eqn:Hr; [|done]. simpl.
    rewrite map_size_insert, Hr. simpl. lia.
  - destruct (schedule r now (scheduler sh)) as [b q] eqn:Hs. simplify_eq/=.
    replace q with (schedule r now (scheduler sh)).2 by by rewrite Hs.
    split; [intros p Hp; split; [by eapply schedule_flying|tauto]|intros k; apply schedule_bounded].
Qed.

Lemma due_flying t q r :
  flying r (due t q).2 → flying r q ∨ r ∈ (due t q).1.
Proof.
  unfold due. intros (x & Hx & Hf). cbn [fst snd queue set_queue] in *.
  rewrite lookup_fmap in Hx. destruct (queue q !! r) as [y|] eqn:Hr; simplify_eq/=.
  destruct (is_due t y) eqn:Hd.
  - right. apply list_elem_of_fmap. exists (r, y). split; [done|].
    by rewrite list_elem_of_filter, elem_of_hash_entries.
  - left. exists y. split; [done|]. unfold start_attempt in Hf. by rewrite Hd in Hf.
Qed.

Lemma NoDup_fst_filter {V} (P : PublicKey * V → Prop) `{!∀ y, Decision (P y)} l :
  NoDup l.*1 → NoDup (filter P l).*1.
Proof.
  induction l as [|y l IH]; [done|]. rewrite fmap_cons, NoDup_cons. intros [Hy Hl].
  rewrite filter_cons. case_decide; [|by apply IH]. rewrite fmap_cons, NoDup_cons.
  split; [|by apply IH]. intros (z & Hz & Hin)%list_elem_of_fmap. apply Hy.
  apply list_elem_of_filter in Hin as [_ Hin]. rewrite Hz. by apply list_elem_of_fmap_2.
Qed.

Lemma due_NoDup t q : NoDup (due t q).1.
Proof.
  unfold due. simpl. apply NoDup_fst_filter. rewrite hash_entries_perm. apply NoDup_fst_map_to_list.
Qed.

Record settled k n : Prop := {
  s_nodup : NoDup (busy (loop_pc n));
  s_ok : finishing_ok (loop_pc n);
  s_flying : ∀ p, flying p (scheduler (shared n)) → p ∈ busy (loop_pc n);
  s_bounded : bounded k (scheduler (shared n))
}.

(** A section of another task. *)
Lemma settled_exec k n x now sh o more d dpc cs :
  settled k n → exec x now (shared n) = (sh, o, more) →
  settled k (mkNode sh d (loop_pc n) dpc cs).
Proof.
  intros [Hn Ho Hf Hb] Hx. apply exec_flying in Hx as [Hx Hb'].
  split; simpl; [done..| |by apply Hb']. intros p Hp. by apply Hf, Hx.
Qed.

Lemma settled_loop k n i sh o pc :
  settled k n → loop_step i (loop_pc n) (shared n) = (sh, o, pc) →
  settled k (mkNode sh (dialed n) pc (dial_pc n) (calls n)).
Proof.
  intros [Hn Ho Hf Hb] Hs.
  destruct (loop_pc n) as [|[|r rest]|r now rest|r now dl rest|r [|x todo] rest|] eqn:Hpc;
    cbn [loop_step] in Hs.
  - destruct (cancelled i); [simplify_eq; by split|].
    destruct (due (at_instant i) (scheduler (shared n))) as [ready q] eqn:Hd. simplify_eq.
    pose proof (due_NoDup (at_instant i) (scheduler (shared n))) as Hnd. rewrite Hd in Hnd.
    assert (∀ p, flying p q → p ∈ ready) as Hr.
    { intros p Hp. pose proof (due_flying (at_instant i) (scheduler (shared n)) p) as Hdf.
      rewrite Hd in Hdf. destruct (Hdf Hp) as [Hfl|]; [|done]. by apply Hf, elem_of_nil in Hfl. }
    assert (bounded k q) as Hbq.
    { unfold due in Hd. simplify_eq. unfold bounded in *. simpl. by rewrite map_size_fmap. }
    destruct ready; by split.
  - simplify_eq. by split.
  - simplify_eq. by split.
  - destruct (join_result i); simplify_eq; split; try done. right. right. by eexists _, _, _, _, _.
  - destruct (is_online _); [|case_decide]; simplify_eq; split; try done.
    + right. left. by eexists.
    + right. right. by eexists _, _, _, _, _.
  - simplify_eq. by split.
  - destruct (exec x (at_instant i) (shared n)) as [[sh' o'] more] eqn:Hx. simplify_eq.
    pose proof (exec_flying _ _ _ _ _ _ Hx) as [Hx' Hb']. simpl in Hn, Hf.
    destruct Ho as [|[(y & [= <- ->] & Hy)|(p' & ev & error & t & y & [= -> ->] & Hy)]]; [done| |].
    + assert (more = []) as -> by (destruct x; simplify_eq/=; done).
      split; simpl; [by apply NoDup_cons in Hn as [_ ?]|by left| |by apply Hb'].
      intros p [Hp Hset]%Hx'. apply Hf in Hp. by apply elem_of_cons in Hp as [->|].
    + simplify_eq/=. split; simpl; [done| | |done].
      * right. left. by exists y.
      * intros p [Hp _]%Hx'. by apply Hf.
  - simplify_eq. by split.
Qed.

Lemma settled_step lim a n n' o : settled lim n → step a n = (n', o) → settled lim n'.
Proof.
  intros Hs. pose proof Hs as [Hn Ho Hf Hb]. destruct a as [k c|k now|i|p|now answer]; cbn [node_step].
  - destruct (calls n !! k); intros; simplify_eq; [done|by split].
  - destruct (calls n !! k) as [[|x todo]|]; [by intros; simplify_eq| |by intros; simplify_eq].
    destruct (exec x now (shared n)) as [[sh o'] more] eqn:Hx. intros. simplify_eq.
    by eapply settled_exec.
  - destruct (loop_step i (loop_pc n) (shared n)) as [[sh o'] pc] eqn:Hx. intros. simplify_eq.
    by eapply settled_loop.
  - destruct (dial_pc n); try (by intros; simplify_eq).
    unfold dial_update. repeat case_decide; intros; simplify_eq; by split.
  - destruct (dial_step now answer (dial_pc n) (shared n)) as [[sh o'] pc] eqn:Hx. intros. simplify_eq.
    destruct (dial_pc n) as [|r|r|[|x todo]]; cbn [dial_step] in Hx;
      try (destruct (exec _ _ _) as [[]] eqn:He; simplify_eq; by eapply settled_exec);
      repeat case_match; simplify_eq; by split.
Qed.

Lemma settled_run acts s initial maximum limit :
  settled (Nat.max limit 1) (run acts (start s (reconnect.with_limits initial maximum limit))).1.
Proof.
  assert (∀ n, settled (Nat.max limit 1) n → settled (Nat.max limit 1) (run acts n).1) as Hgen.
  { induction acts as [|a acts IH]; intros n Hn; [done|]. simpl.
    destruct (step a n) as [n1 o1] eqn:Hs. specialize (IH n1 (settled_step _ _ _ _ _ Hn Hs)).
    by destruct (run acts n1). }
  apply Hgen. split; simpl; [constructor|done| |].
  - intros p (x & Hx & _). simpl in Hx; by rewrite lookup_empty in Hx.
  - unfold bounded. simpl. rewrite map_size_empty. lia.
Qed.

(** C38: No attempt is lost or doubled.  In every interleaving the loop has every peer at most
    once in its batch, every entry marked as in flight is of a peer the loop still has to
    settle, and the queue stays within its bound.  So when the loop sleeps nothing is in
    flight, and the first wake-up of a loop that is not cancelled, at or after the deadline of
    a queued peer, takes it. *)
Theorem no_attempt_stranded acts s initial maximum limit :
  let n := (run acts (start s (reconnect.with_limits initial maximum limit))).1 in
  NoDup (busy (loop_pc n)) ∧
  (∀ p, is_in_flight p (scheduler (shared n)) = true → p ∈ busy (loop_pc n)) ∧
  size (queue (scheduler (shared n))) ≤ Nat.max limit 1 ∧
  (loop_pc n = Sleeping → ∀ p x t answer,
     queue (scheduler (shared n)) !! p = Some x → (next_attempt_at x ≤ t)%N →
     ∃ rest, loop_pc (step (Loop (mkLoopInput t false answer)) n).1 = Batch rest ∧ p ∈ rest).
Proof.
  intros n. destruct (settled_run acts s initial maximum limit) as [Hn _ Hf (_ & _ & Hb)]. fold n in Hn, Hf, Hb.
  split_and!; [done| |done|].
  - intros p Hp. apply Hf. unfold is_in_flight in Hp.
    destruct (queue (scheduler (shared n)) !! p) as [x|] eqn:Hx; [|done]. by exists x.
  - intros Hpc p x t answer Hx Ht. cbn [node_step]. rewrite Hpc in *. cbn [loop_step cancelled at_instant].
    assert (p ∈ (due t (scheduler (shared n))).1) as Hin.
    { unfold due. simpl. apply list_elem_of_fmap. exists (p, x). split; [done|].
      rewrite list_elem_of_filter, elem_of_hash_entries. split; [|done]. unfold is_due. simpl.
      destruct (in_flight x) eqn:Hfl; [|by rewrite bool_decide_eq_true_2].
      assert (flying p (scheduler (shared n))) as Hc by by exists x. by apply Hf, elem_of_nil in Hc. }
    destruct (due t (scheduler (shared n))) as [[|r ready] q]; [by apply elem_of_nil in Hin|].
    by exists (r :: ready).
Qed.

(** *** The loop goes through its batch *)

(** Steps of the loop alone: what the other tasks leave in the shared state between two of
    them is arbitrary. *)
Definition loop_after (l : list (LoopInput * Shared)) (pc : LoopPc) : LoopPc :=
  foldl (λ pc y, (loop_step y.1 pc y.2).2) pc l.

(** Two steps are at least the 100 ms of a poll apart. *)
Fixpoint spaced (t : N) (l : list (LoopInput * Shared)) : Prop :=
  match l with
  | [] => True
  | y :: l' => (t ≤ at_instant y.1)%N ∧ spaced (at_instant y.1 + 100000000) l'
  end.

(** Within [k] steps, of which some beginning [l1], the loop comes from one point to another. *)
Definition within (k : nat) (t : N) l (pc pc' : LoopPc) : Prop :=
  ∃ l1 l2 t', l = l1 ++ l2 ∧ length l1 ≤ k ∧ loop_after l1 pc = pc' ∧ (t ≤ t')%N ∧ spaced t' l2.

Lemma loop_after_app l1 l2 pc : loop_after (l1 ++ l2) pc = loop_after l2 (loop_after l1 pc).
Proof. unfold loop_after. by rewrite foldl_app. Qed.

Lemma within_refl k t l pc : spaced t l → within k t l pc pc.
Proof. intros Hs. exists [], l, t. split_and!; [done|simpl; lia|done|lia|done]. Qed.

Lemma within_cons k t y l pc pc' pc'' :
  spaced t (y :: l) → (loop_step y.1 pc y.2).2 = pc' →
  (spaced (at_instant y.1 + 100000000) l → within k (at_instant y.1 + 100000000) l pc' pc'') →
  within (S k) t (y :: l) pc pc''.
Proof.
  intros [Ht Hs] <- Hw. destruct (Hw Hs) as (l1 & l2 & t' & -> & Hl & Ha & Hle & Hs').
  exists (y :: l1), l2, t'. split_and!; [done|simpl; lia|done|lia|done].
Qed.

Lemma within_mono k k' t l pc pc' : k ≤ k' → within k t l pc pc' → within k' t l pc pc'.
Proof. intros Hk (l1 & l2 & t' & Hw). exists l1, l2, t'. naive_solver lia. Qed.

Lemma finishing_ends p x rest t l :
  settles p x → 2 ≤ length l → spaced t l → within 2 t l (Finishing p [x] rest) (Batch rest).
Proof.
  intros Hx Hl Hs. destruct l as [|y [|z l]]; simpl in Hl; try lia.
  eapply (within_cons _ _ _ _ _ (Finishing p [] rest)); [done| |].
  { cbn [loop_step]. by destruct x. }
  intros Hs'. eapply within_cons; [done|done|]. apply within_refl.
Qed.

Lemma failed_ends p now error rest t l :
  3 ≤ length l → spaced t l →
  within 3 t l (Finishing p (attempt_failed p now error) rest) (Batch rest).
Proof.
  intros Hl Hs. destruct l as [|y l]; simpl in Hl; [lia|].
  eapply (within_cons _ _ _ _ _ (Finishing p [OnFailure p now] rest)); [done|done|].
  intros Hs'. apply finishing_ends; [done|lia|done].
Qed.

Lemma confirming_ends m p now dl rest t l :
  (dl ≤ t + 100000000 * N.of_nat m)%N → m + 4 ≤ length l → spaced t l →
  within (m + 4) t l (Confirming p now dl rest) (Batch rest).
Proof.
  revert t l. induction m as [|m IH]; intros t l Hd Hl Hs.
  all: destruct l as [|y l]; simpl in Hl; [lia|]; pose proof Hs as [Ht _].
  all: destruct (is_online (connectivity.state p (store y.2))) eqn:Ho.
  1, 3: apply (within_mono 3); [lia|];
    eapply (within_cons _ _ _ _ _ (Finishing p [ResetSignalling p] rest));
    [done|cbn [loop_step]; by rewrite Ho|intros Hs'; apply finishing_ends; [done|lia|done]].
  all: destruct (decide (dl ≤ at_instant y.1)%N) as [Hle|Hle]; [|try lia].
  1, 2: apply (within_mono 4); [lia|];
    eapply (within_cons _ _ _ _ _ (Finishing p (attempt_failed p now not_confirmed) rest));
    [done|cbn [loop_step]; rewrite Ho; by rewrite decide_True
    |intros Hs'; apply failed_ends; [lia|done]].
  eapply (within_cons _ _ _ _ _ (Confirming p now dl rest)); [done| |].
  - cbn [loop_step]. rewrite Ho. by rewrite decide_False.
  - intros Hs'. apply IH; [lia|lia|done].
Qed.

Lemma joining_ends p now rest t l :
  34 ≤ length l → spaced t l → within 34 t l (Joining p now rest) (Batch rest).
Proof.
  intros Hl Hs. destruct l as [|y l]; simpl in Hl; [lia|]. destruct (join_result y.1) as [error|] eqn:Hj.
  - apply (within_mono 4); [lia|].
    eapply (within_cons _ _ _ _ _ (Finishing p (attempt_failed p now error) rest)); [done| |].
    { cbn [loop_step]. by rewrite Hj. }
    intros Hs'. apply failed_ends; [lia|done].
  - eapply (within_cons _ _ _ _ _ (Confirming p now _ rest)); [done| |].
    { cbn [loop_step]. by rewrite Hj. }
    intros Hs'. apply (confirming_ends 29); [|lia|done]. unfold RECONNECT_CONFIRM_TIMEOUT. lia.
Qed.

(** every due peer is dialled.  Whatever the other tasks do between its steps and whatever
    the dials answer, the loop goes through its batch within 35 steps for each peer (the
    confirmation is polled every 100 ms for 3 s), dials each of them and sleeps again. *)
Theorem batch_dialled rest t l :
  spaced t l → 35 * length rest + 1 ≤ length l →
  (∃ l1 l2, l = l1 ++ l2 ∧ length l1 ≤ 35 * length rest + 1 ∧ loop_after l1 (Batch rest) = Sleeping) ∧
  ∀ p, p ∈ rest → ∃ l1 l2 now rest', l = l1 ++ l2 ∧ loop_after l1 (Batch rest) = Joining p now rest'.
Proof.
  revert t l. induction rest as [|p rest IH]; intros t l Hs Hl; simpl in Hl.
  { destruct l as [|y l]; simpl in Hl; [lia|]. split; [exists [y], l; simpl; split_and!; [done|lia|done]|].
    intros p Hp. by apply elem_of_nil in Hp. }
  destruct l as [|y l]; simpl in Hl; [lia|]. destruct Hs as [Ht Hs].
  destruct (joining_ends p (at_instant y.1) rest _ l ltac:(lia) Hs)
    as (l1 & l2 & t' & -> & Hl1 & Ha & Hle & Hs2). rewrite length_app in Hl.
  destruct (IH t' l2 Hs2 ltac:(lia)) as [(k1 & k2 & -> & Hk & Hslp) Hall].
  assert (∀ k, loop_after (y :: l1 ++ k) (Batch (p :: rest)) = loop_after k (Batch rest)) as Hgo.
  { intros k. change (y :: l1 ++ k) with ([y] ++ l1 ++ k). rewrite !loop_after_app. simpl. by rewrite Ha. }
  split.
  - exists (y :: l1 ++ k1), k2. split; [simpl; by rewrite <-app_assoc|].
    rewrite Hgo. split; [|done]. simpl. rewrite length_app. lia.
  - intros r [->|Hr]%elem_of_cons; [by exists [y], (l1 ++ k1 ++ k2), (at_instant y.1), rest|].
    destruct (Hall r Hr) as (j1 & j2 & now & rest' & Heq & Hj). exists (y :: l1 ++ j1), j2, now, rest'.
    split; [simpl; by rewrite Heq, <-app_assoc|]. by rewrite Hgo.
Qed.

(** *** Interleavings that end otherwise *)

Lemma is_queued_reset p q : is_queued p (reset p q) = false.
Proof.
  unfold is_queued, reset. cbn [queue set_queue]. rewrite lookup_delete_eq. by apply bool_decide_eq_false.
Qed.

Lemma on_failure_absent p t q : is_queued p q = false → on_failure p t q = q.
Proof.
  unfold is_queued, on_failure. rewrite bool_decide_eq_false, <-eq_None_not_Some. by intros ->.
Qed.

Lemma run_cons a acts n n1 o :
  step a n = (n1, o) → run (a :: acts) n = let '(n2, o2) := run acts n1 in (n2, o ++ o2).
Proof. intros Hs. simpl. by rewrite Hs. Qed.

(** A call that executes its next section. *)
Lemma continue_step k now n x todo :
  calls n !! k = Some (x :: todo) →
  step (Continue k now) n =
    let '(sh, out, more) := exec x now (shared n) in
    (mkNode sh (dialed n) (loop_pc n) (dial_pc n) (<[k := more ++ todo]> (calls n)), out).
Proof. intros Hk. cbn [node_step]. by rewrite Hk. Qed.

(** The whole handling of a neighbour that comes up. *)
Lemma neighbor_up_run n k p t1 t2 :
  calls n !! k = None →
  run [Begin k (NeighborUp p); Continue k t1; Continue k t2] n =
    (mkNode (mkShared (apply_inner p EndpointConnected None t1 (store (shared n))).2
               (reset p (scheduler (shared n))))
       (dialed n) (loop_pc n) (dial_pc n) (<[k := []]> (calls n)),
     Applied p EndpointConnected ::
     if is_queued p (scheduler (shared n)) then [Signalled (PeerReachable p)] else []).
Proof.
  intros Hk. erewrite run_cons; [|cbn [node_step]; by rewrite Hk].
  erewrite run_cons; [|by rewrite (continue_step _ _ _ (Apply p EndpointConnected None None)
    [ResetSignalling p]) by apply lookup_insert_eq].
  erewrite run_cons; [|by rewrite (continue_step _ _ _ (ResetSignalling p) []) by apply lookup_insert_eq].
  cbn [node_run app shared store scheduler dialed loop_pc dial_pc calls default].
  rewrite !insert_insert_eq. by destruct (is_queued p _).
Qed.

(** a confirmation that comes too late is overwritten.  When the neighbour comes up after
    the loop has given up waiting and before it records the failure, the peer is online in
    between and the loop then marks it as degraded, and no further attempt is queued: the
    connected peer stays degraded until something else happens. *)
Theorem late_confirmation_degrades n k p t error rest t1 t2 i1 i2 :
  loop_pc n = Finishing p (attempt_failed p t error) rest → calls n !! k = None →
  let up := [Begin k (NeighborUp p); Continue k t1; Continue k t2] in
  is_online (connectivity.state p (store (shared (run up n).1))) = true ∧
  let n' := (run (up ++ [Loop i1; Loop i2]) n).1 in
  connectivity.state p (store (shared n')) = Degraded ∧
  is_queued p (scheduler (shared n')) = false ∧ loop_pc n' = Finishing p [] rest.
Proof.
  intros Hpc Hk up. rewrite node_run_app. subst up. rewrite (neighbor_up_run n k p t1 t2 Hk).
  cbn [node_run node_step fst loop_pc shared]. rewrite Hpc.
  cbn [loop_step attempt_failed exec app shared store scheduler loop_pc fst snd default].
  rewrite !apply_state. split; [by apply evidence_creates|]. split; [|split; [|done]].
  - by destruct (connectivity.state p (store (shared n))).
  - rewrite on_failure_absent; apply is_queued_reset.
Qed.

(** the first retry does not wait.  The deadline after a dial that was not confirmed is
    counted from before the dial, and the confirmation alone takes three seconds: as long as
    the backoff is no longer than that (the first is two seconds), the peer is due again at
    the moment the failure is recorded. *)
Theorem unconfirmed_retry_is_due n p now dl rest x t a1 a2 a3 :
  loop_pc n = Confirming p now dl rest → (now + RECONNECT_CONFIRM_TIMEOUT ≤ dl ≤ t)%N →
  is_online (connectivity.state p (store (shared n))) = false →
  queue (scheduler (shared n)) !! p = Some x → (attempts x < u32_max)%N →
  (backoff_for (attempts x + 1) (scheduler (shared n)) ≤ RECONNECT_CONFIRM_TIMEOUT)%N →
  let inputs := (λ a, Loop (mkLoopInput t false a)) <$> [a1; a2; a3] in
  ∃ y, queue (scheduler (shared (run inputs n).1)) !! p = Some y ∧
    attempts y = (attempts x + 1)%N ∧ is_due t y = true.
Proof.
  intros Hpc [Hdl Ht] Ho Hx Ha Hb. cbn [fmap list_fmap node_run node_step]. rewrite Hpc.
  cbn [loop_step at_instant]. rewrite Ho, decide_True by done.
  cbn [attempt_failed exec app shared store scheduler loop_pc loop_step at_instant fst snd].
  unfold on_failure. rewrite Hx. rewrite N.min_l by lia. cbn [queue set_queue]. rewrite lookup_insert_eq.
  eexists. split; [done|]. split; [done|]. unfold is_due. cbn [in_flight next_attempt_at].
  rewrite bool_decide_eq_true_2; [done|lia].
Qed.

(** a dial that is only queued counts as a connection.  When [join_peers] accepts the dial
    of a discovered peer, the dialling loop records it as connected and clears its
    reconnection, whether or not the neighbour ever comes up, and sends no signal. *)
Theorem queued_dial_counts_as_connected n p t1 t2 t3 a2 a3 :
  dial_pc n = Dialing p →
  let '(n', out) := run [Dial t1 None; Dial t2 a2; Dial t3 a3] n in
  is_online (connectivity.state p (store (shared n'))) = true ∧
  is_queued p (scheduler (shared n')) = false ∧ out = [Applied p EndpointConnected].
Proof.
  intros Hpc. cbn [node_run node_step]. rewrite Hpc.
  cbn [dial_step exec app shared store scheduler dial_pc fst snd].
  rewrite apply_state. split; [by apply evidence_creates|]. split; [apply is_queued_reset|done].
Qed.

End facts.
End task_facts.

(** ** Evaluations *)

Module samples.
Import connectivity reconnect machine store_facts queue_facts tasks task_facts.

#[local] Program Instance list_order : HashEntries := {| hash_entries V m := map_to_list m |}.
Next Obligation. done. Qed.

Definition me : PublicKey := [x00].
Definition alice : PublicKey := [x01].
Definition bob : PublicKey := [x02].

Definition second : N := 1000000000.
Definition tick (t : N) : Action := Loop (mkLoopInput (t * second) false None).

Definition fresh : Node := start connectivity.new reconnect.new.

(** [alice] is queued and dialled, and nobody answers within three seconds. *)
Definition unanswered : list Action :=
  [Begin 0 (QueueReconnect alice EndpointReachable);
   Continue 0 second; Continue 0 second; Continue 0 second;
   tick 2; tick 2; tick 2; tick 5].

Example unanswered_run :
  (node_run me unanswered fresh).2 = [Queued alice] ∧
  loop_pc (node_run me unanswered fresh).1 =
    Finishing alice (attempt_failed alice (2 * second) not_confirmed) [].
Proof. split; vm_compute; reflexivity. Qed.

(** The same peer, with the neighbour coming up in time: one signal. *)
Definition answered : list Action :=
  take 7 unanswered ++
  [Begin 1 (NeighborUp alice); Continue 1 (4 * second); Continue 1 (4 * second); tick 5; tick 5; tick 5].

Example answered_run :
  (node_run me answered fresh).2 =
    [Queued alice; Applied alice EndpointConnected; Signalled (PeerReachable alice)] ∧
  loop_pc (node_run me answered fresh).1 = Batch [].
Proof. split; vm_compute; reflexivity. Qed.

(** Events reordered: the announcement does not take back the connection. *)
Example reordered :
  let s := store_run [(alice, EndpointConnected, None, 1%N); (alice, DiscoverySeen, None, 2%N);
                      (bob, EndpointFailed, None, 2%N); (alice, PathChangedRelay, None, 3%N)]
             connectivity.new in
  connectivity.state alice s = Reachable ∧ connectivity.state bob s = Unknown ∧ moves_of alice s = [(Unknown, Reachable, EndpointConnected)].
Proof. vm_compute. auto. Qed.

Definition queue_of_one : ReconnectScheduler :=
  (schedule alice 5 (reconnect.with_limits (2 * second) (300 * second) 1)).2.

Lemma schedule_exact_witness :
  size (queue queue_of_one) ≤ queue_max queue_of_one ∧
  (schedule bob 7 queue_of_one).1 = true ∧
  queue (schedule bob 7 queue_of_one).2 !! bob = Some (mkReconnect 0 7 false).
Proof.
  split; [vm_compute; lia|].
  destruct (schedule bob 7 queue_of_one) as [b q] eqn:Hs. simpl.
  pose proof (schedule_exact bob 7 queue_of_one ltac:(vm_compute; lia) ltac:(vm_compute; lia)) as Hp.
  rewrite Hs in Hp. assert (is_queued bob queue_of_one = false) as Hq by (vm_compute; reflexivity).
  rewrite Hq in Hp. destruct Hp as (-> & _ & Hp & _). split; [done|exact Hp].
Defined.

Lemma retry_backoff_exact_witness :
  backoff_for 4 reconnect.new = (16 * second)%N ∧ (backoff_for 4 reconnect.new ≤ 300 * second)%N.
Proof.
  destruct (retry_backoff_exact reconnect.new 4 ltac:(vm_compute; discriminate)
    ltac:(vm_compute; discriminate) ltac:(vm_compute; discriminate)) as (_ & Heq & Hle & _).
  split; [|exact Hle]. rewrite Heq by done. vm_compute. reflexivity.
Defined.

Lemma signal_needs_evidence_witness :
  ∃ ev, Applied alice ev ∈ [Queued alice; Applied alice EndpointConnected] ∧ evidence ev = Some true.
Proof.
  apply (signal_needs_evidence me answered MAX_CONNECTIVITY_PEERS MAX_TRAIL_PER_PEER reconnect.new
    alice [Queued alice; Applied alice EndpointConnected] []).
  vm_compute. reflexivity.
Defined.

(** Thirty-six polls that find nobody. *)
Definition polls : list (LoopInput * Shared) :=
  (λ k, (mkLoopInput (N.of_nat k * 100000000) false None, shared fresh)) <$> seq 0 36.

Lemma batch_dialled_witness :
  ∃ l1 l2, polls = l1 ++ l2 ∧ length l1 ≤ 36 ∧ loop_after l1 (Batch [alice]) = Sleeping.
Proof.
  apply (batch_dialled [alice] 0 polls).
  - vm_compute. repeat split; discriminate.
  - vm_compute. lia.
Defined.

Lemma unanswered_calls : calls (node_run me unanswered fresh).1 !! 1%N = None.
Proof. vm_compute. reflexivity. Qed.

Lemma late_confirmation_degrades_witness :
  let acts := unanswered ++ [Begin 1 (NeighborUp alice); Continue 1 (6 * second);
                             Continue 1 (6 * second); tick 6; tick 6] in
  connectivity.state alice (store (shared (node_run me acts fresh).1)) = Degraded.
Proof.
  intros acts. pose proof (late_confirmation_degrades me (node_run me unanswered fresh).1 1 alice
    (2 * second) not_confirmed [] (6 * second) (6 * second) (mkLoopInput (6 * second) false None)
    (mkLoopInput (6 * second) false None) (proj2 unanswered_run) unanswered_calls)
    as (_ & Hst & _). subst acts. rewrite node_run_app.
  destruct (node_run me unanswered fresh) as [n out].
  cbn [fst app] in Hst. change (tick 6) with (Loop (mkLoopInput (6 * second) false None)).
  by destruct (node_run me _ n).
Defined.

(** Waiting for the confirmation. *)
Definition waiting : Node := (node_run me (take 7 unanswered) fresh).1.

Lemma waiting_facts :
  loop_pc waiting = Confirming alice (2 * second) (5 * second) [] ∧
  is_online (connectivity.state alice (store (shared waiting))) = false ∧
  queue (scheduler (shared waiting)) !! alice = Some (mkReconnect 0 second true).
Proof. vm_compute. auto. Qed.

Lemma unconfirmed_retry_is_due_witness :
  ∃ y, queue (scheduler (shared (node_run me [tick 5; tick 5; tick 5] waiting).1)) !! alice = Some y ∧
    attempts y = 1%N ∧ is_due (5 * second) y = true.
Proof.
  destruct waiting_facts as (Hpc & Ho & Hx).
  apply (unconfirmed_retry_is_due me waiting alice (2 * second) (5 * second) []
    (mkReconnect 0 second true) (5 * second) None None None Hpc
    ltac:(vm_compute; split; discriminate) Ho Hx ltac:(vm_compute; reflexivity)
    ltac:(vm_compute; discriminate)).
Defined.

(** A discovered peer is dialled. *)
Definition dialing : Node := (node_run me [Update bob; Dial second None] fresh).1.

Lemma dialing_pc : dial_pc dialing = Dialing bob.
Proof. vm_compute. reflexivity. Qed.

Lemma queued_dial_counts_as_connected_witness :
  is_online (connectivity.state bob (store (shared
    (node_run me [Dial second None; Dial second None; Dial second None] dialing).1))) = true.
Proof.
  pose proof (queued_dial_counts_as_connected me dialing bob second second second None None dialing_pc) as Hq.
  destruct (node_run me _ dialing) as [n out]. exact (proj1 Hq).
Defined.

End samples.
