(* ===== verification/FileAccess.v ===== *)
(** * File access: [src/file_access_protocol.rs], [src/file_access_handler/]

    [Module file_access_protocol] holds the requests, the responses and the signed download
    descriptors; [Module nonce] the store of used nonces; [Module limits] the limiters;
    [Module storage] the queries the handler makes ([src/storage/transfer.rs]); [Module
    prepare] the preparation of a file and [Module policy] the decision on a request.
    [Module serving] composes them: every request is at one point of [serve_file_access], and
    the requests take their steps, one lock at a time, in any order.  The database may change
    between any two queries, and every query may fail.  The blob store, the file system and
    clocks belong to the environment; diagnostics are kept only for the panic they can raise. *)

From Stdlib Require Import Strings.Byte NArith.
From stdpp Require Import prelude gmap sorting strings.
From S2P Require Import Prelude Text Signing Mailbox Friends Tunnel.

Module file_access_protocol.

Definition FILE_ACCESS_WIRE_VERSION : N := 1.
Definition SUPPORTED_FILE_ACCESS_VERSIONS : list N := [1%N].
Definition DESCRIPTOR_SIGNED_PROTOCOL : string := "boru/file-descriptor".
Definition DESCRIPTOR_SIGNED_PAYLOAD_VERSION : N := 2.
Definition MAX_FILENAME_BYTES : nat := 512.

Inductive FileAccessErrorCode : Type :=
| UnsupportedVersionCode | PermissionDeniedCode | NotFoundCode | InvalidRequestCode
| RateLimitedCode | BusyCode | ResponseTooLargeCode | InternalErrorCode.

Inductive BlobFormat : Type := Raw | HashSeq.

Record PreparedFile : Type := mkPrepared {
  prepared_hash : Text;
  prepared_size : N;
  prepared_format : BlobFormat;
  prepared_mime : Text;
  prepared_filename : Text
}.

Inductive DescriptorVerification : Type :=
| Valid | NonceReused | InvalidSignature | Expired | NotYetValid | ContentMismatch
| OwnerMismatch | RequesterMismatch | UnsupportedDescriptorVersion.

Record DescriptorSignedPayloadV2 : Type := mkPayload {
  protocol : string;
  payload_version : N;
  payload_owner : PublicKey;
  payload_requester : PublicKey;
  payload_file_id : Text;
  payload_hash : Bytes;
  payload_size : N;
  payload_ticket : Bytes;
  payload_nonce : Bytes;
  payload_issued_at_ms : N;
  payload_expires_at_ms : N
}.

Record SignedDownloadDescriptor : Type := mkDescriptor {
  signed_version : N;
  owner_id : PublicKey;
  requester : PublicKey;
  shared_file_id : Text;
  blob_hash : Bytes;
  size_bytes : N;
  blob_ticket : Bytes;
  nonce : Bytes;
  issued_at_ms : N;
  expires_at_ms : N;
  signature : Bytes
}.

Definition from_descriptor (d : SignedDownloadDescriptor) : DescriptorSignedPayloadV2 :=
  mkPayload DESCRIPTOR_SIGNED_PROTOCOL DESCRIPTOR_SIGNED_PAYLOAD_VERSION (owner_id d) (requester d)
    (shared_file_id d) (blob_hash d) (size_bytes d) (blob_ticket d) (nonce d) (issued_at_ms d)
    (expires_at_ms d).

Section descriptor.
Context `{!Ed25519, !Postcard DescriptorSignedPayloadV2}.

Definition canonical_bytes (p : DescriptorSignedPayloadV2) : option Bytes := to_stdvec p.

(** [rand_nonce] is what [rand::random] returns; the [expect] is the panic. *)
Definition sign_download_descriptor (owner : SecretKey) (req : PublicKey) (file_id : Text)
    (hash : Bytes) (size : N) (format : BlobFormat) (now_ms expires : N) (rand_nonce : Bytes)
    : outcome SignedDownloadDescriptor :=
  let ticket := [] in
  let payload := mkPayload DESCRIPTOR_SIGNED_PROTOCOL DESCRIPTOR_SIGNED_PAYLOAD_VERSION (public owner)
                   req file_id hash size ticket rand_nonce now_ms expires in
  match canonical_bytes payload with
  | None => Panic
  | Some canonical =>
      Done (mkDescriptor DESCRIPTOR_SIGNED_PAYLOAD_VERSION (public owner) req file_id hash size ticket
              rand_nonce now_ms expires (sign owner canonical))
  end.

Definition verify_download_descriptor (d : SignedDownloadDescriptor)
    (expected_owner expected_requester : PublicKey) (now_ms : N) : DescriptorVerification :=
  if negb (bool_decide (signed_version d = DESCRIPTOR_SIGNED_PAYLOAD_VERSION))
  then UnsupportedDescriptorVersion
  else if bool_decide (expires_at_ms d < now_ms)%N then Expired
  else if bool_decide (now_ms < issued_at_ms d)%N then NotYetValid
  else if negb (bool_decide (owner_id d = expected_owner)) then OwnerMismatch
  else if negb (bool_decide (requester d = expected_requester)) then RequesterMismatch
  else match canonical_bytes (from_descriptor d) with
       | None => InvalidSignature
       | Some canonical =>
           if key_verify expected_owner canonical (signature d) then Valid else InvalidSignature
       end.

End descriptor.

Record FileAccessRequest : Type := mkRequest {
  filename : Text;
  expected_size : N;
  request_file_id : Text;
  expected_content_hash : Bytes;
  expected_version : N
}.

Definition new_request (file_id : Text) (hash : Bytes) (version : N) : FileAccessRequest :=
  mkRequest (txt "unknown") 0 file_id hash version.

(** [validate]; the texts of the errors are left out. *)
Definition validate (r : FileAccessRequest) : res FileAccessErrorCode unit :=
  ensure (negb (bool_decide (request_file_id r = []))) InvalidRequestCode;;
  ensure (negb (bool_decide (expected_content_hash r = replicate 32 x00))) InvalidRequestCode;;
  ensure (negb (bool_decide (47%N ∈ filename r) || bool_decide (92%N ∈ filename r))) InvalidRequestCode;;
  ensure (bool_decide (text_len (filename r) ≤ MAX_FILENAME_BYTES)) InvalidRequestCode;;
  ensure (negb (negb (bool_decide (filename r = [])) && existsb is_control (filename r)))
    InvalidRequestCode.

Definition validate_request_version (r : FileAccessRequest) : res FileAccessErrorCode unit := Ok tt.

Inductive FileAccessResponse : Type :=
| Granted (d : SignedDownloadDescriptor)
| UnsupportedVersion | PermissionDenied | NotFound | Disabled | Changed | Unavailable | Busy
| RateLimited
| VersionMismatch (current_version : N).

(** [From<FileAccessErrorCode>] *)
Definition response_of (code : FileAccessErrorCode) : FileAccessResponse :=
  match code with
  | UnsupportedVersionCode => UnsupportedVersion
  | PermissionDeniedCode => PermissionDenied
  | NotFoundCode => NotFound
  | InvalidRequestCode => NotFound
  | RateLimitedCode => RateLimited
  | BusyCode => Busy
  | ResponseTooLargeCode => Unavailable
  | InternalErrorCode => Unavailable
  end.

Record FileAccessWireRequest : Type := mkWireRequest {
  wire_version : N;
  inner : FileAccessRequest
}.

Definition wire_request (r : FileAccessRequest) : FileAccessWireRequest :=
  mkWireRequest FILE_ACCESS_WIRE_VERSION r.

Definition validate_version (w : FileAccessWireRequest) : res FileAccessErrorCode unit :=
  ensure (bool_decide (wire_version w ∈ SUPPORTED_FILE_ACCESS_VERSIONS)) UnsupportedVersionCode.

End file_access_protocol.

Module nonce.

Inductive NonceCheck : Type := Accepted | Replayed.

#[export] Instance nonce_check_eq_dec : EqDecision NonceCheck.
Proof. solve_decision. Defined.

(** The nonces that were seen, with the expiry of their descriptors. *)
Abbreviation NonceStore := (gmap Bytes N).

Definition new : NonceStore := ∅.

Definition evict_expired (now_ms : N) (s : NonceStore) : NonceStore :=
  filter (λ x, now_ms < x.2)%N s.

Definition check (n : Bytes) (now_ms : N) (s : NonceStore) : NonceCheck * NonceStore :=
  let s := evict_expired now_ms s in
  (if decide (is_Some (s !! n)) then Replayed else Accepted, s).

Definition check_and_mark (n : Bytes) (expires_at_ms now_ms : N) (s : NonceStore)
    : NonceCheck * NonceStore :=
  let s := evict_expired now_ms s in
  if decide (is_Some (s !! n)) then (Replayed, s)
  else (Accepted, <[n := expires_at_ms]> s).

End nonce.

Module limits.

(** Durations in milliseconds. *)
Record PrepareConfig : Type := mkPrepareConfig {
  max_concurrent_preparations : nat;
  max_file_size_bytes : N;
  prepare_timeout : N
}.

Definition prepare_config_default : PrepareConfig := mkPrepareConfig 4 1073741824 60000.

Inductive PrepareError : Type :=
| PrepareBusy
| TooLarge (size_bytes max_bytes : N)
| PrepareTimeout (timeout : N).

(** The semaphore is the number of permits left. *)
Record PrepareLimiter : Type := mkPrepareLimiter {
  prepare_config : PrepareConfig;
  prepare_left : nat
}.

Definition new_prepare (c : PrepareConfig) : PrepareLimiter :=
  mkPrepareLimiter c (Nat.max (max_concurrent_preparations c) 1).

(** The timeout of the permit that is taken. *)
Definition try_begin (size : N) (l : PrepareLimiter) : res PrepareError N * PrepareLimiter :=
  if bool_decide (max_file_size_bytes (prepare_config l) < size)%N
  then (Err (TooLarge size (max_file_size_bytes (prepare_config l))), l)
  else match prepare_left l with
       | 0 => (Err PrepareBusy, l)
       | S n => (Ok (prepare_timeout (prepare_config l)), mkPrepareLimiter (prepare_config l) n)
       end.

(** The permit is dropped. *)
Definition drop_prepare (l : PrepareLimiter) : PrepareLimiter :=
  mkPrepareLimiter (prepare_config l) (S (prepare_left l)).

Record UploadLimitsConfig : Type := mkUploadConfig {
  max_active_uploads : nat;
  max_uploads_per_peer : nat;
  max_queued_uploads : nat;
  max_concurrent_verifications : nat;
  request_timeout : N
}.

Definition upload_config_default : UploadLimitsConfig := mkUploadConfig 8 2 32 4 60000.

Inductive UploadError : Type := QueueFull | PeerLimitReached | VerificationBusy.

(** [UploadState] *)
Record UploadState : Type := mkUploadState {
  queued : nat;
  queued_by_peer : gmap Text nat;
  active_by_peer : gmap Text nat
}.

(** The semaphores are the numbers of permits left. *)
Record UploadLimiter : Type := mkUploadLimiter {
  config : UploadLimitsConfig;
  active_left : nat;
  verifications_left : nat;
  peer_slots : gmap Text nat;
  state : UploadState
}.

Implicit Types (l : UploadLimiter) (peer : Text).

Definition new (c : UploadLimitsConfig) : UploadLimiter :=
  let clamped := mkUploadConfig (Nat.max (max_active_uploads c) 1) (Nat.max (max_uploads_per_peer c) 1)
                   (Nat.max (max_queued_uploads c) 1) (Nat.max (max_concurrent_verifications c) 1)
                   (N.max (request_timeout c) 1000) in
  mkUploadLimiter clamped (max_active_uploads clamped) (max_concurrent_verifications clamped) ∅
    (mkUploadState 0 ∅ ∅).

Definition set_state (st : UploadState) l : UploadLimiter :=
  mkUploadLimiter (config l) (active_left l) (verifications_left l) (peer_slots l) st.
Definition set_active_left (n : nat) l : UploadLimiter :=
  mkUploadLimiter (config l) n (verifications_left l) (peer_slots l) (state l).
Definition set_verifications_left (n : nat) l : UploadLimiter :=
  mkUploadLimiter (config l) (active_left l) n (peer_slots l) (state l).
Definition set_peer_slots (m : gmap Text nat) l : UploadLimiter :=
  mkUploadLimiter (config l) (active_left l) (verifications_left l) m (state l).

(** [map.get(peer).copied().unwrap_or(0)] *)
Definition tally (m : gmap Text nat) peer : nat := default 0 (m !! peer).

(** [*map.entry(peer).or_default() += 1] *)
Definition tally_add peer (m : gmap Text nat) : gmap Text nat := <[peer := S (tally m peer)]> m.

(** [saturating_sub(1)], removing an entry that becomes zero *)
Definition tally_sub peer (m : gmap Text nat) : gmap Text nat :=
  match m !! peer with
  | None => m
  | Some n => if decide (pred n = 0) then delete peer m else <[peer := pred n]> m
  end.

Definition try_enqueue peer l : res UploadError unit * UploadLimiter :=
  let st := state l in
  if decide (max_queued_uploads (config l) ≤ queued st) then (Err QueueFull, l)
  else if decide (max_uploads_per_peer (config l) ≤
                    tally (queued_by_peer st) peer + tally (active_by_peer st) peer)
  then (Err PeerLimitReached, l)
  else (Ok tt, set_state (mkUploadState (S (queued st)) (tally_add peer (queued_by_peer st))
                            (active_by_peer st)) l).

Definition try_acquire_verification l : res UploadError unit * UploadLimiter :=
  match verifications_left l with
  | 0 => (Err VerificationBusy, l)
  | S n => (Ok tt, set_verifications_left n l)
  end.

Definition release_queued peer l : UploadLimiter :=
  let st := state l in
  set_state (mkUploadState (pred (queued st)) (tally_sub peer (queued_by_peer st))
               (active_by_peer st)) l.

(** [peer_semaphore]: the permits left of the peer, after creating its semaphore. *)
Definition peer_semaphore peer l : nat * UploadLimiter :=
  match peer_slots l !! peer with
  | Some n => (n, l)
  | None =>
      let n := max_uploads_per_peer (config l) in (n, set_peer_slots (<[peer := n]> (peer_slots l)) l)
  end.

Definition mark_active peer l : UploadLimiter :=
  let st := state l in
  set_state (mkUploadState (queued st) (queued_by_peer st) (tally_add peer (active_by_peer st))) l.

Definition release_active peer l : UploadLimiter :=
  let st := state l in
  set_state (mkUploadState (queued st) (queued_by_peer st) (tally_sub peer (active_by_peer st))) l.

End limits.

(** ** The tables and the queries *)
Module storage.

Record SharedFileRow : Type := mkShared {
  row_content_hash : Text;
  row_profile_user_id : Text;
  row_metadata_id : Text;
  row_display_filename : Text;
  row_description : option Text;
  offered : bool;
  row_created_at_ms : N;
  row_updated_at_ms : N;
  row_version : N
}.

Record SharedFilePermission : Type := mkPermission {
  perm_content_hash : Text;
  grantor_user_id : Text;
  grantee_user_id : Text;
  permission : Text;
  perm_created_at_ms : N;
  perm_expires_at_ms : option N
}.

Definition is_active_at (now_ms : N) (p : SharedFilePermission) : bool :=
  match perm_expires_at_ms p with
  | None => true
  | Some expires => bool_decide (now_ms < expires)%N
  end.

(** [FileObject], and the column [blob_hash] of its row. *)
Record FileObject : Type := mkObject {
  object_content_hash : Text;
  object_size : N;
  object_mime_type : Text;
  object_filename : Text;
  object_created_at_ms : N;
  object_data : option Bytes;
  object_source_path : option Text;
  object_blob_hash : option Text
}.

Inductive RingPermission : Type := Read | Write | Delete.

#[export] Instance ring_permission_eq_dec : EqDecision RingPermission.
Proof. solve_decision. Defined.

Record Ring : Type := mkRing {
  ring_id : N;
  ring_owner : Text;
  is_open : bool
}.

Record Db : Type := mkDb {
  shared_files : list SharedFileRow;
  file_objects : list FileObject;
  shared_file_permissions : list SharedFilePermission;
  rings : list Ring;
  ring_members : list (N * Text);
  ring_resource_permissions : list (N * Text * RingPermission)
}.

Implicit Types (db : Db).

Definition get_shared_file_by_metadata_id (profile metadata : Text) db : option SharedFileRow :=
  head (filter (λ r, row_profile_user_id r = profile ∧ row_metadata_id r = metadata) (shared_files db)).

Definition get_file_object (hash : Text) db : option FileObject :=
  head (filter (λ o, object_content_hash o = hash) (file_objects db)).

(** [ORDER BY created_at_ms DESC] *)
Definition newer (p q : SharedFilePermission) : Prop := (perm_created_at_ms q ≤ perm_created_at_ms p)%N.

#[export] Instance newer_dec : RelDecision newer.
Proof. intros p q. unfold newer. apply _. Defined.

Definition list_permissions_for_grantee (grantee : Text) db : list SharedFilePermission :=
  merge_sort newer (filter (λ p, grantee_user_id p = grantee) (shared_file_permissions db)).

Definition count_read_grants_for_file (hash grantor : Text) (now_ms : N) db : nat :=
  length (filter (λ p, perm_content_hash p = hash ∧ grantor_user_id p = grantor ∧
                         permission p = txt "read" ∧ is_active_at now_ms p = true)
            (shared_file_permissions db)).

Definition check_ring_access (owner req hash : Text) (perm : RingPermission) db : bool :=
  existsb (λ rp, existsb (λ r,
      bool_decide (ring_id r = rp.1.1) && bool_decide (ring_owner r = owner) &&
      bool_decide (rp.1.2 = hash) && bool_decide (rp.2 = perm) &&
      (is_open r || existsb (λ m, bool_decide (m.1 = ring_id r) && bool_decide (m.2 = req))
                      (ring_members db)))
    (rings db)) (ring_resource_permissions db).

End storage.

(** ** Preparation *)
Module prepare.
Import file_access_protocol storage.

Inductive BlobStatus : Type := Complete (size : N) | Partial | StatusNotFound.

Record Metadata : Type := mkMetadata {
  is_dir : bool;
  is_symlink : bool;
  meta_len : N
}.

(** What the blob store and the file system answer during one preparation; [None] and [false]
    are errors. *)
Record Outside : Type := mkOutside {
  parse_hash : Text → option Bytes;
  store_has : Bytes → option bool;
  store_status : Bytes → option BlobStatus;
  add_slice : Bytes → bool;
  symlink_metadata : Text → option Metadata;
  canonicalize : Text → option Text;
  read_file : Text → option Bytes;
  add_path : Text → bool
}.

Section prepare.
Context `{!Hasher} (out : Outside).

(** [if !b { return Err(..) }] *)
Definition when (b : bool) : option unit := if b then Some tt else None.

(** The size and the hash a caller asks for. *)
Definition verify_metadata (o : FileObject) (verify_hash : option Text) (verify_size : option N) : bool :=
  match verify_size with
  | Some expected => bool_decide (object_size o = expected)
  | None => true
  end &&
  match verify_hash with
  | Some expected => bool_decide (object_content_hash o = to_ascii_lowercase expected)
  | None => true
  end.

(** Two queries: [None] is a query that fails; the second one's failure counts as no hash. *)
Definition prepare_imported_file (db1 db2 : option Db) (content_hash : Text)
    (verify_hash : option Text) (verify_size : option N) : option PreparedFile :=
  db ← db1; o ← get_file_object content_hash db;
  let blob_hash_str := (db2 ≫= get_file_object content_hash) ≫= object_blob_hash in
  when (match blob_hash_str with
         | Some hash_str =>
             match parse_hash out hash_str with
             | None => false
             | Some h =>
                 match store_has out h, store_status out h with
                 | Some true, Some (Complete size) => bool_decide (size = object_size o)
                 | _, _ => false
                 end
             end
         | None =>
             match object_data o with
             | Some data =>
                 match store_has out (blake3 data) with
                 | Some true => true
                 | Some false => add_slice out data
                 | None => false
                 end
             | None => false
             end
         end);;
  when (verify_metadata o verify_hash verify_size);;
  Some (mkPrepared (object_content_hash o) (object_size o) Raw (object_mime_type o)
          (object_filename o)).

Definition prepare_referenced_file (db1 : option Db) (content_hash : Text)
    (verify_hash : option Text) (verify_size : option N) : option PreparedFile :=
  db ← db1; o ← get_file_object content_hash db;
  src ← object_source_path o;
  metadata ← symlink_metadata out src;
  abs_path ← canonicalize out src;
  when (negb (is_dir metadata));;
  when (negb (is_symlink metadata));;
  when (match verify_size with
         | Some expected => bool_decide (meta_len metadata = expected)
         | None => true
         end);;
  when (match verify_hash with
         | Some expected =>
             match read_file out src with
             | Some data => bool_decide (to_hex (blake3 data) = to_ascii_lowercase expected)
             | None => false
             end
         | None => true
         end);;
  when (add_path out abs_path);;
  Some (mkPrepared (object_content_hash o) (meta_len metadata) Raw (object_mime_type o)
          (object_filename o)).

End prepare.
End prepare.

(** ** The decision *)
Module policy.
Import file_access_protocol limits storage prepare.

#[local] Existing Instance friends.relationship_eq_dec.

Definition DOWNLOAD_DESCRIPTOR_TTL : N := 60000.

Section policy.
Context `{!Ed25519, !Hasher, !KeyText, !Postcard DescriptorSignedPayloadV2}.
Context {EndpointAddr Ticket MailboxKey : Type}.

(** [FileAccessHandler]; the stores behind [Arc] are arguments where they are used. *)
Record FileAccessHandler : Type := mkHandler {
  secret_key : SecretKey;
  profile_user_id : Text;
  handler_friends : @friends.FriendsStore EndpointAddr Ticket MailboxKey
}.

(** What one request finds: the answers of its queries in the order they are made, the clock
    where it is read, the permits left, the outside, whether the preparation is in time, and
    the random nonce. *)
Record Surroundings : Type := mkSurroundings {
  shared_db : option Db;
  ring_db : option Db;
  permissions_db : option Db;
  permissions_now : N;
  count_db : option Db;
  count_now : N;
  object_db : option Db;
  limiter : PrepareLimiter;
  prepare_db1 : option Db;
  prepare_db2 : option Db;
  outside : Outside;
  in_time : bool;
  permissions_db2 : option Db;
  permissions_now2 : N;
  count_db2 : option Db;
  count_now2 : N;
  issue_now : N;
  issue_nonce : Bytes
}.

(** [access_diag]: the slice of the file id. *)
Definition access_diag (file_id : Text) : res FileAccessResponse unit :=
  checked (slice_to file_id (Nat.min (text_len file_id) 16)) ≫= λ _, mret tt.

(** [access_diag(..); return r] *)
Definition leave {A} (file_id : Text) (r : FileAccessResponse) : res FileAccessResponse A :=
  access_diag file_id;; Err r.

(** The loop over the permissions: [None] is an active denial, otherwise whether there is an
    active grant. *)
Fixpoint grants_loop (profile hash : Text) (now_ms : N) (perms : list SharedFilePermission)
    (explicitly_granted : bool) : option bool :=
  match perms with
  | [] => Some explicitly_granted
  | p :: perms' =>
      if bool_decide (grantor_user_id p = profile) && bool_decide (perm_content_hash p = hash) then
        if negb (is_active_at now_ms p) then grants_loop profile hash now_ms perms' explicitly_granted
        else if bool_decide (permission p = txt "deny") then None
        else if bool_decide (permission p = txt "read") then grants_loop profile hash now_ms perms' true
        else grants_loop profile hash now_ms perms' explicitly_granted
      else grants_loop profile hash now_ms perms' explicitly_granted
  end.

Implicit Types (h : FileAccessHandler) (w : Surroundings) (r : FileAccessRequest).

Definition relationship_of h (req : PublicKey) : option friends.FriendRelationship :=
  friends.relationship <$> friends.get (key_text req) (handler_friends h).

(** The mode of the file: with read grants the requester needs one, otherwise it needs to be a
    friend; a ring overrides both. *)
Definition mode_allows h (req : PublicKey) (ring granted any_grants : bool) : bool :=
  ring ||
  if any_grants then granted
  else bool_decide (relationship_of h req = Some friends.Friends).

(** [bounded_prepare]: by reference or imported. *)
Definition bounded_prepare (hash : Text) (o : FileObject) w : option PreparedFile :=
  if bool_decide (is_Some (object_source_path o)) then
    prepare_referenced_file (outside w) (prepare_db1 w) hash None (Some (object_size o))
  else
    prepare_imported_file (outside w) (prepare_db1 w) (prepare_db2 w) hash None (Some (object_size o)).

(** Stages 8 to 10: the content and the version again, and the descriptor. *)
Definition issue h (req : PublicKey) r w (row : SharedFileRow) (prepared : PreparedFile)
    : res FileAccessResponse SignedDownloadDescriptor :=
  let id := request_file_id r in
  (if bool_decide (to_hex (expected_content_hash r) = row_content_hash row) then Ok tt
   else leave id Changed);;
  (if bool_decide (expected_version r = row_version row) then Ok tt
   else leave id (VersionMismatch (row_version row)));;
  raw_hash ← match from_hex (row_content_hash row) with
             | Some b => if bool_decide (length b = 32) then Ok b else Err (response_of InternalErrorCode)
             | None => Err (response_of InternalErrorCode)
             end;
  d ← checked (sign_download_descriptor (secret_key h) req id raw_hash (prepared_size prepared) Raw
                 (issue_now w) (issue_now w + DOWNLOAD_DESCRIPTOR_TTL) (issue_nonce w));
  access_diag id;;
  Ok d.

(** Stages 6 and 7: the permissions again, after the preparation. *)
Definition recheck h (req : PublicKey) r w (row : SharedFileRow) (ring : bool) (prepared : PreparedFile)
    : res FileAccessResponse SignedDownloadDescriptor :=
  let id := request_file_id r in
  let me := profile_user_id h in
  perms2 ← match permissions_db2 w with
           | Some db => Ok (list_permissions_for_grantee (key_text req) db)
           | None => leave id (response_of InternalErrorCode)
           end;
  granted2 ← match grants_loop me (row_content_hash row) (permissions_now2 w) perms2 false with
             | Some b => Ok b
             | None => leave id PermissionDenied
             end;
  any_grants2 ← match count_db2 w with
                | Some db => Ok (bool_decide (0 < count_read_grants_for_file (row_content_hash row) me
                                                    (count_now2 w) db))
                | None => leave id (response_of InternalErrorCode)
                end;
  (if mode_allows h req ring granted2 any_grants2 then Ok tt else leave id PermissionDenied);;
  issue h req r w row prepared.

Definition check_permission_res h (req : PublicKey) r w : res FileAccessResponse SignedDownloadDescriptor :=
  let id := request_file_id r in
  let me := profile_user_id h in
  match validate r with
  | Err code => leave id (response_of code)
  | Panicked => Panicked
  | Ok _ =>
  row ← match shared_db w with
        | Some db => match get_shared_file_by_metadata_id me id db with
                     | Some row => Ok row
                     | None => leave id NotFound
                     end
        | None => leave id (response_of InternalErrorCode)
        end;
  (if negb (offered row) then leave id Disabled else Ok tt);;
  (if bool_decide (relationship_of h req = Some friends.Blocked) then leave id PermissionDenied
   else Ok tt);;
  ring ← match ring_db w with
         | Some db => Ok (check_ring_access me (key_text req) (row_content_hash row) Read db)
         | None => leave id (response_of InternalErrorCode)
         end;
  perms ← ok_or (response_of InternalErrorCode)
            (list_permissions_for_grantee (key_text req) <$> permissions_db w);
  granted ← ok_or PermissionDenied
              (grants_loop me (row_content_hash row) (permissions_now w) perms false);
  any_grants ← ok_or (response_of InternalErrorCode)
                 ((λ db, bool_decide (0 < count_read_grants_for_file (row_content_hash row) me
                                           (count_now w) db)) <$> count_db w);
  ensure (mode_allows h req ring granted any_grants) PermissionDenied;;
  ensure (bool_decide (to_hex (expected_content_hash r) = row_content_hash row)) Changed;;
  ensure (negb (negb (bool_decide (expected_version r = 0%N)) &&
                negb (bool_decide (expected_version r = row_version row))))
    (VersionMismatch (row_version row));;
  o ← match object_db w with
      | Some db => match get_file_object (row_content_hash row) db with
                   | Some o => Ok o
                   | None => leave id Unavailable
                   end
      | None => leave id (response_of InternalErrorCode)
      end;
  match (try_begin (object_size o) (limiter w)).1 with
  | Err PrepareBusy => leave id Busy
  | Err _ => leave id Unavailable
  | Panicked => Panicked
  | Ok _ =>
  (if in_time w then Ok tt else leave id Unavailable);;
  prepared ← match bounded_prepare (row_content_hash row) o w with
             | Some p => Ok p
             | None => leave id (response_of InternalErrorCode)
             end;
  recheck h req r w row ring prepared
  end
  end.

Definition check_permission h (req : PublicKey) r w : outcome FileAccessResponse :=
  match check_permission_res h req r w with
  | Ok d => Done (Granted d)
  | Err e => Done e
  | Panicked => Panic
  end.

End policy.
End policy.

(** ** Serving requests *)
Module serving.
Import file_access_protocol limits.

(** Where a request is in [serve_file_access]: reading its payload, waiting for an active slot,
    for the slot of its peer, between [release_queued] and [mark_active] of
    [UploadPermit::start], active, checking the permission, and leaving: [ActiveUpload] first
    counts itself out and then returns its permits. *)
Inductive Phase : Type :=
| Reading | Waiting | HasGlobal | HasSlots | Unqueued | Active | Checking | Leaving | Freed | Gone.

#[export] Instance phase_eq_dec : EqDecision Phase.
Proof. solve_decision. Defined.

(** What is read: nothing or an error, bytes that do not decode, or a request. *)
Inductive Payload : Type :=
| NoPayload
| Undecodable
| Decoded (w : FileAccessWireRequest).

(** The answer that is written. *)
Inductive Answer : Type :=
| Failed (code : FileAccessErrorCode)
| Success (r : FileAccessResponse).

Record Request : Type := mkServing {
  peer : Text;
  phase : Phase;
  wire : option FileAccessWireRequest
}.

Record Server : Type := mkServer {
  uploads : UploadLimiter;
  requests : gmap N Request
}.

Implicit Types (l : UploadLimiter) (s : Server).

(** What the environment decides for a step: the payload, and what the permission check
    answers ([Module policy]). *)
Record Input : Type := mkInput {
  payload : Payload;
  decision : FileAccessResponse
}.

(** [?] on both version checks *)
Definition versions_ok (w : FileAccessWireRequest) : res FileAccessErrorCode unit :=
  validate_version w;; validate_request_version (inner w).

Definition step_request (i : Input) (q : Request) l : Request * UploadLimiter * list Answer :=
  let to ph := mkServing (peer q) ph (wire q) in
  match phase q with
  | Reading =>
      match payload i with
      | NoPayload => (to Gone, release_queued (peer q) l, [])
      | Undecodable => (to Gone, release_queued (peer q) l, [Failed InvalidRequestCode])
      | Decoded w =>
          match versions_ok w with
          | Ok _ => (mkServing (peer q) Waiting (Some w), l, [])
          | Err code => (to Gone, release_queued (peer q) l, [Failed code])
          | Panicked => (to Gone, release_queued (peer q) l, [])
          end
      end
  | Waiting =>
      match active_left l with
      | 0 => (q, l, [])
      | S n => (to HasGlobal, set_active_left n l, [])
      end
  | HasGlobal =>
      match peer_semaphore (peer q) l with
      | (0, l) => (q, l, [])
      | (S n, l) => (to HasSlots, set_peer_slots (<[peer q := n]> (peer_slots l)) l, [])
      end
  | HasSlots => (to Unqueued, release_queued (peer q) l, [])
  | Unqueued => (to Active, mark_active (peer q) l, [])
  | Active =>
      match try_acquire_verification l with
      | (Ok _, l) => (to Checking, l, [])
      | (Err VerificationBusy, l) => (to Leaving, l, [Failed RateLimitedCode])
      | (_, l) => (to Leaving, l, [Failed BusyCode])
      end
  | Checking =>
      (to Leaving, set_verifications_left (S (verifications_left l)) l, [Success (decision i)])
  | Leaving => (to Freed, release_active (peer q) l, [])
  | Freed =>
      (to Gone,
       set_active_left (S (active_left l))
         (set_peer_slots (<[peer q := S (tally (peer_slots l) (peer q))]> (peer_slots l)) l), [])
  | Gone => (q, l, [])
  end.

(** The timeout of the handler drops the request where it waits. *)
Definition cancel_request (q : Request) l : Request * UploadLimiter :=
  let to ph := mkServing (peer q) ph (wire q) in
  match phase q with
  | Reading | Waiting => (to Gone, release_queued (peer q) l)
  | HasGlobal => (to Gone, release_queued (peer q) (set_active_left (S (active_left l)) l))
  | Checking => (to Leaving, set_verifications_left (S (verifications_left l)) l)
  | _ => (q, l)
  end.

Inductive Action : Type :=
| Arrive (k : N) (p : Text)
| Step (k : N) (i : Input)
| Cancel (k : N).

Definition server_step (a : Action) s : Server * list Answer :=
  match a with
  | Arrive k p =>
      match requests s !! k with
      | Some _ => (s, [])
      | None =>
          match try_enqueue p (uploads s) with
          | (Ok _, l) => (mkServer l (<[k := mkServing p Reading None]> (requests s)), [])
          | (Err PeerLimitReached, l) => (mkServer l (requests s), [Failed RateLimitedCode])
          | (_, l) => (mkServer l (requests s), [Failed BusyCode])
          end
      end
  | Step k i =>
      match requests s !! k with
      | None => (s, [])
      | Some q =>
          let '(q, l, out) := step_request i q (uploads s) in
          (mkServer l (<[k := q]> (requests s)), out)
      end
  | Cancel k =>
      match requests s !! k with
      | None => (s, [])
      | Some q =>
          let '(q, l) := cancel_request q (uploads s) in
          (mkServer l (<[k := q]> (requests s)), [])
      end
  end.

Definition server_run (acts : list Action) s : Server := foldl (λ s a, (server_step a s).1) s acts.

Definition start (c : UploadLimitsConfig) : Server := mkServer (new c) ∅.

End serving.
