(* ===== verification/FileAccessFacts.v ===== *)
(** * Facts about file access

    Descriptors verify exactly for their owner, requester and lifetime; a nonce is accepted
    once while its descriptor lives, but for its last millisecond.  A grant is issued only for
    an offered file to a requester that may read it, at both checks; in a steady database the
    conditions are exactly those.  Over every interleaving of requests the limiter counts
    right, keeps its bounds, leaks nothing and does not deadlock; and the cases in which the
    code does something else than its comments say. *)

From Stdlib Require Import Strings.Byte NArith.
From stdpp Require Import prelude gmap sorting strings.
From S2P Require Import Prelude Text Signing Mailbox Friends Tunnel Concrete FileAccess.

(** ** Hexadecimal text *)

(** ** Descriptors *)

Module descriptor_facts.
Import file_access_protocol.

Section facts.
Context `{!Ed25519, !Postcard DescriptorSignedPayloadV2}.
Implicit Types (d : SignedDownloadDescriptor).

Lemma verify_valid d owner req t :
  verify_download_descriptor d owner req t = Valid ↔
  signed_version d = DESCRIPTOR_SIGNED_PAYLOAD_VERSION ∧ (issued_at_ms d ≤ t ≤ expires_at_ms d)%N ∧
  owner_id d = owner ∧ requester d = req ∧
  ∃ b, canonical_bytes (from_descriptor d) = Some b ∧ key_verify owner b (signature d) = true.
Proof.
  unfold verify_download_descriptor. repeat case_bool_decide; simpl; try (split; [done|naive_solver lia]).
  destruct (canonical_bytes _) as [b|]; [|split; [done|naive_solver]].
  destruct (key_verify owner b _) eqn:Hk.
  - split; [|done]. intros _. split_and!; [done|lia|lia|done|done|eauto].
  - split; [done|]. intros (_ & _ & _ & _ & b' & [= <-] & Hb). congruence.
Qed.

Lemma sign_fields sk req id hash size f now expires n d :
  sign_download_descriptor sk req id hash size f now expires n = Done d →
  owner_id d = public sk ∧ requester d = req ∧ shared_file_id d = id ∧ blob_hash d = hash ∧
  size_bytes d = size ∧ nonce d = n ∧ issued_at_ms d = now ∧ expires_at_ms d = expires ∧
  ∀ owner req' t, verify_download_descriptor d owner req' t = Valid ↔
    owner = public sk ∧ req' = req ∧ (now ≤ t ≤ expires)%N.
Proof.
  unfold sign_download_descriptor. destruct (canonical_bytes _) as [b|] eqn:Hb; [|done].
  intros [= <-]. split_and!; try done. intros owner req' t. rewrite verify_valid. simpl.
  split; [intros (_ & Ht & <- & <- & _); done|]. intros (-> & -> & Ht). split_and!; try done; try lia.
  exists b. split; [exact Hb|]. apply key_verify_sign.
Qed.

(** a signed descriptor verifies exactly for the owner that signed it, the requester it
    names and the time from its issue to its expiry, both included. *)
Theorem descriptor_window_exact sk req id hash size f now expires n d :
  sign_download_descriptor sk req id hash size f now expires n = Done d →
  ∀ owner req' t, verify_download_descriptor d owner req' t = Valid ↔
    owner = public sk ∧ req' = req ∧ (now ≤ t ≤ expires)%N.
Proof. intros (_ & _ & _ & _ & _ & _ & _ & _ & Hv)%sign_fields. exact Hv. Qed.

(** a signature covers every field: if the signature of a descriptor was made over the
    bytes of [d], then a descriptor with other fields is verified over other bytes. *)
Theorem descriptor_fields_bound d d' b :
  canonical_bytes (from_descriptor d) = Some b → canonical_bytes (from_descriptor d') = Some b →
  signed_version d = signed_version d' → signature d = signature d' → d = d'.
Proof.
  intros Hd Hd' Hv Hs. pose proof (to_stdvec_inj _ _ _ Hd Hd') as Heq. unfold from_descriptor in Heq.
  destruct d, d'. simpl in *. subst. by inversion Heq; subst.
Qed.

End facts.
End descriptor_facts.

(** ** Nonces *)

Module nonce_facts.
Import FileAccess.nonce.

(** Presentations of nonces, each with its time; [e] is the expiry of the descriptor. *)
Section facts.
Context (e : Bytes → N).
Implicit Types (s : NonceStore) (n : Bytes) (l : list (Bytes * N)).

Fixpoint present l s : list (Bytes * N * NonceCheck) :=
  match l with
  | [] => []
  | (n, now) :: l' =>
      let '(c, s) := check_and_mark n (e n) now s in (n, now, c) :: present l' s
  end.

Definition accepted n (out : list (Bytes * N * NonceCheck)) : nat :=
  length (filter (λ x, x.1.1 = n ∧ (x.1.2 < e n)%N ∧ x.2 = Accepted) out).

Definition recorded s : Prop := ∀ n x, s !! n = Some x → x = e n.

Lemma lookup_evict now s n x :
  evict_expired now s !! n = Some x ↔ s !! n = Some x ∧ (now < x)%N.
Proof. unfold evict_expired. rewrite map_lookup_filter_Some. done. Qed.

Lemma check_and_mark_recorded n now s :
  recorded s → recorded (check_and_mark n (e n) now s).2.
Proof.
  intros Hs m x. unfold check_and_mark. case_decide; simpl.
  - intros [Hx _]%lookup_evict. by apply Hs.
  - destruct (decide (n = m)) as [->|]; [rewrite lookup_insert_eq; by intros [= <-]|].
    rewrite lookup_insert_ne by done. intros [Hx _]%lookup_evict. by apply Hs.
Qed.

Lemma check_and_mark_keeps n m now s :
  recorded s → is_Some (s !! m) → (now < e m)%N → is_Some ((check_and_mark n (e n) now s).2 !! m).
Proof.
  intros Hs [x Hx] Hnow. assert (evict_expired now s !! m = Some x) as Hev.
  { rewrite lookup_evict. split; [done|]. by rewrite (Hs _ _ Hx). }
  unfold check_and_mark. case_decide; simpl; [by exists x|].
  destruct (decide (n = m)) as [->|]; [rewrite lookup_insert_eq; eauto|].
  rewrite lookup_insert_ne by done. eauto.
Qed.

(** Once recorded, a nonce is not accepted while its descriptor lives. *)
Lemma present_recorded l s n t :
  StronglySorted (λ a b, (a.2 ≤ b.2)%N) l → Forall (λ a, (t ≤ a.2)%N) l →
  recorded s → (is_Some (s !! n) ∨ (e n ≤ t)%N) → accepted n (present l s) = 0.
Proof.
  revert s t. induction l as [|[m now] l IH]; intros s t Hsort Hle Hrec Hn; simpl; [done|].
  apply StronglySorted_cons in Hsort as [Hf Hsort]. apply Forall_cons in Hle as [Ht Hle]. simpl in *.
  pose proof (check_and_mark_recorded m now s Hrec) as Hrec'.
  pose proof (check_and_mark_keeps m n now s Hrec) as Hkeep.
  destruct (check_and_mark m (e m) now s) as [c s'] eqn:Hc. simpl in *.
  assert (is_Some (s' !! n) ∨ (e n ≤ now)%N) as Hn'.
  { destruct (decide (now < e n)%N); [left; apply Hkeep; [|done]|right; lia].
    destruct Hn; [done|lia]. }
  unfold accepted. rewrite filter_cons. rewrite decide_False.
  - by apply (IH s' now).
  - simpl. intros (-> & Hlt & ->). destruct Hn as [[x Hx]|]; [|lia].
    unfold check_and_mark in Hc. rewrite decide_True in Hc; [done|].
    exists x. apply lookup_evict. split; [done|]. by rewrite (Hrec _ _ Hx).
Qed.

(** single use: when the clock does not go back, a nonce is accepted at most once before
    its descriptor expires, however often and in whatever order nonces are presented. *)
Theorem nonce_single_use l n :
  StronglySorted (λ a b, (a.2 ≤ b.2)%N) l → accepted n (present l ∅) ≤ 1.
Proof.
  intros Hsort. assert (∀ s, recorded s → accepted n (present l s) ≤ 1) as Hgen.
  { induction l as [|[m now] l IH]; intros s Hrec; simpl; [unfold accepted; simpl; lia|].
    apply StronglySorted_cons in Hsort as [Hf Hsort].
    pose proof (check_and_mark_recorded m now s Hrec) as Hrec'.
    destruct (check_and_mark m (e m) now s) as [c s'] eqn:Hc. simpl in Hrec'.
    unfold accepted. rewrite filter_cons. case_decide as Hd; [|by apply IH].
    simpl in *. destruct Hd as (-> & Hlt & ->). fold (accepted n (present l s')).
    rewrite (present_recorded l s' n now); [done|done|done|done|]. left.
    unfold check_and_mark in Hc. case_decide; simplify_eq. rewrite lookup_insert_eq. eauto. }
  apply Hgen. intros m x. by rewrite lookup_empty.
Qed.

End facts.
(** the last instant: at the very millisecond of its expiry a descriptor still verifies,
    but its nonce is no longer remembered: it is accepted again and again. *)
Theorem last_instant_replayed `{!Ed25519, !Postcard file_access_protocol.DescriptorSignedPayloadV2}
    sk req id hash size f now expires n d s :
  file_access_protocol.sign_download_descriptor sk req id hash size f now expires n = Done d →
  (now ≤ expires)%N → s !! n = None →
  file_access_protocol.verify_download_descriptor d (public sk) req expires = file_access_protocol.Valid ∧
  ∀ k, Nat.iter k (λ '(out, s), let '(c, s) := check_and_mark n expires expires s in (c :: out, s))
         ([], s) = (replicate k Accepted, Nat.iter k (λ s, (check_and_mark n expires expires s).2) s).
Proof.
  intros Hd Hle Hs. split.
  { apply (descriptor_facts.sign_fields sk req id hash size f now expires n d Hd). split_and!; [done|done|lia|lia]. }
  set (step := λ s, (check_and_mark n expires expires s).2).
  assert (∀ s, evict_expired expires s !! n = None →
    check_and_mark n expires expires s = (Accepted, step s) ∧ evict_expired expires (step s) !! n = None)
    as Hstep.
  { intros s' Hn. unfold step, check_and_mark. rewrite decide_False; simpl; [|rewrite Hn; by intros []].
    split; [done|]. apply eq_None_not_Some. intros [x [Hx Hlt]%lookup_evict].
    rewrite lookup_insert_eq in Hx. injection Hx as <-. lia. }
  assert (evict_expired expires s !! n = None) as Hn.
  { apply eq_None_not_Some. intros [x [Hx _]%lookup_evict]. congruence. }
  assert (∀ k, evict_expired expires (Nat.iter k step s) !! n = None) as Hiter.
  { induction k as [|k IH]; [done|]. by apply Hstep. }
  induction k as [|k IH]; [done|]. simpl. rewrite IH.
  by rewrite (proj1 (Hstep _ (Hiter k))).
Qed.

End nonce_facts.

(** ** The decision *)

Module policy_facts.
Import file_access_protocol limits storage prepare policy descriptor_facts.

Section facts.
Context `{!Ed25519, !Hasher, !KeyText, !Postcard DescriptorSignedPayloadV2}.
Context {EndpointAddr Ticket MailboxKey : Type}.
Abbreviation Handler := (FileAccessHandler (EndpointAddr := EndpointAddr) (Ticket := Ticket)
                           (MailboxKey := MailboxKey)).
Implicit Types (h : Handler) (w : Surroundings) (r : FileAccessRequest) (row : SharedFileRow)
  (o : FileObject) (d : SignedDownloadDescriptor) (req : PublicKey).

(** The requester may read the file, as far as one round of queries tells. *)
Definition readable h req row (rdb pdb : option Db) (pnow : N) (cdb : option Db) (cnow : N) : Prop :=
  ∃ ring_state perm_state count_state granted,
    rdb = Some ring_state ∧ pdb = Some perm_state ∧ cdb = Some count_state ∧
    grants_loop (profile_user_id h) (row_content_hash row) pnow
      (list_permissions_for_grantee (key_text req) perm_state) false = Some granted ∧
    mode_allows h req
      (check_ring_access (profile_user_id h) (key_text req) (row_content_hash row) Read ring_state) granted
      (bool_decide (0 < count_read_grants_for_file (row_content_hash row) (profile_user_id h) cnow
                          count_state)) = true.

Record granted_by h req r w row o (p : PreparedFile) : Prop := {
  g_valid : validate r = Ok tt;
  g_row : (shared_db w ≫= get_shared_file_by_metadata_id (profile_user_id h) (request_file_id r)) = Some row;
  g_offered : offered row = true;
  g_blocked : relationship_of h req ≠ Some friends.Blocked;
  g_first : readable h req row (ring_db w) (permissions_db w) (permissions_now w) (count_db w) (count_now w);
  g_hash : row_content_hash row = to_hex (expected_content_hash r);
  g_object : (object_db w ≫= get_file_object (row_content_hash row)) = Some o;
  g_permit : is_ok (try_begin (object_size o) (limiter w)).1 = true;
  g_time : in_time w = true;
  g_prepared : bounded_prepare (row_content_hash row) o w = Some p;
  g_second : readable h req row (ring_db w) (permissions_db2 w) (permissions_now2 w) (count_db2 w) (count_now2 w);
  g_version : expected_version r = row_version row;
  g_length : length (expected_content_hash r) = 32;
  g_diag : access_diag (request_file_id r) = Ok tt
}.

Lemma leave_Ok {A} id e (a : A) : leave id e ≠ Ok a.
Proof. unfold leave. by destruct (access_diag id). Qed.

Lemma validate_cases r : validate r = Ok tt ∨ ∃ c, validate r = Err c.
Proof.
  unfold validate. repeat (match goal with |- context [ensure ?b _] => destruct b end; simpl); eauto.
Qed.

(** Take a chain apart that ends in [Ok], and the choices in it. *)
Ltac chain_inv :=
  repeat (res_inv; simplify_eq/=;
    match goal with
    | H : leave _ _ = Ok _ |- _ => by apply leave_Ok in H
    | H : match ?c with _ => _ end = Ok _ |- _ => destruct c eqn:?
    end); res_inv; simplify_eq/=.

Lemma granted_inv h req r w d :
  check_permission_res h req r w = Ok d →
  ∃ row o p, granted_by h req r w row o p ∧
    sign_download_descriptor (secret_key h) req (request_file_id r) (expected_content_hash r)
      (prepared_size p) Raw (issue_now w) (issue_now w + DOWNLOAD_DESCRIPTOR_TTL) (issue_nonce w) = Done d.
Proof.
  unfold check_permission_res, recheck, issue. cbv zeta. destruct (validate_cases r) as [Hv|[c Hv]]; rewrite Hv;
    [|intros Hl; by apply leave_Ok in Hl].
  intros Hok. chain_inv.
  repeat match goal with
  | H : bool_decide _ = true |- _ => apply bool_decide_eq_true in H
  | H : bool_decide _ = false |- _ => apply bool_decide_eq_false in H
  | H : negb _ = false |- _ => apply negb_false_iff in H
  | H : _ <$> _ = Some _ |- _ => apply fmap_Some in H as (? & ? & ->)
  | H : to_hex _ = row_content_hash _ |- _ => symmetry in H
  | H : checked ?m = Ok _ |- _ => destruct m eqn:?; simplify_eq/=
  | H : access_diag _ = Ok ?u |- _ => destruct u
  end.
  lazymatch goal with
  | Hrow : get_shared_file_by_metadata_id _ _ _ = Some ?row, Ho : get_file_object _ _ = Some ?o,
    Hp : bounded_prepare _ _ _ = Some ?p, Hx : from_hex _ = Some ?l,
    Hh : row_content_hash ?row = to_hex _ |- _ =>
      assert (l = expected_content_hash r) as -> by (rewrite Hh, from_hex_to_hex in Hx; by injection Hx);
      exists row, o, p; split; [|done]
  end.
  split; try done.
  - by simplify_option_eq.
  - eexists _, _, _, _. split_and!; eassumption.
  - by simplify_option_eq.
  - apply is_ok_true. eauto.
  - eexists _, _, _, _. split_and!; eassumption.
Qed.

Lemma access_diag_cases id :
  access_diag id = Ok tt ∨ access_diag id = Panicked.
Proof. unfold access_diag, checked. by destruct (slice_to _ _); [left|right]. Qed.

(** With what is required, and a serializer that does not fail, the answer is a grant. *)
Lemma granted_run h req r w row o p d :
  granted_by h req r w row o p →
  sign_download_descriptor (secret_key h) req (request_file_id r) (expected_content_hash r)
    (prepared_size p) Raw (issue_now w) (issue_now w + DOWNLOAD_DESCRIPTOR_TTL) (issue_nonce w) = Done d →
  check_permission_res h req r w = Ok d.
Proof.
  intros [Hv Hrow Hoff Hbl (rs & ps & cs & g & Hr & Hp & Hc & Hg & Hm) Hh Ho Hper Ht Hpre
    (rs' & ps' & cs' & g' & Hr' & Hp' & Hc' & Hg' & Hm') Hver Hlen Hdiag] Hsign.
  apply bind_Some in Hrow as (db & Hdb & Hrow). apply bind_Some in Ho as (odb & Hodb & Ho).
  apply is_ok_true in Hper as [tm Hper]. rewrite Hr in Hr'. injection Hr' as <-.
  unfold check_permission_res, recheck, issue. cbv zeta. rewrite Hv, Hdb, Hrow. cbn [mbind res_bind].
  rewrite Hoff. cbn [negb mbind res_bind].
  rewrite (bool_decide_eq_false_2 (relationship_of h req = Some friends.Blocked)) by done. cbn [mbind res_bind].
  rewrite Hr. cbn [mbind res_bind]. rewrite Hp. cbn [fmap option_fmap option_map ok_or mbind res_bind].
  rewrite Hg. cbn [ok_or mbind res_bind]. rewrite Hc. cbn [fmap option_fmap option_map ok_or mbind res_bind].
  rewrite Hm. cbn [ensure mbind res_bind].
  rewrite (bool_decide_eq_true_2 (to_hex _ = row_content_hash row)) by done.
  cbn [ensure mbind res_bind]. rewrite Hver, (bool_decide_eq_true_2 (row_version row = row_version row)) by done.
  replace (negb (_ && negb true)) with true by (by rewrite andb_false_r). cbn [ensure mbind res_bind].
  rewrite Hodb, Ho. cbn [mbind res_bind]. rewrite Hper, Ht. cbn [mbind res_bind].
  rewrite Hpre. cbn [mbind res_bind]. rewrite Hp'. cbn [mbind res_bind]. rewrite Hg'. cbn [mbind res_bind].
  rewrite Hc'. cbn [mbind res_bind]. rewrite Hm'. cbn [mbind res_bind].
  rewrite Hh, from_hex_to_hex, (bool_decide_eq_true_2 (length _ = 32)) by done. cbn [mbind res_bind].
  rewrite Hsign. cbn [checked mbind res_bind]. by rewrite Hdiag.
Qed.

(** *** What the queries mean *)

(** An active permission of the owner on the file. *)
Definition holds h row (now : N) (kind : Text) (p : SharedFilePermission) : Prop :=
  grantor_user_id p = profile_user_id h ∧ perm_content_hash p = row_content_hash row ∧
  is_active_at now p = true ∧ permission p = kind.

Definition denied h req row (now : N) (db : Db) : Prop :=
  ∃ p, p ∈ shared_file_permissions db ∧ grantee_user_id p = key_text req ∧ holds h row now (txt "deny") p.

Definition granted_to h req row (now : N) (db : Db) : Prop :=
  ∃ p, p ∈ shared_file_permissions db ∧ grantee_user_id p = key_text req ∧ holds h row now (txt "read") p.

(** The file is shared with selected peers. *)
Definition selective h row (now : N) (db : Db) : Prop :=
  ∃ p, p ∈ shared_file_permissions db ∧ holds h row now (txt "read") p.

(** A ring of the owner gives read access to the file to the requester. *)
Definition in_ring h req row (db : Db) : Prop :=
  ∃ g, g ∈ rings db ∧ ring_owner g = profile_user_id h ∧
    (ring_id g, row_content_hash row, Read) ∈ ring_resource_permissions db ∧
    (is_open g = true ∨ (ring_id g, key_text req) ∈ ring_members db).

Definition authorised h req row (rdb pdb : Db) (pnow : N) (cdb : Db) (cnow : N) : Prop :=
  ¬ denied h req row pnow pdb ∧
  (in_ring h req row rdb ∨
   (selective h row cnow cdb ∧ granted_to h req row pnow pdb) ∨
   (¬ selective h row cnow cdb ∧ relationship_of h req = Some friends.Friends)).

Lemma ring_access_iff h req row db :
  check_ring_access (profile_user_id h) (key_text req) (row_content_hash row) Read db = true ↔
  in_ring h req row db.
Proof.
  unfold check_ring_access, in_ring. rewrite existsb_exists. split.
  - intros ([[i x] k] & Hrp & (g & Hr & Hb)%existsb_exists). simpl in Hb.
    rewrite !andb_true_iff, orb_true_iff, !bool_decide_eq_true in Hb.
    destruct Hb as ((((<- & Ho) & ->) & ->) & Hm). exists g.
    rewrite <-!list_elem_of_In in *. split_and!; [done..|].
    destruct Hm as [|([j y] & Hj & Hy)%existsb_exists]; [by left|right].
    simpl in Hy. rewrite andb_true_iff, !bool_decide_eq_true in Hy. destruct Hy as [-> ->].
    by rewrite <-list_elem_of_In in Hj.
  - intros (g & Hr & Ho & Hrp & Hm). exists (ring_id g, row_content_hash row, Read).
    rewrite <-list_elem_of_In. split; [done|]. apply existsb_exists. exists g.
    rewrite <-list_elem_of_In. split; [done|]. simpl. rewrite !bool_decide_eq_true_2 by done. simpl.
    apply orb_true_iff. destruct Hm as [Hop|Hin]; [by left|right]. apply existsb_exists.
    exists (ring_id g, key_text req). rewrite <-list_elem_of_In. split; [done|]. simpl.
    by rewrite !bool_decide_eq_true_2.
Qed.

Lemma count_pos h row now db :
  0 < count_read_grants_for_file (row_content_hash row) (profile_user_id h) now db ↔ selective h row now db.
Proof.
  unfold count_read_grants_for_file, selective, holds. split.
  - destruct (filter _ _) as [|p l] eqn:Hf; simpl; [lia|]. intros _.
    assert (p ∈ p :: l) as Hp by by left. rewrite <-Hf, list_elem_of_filter in Hp. naive_solver.
  - intros (p & Hp & Hg & Hh & Ha & Hr). destruct (filter _ _) as [|q l] eqn:Hf; simpl; [|lia].
    exfalso. apply (not_elem_of_nil p). rewrite <-Hf, list_elem_of_filter. done.
Qed.

(** The loop refuses exactly if one of the rows is an active denial, and finds a grant
    exactly if one is an active grant. *)
Lemma grants_loop_spec h row now perms b :
  match grants_loop (profile_user_id h) (row_content_hash row) now perms b with
  | None => ∃ p, p ∈ perms ∧ holds h row now (txt "deny") p
  | Some g => (∀ p, p ∈ perms → ¬ holds h row now (txt "deny") p) ∧
      (g = true ↔ b = true ∨ ∃ p, p ∈ perms ∧ holds h row now (txt "read") p)
  end.
Proof.
  revert b. induction perms as [|p perms IH]; intros b; simpl.
  { split; [intros p Hp; by apply elem_of_nil in Hp|]. split; [by left|].
    intros [|(p & Hp & _)]; [done|by apply elem_of_nil in Hp]. }
  assert (∀ b', ¬ holds h row now (txt "deny") p →
    (b' = true ↔ b = true ∨ holds h row now (txt "read") p) →
    match grants_loop (profile_user_id h) (row_content_hash row) now perms b' with
    | None => ∃ p', p' ∈ p :: perms ∧ holds h row now (txt "deny") p'
    | Some g => (∀ p', p' ∈ p :: perms → ¬ holds h row now (txt "deny") p') ∧
        (g = true ↔ b = true ∨ ∃ p', p' ∈ p :: perms ∧ holds h row now (txt "read") p')
    end) as Hnext.
  { intros b' Hnd Hb'. specialize (IH b'). destruct (grants_loop _ _ _ perms b') as [g|].
    - destruct IH as [Hd Hg]. split.
      + intros p' [->|Hp']%elem_of_cons; [done|by apply Hd].
      + rewrite Hg, Hb'. setoid_rewrite elem_of_cons. naive_solver.
    - destruct IH as (p' & Hp' & Hd). exists p'. split; [by right|done]. }
  unfold holds in Hnext |- *.
  destruct (bool_decide (grantor_user_id p = _)) eqn:Eg; [apply bool_decide_eq_true in Eg|
    apply bool_decide_eq_false in Eg; apply Hnext; naive_solver].
  destruct (bool_decide (perm_content_hash p = _)) eqn:Eh; [apply bool_decide_eq_true in Eh|
    apply bool_decide_eq_false in Eh; apply Hnext; naive_solver]. simpl.
  destruct (is_active_at now p) eqn:Ea; simpl; [|apply Hnext; naive_solver].
  case_bool_decide as Ed; [exists p; split; [by left|done]|].
  case_bool_decide as Er; apply Hnext; naive_solver.
Qed.

Lemma elem_of_permissions req db p :
  p ∈ list_permissions_for_grantee (key_text req) db ↔
  p ∈ shared_file_permissions db ∧ grantee_user_id p = key_text req.
Proof.
  unfold list_permissions_for_grantee. rewrite merge_sort_Permutation, list_elem_of_filter. naive_solver.
Qed.

Lemma readable_iff h req row rdb pdb pnow cdb cnow :
  readable h req row rdb pdb pnow cdb cnow ↔
  ∃ rs ps cs, rdb = Some rs ∧ pdb = Some ps ∧ cdb = Some cs ∧ authorised h req row rs ps pnow cs cnow.
Proof.
  assert (∀ rs ps cs, (∃ g, grants_loop (profile_user_id h) (row_content_hash row) pnow
      (list_permissions_for_grantee (key_text req) ps) false = Some g ∧
    mode_allows h req
      (check_ring_access (profile_user_id h) (key_text req) (row_content_hash row) Read rs) g
      (bool_decide (0 < count_read_grants_for_file (row_content_hash row) (profile_user_id h) cnow cs)) = true) ↔
    authorised h req row rs ps pnow cs cnow) as Hmain; [|
    unfold readable; split;
    [intros (rs & ps & cs & g & ? & ? & ? & ? & ?); exists rs, ps, cs; rewrite <-Hmain; eauto 10
    |intros (rs & ps & cs & ? & ? & ? & (g & ? & ?)%Hmain); exists rs, ps, cs, g; done]].
  intros rs ps cs. pose proof (grants_loop_spec h row pnow
    (list_permissions_for_grantee (key_text req) ps) false) as Hl.
  unfold authorised, mode_allows.
  assert (∀ kind, (∃ p, p ∈ list_permissions_for_grantee (key_text req) ps ∧ holds h row pnow kind p) ↔
    ∃ p, p ∈ shared_file_permissions ps ∧ grantee_user_id p = key_text req ∧ holds h row pnow kind p) as Hin.
  { intros kind. setoid_rewrite elem_of_permissions. naive_solver. }
  destruct (grants_loop _ _ _ _ false) as [g|].
  - destruct Hl as [Hnd Hg]. rewrite (Hin (txt "read")) in Hg.
    assert (¬ denied h req row pnow ps) as Hden.
    { intros Hd. unfold denied in Hd. rewrite <-(Hin (txt "deny")) in Hd. naive_solver. }
    rewrite <-ring_access_iff, <-count_pos. unfold granted_to.
    destruct (check_ring_access _ _ _ _ _); simpl; [naive_solver|].
    case_bool_decide; [naive_solver|]. rewrite bool_decide_eq_true || idtac. split.
    + intros (g' & _ & Hf%bool_decide_eq_true). naive_solver.
    + intros (_ & [?|[[? _]|[_ Hf]]]); [done|done|]. exists g. split; [done|]. by apply bool_decide_eq_true.
  - split; [by intros (g & ? & _)|]. intros [Hnd _]. destruct Hnd. unfold denied. by rewrite <-Hin.
Qed.


(** No refusal is a grant. *)
Definition refuses {A} (c : res FileAccessResponse A) : Prop := ∀ d, c ≠ Err (Granted d).

Lemma refuses_bind {A B} (c : res FileAccessResponse A) (k : A → res FileAccessResponse B) :
  refuses c → (∀ a, refuses (k a)) → refuses (c ≫= k).
Proof. intros Hc Hk d. destruct c as [a|e|]; simpl; [apply Hk|intros [= ->]; by apply (Hc d)|done]. Qed.

Lemma refuses_leave {A} id e : (∀ d, e ≠ Granted d) → refuses (leave (A := A) id e).
Proof. intros He d. unfold leave. destruct (access_diag_cases id) as [->| ->]; simpl; naive_solver. Qed.

Lemma refuses_check h req r w : refuses (check_permission_res h req r w).
Proof.
  unfold check_permission_res, recheck, issue. cbv zeta. destruct (validate_cases r) as [Hv|[c Hv]]; rewrite Hv.
  2: { apply refuses_leave. by destruct c. }
  repeat lazymatch goal with
  | |- refuses (leave _ _) => by apply refuses_leave
  | |- refuses (match ?x with _ => _ end) => destruct x
  | |- refuses (mbind _ _) => apply refuses_bind; [|intros ?]
  | |- refuses (ensure ?b _) => by destruct b
  | |- refuses (ok_or _ ?x) => by destruct x
  | |- refuses (checked ?x) => by destruct x
  | |- refuses (access_diag ?id) => by destruct (access_diag_cases id) as [->| ->]
  | |- refuses _ => done
  end.
Qed.

Lemma granted_iff h req r w d :
  check_permission h req r w = Done (Granted d) ↔ check_permission_res h req r w = Ok d.
Proof.
  pose proof (refuses_check h req r w) as Hr. unfold check_permission.
  destruct (check_permission_res _ _ _ _) as [d'|e|]; [naive_solver| |done].
  split; [|done]. intros [= ->]. by destruct (Hr d).
Qed.

Lemma try_begin_ok size (l : PrepareLimiter) :
  is_ok (try_begin size l).1 = true ↔
  (size ≤ max_file_size_bytes (prepare_config l))%N ∧ 0 < prepare_left l.
Proof.
  unfold try_begin. case_bool_decide; simpl; [split; [done|lia]|].
  destruct (prepare_left l); simpl; (split; [done||lia|done||lia]).
Qed.


(** Nothing changes while the request is served. *)
Record steady w (db : Db) (now : N) : Prop := {
  s_shared : shared_db w = Some db;
  s_ring : ring_db w = Some db;
  s_perms : permissions_db w = Some db;
  s_count : count_db w = Some db;
  s_object : object_db w = Some db;
  s_perms2 : permissions_db2 w = Some db;
  s_count2 : count_db2 w = Some db;
  s_now : permissions_now w = now;
  s_cnow : count_now w = now;
  s_now2 : permissions_now2 w = now;
  s_cnow2 : count_now2 w = now
}.

(** C21: For a request that names a version (not zero) and whose file id can be cut at its
    sixteenth byte: while the database and the clock stand still and the serializer does not
    fail, it is granted exactly if it is well formed, names an offered file with its content and
    version, its sender is not blocked and is authorised, and the file can be prepared: its
    object is known, within the size limit, a preparation slot is free and the preparation
    succeeds in time. *)
Theorem steady_grant_iff h req r w db now :
  expected_version r ≠ 0%N →
  is_char_boundary (request_file_id r) (Nat.min (text_len (request_file_id r)) 16) = true →
  steady w db now → (∀ p : DescriptorSignedPayloadV2, is_Some (to_stdvec p)) →
  (∃ d, check_permission h req r w = Done (Granted d)) ↔
  validate r = Ok tt ∧ length (expected_content_hash r) = 32 ∧
  relationship_of h req ≠ Some friends.Blocked ∧
  ∃ row o, get_shared_file_by_metadata_id (profile_user_id h) (request_file_id r) db = Some row ∧
    offered row = true ∧ authorised h req row db db now db now ∧
    row_content_hash row = to_hex (expected_content_hash r) ∧ row_version row = expected_version r ∧
    get_file_object (row_content_hash row) db = Some o ∧
    (object_size o ≤ max_file_size_bytes (prepare_config (limiter w)))%N ∧
    0 < prepare_left (limiter w) ∧ in_time w = true ∧
    is_Some (bounded_prepare (row_content_hash row) o w).
Proof.
  intros _ Hcut [] Hser.
  assert (access_diag (request_file_id r) = Ok tt) as Hdiag.
  { apply bool_decide_eq_true in Hcut as [p Hp]. unfold access_diag, slice_to. by rewrite Hp. }
  assert (∀ row, readable h req row (Some db) (Some db) now (Some db) now ↔
    authorised h req row db db now db now) as Hauth.
  { intros row. rewrite readable_iff. split; [|by exists db, db, db].
    by intros (? & ? & ? & [= <-] & [= <-] & [= <-] & ?). }
  split.
  - intros [d Hd]. apply granted_iff, granted_inv in Hd as (row & o & p & [] & _).
    rewrite s_shared0 in g_row0. rewrite s_object0 in g_object0. simpl in *.
    rewrite s_ring0, s_perms0, s_count0, s_now0, s_cnow0, Hauth in g_first0.
    apply try_begin_ok in g_permit0 as [? ?]. split_and!; try done.
    exists row, o. split_and!; eauto.
  - intros (Hv & Hl & Hb & row & o & Hrow & Hoff & Ha & Hh & Hver & Ho & Hsz & Hleft & Ht & [p Hp]).
    assert (∃ d, sign_download_descriptor (secret_key h) req (request_file_id r) (expected_content_hash r)
      (prepared_size p) Raw (issue_now w) (issue_now w + DOWNLOAD_DESCRIPTOR_TTL) (issue_nonce w) = Done d)
      as [d Hd].
    { unfold sign_download_descriptor, canonical_bytes.
      match goal with |- context [to_stdvec ?x] => destruct (Hser x) as [b ->] end. eauto. }
    exists d. apply granted_iff. apply (granted_run h req r w row o p d); [|done].
    split; try done.
    + by rewrite s_shared0.
    + by rewrite s_ring0, s_perms0, s_count0, s_now0, s_cnow0, Hauth.
    + by rewrite s_object0.
    + by apply try_begin_ok.
    + by rewrite s_ring0, s_perms3, s_count3, s_now3, s_cnow3, Hauth.
Qed.

(** a request that does not know the version of the file (version zero, "accept any
    version") passes the first version check but never the last: no file whose version is not
    zero is granted to it. *)
Theorem legacy_version_refused h req r w row d :
  expected_version r = 0%N →
  (shared_db w ≫= get_shared_file_by_metadata_id (profile_user_id h) (request_file_id r)) = Some row →
  row_version row ≠ 0%N → check_permission h req r w ≠ Done (Granted d).
Proof.
  intros Hz Hrow Hv Hg. apply granted_iff, granted_inv in Hg as (row' & o & p & [] & _). congruence.
Qed.

(** the id of a file is sliced at its sixteenth byte for the diagnostics: an id with a
    character across that byte stops the request with a panic as soon as it is refused, here
    because no such file is shared. *)
Theorem multibyte_id_panics h req r w db :
  validate r = Ok tt → shared_db w = Some db →
  get_shared_file_by_metadata_id (profile_user_id h) (request_file_id r) db = None →
  is_char_boundary (request_file_id r) (Nat.min (text_len (request_file_id r)) 16) = false →
  check_permission h req r w = Panic.
Proof.
  intros Hv Hdb Hrow Hb. unfold check_permission, check_permission_res, recheck, issue. cbv zeta.
  rewrite Hv, Hdb, Hrow. unfold leave, access_diag, slice_to.
  unfold is_char_boundary in Hb. apply bool_decide_eq_false in Hb.
  destruct (prefix_bytes _ _); [by destruct Hb|]. done.
Qed.

(** The bytes of a file that is kept inside the database are compared neither with its recorded
    size nor with its recorded hash: whatever they are, the record is what is prepared, and
    signed. *)
Theorem inline_content_unverified (out : Outside) db hash o data :
  get_file_object hash db = Some o → object_blob_hash o = None → object_data o = Some data →
  store_has out (blake3 data) = Some true →
  prepare_imported_file out (Some db) (Some db) hash None (Some (object_size o)) =
    Some (mkPrepared (object_content_hash o) (object_size o) Raw (object_mime_type o) (object_filename o)).
Proof.
  intros Ho Hb Hd Hs. unfold prepare_imported_file, verify_metadata. simpl. rewrite Ho. simpl.
  rewrite Hb, Hd, Hs. simpl. by rewrite bool_decide_eq_true_2.
Qed.

(** The owner withdraws the offer and closes every ring. *)
Definition withdrawn (db : Db) : Db :=
  mkDb [] (file_objects db) (shared_file_permissions db) [] [] [].

(** The same request, with the offers and the rings withdrawn once they were read. *)
Definition withdraw w : Surroundings :=
  mkSurroundings (shared_db w) (ring_db w) (withdrawn <$> permissions_db w) (permissions_now w)
    (withdrawn <$> count_db w) (count_now w) (withdrawn <$> object_db w) (limiter w)
    (withdrawn <$> prepare_db1 w) (withdrawn <$> prepare_db2 w) (outside w) (in_time w)
    (withdrawn <$> permissions_db2 w) (permissions_now2 w) (withdrawn <$> count_db2 w) (count_now2 w)
    (issue_now w) (issue_nonce w).

(** after the preparation the permissions are read again, but not the offer and not the
    rings: withdrawing the file from sharing, or the requester from its rings, once they were
    read changes no answer. *)
Theorem offer_not_rechecked h req r w :
  check_permission h req r (withdraw w) = check_permission h req r w.
Proof.
  destruct w as [sdb rdb [pdb|] pnow [cdb|] cnow [odb|] lim [db1|] [db2|] out t [pdb2|] pnow2 [cdb2|] cnow2 i n];
    reflexivity.
Qed.

End facts.
End policy_facts.

(** ** Serving *)

Module serving_facts.
Import file_access_protocol limits serving.

Implicit Types (l : UploadLimiter) (s : Server) (q : Request) (m : gmap N Request) (p : Text).

Lemma tally_add_tally p p' t : tally (tally_add p t) p' = tally t p' + one (bool_decide (p = p')).
Proof.
  unfold tally_add. unfold tally at 1. case_bool_decide as Hp; simpl.
  - subst. rewrite lookup_insert_eq. simpl. lia.
  - rewrite lookup_insert_ne by done. unfold tally. lia.
Qed.

Lemma tally_sub_tally p p' t : tally (tally_sub p t) p' = tally t p' - one (bool_decide (p = p')).
Proof.
  unfold tally_sub. case_bool_decide as Hp; simpl.
  - subst. unfold tally. destruct (t !! p') as [n|] eqn:Hn; simpl; [|by rewrite Hn].
    case_decide; [rewrite lookup_delete_eq|rewrite lookup_insert_eq]; simpl; lia.
  - unfold tally. destruct (t !! p) as [n|] eqn:Hn; [|lia].
    case_decide; [rewrite lookup_delete_ne by done|rewrite lookup_insert_ne by done]; lia.
Qed.

(** No entry is zero. *)
Definition compact (t : gmap Text nat) : Prop := ∀ p, t !! p ≠ Some 0.

Lemma tally_add_compact p t : compact t → compact (tally_add p t).
Proof.
  intros Ht p'. unfold tally_add. destruct (decide (p = p')) as [->|]; [by rewrite lookup_insert_eq|].
  by rewrite lookup_insert_ne.
Qed.

Lemma tally_sub_compact p t : compact t → compact (tally_sub p t).
Proof.
  intros Ht p'. unfold tally_sub. destruct (t !! p) as [n|]; [|done].
  destruct (decide (p = p')) as [->|]; case_decide;
    rewrite ?lookup_delete_eq, ?lookup_insert_eq, ?lookup_delete_ne, ?lookup_insert_ne by done;
    first [apply Ht|congruence].
Qed.

Lemma compact_zero t : compact t → (∀ p, tally t p = 0) → t = ∅.
Proof.
  intros Hc Hz. apply map_empty. intros p. specialize (Hc p). specialize (Hz p). unfold tally in Hz.
  destruct (t !! p) as [n|]; [|done]. simpl in Hz. by subst.
Qed.

(** *** The invariant *)

(** What a request holds where it is. *)
Definition in_queue (ph : Phase) : bool :=
  match ph with Reading | Waiting | HasGlobal | HasSlots => true | _ => false end.
Definition holds_global (ph : Phase) : bool :=
  match ph with HasGlobal | HasSlots | Unqueued | Active | Checking | Leaving | Freed => true | _ => false end.
Definition holds_slot (ph : Phase) : bool :=
  match ph with HasSlots | Unqueued | Active | Checking | Leaving | Freed => true | _ => false end.
Definition counted (ph : Phase) : bool :=
  match ph with Active | Checking | Leaving => true | _ => false end.
Definition verifying (ph : Phase) : bool := match ph with Checking => true | _ => false end.

(** All requests, and those of a peer. *)
Definition all (f : Phase → bool) m : nat := cnt (λ q, f (phase q)) m.
Definition of_peer (f : Phase → bool) p m : nat := cnt (λ q, f (phase q) && bool_decide (peer q = p)) m.

Definition slots l p : nat := default (max_uploads_per_peer (config l)) (peer_slots l !! p).

(** The limiter counts what the requests hold. *)
Record counts (c : UploadLimitsConfig) l m : Prop := {
  c_config : config l = c;
  c_queued : queued (state l) = all in_queue m;
  c_queued_by : ∀ p, tally (queued_by_peer (state l)) p = of_peer in_queue p m;
  c_active_by : ∀ p, tally (active_by_peer (state l)) p = of_peer counted p m;
  c_compact : compact (queued_by_peer (state l)) ∧ compact (active_by_peer (state l));
  c_global : active_left l + all holds_global m = max_active_uploads c;
  c_slots : ∀ p, slots l p + of_peer holds_slot p m = max_uploads_per_peer c;
  c_created : ∀ k q, m !! k = Some q → holds_slot (phase q) = true → is_Some (peer_slots l !! peer q);
  c_verifying : verifications_left l + all verifying m = max_concurrent_verifications c;
  c_max_queued : queued (state l) ≤ max_queued_uploads c;
  c_max_peer : ∀ p, tally (queued_by_peer (state l)) p ≤ max_uploads_per_peer c
}.

Definition clamped (c : UploadLimitsConfig) : UploadLimitsConfig := config (new c).

Lemma counts_start c : counts (clamped c) (new c) ∅.
Proof.
  assert (∀ f : Request → bool, cnt f ∅ = 0) as Hz by (intros f; apply cnt_zero; intros k q; by rewrite lookup_empty).
  split; unfold all, of_peer, slots; try (intros p); rewrite ?Hz; simpl; try (by rewrite ?lookup_empty; simpl; lia).
  - done.
  - done.
  - done.
  - by split; intros p; rewrite lookup_empty.
  - intros q Hq. by rewrite lookup_empty in Hq.
  - unfold tally. rewrite lookup_empty. simpl. lia.
Qed.

Lemma all_update f m k q q' :
  m !! k = Some q → all f (<[k := q']> m) + one (f (phase q)) = all f m + one (f (phase q')).
Proof. apply (cnt_update (λ q, f (phase q))). Qed.

Lemma of_peer_update f p m k q ph wi :
  m !! k = Some q →
  of_peer f p (<[k := mkServing (peer q) ph wi]> m) + one (f (phase q) && bool_decide (peer q = p)) =
  of_peer f p m + one (f ph && bool_decide (peer q = p)).
Proof.
  intros Hk. exact (cnt_update (λ q, f (phase q) && bool_decide (peer q = p)) m k q
    (mkServing (peer q) ph wi) Hk).
Qed.

(** What a request takes with it when it moves from [ph] to [ph']. *)
Record moves (p : Text) (ph ph' : Phase) l l' : Prop := {
  m_config : config l' = config l;
  m_queued : queued (state l') + one (in_queue ph) = queued (state l) + one (in_queue ph');
  m_queued_by : ∀ p', tally (queued_by_peer (state l')) p' + one (in_queue ph && bool_decide (p = p')) =
                  tally (queued_by_peer (state l)) p' + one (in_queue ph' && bool_decide (p = p'));
  m_active_by : ∀ p', tally (active_by_peer (state l')) p' + one (counted ph && bool_decide (p = p')) =
                  tally (active_by_peer (state l)) p' + one (counted ph' && bool_decide (p = p'));
  m_compact : compact (queued_by_peer (state l)) ∧ compact (active_by_peer (state l)) →
                compact (queued_by_peer (state l')) ∧ compact (active_by_peer (state l'));
  m_global : active_left l' + one (holds_global ph') = active_left l + one (holds_global ph);
  m_slots : ∀ p', slots l' p' + one (holds_slot ph' && bool_decide (p = p')) =
              slots l p' + one (holds_slot ph && bool_decide (p = p'));
  m_created : ∀ p', is_Some (peer_slots l !! p') → is_Some (peer_slots l' !! p');
  m_slot : holds_slot ph' = true → holds_slot ph = true ∨ is_Some (peer_slots l' !! p);
  m_verifying : verifications_left l' + one (verifying ph') = verifications_left l + one (verifying ph);
  m_fewer : in_queue ph' = true → in_queue ph = true
}.

Lemma counts_move c l l' m k q ph' wi :
  counts c l m → m !! k = Some q → moves (peer q) (phase q) ph' l l' →
  counts c l' (<[k := mkServing (peer q) ph' wi]> m).
Proof.
  intros [] Hk []. assert (one (in_queue ph') ≤ one (in_queue (phase q))) as Hle.
  { destruct (in_queue ph') eqn:Hph; simpl; [rewrite m_fewer0 by done; simpl|]; lia. }
  split.
  - congruence.
  - pose proof (all_update in_queue m k q (mkServing (peer q) ph' wi) Hk) as Hu. simpl in Hu. lia.
  - intros p. pose proof (of_peer_update in_queue p m k q ph' wi Hk). specialize (c_queued_by0 p).
    specialize (m_queued_by0 p). lia.
  - intros p. pose proof (of_peer_update counted p m k q ph' wi Hk). specialize (c_active_by0 p).
    specialize (m_active_by0 p). lia.
  - auto.
  - pose proof (all_update holds_global m k q (mkServing (peer q) ph' wi) Hk) as Hu. simpl in Hu. lia.
  - intros p. pose proof (of_peer_update holds_slot p m k q ph' wi Hk). specialize (c_slots0 p).
    specialize (m_slots0 p). lia.
  - intros j x. rewrite lookup_insert. case_decide as Hj; [|eauto]. intros [= <-] Hx. simpl in *.
    destruct (m_slot0 Hx); eauto.
  - pose proof (all_update verifying m k q (mkServing (peer q) ph' wi) Hk) as Hu. simpl in Hu. lia.
  - lia.
  - intros p. specialize (c_max_peer0 p). specialize (m_queued_by0 p).
    destruct (bool_decide (peer q = p)); rewrite ?andb_true_r, ?andb_false_r in *; simpl in *; lia.
Qed.

(** What a request holds is counted. *)
Lemma held_queue c l m k q :
  counts c l m → m !! k = Some q → in_queue (phase q) = true →
  0 < queued (state l) ∧ 0 < tally (queued_by_peer (state l)) (peer q).
Proof.
  intros [] Hk Hq. rewrite c_queued0, c_queued_by0. split.
  - by apply (cnt_pos _ m k q Hk).
  - apply (cnt_pos _ m k q Hk). by rewrite Hq, bool_decide_eq_true_2.
Qed.

Lemma held_active c l m k q :
  counts c l m → m !! k = Some q → counted (phase q) = true →
  0 < tally (active_by_peer (state l)) (peer q).
Proof.
  intros [] Hk Hq. rewrite c_active_by0.
  apply (cnt_pos _ m k q Hk). by rewrite Hq, bool_decide_eq_true_2.
Qed.

#[local] Hint Resolve tally_add_compact tally_sub_compact : core.

Lemma slots_insert l p p' n :
  slots (set_peer_slots (<[p := n]> (peer_slots l)) l) p' = if decide (p = p') then n else slots l p'.
Proof. unfold slots. simpl. rewrite lookup_insert. by case_decide. Qed.

(** Decide the goals of [moves]: tallies, numbers and the slots that exist. *)
Ltac moving :=
  split; simpl; intros; rewrite ?tally_add_tally, ?tally_sub_tally;
  try case_bool_decide; subst; simpl in *; try done; try lia;
  try (by split; naive_solver eauto).

Lemma release_moves p ph l :
  in_queue ph = true → holds_global ph = false → 0 < queued (state l) →
  0 < tally (queued_by_peer (state l)) p → moves p ph Gone l (release_queued p l).
Proof. intros Hq Hg ? ?. destruct ph; try done; moving. Qed.

(** Creating the semaphore of a peer changes no count. *)
Lemma semaphore_spec p l :
  ∃ ps, (peer_semaphore p l).2 = set_peer_slots ps l ∧ (peer_semaphore p l).1 = slots l p ∧
    ps !! p = Some (slots l p) ∧ ∀ p', p' ≠ p → ps !! p' = peer_slots l !! p'.
Proof.
  unfold peer_semaphore, slots. destruct (peer_slots l !! p) as [n|] eqn:Hp; simpl.
  - exists (peer_slots l). split_and!; try done. by destruct l.
  - exists (<[p := max_uploads_per_peer (config l)]> (peer_slots l)). split_and!; try done.
    + by rewrite lookup_insert_eq.
    + intros p' Hp'. by rewrite lookup_insert_ne.
Qed.

Lemma semaphore_counts c p l m : counts c l m → counts c (peer_semaphore p l).2 m.
Proof.
  destruct (semaphore_spec p l) as (ps & -> & _ & Hp & Hne). intros []. split; try done.
  - intros p'. rewrite <-(c_slots0 p'). f_equal. unfold slots. simpl.
    destruct (decide (p' = p)) as [->|]; [by rewrite Hp|by rewrite Hne].
  - intros k q Hk Hq. simpl. destruct (decide (peer q = p)) as [->|]; [by rewrite Hp; eauto|].
    rewrite Hne by done. eauto.
Qed.

Lemma slot_moves p l l' n :
  peer_semaphore p l = (S n, l') →
  moves p HasGlobal HasSlots l (set_peer_slots (<[p := n]> (peer_slots l')) l').
Proof.
  intros Hs. destruct (semaphore_spec p l) as (ps & Hl & Hn & Hp & Hne). rewrite Hs in Hl, Hn. simpl in *.
  subst l'. moving.
  - unfold slots at 1. simpl. rewrite lookup_insert_eq. simpl. lia.
  - unfold slots at 1. simpl. rewrite lookup_insert_ne by done. rewrite Hne by done. unfold slots. lia.
  - rewrite lookup_insert. case_decide; [eauto|]. by rewrite Hne.
  - right. rewrite lookup_insert_eq. eauto.
Qed.

Lemma freed_moves p l :
  is_Some (peer_slots l !! p) →
  moves p Freed Gone l (set_active_left (S (active_left l))
    (set_peer_slots (<[p := S (tally (peer_slots l) p)]> (peer_slots l)) l)).
Proof.
  intros [n Hn]. moving.
  - unfold slots, tally. simpl. rewrite lookup_insert_eq, Hn. simpl. lia.
  - unfold slots. simpl. by rewrite lookup_insert_ne.
  - rewrite lookup_insert. case_decide; eauto.
Qed.

Lemma step_moves c i l m k q q' l' out :
  counts c l m → m !! k = Some q → step_request i q l = (q', l', out) →
  q' = q ∧ counts c l' m ∨
  (∃ ph wi, q' = mkServing (peer q) ph wi ∧ moves (peer q) (phase q) ph l l').
Proof.
  intros Hc Hk. pose proof (held_queue c l m k q Hc Hk) as Hq. pose proof (held_active c l m k q Hc Hk) as Ha.
  pose proof (c_created c l m Hc k q Hk) as Hsl.
  destruct q as [p ph wi]. simpl in *. unfold step_request. simpl.
  destruct ph; simpl in *; try (destruct (Hq eq_refl) as [Hq1 Hq2]); try specialize (Ha eq_refl);
    try specialize (Hsl eq_refl).
  - intros Hs. right. assert (moves p Reading Waiting l l) by moving.
    assert (moves p Reading Gone l (release_queued p l)) by by apply release_moves.
    repeat case_match; simplify_eq/=; eauto.
  - destruct (active_left l) eqn:Hl; intros [= <- <- <-]; [by left|right]. eexists _, _. split; [done|]. moving.
  - pose proof (semaphore_counts c p l m Hc) as Hsem.
    destruct (peer_semaphore p l) as [[|n] l1] eqn:Hs; intros [= <- <- <-]; [by left|right].
    eexists _, _. split; [done|]. by apply slot_moves.
  - intros [= <- <- <-]. right. eexists _, _. split; [done|]. moving.
  - intros [= <- <- <-]. right. eexists _, _. split; [done|]. moving.
  - unfold try_acquire_verification. destruct (verifications_left l) eqn:Hv; intros [= <- <- <-]; right;
      eexists _, _; (split; [done|]); moving.
  - intros [= <- <- <-]. right. eexists _, _. split; [done|]. moving.
  - intros [= <- <- <-]. right. eexists _, _. split; [done|]. moving.
  - intros [= <- <- <-]. right. eexists _, _. split; [done|]. by apply freed_moves.
  - intros [= <- <- <-]. by left.
Qed.

Lemma cancel_moves c l m k q q' l' :
  counts c l m → m !! k = Some q → cancel_request q l = (q', l') →
  q' = q ∧ l' = l ∨ (∃ ph wi, q' = mkServing (peer q) ph wi ∧ moves (peer q) (phase q) ph l l').
Proof.
  intros Hc Hk. pose proof (held_queue c l m k q Hc Hk) as Hq.
  destruct q as [p ph wi]. simpl in *. unfold cancel_request. simpl.
  destruct ph; simpl in *; try (destruct (Hq eq_refl) as [Hq1 Hq2]); intros [= <- <-]; try (by left);
    right; eexists _, _; (split; [done|]); moving.
Qed.

Lemma arrive_counts c l m k p l' u :
  counts c l m → m !! k = None → try_enqueue p l = (Ok u, l') →
  counts c l' (<[k := mkServing p Reading None]> m).
Proof.
  intros [] Hk. unfold try_enqueue. case_decide as Hm; [done|]. case_decide as Hp; [done|].
  intros [= _ <-]. unfold all, of_peer in *.
  split; simpl; intros; unfold all, of_peer; rewrite ?cnt_insert by done; simpl; rewrite ?tally_add_tally;
    rewrite ?c_config0 in *; try done; try lia; auto with lia.
  - by rewrite c_queued_by0, Nat.add_comm.
  - destruct c_compact0. auto.
  - apply c_slots0.
  - match goal with H : <[_ := _]> _ !! _ = Some _ |- _ => rewrite lookup_insert in H end.
    case_decide; simplify_eq/=; eauto.
  - case_bool_decide; subst; simpl; [|specialize (c_max_peer0 p0)]; lia.
Qed.

Lemma refused_same p l e l' : try_enqueue p l = (Err e, l') → l' = l.
Proof. unfold try_enqueue. by repeat case_decide; intros [=]. Qed.

Lemma server_step_counts c a s :
  counts c (uploads s) (requests s) → counts c (uploads (server_step a s).1) (requests (server_step a s).1).
Proof.
  destruct s as [l m]. simpl. intros Hc. destruct a as [k p|k i|k]; simpl; destruct (m !! k) as [q|] eqn:Hk; try done.
  - destruct (try_enqueue p l) as [[u|e|] l'] eqn:He; simpl.
    + by eapply arrive_counts.
    + apply refused_same in He as ->. by destruct e.
    + unfold try_enqueue in He. by repeat case_decide.
  - destruct (step_request i q l) as [[q' l'] out] eqn:Hs. simpl.
    destruct (step_moves c i l m k q q' l' out Hc Hk Hs) as [[-> Hc']|(ph & wi & -> & Hm)].
    + by rewrite insert_id.
    + by eapply counts_move.
  - destruct (cancel_request q l) as [q' l'] eqn:Hs. simpl.
    destruct (cancel_moves c l m k q q' l' Hc Hk Hs) as [[-> ->]|(ph & wi & -> & Hm)].
    + by rewrite insert_id.
    + by eapply counts_move.
Qed.

Lemma run_counts_from c acts s :
  counts c (uploads s) (requests s) → counts c (uploads (server_run acts s)) (requests (server_run acts s)).
Proof.
  revert s. induction acts as [|a acts IH]; intros s Hc; [done|]. simpl.
  by apply IH, server_step_counts.
Qed.

Lemma run_counts c acts :
  counts (clamped c) (uploads (server_run acts (start c))) (requests (server_run acts (start c))).
Proof. apply run_counts_from, counts_start. Qed.

(** *** Theorems *)

(** C22: the limits on uploads hold whatever requests arrive and however their steps
    interleave, cancelled requests included: the queue is bounded, in all and for each peer, no
    more requests than allowed hold an upload slot, none of them more than its peer's share,
    and no more permission checks run at once than allowed. *)
Theorem uploads_bounded c acts :
  let m := requests (server_run acts (start c)) in
  all in_queue m ≤ Nat.max (max_queued_uploads c) 1 ∧
  all holds_global m ≤ Nat.max (max_active_uploads c) 1 ∧
  all verifying m ≤ Nat.max (max_concurrent_verifications c) 1 ∧
  ∀ p, of_peer in_queue p m ≤ Nat.max (max_uploads_per_peer c) 1 ∧
       of_peer holds_slot p m ≤ Nat.max (max_uploads_per_peer c) 1.
Proof.
  cbv zeta. destruct (run_counts c acts). simpl in *. split_and!; try lia.
  intros p. specialize (c_slots0 p). specialize (c_queued_by0 p). specialize (c_max_peer0 p). lia.
Qed.

(** C23: nothing leaks: when every request is gone, whatever way each of them took, all the
    slots are back, the queue is empty and no peer is counted any more. *)
Theorem no_slot_leaks c acts :
  let s := server_run acts (start c) in
  (∀ k q, requests s !! k = Some q → phase q = Gone) →
  state (uploads s) = state (new c) ∧ active_left (uploads s) = active_left (new c) ∧
  verifications_left (uploads s) = verifications_left (new c) ∧
  ∀ p, slots (uploads s) p = slots (new c) p.
Proof.
  cbv zeta. pose proof (run_counts c acts) as Hc. revert Hc. generalize (server_run acts (start c)).
  intros s [] Hgone.
  assert (∀ f, f Gone = false → all f (requests s) = 0) as Hall.
  { intros f Hf. apply cnt_zero. intros k q Hk. by rewrite (Hgone k q Hk). }
  assert (∀ f p, f Gone = false → of_peer f p (requests s) = 0) as Hpeer.
  { intros f p Hf. apply cnt_zero. intros k q Hk. by rewrite (Hgone k q Hk), Hf. }
  rewrite Hall in c_queued0, c_global0, c_verifying0 by done.
  setoid_rewrite Hpeer in c_queued_by0; [|done]. setoid_rewrite Hpeer in c_active_by0; [|done].
  destruct c_compact0 as [Hq Ha]. split_and!.
  - destruct (state (uploads s)) as [n qb ab] eqn:Hst. simpl in *.
    rewrite (compact_zero qb Hq c_queued_by0), (compact_zero ab Ha c_active_by0). by subst.
  - simpl in *. lia.
  - simpl in *. lia.
  - intros p. specialize (c_slots0 p). rewrite Hpeer in c_slots0 by done. unfold slots at 2.
    simpl in *. rewrite lookup_empty. simpl. lia.
Qed.

(** *** Progress *)

Lemma none_of f m k q : all f m = 0 → m !! k = Some q → f (phase q) = false.
Proof.
  intros Hz Hk. destruct (f (phase q)) eqn:Hf; [|done].
  pose proof (cnt_pos (λ q, f (phase q)) m k q Hk Hf). unfold all in Hz. lia.
Qed.

(** The steps that are left. *)
Definition rank (ph : Phase) : nat :=
  match ph with
  | Reading => 9 | Waiting => 8 | HasGlobal => 7 | HasSlots => 6 | Unqueued => 5
  | Active => 4 | Checking => 3 | Leaving => 2 | Freed => 1 | Gone => 0
  end.

Definition total m : nat := map_fold (λ _ q n, rank (phase q) + n) 0 m.

Lemma total_steps_insert m k q : m !! k = None → total (<[k := q]> m) = rank (phase q) + total m.
Proof. intros Hk. unfold total. rewrite map_fold_insert_L; [done|lia|done]. Qed.

Lemma total_update m k q q' :
  m !! k = Some q → total (<[k := q']> m) + rank (phase q) = total m + rank (phase q').
Proof.
  intros Hk. rewrite <-(insert_delete_id m k q) at 2 by done.
  rewrite <-insert_delete_eq, !total_steps_insert by apply lookup_delete_eq. lia.
Qed.

Lemma total_bound m : total m ≤ 9 * size m.
Proof.
  induction m as [|k q m Hk IH] using map_ind; [done|].
  rewrite total_steps_insert, map_size_insert_None by done. assert (rank (phase q) ≤ 9) by (destruct (phase q); simpl; lia).
  lia.
Qed.

(** The points where a request does not wait for another. *)
Definition unblocked (ph : Phase) : bool :=
  match ph with Waiting | HasGlobal | Gone => false | _ => true end.

Lemma unblocked_advances i q l q' l' out :
  unblocked (phase q) = true → step_request i q l = (q', l', out) → rank (phase q') < rank (phase q).
Proof.
  destruct q as [p ph wi]. unfold step_request. simpl. intros Hu Hs.
  destruct ph; try done; unfold try_acquire_verification in Hs; repeat case_match; simplify_eq/=; lia.
Qed.

(** Some request can take a step, whatever its input. *)
Lemma progress c l m :
  counts (clamped c) l m → 0 < total m →
  ∃ k q, m !! k = Some q ∧ ∀ i q' l' out, step_request i q l = (q', l', out) → rank (phase q') < rank (phase q).
Proof.
  intros [] Ht. destruct (decide (all unblocked m = 0)) as [Hu|Hu].
  2: { destruct (cnt_exists (λ q, unblocked (phase q)) m) as (k & q & Hk & Hq); [unfold all in Hu; lia|].
       exists k, q. split; [done|]. intros i q' l' out. by apply unblocked_advances. }
  assert (∀ p, of_peer holds_slot p m = 0) as Hslot.
  { intros p. apply cnt_zero. intros k q Hk. pose proof (none_of _ m k q Hu Hk) as Hn. by destruct (phase q). }
  destruct (decide (all holds_global m = 0)) as [Hg|Hg].
  - destruct (decide (all in_queue m = 0)) as [Hq|Hq].
    + exfalso. assert (∀ k q, m !! k = Some q → phase q = Gone) as Hgone.
      { intros k q Hk. pose proof (none_of _ m k q Hu Hk). pose proof (none_of _ m k q Hg Hk).
        pose proof (none_of _ m k q Hq Hk). by destruct (phase q). }
      clear -Ht Hgone. revert Ht. induction m as [|k q m Hk IH] using map_ind;
        [unfold total; rewrite map_fold_empty; lia|].
      rewrite total_steps_insert, (Hgone k q (lookup_insert_eq _ _ _)) by done. simpl. apply IH.
      intros j x Hj. apply (Hgone j x). rewrite lookup_insert_ne; congruence.
    + destruct (cnt_exists (λ q, in_queue (phase q)) m) as (k & q & Hk & Hph); [unfold all in Hq; lia|].
      pose proof (none_of _ m k q Hu Hk). pose proof (none_of _ m k q Hg Hk).
      exists k, q. split; [done|]. intros i q' l' out. unfold step_request.
      destruct (phase q) eqn:Hp; try done. simpl in c_global0.
      destruct (active_left l) eqn:Hl; [lia|]. intros [= <- <- <-]. simpl. lia.
  - destruct (cnt_exists (λ q, holds_global (phase q)) m) as (k & q & Hk & Hph); [unfold all in Hg; lia|].
    pose proof (none_of _ m k q Hu Hk). exists k, q. split; [done|]. intros i q' l' out. unfold step_request.
    destruct (phase q) eqn:Hp; try done. specialize (c_slots0 (peer q)). rewrite Hslot in c_slots0.
    destruct (semaphore_spec (peer q) l) as (ps & _ & Hn & _).
    destruct (peer_semaphore (peer q) l) as [[|n] l1]; simpl in *; [lia|].
    intros [= <- <- <-]. simpl. lia.
Qed.

Lemma drains c i s :
  counts (clamped c) (uploads s) (requests s) →
  ∃ ks, length ks ≤ total (requests s) ∧
    total (requests (server_run ((λ k, Step k i) <$> ks) s)) = 0.
Proof.
  remember (total (requests s)) as n eqn:Hn. revert s Hn.
  induction n as [n IH] using lt_wf_ind; intros s -> Hc.
  destruct (decide (total (requests s) = 0)) as [Hz|Hz]; [by exists []; simpl; auto with lia|].
  destruct (progress c (uploads s) (requests s) Hc) as (k & q & Hk & Hstep); [lia|].
  destruct (step_request i q (uploads s)) as [[q' l'] out] eqn:Hs. specialize (Hstep i q' l' out Hs).
  pose proof (total_update (requests s) k q q' Hk) as Hu.
  pose proof (server_step_counts (clamped c) (Step k i) s Hc) as Hc'.
  assert ((server_step (Step k i) s).1 = mkServer l' (<[k := q']> (requests s))) as Heq.
  { simpl. by rewrite Hk, Hs. }
  rewrite Heq in Hc'. destruct (IH (total (<[k := q']> (requests s))) ltac:(lia)
    (mkServer l' (<[k := q']> (requests s))) eq_refl Hc') as (ks & Hlen & Hks).
  exists (k :: ks). split; [simpl; lia|].
  change (total (requests (server_run ((λ k, Step k i) <$> ks) (server_step (Step k i) s).1)) = 0). by rewrite Heq.
Qed.

Lemma total_zero m : total m = 0 → ∀ k q, m !! k = Some q → phase q = Gone.
Proof.
  intros Hz k q Hk. pose proof (total_update m k q (mkServing [] Gone None) Hk) as Hu. simpl in Hu.
  destruct (phase q); simpl in *; done || lia.
Qed.

(** C24: no deadlock: from whatever state requests can reach, with every slot taken, waiting
    for one another and cancelled at any point, at most nine steps for each request let all of
    them finish. *)
Theorem no_deadlock c acts i :
  ∃ ks, length ks ≤ 9 * size (requests (server_run acts (start c))) ∧
    ∀ k q, requests (server_run (acts ++ ((λ k, Step k i) <$> ks)) (start c)) !! k = Some q → phase q = Gone.
Proof.
  destruct (drains c i _ (run_counts c acts)) as (ks & Hlen & Hks). exists ks.
  pose proof (total_bound (requests (server_run acts (start c)))). split; [lia|].
  unfold server_run in *. rewrite foldl_app. by apply total_zero.
Qed.

(** Two requests of a peer are let through to the point where they are counted neither in the
    queue nor as active; two more arrive. *)
Definition ask : Input := mkInput (Decoded (wire_request (new_request (txt "f") [x01] 1))) Unavailable.

Definition crowd (p : Text) : list Action :=
  Arrive 0 p :: Arrive 1 p :: replicate 4 (Step 0 ask) ++ replicate 4 (Step 1 ask) ++
  [Arrive 2 p; Arrive 3 p; Step 0 ask; Step 1 ask].

(** the limit of a peer counts its queued requests and its active uploads together, but a
    request on its way from one to the other is counted in neither: with the limits the program
    uses, a peer that is allowed two requests has four in hand, two queued and two active. *)
Theorem peer_limit_exceeded :
  let m := requests (server_run (crowd (txt "p")) (start upload_config_default)) in
  of_peer in_queue (txt "p") m + of_peer counted (txt "p") m =
    2 * max_uploads_per_peer upload_config_default.
Proof. by vm_compute. Qed.

End serving_facts.

(** ** Evaluations *)

Module samples.
Import file_access_protocol limits storage prepare policy descriptor_facts nonce_facts policy_facts
  serving serving_facts.

#[local] Existing Instance toy_ed25519.
#[local] Existing Instance toy_hasher.
#[local] Instance byte_text : KeyText := {| key_text k := Byte.to_N <$> k; key_text_inj := _ |}.

#[local] Instance ser_payload : Ser DescriptorSignedPayloadV2.
Proof.
  refine (ser_inj (B := string * N * Bytes * Bytes * Text * Bytes * N * Bytes * Bytes * N * N)
    (λ p, (protocol p, payload_version p, payload_owner p, payload_requester p, payload_file_id p,
           payload_hash p, payload_size p, payload_ticket p, payload_nonce p, payload_issued_at_ms p,
           payload_expires_at_ms p))
    (λ '(a, b, c, d, e, f, g, h, i, j, k), Some (mkPayload a b c d e f g h i j k)) _).
  by intros [].
Defined.

#[local] Instance payload_postcard : Postcard DescriptorSignedPayloadV2 := ser_postcard.

Definition olga : @SecretKey toy_ed25519 := ([x6f] : Bytes).
Definition anna : @SecretKey toy_ed25519 := ([x61] : Bytes).

Definition hash : Bytes := replicate 32 x2a.

(** Olga offers a song of three bytes; nobody has a grant, so her friends may read it. *)
Definition song : SharedFileRow :=
  mkShared (to_hex hash) (txt "olga") (txt "song") (txt "song.ogg") None true 1 1 7.

Definition object : FileObject :=
  mkObject (to_hex hash) 3 (txt "audio/ogg") (txt "song.ogg") 1 (Some [x01; x02; x03]) None None.

Definition db : Db := mkDb [song] [object] [] [] [] [].

Definition store : Outside :=
  mkOutside (λ _, None) (λ _, Some true) (λ _, None) (λ _, true) (λ _, None) (λ _, None) (λ _, None) (λ _, true).

Definition handler : FileAccessHandler (EndpointAddr := N) (Ticket := N) (MailboxKey := N) :=
  mkHandler olga (txt "olga")
    (friends.set_relationship (key_text (public anna)) friends.Friends (friends.empty_at (txt "d"))).

Definition quiet : Surroundings :=
  mkSurroundings (Some db) (Some db) (Some db) 1000 (Some db) 1000 (Some db)
    (new_prepare prepare_config_default) (Some db) (Some db) store true (Some db) 1000 (Some db) 1000
    1000 [x09].

Definition request (version : N) : FileAccessRequest := new_request (txt "song") hash version.

Definition descriptor : SignedDownloadDescriptor :=
  match sign_download_descriptor olga (public anna) (txt "song") hash 3 Raw 1000 61000 [x09] with
  | Done d => d
  | Panic => mkDescriptor 0 [] [] [] [] 0 [] [] 0 0 []
  end.

Lemma signed : sign_download_descriptor olga (public anna) (txt "song") hash 3 Raw 1000 61000 [x09] = Done descriptor.
Proof. by vm_compute. Qed.

Lemma anna_granted : check_permission handler (public anna) (request 7) quiet = Done (Granted descriptor).
Proof. by vm_compute. Qed.

Example stranger_refused : check_permission handler (public olga) (request 7) quiet = Done PermissionDenied.
Proof. by vm_compute. Qed.

Lemma descriptor_window_exact_witness :
  verify_download_descriptor descriptor (public olga) (public anna) 61000 = Valid.
Proof.
  apply (descriptor_window_exact olga (public anna) (txt "song") hash 3 Raw 1000 61000 [x09] descriptor signed).
  split; [done|]. split; [done|]. lia.
Defined.

Lemma descriptor_fields_bound_witness : descriptor = descriptor.
Proof.
  apply (descriptor_fields_bound descriptor descriptor (ser (from_descriptor descriptor)));
    reflexivity.
Defined.

Lemma nonce_single_use_witness :
  accepted (λ _, 5000%N) [x09] (present (λ _, 5000%N) [([x09], 1%N); ([x08], 2%N); ([x09], 3%N)] ∅) ≤ 1.
Proof.
  apply (nonce_single_use (λ _, 5000%N) [([x09], 1%N); ([x08], 2%N); ([x09], 3%N)] [x09]).
  repeat constructor; simpl; lia.
Defined.

Lemma last_instant_replayed_witness :
  verify_download_descriptor descriptor (public olga) (public anna) 61000 = Valid.
Proof.
  destruct (last_instant_replayed olga (public anna) (txt "song") hash 3 Raw 1000 61000 [x09] descriptor ∅
    signed) as [Hv _]; [lia|apply lookup_empty|]. exact Hv.
Defined.


Lemma quiet_steady : steady quiet db 1000.
Proof. by split. Qed.

Lemma serialized (p : DescriptorSignedPayloadV2) : is_Some (to_stdvec p).
Proof. by eexists. Qed.

Lemma steady_grant_iff_witness :
  validate (request 7) = Ok tt ∧ length (expected_content_hash (request 7)) = 32.
Proof.
  destruct (proj1 (steady_grant_iff handler (public anna) (request 7) quiet db 1000
    ltac:(discriminate) eq_refl quiet_steady serialized)
    (ex_intro _ descriptor anna_granted)) as (Hv & Hl & _). exact (conj Hv Hl).
Defined.

Lemma legacy_version_refused_witness :
  check_permission handler (public anna) (request 0) quiet ≠ Done (Granted descriptor).
Proof.
  apply (legacy_version_refused handler (public anna) (request 0) quiet song descriptor);
    [reflexivity|reflexivity|discriminate].
Defined.

(** Fifteen letters and an accented one. *)
Definition accented : FileAccessRequest := new_request (replicate 15 97%N ++ [233%N]) hash 7.

Lemma accented_valid : validate accented = Ok tt.
Proof. by vm_compute. Qed.

Lemma accented_unknown :
  get_shared_file_by_metadata_id (profile_user_id handler) (request_file_id accented) db = None.
Proof. by vm_compute. Qed.

Lemma accented_boundary :
  is_char_boundary (request_file_id accented) (Nat.min (text_len (request_file_id accented)) 16) = false.
Proof. by vm_compute. Qed.

Lemma multibyte_id_panics_witness : check_permission handler (public anna) accented quiet = Panic.
Proof.
  exact (multibyte_id_panics handler (public anna) accented quiet db accented_valid eq_refl accented_unknown
    accented_boundary).
Defined.

(** The crowd leaves. *)
Definition emptied : list Action :=
  crowd (txt "p") ++ replicate 4 (Step 0 ask) ++ replicate 4 (Step 1 ask) ++ [Cancel 2; Cancel 3].

Lemma emptied_gone k q :
  requests (server_run emptied (start upload_config_default)) !! k = Some q → phase q = Gone.
Proof.
  revert k q. assert (map_Forall (λ _ q, phase q = Gone)
    (requests (server_run emptied (start upload_config_default)))) as Hf; [|exact Hf].
  apply (bool_decide_unpack _). by vm_compute.
Qed.

Lemma no_slot_leaks_witness :
  active_left (uploads (server_run emptied (start upload_config_default))) = 8.
Proof.
  destruct (no_slot_leaks upload_config_default emptied emptied_gone) as (_ & Ha & _). exact Ha.
Defined.

End samples.
