(* ===== verification/Transfers.v ===== *)
(** * Direct transfers: [src/transfer_state_projection.rs], [src/file_offer.rs],
    [src/file_offer_protocol.rs]

    [Module transfer_state_projection] is the reducer of transfer events that the dashboard
    shows; [Module file_offer] the registry of offers; [Module file_offer_protocol] the two
    ends of a transfer: the connections of the sender, which take their steps in any order and
    share the registry, the permits and the dashboard, and the download of the receiver into a
    reserved destination ([Destination]).  Streams are lists of bytes that may break off
    anywhere; clocks, file metadata and what is read from a file belong to the environment.  The
    cancellations the user interface publishes on the dashboard are not steps of the model. *)

From Stdlib Require Import Strings.Byte NArith.
From stdpp Require Import prelude gmap strings.
From S2P Require Import Prelude Text Signing ShortCode Destination Tunnel.

Module transfer_state_projection.

Inductive TransferDirection : Type := Inbound | Outbound.

Inductive EventName : Type := Started | Progress | Verifying | Completed | Failed | Cancelled.

#[export] Instance event_name_eq_dec : EqDecision EventName.
Proof. solve_decision. Defined.

Record TransferEvent : Type := mkEvent {
  event_id : Text;
  transfer_id : Text;
  item_id : Text;
  direction : TransferDirection;
  peer_id : option Text;
  sequence : N;
  attempt : N;
  occurred_at_ms : N;
  kind : EventName;
  bytes : N;
  total_bytes : option N;
  error : option Text
}.

Inductive TransferState : Type :=
| ActiveState | VerifyingState | CompletedState | FailedState | CancelledState | Disconnected.

#[export] Instance transfer_state_eq_dec : EqDecision TransferState.
Proof. solve_decision. Defined.

Record TransferRecord : Type := mkRecord {
  r_transfer_id : Text;
  r_item_id : Text;
  r_direction : TransferDirection;
  r_peer_id : option Text;
  r_bytes : N;
  r_total_bytes : option N;
  r_state : TransferState;
  r_started_at_ms : N;
  r_updated_at_ms : N;
  r_error : option Text;
  r_attempt : N
}.

Definition terminal (s : TransferState) : bool :=
  match s with
  | CompletedState | FailedState | CancelledState => true
  | _ => false
  end.

Definition is_terminal (s : TransferState) : bool := terminal s.

Record ProjectionUpdate : Type := mkUpdate {
  transfer : TransferRecord;
  immediate : bool
}.

Record TransferProjection : Type := mkProjection {
  records : gmap Text TransferRecord;
  seen_event_ids : gset Text;
  last_sequence : gmap Text N;
  progress_interval_ms : N;
  last_progress_emit_ms : gmap Text N;
  archive : list TransferRecord
}.

Implicit Types (p : TransferProjection) (e : TransferEvent) (r : TransferRecord).

Definition with_progress_interval (interval : N) : TransferProjection :=
  mkProjection ∅ ∅ ∅ interval ∅ [].

Definition new (now_ms : N) : TransferProjection := with_progress_interval 250.

(** [or_insert_with] *)
Definition first_record e : TransferRecord :=
  mkRecord (transfer_id e) (item_id e) (direction e) (peer_id e) 0 None ActiveState
    (occurred_at_ms e) (occurred_at_ms e) None (attempt e).

Definition max_total (old new : option N) : option N :=
  match old, new with
  | Some a, Some b => Some (N.max a b)
  | Some a, None => Some a
  | None, _ => new
  end.

Definition state_of (k : EventName) : TransferState :=
  match k with
  | Started | Progress => ActiveState
  | Verifying => VerifyingState
  | Completed => CompletedState
  | Failed => FailedState
  | Cancelled => CancelledState
  end.

(** The record after an event that is not ignored. *)
Definition advance r e : TransferRecord :=
  mkRecord (r_transfer_id r) (item_id e) (r_direction r)
    (match r_peer_id r with None => peer_id e | Some q => Some q end)
    (N.max (r_bytes r) (bytes e)) (max_total (r_total_bytes r) (total_bytes e)) (state_of (kind e))
    (r_started_at_ms r) (N.max (r_updated_at_ms r) (occurred_at_ms e))
    (match kind e with Failed => take 256 <$> error e | _ => r_error r end)
    (N.max (r_attempt r) (attempt e)).

(** Whether the event is shown: everything but progress that comes too soon. *)
Definition is_immediate e p : bool :=
  negb (bool_decide (kind e = Progress)) || terminal (state_of (kind e)) ||
  match last_progress_emit_ms p !! transfer_id e with
  | None => true
  | Some last => bool_decide (progress_interval_ms p ≤ occurred_at_ms e - last)%N
  end.

Definition apply e p : option ProjectionUpdate * TransferProjection :=
  if decide (event_id e ∈ seen_event_ids p) then (None, p)
  else
    let seen := {[event_id e]} ∪ seen_event_ids p in
    let p := mkProjection (records p) seen (last_sequence p) (progress_interval_ms p)
               (last_progress_emit_ms p) (archive p) in
    if match last_sequence p !! transfer_id e with
       | Some last => bool_decide (sequence e ≤ last)%N
       | None => false
       end
    then (None, p)
    else
      let sequences := <[transfer_id e := sequence e]> (last_sequence p) in
      let r := default (first_record e) (records p !! transfer_id e) in
      if terminal (r_state r)
      then (None, mkProjection (<[transfer_id e := r]> (records p)) seen sequences
                    (progress_interval_ms p) (last_progress_emit_ms p) (archive p))
      else
        let r := advance r e in
        let imm := is_immediate e p in
        let emits :=
          if bool_decide (kind e = Started) || (bool_decide (kind e = Progress) && imm)
          then <[transfer_id e := occurred_at_ms e]> (last_progress_emit_ms p)
          else last_progress_emit_ms p in
        let arch := if terminal (r_state r) then archive p ++ [r] else archive p in
        (if imm then Some (mkUpdate r imm) else None,
         mkProjection (<[transfer_id e := r]> (records p)) seen sequences (progress_interval_ms p)
           emits arch).

(** [HashMap::values]: some order. *)
Class HashRecords : Type := {
  hash_records : gmap Text TransferRecord → list TransferRecord;
  hash_records_perm m : hash_records m ≡ₚ (map_to_list m).*2
}.

Section orders.
Context `{!HashRecords}.

Definition affected (peer : Text) r : bool :=
  bool_decide (r_peer_id r = Some peer) && negb (terminal (r_state r)).

Definition disconnected (now_ms : N) r : TransferRecord :=
  mkRecord (r_transfer_id r) (r_item_id r) (r_direction r) (r_peer_id r) (r_bytes r)
    (r_total_bytes r) Disconnected (r_started_at_ms r) (N.max (r_updated_at_ms r) now_ms)
    (r_error r) (r_attempt r).

Definition disconnect_peer (peer : Text) (now_ms : N) p : list ProjectionUpdate * TransferProjection :=
  ((λ r, mkUpdate (disconnected now_ms r) true) <$>
     filter (λ r, affected peer r = true) (hash_records (records p)),
   mkProjection ((λ r, if affected peer r then disconnected now_ms r else r) <$> records p)
     (seen_event_ids p) (last_sequence p) (progress_interval_ms p) (last_progress_emit_ms p) (archive p)).

Definition get (i : Text) p : option TransferRecord := records p !! i.

Definition snapshot p : list TransferRecord := hash_records (records p).

(** ** The shared store: the updates that were sent, oldest first *)
Record TransferStateStore : Type := mkStore {
  projection : TransferProjection;
  updates : list ProjectionUpdate
}.

Definition new_store : TransferStateStore := mkStore (new 0) [].

Definition publish e (s : TransferStateStore) : TransferStateStore :=
  let '(u, p) := apply e (projection s) in
  mkStore p (updates s ++ option_list u).

Definition store_disconnect_peer (peer : Text) (now_ms : N) (s : TransferStateStore)
    : TransferStateStore :=
  let '(us, p) := disconnect_peer peer now_ms (projection s) in
  mkStore p (updates s ++ us).

End orders.

(** [TransferProgress] of [chat_callbacks.rs], without the names. *)
Inductive TransferProgress : Type :=
| OnStarted (total : option N)
| OnProgress (bytes : N) (total : option N)
| OnCompleted
| OnFailed (error : Text)
| OnCancelled.

Definition progress_event (eid : Text) (i : N) (item : Text) (peer : option Text) (seq now_ms : N)
    (progress : TransferProgress) : TransferEvent :=
  let '(k, b, t, err) :=
    match progress with
    | OnStarted total => (Started, 0%N, total, None)
    | OnProgress b total => (Progress, b, total, None)
    | OnCompleted => (Completed, 0%N, None, None)
    | OnFailed err => (Failed, 0%N, None, Some err)
    | OnCancelled => (Cancelled, 0%N, None, None)
    end in
  mkEvent eid (decimal i) item Inbound peer seq 1 now_ms k b t err.

Definition publish_progress (eid : Text) (i : N) (item : Text) (peer : option Text) (seq now_ms : N)
    (progress : TransferProgress) (s : TransferStateStore) : TransferStateStore :=
  publish (progress_event eid i item peer seq now_ms progress) s.

End transfer_state_projection.

Module file_offer.

(** [FileOfferId]: 32 bytes. *)
Abbreviation FileOfferId := Bytes.

(** 24 hours, in milliseconds. *)
Definition DEFAULT_FILE_OFFER_TTL : N := 86400000.

Record FileOffer : Type := mkOffer {
  id : FileOfferId;
  authorized_peer : PublicKey;
  path : Text;
  display_name : Text;
  size : N;
  created_at : N;
  modified_at : N
}.

Record FileOfferRegistry : Type := mkRegistry {
  offers : gmap FileOfferId FileOffer;
  ttl : N
}.

Implicit Types (o : FileOffer) (g : FileOfferRegistry).

Definition with_ttl (t : N) : FileOfferRegistry := mkRegistry ∅ t.

Definition new : FileOfferRegistry := with_ttl DEFAULT_FILE_OFFER_TTL.

Definition register o g : option FileOffer * FileOfferRegistry :=
  (offers g !! id o, mkRegistry (<[id o := o]> (offers g)) (ttl g)).

Definition get (i : FileOfferId) g : option FileOffer := offers g !! i.

Definition is_expired (now : N) o g : bool := bool_decide (ttl g < now - created_at o)%N.

Definition remove (i : FileOfferId) g : option FileOffer * FileOfferRegistry :=
  (offers g !! i, mkRegistry (delete i (offers g)) (ttl g)).

Definition prune_expired (now : N) g : nat * FileOfferRegistry :=
  let kept := filter (λ x, now - created_at x.2 ≤ ttl g)%N (offers g) in
  (base.size (offers g) - base.size kept, mkRegistry kept (ttl g)).

(** [is_file] is what the file system answers for a path. *)
Definition prune_stale (now : N) (is_file : Text → bool) g : nat * FileOfferRegistry :=
  let kept := filter (λ x, (now - created_at x.2 ≤ ttl g)%N ∧ is_file (path x.2) = true) (offers g) in
  (base.size (offers g) - base.size kept, mkRegistry kept (ttl g)).

Definition clear g : FileOfferRegistry := mkRegistry ∅ (ttl g).

Definition len g : nat := base.size (offers g).

End file_offer.

Module file_offer_protocol.
Import transfer_state_projection file_offer.

Definition FILE_OFFER_WIRE_VERSION : N := 1.
Definition MAX_FRAME_SIZE : N := 65536.
Definition MAX_CONCURRENT_TRANSFERS : nat := 32.
Definition BUFFER : nat := N.to_nat 65536.

Record FileOfferRequest : Type := mkOfferRequest {
  req_version : N;
  req_offer_id : FileOfferId
}.

Record FileOfferHeader : Type := mkHeader {
  h_version : N;
  h_offer_id : FileOfferId;
  h_name : Text;
  h_size : N
}.

Record FileOfferCompletion : Type := mkCompletion {
  c_offer_id : FileOfferId;
  c_bytes_sent : N;
  c_blake3_hash : Bytes
}.

Inductive FileOfferError : Type :=
| UnsupportedVersion | NotFound | PermissionDenied | Expired | SourceUnavailable | SourceChanged | Busy.

#[export] Instance file_offer_error_eq_dec : EqDecision FileOfferError.
Proof. solve_decision. Defined.

Inductive FileOfferResponse : Type :=
| Header (h : FileOfferHeader)
| Error (e : FileOfferError).

(** ** Frames *)

(** [write_u32_le] and [read_u32_le] *)
Fixpoint to_le (w : nat) (n : N) : Bytes :=
  match w with
  | 0 => []
  | S w' => default x00 (Byte.of_N (n mod 256)) :: to_le w' (n / 256)
  end.

Fixpoint from_le (bs : Bytes) : N :=
  match bs with
  | [] => 0
  | b :: bs' => Byte.to_N b + 256 * from_le bs'
  end.

(** The bytes of a frame; [None] is an error. *)
Definition write_frame {A} `{!Postcard A} (a : A) : option Bytes :=
  payload ← to_stdvec a;
  if decide (MAX_FRAME_SIZE < N.of_nat (length payload))%N then None
  else Some (to_le 4 (N.of_nat (length payload)) ++ payload).

(** A frame at the beginning of a stream that ends, or breaks off, after these bytes. *)
Definition read_frame {A} `{!Postcard A} (stream : Bytes) : option (A * Bytes) :=
  if decide (length stream < 4) then None
  else
    let n := from_le (take 4 stream) in
    let rest := drop 4 stream in
    if decide (MAX_FRAME_SIZE < n)%N then None
    else if decide (length rest < N.to_nat n) then None
    else a ← from_bytes (take (N.to_nat n) rest); Some (a, drop (N.to_nat n) rest).

(** ** Printing *)

(** [format!("{:?}")] of an identifier and of the kind of an event *)
Fixpoint comma_separated (ts : list Text) : Text :=
  match ts with
  | [] => []
  | [t] => t
  | t :: ts' => t ++ txt ", " ++ comma_separated ts'
  end.

Definition debug_id (i : FileOfferId) : Text :=
  txt "FileOfferId([" ++ comma_separated ((λ b, decimal (Byte.to_N b)) <$> i) ++ txt "])".

Definition debug_kind (k : EventName) : Text :=
  match k with
  | Started => txt "Started"
  | Progress => txt "Progress"
  | Verifying => txt "Verifying"
  | Completed => txt "Completed"
  | Failed => txt "Failed"
  | Cancelled => txt "Cancelled"
  end.

Definition direct_id (number : N) : Text := txt "direct:" ++ decimal number.

(** [publish_outbound_event]: the event, at the time [now_ms]. *)
Definition outbound_event (tid item peer : Text) (seq : N) (k : EventName) (b : N) (total : option N)
    (err : option Text) (now_ms : N) : TransferEvent :=
  mkEvent (tid ++ txt ":" ++ decimal seq ++ txt ":" ++ debug_kind k) tid item Outbound (Some peer) seq 1
    now_ms k b total err.

Section protocol.
Context `{!Hasher, !KeyText, !HashRecords}.
Context `{!Postcard FileOfferRequest, !Postcard FileOfferResponse, !Postcard FileOfferCompletion}.

(** ** The sender *)

(** What the file system tells about a path or an open file; the time may be missing. *)
Record Meta : Type := mkMeta {
  m_is_file : bool;
  m_len : N;
  m_modified : option N
}.

(** The checks of [authorize_offer] before the file is looked at. *)
Definition authorize_registry (requester : PublicKey) (i : FileOfferId) (now : N) (g : FileOfferRegistry)
    : res FileOfferError FileOffer :=
  offer ← ok_or NotFound (get i g);
  let expired := is_expired now offer g in
  ensure (bool_decide (authorized_peer offer = requester)) PermissionDenied;;
  ensure (negb expired) Expired;;
  Ok offer.

(** ... and of its source. *)
Definition authorize_source (offer : FileOffer) (meta : option Meta) : res FileOfferError unit :=
  m ← ok_or SourceUnavailable meta;
  ensure (m_is_file m) SourceUnavailable;;
  ensure (bool_decide (m_len m = size offer)) SourceChanged;;
  modified ← ok_or SourceUnavailable (m_modified m);
  ensure (bool_decide (modified = modified_at offer)) SourceChanged.

(** The file that was opened: an error that is not answered is [inr tt]. *)
Definition check_opened (offer : FileOffer) (meta : option Meta) : res (FileOfferError + unit) unit :=
  m ← ok_or (inr tt) meta;
  ensure (m_is_file m) (inl SourceUnavailable);;
  (if bool_decide (m_len m = size offer) then
     modified ← ok_or (inr tt) (m_modified m);
     ensure (bool_decide (modified = modified_at offer)) (inl SourceChanged)
   else Err (inl SourceChanged)).

(** Where a connection is in [serve_connection].  [sent] is what was read from the file and
    written so far. *)
Inductive Phase : Type :=
| Opened
| ReadingRequest
| LookingUp (i : FileOfferId)
| Stating (offer : FileOffer)
| Opening (offer : FileOffer)
| Greeting (offer : FileOffer)
| Starting (offer : FileOffer)
| Streaming (offer : FileOffer) (sent : Bytes)
| Reporting (offer : FileOffer) (sent : Bytes)
| Failing (offer : FileOffer) (sent : Bytes) (err : Text)
| Closing (offer : FileOffer) (sent : Bytes)
| Completing (offer : FileOffer) (sent : Bytes)
| Ended.

(** [written] is what was written to the peer. *)
Record Conn : Type := mkConn {
  remote_id : PublicKey;
  transfer_number : N;
  phase : Phase;
  written : Bytes
}.

Record Sender : Type := mkSender {
  registry : FileOfferRegistry;
  transfers : nat;
  transfer_store : TransferStateStore;
  next_transfer_id : N;
  conns : gmap N Conn
}.

(** What the environment decides for a step.  [wrote] is [None] when a write succeeds, or how
    many bytes went out before it failed. *)
Record Input : Type := mkInput {
  incoming : Bytes;
  instant : N;
  wall_ms : N;
  meta : option Meta;
  wrote : option nat;
  chunk : option Bytes;
  read_error : Text
}.

Implicit Types (s : Sender) (c : Conn) (i : Input) (offer : FileOffer).

Definition set_phase (ph : Phase) c : Conn := mkConn (remote_id c) (transfer_number c) ph (written c).

(** Write some bytes: go on, or end. *)
Definition write_out i (bs : option Bytes) (next failed : Phase) c : Conn :=
  match bs with
  | None => set_phase failed c
  | Some bs =>
      match wrote i with
      | None => mkConn (remote_id c) (transfer_number c) next (written c ++ bs)
      | Some n => mkConn (remote_id c) (transfer_number c) failed (written c ++ take n bs)
      end
  end.

Definition reject i (e : FileOfferError) c : Conn := write_out i (write_frame (Error e)) Ended Ended c.

Definition publish_outbound_event i c offer (seq : N) (k : EventName) (b : N) (err : option Text)
    (st : TransferStateStore) : TransferStateStore :=
  publish (outbound_event (direct_id (transfer_number c)) (txt "direct-offer:" ++ debug_id (id offer))
             (key_text (remote_id c)) seq k b (Some (size offer)) err (wall_ms i)) st.

(** [bytes_sent.saturating_add(1)] *)
Definition saturating_incr (n : N) : N := N.min (n + 1) u64_max.

(** One round of [stream_exact_with_progress], up to the report. *)
Definition stream_read i offer (sent : Bytes) c : Conn :=
  let want := Nat.min BUFFER (N.to_nat (size offer) - length sent) in
  match take want <$> chunk i with
  | None => set_phase (Failing offer sent (read_error i)) c
  | Some [] =>
      set_phase (Failing offer sent
        (txt "source ended early: sent " ++ decimal (N.of_nat (length sent)) ++ txt " of "
           ++ decimal (size offer) ++ txt " bytes")) c
  | Some bs => write_out i (Some bs) (Reporting offer (sent ++ bs)) (Failing offer sent (read_error i)) c
  end.

Definition step_conn i c s : Conn * nat * TransferStateStore :=
  let st := transfer_store s in
  let free := transfers s in
  match phase c with
  | Opened =>
      match free with
      | 0 => (reject i Busy c, 0, st)
      | S n => (set_phase ReadingRequest c, n, st)
      end
  | ReadingRequest =>
      match read_frame (incoming i) with
      | None => (set_phase Ended c, S free, st)
      | Some (r, _) =>
          if decide (req_version r = FILE_OFFER_WIRE_VERSION) then
            (set_phase (LookingUp (req_offer_id r)) c, free, st)
          else (reject i UnsupportedVersion c, S free, st)
      end
  | LookingUp oid =>
      match authorize_registry (remote_id c) oid (instant i) (registry s) with
      | Ok offer => (set_phase (Stating offer) c, free, st)
      | Err e => (reject i e c, S free, st)
      | Panicked => (set_phase Ended c, S free, st)
      end
  | Stating offer =>
      match authorize_source offer (meta i) with
      | Ok _ => (set_phase (Opening offer) c, free, st)
      | Err e => (reject i e c, S free, st)
      | Panicked => (set_phase Ended c, S free, st)
      end
  | Opening offer =>
      match check_opened offer (meta i) with
      | Ok _ => (set_phase (Greeting offer) c, free, st)
      | Err (inl e) => (reject i e c, S free, st)
      | _ => (set_phase Ended c, S free, st)
      end
  | Greeting offer =>
      let c' := write_out i (write_frame (Header (mkHeader FILE_OFFER_WIRE_VERSION (id offer)
                              (display_name offer) (size offer)))) (Starting offer) Ended c in
      (c', match phase c' with Ended => S free | _ => free end, st)
  | Starting offer =>
      (set_phase (if decide (size offer = 0%N) then Closing offer [] else Streaming offer []) c, free,
       publish_outbound_event i c offer 0 Started 0 None st)
  | Streaming offer sent =>
      (stream_read i offer sent c, free, st)
  | Reporting offer sent =>
      let n := N.of_nat (length sent) in
      (set_phase (if decide (n < size offer)%N then Streaming offer sent else Closing offer sent) c, free,
       publish_outbound_event i c offer n Progress n None st)
  | Failing offer sent err =>
      (set_phase Ended c, S free, publish_outbound_event i c offer u64_max Failed 0 (Some err) st)
  | Closing offer sent =>
      let c' := write_out i (write_frame (mkCompletion (id offer) (N.of_nat (length sent)) (blake3 sent)))
                  (Completing offer sent) Ended c in
      (c', match phase c' with Ended => S free | _ => free end, st)
  | Completing offer sent =>
      let n := N.of_nat (length sent) in
      (set_phase Ended c, S free, publish_outbound_event i c offer (saturating_incr n) Completed n None st)
  | Ended => (c, free, st)
  end.

Inductive Action : Type :=
| Accept (k : N) (peer : PublicKey)
| Step (k : N) (i : Input)
| Register (o : FileOffer)
| Remove (i : FileOfferId)
| PruneExpired (now : N)
| PruneStale (now : N) (is_file : Text → bool)
| Clear
| Disconnect (peer : Text) (now_ms : N).

Definition set_registry (g : FileOfferRegistry) s : Sender :=
  mkSender g (transfers s) (transfer_store s) (next_transfer_id s) (conns s).

Definition sender_step (a : Action) s : Sender :=
  match a with
  | Accept k peer =>
      match conns s !! k with
      | Some _ => s
      | None =>
          mkSender (registry s) (transfers s) (transfer_store s)
            ((next_transfer_id s + 1) mod (u64_max + 1))
            (<[k := mkConn peer (next_transfer_id s) Opened []]> (conns s))
      end
  | Step k i =>
      match conns s !! k with
      | None => s
      | Some c =>
          let '(c, free, st) := step_conn i c s in
          mkSender (registry s) free st (next_transfer_id s) (<[k := c]> (conns s))
      end
  | Register o => set_registry (register o (registry s)).2 s
  | Remove oid => set_registry (remove oid (registry s)).2 s
  | PruneExpired now => set_registry (prune_expired now (registry s)).2 s
  | PruneStale now is_file => set_registry (prune_stale now is_file (registry s)).2 s
  | Clear => set_registry (clear (registry s)) s
  | Disconnect peer now_ms =>
      mkSender (registry s) (transfers s) (store_disconnect_peer peer now_ms (transfer_store s))
        (next_transfer_id s) (conns s)
  end.

Definition sender_run (acts : list Action) s : Sender := foldl (λ s a, sender_step a s) s acts.

Definition start_sender : Sender :=
  mkSender new MAX_CONCURRENT_TRANSFERS new_store 1 ∅.

(** ** The receiver *)

Context `{!Uppercase}.
Import paths safe_destination.

Inductive DownloadError : Type :=
| Broken
| Refused (e : FileOfferError)
| NotReserved
| NotPublished.

(** [open_file_offer]: the header and what follows it. *)
Definition open_file_offer (stream : Bytes) : res DownloadError (FileOfferHeader * Bytes) :=
  match read_frame stream with
  | None => Err Broken
  | Some (Header h, rest) =>
      if decide (h_version h = FILE_OFFER_WIRE_VERSION) then Ok (h, rest) else Err Broken
  | Some (Error e, _) => Err (Refused e)
  end.

Definition verify_completion (h : FileOfferHeader) (requested : FileOfferId) (received : N)
    (hash : Bytes) (completion : FileOfferCompletion) : res DownloadError unit :=
  if negb (bool_decide (c_offer_id completion = h_offer_id h)) ||
     negb (bool_decide (c_offer_id completion = requested)) ||
     negb (bool_decide (c_bytes_sent completion = received)) ||
     negb (bool_decide (received = h_size h)) ||
     negb (bool_decide (c_blake3_hash completion = hash))
  then Err Broken else Ok tt.

(** The loop: each read returns between one byte and what is asked for, and is written to the
    file, or fails.  The list of reads ends when the download is dropped while it waits. *)
Fixpoint receive_loop (reads : list (nat * bool)) (total : N) (stream got : Bytes)
    : option (Bytes * Bytes) :=
  if decide (N.of_nat (length got) < total)%N then
    match reads with
    | [] => None
    | (n, write_ok) :: reads' =>
        let want := Nat.min (N.to_nat total - length got) BUFFER in
        let bs := take (Nat.min (S n) want) stream in
        if decide (bs = []) then None
        else if write_ok
        then receive_loop reads' total (drop (length bs) stream) (got ++ bs)
        else None
    end
  else Some (got, stream).

(** The file tree, and the contents of the files by their identity. *)
Record Disk : Type := mkDisk {
  tree : Fs;
  contents : gmap N Bytes
}.

(** What the environment decides for a download: whether creating a file is refused, the
    identity of the new file, the reads, and whether flushing succeeds. *)
Record Weather : Type := mkWeather {
  refused : N → bool;
  inode : N;
  reads : list (nat * bool);
  flushed : bool
}.

(** [take_file] and [restore_file] *)
Definition set_file (f : option N) (r : ReservedDestination) : ReservedDestination :=
  mkReserved f (write_path r) (final_path r) (rename_on_publish r) (published r).

(** After the reservation; [Err] drops it. *)
Definition receive_into (h : FileOfferHeader) (requested : FileOfferId) (rest : Bytes) (w : Weather)
    : res DownloadError Bytes :=
  '(got, rest) ← ok_or Broken (receive_loop (reads w) (h_size h) rest []);
  '(completion, _) ← ok_or Broken (read_frame rest);
  verify_completion h requested (N.of_nat (length got)) (blake3 got) completion;;
  ensure (flushed w) Broken;;
  Ok got.

Definition download_file_offer (stream : Bytes) (requested : FileOfferId) (dir : Path) (w : Weather)
    (d : Disk) : res DownloadError Path * Disk :=
  match open_file_offer stream with
  | Err e => (Err e, d)
  | Panicked => (Panicked, d)
  | Ok (h, rest) =>
      match reserve_download_destination (tree d) dir (h_name h) (debug_id requested) KeepBoth
              (refused w) (inode w) with
      | (Ok (Use r), fs) =>
          match receive_into h requested rest w with
          | Ok got =>
              match publish (set_file (Some (inode w)) r) true fs with
              | (Ok path, fs) => (Ok path, mkDisk fs (<[inode w := got]> (contents d)))
              | (_, fs) => (Err NotPublished, mkDisk fs (contents d))
              end
          | Err e => (Err e, mkDisk (drop_reservation (set_file None r) fs) (contents d))
          | Panicked => (Panicked, d)
          end
      | (Ok Skip, fs) => (Err NotReserved, mkDisk fs (contents d))
      | (Err _, fs) => (Err NotReserved, mkDisk fs (contents d))
      | (Panicked, fs) => (Panicked, mkDisk fs (contents d))
      end
  end.

End protocol.
End file_offer_protocol.
