(* ===== verification/TransfersFacts.v ===== *)
(** * Facts about direct transfers

    The dashboard: an event counts exactly if its id is new and its sequence number is greater
    than all before; outcomes are final and archived once; progress is shown at its cadence.
    The protocol: only the peer of an offer is served, within the permits; a transfer shown as
    completed was written completely; a download is all or nothing and receives exactly what
    was sent.  And the transfers that stay active for ever and the failures nobody is told. *)

From Stdlib Require Import Strings.Byte NArith.
From stdpp Require Import prelude gmap strings.
From S2P Require Import Prelude Text Signing Concrete ShortCode Destination DestinationFacts Tunnel Transfers.

Module projection_facts.
Import transfer_state_projection.

Section facts.
Context `{!HashRecords}.
Implicit Types (p : TransferProjection) (e : TransferEvent) (r : TransferRecord) (t : Text).

(** What happens to a projection. *)
Inductive Op : Type := Apply (e : TransferEvent) | Drop (peer : Text) (now_ms : N).

Definition op_step p (o : Op) : TransferProjection :=
  match o with
  | Apply e => (apply e p).2
  | Drop peer now_ms => (disconnect_peer peer now_ms p).2
  end.

Definition replay (ops : list Op) p : TransferProjection := foldl op_step p ops.

Lemma replay_app ops ops' p : replay (ops ++ ops') p = replay ops' (replay ops p).
Proof. unfold replay. by rewrite foldl_app. Qed.

(** *** Which events count *)

Definition ids (ops : list Op) : list Text :=
  omap (λ o, match o with Apply e => Some (event_id e) | Drop _ _ => None end) ops.

(** The events whose id is new. *)
Definition first_in (ops : list Op) e : Prop :=
  ∃ ops1 ops2, ops = ops1 ++ Apply e :: ops2 ∧ event_id e ∉ ids ops1.

(** An event counts if its id is new and its sequence number greater than those of the
    transfer's events before. *)
Definition news (ops : list Op) e : Prop :=
  (event_id e ∉ ids ops) ∧
  ∀ e', first_in ops e' → transfer_id e' = transfer_id e → (sequence e' < sequence e)%N.

(** The record of a transfer after one more event that counts. *)
Definition observe (old : option TransferRecord) e : TransferRecord :=
  let r := default (first_record e) old in
  if terminal (r_state r) then r else advance r e.

Lemma ids_app ops ops' : ids (ops ++ ops') = ids ops ++ ids ops'.
Proof. apply omap_app. Qed.

Lemma first_in_snoc ops o e :
  first_in (ops ++ [o]) e ↔ first_in ops e ∨ (o = Apply e ∧ event_id e ∉ ids ops).
Proof.
  split.
  - intros (ops1 & ops2 & Heq & Hid). destruct ops2 as [|x ops2 _] using rev_ind.
    + apply app_inj_tail in Heq as [-> ->]. by right.
    + rewrite app_comm_cons, app_assoc in Heq. apply app_inj_tail in Heq as [-> ->].
      left. by exists ops1, ops2.
  - intros [(ops1 & ops2 & -> & Hid)|[-> Hid]].
    + exists ops1, (ops2 ++ [o]). split; [|done]. by rewrite <-app_assoc.
    + by exists ops, [].
Qed.

Lemma first_in_id ops e : first_in ops e → event_id e ∈ ids ops.
Proof. intros (ops1 & ops2 & -> & _). rewrite ids_app. set_solver. Qed.

(** What the projection remembers of the history. *)
Record remembers (ops : list Op) p : Prop := {
  rem_seen : ∀ x, x ∈ seen_event_ids p ↔ x ∈ ids ops;
  rem_last : ∀ t n, last_sequence p !! t = Some n →
    (∃ e, first_in ops e ∧ transfer_id e = t ∧ sequence e = n) ∧
    ∀ e, first_in ops e → transfer_id e = t → (sequence e ≤ n)%N;
  rem_none : ∀ t e, last_sequence p !! t = None → first_in ops e → transfer_id e ≠ t
}.

Lemma news_iff ops p e :
  remembers ops p →
  (news ops e ↔ (event_id e ∉ seen_event_ids p) ∧
     match last_sequence p !! transfer_id e with Some last => (last < sequence e)%N | None => True end).
Proof.
  intros [Hs Hl Hn]. unfold news. rewrite Hs. apply and_iff_compat_l.
  destruct (last_sequence p !! transfer_id e) as [n|] eqn:E.
  - destruct (Hl _ _ E) as [(e' & Hf & Ht & Hq) Hmax]. split.
    + intros Hall. rewrite <-Hq. by apply Hall.
    + intros Hlt e2 Hf2 Ht2. specialize (Hmax e2 Hf2 Ht2). lia.
  - split; [done|]. intros _ e' Hf Ht. by destruct (Hn _ e' E Hf).
Qed.

(** One event, in terms of what is remembered. *)
Lemma event_cases e p :
  (event_id e ∈ seen_event_ids p ∧ apply e p = (None, p)) ∨
  ((event_id e ∉ seen_event_ids p) ∧ ∃ last, last_sequence p !! transfer_id e = Some last ∧
     (sequence e ≤ last)%N ∧
     apply e p = (None, mkProjection (records p) ({[event_id e]} ∪ seen_event_ids p) (last_sequence p)
       (progress_interval_ms p) (last_progress_emit_ms p) (archive p))) ∨
  ((event_id e ∉ seen_event_ids p) ∧
   match last_sequence p !! transfer_id e with Some last => (last < sequence e)%N | None => True end ∧
   seen_event_ids (apply e p).2 = {[event_id e]} ∪ seen_event_ids p ∧
   last_sequence (apply e p).2 = <[transfer_id e := sequence e]> (last_sequence p) ∧
   records (apply e p).2 = <[transfer_id e := observe (records p !! transfer_id e) e]> (records p)).
Proof.
  unfold apply, observe. case_decide as Hid; [by left|right]. cbv zeta. simpl.
  destruct (last_sequence p !! transfer_id e) as [n|].
  - case_bool_decide; [left; eauto|right]. destruct (terminal (r_state (default _ _))); simpl;
      split_and!; done || lia.
  - right. destruct (terminal (r_state (default _ _))); simpl; done.
Qed.

Lemma remembers_step ops p o : remembers ops p → remembers (ops ++ [o]) (op_step p o).
Proof.
  intros Hr. pose proof Hr as [Hs Hl Hn]. destruct o as [e|peer now]; simpl.
  2: { split; simpl.
       - intros x. rewrite ids_app, Hs. simpl. by rewrite app_nil_r.
       - intros t n Hln. destruct (Hl t n Hln) as [(e & Hf & He) Hmax]. setoid_rewrite first_in_snoc.
         split; [exists e; auto|]. intros e' [Hf'|[? _]]; [auto|done].
       - intros t e Hln [Hf|[? _]]%first_in_snoc; [by apply (Hn t)|done]. }
  assert (∀ x, x ∈ ids (ops ++ [Apply e]) ↔ x = event_id e ∨ x ∈ ids ops) as Hids.
  { intros x. rewrite ids_app. simpl. set_solver. }
  destruct (event_cases e p) as [[Hin Hp]|[(Hin & last & Hlast & Hle & Hp)|(Hin & Hlast & Hseen & Hseq & _)]].
  - rewrite Hp. simpl. split; [intros x; rewrite Hids, Hs; apply Hs in Hin; naive_solver|..].
    + intros t n Hln. destruct (Hl t n Hln) as [(e0 & Hf & He) Hmax]. setoid_rewrite first_in_snoc.
      split; [exists e0; auto|]. intros e' [Hf'|[[= <-] Hnid]]; [auto|]. by destruct Hnid; apply Hs.
    + intros t e0 Hln [Hf|[[= <-] Hnid]]%first_in_snoc; [by apply (Hn t)|]. by destruct Hnid; apply Hs.
  - rewrite Hp. simpl. split; simpl; [intros x; rewrite Hids, <-Hs; set_solver|..].
    + intros t n Hln. destruct (Hl t n Hln) as [(e0 & Hf & He) Hmax]. setoid_rewrite first_in_snoc.
      split; [exists e0; auto|]. intros e' [Hf'|[[= <-] _]] Ht; [auto|]. subst t. by simplify_eq.
    + intros t e0 Hln [Hf|[[= <-] _]]%first_in_snoc; [by apply (Hn t)|]. intros <-. congruence.
  - split.
    + intros x. rewrite Hids, Hseen, <-Hs. set_solver.
    + intros t n. rewrite Hseq, lookup_insert. case_decide as Ht.
      * subst t. intros [= <-]. setoid_rewrite first_in_snoc. split.
        { exists e. split; [|done]. right. split; [done|]. by rewrite <-Hs. }
        intros e' [Hf|[[= <-] _]] Ht'; [|done].
        destruct (last_sequence p !! transfer_id e) as [m|] eqn:E.
        -- destruct (Hl _ _ E) as [_ Hmax]. specialize (Hmax e' Hf Ht'). lia.
        -- by destruct (Hn _ e' E Hf).
      * intros Hln. destruct (Hl t n Hln) as [(e0 & Hf & He) Hmax]. setoid_rewrite first_in_snoc.
        split; [exists e0; auto|]. intros e' [Hf'|[[= <-] _]] Ht'; [auto|done].
    + intros t e0. rewrite Hseq, lookup_insert. case_decide; [done|].
      intros Hln [Hf|[[= <-] _]]%first_in_snoc; [by apply (Hn t)|done].
Qed.

Lemma remembers_replay iv ops : remembers ops (replay ops (with_progress_interval iv)).
Proof.
  induction ops as [|o ops IH] using rev_ind.
  - split; simpl; [set_solver|by intros t n; rewrite lookup_empty|].
    intros t e _ (ops1 & ops2 & Heq & _). by destruct ops1.
  - rewrite replay_app. by apply remembers_step.
Qed.

(** after whatever history of events and disconnections, an event changes the dashboard
    exactly if its id was never used and its sequence number is greater than that of every
    event of its transfer; then it advances the record of its own transfer, unless that has
    its outcome; every other event changes no record. *)
Theorem event_effect_exact iv ops e :
  let p := replay ops (with_progress_interval iv) in
  (news ops e → records (apply e p).2 =
     <[transfer_id e := observe (records p !! transfer_id e) e]> (records p)) ∧
  (¬ news ops e → records (apply e p).2 = records p ∧ (apply e p).1 = None).
Proof.
  cbv zeta. rewrite (news_iff _ _ _ (remembers_replay iv ops)).
  destruct (event_cases e (replay ops (with_progress_interval iv)))
    as [[Hin Hp]|[(Hin & last & Hlast & Hle & Hp)|(Hin & Hlast & _ & _ & Hrec)]].
  - rewrite Hp. naive_solver.
  - rewrite Hp, Hlast. split; [intros [_ ?]; lia|done].
  - split; [done|]. intros Hn. by destruct Hn.
Qed.

(** *** Outcomes *)

Lemma apply_records e p :
  records (apply e p).2 = records p ∧ archive (apply e p).2 = archive p ∨
  records (apply e p).2 = <[transfer_id e := observe (records p !! transfer_id e) e]> (records p) ∧
  archive (apply e p).2 =
    archive p ++ (let r := default (first_record e) (records p !! transfer_id e) in
                  if terminal (r_state r) then []
                  else if terminal (r_state (advance r e)) then [advance r e] else []).
Proof.
  unfold apply, observe. case_decide; [by left|]. cbv zeta. simpl.
  destruct (match last_sequence p !! transfer_id e with Some _ => _ | None => _ end); [by left|right].
  destruct (terminal (r_state (default _ _))); simpl; [by rewrite app_nil_r|].
  split; [done|]. destruct (terminal (state_of (kind e))); [done|]. by rewrite app_nil_r.
Qed.

Record archived p : Prop := {
  a_ids : ∀ t r, records p !! t = Some r → r_transfer_id r = t;
  a_nodup : NoDup (r_transfer_id <$> archive p);
  a_exact : ∀ r, r ∈ archive p ↔ records p !! r_transfer_id r = Some r ∧ terminal (r_state r) = true
}.

Lemma observe_id e p :
  (∀ t r, records p !! t = Some r → r_transfer_id r = t) →
  r_transfer_id (default (first_record e) (records p !! transfer_id e)) = transfer_id e.
Proof. intros Hid. destruct (records p !! transfer_id e) as [r|] eqn:E; simpl; [by apply Hid|done]. Qed.

Lemma archived_step p o : archived p → archived (op_step p o).
Proof.
  intros [Hid Hnd Hex]. destruct o as [e|peer now]; simpl.
  - destruct (apply_records e p) as [[Hr Ha]|[Hr Ha]]; [by split; rewrite ?Hr, ?Ha|].
    pose proof (observe_id e p Hid) as Hoid. unfold observe in Hr.
    set (r := default (first_record e) (records p !! transfer_id e)) in *. cbv zeta in *.
    destruct (terminal (r_state r)) eqn:Ht.
    + assert (records (apply e p).2 = records p) as Hsame.
      { rewrite Hr. destruct (records p !! transfer_id e) as [r0|] eqn:E; [|done].
        by apply insert_id. }
      rewrite app_nil_r in Ha. by split; rewrite ?Hsame, ?Ha.
    + assert (∀ r', r' ∈ archive p → r_transfer_id r' ≠ transfer_id e) as Hnew.
      { intros r' [Hl Ht']%Hex Heq. rewrite Heq in Hl. subst r. rewrite Hl in Ht. simpl in Ht. congruence. }
      split.
      * intros t r'. rewrite Hr, lookup_insert. case_decide; [intros [= <-]; by subst|apply Hid].
      * rewrite Ha, fmap_app. apply NoDup_app. split; [done|]. split.
        -- intros x (r' & -> & Hin)%list_elem_of_fmap. specialize (Hnew r' Hin).
           destruct (terminal (r_state (advance r e))); simpl; [|set_solver]. rewrite Hoid. set_solver.
        -- destruct (terminal (r_state (advance r e))); simpl; [apply NoDup_singleton|apply NoDup_nil_2].
      * intros r'. rewrite Ha, elem_of_app, Hr, lookup_insert. case_decide as Heq.
        -- split.
           ++ intros [Hin|Hin]; [by destruct (Hnew r' Hin)|]. destruct (terminal (r_state (advance r e))) eqn:Ht';
                [|by apply elem_of_nil in Hin]. apply list_elem_of_singleton in Hin as ->. done.
           ++ intros [[= <-] Ht']. right. rewrite Ht'. by left.
        -- rewrite Hex. split; [|by left]. intros [?|Hin]; [done|].
           destruct (terminal (r_state (advance r e))); [|by apply elem_of_nil in Hin].
           apply list_elem_of_singleton in Hin as ->. simpl in Heq. congruence.
  - assert (∀ t r, ((λ r, if affected peer r then disconnected now r else r) <$> records p) !! t = Some r ↔
      ∃ r0, records p !! t = Some r0 ∧ r = if affected peer r0 then disconnected now r0 else r0) as Hl.
    { intros t r. rewrite lookup_fmap, fmap_Some. naive_solver. }
    split; simpl.
    + intros t r (r0 & Hr0 & ->)%Hl. rewrite <-(Hid _ _ Hr0). by destruct (affected peer r0).
    + done.
    + intros r. rewrite Hex, Hl. split.
      * intros [Hr Ht]. split; [|done]. exists r. split; [done|]. unfold affected. rewrite Ht.
        by rewrite andb_false_r.
      * intros [(r0 & Hr0 & ->) Ht]. destruct (affected peer r0) eqn:Haf; [done|done].
Qed.

Lemma archived_replay iv ops : archived (replay ops (with_progress_interval iv)).
Proof.
  induction ops as [|o ops IH] using rev_ind.
  - split; simpl; [by intros t r; rewrite lookup_empty|constructor|].
    intros r. rewrite lookup_empty. set_solver.
  - rewrite replay_app. by apply archived_step.
Qed.

Lemma terminal_step p o t r :
  records p !! t = Some r → terminal (r_state r) = true → records (op_step p o) !! t = Some r.
Proof.
  intros Hr Ht. destruct o as [e|peer now]; simpl.
  - destruct (apply_records e p) as [[-> _]|[-> _]]; [done|]. rewrite lookup_insert. case_decide as Heq; [|done].
    subst t. unfold observe. rewrite Hr. simpl. by rewrite Ht.
  - rewrite lookup_fmap, Hr. simpl. unfold affected. by rewrite Ht, andb_false_r.
Qed.

(** an outcome is final: a record that shows a transfer as completed, failed or cancelled
    never changes again, whatever follows; and the archive holds exactly the records with an
    outcome, one for each transfer. *)
Theorem outcomes_final iv ops ops' t r :
  records (replay ops (with_progress_interval iv)) !! t = Some r → terminal (r_state r) = true →
  let p := replay (ops ++ ops') (with_progress_interval iv) in
  records p !! t = Some r ∧ NoDup (r_transfer_id <$> archive p) ∧
  ∀ r', r' ∈ archive p ↔ records p !! r_transfer_id r' = Some r' ∧ terminal (r_state r') = true.
Proof.
  intros Hr Ht. cbv zeta. destruct (archived_replay iv (ops ++ ops')) as [_ Hnd Hex]. split; [|done].
  rewrite replay_app. clear Hnd Hex. revert Hr. generalize (replay ops (with_progress_interval iv)).
  induction ops' as [|o ops' IH]; intros p Hr; [done|]. simpl. by apply IH, terminal_step.
Qed.

(** An update that is sent is always immediate, and shows the record as it is. *)
Theorem updates_are_immediate e p u :
  (apply e p).1 = Some u →
  immediate u = true ∧ records (apply e p).2 !! transfer_id e = Some (transfer u).
Proof.
  unfold apply. case_decide; [done|]. cbv zeta. simpl.
  destruct (match last_sequence p !! transfer_id e with Some _ => _ | None => _ end); [done|].
  destruct (terminal (r_state (default _ _))); [done|]. simpl.
  match goal with |- context [if is_immediate e ?q then _ else _] => destruct (is_immediate e q) eqn:Hi end; [|done].
  intros [= <-]. split; [done|]. by rewrite lookup_insert_eq.
Qed.

(** *** Cadence *)

Lemma emits_step p o t n :
  last_progress_emit_ms (op_step p o) !! t = Some n →
  last_progress_emit_ms p !! t = Some n ∨ ∃ e, o = Apply e ∧ transfer_id e = t ∧ occurred_at_ms e = n.
Proof.
  destruct o as [e|peer now]; simpl; [|by left]. unfold apply. case_decide; [by left|]. cbv zeta. simpl.
  destruct (match last_sequence p !! transfer_id e with Some _ => _ | None => _ end); [by left|].
  destruct (terminal (r_state (default _ _))); [by left|]. simpl.
  match goal with |- context [if ?b then <[_ := _]> _ else _] => destruct b end; [|by left].
  rewrite lookup_insert. case_decide; [|by left]. intros [= <-]. right. eauto.
Qed.

Lemma emits_kept p o t : is_Some (last_progress_emit_ms p !! t) → is_Some (last_progress_emit_ms (op_step p o) !! t).
Proof.
  destruct o as [e|peer now]; simpl; [|done]. unfold apply. case_decide; [done|]. cbv zeta. simpl.
  destruct (match last_sequence p !! transfer_id e with Some _ => _ | None => _ end); [done|].
  destruct (terminal (r_state (default _ _))); [done|]. simpl.
  match goal with |- context [if ?b then <[_ := _]> _ else _] => destruct b end; [|done].
  rewrite lookup_insert. case_decide; eauto.
Qed.

Lemma interval_step p o : progress_interval_ms (op_step p o) = progress_interval_ms p.
Proof.
  destruct o as [e|peer now]; simpl; [|done]. unfold apply. case_decide; [done|]. cbv zeta. simpl.
  destruct (match last_sequence p !! transfer_id e with Some _ => _ | None => _ end); [done|].
  by destruct (terminal (r_state (default _ _))).
Qed.

Lemma progress_shown e p :
  kind e = Progress → is_Some (apply e p).1 →
  last_progress_emit_ms (apply e p).2 !! transfer_id e = Some (occurred_at_ms e) ∧
  ∀ last, last_progress_emit_ms p !! transfer_id e = Some last →
    (progress_interval_ms p ≤ occurred_at_ms e - last)%N.
Proof.
  intros Hk [u Hu]. revert Hu. unfold apply. case_decide; [done|]. cbv zeta. simpl.
  destruct (match last_sequence p !! transfer_id e with Some _ => _ | None => _ end); [done|].
  destruct (terminal (r_state (default _ _))); [done|]. simpl.
  match goal with |- context [if is_immediate e ?q then _ else _] => destruct (is_immediate e q) eqn:Hi end; [|done].
  intros _. rewrite Hk. simpl. split; [by rewrite lookup_insert_eq|]. intros last Hl.
  unfold is_immediate in Hi. rewrite Hk in Hi. simpl in Hi. rewrite Hl in Hi. by apply bool_decide_eq_true in Hi.
Qed.

(** while the clock does not go back, two progress updates of a transfer are shown at
    least the interval apart. *)
Theorem progress_cadence iv a e1 b e2 :
  let p1 := replay a (with_progress_interval iv) in
  let p2 := replay (a ++ Apply e1 :: b) (with_progress_interval iv) in
  kind e1 = Progress → kind e2 = Progress → transfer_id e2 = transfer_id e1 →
  is_Some (apply e1 p1).1 → is_Some (apply e2 p2).1 →
  Forall (λ o, ∀ e, o = Apply e → (occurred_at_ms e1 ≤ occurred_at_ms e)%N) b →
  (occurred_at_ms e1 ≤ occurred_at_ms e2)%N →
  (occurred_at_ms e1 + iv ≤ occurred_at_ms e2)%N.
Proof.
  cbv zeta. intros Hk1 Hk2 Htid Hs1 Hs2 Hclock Hle.
  destruct (progress_shown _ _ Hk1 Hs1) as [Hemit _]. destruct (progress_shown _ _ Hk2 Hs2) as [_ Hgap].
  rewrite Htid in Hgap. rewrite replay_app in Hgap. cbn [replay foldl op_step] in Hgap.
  fold (replay b (apply e1 (replay a (with_progress_interval iv))).2) in Hgap.
  assert (∀ ops p, progress_interval_ms (replay ops p) = progress_interval_ms p) as Hiv.
  { induction ops as [|o ops IH]; intros p; [done|]. simpl. rewrite IH. apply interval_step. }
  assert (progress_interval_ms (replay b (apply e1 (replay a (with_progress_interval iv))).2) = iv) as Hivb.
  { rewrite Hiv. change (apply e1 ?q).2 with (op_step q (Apply e1)). by rewrite interval_step, Hiv. }
  assert (∃ last, last_progress_emit_ms (replay b (apply e1 (replay a (with_progress_interval iv))).2)
    !! transfer_id e1 = Some last ∧ (occurred_at_ms e1 ≤ last)%N) as (last & Hlast & Hge).
  { assert (∃ last, last_progress_emit_ms (apply e1 (replay a (with_progress_interval iv))).2
      !! transfer_id e1 = Some last ∧ (occurred_at_ms e1 ≤ last)%N) as Hstart by eauto with lia.
    revert Hstart. generalize (apply e1 (replay a (with_progress_interval iv))).2. clear -Hclock.
    induction Hclock as [|o b Ho Hb IH]; intros p Hp; [done|]. simpl. apply IH.
    destruct Hp as (last & Hl & Hge). destruct (emits_kept p o (transfer_id e1)) as [n Hn]; [eauto|].
    exists n. split; [done|]. destruct (emits_step _ _ _ _ Hn) as [|(e & -> & _ & <-)]; [congruence|].
    by apply Ho. }
  specialize (Hgap last Hlast). rewrite Hivb in Hgap. destruct (decide (iv = 0%N)); lia.
Qed.

End facts.
End projection_facts.

Module frame_facts.
Import file_offer_protocol.

Lemma length_to_le w n : length (to_le w n) = w.
Proof. revert n. induction w; intros n; simpl; auto. Qed.

Lemma from_le_to_le w n : (n < 256 ^ N.of_nat w)%N → from_le (to_le w n) = n.
Proof.
  revert n. induction w as [|w IH]; intros n Hn; [simpl in Hn; simpl; lia|].
  cbn [to_le from_le]. rewrite IH.
  - assert (n mod 256 < 256)%N as Hm by (apply N.mod_lt; lia).
    destruct (Byte.of_N (n mod 256)) as [b|] eqn:Hb; simpl.
    + apply Byte.to_of_N in Hb. rewrite Hb. rewrite (N.div_mod n 256) at 3 by lia. lia.
    + apply Byte.of_N_None_iff in Hb. lia.
  - apply N.Div0.div_lt_upper_bound. rewrite Nat2N.inj_succ, N.pow_succ_r' in Hn. lia.
Qed.

Section frames.
Context {A : Type} `{!Postcard A}.

(** What was written is read back, and nothing more. *)
Lemma read_write_frame (a : A) f rest : write_frame a = Some f → read_frame (f ++ rest) = Some (a, rest).
Proof.
  unfold write_frame, read_frame. intros (payload & Hp & Hf)%bind_Some. case_decide as Hmax; [done|].
  apply (inj Some) in Hf as <-.
  assert (take 4 ((to_le 4 (N.of_nat (length payload)) ++ payload) ++ rest) = to_le 4 (N.of_nat (length payload)))
    as Ht by (rewrite <-app_assoc; apply take_app_length'; by rewrite length_to_le).
  assert (drop 4 ((to_le 4 (N.of_nat (length payload)) ++ payload) ++ rest) = payload ++ rest)
    as Hd by (rewrite <-app_assoc; apply drop_app_length'; by rewrite length_to_le).
  rewrite decide_False by (rewrite !length_app, length_to_le; lia). cbv zeta.
  rewrite Ht, Hd, from_le_to_le by (unfold MAX_FRAME_SIZE in Hmax; change (256 ^ N.of_nat 4)%N with 4294967296%N; lia).
  rewrite decide_False by done. rewrite Nat2N.id, decide_False by (rewrite length_app; lia).
  rewrite take_app_length, drop_app_length. by rewrite (postcard_roundtrip _ _ Hp).
Qed.

(** A stream that breaks off inside the frame is not read. *)
Lemma read_frame_prefix (a a' : A) f st rest rest' :
  write_frame a = Some f → st `prefix_of` f ++ rest → read_frame st = Some (a', rest') →
  a' = a ∧ st = f ++ rest' ∧ rest' `prefix_of` rest.
Proof.
  intros Hf Hpre Hr. destruct (decide (length f ≤ length st)) as [Hl|Hl].
  - destruct Hpre as [tail Htail]. assert (take (length f) st = f) as Htk.
    { rewrite <-(take_app_le st tail) by done. rewrite <-Htail. apply take_app_length. }
    assert (st = f ++ drop (length f) st) as Hst by (rewrite <-Htk at 1; by rewrite take_drop).
    rewrite Hst in Hr. rewrite (read_write_frame _ _ _ Hf) in Hr. injection Hr as <- <-.
    split; [done|]. split; [done|]. exists tail. rewrite Hst in Htail. rewrite <-app_assoc in Htail.
    by apply app_inv_head in Htail.
  - exfalso. unfold write_frame in Hf. apply bind_Some in Hf as (payload & Hp & Hf). case_decide as Hmax; [done|].
    apply (inj Some) in Hf as <-. unfold read_frame in Hr. case_decide as H4; [done|]. cbv zeta in Hr.
    destruct Hpre as [tail Htail]. rewrite length_app, length_to_le in Hl.
    assert (take 4 st = to_le 4 (N.of_nat (length payload))) as Ht.
    { assert (take 4 (st ++ tail) = take 4 st) as <- by (apply take_app_le; lia).
      rewrite <-Htail, <-app_assoc. apply take_app_length'. by rewrite length_to_le. }
    rewrite Ht, from_le_to_le in Hr
      by (unfold MAX_FRAME_SIZE in Hmax; change (256 ^ N.of_nat 4)%N with 4294967296%N; lia).
    rewrite decide_False, Nat2N.id, decide_True in Hr by (done || rewrite ?length_drop; lia). done.
Qed.

End frames.
End frame_facts.

Module receiver_facts.
Import transfer_state_projection file_offer file_offer_protocol paths safe_destination frame_facts.

Section facts.
Context `{!Hasher, !Uppercase}.
Context `{!Postcard FileOfferResponse, !Postcard FileOfferCompletion}.
Implicit Types (d : Disk) (w : Weather) (h : FileOfferHeader).

(** The name a download falls back to is one component. *)
Lemma debug_id_plain i : plain (debug_id i).
Proof.
  assert (SEP ∉ comma_separated ((λ b, decimal (Byte.to_N b)) <$> i)) as Hc.
  { assert (∀ b, SEP ∉ decimal (Byte.to_N b)) as Hd by (intros b; apply decimal_no_sep).
    induction i as [|b [|b' i] IH]; [apply not_elem_of_nil|apply Hd|].
    cbn [fmap list_fmap comma_separated] in *. rewrite !not_elem_of_app. split_and!; [apply Hd| |done].
    vm_compute. set_solver. }
  unfold debug_id. split_and!; [done|done|done|]. rewrite !not_elem_of_app. split_and!; [|done|];
    vm_compute; set_solver.
Qed.

Lemma receive_loop_spec reads total st got got' rest :
  receive_loop reads total st got = Some (got', rest) → (N.of_nat (length got) ≤ total)%N →
  ∃ body, got' = got ++ body ∧ st = body ++ rest ∧ N.of_nat (length got') = total.
Proof.
  revert st got. induction reads as [|[n ok] reads IH]; intros st got Hl Hle; cbn [receive_loop] in Hl.
  - case_decide; [done|]. injection Hl as <- <-. exists []. rewrite app_nil_r. split_and!; [done|done|lia].
  - case_decide as Hlt; [|injection Hl as <- <-; exists []; rewrite app_nil_r; split_and!; [done|done|lia]].
    set (bs := take _ st) in Hl. case_decide as Hbs; [done|]. destruct ok; [|done].
    assert (length bs ≤ N.to_nat total - length got) as Hb by (subst bs; rewrite length_take; lia).
    assert (st = bs ++ drop (length bs) st) as Hst.
    { subst bs. rewrite length_take. set (k := Nat.min (S n) _) in *.
      destruct (decide (k ≤ length st)) as [Hk|Hk]; [by rewrite Nat.min_l, take_drop by done|].
      by rewrite Nat.min_r, drop_all, app_nil_r, firstn_all2 by lia. }
    destruct (IH _ _ Hl) as (body & -> & Hd & Hlen); [rewrite length_app; lia|].
    exists (bs ++ body). rewrite <-!app_assoc in *. split_and!; [done| |done]. by rewrite <-Hd.
Qed.

Lemma verify_completion_ok h i n hash c u :
  verify_completion h i n hash c = Ok u →
  c_offer_id c = h_offer_id h ∧ c_offer_id c = i ∧ c_bytes_sent c = n ∧ n = h_size h ∧ c_blake3_hash c = hash.
Proof. unfold verify_completion. repeat case_bool_decide; simpl; done. Qed.

(** What a download that was accepted received. *)
Lemma receive_into_ok h i rest w got :
  receive_into h i rest w = Ok got →
  N.of_nat (length got) = h_size h ∧ ∃ completion rest1 rest2,
    rest = got ++ rest1 ∧ read_frame rest1 = Some (completion, rest2) ∧
    c_offer_id completion = h_offer_id h ∧ c_offer_id completion = i ∧
    c_bytes_sent completion = N.of_nat (length got) ∧ c_blake3_hash completion = blake3 got.
Proof.
  unfold receive_into. destruct (receive_loop _ _ _ _) as [[g rest1]|] eqn:Hl; [|done]. simpl.
  destruct (read_frame rest1) as [[completion rest2]|] eqn:Hc; [|done]. simpl.
  destruct (verify_completion _ _ _ _ _) as [u|e|] eqn:Hv; [|done|done]. simpl.
  destruct (flushed w); [|done]. simpl. intros [= <-].
  destruct (receive_loop_spec _ _ _ _ _ _ Hl) as (body & -> & -> & Hlen); [simpl; lia|].
  apply verify_completion_ok in Hv as (? & ? & ? & ? & ?). split; [done|].
  exists completion, rest1, rest2. done.
Qed.

Lemma receive_into_settled h i rest w : receive_into h i rest w ≠ Panicked.
Proof.
  unfold receive_into. destruct (receive_loop _ _ _ _) as [[g rest1]|]; [|done]. simpl.
  destruct (read_frame rest1) as [[completion rest2]|]; [|done]. simpl.
  unfold verify_completion. destruct (_ || _); [done|]. simpl. by destruct (flushed w).
Qed.

(** A reservation whose file was taken out is dropped without a trace as well. *)
Lemma drop_taken fs dir r i fs' dd t :
  reserves fs dir r i fs' dd t → drop_reservation (set_file None r) fs' = fs.
Proof.
  intros Hr. rewrite <-(drop_reserved _ _ _ _ _ _ _ Hr).
  pose proof (reserved_walk _ _ _ _ _ _ _ Hr) as (_ & Hw & Hd & Hf & Hwalk & Hu).
  destruct Hr as [_ _ _ Hwr _ _ Hfile Hpub]. unfold drop_reservation. simpl. rewrite Hpub, Hfile.
  unfold metadata. by rewrite Hwalk; simpl; rewrite Hf, bool_decide_true by done.
Qed.

(** C26: a download is all or nothing: whatever the peer sends, however it is cut into reads
    and wherever it breaks off, is dropped or the disk fails, either the disk is as it was, or
    there is exactly one new file, directly in the download directory under a name that was
    free, and it holds as many bytes as the header announced, the ones that followed the
    header, confirmed by a completion for the requested offer with their hash. *)
Theorem download_all_or_nothing stream requested dir w d :
  match download_file_offer stream requested dir w d with
  | (Ok path, d') =>
      ∃ h rest place name got,
        open_file_offer stream = Ok (h, rest) ∧
        walk (tree d) MAX_LINKS (cwd (tree d)) dir = Some place ∧ plain name ∧
        path = dir ++ [Normal name] ∧ node_at (tree d) (place ++ [name]) = None ∧
        tree d' = set_node (place ++ [name]) (File (inode w)) (tree d) ∧
        contents d' = <[inode w := got]> (contents d) ∧ N.of_nat (length got) = h_size h ∧
        ∃ completion rest1 rest2, rest = got ++ rest1 ∧ read_frame rest1 = Some (completion, rest2) ∧
          c_offer_id completion = h_offer_id h ∧ c_offer_id completion = requested ∧
          c_bytes_sent completion = N.of_nat (length got) ∧ c_blake3_hash completion = blake3 got
  | (Err _, d') => d' = d
  | (Panicked, _) => False
  end.
Proof.
  unfold download_file_offer. destruct (open_file_offer stream) as [[h rest]|e|] eqn:Ho; [|done|].
  2: { unfold open_file_offer in Ho. repeat case_match; done. }
  pose proof (reserve_cases (tree d) dir (h_name h) (debug_id requested) KeepBoth (refused w) (inode w)
    (debug_id_plain requested)) as Hres.
  destruct (reserve_download_destination _ _ _ _ _ _ _) as [[[r|]|e|] fs] eqn:Hr;
    [|by subst; destruct d|by subst; destruct d|done].
  destruct Hres as ((place & name & Hrv) & _ & Hfin). rewrite decide_False in Hfin by done. destruct Hfin as [Hfp Hrn].
  destruct (receive_into h requested rest w) as [got|e|] eqn:Hi.
  - unfold publish. simpl. rewrite Hrn. pose proof Hrv as [Hw _ Hpl Hwr Hnew Hfs _ _].
    apply receive_into_ok in Hi as [Hlen Hcomp]. exists h, rest, place, name, got. simpl.
    split_and!; try done. by rewrite Hfp.
  - rewrite (drop_taken _ _ _ _ _ _ _ Hrv). by destruct d.
  - by destruct (receive_into_settled h requested rest w).
Qed.

End facts.
End receiver_facts.

Module sender_facts.
Import transfer_state_projection file_offer file_offer_protocol frame_facts projection_facts.

Section facts.
Context `{!Hasher, !KeyText, !HashRecords}.
Context `{!Postcard FileOfferRequest, !Postcard FileOfferResponse, !Postcard FileOfferCompletion}.
Implicit Types (s : Sender) (c : Conn) (i : Input) (o : FileOffer) (acts : list Action)
  (p : TransferProjection).

(** *** What is written *)

Definition greeting o : option Bytes :=
  write_frame (Header (mkHeader FILE_OFFER_WIRE_VERSION (id o) (display_name o) (size o))).

Definition footer o (content : Bytes) : option Bytes :=
  write_frame (mkCompletion (id o) (N.of_nat (length content)) (blake3 content)).

(** The owner registered the offer, for this peer. *)
Definition granted acts c o : Prop := authorized_peer o = remote_id c ∧ Register o ∈ acts.

(** What a connection that ended may have written: part of an error, or of the header and the
    content, or of all of it with the completion. *)
Definition shape acts c : Prop :=
  written c = [] ∨
  (∃ e f, write_frame (Error e) = Some f ∧ written c `prefix_of` f) ∨
  (∃ o hdr body, granted acts c o ∧ greeting o = Some hdr ∧ (N.of_nat (length body) ≤ size o)%N ∧
     written c `prefix_of` hdr ++ body) ∨
  (∃ o hdr body ftr, granted acts c o ∧ greeting o = Some hdr ∧ N.of_nat (length body) = size o ∧
     footer o body = Some ftr ∧ written c `prefix_of` hdr ++ body ++ ftr).

Definition conn_ok acts c : Prop :=
  match phase c with
  | Opened | ReadingRequest | LookingUp _ => written c = []
  | Stating o | Opening o | Greeting o => granted acts c o ∧ written c = []
  | Starting o => granted acts c o ∧ greeting o = Some (written c)
  | Streaming o sent =>
      granted acts c o ∧ (N.of_nat (length sent) < size o)%N ∧
      ∃ hdr, greeting o = Some hdr ∧ written c = hdr ++ sent
  | Reporting o sent =>
      granted acts c o ∧ (N.of_nat (length sent) ≤ size o)%N ∧
      ∃ hdr, greeting o = Some hdr ∧ written c = hdr ++ sent
  | Failing o sent _ =>
      granted acts c o ∧ (N.of_nat (length sent) < size o)%N ∧
      ∃ hdr part, greeting o = Some hdr ∧ written c = hdr ++ sent ++ part ∧
        (N.of_nat (length (sent ++ part)) ≤ size o)%N
  | Closing o sent =>
      granted acts c o ∧ N.of_nat (length sent) = size o ∧
      ∃ hdr, greeting o = Some hdr ∧ written c = hdr ++ sent
  | Completing o sent =>
      granted acts c o ∧ N.of_nat (length sent) = size o ∧
      ∃ hdr ftr, greeting o = Some hdr ∧ footer o sent = Some ftr ∧ written c = hdr ++ sent ++ ftr
  | Ended => shape acts c
  end.

Definition registered acts (g : FileOfferRegistry) : Prop :=
  ∀ j o, offers g !! j = Some o → Register o ∈ acts ∧ id o = j.

Lemma reject_ok acts i e c : written c = [] → conn_ok acts (reject i e c).
Proof.
  intros Hw. unfold reject, write_out. destruct (write_frame (Error e)) as [f|] eqn:Hf; [|by left].
  destruct (wrote i) as [n|]; unfold conn_ok; simpl; right; left; exists e, f; rewrite Hw; simpl;
    (split; [done|]); [apply prefix_take|done].
Qed.

Lemma reject_same i e c :
  remote_id (reject i e c) = remote_id c ∧ transfer_number (reject i e c) = transfer_number c ∧
  phase (reject i e c) = Ended.
Proof. unfold reject, write_out. destruct (write_frame _); [destruct (wrote i)|]; done. Qed.

Lemma lookup_granted acts g who j now o :
  registered acts g → authorize_registry who j now g = Ok o → authorized_peer o = who ∧ Register o ∈ acts.
Proof.
  intros Hg. unfold authorize_registry, get. destruct (offers g !! j) as [o'|] eqn:Ho; [|done]. simpl.
  case_bool_decide; [|done]. simpl. destruct (is_expired _ _ _); [done|]. simpl. intros [= <-].
  split; [done|]. by apply (Hg j).
Qed.

(** One read of the file, written to the peer. *)
Lemma stream_read_ok acts i c o sent hdr :
  granted acts c o → (N.of_nat (length sent) < size o)%N → greeting o = Some hdr → written c = hdr ++ sent →
  conn_ok acts (stream_read i o sent c) ∧ remote_id (stream_read i o sent c) = remote_id c ∧
  transfer_number (stream_read i o sent c) = transfer_number c.
Proof.
  intros Hgr Hlt Hhdr Hw.
  assert (∀ err, conn_ok acts (set_phase (Failing o sent err) c)) as Hfail.
  { intros err. split; [done|]. split; [done|]. exists hdr, []. rewrite !app_nil_r. split_and!; [done|done|lia]. }
  unfold stream_read. set (want := Nat.min _ _).
  destruct (take want <$> chunk i) as [[|b bs]|] eqn:Hch; [by auto| |by auto].
  assert (N.of_nat (length (sent ++ b :: bs)) ≤ size o)%N as Hlen.
  { destruct (chunk i) as [ch|]; [|done]. simpl in Hch. injection Hch as Hch.
    apply (f_equal length) in Hch. rewrite length_take in Hch. rewrite length_app.
    assert (want ≤ N.to_nat (size o) - length sent) by (subst want; apply Nat.le_min_r). lia. }
  unfold write_out. destruct (wrote i) as [k|]; (split; [|done]); unfold conn_ok; cbn [phase written remote_id].
  + split; [done|]. split; [done|]. exists hdr, (take k (b :: bs)). split; [done|].
    split; [by rewrite Hw, <-app_assoc|]. rewrite length_app, length_take in *. lia.
  + split; [done|]. split; [done|]. exists hdr. by rewrite Hw, <-app_assoc.
Qed.

(** The phases of one connection. *)
Lemma step_conn_ok acts i c s c' n st :
  registered acts (registry s) → conn_ok acts c → step_conn i c s = (c', n, st) →
  conn_ok acts c' ∧ remote_id c' = remote_id c ∧ transfer_number c' = transfer_number c.
Proof.
  intros Hg Hc Hs. assert (∀ e, written c = [] → conn_ok acts (reject i e c) ∧
    remote_id (reject i e c) = remote_id c ∧ transfer_number (reject i e c) = transfer_number c) as Hrej.
  { intros e Hw. split; [by apply reject_ok|]. by destruct (reject_same i e c) as (? & ? & _). }
  assert (written c = [] → conn_ok acts (set_phase Ended c)) as Hend by (intros Hw; by left).
  unfold step_conn in Hs. unfold conn_ok in Hc.
  destruct (phase c) as [| | |o|o|o|o|o sent|o sent|o sent err|o sent|o sent|] eqn:Hph.
  - destruct (transfers s); simplify_eq; auto.
  - destruct (read_frame (incoming i)) as [[r rest]|]; [case_decide|]; simplify_eq; auto.
  - destruct (authorize_registry _ _ _ _) as [o|e|] eqn:Ha; simplify_eq; auto.
    apply (lookup_granted acts _ _ _ _ _ Hg) in Ha as [Ha Hr]. done.
  - destruct Hc as [Hgr Hw]. destruct (authorize_source _ _); simplify_eq; auto. split; [by split|done].
  - destruct Hc as [Hgr Hw]. destruct (check_opened _ _) as [|[]|]; simplify_eq; auto. split; [by split|done].
  - destruct Hc as [Hgr Hw]. simplify_eq. unfold write_out. fold (greeting o).
    destruct (greeting o) as [hdr|] eqn:Hhdr; [|auto].
    destruct (wrote i) as [k|]; (split; [|done]); unfold conn_ok; simpl; rewrite Hw; simpl; [|done].
    right. right. left. exists o, hdr, []. rewrite app_nil_r. split_and!; [done|done|simpl; lia|].
    apply prefix_take.
  - destruct Hc as [Hgr Hw]. simplify_eq. split; [|done]. unfold conn_ok. simpl. case_decide as Hz; simpl.
    + split; [done|]. split; [done|]. exists (written c). by rewrite app_nil_r.
    + split; [done|]. split; [lia|]. exists (written c). by rewrite app_nil_r.
  - destruct Hc as (Hgr & Hlt & hdr & Hhdr & Hw). injection Hs as <- _ _. by apply (stream_read_ok acts i c o sent hdr).
  - destruct Hc as (Hgr & Hle & hdr & Hhdr & Hw). simplify_eq. split; [|done]. unfold conn_ok. simpl.
    case_decide; simpl; (split; [done|]); (split; [done || lia|]); by exists hdr.
  - destruct Hc as (Hgr & Hle & hdr & part & Hhdr & Hw & Hlen). simplify_eq. split; [|done].
    right. right. left. exists o, hdr, (sent ++ part). simpl. by rewrite Hw.
  - destruct Hc as (Hgr & Hle & hdr & Hhdr & Hw). simplify_eq. unfold write_out. fold (footer o sent).
    destruct (footer o sent) as [ftr|] eqn:Hftr; [destruct (wrote i) as [k|]|]; (split; [|done]); unfold conn_ok; simpl.
    + right. right. right. exists o, hdr, sent, ftr. simpl. rewrite Hw, <-app_assoc. split_and!; [done..|].
      apply prefix_app, prefix_app, prefix_take.
    + split; [done|]. split; [done|]. exists hdr, ftr. by rewrite Hw, <-app_assoc.
    + right. right. left. exists o, hdr, sent. simpl. rewrite Hw. split_and!; [done|done|lia|done].
  - destruct Hc as (Hgr & Hle & hdr & ftr & Hhdr & Hftr & Hw). simplify_eq. split; [|done].
    right. right. right. exists o, hdr, sent, ftr. simpl. by rewrite Hw.
  - simplify_eq. split; [|done]. unfold conn_ok. by rewrite Hph.
Qed.

(** *** Permits *)

Definition holding (ph : Phase) : bool := match ph with Opened | Ended => false | _ => true end.

Lemma step_permits i c s c' n st :
  step_conn i c s = (c', n, st) →
  n + one (holding (phase c')) = transfers s + one (holding (phase c)).
Proof.
  assert (∀ e, phase (reject i e c) = Ended) as Hrej by (intros e; by destruct (reject_same i e c) as (_ & _ & ?)).
  unfold step_conn. destruct (phase c) as [| | |o|o|o|o|o sent|o sent|o sent err|o sent|o sent|] eqn:Hph.
  - destruct (transfers s); intros [= <- <- <-]; [by rewrite Hrej|simpl; lia].
  - destruct (read_frame (incoming i)) as [[r rest]|]; [case_decide|]; intros [= <- <- <-]; rewrite ?Hrej; simpl; lia.
  - destruct (authorize_registry _ _ _ _); intros [= <- <- <-]; rewrite ?Hrej; simpl; lia.
  - destruct (authorize_source _ _); intros [= <- <- <-]; rewrite ?Hrej; simpl; lia.
  - destruct (check_opened _ _) as [|[]|]; intros [= <- <- <-]; rewrite ?Hrej; simpl; lia.
  - intros [= <- <- <-]. unfold write_out. repeat case_match; simplify_eq/=; lia.
  - intros [= <- <- <-]. simpl. case_decide; simpl; lia.
  - intros [= <- <- <-]. unfold stream_read. set (want := Nat.min _ _).
    destruct (take want <$> chunk i) as [[|b bs]|]; simpl; [lia| |lia].
    unfold write_out. destruct (wrote i); simpl; lia.
  - intros [= <- <- <-]. simpl. case_decide; simpl; lia.
  - intros [= <- <- <-]. simpl. lia.
  - intros [= <- <- <-]. unfold write_out. repeat case_match; simplify_eq/=; lia.
  - intros [= <- <- <-]. simpl. lia.
  - intros [= <- <- <-]. by rewrite Hph.
Qed.

(** *** What is published *)

Definition tid c : Text := direct_id (transfer_number c).

(** The event of a step. *)
Definition event_of i c : option TransferEvent :=
  let ev o seq k b err :=
    Some (outbound_event (tid c) (txt "direct-offer:" ++ debug_id (id o)) (key_text (remote_id c)) seq k b
            (Some (size o)) err (wall_ms i)) in
  match phase c with
  | Starting o => ev o 0%N Started 0%N None
  | Reporting o sent => ev o (N.of_nat (length sent)) Progress (N.of_nat (length sent)) None
  | Failing o sent err => ev o u64_max Failed 0%N (Some err)
  | Completing o sent =>
      ev o (saturating_incr (N.of_nat (length sent))) Completed (N.of_nat (length sent)) None
  | _ => None
  end.

Lemma step_publishes i c s c' n st :
  step_conn i c s = (c', n, st) →
  projection st = match event_of i c with
                  | Some e => (apply e (projection (transfer_store s))).2
                  | None => projection (transfer_store s)
                  end.
Proof.
  assert (∀ e, projection (publish e (transfer_store s)) = (apply e (projection (transfer_store s))).2) as Hp.
  { intros e. unfold publish. by destruct (apply e _). }
  unfold step_conn, event_of. destruct (phase c) as [| | |o|o|o|o|o sent|o sent|o sent err|o sent|o sent|].
  - by destruct (transfers s); intros [= <- <- <-].
  - by destruct (read_frame (incoming i)) as [[r rest]|]; [case_decide|]; intros [= <- <- <-].
  - by destruct (authorize_registry _ _ _ _); intros [= <- <- <-].
  - by destruct (authorize_source _ _); intros [= <- <- <-].
  - by destruct (check_opened _ _) as [|[]|]; intros [= <- <- <-].
  - by intros [= <- <- <-].
  - intros [= <- <- <-]. apply Hp.
  - by intros [= <- <- <-].
  - intros [= <- <- <-]. apply Hp.
  - intros [= <- <- <-]. apply Hp.
  - by intros [= <- <- <-].
  - intros [= <- <- <-]. apply Hp.
  - by intros [= <- <- <-].
Qed.

(** *** The dashboard *)

Definition quiet p (t : Text) : Prop := records p !! t = None ∧ last_sequence p !! t = None.

(** The transfer runs, and [n] bytes were reported. *)
Definition live p c o (n : N) : Prop :=
  last_sequence p !! tid c = Some n ∧
  ∃ r, records p !! tid c = Some r ∧ r_bytes r = n ∧ terminal (r_state r) = false ∧
    r_total_bytes r = Some (size o) ∧ r_peer_id r = Some (key_text (remote_id c)).

(** A transfer that ended: its record tells what was written. *)
Definition shows acts p c : Prop :=
  ∃ o hdr content rest r,
    granted acts c o ∧ greeting o = Some hdr ∧ written c = hdr ++ content ++ rest ∧
    records p !! tid c = Some r ∧ r_bytes r = N.of_nat (length content) ∧
    r_total_bytes r = Some (size o) ∧ r_peer_id r = Some (key_text (remote_id c)) ∧
    (r_state r = CompletedState → N.of_nat (length content) = size o ∧ footer o content = Some rest).

Definition dash acts p c : Prop :=
  match phase c with
  | Streaming o sent | Failing o sent _ | Closing o sent | Completing o sent =>
      live p c o (N.of_nat (length sent))
  | Reporting o sent => ∃ n, (n < N.of_nat (length sent))%N ∧ live p c o n
  | Ended => quiet p (tid c) ∨ shows acts p c
  | _ => quiet p (tid c)
  end.

(** Only the own record and sequence number matter. *)
Lemma dash_ext acts p p' c :
  records p' !! tid c = records p !! tid c → last_sequence p' !! tid c = last_sequence p !! tid c →
  dash acts p c → dash acts p' c.
Proof. unfold dash, quiet, live, shows. intros -> ->. done. Qed.

Lemma dash_disconnect acts p peer now c :
  dash acts p c → dash acts (disconnect_peer peer now p).2 c.
Proof.
  assert (quiet p (tid c) → quiet (disconnect_peer peer now p).2 (tid c)) as Hq.
  { intros [Hr Hl]. split; [|done]. simpl. by rewrite lookup_fmap, Hr. }
  assert (∀ o n, live p c o n → live (disconnect_peer peer now p).2 c o n) as Hlive.
  { intros o n (Hl & r & Hr & Hb & Ht & Htot & Hpe). split; [done|]. simpl. rewrite lookup_fmap, Hr. simpl.
    eexists. split; [done|]. by destruct (affected peer r). }
  unfold dash. destruct (phase c); auto.
  - intros (n & Hn & Hl). eauto.
  - intros [?|(o & hdr & content & rest & r & Hg & Hh & Hw & Hr & Hb & Htot & Hpe & Hc)]; [by left; auto|].
    right. exists o, hdr, content, rest, (if affected peer r then disconnected now r else r).
    simpl. rewrite lookup_fmap, Hr. simpl. split_and!; try done; by destruct (affected peer r).
Qed.

(** *** Event ids *)

Lemma sep_inj (x : Char) (a a' b b' : Text) :
  x ∉ a → x ∉ a' → a ++ x :: b = a' ++ x :: b' → a = a' ∧ b = b'.
Proof.
  revert a'. induction a as [|y a IH]; intros [|y' a'] Ha Ha' Heq; simpl in *; simplify_eq; [done|set_solver..|].
  destruct (IH a') as [-> ->]; [set_solver|set_solver|done|done].
Qed.

Lemma decimal_no_colon n : 58%N ∉ decimal n.
Proof. intros Hin. apply decimal_range in Hin. lia. Qed.

Definition eid (n seq : N) (k : EventName) : Text :=
  direct_id n ++ txt ":" ++ decimal seq ++ txt ":" ++ debug_kind k.

Lemma eid_inj n seq k n' seq' k' : eid n seq k = eid n' seq' k' → n = n' ∧ seq = seq'.
Proof.
  unfold eid, direct_id. rewrite <-!app_assoc. intros Heq. apply app_inv_head in Heq.
  change (txt ":" ++ ?x) with (58%N :: x) in Heq.
  apply sep_inj in Heq as [Hn Heq]; [|apply decimal_no_colon..].
  apply sep_inj in Heq as [Hs _]; [|apply decimal_no_colon..].
  by apply (inj decimal) in Hn; apply (inj decimal) in Hs.
Qed.

Lemma direct_id_inj n n' : direct_id n = direct_id n' → n = n'.
Proof. unfold direct_id. intros Heq. apply app_inv_head in Heq. by apply (inj decimal). Qed.

(** All ids are of the outbound events that were counted. *)
Definition seen_ok p : Prop :=
  ∀ x, x ∈ seen_event_ids p → ∃ n seq k last,
    x = eid n seq k ∧ last_sequence p !! direct_id n = Some last ∧ (seq ≤ last)%N.

(** The next event of a connection is counted. *)
Lemma own_event p e n seq k :
  seen_ok p → event_id e = eid n seq k → transfer_id e = direct_id n → sequence e = seq →
  (∀ last, last_sequence p !! direct_id n = Some last → (last < seq)%N) →
  seen_ok (apply e p).2 ∧ last_sequence (apply e p).2 = <[direct_id n := seq]> (last_sequence p) ∧
  records (apply e p).2 = <[direct_id n := observe (records p !! direct_id n) e]> (records p).
Proof.
  intros Hs Hid Ht Hseq Hlast.
  destruct (event_cases e p) as [[Hin _]|[(_ & last & Hl & Hle & _)|(Hin & _ & Hseen & Hsq & Hrec)]].
  - exfalso. rewrite Hid in Hin. apply Hs in Hin as (n' & seq' & k' & last & Heq & Hl & Hle).
    apply eid_inj in Heq as [<- <-]. specialize (Hlast _ Hl). lia.
  - exfalso. rewrite Ht in Hl. specialize (Hlast _ Hl). lia.
  - rewrite Hsq, Hrec, Ht, Hseq. split; [|done]. intros x. rewrite Hseen, elem_of_union, elem_of_singleton, Hsq, Ht, Hseq.
    intros [->|Hx].
    + exists n, seq, k, seq. rewrite lookup_insert_eq. split_and!; [done|done|lia].
    + destruct (Hs x Hx) as (n' & seq' & k' & last & -> & Hl & Hle).
      destruct (decide (n = n')) as [<-|Hne].
      * exists n, seq', k', seq. rewrite lookup_insert_eq. specialize (Hlast _ Hl). split_and!; [done|done|lia].
      * exists n', seq', k', last. rewrite lookup_insert_ne; [done|]. intros ?%direct_id_inj. done.
Qed.

(** A record that runs, after its next event. *)
Lemma live_observe p c o n e :
  live p c o n → total_bytes e = Some (size o) →
  let r := observe (records p !! tid c) e in
  r_bytes r = N.max n (bytes e) ∧ r_state r = state_of (kind e) ∧ r_total_bytes r = Some (size o) ∧
  r_peer_id r = Some (key_text (remote_id c)).
Proof.
  intros (_ & r & Hr & Hb & Ht & Htot & Hpe) He. unfold observe. rewrite Hr. simpl.
  rewrite Ht. simpl. rewrite Hb, Htot, Hpe, He. simpl. by rewrite N.max_id.
Qed.

(** Offers fit into the type of their sizes, with one to spare for the last sequence number. *)
Definition sizes_ok acts : Prop := ∀ o, Register o ∈ acts → (size o < u64_max)%N.

(** Name the record after the event and what [live_observe] tells of it. *)
Ltac next_record Hlive Hr' :=
  lazymatch type of Hr' with
  | _ = Some (observe ?old ?e) =>
      destruct (live_observe _ _ _ _ e Hlive eq_refl) as (Hb & Hst & Htot & Hpe); simpl in Hb;
      revert Hr' Hb Hst Htot Hpe; generalize (observe old e); intros R Hr' Hb Hst Htot Hpe
  end.

Lemma dash_event acts p i c e c' :
  sizes_ok acts → seen_ok p → conn_ok acts c → dash acts p c → event_of i c = Some e →
  (phase c' = match phase c with
              | Starting o => if decide (size o = 0%N) then Closing o [] else Streaming o []
              | Reporting o sent =>
                  if decide (N.of_nat (length sent) < size o)%N then Streaming o sent else Closing o sent
              | _ => Ended
              end) → remote_id c' = remote_id c → transfer_number c' = transfer_number c →
  written c' = written c →
  dash acts (apply e p).2 c' ∧ seen_ok (apply e p).2 ∧
  (∀ t, t ≠ tid c → records (apply e p).2 !! t = records p !! t ∧
     last_sequence (apply e p).2 !! t = last_sequence p !! t).
Proof.
  intros Hsz Hs Hc Hd He Hph Hrem Hnum Hwr.
  assert (∀ o, granted acts c o → (size o < u64_max)%N ∧ granted acts c' o) as Hgr.
  { intros o [Ha Hr]. split; [by apply Hsz|]. split; [by rewrite Hrem|done]. }
  assert (tid c' = tid c) as Htid by (unfold tid; by rewrite Hnum).
  assert (∀ seq k, event_id e = eid (transfer_number c) seq k → transfer_id e = tid c → sequence e = seq →
    (∀ last, last_sequence p !! tid c = Some last → (last < seq)%N) →
    (∀ l' r', l' !! tid c = Some seq → r' !! tid c = Some (observe (records p !! tid c) e) →
       dash acts (mkProjection r' ∅ l' 0 ∅ []) c') →
    dash acts (apply e p).2 c' ∧ seen_ok (apply e p).2 ∧
    (∀ t, t ≠ tid c → records (apply e p).2 !! t = records p !! t ∧
       last_sequence (apply e p).2 !! t = last_sequence p !! t)) as Hgo.
  { intros seq k Hid Ht Hseq Hlast Hnext.
    destruct (own_event p e _ _ _ Hs Hid Ht Hseq Hlast) as (Hseen & Hl & Hr). split.
    - apply (dash_ext acts (mkProjection (records (apply e p).2) ∅ (last_sequence (apply e p).2) 0 ∅ [])); [done..|].
      apply Hnext; [rewrite Hl|rewrite Hr]; apply lookup_insert_eq.
    - split; [done|]. intros t Hne. rewrite Hl, Hr, !lookup_insert_ne by done. done. }
  unfold event_of in He. unfold dash in Hd. unfold conn_ok in Hc.
  destruct (phase c) as [| | |o|o|o|o|o sent|o sent|o sent err|o sent|o sent|] eqn:Hphc; try done;
    injection He as <-.
  - destruct Hc as [Hg Hw]. destruct Hd as [Hrn Hln]. apply (Hgo 0%N Started); [done..|congruence|].
    intros l' r' Hl' Hr'. rewrite Hrn in Hr'. simpl in Hr'. unfold dash. rewrite Hph.
    case_decide; unfold live; rewrite Htid, Hrem; simpl; (split; [done|]); eexists; (split; [exact Hr'|]); done.
  - destruct Hd as (n & Hn & Hlive). pose proof Hlive as [Hl _].
    apply (Hgo (N.of_nat (length sent)) Progress); [done..|naive_solver|].
    intros l' r' Hl' Hr'. next_record Hlive Hr'. rewrite N.max_r in Hb by lia.
    unfold dash. rewrite Hph. case_decide; unfold live; rewrite Htid, Hrem; simpl; (split; [done|]);
      exists R; (split; [exact Hr'|]); rewrite Hst; done.
  - destruct Hc as (Hg & Hlt & hdr & part & Hhdr & Hw & Hlen). pose proof Hd as [Hl _].
    destruct (Hgr o Hg) as [Hmax Hg'].
    apply (Hgo u64_max Failed); [done..|intros last Hlast; simplify_eq; lia|].
    intros l' r' Hl' Hr'. next_record Hd Hr'. rewrite N.max_l in Hb by lia. unfold dash. rewrite Hph. right.
    exists o, hdr, sent, part, R. rewrite Hwr, Htid, Hrem. simpl. split_and!; [done|done|done|exact Hr'|done..|].
    rewrite Hst. done.
  - destruct Hc as (Hg & Hlen & hdr & ftr & Hhdr & Hftr & Hw). pose proof Hd as [Hl _].
    destruct (Hgr o Hg) as [Hmax Hg'].
    apply (Hgo (saturating_incr (N.of_nat (length sent))) Completed);
      [done..|intros last Hlast; simplify_eq; unfold saturating_incr; lia|].
    intros l' r' Hl' Hr'. next_record Hd Hr'. rewrite N.max_l in Hb by lia. unfold dash. rewrite Hph. right.
    exists o, hdr, sent, ftr, R. rewrite Hwr, Htid, Hrem. simpl. split_and!; [done|done|done|exact Hr'|done..].
Qed.

(** A step without an event. *)
Lemma dash_still acts p i c s c' n st :
  event_of i c = None → conn_ok acts c → dash acts p c → step_conn i c s = (c', n, st) → dash acts p c'.
Proof.
  assert (quiet p (tid c) → ∀ e, dash acts p (reject i e c)) as Hrej.
  { intros Hq e. destruct (reject_same i e c) as (_ & Hnum & Hph). unfold dash. rewrite Hph. left.
    unfold tid. by rewrite Hnum. }
  assert (quiet p (tid c) → dash acts p (set_phase Ended c)) as Hend by (intros Hq; by left).
  unfold event_of, step_conn, dash at 1, conn_ok.
  destruct (phase c) as [| | |o|o|o|o|o sent|o sent|o sent err|o sent|o sent|] eqn:Hph; intros He Hc Hd; try done.
  - destruct (transfers s); intros [= <- <- <-]; auto.
  - destruct (read_frame (incoming i)) as [[r rest]|]; [case_decide|]; intros [= <- <- <-]; auto.
  - destruct (authorize_registry _ _ _ _); intros [= <- <- <-]; auto.
  - destruct (authorize_source _ _); intros [= <- <- <-]; auto.
  - destruct (check_opened _ _) as [|[]|]; intros [= <- <- <-]; auto.
  - intros [= <- <- <-]. unfold write_out. destruct (write_frame _); [destruct (wrote i)|]; [by left|done|by left].
  - intros [= <- <- <-]. unfold stream_read. set (want := Nat.min _ _).
    destruct (take want <$> chunk i) as [[|b bs]|]; [done| |done].
    unfold write_out. destruct (wrote i); [done|]. unfold dash. cbn [phase].
    exists (N.of_nat (length sent)). split; [|done]. rewrite length_app. simpl. lia.
  - intros [= <- <- <-]. destruct Hc as (Hg & Hlen & hdr & Hhdr & Hw). destruct Hd as (Hl & r & Hr & Hb & Ht & Htot & Hpe).
    unfold write_out. fold (footer o sent).
    assert (∀ rest, dash acts p (mkConn (remote_id c) (transfer_number c) Ended (written c ++ rest))) as Hshow.
    { intros rest. right. exists o, hdr, sent, rest, r. simpl. rewrite Hw, <-app_assoc. split_and!; try done.
      intros Hst. by rewrite Hst in Ht. }
    destruct (footer o sent) as [ftr|]; [destruct (wrote i)|]; [done| |].
    + unfold dash. simpl. split; [done|]. by exists r.
    + specialize (Hshow []). by rewrite app_nil_r in Hshow.
  - intros [= <- <- <-]. unfold dash. by rewrite Hph.
Qed.

(** *** All connections *)

Record sender_ok acts s : Prop := {
  so_registered : registered acts (registry s);
  so_permits : transfers s + cnt (λ c, holding (phase c)) (conns s) = MAX_CONCURRENT_TRANSFERS;
  so_conn : ∀ k c, conns s !! k = Some c → conn_ok acts c;
  so_dash : ∀ k c, conns s !! k = Some c → dash acts (projection (transfer_store s)) c;
  so_seen : seen_ok (projection (transfer_store s));
  so_number : ∀ k c, conns s !! k = Some c → (transfer_number c < next_transfer_id s)%N;
  so_distinct : ∀ k k' c c', conns s !! k = Some c → conns s !! k' = Some c' →
    transfer_number c = transfer_number c' → k = k';
  so_future : ∀ n, (next_transfer_id s ≤ n)%N → quiet (projection (transfer_store s)) (direct_id n);
  so_next : (next_transfer_id s ≤ 1 + N.of_nat (length acts))%N
}.

Lemma sender_ok_start : sender_ok [] start_sender.
Proof.
  split; simpl.
  - intros j o. cbn. by rewrite lookup_empty.
  - rewrite cnt_zero; [done|]. intros k c. by rewrite lookup_empty.
  - intros k c. by rewrite lookup_empty.
  - intros k c. by rewrite lookup_empty.
  - intros x Hx. by apply elem_of_empty in Hx.
  - intros k c. by rewrite lookup_empty.
  - intros k k' c c'. by rewrite lookup_empty.
  - intros n _. by split; cbn; rewrite lookup_empty.
  - lia.
Qed.

(** More actions grant no less. *)
Lemma granted_mono acts acts' c o : acts ⊆ acts' → granted acts c o → granted acts' c o.
Proof. intros Hsub [Ha Hr]. split; [done|]. by apply Hsub. Qed.

Lemma conn_ok_mono acts acts' c : acts ⊆ acts' → conn_ok acts c → conn_ok acts' c.
Proof.
  intros Hsub. pose proof (granted_mono acts acts' c) as Hg. unfold conn_ok, shape.
  destruct (phase c); naive_solver.
Qed.

Lemma dash_mono acts acts' p c : acts ⊆ acts' → dash acts p c → dash acts' p c.
Proof.
  intros Hsub. unfold dash, shows. destruct (phase c); try done.
  intros [?|(o & hdr & content & rest & r & Hg & Hrest)]; [by left|].
  right. exists o, hdr, content, rest, r. split; [|done]. by apply (granted_mono acts).
Qed.

Lemma registered_mono acts acts' g : acts ⊆ acts' → registered acts g → registered acts' g.
Proof. intros Hsub Hg j o Ho. destruct (Hg j o Ho). split; [by apply Hsub|done]. Qed.

Lemma sender_ok_mono acts a s :
  sender_ok acts s → sender_ok (acts ++ [a]) s.
Proof.
  assert (acts ⊆ acts ++ [a]) as Hsub by set_solver. intros []. split; try done.
  - by apply (registered_mono acts).
  - intros k c Hk. apply (conn_ok_mono acts); eauto.
  - intros k c Hk. apply (dash_mono acts); eauto.
  - rewrite length_app. simpl. lia.
Qed.

Lemma step_ok acts k i c s :
  sizes_ok acts → sender_ok acts s → conns s !! k = Some c → sender_ok acts (sender_step (Step k i) s).
Proof.
  intros Hsz [Hreg Hper Hconn Hdash Hseen Hnum Hdis Hfut Hnext] Hk. simpl. rewrite Hk.
  destruct (step_conn i c s) as [[c' n] st] eqn:Hs.
  destruct (step_conn_ok acts i c s c' n st Hreg (Hconn k c Hk) Hs) as (Hc' & Hrem & Hno).
  pose proof (step_permits i c s c' n st Hs) as Hp. pose proof (step_publishes i c s c' n st Hs) as Hpub.
  assert (dash acts (projection st) c' ∧ seen_ok (projection st) ∧
    ∀ t, t ≠ tid c → records (projection st) !! t = records (projection (transfer_store s)) !! t ∧
      last_sequence (projection st) !! t = last_sequence (projection (transfer_store s)) !! t) as (Hd' & Hs' & Hoth).
  { rewrite Hpub. destruct (event_of i c) as [e|] eqn:He.
    - apply (dash_event acts _ i c e c'); eauto.
      + unfold event_of in He. unfold step_conn in Hs. destruct (phase c); try done; injection Hs as <- _ _; done.
      + unfold event_of in He. unfold step_conn in Hs. destruct (phase c); try done; injection Hs as <- _ _; done.
    - split; [|done]. eapply dash_still; eauto. }
  assert (∀ k' x, <[k := c']> (conns s) !! k' = Some x → k' = k ∧ x = c' ∨ k' ≠ k ∧ conns s !! k' = Some x) as Hins.
  { intros k' x. rewrite lookup_insert. case_decide; [intros [= <-]; auto|auto]. }
  split; simpl; try done.
  - pose proof (cnt_update (λ c, holding (phase c)) (conns s) k c c' Hk). lia.
  - intros k' x [[-> ->]|[_ Hx]]%Hins; eauto.
  - intros k' x [[-> ->]|[Hne Hx]]%Hins; [done|].
    assert (tid x ≠ tid c) as Ht by (intros Heq%direct_id_inj; eauto).
    destruct (Hoth (tid x) Ht) as [Hr Hl]. by apply (dash_ext acts (projection (transfer_store s))); eauto.
  - intros k' x [[-> ->]|[_ Hx]]%Hins; [rewrite Hno|]; eauto.
  - intros k1 k2 x y [[-> ->]|[Hk1 Hx]]%Hins [[-> ->]|[Hk2 Hy]]%Hins; [done|..]; rewrite ?Hno; intros Heq.
    + by destruct Hk2; apply (Hdis k2 k y c).
    + by destruct Hk1; apply (Hdis k1 k x c).
    + by apply (Hdis k1 k2 x y).
  - intros m Hm. assert (direct_id m ≠ tid c) as Ht.
    { intros Heq%direct_id_inj. specialize (Hnum k c Hk). lia. }
    destruct (Hoth _ Ht) as [Hr Hl]. unfold quiet. rewrite Hr, Hl. by apply Hfut.
Qed.

Lemma registered_filter acts P `{∀ x, Decision (P x)} g t :
  registered acts g → registered acts (mkRegistry (filter P (offers g)) t).
Proof. intros Hg j o [Ho _]%map_lookup_filter_Some. by apply Hg. Qed.

Lemma sender_step_ok acts a s :
  sizes_ok (acts ++ [a]) → (N.of_nat (length acts) + 1 < u64_max)%N → sender_ok acts s →
  sender_ok (acts ++ [a]) (sender_step a s).
Proof.
  intros Hsz Hlen Hs. pose proof (sender_ok_mono acts a s Hs) as Hm.
  destruct a as [k who|k i|o|j|now|now is_file| |who now]; simpl.
  - destruct (conns s !! k) as [c|] eqn:Hk; [done|]. destruct Hm as [Hreg Hper Hconn Hdash Hseen Hnum Hdis Hfut Hnext].
    pose proof (so_next _ _ Hs) as Hn0.
    assert ((next_transfer_id s + 1) mod (u64_max + 1) = next_transfer_id s + 1)%N as Hmod by (apply N.mod_small; lia).
    assert (∀ k' x, <[k := mkConn who (next_transfer_id s) Opened []]> (conns s) !! k' = Some x →
      k' = k ∧ x = mkConn who (next_transfer_id s) Opened [] ∨ k' ≠ k ∧ conns s !! k' = Some x) as Hins.
    { intros k' x. rewrite lookup_insert. case_decide; [intros [= <-]; auto|auto]. }
    split; cbn [registry transfers conns transfer_store next_transfer_id]; try done.
    + by rewrite cnt_insert.
    + intros k' x [[-> ->]|[_ Hx]]%Hins; eauto. done.
    + intros k' x [[-> ->]|[_ Hx]]%Hins; eauto. apply Hfut. simpl. lia.
    + rewrite Hmod. intros k' x [[-> ->]|[_ Hx]]%Hins; [simpl; lia|]. specialize (Hnum k' x Hx). lia.
    + intros k1 k2 x y [[-> ->]|[Hk1 Hx]]%Hins [[-> ->]|[Hk2 Hy]]%Hins; [done|..]; simpl; intros Heq.
      * specialize (Hnum k2 y Hy). lia.
      * specialize (Hnum k1 x Hx). lia.
      * by apply (Hdis k1 k2 x y).
    + rewrite Hmod. intros m Hm. apply Hfut. lia.
    + rewrite Hmod, length_app. simpl. lia.
  - destruct (conns s !! k) as [c|] eqn:Hk; [|done].
    pose proof (step_ok _ k i c s Hsz Hm Hk) as Hstep. simpl in Hstep. by rewrite Hk in Hstep.
  - destruct Hm as [Hreg ????????]. split; try done. intros j o'. simpl. rewrite lookup_insert. case_decide as Hj.
    + intros [= <-]. split; [set_solver|done].
    + apply Hreg.
  - destruct Hm as [Hreg ????????]. split; try done. intros j' o'. simpl. intros [_ Ho]%lookup_delete_Some. by apply Hreg.
  - destruct Hm as [Hreg ????????]. split; try done. by apply registered_filter.
  - destruct Hm as [Hreg ????????]. split; try done. by apply registered_filter.
  - destruct Hm as [Hreg ????????]. by split.
  - destruct Hm as [Hreg Hper Hconn Hdash Hseen Hnum Hdis Hfut Hnext].
    unfold store_disconnect_peer. destruct (disconnect_peer who now (projection (transfer_store s))) as [us p'] eqn:Hd.
    assert (p' = (disconnect_peer who now (projection (transfer_store s))).2) as -> by by rewrite Hd.
    split; cbn [registry transfers conns transfer_store next_transfer_id projection]; try done.
    + intros k c Hk. apply dash_disconnect. eauto.
    + intros n Hn. destruct (Hfut n Hn) as [Hr Hl]. split; [|done]. simpl. by rewrite lookup_fmap, Hr.
Qed.

Lemma sender_run_ok acts :
  sizes_ok acts → (N.of_nat (length acts) < u64_max)%N → sender_ok acts (sender_run acts start_sender).
Proof.
  induction acts as [|a acts IH] using rev_ind; intros Hsz Hlen; [apply sender_ok_start|].
  unfold sender_run. rewrite foldl_app. simpl. rewrite length_app in Hlen. simpl in Hlen.
  apply sender_step_ok; [done|lia|]. apply IH; [|lia]. intros o Ho. apply Hsz. set_solver.
Qed.

(** *** Theorems *)

Lemma dash_record acts p c r :
  conn_ok acts c → dash acts p c → records p !! tid c = Some r →
  ∃ o hdr content rest, granted acts c o ∧ greeting o = Some hdr ∧ written c = hdr ++ content ++ rest ∧
    r_bytes r = N.of_nat (length content) ∧ r_total_bytes r = Some (size o) ∧
    r_peer_id r = Some (key_text (remote_id c)) ∧
    (r_state r = CompletedState → phase c = Ended ∧ N.of_nat (length content) = size o ∧ footer o content = Some rest).
Proof.
  intros Hc Hd Hr. assert (∀ o n hdr content rest, live p c o n → granted acts c o → greeting o = Some hdr →
    written c = hdr ++ content ++ rest → n = N.of_nat (length content) →
    ∃ o hdr content rest, granted acts c o ∧ greeting o = Some hdr ∧ written c = hdr ++ content ++ rest ∧
    r_bytes r = N.of_nat (length content) ∧ r_total_bytes r = Some (size o) ∧
    r_peer_id r = Some (key_text (remote_id c)) ∧
    (r_state r = CompletedState → phase c = Ended ∧ N.of_nat (length content) = size o ∧ footer o content = Some rest))
    as Hlive.
  { intros o n hdr content rest (_ & r' & Hr' & Hb & Ht & Htot & Hpe) Hg Hh Hw Hn. simplify_eq.
    exists o, hdr, content, rest. split_and!; try done. intros Hst. by rewrite Hst in Ht. }
  unfold dash in Hd. unfold conn_ok in Hc.
  destruct (phase c) as [| | |o|o|o|o|o sent|o sent|o sent err|o sent|o sent|] eqn:Hph;
    try (by destruct Hd; congruence).
  - destruct Hc as (Hg & _ & hdr & Hh & Hw). apply (Hlive o _ hdr sent [] Hd); rewrite ?app_nil_r; done.
  - destruct Hc as (Hg & _ & hdr & Hh & Hw). destruct Hd as (n & Hn & Hl).
    apply (Hlive o _ hdr (take (N.to_nat n) sent) (drop (N.to_nat n) sent) Hl); [done|done|by rewrite take_drop|].
    rewrite length_take. lia.
  - destruct Hc as (Hg & _ & hdr & part & Hh & Hw & _). by apply (Hlive o _ hdr sent part Hd).
  - destruct Hc as (Hg & _ & hdr & Hh & Hw). apply (Hlive o _ hdr sent [] Hd); rewrite ?app_nil_r; done.
  - destruct Hc as (Hg & _ & hdr & ftr & Hh & _ & Hw). by apply (Hlive o _ hdr sent ftr Hd).
  - destruct Hd as [[Hn _]|(o & hdr & content & rest & r' & Hg & Hh & Hw & Hr' & Hb & Htot & Hpe & Hst)]; [congruence|].
    simplify_eq. exists o, hdr, content, rest. split_and!; try done. intros Hcs. by destruct (Hst Hcs).
Qed.

(** C27: the dashboard tells the truth about every direct transfer, in every interleaving of
    connections, registrations, prunings and disconnections: the record of a connection names
    its peer and the size of an offer that was registered for that peer, the bytes it shows
    were written after the header of that offer, and a transfer it shows as completed has
    ended with the whole content and a completion with its hash written. *)
Theorem dashboard_truthful acts k c r :
  sizes_ok acts → (N.of_nat (length acts) < u64_max)%N →
  let s := sender_run acts start_sender in
  conns s !! k = Some c → records (projection (transfer_store s)) !! tid c = Some r →
  ∃ o hdr content rest, granted acts c o ∧ greeting o = Some hdr ∧ written c = hdr ++ content ++ rest ∧
    r_bytes r = N.of_nat (length content) ∧ r_total_bytes r = Some (size o) ∧
    r_peer_id r = Some (key_text (remote_id c)) ∧
    (r_state r = CompletedState → phase c = Ended ∧ N.of_nat (length content) = size o ∧ footer o content = Some rest).
Proof.
  intros Hsz Hlen s Hk Hr. destruct (sender_run_ok acts Hsz Hlen) as [_ _ Hconn Hdash _ _ _ _ _].
  exact (dash_record _ _ _ _ (Hconn k c Hk) (Hdash k c Hk) Hr).
Qed.

(** at most thirty-two transfers hold a permit at once, however connections interleave and
    end, and when none of them is being served all permits are back. *)
Theorem permits_returned acts :
  sizes_ok acts → (N.of_nat (length acts) < u64_max)%N →
  let s := sender_run acts start_sender in
  cnt (λ c, holding (phase c)) (conns s) ≤ 32 ∧
  ((∀ k c, conns s !! k = Some c → phase c = Opened ∨ phase c = Ended) → transfers s = 32).
Proof.
  intros Hsz Hlen s. destruct (sender_run_ok acts Hsz Hlen) as [_ Hper _ _ _ _ _ _ _].
  change MAX_CONCURRENT_TRANSFERS with 32 in Hper. fold s in Hper. split; [lia|]. intros Hall.
  rewrite cnt_zero in Hper; [lia|]. intros k c Hk. by destruct (Hall k c Hk) as [-> | ->].
Qed.

(** *** The two ends together *)

Lemma conn_shape acts c : conn_ok acts c → shape acts c.
Proof.
  unfold conn_ok, shape. destruct (phase c) as [| | |o|o|o|o|o sent|o sent|o sent err|o sent|o sent|]; try (by left);
    try (by intros [_ ?]; left).
  - intros [Hg Hw]. right. right. left. exists o, (written c), []. rewrite app_nil_r.
    split_and!; [done|done|simpl; lia|done].
  - intros (Hg & Hlt & hdr & Hh & Hw). right. right. left. exists o, hdr, sent. rewrite Hw.
    split_and!; [done|done|lia|done].
  - intros (Hg & Hlt & hdr & Hh & Hw). right. right. left. exists o, hdr, sent. rewrite Hw.
    split_and!; [done|done|lia|done].
  - intros (Hg & Hlt & hdr & part & Hh & Hw & Hl). right. right. left. exists o, hdr, (sent ++ part). by rewrite Hw.
  - intros (Hg & Hlt & hdr & Hh & Hw). right. right. left. exists o, hdr, sent. rewrite Hw.
    split_and!; [done|done|lia|done].
  - intros (Hg & Hlt & hdr & ftr & Hh & Hf & Hw). right. right. right. exists o, hdr, sent, ftr. by rewrite Hw.
  - done.
Qed.

Lemma read_frame_nil {A} `{!Postcard A} : read_frame [] = @None (A * Bytes).
Proof. done. Qed.

(** What a receiver that accepted can have got from a connection. *)
Lemma accepted_shape acts c st h rest requested w got :
  shape acts c → st `prefix_of` written c → open_file_offer st = Ok (h, rest) →
  receive_into h requested rest w = Ok got →
  ∃ o hdr ftr, granted acts c o ∧ id o = requested ∧ greeting o = Some hdr ∧ footer o got = Some ftr ∧
    N.of_nat (length got) = size o ∧ written c = hdr ++ got ++ ftr.
Proof.
  intros Hshape Hpre Hopen Hrec. unfold open_file_offer in Hopen.
  destruct (read_frame st) as [[[h'|e] rest']|] eqn:Hread; [|done|done]. case_decide; [|done].
  injection Hopen as -> ->.
  apply receiver_facts.receive_into_ok in Hrec as (Hlen & cmp & rest1 & rest2 & -> & Hcmp & Hid1 & Hid2 & _).
  destruct Hshape as [Hw|[(e & f & Hf & Hw)|[(o & hdr & body & Hg & Hh & Hle & Hw)
    |(o & hdr & body & ftr & Hg & Hh & Hle & Hftr & Hw)]]].
  - rewrite Hw in Hpre. apply prefix_nil_inv in Hpre as ->. by rewrite read_frame_nil in Hread.
  - assert (st `prefix_of` f ++ []) as Hp by (rewrite app_nil_r; by etrans).
    by destruct (read_frame_prefix _ _ _ _ _ _ Hf Hp Hread).
  - assert (st `prefix_of` hdr ++ body) as Hp by by etrans.
    destruct (read_frame_prefix _ _ _ _ _ _ Hh Hp Hread) as ([= ->] & _ & Hrest).
    apply prefix_length in Hrest. rewrite length_app in Hrest. simpl in Hlen.
    destruct rest1; [by rewrite read_frame_nil in Hcmp|simpl in Hrest; lia].
  - assert (st `prefix_of` hdr ++ body ++ ftr) as Hp by by etrans.
    destruct (read_frame_prefix _ _ _ _ _ _ Hh Hp Hread) as ([= ->] & Hst & Hrest). simpl in *.
    assert (got = body ∧ rest1 `prefix_of` ftr) as [-> Hr1].
    { destruct Hrest as [tail Htail]. rewrite <-app_assoc in Htail.
      apply app_inj_1 in Htail as [-> ->]; [|lia]. split; [done|]. by exists tail. }
    assert (rest1 `prefix_of` ftr ++ []) as Hr1' by by rewrite app_nil_r.
    destruct (read_frame_prefix _ _ _ _ _ _ Hftr Hr1' Hcmp) as (-> & -> & ->%prefix_nil_inv).
    simpl in Hid2. exists o, hdr, ftr. split_and!; try done. rewrite app_nil_r in Hst. subst st.
    apply (anti_symm prefix); done.
Qed.

End facts.
End sender_facts.

Module transfer_facts.
Import transfer_state_projection file_offer file_offer_protocol paths safe_destination frame_facts
  projection_facts receiver_facts sender_facts.

Section facts.
Context `{!Hasher, !KeyText, !HashRecords, !Uppercase}.
Context `{!Postcard FileOfferRequest, !Postcard FileOfferResponse, !Postcard FileOfferCompletion}.
Implicit Types (s : Sender) (c : Conn) (o : FileOffer) (acts : list Action) (w : Weather) (d : Disk).

Lemma download_ok stream requested dir w d path d' :
  download_file_offer stream requested dir w d = (Ok path, d') →
  ∃ h rest got, open_file_offer stream = Ok (h, rest) ∧ receive_into h requested rest w = Ok got ∧
    contents d' !! inode w = Some got.
Proof.
  unfold download_file_offer. destruct (open_file_offer stream) as [[h rest]|e|]; [|done|done].
  destruct (reserve_download_destination _ _ _ _ _ _ _) as [[[r|]|e|] fs]; [|done..].
  destruct (receive_into h requested rest w) as [got|e|] eqn:Hi; [|done|done].
  destruct (safe_destination.publish _ _ _) as [[pth|e|] fs']; [|done|done].
  intros [= _ <-]. exists h, rest, got. simpl. by rewrite lookup_insert_eq.
Qed.

(** C25: a direct transfer is exact and for its peer only: whatever connections the sender
    serves meanwhile, and wherever the stream of one of them breaks off, a download from it
    that is accepted holds byte for byte the content the sender read from the file of the
    requested offer, all of it, and the owner had registered that offer for the peer at the
    other end. *)
Theorem direct_transfer_exact acts k c st requested dir w d path d' :
  sizes_ok acts → (N.of_nat (length acts) < u64_max)%N →
  conns (sender_run acts start_sender) !! k = Some c → st `prefix_of` written c →
  download_file_offer st requested dir w d = (Ok path, d') →
  ∃ o content hdr ftr, granted acts c o ∧ id o = requested ∧ contents d' !! inode w = Some content ∧
    N.of_nat (length content) = size o ∧ greeting o = Some hdr ∧ footer o content = Some ftr ∧
    written c = hdr ++ content ++ ftr.
Proof.
  intros Hsz Hlen Hk Hpre Hd. destruct (download_ok _ _ _ _ _ _ _ Hd) as (h & rest & got & Hopen & Hrec & Hcont).
  destruct (accepted_shape acts c st h rest requested w got) as (o & hdr & ftr & Hg & Hid & Hh & Hf & Hl & Hw); [|done..|].
  { apply conn_shape. exact (so_conn _ _ (sender_run_ok acts Hsz Hlen) k c Hk). }
  exists o, got, hdr, ftr. done.
Qed.

(** Enough reads receive the whole body. *)
Lemma receive_loop_good reads total body rest got :
  Forall (λ r, r.2 = true) reads → length body ≤ length reads →
  N.of_nat (length got + length body) = total →
  receive_loop reads total (body ++ rest) got = Some (got ++ body, rest).
Proof.
  revert body got. induction reads as [|[n ok] reads IH]; intros body got Hok Hl Htot; cbn [receive_loop].
  - simpl in Hl. destruct body; [|simpl in Hl; lia]. rewrite decide_False by (simpl in Htot; lia). by rewrite app_nil_r.
  - apply Forall_cons in Hok as [Hok Hoks]. simpl in Hok. subst ok. case_decide as Hlt.
    + set (m := Nat.min (S n) _). assert (1 ≤ m ≤ length body) as Hm by (subst m; unfold BUFFER; lia).
      assert (take m (body ++ rest) = take m body) as Htk by (apply take_app_le; lia). rewrite Htk.
      rewrite decide_False by (intros Hz; apply (f_equal length) in Hz; rewrite length_take in Hz; simpl in Hz; lia).
      rewrite length_take, Nat.min_l, drop_app_le by lia. rewrite IH.
      * by rewrite <-app_assoc, take_drop.
      * done.
      * rewrite length_drop. simpl in Hl. lia.
      * rewrite length_app, length_take, length_drop. lia.
    + destruct body; [|simpl in Htot; lia]. by rewrite app_nil_r.
Qed.

(** C28: what a sender writes for an offer, a receiver accepts: if the reads go on until the
    content is there, no write fails and a destination can be reserved, the download ends with
    the content of the file at the reserved path, in whatever pieces it arrives. *)
Theorem sent_offer_downloads o content hdr ftr dir w d r fs :
  greeting o = Some hdr → footer o content = Some ftr → N.of_nat (length content) = size o →
  reserve_download_destination (tree d) dir (display_name o) (debug_id (id o)) KeepBoth (refused w) (inode w)
    = (Ok (Use r), fs) →
  Forall (λ x, x.2 = true) (reads w) → length content ≤ length (reads w) → flushed w = true →
  download_file_offer (hdr ++ content ++ ftr) (id o) dir w d =
    (Ok (write_path r), mkDisk fs (<[inode w := content]> (contents d))).
Proof.
  intros Hh Hf Hlen Hres Hok Hreads Hfl. unfold download_file_offer, open_file_offer.
  rewrite (read_write_frame _ _ _ Hh), decide_True by done. simpl. rewrite Hres.
  pose proof (reserve_cases (tree d) dir (display_name o) (debug_id (id o)) KeepBoth (refused w) (inode w)
    (debug_id_plain (id o))) as Hc. rewrite Hres in Hc. destruct Hc as (_ & _ & Hfin).
  rewrite decide_False in Hfin by done. destruct Hfin as [Hfp Hrn].
  unfold receive_into. simpl. rewrite receive_loop_good by (simpl; done || lia). simpl.
  rewrite <-(app_nil_r ftr), (read_write_frame _ _ _ Hf). simpl. unfold verify_completion. simpl.
  rewrite !bool_decide_eq_true_2 by done. simpl. rewrite Hfl. simpl.
  unfold safe_destination.publish. simpl. by rewrite Hrn, Hfp.
Qed.

(** *** Transfers that never end *)

(** A connection that ended publishes no more: a record that shows it as running keeps doing so. *)
Lemma stuck_step acts a s k c r :
  sender_ok acts s → conns s !! k = Some c → phase c = Ended →
  records (projection (transfer_store s)) !! tid c = Some r → terminal (r_state r) = false →
  sizes_ok (acts ++ [a]) →
  conns (sender_step a s) !! k = Some c ∧
  ∃ r', records (projection (transfer_store (sender_step a s))) !! tid c = Some r' ∧ terminal (r_state r') = false.
Proof.
  intros Hs Hk Hph Hr Ht Hsz. destruct a as [k' who|k' i|o|j|now|now is_file| |who now]; simpl; eauto.
  - destruct (conns s !! k') as [c'|] eqn:Hk'; [by eauto|]. simpl. rewrite lookup_insert_ne by congruence. eauto.
  - destruct (conns s !! k') as [c'|] eqn:Hk'; [|by eauto].
    destruct (decide (k' = k)) as [->|Hne].
    + simplify_eq. unfold step_conn. rewrite Hph. simpl. rewrite lookup_insert_eq. eauto.
    + destruct (step_conn i c' s) as [[c2 n] st] eqn:Hstep. simpl. rewrite lookup_insert_ne by done.
      split; [done|]. rewrite (step_publishes _ _ _ _ _ _ Hstep).
      destruct (event_of i c') as [e|] eqn:He; [|by eauto].
      assert (transfer_id e = tid c') as Hte.
      { unfold event_of in He. destruct (phase c'); try done; by injection He as <-. }
      assert (tid c ≠ tid c') as Htid.
      { intros Heq%direct_id_inj. destruct Hne. symmetry. by apply (so_distinct _ _ Hs k k' c c'). }
      destruct (apply_records e (projection (transfer_store s))) as [[-> _]|[-> _]]; [by eauto|].
      rewrite lookup_insert_ne by congruence. eauto.
  - split; [done|]. unfold store_disconnect_peer. simpl. rewrite lookup_fmap, Hr. simpl. eexists. split; [done|].
    by destruct (affected who r).
Qed.

(** a transfer whose completion could not be written ends without an event: the dashboard
    shows it as running, or as disconnected, for ever, whatever happens afterwards. *)
Theorem unfinished_for_ever acts acts' k c r :
  sizes_ok (acts ++ acts') → (N.of_nat (length (acts ++ acts')) < u64_max)%N →
  let s := sender_run acts start_sender in
  conns s !! k = Some c → phase c = Ended → records (projection (transfer_store s)) !! tid c = Some r →
  terminal (r_state r) = false →
  ∃ r', records (projection (transfer_store (sender_run (acts ++ acts') start_sender))) !! tid c = Some r' ∧
    terminal (r_state r') = false.
Proof.
  intros Hsz Hlen s Hk Hph Hr Ht.
  assert (conns (sender_run (acts ++ acts') start_sender) !! k = Some c ∧
    ∃ r', records (projection (transfer_store (sender_run (acts ++ acts') start_sender))) !! tid c = Some r' ∧
      terminal (r_state r') = false) as [_ Hgoal]; [|done].
  induction acts' as [|a acts' IH] using rev_ind; [rewrite app_nil_r; eauto|].
  rewrite app_assoc in *. rewrite length_app in Hlen. simpl in Hlen.
  destruct IH as (Hk' & r' & Hr' & Ht'); [intros o Ho; apply Hsz; set_solver|lia|].
  unfold sender_run. rewrite foldl_app. simpl. fold (sender_run (acts ++ acts') start_sender).
  eapply (stuck_step (acts ++ acts')); eauto. apply sender_run_ok; [intros o Ho; apply Hsz; set_solver|lia].
Qed.

(** A file that cannot be opened any more ends the connection, and the peer is told nothing. *)
Theorem vanished_source_unanswered acts i k c o :
  sizes_ok acts → (N.of_nat (length acts) < u64_max)%N →
  let s := sender_run acts start_sender in
  conns s !! k = Some c → phase c = Opening o → meta i = None →
  ∃ c', conns (sender_step (Step k i) s) !! k = Some c' ∧ phase c' = Ended ∧ written c' = [].
Proof.
  intros Hsz Hlen s Hk Hph Hm. pose proof (so_conn _ _ (sender_run_ok acts Hsz Hlen) k c Hk) as Hc.
  unfold conn_ok in Hc. rewrite Hph in Hc. destruct Hc as [_ Hw].
  exists (set_phase Ended c). unfold sender_step. rewrite Hk. unfold step_conn. rewrite Hph, Hm. simpl.
  rewrite lookup_insert_eq. done.
Qed.

End facts.
End transfer_facts.

(** ** Evaluations *)

Module samples.
Import transfer_state_projection file_offer file_offer_protocol paths safe_destination
  projection_facts receiver_facts sender_facts transfer_facts.

#[local] Existing Instance toy_hasher.
#[local] Instance byte_text : KeyText := {| key_text k := Byte.to_N <$> k; key_text_inj := _ |}.
#[local] Instance map_order : HashRecords :=
  {| hash_records m := (map_to_list m).*2; hash_records_perm m := reflexivity _ |}.
#[local] Instance upper_of_ascii : Uppercase :=
  {| upper_char c := [if decide (97 ≤ c ∧ c ≤ 122)%N then (c - 32)%N else c];
     upper_ascii c _ := eq_refl |}.

#[local] Instance ser_request : Ser FileOfferRequest.
Proof.
  refine (ser_inj (B := N * Bytes) (λ r, (req_version r, req_offer_id r)) (λ '(a, b), Some (mkOfferRequest a b)) _).
  by intros [].
Defined.

#[local] Instance ser_error : Ser FileOfferError.
Proof.
  refine (ser_inj (B := N)
    (λ e, match e with UnsupportedVersion => 0 | NotFound => 1 | PermissionDenied => 2 | Expired => 3
          | SourceUnavailable => 4 | SourceChanged => 5 | Busy => 6 end)%N
    (λ n, match n with 0 => Some UnsupportedVersion | 1 => Some NotFound | 2 => Some PermissionDenied
          | 3 => Some Expired | 4 => Some SourceUnavailable | 5 => Some SourceChanged | 6 => Some Busy
          | _ => None end)%N _).
  by intros [].
Defined.

#[local] Instance ser_header : Ser FileOfferHeader.
Proof.
  refine (ser_inj (B := N * Bytes * Text * N) (λ h, (h_version h, h_offer_id h, h_name h, h_size h))
    (λ '(a, b, c, d), Some (mkHeader a b c d)) _).
  by intros [].
Defined.

#[local] Instance ser_response : Ser FileOfferResponse.
Proof.
  refine (ser_inj (B := FileOfferHeader + FileOfferError)
    (λ r, match r with Header h => inl h | Error e => inr e end)
    (λ x, Some match x with inl h => Header h | inr e => Error e end) _).
  by intros [].
Defined.

#[local] Instance ser_completion : Ser FileOfferCompletion.
Proof.
  refine (ser_inj (B := Bytes * N * Bytes) (λ c, (c_offer_id c, c_bytes_sent c, c_blake3_hash c))
    (λ '(a, b, c), Some (mkCompletion a b c)) _).
  by intros [].
Defined.

#[local] Instance request_postcard : Postcard FileOfferRequest := ser_postcard.
#[local] Instance response_postcard : Postcard FileOfferResponse := ser_postcard.
#[local] Instance completion_postcard : Postcard FileOfferCompletion := ser_postcard.

Definition anna : PublicKey := [x61].

Definition offer : FileOffer := mkOffer [x07] anna (txt "/f") (txt "a.bin") 3 0 5.

Definition go (write : option nat) : Input :=
  mkInput (default [] (write_frame (mkOfferRequest 1 [x07]))) 1 1000 (Some (mkMeta true 3 (Some 5%N))) write
    (Some [x01; x02; x03]) (txt "broken").

(** Anna downloads the file; the answer of the last write but one is [write]. *)
Definition serving (write : option nat) : list Action :=
  Register offer :: Accept 0 anna :: replicate 9 (Step 0 (go None)) ++ [Step 0 (go write); Step 0 (go None)].

Abbreviation run_it acts := (sender_run acts start_sender).

Lemma serving_offer write o : Register o ∈ serving write → o = offer.
Proof.
  intros Ho. unfold serving in Ho. rewrite !elem_of_cons, elem_of_app, elem_of_replicate, !elem_of_cons in Ho.
  destruct Ho as [[= ->]|[?|[[? _]|[?|[?|Hn]]]]]; [done..|]. by apply elem_of_nil in Hn.
Qed.

Lemma serving_sizes write : sizes_ok (serving write).
Proof. intros o ->%serving_offer. by vm_compute. Qed.

Lemma serving_length write : (N.of_nat (length (serving write)) < u64_max)%N.
Proof. by vm_compute. Qed.

Definition get_conn acts : Conn := default (mkConn [] 0 Opened []) (conns (run_it acts) !! 0%N).

Definition record_of acts : TransferRecord :=
  default (mkRecord [] [] Inbound None 0 None Disconnected 0 0 None 0)
    (records (projection (transfer_store (run_it acts))) !! direct_id 1).

Example completed :
  phase (get_conn (serving None)) = Ended ∧ r_state (record_of (serving None)) = CompletedState ∧
  r_bytes (record_of (serving None)) = 3%N ∧ transfers (run_it (serving None)) = 32.
Proof. split_and!; by vm_compute. Qed.

Lemma conn_served write : conns (run_it (serving write)) !! 0%N = Some (get_conn (serving write)).
Proof. destruct write as [n|]; by vm_compute. Qed.

Lemma record_completed :
  records (projection (transfer_store (run_it (serving None)))) !! tid (get_conn (serving None))
    = Some (record_of (serving None)).
Proof. by vm_compute. Qed.

Lemma state_completed : r_state (record_of (serving None)) = CompletedState.
Proof. by vm_compute. Qed.

Lemma dashboard_truthful_witness :
  ∃ o (content : Bytes), granted (serving None) (get_conn (serving None)) o ∧ N.of_nat (length content) = size o.
Proof.
  destruct (dashboard_truthful (serving None) 0 (get_conn (serving None)) (record_of (serving None))
    (serving_sizes None) (serving_length None) (conn_served None) record_completed)
    as (o & hdr & content & rest & Hg & _ & _ & _ & _ & _ & Hdone).
  exists o, content. split; [exact Hg|]. exact (proj1 (proj2 (Hdone state_completed))).
Defined.

Lemma permits_returned_witness : cnt (λ c, holding (phase c)) (conns (run_it (serving None))) ≤ 32.
Proof.
  destruct (permits_returned (serving None) (serving_sizes None) (serving_length None)) as [Hle _]. exact Hle.
Defined.

(** A directory to download into. *)
Definition disk : Disk := mkDisk (mkFs [] {[ [txt "d"] := Dir ]}) ∅.

Definition downloads : Path := to_path [txt "d"].

Definition calm : Weather := mkWeather (λ _, false) 7 (replicate 3 (0, true)) true.

Lemma downloaded :
  ∃ path d', download_file_offer (written (get_conn (serving None))) [x07] downloads calm disk = (Ok path, d').
Proof. eexists _, _. vm_compute. reflexivity. Qed.

Lemma direct_transfer_exact_witness :
  ∃ d' o content, contents d' !! inode calm = Some content ∧ N.of_nat (length content) = size o ∧ o = offer.
Proof.
  destruct downloaded as (path & d' & Hd).
  destruct (direct_transfer_exact (serving None) 0 (get_conn (serving None)) (written (get_conn (serving None)))
    [x07] downloads calm disk path d' (serving_sizes None) (serving_length None) (conn_served None)
    (reflexivity _) Hd) as (o & content & hdr & ftr & Hg & _ & Hc & Hl & _).
  exists d', o, content. split; [exact Hc|]. split; [exact Hl|]. exact (serving_offer None o (proj2 Hg)).
Defined.

Definition hdr : Bytes := default [] (greeting offer).
Definition ftr : Bytes := default [] (footer offer [x01; x02; x03]).

Definition reserved :=
  reserve_download_destination (tree disk) downloads (display_name offer) (debug_id (id offer)) KeepBoth
    (refused calm) (inode calm).

Definition place : ReservedDestination :=
  match reserved.1 with Ok (Use r) => r | _ => mkReserved None [] [] false false end.

Lemma greeting_sent : greeting offer = Some hdr.
Proof. by vm_compute. Qed.
Lemma footer_sent : footer offer [x01; x02; x03] = Some ftr.
Proof. by vm_compute. Qed.
Lemma place_reserved : reserved = (Ok (Use place), reserved.2).
Proof. by vm_compute. Qed.
Lemma calm_reads : Forall (λ x, x.2 = true) (reads calm).
Proof. by repeat constructor. Qed.

Lemma sent_offer_downloads_witness :
  download_file_offer (hdr ++ [x01; x02; x03] ++ ftr) (id offer) downloads calm disk =
    (Ok (write_path place), mkDisk reserved.2 (<[inode calm := [x01; x02; x03]]> (contents disk))).
Proof.
  exact (sent_offer_downloads offer [x01; x02; x03] hdr ftr downloads calm disk place reserved.2
    greeting_sent footer_sent eq_refl place_reserved calm_reads (le_n 3) eq_refl).
Defined.

(** The completion could not be written. *)
Lemma conn_cut : phase (get_conn (serving (Some 0))) = Ended.
Proof. by vm_compute. Qed.
Lemma record_cut :
  records (projection (transfer_store (run_it (serving (Some 0))))) !! tid (get_conn (serving (Some 0)))
    = Some (record_of (serving (Some 0))).
Proof. by vm_compute. Qed.
Lemma running_cut : terminal (r_state (record_of (serving (Some 0)))) = false.
Proof. by vm_compute. Qed.

Lemma unfinished_for_ever_witness :
  ∃ r', records (projection (transfer_store (run_it (serving (Some 0) ++ [])))) !! tid (get_conn (serving (Some 0)))
          = Some r' ∧ terminal (r_state r') = false.
Proof.
  apply (unfinished_for_ever (serving (Some 0)) [] 0 (get_conn (serving (Some 0))) (record_of (serving (Some 0))));
    [rewrite app_nil_r; apply serving_sizes|rewrite app_nil_r; apply serving_length|apply conn_served|apply conn_cut|
     apply record_cut|apply running_cut].
Defined.

(** Two events of a transfer. *)
Definition ev (n : N) (k : EventName) (t : N) : TransferEvent :=
  mkEvent (decimal n) (txt "t") (txt "i") Inbound None n 1 t k n None None.

Definition finished : list Op := [Apply (ev 1 Started 0); Apply (ev 2 Completed 5)].

Definition outcome_record : TransferRecord :=
  mkRecord (txt "t") (txt "i") Inbound None 2 None CompletedState 0 5 None 1.

Lemma finished_record : records (replay finished (with_progress_interval 250)) !! txt "t" = Some outcome_record.
Proof. by vm_compute. Qed.

Lemma outcomes_final_witness :
  records (replay (finished ++ [Apply (ev 3 Started 9)]) (with_progress_interval 250)) !! txt "t" = Some outcome_record.
Proof.
  destruct (outcomes_final 250 finished [Apply (ev 3 Started 9)] (txt "t") outcome_record finished_record eq_refl)
    as [Hr _]. exact Hr.
Defined.

Lemma shown_first : is_Some (apply (ev 1 Progress 0) (replay [] (with_progress_interval 250))).1.
Proof. vm_compute. by eexists. Qed.
Lemma shown_second :
  is_Some (apply (ev 3 Progress 300) (replay ([] ++ Apply (ev 1 Progress 0) :: [Apply (ev 2 Progress 100)])
    (with_progress_interval 250))).1.
Proof. vm_compute. by eexists. Qed.

Lemma progress_cadence_witness : (occurred_at_ms (ev 1 Progress 0) + 250 ≤ occurred_at_ms (ev 3 Progress 300))%N.
Proof.
  apply (progress_cadence 250 [] (ev 1 Progress 0) [Apply (ev 2 Progress 100)] (ev 3 Progress 300) eq_refl eq_refl
    eq_refl shown_first shown_second); [|simpl; lia].
  apply Forall_cons. split; [intros e [= <-]; simpl; lia|apply Forall_nil; exact I].
Defined.

End samples.
