(* ===== verification/DmDelivery.v ===== *)
(** * Durable direct messages: [src/outbox_delivery.rs], [src/storage/conversation.rs]

    [Module outbox_delivery] holds the delivery failures, the retry schedule and the
    reconnect trigger; [Module dm_storage] the tables of direct messages, their outbox and
    their acknowledgements with the queries on them; [Module worker] the delivery worker,
    whose passes, attempts and heartbeats take their steps between those of the rest of the
    program.  A statement or transaction of the database happens at once or fails and changes
    nothing.  The clock, the recipient policy, the transport and the rows' hash order belong
    to the environment; cryptography is behind the interfaces of the mailbox. *)

From Stdlib Require Import Strings.Byte NArith.
From stdpp Require Import prelude gmap sorting strings.
From S2P Require Import Prelude Text Signing Mailbox.

Module outbox_delivery.

(** ** Failures *)

Inductive FailureClass : Type := Transient | Permanent | RetryableOnlyAfterUserAction.

Inductive DeliveryFailure : Type :=
| PeerOffline | AddressUnavailable | ConnectionFailed | Timeout | RelayUnavailable
| ProtocolRejected | Unauthorised | InvalidRecipientState | MessageExpired | ContactRevoked
| PayloadTooLarge | LocalStorageFailure | InternalError.

Definition code (f : DeliveryFailure) : Text :=
  txt match f with
      | PeerOffline => "peer_offline"
      | AddressUnavailable => "address_unavailable"
      | ConnectionFailed => "connection_failed"
      | Timeout => "timeout"
      | RelayUnavailable => "relay_unavailable"
      | ProtocolRejected => "protocol_rejected"
      | Unauthorised => "unauthorised"
      | InvalidRecipientState => "invalid_recipient_state"
      | MessageExpired => "message_expired"
      | ContactRevoked => "contact_revoked"
      | PayloadTooLarge => "payload_too_large"
      | LocalStorageFailure => "local_storage_failure"
      | InternalError => "internal_error"
      end.

(** The texts [from_code] matches, in its order. *)
Definition known_codes : list (Text * DeliveryFailure) :=
  [(txt "peer_offline", PeerOffline); (txt "address_unavailable", AddressUnavailable);
   (txt "connection_failed", ConnectionFailed); (txt "timeout", Timeout);
   (txt "relay_unavailable", RelayUnavailable); (txt "protocol_rejected", ProtocolRejected);
   (txt "unauthorised", Unauthorised); (txt "unauthorized", Unauthorised);
   (txt "invalid_recipient_state", InvalidRecipientState);
   (txt "message_expired", MessageExpired); (txt "outbox envelope expired", MessageExpired);
   (txt "contact_revoked", ContactRevoked); (txt "payload_too_large", PayloadTooLarge);
   (txt "local_storage_failure", LocalStorageFailure)].

Definition from_code (t : Text) : DeliveryFailure :=
  let head := trim (before 58 t) in
  match list_find (λ kf, kf.1 = head) known_codes with
  | Some (_, (_, f)) => f
  | None => InternalError
  end.

Definition class (f : DeliveryFailure) : FailureClass :=
  match f with
  | PeerOffline | AddressUnavailable | ConnectionFailed | Timeout | RelayUnavailable
  | LocalStorageFailure | InternalError => Transient
  | ProtocolRejected | MessageExpired | PayloadTooLarge => Permanent
  | Unauthorised | InvalidRecipientState | ContactRevoked => RetryableOnlyAfterUserAction
  end.

Definition automatic_retry (f : DeliveryFailure) : bool :=
  match class f with Transient => true | _ => false end.

Record DeliveryError : Type := mkDeliveryError {
  failure : DeliveryFailure;
  detail : option Text
}.

(** [DeliveryError::new] *)
Definition new_error (f : DeliveryFailure) : DeliveryError := mkDeliveryError f None.

Definition with_detail (f : DeliveryFailure) (d : Text) : DeliveryError :=
  let cleaned := (λ c, if is_control c then 32%N else c) <$> d in
  let d' := take 512 (trim cleaned) in
  mkDeliveryError f (if decide (d' = []) then None else Some d').

(** [Display::fmt] *)
Definition display (e : DeliveryError) : Text :=
  match detail e with
  | Some d => code (failure e) ++ txt ": " ++ d
  | None => code (failure e)
  end.

(** ** The retry schedule *)

(** [jitter_fraction] is at work in the product [(capped as f64 * factor) as u64], which is
    the parameter [jittered] of [delay_ms]. *)
Record RetryPolicy : Type := mkRetryPolicy {
  initial_delay_ms : N;
  max_delay_ms : N
}.

Definition default_policy : RetryPolicy := mkRetryPolicy 5000 180000.

Definition capped_delay (p : RetryPolicy) (attempt : N) : N :=
  N.min (N.min u64_max (initial_delay_ms p * N.shiftl 1 (N.min attempt 31))) (max_delay_ms p).

Definition delay_ms (p : RetryPolicy) (jittered : N → N) (attempt : N) : N :=
  N.min (jittered (capped_delay p attempt)) (max_delay_ms p).

(** ** The reconnect trigger *)

Inductive ReachabilitySource : Type :=
  Mdns | Relay | FriendPing | DirectConnection | Startup.

#[export] Instance reachability_source_eq_dec : EqDecision ReachabilitySource.
Proof. solve_decision. Defined.

Record PeerReachable : Type := mkPeerReachable {
  peer : PublicKey;
  addresses : list Text;
  source : ReachabilitySource
}.

#[export] Instance peer_reachable_eq_dec : EqDecision PeerReachable.
Proof. solve_decision. Defined.

(** The bounded channel to the worker is the queue of the events in it. *)
Record ReconnectDeliveryTrigger : Type := mkTrigger {
  queue : list PeerReachable;
  queue_capacity : nat;
  receiver_open : bool;
  state : gmap PublicKey (N * PeerReachable);
  debounce : N;
  queue_full_count : N
}.

Implicit Types (t : ReconnectDeliveryTrigger) (e : PeerReachable).

Definition channel (capacity : nat) : ReconnectDeliveryTrigger :=
  mkTrigger [] (Nat.max capacity 1) true ∅ 2000 0.

Definition with_debounce (d : N) t : ReconnectDeliveryTrigger :=
  mkTrigger (queue t) (queue_capacity t) (receiver_open t) (state t) d (queue_full_count t).

Definition set_state (m : gmap PublicKey (N * PeerReachable)) t : ReconnectDeliveryTrigger :=
  mkTrigger (queue t) (queue_capacity t) (receiver_open t) m (debounce t) (queue_full_count t).

(** [tx.try_send(event)] *)
Definition try_send e t : bool * ReconnectDeliveryTrigger :=
  if negb (receiver_open t) then (false, t)
  else if decide (queue_capacity t ≤ length (queue t)) then
    (false, mkTrigger (queue t) (queue_capacity t) true (state t) (debounce t)
              (queue_full_count t + 1))
  else (true, mkTrigger (queue t ++ [e]) (queue_capacity t) true (state t) (debounce t)
                (queue_full_count t)).

(** [now] reads a monotone clock, in milliseconds; [duration_since] saturates. *)
Definition notify (now : N) e t : bool * ReconnectDeliveryTrigger :=
  match state t !! peer e with
  | Some (last, previous) =>
      let changed :=
        negb (bool_decide (addresses previous = addresses e) &&
              bool_decide (source previous = source e)) in
      if negb changed && bool_decide (now - last < debounce t)%N then
        (false, set_state (<[peer e := (last, e)]> (state t)) t)
      else try_send e (set_state (<[peer e := (now, e)]> (state t)) t)
  | None => try_send e (set_state (<[peer e := (now, e)]> (state t)) t)
  end.

(** The worker's [recv]. *)
Definition recv t : option (PeerReachable * ReconnectDeliveryTrigger) :=
  match queue t with
  | [] => None
  | e :: q =>
      Some (e, mkTrigger q (queue_capacity t) (receiver_open t) (state t) (debounce t)
                 (queue_full_count t))
  end.

Definition latest (p : PublicKey) t : option PeerReachable := snd <$> state t !! p.

End outbox_delivery.

Module dm_storage.

Definition MAX_OUTBOX_CLAIM_LIMIT : N := 100.
Definition LOGICAL_DM_PROTOCOL : string := "boru/logical-dm".
Definition LOGICAL_DM_VERSION : N := 1.
Definition MAX_ACK_MESSAGE_ID_LEN : nat := 128.

(** ** Tables

    Integer columns hold [i64]; a [u64] is cast on its way in and out. *)

(** [z as u64] of an [i64] *)
Definition as_u64 (z : Z) : N := Z.to_N (z mod 2 ^ 64).

Inductive DeliveryStatus : Type := Pending | Sent | Acked | Expired | Sending.

#[export] Instance delivery_status_eq_dec : EqDecision DeliveryStatus.
Proof. solve_decision. Defined.

Record OutboxRow : Type := mkRow {
  msg_id : Bytes;
  recipient_device_id : PublicKey;
  status : DeliveryStatus;
  attempts : N;
  next_attempt_at_ms : Z;
  last_error_code : option Text;
  last_attempt_at_ms : option Z;
  lease_owner : option Text;
  locked_until_ms : option Z;
  expires_at_ms : option Z
}.

#[export] Instance outbox_row_eq_dec : EqDecision OutboxRow.
Proof. solve_decision. Defined.

Record DmMessage : Type := mkMessage {
  conversation_id : Bytes;
  sender_id : PublicKey;
  recipient_id : PublicKey;
  sequence : Z;
  request_key : Bytes;
  plaintext : Bytes;
  logical_message : Bytes;
  created_at_ms : Z;
  acknowledged_at : option Z;
  message_envelope : option Bytes
}.

Record DmOutbox : Type := mkDmOutbox {
  do_recipient : PublicKey;
  do_envelope : Bytes;
  do_created_at : Z
}.

Record DmAcknowledgement : Type := mkDmAck {
  da_original_sender : PublicKey;
  da_recipient : PublicKey;
  da_acknowledged_at : Z;
  da_status : option Text;
  da_signature : Bytes
}.

Record StoredEnvelope : Type := mkStored {
  se_conversation_id : Bytes;
  se_author_user_id : PublicKey;
  se_author_device_id : PublicKey;
  se_created_at_ms : Z;
  se_expires_at_ms : Z;
  se_ciphertext : Bytes;
  se_signature : Bytes;
  se_acked_at_ms : option Z
}.

Record MessageAttachment : Type := mkAttachment {
  at_event_id : Z;
  at_content_hash : Text;
  at_display_filename : Text;
  at_position : Z
}.

(** [outbox] is in the order of its row ids. *)
Record Db : Type := mkDb {
  dm_conversations : gmap Bytes (PublicKey * Z);
  dm_sender_sequences : gmap (Bytes * PublicKey) Z;
  dm_messages : gmap Bytes DmMessage;
  dm_outbox : gmap Bytes DmOutbox;
  dm_acknowledgements : gmap Bytes DmAcknowledgement;
  inbox : gmap Bytes StoredEnvelope;
  outbox : list OutboxRow;
  sync_dedup : gmap (Bytes * PublicKey) Z;
  message_attachments : list MessageAttachment
}.

Definition empty_db : Db := mkDb ∅ ∅ ∅ ∅ ∅ ∅ [] ∅ [].

Implicit Types (d : Db) (r : OutboxRow) (now : N) (m : DmMessage).

Definition set_outbox (rs : list OutboxRow) d : Db :=
  mkDb (dm_conversations d) (dm_sender_sequences d) (dm_messages d) (dm_outbox d)
    (dm_acknowledgements d) (inbox d) rs (sync_dedup d) (message_attachments d).

Definition set_dm_outbox (os : gmap Bytes DmOutbox) d : Db :=
  mkDb (dm_conversations d) (dm_sender_sequences d) (dm_messages d) os
    (dm_acknowledgements d) (inbox d) (outbox d) (sync_dedup d) (message_attachments d).

Definition set_inbox (i : gmap Bytes StoredEnvelope) d : Db :=
  mkDb (dm_conversations d) (dm_sender_sequences d) (dm_messages d) (dm_outbox d)
    (dm_acknowledgements d) i (outbox d) (sync_dedup d) (message_attachments d).

Definition set_sync_dedup (s : gmap (Bytes * PublicKey) Z) d : Db :=
  mkDb (dm_conversations d) (dm_sender_sequences d) (dm_messages d) (dm_outbox d)
    (dm_acknowledgements d) (inbox d) (outbox d) s (message_attachments d).

(** The columns an update assigns. *)
Definition set_lease (o : option Text) (until : option Z) r : OutboxRow :=
  mkRow (msg_id r) (recipient_device_id r) (status r) (attempts r) (next_attempt_at_ms r)
    (last_error_code r) (last_attempt_at_ms r) o until (expires_at_ms r).

Definition set_status (s : DeliveryStatus) r : OutboxRow :=
  mkRow (msg_id r) (recipient_device_id r) s (attempts r) (next_attempt_at_ms r)
    (last_error_code r) (last_attempt_at_ms r) (lease_owner r) (locked_until_ms r)
    (expires_at_ms r).

Definition set_next (z : Z) r : OutboxRow :=
  mkRow (msg_id r) (recipient_device_id r) (status r) (attempts r) z
    (last_error_code r) (last_attempt_at_ms r) (lease_owner r) (locked_until_ms r)
    (expires_at_ms r).

Definition set_error (e : option Text) r : OutboxRow :=
  mkRow (msg_id r) (recipient_device_id r) (status r) (attempts r) (next_attempt_at_ms r)
    e (last_attempt_at_ms r) (lease_owner r) (locked_until_ms r) (expires_at_ms r).

Definition set_last_attempt (z : Z) r : OutboxRow :=
  mkRow (msg_id r) (recipient_device_id r) (status r) (attempts r) (next_attempt_at_ms r)
    (last_error_code r) (Some z) (lease_owner r) (locked_until_ms r) (expires_at_ms r).

Definition count_attempt r : OutboxRow :=
  mkRow (msg_id r) (recipient_device_id r) (status r) (attempts r + 1) (next_attempt_at_ms r)
    (last_error_code r) (last_attempt_at_ms r) (lease_owner r) (locked_until_ms r)
    (expires_at_ms r).

Definition unlease r : OutboxRow := set_lease None None r.

(** [UPDATE outbox SET f WHERE p], with the number of rows it changed. *)
Definition update (p : OutboxRow → bool) (f : OutboxRow → OutboxRow) d : nat * Db :=
  (length (filter (λ r, p r = true) (outbox d)),
   set_outbox ((λ r, if p r then f r else r) <$> outbox d) d).

(** [msg_id = ? AND recipient_device_id = ?] *)
Definition is_row (i : Bytes) (p : PublicKey) r : bool :=
  bool_decide (msg_id r = i) && bool_decide (recipient_device_id r = p).

Definition has_status (s : DeliveryStatus) r : bool := bool_decide (status r = s).

Definition final r : bool := has_status Acked r || has_status Expired r.

(** [locked_until_ms IS NULL OR locked_until_ms <= ?] *)
Definition unlocked (now : Z) r : bool :=
  match locked_until_ms r with
  | None => true
  | Some u => bool_decide (u ≤ now)%Z
  end.

(** [locked_until_ms IS NOT NULL AND locked_until_ms <= ?] *)
Definition lease_over (now : Z) r : bool :=
  match locked_until_ms r with
  | None => false
  | Some u => bool_decide (u ≤ now)%Z
  end.

(** [lease_owner = ?] *)
Definition leased_by (o : Text) r : bool := bool_decide (lease_owner r = Some o).

Definition row_at (i : Bytes) (p : PublicKey) d : option OutboxRow :=
  snd <$> list_find (λ r, is_row i p r = true) (outbox d).

Definition new_row (i : Bytes) (p : PublicKey) (next : Z) : OutboxRow :=
  mkRow i p Pending 0 next None None None None None.

(** [INSERT OR IGNORE], [ON CONFLICT DO NOTHING] *)
Definition insert_or_ignore (i : Bytes) (p : PublicKey) (next : Z) d : Db :=
  match row_at i p d with
  | Some _ => d
  | None => set_outbox (outbox d ++ [new_row i p next]) d
  end.

(** ** The outbox *)

Definition retry_outbox_now (i : Bytes) (p : PublicKey) now d : nat * Db :=
  let t := as_i64 now in
  update (λ r, is_row i p r && (has_status Pending r || has_status Sent r) && unlocked t r &&
               match inbox d !! msg_id r with
               | Some e => bool_decide (t < se_expires_at_ms e)%Z
               | None => false
               end)
    (λ r, set_error None (set_next t r)) d.

Definition wake_outbox_for_peer (p : PublicKey) now d : nat * Db :=
  update (λ r, bool_decide (recipient_device_id r = p) && negb (has_status Acked r) &&
               negb (has_status Expired r))
    (set_next (as_i64 now)) d.

Definition enqueue_outbox (i : Bytes) (p : PublicKey) (next : N) d : Db :=
  insert_or_ignore i p (as_i64 next) d.

Definition mark_acked (i : Bytes) (p : PublicKey) d : Db :=
  (update (is_row i p) (λ r, set_status Acked (unlease r)) d).2.

Definition mark_sent (i : Bytes) (p : PublicKey) (next : N) d : Db :=
  (update (λ r, is_row i p r && negb (has_status Acked r) && negb (has_status Expired r))
    (λ r, set_status Sent (set_next (as_i64 next) (unlease r))) d).2.

Definition record_attempt (i : Bytes) (p : PublicKey) (next : N) (e : option Text) now d : Db :=
  (update (λ r, is_row i p r && negb (has_status Acked r))
    (λ r, set_status Sent (set_last_attempt (as_i64 now) (set_error e
            (set_next (as_i64 next) (count_attempt r))))) d).2.

(** [ORDER BY next_attempt_at_ms, rowid] *)
Definition next_le (x y : nat * OutboxRow) : Prop :=
  (next_attempt_at_ms x.2 < next_attempt_at_ms y.2)%Z ∨
  (next_attempt_at_ms x.2 = next_attempt_at_ms y.2 ∧ x.1 ≤ y.1).

#[export] Instance next_le_dec : RelDecision next_le.
Proof. intros x y. unfold next_le. apply _. Defined.

Definition claim_limit_of (limit : N) : nat :=
  N.to_nat (N.min (N.max limit 1) MAX_OUTBOX_CLAIM_LIMIT).

(** The due rows of a claim. *)
Definition due (now : Z) r : bool :=
  negb (has_status Acked r) && negb (has_status Expired r) &&
  bool_decide (next_attempt_at_ms r ≤ now)%Z && unlocked now r.

Definition in_order (p : OutboxRow → bool) d : list OutboxRow :=
  snd <$> merge_sort next_le (filter (λ x, p x.2 = true) (imap pair (outbox d))).

Definition fetch_due_outbox now d : list OutboxRow :=
  take (N.to_nat MAX_OUTBOX_CLAIM_LIMIT)
    (filter (λ r, due (as_i64 now) r && negb (has_status Sending r) = true) (outbox d)).

(** [now_ms.saturating_add(lease_duration_ms) as i64] *)
Definition deadline now (lease : N) : Z := as_i64 (N.min u64_max (now + lease)).

Definition lock_row (owner : Text) (until : Z) now (i : Bytes) (p : PublicKey) d : nat * Db :=
  update (λ r, is_row i p r && unlocked (as_i64 now) r) (set_lease (Some owner) (Some until)) d.

(** Lock the candidate and read it back; a candidate that is locked already is left. *)
Definition claim_row (owner : Text) (lease : N) now (candidate : option OutboxRow) d
    : option OutboxRow * Db :=
  match candidate with
  | None => (None, d)
  | Some r =>
      let (changed, d') :=
        lock_row owner (deadline now lease) now (msg_id r) (recipient_device_id r) d in
      if decide (changed = 1) then (row_at (msg_id r) (recipient_device_id r) d', d')
      else (None, d)
  end.

Definition claim_due_outbox now (owner : Text) (lease : N) (limit : N) d
    : option OutboxRow * Db :=
  claim_row owner lease now (head (take (claim_limit_of limit) (in_order (due (as_i64 now)) d))) d.

Definition claim_due_outbox_for_peer now (p : PublicKey) (owner : Text) (lease : N) d
    : option OutboxRow * Db :=
  claim_row owner lease now
    (head (filter (λ r, bool_decide (recipient_device_id r = p) && due (as_i64 now) r = true)
             (outbox d))) d.

(** The candidates whose update changed one row, after the updates. *)
Fixpoint retain_locked (lock : Bytes → PublicKey → Db → nat * Db) (cs : list OutboxRow) d
    : list OutboxRow * Db :=
  match cs with
  | [] => ([], d)
  | c :: cs' =>
      let (changed, d') := lock (msg_id c) (recipient_device_id c) d in
      let (kept, d'') := retain_locked lock cs' d' in
      (if decide (changed = 1) then c :: kept else kept, d'')
  end.

Definition claim_rows (lock : Bytes → PublicKey → Db → nat * Db) (cs : list OutboxRow) d
    : list OutboxRow * Db :=
  let (kept, d') := retain_locked lock cs d in
  (omap (λ c, row_at (msg_id c) (recipient_device_id c) d') kept, d').

Definition claim_n_due_outbox now (owner : Text) (lease : N) (limit : N) d
    : list OutboxRow * Db :=
  claim_rows (lock_row owner (deadline now lease) now)
    (take (claim_limit_of limit) (in_order (due (as_i64 now)) d)) d.

Definition claimable (now : Z) r : bool :=
  (has_status Pending r || has_status Sent r) &&
  bool_decide (next_attempt_at_ms r ≤ now)%Z && unlocked now r.

Definition start_sending (owner : Text) (lease : N) now (i : Bytes) (p : PublicKey) d : nat * Db :=
  update (λ r, is_row i p r && (has_status Pending r || has_status Sent r))
    (λ r, set_status Sending (set_last_attempt (as_i64 now)
            (set_lease (Some owner) (Some (deadline now lease)) r))) d.

Definition claim_pending_deliveries_with_lease (limit : N) now (owner : Text) (lease : N) d
    : list OutboxRow * Db :=
  claim_rows (start_sending owner lease now)
    (take (claim_limit_of limit) (in_order (claimable (as_i64 now)) d)) d.

Definition claim_pending_deliveries (limit : N) now d : list OutboxRow * Db :=
  claim_pending_deliveries_with_lease limit now (txt "legacy") 60000 d.

(** [i64::saturating_sub] *)
Definition i64_saturating_sub (a b : Z) : Z := Z.max (-2 ^ 63) (a - b).

Definition recover_stale_sending_deliveries now d : nat * Db :=
  let t := as_i64 now in
  update (λ r, has_status Sending r &&
               (lease_over t r ||
                (bool_decide (locked_until_ms r = None) &&
                 match last_attempt_at_ms r with
                 | Some a => bool_decide (a < i64_saturating_sub t 60000)%Z
                 | None => false
                 end)))
    (λ r, set_status Pending (set_next t (set_error (Some (txt "sending_recovered")) (unlease r)))) d.

(** The error texts after which [finish_outbox_attempt] gives up. *)
Definition terminal_error (e : Text) : bool :=
  let e := to_ascii_lowercase e in
  text_contains (txt "expired") e || text_contains (txt "reject") e ||
  text_contains (txt "unauthor") e || text_contains (txt "revoked") e ||
  text_contains (txt "payload_too_large") e || text_contains (txt "invalid_recipient_state") e.

Definition finished_status (success : bool) (error_code : option Text) : DeliveryStatus :=
  if success then Sent
  else match error_code with
       | Some e => if terminal_error e then Expired else Pending
       | None => Pending
       end.

Definition finish_outbox_attempt (i : Bytes) (p : PublicKey) (owner : Text) (success : bool)
    (next : N) (error_code : option Text) now d : bool * Db :=
  let (changed, d') :=
    update (λ r, is_row i p r && leased_by owner r && negb (has_status Acked r))
      (λ r, unlease (set_status (finished_status success error_code) (set_error error_code
              (set_next (as_i64 next) (set_last_attempt (as_i64 now) (count_attempt r)))))) d in
  (bool_decide (changed = 1), d').

Definition extend_outbox_lease (i : Bytes) (p : PublicKey) (owner : Text) now (until : N) d
    : bool * Db :=
  let (changed, d') :=
    update (λ r, is_row i p r && leased_by owner r &&
                 match locked_until_ms r with
                 | Some u => bool_decide (as_i64 now < u)%Z
                 | None => false
                 end)
      (λ r, set_lease (lease_owner r) (Some (as_i64 until)) r) d in
  (bool_decide (changed = 1), d').

Definition release_outbox_lease (i : Bytes) (p : PublicKey) (owner : Text) d : bool * Db :=
  let (changed, d') := update (λ r, is_row i p r && leased_by owner r) unlease d in
  (bool_decide (changed = 1), d').

Definition recover_stale_outbox_leases now d : nat * Db :=
  update (λ r, lease_over (as_i64 now) r && negb (has_status Acked r) && negb (has_status Expired r))
    unlease d.

Definition expire_outbox now d : nat * Db :=
  update (λ r, negb (has_status Acked r) && negb (has_status Expired r) &&
               match inbox d !! msg_id r with
               | Some e => bool_decide (se_expires_at_ms e ≤ as_i64 now)%Z
               | None => false
               end)
    (λ r, set_error (Some (txt "message_expired")) (set_status Expired (unlease r))) d.

(** On opening the database. *)
Definition recover_crash_state now d : Db :=
  let t := as_i64 now in
  let recovered r := set_status Pending (set_next t (set_error (Some (txt "crash_recovered")) r)) in
  let d := (update (λ r, has_status Sent r && bool_decide (0 < attempts r)%N) recovered d).2 in
  let d := (update (has_status Sending) recovered d).2 in
  let d := (update (λ r, has_status Pending r && bool_decide (t < next_attempt_at_ms r)%Z)
              (set_next t) d).2 in
  (update (lease_over t) unlease d).2.

(** ** The inbox and the record of what was served *)

Definition insert_inbox (i : Bytes) (e : StoredEnvelope) d : Db :=
  match inbox d !! i with
  | Some _ => d
  | None => set_inbox (<[i := e]> (inbox d)) d
  end.

Definition get_inbox (i : Bytes) d : option StoredEnvelope := inbox d !! i.

Definition record_sync_served (p : PublicKey) (ids : list Bytes) now d : Db :=
  set_sync_dedup (foldl (λ s i, if decide (is_Some (s !! (i, p))) then s
                                else <[(i, p) := as_i64 now]> s) (sync_dedup d) ids) d.

Definition prune_sync_dedup now d : Db :=
  let cutoff := i64_saturating_sub (as_i64 now) (as_i64 mailbox.DEFAULT_MAILBOX_TTL) in
  set_sync_dedup (filter (λ kv, (cutoff ≤ kv.2)%Z) (sync_dedup d)) d.

(** ** Direct messages *)

Inductive StorageError : Type :=
| SenderMismatch | EmptyRequestKey | KeyBoundElsewhere | MissingEnvelope
| BadEnvelope (e : mailbox.MailboxError) | BadLogical | EncodeFailed
| SealFailed (e : mailbox.MailboxError) | Constraint | Injected
| AckIdTooLong | AckNotSuccess | AckRefused (e : mailbox.MailboxError) | AckIdNotHex
| AckIdLength | AckUnknown | AckSenderMismatch | AckRecipientMismatch.

Inductive OutgoingDmFault : Type := EncryptionFault | DatabaseFault.

#[export] Instance outgoing_dm_fault_eq_dec : EqDecision OutgoingDmFault.
Proof. solve_decision. Defined.

Record LogicalDm : Type := mkLogical {
  ld_conversation_id : Bytes;
  ld_sender : PublicKey;
  ld_recipient : PublicKey;
  ld_sequence : N;
  ld_message_id : Bytes;
  ld_plaintext : Bytes;
  ld_signature : Bytes
}.

Record OutgoingDm : Type := mkOutgoing {
  od_message_id : Bytes;
  od_sequence : N;
  od_logical_message : Bytes;
  od_envelope : mailbox.MailboxEnvelope
}.

(** The order in which SQLite returns the rows of a query without [ORDER BY]. *)
Class QueryPlan : Type := {
  plan : ∀ {A}, list A → list A;
  plan_perm {A} (l : list A) : plan l ≡ₚ l
}.

(** [dm_messages] in the order of [list_dm_messages]. *)
Definition history_le (x y : Bytes * DmMessage) : Prop :=
  (sequence x.2 < sequence y.2)%Z ∨
  (sequence x.2 = sequence y.2 ∧
   ((sender_id x.2 ≠ sender_id y.2 ∧ bytes_le (sender_id x.2) (sender_id y.2)) ∨
    (sender_id x.2 = sender_id y.2 ∧ bytes_le x.1 y.1))).

#[export] Instance history_le_dec : RelDecision history_le.
Proof. intros x y. unfold history_le. apply _. Defined.

Definition in_conversation (c : Bytes) d : list (Bytes * DmMessage) :=
  filter (λ x, conversation_id x.2 = c) (map_to_list (dm_messages d)).

Definition list_dm_messages (c : Bytes) (offset : nat) (limit : option nat) d
    : list (Bytes * DmMessage) :=
  let rows := drop offset (merge_sort history_le (in_conversation c d)) in
  match limit with
  | Some n => take n rows
  | None => rows
  end.

Definition get_dm_message (i : Bytes) d : option DmMessage := dm_messages d !! i.

Definition next_dm_sequence (c : Bytes) (s : PublicKey) d : N :=
  as_u64 (default 1%Z (dm_sender_sequences d !! (c, s))).

Definition dm_acknowledged (i : Bytes) d : bool :=
  match dm_messages d !! i with
  | Some m => bool_decide (is_Some (acknowledged_at m))
  | None => false
  end.

Abbreviation LogicalFields := (Bytes * PublicKey * PublicKey * N * Bytes * Bytes)%type.

Section storage.
Context `{!Ed25519, !Sealing, !Hasher, !QueryPlan}.
Context `{!Encodable mailbox.SignedV1, !Encodable mailbox.ContextV2, !Encodable mailbox.SignedV2}.
Context `{!Encodable mailbox.MailboxEnvelope, !Postcard mailbox.MailboxEnvelopeV1}.
Context `{!Encodable (string * N * mailbox.AckFields), !Encodable mailbox.LegacyAck}.
Context `{!Postcard (string * N * LogicalFields), !Postcard LogicalDm}.

(** *** Queueing *)

Definition dm_message_id (s : PublicKey) (c : Bytes) (key : Bytes) : Bytes :=
  blake3 (String.list_byte_of_string "boru-chat/dm/request/v1" ++ s ++ c ++ key).

(** [WHERE m.request_key = ?1], a unique column. *)
Definition find_request (key : Bytes) d : option (Bytes * DmMessage) :=
  snd <$> list_find (λ x, request_key x.2 = key) (map_to_list (dm_messages d)).

(** A request key that is known: the stored message, if it is the same one. *)
Definition replay_request (i : Bytes) (c : Bytes) (s rec : PublicKey) (text : Bytes)
    (stored : Bytes * DmMessage) : res StorageError OutgoingDm :=
  let (stored_id, m) := stored in
  ensure (bool_decide (plaintext m = text) && bool_decide (stored_id = i) &&
          bool_decide (conversation_id m = c) && bool_decide (sender_id m = s) &&
          bool_decide (recipient_id m = rec)) KeyBoundElsewhere;;
  bytes ← ok_or MissingEnvelope (message_envelope m);
  envelope ← (match mailbox.decode bytes with
              | Ok e => Ok e
              | Err e => Err (BadEnvelope e)
              | Panicked => Panicked
              end);
  logical ← ok_or BadLogical (from_bytes (logical_message m));
  Ok (mkOutgoing stored_id (ld_sequence logical) (logical_message m) envelope).

(** [INSERT INTO dm_messages]: its primary key and its unique columns. *)
Definition insert_message (i : Bytes) m d : res StorageError Db :=
  ensure (bool_decide (dm_messages d !! i = None) &&
          bool_decide (find_request (request_key m) d = None) &&
          forallb (λ x, negb (bool_decide (conversation_id x.2 = conversation_id m ∧
                                           sender_id x.2 = sender_id m ∧
                                           sequence x.2 = sequence m)))
            (map_to_list (dm_messages d))) Constraint;;
  Ok (mkDb (dm_conversations d) (dm_sender_sequences d) (<[i := m]> (dm_messages d)) (dm_outbox d)
        (dm_acknowledgements d) (inbox d) (outbox d) (sync_dedup d) (message_attachments d)).

Definition insert_dm_outbox (i : Bytes) (o : DmOutbox) d : res StorageError Db :=
  ensure (bool_decide (dm_outbox d !! i = None)) Constraint;;
  Ok (set_dm_outbox (<[i := o]> (dm_outbox d)) d).

Definition insert_outbox (i : Bytes) (p : PublicKey) (next : Z) d : res StorageError Db :=
  ensure (bool_decide (row_at i p d = None)) Constraint;;
  Ok (set_outbox (outbox d ++ [new_row i p next]) d).

Definition seal_logical (secret : SecretKey) (rec : mailbox.MailboxPublicKey) (bytes : Bytes)
    (now : N) (eph : StaticSecret) (fresh : option Bytes)
        : res StorageError mailbox.MailboxEnvelope :=
  match mailbox.seal_for secret rec bytes now eph fresh with
  | Ok e => Ok e
  | Err e => Err (SealFailed e)
  | Panicked => Panicked
  end.

Definition sign_logical (secret : SecretKey) (c : Bytes) (s rec : PublicKey) (n : N) (i text : Bytes)
    : option LogicalDm :=
  unsigned ← protocol_signing.canonical_signed_bytes LOGICAL_DM_PROTOCOL LOGICAL_DM_VERSION
    (c, s, rec, n, i, text);
  Some (mkLogical c s rec n i text (sign secret unsigned)).

(** The rows of a new message: the conversation, the advanced sequence, the message, its
    envelope and its delivery. *)
Definition insert_rows (checks : bool) (i c : Bytes) (s rec : PublicKey) (n : N)
    (key text logical envelope : Bytes) (now : N) d : res StorageError Db :=
  let t := as_i64 now in
  let conversations := if decide (is_Some (dm_conversations d !! c)) then dm_conversations d
                       else <[c := (rec, t)]> (dm_conversations d) in
  next ← checked (u64_incr checks n);
  let d := mkDb conversations (<[(c, s) := as_i64 next]> (dm_sender_sequences d)) (dm_messages d)
             (dm_outbox d) (dm_acknowledgements d) (inbox d) (outbox d) (sync_dedup d)
             (message_attachments d) in
  d ← insert_message i (mkMessage c s rec (as_i64 n) key text logical t None (Some envelope)) d;
  d ← insert_dm_outbox i (mkDmOutbox rec envelope t) d;
  insert_outbox i rec t d.

(** [now] and [now'] are the readings of the clock for the envelope and for the rows. *)
Definition new_request (checks : bool) (fault : option OutgoingDmFault) (i c : Bytes)
    (s : PublicKey) (key text : Bytes) (rec : mailbox.MailboxPublicKey) (secret : SecretKey)
    (eph : StaticSecret) (fresh : option Bytes) (now now' : N)
        d : res StorageError (OutgoingDm * Db) :=
  let n := next_dm_sequence c s d in
  logical ← ok_or EncodeFailed (sign_logical secret c s (mailbox.identity rec) n i text);
  bytes ← ok_or EncodeFailed (to_stdvec logical);
  ensure (bool_decide (fault ≠ Some EncryptionFault)) Injected;;
  envelope ← seal_logical secret rec bytes now eph fresh;
  d' ← insert_rows checks i c s (mailbox.identity rec) n key text bytes (encoded envelope) now' d;
  ensure (bool_decide (fault ≠ Some DatabaseFault)) Injected;;
  Ok (mkOutgoing i n bytes envelope, d').

(** A transaction that returns an error is rolled back. *)
Definition commit {A} (r : res StorageError (A * Db)) d : res StorageError A * Db :=
  match r with
  | Ok (a, d') => (Ok a, d')
  | Err e => (Err e, d)
  | Panicked => (Panicked, d)
  end.

Definition queue_outgoing_dm (checks : bool) (fault : option OutgoingDmFault) (c : Bytes)
    (s : PublicKey) (key text : Bytes) (rec : mailbox.MailboxPublicKey) (secret : SecretKey)
    (eph : StaticSecret) (fresh : option Bytes) (now now' : N) d
    : res StorageError OutgoingDm * Db :=
  commit
    (ensure (bool_decide (s = public secret)) SenderMismatch;;
     ensure (bool_decide (key ≠ [])) EmptyRequestKey;;
     let i := dm_message_id s c key in
     match find_request key d with
     | Some stored => o ← replay_request i c s (mailbox.identity rec) text stored; Ok (o, d)
     | None => new_request checks fault i c s key text rec secret eph fresh now now' d
     end) d.

Definition get_dm_outbox (i : Bytes)
    d : res StorageError (option (PublicKey * mailbox.MailboxEnvelope)) :=
  match dm_outbox d !! i with
  | None => Ok None
  | Some o => e ← ok_or BadLogical (decoded (do_envelope o)); Ok (Some (do_recipient o, e))
  end.

(** *** Acknowledgements *)

(** The rows of the lookup: unacknowledged messages with their envelope. *)
Definition awaiting_ack d : list (Bytes * DmMessage * DmOutbox) :=
  plan (omap (λ x, match acknowledged_at x.2 with
                   | Some _ => None
                   | None => (λ o, (x.1, x.2, o)) <$> dm_outbox d !! x.1
                   end) (map_to_list (dm_messages d))).

Fixpoint find_acknowledged (id : Text) (rows : list (Bytes * DmMessage * DmOutbox))
    : res StorageError (option (Bytes * DmMessage * DmOutbox)) :=
  match rows with
  | [] => Ok None
  | x :: rows' =>
      match mailbox.decode (do_envelope x.2) with
      | Ok e => if decide (mailbox.message_id e = id) then Ok (Some x)
                else find_acknowledged id rows'
      | Err e => Err (BadEnvelope e)
      | Panicked => Panicked
      end
  end.

Definition acknowledge_message (at_ : Z) m : DmMessage :=
  mkMessage (conversation_id m) (sender_id m) (recipient_id m) (sequence m) (request_key m)
    (plaintext m) (logical_message m) (created_at_ms m) (Some at_) (message_envelope m).

Definition apply_ack (id : Bytes) (ack : mailbox.MessageAcknowledgement) (i : Bytes) m d : Db :=
  let at_ := as_i64 (mailbox.acknowledged_at_ms ack) in
  mark_acked i (recipient_id m)
    (mkDb (dm_conversations d) (dm_sender_sequences d)
       (<[i := acknowledge_message at_ m]> (dm_messages d)) (delete i (dm_outbox d))
       (<[id := mkDmAck (mailbox.original_sender ack) (mailbox.ack_recipient ack) at_
                  (mailbox.ack_status ack) (mailbox.ack_signature ack)]> (dm_acknowledgements d))
       (inbox d) (outbox d) (sync_dedup d) (message_attachments d)).

Definition process_outgoing_ack (fault : bool) (from : PublicKey)
    (ack : mailbox.MessageAcknowledgement) d : res StorageError bool * Db :=
  commit
    (ensure (bool_decide (text_len (mailbox.ack_message_id ack) ≤ MAX_ACK_MESSAGE_ID_LEN))
        AckIdTooLong;;
     ensure (mailbox.is_success ack) AckNotSuccess;;
     (match mailbox.ack_verify ack from with
      | Ok _ => Ok tt
      | Err e => Err (AckRefused e)
      | Panicked => Panicked
      end);;
     id ← ok_or AckIdNotHex (from_hex (mailbox.ack_message_id ack));
     ensure (bool_decide (length id = 32)) AckIdLength;;
     if decide (is_Some (dm_acknowledgements d !! id)) then Ok (false, d)
     else
       found ← find_acknowledged (mailbox.ack_message_id ack) (awaiting_ack d);
       x ← ok_or AckUnknown found;
       let '(i, m, o) := x in
       ensure (bool_decide (sender_id m = mailbox.original_sender ack)) AckSenderMismatch;;
       ensure (bool_decide (recipient_id m = do_recipient o) &&
               bool_decide (recipient_id m = from)) AckRecipientMismatch;;
       ensure (negb fault) Injected;;
       Ok (true, apply_ack id ack i m d)) d.

(** *** Repair *)

(** The unacknowledged messages with retained envelope bytes. *)
Definition to_repair d : list (Bytes * DmMessage * Bytes) :=
  plan (omap (λ x, match acknowledged_at x.2 with
                   | Some _ => None
                   | None => (λ e, (x.1, x.2, e)) <$> message_envelope x.2
                   end) (map_to_list (dm_messages d))).

Definition repair_one now d (x : Bytes * DmMessage * Bytes) : Db :=
  let '(i, m, e) := x in
  let d := match dm_outbox d !! i with
           | Some _ => d
           | None => set_dm_outbox (<[i := mkDmOutbox (recipient_id m)
               e (created_at_ms m)]> (dm_outbox d)) d
           end in
  insert_or_ignore i (recipient_id m) (as_i64 now) d.

Definition repair_pending_dm_projections now d : nat * Db :=
  (length (to_repair d), foldl (repair_one now) d (to_repair d)).

(** *** Serving a reconnecting recipient *)

Definition created_le (x y : Bytes * DmOutbox) : Prop :=
  (do_created_at x.2 < do_created_at y.2)%Z ∨
  (do_created_at x.2 = do_created_at y.2 ∧ bytes_le x.1 y.1).

#[local] Instance created_le_dec : RelDecision created_le.
Proof. intros x y. unfold created_le. apply _. Defined.

Fixpoint page (max_count : nat) (max_bytes : N) (rows : list (Bytes * DmOutbox))
    (acc : list mailbox.MailboxEnvelope)
    (total : N) (extra : bool) : res StorageError (list mailbox.MailboxEnvelope * bool) :=
  match rows with
  | [] => Ok (acc, extra)
  | x :: rows' =>
      if decide (max_count ≤ length acc) then page max_count max_bytes rows' acc total true
      else
        match mailbox.decode (do_envelope x.2) with
        | Ok e =>
            let size := N.of_nat (length (do_envelope x.2)) in
            if decide ((max_bytes < N.min usize_max (total + size))%N ∧ acc ≠ [])
            then page max_count max_bytes rows' acc total true
            else page max_count max_bytes rows' (acc ++ [e]) (total + size) extra
        | Err e => Err (BadEnvelope e)
        | Panicked => Panicked
        end
  end.

Definition pending_rows (rec : PublicKey) (since cutoff : Z) d : list (Bytes * DmOutbox) :=
  merge_sort created_le
    (filter (λ x, do_recipient x.2 = rec ∧ (since ≤ do_created_at x.2)%Z ∧
                  (cutoff ≤ do_created_at x.2)%Z ∧ sync_dedup d !! (x.1, rec) = None)
       (map_to_list (dm_outbox d))).

Definition query_pending_outbound_for_recipient (rec : PublicKey) (since_ms : N) (max_count : nat)
    (max_bytes : N) now d : res StorageError (list mailbox.MailboxEnvelope * bool) :=
  let cutoff := (now - mailbox.ttl_ms mailbox.DEFAULT_MAILBOX_TTL)%N in
  let since := N.max since_ms cutoff in
  page max_count max_bytes
    (take (S max_count) (pending_rows rec (as_i64 since) (as_i64 cutoff) d)) [] 0 false.

End storage.

(** *** Deleting a conversation *)

Definition delete_chat_history (c : Bytes) (event_ids : list N) d : nat * Db :=
  let kept := filter (λ a, at_event_id a ∉ (as_i64 <$> event_ids)) (message_attachments d) in
  let ours := dom (filter (λ x, conversation_id x.2 = c) (dm_messages d)) in
  (length (message_attachments d) - length kept,
   mkDb (delete c (dm_conversations d))
     (filter (λ x, x.1.1 ≠ c) (dm_sender_sequences d))
     (filter (λ x, conversation_id x.2 ≠ c) (dm_messages d))
     (filter (λ x, x.1 ∉ ours) (dm_outbox d))
     (filter (λ x, x.1 ∉ ours) (dm_acknowledgements d))
     (inbox d) (outbox d) (sync_dedup d) kept).

End dm_storage.
#[export] Existing Instances dm_storage.delivery_status_eq_dec dm_storage.outbox_row_eq_dec
  dm_storage.next_le_dec dm_storage.history_le_dec.

Module worker.
Import outbox_delivery dm_storage.

(** ** The worker's configuration *)

(** The delivery timeout and the heartbeat's interval decide when a step is taken, not what
    it does. *)
Record Config : Type := mkConfig {
  cf_owner : Text;
  lease_duration_ms : N;
  claim_limit : N;
  retry_policy : RetryPolicy;
  max_concurrent : nat;
  claim_batch_size : N
}.

Implicit Types (cf : Config).

Definition new (owner : Text) : Config := mkConfig owner 60000 32 default_policy 1 8.

Definition with_lease (duration_ms : N) cf : Config :=
  mkConfig (cf_owner cf) (N.max duration_ms 1000) (claim_limit cf) (retry_policy cf)
    (max_concurrent cf) (claim_batch_size cf).

Definition with_claim_limit (limit : N) cf : Config :=
  mkConfig (cf_owner cf) (lease_duration_ms cf) (N.max limit 1) (retry_policy cf)
    (max_concurrent cf) (claim_batch_size cf).

(** [NonZeroUsize] *)
Definition with_max_concurrent (max : positive) cf : Config :=
  mkConfig (cf_owner cf) (lease_duration_ms cf) (claim_limit cf) (retry_policy cf)
    (Pos.to_nat max) (claim_batch_size cf).

Definition with_claim_batch_size (size : N) cf : Config :=
  mkConfig (cf_owner cf) (lease_duration_ms cf) (claim_limit cf) (retry_policy cf)
    (max_concurrent cf) (N.max size 1).

(** ** One attempt *)

(** The text of the error of an attempt that failed, [None] of one that succeeded. *)
Abbreviation Verdict := (option Text).

Definition not_authorized : Text := txt "recipient is no longer authorized".
Definition timed_out : Text := txt "delivery attempt timed out".

(** The points between which an attempt may be interrupted: it waits for one of the
    worker's slots, then for its peer's; it asks the policy, then the transport; it has a
    verdict; it is about to record it, or to release its lease. *)
Inductive Stage : Type :=
| WaitSlot | WaitPeer | Authorizing | Delivering
| Decided (v : Verdict) | Recording (v : Verdict) (next : N) | Releasing | Finished.

Record Task : Type := mkTask {
  t_row : OutboxRow;
  t_generation : N;
  t_stage : Stage
}.

Definition at_stage (g : Stage) (t : Task) : Task := mkTask (t_row t) (t_generation t) g.

Definition t_peer (t : Task) : PublicKey := recipient_device_id (t_row t).

(** Tasks that hold a slot, tasks that hold their peer's. *)
Definition holds_slot (t : Task) : bool :=
  match t_stage t with WaitSlot | Finished => false | _ => true end.

Definition holds_peer (t : Task) : bool :=
  match t_stage t with WaitSlot | WaitPeer | Finished => false | _ => true end.

(** What an attempt is told next: the policy's answer, the transport's, the timeout; the
    readings of the clock and the jitter; whether the database did it. *)
Inductive TaskEvent : Type :=
| Acquire
| Policy (answer : bool + Text)
| Transport (v : Verdict)
| Deadline
| Decide (now : N) (jittered : N → N)
| Store (io : bool) (now : N).

(** What the worker does for the rest of the world. *)
Inductive Event : Type :=
| Claimed (i : Bytes) (p : PublicKey)
| Deliver (i : Bytes) (p : PublicKey)
| Recorded (i : Bytes) (p : PublicKey) (generation : N).

(** [slot] and [peer_free] say whether the semaphores have a permit. *)
Definition task_step cf (generation : N) (slot peer_free : bool) (e : TaskEvent) (t : Task) (d : Db)
    : option (Task * Db * list Event) :=
  let r := t_row t in
  let go g := Some (at_stage g t, d, []) in
  match t_stage t, e with
  | WaitSlot, Acquire => if slot then go WaitPeer else None
  | WaitPeer, Acquire => if peer_free then go Authorizing else None
  | Authorizing, Policy (inl true) =>
      Some (at_stage Delivering t, d, [Deliver (msg_id r) (recipient_device_id r)])
  | Authorizing, Policy (inl false) => go (Decided (Some not_authorized))
  | Authorizing, Policy (inr e) => go (Decided (Some e))
  | Delivering, Transport v => go (Decided v)
  | (Authorizing | Delivering), Deadline => go (Decided (Some timed_out))
  | Decided v, Decide now jittered =>
      if decide (generation = t_generation t) then
        go (Recording v (N.min u64_max (now + delay_ms (retry_policy cf) jittered (attempts r))))
      else go Releasing
  | Recording v next, Store io now =>
      Some (at_stage Finished t,
            if io then
              (finish_outbox_attempt (msg_id r) (recipient_device_id r) (cf_owner cf)
                 (bool_decide (v = None)) next v now d).2
            else d,
            [Recorded (msg_id r) (recipient_device_id r) (t_generation t)])
  | Releasing, Store io _ =>
      Some (at_stage Finished t,
            if io then (release_outbox_lease (msg_id r) (recipient_device_id r) (cf_owner cf) d).2
            else d, [])
  | _, _ => None
  end.

(** ** A pass *)

(** [run_once], [run_once_for_peer] *)
Inductive Pass : Type := Whole | ForPeer (p : PublicKey) (max_attempts : N).

Inductive Maintenance : Type := ExpireRows | RecoverLeases | RecoverSending.

Definition maintain (now : N) (o : Maintenance) (d : Db) : Db :=
  match o with
  | ExpireRows => (expire_outbox now d).2
  | RecoverLeases => (recover_stale_outbox_leases now d).2
  | RecoverSending => (recover_stale_sending_deliveries now d).2
  end.

Definition maintenance_of (p : Pass) : list Maintenance :=
  match p with
  | Whole => [ExpireRows; RecoverLeases; RecoverSending]
  | ForPeer _ _ => [RecoverLeases; RecoverSending; ExpireRows]
  end.

(** [start] is the reading of the clock at the beginning of the pass. *)
Inductive Phase : Type :=
| Idle
| Repairing (p : Pass) (start : N)
| Maintaining (p : Pass) (start : N) (todo : list Maintenance)
| Claiming (p : Pass) (start : N) (attempted : N)
| Attempting (p : Pass) (start : N) (attempted : N) (t : Task)
| Scheduling (start : N) (attempted : N) (todo : list OutboxRow) (seen : gset PublicKey)
    (tasks : list Task)
| Draining (start : N) (attempted : N) (tasks : list Task).

Record World : Type := mkWorld {
  db : Db;
  generation : N;
  phase : Phase
}.

Definition set_phase (ph : Phase) (w : World) : World := mkWorld (db w) (generation w) ph.
Definition set_db (d : Db) (w : World) : World := mkWorld d (generation w) (phase w).

Definition concurrent cf : bool := bool_decide (1 < max_concurrent cf).

Definition budget cf (p : Pass) : N :=
  match p with
  | Whole => claim_limit cf
  | ForPeer _ n => N.max n 1
  end.

Definition claim_of (r : OutboxRow) : Event := Claimed (msg_id r) (recipient_device_id r).

(** [process_claim] starts at the policy; a spawned task starts at the semaphore. *)
Definition start_task (g : Stage) (w : World) (r : OutboxRow) : Task := mkTask r (generation w) g.

(** One row at a time. *)
Definition claim_one cf (p : Pass) (start attempted : N) (w : World) : World * list Event :=
  let (found, d) :=
    match p with
    | Whole => claim_due_outbox start (cf_owner cf) (lease_duration_ms cf) 1 (db w)
    | ForPeer k _ => claim_due_outbox_for_peer start k (cf_owner cf) (lease_duration_ms cf) (db w)
    end in
  match found with
  | Some r =>
      (mkWorld d (generation w) (Attempting p start (attempted + 1) (start_task Authorizing w r)),
       [claim_of r])
  | None => (mkWorld d (generation w) Idle, [])
  end.

(** A batch, whose rows are then scheduled. *)
Definition claim_batch cf (start attempted : N) (w : World) : World * list Event :=
  let size := N.max (N.min (claim_batch_size cf) (claim_limit cf - attempted)) 1 in
  let (batch, d) :=
    claim_n_due_outbox start (cf_owner cf) (lease_duration_ms cf) size (db w) in
  match batch with
  | [] => (mkWorld d (generation w) Idle, [])
  | _ => (mkWorld d (generation w) (Scheduling start attempted batch ∅ []), claim_of <$> batch)
  end.

(** The claims of a pass; the budget is compared before a row is claimed. *)
Definition claim_step cf (io : bool) (p : Pass) (start attempted : N) (w : World)
    : World * list Event :=
  if decide (budget cf p ≤ attempted)%N then (set_phase Idle w, [])
  else if negb io then (set_phase Idle w, [])
  else match p with
       | Whole => if concurrent cf then claim_batch cf start attempted w
                  else claim_one cf Whole start attempted w
       | ForPeer _ _ => claim_one cf p start attempted w
       end.

(** The loop over a batch: a second row of a peer, and rows beyond the limit, are released. *)
Definition schedule_row cf (io : bool) (start attempted : N) (r : OutboxRow)
    (todo : list OutboxRow) (seen : gset PublicKey) (tasks : list Task) (w : World) : World :=
  let k := recipient_device_id r in
  let release := if io then (release_outbox_lease (msg_id r) k (cf_owner cf) (db w)).2 else db w in
  if decide (k ∈ seen) then
    mkWorld release (generation w) (Scheduling start attempted todo seen tasks)
  else if decide (claim_limit cf ≤ attempted)%N then
    mkWorld release (generation w) (Scheduling start attempted todo ({[k]} ∪ seen) tasks)
  else set_phase (Scheduling start (attempted + 1) todo ({[k]} ∪ seen)
                    (tasks ++ [start_task WaitSlot w r])) w.

Definition slot_free cf (tasks : list Task) : bool :=
  bool_decide (length (filter (λ t, holds_slot t = true) tasks) < max_concurrent cf).

Definition peer_slot_free (k : PublicKey) (tasks : list Task) : bool :=
  forallb (λ t, negb (holds_peer t && bool_decide (t_peer t = k))) tasks.

(** A step of the [n]-th task of a batch. *)
Definition tasks_step cf (w : World) (n : nat) (e : TaskEvent) (tasks : list Task)
    : option (list Task * Db * list Event) :=
  t ← tasks !! n;
  '(t', d, evs) ← task_step cf (generation w) (slot_free cf tasks) (peer_slot_free (t_peer t) tasks)
                    e t (db w);
  Some (<[n := t']> tasks, d, evs).

(** ** The worker among the others *)

Section worker.
Context `{!Ed25519, !Sealing, !Hasher, !QueryPlan}.
Context `{!Encodable mailbox.SignedV1, !Encodable mailbox.ContextV2, !Encodable mailbox.SignedV2}.
Context `{!Encodable mailbox.MailboxEnvelope, !Postcard mailbox.MailboxEnvelopeV1}.
Context `{!Encodable (string * N * mailbox.AckFields), !Encodable mailbox.LegacyAck}.
Context `{!Postcard (string * N * LogicalFields), !Postcard LogicalDm}.

(** What the rest of the program does to the database. *)
Inductive Op : Type :=
| OpQueue (checks : bool) (fault : option OutgoingDmFault) (c : Bytes) (s : PublicKey)
    (key text : Bytes) (rec : mailbox.MailboxPublicKey) (secret : SecretKey)
    (eph : StaticSecret) (fresh : option Bytes) (now now' : N)
| OpAck (fault : bool) (from : PublicKey) (ack : mailbox.MessageAcknowledgement)
| OpRetryNow (i : Bytes) (p : PublicKey) (now : N)
| OpWake (p : PublicKey) (now : N)
| OpEnqueue (i : Bytes) (p : PublicKey) (next : N)
| OpInbox (i : Bytes) (e : StoredEnvelope)
| OpMarkAcked (i : Bytes) (p : PublicKey)
| OpMarkSent (i : Bytes) (p : PublicKey) (next : N)
| OpRecordAttempt (i : Bytes) (p : PublicKey) (next : N) (e : option Text) (now : N)
| OpClaimPending (limit now : N) (owner : Text) (lease : N)
| OpServed (p : PublicKey) (ids : list Bytes) (now : N)
| OpPrune (now : N)
| OpDelete (c : Bytes) (event_ids : list N)
| OpReopen (now : N).

Definition apply_op (o : Op) (d : Db) : Db :=
  match o with
  | OpQueue checks fault c s key text rec secret eph fresh now now' =>
      (queue_outgoing_dm checks fault c s key text rec secret eph fresh now now' d).2
  | OpAck fault from ack => (process_outgoing_ack fault from ack d).2
  | OpRetryNow i p now => (retry_outbox_now i p now d).2
  | OpWake p now => (wake_outbox_for_peer p now d).2
  | OpEnqueue i p next => enqueue_outbox i p next d
  | OpInbox i e => insert_inbox i e d
  | OpMarkAcked i p => mark_acked i p d
  | OpMarkSent i p next => mark_sent i p next d
  | OpRecordAttempt i p next e now => record_attempt i p next e now d
  | OpClaimPending limit now owner lease =>
      (claim_pending_deliveries_with_lease limit now owner lease d).2
  | OpServed p ids now => record_sync_served p ids now d
  | OpPrune now => prune_sync_dedup now d
  | OpDelete c event_ids => (delete_chat_history c event_ids d).2
  | OpReopen now => recover_crash_state now d
  end.

Inductive Action : Type :=
(** the trigger or the tick; a peer that is reachable again *)
| Wake (now : N)
| Reconnected (p : PublicKey) (max_attempts now : N)
(** the worker's next operation, and whether the database did it *)
| Work (io : bool)
| Step (n : nat) (e : TaskEvent)
(** a heartbeat of an attempt, which may still be under way when the attempt is over *)
| Heartbeat (i : Bytes) (p : PublicKey) (now : N)
| NetworkChanged
| Outside (o : Op).

Definition work cf (io : bool) (w : World) : option (World * list Event) :=
  match phase w with
  | Idle => None
  | Repairing p start =>
      if io then Some (mkWorld (repair_pending_dm_projections start (db w)).2 (generation w)
                         (Maintaining p start (maintenance_of p)), [])
      else Some (set_phase Idle w, [])
  | Maintaining p start [] => Some (set_phase (Claiming p start 0) w, [])
  | Maintaining p start (o :: todo) =>
      Some (mkWorld (if io then maintain start o (db w) else db w) (generation w)
              (Maintaining p start todo), [])
  | Claiming p start attempted => Some (claim_step cf io p start attempted w)
  | Attempting p start attempted t =>
      match t_stage t with
      | Finished => Some (set_phase (Claiming p start attempted) w, [])
      | _ => None
      end
  | Scheduling start attempted [] _ tasks => Some (set_phase (Draining start attempted tasks) w, [])
  | Scheduling start attempted (r :: todo) seen tasks =>
      Some (schedule_row cf io start attempted r todo seen tasks w, [])
  | Draining start attempted tasks =>
      if forallb (λ t, match t_stage t with Finished => true | _ => false end) tasks
      then Some (set_phase (Claiming Whole start attempted) w, [])
      else None
  end.

Definition step cf (a : Action) (w : World) : option (World * list Event) :=
  match a with
  | Wake now =>
      match phase w with
      | Idle => Some (set_phase (Repairing Whole now) w, [])
      | _ => None
      end
  | Reconnected p max_attempts now =>
      match phase w with
      | Idle => Some (set_phase (Repairing (ForPeer p max_attempts) now) w, [])
      | _ => None
      end
  | Work io => work cf io w
  | Step n e =>
      match phase w with
      | Attempting p start attempted t =>
          '(t', d, evs) ← task_step cf (generation w) true true e t (db w);
          if decide (n = 0) then
            Some (mkWorld d (generation w) (Attempting p start attempted t'), evs)
          else None
      | Scheduling start attempted todo seen tasks =>
          '(tasks', d, evs) ← tasks_step cf w n e tasks;
          Some (mkWorld d (generation w) (Scheduling start attempted todo seen tasks'), evs)
      | Draining start attempted tasks =>
          '(tasks', d, evs) ← tasks_step cf w n e tasks;
          Some (mkWorld d (generation w) (Draining start attempted tasks'), evs)
      | _ => None
      end
  | Heartbeat i p now =>
      Some (set_db (extend_outbox_lease i p (cf_owner cf) now
                      (N.min u64_max (now + lease_duration_ms cf)) (db w)).2 w, [])
  | NetworkChanged =>
      Some (mkWorld (db w) ((generation w + 1) mod (u64_max + 1))%N (phase w), [])
  | Outside o => Some (set_db (apply_op o (db w)) w, [])
  end.

(** A run, with the events of its steps. *)
Fixpoint run cf (acts : list Action) (w : World) : option (World * list Event) :=
  match acts with
  | [] => Some (w, [])
  | a :: acts' =>
      '(w1, evs1) ← step cf a w;
      '(w2, evs2) ← run cf acts' w1;
      Some (w2, evs1 ++ evs2)
  end.

End worker.
End worker.
