(* ===== verification/DmDeliveryFacts.v ===== *)
(** * Facts about the store of direct messages

    Failures keep their code and their class; delays are bounded.  The outbox is a table with
    a key whose acknowledged rows stay acknowledged.  A queued message is kept with its
    envelope and its delivery row, request keys name one message, and the numbers of a sender
    have no gaps: the invariants here are kept by every operation on the store. *)

From Stdlib Require Import Strings.Byte NArith.
From stdpp Require Import prelude gmap sorting strings.
From S2P Require Import Prelude Text Signing Mailbox MailboxFacts Concrete DmDelivery.

Module failure_facts.
Import outbox_delivery.

(** ** Failures *)

Lemma trim_start_head t c t' : trim_start t = c :: t' → is_whitespace c = false.
Proof.
  induction t as [|x t IH]; simpl; [done|]. destruct (is_whitespace x) eqn:Hx; [done|].
  by intros [= -> ->].
Qed.

Lemma before_app c t u : c ∉ t → before c (t ++ c :: u) = t.
Proof.
  induction t as [|x t IH]; intros Hc; simpl.
  - by rewrite decide_True.
  - rewrite decide_False by set_solver. f_equal. apply IH. set_solver.
Qed.

Lemma before_all c t : c ∉ t → before c t = t.
Proof.
  induction t as [|x t IH]; intros Hc; [done|]. simpl.
  rewrite decide_False by set_solver. f_equal. apply IH. set_solver.
Qed.

Lemma code_no_colon f : 58%N ∉ code f.
Proof. destruct f; decide_compute. Qed.

Lemma from_code_head t f : before 58 t = code f → from_code t = f.
Proof. intros Ht. unfold from_code. rewrite Ht. by destruct f; vm_compute. Qed.

Lemma from_code_display e : from_code (display e) = failure e.
Proof.
  apply from_code_head. unfold display. destruct (detail e) as [d|].
  - apply (before_app 58%N (code (failure e)) (32%N :: d)), code_no_colon.
  - apply before_all, code_no_colon.
Qed.

(** What gives up on a code agrees with its class. *)
Lemma terminal_iff_not_retried f :
  dm_storage.terminal_error (code f) = negb (automatic_retry f).
Proof. by destruct f; vm_compute. Qed.

(** ** The retry schedule *)

Section delay.
Context (p : RetryPolicy) (jittered : N → N).

Lemma capped_positive attempt :
  (0 < initial_delay_ms p)%N → (0 < max_delay_ms p)%N → (0 < capped_delay p attempt)%N.
Proof.
  intros Hi Hm. unfold capped_delay.
  assert (0 < initial_delay_ms p * N.shiftl 1 (N.min attempt 31))%N.
  { rewrite N.shiftl_1_l. apply N.mul_pos_pos; [done|]. apply N.neq_0_lt_0, N.pow_nonzero. done. }
  change u64_max with 18446744073709551615%N. lia.
Qed.

(** The product with a factor of at least one does not fall below the delay; the cap holds
    whatever the product is. *)
Lemma delay_bounds attempt :
  (∀ n, n ≤ jittered n)%N →
  (capped_delay p attempt ≤ delay_ms p jittered attempt ≤ max_delay_ms p)%N.
Proof.
  intros Hj. specialize (Hj (capped_delay p attempt)). unfold delay_ms.
  assert (capped_delay p attempt ≤ max_delay_ms p)%N by (unfold capped_delay; lia). lia.
Qed.

(** Later attempts do not wait less. *)
Lemma capped_mono a b : (a ≤ b)%N → (capped_delay p a ≤ capped_delay p b)%N.
Proof.
  intros Hab. unfold capped_delay. rewrite !N.shiftl_1_l.
  assert (2 ^ N.min a 31 ≤ 2 ^ N.min b 31)%N by (apply N.pow_le_mono_r; lia). nia.
Qed.

End delay.

(** ** The trigger *)

Section trigger.
Implicit Types (t : ReconnectDeliveryTrigger) (e : PeerReachable).

(** An event is queued exactly if the call says so; nothing else enters the queue. *)
Lemma notify_queue now e t b t' :
  notify now e t = (b, t') → queue t' = if b then queue t ++ [e] else queue t.
Proof.
  unfold notify, try_send. intros H.
  repeat (case_match || case_decide); simplify_eq/=; done.
Qed.

Lemma notify_latest now e t : latest (peer e) (notify now e t).2 = Some e.
Proof.
  unfold notify, try_send, latest.
  repeat (case_match || case_decide); simplify_eq/=; by rewrite lookup_insert_eq.
Qed.

(** The queue is bounded by its capacity. *)
Lemma notify_bounded now e t b t' :
  notify now e t = (b, t') → length (queue t) ≤ queue_capacity t →
  queue_capacity t' = queue_capacity t ∧ length (queue t') ≤ queue_capacity t.
Proof.
  unfold notify, try_send. intros H Hl.
  repeat (case_match || case_decide); simplify_eq/=; rewrite ?length_app; simpl; (split; [done|lia]).
Qed.

(** A repetition within the debounce interval is not queued. *)
Lemma repetition_debounced now now' e t b t' :
  notify now e t = (b, t') → (now' - now < debounce t)%N → state t !! peer e = None →
  (notify now' e t').1 = false.
Proof.
  intros H Hd Hs. assert (state t' = <[peer e := (now, e)]> (state t) ∧ debounce t' = debounce t)
      as [Ht Hb].
  { unfold notify in H. rewrite Hs in H. unfold try_send in H.
    repeat (case_match || case_decide); simplify_eq/=; done. }
  unfold notify. rewrite Ht, lookup_insert_eq, Hb.
  by rewrite !bool_decide_eq_true_2.
Qed.

End trigger.
End failure_facts.

Module table_facts.
Import dm_storage.

Implicit Types (d : Db) (r : OutboxRow) (i : Bytes) (p : PublicKey).

(** ** The outbox as a table with a key *)

Definition key r : Bytes * PublicKey := (msg_id r, recipient_device_id r).

Definition keyed d : Prop := NoDup (key <$> outbox d).

Definition same_key (f : OutboxRow → OutboxRow) : Prop := ∀ r, key (f r) = key r.

Lemma is_row_key i p r : is_row i p r = true ↔ key r = (i, p).
Proof. unfold is_row, key. rewrite andb_true_iff, !bool_decide_eq_true. naive_solver. Qed.

Lemma row_at_Some i p d r :
  keyed d → row_at i p d = Some r ↔ r ∈ outbox d ∧ key r = (i, p).
Proof.
  intros Hd. unfold row_at. rewrite fmap_Some. split.
  - intros ([n r'] & Hf & ->). apply list_find_Some in Hf as (Hl & Hk & _). simpl in *.
    split; [by eapply list_elem_of_lookup_2|by apply is_row_key].
  - intros [Hr Hk]. assert (∃ n r', list_find (λ r, is_row i p r = true) (outbox d) = Some (n, r'))
      as (n & r' & Hf).
    { destruct (list_find_elem_of (λ r, is_row i p r = true) (outbox d) r) as [[n r'] Hf];
        [done|by apply is_row_key|eauto]. }
    exists (n, r'). split; [done|]. simpl. pose proof Hf as (Hl & Hk' & _)%list_find_Some.
    apply is_row_key in Hk'. apply list_elem_of_lookup in Hr as [n' Hn'].
    assert (n = n') as ->; [|congruence].
    eapply (NoDup_lookup _ _ _ (i, p) Hd).
    + by rewrite list_lookup_fmap, Hl, <- Hk'.
    + by rewrite list_lookup_fmap, Hn', <- Hk.
Qed.

Lemma option_fmap_id_snd {A} (o : option (nat * A)) : snd <$> (prod_map S id <$> o) = snd <$> o.
Proof. by destruct o as [[]|]. Qed.

Lemma row_at_key i p d r : row_at i p d = Some r → msg_id r = i ∧ recipient_device_id r = p.
Proof.
  unfold row_at. intros ([n r'] & Hf & ->)%fmap_Some.
  apply list_find_Some in Hf as (_ & Hk & _). apply is_row_key in Hk. by injection Hk.
Qed.

Lemma row_at_None i p d : row_at i p d = None ↔ (i, p) ∉ key <$> outbox d.
Proof.
  unfold row_at. rewrite fmap_None, list_find_None, Forall_forall, list_elem_of_fmap.
  setoid_rewrite is_row_key. naive_solver.
Qed.

Lemma row_at_ext i p d d' : outbox d = outbox d' → row_at i p d = row_at i p d'.
Proof. unfold row_at. by intros ->. Qed.

Lemma update_keys P f d : same_key f → key <$> outbox (update P f d).2 = key <$> outbox d.
Proof.
  intros Hf. simpl. rewrite <- list_fmap_compose. apply list_fmap_ext. intros _ r _. simpl.
  by destruct (P r).
Qed.

Lemma update_keyed P f d : same_key f → keyed d → keyed (update P f d).2.
Proof. intros Hf. unfold keyed. by rewrite update_keys. Qed.

Lemma row_at_update P f i p d :
  same_key f → row_at i p (update P f d).2 = (λ r, if P r then f r else r) <$> row_at i p d.
Proof.
  intros Hf. unfold row_at. simpl. induction (outbox d) as [|r l IH]; [done|]. simpl.
  assert (is_row i p (if P r then f r else r) = is_row i p r) as Hr.
  { apply eq_true_iff_eq. rewrite !is_row_key. destruct (P r); [by rewrite Hf|done]. }
  repeat case_decide; [done|congruence|congruence|]. rewrite !option_fmap_id_snd. exact IH.
Qed.

Lemma update_changed i p P f d :
  keyed d → (update (λ r, is_row i p r && P r) f d).1 =
    match row_at i p d with Some r => if P r then 1 else 0 | None => 0 end.
Proof.
  unfold row_at, keyed, update. cbn [fst]. induction (outbox d) as [|r l IH]; [done|].
  intros [Hn Hd]%NoDup_cons. cbn [list_find]. destruct (decide (is_row i p r = true)) as [Hr|Hr].
  - assert (filter (λ r, is_row i p r && P r = true) l = []) as Hl.
    { apply elem_of_nil_inv. intros r' [Hr' Hin]%list_elem_of_filter. apply Hn.
      apply andb_true_iff in Hr' as [Hr' _]. apply is_row_key in Hr, Hr'.
      rewrite Hr, <- Hr'. by apply (list_elem_of_fmap_2 key). }
    simpl. destruct (P r) eqn:HP; [rewrite filter_cons_True by (by rewrite Hr, HP)|
      rewrite filter_cons_False by (rewrite Hr, HP; done)]; by rewrite Hl.
  - rewrite filter_cons_False by (by destruct (is_row i p r)). rewrite option_fmap_id_snd.
    by apply IH.
Qed.

(** Rows stay, and an acknowledged row stays acknowledged. *)
Definition evolves d d' : Prop :=
  ∀ i p r, row_at i p d = Some r →
    ∃ r', row_at i p d' = Some r' ∧ (status r = Acked → status r' = Acked).

#[export] Instance evolves_preorder : PreOrder evolves.
Proof.
  split.
  - intros d i p r Hr. eauto.
  - intros d1 d2 d3 H12 H23 i p r Hr. destruct (H12 _ _ _ Hr) as (r2 & Hr2 & Ha).
    destruct (H23 _ _ _ Hr2) as (r3 & Hr3 & Ha'). eauto.
Qed.

(** What holds of the outbox whatever the program does to it. *)
Definition sound d d' : Prop := (keyed d → keyed d') ∧ evolves d d'.

#[export] Instance sound_preorder : PreOrder sound.
Proof.
  split; [by split|]. intros d1 d2 d3 [H1 H2] [H3 H4]. split; [auto|]. by etransitivity.
Qed.

Lemma sound_ext d d' : outbox d = outbox d' → sound d d'.
Proof.
  intros He. split; [unfold keyed; by rewrite He|].
  intros i p r Hr. rewrite (row_at_ext i p d d' He) in Hr. eauto.
Qed.

Lemma sound_update P f d :
  same_key f → (∀ r, P r = true → status r = Acked → status (f r) = Acked) →
  sound d (update P f d).2.
Proof.
  intros Hf Ha. split; [by apply update_keyed|]. intros i p r Hr.
  rewrite row_at_update, Hr by done. simpl. eexists. split; [done|].
  destruct (P r) eqn:HP; auto.
Qed.

Lemma sound_insert i p z d : sound d (insert_or_ignore i p z d).
Proof.
  unfold insert_or_ignore. destruct (row_at i p d) eqn:Hr; [done|]. split.
  - unfold keyed. simpl. intros Hd. rewrite fmap_app. apply NoDup_app. split_and!; [done| |].
    + intros k Hk ->%list_elem_of_singleton. by apply row_at_None in Hr.
    + apply NoDup_singleton.
  - intros i' p' r' Hr'. exists r'. split; [|done]. revert Hr'. unfold row_at. simpl.
    rewrite !fmap_Some. intros ([n x] & Hx & ->). exists (n, x). split; [|done].
    by apply list_find_app_l.
Qed.

(** ** Operations *)

Ltac keeps := intros ?; reflexivity.

(** Every update of the outbox, by what it does to one row. *)
Lemma sound_lease P o u d : sound d (update P (set_lease o u) d).2.
Proof. by apply sound_update; [keeps|]. Qed.

Lemma sound_unlease P d : sound d (update P unlease d).2.
Proof. apply sound_lease. Qed.

Lemma sound_unacked P f d :
  same_key f → (∀ r, P r = true → status r ≠ Acked) → sound d (update P f d).2.
Proof. intros Hf HP. apply sound_update; [done|]. intros r Hr Ha. by destruct (HP r). Qed.

(** Conditions that leave acknowledged rows alone. *)
Ltac not_acked :=
  intros r; rewrite ?andb_true_iff, ?orb_true_iff, ?negb_true_iff; unfold has_status, claimable;
  rewrite ?andb_true_iff, ?orb_true_iff, ?bool_decide_eq_true, ?bool_decide_eq_false;
  intuition congruence.

Lemma sound_mark_acked i p d : sound d (mark_acked i p d).
Proof. by apply sound_update; [keeps|]. Qed.

Lemma sound_mark_sent i p n d : sound d (mark_sent i p n d).
Proof. apply sound_unacked; [keeps|not_acked]. Qed.

Lemma sound_record_attempt i p n e now d : sound d (record_attempt i p n e now d).
Proof. apply sound_unacked; [keeps|not_acked]. Qed.

Lemma sound_retry_now i p now d : sound d (retry_outbox_now i p now d).2.
Proof. by apply sound_update; [keeps|]. Qed.

Lemma sound_wake p now d : sound d (wake_outbox_for_peer p now d).2.
Proof. by apply sound_update; [keeps|]. Qed.

Lemma sound_finish i p o b n e now d : sound d (finish_outbox_attempt i p o b n e now d).2.
Proof. apply sound_unacked; [keeps|not_acked]. Qed.

Lemma sound_extend i p o now u d : sound d (extend_outbox_lease i p o now u d).2.
Proof. by apply sound_update; [keeps|]. Qed.

Lemma sound_release i p o d : sound d (release_outbox_lease i p o d).2.
Proof. apply sound_unlease. Qed.

Lemma sound_recover_leases now d : sound d (recover_stale_outbox_leases now d).2.
Proof. apply sound_unlease. Qed.

Lemma sound_recover_sending now d : sound d (recover_stale_sending_deliveries now d).2.
Proof. apply sound_unacked; [keeps|not_acked]. Qed.

Lemma sound_expire now d : sound d (expire_outbox now d).2.
Proof. apply sound_unacked; [keeps|not_acked]. Qed.

Lemma sound_reopen now d : sound d (recover_crash_state now d).
Proof.
  unfold recover_crash_state. repeat match goal with
  | |- sound d d => reflexivity
  | |- sound _ (update (lease_over _) unlease _).2 => etransitivity; [|apply sound_unlease]
  | |- sound _ (update _ (set_next _) _).2 =>
      etransitivity; [|by apply sound_update; [keeps|]]
  | |- sound _ (update _ _ _).2 => etransitivity; [|apply sound_unacked; [keeps|not_acked]]
  end.
Qed.

Lemma sound_lock_row o u now i p d : sound d (lock_row o u now i p d).2.
Proof. apply sound_lease. Qed.

Lemma sound_start_sending o l now i p d : sound d (start_sending o l now i p d).2.
Proof. apply sound_unacked; [keeps|not_acked]. Qed.

Lemma sound_claim_row o l now c d : sound d (claim_row o l now c d).2.
Proof.
  unfold claim_row. destruct c as [r|]; [|done].
  pose proof (sound_lock_row o (deadline now l) now (msg_id r) (recipient_device_id r) d) as Hs.
  destruct (lock_row _ _ _ _ _ _) as [n d']. by case_decide.
Qed.

Lemma sound_retain_locked lock cs d :
  (∀ i p d, sound d (lock i p d).2) → sound d (retain_locked lock cs d).2.
Proof.
  intros Hl. revert d. induction cs as [|c cs IH]; intros d; simpl; [done|].
  specialize (Hl (msg_id c) (recipient_device_id c) d).
  destruct (lock _ _ d) as [n d']. specialize (IH d').
  destruct (retain_locked lock cs d') as [kept d'']. simpl in *. by etransitivity.
Qed.

Lemma sound_claim_rows lock cs d :
  (∀ i p d, sound d (lock i p d).2) → sound d (claim_rows lock cs d).2.
Proof.
  intros Hl. unfold claim_rows. pose proof (sound_retain_locked lock cs d Hl) as Hs.
  by destruct (retain_locked lock cs d).
Qed.

(** Operations that touch no other table. *)
Definition outbox_only d d' : Prop := d' = set_outbox (outbox d') d.

#[export] Instance outbox_only_preorder : PreOrder outbox_only.
Proof.
  split; [by intros []|]. intros d1 d2 d3. unfold outbox_only. intros -> ->. done.
Qed.

Lemma outbox_only_update P f d : outbox_only d (update P f d).2.
Proof. done. Qed.

Lemma outbox_only_claim_row o l now c d : outbox_only d (claim_row o l now c d).2.
Proof.
  unfold claim_row. destruct c as [r|]; [|done].
  destruct (lock_row _ _ _ _ _ _) as [n d'] eqn:Hl. unfold lock_row, update in Hl. simplify_eq.
  by case_decide.
Qed.

Lemma outbox_only_claim_rows lock cs d :
  (∀ i p d, outbox_only d (lock i p d).2) → outbox_only d (claim_rows lock cs d).2.
Proof.
  intros Hl. unfold claim_rows. cut (outbox_only d (retain_locked lock cs d).2).
  { by destruct (retain_locked lock cs d). }
  revert d. induction cs as [|c cs IH]; intros d; simpl; [done|].
  specialize (Hl (msg_id c) (recipient_device_id c) d). destruct (lock _ _ d) as [n d'].
  specialize (IH d'). destruct (retain_locked lock cs d') as [kept d'']. simpl in *. by etransitivity.
Qed.

(** ** Claims *)

#[export] Instance next_le_total : Total next_le.
Proof. intros [a x] [b y]. unfold next_le. simpl. lia. Qed.

#[export] Instance next_le_trans : Transitive next_le.
Proof. intros [a x] [b y] [c z]. unfold next_le. simpl. lia. Qed.

Lemma elem_of_in_order P d r : r ∈ in_order P d ↔ r ∈ outbox d ∧ P r = true.
Proof.
  unfold in_order. rewrite list_elem_of_fmap. setoid_rewrite merge_sort_Permutation.
  setoid_rewrite list_elem_of_filter. split.
  - intros ([n r'] & -> & HP & Hin). split; [|done].
    apply elem_of_lookup_imap in Hin as (k & y & [= -> ->] & Hk).
    by eapply list_elem_of_lookup_2.
  - intros [[n Hn]%list_elem_of_lookup HP]. exists (n, r). split_and!; [done..|].
    apply elem_of_lookup_imap. eauto.
Qed.

(** The first candidate: a due row, and none is due before it. *)
Lemma in_order_head P d r :
  head (in_order P d) = Some r →
  r ∈ outbox d ∧ P r = true ∧
  ∀ r', r' ∈ outbox d → P r' = true → (next_attempt_at_ms r ≤ next_attempt_at_ms r')%Z.
Proof.
  intros Hh. assert (r ∈ in_order P d) as [Hr HP]%elem_of_in_order.
  { destruct (in_order P d); [done|]. simplify_eq/=. by left. }
  split_and!; [done..|]. intros r' Hr' HP'.
  assert (r' ∈ in_order P d) as Hin by (by apply elem_of_in_order).
  revert Hh Hin. unfold in_order.
  pose proof (StronglySorted_merge_sort next_le (filter (λ x, P x.2 = true)
      (imap pair (outbox d)))) as Hs.
  destruct (merge_sort _ _) as [|[n x] l]; [done|]. simpl. intros [= ->] Hin.
  apply StronglySorted_inv in Hs as [_ Hf]. apply elem_of_cons in Hin as [->|Hin]; [done|].
  apply list_elem_of_fmap in Hin as ([n' y] & -> & Hin). rewrite Forall_forall in Hf.
  specialize (Hf _ Hin). unfold next_le in Hf. simpl in *. lia.
Qed.

Lemma in_order_None P d : head (in_order P d) = None ↔ ∀ r, r ∈ outbox d → P r = false.
Proof.
  split.
  - intros Hh r Hr. apply not_true_is_false. intros HP.
    assert (r ∈ in_order P d) as Hin by (by apply elem_of_in_order).
    destruct (in_order P d); [set_solver|done].
  - intros HP. destruct (in_order P d) as [|r l] eqn:He; [done|].
    assert (r ∈ in_order P d) as [Hr Ht]%elem_of_in_order by (rewrite He; by left).
    by rewrite HP in Ht.
Qed.

Lemma lock_row_changed o u now i p d :
  keyed d → (lock_row o u now i p d).1 =
    match row_at i p d with Some r => if unlocked (as_i64 now) r then 1 else 0 | None => 0 end.
Proof. intros Hd. by apply update_changed. Qed.

(** A candidate is locked and returned as it is in the table. *)
Lemma claim_row_Some o l now r d :
  keyed d → r ∈ outbox d → unlocked (as_i64 now) r = true →
  claim_row o l now (Some r) d =
    (Some (set_lease (Some o) (Some (deadline now l)) r),
     (lock_row o (deadline now l) now (msg_id r) (recipient_device_id r) d).2).
Proof.
  intros Hd Hr Hu. assert (row_at (msg_id r) (recipient_device_id r) d = Some r) as Hat
    by (by apply row_at_Some).
  pose proof (lock_row_changed o (deadline now l) now (msg_id r) (recipient_device_id r) d Hd) as Hc.
  rewrite Hat, Hu in Hc. unfold claim_row.
  destruct (lock_row _ _ _ _ _ _) as [n d'] eqn:Hl. simpl in Hc. subst n. rewrite decide_True by done.
  assert (d' = (lock_row o (deadline now l) now (msg_id r) (recipient_device_id r) d).2) as ->
    by (by rewrite Hl).
  f_equal. unfold lock_row. rewrite row_at_update by keeps. rewrite Hat. simpl.
  by rewrite (proj2 (is_row_key _ _ r)), Hu.
Qed.

Lemma due_unlocked now r : due now r = true →
    unlocked now r = true ∧ status r ≠ Acked ∧ status r ≠ Expired.
Proof.
  unfold due, has_status. rewrite !andb_true_iff, !negb_true_iff, !bool_decide_eq_false. tauto.
Qed.

(** *** Candidates before and after an update *)

Section candidates.
Context (P : OutboxRow → bool) (g : OutboxRow → OutboxRow).

(** Rows with their ids, as [h] makes them. *)
Lemma filter_rows_same (h : nat → OutboxRow → nat * OutboxRow) (l : list OutboxRow) :
  (∀ n r, (h n r).2 = r) →
  (∀ r, r ∈ l → g r = r ∨ (P r = false ∧ P (g r) = false)) →
  filter (λ x, P x.2 = true) (imap h (g <$> l)) = filter (λ x, P x.2 = true) (imap h l).
Proof.
  revert h. induction l as [|r l IH]; intros h Hh Hg; [done|]. rewrite fmap_cons, !imap_cons.
  specialize (IH (h ∘ S)). rewrite !filter_cons, !Hh, IH by set_solver.
  destruct (Hg r) as [->|[-> ->]]; [by left|done|]. by rewrite !decide_False.
Qed.

Lemma filter_rows_removed (k : Bytes * PublicKey) (h : nat → OutboxRow → nat * OutboxRow)
    (l : list OutboxRow) :
  (∀ n r, (h n r).2 = r) →
  (∀ r, r ∈ l → if decide (key r = k) then P (g r) = false else g r = r) →
  filter (λ x, P x.2 = true) (imap h (g <$> l)) =
  filter (λ x, key x.2 ≠ k) (filter (λ x, P x.2 = true) (imap h l)).
Proof.
  revert h. induction l as [|r l IH]; intros h Hh Hg; [done|]. rewrite fmap_cons, !imap_cons.
  specialize (IH (h ∘ S)). rewrite !filter_cons, !Hh, IH by set_solver.
  specialize (Hg r). destruct (decide (key r = k)) as [He|Hne].
  - rewrite Hg by (by left). rewrite decide_False by done. case_decide; [|done].
    rewrite filter_cons, Hh. by rewrite decide_False by tauto.
  - rewrite Hg by (by left). case_decide; [|done]. rewrite filter_cons, Hh.
    by rewrite decide_True.
Qed.

End candidates.

Lemma fmap_filter_snd (Q : OutboxRow → Prop) `{!∀ r, Decision (Q r)} (l : list (nat * OutboxRow)) :
  snd <$> filter (λ x, Q x.2) l = filter Q (snd <$> l).
Proof.
  induction l as [|[n r] l IH]; [done|]. rewrite filter_cons, fmap_cons, filter_cons. simpl.
  by case_decide; rewrite ?fmap_cons, IH.
Qed.

Lemma in_order_same P (p : OutboxRow → bool) f d :
  (∀ r, r ∈ outbox d → p r = true → P r = false ∧ P (f r) = false) →
  in_order P (update p f d).2 = in_order P d.
Proof.
  intros Hp. unfold in_order. simpl. rewrite (filter_rows_same P _ pair); [done|done|].
  intros r Hr. destruct (p r) eqn:He; [right; auto|by left].
Qed.

(** Taking a row out of the candidates keeps the order of the others. *)
Lemma in_order_removed P (p : OutboxRow → bool) f d k :
  (∀ r, r ∈ outbox d → if decide (key r = k) then p r = true ∧ P (f r) = false else p r = false) →
  in_order P (update p f d).2 = filter (λ r, key r ≠ k) (in_order P d).
Proof.
  intros Hp. unfold in_order. simpl. rewrite (filter_rows_removed P _ k pair); [|done|].
  2:{ intros r Hr. specialize (Hp r Hr). case_decide; [destruct Hp as [-> ->]|rewrite Hp]; done. }
  rewrite <- fmap_filter_snd. f_equal. set (l := filter (λ x, P x.2 = true) (imap pair (outbox d))).
  apply (StronglySorted_unique_strong next_le).
  - intros [n x] [n' y] Hx Hy Hxy Hyx.
    assert ((n, x) ∈ l) as Hxl by (rewrite merge_sort_Permutation in Hx;
      by apply list_elem_of_filter in Hx as []).
    assert ((n', y) ∈ l) as Hyl
      by (apply list_elem_of_filter in Hy as [_ Hy]; by rewrite merge_sort_Permutation in Hy).
    assert (n = n') as <- by (unfold next_le in *; simpl in *; lia).
    apply list_elem_of_filter in Hxl as [_ Hxl]. apply list_elem_of_filter in Hyl as [_ Hyl].
    apply elem_of_lookup_imap in Hxl as (? & ? & [= <- <-] & Hxl).
    apply elem_of_lookup_imap in Hyl as (? & ? & [= <- <-] & Hyl). congruence.
  - apply StronglySorted_merge_sort; apply _.
  - apply StronglySorted_filter, StronglySorted_merge_sort; apply _.
  - by rewrite !merge_sort_Permutation.
Qed.

Lemma in_order_perm P d : in_order P d ≡ₚ filter (λ r, P r = true) (outbox d).
Proof.
  unfold in_order. rewrite merge_sort_Permutation.
  assert (∀ (h : nat → OutboxRow → nat * OutboxRow) l, (∀ n r, (h n r).2 = r) →
    (snd <$> filter (λ x, P x.2 = true) (imap h l)) = filter (λ r, P r = true) l) as Hl;
      [|by rewrite Hl].
  intros h l. revert h. induction l as [|r l IH]; intros h Hh; [done|].
  rewrite imap_cons, !filter_cons, Hh. specialize (IH (h ∘ S) (λ n, Hh (S n))).
  case_decide; rewrite ?fmap_cons, ?Hh, IH; done.
Qed.

Lemma in_order_keys P d : keyed d → NoDup (key <$> in_order P d).
Proof.
  intros Hd. rewrite in_order_perm. eapply sublist_NoDup; [exact Hd|].
  apply fmap_sublist, sublist_filter.
Qed.

End table_facts.

Module store_facts.
Import dm_storage table_facts.

Section facts.
Context `{!Ed25519, !Sealing, !Hasher, !QueryPlan}.
Context `{!Encodable mailbox.SignedV1, !Encodable mailbox.ContextV2, !Encodable mailbox.SignedV2}.
Context `{!Encodable mailbox.MailboxEnvelope, !Postcard mailbox.MailboxEnvelopeV1}.
Context `{!Encodable (string * N * mailbox.AckFields), !Encodable mailbox.LegacyAck}.
Context `{!Postcard (string * N * LogicalFields), !Postcard LogicalDm}.
Implicit Types (d : Db) (r : OutboxRow) (m : DmMessage) (i : Bytes) (now : N).

(** ** What the store keeps of a message *)

(** An envelope as the store writes it: it decodes to itself. *)
Definition genuine (b : Bytes) : Prop :=
  ∃ e, b = encoded e ∧ mailbox.verify_signature e = Ok tt.

Lemma genuine_decodes e :
  mailbox.verify_signature e = Ok tt → mailbox.decode (encoded e) = Ok e.
Proof. intros Hv. unfold mailbox.decode. by rewrite decoded_encoded, Hv. Qed.

(** A message, its delivery row and its envelope: the envelope is there until the message
    is acknowledged, the row is there for ever and then says so. *)
Record kept d i m : Prop := {
  kept_envelope : ∃ b, message_envelope m = Some b ∧ genuine b ∧
    dm_outbox d !! i = match acknowledged_at m with
                       | Some _ => None
                       | None => Some (mkDmOutbox (recipient_id m) b (created_at_ms m))
                       end;
  kept_logical : ∃ l, from_bytes (logical_message m) = Some l ∧
    as_i64 (ld_sequence l) = sequence m;
  kept_row : ∃ r, row_at i (recipient_id m) d = Some r ∧
    (is_Some (acknowledged_at m) → status r = Acked)
}.

Record Inv d : Prop := {
  inv_keyed : keyed d;
  inv_kept i m : dm_messages d !! i = Some m → kept d i m;
  inv_owned i : is_Some (dm_outbox d !! i) → is_Some (dm_messages d !! i);
  inv_request i j m m' :
    dm_messages d !! i = Some m → dm_messages d !! j = Some m' →
    request_key m = request_key m' → i = j;
  inv_number i j m m' :
    dm_messages d !! i = Some m → dm_messages d !! j = Some m' →
    conversation_id m = conversation_id m' → sender_id m = sender_id m' →
    sequence m = sequence m' → i = j
}.

(** A change of the outbox alone. *)
Lemma Inv_outbox d d' : Inv d → sound d d' → outbox_only d d' → Inv d'.
Proof.
  intros [Hk Hm Ho Hr Hu] [Hkd He] Hd'.
  assert (dm_messages d' = dm_messages d ∧ dm_outbox d' = dm_outbox d) as [Hmd Hod]
      by (by rewrite Hd'). split; rewrite ?Hmd, ?Hod; [auto| |done..].
  intros i m Hi. destruct (Hm i m Hi) as [Henv Hlog (r & Hr1 & Hr2)].
  split; rewrite ?Hod; [done..|].
  destruct (He _ _ _ Hr1) as (r' & Hr' & Ha). eauto.
Qed.

Lemma Inv_empty : Inv empty_db.
Proof.
  split; [by apply NoDup_nil|intros i m Hi|intros i Hi|intros i j m m' Hi..].
  all: simpl in Hi; rewrite lookup_empty in Hi; first [discriminate Hi|by destruct Hi].
Qed.

(** *** Looking a request key up *)

Lemma find_request_Some key d i m :
  Inv d → find_request key d = Some (i, m) ↔ dm_messages d !! i = Some m ∧ request_key m = key.
Proof.
  intros HI. unfold find_request. rewrite fmap_Some. split.
  - intros ([n x] & Hf & Hx). simpl in Hx. subst x.
    apply list_find_Some in Hf as (Hl & Hk & _).
    split; [|done]. by eapply elem_of_map_to_list, list_elem_of_lookup_2.
  - intros [Hi Hk].
    destruct (list_find_elem_of (λ x, request_key x.2 = key) (map_to_list (dm_messages d)) (i, m))
      as [[n [j m']] Hf]; [by apply elem_of_map_to_list|done|].
    exists (n, (j, m')). split; [done|]. simpl.
    apply list_find_Some in Hf as (Hl & Hk' & _).
    apply list_elem_of_lookup_2, elem_of_map_to_list in Hl. simpl in *.
    assert (j = i) as -> by (eapply inv_request; eauto; congruence). congruence.
Qed.

Lemma find_request_None key d :
  find_request key d = None ↔ ∀ i m, dm_messages d !! i = Some m → request_key m ≠ key.
Proof.
  unfold find_request. rewrite fmap_None, list_find_None, Forall_forall. split.
  - intros Hf i m Hi%elem_of_map_to_list. apply (Hf _ Hi).
  - intros Hf [i m] Hi%elem_of_map_to_list. by eapply Hf.
Qed.

(** *** Queueing *)

(** What a new request writes. *)
Record written (checks : bool) (i c : Bytes) (s : PublicKey) (key text : Bytes)
    (rec : mailbox.MailboxPublicKey)
    (now : N) (o : OutgoingDm) d d' : Prop := {
  wr_out : o = mkOutgoing i (next_dm_sequence c s d) (od_logical_message o) (od_envelope o);
  wr_envelope : mailbox.verify_signature (od_envelope o) = Ok tt;
  wr_logical : ∃ sig, from_bytes (od_logical_message o) =
    Some (mkLogical c s (mailbox.identity rec) (next_dm_sequence c s d) i text sig);
  wr_new : dm_messages d !! i = None;
  wr_free : row_at i (mailbox.identity rec) d = None;
  wr_no_envelope : dm_outbox d !! i = None;
  wr_unused j m : dm_messages d !! j = Some m → conversation_id m = c → sender_id m = s →
    sequence m ≠ as_i64 (next_dm_sequence c s d);
  wr_messages : dm_messages d' =
    <[i := mkMessage c s (mailbox.identity rec) (as_i64 (next_dm_sequence c s d)) key text
             (od_logical_message o) (as_i64 now) None (Some (encoded (od_envelope o)))]>
      (dm_messages d);
  wr_dm_outbox : dm_outbox d' =
    <[i := mkDmOutbox (mailbox.identity rec) (encoded (od_envelope o)) (as_i64 now)]> (dm_outbox d);
  wr_outbox : outbox d' = outbox d ++ [new_row i (mailbox.identity rec) (as_i64 now)];
  wr_sequences : ∃ k, u64_incr checks (next_dm_sequence c s d) = Done k ∧
    dm_sender_sequences d' = <[(c, s) := as_i64 k]> (dm_sender_sequences d);
  wr_acks : dm_acknowledgements d' = dm_acknowledgements d;
  wr_inbox : inbox d' = inbox d
}.

Lemma insert_message_Ok i m d d' :
  insert_message i m d = Ok d' →
  dm_messages d !! i = None ∧
  (∀ j m', dm_messages d !! j = Some m' → conversation_id m' = conversation_id m →
     sender_id m' = sender_id m → sequence m' ≠ sequence m) ∧
  d' = mkDb (dm_conversations d) (dm_sender_sequences d) (<[i := m]> (dm_messages d)) (dm_outbox d)
         (dm_acknowledgements d) (inbox d) (outbox d) (sync_dedup d) (message_attachments d).
Proof.
  unfold insert_message. intros Hi. res_inv.
  match goal with Hc : _ && _ = true |- _ => rewrite !andb_true_iff in Hc;
    destruct Hc as [[Hn _] Hu] end.
  split_and!; [by apply bool_decide_eq_true in Hn| |done].
  intros j m' Hj%elem_of_map_to_list Hc Hs Hq. apply Is_true_true_2 in Hu.
  rewrite forallb_True, Forall_forall in Hu. specialize (Hu _ Hj). simpl in Hu.
  by rewrite bool_decide_eq_true_2 in Hu.
Qed.

Lemma new_request_Ok checks fault i c s key text rec secret eph fresh now now' d o d' :
  new_request checks fault i c s key text rec secret eph fresh now now' d = Ok (o, d') →
  written checks i c s key text rec now' o d d'.
Proof.
  unfold new_request, insert_rows, insert_dm_outbox, insert_outbox. intros Hr. res_inv.
  repeat match goal with
  | Hi : insert_message _ _ _ = Ok _ |- _ => apply insert_message_Ok in Hi as (? & ? & ->)
  | Hb : bool_decide _ = true |- _ => apply bool_decide_eq_true in Hb
  end. simpl in *.
  match goal with Hl : sign_logical _ _ _ _ _ _ _ = Some _ |- _ =>
    unfold sign_logical in Hl; apply bind_Some in Hl as (b & _ & [= <-]) end.
  match goal with Hs : seal_logical _ _ _ _ _ _ = Ok _ |- _ =>
    unfold seal_logical in Hs; destruct (mailbox.seal_for _ _ _ _ _ _) eqn:Hse; [|done..];
    injection Hs as <- end.
  apply MailboxFacts.sealed_verifies in Hse as (Hv & _). subst d'.
  split; simpl; try done.
  - eexists. by apply postcard_roundtrip.
  - match goal with Hk : checked _ = Ok _ |- _ =>
      unfold checked in Hk; destruct (u64_incr _ _) eqn:Hu; [injection Hk as <-|done] end. eauto.
Qed.

Lemma written_sound checks i c s key text rec now o d d' :
  written checks i c s key text rec now o d d' → sound d d'.
Proof.
  intros Hw. assert (outbox d' = outbox (insert_or_ignore i (mailbox.identity rec) (as_i64 now)
      d)) as He.
  { unfold insert_or_ignore. rewrite (wr_free _ _ _ _ _ _ _ _ _ _ _ Hw).
    by rewrite (wr_outbox _ _ _ _ _ _ _ _ _ _ _ Hw). }
  etransitivity; [apply (sound_insert i (mailbox.identity rec) (as_i64 now))|].
  by apply sound_ext.
Qed.

Lemma written_row checks i c s key text rec now o d d' :
  written checks i c s key text rec now o d d' →
  row_at i (mailbox.identity rec) d' = Some (new_row i (mailbox.identity rec) (as_i64 now)).
Proof.
  intros Hw. pose proof (wr_free _ _ _ _ _ _ _ _ _ _ _ Hw) as Hf. unfold row_at in *.
  rewrite (wr_outbox _ _ _ _ _ _ _ _ _ _ _ Hw), list_find_app_r by (by apply fmap_None in Hf).
  simpl. by rewrite decide_True by (by apply is_row_key).
Qed.

Lemma Inv_written checks i c s key text rec now o d d' :
  Inv d → find_request key d = None → written checks i c s key text rec now o d d' → Inv d'.
Proof.
  intros [Hk Hm Ho Hq Hu] Hfree Hw. rewrite find_request_None in Hfree.
  pose proof Hw as [_ Hv [sig Hl] Hn _ Hno Hun Hms Hos _ _ _ _].
  pose proof (written_sound _ _ _ _ _ _ _ _ _ _ _ Hw) as [Hkd Hev].
  split; [auto|..].
  - intros j m. rewrite Hms. intros [[<- <-]|[Hne Hj]]%lookup_insert_Some.
    + split; simpl.
      * eexists. rewrite Hos, lookup_insert_eq. split_and!; [done| |done]. by eexists.
      * eexists. split; [exact Hl|done].
      * rewrite (written_row _ _ _ _ _ _ _ _ _ _ _ Hw). eexists. split; [done|]. by intros [].
    + destruct (Hm j m Hj) as [Henv Hlog (r & Hr1 & Hr2)]. split; [|done|].
      * by rewrite Hos, lookup_insert_ne.
      * destruct (Hev _ _ _ Hr1) as (r' & Hr' & Ha). eauto.
  - intros j. rewrite Hos, Hms. destruct (decide (i = j)) as [<-|Hne].
    + by rewrite !lookup_insert_eq.
    + rewrite !lookup_insert_ne by done. auto.
  - intros j j' m m'. rewrite Hms.
    intros [[<- <-]|[Hj1 Hj]]%lookup_insert_Some [[<- <-]|[Hj1' Hj']]%lookup_insert_Some; simpl;
      [done|intros He; by destruct (Hfree _ _ Hj')|intros He; by destruct (Hfree _ _ Hj)|eauto].
  - intros j j' m m'. rewrite Hms.
    intros [[<- <-]|[Hj1 Hj]]%lookup_insert_Some [[<- <-]|[Hj1' Hj']]%lookup_insert_Some; simpl;
      [done|intros -> -> He; by destruct (Hun _ _ Hj')|intros Hc Hs He;
        by destruct (Hun _ _ Hj)|eauto].
Qed.

(** Queueing fails and changes nothing, repeats a request, or writes a new one. *)
Lemma queue_cases checks fault c s key text rec secret eph fresh now now' d :
  let q := queue_outgoing_dm checks fault c s key text rec secret eph fresh now now' d in
  (¬ (∃ o, q.1 = Ok o) ∧ q.2 = d) ∨
  (∃ o stored, find_request key d = Some stored ∧ q = (Ok o, d) ∧ s = public secret ∧ key ≠ [] ∧
     replay_request (dm_message_id s c key) c s (mailbox.identity rec) text stored = Ok o) ∨
  (∃ o, find_request key d = None ∧ q.1 = Ok o ∧ s = public secret ∧ key ≠ [] ∧
     written checks (dm_message_id s c key) c s key text rec now' o d q.2).
Proof.
  intros q. unfold queue_outgoing_dm in q. subst q.
  match goal with |- context [commit ?r d] => destruct r as [[o d']|e|] eqn:Hr end;
    [|left; split; [intros [? [=]]|done]..].
  right. res_inv. repeat match goal with
  | Hb : bool_decide _ = true |- _ => apply bool_decide_eq_true in Hb
  end. destruct (find_request key d) as [stored|] eqn:Hf.
  - left. res_inv. simplify_eq. eauto 10.
  - right. exists o. split_and!; [done..|]. by eapply new_request_Ok.
Qed.

Lemma Inv_queue checks fault c s key text rec secret eph fresh now now' d :
  Inv d → Inv (queue_outgoing_dm checks fault c s key text rec secret eph fresh now now' d).2.
Proof.
  intros HI. destruct (queue_cases checks fault c s key text rec secret eph fresh now now' d)
    as [[_ ->]|[(o & x & _ & -> & _ & _ & _)|(o & Hf & _ & _ & _ & Hw)]]; [done|done|].
  by eapply Inv_written.
Qed.

(** *** Acknowledging *)

Lemma elem_of_awaiting_ack d i m o :
  (i, m, o) ∈ awaiting_ack d ↔
  dm_messages d !! i = Some m ∧ acknowledged_at m = None ∧ dm_outbox d !! i = Some o.
Proof.
  unfold awaiting_ack. rewrite plan_perm, list_elem_of_omap. split.
  - intros ([j m'] & Hj%elem_of_map_to_list & He). simpl in He.
    destruct (acknowledged_at m') eqn:Ha; [done|].
    apply fmap_Some in He as (o' & Ho & [= -> -> ->]). done.
  - intros (Hi & Ha & Ho). exists (i, m). split; [by apply elem_of_map_to_list|]. simpl.
    by rewrite Ha, Ho.
Qed.

(** Each row names its message. *)
Lemma find_acknowledged_Some id rows x :
  find_acknowledged id rows = Ok (Some x) →
  x ∈ rows ∧ ∃ e, mailbox.decode (do_envelope x.2) = Ok e ∧ mailbox.message_id e = id.
Proof.
  induction rows as [|y rows IH]; simpl; [done|].
  destruct (mailbox.decode (do_envelope y.2)) as [e|e|] eqn:He; [|done..].
  case_decide as Hid; [intros [= <-]; split; [by left|by eauto]|].
  intros [Hin Hx]%IH. split; [by right|done].
Qed.

(** If all rows decode and only one of them has the id, that one is found. *)
Lemma find_acknowledged_unique id rows x :
  x ∈ rows → (∀ y, y ∈ rows → ∃ e, mailbox.decode (do_envelope y.2) = Ok e ∧
                             (mailbox.message_id e = id ↔ y = x)) →
  find_acknowledged id rows = Ok (Some x).
Proof.
  induction rows as [|y rows IH]; intros Hx Hall; [set_solver|]. simpl.
  destruct (Hall y) as (e & -> & He); [by left|]. case_decide as Hid.
  - by rewrite (proj1 He Hid).
  - apply IH; [|set_solver]. apply elem_of_cons in Hx as [->|Hx]; [|done]. destruct Hid. by apply He.
Qed.

(** What an accepted acknowledgement is. *)
Record acknowledges (from : PublicKey) (ack : mailbox.MessageAcknowledgement) (id i : Bytes) m
    d : Prop := {
  ak_signed : mailbox.ack_verify ack from = Ok tt;
  ak_id : from_hex (mailbox.ack_message_id ack) = Some id;
  ak_first : dm_acknowledgements d !! id = None;
  ak_message : dm_messages d !! i = Some m;
  ak_unacked : acknowledged_at m = None;
  ak_sender : sender_id m = mailbox.original_sender ack;
  ak_recipient : recipient_id m = from;
  ak_envelope : ∃ o e, dm_outbox d !! i = Some o ∧ mailbox.decode (do_envelope o) = Ok e ∧
    mailbox.message_id e = mailbox.ack_message_id ack
}.

Lemma process_ack_cases fault from ack d :
  (∃ id i m, process_outgoing_ack fault from ack d = (Ok true, apply_ack id ack i m d) ∧
     acknowledges from ack id i m d) ∨
  ((process_outgoing_ack fault from ack d).1 ≠ Ok true ∧
   (process_outgoing_ack fault from ack d).2 = d).
Proof.
  unfold process_outgoing_ack.
  match goal with |- context [commit ?r d] => destruct r as [[b d']|e|] eqn:Hr end;
    [|right; split; [done|done]..].
  unfold commit. res_inv. case_decide as Hd; [right; simplify_eq; done|]. res_inv.
  match goal with Hf : find_acknowledged _ _ = Ok ?f, Ho : ?f = Some ?x |- _ =>
    rewrite Ho in Hf; destruct x as [[i m] o];
    apply find_acknowledged_Some in Hf as [Hin (e & He & Hid)] end.
  apply elem_of_awaiting_ack in Hin as (Hm & Ha & Ho). res_inv.
  rewrite ?andb_true_iff, ?bool_decide_eq_true in *. destruct_and?. simplify_eq.
  left. do 3 eexists. split; [done|]. split; try done.
  - by destruct (mailbox.ack_verify ack _) as [[]| |].
  - by apply eq_None_not_Some.
  - eauto.
Qed.

Lemma sound_apply_ack id ack i m d : sound d (apply_ack id ack i m d).
Proof. etransitivity; [|apply sound_mark_acked]. by apply sound_ext. Qed.

(** The row of the acknowledged message, and no other, becomes acknowledged. *)
Lemma row_at_apply_ack id ack i m d j p :
  row_at j p (apply_ack id ack i m d) =
  (λ r, if is_row i (recipient_id m) r then set_status Acked (unlease r) else r) <$> row_at j p d.
Proof. unfold apply_ack, mark_acked. by rewrite row_at_update. Qed.

Lemma Inv_apply_ack from ack id i m d :
  Inv d → acknowledges from ack id i m d → Inv (apply_ack id ack i m d).
Proof.
  intros [Hk Hm Ho Hq Hu] [_ _ _ Hi Ha _ _ _].
  pose proof (sound_apply_ack id ack i m d) as [Hkd Hev]. split; [auto|..].
  - intros j m'. simpl. intros [[<- <-]|[Hne Hj]]%lookup_insert_Some.
    + destruct (Hm i m Hi) as [(b & Hb & Hg & _) Hlog (r & Hr & _)]. split; simpl.
      * exists b. by rewrite lookup_delete_eq.
      * done.
      * rewrite row_at_apply_ack, Hr. eexists. split; [done|]. intros _.
        apply row_at_key in Hr as [<- <-]. by rewrite (proj2 (is_row_key _ _ r)).
    + destruct (Hm j m' Hj) as [Henv Hlog (r & Hr1 & Hr2)]. split; [|done|]; simpl.
      * by rewrite lookup_delete_ne.
      * destruct (Hev _ _ _ Hr1) as (r' & Hr' & Hs). eauto.
  - intros j. simpl. destruct (decide (i = j)) as [<-|Hne].
    + by rewrite lookup_insert_eq.
    + rewrite lookup_delete_ne, lookup_insert_ne by done. auto.
  - intros j j' m1 m2. simpl.
    intros [[<- <-]|[Hj1 Hj]]%lookup_insert_Some [[<- <-]|[Hj1' Hj']]%lookup_insert_Some;
      simpl; [done|by apply Hq|by apply Hq|by apply Hq].
  - intros j j' m1 m2. simpl.
    intros [[<- <-]|[Hj1 Hj]]%lookup_insert_Some [[<- <-]|[Hj1' Hj']]%lookup_insert_Some;
      simpl; [done|by apply Hu|by apply Hu|by apply Hu].
Qed.

Lemma Inv_ack fault from ack d : Inv d → Inv (process_outgoing_ack fault from ack d).2.
Proof.
  intros HI. destruct (process_ack_cases fault from ack d) as [(id & i & m & -> & Hk)|[_ ->]];
    [|done]. by eapply Inv_apply_ack.
Qed.

(** *** Repairing *)

Lemma elem_of_to_repair d i m e :
  (i, m, e) ∈ to_repair d ↔
  dm_messages d !! i = Some m ∧ acknowledged_at m = None ∧ message_envelope m = Some e.
Proof.
  unfold to_repair. rewrite plan_perm, list_elem_of_omap. split.
  - intros ([j m'] & Hj%elem_of_map_to_list & He). simpl in He.
    destruct (acknowledged_at m') eqn:Ha; [done|].
    apply fmap_Some in He as (o' & Ho & [= -> -> ->]). done.
  - intros (Hi & Ha & Ho). exists (i, m). split; [by apply elem_of_map_to_list|]. simpl.
    by rewrite Ha, Ho.
Qed.

(** A message that has its rows is not touched. *)
Lemma repair_one_kept now d i m e :
  is_Some (dm_outbox d !! i) → is_Some (row_at i (recipient_id m) d) →
  repair_one now d (i, m, e) = d.
Proof. intros [o Ho] [r Hr]. unfold repair_one. rewrite Ho. unfold insert_or_ignore.
by rewrite Hr. Qed.

Lemma repair_Inv now d : Inv d → (repair_pending_dm_projections now d).2 = d.
Proof.
  intros HI. unfold repair_pending_dm_projections. simpl.
  assert (∀ x, x ∈ to_repair d → repair_one now d x = d) as Hone.
  { intros [[i m] e] (Hi & Ha & He)%elem_of_to_repair.
    destruct (inv_kept d HI i m Hi) as [(b & _ & _ & Hb) _ (r & Hr & _)].
    apply repair_one_kept; [rewrite Hb, Ha; eauto|eauto]. }
  revert Hone. induction (to_repair d) as [|x l IH]; intros Hone; [done|]. simpl.
  rewrite Hone by (by left). apply IH. set_solver.
Qed.

(** On any database, a pending message gets the rows it lacks and no row is changed. *)
Lemma repair_one_grows now d x :
  sound d (repair_one now d x) ∧ dm_messages (repair_one now d x) = dm_messages d ∧
  dm_outbox d ⊆ dm_outbox (repair_one now d x).
Proof.
  destruct x as [[i m] e]. unfold repair_one.
  destruct (dm_outbox d !! i) as [o|] eqn:Ho.
  - split; [apply sound_insert|]. unfold insert_or_ignore. by destruct (row_at _ _ _).
  - split; [|unfold insert_or_ignore; destruct (row_at _ _ _); split; try done;
      by apply insert_subseteq].
    etransitivity; [|apply sound_insert]. by apply sound_ext.
Qed.

Lemma repair_one_done now d i m e :
  is_Some (dm_outbox (repair_one now d (i, m, e)) !! i) ∧
  is_Some (row_at i (recipient_id m) (repair_one now d (i, m, e))).
Proof.
  unfold repair_one. set (d1 := match dm_outbox d !! i with Some _ => d | None => _ end).
  assert (is_Some (dm_outbox d1 !! i)) as Ho.
  { subst d1. destruct (dm_outbox d !! i) eqn:Ho; [eauto|]. simpl. rewrite lookup_insert_eq. eauto. }
  unfold insert_or_ignore. destruct (row_at i (recipient_id m) d1) as [r|] eqn:Hr; [eauto|].
  split; [done|]. unfold row_at in *. simpl.
  rewrite list_find_app_r by (by apply fmap_None in Hr). simpl.
  rewrite decide_True by (by apply is_row_key). eauto.
Qed.

Lemma repair_restores now d :
  let d' := (repair_pending_dm_projections now d).2 in
  sound d d' ∧ dm_messages d' = dm_messages d ∧ dm_outbox d ⊆ dm_outbox d' ∧
  ∀ i m, dm_messages d !! i = Some m → acknowledged_at m = None → is_Some (message_envelope m) →
    is_Some (dm_outbox d' !! i) ∧ is_Some (row_at i (recipient_id m) d').
Proof.
  assert (∀ xs d, let d' := foldl (repair_one now) d xs in
    (sound d d' ∧ dm_messages d' = dm_messages d ∧ dm_outbox d ⊆ dm_outbox d') ∧
    ∀ i m e, (i, m, e) ∈ xs → is_Some (dm_outbox d' !! i) ∧ is_Some (row_at i (recipient_id m) d'))
    as Hfold.
  { induction xs as [|[[i m] e] xs IH]; intros d0; cbv zeta; cbn [foldl]; [split; [done|set_solver]|].
    pose proof (repair_one_grows now d0 (i, m, e)) as (Hs & Hm & Ho).
    pose proof (repair_one_done now d0 i m e) as [Hdo [r Hr]].
    destruct (IH (repair_one now d0 (i, m, e))) as [(Hs' & Hm' & Ho') Hx]. split.
    - split; [by etransitivity|]. split; [by rewrite Hm'|]. by etransitivity.
    - intros j m' e' [[= -> -> ->]|Hin]%elem_of_cons; [|by eapply Hx]. split.
      + destruct Hdo as [o Hdo]. exists o. by eapply lookup_weaken.
      + destruct (proj2 Hs' _ _ _ Hr) as (r' & Hr' & _). eauto. }
  intros d'. destruct (Hfold (to_repair d) d) as [(Hs & Hm & Ho) Hx].
  split_and!; [done..|]. intros i m Hi Ha [e He]. apply (Hx i m e).
  by apply elem_of_to_repair.
Qed.

Lemma Inv_delete c ids d : Inv d → Inv (delete_chat_history c ids d).2.
Proof.
  intros [Hk Hm Ho Hq Hu]. split; simpl.
  - done.
  - intros i m [Hi Hc]%map_lookup_filter_Some. simpl in Hc.
    destruct (Hm i m Hi) as [(b & Hb & Hg & Hdo) Hlog Hrow]. split; [|done|done].
    exists b. split_and!; [done..|]. simpl. rewrite <- Hdo. apply option_eq. intros o.
    rewrite map_lookup_filter_Some. simpl. split; [by intros []|]. intros Hdo'. split; [done|].
    intros [m' Hm']%elem_of_dom. apply map_lookup_filter_Some in Hm' as [Hm' Hc']. simpl in Hc'.
    congruence.
  - intros i [o Hi]. apply map_lookup_filter_Some in Hi as [Hi Hn]. simpl in Hn.
    destruct (Ho i) as [m Hmi]; [eauto|]. exists m. apply map_lookup_filter_Some. split; [done|].
    simpl. intros Hc. apply Hn, elem_of_dom. exists m. by apply map_lookup_filter_Some.
  - intros i j m m' [Hi _]%map_lookup_filter_Some [Hj _]%map_lookup_filter_Some. by apply Hq.
  - intros i j m m' [Hi _]%map_lookup_filter_Some [Hj _]%map_lookup_filter_Some. by apply Hu.
Qed.

Lemma Inv_ext d d' :
  Inv d → dm_messages d' = dm_messages d → dm_outbox d' = dm_outbox d → outbox d' = outbox d → Inv d'.
Proof.
  intros [Hk Hm Ho Hq Hu] Hmd Hod Hrd. split; rewrite ?Hmd, ?Hod; [|intros i m Hi|done..].
  - unfold keyed. by rewrite Hrd.
  - destruct (Hm i m Hi) as [Henv Hlog Hrow]. split; rewrite ?Hod; [done..|].
    by rewrite (row_at_ext _ _ d' d).
Qed.

Lemma Inv_enqueue i p n d : Inv d → Inv (enqueue_outbox i p n d).
Proof.
  intros HI. eapply Inv_outbox; [done|apply sound_insert|].
  unfold enqueue_outbox, insert_or_ignore. by destruct (row_at _ _ _).
Qed.

(** *** Numbering *)

Lemma as_u64_i64 n : (n ≤ u64_max)%N → as_u64 (as_i64 n) = n.
Proof.
  intros Hn. change u64_max with 18446744073709551615%N in Hn. unfold as_u64, as_i64. case_decide.
  - rewrite Z.mod_small by lia. lia.
  - rewrite <- (Z.mod_add _ 1) by lia. rewrite Z.mod_small by lia. lia.
Qed.

Lemma as_u64_le z : (as_u64 z ≤ u64_max)%N.
Proof.
  unfold as_u64. change u64_max with 18446744073709551615%N.
  pose proof (Z.mod_pos_bound z (2 ^ 64)). lia.
Qed.

(** A message of a sender in a conversation has the number [k]. *)
Definition used (c : Bytes) (s : PublicKey) (k : N) d : Prop :=
  ∃ i m, dm_messages d !! i = Some m ∧ conversation_id m = c ∧ sender_id m = s ∧
    sequence m = as_i64 k.

(** The numbers used are those below the next one, until they are exhausted. *)
Definition numbered (c : Bytes) (s : PublicKey) d : Prop :=
  ((1 ≤ next_dm_sequence c s d)%N ∧
   (∀ k, (1 ≤ k < next_dm_sequence c s d)%N → used c s k d) ∧
   (∀ i m, dm_messages d !! i = Some m → conversation_id m = c → sender_id m = s →
      ∃ k, (1 ≤ k < next_dm_sequence c s d)%N ∧ sequence m = as_i64 k)) ∨
  (∀ k, (1 ≤ k ≤ u64_max)%N → used c s k d).

(** The numbering depends on the numbers of the messages and the counter. *)
Definition same_numbers (c : Bytes) (s : PublicKey) d d' : Prop :=
  next_dm_sequence c s d' = next_dm_sequence c s d ∧
  (∀ i m, dm_messages d !! i = Some m → conversation_id m = c → sender_id m = s →
     ∃ m', dm_messages d' !! i = Some m' ∧ conversation_id m' = c ∧ sender_id m' = s ∧
       sequence m' = sequence m) ∧
  (∀ i m', dm_messages d' !! i = Some m' → conversation_id m' = c → sender_id m' = s →
     ∃ m, dm_messages d !! i = Some m ∧ conversation_id m = c ∧ sender_id m = s ∧
       sequence m' = sequence m).

Lemma numbered_same c s d d' : same_numbers c s d d' → numbered c s d → numbered c s d'.
Proof.
  intros (Hn & Hto & Hfrom).
  assert (∀ k, used c s k d → used c s k d') as Hused.
  { intros k (i & m & Hi & Hc & Hs & Hk). destruct (Hto i m Hi Hc Hs) as (m' & ? & ? & ? & He).
    exists i, m'. split_and!; [done..|congruence]. }
  intros [(Hge & Hall & Hm)|Hall]; [left|right; eauto]. rewrite Hn. split_and!; [done|eauto|].
  intros i m' Hi Hc Hs. destruct (Hfrom i m' Hi Hc Hs) as (m & ? & ? & ? & ->). eauto.
Qed.

Lemma same_numbers_refl c s d d' :
  dm_messages d' = dm_messages d → dm_sender_sequences d' = dm_sender_sequences d →
  same_numbers c s d d'.
Proof.
  intros Hm Hs. unfold same_numbers, next_dm_sequence. rewrite Hm, Hs. split_and!;
    [done|naive_solver..].
Qed.

Lemma numbered_written checks i c s key text rec now o d d' c' s' :
  written checks i c s key text rec now o d d' → numbered c' s' d → numbered c' s' d'.
Proof.
  intros Hw Hnum. pose proof Hw as [_ _ _ Hnew _ _ _ Hms _ _ (k & Hk & Hsq) _ _].
  assert (∀ j, used c' s' j d → used c' s' j d') as Hgrow.
  { intros j (x & m & Hx & Hrest). exists x, m. rewrite Hms, lookup_insert_ne; [done|congruence]. }
  destruct (decide ((c', s') = (c, s))) as [[= -> ->]|Hne].
  - assert (used c s (next_dm_sequence c s d) d') as Hlast.
    { exists i. eexists. rewrite Hms, lookup_insert_eq. done. }
    destruct Hnum as [(Hge & Hall & Hm)|Hall]; [|right; eauto].
    unfold u64_incr in Hk. case_decide as Hlt.
    + injection Hk as <-. left. assert (next_dm_sequence c s d' = next_dm_sequence c s d + 1)%N as Hn.
      { unfold next_dm_sequence at 1. rewrite Hsq, lookup_insert_eq. simpl. apply as_u64_i64. lia. }
      rewrite Hn. split_and!; [lia| |].
      * intros j Hj. destruct (decide (j = next_dm_sequence c s d)) as [->|]; [done|].
        apply Hgrow, Hall. lia.
      * rewrite Hms. intros j m [[<- <-]|[_ Hj]]%lookup_insert_Some Hc Hs; simpl.
        -- exists (next_dm_sequence c s d). split; [lia|done].
        -- destruct (Hm j m Hj Hc Hs) as (x & Hx & ->). exists x. split; [lia|done].
    + right. intros j Hj. destruct (decide (j = next_dm_sequence c s d)) as [->|]; [done|].
      apply Hgrow, Hall. lia.
  - eapply numbered_same; [|done]. split_and!.
    + unfold next_dm_sequence. by rewrite Hsq, lookup_insert_ne.
    + intros j m Hj Hc Hs. exists m. rewrite Hms, lookup_insert_ne; [done|congruence].
    + rewrite Hms. intros j m [[<- <-]|[_ Hj]]%lookup_insert_Some Hc Hs; simpl in *;
        [congruence|eauto].
Qed.

Lemma numbered_apply_ack id ack i m d c s :
  dm_messages d !! i = Some m → numbered c s d → numbered c s (apply_ack id ack i m d).
Proof.
  intros Hi. apply numbered_same. split_and!; [done|..]; simpl.
  - intros j m' Hj Hc Hs. destruct (decide (i = j)) as [<-|Hne].
    + rewrite lookup_insert_eq. simplify_eq. eauto.
    + rewrite lookup_insert_ne by done. eauto.
  - intros j m' [[<- <-]|[_ Hj]]%lookup_insert_Some Hc Hs; simpl in *; eauto.
Qed.

Lemma numbered_delete c ids d c' s : numbered c' s d → numbered c' s (delete_chat_history c ids d).2.
Proof.
  destruct (decide (c' = c)) as [->|Hne].
  - intros _. left. assert (next_dm_sequence c s (delete_chat_history c ids d).2 = 1%N) as ->.
    { unfold next_dm_sequence. simpl. by rewrite (map_lookup_filter_None_2 _ _ (c, s))
          by naive_solver. }
    split_and!; [done|lia|]. simpl. intros i m [_ Hc]%map_lookup_filter_Some. done.
  - apply numbered_same. split_and!; simpl.
    + unfold next_dm_sequence. simpl. f_equal. f_equal. apply option_eq. intros z.
      rewrite map_lookup_filter_Some. simpl. naive_solver.
    + intros i m Hi Hc Hs. exists m. rewrite map_lookup_filter_Some. simpl. naive_solver.
    + intros i m [Hi _]%map_lookup_filter_Some. eauto.
Qed.

End facts.
End store_facts.
