(* ===== verification/DmWorkerFacts.v ===== *)
(** * Facts about the delivery of direct messages

    An acknowledged row is never claimed again, and only the recipient of a message can
    acknowledge it; no message is lost; a request is made once; deliveries are bounded and one
    at a time for each peer; every pass ends and takes the due rows in their order; a genuine
    acknowledgement is accepted.  And what refusals, expiry and deletion leave undone. *)

From Stdlib Require Import Strings.Byte NArith.
From stdpp Require Import prelude gmap sorting strings.
From S2P Require Import Prelude Text Signing Mailbox MailboxFacts Concrete DmDelivery DmDeliveryFacts.

Module worker_facts.
Import outbox_delivery dm_storage worker table_facts store_facts.

Section facts.
Context `{!Ed25519, !Sealing, !Hasher, !QueryPlan}.
Context `{!Encodable mailbox.SignedV1, !Encodable mailbox.ContextV2, !Encodable mailbox.SignedV2}.
Context `{!Encodable mailbox.MailboxEnvelope, !Postcard mailbox.MailboxEnvelopeV1}.
Context `{!Encodable (string * N * mailbox.AckFields), !Encodable mailbox.LegacyAck}.
Context `{!Postcard (string * N * LogicalFields), !Postcard LogicalDm}.
Implicit Types (cf : Config) (d : Db) (w : World) (t : Task) (evs : list Event).

(** ** What a step does to the database *)

(** A transition of the store: it keeps the invariants of the messages and of the outbox. *)
Record steady d d' : Prop := {
  st_sound : sound d d';
  st_inv : Inv d → Inv d';
  st_numbered c s : numbered c s d → numbered c s d'
}.

#[export] Instance steady_preorder : PreOrder steady.
Proof.
  split; [by split|]. intros d1 d2 d3 [Hs1 Hi1 Hn1] [Hs2 Hi2 Hn2].
  split; [by etransitivity|auto..].
Qed.

(** What the worker does to the database: to the outbox alone. *)
Definition worked d d' : Prop := sound d d' ∧ outbox_only d d'.

Lemma worked_refl d : worked d d.
Proof. done. Qed.

Lemma worked_update P f d : sound d (update P f d).2 → worked d (update P f d).2.
Proof. intros Hs. split; [done|apply outbox_only_update]. Qed.

Lemma steady_outbox d d' : worked d d' → steady d d'.
Proof.
  intros [Hs Ho]. split; [done|intros HI; by eapply Inv_outbox|].
  intros c s. apply numbered_same, same_numbers_refl; by rewrite Ho.
Qed.

Lemma steady_update P f d : sound d (update P f d).2 → steady d (update P f d).2.
Proof. intros Hs. by apply steady_outbox, worked_update. Qed.

Lemma steady_frame d d' :
  dm_messages d' = dm_messages d → dm_outbox d' = dm_outbox d → outbox d' = outbox d →
  dm_sender_sequences d' = dm_sender_sequences d → steady d d'.
Proof.
  intros Hm Ho Hr Hs. split; [by apply sound_ext|intros HI; by eapply Inv_ext|].
  intros c s. by apply numbered_same, same_numbers_refl.
Qed.

Lemma steady_queue checks fault c s key text rec secret eph fresh now now' d :
  steady d (queue_outgoing_dm checks fault c s key text rec secret eph fresh now now' d).2.
Proof.
  destruct (queue_cases checks fault c s key text rec secret eph fresh now now' d)
    as [[_ ->]|[(o & x & _ & -> & _ & _ & _)|(o & Hf & _ & _ & _ & Hw)]]; [done|done|].
  split; [by eapply written_sound|intros HI; by eapply Inv_written|].
  intros c' s'. by eapply numbered_written.
Qed.

Lemma steady_ack fault from ack d : steady d (process_outgoing_ack fault from ack d).2.
Proof.
  destruct (process_ack_cases fault from ack d) as [(id & i & m & -> & Hk)|[_ ->]]; [|done].
  split; [apply sound_apply_ack|intros HI; by eapply Inv_apply_ack|].
  intros c s. apply numbered_apply_ack. by destruct Hk.
Qed.

Lemma steady_repair now d : steady d (repair_pending_dm_projections now d).2.
Proof.
  pose proof (repair_restores now d) as (Hs & Hm & _). split; [done|intros HI;
    by rewrite repair_Inv|].
  intros c s. apply numbered_same, same_numbers_refl; [done|]. clear.
  unfold repair_pending_dm_projections. cbn [snd]. generalize (to_repair d). intros l. revert d.
  induction l as [|[[i m] e] l IH]; intros d; [done|]. cbn [foldl]. rewrite IH.
  unfold repair_one, insert_or_ignore. by repeat case_match.
Qed.

Lemma steady_apply_op o d : steady d (apply_op o d).
Proof.
  destruct o; simpl.
  - apply steady_queue.
  - apply steady_ack.
  - apply steady_update, sound_retry_now.
  - apply steady_update, sound_wake.
  - apply steady_outbox. split; [apply sound_insert|]. unfold enqueue_outbox, insert_or_ignore.
    by destruct (row_at _ _ _).
  - unfold insert_inbox. destruct (inbox d !! i); [done|]. by apply steady_frame.
  - apply steady_update, sound_mark_acked.
  - apply steady_update, sound_mark_sent.
  - apply steady_update, sound_record_attempt.
  - apply steady_outbox. split; [apply sound_claim_rows, sound_start_sending|].
    by apply outbox_only_claim_rows.
  - by apply steady_frame.
  - by apply steady_frame.
  - split; [by apply sound_ext|apply Inv_delete|intros ? ?; apply numbered_delete].
  - apply steady_outbox. split; [apply sound_reopen|done].
Qed.

Lemma worked_maintain now o d : worked d (maintain now o d).
Proof.
  destruct o; apply worked_update;
    [apply sound_expire|apply sound_recover_leases|apply sound_recover_sending].
Qed.

Lemma worked_task_step cf g a b e t d t' d' evs :
  task_step cf g a b e t d = Some (t', d', evs) → worked d d'.
Proof.
  unfold task_step. intros Ht. repeat (case_match || case_decide); simplify_eq;
    try apply worked_refl.
  - apply worked_update, sound_finish.
  - apply worked_update, sound_release.
Qed.

Lemma worked_claim_step cf io p start n w : worked (db w) (db (claim_step cf io p start n w).1).
Proof.
  assert (∀ q, worked (db w) (db (claim_one cf q start n w).1)) as Hone.
  { intros q. unfold claim_one.
    match goal with |- context [let (_, _) := ?x in _] => assert (worked (db w) x.2) as Hs;
      [|destruct x as [[r|] d'] eqn:Hx; done] end.
    destruct q; (split; [apply sound_claim_row|apply outbox_only_claim_row]). }
  unfold claim_step. case_decide; [done|]. destruct io; [|done]. simpl.
  destruct p; [|apply Hone]. destruct (concurrent cf); [|apply Hone].
  unfold claim_batch. match goal with |- context [let (_, _) := ?x in _] =>
    assert (worked (db w) x.2) as Hs; [|by destruct x as [[|r l] d']] end.
  split; [apply sound_claim_rows, sound_lock_row|by apply outbox_only_claim_rows].
Qed.

(** A step is the worker's, on the outbox alone; a repair; or an operation of the others. *)
Lemma step_db cf a w w' evs :
  step cf a w = Some (w', evs) →
  worked (db w) (db w') ∨
  (∃ now, db w' = (repair_pending_dm_projections now (db w)).2) ∨
  (∃ o, a = Outside o ∧ db w' = apply_op o (db w)).
Proof.
  unfold step, work, tasks_step. intros Hs.
  destruct a as [now|p n now|io|n e|i p now| |o]; simplify_eq/=.
  - left. by destruct (phase w); simplify_eq.
  - left. by destruct (phase w); simplify_eq.
  - destruct (phase w) as [|p start|p start [|o todo]|p start n|p start n t|start n [|r todo]
        seen tasks|start n tasks];
      simplify_eq; try (by left).
    + destruct io; simplify_eq; [right; left; eauto|by left].
    + left. destruct io; simplify_eq; [apply worked_maintain|done].
    + left. pose proof (worked_claim_step cf io p start n w) as Hc. by rewrite Hs in Hc.
    + left. by destruct (t_stage t); simplify_eq.
    + left. unfold schedule_row. repeat case_decide; simpl; [| |done];
        (destruct io; [apply worked_update, sound_release|done]).
    + left. by case_match; simplify_eq.
  - left. destruct (phase w); simplify_option_eq; repeat case_match; simplify_option_eq;
      by eapply worked_task_step.
  - left. apply worked_update, sound_extend.
  - by left.
  - right. right. eauto.
Qed.

Lemma steady_step cf a w w' evs : step cf a w = Some (w', evs) → steady (db w) (db w').
Proof.
  intros [Hw|[[now ->]|(o & _ & ->)]]%step_db;
    [by apply steady_outbox|apply steady_repair|apply steady_apply_op].
Qed.

Lemma steady_run cf acts w w' evs : run cf acts w = Some (w', evs) → steady (db w) (db w').
Proof.
  revert w evs. induction acts as [|a acts IH]; intros w evs; simpl; [by intros [= <- _]|].
  intros ([w1 evs1] & Hs & ([w2 evs2] & Hr & [= -> _])%bind_Some)%bind_Some.
  etransitivity; [by eapply steady_step|by eapply IH].
Qed.

(** ** Claims *)

(** What is claimed is a row that is due: neither acknowledged nor given up. *)
Definition open_row d (i : Bytes) (p : PublicKey) : Prop :=
  ∃ r, row_at i p d = Some r ∧ status r ≠ Acked ∧ status r ≠ Expired.

Lemma due_open now d r :
  keyed d → r ∈ outbox d → due now r = true → open_row d (msg_id r) (recipient_device_id r).
Proof.
  intros Hd Hr Hdue. exists r. rewrite row_at_Some by done.
  apply due_unlocked in Hdue as (_ & Ha & He). done.
Qed.

Lemma claim_row_open o l now c r' d :
  (claim_row o l now c d).1 = Some r' →
  ∃ r, c = Some r ∧ msg_id r' = msg_id r ∧ recipient_device_id r' = recipient_device_id r.
Proof.
  unfold claim_row. destruct c as [r|]; [|done]. destruct (lock_row _ _ _ _ _ _) as [n d'].
  case_decide; [|done]. intros Hr%row_at_key. eauto.
Qed.

Lemma retain_locked_sub lock cs d r : r ∈ (retain_locked lock cs d).1 → r ∈ cs.
Proof.
  revert d. induction cs as [|c cs IH]; intros d; simpl; [done|].
  destruct (lock _ _ d) as [n d']. specialize (IH d').
  destruct (retain_locked lock cs d') as [kept d'']. simpl in *. case_decide; set_solver.
Qed.

Lemma claim_rows_sub lock cs d r' :
  r' ∈ (claim_rows lock cs d).1 →
  ∃ r, r ∈ cs ∧ msg_id r' = msg_id r ∧ recipient_device_id r' = recipient_device_id r.
Proof.
  unfold claim_rows. pose proof (retain_locked_sub lock cs d) as Hsub.
  destruct (retain_locked lock cs d) as [kept d']. simpl in *.
  intros (r & Hr & Hat%row_at_key)%list_elem_of_omap. eauto.
Qed.

Lemma head_elem {A} (l : list A) x : head l = Some x → x ∈ l.
Proof. destruct l; [done|]. intros [= ->]. by left. Qed.

Lemma elem_of_take_1 {A} n (l : list A) x : x ∈ take n l → x ∈ l.
Proof. rewrite <- (take_drop n l) at 2. intros Hx. apply elem_of_app. by left. Qed.

Lemma claim_step_open cf io p start n w w' evs i k :
  keyed (db w) → claim_step cf io p start n w = (w', evs) → Claimed i k ∈ evs →
  open_row (db w) i k.
Proof.
  intros Hd. assert (∀ q, Claimed i k ∈ (claim_one cf q start n w).2 → open_row (db w) i k) as Hone.
  { intros q. unfold claim_one.
    destruct (match q with Whole => _ | ForPeer _ _ => _ end) as [[r|] d'] eqn:Hc; simpl;
      [|set_solver].
    intros [= -> ->]%list_elem_of_singleton. destruct q as [|k m]; apply (f_equal fst) in Hc;
      apply claim_row_open in Hc as (r0 & Hh%head_elem & -> & ->).
    - apply elem_of_take_1, elem_of_in_order in Hh as [Hr Hdue]. by eapply due_open.
    - apply list_elem_of_filter in Hh as [[_ Hdue]%andb_true_iff Hr]. by eapply due_open. }
  unfold claim_step. intros Hs Hin. case_decide; [simplify_eq; set_solver|].
  destruct io; simpl in Hs; [|simplify_eq; set_solver].
  apply (f_equal snd) in Hs. simpl in Hs. subst evs.
  destruct p; [|by eapply Hone]. destruct (concurrent cf); [|by eapply Hone].
  revert Hin. unfold claim_batch.
  match goal with |- context [let (_, _) := ?x in _] => destruct x as [batch d'] eqn:Hx end.
  assert (∀ r, r ∈ batch → open_row (db w) (msg_id r) (recipient_device_id r)) as Hb.
  { intros r Hr. apply (f_equal fst) in Hx. simpl in Hx. subst batch.
    apply claim_rows_sub in Hr as (r0 & Hh & -> & ->).
    apply elem_of_take_1, elem_of_in_order in Hh as [Hr Hdue]. by eapply due_open. }
  destruct batch as [|r l]; [set_solver|]. cbn [snd].
  intros (r0 & [= -> ->] & Hr0)%list_elem_of_fmap. by apply Hb.
Qed.

Lemma task_step_no_claim cf g a b e t d t' d' evs i k :
  task_step cf g a b e t d = Some (t', d', evs) → Claimed i k ∉ evs.
Proof.
  unfold task_step. intros Ht. repeat (case_match || case_decide); simplify_eq; set_solver.
Qed.

Lemma step_open cf a w w' evs i k :
  keyed (db w) → step cf a w = Some (w', evs) → Claimed i k ∈ evs → open_row (db w) i k.
Proof.
  intros Hd. unfold step, work, tasks_step. intros Hs.
  destruct a as [now|p n now|io|n e|j p now| |o]; simplify_eq/=; try set_solver.
  - destruct (phase w); simplify_eq; set_solver.
  - destruct (phase w); simplify_eq; set_solver.
  - destruct (phase w) as [|p start|p start [|o todo]|p start n|p start n t|start n [|r todo]
        seen tasks|start n tasks];
      simplify_eq; try set_solver.
    + destruct io; simplify_eq; set_solver.
    + by eapply claim_step_open.
    + destruct (t_stage t); simplify_eq; set_solver.
    + case_match; simplify_eq; set_solver.
  - intros Hin. destruct (phase w); simplify_option_eq; repeat case_match; simplify_option_eq;
      (exfalso; by eapply task_step_no_claim).
Qed.

(** The worlds of the program. *)
Definition reachable cf w : Prop :=
  ∃ acts g evs, run cf acts (mkWorld empty_db g Idle) = Some (w, evs).

Lemma reachable_steady cf w : reachable cf w → steady empty_db (db w).
Proof. intros (acts & g & evs & Hr). by apply steady_run in Hr. Qed.

Lemma reachable_Inv cf w : reachable cf w → Inv (db w).
Proof. intros Hr%reachable_steady. apply Hr, Inv_empty. Qed.

Lemma run_acked cf acts w w' evs i p :
  keyed (db w) → run cf acts w = Some (w', evs) →
  (∃ r, row_at i p (db w) = Some r ∧ status r = Acked) →
  (∃ r, row_at i p (db w') = Some r ∧ status r = Acked) ∧ Claimed i p ∉ evs.
Proof.
  revert w evs. induction acts as [|a acts IH]; intros w evs Hd; simpl.
  { intros [= <- <-]. split; [done|set_solver]. }
  intros ([w1 evs1] & Hs & ([w2 evs2] & Hr & [= -> <-])%bind_Some)%bind_Some (r & Hat & Ha).
  pose proof (steady_step _ _ _ _ _ Hs) as [[Hk He] _ _].
  destruct (He _ _ _ Hat) as (r1 & Hat1 & Ha1).
  destruct (IH w1 evs2) as [Hend Hno]; [auto|done|eauto|]. split; [done|].
  intros [Hin|]%elem_of_app; [|done]. destruct (step_open _ _ _ _ _ _ _ Hd Hs Hin)
      as (r' & ? & ? & _).
  congruence.
Qed.

(** C11: An acknowledgement ends the delivery of a message.  In every world the
    program can reach, once the delivery row of a message is acknowledged it stays so
    whatever the worker, its heartbeats, late verdicts, recovery passes and the rest of the
    program do, and the worker never claims it again. *)
Theorem acked_never_reclaimed cf w acts w' evs i p r :
  reachable cf w → row_at i p (db w) = Some r → status r = Acked →
  run cf acts w = Some (w', evs) →
  (∃ r', row_at i p (db w') = Some r' ∧ status r' = Acked) ∧ Claimed i p ∉ evs.
Proof.
  intros Hw Hr Ha Hrun. eapply run_acked; [|done|eauto]. by apply inv_keyed, (reachable_Inv cf).
Qed.

(** ** The life of a message *)

(** A message changes by an acknowledgement, and goes with its conversation. *)
Lemma apply_op_message o d i m :
  dm_messages d !! i = Some m →
  dm_messages (apply_op o d) !! i = Some m ∨
  (∃ ids, o = OpDelete (conversation_id m) ids ∧ dm_messages (apply_op o d) !! i = None) ∨
  ∃ fault from ack id, o = OpAck fault from ack ∧ acknowledges from ack id i m d ∧
    apply_op o d = apply_ack id ack i m d.
Proof.
  intros Hi.
  destruct o as [checks fault c s key text rec secret eph fresh now now'|fault from ack|?|?|i'
      ?|i' e|?|?|?|?|?|?|c ids|?];
    simpl; try (by left).
  - left. destruct (queue_cases checks fault c s key text rec secret eph fresh now now' d)
      as [[_ ->]|[(o & x & _ & -> & _ & _ & _)|(o & Hf & _ & _ & _ & Hw)]]; [done|done|].
    rewrite (wr_messages _ _ _ _ _ _ _ _ _ _ _ Hw), lookup_insert_ne; [done|].
    intros <-. pose proof (wr_new _ _ _ _ _ _ _ _ _ _ _ Hw). congruence.
  - destruct (process_ack_cases fault from ack d) as [(id & j & m' & He & Hk)|[_ He]];
      rewrite He; [|by left]. destruct (decide (i = j)) as [<-|Hne].
    + assert (m' = m) as -> by (pose proof (ak_message _ _ _ _ _ _ Hk); congruence).
      right. right. eexists _, _, _, id. done.
    + left. simpl. by rewrite lookup_insert_ne.
  - left. unfold enqueue_outbox, insert_or_ignore. by destruct (row_at _ _ _).
  - left. unfold insert_inbox. by destruct (inbox d !! _).
  - left. pose proof (outbox_only_claim_rows (start_sending owner lease now)
      (take (claim_limit_of limit) (in_order (claimable (as_i64 now)) d)) d) as Ho.
    unfold claim_pending_deliveries_with_lease. by rewrite Ho.
  - destruct (decide (conversation_id m = c)) as [<-|Hc].
    + right. left. exists ids. split; [done|]. apply map_lookup_filter_None. right. naive_solver.
    + left. by apply map_lookup_filter_Some.
Qed.

Lemma step_message cf a w w' evs i m :
  step cf a w = Some (w', evs) → dm_messages (db w) !! i = Some m →
  dm_messages (db w') !! i = Some m ∨
  (∃ ids, a = Outside (OpDelete (conversation_id m) ids) ∧ dm_messages (db w') !! i = None) ∨
  ∃ fault from ack id, a = Outside (OpAck fault from ack) ∧ acknowledges from ack id i m (db w) ∧
    db w' = apply_ack id ack i m (db w).
Proof.
  intros [[_ Ho]|[[now ->]|(o & -> & ->)]]%step_db Hi.
  - left. by rewrite Ho.
  - left. pose proof (repair_restores now (db w)) as (_ & -> & _). done.
  - destruct (apply_op_message o (db w) i m Hi)
      as [?|[(ids & -> & ?)|(fault & from & ack & id & -> & Hk & He)]];
      [by left|right; left; eauto|right; right; eauto 10].
Qed.

(** What of a message never changes. *)
Definition same_message m m' : Prop :=
  ∃ z, m' = mkMessage (conversation_id m) (sender_id m) (recipient_id m) (sequence m)
              (request_key m) (plaintext m) (logical_message m) (created_at_ms m) z
              (message_envelope m).

Lemma same_message_trans m1 m2 m3 : same_message m1 m2 → same_message m2 m3 → same_message m1 m3.
Proof. intros [z ->] [z' ->]. by exists z'. Qed.

Lemma run_message cf acts w w' evs i m :
  run cf acts w = Some (w', evs) → dm_messages (db w) !! i = Some m →
  (∀ ids, Outside (OpDelete (conversation_id m) ids) ∉ acts) →
  ∃ m', dm_messages (db w') !! i = Some m' ∧ same_message m m'.
Proof.
  revert w evs m. induction acts as [|a acts IH]; intros w evs m; simpl.
  { intros [= <- _] Hi _. exists m. split; [done|]. exists (acknowledged_at m). by destruct m. }
  intros ([w1 evs1] & Hs & ([w2 evs2] & Hr & [= -> _])%bind_Some)%bind_Some Hi Hno.
  assert (∃ m1, dm_messages (db w1) !! i = Some m1 ∧ same_message m m1) as (m1 & Hm1 & Hsame).
  { destruct (step_message _ _ _ _ _ _ _ Hs Hi)
      as [?|[(ids & -> & _)|(fault & from & ack & id & -> & Hk & ->)]].
    - exists m. split; [done|]. exists (acknowledged_at m). by destruct m.
    - destruct (Hno ids). by left.
    - eexists. simpl. rewrite lookup_insert_eq. split; [done|]. by eexists. }
  destruct (IH _ _ _ Hr Hm1) as (m2 & Hm2 & Hsame2).
  { destruct Hsame as [z ->]. simpl. set_solver. }
  exists m2. split; [done|]. by eapply same_message_trans.
Qed.

(** C12: Only the recipient ends the delivery of a message.  Whatever step the
    program takes, a message that was unacknowledged before and is acknowledged after was
    acknowledged by an acknowledgement whose signature verifies for the peer it came from,
    that peer is the message's recipient, it names the message's sender, and it names the
    stored envelope of that message. *)
Theorem acknowledged_by_recipient cf w a w' evs i m m' :
  reachable cf w → step cf a w = Some (w', evs) →
  dm_messages (db w) !! i = Some m → acknowledged_at m = None →
  dm_messages (db w') !! i = Some m' → is_Some (acknowledged_at m') →
  ∃ fault ack b e, a = Outside (OpAck fault (recipient_id m) ack) ∧
    mailbox.ack_verify ack (recipient_id m) = Ok tt ∧
    mailbox.original_sender ack = sender_id m ∧
    message_envelope m = Some b ∧ mailbox.decode b = Ok e ∧
    mailbox.ack_message_id ack = mailbox.message_id e ∧
    m' = acknowledge_message (as_i64 (mailbox.acknowledged_at_ms ack)) m.
Proof.
  intros Hw Hs Hi Ha Hi' Ha'.
  destruct (step_message _ _ _ _ _ _ _ Hs Hi)
    as [?|[(ids & -> & ?)|(fault & from & ack & id & -> & Hk & Hd)]].
  - simplify_eq. rewrite Ha in Ha'. by destruct Ha'.
  - congruence.
  - rewrite Hd in Hi'. simpl in Hi'. rewrite lookup_insert_eq in Hi'. simplify_eq.
    destruct Hk as [Hv _ _ _ _ Hsnd <- (o & e & Ho & Hdec & Hid)].
    destruct (inv_kept _ (reachable_Inv _ _ Hw) i m Hi) as [(b & Hb & _ & Hdo) _ _].
    rewrite Ha, Ho in Hdo. simplify_eq. simpl in Hdec.
    exists fault, ack, b, e. by split_and!.
Qed.

(** C10: No direct message is lost.  In every world the program can reach, a
    queued message is stored together with its sealed envelope, which decodes, and with a
    delivery row for its recipient; as long as it is not acknowledged its envelope also waits
    in the mailbox outbox, addressed to that recipient; once it is acknowledged the envelope
    is gone from there and the row says so; and there is no envelope without its message. *)
Theorem messages_kept cf w :
  reachable cf w →
  (∀ i m, dm_messages (db w) !! i = Some m →
     ∃ b e r, message_envelope m = Some b ∧ mailbox.decode b = Ok e ∧
       row_at i (recipient_id m) (db w) = Some r ∧
       match acknowledged_at m with
       | None => dm_outbox (db w) !! i = Some (mkDmOutbox (recipient_id m) b (created_at_ms m))
       | Some _ => dm_outbox (db w) !! i = None ∧ status r = Acked
       end) ∧
  (∀ i o, dm_outbox (db w) !! i = Some o →
     ∃ m, dm_messages (db w) !! i = Some m ∧ acknowledged_at m = None).
Proof.
  intros HI%reachable_Inv. split.
  - intros i m Hi. destruct (inv_kept _ HI i m Hi) as [(b & Hb & (e & -> & He) & Ho) _ (r & Hr & Ha)].
    exists (encoded e), e, r. split_and!; [done|by apply genuine_decodes|done|].
    destruct (acknowledged_at m); [split; [done|by apply Ha]|done].
  - intros i o Ho. destruct (inv_owned _ HI i) as [m Hm]; [eauto|]. exists m. split; [done|].
    destruct (inv_kept _ HI i m Hm) as [(b & _ & _ & Hdo) _ _]. rewrite Ho in Hdo.
    by destruct (acknowledged_at m).
Qed.

(** The messages of a sender in a conversation are numbered without gaps.
    In every world the program can reach, no two messages of a sender in a conversation have
    the same number, and the numbers are exactly those from 1 to the one before the next;
    unless all 2^64 - 1 numbers are used. *)
Theorem sequence_gapless cf w c s :
  reachable cf w →
  numbered c s (db w) ∧
  ∀ i j m m', dm_messages (db w) !! i = Some m → dm_messages (db w) !! j = Some m' →
    conversation_id m = conversation_id m' → sender_id m = sender_id m' →
    sequence m = sequence m' → i = j.
Proof.
  intros Hw. split; [|apply inv_number; by eapply reachable_Inv].
  apply reachable_steady in Hw as [_ _ Hn]. apply Hn. left. split_and!; [done| |].
  - intros k. change (next_dm_sequence c s empty_db) with 1%N. lia.
  - intros i m Hi. simpl in Hi. by rewrite lookup_empty in Hi.
Qed.

(** *** Requests are idempotent *)

(** A request that matches its stored message. *)
Lemma replay_request_intro i c s rec text m e l :
  plaintext m = text → conversation_id m = c → sender_id m = s → recipient_id m = rec →
  message_envelope m = Some (encoded e) → mailbox.verify_signature e = Ok tt →
  from_bytes (logical_message m) = Some l →
  replay_request i c s rec text (i, m) = Ok (mkOutgoing i (ld_sequence l) (logical_message m) e).
Proof.
  intros <- <- <- <- Hb He Hl. unfold replay_request. rewrite !bool_decide_eq_true_2 by done. simpl.
  rewrite Hb. simpl. rewrite (genuine_decodes e He). simpl. by rewrite Hl.
Qed.

Lemma replay_request_stored i c s rec text x o :
  replay_request i c s rec text x = Ok o →
  x.1 = i ∧ plaintext x.2 = text ∧ conversation_id x.2 = c ∧ sender_id x.2 = s ∧
  recipient_id x.2 = rec.
Proof.
  destruct x as [j m]. unfold replay_request. intros Hr. res_inv.
  match goal with Hb : _ && _ = true |- _ =>
    rewrite !andb_true_iff, !bool_decide_eq_true in Hb; destruct Hb as [[[[? ->] ?] ?] ?] end. done.
Qed.

(** The answer depends only on what never changes of a message. *)
Lemma replay_request_same i c s rec text j m m' :
  same_message m m' →
  replay_request i c s rec text (j, m') = replay_request i c s rec text (j, m).
Proof. by intros [z ->]. Qed.

(** The stored message of a request that succeeded answers the same request. *)
Lemma queue_stored checks fault c s key text rec secret eph fresh now now' d o d' :
  Inv d → queue_outgoing_dm checks fault c s key text rec secret eph fresh now now' d = (Ok o, d') →
  ∃ m, dm_messages d' !! dm_message_id s c key = Some m ∧ request_key m = key ∧
    conversation_id m = c ∧ s = public secret ∧ key ≠ [] ∧
    replay_request (dm_message_id s c key) c s (mailbox.identity rec) text
      (dm_message_id s c key, m) = Ok o.
Proof.
  intros HI Hq.
  destruct (queue_cases checks fault c s key text rec secret eph fresh now now' d)
    as [[Hno _]|[(o' & [j m] & Hf & Hq' & Hs & Hk & Hr)|(o' & Hf & Hok & -> & Hk & Hw)]].
  - rewrite Hq in Hno. destruct Hno. eauto.
  - rewrite Hq in Hq'. simplify_eq. apply find_request_Some in Hf as [Hj <-]; [|done].
    destruct (replay_request_stored _ _ _ _ _ _ _ Hr) as (He & _ & Hc & _ & _).
    simpl in He, Hc. subst j. by exists m.
  - rewrite Hq in Hok, Hw. cbn [fst snd] in Hok, Hw. injection Hok as <-.
    destruct Hw as [Ho He [sig Hl] _ _ _ _ Hms _ _ _ _ _].
    eexists. rewrite Hms, lookup_insert_eq. do 5 (split; [done|]).
    erewrite replay_request_intro; try done. by rewrite Ho.
Qed.

(** C13: A send is made once.  If queueing a message succeeded, then after
    anything the program does short of deleting the conversation, a retry with the same
    request key, text, conversation, sender and recipient succeeds whatever the clock and the
    random values, returns the same message id, number, signed message and envelope, and
    changes nothing. *)
Theorem request_idempotent cf w checks fault c s key text rec secret eph fresh now now' o d' ph
    acts w' evs checks2 fault2 rec2 eph2 fresh2 now2 now2' :
  reachable cf w →
  queue_outgoing_dm checks fault c s key text rec secret eph fresh now now' (db w) = (Ok o, d') →
  run cf acts (mkWorld d' (generation w) ph) = Some (w', evs) →
  (∀ ids, Outside (OpDelete c ids) ∉ acts) →
  mailbox.identity rec2 = mailbox.identity rec →
  queue_outgoing_dm checks2 fault2 c s key text rec2 secret eph2 fresh2 now2 now2' (db w') =
    (Ok o, db w').
Proof.
  intros HI%reachable_Inv Hq Hrun Hno Hrec.
  destruct (queue_stored _ _ _ _ _ _ _ _ _ _ _ _ _ _ _ HI Hq) as (m & Hm & Hk & Hc & Hs & Hne & Hr).
  assert (Inv d') as HI' by (pose proof (Inv_queue checks fault c s key text rec secret eph fresh
    now now' (db w) HI) as Hi; by rewrite Hq in Hi).
  destruct (run_message _ _ _ _ _ _ _ Hrun Hm) as (m' & Hm' & Hsame); [by rewrite Hc|].
  assert (find_request key (db w') = Some (dm_message_id s c key, m')) as Hf.
  { apply find_request_Some; [apply steady_run in Hrun; by apply Hrun|].
    split; [done|]. by destruct Hsame as [z ->]. }
  unfold queue_outgoing_dm. rewrite Hf, Hrec, (replay_request_same _ _ _ _ _ _ m), Hr by done.
  by rewrite !bool_decide_eq_true_2.
Qed.

(** ** Deliveries under way *)

Definition tasks_of (ph : Phase) : list Task :=
  match ph with
  | Attempting _ _ _ t => [t]
  | Scheduling _ _ _ _ tasks | Draining _ _ tasks => tasks
  | _ => []
  end.

Definition count (f : Task → bool) (l : list Task) : nat := length (filter (λ t, f t = true) l).

Lemma count_task_cons f t l : count f (t :: l) = one (f t) + count f l.
Proof.
  unfold count. destruct (f t)
      eqn:Hf; [rewrite filter_cons_True by done|rewrite filter_cons_False by congruence];
    done.
Qed.

Lemma count_update f l n t t' :
  l !! n = Some t → count f (<[n := t']> l) + one (f t) = count f l + one (f t').
Proof.
  revert n. induction l as [|x l IH]; intros [|n] Hn; simplify_eq/=; rewrite ?count_task_cons; [lia|].
  specialize (IH _ Hn). lia.
Qed.

Lemma count_snoc f l t : count f (l ++ [t]) = count f l + one (f t).
Proof.
  unfold count. rewrite filter_app, length_app. f_equal. fold (count f [t]).
  rewrite count_task_cons. unfold count. simpl. lia.
Qed.

Lemma task_step_inv cf g a b e t d t' d' evs :
  task_step cf g a b e t d = Some (t', d', evs) →
  t_row t' = t_row t ∧ t_generation t' = t_generation t ∧
  (holds_slot t' = true → holds_slot t = true ∨ a = true) ∧
  (holds_slot t = false → t_stage t = WaitSlot).
Proof.
  unfold task_step, holds_slot. intros Ht.
  repeat (case_match || case_decide); simplify_eq/=; (split_and!; [done..|tauto|done]).
Qed.

(** The tasks of a batch: one for each peer, no more than the slots. *)
Record batch_ok cf (tasks : list Task) : Prop := {
  bo_peers : NoDup (t_peer <$> tasks);
  bo_slots : count holds_slot tasks ≤ max_concurrent cf
}.

Definition phase_ok cf (ph : Phase) : Prop :=
  match ph with
  | Claiming p _ n => (n ≤ budget cf p)%N
  | Attempting p _ n t => (n ≤ budget cf p)%N ∧ t_stage t ≠ WaitSlot ∧ t_stage t ≠ WaitPeer
  | Scheduling _ n _ seen tasks =>
      (n ≤ claim_limit cf)%N ∧ batch_ok cf tasks ∧ (∀ t, t ∈ tasks → t_peer t ∈ seen) ∧
      (seen = ∅ → (n < claim_limit cf)%N)
  | Draining _ n tasks => (n ≤ claim_limit cf)%N ∧ batch_ok cf tasks
  | _ => True
  end.

Lemma tasks_step_ok cf w n e tasks tasks' d evs :
  tasks_step cf w n e tasks = Some (tasks', d, evs) → batch_ok cf tasks →
  batch_ok cf tasks' ∧ t_peer <$> tasks' = t_peer <$> tasks.
Proof.
  unfold tasks_step. intros (t & Ht & ([[t' d'] evs']
      & Hs & [= <- <- <-])%bind_Some)%bind_Some [Hp Hc].
  pose proof (task_step_inv _ _ _ _ _ _ _ _ _ _ Hs) as (Hr & _ & Hslot & Hwait).
  assert (t_peer <$> <[n := t']> tasks = t_peer <$> tasks) as Hpeers.
  { rewrite list_fmap_insert. apply list_insert_id. rewrite list_lookup_fmap, Ht. simpl.
    unfold t_peer. by rewrite Hr. }
  split; [|done]. split; [by rewrite Hpeers|].
  pose proof (count_update holds_slot tasks n t t' Ht) as Hcu.
  destruct (holds_slot t) eqn:Ho, (holds_slot t') eqn:Ho'; simpl in Hcu; try lia.
  destruct Hslot as [|Hfree]; [done|done|]. unfold slot_free in Hfree.
  apply bool_decide_eq_true in Hfree. unfold count in *. lia.
Qed.

Lemma tasks_step_seen (seen : gset PublicKey) cf w n e tasks tasks' d evs :
  tasks_step cf w n e tasks = Some (tasks', d, evs) → batch_ok cf tasks →
  (∀ t, t ∈ tasks → t_peer t ∈ seen) → ∀ t, t ∈ tasks' → t_peer t ∈ seen.
Proof.
  intros Hs Hok Hseen t Ht. destruct (tasks_step_ok _ _ _ _ _ _ _ _ Hs Hok) as [_ Hp].
  assert (t_peer t ∈ t_peer <$> tasks) as (t0 & -> & Ht0)%list_elem_of_fmap
    by (rewrite <- Hp; by apply list_elem_of_fmap_2).
  auto.
Qed.

Lemma batch_ok_nil cf : batch_ok cf [].
Proof. split; [by apply NoDup_nil|]. unfold count. simpl. lia. Qed.

Lemma schedule_row_ok cf io start n r todo seen tasks w :
  phase_ok cf (Scheduling start n (r :: todo) seen tasks) →
  phase_ok cf (phase (schedule_row cf io start n r todo seen tasks w)).
Proof.
  intros (Hn & [Hp Hc] & Hseen & Hempty). unfold schedule_row.
  repeat case_decide; simpl; (split_and!; [try done; lia|..]).
  - done.
  - done.
  - intros ->. set_solver.
  - done.
  - set_solver.
  - intros He. assert (recipient_device_id r ∈ (∅ : gset PublicKey)) by (rewrite <- He; set_solver).
    set_solver.
  - split.
    + rewrite fmap_app. apply NoDup_app. split_and!; [done| |apply NoDup_singleton].
      intros k (t & -> & Ht)%list_elem_of_fmap Hk. apply list_elem_of_singleton in Hk.
      apply Hseen in Ht. rewrite Hk in Ht. done.
    + rewrite count_snoc. simpl. lia.
  - intros t [Ht| ->%list_elem_of_singleton]%elem_of_app; [specialize (Hseen t Ht)|]; set_solver.
  - intros He. assert (recipient_device_id r ∈ (∅ : gset PublicKey)) by (rewrite <- He; set_solver).
    set_solver.
Qed.

Lemma claim_one_ok cf p start n w :
  (n < budget cf p)%N → phase_ok cf (phase (claim_one cf p start n w).1).
Proof.
  intros Hn. unfold claim_one. destruct (match p with Whole => _ | ForPeer _ _ => _ end) as [[r|] d];
    simpl; [|done]. split; [lia|done].
Qed.

Lemma claim_step_ok cf io p start n w :
  phase_ok cf (phase (claim_step cf io p start n w).1).
Proof.
  unfold claim_step. case_decide as Hb; [done|]. destruct io; [|done]. simpl.
  destruct p as [|k m]; [|apply claim_one_ok; lia].
  destruct (concurrent cf); [|apply claim_one_ok; lia].
  unfold claim_batch. destruct (claim_n_due_outbox _ _ _ _ _) as [[|r l] d]; [done|]. simpl in *.
  split_and!; [lia|apply batch_ok_nil|set_solver|lia].
Qed.

Lemma step_phase_ok cf a w w' evs :
  step cf a w = Some (w', evs) → phase_ok cf (phase w) → phase_ok cf (phase w').
Proof.
  intros Hs Hok. unfold step, work in Hs.
  destruct a as [now|p n now|io|n e|i p now| |o]; simplify_eq/=; try done.
  - by destruct (phase w); simplify_eq.
  - by destruct (phase w); simplify_eq.
  - destruct (phase w) as [|p start|p start [|o todo]|p start n|p start n t|start n [|r todo]
        seen tasks|start n tasks] eqn:Hph;
      simplify_eq; try done.
    + by destruct io; simplify_eq.
    + simpl. destruct p; simpl; lia.
    + pose proof (claim_step_ok cf io p start n w) as Hc. by rewrite Hs in Hc.
    + destruct (t_stage t); simplify_eq. by destruct Hok.
    + simpl in *. tauto.
    + by apply schedule_row_ok.
    + case_match; simplify_eq. by destruct Hok.
  - destruct (phase w) as [|p start|p start todo|p start k|p start k t|start k todo seen
        tasks|start k tasks];
      simplify_eq.
    + apply bind_Some in Hs as ([[t' d'] evs'] & Ht & Hs). case_decide; simplify_eq. simpl.
      destruct Hok as (Hk & Hw1 & Hw2). split; [done|]. unfold task_step in Ht.
      repeat (case_match || case_decide); simplify_eq/=; done.
    + apply bind_Some in Hs as ([[ts' d'] evs'] & Ht & [= <- <-]).
      destruct Hok as (Hk & Hb & Hseen & He).
      simpl. destruct (tasks_step_ok _ _ _ _ _ _ _ _ Ht Hb) as [Hb' _].
      split_and!; [done..| |done]. by eapply tasks_step_seen.
    + apply bind_Some in Hs as ([[ts' d'] evs'] & Ht & [= <- <-]). destruct Hok as (Hk & Hb).
      simpl. destruct (tasks_step_ok _ _ _ _ _ _ _ _ Ht Hb) as [Hb' _]. done.
Qed.

Lemma run_phase_ok cf acts w w' evs :
  run cf acts w = Some (w', evs) → phase_ok cf (phase w) → phase_ok cf (phase w').
Proof.
  revert w evs. induction acts as [|a acts IH]; intros w evs; simpl; [by intros [= <- _]|].
  intros ([w1 evs1] & Hs & ([w2 evs2] & Hr & [= -> _])%bind_Some)%bind_Some Hok.
  by eapply IH, step_phase_ok.
Qed.

Lemma reachable_phase_ok cf w : reachable cf w → phase_ok cf (phase w).
Proof. intros (acts & g & evs & Hr). by apply run_phase_ok in Hr. Qed.

(** The number of rows a pass has attempted, and its limit. *)
Definition progress_of cf (ph : Phase) : option (N * N) :=
  match ph with
  | Claiming p _ n | Attempting p _ n _ => Some (n, budget cf p)
  | Scheduling _ n _ _ _ | Draining _ n _ => Some (n, claim_limit cf)
  | _ => None
  end.

(** C31: Deliveries are bounded and ordered by peer.  In every world the program can reach, the
    worker has at most one attempt for any peer, so the transport is never used twice at the
    same time for one peer; no more attempts are under way than the configured limit; and a
    pass makes no more attempts than its budget. *)
Theorem deliveries_bounded cf w :
  reachable cf w →
  NoDup (t_peer <$> tasks_of (phase w)) ∧
  count holds_slot (tasks_of (phase w)) ≤ Nat.max 1 (max_concurrent cf) ∧
  (∀ n limit, progress_of cf (phase w) = Some (n, limit) → (n ≤ limit)%N).
Proof.
  intros Hok%reachable_phase_ok.
  destruct (phase w) as [|p start|p start todo|p start k|p start k t|start k todo seen
      tasks|start k tasks];
    simpl in *; (split_and!; [| |naive_solver]).
  all: try apply NoDup_nil_2; try (unfold count; simpl; lia).
  - apply NoDup_singleton.
  - rewrite count_task_cons. unfold count. simpl. destruct (holds_slot t); simpl; lia.
  - by destruct Hok as (_ & [Hp _] & _).
  - destruct Hok as (_ & [_ Hc] & _). lia.
  - by destruct Hok as (_ & [Hp _]).
  - destruct Hok as (_ & [_ Hc]). lia.
Qed.

(** ** Every pass ends *)

Definition stage_cost (g : Stage) : nat :=
  match g with
  | WaitSlot => 6 | WaitPeer => 5 | Authorizing => 4 | Delivering => 3 | Decided _ => 2
  | Recording _ _ | Releasing => 1 | Finished => 0
  end.

Definition cost (tasks : list Task) : nat := sum_list_with (λ t, stage_cost (t_stage t)) tasks.

(** A bound on the steps left in a pass: a batch has at most 100 rows and each attempt at
    most 8 steps.  The first row of a batch is always attempted, so an empty set of peers
    counts as one attempt less. *)
Definition rank cf (ph : Phase) : N :=
  match ph with
  | Idle => 0
  | Repairing p _ => 6 + 1000 * budget cf p
  | Maintaining p _ todo => 2 + N.of_nat (length todo) + 1000 * budget cf p
  | Claiming p _ n => 1 + 1000 * (budget cf p - n)
  | Attempting p _ n t => 2 + N.of_nat (stage_cost (t_stage t)) + 1000 * (budget cf p - n)
  | Scheduling _ n todo seen tasks =>
      3 + N.of_nat (8 * length todo + cost tasks) +
      1000 * (claim_limit cf - (if decide (seen = ∅ ∧ todo ≠ []) then n + 1 else n))
  | Draining _ n tasks => 2 + N.of_nat (cost tasks) + 1000 * (claim_limit cf - n)
  end.

(** The steps of the worker itself. *)
Definition internal (a : Action) : bool :=
  match a with Work _ | Step _ _ => true | _ => false end.

Definition starts_pass (a : Action) : bool :=
  match a with Wake _ | Reconnected _ _ _ => true | _ => false end.

Lemma task_step_cost cf g a b e t d t' d' evs :
  task_step cf g a b e t d = Some (t', d', evs) →
  stage_cost (t_stage t') < stage_cost (t_stage t).
Proof.
  unfold task_step. intros Ht. repeat (case_match || case_decide); simplify_eq/=; lia.
Qed.

Lemma cost_update (tasks : list Task) n t t' :
  tasks !! n = Some t → stage_cost (t_stage t') < stage_cost (t_stage t) →
  cost (<[n := t']> tasks) < cost tasks.
Proof.
  unfold cost. revert n. induction tasks as [|x l IH]; intros [|n] Hn Hc; simplify_eq/=; [lia|].
  specialize (IH _ Hn Hc). lia.
Qed.

Lemma tasks_step_cost cf w n e tasks tasks' d evs :
  tasks_step cf w n e tasks = Some (tasks', d, evs) → cost tasks' < cost tasks.
Proof.
  unfold tasks_step. intros (t & Ht & ([[t' d'] evs'] & Hs & [= <- <- <-])%bind_Some)%bind_Some.
  eapply cost_update; [done|by eapply task_step_cost].
Qed.

Lemma cost_snoc (tasks : list Task) t : cost (tasks ++ [t]) = cost tasks + stage_cost (t_stage t).
Proof. unfold cost. rewrite sum_list_with_app. simpl. lia. Qed.

Lemma claim_limit_of_le limit : claim_limit_of limit ≤ 100.
Proof. unfold claim_limit_of, MAX_OUTBOX_CLAIM_LIMIT. lia. Qed.

Lemma length_retain_locked lock cs d : length (retain_locked lock cs d).1 ≤ length cs.
Proof.
  revert d. induction cs as [|c cs IH]; intros d; simpl; [lia|].
  destruct (lock _ _ d) as [n d']. specialize (IH d').
  destruct (retain_locked lock cs d') as [kept d'']. simpl in *. case_decide; simpl; lia.
Qed.

Lemma length_omap_le {A B} (f : A → option B) (l : list A) : length (omap f l) ≤ length l.
Proof. induction l as [|x l IH]; csimpl; [lia|]. destruct (f x); csimpl; lia. Qed.

Lemma claim_n_bounded now o l limit d : length (claim_n_due_outbox now o l limit d).1 ≤ 100.
Proof.
  unfold claim_n_due_outbox, claim_rows.
  set (cs := take _ _). set (lock := lock_row _ _ _).
  assert (length cs ≤ 100) as Hcs.
  { subst cs. rewrite length_take. pose proof (claim_limit_of_le limit). lia. }
  pose proof (length_retain_locked lock cs d) as Hk.
  destruct (retain_locked lock cs d) as [kept d']. simpl in *.
  etransitivity; [apply length_omap_le|]. lia.
Qed.

Lemma claim_one_rank cf p start n w :
  (n < budget cf p)%N →
  (rank cf (phase (claim_one cf p start n w).1) < 1 + 1000 * (budget cf p - n))%N.
Proof.
  intros Hn. unfold claim_one.
  destruct (match p with Whole => _ | ForPeer _ _ => _ end) as [[r|] d]; simpl; lia.
Qed.

Lemma claim_step_rank cf io p start n w :
  (rank cf (phase (claim_step cf io p start n w).1) < rank cf (Claiming p start n))%N.
Proof.
  unfold claim_step. case_decide as Hb; [simpl; lia|]. destruct io; [|simpl; lia]. simpl.
  destruct p as [|k m]; [|apply claim_one_rank; lia].
  destruct (concurrent cf); [|apply claim_one_rank; lia].
  unfold claim_batch. set (size := N.max _ _).
  pose proof (claim_n_bounded start (cf_owner cf) (lease_duration_ms cf) size (db w)) as Hl.
  destruct (claim_n_due_outbox _ _ _ _ _) as [[|r l] d]; [simpl; lia|]. simpl in *.
  rewrite decide_True by done. unfold cost. simpl. lia.
Qed.

Lemma schedule_row_rank cf io start n r todo seen tasks w :
  phase_ok cf (Scheduling start n (r :: todo) seen tasks) →
  (rank cf (phase (schedule_row cf io start n r todo seen tasks w)) <
   rank cf (Scheduling start n (r :: todo) seen tasks))%N.
Proof.
  intros (Hn & _ & _ & Hempty). unfold schedule_row.
  destruct (decide (seen = ∅)) as [He|Hne].
  - specialize (Hempty He). subst seen. rewrite decide_False by set_solver.
    rewrite decide_False by lia. simpl. rewrite cost_snoc. simpl.
    rewrite (decide_True (P := ∅ = ∅ ∧ _)) by done. rewrite decide_False; [lia|].
    intros [Hs _]. assert (recipient_device_id r ∈ (∅ : gset PublicKey)) by (rewrite <- Hs;
      set_solver).
    set_solver.
  - assert ({[recipient_device_id r]} ∪ seen ≠ ∅) as Hu by set_solver.
    simpl. rewrite (decide_False (P := seen = ∅ ∧ r :: todo ≠ [])) by tauto.
    repeat (case_decide; simpl); try tauto; try lia.
    rewrite cost_snoc. simpl. lia.
Qed.

(** Each step of the worker brings its pass nearer to the end; nothing else prolongs it. *)
Lemma step_rank cf a w w' evs :
  phase_ok cf (phase w) → step cf a w = Some (w', evs) → starts_pass a = false →
  (rank cf (phase w') + N.of_nat (one (internal a)) ≤ rank cf (phase w))%N.
Proof.
  intros Hok Hs Hn. unfold step, work in Hs.
  destruct a as [now|p n now|io|n e|i p now| |o]; simplify_eq/=; try lia.
  - destruct (phase w) as [|p start|p start [|o todo]|p start n|p start n t|start n [|r todo]
        seen tasks|start n tasks] eqn:Hph;
      simplify_eq; simpl; try lia.
    + destruct io; simplify_eq; [|simpl; lia]. by destruct p; simpl; lia.
    + pose proof (claim_step_rank cf io p start n w) as Hc. rewrite Hs in Hc. simpl in Hc. lia.
    + destruct (t_stage t); simplify_eq. simpl. lia.
    + rewrite (decide_False (P := seen = ∅ ∧ _)) by tauto. lia.
    + pose proof (schedule_row_rank cf io start n r todo seen tasks w Hok) as Hr. simpl in *. lia.
    + case_match; simplify_eq. simpl. lia.
  - destruct (phase w) as [|p start|p start todo|p start k|p start k t|start k todo seen
        tasks|start k tasks];
      simplify_eq.
    + apply bind_Some in Hs as ([[t' d'] evs'] & Ht & Hs). case_decide; simplify_eq. simpl.
      apply task_step_cost in Ht. lia.
    + apply bind_Some in Hs as ([[ts' d'] evs'] & Ht & [= <- <-]). simpl.
      apply tasks_step_cost in Ht. lia.
    + apply bind_Some in Hs as ([[ts' d'] evs'] & Ht & [= <- <-]). simpl.
      apply tasks_step_cost in Ht. lia.
Qed.

(** *** The worker is never stuck *)

Lemma task_enabled cf g a b t d :
  t_stage t ≠ Finished → (t_stage t = WaitSlot → a = true) → (t_stage t = WaitPeer → b = true) →
  ∃ e, is_Some (task_step cf g a b e t d).
Proof.
  intros Hf Ha Hb. unfold task_step. destruct (t_stage t); try done.
  - exists Acquire. by rewrite Ha.
  - exists Acquire. by rewrite Hb.
  - by exists Deadline.
  - by exists Deadline.
  - exists (Decide 0 id). by case_decide.
  - by exists (Store true 0).
  - by exists (Store true 0).
Qed.

(** A peer's slot is free for the one task of that peer. *)
Lemma peer_slot_free_own tasks n t :
  NoDup (t_peer <$> tasks) → tasks !! n = Some t → holds_peer t = false →
  peer_slot_free (t_peer t) tasks = true.
Proof.
  intros Hd Hn Hp. unfold peer_slot_free. apply Is_true_true, forallb_True, Forall_forall.
  intros t' [n' Hn']%list_elem_of_lookup. apply Is_true_true.
  destruct (decide (t_peer t' = t_peer t)) as [He|Hne].
  - assert (n' = n) as ->.
    { eapply NoDup_lookup; [exact Hd| |]; rewrite list_lookup_fmap; [rewrite Hn'|rewrite Hn]; simpl;
        [done|by rewrite He]. }
    simplify_eq. by rewrite Hp.
  - rewrite (bool_decide_eq_false_2 _ Hne). by rewrite andb_false_r.
Qed.

Lemma slot_or_holder cf (tasks : list Task) :
  0 < max_concurrent cf → slot_free cf tasks = true ∨ ∃ n t,
      tasks !! n = Some t ∧ holds_slot t = true.
Proof.
  intros Hm. unfold slot_free. destruct (filter (λ t, holds_slot t = true) tasks) as [|t l] eqn:Hf.
  - left. by apply bool_decide_eq_true.
  - right. assert (t ∈ filter (λ t, holds_slot t = true) tasks) as [Ht Hin]%list_elem_of_filter
      by (rewrite Hf; by left).
    apply list_elem_of_lookup in Hin as [n Hn]. eauto.
Qed.

Lemma tasks_enabled cf w tasks :
  0 < max_concurrent cf → NoDup (t_peer <$> tasks) →
  forallb (λ t, match t_stage t with Finished => true | _ => false end) tasks = false →
  ∃ n e, is_Some (tasks_step cf w n e tasks).
Proof.
  intros Hm Hd Hnot.
  assert (∃ n t, tasks !! n = Some t ∧ t_stage t ≠ Finished ∧
    (t_stage t = WaitSlot → slot_free cf tasks = true)) as (n & t & Hn & Hf & Hslot).
  { destruct (slot_or_holder cf tasks Hm) as [Hs|(n & t & Hn & Hh)].
    - assert (∃ t, t ∈ tasks ∧ t_stage t ≠ Finished) as (t & [n Hn]%list_elem_of_lookup & Ht);
        [|eauto 10].
      clear -Hnot. induction tasks as [|t l IH]; [done|]. simpl in Hnot.
      destruct (t_stage t) eqn:Hg; [exists t; split; [by left|congruence]..|].
      destruct (IH Hnot) as (t' & Hin & Ht'). exists t'. split; [by right|done].
    - exists n, t. split; [done|]. unfold holds_slot in Hh. by destruct (t_stage t). }
  destruct (task_enabled cf (generation w) (slot_free cf tasks) (peer_slot_free (t_peer t) tasks)
      t (db w))
    as [e [[[t' d'] evs] He]]; [done..| |].
  - intros Hp. eapply peer_slot_free_own; [done..|]. unfold holds_peer. by rewrite Hp.
  - exists n, e. unfold tasks_step. rewrite Hn. cbn [mbind option_bind]. rewrite He. by eexists.
Qed.

Lemma worker_enabled cf w :
  0 < max_concurrent cf → phase_ok cf (phase w) → phase w ≠ Idle →
  ∃ a, internal a = true ∧ is_Some (step cf a w).
Proof.
  intros Hm Hok Hne.
  destruct (phase w) as [|p start|p start [|o todo]|p start n|p start n t|start n [|r todo]
      seen tasks|start n tasks] eqn:Hph;
    try done; try (exists (Work true); split; [done|]; simpl; unfold work; rewrite Hph; by eexists).
  - assert (t_stage t = Finished ∨ t_stage t ≠ Finished) as [Hx|Hf]
      by (destruct (t_stage t); (by left) || (by right)).
    + exists (Work true). split; [done|]. simpl. unfold work. rewrite Hph, Hx. by eexists.
    + destruct Hok as (_ & Hw1 & Hw2).
      destruct (task_enabled cf (generation w) true true t (db w)) as [e [[[t' d'] evs] He]];
        [done..|].
      exists (Step 0 e). split; [done|]. simpl. rewrite Hph, He. by eexists.
  - destruct (forallb (λ t, match t_stage t with Finished => true | _ => false end) tasks) eqn:Hall.
    + exists (Work true). split; [done|]. simpl. unfold work. rewrite Hph, Hall. by eexists.
    + destruct Hok as (_ & [Hp _]). destruct (tasks_enabled cf w tasks Hm Hp Hall)
          as (k & e & [x Hx]).
      exists (Step k e). split; [done|]. simpl. rewrite Hph, Hx. destruct x as [[ts d'] evs].
      by eexists.
Qed.

Lemma run_rank cf acts w w' evs :
  phase_ok cf (phase w) → run cf acts w = Some (w', evs) → Forall (λ a, starts_pass a = false) acts →
  (rank cf (phase w') + N.of_nat (length (filter (λ a, internal a = true) acts)) ≤
   rank cf (phase w))%N.
Proof.
  revert w evs. induction acts as [|a acts IH]; intros w evs Hok; simpl; [intros [= <- _] _;
    simpl; lia|].
  intros ([w1 evs1] & Hs & ([w2 evs2] & Hr & [= -> _])%bind_Some)%bind_Some [Ha Hall]%Forall_cons.
  specialize (IH w1 evs2 (step_phase_ok _ _ _ _ _ Hs Hok) Hr Hall).
  pose proof (step_rank _ _ _ _ _ Hok Hs Ha) as Hk.
  rewrite filter_cons. destruct (internal a); [rewrite decide_True by done|rewrite decide_False
      by done];
    simpl in *; lia.
Qed.

(** C30: Every pass of the worker ends.  From any world the program can reach, whatever the other
    parts do in between, the worker takes at most [rank] steps of its own before its pass is
    over, as long as no new pass starts, and until it is over there is always a step it can
    take: no attempt waits for ever for a slot and no batch is claimed over and over. *)
Theorem passes_end cf w acts w' evs :
  0 < max_concurrent cf → reachable cf w → run cf acts w = Some (w', evs) →
  Forall (λ a, starts_pass a = false) acts →
  (N.of_nat (length (filter (λ a, internal a = true) acts)) ≤ rank cf (phase w))%N ∧
  (phase w' = Idle ∨ ∃ a, internal a = true ∧ is_Some (step cf a w')).
Proof.
  intros Hm Hok%reachable_phase_ok Hrun Hall. split.
  - pose proof (run_rank _ _ _ _ _ Hok Hrun Hall). lia.
  - pose proof (run_phase_ok _ _ _ _ _ Hrun Hok) as Hok'.
    destruct (phase w') eqn:Hph; [by left|right..]; (apply worker_enabled;
      [done|by rewrite Hph|congruence]).
Qed.

(** ** What a pass claims *)

Definition i64_max : N := 9223372036854775807.

Lemma i64_cast_small n : (n ≤ i64_max)%N → as_i64 n = Z.of_N n.
Proof. unfold as_i64, i64_max. intros. by rewrite decide_True. Qed.

(** The rows claimed, in the order in which they are claimed. *)
Definition claims evs : list (Bytes * PublicKey) :=
  omap (λ e, match e with Claimed i p => Some (i, p) | _ => None end) evs.

Lemma claims_app evs evs' : claims (evs ++ evs') = claims evs ++ claims evs'.
Proof. apply omap_app. Qed.

(** A pass left alone: its statements succeed, the clock does not go back behind its start
    and the product with the jitter's factor does not fall below the delay. *)
Definition quiet cf (start : N) (a : Action) : Prop :=
  match a with
  | Work io => io = true
  | Step _ (Decide now jittered) =>
      (start ≤ now)%N ∧ (now + max_delay_ms (retry_policy cf) ≤ i64_max)%N ∧
      ∀ n, (n ≤ jittered n)%N
  | Step _ _ => True
  | _ => False
  end.

Section pass.
Context (cf : Config) (start : N).
Context (Hseq : max_concurrent cf ≤ 1) (Hlease : (0 < lease_duration_ms cf)%N).
Context (Hstart : (start + lease_duration_ms cf ≤ i64_max)%N).
Context (Hinit : (0 < initial_delay_ms (retry_policy cf))%N).
Context (Hmax : (0 < max_delay_ms (retry_policy cf))%N).

Definition candidates_at d : list OutboxRow := in_order (due (as_i64 start)) d.

(** A row that is locked, or waits for a later attempt, is not due. *)
Lemma locked_not_due o r : due (as_i64 start)
    (set_lease o (Some (deadline start (lease_duration_ms cf))) r) = false.
Proof.
  unfold due, unlocked. simpl. apply andb_false_iff. right. apply bool_decide_eq_false.
  unfold deadline. rewrite N.min_r by (unfold i64_max, u64_max in *; lia).
  rewrite !i64_cast_small by (unfold i64_max in *; lia). lia.
Qed.

Lemma later_not_due r : (as_i64 start < next_attempt_at_ms r)%Z → due (as_i64 start) r = false.
Proof.
  intros Hr. unfold due. rewrite (bool_decide_eq_false_2 (_ ≤ _)%Z) by lia.
  by rewrite andb_false_r.
Qed.

(** The next attempt that a verdict schedules is after the start of the pass. *)
Lemma next_after_start now jittered n :
  quiet cf start (Step 0 (Decide now jittered)) →
  (as_i64 start < as_i64 (N.min u64_max (now + delay_ms (retry_policy cf) jittered n)))%Z.
Proof.
  intros (Hs & Hn & Hj).
  pose proof (failure_facts.delay_bounds (retry_policy cf) jittered n Hj) as [Hlo Hhi].
  pose proof (failure_facts.capped_positive (retry_policy cf) n Hinit Hmax) as Hpos.
  rewrite N.min_r by (unfold i64_max, u64_max in *; lia).
  rewrite !i64_cast_small by (unfold i64_max in *; lia). lia.
Qed.

(** The row of an attempt is no candidate, and stays so when its verdict is recorded. *)
Definition set_aside w t : Prop :=
  (∀ r, r ∈ outbox (db w) → key r = key (t_row t) → due (as_i64 start) r = false) ∧
  t_generation t = generation w ∧ t_stage t ≠ Releasing ∧
  (∀ v next, t_stage t = Recording v next → (as_i64 start < as_i64 next)%Z).

Lemma finish_same_candidates i p o b next v now d :
  (∀ r, r ∈ outbox d → key r = (i, p) → due (as_i64 start) r = false) →
  (as_i64 start < as_i64 next)%Z →
  candidates_at (finish_outbox_attempt i p o b next v now d).2 = candidates_at d ∧
  ∀ r, r ∈ outbox (finish_outbox_attempt i p o b next v now d).2 → key r = (i, p) →
    due (as_i64 start) r = false.
Proof.
  intros Hd Hn. split.
  - apply in_order_same. intros r Hr Hp. rewrite !andb_true_iff in Hp. destruct Hp as [[Hk _] _].
    apply is_row_key in Hk. split; [auto|]. by apply later_not_due.
  - unfold finish_outbox_attempt. simpl. intros r (r0 & -> & Hr0)%list_elem_of_fmap Hk.
    destruct (is_row i p r0 && leased_by o r0 && negb (has_status Acked r0));
      [by apply later_not_due|].
    auto.
Qed.

Lemma task_step_aside e t w t' d' evs :
  quiet cf start (Step 0 e) → set_aside w t →
  task_step cf (generation w) true true e t (db w) = Some (t', d', evs) →
  set_aside (set_db d' w) t' ∧ candidates_at d' = candidates_at (db w) ∧ claims evs = [].
Proof.
  intros Hq (Hdue & Hg & Hrel & Hrec) Ht. unfold task_step in Ht.
  destruct (t_stage t) as [| | | |v|v next| |] eqn:Hst; try done.
  1-4: repeat (case_match; simplify_eq); (split_and!; [|done..]); (split_and!; [done..|]); done.
  - destruct e as [| | | |now jittered|]; try done. rewrite decide_True in Ht by done. simplify_eq.
    split_and!; [|done..]. split_and!; [done..|]. intros v' next [= -> <-]. by apply next_after_start.
  - destruct e as [| | | | |io now]; try done. simplify_eq. specialize (Hrec _ _ eq_refl).
    pose proof (finish_same_candidates (msg_id (t_row t)) (recipient_device_id (t_row t))
        (cf_owner cf)
      (bool_decide (v = None)) next v now (db w) Hdue Hrec) as [Hsame Hstill].
    destruct io; (split_and!; [|done..]); split_and!; done.
Qed.

(** Claiming the first candidate takes it out. *)
Lemma claim_first d r rest :
  keyed d → candidates_at d = r :: rest →
  claim_due_outbox start (cf_owner cf) (lease_duration_ms cf) 1 d =
    (Some (set_lease (Some (cf_owner cf)) (Some (deadline start (lease_duration_ms cf))) r),
     (lock_row (cf_owner cf) (deadline start (lease_duration_ms cf)) start (msg_id r)
        (recipient_device_id r) d).2) ∧
  let d' := (lock_row (cf_owner cf) (deadline start (lease_duration_ms cf)) start (msg_id r)
               (recipient_device_id r) d).2 in
  candidates_at d' = rest ∧
  ∀ r', r' ∈ outbox d' → key r' = key r → due (as_i64 start) r' = false.
Proof.
  intros Hd Hc. assert (r ∈ candidates_at d) as [Hr Hdue]%elem_of_in_order by (rewrite Hc; by left).
  pose proof (due_unlocked _ _ Hdue) as (Hu & _).
  assert (∀ r0, r0 ∈ outbox d → key r0 = key r → r0 = r) as Huniq.
  { intros r0 Hr0 Hk. apply (inj Some).
    rewrite <- (proj2 (row_at_Some (msg_id r) (recipient_device_id r) d r0 Hd)) by done.
    by apply row_at_Some. }
  split; [|split].
  - unfold claim_due_outbox. fold (candidates_at d). rewrite Hc. by apply claim_row_Some.
  - unfold candidates_at, lock_row. rewrite (in_order_removed _ _ _ _ (key r)).
    + fold (candidates_at d). rewrite Hc. rewrite filter_cons, decide_False by tauto.
      pose proof (in_order_keys (due (as_i64 start)) d Hd) as Hn. fold (candidates_at d) in Hn.
      rewrite Hc in Hn. apply NoDup_cons in Hn as [Hn _]. apply filter_all. intros r0 Hr0 Hk.
      apply Hn. rewrite <- Hk. by apply (list_elem_of_fmap_2 key).
    + intros r0 Hr0. case_decide as Hk.
      * rewrite (Huniq r0) by done. split; [|apply locked_not_due].
        by rewrite (proj2 (is_row_key _ _ r)), Hu.
      * destruct (is_row _ _ r0) eqn:Hi; [|done]. by apply is_row_key in Hi.
  - unfold lock_row. simpl. intros r' (r0 & -> & Hr0)%list_elem_of_fmap Hk.
    destruct (is_row (msg_id r) (recipient_device_id r) r0 && unlocked (as_i64 start) r0) eqn:Hp;
      [apply locked_not_due|].
    assert (r0 = r) as -> by auto. by rewrite (proj2 (is_row_key _ _ r)), Hu in Hp.
Qed.

(** What is left to claim. *)
Definition pending w (n : N) (rest : list OutboxRow) : Prop :=
  keyed (db w) ∧ candidates_at (db w) = rest ∧
  (phase w = Claiming Whole start n ∨
   ∃ t, phase w = Attempting Whole start n t ∧ set_aside w t).

Lemma quiet_run acts w w' evs n rest :
  pending w n rest → Forall (quiet cf start) acts → run cf acts w = Some (w', evs) → phase w' = Idle →
  claims evs = take (N.to_nat (claim_limit cf - n)) (key <$> rest).
Proof.
  revert w evs n rest. induction acts as [|a acts IH]; intros w evs n rest Hp Hall Hrun Hidle.
  { injection Hrun as <- <-. destruct Hp as (_ & _ & [Hph|(t & Hph & _)]); congruence. }
  apply Forall_cons in Hall as [Ha Hall]. simpl in Hrun.
  apply bind_Some in Hrun as ([w1 evs1] & Hs & ([w2 evs2] & Hr & [= -> <-])%bind_Some).
  assert (∀ w evs, phase w = Idle → run cf acts w = Some (w', evs) → evs = []) as Hend.
  { clear -Hall. intros w evs Hi Hr. destruct acts as [|a acts]; [by simplify_eq/=|].
    apply Forall_cons in Hall as [Ha _]. simpl in Hr.
    destruct a; simpl in Ha; try done; simpl in Hr; unfold work in Hr; by rewrite Hi in Hr. }
  pose proof (steady_step _ _ _ _ _ Hs) as [[Hk1 _] _ _].
  destruct Hp as (Hk & Hc & [Hph|(t & Hph & Haside)]).
  - destruct a as [| |io|k e| | |]; try done; simpl in Hs; unfold work in Hs; rewrite Hph in Hs;
      [|done].
    simpl in Ha. subst io. unfold claim_step in Hs. simpl in Hs. case_decide as Hb.
    { simplify_eq. assert (evs2 = []) as -> by (by eapply Hend, Hr).
      replace (claim_limit cf - n)%N with 0%N by lia. done. }
    unfold concurrent in Hs. rewrite bool_decide_eq_false_2 in Hs by lia. unfold claim_one in Hs.
    destruct rest as [|r rest].
    + assert (claim_due_outbox start (cf_owner cf) (lease_duration_ms cf) 1 (db w) = (None,
          db w)) as Hn.
      { unfold claim_due_outbox. fold (candidates_at (db w)). by rewrite Hc. }
      rewrite Hn in Hs. simplify_eq. assert (evs2 = []) as -> by (by eapply Hend, Hr).
      by destruct (N.to_nat _).
    + destruct (claim_first (db w) r rest Hk Hc) as (Hcl & Hrest & Hdue). rewrite Hcl in Hs.
      injection Hs as <- <-.
      rewrite claims_app. erewrite (IH _ evs2 (n + 1)%N rest); [| |done..].
      * simpl. replace (N.to_nat (claim_limit cf - n))
            with (S (N.to_nat (claim_limit cf - (n + 1)))) by lia.
        done.
      * split_and!; [auto|done|]. right. eexists. split; [done|]. split_and!; done.
  - destruct a as [| |io|k e| | |]; try done; simpl in Hs; unfold work in Hs; rewrite Hph in Hs.
    + destruct (t_stage t) eqn:Hst; try done. simplify_eq. eapply IH; [|done..].
      split_and!; [auto|done|by left].
    + apply bind_Some in Hs as ([[t' d'] evs'] & Ht & Hs). case_decide; simplify_eq.
      destruct (task_step_aside _ _ _ _ _ _ Ha Haside Ht) as (Haside' & Hsame & Hno).
      rewrite claims_app, Hno. simpl. eapply IH; [|done..]. split_and!; [auto|exact Hsame|].
      right. eauto.
Qed.

End pass.

(** C32: A pass takes the due rows in their order.  A sequential pass that is left alone claims
    exactly the rows that were due at its start, in the order of their next attempt and of
    their insertion, up to the claim limit: no due row is passed over, none is attempted
    twice, whatever the verdicts of the attempts are. *)
Theorem pass_claims_due_in_order cf start d g acts w' evs :
  max_concurrent cf ≤ 1 → (0 < lease_duration_ms cf)%N →
  (start + lease_duration_ms cf ≤ i64_max)%N →
  (0 < initial_delay_ms (retry_policy cf))%N → (0 < max_delay_ms (retry_policy cf))%N →
  keyed d → Forall (quiet cf start) acts →
  run cf acts (mkWorld d g (Claiming Whole start 0)) = Some (w', evs) → phase w' = Idle →
  claims evs = take (N.to_nat (claim_limit cf)) (key <$> in_order (due (as_i64 start)) d).
Proof.
  intros Hseq Hl Hs Hi Hm Hd Hall Hrun Hidle.
  rewrite (quiet_run cf start Hseq Hl Hs Hi Hm acts (mkWorld d g (Claiming Whole start 0)) w'
    evs 0 (in_order (due (as_i64 start)) d));
    [by rewrite N.sub_0_r| |done..].
  split_and!; [done..|by left].
Qed.

(** ** Acknowledgements arrive *)

Lemma text_len_hex b : text_len (to_hex b) = 2 * length b.
Proof.
  induction b as [|x b IH]; [done|]. change (to_hex (x :: b)) with
    (digit (Byte.to_N x / 16) :: digit (Byte.to_N x mod 16) :: to_hex b).
  pose proof (Byte.to_N_bounded x) as Hx.
  assert (∀ n, (n < 16)%N → len_utf8 (digit n) = 1) as Hd.
  { intros n Hn. pose proof (digit_range n Hn). unfold len_utf8. rewrite decide_True by lia. done. }
  cbn [text_len length]. rewrite IH, !Hd; [lia|apply N.mod_lt; lia|].
  apply N.Div0.div_lt_upper_bound. lia.
Qed.

(** The id of an envelope is the text of its hash. *)
Lemma message_id_hex e : ∃ h, mailbox.message_id e = to_hex (blake3 h).
Proof. destruct e; eexists; reflexivity. Qed.

(** Among envelopes with distinct ids the acknowledged message is found. *)
Lemma find_awaited d i m e b :
  Inv d → dm_messages d !! i = Some m → acknowledged_at m = None →
  message_envelope m = Some b → mailbox.decode b = Ok e →
  (∀ j m' b' e', dm_messages d !! j = Some m' → acknowledged_at m' = None →
     message_envelope m' = Some b' → mailbox.decode b' = Ok e' →
     mailbox.message_id e' = mailbox.message_id e → j = i) →
  ∃ o, do_recipient o = recipient_id m ∧
    find_acknowledged (mailbox.message_id e) (awaiting_ack d) = Ok (Some (i, m, o)).
Proof.
  intros HI Hi Ha Hb He Huniq.
  destruct (inv_kept d HI i m Hi) as [(b0 & Hb0 & _ & Ho) _ _]. rewrite Ha in Ho. simplify_eq.
  exists (mkDmOutbox (recipient_id m) b (created_at_ms m)). split; [done|].
  apply find_acknowledged_unique; [by apply elem_of_awaiting_ack|].
  intros [[j m'] o] (Hj & Ha' & Hoj)%elem_of_awaiting_ack.
  destruct (inv_kept d HI j m' Hj) as [(b' & Hb' & (e' & -> & Hv) & Hd) _ _].
  rewrite Ha', Hoj in Hd. simplify_eq. simpl. exists e'. split; [by apply genuine_decodes|]. split.
  - intros Hid. assert (j = i) as -> by (eapply Huniq; [done..|by apply genuine_decodes|done]).
    congruence.
  - intros Hx. injection Hx as -> ->. assert (b = encoded e') as -> by congruence.
    rewrite (genuine_decodes e' Hv) in He. congruence.
Qed.

(** C33: A genuine acknowledgement ends a delivery.  In every world the program can reach, the
    acknowledgement that the recipient of an unacknowledged message signs for its envelope is
    accepted, provided no other waiting message has an envelope with the same id and none was
    acknowledged under it before; afterwards the message is acknowledged, its envelope is
    gone, its delivery row is acknowledged and no other row has changed. *)
Theorem genuine_ack_accepted cf w i m b e sk at_ :
  (∀ x, length (blake3 x) = 32) → reachable cf w →
  dm_messages (db w) !! i = Some m → acknowledged_at m = None →
  message_envelope m = Some b → mailbox.decode b = Ok e → recipient_id m = public sk →
  (∀ id, from_hex (mailbox.message_id e) = Some id → dm_acknowledgements (db w) !! id = None) →
  (∀ j m' b' e', dm_messages (db w) !! j = Some m' → acknowledged_at m' = None →
     message_envelope m' = Some b' → mailbox.decode b' = Ok e' →
     mailbox.message_id e' = mailbox.message_id e → j = i) →
  ∃ d', process_outgoing_ack false (public sk)
          (mailbox.ack_sign sk (mailbox.message_id e) (sender_id m) at_) (db w) = (Ok true, d') ∧
    dm_acknowledged i d' = true ∧ dm_outbox d' !! i = None ∧
    (∃ r, row_at i (recipient_id m) d' = Some r ∧ status r = Acked) ∧
    ∀ j p, (j, p) ≠ (i, recipient_id m) → row_at j p d' = row_at j p (db w).
Proof.
  intros Hlen HI%reachable_Inv Hi Ha Hb He Hsk Hnew Huniq.
  destruct (find_awaited (db w) i m e b HI Hi Ha Hb He Huniq) as (o & Ho & Hf).
  destruct (message_id_hex e) as [h Hh].
  set (ack := mailbox.ack_sign sk (mailbox.message_id e) (sender_id m) at_).
  exists (apply_ack (blake3 h) ack i m (db w)). split_and!.
  - unfold process_outgoing_ack. rewrite bool_decide_eq_true_2 by
      (change (mailbox.ack_message_id ack) with (mailbox.message_id e);
        rewrite Hh, text_len_hex, Hlen;
       unfold MAX_ACK_MESSAGE_ID_LEN; lia).
    unfold ack. rewrite MailboxFacts.ack_sign_verifies.
    change (mailbox.ack_message_id (mailbox.ack_sign sk (mailbox.message_id e) (sender_id m) at_))
      with (mailbox.message_id e).
    rewrite Hf. rewrite Hh in *. rewrite from_hex_to_hex in *. cbn [mbind res_bind ok_or ensure mret].
    unfold mailbox.is_success. rewrite bool_decide_eq_true_2 by done. cbn [ensure res_bind].
    rewrite (bool_decide_eq_true_2 (length _ = 32)) by apply Hlen. cbn [ensure res_bind].
    rewrite decide_False by (rewrite (Hnew _ eq_refl); by intros []).
    rewrite !bool_decide_eq_true_2 by (done || congruence). done.
  - unfold dm_acknowledged. simpl. rewrite lookup_insert_eq. by apply bool_decide_eq_true.
  - simpl. apply lookup_delete_eq.
  - destruct (inv_kept _ HI i m Hi) as [_ _ (r & Hr & _)]. rewrite row_at_apply_ack, Hr.
    eexists. split; [done|]. apply row_at_key in Hr as [<- <-]. by rewrite (proj2 (is_row_key _ _ r)).
  - intros j p Hne. rewrite row_at_apply_ack. destruct (row_at j p (db w)) as [r|] eqn:Hr; [|done].
    simpl. destruct (is_row i (recipient_id m) r) eqn:Hk; [|done]. apply is_row_key in Hk.
    apply row_at_key in Hr as [<- <-]. unfold key in Hk. congruence.
Qed.

(** ** What is left undone *)

(** The text of a refusal by the recipient policy is not one of the terminal errors: the row
    goes back to the queue, although the failure is not one to retry automatically. *)
Theorem refusal_is_retried next now i p o d r :
  row_at i p d = Some r → lease_owner r = Some o → status r ≠ Acked →
  outbox_delivery.automatic_retry outbox_delivery.Unauthorised = false ∧
  ∃ r', row_at i p (finish_outbox_attempt i p o false next (Some not_authorized) now d).2 = Some r' ∧
    status r' = Pending.
Proof.
  intros Hr Ho Ha. split; [done|]. unfold finish_outbox_attempt.
  rewrite (surjective_pairing (update _ _ d)). cbn [snd]. rewrite row_at_update by done. rewrite Hr.
  eexists. split; [reflexivity|]. apply row_at_key in Hr as [<- <-].
  rewrite (proj2 (is_row_key _ _ r)) by done. unfold leased_by, has_status.
  by rewrite bool_decide_eq_true_2, bool_decide_eq_false_2.
Qed.

(** The detail of a transient failure can make it terminal. *)
Theorem detail_ends_delivery :
  let e := outbox_delivery.with_detail outbox_delivery.ConnectionFailed (txt "certificate expired") in
  outbox_delivery.automatic_retry (outbox_delivery.failure e) = true ∧
  finished_status false (Some (outbox_delivery.display e)) = Expired.
Proof. by vm_compute. Qed.

Lemma step_inbox cf a w w' evs :
  step cf a w = Some (w', evs) → (∀ i e, a ≠ Outside (OpInbox i e)) → inbox (db w') = inbox (db w).
Proof.
  intros [[_ Ho]|[[now ->]|(o & -> & ->)]]%step_db Hno.
  - by rewrite Ho.
  - unfold repair_pending_dm_projections. cbn [snd]. generalize (to_repair (db w)). intros l.
    generalize (db w). induction l as [|[[i m] e] l IH]; intros d; [done|]. cbn [foldl]. rewrite IH.
    unfold repair_one, insert_or_ignore. by repeat case_match.
  - destruct o as [checks fault c s key text rec secret eph fresh now now'|fault from ack|?|?|i'
        ?|i' e|?|?|?|limit now owner lease|?|?|c ids|?];
      simpl; try done.
    + destruct (queue_cases checks fault c s key text rec secret eph fresh now now' (db w))
        as [[_ ->]|[(o & x & _ & -> & _)|(o & Hf & _ & _ & _ & Hw)]]; [done|done|].
      by destruct Hw.
    + destruct (process_ack_cases fault from ack (db w)) as [(id & j & m' & -> & Hk)|[_ ->]]; done.
    + unfold enqueue_outbox, insert_or_ignore. by destruct (row_at _ _ _).
    + by destruct (Hno i' e).
    + pose proof (outbox_only_claim_rows (start_sending owner lease now)
        (take (claim_limit_of limit) (in_order (claimable (as_i64 now)) (db w))) (db w)) as Ho.
      unfold claim_pending_deliveries_with_lease. by rewrite Ho.
Qed.

Lemma update_none (P : OutboxRow → bool) f d : (∀ r, P r = false) → update P f d = (0, d).
Proof.
  intros HP. unfold update. f_equal.
  - induction (outbox d) as [|r l IH]; [done|]. rewrite filter_cons, decide_False; [done|].
    by rewrite HP.
  - assert ((λ r, if P r then f r else r) <$> outbox d = outbox d) as ->; [|by destruct d].
    etransitivity; [|apply list_fmap_id]. apply list_fmap_ext. intros _ r _. by rewrite HP.
Qed.

(** Expiry and manual retry look a message up in the inbox, where queued direct messages
    never are: without other entries there, both do nothing. *)
Theorem queued_messages_never_expire cf acts g w evs :
  run cf acts (mkWorld empty_db g Idle) = Some (w, evs) →
  (∀ i e, Outside (OpInbox i e) ∉ acts) →
  ∀ now i p, expire_outbox now (db w) = (0, db w) ∧ retry_outbox_now i p now (db w) = (0, db w).
Proof.
  intros Hrun Hno. assert (inbox (db w) = ∅) as Hin.
  { change ∅ with (inbox (db (mkWorld empty_db g Idle))). revert Hrun Hno.
    generalize (mkWorld empty_db g Idle).
    revert evs. induction acts as [|a acts IH]; intros evs w0; simpl; [by intros [= <- _]|].
    intros ([w1 evs1] & Hs & ([w2 evs2] & Hr & [= -> _])%bind_Some)%bind_Some Hno.
    rewrite (IH _ _ Hr) by set_solver. eapply step_inbox; [exact Hs|]. intros i e ->. set_solver. }
  intros now i p. split; apply update_none; intros r; rewrite Hin, lookup_empty;
    by rewrite andb_false_r.
Qed.

(** Deleting a conversation leaves the delivery rows of its messages: the same request can
    never be queued again. *)
Theorem deleted_request_blocked cf w i m c s key text rec ids checks fault secret eph fresh now now' :
  reachable cf w → i = dm_message_id s c key →
  dm_messages (db w) !! i = Some m → request_key m = key → conversation_id m = c →
  recipient_id m = mailbox.identity rec →
  let d := (delete_chat_history c ids (db w)).2 in
  (∃ r, row_at i (recipient_id m) d = Some r) ∧
  ¬ ∃ o, (queue_outgoing_dm checks fault c s key text rec secret eph fresh now now' d).1 = Ok o.
Proof.
  intros HI%reachable_Inv -> Hi Hk Hc Hrec d.
  destruct (inv_kept _ HI _ m Hi) as [_ _ (r & Hr & _)].
  assert (row_at (dm_message_id s c key) (recipient_id m) d = Some r) as Hrow by done.
  split; [eauto|]. intros [o Ho].
  assert (Inv d) as HI' by (by apply Inv_delete).
  destruct (queue_cases checks fault c s key text rec secret eph fresh now now' d)
    as [[Hno _]|[(o' & [j m'] & Hf & _)|(o' & _ & _ & _ & _ & Hw)]].
  - eauto.
  - apply find_request_Some in Hf as [Hj Hkey]; [|done]. simpl in Hj.
    apply map_lookup_filter_Some in Hj as [Hj Hne]. simpl in Hne. apply Hne.
    assert (j = dm_message_id s c key) as -> by (eapply (inv_request _ HI); eauto; congruence).
    congruence.
  - destruct Hw as [_ _ _ _ Hfree _ _ _ _ _ _ _ _]. rewrite <- Hrec in Hfree. congruence.
Qed.

End facts.
End worker_facts.

(** ** Concrete messages and runs *)

Module dm_samples.
Import dm_storage worker table_facts store_facts worker_facts.

#[local] Existing Instances toy_ed25519 MailboxFacts.toy_sealing.

(** A hash of 32 bytes. *)
Definition wide_hash (b : Bytes) : Bytes := toy_hash b ++ replicate 30 x00.
#[local] Instance wide_hasher : Hasher := {| blake3 := wide_hash |}.

#[local] Instance encodable_ser {A} `{!Ser A} : Encodable A | 100 := MailboxFacts.ser_encodable.

#[local] Instance table_order : QueryPlan := {| plan _ l := l; plan_perm _ _ := reflexivity _ |}.

#[local] Instance ser_logical : Ser LogicalDm.
Proof.
  refine (ser_inj (B := Bytes * Bytes * Bytes * N * Bytes * Bytes * Bytes)
    (λ l, (ld_conversation_id l, ld_sender l, ld_recipient l, ld_sequence l, ld_message_id l,
           ld_plaintext l, ld_signature l))
    (λ '(a, b, c, d, e, f, g), Some (mkLogical a b c d e f g)) _).
  by intros [].
Defined.

Definition alice : Bytes := [x61].
Definition bob : Bytes := [x62].
Definition alice_key : @SecretKey toy_ed25519 := alice.
Definition bob_key : @SecretKey toy_ed25519 := bob.
Definition eph : @StaticSecret toy_ed25519 MailboxFacts.toy_sealing := ([x05] : Bytes).
Definition bob_box : mailbox.MailboxPublicKey := mailbox.public_key (mailbox.from_secret bob_key).
Definition talk : Bytes := [x01].
Definition hello : Bytes := [x68; x69].

Definition cfg : Config := new (txt "boru").
Definition pool : Config := with_max_concurrent 4 cfg.

(** Alice queues a message for Bob. *)
Definition send (k : Bytes) (t : N) : Op :=
  OpQueue true None talk alice k hello bob_box alice_key eph (Some (replicate 12 x07)) t t.

Definition id_of (k : Bytes) : Bytes := dm_message_id alice talk k.

Definition init : World := mkWorld empty_db 0 Idle.
Definition after (cf : Config) (acts : list Action) (w : World) : World :=
  match run cf acts w with Some (w', _) => w' | None => w end.
Definition events (cf : Config) (acts : list Action) (w : World) : list Event :=
  match run cf acts w with Some (_, evs) => evs | None => [] end.

Definition ran (cf : Config) (acts : list Action) (w : World) : bool :=
  match run cf acts w with Some _ => true | None => false end.

Lemma ran_run cf acts w :
  ran cf acts w = true → run cf acts w = Some (after cf acts w, events cf acts w).
Proof. unfold ran, after, events. by destruct (run cf acts w) as [[]|]. Qed.

Lemma ran_reachable cf acts : ran cf acts init = true → reachable cf (after cf acts init).
Proof. intros Hr%ran_run. by exists acts, 0%N, (events cf acts init). Qed.

(** One message, then two. *)
Definition sent1 : list Action := [Outside (send [x31] 1000)].
Definition sent2 : list Action := [Outside (send [x31] 1000); Outside (send [x32] 1001)].

(** The envelope of a message, and Bob's acknowledgement of it. *)
Definition envelope_of (k : Bytes) (w : World) : mailbox.MailboxEnvelope :=
  match dm_messages (db w) !! id_of k with
  | Some m => match message_envelope m with
              | Some b => match mailbox.decode b with
                          | Ok e => e
                          | _ => mailbox.V1 (mailbox.mkV1 [] (mailbox.mkPublicKey [] []) [] [] []
                              0 [])
                          end
              | None => mailbox.V1 (mailbox.mkV1 [] (mailbox.mkPublicKey [] []) [] [] [] 0 [])
              end
  | None => mailbox.V1 (mailbox.mkV1 [] (mailbox.mkPublicKey [] []) [] [] [] 0 [])
  end.

Definition ack_of (k : Bytes) (w : World) : mailbox.MessageAcknowledgement :=
  mailbox.ack_sign bob_key (mailbox.message_id (envelope_of k w)) alice 1500.

Definition world1 : World := after cfg sent1 init.
Definition acked : list Action := sent1 ++ [Outside (OpAck false bob (ack_of [x31] world1))].

(** A pass of the worker over the due rows: [k] attempts that succeed. *)
Definition attempt (t : N) : list Action :=
  [Work true; Step 0 (Policy (inl true)); Step 0 (Transport None); Step 0 (Decide t id);
   Step 0 (Store true t); Work true].

Definition prologue : list Action := [Wake 2000; Work true; Work true; Work true; Work true;
  Work true].

Example delivered_once :
  claims (events cfg (sent1 ++ prologue ++ attempt 2010 ++ [Work true]) init) = [(id_of [x31], bob)] ∧
  phase (after cfg (sent1 ++ prologue ++ attempt 2010 ++ [Work true]) init) = Idle.
Proof. vm_compute. done. Qed.

Definition msg1 : DmMessage :=
  default (mkMessage [] [] [] 0 [] [] [] 0 None None) (dm_messages (db world1) !! id_of [x31]).
Definition env1 : Bytes := default [] (message_envelope msg1).
Definition acked_world : World := after cfg acked init.
Definition row1 : OutboxRow := default (new_row [] [] 0) (row_at (id_of [x31]) bob (db acked_world)).

Lemma world1_reachable : reachable cfg world1.
Proof. apply (ran_reachable cfg sent1). vm_compute. reflexivity. Qed.

Lemma acked_reachable : reachable cfg acked_world.
Proof. apply (ran_reachable cfg acked). vm_compute. reflexivity. Qed.

Lemma world1_messages : map_to_list (dm_messages (db world1)) = [(id_of [x31], msg1)].
Proof. vm_compute. reflexivity. Qed.

Lemma acked_never_reclaimed_witness :
  (∃ r, row_at (id_of [x31]) bob (db (after cfg (prologue ++ [Work true]) acked_world)) = Some r ∧
     status r = Acked) ∧
  Claimed (id_of [x31]) bob ∉ events cfg (prologue ++ [Work true]) acked_world.
Proof.
  apply (acked_never_reclaimed cfg acked_world (prologue ++ [Work true]) _ _ (id_of [x31]) bob row1).
  - exact acked_reachable.
  - vm_compute. reflexivity.
  - vm_compute. reflexivity.
  - apply ran_run. vm_compute. reflexivity.
Defined.

Lemma acknowledged_by_recipient_witness :
  ∃ fault ack b e,
    Outside (OpAck false bob (ack_of [x31] world1)) = Outside (OpAck fault (recipient_id msg1) ack) ∧
    mailbox.ack_verify ack (recipient_id msg1) = Ok tt ∧
    mailbox.original_sender ack = sender_id msg1 ∧
    message_envelope msg1 = Some b ∧ mailbox.decode b = Ok e ∧
    mailbox.ack_message_id ack = mailbox.message_id e ∧
    acknowledge_message 1500 msg1 = acknowledge_message (as_i64 (mailbox.acknowledged_at_ms ack))
        msg1.
Proof.
  apply (acknowledged_by_recipient cfg world1 (Outside (OpAck false bob (ack_of [x31] world1)))
    acked_world [] (id_of [x31])).
  - exact world1_reachable.
  - vm_compute. reflexivity.
  - vm_compute. reflexivity.
  - vm_compute. reflexivity.
  - vm_compute. reflexivity.
  - by eexists.
Defined.

Lemma messages_kept_witness :
  ∃ b e r, message_envelope msg1 = Some b ∧ mailbox.decode b = Ok e ∧
    row_at (id_of [x31]) (recipient_id msg1) (db world1) = Some r ∧
    dm_outbox (db world1) !! id_of [x31] =
      Some (mkDmOutbox (recipient_id msg1) b (created_at_ms msg1)).
Proof.
  destruct (messages_kept cfg world1 world1_reachable) as [Hk _].
  apply (Hk (id_of [x31]) msg1). vm_compute. reflexivity.
Defined.

Definition queue1 (t : N) (d : Db) : res StorageError OutgoingDm * Db :=
  queue_outgoing_dm true None talk alice [x31]
      hello bob_box alice_key eph (Some (replicate 12 x07)) t t d.

Definition out1 : OutgoingDm :=
  match (queue1 1000 empty_db).1 with
  | Ok o => o
  | _ => mkOutgoing [] 0 [] (mailbox.V1 (mailbox.mkV1 [] (mailbox.mkPublicKey [] []) [] [] [] 0 []))
  end.

Lemma request_idempotent_witness :
  queue_outgoing_dm true None talk alice [x31] hello bob_box alice_key eph None 9000 9000
    (db (after cfg (prologue ++ attempt 2010) (mkWorld (db world1) 0 Idle))) =
  (Ok out1, db (after cfg (prologue ++ attempt 2010) (mkWorld (db world1) 0 Idle))).
Proof.
  apply (request_idempotent cfg init true None talk alice [x31] hello bob_box alice_key eph
    (Some (replicate 12 x07)) 1000 1000 out1 (db world1) Idle (prologue ++ attempt 2010)
    _ (events cfg (prologue ++ attempt 2010) (mkWorld (db world1) 0 Idle))).
  - by exists [], 0%N, [].
  - vm_compute. reflexivity.
  - apply ran_run. vm_compute. reflexivity.
  - intros ids Hin. unfold prologue, attempt in Hin. simpl in Hin. set_solver.
  - reflexivity.
Defined.

(** Two messages for Bob, claimed in one batch. *)
Definition batched : list Action := sent2 ++ prologue ++ [Work true; Work true; Work true].

Lemma deliveries_bounded_witness :
  length (tasks_of (phase (after pool batched init))) = 1 ∧
  NoDup (t_peer <$> tasks_of (phase (after pool batched init))).
Proof.
  split; [vm_compute; reflexivity|].
  apply (deliveries_bounded pool). apply (ran_reachable pool batched). vm_compute. reflexivity.
Defined.

Lemma passes_end_witness :
  (6 ≤ rank cfg (Repairing Whole 2000))%N ∧
  (phase (after cfg (tail prologue ++ [Work true]) (after cfg (sent1 ++ [Wake 2000]) init)) = Idle ∨
   ∃ a, internal a = true ∧
     is_Some (step cfg a (after cfg (tail prologue ++ [Work true])
         (after cfg (sent1 ++ [Wake 2000]) init)))).
Proof.
  destruct (passes_end cfg (after cfg (sent1 ++ [Wake 2000]) init) (tail prologue ++ [Work true])
    (after cfg (tail prologue ++ [Work true]) (after cfg (sent1 ++ [Wake 2000]) init))
    (events cfg (tail prologue ++ [Work true]) (after cfg (sent1 ++ [Wake 2000]) init))) as [Hl He].
  - simpl. lia.
  - apply (ran_reachable cfg (sent1 ++ [Wake 2000])). vm_compute. reflexivity.
  - apply ran_run. vm_compute. reflexivity.
  - repeat constructor.
  - split; [exact Hl|exact He].
Defined.

Definition two_attempts : list Action := attempt 2010 ++ attempt 2020 ++ [Work true].
Definition claiming2 : World := mkWorld (db (after cfg sent2 init)) 0 (Claiming Whole 2000 0).

Lemma pass_claims_due_in_order_witness :
  claims (events cfg two_attempts claiming2) = [(id_of [x31], bob); (id_of [x32], bob)].
Proof.
  rewrite (pass_claims_due_in_order cfg 2000 (db (after cfg sent2 init)) 0 two_attempts
    (after cfg two_attempts claiming2)).
  - vm_compute. reflexivity.
  - simpl. lia.
  - done.
  - by vm_compute.
  - done.
  - done.
  - eapply inv_keyed, (reachable_Inv cfg), (ran_reachable cfg sent2). vm_compute. reflexivity.
  - unfold two_attempts, attempt. simpl.
    repeat (apply Forall_cons; split); try apply Forall_nil; simpl; try done;
      (split_and!; [lia|vm_compute; discriminate|intros n; unfold id; lia]).
  - apply ran_run. vm_compute. reflexivity.
  - vm_compute. reflexivity.
Defined.

Lemma genuine_ack_accepted_witness :
  ∃ d, process_outgoing_ack false bob
         (mailbox.ack_sign bob_key (mailbox.message_id (envelope_of [x31] world1))
             (sender_id msg1) 1500)
         (db world1) = (Ok true, d) ∧
    dm_acknowledged (id_of [x31]) d = true ∧ dm_outbox d !! id_of [x31] = None ∧
    (∃ r, row_at (id_of [x31]) (recipient_id msg1) d = Some r ∧ status r = Acked) ∧
    ∀ j p, (j, p) ≠ (id_of [x31], recipient_id msg1) → row_at j p d = row_at j p (db world1).
Proof.
  apply (genuine_ack_accepted cfg world1 (id_of [x31]) msg1 env1 (envelope_of [x31] world1)
      bob_key 1500).
  - reflexivity.
  - exact world1_reachable.
  - apply elem_of_map_to_list. rewrite world1_messages. by left.
  - vm_compute. reflexivity.
  - vm_compute. reflexivity.
  - vm_compute. reflexivity.
  - vm_compute. reflexivity.
  - intros id _. change (dm_acknowledgements (db world1)) with (∅ : gmap Bytes DmAcknowledgement).
    apply lookup_empty.
  - intros j m' b' e' Hj _ _ _ _. apply elem_of_map_to_list in Hj. rewrite world1_messages in Hj.
    apply list_elem_of_singleton in Hj. by injection Hj.
Defined.

End dm_samples.
