(* ===== verification/RoomSafety.v ===== *)
(** * Limits on untrusted peers: [src/public_room_config.rs], [src/public_room_safety.rs],
      [src/catalogue_rate_limits.rs], [src/abuse_controls.rs]

    [Module public_room_config] holds the configuration with its sanitization, [Module
    public_room_safety] the per-peer limits of a public room, [Module catalogue_rate_limits]
    the limiters of the catalogue service and [Module abuse_controls] the sanitization of
    displayed text.  Instants and durations are in nanoseconds.  The maps behind the locks
    are part of an explicit state; every call holds its locks to the end.  Warnings are left
    out.  Unicode normalization is a parameter. *)

From Stdlib Require Import NArith ZArith QArith Qround.
From stdpp Require Import prelude gmap strings.
From S2P Require Import Prelude Text.

Module public_room_config.

(** A double: the finite ones are rational numbers. *)
Inductive f64 : Type :=
| Finite (q : Q)
| NaN
| Infinity (negative : bool).

Definition is_finite (x : f64) : bool :=
  match x with
  | Finite _ => true
  | _ => false
  end.

(** [x.clamp(lo, hi)] of a finite number *)
Definition clampQ (lo hi q : Q) : Q :=
  if Qlt_le_dec q lo then lo else if Qlt_le_dec hi q then hi else q.

(** The double nearest to 0.1. *)
Definition one_tenth : Q := 3602879701896397 # 36028797018963968.

Definition secs (n : Z) : Z := n * 1000000000.

Record PublicRoomConfig : Type := mkConfig {
  initial_lookup_timeout : Z;
  discover_interval : Z;
  publish_interval : Z;
  stale_record_age_minutes : N;
  future_clock_tolerance_minutes : N;
  retry_backoff_min : Z;
  retry_backoff_max : Z;
  max_records_per_lookup : N;
  max_record_size : N;
  max_candidate_peers_per_cycle : N;
  max_concurrent_joins : N;
  max_candidates_per_session : N;
  connection_attempts_per_window : N;
  connection_attempt_window : Z;
  message_size_limit : N;
  nickname_length_limit : nat;
  per_peer_message_rate : f64;
  blob_announcement_limit : N;
  blob_download_limit : N;
  max_blob_size_bytes : N;
  backfill_request_limit : N;
  jitter_factor : f64
}.

Definition config_default : PublicRoomConfig :=
  mkConfig (secs 15) (secs 30) (secs 300) 10 2 (secs 1) (secs 60) 20 256 20 5 10 10 (secs 60)
    4096 32 (Finite 10) 5 10 (10 * 1024 * 1024) 50 (Finite one_tenth).

Definition set_floats (rate jitter : f64) (c : PublicRoomConfig) : PublicRoomConfig :=
  mkConfig (initial_lookup_timeout c) (discover_interval c) (publish_interval c)
    (stale_record_age_minutes c) (future_clock_tolerance_minutes c) (retry_backoff_min c)
    (retry_backoff_max c) (max_records_per_lookup c) (max_record_size c)
    (max_candidate_peers_per_cycle c) (max_concurrent_joins c) (max_candidates_per_session c)
    (connection_attempts_per_window c) (connection_attempt_window c) (message_size_limit c)
    (nickname_length_limit c) rate (blob_announcement_limit c) (blob_download_limit c)
    (max_blob_size_bytes c) (backfill_request_limit c) jitter.

Definition sanitize (c : PublicRoomConfig) : PublicRoomConfig :=
  set_floats
    (match per_peer_message_rate c with
     | Finite q => Finite (clampQ 0 1000 q)
     | _ => Finite 0
     end)
    (match jitter_factor c with
     | Finite q => Finite (clampQ 0 (1 # 2) q)
     | _ => Finite one_tenth
     end) c.

End public_room_config.

Module public_room_safety.
Import public_room_config.

Definition MAX_TRACKED_PEERS : nat := 4096.

(** [rate.ceil() as usize] *)
Definition ceil_usize (x : f64) : N :=
  match x with
  | Finite q => N.min usize_max (Z.to_N (Qceiling q))
  | NaN => 0
  | Infinity true => 0
  | Infinity false => usize_max
  end.

(** [rate <= 0.0] *)
Definition not_positive (x : f64) : bool :=
  match x with
  | Finite q => Qle_bool q 0
  | NaN => false
  | Infinity negative => negative
  end.

(** The counters of drops wrap around in release builds. *)
Definition incr (n : N) : N := ((n + 1) mod (u64_max + 1))%N.

Section safety.
Context {PublicKey : Type} `{Countable PublicKey}.

Record PublicRoomSafety : Type := mkSafety {
  config : PublicRoomConfig;
  peer_message_times : gmap PublicKey (list Z);
  peer_blob_count : gmap PublicKey N;
  peer_blob_window_start : gmap PublicKey Z;
  peer_download_count : gmap PublicKey N;
  rate_limit_hits : gmap PublicKey N;
  blob_announcement_rejects : gmap PublicKey N;
  download_rejects : gmap PublicKey N
}.

Implicit Types (s : PublicRoomSafety) (peer : PublicKey) (now : Z).

Definition new (c : PublicRoomConfig) : PublicRoomSafety :=
  mkSafety (sanitize c) ∅ ∅ ∅ ∅ ∅ ∅ ∅.

Definition set_times (m : gmap PublicKey (list Z)) s : PublicRoomSafety :=
  mkSafety (config s) m (peer_blob_count s) (peer_blob_window_start s) (peer_download_count s)
    (rate_limit_hits s) (blob_announcement_rejects s) (download_rejects s).
Definition set_blobs (m : gmap PublicKey N) (w : gmap PublicKey Z) s : PublicRoomSafety :=
  mkSafety (config s) (peer_message_times s) m w (peer_download_count s)
    (rate_limit_hits s) (blob_announcement_rejects s) (download_rejects s).
Definition set_downloads (m : gmap PublicKey N) s : PublicRoomSafety :=
  mkSafety (config s) (peer_message_times s) (peer_blob_count s) (peer_blob_window_start s) m
    (rate_limit_hits s) (blob_announcement_rejects s) (download_rejects s).
Definition hit_rate peer s : PublicRoomSafety :=
  mkSafety (config s) (peer_message_times s) (peer_blob_count s) (peer_blob_window_start s)
    (peer_download_count s) (<[peer := incr (default 0 (rate_limit_hits s !! peer))%N]> (rate_limit_hits s))
    (blob_announcement_rejects s) (download_rejects s).
Definition reject_blob peer s : PublicRoomSafety :=
  mkSafety (config s) (peer_message_times s) (peer_blob_count s) (peer_blob_window_start s)
    (peer_download_count s) (rate_limit_hits s)
    (<[peer := incr (default 0 (blob_announcement_rejects s !! peer))%N]> (blob_announcement_rejects s))
    (download_rejects s).
Definition reject_download peer s : PublicRoomSafety :=
  mkSafety (config s) (peer_message_times s) (peer_blob_count s) (peer_blob_window_start s)
    (peer_download_count s) (rate_limit_hits s) (blob_announcement_rejects s)
    (<[peer := incr (default 0 (download_rejects s !! peer))%N]> (download_rejects s)).

(** ** Sizes and names *)

Definition check_message_size (raw_len : N) s : bool :=
  bool_decide (raw_len ≤ message_size_limit (config s))%N.

Definition check_blob_size (size : N) s : bool :=
  bool_decide (size ≤ max_blob_size_bytes (config s))%N.

(** [while end > 0 && !name.is_char_boundary(end) { end -= 1 }] *)
Fixpoint floor_boundary (name : Text) (n : nat) : nat :=
  match n with
  | 0 => 0
  | S n' => if is_char_boundary name n then n else floor_boundary name n'
  end.

Definition ellipsis : Char := 8230.

Definition enforce_nickname (name : Text) s : outcome Text :=
  let limit := nickname_length_limit (config s) in
  if decide (text_len name ≤ limit) then Done name
  else if decide (limit < len_utf8 ellipsis) then slice_to name (floor_boundary name limit)
  else
    match slice_to name (floor_boundary name (limit - len_utf8 ellipsis)) with
    | Done truncated => Done (truncated ++ [ellipsis])
    | Panic => Panic
    end.

(** ** Messages *)

(** [now.duration_since(t) < window] *)
Definition recent now (t : Z) : Prop := (Z.max 0 (now - t) < secs 1)%Z.

#[export] Instance recent_dec now t : Decision (recent now t).
Proof. unfold recent. apply _. Defined.

Definition check_rate_limit peer now s : bool * PublicRoomSafety :=
  let rate := per_peer_message_rate (config s) in
  if not_positive rate then (true, s)
  else
    let max_per_window := ceil_usize rate in
    let times := peer_message_times s in
    if decide (times !! peer = None ∧ MAX_TRACKED_PEERS ≤ size times) then (false, s)
    else
      let peer_times := filter (recent now) (default [] (times !! peer)) in
      if decide (max_per_window ≤ N.of_nat (length peer_times))%N
      then (false, hit_rate peer (set_times (<[peer := peer_times]> times) s))
      else (true, set_times (<[peer := peer_times ++ [now]]> times) s).

(** ** Blob announcements *)

Definition check_blob_announcement peer now s : bool * PublicRoomSafety :=
  let limit := blob_announcement_limit (config s) in
  if decide (limit = 0)%N then (false, s)
  else
    let counts := peer_blob_count s in
    let starts := peer_blob_window_start s in
    if decide (starts !! peer = None ∧ MAX_TRACKED_PEERS ≤ size starts) then (false, s)
    else
      let reset := match starts !! peer with
                   | Some start => bool_decide (secs 60 ≤ Z.max 0 (now - start))%Z
                   | None => true
                   end in
      if reset then (true, set_blobs (<[peer := 1%N]> counts) (<[peer := now]> starts) s)
      else
        let count := default 0%N (counts !! peer) in
        if decide (limit ≤ count)%N
        then (false, reject_blob peer (set_blobs (<[peer := count]> counts) starts s))
        else (true, set_blobs (<[peer := (count + 1)%N]> counts) starts s).

(** ** Downloads *)

Definition try_acquire_download peer s : bool * PublicRoomSafety :=
  let limit := blob_download_limit (config s) in
  if decide (limit = 0)%N then (false, s)
  else
    let counts := peer_download_count s in
    if decide (counts !! peer = None ∧ MAX_TRACKED_PEERS ≤ size counts) then (false, s)
    else
      let count := default 0%N (counts !! peer) in
      if decide (limit ≤ count)%N
      then (false, reject_download peer (set_downloads (<[peer := count]> counts) s))
      else (true, set_downloads (<[peer := (count + 1)%N]> counts) s).

Definition release_download peer s : PublicRoomSafety :=
  match peer_download_count s !! peer with
  | Some count => set_downloads (<[peer := (count - 1)%N]> (peer_download_count s)) s
  | None => s
  end.

(** ** Backfill *)

Definition bound_backfill_request (requested : N) s : N :=
  N.min requested (backfill_request_limit (config s)).

Definition server_max_backfill s : N := backfill_request_limit (config s).

End safety.
Arguments PublicRoomSafety PublicKey {_ _}.
End public_room_safety.

(** ** The catalogue service *)

Module catalogue_rate_limits.
Import public_room_config.

Definition MAX_CONCURRENT_CATALOGUE_CONNECTIONS : N := 16.
Definition MAX_CATALOGUE_REQUESTS_PER_PEER : N := 32.
Definition CATALOGUE_RATE_LIMIT_WINDOW : Z := secs 10.
Definition MAX_CATALOGUE_RESPONSE_BYTES_PER_PEER : N := 16 * 1024 * 1024.
Definition MAX_INVALID_CATALOGUE_ATTEMPTS_PER_PEER : N := 3.

Record CatalogueRateConfig : Type := mkRateConfig {
  max_concurrent_connections : N;
  max_requests_per_peer : N;
  rate_limit_window : Z;
  max_response_bytes_per_peer : N;
  max_invalid_attempts_per_peer : N
}.

Definition rate_config_default : CatalogueRateConfig :=
  mkRateConfig 16 10 (secs 10) MAX_CATALOGUE_RESPONSE_BYTES_PER_PEER
    MAX_INVALID_CATALOGUE_ATTEMPTS_PER_PEER.

Inductive CatalogueAdmission : Type :=
| Allowed | RateLimited | ResponseBudgetExceeded | Blocked.

#[export] Instance catalogue_admission_eq_dec : EqDecision CatalogueAdmission.
Proof. solve_decision. Defined.

Record PeerAbuseWindow : Type := mkWindow {
  requests : list Z;
  responses : list (Z * N);
  invalid : list Z
}.

Definition empty_window : PeerAbuseWindow := mkWindow [] [] [].

Record PeerCatalogueAbuseLimiter : Type := mkLimiter {
  windows : gmap Text PeerAbuseWindow;
  max_requests : N;
  max_response_bytes : N;
  max_invalid_attempts : N;
  window_duration : Z
}.

Implicit Types (w : PeerAbuseWindow) (l : PeerCatalogueAbuseLimiter) (peer : Text) (now cutoff : Z).

(** [PeerCatalogueAbuseLimiter::new] *)
Definition new (c : CatalogueRateConfig) : PeerCatalogueAbuseLimiter :=
  mkLimiter ∅ (N.max (max_requests_per_peer c) 1) (N.max (max_response_bytes_per_peer c) 1)
    (N.max (max_invalid_attempts_per_peer c) 1) (rate_limit_window c).

Definition set_window peer w l : PeerCatalogueAbuseLimiter :=
  mkLimiter (<[peer := w]> (windows l)) (max_requests l) (max_response_bytes l)
    (max_invalid_attempts l) (window_duration l).

(** [while front.is_some_and(|t| *t < cutoff) { pop_front }] *)
Fixpoint pop_old {A} (at_ : A → Z) cutoff (q : list A) : list A :=
  match q with
  | x :: q' => if decide (at_ x < cutoff)%Z then pop_old at_ cutoff q' else q
  | [] => []
  end.

Definition purge cutoff w : PeerAbuseWindow :=
  mkWindow (pop_old (λ t, t) cutoff (requests w)) (pop_old fst cutoff (responses w))
    (pop_old (λ t, t) cutoff (invalid w)).

(** The window of a peer, purged. *)
Definition current peer now l : PeerAbuseWindow :=
  purge (now - window_duration l) (default empty_window (windows l !! peer)).

(** [len as u32 >= max]: the length is cut to 32 bits. *)
Definition as_u32 (n : nat) : N := (N.of_nat n mod (u32_max + 1))%N.

Definition response_bytes w : N := foldr (λ r acc, r.2 + acc)%N 0%N (responses w).

Definition admit_request peer now l : CatalogueAdmission * PeerCatalogueAbuseLimiter :=
  let w := current peer now l in
  if decide (max_invalid_attempts l ≤ as_u32 (length (invalid w)))%N
  then (Blocked, set_window peer w l)
  else if decide (max_response_bytes l ≤ response_bytes w)%N
  then (ResponseBudgetExceeded, set_window peer w l)
  else if decide (max_requests l ≤ as_u32 (length (requests w)))%N
  then (RateLimited, set_window peer w l)
  else (Allowed, set_window peer (mkWindow (requests w ++ [now]) (responses w) (invalid w)) l).

Definition record_response_bytes peer (bytes : N) now l : PeerCatalogueAbuseLimiter :=
  if decide (bytes = 0)%N then l
  else
    let w := current peer now l in
    set_window peer (mkWindow (requests w) (responses w ++ [(now, bytes)]) (invalid w)) l.

Definition record_invalid peer now l : bool * PeerCatalogueAbuseLimiter :=
  let w := current peer now l in
  let w := mkWindow (requests w) (responses w) (invalid w ++ [now]) in
  (bool_decide (as_u32 (length (invalid w)) ≤ max_invalid_attempts l)%N, set_window peer w l).

Definition reset_peer peer l : PeerCatalogueAbuseLimiter :=
  mkLimiter (delete peer (windows l)) (max_requests l) (max_response_bytes l)
    (max_invalid_attempts l) (window_duration l).

(** [CatalogueConcurrencyLimiter]: the permits left of the semaphore; a permit is given
    back when it is dropped. *)
Definition concurrency_new (max : N) : N := N.max max 1.
Definition try_acquire (permits : N) : bool * N :=
  if decide (permits = 0)%N then (false, permits) else (true, (permits - 1)%N).

(** [PeerCatalogueRateLimiter] *)
Record PeerCatalogueRateLimiter : Type := mkRate {
  rl_windows : gmap Text (list Z);
  rl_max_requests : N;
  rl_window_duration : Z
}.

Definition rate_new (max : N) (duration : Z) : PeerCatalogueRateLimiter :=
  mkRate ∅ (N.max max 1) duration.

Definition check_and_record peer now (r : PeerCatalogueRateLimiter)
    : bool * PeerCatalogueRateLimiter :=
  let entries := pop_old (λ t, t) (now - rl_window_duration r)
                   (default [] (rl_windows r !! peer)) in
  let put e := mkRate (<[peer := e]> (rl_windows r)) (rl_max_requests r) (rl_window_duration r) in
  if decide (rl_max_requests r ≤ as_u32 (length entries))%N then (false, put entries)
  else (true, put (entries ++ [now])).

Definition rate_reset_peer peer (r : PeerCatalogueRateLimiter) : PeerCatalogueRateLimiter :=
  mkRate (delete peer (rl_windows r)) (rl_max_requests r) (rl_window_duration r).

End catalogue_rate_limits.

(** ** Displayed text *)

Module abuse_controls.

Definition DEFAULT_MAX_DISPLAY_LENGTH : nat := N.to_nat 10000.
Definition DEFAULT_MAX_SINGLE_LINE_LENGTH : nat := 256.

Definition within (lo hi c : N) : bool := bool_decide (lo ≤ c)%N && bool_decide (c ≤ hi)%N.

Definition is_stripped_control (c : Char) : bool :=
  within 0 8 c || within 11 12 c || within 14 31 c || bool_decide (c = 127%N).

Definition is_stripped_control_strict (c : Char) : bool :=
  is_stripped_control c || within 9 13 c || bool_decide (c = 133%N).

(** U+200B, U+200C, U+200E, U+200F, U+2028 to U+202E, U+2060 to U+2064, U+FEFF, U+E0001 and
    U+E0020 to U+E007F *)
Definition is_stripped_unicode_format (c : Char) : bool :=
  bool_decide (c ∈ [0x200B; 0x200C; 0x200E; 0x200F; 0x2028; 0x2029; 0x202A; 0x202B; 0x202C;
                    0x202D; 0x202E; 0x2060; 0x2061; 0x2062; 0x2063; 0x2064; 0xFEFF;
                    0xE0001]%N)
  || within 0xE0020 0xE007F c.

Definition REPLACEMENT : Char := 0xFFFD.
Definition SPACE : Char := 0x20.

(** The loop of both functions: it ends when the result has [max_chars] characters. *)
Fixpoint sanitize_loop (bad : Char → bool) (instead : Char) (max_chars : nat)
    (result input : Text) : Text :=
  match input with
  | [] => result
  | c :: input' =>
      if decide (max_chars ≤ length result) then result
      else if is_stripped_unicode_format c
      then sanitize_loop bad instead max_chars result input'
      else sanitize_loop bad instead max_chars
             (result ++ [if bad c then instead else c]) input'
  end.

Fixpoint collapse (prev_space : bool) (t : Text) : Text :=
  match t with
  | [] => []
  | c :: t' =>
      if decide (c = SPACE) then if prev_space then collapse true t' else c :: collapse true t'
      else c :: collapse false t'
  end.

Section sanitize.
Context (nfc : Text → Text).

Definition sanitize_display_text (text : Text) (max_chars : nat) : Text :=
  sanitize_loop is_stripped_control REPLACEMENT max_chars [] (nfc text).

Definition sanitize_single_line_with_max (text : Text) (max_chars : nat) : Text :=
  collapse false (sanitize_loop is_stripped_control_strict SPACE max_chars [] (nfc text)).

Definition sanitize_single_line (text : Text) : Text :=
  sanitize_single_line_with_max text DEFAULT_MAX_SINGLE_LINE_LENGTH.

Definition sanitize_display (text : Text) : Text :=
  sanitize_display_text text DEFAULT_MAX_DISPLAY_LENGTH.

End sanitize.
End abuse_controls.
