(* ===== verification/RoomSafetyFacts.v ===== *)
(** * Correctness of the limits on untrusted peers

    Nicknames are cut between characters and fit the limit; no peer gets more messages or
    catalogue requests through than its limit allows in any window, and is refused only then;
    displayed text is free of control and format characters.  A full table of peers locks out
    every further peer, a rate that is not finite turns the message limit off, and a peer is
    blocked by the catalogue one malformed request earlier than it is told. *)

From Stdlib Require Import NArith ZArith QArith Qround.
From stdpp Require Import prelude gmap sorting strings.
From S2P Require Import Prelude Text Window RoomSafety.
Import public_room_config.

(** ** Nicknames *)

Module room.
Import public_room_safety.

Lemma floor_boundary_spec name n :
  ∃ p, prefix_bytes name (floor_boundary name n) = Some p ∧ p `prefix_of` name ∧
       text_len p ≤ n ∧ ∀ q, q `prefix_of` name → text_len q ≤ n → text_len q ≤ text_len p.
Proof.
  induction n as [|n IH].
  { exists []. simpl. rewrite prefix_bytes_0. split_and!; [done|apply prefix_nil|done|]. done. }
  cbn [floor_boundary]. destruct (is_char_boundary name (S n)) eqn:Hb.
  - apply is_char_boundary_true in Hb as (p & Hp & Hl). exists p.
    split_and!; [by apply prefix_bytes_Some|done|lia|]. intros q _ Hq. lia.
  - destruct IH as (p & Hs & Hp & Hl & Hm). exists p. split_and!; [done..|lia|].
    intros q Hq Hql. apply Hm; [done|].
    destruct (decide (text_len q = S n)) as [He|]; [|lia].
    assert (is_char_boundary name (S n) = true) by (apply is_char_boundary_true; eauto).
    congruence.
Qed.

Section safety.
Context {PublicKey : Type} `{Countable PublicKey}.
Abbreviation Safety := (PublicRoomSafety PublicKey).
Implicit Types (s : Safety) (peer : PublicKey) (now t : Z).

(** A nickname is never cut within a character: the result fits the limit, a name that
    fits is kept, and a longer one becomes its longest prefix of whole characters that
    leaves room for the ellipsis, followed by the ellipsis unless the limit has no room for
    it. *)
Theorem nickname_fits name s :
  let limit := nickname_length_limit (config s) in
  ∃ out, enforce_nickname name s = Done out ∧ text_len out ≤ limit ∧
    (text_len name ≤ limit → out = name) ∧
    (limit < text_len name →
     let tail := if decide (limit < 3) then [] else [ellipsis] in
     ∃ p, out = p ++ tail ∧ p `prefix_of` name ∧
       ∀ q, q `prefix_of` name → text_len (q ++ tail) ≤ limit → text_len q ≤ text_len p).
Proof.
  cbn zeta. unfold enforce_nickname. set (limit := nickname_length_limit (config s)).
  change (len_utf8 ellipsis) with 3. case_decide as Hf.
  { exists name. split_and!; [done..|lia]. }
  case_decide as Hs; unfold slice_to.
  - destruct (floor_boundary_spec name limit) as (p & -> & Hp & Hl & Hm).
    exists p. split_and!; [done..|lia|]. intros _. exists p. rewrite app_nil_r.
    split_and!; [done..|]. intros q Hq. rewrite app_nil_r. by apply Hm.
  - destruct (floor_boundary_spec name (limit - 3)) as (p & -> & Hp & Hl & Hm).
    assert (∀ q, text_len (q ++ [ellipsis]) = text_len q + 3) as He
      by (intros q; by rewrite text_len_app).
    exists (p ++ [ellipsis]). split_and!; [done|rewrite He; lia|lia|].
    intros _. exists p. split_and!; [done..|]. intros q Hq. rewrite He. intros Hql.
    apply Hm; [done|lia].
Qed.

(** ** Message rates *)

Definition rate_window : Z := secs 1.

Lemma recent_live now t : recent now t ↔ live rate_window false now t.
Proof. unfold recent, live, rate_window, secs. lia. Qed.

Lemma filter_recent now (l : list Z) :
  filter (recent now) l = filter (live rate_window false now) l.
Proof. apply list_filter_iff, recent_live. Qed.

(** Calls in order, each with its peer and instant; the messages let through. *)
Abbreviation calls := (list (PublicKey * Z)).

Fixpoint rate_run (cs : calls) s : calls * Safety :=
  match cs with
  | [] => ([], s)
  | (peer, now) :: cs' =>
      let '(ok, s1) := check_rate_limit peer now s in
      let '(out, s2) := rate_run cs' s1 in
      ((if ok : bool then [(peer, now)] else []) ++ out, s2)
  end.

Fixpoint chronological (t : Z) (cs : calls) : Prop :=
  match cs with
  | [] => True
  | (_, now) :: cs' => (t ≤ now)%Z ∧ chronological now cs'
  end.

(** The instants at which messages of a peer were let through. *)
Definition of_peer peer (h : calls) : list Z := (filter (λ c, c.1 = peer) h).*2.

Lemma of_peer_app peer h h' : of_peer peer (h ++ h') = of_peer peer h ++ of_peer peer h'.
Proof. unfold of_peer. by rewrite filter_app, fmap_app. Qed.

Lemma of_peer_one peer peer' now :
  of_peer peer [(peer', now)] = if decide (peer' = peer) then [now] else [].
Proof. unfold of_peer. rewrite filter_cons. cbn [fst]. by case_decide. Qed.

Definition limit_of s : nat := N.to_nat (ceil_usize (per_peer_message_rate (config s))).

Definition times_of peer s : list Z := default [] (peer_message_times s !! peer).

(** The logs of all peers follow what was let through. *)
Definition rate_inv now (h : calls) s : Prop :=
  ∀ peer, tracks rate_window false (limit_of s) now (of_peer peer h) (times_of peer s).

(** A check answers from the log of the peer, or from the number of peers. *)
Lemma check_rate_limit_cases peer now s :
  not_positive (per_peer_message_rate (config s)) = false →
  (peer_message_times s !! peer = None ∧ MAX_TRACKED_PEERS ≤ size (peer_message_times s) ∧
   check_rate_limit peer now s = (false, s)) ∨
  (¬ (peer_message_times s !! peer = None ∧ MAX_TRACKED_PEERS ≤ size (peer_message_times s)) ∧
   let '(ok, l) := log_check rate_window false (limit_of s) now (times_of peer s) in
   (check_rate_limit peer now s).1 = ok ∧
   config (check_rate_limit peer now s).2 = config s ∧
   peer_message_times (check_rate_limit peer now s).2 = <[peer := l]> (peer_message_times s)).
Proof.
  intros Hp. unfold check_rate_limit. rewrite Hp. case_decide as Hf; [left; naive_solver|right].
  split; [done|]. unfold log_check, limit_of, times_of. rewrite <- filter_recent.
  set (l := filter (recent now) _). repeat case_decide; simpl; split_and!; try done; lia.
Qed.

Lemma rate_inv_step peer now now0 h s :
  not_positive (per_peer_message_rate (config s)) = false →
  (now0 ≤ now)%Z → rate_inv now0 h s →
  let '(ok, s') := check_rate_limit peer now s in
  config s' = config s ∧ rate_inv now (h ++ if ok : bool then [(peer, now)] else []) s'.
Proof.
  intros Hp Hle Hi.
  assert (rate_inv now h s) as Hi'.
  { intros q. eapply tracks_later; [done|]. apply Hi. }
  destruct (check_rate_limit_cases peer now s Hp) as [(_ & _ & ->)|[_ Hc]].
  { split; [done|]. by rewrite app_nil_r. }
  pose proof (tracks_check _ _ _ _ _ _ (Hi' peer)) as Ht.
  destruct (log_check _ _ _ _ _) as [ok l]. destruct Ht as [_ Ht].
  destruct (check_rate_limit peer now s) as [ok' s']. simpl in Hc.
  destruct Hc as (-> & Hcfg & Htm). split; [done|]. intros q.
  unfold times_of, limit_of. rewrite Hcfg, Htm, of_peer_app. fold (limit_of s).
  destruct (decide (peer = q)) as [->|Hne].
  - rewrite lookup_insert_eq. simpl. destruct ok; [|by rewrite app_nil_r].
    by rewrite of_peer_one, decide_True.
  - rewrite lookup_insert_ne by done. fold (times_of q s).
    assert (of_peer q (if ok then [(peer, now)] else []) = []) as ->.
    { destruct ok; [|done]. by rewrite of_peer_one, decide_False. }
    rewrite app_nil_r. apply Hi'.
Qed.

Lemma rate_inv_run cs t h s now :
  not_positive (per_peer_message_rate (config s)) = false →
  rate_inv t h s → chronological t cs → Forall (λ c, (c.2 ≤ now)%Z) cs → (t ≤ now)%Z →
  config (rate_run cs s).2 = config s ∧ rate_inv now (h ++ (rate_run cs s).1) (rate_run cs s).2.
Proof.
  revert t h s. induction cs as [|[peer t1] cs IH]; intros t h s Hp Hi Hc Hb Hle; simpl.
  { split; [done|]. rewrite app_nil_r. intros q. eapply tracks_later; [done|]. apply Hi. }
  destruct Hc as [Hle1 Hc]. apply Forall_cons in Hb as [Hb1 Hb].
  pose proof (rate_inv_step peer t1 t h s Hp Hle1 Hi) as Hst.
  destruct (check_rate_limit peer t1 s) as [ok s1]. destruct Hst as [Hcfg Hi1].
  destruct (IH t1 (h ++ if ok then [(peer, t1)] else []) s1) as [Hcfg' Hi2];
    [by rewrite Hcfg|done..|].
  destruct (rate_run cs s1) as [out s2]. simpl in *. split; [congruence|].
  by rewrite app_assoc.
Qed.

Lemma last_call (cs : calls) t : ∃ now, (t ≤ now)%Z ∧ Forall (λ c, (c.2 ≤ now)%Z) cs.
Proof.
  induction cs as [|c cs (now & Hle & Hf)]; [by exists t|].
  exists (Z.max now c.2). split; [lia|]. constructor; [lia|].
  eapply Forall_impl; [exact Hf|]. simpl. lia.
Qed.

Lemma rate_inv_new c now : rate_inv now [] (new c : Safety).
Proof. intros peer. apply tracks_nil. Qed.

Definition sanitized_limit (c : PublicRoomConfig) : nat :=
  N.to_nat (ceil_usize (per_peer_message_rate (sanitize c))).

(** With a positive rate, whatever messages arrive from whichever peers, within no
    second more messages of one peer pass than the rate rounded up; and the next message of
    a peer passes exactly when fewer than that passed within the last second, unless the
    peer is unknown and the table of peers is full. *)
Theorem message_rate_enforced c cs t0 peer now :
  not_positive (per_peer_message_rate (sanitize c)) = false →
  chronological t0 cs → Forall (λ c, (c.2 ≤ now)%Z) cs → (t0 ≤ now)%Z →
  let '(passed, s) := rate_run cs (new c) in
  (∀ t, length (filter (λ x, (t ≤ x < t + secs 1)%Z) (of_peer peer passed))
        ≤ sanitized_limit c) ∧
  (¬ (peer_message_times s !! peer = None ∧ MAX_TRACKED_PEERS ≤ size (peer_message_times s)) →
   (check_rate_limit peer now s).1 =
   bool_decide (length (filter (λ x, (now - secs 1 < x)%Z) (of_peer peer passed))
                < sanitized_limit c)).
Proof.
  intros Hp Hc Hb Hle.
  destruct (rate_inv_run cs t0 [] (new c) now) as [Hcfg Hi]; [done|apply rate_inv_new|done..|].
  destruct (rate_run cs (new c)) as [passed s]. simpl in Hcfg, Hi.
  assert (limit_of s = sanitized_limit c) as Hlim by (unfold limit_of; by rewrite Hcfg).
  specialize (Hi peer). rewrite Hlim in Hi. split.
  - exact (tracks_span _ _ _ _ _ _ Hi).
  - intros Hroom. destruct (check_rate_limit_cases peer now s) as [(? & ? & _)|[_ Hck]];
      [by rewrite Hcfg|tauto|].
    rewrite Hlim in Hck. pose proof (tracks_check _ _ _ _ _ _ Hi) as Ht.
    destruct (log_check _ _ _ _ _) as [ok l]. destruct Ht as [-> _].
    destruct Hck as [-> _]. done.
Qed.

(** Once the table of peers is full, a peer that is not in it never gets a message
    through again, however long it waits and whatever the others do. *)
Theorem full_table_locks_out cs s peer :
  not_positive (per_peer_message_rate (config s)) = false →
  peer_message_times s !! peer = None → MAX_TRACKED_PEERS ≤ size (peer_message_times s) →
  of_peer peer (rate_run cs s).1 = [] ∧
  peer_message_times (rate_run cs s).2 !! peer = None.
Proof.
  revert s. induction cs as [|[q now] cs IH]; intros s Hp Hnone Hfull; [done|]. simpl.
  destruct (check_rate_limit_cases q now s Hp) as [(_ & _ & ->)|[Hroom Hck]].
  - specialize (IH s Hp Hnone Hfull). by destruct (rate_run cs s).
  - destruct (log_check _ _ _ _ _) as [ok l].
    assert (q ≠ peer) as Hne by (intros ->; tauto).
    destruct (check_rate_limit q now s) as [ok' s'] eqn:Hs. simpl in Hck.
    destruct Hck as (-> & Hcfg & Htm). specialize (IH s').
    destruct (rate_run cs s') as [out s2]. simpl in *. rewrite Hcfg, Htm in IH.
    rewrite lookup_insert_ne in IH by done. destruct IH as [IH1 IH2]; [done..| |].
    { etransitivity; [done|]. rewrite map_size_insert. destruct (peer_message_times s !! q); simpl; lia. }
    split; [|done]. rewrite of_peer_app, IH1, app_nil_r.
    destruct ok; [|done]. by rewrite of_peer_one, decide_False.
Qed.

(** A configured rate that is infinite or not a number turns the limit off: every message
    of every peer passes. *)
Theorem unbounded_rate_disables_limit c cs :
  is_finite (per_peer_message_rate c) = false → (rate_run cs (new c : Safety)).1 = cs.
Proof.
  intros Hf. assert (∀ s : Safety, config s = sanitize c → (rate_run cs s).1 = cs) as Hall.
  { induction cs as [|[q now] cs IH]; intros s Hs; [done|]. simpl. unfold check_rate_limit.
    rewrite Hs. unfold sanitize. simpl.
    assert (not_positive (match per_peer_message_rate c with
      | Finite q0 => Finite (clampQ 0 1000 q0) | _ => Finite 0 end) = true) as ->
      by (destruct (per_peer_message_rate c); done).
    specialize (IH s Hs). destruct (rate_run cs s). simpl in *. by rewrite IH. }
  by apply Hall.
Qed.

(** ** Downloads *)

Inductive DownloadOp : Type := Acquire (peer : PublicKey) | Release (peer : PublicKey).

Definition download_step s (o : DownloadOp) : Safety :=
  match o with
  | Acquire peer => (try_acquire_download peer s).2
  | Release peer => release_download peer s
  end.

Definition held peer s : N := default 0%N (peer_download_count s !! peer).

Lemma try_acquire_cases peer s :
  let limit := blob_download_limit (config s) in
  (try_acquire_download peer s).1 =
    bool_decide ((held peer s < limit)%N ∧
      ¬ (peer_download_count s !! peer = None ∧ MAX_TRACKED_PEERS ≤ size (peer_download_count s))) ∧
  config (try_acquire_download peer s).2 = config s ∧
  ∀ q, held q (try_acquire_download peer s).2 =
    if decide (q = peer ∧ (try_acquire_download peer s).1 = true)
    then (held peer s + 1)%N else held q s.
Proof.
  cbn zeta. unfold try_acquire_download, held.
  case_decide as H0; [|case_decide as Hf; [|case_decide as Hl]]; simpl.
  - rewrite bool_decide_false by (intros [? _]; lia). split_and!; [done..|]. intros q.
    by rewrite decide_False by (intros [_ ?]; done).
  - rewrite bool_decide_false by tauto. split_and!; [done..|]. intros q.
    by rewrite decide_False by (intros [_ ?]; done).
  - rewrite bool_decide_false by (intros [? _]; lia). split_and!; [done..|]. intros q.
    rewrite decide_False by (intros [_ ?]; done). destruct (decide (q = peer)) as [->|];
      [by rewrite lookup_insert_eq|by rewrite lookup_insert_ne].
  - rewrite bool_decide_true by (split; [lia|done]). split_and!; [done..|]. intros q.
    destruct (decide (q = peer)) as [->|]; [by rewrite lookup_insert_eq, decide_True|].
    by rewrite lookup_insert_ne, decide_False by naive_solver.
Qed.

Lemma release_cases peer s :
  config (release_download peer s) = config s ∧
  ∀ q, held q (release_download peer s) = if decide (q = peer) then (held q s - 1)%N else held q s.
Proof.
  unfold release_download, held. destruct (peer_download_count s !! peer) as [n|] eqn:Hn; simpl;
    (split; [done|]); intros q; case_decide as Hq; subst.
  - by rewrite lookup_insert_eq, Hn.
  - by rewrite lookup_insert_ne.
  - by rewrite Hn.
  - done.
Qed.

(** After any operations no peer holds more download slots than the limit; a slot is
    given exactly when the peer holds fewer (and is known, or there is room for one more
    peer), and taking or giving back a slot changes the count of that peer alone, by one. *)
Theorem downloads_bounded c ops peer :
  let s := foldl download_step (new c : Safety) ops in
  let limit := blob_download_limit c in
  (held peer s ≤ limit)%N ∧
  (try_acquire_download peer s).1 =
    bool_decide ((held peer s < limit)%N ∧
      ¬ (peer_download_count s !! peer = None ∧ MAX_TRACKED_PEERS ≤ size (peer_download_count s))) ∧
  (∀ q, held q (try_acquire_download peer s).2 =
     if decide (q = peer ∧ (try_acquire_download peer s).1 = true)
     then (held peer s + 1)%N else held q s) ∧
  (∀ q, held q (release_download peer s) =
     if decide (q = peer) then (held q s - 1)%N else held q s).
Proof.
  cbn zeta. set (s := foldl _ _ _).
  assert (blob_download_limit (config s) = blob_download_limit c ∧
          ∀ q, (held q s ≤ blob_download_limit c)%N) as [Hl Hh].
  { unfold s. clear. induction ops as [|o ops [IHl IHh]] using rev_ind.
    { split; [done|]. intros q. unfold held. simpl. rewrite lookup_empty. simpl. lia. }
    rewrite foldl_app. cbn [foldl]. set (s := foldl _ _ ops) in *. destruct o as [p|p]; cbn [download_step].
    - destruct (try_acquire_cases p s) as (Ha & -> & Hq). split; [done|]. intros q.
      rewrite Hq. specialize (IHh q). destruct (decide (q = p ∧ _)) as [[-> Hd]|]; [|done].
      rewrite Hd in Ha. symmetry in Ha. apply bool_decide_eq_true in Ha. lia.
    - destruct (release_cases p s) as [-> Hq]. split; [done|]. intros q.
      rewrite Hq. specialize (IHh q). case_decide; lia. }
  destruct (try_acquire_cases peer s) as (Ha & _ & Hq). rewrite Hl in Ha.
  split_and!; [apply Hh|done|done|]. apply release_cases.
Qed.

End safety.
End room.

(** ** The catalogue service *)

Module catalogue.
Import catalogue_rate_limits.

Implicit Types (l : PeerCatalogueAbuseLimiter) (peer : Text) (now t : Z).

Lemma pop_old_filter {A} (at_ : A → Z) cutoff (q : list A) :
  StronglySorted (λ x y, (at_ x ≤ at_ y)%Z) q →
  pop_old at_ cutoff q = filter (λ x, (cutoff ≤ at_ x)%Z) q.
Proof.
  induction 1 as [|x q Hs IH Hx]; simpl; [done|]. rewrite filter_cons.
  repeat case_decide; try lia; [done|]. f_equal. symmetry. apply filter_all.
  intros y Hy. rewrite Forall_forall in Hx. apply Hx in Hy. lia.
Qed.

(** The simple rate limiter is a log as long as its instants do not decrease. *)
Lemma check_and_record_log peer now (r : PeerCatalogueRateLimiter) :
  let entries := default [] (rl_windows r !! peer) in
  StronglySorted (λ x y, (x ≤ y)%Z) entries → length entries < N.to_nat u32_max →
  (check_and_record peer now r).1 =
  (log_check (rl_window_duration r) true (N.to_nat (rl_max_requests r)) now entries).1.
Proof.
  cbn zeta. intros Hs Hl. unfold check_and_record, log_check.
  rewrite (pop_old_filter (λ t, t)) by done.
  change (filter (λ x, (now - rl_window_duration r ≤ x)%Z) ?q)
    with (filter (live (rl_window_duration r) true now) q).
  set (q := filter _ _).
  assert (length q ≤ length (default [] (rl_windows r !! peer))) as Hq by apply length_filter.
  assert (as_u32 (length q) = N.of_nat (length q)) as ->.
  { unfold as_u32. apply N.mod_small. lia. }
  repeat case_decide; try done; lia.
Qed.

Inductive Call : Type :=
| CRequest (peer : Text)
| CBytes (peer : Text) (bytes : N)
| CInvalid (peer : Text).

Inductive Event : Type :=
| EAllowed (peer : Text) (t : Z)
| EBytes (peer : Text) (t : Z) (bytes : N)
| EInvalid (peer : Text) (t : Z).

(** One call with the event it leaves in the history. *)
Definition cat_step now (c : Call) l : list Event * PeerCatalogueAbuseLimiter :=
  match c with
  | CRequest peer =>
      let '(a, l') := admit_request peer now l in
      (if decide (a = Allowed) then [EAllowed peer now] else [], l')
  | CBytes peer bytes =>
      (if decide (bytes = 0)%N then [] else [EBytes peer now bytes],
       record_response_bytes peer bytes now l)
  | CInvalid peer => ([EInvalid peer now], (record_invalid peer now l).2)
  end.

Fixpoint cat_run (cs : list (Z * Call)) l : list Event * PeerCatalogueAbuseLimiter :=
  match cs with
  | [] => ([], l)
  | (now, c) :: cs' =>
      let '(h1, l1) := cat_step now c l in
      let '(h2, l2) := cat_run cs' l1 in (h1 ++ h2, l2)
  end.

Fixpoint cat_chronological t (cs : list (Z * Call)) : Prop :=
  match cs with
  | [] => True
  | (now, _) :: cs' => (t ≤ now)%Z ∧ cat_chronological now cs'
  end.

Definition allowed peer (h : list Event) : list Z :=
  omap (λ e, match e with
             | EAllowed q t => if decide (q = peer) then Some t else None
             | _ => None
             end) h.

Definition invalids peer (h : list Event) : list Z :=
  omap (λ e, match e with
             | EInvalid q t => if decide (q = peer) then Some t else None
             | _ => None
             end) h.

Definition served peer (h : list Event) : list (Z * N) :=
  omap (λ e, match e with
             | EBytes q t n => if decide (q = peer) then Some (t, n) else None
             | _ => None
             end) h.

(** What the complete history says about a request. *)
Definition decision l (h : list Event) peer now : CatalogueAdmission :=
  let in_window t := bool_decide (now - window_duration l ≤ t)%Z in
  if decide (max_invalid_attempts l ≤
             N.of_nat (length (filter (λ t, in_window t = true) (invalids peer h))))%N
  then Blocked
  else if decide (max_response_bytes l ≤
             foldr (λ r acc, r.2 + acc)%N 0%N
               (filter (λ r, in_window r.1 = true) (served peer h)))%N
  then ResponseBudgetExceeded
  else if decide (max_requests l ≤
             N.of_nat (length (filter (λ t, in_window t = true) (allowed peer h))))%N
  then RateLimited
  else Allowed.

Definition window_of peer l : PeerAbuseWindow := default empty_window (windows l !! peer).

(** The limits of the limiter. *)
Definition same_limits l l' : Prop :=
  max_requests l' = max_requests l ∧ max_response_bytes l' = max_response_bytes l ∧
  max_invalid_attempts l' = max_invalid_attempts l ∧ window_duration l' = window_duration l.

Record cat_inv now (h : list Event) l : Prop := mkCatInv {
  ci_requests peer : mirrors (window_duration l) true (λ t, t) now (allowed peer h)
                       (requests (window_of peer l));
  ci_responses peer : mirrors (window_duration l) true fst now (served peer h)
                        (responses (window_of peer l));
  ci_invalid peer : mirrors (window_duration l) true (λ t, t) now (invalids peer h)
                      (invalid (window_of peer l));
  ci_span peer t : length (filter (in_span (window_duration l) true t) (allowed peer h))
                   ≤ N.to_nat (max_requests l);
  ci_past peer : Forall (λ x, (x ≤ now)%Z) (allowed peer h)
}.

Lemma cat_inv_later now now' h l : (now ≤ now')%Z → cat_inv now h l → cat_inv now' h l.
Proof.
  intros Hle [H1 H2 H3 H4 H5]. split; try done; try (intros peer; by eapply mirrors_later).
  intros peer. eapply Forall_impl; [apply H5|]. simpl. lia.
Qed.

(** The purged window of a peer is the live part of the history. *)
Lemma current_live now h l peer :
  cat_inv now h l →
  current peer now l =
  mkWindow (filter (λ x, live (window_duration l) true now x) (allowed peer h))
    (filter (λ r, live (window_duration l) true now r.1) (served peer h))
    (filter (λ x, live (window_duration l) true now x) (invalids peer h)).
Proof.
  intros [H1 H2 H3 _ _]. unfold current, purge. fold (window_of peer l).
  rewrite !pop_old_filter by (eapply mirrors_sorted; eauto).
  f_equal; [exact (mirrors_live _ _ _ _ _ _ (H1 peer))|exact (mirrors_live _ _ _ _ _ _ (H2 peer))
    |exact (mirrors_live _ _ _ _ _ _ (H3 peer))].
Qed.

Lemma as_u32_small n : (N.of_nat n ≤ u32_max)%N → as_u32 n = N.of_nat n.
Proof. intros Hn. unfold as_u32. apply N.mod_small. lia. Qed.

Lemma length_omap {A B} (f : A → option B) (k : list A) : length (omap f k) ≤ length k.
Proof.
  induction k as [|x k IH]; simpl; [done|]. unfold omap in IH. destruct (f x); simpl; lia.
Qed.

(** The events of a call are about one peer. *)
Definition about peer (e : Event) : Prop :=
  match e with
  | EAllowed q _ | EBytes q _ _ | EInvalid q _ => q = peer
  end.

Lemma about_other peer q (h : list Event) :
  q ≠ peer → Forall (about peer) h → allowed q h = [] ∧ served q h = [] ∧ invalids q h = [].
Proof.
  intros Hne. induction 1 as [|e h He _ (IH1 & IH2 & IH3)]; [done|].
  unfold allowed, served, invalids in *. simpl.
  destruct e as [r t|r t n|r t]; simpl in He; subst; rewrite ?decide_False by done; done.
Qed.

(** Replacing the window of a peer, when its queues follow the extended history. *)
Lemma cat_inv_put now h h' l peer w :
  cat_inv now h l → Forall (about peer) h' →
  mirrors (window_duration l) true (λ t, t) now (allowed peer (h ++ h')) (requests w) →
  mirrors (window_duration l) true fst now (served peer (h ++ h')) (responses w) →
  mirrors (window_duration l) true (λ t, t) now (invalids peer (h ++ h')) (invalid w) →
  (∀ t, length (filter (in_span (window_duration l) true t) (allowed peer (h ++ h')))
        ≤ N.to_nat (max_requests l)) →
  Forall (λ x, (x ≤ now)%Z) (allowed peer (h ++ h')) →
  cat_inv now (h ++ h') (set_window peer w l).
Proof.
  intros [C1 C2 C3 C4 C5] Ha M1 M2 M3 Hs Hp.
  assert (∀ q, q ≠ peer → allowed q (h ++ h') = allowed q h ∧ served q (h ++ h') = served q h ∧
            invalids q (h ++ h') = invalids q h ∧ window_of q (set_window peer w l) = window_of q l)
    as Hother.
  { intros q Hq. destruct (about_other peer q h' Hq Ha) as (E1 & E2 & E3).
    unfold allowed, served, invalids in *. rewrite !omap_app, E1, E2, E3, !app_nil_r.
    split_and!; [done..|]. unfold window_of, set_window. simpl. by rewrite lookup_insert_ne. }
  assert (window_of peer (set_window peer w l) = w) as Hw
    by (unfold window_of, set_window; simpl; by rewrite lookup_insert_eq).
  split; cbn [window_duration max_requests set_window]; intros q;
    destruct (decide (q = peer)) as [->|Hq]; rewrite ?Hw; try done;
    destruct (Hother q Hq) as (E1 & E2 & E3 & E4); rewrite ?E1, ?E2, ?E3, ?E4; auto.
Qed.

Section step.
Context (now : Z) (h : list Event) (l : PeerCatalogueAbuseLimiter) (Hi : cat_inv now h l).

Lemma purged_requests peer :
  mirrors (window_duration l) true (λ t, t) now (allowed peer h) (requests (current peer now l)).
Proof. rewrite (current_live _ h) by done. eapply mirrors_purge, ci_requests, Hi. Qed.

Lemma purged_responses peer :
  mirrors (window_duration l) true fst now (served peer h) (responses (current peer now l)).
Proof. rewrite (current_live _ h) by done. eapply mirrors_purge, ci_responses, Hi. Qed.

Lemma purged_invalid peer :
  mirrors (window_duration l) true (λ t, t) now (invalids peer h) (invalid (current peer now l)).
Proof. rewrite (current_live _ h) by done. eapply mirrors_purge, ci_invalid, Hi. Qed.

(** A request is answered from the complete history. *)
Lemma admit_request_decision peer :
  (N.of_nat (length h) ≤ u32_max)%N → (admit_request peer now l).1 = decision l h peer now.
Proof.
  intros Hl. unfold admit_request, decision. rewrite (current_live _ h) by done.
  cbn [requests responses invalid].
  assert (∀ k : list Z, length k ≤ length h →
    as_u32 (length (filter (λ x, live (window_duration l) true now x) k)) =
    N.of_nat (length (filter (λ t, bool_decide (now - window_duration l ≤ t)%Z = true) k))) as Hlen.
  { intros k Hk. rewrite as_u32_small.
    - do 2 f_equal. apply list_filter_iff. intros t. by rewrite bool_decide_eq_true.
    - pose proof (length_filter (λ x, live (window_duration l) true now x) k). lia. }
  rewrite !Hlen by apply length_omap. unfold response_bytes. cbn [responses].
  assert (filter (λ r : Z * N, live (window_duration l) true now r.1) (served peer h) =
    filter (λ r, bool_decide (now - window_duration l ≤ r.1)%Z = true) (served peer h)) as ->.
  { apply list_filter_iff. intros r. by rewrite bool_decide_eq_true. }
  repeat case_decide; done.
Qed.

End step.

Lemma cat_app peer (h h' : list Event) :
  allowed peer (h ++ h') = allowed peer h ++ allowed peer h' ∧
  served peer (h ++ h') = served peer h ++ served peer h' ∧
  invalids peer (h ++ h') = invalids peer h ++ invalids peer h'.
Proof. unfold allowed, served, invalids. by rewrite !omap_app. Qed.

Lemma current_room now h l peer :
  cat_inv now h l → (N.of_nat (length h) ≤ u32_max)%N → decision l h peer now = Allowed →
  length (filter (live (window_duration l) true now) (allowed peer h)) < N.to_nat (max_requests l).
Proof.
  intros Hi Hl Hd. unfold decision in Hd. repeat case_decide; try done.
  assert (filter (live (window_duration l) true now) (allowed peer h) =
    filter (λ t, bool_decide (now - window_duration l ≤ t)%Z = true) (allowed peer h)) as ->.
  { apply list_filter_iff. intros t. by rewrite bool_decide_eq_true. }
  lia.
Qed.

Lemma one_event peer now bytes :
  (allowed peer [EAllowed peer now] = [now] ∧ served peer [EAllowed peer now] = [] ∧
   invalids peer [EAllowed peer now] = []) ∧
  (allowed peer [EBytes peer now bytes] = [] ∧ served peer [EBytes peer now bytes] = [(now, bytes)] ∧
   invalids peer [EBytes peer now bytes] = []) ∧
  (allowed peer [EInvalid peer now] = [] ∧ served peer [EInvalid peer now] = [] ∧
   invalids peer [EInvalid peer now] = [now]).
Proof. unfold allowed, served, invalids. simpl. by rewrite !decide_True. Qed.

Section updates.
Context (now : Z) (h : list Event) (l : PeerCatalogueAbuseLimiter) (Hi : cat_inv now h l)
  (peer : Text).
Abbreviation cur := (current peer now l).

Lemma cat_inv_quiet : cat_inv now h (set_window peer cur l).
Proof.
  rewrite <- (app_nil_r h). apply cat_inv_put; rewrite ?app_nil_r; [done|constructor|..];
    [by apply purged_requests|by apply purged_responses|by apply purged_invalid| |];
    [intros t; eapply ci_span, Hi|eapply ci_past, Hi].
Qed.

Lemma cat_inv_allowed :
  length (filter (live (window_duration l) true now) (allowed peer h)) < N.to_nat (max_requests l) →
  cat_inv now (h ++ [EAllowed peer now])
    (set_window peer (mkWindow (requests cur ++ [now]) (responses cur) (invalid cur)) l).
Proof.
  intros Hroom. destruct (one_event peer now 0) as [(O1 & O2 & O3) _].
  destruct (cat_app peer h [EAllowed peer now]) as (E1 & E2 & E3).
  rewrite O1 in E1. rewrite O2, app_nil_r in E2. rewrite O3, app_nil_r in E3.
  apply cat_inv_put; rewrite ?E1, ?E2, ?E3; [done|by repeat constructor|..].
  - apply mirrors_push; [done|]. by apply purged_requests.
  - by apply purged_responses.
  - by apply purged_invalid.
  - apply tracks_push; [eapply ci_past, Hi|intros t; eapply ci_span, Hi|done].
  - apply Forall_app. split; [eapply ci_past, Hi|]. by apply Forall_singleton.
Qed.

Lemma cat_inv_served bytes :
  cat_inv now (h ++ [EBytes peer now bytes])
    (set_window peer (mkWindow (requests cur) (responses cur ++ [(now, bytes)]) (invalid cur)) l).
Proof.
  destruct (one_event peer now bytes) as [_ [(O1 & O2 & O3) _]].
  destruct (cat_app peer h [EBytes peer now bytes]) as (E1 & E2 & E3).
  rewrite O1, app_nil_r in E1. rewrite O2 in E2. rewrite O3, app_nil_r in E3.
  apply cat_inv_put; rewrite ?E1, ?E2, ?E3; [done|by repeat constructor|..].
  - by apply purged_requests.
  - apply mirrors_push; [done|]. by apply purged_responses.
  - by apply purged_invalid.
  - intros t. eapply ci_span, Hi.
  - eapply ci_past, Hi.
Qed.

Lemma cat_inv_malformed :
  cat_inv now (h ++ [EInvalid peer now])
    (set_window peer (mkWindow (requests cur) (responses cur) (invalid cur ++ [now])) l).
Proof.
  destruct (one_event peer now 0) as [_ [_ (O1 & O2 & O3)]].
  destruct (cat_app peer h [EInvalid peer now]) as (E1 & E2 & E3).
  rewrite O1, app_nil_r in E1. rewrite O2, app_nil_r in E2. rewrite O3 in E3.
  apply cat_inv_put; rewrite ?E1, ?E2, ?E3; [done|by repeat constructor|..].
  - by apply purged_requests.
  - by apply purged_responses.
  - apply mirrors_push; [done|]. by apply purged_invalid.
  - intros t. eapply ci_span, Hi.
  - eapply ci_past, Hi.
Qed.

End updates.

Lemma cat_inv_step now c l h :
  cat_inv now h l → (N.of_nat (length h) ≤ u32_max)%N →
  let '(h', l') := cat_step now c l in
  same_limits l l' ∧ cat_inv now (h ++ h') l' ∧ length h' ≤ 1.
Proof.
  intros Hi Hl. destruct c as [peer|peer bytes|peer]; cbn [cat_step].
  - pose proof (admit_request_decision now h l Hi peer Hl) as Hd.
    pose proof (current_room now h l peer Hi Hl) as Hroom. rewrite <- Hd in Hroom. clear Hd.
    unfold admit_request in *. repeat case_decide; simpl in *; try done; (split; [done|]);
      (split; [|lia]); try (rewrite app_nil_r; by apply cat_inv_quiet).
    apply cat_inv_allowed; auto.
  - unfold record_response_bytes. case_decide; simpl; [rewrite app_nil_r|]; (split; [done|]);
      (split; [|lia]); [done|]. by apply cat_inv_served.
  - simpl. split; [done|]. split; [|lia]. by apply cat_inv_malformed.
Qed.

Lemma cat_inv_run cs t h l now :
  cat_inv t h l → cat_chronological t cs → Forall (λ c, (c.1 ≤ now)%Z) cs → (t ≤ now)%Z →
  (N.of_nat (length h + length cs) ≤ u32_max)%N →
  let '(h', l') := cat_run cs l in
  same_limits l l' ∧ cat_inv now (h ++ h') l' ∧ length h' ≤ length cs.
Proof.
  revert t h l. induction cs as [|[t1 c] cs IH]; intros t h l Hi Hc Hb Hle Hn; simpl.
  { rewrite app_nil_r. split; [done|]. split; [by eapply cat_inv_later|lia]. }
  destruct Hc as [Hle1 Hc]. apply Forall_cons in Hb as [Hb1 Hb]. simpl in Hb1, Hn.
  pose proof (cat_inv_step t1 c l h (cat_inv_later _ _ _ _ Hle1 Hi)) as Hst.
  destruct (cat_step t1 c l) as [h1 l1]. destruct Hst as (HL1 & Hi1 & Hlen1); [lia|].
  specialize (IH t1 (h ++ h1) l1 Hi1 Hc Hb). rewrite length_app in IH.
  destruct (cat_run cs l1) as [h2 l2]. destruct IH as (HL2 & Hi2 & Hlen2); [lia..|].
  rewrite <- app_assoc in Hi2. rewrite length_app.
  split; [|split; [done|lia]]. unfold same_limits in *. intuition congruence.
Qed.

Lemma cat_inv_new c now : cat_inv now [] (new c).
Proof.
  split; intros peer; [apply mirrors_nil..| |constructor]. intros t. simpl. lia.
Qed.

(** However requests, responses and malformed requests of peers follow each other, the
    limiter answers a request as the complete history does: blocked when too many malformed
    requests, then out of budget when too many response bytes, then rate limited when too
    many admitted requests of this peer lie within the window before now; and in no window
    more requests of a peer are admitted than the configuration says (at least one). *)
Theorem catalogue_admission_exact c cs t0 peer now :
  cat_chronological t0 cs → Forall (λ c, (c.1 ≤ now)%Z) cs → (t0 ≤ now)%Z →
  (N.of_nat (length cs) ≤ u32_max)%N →
  let '(h, l) := cat_run cs (new c) in
  (admit_request peer now l).1 = decision (new c) h peer now ∧
  ∀ t, length (filter (λ x, (t ≤ x ≤ t + rate_limit_window c)%Z) (allowed peer h))
       ≤ N.to_nat (N.max (max_requests_per_peer c) 1).
Proof.
  intros Hc Hb Hle Hn.
  pose proof (cat_inv_run cs t0 [] (new c) now (cat_inv_new c t0) Hc Hb Hle Hn) as Hr.
  destruct (cat_run cs (new c)) as [h l]. destruct Hr as ((HL1 & HL2 & HL3 & HL4) & Hi & Hlen).
  simpl in Hi. split.
  - rewrite (admit_request_decision now h) by (done || lia). unfold decision.
    by rewrite HL1, HL2, HL3, HL4.
  - intros t. pose proof (ci_span _ _ _ Hi peer t) as Hs. rewrite HL4, HL1 in Hs. exact Hs.
Qed.

Lemma pop_old_replicate cutoff now k :
  (cutoff ≤ now)%Z → pop_old (λ t, t) cutoff (replicate k now) = replicate k now.
Proof. intros Hle. destruct k; simpl; [done|]. by rewrite decide_False by lia. Qed.

(** The limiter after [k] malformed requests of a peer at one instant. *)
Definition after_malformed (k : nat) c peer now : PeerCatalogueAbuseLimiter :=
  Nat.iter k (λ l, (record_invalid peer now l).2) (new c).

Lemma after_malformed_spec k c peer now :
  (0 ≤ rate_limit_window c)%Z →
  same_limits (new c) (after_malformed k c peer now) ∧
  window_of peer (after_malformed k c peer now) = mkWindow [] [] (replicate k now).
Proof.
  intros Hw. induction k as [|k [(H1 & H2 & H3 & H4) IH]]; [done|].
  change (after_malformed (S k) c peer now)
    with (record_invalid peer now (after_malformed k c peer now)).2.
  set (l := after_malformed k c peer now) in *. split; [done|].
  unfold window_of, record_invalid. simpl. rewrite lookup_insert_eq. simpl.
  unfold current. fold (window_of peer l). rewrite IH, H4. simpl.
  rewrite pop_old_replicate by lia. by rewrite <- replicate_cons_app.
Qed.

(** The malformed request that uses up the budget is answered as if the peer remained
    unblocked, although the next request of that peer, at any time within the window, is
    refused as blocked. *)
Theorem blocked_one_attempt_early c k peer now now' :
  max_invalid_attempts_per_peer c = N.of_nat (S k) → (N.of_nat (S k) ≤ u32_max)%N →
  (now ≤ now' ≤ now + rate_limit_window c)%Z →
  let '(remains_unblocked, l) := record_invalid peer now (after_malformed k c peer now) in
  remains_unblocked = true ∧ (admit_request peer now' l).1 = Blocked.
Proof.
  intros Hk Hmax Hle. pose proof (as_u32_small _ Hmax) as Hu.
  destruct (after_malformed_spec k c peer now) as [(_ & _ & HL & HD) Hw]; [lia|].
  destruct (after_malformed_spec (S k) c peer now) as [(_ & _ & HL' & HD') Hw']; [lia|].
  assert (max_invalid_attempts (new c) = N.of_nat (S k)) as Hm by (simpl; lia).
  destruct (record_invalid peer now (after_malformed k c peer now)) as [b l] eqn:Hr.
  assert (l = after_malformed (S k) c peer now) as ->.
  { change l with (b, l).2. by rewrite <- Hr. }
  split.
  - change b with (b, after_malformed (S k) c peer now).1. rewrite <- Hr.
    unfold record_invalid, current. cbn [fst]. fold (window_of peer (after_malformed k c peer now)).
    rewrite Hw, HD, HL, Hm. simpl. rewrite pop_old_replicate by lia.
    rewrite length_app, length_replicate, Nat.add_1_r, Hu. by apply bool_decide_eq_true.
  - unfold admit_request, current. fold (window_of peer (after_malformed (S k) c peer now)).
    rewrite Hw', HD', HL', Hm. unfold purge. cbn [invalid]. simpl window_duration.
    rewrite pop_old_replicate by lia. rewrite length_replicate, Hu. by rewrite decide_True.
Qed.

End catalogue.

(** ** Displayed text *)

Module display.
Import abuse_controls.

(** What one pass keeps of a text. *)
Definition cleaned (bad : Char → bool) (instead : Char) (t : Text) : Text :=
  (λ c, if bad c then instead else c) <$> filter (λ c, is_stripped_unicode_format c = false) t.

Lemma cleaned_cons bad instead c t :
  cleaned bad instead (c :: t) =
  if is_stripped_unicode_format c then cleaned bad instead t
  else (if bad c then instead else c) :: cleaned bad instead t.
Proof.
  unfold cleaned. rewrite filter_cons. by destruct (is_stripped_unicode_format c).
Qed.

(** The loop that counts the characters of the result is a cut of the cleaned text. *)
Lemma sanitize_loop_exact bad instead max result input :
  sanitize_loop bad instead max result input =
  result ++ take (max - length result) (cleaned bad instead input).
Proof.
  revert result. induction input as [|c input IH]; intros result; simpl.
  { unfold cleaned. simpl. by rewrite take_nil, app_nil_r. }
  case_decide as Hm.
  { replace (max - length result) with 0 by lia. by rewrite take_0, app_nil_r. }
  rewrite cleaned_cons. destruct (is_stripped_unicode_format c); [apply IH|].
  rewrite IH, length_app. simpl.
  replace (max - length result) with (S (max - (length result + 1))) by lia.
  by rewrite <- app_assoc.
Qed.

Lemma cleaned_chars bad instead t c :
  bad instead = false → is_stripped_unicode_format instead = false →
  c ∈ cleaned bad instead t → bad c = false ∧ is_stripped_unicode_format c = false.
Proof.
  intros Hb Hf (c' & -> & [Hc _]%list_elem_of_filter)%list_elem_of_fmap.
  destruct (bad c') eqn:Hb'; done.
Qed.

Lemma elem_of_collapse b t c : c ∈ collapse b t → c ∈ t.
Proof.
  revert b. induction t as [|x t IH]; intros b; simpl; [done|].
  case_decide; [destruct b|]; rewrite ?elem_of_cons; naive_solver.
Qed.

Lemma collapse_length b t : length (collapse b t) ≤ length t.
Proof.
  revert b. induction t as [|x t IH]; intros b; simpl; [done|].
  case_decide; [destruct b|]; simpl; specialize (IH true) as H1; specialize (IH false) as H2; lia.
Qed.

(** No two spaces in a row, and none at the start after a space. *)
Fixpoint single_spaced (prev_space : bool) (t : Text) : bool :=
  match t with
  | [] => true
  | c :: t' =>
      negb (prev_space && bool_decide (c = SPACE)) && single_spaced (bool_decide (c = SPACE)) t'
  end.

Lemma collapse_spaced b t : single_spaced b (collapse b t) = true.
Proof.
  revert b. induction t as [|c t IH]; intros b; [done|]. cbn [collapse]. case_decide as Hc.
  - destruct b; [apply IH|]. cbn [single_spaced]. rewrite bool_decide_true by done. apply IH.
  - cbn [single_spaced]. rewrite bool_decide_false by done. rewrite andb_false_r. apply IH.
Qed.

(** Whatever the text, what is displayed has at most the given number of characters, no
    control or invisible format character, and is the beginning of the normalized text with
    these replaced and dropped; on a single line there is also no line break, tab or
    repeated space. *)
Theorem displayed_text_clean nfc text max :
  (sanitize_display_text nfc text max =
     take max (cleaned is_stripped_control REPLACEMENT (nfc text)) ∧
   length (sanitize_display_text nfc text max) ≤ max ∧
   ∀ c, c ∈ sanitize_display_text nfc text max →
     is_stripped_control c = false ∧ is_stripped_unicode_format c = false) ∧
  (length (sanitize_single_line_with_max nfc text max) ≤ max ∧
   single_spaced false (sanitize_single_line_with_max nfc text max) = true ∧
   ∀ c, c ∈ sanitize_single_line_with_max nfc text max →
     is_stripped_control_strict c = false ∧ is_stripped_unicode_format c = false).
Proof.
  unfold sanitize_display_text, sanitize_single_line_with_max. rewrite !sanitize_loop_exact.
  simpl. rewrite Nat.sub_0_r. split; split_and!.
  - done.
  - rewrite length_take. lia.
  - intros c Hc. apply (cleaned_chars is_stripped_control REPLACEMENT (nfc text));
      [done..|]. by eapply subseteq_take.
  - etransitivity; [apply collapse_length|]. rewrite length_take. lia.
  - apply collapse_spaced.
  - intros c Hc%elem_of_collapse.
    apply (cleaned_chars is_stripped_control_strict SPACE (nfc text)); [done..|]. by eapply subseteq_take.
Qed.

(** The narrow no-break space U+202F is displayed as it is. *)
Lemma narrow_space_kept max :
  sanitize_display_text (λ t, t) [0x202F%N] (S max) = [0x202F%N].
Proof. reflexivity. Qed.

End display.

(** ** Witnesses *)

Module samples.
Import public_room_safety room catalogue_rate_limits catalogue.

Definition some_calls : list (N * Z) := [(1%N, 0%Z); (2%N, 5%Z); (1%N, 7%Z); (1%N, secs 2)].

Definition rate_two : PublicRoomConfig :=
  set_floats (Finite 2) (Finite one_tenth) config_default.

Lemma some_calls_chronological : room.chronological 0 some_calls.
Proof. unfold some_calls, secs. simpl. repeat split; lia. Qed.

Lemma message_rate_enforced_witness :
  let '(passed, s) := rate_run some_calls (public_room_safety.new rate_two) in
  ∀ t, length (filter (λ x, (t ≤ x < t + secs 1)%Z) (of_peer 1%N passed)) ≤ 2.
Proof.
  pose proof (message_rate_enforced rate_two some_calls 0 1%N (secs 2)) as Hm.
  destruct (rate_run some_calls (public_room_safety.new rate_two)) as [passed s].
  apply Hm; [reflexivity|apply some_calls_chronological|repeat constructor; vm_compute; discriminate
    |vm_compute; discriminate].
Defined.

(** A table of 4096 peers. *)
Definition full_safety : PublicRoomSafety N :=
  set_times (list_to_map ((λ n, (N.of_nat n, [])) <$> seq 1 MAX_TRACKED_PEERS))
    (public_room_safety.new config_default).

Lemma full_table_locks_out_witness :
  of_peer 0%N (rate_run [(0%N, 0%Z); (5%N, 1%Z); (0%N, secs 100)] full_safety).1 = [].
Proof.
  apply (full_table_locks_out [(0%N, 0%Z); (5%N, 1%Z); (0%N, secs 100)] full_safety 0%N);
    [reflexivity|vm_compute; reflexivity|].
  apply Nat.leb_le. vm_compute. reflexivity.
Defined.

Lemma unbounded_rate_disables_limit_witness :
  (rate_run some_calls (public_room_safety.new
     (set_floats (Infinity false) (Finite one_tenth) config_default))).1 = some_calls.
Proof. by apply unbounded_rate_disables_limit. Defined.

Definition cat_calls : list (Z * Call) :=
  [(0%Z, CRequest (txt "a")); (1%Z, CInvalid (txt "b")); (1%Z, CBytes (txt "a") 9);
   (2%Z, CInvalid (txt "b")); (2%Z, CInvalid (txt "b"))].

Lemma cat_calls_chronological : cat_chronological 0 cat_calls.
Proof. simpl. repeat split; lia. Qed.

Lemma catalogue_admission_exact_witness :
  let '(h, l) := cat_run cat_calls (catalogue_rate_limits.new rate_config_default) in
  (admit_request (txt "b") 5 l).1 =
  decision (catalogue_rate_limits.new rate_config_default) h (txt "b") 5 ∧
  decision (catalogue_rate_limits.new rate_config_default) h (txt "b") 5 = Blocked.
Proof.
  pose proof (catalogue_admission_exact rate_config_default cat_calls 0 (txt "b") 5
    cat_calls_chronological) as Hm.
  assert (decision (catalogue_rate_limits.new rate_config_default)
    (cat_run cat_calls (catalogue_rate_limits.new rate_config_default)).1 (txt "b") 5 = Blocked)
    as Hb by (vm_compute; reflexivity).
  destruct (cat_run cat_calls (catalogue_rate_limits.new rate_config_default)) as [h l].
  split; [|exact Hb].
  apply Hm; [repeat constructor; simpl; lia|lia|vm_compute; discriminate].
Defined.

Lemma blocked_one_attempt_early_witness :
  let '(remains_unblocked, l) :=
    record_invalid (txt "b") 0 (after_malformed 2 rate_config_default (txt "b") 0) in
  remains_unblocked = true ∧ (admit_request (txt "b") 5 l).1 = Blocked.
Proof.
  apply (blocked_one_attempt_early rate_config_default 2 (txt "b") 0 5);
    [reflexivity|vm_compute; discriminate|vm_compute; split; discriminate].
Defined.

End samples.
