(* ===== verification/Hyparview.v ===== *)
(** * The HyParView membership protocol: [src/proto/hyparview.rs]

    [Module hyparview] translates the state machine of the swarm-membership layer:
    its messages, timers and events, the partial views and every handler.  A
    handler is an action on the state that pushes [OutEvent]s; [unreachable!] and
    [unwrap] are [panic].  Counters of type [usize] are unbounded naturals, the
    [u16] time-to-live only ever decreases. *)

From Stdlib Require Import NArith.
From stdpp Require Import prelude gmap.
From S2P Require Import Prelude ProtoUtil.

(** ** Types of [src/proto.rs] shared by the layers *)

(** [PeerData(Bytes)]: opaque data sent on messages that introduce peers. *)
Abbreviation PeerData := Bytes.

(** [PeerInfo<PI>]. *)
Record PeerInfo (PI : Type) : Type := mkPeerInfo {
  pi_id : PI;
  pi_data : option PeerData
}.
Arguments mkPeerInfo {PI}.
Arguments pi_id {PI}.
Arguments pi_data {PI}.

Module hyparview.

(** ** Messages, timers and events *)

(** [Ttl(u16)] *)
Record Ttl : Type := mkTtl { ttl_value : N }.

#[export] Instance Ttl_eq_dec : EqDecision Ttl.
Proof. solve_decision. Defined.

Definition expired (t : Ttl) : bool := bool_decide (t = mkTtl 0).

(** [self.0.saturating_sub(1)] *)
Definition next (t : Ttl) : Ttl := mkTtl (ttl_value t - 1).

Inductive Priority : Type := High | Low.

#[export] Instance Priority_eq_dec : EqDecision Priority.
Proof. solve_decision. Defined.

Record Neighbor : Type := mkNeighbor {
  neighbor_priority : Priority;
  neighbor_data : option PeerData
}.

Record Disconnect : Type := mkDisconnect {
  alive : bool;
  _respond : bool
}.

Record ForwardJoin (PI : Type) : Type := mkForwardJoin {
  fj_peer : PeerInfo PI;
  fj_ttl : Ttl
}.
Arguments mkForwardJoin {PI}.
Arguments fj_peer {PI}.
Arguments fj_ttl {PI}.

Record Shuffle (PI : Type) : Type := mkShuffle {
  sh_origin : PI;
  sh_nodes : list (PeerInfo PI);
  sh_ttl : Ttl
}.
Arguments mkShuffle {PI}.
Arguments sh_origin {PI}.
Arguments sh_nodes {PI}.
Arguments sh_ttl {PI}.

Record ShuffleReply (PI : Type) : Type := mkShuffleReply {
  sr_nodes : list (PeerInfo PI)
}.
Arguments mkShuffleReply {PI}.
Arguments sr_nodes {PI}.

Inductive Message (PI : Type) : Type :=
| MJoin (data : option PeerData)
| MForwardJoin (details : ForwardJoin PI)
| MShuffle (details : Shuffle PI)
| MShuffleReply (details : ShuffleReply PI)
| MNeighbor (details : Neighbor)
| MDisconnect (details : Disconnect).
Arguments MJoin {PI}.
Arguments MForwardJoin {PI}.
Arguments MShuffle {PI}.
Arguments MShuffleReply {PI}.
Arguments MNeighbor {PI}.
Arguments MDisconnect {PI}.

Inductive Timer (PI : Type) : Type :=
| DoShuffle
| PendingNeighborRequest (peer : PI).
Arguments DoShuffle {PI}.
Arguments PendingNeighborRequest {PI}.

Inductive Event (PI : Type) : Type :=
| NeighborUp (peer : PI)
| NeighborDown (peer : PI).
Arguments NeighborUp {PI}.
Arguments NeighborDown {PI}.

Inductive InEvent (PI : Type) : Type :=
| RecvMessage (from : PI) (message : Message PI)
| TimerExpired (timer : Timer PI)
| PeerDisconnected (peer : PI)
| RequestJoin (peer : PI)
| UpdatePeerData (data : PeerData)
| Quit.
Arguments RecvMessage {PI}.
Arguments TimerExpired {PI}.
Arguments PeerDisconnected {PI}.
Arguments RequestJoin {PI}.
Arguments UpdatePeerData {PI}.
Arguments Quit {PI}.

Inductive OutEvent (PI : Type) : Type :=
| SendMessage (to : PI) (message : Message PI)
| ScheduleTimer (delay : N) (timer : Timer PI)
| DisconnectPeer (peer : PI)
| EmitEvent (event : Event PI)
| OPeerData (peer : PI) (data : PeerData).
Arguments SendMessage {PI}.
Arguments ScheduleTimer {PI}.
Arguments DisconnectPeer {PI}.
Arguments EmitEvent {PI}.
Arguments OPeerData {PI}.

Inductive RemovalReason : Type :=
| ConnectionClosed
| DisconnectReceived (is_alive : bool)
| Random.

(** ** Configuration and state *)

(** Durations in milliseconds. *)
Record Config : Type := mkConfig {
  active_view_capacity : nat;
  passive_view_capacity : nat;
  active_random_walk_length : Ttl;
  passive_random_walk_length : Ttl;
  shuffle_random_walk_length : Ttl;
  shuffle_active_view_count : nat;
  shuffle_passive_view_count : nat;
  shuffle_interval : N;
  neighbor_request_timeout : N
}.

Definition default_config : Config := {|
  active_view_capacity := 5;
  passive_view_capacity := 30;
  active_random_walk_length := mkTtl 6;
  passive_random_walk_length := mkTtl 3;
  shuffle_random_walk_length := mkTtl 6;
  shuffle_active_view_count := 3;
  shuffle_passive_view_count := 4;
  shuffle_interval := 60000;
  neighbor_request_timeout := 500
|}.

Record Stats : Type := mkStats { total_connections : N }.

Definition default_stats : Stats := mkStats 0.

Record State (PI IS R : Type) `{PeerIdentity PI} : Type := mkState {
  me : PI;
  me_data : option PeerData;
  active_view : IS;
  passive_view : IS;
  config : Config;
  shuffle_scheduled : bool;
  rng : R;
  stats : Stats;
  pending_neighbor_requests : gset PI;
  peer_data : gmap PI PeerData;
  alive_disconnect_peers : gset PI
}.
Arguments mkState {PI IS R _}.
Arguments me {PI IS R _}.
Arguments me_data {PI IS R _}.
Arguments active_view {PI IS R _}.
Arguments passive_view {PI IS R _}.
Arguments config {PI IS R _}.
Arguments shuffle_scheduled {PI IS R _}.
Arguments rng {PI IS R _}.
Arguments stats {PI IS R _}.
Arguments pending_neighbor_requests {PI IS R _}.
Arguments peer_data {PI IS R _}.
Arguments alive_disconnect_peers {PI IS R _}.

Section defs.
Context {PI : Type} `{PeerIdentity PI} {IS : Type} `{!IndexSetImpl PI IS}
  {R : Type} `{!Rng R}.

Abbreviation St := (State PI IS R).
Abbreviation Act := (act (State PI IS R) (OutEvent PI)).

(** Field updates. *)
Definition set_me_data (d : option PeerData) (s : St) : St :=
  mkState (me s) d (active_view s) (passive_view s) (config s) (shuffle_scheduled s)
    (rng s) (stats s) (pending_neighbor_requests s) (peer_data s) (alive_disconnect_peers s).
Definition set_active_view (v : IS) (s : St) : St :=
  mkState (me s) (me_data s) v (passive_view s) (config s) (shuffle_scheduled s)
    (rng s) (stats s) (pending_neighbor_requests s) (peer_data s) (alive_disconnect_peers s).
Definition set_passive_view (v : IS) (s : St) : St :=
  mkState (me s) (me_data s) (active_view s) v (config s) (shuffle_scheduled s)
    (rng s) (stats s) (pending_neighbor_requests s) (peer_data s) (alive_disconnect_peers s).
Definition set_shuffle_scheduled (b : bool) (s : St) : St :=
  mkState (me s) (me_data s) (active_view s) (passive_view s) (config s) b
    (rng s) (stats s) (pending_neighbor_requests s) (peer_data s) (alive_disconnect_peers s).
Definition set_rng (r : R) (s : St) : St :=
  mkState (me s) (me_data s) (active_view s) (passive_view s) (config s) (shuffle_scheduled s)
    r (stats s) (pending_neighbor_requests s) (peer_data s) (alive_disconnect_peers s).
Definition set_stats (x : Stats) (s : St) : St :=
  mkState (me s) (me_data s) (active_view s) (passive_view s) (config s) (shuffle_scheduled s)
    (rng s) x (pending_neighbor_requests s) (peer_data s) (alive_disconnect_peers s).
Definition set_pending (p : gset PI) (s : St) : St :=
  mkState (me s) (me_data s) (active_view s) (passive_view s) (config s) (shuffle_scheduled s)
    (rng s) (stats s) p (peer_data s) (alive_disconnect_peers s).
Definition set_peer_data (d : gmap PI PeerData) (s : St) : St :=
  mkState (me s) (me_data s) (active_view s) (passive_view s) (config s) (shuffle_scheduled s)
    (rng s) (stats s) (pending_neighbor_requests s) d (alive_disconnect_peers s).
Definition set_alive (p : gset PI) (s : St) : St :=
  mkState (me s) (me_data s) (active_view s) (passive_view s) (config s) (shuffle_scheduled s)
    (rng s) (stats s) (pending_neighbor_requests s) (peer_data s) p.

(** A computation that consumes randomness from the state's generator. *)
Definition draw {A} (f : St → R → A * R) : Act A :=
  s ← get;
  let '(a, r) := f s (rng s) in
  put (set_rng r s);;
  mret a.

(** [HashSet::remove] on the two sets, reporting whether the peer was present. *)
Definition remove_pending (peer : PI) : Act bool :=
  s ← get;
  put (set_pending (pending_neighbor_requests s ∖ {[peer]}) s);;
  mret (bool_decide (peer ∈ pending_neighbor_requests s)).

Definition remove_alive (peer : PI) : Act bool :=
  s ← get;
  put (set_alive (alive_disconnect_peers s ∖ {[peer]}) s);;
  mret (bool_decide (peer ∈ alive_disconnect_peers s)).

Definition new (me : PI) (me_data : option PeerData) (config : Config) (rng : R) : St := {|
  me := me;
  me_data := me_data;
  active_view := index_set.new;
  passive_view := index_set.new;
  config := config;
  shuffle_scheduled := false;
  rng := rng;
  stats := default_stats;
  pending_neighbor_requests := ∅;
  peer_data := ∅;
  alive_disconnect_peers := ∅
|}.

(** ** Helpers *)

Definition passive_is_full (s : St) : bool :=
  bool_decide (passive_view_capacity (config s) ≤ index_set.len (passive_view s)).

Definition active_is_full (s : St) : bool :=
  bool_decide (active_view_capacity (config s) ≤ index_set.len (active_view s)).

Definition peer_info (s : St) (id : PI) : PeerInfo PI :=
  mkPeerInfo id (peer_data s !! id).

Definition insert_peer_info (info : PeerInfo PI) : Act unit :=
  match pi_data info with
  | None => mret tt
  | Some data =>
      s ← get;
      let old := peer_data s !! pi_id info in
      let same := bool_decide (old = Some data) in
      (if negb same && negb (bool_decide (data = []))
       then push (OPeerData (pi_id info) data) else mret tt);;
      modify (λ s, set_peer_data (<[pi_id info := data]> (peer_data s)) s)
  end.

Definition send_neighbor (peer : PI) (priority : Priority) : Act unit :=
  s ← get;
  if decide (peer ∈ pending_neighbor_requests s) then mret tt
  else
    put (set_pending ({[peer]} ∪ pending_neighbor_requests s) s);;
    push (SendMessage peer (MNeighbor (mkNeighbor priority (me_data s)))).

Definition send_shuffle_reply (to : PI) (len : nat) : Act unit :=
  passive ← draw (λ s, index_set.shuffled_and_capped (passive_view s) len);
  nodes ←
    (if decide (length passive < len) then
       active ← draw (λ s, index_set.shuffled_and_capped (active_view s)
                             (len - length passive));
       mret (passive ++ active)
     else mret passive);
  s ← get;
  push (SendMessage to (MShuffleReply (mkShuffleReply (peer_info s <$> nodes)))).

Definition send_disconnect (peer : PI) (is_alive : bool) : Act unit :=
  s ← get;
  send_shuffle_reply peer
    (shuffle_active_view_count (config s) + shuffle_passive_view_count (config s));;
  push (SendMessage peer (MDisconnect (mkDisconnect is_alive false)));;
  push (DisconnectPeer peer).

Definition add_passive (peer : PI) (data : option PeerData) : Act unit :=
  insert_peer_info (mkPeerInfo peer data);;
  s ← get;
  if index_set.contains peer (active_view s)
     || index_set.contains peer (passive_view s)
     || bool_decide (peer = me s)
  then mret tt
  else
    (if passive_is_full s then
       let '(_, v, r) := index_set.remove_random (passive_view s) (rng s) in
       put (set_rng r (set_passive_view v s))
     else mret tt);;
    modify (λ s, set_passive_view (index_set.insert peer (passive_view s)).2 s).

Definition refill_active_from_passive (skip_peers : list PI) : Act unit :=
  s ← get;
  if decide (active_view_capacity (config s) ≤
             index_set.len (active_view s) + size (pending_neighbor_requests s))
  then mret tt
  else
    node ← draw (λ s, index_set.pick_random_without
                        (skip_peers ++ elements (pending_neighbor_requests s))
                        (passive_view s));
    match node with
    | None => mret tt
    | Some node =>
        s ← get;
        let priority := if index_set.is_empty (active_view s) then High else Low in
        send_neighbor node priority;;
        push (ScheduleTimer (neighbor_request_timeout (config s))
                (PendingNeighborRequest node))
    end.

(** The peer just left the active view: close the connection as the reason says and
    remember the peer in the passive view if it is still alive. *)
Definition keep_passive (peer : PI) (reason : RemovalReason) : Act unit :=
  s ← get;
  put (set_peer_data (delete peer (peer_data s)) s);;
  add_passive peer (peer_data s !! peer);;
  match reason with
  | ConnectionClosed => mret tt
  | _ => modify (λ s, set_alive ({[peer]} ∪ alive_disconnect_peers s) s)
  end.

Definition after_removal (peer : PI) (reason : RemovalReason) : Act unit :=
  match reason with
  | Random => send_disconnect peer true
  | DisconnectReceived _ => push (DisconnectPeer peer)
  | ConnectionClosed => push (DisconnectPeer peer)
  end;;
  keep_as_passive ←
    match reason with
    | ConnectionClosed => remove_alive peer
    | DisconnectReceived is_alive => mret is_alive
    | Random => mret true
    end;
  if keep_as_passive : bool then keep_passive peer reason else mret tt.

Definition remove_active_by_index (peer_index : nat) (reason : RemovalReason)
    : Act (option PI) :=
  s ← get;
  match index_set.remove_index peer_index (active_view s) with
  | (None, _) => mret None
  | (Some peer, v) =>
      put (set_active_view v s);;
      push (EmitEvent (NeighborDown peer));;
      after_removal peer reason;;
      mret (Some peer)
  end.

Definition remove_active (peer : PI) (reason : RemovalReason) : Act unit :=
  s ← get;
  match index_set.get_index_of peer (active_view s) with
  | None => mret tt
  | Some idx =>
      removed ← remove_active_by_index idx reason;
      match removed with
      | None => panic
      | Some removed_peer => refill_active_from_passive [removed_peer]
      end
  end.

Definition free_random_slot_in_active_view : Act unit :=
  index ← draw (λ s, index_set.pick_random_index (active_view s));
  match index with
  | Some index => remove_active_by_index index Random;; mret tt
  | None => mret tt
  end.

Definition add_active_unchecked (peer : PI) (priority : Priority) (reply : bool)
    : Act unit :=
  s ← get;
  let s1 := set_passive_view (index_set.remove peer (passive_view s)).2 s in
  let '(inserted, v) := index_set.insert peer (active_view s1) in
  put (set_active_view v s1);;
  if inserted : bool then
    push (EmitEvent (NeighborUp peer));;
    if reply then send_neighbor peer priority else mret tt
  else mret tt.

Definition add_active (peer : PI) (data : option PeerData) (priority : Priority)
    (reply : bool) : Act bool :=
  s ← get;
  if decide (peer = me s) then mret false
  else
    insert_peer_info (mkPeerInfo peer data);;
    s ← get;
    if index_set.contains peer (active_view s) then
      (if reply then send_neighbor peer priority else mret tt);;
      mret true
    else
      match priority, active_is_full s with
      | High, is_full =>
          (if is_full then free_random_slot_in_active_view else mret tt);;
          add_active_unchecked peer High reply;;
          mret true
      | Low, false =>
          add_active_unchecked peer Low reply;;
          mret true
      | Low, true => mret false
      end.

(** ** Handlers *)

Definition handle_join (peer : PI) : Act unit :=
  s ← get;
  push (SendMessage peer (MJoin (me_data s))).

Definition on_disconnect (peer : PI) (details : Disconnect) : Act unit :=
  remove_pending peer;;
  s ← get;
  if index_set.contains peer (active_view s) then
    remove_active peer (DisconnectReceived (alive details))
  else if alive details && index_set.contains peer (passive_view s) then
    modify (λ s, set_alive ({[peer]} ∪ alive_disconnect_peers s) s)
  else mret tt.

Definition handle_connection_closed (peer : PI) : Act unit :=
  remove_pending peer;;
  s ← get;
  if index_set.contains peer (active_view s) then
    remove_active peer ConnectionClosed
  else
    was_alive ← remove_alive peer;
    if was_alive : bool then mret tt
    else
      modify (λ s, set_peer_data (delete peer (peer_data s))
                     (set_passive_view (index_set.remove peer (passive_view s)).2 s)).

Definition handle_quit : Act unit :=
  s ← get;
  for_each (index_set.iter (active_view s)) (λ peer,
    modify (λ s, set_active_view (index_set.remove peer (active_view s)).2 s);;
    send_disconnect peer false).

Definition on_join (peer : PI) (data : option PeerData) : Act unit :=
  add_active peer data High true;;
  s ← get;
  let ttl := active_random_walk_length (config s) in
  let info := mkPeerInfo peer data in
  for_each (index_set.iter_without peer (active_view s)) (λ node,
    push (SendMessage node (MForwardJoin (mkForwardJoin info ttl)))).

Definition on_forward_join (sender : PI) (message : ForwardJoin PI) : Act unit :=
  let peer_id := pi_id (fj_peer message) in
  s ← get;
  if index_set.contains peer_id (active_view s) then
    insert_peer_info (fj_peer message);;
    send_neighbor peer_id High
  else if expired (fj_ttl message) || bool_decide (index_set.len (active_view s) ≤ 1) then
    insert_peer_info (fj_peer message);;
    send_neighbor peer_id High
  else
    (if decide (fj_ttl message = passive_random_walk_length (config s)) then
       add_passive peer_id (pi_data (fj_peer message))
     else mret tt);;
    s ← get;
    if negb (index_set.contains peer_id (active_view s))
       && negb (bool_decide (peer_id ∈ pending_neighbor_requests s))
    then
      node ← draw (λ s, index_set.pick_random_without [sender] (active_view s));
      match node with
      | None => panic
      | Some node =>
          push (SendMessage node
            (MForwardJoin (mkForwardJoin (fj_peer message) (next (fj_ttl message)))))
      end
    else mret tt.

Definition on_neighbor (from : PI) (details : Neighbor) : Act unit :=
  is_reply ← remove_pending from;
  let do_reply := negb is_reply in
  added ← add_active from (neighbor_data details) (neighbor_priority details) do_reply;
  if added : bool then mret tt else send_disconnect from true.

Definition on_shuffle (from : PI) (shuffle : Shuffle PI) : Act unit :=
  s ← get;
  if expired (sh_ttl shuffle) || bool_decide (index_set.len (active_view s) ≤ 1) then
    for_each (sh_nodes shuffle) (λ node, add_passive (pi_id node) (pi_data node));;
    send_shuffle_reply (sh_origin shuffle) (length (sh_nodes shuffle))
  else
    node ← draw (λ s, index_set.pick_random_without [sh_origin shuffle; from]
                        (active_view s));
    match node with
    | Some node =>
        push (SendMessage node (MShuffle
          (mkShuffle (sh_origin shuffle) (sh_nodes shuffle) (next (sh_ttl shuffle)))))
    | None => mret tt
    end.

Definition on_shuffle_reply (message : ShuffleReply PI) : Act unit :=
  for_each (sr_nodes message) (λ node, add_passive (pi_id node) (pi_data node));;
  refill_active_from_passive [].

Definition handle_shuffle_timer : Act unit :=
  node ← draw (λ s, index_set.pick_random (active_view s));
  match node with
  | None => mret tt
  | Some node =>
      active ← draw (λ s, index_set.shuffled_without_and_capped [node]
                            (shuffle_active_view_count (config s)) (active_view s));
      passive ← draw (λ s, index_set.shuffled_without_and_capped [node]
                             (shuffle_passive_view_count (config s)) (passive_view s));
      s ← get;
      let nodes := (peer_info s <$> active ++ passive) ++ [mkPeerInfo (me s) (me_data s)] in
      push (SendMessage node
        (MShuffle (mkShuffle (me s) nodes (shuffle_random_walk_length (config s)))))
  end;;
  s ← get;
  push (ScheduleTimer (shuffle_interval (config s)) DoShuffle).

Definition handle_pending_neighbor_timer (peer : PI) : Act unit :=
  was_pending ← remove_pending peer;
  if was_pending : bool then
    modify (λ s, set_passive_view (index_set.remove peer (passive_view s)).2 s);;
    refill_active_from_passive []
  else mret tt.

Definition is_disconnect (message : Message PI) : bool :=
  match message with MDisconnect _ => true | _ => false end.

Definition handle_message (from : PI) (message : Message PI) : Act unit :=
  s ← get;
  (if negb (is_disconnect message) && negb (index_set.contains from (active_view s))
   then modify (λ s, set_stats (mkStats (total_connections (stats s) + 1)) s)
   else mret tt);;
  match message with
  | MJoin data => on_join from data
  | MForwardJoin details => on_forward_join from details
  | MShuffle details => on_shuffle from details
  | MShuffleReply details => on_shuffle_reply details
  | MNeighbor details => on_neighbor from details
  | MDisconnect details => on_disconnect from details
  end.

Definition handle_event (event : InEvent PI) : Act unit :=
  match event with
  | RecvMessage from message => handle_message from message
  | TimerExpired DoShuffle => handle_shuffle_timer
  | TimerExpired (PendingNeighborRequest peer) => handle_pending_neighbor_timer peer
  | PeerDisconnected peer => handle_connection_closed peer
  | RequestJoin peer => handle_join peer
  | UpdatePeerData data => modify (set_me_data (Some data))
  | Quit => handle_quit
  end.

Definition handle (event : InEvent PI) : Act unit :=
  handle_event event;;
  s ← get;
  if shuffle_scheduled s then mret tt
  else
    push (ScheduleTimer (shuffle_interval (config s)) DoShuffle);;
    modify (set_shuffle_scheduled true).

End defs.
End hyparview.
