(* ===== verification/HyparviewFacts.v ===== *)
(** * Correctness of the HyParView layer

    The invariant of the partial views, preservation by every handler, absence of
    panics, and the contract the topic layer relies on: the [NeighborUp] and
    [NeighborDown] events replay to exactly the active view. *)

From Stdlib Require Import NArith.
From stdpp Require Import prelude gmap.
From S2P Require Import Prelude ProtoUtil Concrete Hyparview.
Import hyparview index_set_facts.

Create HintDb hyparview discriminated.

Section facts.
Context {PI : Type} `{PeerIdentity PI} {IS : Type} `{!IndexSetImpl PI IS}
  {R : Type} `{!Rng R}.
Abbreviation St := (State PI IS R).
Abbreviation Act := (act (State PI IS R) (OutEvent PI)).
Implicit Types (s : St) (p peer : PI) (es : list (OutEvent PI)).

(** The peers of the two views. *)
Definition active_peers (s : St) : list PI := index_set.iter (active_view s).
Definition passive_peers (s : St) : list PI := index_set.iter (passive_view s).
Definition active_set (s : St) : gset PI := list_to_set (active_peers s).

(** The views are disjoint, never hold the node itself and respect their
    capacities (both capacities are positive). *)
Record inv (s : St) : Prop := mkInv {
  inv_disjoint : ∀ p, p ∈ active_peers s → p ∉ passive_peers s;
  inv_me_active : me s ∉ active_peers s;
  inv_me_passive : me s ∉ passive_peers s;
  inv_active_cap : length (active_peers s) ≤ active_view_capacity (config s);
  inv_passive_cap : length (passive_peers s) ≤ passive_view_capacity (config s);
  inv_caps : 1 ≤ active_view_capacity (config s) ∧ 1 ≤ passive_view_capacity (config s)
}.

(** ** The membership contract *)

(** Replay the neighbor events on a set of neighbors; [None] when an event does not
    fit (a neighbor comes up twice or goes down without being up). *)
Definition apply_event (o : option (gset PI)) (e : OutEvent PI) : option (gset PI) :=
  match o, e with
  | Some A, EmitEvent (NeighborUp p) => if decide (p ∈ A) then None else Some ({[p]} ∪ A)
  | Some A, EmitEvent (NeighborDown p) => if decide (p ∈ A) then Some (A ∖ {[p]}) else None
  | o, _ => o
  end.

Definition replay (es : list (OutEvent PI)) (A : gset PI) : option (gset PI) :=
  foldl apply_event (Some A) es.

(** A step keeps identity and configuration, and its events replay the active view. *)
Definition step (s : St) (es : list (OutEvent PI)) (s' : St) : Prop :=
  me s' = me s ∧ config s' = config s ∧ replay es (active_set s) = Some (active_set s').

(** Events that do not concern neighbors. *)
Definition neutral (e : OutEvent PI) : Prop :=
  match e with EmitEvent _ => False | _ => True end.

(** A step that does not touch the active view at all. *)
Definition quiet (s : St) (es : list (OutEvent PI)) (s' : St) : Prop :=
  me s' = me s ∧ config s' = config s ∧ active_view s' = active_view s ∧ Forall neutral es.

(** ** Basic lemmas *)

#[export] Instance step_compositional : Compositional step.
Proof.
  split.
  - intros s. done.
  - intros s1 es1 s2 es2 s3 (Hm1 & Hc1 & Hr1) (Hm2 & Hc2 & Hr2).
    split_and!; [congruence|congruence|].
    unfold replay in *. by rewrite foldl_app, Hr1.
Qed.

#[export] Instance quiet_compositional : Compositional quiet.
Proof.
  split.
  - intros s. by split_and!.
  - intros s1 es1 s2 es2 s3 (? & ? & ? & ?) (? & ? & ? & ?).
    split_and!; [congruence|congruence|congruence|]. by apply Forall_app.
Qed.

Lemma replay_neutral es A : Forall neutral es → replay es A = Some A.
Proof.
  unfold replay. induction 1 as [|e es He _ IH]; [done|]. simpl.
  destruct e; simpl in *; done.
Qed.

Lemma quiet_step s es s' : quiet s es s' → step s es s'.
Proof.
  intros (Hm & Hc & Ha & Hn). split_and!; [done|done|].
  rewrite replay_neutral by done. unfold active_set, active_peers. by rewrite Ha.
Qed.

Lemma ok_quiet_step {A} (m : Act A) : ok inv quiet m → ok inv step m.
Proof.
  intros Hm s Hs. eapply wp_mono; [by apply Hm|]. intros a s' es [? ?].
  eauto using quiet_step.
Qed.

(** The invariant only looks at identity, configuration and the two views. *)
Lemma inv_ext s s' :
  me s' = me s → config s' = config s → active_view s' = active_view s →
  passive_view s' = passive_view s → inv s → inv s'.
Proof.
  intros Hm Hc Ha Hp [H1 H2 H3 H4 H5 H6].
  split; unfold active_peers, passive_peers in *; rewrite ?Hm, ?Hc, ?Ha, ?Hp; done.
Qed.

Lemma wp_draw {A} (f : St → R → A * R) (Q : A → St → list (OutEvent PI) → Prop) s :
  Q (f s (rng s)).1 (set_rng (f s (rng s)).2 s) [] → wp (draw f) Q s.
Proof.
  intros HQ. unfold draw. wp_steps. destruct (f s (rng s)) as [a r]. wp_steps.
  exact HQ.
Qed.

Lemma ok_draw {A} (f : St → R → A * R) : ok inv quiet (draw f).
Proof.
  intros s Hs. apply wp_draw. split; [by apply (inv_ext s)|]. by split_and!.
Qed.

Lemma ok_push_neutral (e : OutEvent PI) : neutral e → ok inv quiet (push e).
Proof. intros He. apply ok_push. intros s _. split_and!; try done. by constructor. Qed.

(** A state change outside the fields of the invariant. *)
Lemma ok_modify_frame (f : St → St) :
  (∀ s, me (f s) = me s ∧ config (f s) = config s ∧ active_view (f s) = active_view s ∧
        passive_view (f s) = passive_view s) →
  ok inv quiet (modify f).
Proof.
  intros Hf. apply ok_modify. intros s Hs. destruct (Hf s) as (? & ? & ? & ?).
  split; [by apply (inv_ext s)|]. split_and!; try done.
Qed.

(** Shrinking the passive view. *)
Lemma inv_shrink_passive s v :
  inv s → index_set.iter v ⊆ passive_peers s → index_set.len v ≤ length (passive_peers s) →
  inv (set_passive_view v s).
Proof.
  intros [H1 H2 H3 H4 H5 H6] Hsub Hlen.
  split; unfold active_peers, passive_peers, index_set.len in *; simpl in *; auto.
  - intros p Hp Hv. by apply (H1 p Hp), Hsub.
  - lia.
Qed.

Lemma remove_passive_subseteq p v :
  index_set.iter (index_set.remove p v).2 ⊆ index_set.iter (T := PI) (IS := IS) v.
Proof. intros q Hq. by apply elem_of_remove in Hq as [? _]. Qed.

Lemma ok_remove_passive p (f : St → St) :
  (∀ s, me (f s) = me s ∧ config (f s) = config s ∧ active_view (f s) = active_view s ∧
        passive_view (f s) = (index_set.remove p (passive_view s)).2) →
  ok inv quiet (modify f).
Proof.
  intros Hf. apply ok_modify. intros s Hs. destruct (Hf s) as (Hm & Hc & Ha & Hp).
  split.
  - apply (inv_ext (set_passive_view (index_set.remove p (passive_view s)).2 s));
      try done.
    apply inv_shrink_passive; [done|apply remove_passive_subseteq|apply len_remove].
  - split_and!; try done.
Qed.

(** ** Handlers that leave the active view alone *)

Lemma ok_remove_pending p : ok inv quiet (remove_pending (IS := IS) (R := R) p).
Proof.
  apply ok_get_bind. intros s Hs. wp_steps. split; [by apply (inv_ext s)|by split_and!].
Qed.

Lemma ok_remove_alive p : ok inv quiet (remove_alive (IS := IS) (R := R) p).
Proof.
  apply ok_get_bind. intros s Hs. wp_steps. split; [by apply (inv_ext s)|by split_and!].
Qed.

Lemma ok_send_neighbor p prio : ok inv quiet (send_neighbor (IS := IS) (R := R) p prio).
Proof.
  apply ok_get_bind. intros s Hs. case_decide; wp_steps.
  - split; [done|by split_and!].
  - split; [by apply (inv_ext s)|]. split_and!; try done. by constructor.
Qed.

Ltac ok_step :=
  match goal with
  | |- ok _ _ (mret _) => apply ok_ret; apply _
  | |- ok _ _ get => apply ok_get; apply _
  | |- ok _ _ (push _) => apply ok_push_neutral; done
  | |- ok _ _ (draw _) => apply ok_draw
  | |- ok _ _ (remove_pending _) => apply ok_remove_pending
  | |- ok _ _ (remove_alive _) => apply ok_remove_alive
  | |- ok _ _ (send_neighbor _ _) => apply ok_send_neighbor
  | |- ok _ _ (modify _) => apply ok_modify_frame; done
  | |- ok _ _ (for_each _ _) => apply ok_for_each; [apply _|intros ? _]
  | |- ok _ _ (_ ≫= _) => apply ok_bind; [apply _| |intros ?]
  | |- ok _ _ (if ?b then _ else _) => destruct b
  | |- ok _ _ (match ?x with _ => _ end) => destruct x
  | |- ok _ _ _ => solve [eauto with hyparview]
  end.
Ltac ok_steps := repeat ok_step.

Lemma ok_insert_peer_info info : ok inv quiet (insert_peer_info (IS := IS) (R := R) info).
Proof. unfold insert_peer_info. ok_steps. Qed.

Lemma ok_send_shuffle_reply p n : ok inv quiet (send_shuffle_reply (IS := IS) (R := R) p n).
Proof. unfold send_shuffle_reply. ok_steps. Qed.

#[local] Hint Resolve ok_insert_peer_info ok_send_shuffle_reply : hyparview.

Lemma ok_send_disconnect p b : ok inv quiet (send_disconnect (IS := IS) (R := R) p b).
Proof. unfold send_disconnect. ok_steps. Qed.

Lemma ok_refill skip : ok inv quiet (refill_active_from_passive (IS := IS) (R := R) skip).
Proof. unfold refill_active_from_passive. ok_steps. Qed.

(** Inserting a fresh peer after making room in the passive view. *)
Lemma inv_insert_passive s v p :
  inv s → p ∉ active_peers s → p ≠ me s → index_set.iter v ⊆ passive_peers s →
  p ∉ index_set.iter v → index_set.len v < passive_view_capacity (config s) →
  inv (set_passive_view (index_set.insert p v).2 s).
Proof.
  intros [H1 H2 H3 H4 H5 H6] Hpa Hpm Hsub Hnew Hlen.
  split; unfold active_peers, passive_peers in *; simpl in *; auto.
  - intros q Hq [->|Hv]%elem_of_insert; [done|]. by apply (H1 q Hq), Hsub.
  - intros [Heq|Hv]%elem_of_insert; [done|]. by apply H3, Hsub.
  - pose proof (len_insert p v) as Hl.
    rewrite (proj2 (contains_false p v) Hnew) in Hl. unfold index_set.len in *. lia.
Qed.

(** The room [add_passive] makes: a random peer leaves a full passive view. *)
Lemma make_passive_room s :
  inv s → passive_is_full s = true →
  let '(_, v, r) := index_set.remove_random (passive_view s) (rng s) in
  index_set.iter v ⊆ passive_peers s ∧ index_set.len v < passive_view_capacity (config s).
Proof.
  intros Hs Hfull. apply bool_decide_eq_true in Hfull.
  pose proof (remove_random_spec (passive_view s) (rng s)) as Hr.
  destruct (index_set.remove_random (passive_view s) (rng s)) as [[o v] r].
  destruct Hs as [_ _ _ _ H5 [_ H6]]. unfold passive_peers, index_set.len in *.
  destruct o as [x|].
  - pose proof (Permutation_length Hr) as Hl. simpl in Hl. split; [|lia].
    intros y Hy. rewrite Hr. by right.
  - destruct Hr as [He ->]. rewrite He in *. simpl in *. lia.
Qed.

Lemma ok_add_passive p data : ok inv quiet (add_passive (IS := IS) (R := R) p data).
Proof.
  unfold add_passive. ok_step; [ok_step|]. apply ok_get_bind. intros s Hs.
  destruct (index_set.contains p (active_view s)) eqn:Ha; simpl;
    [wp_steps; split; [done|by split_and!]|].
  destruct (index_set.contains p (passive_view s)) eqn:Hp; simpl;
    [wp_steps; split; [done|by split_and!]|].
  case_bool_decide as Hme; [wp_steps; split; [done|by split_and!]|].
  apply contains_false in Ha, Hp. destruct (passive_is_full s) eqn:Hfull.
  - pose proof (make_passive_room s Hs Hfull) as Hroom.
    destruct (index_set.remove_random _ _) as [[o v] r]. destruct Hroom as [Hsub Hlen].
    wp_steps. split; [|by split_and!].
    apply (inv_ext (set_passive_view (index_set.insert p v).2 s)); try done.
    apply inv_insert_passive; auto.
  - apply bool_decide_eq_false in Hfull. wp_steps. split; [|by split_and!].
    apply inv_insert_passive; auto. lia.
Qed.

#[local] Hint Resolve ok_send_disconnect ok_refill ok_add_passive : hyparview.

Lemma ok_handle_join p : ok inv quiet (handle_join (IS := IS) (R := R) p).
Proof. unfold handle_join. ok_steps. Qed.

Lemma ok_on_shuffle p sh : ok inv quiet (on_shuffle (IS := IS) (R := R) p sh).
Proof. unfold on_shuffle. ok_steps. Qed.

Lemma ok_on_shuffle_reply sr : ok inv quiet (on_shuffle_reply (IS := IS) (R := R) sr).
Proof. unfold on_shuffle_reply. ok_steps. Qed.

Lemma ok_handle_shuffle_timer : ok inv quiet (handle_shuffle_timer (IS := IS) (R := R)).
Proof. unfold handle_shuffle_timer. ok_steps. Qed.

Lemma ok_handle_pending_neighbor_timer p :
  ok inv quiet (handle_pending_neighbor_timer (IS := IS) (R := R) p).
Proof.
  unfold handle_pending_neighbor_timer. ok_step; [ok_step|]. ok_step; [|ok_step].
  ok_step; [|ok_step]. by apply (ok_remove_passive p).
Qed.

(** ** The random walk of [ForwardJoin] never gets stuck *)

Lemma other_peer (l : list PI) p :
  NoDup l → 2 ≤ length l → ∃ q, q ∈ l ∧ q ≠ p.
Proof.
  destruct l as [|a [|b l]]; simpl; [lia|lia|].
  intros [Ha _]%NoDup_cons _. destruct (decide (a = p)) as [->|].
  - exists b. split; [right; left|]. intros ->. apply Ha. left.
  - exists a. split; [left|done].
Qed.

(** With two active peers, a peer other than the sender can be picked. *)
Lemma pick_other_active s sender r :
  2 ≤ length (active_peers s) →
  is_Some (index_set.pick_random_without [sender] (active_view s) r).1.
Proof.
  intros Hlen. pose proof (pick_random_without_spec [sender] (active_view s) r) as Hp.
  destruct (index_set.pick_random_without _ _ _).1 as [q|]; [done|].
  destruct (other_peer (active_peers s) sender) as (q & Hq & Hne);
    [apply iter_nodup|done|]. apply Hp in Hq. apply list_elem_of_singleton in Hq. done.
Qed.

Lemma ok_on_forward_join p fj : ok inv quiet (on_forward_join (IS := IS) (R := R) p fj).
Proof.
  unfold on_forward_join. apply ok_get_bind. intros s Hs.
  assert (ok inv quiet (insert_peer_info (IS := IS) (R := R) (fj_peer fj);;
    send_neighbor (pi_id (fj_peer fj)) High)) as Hjoin by ok_steps.
  destruct (index_set.contains _ _); [by apply Hjoin|].
  destruct (expired _); simpl; [by apply Hjoin|].
  case_bool_decide as Hlen; [by apply Hjoin|]. clear Hjoin.
  apply wp_bind. eapply wp_mono with (Q := λ _ s1 es, inv s1 ∧ quiet s es s1).
  { case_decide; [by apply ok_add_passive|]. apply ok_ret; [apply _|done]. }
  intros _ s1 es1 [Hs1 Hq1]. wp_steps.
  destruct (_ && _).
  2:{ wp_steps. rewrite app_nil_r. split; [done|]. done. }
  apply wp_bind, wp_draw. cbn beta.
  destruct (pick_other_active s1 p (rng s1)) as [q Hq].
  { destruct Hq1 as (_ & _ & Hv & _). unfold active_peers, index_set.len in *.
    rewrite Hv. lia. }
  rewrite Hq. wp_steps. split; [by apply (inv_ext s1)|].
  apply (comp_trans s es1 s1); [done|]. split_and!; try done. by constructor.
Qed.

(** ** Exact effects of the messages that close a connection *)

Lemma send_shuffle_reply_spec to n s :
  wp (send_shuffle_reply to n) (λ _ s' es, ∃ r nodes,
    s' = set_rng r s ∧
    es = [SendMessage to (MShuffleReply (mkShuffleReply (peer_info s <$> nodes)))] ∧
    length nodes ≤ n ∧ ∀ p, p ∈ nodes → p ∈ passive_peers s ∨ p ∈ active_peers s) s.
Proof.
  unfold send_shuffle_reply. apply wp_bind, wp_draw.
  destruct (shuffled_and_capped_spec n (passive_view s) (rng s)) as (_ & Hl1 & Hin1).
  destruct (index_set.shuffled_and_capped _ _ _) as [l1 r1]. simpl in *.
  apply wp_bind. case_decide as Hlt.
  - apply wp_bind, wp_draw. simpl.
    destruct (shuffled_and_capped_spec (n - length l1) (active_view s) r1) as (_ & Hl2 & Hin2).
    destruct (index_set.shuffled_and_capped _ _ _) as [l2 r2]. simpl in *. wp_steps.
    exists r2, (l1 ++ l2). split_and!; [done|done|rewrite length_app; lia|].
    intros p [?|?]%elem_of_app; auto.
  - wp_steps. exists r1, l1. split_and!; [done|done|lia|]. intros p Hp. left. auto.
Qed.

Lemma send_disconnect_spec p b s :
  wp (send_disconnect p b) (λ _ s' es, ∃ r nodes,
    s' = set_rng r s ∧
    es = [SendMessage p (MShuffleReply (mkShuffleReply (peer_info s <$> nodes)));
          SendMessage p (MDisconnect (mkDisconnect b false)); DisconnectPeer p] ∧
    length nodes ≤ shuffle_active_view_count (config s) + shuffle_passive_view_count (config s)) s.
Proof.
  unfold send_disconnect. wp_steps.
  eapply wp_mono; [apply send_shuffle_reply_spec|].
  intros _ s1 es1 (r & nodes & -> & -> & Hl & _). wp_steps. exists r, nodes. done.
Qed.

(** ** Handlers that change the active view *)

Lemma active_set_remove s v p :
  active_peers s ≡ₚ p :: index_set.iter v →
  active_set (set_active_view v s) = active_set s ∖ {[p]} ∧ p ∈ active_set s.
Proof.
  intros Hp. unfold active_set. simpl. split.
  - apply set_eq. intros q. unfold active_peers at 1. simpl.
    rewrite elem_of_list_to_set, elem_of_difference, elem_of_singleton, elem_of_list_to_set.
    apply (perm_cons_elem p q (active_view s)). done.
  - apply elem_of_list_to_set. rewrite Hp. left.
Qed.

Lemma inv_shrink_active s v p :
  inv s → active_peers s ≡ₚ p :: index_set.iter v → inv (set_active_view v s).
Proof.
  intros [H1 H2 H3 H4 H5 H6] Hp.
  assert (∀ q, q ∈ index_set.iter v → q ∈ active_peers s) as Hsub.
  { intros q Hq. rewrite Hp. by right. }
  pose proof (Permutation_length Hp) as Hl. simpl in Hl.
  split; unfold active_peers, passive_peers in *; simpl in *; auto. lia.
Qed.

Lemma ok_keep_passive p reason : ok inv quiet (keep_passive (IS := IS) (R := R) p reason).
Proof.
  apply ok_get_bind. intros s Hs. wp_steps.
  eapply wp_mono; [apply ok_add_passive; by apply (inv_ext s)|].
  intros _ s1 es1 [Hs1 Hq1].
  destruct reason; wp_steps; (split; [by first [done | apply (inv_ext s1)]|]);
    destruct Hq1 as (? & ? & ? & ?); simpl; rewrite ?app_nil_r; by split_and!.
Qed.

#[local] Hint Resolve ok_keep_passive : hyparview.

Lemma ok_after_removal p reason : ok inv quiet (after_removal (IS := IS) (R := R) p reason).
Proof. unfold after_removal. ok_steps. Qed.

Lemma remove_active_by_index_spec i p s reason :
  inv s → active_peers s !! i = Some p →
  wp (remove_active_by_index i reason) (λ o s' es,
    o = Some p ∧ inv s' ∧ step s es s' ∧ active_peers s ≡ₚ p :: active_peers s') s.
Proof.
  intros Hs Hi. unfold remove_active_by_index. wp_steps.
  destruct (remove_index_perm i p (active_view s) Hi) as [Hr1 Hperm].
  destruct (index_set.remove_index i (active_view s)) as [o v]. simpl in Hr1, Hperm. subst o.
  wp_steps. destruct (active_set_remove _ _ _ Hperm) as [Hset Hin].
  eapply wp_mono; [by apply ok_after_removal, (inv_shrink_active _ _ _ Hs Hperm)|].
  intros _ s' es [Hs' Hq]. wp_steps. rewrite app_nil_r. split_and!; [done|done| |].
  - apply (comp_trans s [EmitEvent (NeighborDown p)] (set_active_view v s)).
    + split_and!; [done|done|]. unfold replay. simpl. by rewrite decide_True, Hset.
    + by apply quiet_step.
  - destruct Hq as (_ & _ & Hv & _). unfold active_peers at 2. by rewrite Hv.
Qed.

Lemma ok_remove_active p reason : ok inv step (remove_active (IS := IS) (R := R) p reason).
Proof.
  apply ok_get_bind. intros s Hs.
  destruct (index_set.get_index_of p (active_view s)) as [i|] eqn:Hi.
  2:{ wp_steps. split; [done|]. apply comp_refl. }
  apply index_of_Some in Hi. apply wp_ok_bind; [apply _|].
  eapply wp_mono; [by apply remove_active_by_index_spec|].
  intros o s1 es1 (-> & Hs1 & Hst & _). split_and!; [done|done|].
  apply ok_quiet_step, ok_refill.
Qed.

(** A full active view has a peer to drop: its slot is free afterwards. *)
Lemma free_random_slot_spec s :
  inv s → wp free_random_slot_in_active_view (λ _ s' es,
    inv s' ∧ step s es s' ∧ active_peers s' ⊆ active_peers s ∧
    (active_peers s ≠ [] → length (active_peers s') < length (active_peers s))) s.
Proof.
  intros Hs. unfold free_random_slot_in_active_view. apply wp_bind, wp_draw.
  pose proof (pick_random_index_spec (active_view s) (rng s)) as Hp.
  destruct (index_set.pick_random_index _ _) as [[i|] r]; simpl in *.
  - destruct (lookup_lt_is_Some_2 (active_peers s) i Hp) as [p Hi]. apply wp_bind.
    eapply wp_mono; [apply (remove_active_by_index_spec i p); [by apply (inv_ext s)|done]|].
    intros o s' es (_ & Hs' & Hst & Hperm). wp_steps. rewrite app_nil_r.
    change (active_peers (set_rng r s)) with (active_peers s) in *.
    split_and!; [done| | |].
    + destruct Hst as (? & ? & ?). done.
    + intros q Hq. rewrite Hperm. by right.
    + intros _. apply Permutation_length in Hperm. simpl in Hperm. lia.
  - wp_steps. split_and!; [by apply (inv_ext s)|done|done|done].
Qed.

(** Adding a fresh peer when there is room: it is announced up. *)
Lemma add_active_unchecked_spec p prio reply s :
  inv s → p ∉ active_peers s → p ≠ me s →
  length (active_peers s) < active_view_capacity (config s) →
  wp (add_active_unchecked p prio reply) (λ _ s' es,
    inv s' ∧ step s es s' ∧ p ∈ active_peers s') s.
Proof.
  intros Hs Hp Hme Hlen. unfold add_active_unchecked. wp_steps. simpl.
  destruct (ixs_iter_insert_out p (active_view s) Hp) as [Hi1 Hi2].
  unfold index_set.insert. destruct (ixs_insert p (active_view s)) as [b v].
  simpl in Hi1, Hi2. subst b. wp_steps.
  set (s1 := set_active_view v (set_passive_view _ s)).
  assert (active_peers s1 = active_peers s ++ [p]) as Ha by exact Hi2.
  assert (inv s1) as Hs1.
  { destruct Hs as [H1 H2 H3 H4 H5 H6]. split; rewrite ?Ha.
    - intros q [Hq| ->%list_elem_of_singleton]%elem_of_app; unfold passive_peers; simpl;
        rewrite elem_of_remove; [intros [? _]; by apply (H1 q)|naive_solver].
    - intros [?|Heq%list_elem_of_singleton]%elem_of_app; [done|]. by apply Hme.
    - unfold passive_peers. simpl. rewrite elem_of_remove. naive_solver.
    - rewrite length_app. simpl. lia.
    - pose proof (len_remove p (passive_view s)). unfold passive_peers, index_set.len in *.
      simpl. lia.
    - done. }
  assert (step s [EmitEvent (NeighborUp p)] s1) as Hst.
  { split_and!; [done|done|]. unfold replay. simpl.
    rewrite decide_False by (unfold active_set; by rewrite elem_of_list_to_set).
    f_equal. apply set_eq. intros q. unfold active_set. rewrite Ha. set_solver. }
  assert (ok inv quiet (if reply then send_neighbor (IS := IS) (R := R) p prio
    else mret tt)) as Htail by ok_steps.
  eapply wp_mono; [by apply Htail|]. intros _ s' es [Hs' Hq]. split_and!; [done| |].
  - apply (comp_trans s [EmitEvent (NeighborUp p)] s1); [done|by apply quiet_step].
  - destruct Hq as (_ & _ & Hv & _). unfold active_peers. rewrite Hv.
    change (p ∈ active_peers s1). rewrite Ha. apply elem_of_app. right. left.
Qed.

Lemma not_full s :
  active_is_full s = false →
  length (active_peers s) < active_view_capacity (config s).
Proof.
  intros Hf%bool_decide_eq_false. unfold index_set.len, active_peers in *. lia.
Qed.

(** A high-priority peer gets its slot, a full view dropping another peer first. *)
Lemma add_active_high_spec p reply s :
  inv s → p ∉ active_peers s → p ≠ me s →
  wp ((if active_is_full s then free_random_slot_in_active_view else mret tt);;
      add_active_unchecked p High reply;; mret true) (λ b s' es,
    b = true ∧ inv s' ∧ step s es s' ∧ p ∈ active_peers s') s.
Proof.
  intros Hs Hp Hme. apply wp_bind.
  eapply wp_mono with (Q := λ _ s1 es1, inv s1 ∧ step s es1 s1 ∧
    active_peers s1 ⊆ active_peers s ∧
    length (active_peers s1) < active_view_capacity (config s1)).
  - destruct (active_is_full s) eqn:Hfull.
    + eapply wp_mono; [by apply free_random_slot_spec|].
      intros _ s1 es1 (Hs1 & Hst1 & Hsub & Hlt). split_and!; [done|done|done|].
      apply bool_decide_eq_true in Hfull. destruct Hst1 as (_ & -> & _).
      pose proof (inv_active_cap _ Hs). pose proof (inv_caps _ Hs) as [? _].
      eapply Nat.lt_le_trans; [apply Hlt|done]. intros Hnil.
      change (index_set.len (active_view s)) with (length (active_peers s)) in Hfull.
      rewrite Hnil in Hfull. simpl in Hfull. lia.
    + wp_steps. split_and!; [done|apply comp_refl|done|by apply not_full].
  - intros _ s1 es1 (Hs1 & Hst1 & Hsub & Hlen). apply wp_bind.
    eapply wp_mono; [apply add_active_unchecked_spec; try done|].
    + intros ?%Hsub. done.
    + destruct Hst1 as (-> & _ & _). done.
    + intros _ s2 es2 (Hs2 & Hst2 & Hin). wp_steps. rewrite app_nil_r.
      split_and!; [done|done| |done]. by eapply comp_trans.
Qed.

(** [add_active] on every branch: its verdict and what it does to the views. *)
Lemma add_active_spec p data prio reply s :
  inv s →
  wp (add_active p data prio reply) (λ b s' es,
    inv s' ∧ step s es s' ∧
    (if b : bool then p ∈ active_peers s' else quiet s es s') ∧
    b = bool_decide (p ≠ me s ∧
          (p ∈ active_peers s ∨ prio = High ∨ active_is_full s = false))) s.
Proof.
  intros Hs. unfold add_active. wp_steps. case_decide as Hme.
  { wp_steps. split_and!; [done|apply comp_refl|by split_and!|].
    symmetry. apply bool_decide_eq_false. naive_solver. }
  apply wp_bind. eapply wp_mono; [by apply ok_insert_peer_info|].
  intros _ s1 es1 [Hs1 Hq1]. wp_steps. pose proof Hq1 as (Hm1 & Hc1 & Hv1 & _).
  assert (active_peers s = active_peers s1) as -> by (unfold active_peers; by rewrite Hv1).
  assert (active_is_full s = active_is_full s1) as ->
    by (unfold active_is_full; by rewrite Hv1, Hc1).
  destruct (index_set.contains p (active_view s1)) eqn:Hcon.
  { apply contains_true in Hcon. apply wp_bind.
    assert (ok inv quiet (if reply then send_neighbor (IS := IS) (R := R) p prio
      else mret tt)) as Htail by ok_steps.
    eapply wp_mono; [by apply Htail|]. intros _ s2 es2 [Hs2 Hq2]. wp_steps.
    simpl. rewrite app_nil_r. split_and!; [done| | |].
    - apply quiet_step. by eapply comp_trans.
    - destruct Hq2 as (_ & _ & Hv2 & _). unfold active_peers. by rewrite Hv2.
    - symmetry. apply bool_decide_eq_true. auto. }
  apply contains_false in Hcon. rewrite <- Hm1 in Hme. destruct prio; simpl.
  - eapply wp_mono; [by apply add_active_high_spec|].
    intros b s2 es2 (-> & Hs2 & Hst2 & Hin). split_and!; [done| |done|].
    + eapply comp_trans; [by apply quiet_step|done].
    + symmetry. apply bool_decide_eq_true. rewrite Hm1 in Hme. auto.
  - destruct (active_is_full s1) eqn:Hfull.
    + wp_steps. simpl. rewrite app_nil_r. split_and!; [done|by apply quiet_step|done|].
      symmetry. apply bool_decide_eq_false. naive_solver.
    + apply wp_bind. eapply wp_mono; [apply add_active_unchecked_spec; auto using not_full|].
      intros _ s2 es2 (Hs2 & Hst2 & Hin). wp_steps. simpl. rewrite app_nil_r.
      split_and!; [done| |done|].
      * eapply comp_trans; [by apply quiet_step|done].
      * symmetry. apply bool_decide_eq_true. rewrite Hm1 in Hme. auto.
Qed.

Lemma ok_add_active p data prio reply :
  ok inv step (add_active (IS := IS) (R := R) p data prio reply).
Proof.
  intros s Hs. eapply wp_mono; [by apply add_active_spec|]. naive_solver.
Qed.

Lemma ok_on_join p data : ok inv step (on_join (IS := IS) (R := R) p data).
Proof.
  unfold on_join. apply ok_bind; [apply _|apply ok_add_active|intros _].
  apply ok_quiet_step. ok_steps.
Qed.

Lemma ok_on_neighbor p n : ok inv step (on_neighbor (IS := IS) (R := R) p n).
Proof.
  unfold on_neighbor. apply ok_bind; [apply _|apply ok_quiet_step; ok_step|intros b].
  apply ok_bind; [apply _|apply ok_add_active|intros added].
  apply ok_quiet_step. ok_steps.
Qed.

Lemma ok_on_disconnect p d : ok inv step (on_disconnect (IS := IS) (R := R) p d).
Proof.
  unfold on_disconnect. apply ok_bind; [apply _|apply ok_quiet_step; ok_step|intros _].
  apply ok_bind; [apply _|apply ok_get; apply _|intros s].
  destruct (index_set.contains p (active_view s)); [apply ok_remove_active|].
  apply ok_quiet_step. ok_steps.
Qed.

Lemma ok_handle_connection_closed p :
  ok inv step (handle_connection_closed (IS := IS) (R := R) p).
Proof.
  unfold handle_connection_closed.
  apply ok_bind; [apply _|apply ok_quiet_step; ok_step|intros _].
  apply ok_bind; [apply _|apply ok_get; apply _|intros s].
  destruct (index_set.contains p (active_view s)); [apply ok_remove_active|].
  apply ok_quiet_step. ok_step; [ok_step|]. ok_step; [ok_step|].
  by apply (ok_remove_passive p).
Qed.

Lemma ok_handle_message p m : ok inv step (handle_message (IS := IS) (R := R) p m).
Proof.
  unfold handle_message.
  apply ok_bind; [apply _|apply ok_get; apply _|intros s].
  apply ok_bind; [apply _|apply ok_quiet_step; ok_steps|intros _].
  destruct m; auto using ok_on_join, ok_on_neighbor, ok_on_disconnect, ok_quiet_step,
    ok_on_forward_join, ok_on_shuffle, ok_on_shuffle_reply.
Qed.

Lemma ok_handle_event ev : ev ≠ Quit → ok inv step (handle_event (IS := IS) (R := R) ev).
Proof.
  intros Hq. destruct ev as [p m|[]|p|p|d|]; simpl; [..|done];
    auto using ok_handle_message, ok_handle_connection_closed, ok_quiet_step,
      ok_handle_shuffle_timer, ok_handle_pending_neighbor_timer, ok_handle_join.
  apply ok_quiet_step. ok_step.
Qed.

(** The first call of [handle] schedules the shuffle timer. *)
Lemma ok_handle_tail :
  ok inv quiet (s ← get;
    if shuffle_scheduled s then mret tt
    else push (ScheduleTimer (shuffle_interval (config s)) DoShuffle);;
         modify (set_shuffle_scheduled (IS := IS) (R := R) true)).
Proof. ok_steps. Qed.

Lemma ok_handle ev : ev ≠ Quit → ok inv step (handle (IS := IS) (R := R) ev).
Proof.
  intros Hq. unfold handle. apply ok_bind; [apply _|by apply ok_handle_event|intros _].
  apply ok_quiet_step, ok_handle_tail.
Qed.

(** The contract of the membership layer with the topic state. *)
#[export] Instance membership_contract :
  HandlerContract inv step (.≠ Quit) (handle (IS := IS) (R := R)).
Proof. split; [apply _|apply ok_handle]. Qed.

(** A closed connection takes the peer out of the active view. *)
Lemma remove_active_leaves p reason s :
  inv s → wp (remove_active p reason) (λ _ s' _, p ∉ active_peers s') s.
Proof.
  intros Hs. unfold remove_active. wp_steps.
  destruct (index_set.get_index_of p (active_view s)) as [i|] eqn:Hi.
  2:{ wp_steps. by apply index_of_None in Hi. }
  apply index_of_Some in Hi. wp_steps.
  eapply wp_mono; [by apply remove_active_by_index_spec|].
  intros o s1 es1 (-> & Hs1 & _ & Hperm).
  eapply wp_mono; [by apply ok_refill|]. intros ? s2 es2 [_ (_ & _ & Hv & _)].
  unfold active_peers at 1. rewrite Hv. pose proof (iter_nodup (active_view s)) as Hnd.
  change (index_set.iter (active_view s)) with (active_peers s) in Hnd.
  rewrite Hperm in Hnd. by apply NoDup_cons in Hnd as [? _].
Qed.

Lemma closed_leaves_active p s :
  inv s → wp (handle (PeerDisconnected p)) (λ _ s' _, p ∉ active_peers s') s.
Proof.
  intros Hs. unfold handle. simpl. apply wp_bind.
  eapply wp_mono with (Q := λ _ s1 _, p ∉ active_peers s1).
  2:{ intros ? s1 ? Hr. wp_steps. by destruct (shuffle_scheduled s1); wp_steps. }
  unfold handle_connection_closed, remove_pending, remove_alive. wp_steps. simpl.
  destruct (index_set.contains p (active_view s)) eqn:Hc.
  - eapply wp_mono; [apply remove_active_leaves; by apply (inv_ext s)|]. done.
  - apply contains_false in Hc. wp_steps. simpl.
    destruct (bool_decide (p ∈ alive_disconnect_peers s)); by wp_steps.
Qed.

(** A neighbor that says goodbye is disconnected. *)
Lemma removal_closes i p b s :
  inv s → active_peers s !! i = Some p →
  wp (remove_active_by_index i (DisconnectReceived b)) (λ _ _ es, DisconnectPeer p ∈ es) s.
Proof.
  intros Hs Hi. unfold remove_active_by_index. wp_steps.
  destruct (remove_index_perm i p (active_view s) Hi) as [Hr1 Hperm].
  destruct (index_set.remove_index i (active_view s)) as [o v].
  simpl in Hr1, Hperm. subst o. wp_steps. unfold after_removal. wp_steps.
  destruct b; wp_steps; [|set_solver].
  eapply wp_mono; [by apply ok_keep_passive, (inv_shrink_active s v p)|].
  intros. wp_steps. set_solver.
Qed.

Lemma disconnect_received_closes p d s :
  inv s → p ∈ active_peers s →
  wp (handle (RecvMessage p (MDisconnect d))) (λ _ _ es, DisconnectPeer p ∈ es) s.
Proof.
  intros Hs Hp. unfold handle. simpl. apply wp_bind.
  eapply wp_mono with (Q := λ _ s1 es, DisconnectPeer p ∈ es).
  2:{ intros ? s1 es He. wp_steps.
      destruct (shuffle_scheduled s1); wp_steps; apply elem_of_app; by left. }
  unfold handle_message. simpl. wp_steps. unfold on_disconnect, remove_pending. wp_steps. simpl.
  rewrite (proj2 (contains_true p (active_view s)) Hp).
  unfold remove_active. wp_steps. simpl.
  destruct (index_set.get_index_of p (active_view s)) as [i|] eqn:Hi.
  2:{ by apply index_of_None in Hi. }
  apply index_of_Some in Hi. wp_steps.
  set (s1 := set_pending _ s). assert (inv s1) as Hs1 by (by apply (inv_ext s)).
  eapply wp_mono; [apply wp_conj; [by apply (remove_active_by_index_spec i p s1)|
    by apply (removal_closes i p)]|].
  intros o s2 es [(-> & Hs2 & _ & _) He]. eapply wp_mono; [by apply ok_refill|].
  intros. simpl. set_solver.
Qed.

(** ** Leaving the swarm *)

(** The peers a list of events disconnects from, in order. *)
Definition disconnected (es : list (OutEvent PI)) : list PI :=
  omap (λ e, match e with DisconnectPeer p => Some p | _ => None end) es.

(** The peers a list of events sends a final, not-alive [Disconnect] to. *)
Definition told_goodbye (es : list (OutEvent PI)) : list PI :=
  omap (λ e, match e with
             | SendMessage p (MDisconnect d) => if alive d then None else Some p
             | _ => None end) es.

Lemma quit_loop_spec (l : list PI) s :
  inv s → active_peers s ≡ₚ l →
  wp (for_each l (λ peer,
        modify (λ s, set_active_view (index_set.remove peer (active_view s)).2 s);;
        send_disconnect peer false)) (λ _ s' es,
    inv s' ∧ active_peers s' = [] ∧ disconnected es = l ∧ told_goodbye es = l ∧
    Forall neutral es) s.
Proof.
  revert s. induction l as [|p l IH]; intros s Hs Hperm; simpl.
  - wp_steps. apply Permutation_nil_r in Hperm. by split_and!.
  - assert (active_peers s ≡ₚ p :: index_set.iter (index_set.remove p (active_view s)).2)
      as Hrem by (apply remove_perm; change (p ∈ active_peers s); rewrite Hperm; left).
    wp_steps. eapply wp_mono; [apply send_disconnect_spec|].
    intros _ s1 es1 (r & nodes & -> & -> & _).
    eapply wp_mono; [apply IH|].
    + apply (inv_ext (set_active_view (index_set.remove p (active_view s)).2 s)); try done.
      by apply inv_shrink_active with p.
    + rewrite Hperm in Hrem. apply (Permutation_cons_inv (a := p)). symmetry. apply Hrem.
    + intros _ s2 es2 (Hs2 & Hnil & Hd & Ht & Hn). simpl.
      split_and!; [done|done|by f_equal|by f_equal|by repeat constructor].
Qed.

Lemma handle_quit_spec s :
  inv s →
  wp (handle Quit) (λ _ s' es,
    inv s' ∧ active_peers s' = [] ∧ disconnected es = active_peers s ∧
    told_goodbye es = active_peers s ∧ Forall neutral es) s.
Proof.
  intros Hs. unfold handle. simpl. unfold handle_quit. wp_steps.
  eapply wp_mono; [by apply quit_loop_spec|].
  intros _ s1 es1 (Hs1 & Hnil & Hd & Ht & Hn).
  wp_steps. destruct (shuffle_scheduled s1); wp_steps; simpl; unfold disconnected, told_goodbye in *;
    rewrite ?omap_app, ?app_nil_r; simpl; rewrite ?app_nil_r.
  - by split_and!.
  - split_and!; try done; [by apply (inv_ext s1)|].
    apply Forall_app. split; [done|by repeat constructor].
Qed.

(** ** Messages forwarded along a random walk *)

(** Not a message that travels on a random walk. *)
Definition no_walk (e : OutEvent PI) : Prop :=
  match e with
  | SendMessage _ (MForwardJoin _) => False
  | SendMessage _ (MShuffle _) => False
  | _ => True
  end.

Definition emits (P : OutEvent PI → Prop) (_ : St) (es : list (OutEvent PI)) (_ : St) : Prop :=
  Forall P es.

#[local] Instance emits_compositional P : Compositional (emits P).
Proof. split; [constructor|]. intros. by apply Forall_app. Qed.

Lemma insert_peer_info_no_walk info :
  ok (λ _, True) (emits no_walk) (insert_peer_info (IS := IS) (R := R) info).
Proof.
  intros s _. unfold insert_peer_info. destruct (pi_data info) as [d|].
  - wp_steps. destruct (_ && _); wp_steps; (split; [done|]); by repeat constructor.
  - wp_steps. split; [done|constructor].
Qed.

Lemma send_neighbor_no_walk p prio :
  ok (λ _, True) (emits no_walk) (send_neighbor (IS := IS) (R := R) p prio).
Proof.
  intros s _. unfold send_neighbor. wp_steps.
  case_decide; wp_steps; (split; [done|]); by repeat constructor.
Qed.

Lemma add_passive_no_walk p data :
  ok (λ _, True) (emits no_walk) (add_passive (IS := IS) (R := R) p data).
Proof.
  unfold add_passive. apply ok_bind; [apply _|apply insert_peer_info_no_walk|intros _].
  intros s _. wp_steps. destruct (_ || _); [wp_steps; split; [done|constructor]|].
  apply wp_bind. destruct (passive_is_full s).
  - destruct (index_set.remove_random _ _) as [[? ?] ?]. wp_steps. split; [done|constructor].
  - wp_steps. split; [done|constructor].
Qed.

(** [ForwardJoin] is passed on at most once, to a peer that did not send it. *)
Lemma on_forward_join_walk sender fj s :
  inv s →
  wp (on_forward_join sender fj) (λ _ s' es,
    ∃ es0, Forall no_walk es0 ∧
      (es = es0 ∨ ∃ to, es = es0 ++ [SendMessage to (MForwardJoin
                   (mkForwardJoin (fj_peer fj) (next (fj_ttl fj))))] ∧
         to ∈ active_peers s ∧ to ≠ sender ∧ fj_ttl fj ≠ mkTtl 0)) s.
Proof.
  intros Hs. unfold on_forward_join. wp_steps.
  assert (ok (λ _, True) (emits no_walk) (insert_peer_info (IS := IS) (R := R) (fj_peer fj);;
    send_neighbor (pi_id (fj_peer fj)) High)) as Hjoin.
  { apply ok_bind; [apply _|apply insert_peer_info_no_walk|].
    intros _. apply send_neighbor_no_walk. }
  destruct (index_set.contains _ _);
    [eapply wp_mono; [by apply Hjoin|]; naive_solver|].
  destruct (expired _) eqn:Hexp; simpl;
    [eapply wp_mono; [by apply Hjoin|]; naive_solver|].
  apply bool_decide_eq_false in Hexp.
  case_bool_decide as Hlen; [eapply wp_mono; [by apply Hjoin|]; naive_solver|]. clear Hjoin.
  apply wp_bind. eapply wp_mono with (Q := λ _ s1 es, inv s1 ∧ quiet s es s1 ∧ Forall no_walk es).
  { case_decide; [|wp_steps; split_and!; [done|apply comp_refl|constructor]].
    eapply wp_mono; [apply wp_conj; [by apply ok_add_passive|by apply add_passive_no_walk]|].
    naive_solver. }
  intros _ s1 es1 (Hs1 & (_ & _ & Hv & _) & Hw1). wp_steps.
  destruct (_ && _); [|wp_steps; exists es1; simpl; rewrite app_nil_r; by auto].
  apply wp_bind, wp_draw. cbn beta.
  pose proof (pick_random_without_spec [sender] (active_view s1) (rng s1)) as Hpick.
  destruct (pick_other_active s1 sender (rng s1)) as [q Hq].
  { unfold active_peers, index_set.len in *. rewrite Hv. lia. }
  rewrite Hq in *. destruct Hpick as [Hin Hne]. rewrite Hv in Hin. wp_steps.
  exists es1. split; [done|]. right. exists q. split_and!; try done. set_solver.
Qed.

(** [Shuffle] is passed on at most once, to neither its origin nor its sender. *)
Lemma on_shuffle_walk from sh s :
  expired (sh_ttl sh) = false → 2 ≤ length (active_peers s) →
  wp (on_shuffle from sh) (λ _ s' es,
    es = [] ∨ ∃ to, es = [SendMessage to (MShuffle
                (mkShuffle (sh_origin sh) (sh_nodes sh) (next (sh_ttl sh))))] ∧
      to ∈ active_peers s ∧ to ≠ sh_origin sh ∧ to ≠ from ∧ sh_ttl sh ≠ mkTtl 0) s.
Proof.
  intros Hexp Hlen. unfold on_shuffle. wp_steps. rewrite Hexp. simpl.
  rewrite bool_decide_false by (unfold index_set.len, active_peers in *; lia).
  apply bool_decide_eq_false in Hexp.
  apply wp_bind, wp_draw. cbn beta.
  pose proof (pick_random_without_spec [sh_origin sh; from] (active_view s) (rng s)) as Hp.
  destruct (index_set.pick_random_without _ _ _) as [[q|] r]; simpl in *; wp_steps; [|by left].
  right. exists q. destruct Hp as [Hin Hne]. split_and!; [done|done| | |done]; set_solver.
Qed.

(** Adding a peer that is in no view puts it into the passive view. *)
Lemma add_passive_inserts p data s :
  p ∉ active_peers s → p ≠ me s →
  wp (add_passive p data) (λ _ s' _, p ∈ passive_peers s') s.
Proof.
  intros Ha Hme. unfold add_passive. apply wp_bind.
  assert (ok (λ s1, active_peers s1 = active_peers s ∧ me s1 = me s) (λ _ _ _, True)
    (insert_peer_info (IS := IS) (R := R) (mkPeerInfo p data))) as Hinfo.
  { intros s1 Hs1. unfold insert_peer_info. destruct (pi_data _); wp_steps; [|done].
    destruct (_ && _); by wp_steps. }
  eapply wp_mono; [by apply Hinfo|]. intros _ s1 es1 [[Ha1 Hm1] _]. wp_steps.
  destruct (index_set.contains p (active_view s1)) eqn:Hc1; simpl.
  { apply contains_true in Hc1. change (p ∈ active_peers s1) in Hc1. congruence. }
  destruct (index_set.contains p (passive_view s1)) eqn:Hc2; simpl.
  { wp_steps. by apply contains_true in Hc2. }
  rewrite bool_decide_false by congruence. apply wp_bind.
  destruct (passive_is_full s1).
  - destruct (index_set.remove_random _ _) as [[o v] r]. wp_steps.
    unfold passive_peers. simpl. rewrite elem_of_insert. by left.
  - wp_steps. unfold passive_peers. simpl. rewrite elem_of_insert. by left.
Qed.

Lemma inv_new me me_data cfg (r : R) :
  1 ≤ active_view_capacity cfg → 1 ≤ passive_view_capacity cfg →
  inv (new (IS := IS) me me_data cfg r).
Proof.
  intros Ha Hp. split; unfold active_peers, passive_peers; simpl; rewrite ?iter_new; simpl;
    try lia; set_solver.
Qed.

Lemma active_set_new me me_data cfg (r : R) :
  active_set (new (IS := IS) me me_data cfg r) = ∅.
Proof. unfold active_set, active_peers. simpl. by rewrite iter_new. Qed.

(** The peer is remembered and marked as alive. *)
Definition remembered (p : PI) (s : St) : Prop :=
  p ∈ passive_peers s ∧ p ∈ alive_disconnect_peers s.

Lemma refill_remembers p skip s :
  remembered p s → wp (refill_active_from_passive skip) (λ _ s' _, remembered p s') s.
Proof.
  intros Hr. unfold refill_active_from_passive. wp_steps. case_decide; [by wp_steps|].
  apply wp_bind, wp_draw. destruct (index_set.pick_random_without _ _ _) as [[q|] r]; simpl;
    wp_steps; [|done].
  unfold send_neighbor. wp_steps. case_decide; by wp_steps.
Qed.

(** Removing a peer that told us it stays alive. *)
Lemma remove_alive_remembers p s :
  inv s → p ∈ active_peers s →
  wp (remove_active p (DisconnectReceived true)) (λ _ s' _, remembered p s') s.
Proof.
  intros Hs Hp. unfold remove_active. wp_steps.
  destruct (index_of_elem _ _ Hp) as (i & Hi & Hl). unfold index_set.get_index_of.
  unfold active_peers in Hi, Hl. rewrite Hi. apply wp_bind.
  eapply wp_mono with (Q := λ o s1 _, o = Some p ∧ remembered p s1).
  2:{ intros o s1 _ [-> Hr]. eapply wp_mono; [by apply refill_remembers|]. done. }
  unfold remove_active_by_index. wp_steps.
  destruct (remove_index_perm i p (active_view s) Hl) as [Hr1 Hperm].
  destruct (index_set.remove_index i (active_view s)) as [o v]. simpl in Hr1, Hperm. subst o.
  unfold after_removal, keep_passive. wp_steps.
  eapply wp_mono; [apply add_passive_inserts; simpl|].
  - unfold active_peers. simpl. intros Hv. by apply (perm_cons_elem p p (active_view s)) in Hperm
      as [[_ ?] _].
  - intros ->. by apply (inv_me_active _ Hs).
  - intros ? s1 ? Hin. wp_steps. split; [done|]. split; [done|]. simpl. set_solver.
Qed.

(** ** Claims *)

(** C4: Every handler of the membership layer, on any input event, finishes without
    hitting [unreachable!] or a failed [unwrap], and re-establishes the view
    invariant: active and passive view stay disjoint, never contain the node itself
    and never exceed their configured capacities. *)
Theorem handle_inv ev s :
  inv s → wp (handle ev) (λ _ s' _, inv s') s.
Proof.
  intros Hs. assert (ev = Quit ∨ ev ≠ Quit) as [->|Hq] by (destruct ev; naive_solver).
  - eapply wp_mono; [by apply handle_quit_spec|]. naive_solver.
  - eapply wp_mono; [by apply ok_handle|]. naive_solver.
Qed.

(** C3: From a fresh node, after any sequence of input events other than [Quit], the
    [NeighborUp] and [NeighborDown] events pushed so far are well-formed (no peer
    comes up twice or goes down without being up) and replaying them gives exactly
    the current active view: the topic layer can rely on the events alone. *)
Theorem run_replays_active_view evs me me_data cfg r :
  1 ≤ active_view_capacity cfg → 1 ≤ passive_view_capacity cfg → Quit ∉ evs →
  wp (for_each evs handle) (λ _ s' es,
    inv s' ∧ replay es ∅ = Some (active_set s')) (new (IS := IS) me me_data cfg r).
Proof.
  intros Ha Hp Hq.
  assert (ok inv step (for_each evs (handle (IS := IS) (R := R)))) as Hrun.
  { apply ok_for_each; [apply _|]. intros ev Hev. apply ok_handle. by intros ->. }
  eapply wp_mono; [apply Hrun; by apply inv_new|].
  intros _ s' es [Hs' (_ & _ & Hr)]. rewrite active_set_new in Hr. done.
Qed.

(** A [Join] request, and a [Neighbor] request of high priority, from any other
    node is never refused: afterwards the sender is in the active view, even when
    the view was full. *)
Theorem high_priority_accepted p m s :
  inv s → p ≠ me s →
  (∃ d, m = MJoin d) ∨ (∃ d, m = MNeighbor (mkNeighbor High d)) →
  wp (handle (RecvMessage p m)) (λ _ s' _, p ∈ active_peers s') s.
Proof.
  intros Hs Hme Hm. unfold handle. simpl. apply wp_bind.
  eapply wp_mono with (Q := λ _ s1 _, inv s1 ∧ p ∈ active_peers s1).
  2:{ intros _ s1 _ [Hs1 Hin]. eapply wp_mono; [by apply ok_handle_tail|].
      intros _ s2 _ [_ (_ & _ & Hv & _)]. unfold active_peers. by rewrite Hv. }
  unfold handle_message. wp_steps.
  eapply wp_mono with (Q := λ _ s1 _, inv s1 ∧ me s1 = me s).
  { destruct (_ && _); wp_steps; [|done]. split; [by apply (inv_ext s)|done]. }
  intros _ s1 _ [Hs1 Hm1]. rewrite <- Hm1 in Hme.
  destruct Hm as [[d ->]|[d ->]]; unfold on_join, on_neighbor; apply wp_bind.
  - eapply wp_mono; [by apply add_active_spec|]. intros b s2 ? (Hs2 & _ & Hb & Hbd). subst b.
    rewrite bool_decide_true in Hb by auto. wp_steps. unfold wp. by rewrite for_each_push.
  - eapply wp_mono with (Q := λ _ s2 _, inv s2 ∧ me s2 = me s1).
    { eapply wp_mono; [by apply ok_remove_pending|]. intros ? ? ? [? (? & _)]. done. }
    intros reply s2 _ [Hs2 Hm2]. rewrite <- Hm2 in Hme. apply wp_bind.
    eapply wp_mono; [by apply add_active_spec|]. intros b s3 ? (Hs3 & _ & Hb & Hbd). subst b.
    simpl. rewrite bool_decide_true in * by auto. by wp_steps.
Qed.

(** A [Neighbor] request of low priority from a stranger finds a full active view:
    the request is refused, the active view does not change, and the sender is told
    so with a [Disconnect] that marks us alive before its connection is closed. *)
Theorem low_priority_refused p d s :
  inv s → p ≠ me s → p ∉ active_peers s → active_is_full s = true →
  wp (on_neighbor p (mkNeighbor Low d)) (λ _ s' es,
    active_peers s' = active_peers s ∧
    ∃ es0, es = es0 ++ [SendMessage p (MDisconnect (mkDisconnect true false));
                        DisconnectPeer p]) s.
Proof.
  intros Hs Hme Hp Hfull. unfold on_neighbor. apply wp_bind.
  eapply wp_mono with (Q := λ _ s1 _, inv s1 ∧ me s1 = me s ∧
    active_peers s1 = active_peers s ∧ active_is_full s1 = true).
  { eapply wp_mono; [by apply ok_remove_pending|]. intros ? s1 ? [? (Hm & Hc & Hv & _)].
    unfold active_peers, active_is_full in *. by rewrite Hm, Hv, Hc. }
  intros reply s1 es1 (Hs1 & Hm1 & Ha1 & Hf1). apply wp_bind.
  eapply wp_mono; [by apply add_active_spec|]. simpl.
  intros b s2 es2 (Hs2 & _ & Hb & Hbd). assert (b = false) as ->.
  { rewrite Hbd. apply bool_decide_false. rewrite Ha1, Hm1, Hf1. naive_solver. }
  destruct Hb as (_ & _ & Hv2 & _).
  eapply wp_mono; [apply send_disconnect_spec|].
  intros _ s3 es3 (r & nodes & -> & -> & _). split.
  - rewrite <- Ha1. unfold active_peers. simpl. by rewrite Hv2.
  - eexists. rewrite !(cons_middle (SendMessage p (MShuffleReply _))), !app_assoc. done.
Qed.

(** Random walks end: when a [ForwardJoin] or [Shuffle] is passed on, it goes to one
    active peer other than the one it came from, with a strictly smaller
    time-to-live, and a message whose time-to-live is zero is never passed on. *)
Theorem random_walks_shrink sender fj sh s :
  inv s →
  wp (on_forward_join sender fj) (λ _ _ es,
    ∀ to fj', SendMessage to (MForwardJoin fj') ∈ es →
      to ∈ active_peers s ∧ to ≠ sender ∧ fj_peer fj' = fj_peer fj ∧
      (ttl_value (fj_ttl fj') < ttl_value (fj_ttl fj))%N) s ∧
  (expired (sh_ttl sh) = false → 2 ≤ length (active_peers s) →
   wp (on_shuffle sender sh) (λ _ _ es,
    ∀ to sh', SendMessage to (MShuffle sh') ∈ es →
      to ∈ active_peers s ∧ to ≠ sender ∧ to ≠ sh_origin sh ∧ sh_origin sh' = sh_origin sh ∧
      (ttl_value (sh_ttl sh') < ttl_value (sh_ttl sh))%N) s).
Proof.
  intros Hs.
  assert (∀ t : Ttl, t ≠ mkTtl 0 → (ttl_value (next t) < ttl_value t)%N) as Hdec.
  { intros [n] Hn. simpl. assert (n ≠ 0%N) by congruence. lia. }
  split.
  - eapply wp_mono; [by apply on_forward_join_walk|].
    intros _ _ es (es0 & Hw & Hes) to fj' Hin.
    assert (SendMessage to (MForwardJoin fj') ∉ es0) as Hno.
    { intros Hin0. rewrite Forall_forall in Hw. by apply (Hw _ Hin0). }
    destruct Hes as [->|(to' & -> & Hin' & Hne & Ht)]; [done|].
    apply elem_of_app in Hin as [?|Hin]; [done|].
    apply list_elem_of_singleton in Hin. simplify_eq.
    split_and!; try done; by apply Hdec.
  - intros Hexp Hlen. eapply wp_mono; [by apply on_shuffle_walk|].
    intros _ _ es [->|(to' & -> & Hin' & Hne1 & Hne2 & Ht)] to sh' Hin; [set_solver|].
    apply list_elem_of_singleton in Hin. simplify_eq.
    split_and!; try done; by apply Hdec.
Qed.

(** [Quit] empties the active view and says goodbye to every active peer exactly
    once, in order: a [Disconnect] that is not alive, then the connection is closed;
    no [NeighborDown] is reported for them. *)
Theorem quit_leaves_swarm s :
  inv s →
  wp (handle Quit) (λ _ s' es,
    active_peers s' = [] ∧ told_goodbye es = active_peers s ∧
    disconnected es = active_peers s ∧ Forall neutral es) s.
Proof. intros Hs. eapply wp_mono; [by apply handle_quit_spec|]. naive_solver. Qed.

(** A neighbor that disconnects but says it is alive stays known: after its
    [Disconnect] message and the close of its connection it is out of the active view
    and still in the passive view. *)
Theorem alive_disconnect_stays_known p s :
  inv s → p ∈ active_peers s →
  wp (handle (RecvMessage p (MDisconnect (mkDisconnect true false)));;
      handle (PeerDisconnected p))
    (λ _ s' _, p ∈ passive_peers s' ∧ p ∉ active_peers s') s.
Proof.
  intros Hs Hp. apply wp_bind.
  eapply wp_mono with (Q := λ _ s1 _, inv s1 ∧ remembered p s1).
  - eapply wp_mono; [apply wp_conj; [by apply ok_handle|]|].
    2:{ intros ? s1 ? [[Hs1 _] Hr]. split; [done|exact Hr]. }
    unfold handle. simpl. apply wp_bind.
    eapply wp_mono with (Q := λ _ s1 _, remembered p s1).
    2:{ intros ? s1 ? Hr. wp_steps. by destruct (shuffle_scheduled s1); wp_steps. }
    unfold handle_message. simpl. wp_steps. unfold on_disconnect, remove_pending. wp_steps.
    simpl. rewrite (proj2 (contains_true p (active_view s)) Hp).
    eapply wp_mono; [apply remove_alive_remembers; [by apply (inv_ext s)|done]|]. done.
  - intros ? s1 ? [Hs1 [Hr1 Hr2]].
    assert (p ∉ active_peers s1) as Hna by (intros ?; by apply (inv_disjoint _ Hs1 p)).
    unfold handle. simpl. unfold handle_connection_closed, remove_pending, remove_alive.
    wp_steps. simpl. rewrite (proj2 (contains_false p (active_view s1)) Hna). wp_steps.
    simpl. rewrite bool_decide_true by done. wp_steps. simpl.
    by destruct (shuffle_scheduled s1); wp_steps.
Qed.

End facts.

(** ** Witnesses: a node with two neighbors, one known peer and a full active view *)

Definition sample_config : Config := {|
  active_view_capacity := 2;
  passive_view_capacity := 3;
  active_random_walk_length := mkTtl 6;
  passive_random_walk_length := mkTtl 3;
  shuffle_random_walk_length := mkTtl 6;
  shuffle_active_view_count := 3;
  shuffle_passive_view_count := 4;
  shuffle_interval := 60000;
  neighbor_request_timeout := 500
|}.

Definition sample_state : State N (nodup_list N) N := {|
  me := 1%N;
  me_data := None;
  active_view := index_set.from_iter [2; 3]%N;
  passive_view := index_set.from_iter [4]%N;
  config := sample_config;
  shuffle_scheduled := true;
  rng := 42%N;
  stats := default_stats;
  pending_neighbor_requests := ∅;
  peer_data := ∅;
  alive_disconnect_peers := ∅
|}.

Lemma sample_inv : inv sample_state.
Proof.
  split; try (vm_compute; lia);
    change (active_peers sample_state) with [2; 3]%N;
    change (passive_peers sample_state) with [4]%N; set_solver by lia.
Qed.

Lemma handle_inv_witness :
  wp (handle (RecvMessage 5%N (MJoin None))) (λ _ s' _, inv s') sample_state.
Proof. apply handle_inv. exact sample_inv. Defined.

Lemma run_replays_active_view_witness :
  wp (for_each [RecvMessage 2%N (MJoin None); RecvMessage 3%N (MJoin None);
                RecvMessage 4%N (MJoin None); PeerDisconnected 2%N] handle)
    (λ _ s' es, inv s' ∧ replay es ∅ = Some (active_set s'))
    (new (IS := nodup_list N) 1%N None sample_config 7%N).
Proof. apply run_replays_active_view; [simpl; lia|simpl; lia|set_solver]. Defined.

Lemma high_priority_accepted_witness :
  wp (handle (RecvMessage 9%N (MNeighbor (mkNeighbor High None))))
    (λ _ s' _, 9%N ∈ active_peers s') sample_state.
Proof.
  apply high_priority_accepted; [exact sample_inv|done|]. right. by eexists.
Defined.

Lemma low_priority_refused_witness :
  wp (on_neighbor 9%N (mkNeighbor Low None)) (λ _ s' es,
    active_peers s' = active_peers sample_state ∧
    ∃ es0, es = es0 ++ [SendMessage 9%N (MDisconnect (mkDisconnect true false));
                        DisconnectPeer 9%N]) sample_state.
Proof.
  apply low_priority_refused; [exact sample_inv|done| |reflexivity].
  change (active_peers sample_state) with [2; 3]%N. set_solver by lia.
Defined.

Lemma random_walks_shrink_witness :
  wp (on_forward_join 2%N (mkForwardJoin (mkPeerInfo 9%N None) (mkTtl 3))) (λ _ _ es,
    ∀ to fj', SendMessage to (MForwardJoin fj') ∈ es →
      to ∈ active_peers sample_state ∧ to ≠ 2%N ∧ fj_peer fj' = mkPeerInfo 9%N None ∧
      (ttl_value (fj_ttl fj') < 3)%N) sample_state ∧
  wp (on_shuffle 2%N (mkShuffle 7%N [] (mkTtl 4))) (λ _ _ es,
    ∀ to sh', SendMessage to (MShuffle sh') ∈ es →
      to ∈ active_peers sample_state ∧ to ≠ 2%N ∧ to ≠ 7%N ∧ sh_origin sh' = 7%N ∧
      (ttl_value (sh_ttl sh') < 4)%N) sample_state.
Proof.
  destruct (random_walks_shrink 2%N (mkForwardJoin (mkPeerInfo 9%N None) (mkTtl 3))
    (mkShuffle 7%N [] (mkTtl 4)) sample_state sample_inv) as [H1 H2].
  split; [exact H1|]. apply H2; [reflexivity|vm_compute; lia].
Defined.

Lemma alive_disconnect_stays_known_witness :
  wp (handle (RecvMessage 2%N (MDisconnect (mkDisconnect true false)));;
      handle (PeerDisconnected 2%N))
    (λ _ s' _, 2%N ∈ passive_peers s' ∧ 2%N ∉ active_peers s') sample_state.
Proof.
  apply alive_disconnect_stays_known; [exact sample_inv|].
  change (active_peers sample_state) with [2; 3]%N. left.
Defined.
