(* ===== verification/Plumtree.v ===== *)
(** * The PlumTree broadcast protocol: [src/proto/plumtree.rs]

    [Module plumtree] translates the epidemic broadcast tree of one topic: gossip,
    prune, graft and lazy announcements, the message caches, timers and every
    handler.  The BLAKE3 hash, the encoded size of an [IHave] (postcard) and the
    build's overflow checks are the parameters of [GossipEnv].  [u16] rounds and the
    chunk-size subtraction keep Rust's arithmetic; [u64] statistics are unbounded. *)

From Stdlib Require Import NArith.
From stdpp Require Import prelude gmap.
From S2P Require Import Prelude ProtoUtil.

Module plumtree.

(** [MessageId([u8; 32])]: the hash of the content. *)
Abbreviation MessageId := Bytes.

(** External code and build configuration. *)
Class GossipEnv : Type := {
  (** [blake3::hash] *)
  blake3_hash : Bytes → MessageId;
  (** [IHave::POSTCARD_MAX_SIZE] *)
  ihave_postcard_max_size : N;
  (** arithmetic overflow panics (debug) or wraps (release) *)
  overflow_checks : bool
}.

(** ** Messages, timers and events *)

(** [Round(u16)] *)
Record Round : Type := mkRound { round_value : N }.

#[export] Instance Round_eq_dec : EqDecision Round.
Proof. solve_decision. Defined.

Inductive DeliveryScope : Type :=
| DSwarm (round : Round)
| DNeighbors.

#[export] Instance DeliveryScope_eq_dec : EqDecision DeliveryScope.
Proof. solve_decision. Defined.

Definition is_direct (s : DeliveryScope) : bool :=
  match s with
  | DNeighbors => true
  | DSwarm r => bool_decide (r = mkRound 0)
  end.

Inductive Scope : Type := Swarm | Neighbors.

Record Gossip : Type := mkGossip {
  g_id : MessageId;
  g_content : Bytes;
  g_scope : DeliveryScope
}.

Record IHave : Type := mkIHave {
  ih_id : MessageId;
  ih_round : Round
}.

Record Graft : Type := mkGraft {
  graft_id : option MessageId;
  graft_round : Round
}.

Inductive Message : Type :=
| MGossip (details : Gossip)
| MPrune
| MGraft (details : Graft)
| MIHave (details : list IHave).

Inductive Timer : Type :=
| SendGraft (id : MessageId)
| DispatchLazyPush
| EvictCache.

Record GossipEvent (PI : Type) : Type := mkGossipEvent {
  ge_content : Bytes;
  ge_delivered_from : PI;
  ge_scope : DeliveryScope
}.
Arguments mkGossipEvent {PI}.
Arguments ge_content {PI}.
Arguments ge_delivered_from {PI}.
Arguments ge_scope {PI}.

Inductive Event (PI : Type) : Type :=
| Received (event : GossipEvent PI)
| MissingMessages (since_round : Round) (from_peer : PI).
Arguments Received {PI}.
Arguments MissingMessages {PI}.

Inductive InEvent (PI : Type) : Type :=
| RecvMessage (from : PI) (message : Message)
| Broadcast (content : Bytes) (scope : Scope)
| TimerExpired (timer : Timer)
| NeighborUp (peer : PI)
| NeighborDown (peer : PI).
Arguments RecvMessage {PI}.
Arguments Broadcast {PI}.
Arguments TimerExpired {PI}.
Arguments NeighborUp {PI}.
Arguments NeighborDown {PI}.

Inductive OutEvent (PI : Type) : Type :=
| SendMessage (to : PI) (message : Message)
| ScheduleTimer (delay : N) (timer : Timer)
| EmitEvent (event : Event PI).
Arguments SendMessage {PI}.
Arguments ScheduleTimer {PI}.
Arguments EmitEvent {PI}.

(** ** Configuration and state *)

(** Durations and instants in milliseconds. *)
Record Config : Type := mkConfig {
  graft_timeout_1 : N;
  graft_timeout_2 : N;
  dispatch_timeout : N;
  optimization_threshold : Round;
  message_cache_retention : N;
  message_id_retention : N;
  cache_evict_interval : N
}.

Definition default_config : Config := {|
  graft_timeout_1 := 300;
  graft_timeout_2 := 200;
  dispatch_timeout := 15;
  optimization_threshold := mkRound 7;
  message_cache_retention := 30000;
  message_id_retention := 90000;
  cache_evict_interval := 1000
|}.

Record Stats : Type := mkStats {
  payload_messages_received : N;
  control_messages_received : N;
  max_last_delivery_hop : N
}.

Definition default_stats : Stats := mkStats 0 0 0.

Record State (PI : Type) `{PeerIdentity PI} : Type := mkState {
  me : PI;
  config : Config;
  eager_push_peers : gset PI;
  lazy_push_peers : gset PI;
  lazy_push_queue : gmap PI (list IHave);
  missing_messages : gmap MessageId (list (PI * Round));
  received_messages : time_bound_cache.TimeBoundCache MessageId unit;
  cache : time_bound_cache.TimeBoundCache MessageId Gossip;
  graft_timer_scheduled : gset MessageId;
  dispatch_timer_scheduled : bool;
  init : bool;
  locally_authored : gset MessageId;
  stats : Stats;
  max_seen_round : Round;
  max_message_size : N
}.
Arguments mkState {PI _}.
Arguments me {PI _}.
Arguments config {PI _}.
Arguments eager_push_peers {PI _}.
Arguments lazy_push_peers {PI _}.
Arguments lazy_push_queue {PI _}.
Arguments missing_messages {PI _}.
Arguments received_messages {PI _}.
Arguments cache {PI _}.
Arguments graft_timer_scheduled {PI _}.
Arguments dispatch_timer_scheduled {PI _}.
Arguments init {PI _}.
Arguments locally_authored {PI _}.
Arguments stats {PI _}.
Arguments max_seen_round {PI _}.
Arguments max_message_size {PI _}.

Section defs.
Context {PI : Type} `{PeerIdentity PI} `{!GossipEnv}.

Abbreviation St := (State PI).
Abbreviation Act := (act (State PI) (OutEvent PI)).

(** Field updates. *)
Definition set_peers (eager lazy : gset PI) (s : St) : St :=
  mkState (me s) (config s) eager lazy (lazy_push_queue s) (missing_messages s)
    (received_messages s) (cache s) (graft_timer_scheduled s) (dispatch_timer_scheduled s)
    (init s) (locally_authored s) (stats s) (max_seen_round s) (max_message_size s).
Definition set_lazy_queue (q : gmap PI (list IHave)) (scheduled : bool) (s : St) : St :=
  mkState (me s) (config s) (eager_push_peers s) (lazy_push_peers s) q (missing_messages s)
    (received_messages s) (cache s) (graft_timer_scheduled s) scheduled
    (init s) (locally_authored s) (stats s) (max_seen_round s) (max_message_size s).
Definition set_missing (m : gmap MessageId (list (PI * Round))) (s : St) : St :=
  mkState (me s) (config s) (eager_push_peers s) (lazy_push_peers s) (lazy_push_queue s) m
    (received_messages s) (cache s) (graft_timer_scheduled s) (dispatch_timer_scheduled s)
    (init s) (locally_authored s) (stats s) (max_seen_round s) (max_message_size s).
Definition set_received (c : time_bound_cache.TimeBoundCache MessageId unit) (s : St) : St :=
  mkState (me s) (config s) (eager_push_peers s) (lazy_push_peers s) (lazy_push_queue s)
    (missing_messages s) c (cache s) (graft_timer_scheduled s) (dispatch_timer_scheduled s)
    (init s) (locally_authored s) (stats s) (max_seen_round s) (max_message_size s).
Definition set_cache (c : time_bound_cache.TimeBoundCache MessageId Gossip) (s : St) : St :=
  mkState (me s) (config s) (eager_push_peers s) (lazy_push_peers s) (lazy_push_queue s)
    (missing_messages s) (received_messages s) c (graft_timer_scheduled s)
    (dispatch_timer_scheduled s) (init s) (locally_authored s) (stats s) (max_seen_round s)
    (max_message_size s).
Definition set_graft_timers (g : gset MessageId) (s : St) : St :=
  mkState (me s) (config s) (eager_push_peers s) (lazy_push_peers s) (lazy_push_queue s)
    (missing_messages s) (received_messages s) (cache s) g (dispatch_timer_scheduled s)
    (init s) (locally_authored s) (stats s) (max_seen_round s) (max_message_size s).
Definition set_init (b : bool) (s : St) : St :=
  mkState (me s) (config s) (eager_push_peers s) (lazy_push_peers s) (lazy_push_queue s)
    (missing_messages s) (received_messages s) (cache s) (graft_timer_scheduled s)
    (dispatch_timer_scheduled s) b (locally_authored s) (stats s) (max_seen_round s)
    (max_message_size s).
Definition set_authored (a : gset MessageId) (s : St) : St :=
  mkState (me s) (config s) (eager_push_peers s) (lazy_push_peers s) (lazy_push_queue s)
    (missing_messages s) (received_messages s) (cache s) (graft_timer_scheduled s)
    (dispatch_timer_scheduled s) (init s) a (stats s) (max_seen_round s) (max_message_size s).
Definition set_stats (x : Stats) (s : St) : St :=
  mkState (me s) (config s) (eager_push_peers s) (lazy_push_peers s) (lazy_push_queue s)
    (missing_messages s) (received_messages s) (cache s) (graft_timer_scheduled s)
    (dispatch_timer_scheduled s) (init s) (locally_authored s) x (max_seen_round s)
    (max_message_size s).
Definition set_max_seen_round (r : Round) (s : St) : St :=
  mkState (me s) (config s) (eager_push_peers s) (lazy_push_peers s) (lazy_push_queue s)
    (missing_messages s) (received_messages s) (cache s) (graft_timer_scheduled s)
    (dispatch_timer_scheduled s) (init s) (locally_authored s) (stats s) r (max_message_size s).

(** ** Messages *)

Definition from_content (message : Bytes) : MessageId := blake3_hash message.

(** [Round::next]: [Round(self.0 + 1)]. *)
Definition next (r : Round) : Act Round :=
  n ← u16_add overflow_checks (round_value r) 1;
  mret (mkRound n).

Definition round (g : Gossip) : option Round :=
  match g_scope g with
  | DSwarm r => Some r
  | DNeighbors => None
  end.

Definition next_round (g : Gossip) : Act (option Gossip) :=
  match g_scope g with
  | DNeighbors => mret None
  | DSwarm r =>
      r' ← next r;
      mret (Some (mkGossip (g_id g) (g_content g) (DSwarm r')))
  end.

Definition validate (g : Gossip) : bool :=
  bool_decide (from_content (g_content g) = g_id g).

Definition from_message (message : Gossip) (from : PI) : GossipEvent PI :=
  mkGossipEvent (g_content message) from (g_scope message).

(** ** State *)

Definition new (me : PI) (config : Config) (max_message_size : N) : St := {|
  me := me;
  config := config;
  eager_push_peers := ∅;
  lazy_push_peers := ∅;
  lazy_push_queue := ∅;
  missing_messages := ∅;
  received_messages := time_bound_cache.new;
  cache := time_bound_cache.new;
  graft_timer_scheduled := ∅;
  dispatch_timer_scheduled := false;
  init := false;
  locally_authored := ∅;
  stats := default_stats;
  max_seen_round := mkRound 0;
  max_message_size := max_message_size
|}.

(** Moves peer into eager set. *)
Definition add_eager (peer : PI) : Act unit :=
  modify (λ s, set_peers ({[peer]} ∪ eager_push_peers s) (lazy_push_peers s ∖ {[peer]}) s).

(** Moves peer into lazy set. *)
Definition add_lazy (peer : PI) : Act unit :=
  modify (λ s, set_peers (eager_push_peers s ∖ {[peer]}) ({[peer]} ∪ lazy_push_peers s) s).

Definition eager_push (gossip : Gossip) (sender : PI) : Act unit :=
  s ← get;
  for_each (filter (λ p, p ≠ me s ∧ p ≠ sender) (btree_set_iter (eager_push_peers s)))
    (λ peer, push (SendMessage peer (MGossip gossip))).

(** [queue.entry(peer).or_default().push(ihave)] *)
Definition enqueue (ihave : IHave) (q : gmap PI (list IHave)) (peer : PI)
    : gmap PI (list IHave) :=
  <[peer := default [] (q !! peer) ++ [ihave]]> q.

Definition lazy_push (gossip : Gossip) (sender : PI) : Act unit :=
  match round gossip with
  | None => mret tt
  | Some r =>
      s ← get;
      let peers := filter (.≠ sender) (btree_set_iter (lazy_push_peers s)) in
      let queue := foldl (enqueue (mkIHave (g_id gossip) r)) (lazy_push_queue s) peers in
      let has_lazy_peer := negb (bool_decide (peers = [])) in
      if has_lazy_peer && negb (dispatch_timer_scheduled s) then
        push (ScheduleTimer (dispatch_timeout (config s)) DispatchLazyPush);;
        modify (set_lazy_queue queue true)
      else modify (set_lazy_queue queue (dispatch_timer_scheduled s))
  end.

(** ** Handlers *)

Definition on_evict_cache_timer (now : N) : Act unit :=
  modify (λ s, set_cache (time_bound_cache.expire_until now (cache s)).2 s);;
  modify (λ s, set_received (time_bound_cache.expire_until now (received_messages s)).2 s);;
  s ← get;
  push (ScheduleTimer (cache_evict_interval (config s)) EvictCache).

Definition on_dispatch_timer : Act unit :=
  s ← get;
  size1 ← usize_sub overflow_checks (max_message_size s) 1;
  chunk_size ← usize_sub overflow_checks size1 2;
  let chunk_len := (chunk_size / ihave_postcard_max_size)%N in
  for_each (btree_map_iter (lazy_push_queue s)) (λ '(peer, list),
    if decide (chunk_len = 0%N) then panic
    else for_each (chunks chunk_len list) (λ chunk,
           push (SendMessage peer (MIHave chunk))));;
  modify (set_lazy_queue ∅ false).

(** [self.received_messages.insert(id, (), now + retention)]. *)
Definition mark_received (id : MessageId) (now : N) : Act unit :=
  modify (λ s, set_received (time_bound_cache.insert id tt
                 (now + message_id_retention (config s))%N (received_messages s)) s).

(** [self.cache.insert(message.id, message, now + retention)]. *)
Definition cache_message (message : Gossip) (now : N) : Act unit :=
  modify (λ s, set_cache (time_bound_cache.insert (g_id message) message
                 (now + message_cache_retention (config s))%N (cache s)) s).

Definition broadcast (content : Bytes) (scope : Scope) (now : N) : Act unit :=
  let id := from_content content in
  let scope := match scope with
               | Neighbors => DNeighbors
               | Swarm => DSwarm (mkRound 0)
               end in
  let message := mkGossip id content scope in
  s ← get;
  let me := me s in
  match scope with
  | DSwarm _ =>
      mark_received id now;;
      cache_message message now;;
      modify (λ s, set_authored ({[id]} ∪ locally_authored s) s);;
      lazy_push message me
  | DNeighbors => mret tt
  end;;
  eager_push message me.

(** [min_by] on the round: the first of the entries with the smallest round. *)
Definition best_ihave (ihaves : list (PI * Round)) : option (PI * Round) :=
  foldl (λ best x,
    match best with
    | None => Some x
    | Some b => if decide (round_value x.2 < round_value b.2)%N then Some x else Some b
    end) None ihaves.

Definition optimize_tree (gossip_sender : PI) (message : Gossip)
    (previous_ihaves : list (PI * Round)) : Act unit :=
  match round message with
  | None => panic
  | Some r =>
      match best_ihave previous_ihaves with
      | None => mret tt
      | Some (ihave_peer, ihave_round) =>
          s ← get;
          if decide (round_value ihave_round < round_value r ∧
                     round_value (optimization_threshold (config s)) ≤
                       round_value r - round_value ihave_round)%N
          then
            (if decide (ihave_peer ∈ eager_push_peers s) then mret tt
             else
               add_eager ihave_peer;;
               push (SendMessage ihave_peer (MGraft (mkGraft None ihave_round))));;
            add_lazy gossip_sender;;
            push (SendMessage gossip_sender MPrune)
          else mret tt
      end
  end.

(** The branch of [on_gossip] for a swarm message seen for the first time, after it
    was recorded as received. *)
Definition forward_swarm (sender : PI) (message : Gossip) (prev_round : Round) (now : N)
    : Act unit :=
  s ← get;
  gap ← u16_add overflow_checks (round_value (max_seen_round s)) 1;
  (if decide (gap < round_value prev_round)%N then
     push (EmitEvent (MissingMessages (max_seen_round s) sender))
   else mret tt);;
  modify (λ s, set_max_seen_round
    (mkRound (N.max (round_value (max_seen_round s)) (round_value prev_round))) s);;
  next_message ← next_round message;
  match next_message with
  | None => panic
  | Some message =>
      cache_message message now;;
      eager_push message sender;;
      lazy_push message sender;;
      modify (λ s, set_graft_timers (graft_timer_scheduled s ∖ {[g_id message]}) s);;
      s ← get;
      let previous_ihaves := missing_messages s !! g_id message in
      modify (λ s, set_missing (delete (g_id message) (missing_messages s)) s);;
      match previous_ihaves with
      | Some ihaves => optimize_tree sender message ihaves
      | None => mret tt
      end;;
      modify (λ s, set_stats (mkStats (payload_messages_received (stats s))
        (control_messages_received (stats s))
        (N.max (max_last_delivery_hop (stats s)) (round_value prev_round))) s)
  end.

Definition on_gossip (sender : PI) (message : Gossip) (now : N) : Act unit :=
  if negb (validate message) then mret tt
  else
    s ← get;
    if time_bound_cache.contains_key (g_id message) (received_messages s) then
      if decide (g_id message ∈ locally_authored s) then
        modify (λ s, set_authored (locally_authored s ∖ {[g_id message]}) s)
      else
        add_lazy sender;;
        push (SendMessage sender MPrune)
    else
      push (EmitEvent (Received (from_message message sender)));;
      match g_scope message with
      | DSwarm prev_round =>
          mark_received (g_id message) now;;
          forward_swarm sender message prev_round now
      | DNeighbors => mret tt
      end.

Definition on_prune (sender : PI) : Act unit := add_lazy sender.

Definition on_ihave (sender : PI) (ihaves : list IHave) : Act unit :=
  for_each ihaves (λ ihave,
    s ← get;
    if time_bound_cache.contains_key (ih_id ihave) (received_messages s) then mret tt
    else
      modify (λ s, set_missing
        (<[ih_id ihave := default [] (missing_messages s !! ih_id ihave)
                            ++ [(sender, ih_round ihave)]]> (missing_messages s)) s);;
      s ← get;
      if decide (ih_id ihave ∈ graft_timer_scheduled s) then mret tt
      else
        modify (λ s, set_graft_timers ({[ih_id ihave]} ∪ graft_timer_scheduled s) s);;
        push (ScheduleTimer (graft_timeout_1 (config s)) (SendGraft (ih_id ihave)))).

Definition on_send_graft_timer (id : MessageId) : Act unit :=
  modify (λ s, set_graft_timers (graft_timer_scheduled s ∖ {[id]}) s);;
  s ← get;
  if time_bound_cache.contains_key id (received_messages s) then mret tt
  else
    match missing_messages s !! id with
    | Some ((peer, round) :: entries) =>
        modify (set_missing (<[id := entries]> (missing_messages s)));;
        add_eager peer;;
        push (SendMessage peer (MGraft (mkGraft (Some id) round)));;
        push (ScheduleTimer (graft_timeout_2 (config s)) (SendGraft id))
    | _ => mret tt
    end.

Definition on_graft (sender : PI) (details : Graft) : Act unit :=
  add_eager sender;;
  match graft_id details with
  | None => mret tt
  | Some id =>
      s ← get;
      match time_bound_cache.get id (cache s) with
      | Some message => push (SendMessage sender (MGossip message))
      | None => mret tt
      end
  end.

Definition on_neighbor_up (peer : PI) : Act unit := add_eager peer.

Definition on_neighbor_down (peer : PI) : Act unit :=
  modify (λ s, set_missing
    (omap (λ ihaves, let kept := filter (λ x, x.1 ≠ peer) ihaves in
                     if decide (kept = []) then None else Some kept)
       (missing_messages s)) s);;
  modify (λ s, set_peers (eager_push_peers s ∖ {[peer]}) (lazy_push_peers s ∖ {[peer]}) s).

Definition handle_message (sender : PI) (message : Message) (now : N) : Act unit :=
  modify (λ s, set_stats
    (match message with
     | MGossip _ => mkStats (payload_messages_received (stats s) + 1)
                      (control_messages_received (stats s)) (max_last_delivery_hop (stats s))
     | _ => mkStats (payload_messages_received (stats s))
              (control_messages_received (stats s) + 1) (max_last_delivery_hop (stats s))
     end)%N s);;
  match message with
  | MGossip details => on_gossip sender details now
  | MPrune => on_prune sender
  | MIHave details => on_ihave sender details
  | MGraft details => on_graft sender details
  end.

(** The dispatch of [handle] once the state is initialised. *)
Definition handle_event (event : InEvent PI) (now : N) : Act unit :=
  match event with
  | RecvMessage from message => handle_message from message now
  | Broadcast data scope => broadcast data scope now
  | NeighborUp peer => on_neighbor_up peer
  | NeighborDown peer => on_neighbor_down peer
  | TimerExpired DispatchLazyPush => on_dispatch_timer
  | TimerExpired (SendGraft id) => on_send_graft_timer id
  | TimerExpired EvictCache => on_evict_cache_timer now
  end.

Definition handle (event : InEvent PI) (now : N) : Act unit :=
  s ← get;
  (if init s then mret tt
   else
     modify (set_init true);;
     on_evict_cache_timer now);;
  handle_event event now.

End defs.
End plumtree.
