(* ===== verification/PlumtreeFacts.v ===== *)
(** * Correctness of the PlumTree layer

    The state invariant, absence of panics in release builds, delivery at most once
    per retention window, eager and lazy dissemination, recovery of missed messages,
    and what happens at the [u16] limit of the hop counter. *)

From Stdlib Require Import Strings.Byte NArith.
From stdpp Require Import prelude gmap.
From S2P Require Import Prelude ProtoUtil Plumtree.
Import plumtree.

Create HintDb plumtree discriminated.

Section facts.
Context {PI : Type} `{PeerIdentity PI} `{!GossipEnv}.
Abbreviation St := (State PI).
Abbreviation Act := (act (State PI) (OutEvent PI)).
Implicit Types (s : St) (p peer sender : PI) (es : list (OutEvent PI)) (id : MessageId).

(** ** The invariant *)

(** A cached message is stored under the hash of its content and is a swarm message. *)
Definition cache_valid (s : St) : Prop :=
  ∀ id e m, time_bound_cache.map (cache s) !! id = Some (e, m) →
    g_id m = id ∧ from_content (g_content m) = id ∧ ∃ r, g_scope m = DSwarm r.

(** Eager and lazy peers are disjoint; announcements in the queue have a dispatch timer;
    the caches are well-formed; at least one announcement fits into a message. *)
Record pinv (s : St) : Prop := mkPinv {
  pinv_disjoint : eager_push_peers s ## lazy_push_peers s;
  pinv_dispatch : lazy_push_queue s ≠ ∅ → dispatch_timer_scheduled s = true;
  pinv_received : time_bound_cache_facts.wf (received_messages s);
  pinv_cache : time_bound_cache_facts.wf (cache s);
  pinv_valid : cache_valid s;
  pinv_size : (0 < ihave_postcard_max_size)%N ∧
              (3 + ihave_postcard_max_size ≤ max_message_size s)%N
}.

(** ** Step relations *)

(** The event reports the delivery of a swarm message with this id. *)
Definition delivers (id : MessageId) (e : OutEvent PI) : Prop :=
  match e with
  | EmitEvent (Received ge) =>
      from_content (ge_content ge) = id ∧ ge_scope ge ≠ DNeighbors
  | _ => False
  end.

#[export] Instance delivers_dec id e : Decision (delivers id e).
Proof. unfold delivers. destruct e as [| |[]]; apply _. Defined.

(** How many times the events deliver the message. *)
Definition deliveries (id : MessageId) (es : list (OutEvent PI)) : nat :=
  length (filter (delivers id) es).

(** No event of the list is a delivery. *)
Definition undelivered (e : OutEvent PI) : Prop :=
  match e with EmitEvent (Received _) => False | _ => True end.

(** Identity, configuration and message size never change. *)
Definition same_config (s s' : St) : Prop :=
  me s' = me s ∧ config s' = config s ∧ max_message_size s' = max_message_size s.

(** The peers of the broadcast tree. *)
Definition tree_peers (s : St) : gset PI := eager_push_peers s ∪ lazy_push_peers s.

(** The peers in [D] may leave the tree; everyone else stays. *)
Section lost.
Context (D : PI → Prop).

Definition keeps_peers (s s' : St) : Prop :=
  ∀ p, p ∈ tree_peers s → D p ∨ p ∈ tree_peers s'.

(** A step that delivers nothing and leaves the set of received ids alone. *)
Definition calm (s : St) (es : list (OutEvent PI)) (s' : St) : Prop :=
  same_config s s' ∧ received_messages s' = received_messages s ∧ Forall undelivered es ∧
  keeps_peers s s'.

Lemma same_config_trans s1 s2 s3 : same_config s1 s2 → same_config s2 s3 → same_config s1 s3.
Proof. unfold same_config. intros (? & ? & ?) (? & ? & ?). split_and!; congruence. Qed.

Lemma keeps_peers_trans s1 s2 s3 : keeps_peers s1 s2 → keeps_peers s2 s3 → keeps_peers s1 s3.
Proof. intros H1 H2 p Hp. destruct (H1 p Hp) as [|Hp2]; [by left|]. by apply H2. Qed.

Lemma keeps_peers_eq s s' :
  eager_push_peers s' = eager_push_peers s → lazy_push_peers s' = lazy_push_peers s →
  keeps_peers s s'.
Proof. intros He Hl p. unfold tree_peers. rewrite He, Hl. by right. Qed.

#[export] Instance calm_compositional : Compositional calm.
Proof.
  unfold calm. split; [intros s; split_and!; try done; by apply keeps_peers_eq|].
  intros s1 es1 s2 es2 s3 (? & ? & ? & ?) (? & ? & ? & ?).
  split_and!; [by eapply same_config_trans|congruence|by apply Forall_app|
    by eapply keeps_peers_trans].
Qed.

(** ** Basic lemmas *)

Lemma pinv_ext s s' :
  eager_push_peers s' = eager_push_peers s → lazy_push_peers s' = lazy_push_peers s →
  lazy_push_queue s' = lazy_push_queue s →
  dispatch_timer_scheduled s' = dispatch_timer_scheduled s →
  received_messages s' = received_messages s → cache s' = cache s →
  max_message_size s' = max_message_size s → pinv s → pinv s'.
Proof.
  intros He Hl Hq Hd Hr Hc Hm [H1 H2 H3 H4 H5 H6].
  split; unfold cache_valid in *; rewrite ?He, ?Hl, ?Hq, ?Hd, ?Hr, ?Hc, ?Hm; done.
Qed.

Ltac calm_done :=
  unfold calm, same_config; simpl; split_and!;
  first [done | by apply keeps_peers_eq
        | repeat constructor; done].

Lemma ok_push_calm e : undelivered e → ok pinv calm (push e).
Proof. intros He. apply ok_push. intros s _. calm_done. Qed.

(** A change of fields the invariant does not mention. *)
Lemma ok_modify_calm (f : St → St) :
  (∀ s, (eager_push_peers (f s) = eager_push_peers s ∧
         lazy_push_peers (f s) = lazy_push_peers s ∧
         lazy_push_queue (f s) = lazy_push_queue s ∧
         dispatch_timer_scheduled (f s) = dispatch_timer_scheduled s) ∧
        received_messages (f s) = received_messages s ∧ cache (f s) = cache s ∧
        same_config s (f s)) →
  ok pinv calm (modify f).
Proof.
  intros Hf. apply ok_modify. intros s Hs.
  destruct (Hf s) as ((? & ? & ? & ?) & ? & ? & (? & ? & ?)).
  split; [by apply (pinv_ext s)|]. calm_done.
Qed.

(** Moving a peer between the sets keeps everyone in the tree. *)
Lemma keeps_peers_move s s' p :
  (∀ q, q ≠ p → q ∈ tree_peers s → q ∈ tree_peers s') → D p ∨ p ∈ tree_peers s' →
  keeps_peers s s'.
Proof. intros Hq Hp q Hin. destruct (decide (q = p)) as [->|]; auto. Qed.

Ltac move_done p :=
  unfold calm, same_config; simpl; split_and!; try done;
  apply (keeps_peers_move _ _ p); unfold tree_peers; simpl; set_solver.

Lemma ok_add_eager p : ok pinv calm (add_eager p).
Proof.
  apply ok_modify. intros s [H1 H2 H3 H4 H5 H6]. split; [|move_done p].
  split; simpl; try done. set_solver.
Qed.

Lemma ok_add_lazy p : ok pinv calm (add_lazy p).
Proof.
  apply ok_modify. intros s [H1 H2 H3 H4 H5 H6]. split; [|move_done p].
  split; simpl; try done. set_solver.
Qed.

Ltac ok_step :=
  match goal with
  | |- ok _ _ (mret _) => apply ok_ret; apply _
  | |- ok _ _ get => apply ok_get; apply _
  | |- ok _ _ (push _) => apply ok_push_calm; done
  | |- ok _ _ (add_eager _) => apply ok_add_eager
  | |- ok _ _ (add_lazy _) => apply ok_add_lazy
  | |- ok _ _ (modify _) => apply ok_modify_calm; done
  | |- ok _ _ (for_each _ _) => apply ok_for_each; [apply _|intros ? ?]
  | |- ok _ _ (_ ≫= _) => apply ok_bind; [apply _| |intros ?]
  | |- ok _ _ (if ?b then _ else _) => destruct b
  | |- ok _ _ (match ?x with _ => _ end) => destruct x
  | |- ok _ _ _ => solve [eauto with plumtree]
  end.
Ltac ok_steps := repeat ok_step.

Lemma ok_eager_push g p : ok pinv calm (eager_push g p).
Proof. unfold eager_push. ok_steps. Qed.

Lemma foldl_enqueue_empty ih (l : list PI) q :
  foldl (enqueue ih) q l = ∅ → l = [] ∧ q = ∅.
Proof.
  revert q. induction l as [|p l IH]; intros q; simpl; [done|].
  intros [-> Hq]%IH. exfalso. unfold enqueue in Hq. by apply insert_non_empty in Hq.
Qed.

Lemma ok_lazy_push g p : ok pinv calm (lazy_push g p).
Proof.
  unfold lazy_push. destruct (round g) as [r|]; [|ok_step].
  apply ok_get_bind. intros s [H1 H2 H3 H4 H5 H6]. cbn zeta.
  set (peers := filter _ _). set (q := foldl _ _ _).
  case_bool_decide as Hnil; simpl.
  - wp_steps. split; [|calm_done]. subst q. rewrite Hnil. by split.
  - destruct (dispatch_timer_scheduled s) eqn:Hd; simpl; wp_steps;
      (split; [by split|]); calm_done.
Qed.

Lemma ok_on_graft p g : ok pinv calm (on_graft p g).
Proof. unfold on_graft. ok_steps. Qed.

Lemma ok_on_send_graft_timer id : ok pinv calm (on_send_graft_timer id).
Proof. unfold on_send_graft_timer. ok_steps. Qed.

Lemma ok_on_ihave p l : ok pinv calm (on_ihave p l).
Proof. unfold on_ihave. ok_steps. Qed.

Lemma ok_on_prune p : ok pinv calm (on_prune p).
Proof. unfold on_prune. ok_step. Qed.

Lemma ok_on_neighbor_up p : ok pinv calm (on_neighbor_up p).
Proof. unfold on_neighbor_up. ok_step. Qed.

Lemma ok_on_neighbor_down p : D p → ok pinv calm (on_neighbor_down p).
Proof.
  intros Hp. unfold on_neighbor_down. ok_step; [ok_step|].
  apply ok_modify. intros s [H1 H2 H3 H4 H5 H6]. split; [|move_done p].
  split; simpl; try done. set_solver.
Qed.

Lemma ok_cache_message m now :
  from_content (g_content m) = g_id m → (∃ r, g_scope m = DSwarm r) →
  ok pinv calm (cache_message m now).
Proof.
  intros Hid Hsc. apply ok_modify. intros s [H1 H2 H3 H4 H5 H6]. split; [|calm_done].
  split; simpl; try done.
  - by apply time_bound_cache_facts.wf_insert.
  - intros id e m'. simpl. rewrite lookup_insert. case_decide; [|apply H5].
    intros [= <- <-]. by subst.
Qed.

Lemma ok_optimize_tree p m l :
  (∃ r, g_scope m = DSwarm r) → ok pinv calm (optimize_tree p m l).
Proof.
  intros [r Hr]. unfold optimize_tree, round. rewrite Hr.
  destruct (best_ihave l) as [[q rq]|]; ok_steps.
Qed.

(** ** Dispatch of the lazy queue *)

(** How many announcements fit into one message. *)
Definition chunk_len (s : St) : N :=
  ((max_message_size s - 3) / ihave_postcard_max_size)%N.

Lemma chunk_len_pos s : pinv s → (0 < chunk_len s)%N.
Proof.
  intros [_ _ _ _ _ [Hp Hs]]. unfold chunk_len. apply N.div_str_pos. lia.
Qed.

(** The messages of one dispatch: each peer's queue in consecutive chunks. *)
Definition dispatch_messages (s : St) : list (OutEvent PI) :=
  '(peer, list) ← btree_map_iter (lazy_push_queue s);
  (λ chunk, SendMessage peer (MIHave chunk)) <$> chunks (chunk_len s) list.

Lemma dispatch_loop n (l : list (PI * list IHave)) s :
  n ≠ 0%N →
  for_each l (λ '(peer, list),
    if decide (n = 0%N) then panic
    else for_each (chunks n list) (λ chunk, push (SendMessage peer (MIHave chunk)))) s
  = Done (tt, s, '(peer, list) ← l;
                 (λ chunk, SendMessage peer (MIHave chunk)) <$> chunks n list).
Proof.
  intros Hn. induction l as [|[p list] l IH]; [done|]. cbn [for_each].
  rewrite decide_False by done. unfold mbind at 1, act_bind at 1.
  rewrite for_each_push. by rewrite IH.
Qed.

(** The timer sends the whole queue and resets the timer flag. *)
Lemma on_dispatch_timer_eq s :
  pinv s →
  on_dispatch_timer s = Done (tt, set_lazy_queue ∅ false s, dispatch_messages s).
Proof.
  intros Hs. pose proof (chunk_len_pos s Hs) as Hc. destruct Hs as [_ _ _ _ _ [Hp Hsz]].
  unfold on_dispatch_timer, usize_sub. unfold mbind, act_bind, get. cbn beta iota.
  rewrite !decide_True by lia.
  replace (max_message_size s - 1 - 2)%N with (max_message_size s - 3)%N by lia.
  change ((max_message_size s - 3) / ihave_postcard_max_size)%N with (chunk_len s).
  cbn beta iota. rewrite dispatch_loop by lia. cbn beta iota.
  unfold modify. by rewrite app_nil_r.
Qed.

Lemma dispatch_messages_undelivered s : Forall undelivered (dispatch_messages s).
Proof.
  apply Forall_forall. intros e He. unfold dispatch_messages in He.
  apply list_elem_of_bind in He as ([p l] & He & _).
  by apply list_elem_of_fmap in He as (c & -> & _).
Qed.

Lemma ok_on_dispatch_timer : ok pinv calm on_dispatch_timer.
Proof.
  intros s Hs. unfold wp. rewrite on_dispatch_timer_eq by done.
  pose proof (dispatch_messages_undelivered s) as Hu. destruct Hs as [H1 H2 H3 H4 H5 H6].
  split; [by split|calm_done].
Qed.

#[local] Hint Resolve ok_eager_push ok_lazy_push ok_on_graft ok_on_send_graft_timer
  ok_on_ihave ok_on_prune ok_on_neighbor_up ok_on_dispatch_timer : plumtree.

(** ** Delivery within a window of time *)

(** The id is recorded as received and does not expire before [T]. *)
Definition sealed (id : MessageId) (T : N) (s : St) : Prop :=
  ∃ e, time_bound_cache.map (received_messages s) !! id = Some (e, tt) ∧ (T ≤ e)%N.

(** A step delivers the message at most once; a delivery seals it and a sealed message
    is not delivered and stays sealed.  [W] says that the step lies within the window of
    time considered. *)
Definition once (W : Prop) (id : MessageId) (T : N) (s : St) (es : list (OutEvent PI))
    (s' : St) : Prop :=
  same_config s s' ∧ keeps_peers s s' ∧
  (W → (sealed id T s → sealed id T s' ∧ deliveries id es = 0) ∧
       deliveries id es ≤ 1 ∧ (deliveries id es = 1 → sealed id T s')).

(** The invariant together with the configured retention of message ids. *)
Definition winv (ret : N) (s : St) : Prop :=
  pinv s ∧ message_id_retention (config s) = ret.

Lemma deliveries_app id es1 es2 :
  deliveries id (es1 ++ es2) = deliveries id es1 + deliveries id es2.
Proof. unfold deliveries. by rewrite filter_app, length_app. Qed.

#[export] Instance once_compositional W id T : Compositional (once W id T).
Proof.
  split.
  - intros s. unfold once, same_config, deliveries. simpl.
    split_and!; auto using keeps_peers_eq with lia.
  - intros s1 es1 s2 es2 s3 (? & ? & Hw1) (? & ? & Hw2).
    unfold once. rewrite deliveries_app.
    split; [by eapply same_config_trans|split; [by eapply keeps_peers_trans|]].
    intros HW. destruct (Hw1 HW) as (Hs1 & Hle1 & Hd1), (Hw2 HW) as (Hs2 & Hle2 & Hd2).
    split_and!.
    + intros Hse. apply Hs1 in Hse as [Hse ->]. apply Hs2 in Hse as [Hse ->]. done.
    + destruct (decide (deliveries id es1 = 1)) as [Hone|]; [|lia].
      destruct (Hs2 (Hd1 Hone)) as [_ ->]. lia.
    + intros Hsum. destruct (decide (deliveries id es1 = 1)) as [Hone|].
      * by apply Hs2, Hd1.
      * apply Hd2. lia.
Qed.

Lemma deliveries_undelivered id es : Forall undelivered es → deliveries id es = 0.
Proof.
  unfold deliveries. induction 1 as [|e es He _ IH]; [done|]. rewrite filter_cons.
  rewrite decide_False; [done|]. destruct e as [| |[]]; simpl in *; naive_solver.
Qed.

(** A step without deliveries of this message that keeps its record. *)
Lemma once_quiet W id T s es s' :
  same_config s s' → keeps_peers s s' → deliveries id es = 0 →
  (W → sealed id T s → sealed id T s') → once W id T s es s'.
Proof. intros Hc Hk Hz Hs. unfold once. rewrite Hz. split; [done|split; [done|]]. intros HW. split_and!; auto with lia. Qed.

Lemma ok_calm_once {A} W id T ret (m : Act A) :
  ok pinv calm m → ok (winv ret) (once W id T) m.
Proof.
  intros Hm s [Hs Hret]. eapply wp_mono; [by apply Hm|].
  intros a s' es [Hs' ((Hme & Hc & Hsz) & Hr & Hu & Hk)]. split.
  - split; [done|]. by rewrite Hc.
  - apply once_quiet; [done|done|by apply deliveries_undelivered|].
    unfold sealed. by rewrite Hr.
Qed.

Lemma ok_evict_once W id T ret now :
  (W → now < T)%N → ok (winv ret) (once W id T) (on_evict_cache_timer now).
Proof.
  intros Hnow s [[H1 H2 H3 H4 H5 H6] Hret]. unfold on_evict_cache_timer. wp_steps.
  destruct (time_bound_cache_facts.expire_until_spec now (cache s) H4) as (Hc1 & _ & Hc2).
  destruct (time_bound_cache_facts.expire_until_spec now (received_messages s) H3)
    as (Hr1 & _ & Hr2).
  split; [split; [split|]|]; simpl; try done.
  - intros id' e m. simpl. rewrite Hc1. unfold time_bound_cache_facts.live_after.
    rewrite map_lookup_filter_Some. intros [Hl _]. by apply H5 in Hl.
  - apply once_quiet; [done|by apply keeps_peers_eq|done|]. intros HW. specialize (Hnow HW).
    unfold sealed. simpl. rewrite Hr1. unfold time_bound_cache_facts.live_after.
    intros (e & He & HT). exists e. rewrite map_lookup_filter_Some. simpl.
    split_and!; try done. lia.
Qed.

Lemma ok_mark_received W id T ret id' now :
  (W → T ≤ now + ret)%N → ok (winv ret) (once W id T) (mark_received id' now).
Proof.
  intros HT. apply ok_modify. intros s [[H1 H2 H3 H4 H5 H6] Hret]. split.
  - split; [|done]. split; simpl; try done. by apply time_bound_cache_facts.wf_insert.
  - apply once_quiet; [done|by apply keeps_peers_eq|done|]. intros HW. specialize (HT HW). unfold sealed. simpl.
    intros (e & He & Hle). rewrite lookup_insert.
    case_decide; [|by eauto]. eexists. split; [done|]. lia.
Qed.

(** Recording the id seals it. *)
Lemma mark_received_seals W id T ret now s :
  winv ret s → (W → T ≤ now + ret)%N →
  wp (mark_received id now) (λ _ s' es,
    winv ret s' ∧ once W id T s es s' ∧ es = [] ∧ (W → sealed id T s')) s.
Proof.
  intros Hs HT. pose proof (ok_mark_received W id T ret id now HT s Hs) as [Hs' Ho].
  unfold mark_received. wp_steps. split_and!; [done..|]. intros HW.
  unfold sealed. simpl. rewrite lookup_insert_eq. destruct Hs as [_ ->].
  eexists. split; [done|]. auto.
Qed.

(** ** Release builds *)

Section release.
Hypothesis release_build : overflow_checks = false.

Lemma ok_u16_add a b : ok pinv calm (u16_add overflow_checks a b).
Proof.
  intros s Hs. unfold wp, u16_add. rewrite release_build.
  case_decide; (split; [done|calm_done]).
Qed.

(** The hop counter of a forwarded message wraps at 65535. *)
Lemma next_round_release m r s :
  g_scope m = DSwarm r →
  wp (next_round m) (λ o s' es, s' = s ∧ es = [] ∧
    o = Some (mkGossip (g_id m) (g_content m)
      (DSwarm (mkRound ((round_value r + 1) mod (u16_max + 1)))))) s.
Proof.
  intros Hr. unfold next_round, next. rewrite Hr. wp_steps.
  unfold wp, u16_add. rewrite release_build.
  case_decide as Hle; simpl; split_and!; try done.
  rewrite N.mod_small; [done|]. unfold u16_max in *. lia.
Qed.

Lemma ok_forward_swarm p m r now :
  from_content (g_content m) = g_id m → g_scope m = DSwarm r →
  ok pinv calm (forward_swarm p m r now).
Proof.
  intros Hid Hr. unfold forward_swarm. ok_step; [ok_step|].
  ok_step; [apply ok_u16_add|]. ok_step; [ok_steps|]. ok_step; [ok_step|].
  intros s Hs. apply wp_ok_bind; [apply _|].
  eapply wp_mono; [by apply (next_round_release m r)|].
  intros o s1 es1 (-> & -> & ->). split_and!; [done|apply comp_refl|].
  ok_step; [apply ok_cache_message; [done|by eexists]|].
  do 5 (ok_step; [ok_step|]). ok_step; [|ok_step].
  case_match; [|ok_step]. apply ok_optimize_tree. by eexists.
Qed.

(** The steps of a swarm broadcast after the id was recorded. *)
Lemma ok_broadcast_store content sender now :
  let m := mkGossip (from_content content) content (DSwarm (mkRound 0)) in
  ok pinv calm (cache_message m now;;
                modify (λ s, set_authored ({[g_id m]} ∪ locally_authored s) s);;
                lazy_push m sender).
Proof. intros m. ok_step; [by apply ok_cache_message; [|eexists]|]. ok_steps. Qed.

Lemma ok_broadcast_once W id T ret content scope now :
  (W → T ≤ now + ret)%N → ok (winv ret) (once W id T) (broadcast content scope now).
Proof.
  intros HT. unfold broadcast. cbn zeta.
  apply ok_bind; [apply _|apply ok_get; apply _|intros s0].
  apply ok_bind; [apply _| |intros _; apply ok_calm_once; ok_step].
  destruct scope; [|apply ok_ret; apply _].
  apply ok_bind; [apply _|by apply ok_mark_received|intros _].
  apply ok_calm_once, ok_broadcast_store.
Qed.

(** The first receipt of a swarm message: one delivery, and the id is sealed. *)
Lemma first_receipt_once W id T ret p m r now s :
  winv ret s → from_content (g_content m) = g_id m → g_scope m = DSwarm r →
  time_bound_cache.map (received_messages s) !! g_id m = None → (W → T ≤ now + ret)%N →
  wp (push (EmitEvent (Received (from_message m p)));;
      mark_received (g_id m) now;; forward_swarm p m r now)
    (λ _ s' es, winv ret s' ∧ once W id T s es s') s.
Proof.
  intros Hs Hval Hsc Hnew HT.
  set (e := EmitEvent (Received (from_message m p)) : OutEvent PI).
  destruct (decide (g_id m = id)) as [<-|Hne].
  - apply wp_bind, wp_push, wp_bind.
    eapply wp_mono; [by apply (mark_received_seals W (g_id m) T ret)|].
    intros ? s1 es1 (Hs1 & (Hc1 & Hk1 & _) & -> & Hse1).
    eapply wp_mono; [eapply (ok_calm_once W (g_id m) T ret);
      [by apply ok_forward_swarm|done]|].
    intros ? s2 es2 [Hs2 (Hc2 & Hk2 & Hw2)]. split; [done|]. simpl.
    split; [by eapply same_config_trans|split; [by eapply keeps_peers_trans|]].
    intros HW. destruct (Hw2 HW) as [Hse2 _]. destruct (Hse2 (Hse1 HW)) as [Hs2' Hz].
    assert (deliveries (g_id m) (e :: es2) = 1) as ->.
    { unfold deliveries in *. rewrite filter_cons, decide_True; [by simpl; rewrite Hz|].
      simpl. by rewrite Hsc. }
    split_and!; try done. intros (e' & He' & _). congruence.
  - revert s Hs Hnew. intros s Hs _. revert s Hs.
    apply ok_bind; [apply _| |intros _; apply ok_bind; [apply _|by apply ok_mark_received|]].
    + apply ok_push. intros s _. apply once_quiet; [done|by apply keeps_peers_eq| |done].
      unfold deliveries. rewrite filter_cons, decide_False; [done|].
      simpl. rewrite Hval. naive_solver.
    + intros _. apply ok_calm_once. by apply ok_forward_swarm.
Qed.

Lemma ok_on_gossip_once W id T ret p m now :
  (W → T ≤ now + ret)%N → ok (winv ret) (once W id T) (on_gossip p m now).
Proof.
  intros HT. unfold on_gossip. destruct (validate m) eqn:Hval; simpl; [|apply ok_ret; apply _].
  apply bool_decide_eq_true in Hval. apply ok_get_bind. intros s Hs.
  destruct (time_bound_cache.contains_key _ _) eqn:Hcon.
  { case_decide; [eapply (ok_calm_once W id T ret); [ok_step|done]|].
    assert (ok pinv calm (add_lazy p;; push (SendMessage p MPrune))) as Hm by ok_steps.
    by apply (ok_calm_once W id T ret). }
  apply time_bound_cache_facts.contains_key_false in Hcon.
  destruct (g_scope m) as [r|] eqn:Hsc; [by apply first_receipt_once|].
  wp_steps. split; [done|]. simpl. apply once_quiet; [done|by apply keeps_peers_eq| |done].
  unfold deliveries. rewrite filter_cons, decide_False; [done|].
  simpl. rewrite Hsc. naive_solver.
Qed.

Lemma ok_handle_once W id T ret ev now :
  (W → T ≤ now + ret ∧ now < T)%N → (∀ p, ev = NeighborDown p → D p) →
  ok (winv ret) (once W id T) (handle ev now).
Proof.
  intros HT HD. assert (W → T ≤ now + ret)%N as HT1 by naive_solver.
  assert (W → now < T)%N as HT2 by naive_solver.
  unfold handle. apply ok_bind; [apply _|apply ok_get; apply _|intros s0].
  apply ok_bind; [apply _| |intros _].
  { destruct (init s0); [apply ok_ret; apply _|].
    apply ok_bind; [apply _| |intros _; by apply ok_evict_once].
    apply ok_calm_once. ok_step. }
  destruct ev as [p m|c sc|t|p|p]; simpl.
  - unfold handle_message. apply ok_bind; [apply _|apply ok_calm_once; ok_step|intros _].
    destruct m; [by apply ok_on_gossip_once|apply ok_calm_once; ok_step..].
  - by apply ok_broadcast_once.
  - destruct t; [apply ok_calm_once; ok_step|apply ok_calm_once; ok_step|].
    by apply ok_evict_once.
  - apply ok_calm_once. ok_step.
  - apply ok_calm_once, ok_on_neighbor_down. by apply HD.
Qed.

(** The contract of the broadcast layer with the topic state: what it may rely on for the
    events of one instant. *)
Lemma broadcast_contract W id T ret now :
  (W → T ≤ now + ret ∧ now < T)%N →
  HandlerContract (winv ret) (once W id T) (λ ev, ∀ p, ev = NeighborDown p → D p)
    (λ ev, handle ev now).
Proof. intros HT. split; [apply _|]. intros ev. by apply ok_handle_once. Qed.

End release.
End lost.

(** ** Exact behaviour of the dissemination steps *)

(** Once initialised, [handle] is the dispatch on the event. *)
Lemma handle_initialised ev now s :
  init s = true → handle ev now s = handle_event ev now s.
Proof.
  intros Hi. unfold handle, mbind, act_bind, get. rewrite Hi. simpl.
  by destruct (handle_event ev now s) as [[[? ?] ?]|].
Qed.

Lemma wp_handle_initialised ev now Q s :
  init s = true → wp (handle_event ev now) Q s → wp (handle ev now) Q s.
Proof. intros Hi. unfold wp. by rewrite handle_initialised. Qed.

(** A neighbor that comes up is an eager peer. *)
Lemma wp_neighbor_up p now s :
  wp (handle (NeighborUp p) now) (λ _ s' _, p ∈ eager_push_peers s') s.
Proof.
  unfold handle, on_evict_cache_timer. wp_steps.
  destruct (init s); wp_steps; simpl; unfold on_neighbor_up, add_eager; wp_steps; set_solver.
Qed.

(** The payload a node sends with this event. *)
Definition gossip_send (e : OutEvent PI) : option (PI * Gossip) :=
  match e with SendMessage p (MGossip g) => Some (p, g) | _ => None end.

(** Peers a message is pushed to in full. *)
Definition eager_targets (s : St) (sender : PI) : list PI :=
  filter (λ p, p ≠ me s ∧ p ≠ sender) (btree_set_iter (eager_push_peers s)).

(** Neither a delivery nor a payload. *)
Definition control_event (e : OutEvent PI) : Prop := undelivered e ∧ gossip_send e = None.

Lemma eager_push_eq g sender s :
  eager_push g sender s =
  Done (tt, s, (λ peer, SendMessage peer (MGossip g)) <$> eager_targets s sender).
Proof. unfold eager_push, mbind, act_bind, get. by rewrite for_each_push. Qed.

Lemma foldl_enqueue_lookup ih (l : list PI) q p :
  NoDup l → foldl (enqueue ih) q l !! p =
    if decide (p ∈ l) then Some (default [] (q !! p) ++ [ih]) else q !! p.
Proof.
  intros Hnd. revert q. induction Hnd as [|x l Hx _ IH]; intros q; [done|].
  simpl. rewrite IH. unfold enqueue. rewrite lookup_insert.
  destruct (decide (x = p)) as [->|Hne].
  - rewrite decide_False by done. by rewrite decide_True by left.
  - destruct (decide (p ∈ l)); [rewrite decide_True by (by right)|rewrite decide_False]; [done..|].
    set_solver.
Qed.

Lemma wp_lazy_push g sender r s :
  g_scope g = DSwarm r →
  wp (lazy_push g sender) (λ _ s' es,
    (∃ q b, s' = set_lazy_queue q b s ∧
      ∀ p, q !! p = if decide (p ∈ lazy_push_peers s ∧ p ≠ sender)
                    then Some (default [] (lazy_push_queue s !! p) ++ [mkIHave (g_id g) r])
                    else lazy_push_queue s !! p) ∧
    Forall control_event es) s.
Proof.
  intros Hr. unfold lazy_push, round. rewrite Hr. wp_steps. cbn zeta.
  set (peers := filter _ _). set (q := foldl _ _ _).
  assert (∀ p, q !! p = if decide (p ∈ lazy_push_peers s ∧ p ≠ sender)
    then Some (default [] (lazy_push_queue s !! p) ++ [mkIHave (g_id g) r])
    else lazy_push_queue s !! p) as Hq.
  { intros p. subst q. rewrite foldl_enqueue_lookup
      by (apply NoDup_filter, NoDup_btree_set_iter).
    apply decide_ext. subst peers. rewrite list_elem_of_filter, elem_of_btree_set_iter.
    naive_solver. }
  destruct (_ && _); wp_steps; (split; [by exists q; eexists|]); repeat constructor; done.
Qed.

Lemma wp_optimize_tree p m l s :
  (∃ r, g_scope m = DSwarm r) →
  wp (optimize_tree p m l) (λ _ s' es,
    (∃ eager lazy, s' = set_peers eager lazy s) ∧ Forall control_event es) s.
Proof.
  intros [r Hr]. unfold optimize_tree, round. rewrite Hr.
  destruct (best_ihave l) as [[q rq]|]; wp_steps.
  2:{ split; [|constructor]. exists (eager_push_peers s), (lazy_push_peers s). by destruct s. }
  case_decide; wp_steps.
  2:{ split; [|constructor]. exists (eager_push_peers s), (lazy_push_peers s). by destruct s. }
  unfold add_eager, add_lazy.
  case_decide; wp_steps; (split; [do 2 eexists; by destruct s|repeat constructor]).
Qed.

Lemma omap_gossip_control es : Forall control_event es → omap gossip_send es = [].
Proof. induction 1 as [|e es [_ He] _ IH]; [done|]. csimpl. by rewrite He. Qed.

Lemma deliveries_control id es : Forall control_event es → deliveries id es = 0.
Proof. intros He. apply deliveries_undelivered. eapply Forall_impl; [done|]. by intros ? []. Qed.

(** The message as it is forwarded: one hop further, the counter wrapping at 65535. *)
Definition forwarded (m : Gossip) (r : Round) : Gossip :=
  mkGossip (g_id m) (g_content m)
    (DSwarm (mkRound ((round_value r + 1) mod (u16_max + 1)))).

(** What the nodes of the tree get when a swarm message is forwarded. *)
Definition disseminates (s : St) (sender : PI) (m' : Gossip) (s' : St)
    (es : list (OutEvent PI)) : Prop :=
  omap gossip_send es = (λ p, (p, m')) <$> eager_targets s sender ∧
  (∀ p r', g_scope m' = DSwarm r' → p ∈ lazy_push_peers s → p ≠ sender →
     lazy_push_queue s' !! p =
       Some (default [] (lazy_push_queue s !! p) ++ [mkIHave (g_id m') r'])) ∧
  time_bound_cache.get (g_id m') (cache s') = Some m'.

Lemma omap_gossip_fmap m' (l : list PI) :
  omap gossip_send ((λ peer, SendMessage peer (MGossip m')) <$> l) = (λ p, (p, m')) <$> l.
Proof. induction l as [|p l IH]; [done|]. csimpl. by f_equal. Qed.

Lemma deliveries_fmap id m' (l : list PI) :
  deliveries id ((λ peer, SendMessage peer (MGossip m')) <$> l) = 0.
Proof.
  apply deliveries_undelivered, Forall_forall. intros e He.
  by apply list_elem_of_fmap in He as (p & -> & _).
Qed.

Lemma cache_get_insert {V} id (v : V) t c :
  time_bound_cache.get id (time_bound_cache.insert id v t c) = Some v.
Proof.
  unfold time_bound_cache.get, time_bound_cache.insert. simpl. by rewrite lookup_insert_eq.
Qed.

(** The steps after the hop counter was increased. *)
Lemma wp_forward_tail sender m' r' now hop s :
  g_scope m' = DSwarm r' →
  wp (cache_message m' now;;
      eager_push m' sender;;
      lazy_push m' sender;;
      modify (λ s, set_graft_timers (graft_timer_scheduled s ∖ {[g_id m']}) s);;
      s ← get;
      let previous_ihaves := missing_messages s !! g_id m' in
      modify (λ s, set_missing (delete (g_id m') (missing_messages s)) s);;
      match previous_ihaves with
      | Some ihaves => optimize_tree sender m' ihaves
      | None => mret tt
      end;;
      modify (λ s, set_stats (mkStats (payload_messages_received (stats s))
        (control_messages_received (stats s))
        (N.max (max_last_delivery_hop (stats s)) hop)) s))
    (λ _ s' es, disseminates s sender m' s' es ∧ (∀ id, deliveries id es = 0) ∧
       received_messages s' = received_messages s ∧
       (missing_messages s !! g_id m' = Some [] → eager_push_peers s' = eager_push_peers s)) s.
Proof.
  intros Hr'. unfold cache_message at 1. wp_steps. set (s1 := set_cache _ s).
  unfold wp at 1. rewrite eager_push_eq. apply wp_bind.
  eapply wp_mono; [by apply (wp_lazy_push m' sender r')|].
  intros ? s2 es2 [(q & b & -> & Hq) Hc2]. wp_steps. cbn zeta. wp_steps.
  set (s3 := set_missing _ _).
  assert (∀ (o : option (list (PI * Round))),
    wp (match o with Some l => optimize_tree sender m' l | None => mret tt end)
      (λ _ s' es, (∃ eager lazy, s' = set_peers eager lazy s3 ∧
         (o = Some [] → eager = eager_push_peers s3)) ∧ Forall control_event es) s3) as Hopt.
  { intros [[|i l]|].
    - unfold optimize_tree, round. rewrite Hr'. simpl. apply wp_ret. split; [|constructor].
      by exists (eager_push_peers s3), (lazy_push_peers s3).
    - eapply wp_mono; [apply wp_optimize_tree; by eexists|].
      intros ? s4 es4 [(eager & lazy & ->) ?]. split; [|done]. by exists eager, lazy.
    - apply wp_ret. split; [|constructor]. by exists (eager_push_peers s3), (lazy_push_peers s3). }
  eapply wp_mono; [apply Hopt|].
  intros ? s4 es4 [(eager & lazy & -> & He) Hc4]. wp_steps. simpl.
  rewrite !app_nil_r. split_and!; try done.
  - split_and!.
    + rewrite !omap_app, omap_gossip_fmap, !omap_gossip_control, !app_nil_r by done. done.
    + intros p r Hr Hp Hne. simplify_eq. simpl. rewrite Hq.
      rewrite decide_True by done. simpl. congruence.
    + apply cache_get_insert.
  - intros id. by rewrite !deliveries_app, deliveries_fmap, !deliveries_control.
Qed.

Lemma wp_forward_swarm sender m r now s :
  overflow_checks = false → g_scope m = DSwarm r →
  wp (forward_swarm sender m r now) (λ _ s' es,
    disseminates s sender (forwarded m r) s' es ∧ (∀ id, deliveries id es = 0) ∧
    received_messages s' = received_messages s ∧
    (missing_messages s !! g_id m = Some [] → eager_push_peers s' = eager_push_peers s)) s.
Proof.
  intros Hrel Hr. unfold forward_swarm. wp_steps.
  eapply wp_mono with (Q := λ _ s' es, s' = s ∧ es = []).
  { unfold wp, u16_add. rewrite Hrel. by case_decide. }
  intros gap ? ? [-> ->]. apply wp_bind.
  eapply wp_mono with (Q := λ _ s' es, s' = s ∧ Forall control_event es).
  { case_decide; wp_steps; (split; [done|]); repeat constructor. }
  intros ? ? es0 [-> Hc0]. wp_steps. set (s1 := set_max_seen_round _ s).
  eapply wp_mono; [by apply (next_round_release Hrel m r)|].
  intros ? ? ? (-> & -> & ->). eapply wp_mono; [by eapply (wp_forward_tail _ (forwarded m r))|].
  intros ? s2 es2 ((Hg & Hl & Hc) & Hd & Hrec & Hm). simpl. split_and!; try done.
  - split_and!; [|done..]. rewrite omap_app, (omap_gossip_control es0) by done. done.
  - intros id. by rewrite deliveries_app, Hd, deliveries_control.
Qed.

(** The first receipt of a swarm message: delivered once, then forwarded. *)
Lemma wp_fresh_gossip sender m r now s :
  overflow_checks = false → validate m = true →
  time_bound_cache.contains_key (g_id m) (received_messages s) = false →
  g_scope m = DSwarm r →
  wp (on_gossip sender m now) (λ _ s' es,
    (∃ es', es = EmitEvent (Received (mkGossipEvent (g_content m) sender (DSwarm r))) :: es') ∧
    deliveries (g_id m) es = 1 ∧
    time_bound_cache.contains_key (g_id m) (received_messages s') = true ∧
    disseminates s sender (forwarded m r) s' es ∧
    (missing_messages s !! g_id m = Some [] → eager_push_peers s' = eager_push_peers s)) s.
Proof.
  intros Hrel Hval Hnew Hr. unfold on_gossip. rewrite Hval. cbn [negb]. wp_steps.
  rewrite Hnew. wp_steps. rewrite Hr. wp_steps. unfold mark_received. wp_steps.
  eapply wp_mono; [by apply wp_forward_swarm|].
  intros ? s2 es2 (Hdis & Hd & Hrec & Hm). simpl. unfold from_message. rewrite Hr.
  apply bool_decide_eq_true in Hval. split_and!; try done; [by eexists| |].
  - unfold deliveries in *. rewrite filter_cons, decide_True by done. simpl. by rewrite Hd.
  - rewrite Hrec. simpl. apply time_bound_cache_facts.contains_key_true.
    simpl. rewrite lookup_insert_eq. by eexists.
Qed.

(** ** Helpers for the dispatch of announcements *)

(** The announcements this event sends to a peer. *)
Definition ihaves_to (p : PI) (e : OutEvent PI) : option (list IHave) :=
  match e with
  | SendMessage q (MIHave l) => if decide (q = p) then Some l else None
  | _ => None
  end.

Lemma omap_ihaves_to p q (cs : list (list IHave)) :
  omap (ihaves_to p) ((λ chunk, SendMessage q (MIHave chunk)) <$> cs) =
  if decide (q = p) then cs else [].
Proof.
  induction cs as [|c cs IH]; [by case_decide|]. csimpl. case_decide; [by f_equal|done].
Qed.

(** Per peer, the chunks are the queue in order. *)
Lemma dispatched_concat n p (l : list (PI * list IHave)) :
  (0 < n)%N → NoDup l.*1 →
  concat (omap (ihaves_to p) ('(peer, list) ← l;
    (λ chunk, SendMessage peer (MIHave chunk)) <$> chunks n list)) =
  concat (omap (λ x, if decide (x.1 = p) then Some x.2 else None) l).
Proof.
  intros Hn. induction l as [|[q list] l IH]; [done|]. csimpl.
  intros [Hq Hnd]%NoDup_cons. rewrite omap_app, concat_app, omap_ihaves_to, IH by done.
  case_decide; csimpl; [|done]. by rewrite concat_chunks.
Qed.

Lemma omap_fst_lookup {V} (l : list (PI * V)) p v :
  NoDup l.*1 → (p, v) ∈ l →
  omap (λ x, if decide (x.1 = p) then Some x.2 else None) l = [v].
Proof.
  induction l as [|[q w] l IH]; [by intros _ ?%not_elem_of_nil|].
  csimpl. intros [Hq Hnd]%NoDup_cons [[= <- <-]|Hin]%elem_of_cons.
  - rewrite decide_True by done. f_equal. clear IH Hnd.
    induction l as [|[q w] l IH]; [done|]. csimpl in *.
    rewrite decide_False by set_solver. apply IH. set_solver.
  - rewrite decide_False; [by apply IH|]. intros ->. apply Hq.
    by apply (list_elem_of_fmap_2 fst) in Hin.
Qed.

Lemma omap_fst_nil {V} (l : list (PI * V)) p :
  (∀ v, (p, v) ∉ l) → omap (λ x, if decide (x.1 = p) then Some x.2 else None) l = [].
Proof.
  induction l as [|[q w] l IH]; [done|]. intros Hp. csimpl.
  rewrite decide_False; [apply IH; set_solver|]. intros ->. eapply Hp. by left.
Qed.

Lemma dispatch_messages_concat p s :
  pinv s →
  concat (omap (ihaves_to p) (dispatch_messages s)) = default [] (lazy_push_queue s !! p).
Proof.
  intros Hs. unfold dispatch_messages.
  rewrite dispatched_concat by (apply chunk_len_pos || apply NoDup_fst_btree_map_iter; done).
  destruct (lazy_push_queue s !! p) as [l|] eqn:Hl; simpl.
  - rewrite (omap_fst_lookup _ p l); [by simpl; rewrite app_nil_r| |].
    + apply NoDup_fst_btree_map_iter.
    + by apply elem_of_btree_map_iter.
  - rewrite omap_fst_nil; [done|]. intros v. rewrite elem_of_btree_map_iter. congruence.
Qed.

Lemma dispatch_messages_bounded p l s :
  pinv s → SendMessage p (MIHave l) ∈ dispatch_messages s →
  l ≠ [] ∧
  (3 + N.of_nat (length l) * ihave_postcard_max_size ≤ max_message_size s)%N.
Proof.
  intros Hs He. unfold dispatch_messages in He.
  apply list_elem_of_bind in He as ([q list] & He & _).
  apply list_elem_of_fmap in He as (c & [= -> ->] & Hc).
  apply chunks_bounded in Hc as [Hne Hle]; [|by apply chunk_len_pos]. split; [done|].
  destruct Hs as [_ _ _ _ _ [Hp Hsz]]. unfold chunk_len in Hle.
  pose proof (N.Div0.mul_div_le (max_message_size s - 3) ihave_postcard_max_size). nia.
Qed.

(** ** Properties *)

(** A run of timed events. *)
Definition run (evs : list (InEvent PI * N)) : Act unit :=
  for_each evs (λ '(ev, t), handle ev t).

(** The events lie in the window of length [len] from [t0]. *)
Definition within (t0 len : N) (evs : list (InEvent PI * N)) : Prop :=
  Forall (λ '(_, t), t0 ≤ t < t0 + len)%N evs.

Lemma ok_run_once id t0 ret evs :
  overflow_checks = false → within t0 ret evs →
  ok (winv ret) (once (λ _, True) True id (t0 + ret)) (run evs).
Proof.
  intros Hrel Hw. apply ok_for_each; [apply _|]. intros [ev t] Hin.
  apply ok_handle_once; [done| |done]. intros _.
  eapply Forall_forall in Hw; [|exact Hin]. simpl in Hw. lia.
Qed.

(** A broadcast to the swarm records the id for the retention time. *)
Lemma wp_broadcast_seals content t0 ret s :
  overflow_checks = false → winv ret s →
  wp (handle (Broadcast content Swarm) t0) (λ _ s' es,
    winv ret s' ∧ sealed (from_content content) (t0 + ret) s' ∧
    deliveries (from_content content) es = 0) s.
Proof.
  intros Hrel Hs. set (id := from_content content). unfold handle. wp_steps.
  eapply wp_mono with (Q := λ _ s' es, winv ret s' ∧ Forall undelivered es).
  { destruct (init s); [by wp_steps|]. wp_steps.
    pose proof (ok_evict_once (λ _, True) False id 0 ret t0 ltac:(done)
      (set_init true s) ltac:(destruct Hs; split; [by apply (pinv_ext s)|done])) as Hev.
    unfold on_evict_cache_timer in *. wp_steps. destruct Hev as [Hev _]. split; [exact Hev|].
    repeat constructor. }
  intros ? s1 es1 [Hs1 Hu1]. simpl. unfold broadcast. cbn zeta iota. wp_steps.
  eapply wp_mono; [by apply (mark_received_seals (λ _, True) True id (t0 + ret) ret)|].
  intros ? s2 es2 (Hs2 & _ & -> & Hse). specialize (Hse I).
  assert (ok (winv ret) (once (λ _, True) True id (t0 + ret))
    (cache_message (mkGossip id content (DSwarm (mkRound 0))) t0;;
     modify (λ s, set_authored ({[id]} ∪ locally_authored s) s);;
     lazy_push (mkGossip id content (DSwarm (mkRound 0))) (me s1))) as Hrest.
  { apply ok_calm_once, ok_broadcast_store. }
  eapply wp_mono; [by apply Hrest|]. intros ? s3 es3 [Hs3 (_ & _ & Hw3)].
  destruct (Hw3 I) as [Hse3 _]. destruct (Hse3 Hse) as [Hse3' Hd3].
  unfold wp. rewrite eager_push_eq. split_and!; [done..|]. simpl.
  rewrite !deliveries_app, deliveries_fmap, (deliveries_undelivered id es1), Hd3 by done.
  done.
Qed.

(** In a release build every handler of the broadcast layer finishes on every event and
    keeps the invariant: eager and lazy peers stay disjoint, queued announcements have a
    dispatch timer, the caches are well-formed and cached payloads sit under the hash of
    their content. *)
Theorem plumtree_handle_inv ev now s :
  overflow_checks = false → pinv s → wp (handle ev now) (λ _ s' _, pinv s') s.
Proof.
  intros Hrel Hs. eapply wp_mono.
  - by apply (ok_handle_once (λ _, True) Hrel False [] 0 (message_id_retention (config s))).
  - by intros ? s' es [[? _] _].
Qed.

(** Within one retention window of message ids, whatever the peers send, a swarm message
    is delivered to the application at most once. *)
Theorem delivered_at_most_once id t0 evs s :
  overflow_checks = false → pinv s →
  within t0 (message_id_retention (config s)) evs →
  wp (run evs) (λ _ s' es, pinv s' ∧ deliveries id es ≤ 1) s.
Proof.
  intros Hrel Hs Hw. eapply wp_mono; [by apply (ok_run_once id t0)|].
  intros ? s' es [[? _] (_ & _ & Ho)]. split; [done|]. by apply Ho.
Qed.

(** A node's own swarm broadcast is never delivered back to its application while the
    id is retained, whatever the peers send meanwhile. *)
Theorem own_broadcast_not_delivered content t0 evs s :
  overflow_checks = false → pinv s →
  within t0 (message_id_retention (config s)) evs →
  wp (handle (Broadcast content Swarm) t0;; run evs)
    (λ _ _ es, deliveries (from_content content) es = 0) s.
Proof.
  intros Hrel Hs Hw. apply wp_bind. set (ret := message_id_retention (config s)) in *.
  eapply wp_mono; [by apply (wp_broadcast_seals content t0 ret)|].
  intros ? s1 es1 (Hs1 & Hse & Hd1).
  eapply wp_mono; [by apply (ok_run_once (from_content content) t0)|].
  intros ? s2 es2 [_ (_ & _ & Ho)]. rewrite deliveries_app, Hd1.
  destruct (Ho I) as [Hz _]. by destruct (Hz Hse).
Qed.

(** The receipt of a payload is counted. *)
Definition count_payload (s : St) : St :=
  set_stats (mkStats (payload_messages_received (stats s) + 1)%N
    (control_messages_received (stats s)) (max_last_delivery_hop (stats s))) s.

(** A payload whose id is not the hash of its content has no effect beyond the receive
    counter: nothing is delivered, forwarded, cached or recorded as received. *)
Theorem spoofed_id_ignored sender m now s :
  init s = true → from_content (g_content m) ≠ g_id m →
  handle (RecvMessage sender (MGossip m)) now s = Done (tt, count_payload s, []).
Proof.
  intros Hi Hne. rewrite handle_initialised by done. unfold handle_event, handle_message.
  unfold mbind, act_bind, modify, on_gossip, validate. rewrite bool_decide_eq_false_2 by done.
  done.
Qed.

(** C35: A swarm message received for the first time is delivered to the application exactly
    once and first, with the sender and the round it came with; the payload then goes,
    one hop further, to every eager peer but the sender and the node itself, each once;
    the id is queued for every lazy peer but the sender; and the forwarded payload is
    kept to answer later grafts. *)
Theorem fresh_message_disseminated sender m r now s :
  overflow_checks = false → init s = true → from_content (g_content m) = g_id m →
  time_bound_cache.contains_key (g_id m) (received_messages s) = false →
  g_scope m = DSwarm r →
  wp (handle (RecvMessage sender (MGossip m)) now) (λ _ s' es,
    (∃ es', es = EmitEvent (Received (mkGossipEvent (g_content m) sender (DSwarm r))) :: es') ∧
    deliveries (g_id m) es = 1 ∧
    time_bound_cache.contains_key (g_id m) (received_messages s') = true ∧
    disseminates s sender (forwarded m r) s' es) s.
Proof.
  intros Hrel Hi Hval Hnew Hr. apply wp_handle_initialised; [done|]. simpl.
  unfold handle_message. wp_steps.
  eapply wp_mono; [apply (wp_fresh_gossip sender m r now (count_payload s)); try done|].
  - by apply bool_decide_eq_true.
  - intros ? s' es (He & Hd & Hc & Hdis & _). split_and!; done.
Qed.

Lemma duplicate_payload_eq sender m now s :
  init s = true → from_content (g_content m) = g_id m →
  time_bound_cache.contains_key (g_id m) (received_messages s) = true →
  handle (RecvMessage sender (MGossip m)) now s =
    if decide (g_id m ∈ locally_authored s)
    then Done (tt, set_authored (locally_authored s ∖ {[g_id m]}) (count_payload s), [])
    else Done (tt, set_peers (eager_push_peers s ∖ {[sender]})
                     ({[sender]} ∪ lazy_push_peers s) (count_payload s),
               [SendMessage sender MPrune]).
Proof.
  intros Hi Hval Hcon. rewrite handle_initialised by done. apply wp_eq.
  simpl. unfold handle_message. wp_steps. unfold on_gossip, validate.
  rewrite bool_decide_eq_true_2 by done. cbn [negb]. wp_steps.
  change (received_messages _) with (received_messages s). rewrite Hcon.
  change (locally_authored (set_stats _ s)) with (locally_authored s).
  unfold add_lazy. case_decide; by wp_steps.
Qed.

(** A payload the node has already seen is neither delivered nor forwarded.  Its sender
    becomes a lazy peer and is told so with a [Prune], unless the node itself is the
    author, in which case the first sender is spared and the authorship forgotten. *)
Theorem duplicate_payload_pruned sender m now s :
  init s = true → from_content (g_content m) = g_id m →
  time_bound_cache.contains_key (g_id m) (received_messages s) = true →
  handle (RecvMessage sender (MGossip m)) now s =
    if decide (g_id m ∈ locally_authored s)
    then Done (tt, set_authored (locally_authored s ∖ {[g_id m]}) (count_payload s), [])
    else Done (tt, set_peers (eager_push_peers s ∖ {[sender]})
                     ({[sender]} ∪ lazy_push_peers s) (count_payload s),
               [SendMessage sender MPrune]).
Proof. apply duplicate_payload_eq. Qed.

(** When the dispatch timer fires, every peer gets exactly the announcements queued for
    it, in order, in non-empty messages whose encoding fits the maximum message size
    (discriminant, length prefix and announcements at their largest), and the queue and
    the timer flag are reset. *)
Theorem dispatch_flushes_queue now s :
  init s = true → pinv s →
  wp (handle (TimerExpired DispatchLazyPush) now) (λ _ s' es,
    lazy_push_queue s' = ∅ ∧ dispatch_timer_scheduled s' = false ∧
    (∀ p, concat (omap (ihaves_to p) es) = default [] (lazy_push_queue s !! p)) ∧
    (∀ p l, SendMessage p (MIHave l) ∈ es →
       l ≠ [] ∧
       (1 + 2 + N.of_nat (length l) * ihave_postcard_max_size ≤ max_message_size s)%N)) s.
Proof.
  intros Hi Hs. apply wp_handle_initialised; [done|]. simpl. unfold wp.
  rewrite on_dispatch_timer_eq by done. split_and!; [done..| |].
  - intros p. by apply dispatch_messages_concat.
  - intros p l. by apply dispatch_messages_bounded.
Qed.

(** The author of a swarm message spares only the first peer that relays it back: the
    first copy changes neither set of peers, the second makes its sender lazy and sends
    it a [Prune], although both relay the node's own broadcast. *)
Theorem second_forwarder_pruned content p1 p2 r1 r2 t0 t1 t2 s :
  init s = true →
  wp (handle (Broadcast content Swarm) t0) (λ _ s0 _,
    ∃ s1, (handle (RecvMessage p1 (MGossip
             (mkGossip (from_content content) content (DSwarm r1)))) t1 s0
           = Done (tt, s1, [])) ∧
    eager_push_peers s1 = eager_push_peers s ∧ lazy_push_peers s1 = lazy_push_peers s ∧
    ∃ s2, (handle (RecvMessage p2 (MGossip
             (mkGossip (from_content content) content (DSwarm r2)))) t2 s1
           = Done (tt, s2, [SendMessage p2 MPrune])) ∧
    (p2 ∉ eager_push_peers s2) ∧ p2 ∈ lazy_push_peers s2) s.
Proof.
  intros Hi. set (id := from_content content). apply wp_handle_initialised; [done|]. simpl.
  eapply wp_mono with (Q := λ _ s0 _, init s0 = true ∧
    eager_push_peers s0 = eager_push_peers s ∧ lazy_push_peers s0 = lazy_push_peers s ∧
    time_bound_cache.contains_key id (received_messages s0) = true ∧
    id ∈ locally_authored s0).
  { unfold broadcast. cbn zeta iota. fold id. wp_steps. unfold mark_received, cache_message.
    wp_steps. eapply wp_mono; [by eapply wp_lazy_push|].
    intros ? s1 es1 [(q & b & -> & _) _]. unfold wp. rewrite eager_push_eq.
    split_and!; try done.
    - apply time_bound_cache_facts.contains_key_true. simpl. rewrite lookup_insert_eq.
      by eexists.
    - set_solver. }
  intros ? s0 ? (Hi0 & He0 & Hl0 & Hc0 & Ha0).
  set (s1 := set_authored (locally_authored s0 ∖ {[id]}) (count_payload s0)).
  exists s1. split_and!; [|done..|].
  { rewrite duplicate_payload_eq by done. by rewrite decide_True. }
  exists (set_peers (eager_push_peers s1 ∖ {[p2]}) ({[p2]} ∪ lazy_push_peers s1)
            (count_payload s1)).
  split_and!; [|set_solver..].
  rewrite duplicate_payload_eq by done. rewrite decide_False; [done|]. set_solver.
Qed.

(** The announcement of an unknown message records its sender and starts the timer. *)
Lemma wp_announced a id r now s :
  init s = true → time_bound_cache.contains_key id (received_messages s) = false →
  missing_messages s !! id = None → id ∉ graft_timer_scheduled s →
  wp (handle (RecvMessage a (MIHave [mkIHave id r])) now) (λ _ s' es,
    init s' = true ∧ received_messages s' = received_messages s ∧ config s' = config s ∧
    missing_messages s' !! id = Some [(a, r)] ∧
    es = [ScheduleTimer (graft_timeout_1 (config s)) (SendGraft id)]) s.
Proof.
  intros Hi Hnew Hmiss Htimer. apply wp_handle_initialised; [done|]. simpl.
  unfold handle_message. wp_steps. unfold on_ihave. cbn [for_each]. wp_steps.
  change (received_messages (set_stats _ s)) with (received_messages s). cbn [ih_id ih_round].
  rewrite Hnew. wp_steps. rewrite decide_False by done. wp_steps.
  split_and!; try done. simpl. by rewrite lookup_insert_eq, Hmiss.
Qed.

(** The timer asks the first peer that announced the message. *)
Lemma wp_graft_requested a id r now s :
  init s = true → time_bound_cache.contains_key id (received_messages s) = false →
  missing_messages s !! id = Some [(a, r)] →
  wp (handle (TimerExpired (SendGraft id)) now) (λ _ s' es,
    init s' = true ∧ received_messages s' = received_messages s ∧
    missing_messages s' !! id = Some [] ∧ a ∈ eager_push_peers s' ∧
    es = [SendMessage a (MGraft (mkGraft (Some id) r));
          ScheduleTimer (graft_timeout_2 (config s)) (SendGraft id)]) s.
Proof.
  intros Hi Hnew Hmiss. apply wp_handle_initialised; [done|]. simpl.
  unfold on_send_graft_timer. wp_steps.
  change (received_messages (set_graft_timers _ s)) with (received_messages s). rewrite Hnew.
  change (missing_messages (set_graft_timers _ s)) with (missing_messages s). rewrite Hmiss.
  unfold add_eager. wp_steps. split_and!; try done; simpl; [by rewrite lookup_insert_eq|].
  set_solver.
Qed.

(** A graft is answered from the cache. *)
Lemma wp_graft_answered b id r m e now s :
  init s = true → time_bound_cache.map (cache s) !! id = Some (e, m) →
  wp (handle (RecvMessage b (MGraft (mkGraft (Some id) r))) now) (λ _ s' es,
    b ∈ eager_push_peers s' ∧ es = [SendMessage b (MGossip m)]) s.
Proof.
  intros Hi Hc. apply wp_handle_initialised; [done|]. simpl.
  unfold handle_message. wp_steps. unfold on_graft. wp_steps. unfold add_eager. wp_steps.
  cbn [graft_id]. wp_steps. unfold time_bound_cache.get.
  change (cache (set_peers _ _ (set_stats _ s))) with (cache s). rewrite Hc. simpl. wp_steps.
  split; [|done]. simpl. set_solver.
Qed.

(** C36: A lost payload is recovered.  Node [a] holds the message in its cache and announces it
    to node [b], which has not seen it.  Then [b]'s timer fires [Graft] at [a], [a]
    answers with the cached payload, and [b] delivers its content to the application;
    afterwards each node is an eager peer of the other. *)
Theorem graft_recovers_message a b id r e m t1 t2 t3 t4 sa sb :
  overflow_checks = false → pinv sa → init sa = true → init sb = true →
  time_bound_cache.map (cache sa) !! id = Some (e, m) →
  time_bound_cache.contains_key id (received_messages sb) = false →
  missing_messages sb !! id = None → id ∉ graft_timer_scheduled sb →
  wp (handle (RecvMessage a (MIHave [mkIHave id r])) t1) (λ _ sb1 es1,
    es1 = [ScheduleTimer (graft_timeout_1 (config sb)) (SendGraft id)] ∧
    wp (handle (TimerExpired (SendGraft id)) t2) (λ _ sb2 es2,
      es2 = [SendMessage a (MGraft (mkGraft (Some id) r));
             ScheduleTimer (graft_timeout_2 (config sb)) (SendGraft id)] ∧
      wp (handle (RecvMessage b (MGraft (mkGraft (Some id) r))) t3) (λ _ sa1 es3,
        es3 = [SendMessage b (MGossip m)] ∧ b ∈ eager_push_peers sa1 ∧
        wp (handle (RecvMessage a (MGossip m)) t4) (λ _ sb3 es4,
          deliveries id es4 = 1 ∧ a ∈ eager_push_peers sb3 ∧
          EmitEvent (Received (mkGossipEvent (g_content m) a (g_scope m))) ∈ es4) sb2) sa)
      sb1) sb.
Proof.
  intros Hrel Hs Hia Hib Hc Hnew Hmiss Htimer.
  destruct (pinv_valid sa Hs id e m Hc) as (Hid & Hval & [rm Hrm]).
  eapply wp_mono; [by apply wp_announced|].
  intros ? sb1 es1 (Hi1 & Hr1 & Hcf1 & Hm1 & ->). split; [done|].
  eapply wp_mono; [apply (wp_graft_requested a id r); by rewrite ?Hr1|].
  intros ? sb2 es2 (Hi2 & Hr2 & Hm2 & Ha2 & ->). split; [by rewrite Hcf1|].
  eapply wp_mono; [by eapply wp_graft_answered|].
  intros ? sa1 es3 [Hb ->]. split_and!; [done..|].
  apply wp_handle_initialised; [done|]. simpl. unfold handle_message. wp_steps.
  eapply wp_mono; [apply (wp_fresh_gossip a m rm t4 (count_payload sb2)); try done|].
  - apply bool_decide_eq_true. congruence.
  - change (received_messages (count_payload sb2)) with (received_messages sb2). by rewrite Hid, Hr2, Hr1.
  - intros ? sb3 es4 ([es' He] & Hd & _ & _ & Hm). simpl. rewrite Hrm, <-Hid.
    split_and!; [done| |subst es4; left].
    rewrite Hm; [done|]. rewrite Hid. exact Hm2.
Qed.

Lemma forward_swarm_panics sender m now s :
  overflow_checks = true → g_scope m = DSwarm (mkRound u16_max) →
  forward_swarm sender m (mkRound u16_max) now s = Panic.
Proof.
  intros Hchk Hr. unfold forward_swarm. eapply bind_panic_r; [done|].
  destruct (u16_add (E := OutEvent PI) overflow_checks (round_value (max_seen_round s)) 1 s)
    as [[[gap s1] es1]|] eqn:Hadd; [|by apply bind_panic_l].
  eapply bind_panic_r; [exact Hadd|].
  set (gap_event := if decide _ then _ else _).
  assert (∃ es2, gap_event s1 = Done (tt, s1, es2)) as [es2 Hgap]
    by (unfold gap_event; case_decide; by eexists).
  eapply bind_panic_r; [exact Hgap|]. eapply bind_panic_r; [done|].
  apply bind_panic_l. unfold next_round. rewrite Hr. apply bind_panic_l.
  unfold next. apply bind_panic_l. unfold u16_add. rewrite Hchk.
  by rewrite decide_False by (by vm_compute).
Qed.

(** The hop counter is a [u16] that [Round::next] increments unchecked.  A fresh valid
    message at round 65535, which any peer can send, makes a build with overflow checks
    panic; a release build forwards it to every eager peer at round 0, as if it came
    from its author. *)
Theorem round_limit sender m now s :
  init s = true → from_content (g_content m) = g_id m →
  time_bound_cache.contains_key (g_id m) (received_messages s) = false →
  g_scope m = DSwarm (mkRound u16_max) →
  (overflow_checks = true →
   handle (RecvMessage sender (MGossip m)) now s = Panic) ∧
  (overflow_checks = false →
   wp (handle (RecvMessage sender (MGossip m)) now) (λ _ s' es,
     omap gossip_send es =
       (λ p, (p, mkGossip (g_id m) (g_content m) (DSwarm (mkRound 0)))) <$>
         eager_targets s sender) s).
Proof.
  intros Hi Hval Hnew Hr. split; intros Hchk.
  - rewrite handle_initialised by done. simpl. eapply bind_panic_r; [done|].
    unfold on_gossip, validate. rewrite bool_decide_eq_true_2 by done. cbn [negb].
    eapply bind_panic_r; [done|].
    change (received_messages (set_stats _ s)) with (received_messages s). rewrite Hnew, Hr.
    do 2 (eapply bind_panic_r; [done|]). by apply forward_swarm_panics.
  - apply wp_handle_initialised; [done|]. simpl. unfold handle_message. wp_steps.
    eapply wp_mono; [eapply (wp_fresh_gossip sender m _ now (count_payload s)); try done|].
    + by apply bool_decide_eq_true.
    + intros ? s' es (_ & _ & _ & (Hg & _) & _). exact Hg.
Qed.

(** The state after a run. *)
Definition after (evs : list (InEvent PI * N)) (s : St) : St :=
  match run evs s with Done (_, s', _) => s' | Panic => s end.

Lemma pinv_after evs s :
  overflow_checks = false → within 0 (message_id_retention (config s)) evs →
  pinv s → pinv (after evs s).
Proof.
  intros Hrel Hw Hs. pose proof (ok_run_once [] 0 _ evs Hrel Hw s (conj Hs eq_refl)) as Hrun.
  unfold wp, after in *. destruct (run evs s) as [[[[] s'] es]|]; [apply Hrun|done].
Qed.

End facts.

(** ** A concrete node *)

(** Release and debug builds with a toy hash that pads the content to 32 bytes; an [IHave]
    takes 32 bytes of id and at most 3 bytes of round. *)
Definition toy_hash (b : Bytes) : MessageId := take 32 (b ++ replicate 32 "000"%byte).

#[local] Instance release_env : GossipEnv :=
  {| blake3_hash := toy_hash; ihave_postcard_max_size := 35; overflow_checks := false |}.
Definition debug_env : GossipEnv :=
  {| blake3_hash := toy_hash; ihave_postcard_max_size := 35; overflow_checks := true |}.

Definition hello : Bytes := ["104"; "105"]%byte.
Definition hello_gossip (r : N) : Gossip := mkGossip (toy_hash hello) hello (DSwarm (mkRound r)).
Definition bye : Bytes := ["098"; "121"; "101"]%byte.
Definition bye_gossip (r : N) : Gossip := mkGossip (toy_hash bye) bye (DSwarm (mkRound r)).

(** Peers 1 and 2 are eager and 3 is lazy; "hi" has been received from peer 1. *)
Definition sample_events : list (InEvent N * N) :=
  [(NeighborUp 1, 0); (NeighborUp 2, 0); (NeighborUp 3, 0); (RecvMessage 3 MPrune, 1);
   (RecvMessage 1 (MGossip (hello_gossip 0)), 5)]%N.

Definition fresh_node : State N := new 0%N default_config 1024.

Definition sample_node : State N := after sample_events fresh_node.

Lemma fresh_node_pinv : pinv fresh_node.
Proof. by split. Qed.

Lemma sample_pinv : pinv sample_node.
Proof.
  apply pinv_after; [reflexivity| |apply fresh_node_pinv].
  repeat constructor; vm_compute; done.
Qed.

Example sample_views :
  init sample_node = true ∧ btree_set_iter (eager_push_peers sample_node) = [1; 2]%N ∧
  btree_set_iter (lazy_push_peers sample_node) = [3]%N.
Proof. vm_compute. done. Qed.

(** *** Witnesses *)

Lemma plumtree_handle_inv_witness :
  wp (handle (RecvMessage 1%N (MGossip (hello_gossip 0))) 7) (λ _ s' _, pinv s') sample_node.
Proof. apply plumtree_handle_inv; [reflexivity|apply sample_pinv]. Defined.

Definition replayed_events : list (InEvent N * N) :=
  [(RecvMessage 1 (MGossip (bye_gossip 3)), 10); (RecvMessage 2 (MGossip (bye_gossip 1)), 20);
   (TimerExpired EvictCache, 1000); (RecvMessage 3 (MGossip (bye_gossip 9)), 60000)]%N.

Lemma delivered_at_most_once_witness :
  within 10 (message_id_retention (config sample_node)) replayed_events ∧
  wp (run replayed_events) (λ _ s' es, pinv s' ∧ deliveries (toy_hash bye) es ≤ 1) sample_node.
Proof.
  assert (within 10 (message_id_retention (config sample_node)) replayed_events) as Hw
    by (repeat constructor; vm_compute; done).
  split; [exact Hw|]. apply (delivered_at_most_once _ 10); [reflexivity|apply sample_pinv|exact Hw].
Defined.

Lemma own_broadcast_not_delivered_witness :
  wp (handle (Broadcast bye Swarm) 10;; run replayed_events)
    (λ _ _ es, deliveries (from_content bye) es = 0) sample_node.
Proof.
  apply (own_broadcast_not_delivered bye 10 replayed_events sample_node); [reflexivity|apply sample_pinv|].
  repeat constructor; vm_compute; done.
Defined.

Lemma fresh_message_disseminated_witness :
  eager_targets sample_node 1%N = [2]%N ∧ (3%N ∈ lazy_push_peers sample_node) ∧
  wp (handle (RecvMessage 1%N (MGossip (bye_gossip 4))) 7) (λ _ s' es,
    (∃ es', es = EmitEvent (Received (mkGossipEvent bye 1%N (DSwarm (mkRound 4)))) :: es') ∧
    deliveries (toy_hash bye) es = 1 ∧
    time_bound_cache.contains_key (toy_hash bye) (received_messages s') = true ∧
    disseminates sample_node 1%N (bye_gossip 5) s' es) sample_node.
Proof.
  split; [vm_compute; reflexivity|]. split; [decide_compute|].
  apply (fresh_message_disseminated 1%N (bye_gossip 4) (mkRound 4));
    vm_compute; reflexivity.
Defined.

Lemma duplicate_payload_pruned_witness :
  handle (RecvMessage 2%N (MGossip (hello_gossip 1))) 7 sample_node =
    Done (tt, set_peers (eager_push_peers sample_node ∖ {[2%N]})
                ({[2%N]} ∪ lazy_push_peers sample_node) (count_payload sample_node),
          [SendMessage 2%N MPrune]).
Proof.
  rewrite duplicate_payload_pruned; [|vm_compute; reflexivity..].
  rewrite decide_False; [reflexivity|]. decide_compute.
Defined.

Lemma dispatch_flushes_queue_witness :
  lazy_push_queue sample_node ≠ ∅ ∧
  wp (handle (TimerExpired DispatchLazyPush) 20) (λ _ s' es,
    lazy_push_queue s' = ∅ ∧ dispatch_timer_scheduled s' = false ∧
    (∀ p, concat (omap (ihaves_to p) es) = default [] (lazy_push_queue sample_node !! p)) ∧
    (∀ p l, SendMessage p (MIHave l) ∈ es →
       l ≠ [] ∧
       (1 + 2 + N.of_nat (length l) * ihave_postcard_max_size
          ≤ max_message_size sample_node)%N)) sample_node.
Proof.
  split; [decide_compute|].
  apply (dispatch_flushes_queue 20 sample_node); [vm_compute; reflexivity|apply sample_pinv].
Defined.

Lemma second_forwarder_pruned_witness :
  wp (handle (Broadcast bye Swarm) 10) (λ _ s0 _,
    ∃ s1, (handle (RecvMessage 1%N (MGossip
             (mkGossip (from_content bye) bye (DSwarm (mkRound 1))))) 11 s0
           = Done (tt, s1, [])) ∧
    eager_push_peers s1 = eager_push_peers sample_node ∧
    lazy_push_peers s1 = lazy_push_peers sample_node ∧
    ∃ s2, (handle (RecvMessage 2%N (MGossip
             (mkGossip (from_content bye) bye (DSwarm (mkRound 1))))) 12 s1
           = Done (tt, s2, [SendMessage 2%N MPrune])) ∧
    (2%N ∉ eager_push_peers s2) ∧ 2%N ∈ lazy_push_peers s2) sample_node.
Proof.
  apply (second_forwarder_pruned bye 1%N 2%N (mkRound 1) (mkRound 1) 10 11 12 sample_node). vm_compute; reflexivity.
Defined.

(** Peer 7, a neighbor that has seen nothing yet. *)
Definition late_node : State N := after [(NeighborUp 0, 0)]%N (new 7%N default_config 1024).

Lemma graft_recovers_message_witness :
  wp (handle (RecvMessage 0%N (MIHave [mkIHave (toy_hash hello) (mkRound 1)])) 20) (λ _ sb1 es1,
    es1 = [ScheduleTimer (graft_timeout_1 (config late_node)) (SendGraft (toy_hash hello))] ∧
    wp (handle (TimerExpired (SendGraft (toy_hash hello))) 320) (λ _ sb2 es2,
      es2 = [SendMessage 0%N (MGraft (mkGraft (Some (toy_hash hello)) (mkRound 1)));
             ScheduleTimer (graft_timeout_2 (config late_node)) (SendGraft (toy_hash hello))] ∧
      wp (handle (RecvMessage 7%N (MGraft (mkGraft (Some (toy_hash hello)) (mkRound 1)))) 330)
        (λ _ sa1 es3,
        es3 = [SendMessage 7%N (MGossip (hello_gossip 1))] ∧ 7%N ∈ eager_push_peers sa1 ∧
        wp (handle (RecvMessage 0%N (MGossip (hello_gossip 1))) 340) (λ _ sb3 es4,
          deliveries (toy_hash hello) es4 = 1 ∧ 0%N ∈ eager_push_peers sb3 ∧
          EmitEvent (Received 
            (mkGossipEvent (g_content (hello_gossip 1)) 0%N (g_scope (hello_gossip 1)))) ∈ es4) sb2)
        sample_node) sb1) late_node.
Proof.
  apply (graft_recovers_message 0%N 7%N (toy_hash hello) (mkRound 1) 30005 (hello_gossip 1)
    20 320 330 340 sample_node late_node);
    [reflexivity|exact sample_pinv|vm_compute; reflexivity..|decide_compute].
Defined.

Lemma round_limit_witness :
  handle (H0 := debug_env) (RecvMessage 1%N (MGossip (bye_gossip 65535))) 7 sample_node
    = Panic.
Proof.
  apply (round_limit (H0 := debug_env)); vm_compute; reflexivity.
Defined.
