(* ===== verification/Topic.v ===== *)
(** * The protocol state of one topic: [src/proto/topic.rs]

    [Module topic] puts the membership layer and the broadcast layer of a topic
    together: it routes input events to the layers, feeds the neighbor events of
    HyParView into PlumTree and counts messages.  The encoded size of the frame around
    a message (computed by the postcard crate) is the parameter of [WireEnv].

    The outbox of the code is empty between two calls of [handle], which drains it; it
    is the list of events the handler pushes. *)

From Stdlib Require Import NArith.
From stdpp Require Import prelude gmap.
From S2P Require Import Prelude ProtoUtil Hyparview Plumtree.

(** Constants of [src/proto.rs]. *)
Definition DEFAULT_MAX_MESSAGE_SIZE : N := 4096.
Definition MIN_MAX_MESSAGE_SIZE : N := 512.

(** [proto::Message::postcard_header_size()] *)
Class WireEnv : Type := { postcard_header_size : N }.

Module topic.

(** ** Messages, timers and events *)

(** [state::MessageKind] *)
Inductive MessageKind : Type := Data | Control.

Inductive Message (PI : Type) : Type :=
| MSwarm (message : hyparview.Message PI)
| MGossip (message : plumtree.Message).
Arguments MSwarm {PI}.
Arguments MGossip {PI}.

Definition kind {PI} (m : Message PI) : MessageKind :=
  match m with
  | MSwarm _ => Control
  | MGossip message =>
      match message with
      | plumtree.MGossip _ => Data
      | _ => Control
      end
  end.

Definition is_disconnect {PI} (m : Message PI) : bool :=
  match m with
  | MSwarm (hyparview.MDisconnect _) => true
  | _ => false
  end.

Inductive Event (PI : Type) : Type :=
| NeighborUp (peer : PI)
| NeighborDown (peer : PI)
| Received (event : plumtree.GossipEvent PI)
| MissingMessages (since_round : plumtree.Round) (from_peer : PI).
Arguments NeighborUp {PI}.
Arguments NeighborDown {PI}.
Arguments Received {PI}.
Arguments MissingMessages {PI}.

Inductive Timer (PI : Type) : Type :=
| TSwarm (timer : hyparview.Timer PI)
| TGossip (timer : plumtree.Timer).
Arguments TSwarm {PI}.
Arguments TGossip {PI}.

Inductive Command (PI : Type) : Type :=
| Join (peers : list PI)
| Broadcast (content : Bytes) (scope : plumtree.Scope)
| Quit.
Arguments Join {PI}.
Arguments Broadcast {PI}.
Arguments Quit {PI}.

Inductive InEvent (PI : Type) : Type :=
| RecvMessage (from : PI) (message : Message PI)
| ICommand (command : Command PI)
| TimerExpired (timer : Timer PI)
| PeerDisconnected (peer : PI)
| UpdatePeerData (data : PeerData).
Arguments RecvMessage {PI}.
Arguments ICommand {PI}.
Arguments TimerExpired {PI}.
Arguments PeerDisconnected {PI}.
Arguments UpdatePeerData {PI}.

Inductive OutEvent (PI : Type) : Type :=
| SendMessage (to : PI) (message : Message PI)
| EmitEvent (event : Event PI)
| ScheduleTimer (delay : N) (timer : Timer PI)
| DisconnectPeer (peer : PI)
| OPeerData (peer : PI) (data : PeerData).
Arguments SendMessage {PI}.
Arguments EmitEvent {PI}.
Arguments ScheduleTimer {PI}.
Arguments DisconnectPeer {PI}.
Arguments OPeerData {PI}.

(** [From<hyparview::Event>] and [From<plumtree::Event>] *)
Definition from_swarm_event {PI} (e : hyparview.Event PI) : Event PI :=
  match e with
  | hyparview.NeighborUp peer => NeighborUp peer
  | hyparview.NeighborDown peer => NeighborDown peer
  end.

Definition from_gossip_event {PI} (e : plumtree.Event PI) : Event PI :=
  match e with
  | plumtree.Received event => Received event
  | plumtree.MissingMessages since_round from_peer => MissingMessages since_round from_peer
  end.

(** [From<hyparview::OutEvent>] and [From<plumtree::OutEvent>] *)
Definition from_swarm {PI} (e : hyparview.OutEvent PI) : OutEvent PI :=
  match e with
  | hyparview.SendMessage to message => SendMessage to (MSwarm message)
  | hyparview.ScheduleTimer delay timer => ScheduleTimer delay (TSwarm timer)
  | hyparview.DisconnectPeer peer => DisconnectPeer peer
  | hyparview.EmitEvent event => EmitEvent (from_swarm_event event)
  | hyparview.OPeerData peer data => OPeerData peer data
  end.

Definition from_gossip {PI} (e : plumtree.OutEvent PI) : OutEvent PI :=
  match e with
  | plumtree.SendMessage to message => SendMessage to (MGossip message)
  | plumtree.ScheduleTimer delay timer => ScheduleTimer delay (TGossip timer)
  | plumtree.EmitEvent event => EmitEvent (from_gossip_event event)
  end.

(** ** Configuration and state *)

Record Config : Type := mkConfig {
  membership : hyparview.Config;
  broadcast : plumtree.Config;
  max_message_size : N
}.

Definition default_config : Config := {|
  membership := hyparview.default_config;
  broadcast := plumtree.default_config;
  max_message_size := DEFAULT_MAX_MESSAGE_SIZE
|}.

Record Stats : Type := mkStats {
  messages_sent : N;
  messages_received : N
}.

Definition default_stats : Stats := mkStats 0 0.

Record State (PI IS R : Type) `{PeerIdentity PI} : Type := mkState {
  me : PI;
  swarm : hyparview.State PI IS R;
  gossip : plumtree.State PI;
  stats : Stats
}.
Arguments mkState {PI IS R _}.
Arguments me {PI IS R _}.
Arguments swarm {PI IS R _}.
Arguments gossip {PI IS R _}.
Arguments stats {PI IS R _}.

Section defs.
Context {PI : Type} `{PeerIdentity PI} {IS : Type} `{!IndexSetImpl PI IS}
  {R : Type} `{!Rng R} `{!plumtree.GossipEnv} `{!WireEnv}.

Abbreviation St := (State PI IS R).
Abbreviation Act := (act (State PI IS R) (OutEvent PI)).

Definition set_swarm (x : hyparview.State PI IS R) (s : St) : St :=
  mkState (me s) x (gossip s) (stats s).
Definition set_gossip (x : plumtree.State PI) (s : St) : St :=
  mkState (me s) (swarm s) x (stats s).
Definition set_stats (x : Stats) (s : St) : St :=
  mkState (me s) (swarm s) (gossip s) x.

(** The constructor asserts the minimal message size; the header is then subtracted. *)
Definition with_rng (me : PI) (me_data : option PeerData) (config : Config) (rng : R)
    : outcome St :=
  if decide (MIN_MAX_MESSAGE_SIZE ≤ max_message_size config)%N then
    match usize_sub (S := unit) (E := unit) plumtree.overflow_checks
            (max_message_size config) postcard_header_size tt with
    | Done (max_payload_size, _, _) =>
        Done (mkState me
          (hyparview.new me me_data (membership config) rng)
          (plumtree.new me (broadcast config) max_payload_size)
          default_stats)
    | Panic => Panic
    end
  else Panic.

(** [self.swarm.handle(event, io)] and [self.gossip.handle(event, now, io)] *)
Definition swarm_handle (event : hyparview.InEvent PI) : Act unit :=
  zoom swarm set_swarm from_swarm (hyparview.handle event).

Definition gossip_handle (event : plumtree.InEvent PI) (now : N) : Act unit :=
  zoom gossip set_gossip from_gossip (plumtree.handle event now).

(** The dispatch of an input event to the layers. *)
Definition handle_event (event : InEvent PI) (now : N) : Act unit :=
  match event with
  | ICommand command =>
      match command with
      | Join peers => for_each peers (λ peer, swarm_handle (hyparview.RequestJoin peer))
      | Broadcast data scope => gossip_handle (plumtree.Broadcast data scope) now
      | Quit => swarm_handle hyparview.Quit
      end
  | RecvMessage from message =>
      modify (λ s, set_stats (mkStats (messages_sent (stats s))
                                (messages_received (stats s) + 1)) s);;
      match message with
      | MSwarm message => swarm_handle (hyparview.RecvMessage from message)
      | MGossip message => gossip_handle (plumtree.RecvMessage from message) now
      end
  | TimerExpired timer =>
      match timer with
      | TSwarm timer => swarm_handle (hyparview.TimerExpired timer)
      | TGossip timer => gossip_handle (plumtree.TimerExpired timer) now
      end
  | PeerDisconnected peer =>
      swarm_handle (hyparview.PeerDisconnected peer);;
      gossip_handle (plumtree.NeighborDown peer) now
  | UpdatePeerData data => swarm_handle (hyparview.UpdatePeerData data)
  end.

(** Forward NeighborUp and NeighborDown events from hyparview to plumtree. *)
Definition forward_neighbors (outbox : list (OutEvent PI)) (now : N) : Act unit :=
  for_each outbox (λ event,
    match event with
    | EmitEvent (NeighborUp peer) => gossip_handle (plumtree.NeighborUp peer) now
    | EmitEvent (NeighborDown peer) => gossip_handle (plumtree.NeighborDown peer) now
    | _ => mret tt
    end).

Definition is_send (event : OutEvent PI) : bool :=
  match event with SendMessage _ _ => true | _ => false end.

Definition handle (event : InEvent PI) (now : N) : Act unit :=
  outbox ← collect (handle_event event now);
  io ← collect (forward_neighbors outbox now);
  let outbox := outbox ++ io in
  modify (λ s, set_stats (mkStats
    (messages_sent (stats s) + N.of_nat (length (filter is_send outbox)))
    (messages_received (stats s))) s);;
  for_each outbox push.

Definition reset_stats (s : St) : St :=
  mkState (me s)
    (hyparview.set_stats hyparview.default_stats (swarm s))
    (plumtree.set_stats plumtree.default_stats (gossip s))
    default_stats.

Definition has_active_peers (s : St) : bool :=
  negb (index_set.is_empty (hyparview.active_view (swarm s))).

End defs.
End topic.
