(* ===== verification/TopicFacts.v ===== *)
(** * Correctness of the topic layer

    The composition of the membership and the broadcast layer: neighbors of the first
    are peers of the tree of the second, every event is handled without a panic, and
    the application sees a swarm message at most once per retention window. *)

From Stdlib Require Import NArith.
From stdpp Require Import prelude gmap.
From S2P Require Import Prelude ProtoUtil Concrete Hyparview HyparviewFacts.
From S2P Require Import Plumtree PlumtreeFacts Topic.
Import topic.

Section facts.
Context {PI : Type} `{PeerIdentity PI} {IS : Type} `{!IndexSetImpl PI IS}
  {R : Type} `{!Rng R} `{!plumtree.GossipEnv} `{!WireEnv}.
Abbreviation St := (State PI IS R).
Abbreviation Act := (act (State PI IS R) (OutEvent PI)).
Implicit Types (s : St) (p peer : PI) (es : list (OutEvent PI)) (id : plumtree.MessageId).

(** ** Views of the output *)

(** The membership part and the delivery part of an output event. *)
Definition neighbor_of (e : OutEvent PI) : option (hyparview.OutEvent PI) :=
  match e with
  | EmitEvent (NeighborUp p) => Some (hyparview.EmitEvent (hyparview.NeighborUp p))
  | EmitEvent (NeighborDown p) => Some (hyparview.EmitEvent (hyparview.NeighborDown p))
  | _ => None
  end.

Definition received_of (e : OutEvent PI) : option (plumtree.OutEvent PI) :=
  match e with
  | EmitEvent (Received g) => Some (plumtree.EmitEvent (plumtree.Received g))
  | _ => None
  end.

(** How many times the application gets the message. *)
Definition topic_deliveries (id : plumtree.MessageId) (es : list (OutEvent PI)) : nat :=
  deliveries id (omap received_of es).

Lemma replay_neighbors (es : list (hyparview.OutEvent PI)) A :
  replay (omap neighbor_of (from_swarm <$> es)) A = replay es A.
Proof.
  unfold replay. generalize (Some A). induction es as [|e es IH]; intros o; [done|].
  destruct e as [| | |[]|]; csimpl; rewrite ?IH; try done; f_equal; by destruct o.
Qed.

Lemma received_of_swarm (es : list (hyparview.OutEvent PI)) :
  omap received_of (from_swarm <$> es) = [].
Proof. induction es as [|[| | |[]|] es IH]; done. Qed.

Lemma neighbor_of_gossip (es : list (plumtree.OutEvent PI)) :
  omap neighbor_of (from_gossip <$> es) = [].
Proof. induction es as [|[| |[]] es IH]; done. Qed.

Lemma deliveries_cons id (e : plumtree.OutEvent PI) (es : list (plumtree.OutEvent PI)) :
  deliveries id (e :: es) = deliveries id [e] + deliveries id es.
Proof. apply (deliveries_app id [e]). Qed.

Lemma deliveries_received id (es : list (plumtree.OutEvent PI)) :
  deliveries id (omap received_of (from_gossip <$> es)) = deliveries id es.
Proof.
  induction es as [|e es IH]; [done|]. rewrite (deliveries_cons id e).
  destruct e as [| |[]]; csimpl; rewrite ?IH; try done.
  by rewrite (deliveries_cons id (plumtree.EmitEvent _)), IH.
Qed.

(** ** Invariant and step relation *)

(** Both layers satisfy their invariants and the retention of ids is [ret]. *)
Definition layers (ret : N) (s : St) : Prop :=
  inv (swarm s) ∧ winv ret (gossip s).

(** Every neighbor is a peer of the broadcast tree. *)
Definition tracks (s : St) : Prop :=
  ∀ p, p ∈ active_set (swarm s) → p ∈ tree_peers (gossip s).

Definition tinv (s : St) : Prop :=
  inv (swarm s) ∧ pinv (gossip s) ∧ tracks s.

(** A step: neighbor events replay the active view, and the broadcast layer takes a step
    that delivers the message at most once. *)
Definition tstep (D : PI → Prop) (W : Prop) id (T : N) s es s' : Prop :=
  step (swarm s) (omap neighbor_of es) (swarm s') ∧
  once D W id T (gossip s) (omap received_of es) (gossip s').

#[export] Instance tstep_compositional D W id T : Compositional (tstep D W id T).
Proof.
  split; [intros s; split; apply comp_refl|].
  intros s1 es1 s2 es2 s3 [] []. unfold tstep. rewrite !omap_app.
  split; by eapply comp_trans.
Qed.

Lemma once_ext D W id T (g g' : plumtree.State PI)
    (es es' : list (plumtree.OutEvent PI)) :
  deliveries id es' = deliveries id es → once D W id T g es g' → once D W id T g es' g'.
Proof. intros Hd. unfold once. by rewrite Hd. Qed.

Section release.
Hypothesis release_build : plumtree.overflow_checks = false.

Section step.
Context (D : PI → Prop) (W : Prop) (id : plumtree.MessageId) (T ret now : N).
Hypothesis in_window : (W → T ≤ now + ret ∧ now < T)%N.

Lemma ok_swarm_handle ev :
  ev ≠ hyparview.Quit → ok (layers ret) (tstep D W id T) (swarm_handle ev).
Proof.
  intros Hev s [Hs Hg]. apply wp_zoom.
  eapply wp_mono; [by apply (contract_ok (HandlerContract := membership_contract))|].
  intros ? s' es [Hs' Hst]. split; [done|]. split; simpl.
  - destruct Hst as (? & ? & Hr). split_and!; [done..|]. by rewrite replay_neighbors.
  - rewrite received_of_swarm. apply comp_refl.
Qed.

Lemma ok_gossip_handle ev :
  (∀ p, ev = plumtree.NeighborDown p → D p) →
  ok (layers ret) (tstep D W id T) (gossip_handle ev now).
Proof.
  intros Hev s [Hs Hg]. apply wp_zoom.
  eapply wp_mono; [by apply (contract_ok (HandlerContract :=
    broadcast_contract D release_build W id T ret now in_window) ev Hev)|].
  intros ? g' es [Hg' Ho]. split; [done|]. split; simpl.
  - rewrite neighbor_of_gossip. apply comp_refl.
  - eapply once_ext; [apply deliveries_received|done].
Qed.

Lemma ok_topic_event ev :
  ev ≠ ICommand Quit → (∀ p, ev = PeerDisconnected p → D p) →
  ok (layers ret) (tstep D W id T) (handle_event ev now).
Proof.
  intros Hq HD. destruct ev as [from [m|m]|[peers|c sc|]|[t|t]|p|d]; simpl; try done.
  - apply ok_bind; [apply _| |intros _; by apply ok_swarm_handle].
    apply ok_modify. intros s Hs. split; [done|]. split; apply comp_refl.
  - apply ok_bind; [apply _| |intros _; by apply ok_gossip_handle].
    apply ok_modify. intros s Hs. split; [done|]. split; apply comp_refl.
  - apply ok_for_each; [apply _|]. intros p _. by apply ok_swarm_handle.
  - by apply ok_gossip_handle.
  - by apply ok_swarm_handle.
  - by apply ok_gossip_handle.
  - apply ok_bind; [apply _|by apply ok_swarm_handle|intros _].
    apply ok_gossip_handle. intros q [= ->]. by apply HD.
  - by apply ok_swarm_handle.
Qed.

End step.

Section handle.
Context (W : Prop) (id : plumtree.MessageId) (T ret now : N).
Hypothesis in_window : (W → T ≤ now + ret ∧ now < T)%N.

(** What forwarding neighbor events does: the tree follows the replayed set. *)
Definition forwarded_to (D : PI → Prop) (A' : gset PI) s es s' : Prop :=
  layers ret s' ∧ swarm s' = swarm s ∧ tstep (λ _, True) W id T s es s' ∧
  ∀ p, p ∈ A' → D p ∨ p ∈ tree_peers (gossip s').

Lemma tstep_weaken D s es s' :
  tstep D W id T s es s' → tstep (λ _, True) W id T s es s'.
Proof. intros [Hst (? & Hk & ?)]. split; [done|]. split_and!; [done| |done]. by left. Qed.

Lemma gossip_handle_swarm ev s :
  wp (gossip_handle ev now) (λ _ _ _, True) s →
  wp (gossip_handle ev now) (λ _ s' _, swarm s' = swarm s) s.
Proof.
  unfold gossip_handle, zoom, wp.
  by destruct (plumtree.handle ev now (gossip s)) as [[[? ?] ?]|].
Qed.

(** A gossip event that keeps everyone but [D'] in the tree. *)
Lemma wp_gossip_step D' ev s :
  layers ret s → (∀ p, ev = plumtree.NeighborDown p → D' p) →
  wp (gossip_handle ev now) (λ _ s' es,
    layers ret s' ∧ swarm s' = swarm s ∧ tstep (λ _, True) W id T s es s' ∧
    keeps_peers D' (gossip s) (gossip s')) s.
Proof.
  intros Hs Hev. pose proof (ok_gossip_handle D' W id T ret now in_window ev Hev s Hs) as Hok.
  eapply wp_mono; [apply wp_conj; [exact Hok|apply gossip_handle_swarm]|].
  - eapply wp_mono; [exact Hok|done].
  - intros ? s' es [[Hl Ht] Hsw]. split_and!; [done..|by eapply tstep_weaken|].
    by destruct Ht as [_ (_ & ? & _)].
Qed.

Lemma wp_forward_up D A p s :
  layers ret s → (∀ q, q ∈ A → D q ∨ q ∈ tree_peers (gossip s)) →
  wp (gossip_handle (plumtree.NeighborUp p) now)
    (λ _ s' es, forwarded_to D ({[p]} ∪ A) s es s') s.
Proof.
  intros Hs HA.
  assert (wp (gossip_handle (plumtree.NeighborUp p) now)
    (λ _ s' _, p ∈ plumtree.eager_push_peers (gossip s')) s) as Hup
    by (apply wp_zoom, wp_neighbor_up).
  eapply wp_mono; [apply wp_conj; [by apply (wp_gossip_step (λ _, False))|exact Hup]|].
  intros ? s' es [(Hl & Hsw & Ht & Hk) Hp]. split_and!; [done..|].
  intros q [Hq%elem_of_singleton|Hq]%elem_of_union.
  - subst q. right. apply elem_of_union. by left.
  - destruct (HA q Hq) as [|Hq']; [by left|]. right. by destruct (Hk q Hq').
Qed.

Lemma wp_forward_down D A p s :
  layers ret s → (∀ q, q ∈ A → D q ∨ q ∈ tree_peers (gossip s)) →
  wp (gossip_handle (plumtree.NeighborDown p) now)
    (λ _ s' es, forwarded_to D (A ∖ {[p]}) s es s') s.
Proof.
  intros Hs HA. eapply wp_mono; [apply (wp_gossip_step (.= p)); [done|by intros ? [= ->]]|].
  intros ? s' es (Hl & Hsw & Ht & Hk). split_and!; [done..|].
  intros q [Hq Hne]%elem_of_difference. destruct (HA q Hq) as [|Hq']; [by left|].
  right. destruct (Hk q Hq'); [set_solver|done].
Qed.

Lemma replay_cons e (es : list (hyparview.OutEvent PI)) A A' :
  replay (e :: es) A = Some A' →
  ∃ A1, apply_event (Some A) e = Some A1 ∧ replay es A1 = Some A'.
Proof.
  unfold replay. cbn [foldl]. destruct (apply_event (Some A) e) as [A1|]; [by eauto|].
  intros Hr. exfalso. revert Hr. induction es as [|e' es IH]; [done|]. simpl.
  by destruct e' as [| | |[]|].
Qed.

Lemma wp_forward_neighbors D es A A' s :
  layers ret s → replay (omap neighbor_of es) A = Some A' →
  (∀ p, p ∈ A → D p ∨ p ∈ tree_peers (gossip s)) →
  wp (forward_neighbors es now) (λ _ s' es', forwarded_to D A' s es' s') s.
Proof.
  revert A s. induction es as [|e es IH]; intros A s Hs Hr HA.
  { unfold replay in Hr. simpl in Hr. simplify_eq. apply wp_ret.
    split_and!; [done|done|apply comp_refl|done]. }
  unfold forward_neighbors. cbn [for_each]. apply wp_bind.
  eapply wp_mono with (Q := λ _ s1 es1, ∃ A1, replay (omap neighbor_of es) A1 = Some A' ∧
    forwarded_to D A1 s es1 s1).
  2:{ intros ? s1 es1 (A1 & Hr1 & Hs1 & Hsw1 & Ht1 & HA1).
      eapply wp_mono; [by apply (IH A1)|]. intros ? s2 es2 (Hs2 & Hsw2 & Ht2 & HA2).
      split_and!; [done|congruence|by eapply comp_trans|done]. }
  assert (neighbor_of e = None → ∃ A1, replay (omap neighbor_of es) A1 = Some A' ∧
    forwarded_to D A1 s [] s) as Hskip.
  { intros He. exists A. csimpl in Hr. rewrite He in Hr.
    split; [done|]. split_and!; [done|done|apply comp_refl|done]. }
  destruct e as [| [p|p| |]| | |]; try (apply wp_ret; by apply Hskip).
  - apply replay_cons in Hr as (A1 & Ha & Hr). simpl in Ha. case_decide; simplify_eq.
    eapply wp_mono; [by apply wp_forward_up|]. by eauto.
  - apply replay_cons in Hr as (A1 & Ha & Hr). simpl in Ha. case_decide; simplify_eq.
    eapply wp_mono; [by apply wp_forward_down|]. by eauto.
Qed.

(** What the topic promises for one event. *)
Definition handled s es s' : Prop :=
  layers ret s' ∧ tracks s' ∧
  once (λ _, True) W id T (gossip s) (omap received_of es) (gossip s').

(** The first phase leaves the tree behind the active view only by the events still to be
    forwarded and by the peers in [D], which are no neighbors any more. *)
Definition to_forward (D : PI → Prop) s es s1 : Prop :=
  layers ret s1 ∧ once (λ _, True) W id T (gossip s) (omap received_of es) (gossip s1) ∧
  (∀ p, D p → p ∉ active_set (swarm s1)) ∧
  ∃ A, replay (omap neighbor_of es) A = Some (active_set (swarm s1)) ∧
       ∀ p, p ∈ A → D p ∨ p ∈ tree_peers (gossip s1).

Lemma wp_handle_phases D ev s :
  wp (handle_event ev now) (λ _ s1 es1, to_forward D s es1 s1) s →
  wp (handle ev now) (λ _ s' es, handled s es s') s.
Proof.
  intros Hphase. unfold handle. wp_steps. apply wp_collect. eapply wp_mono; [exact Hphase|].
  intros ? s1 es1 (Hl1 & Ho1 & HD1 & A & Hr & HA). wp_steps. apply wp_collect.
  eapply wp_mono; [by apply (wp_forward_neighbors D es1 A)|].
  intros ? s2 es2 (Hl2 & Hsw & [_ Ho2] & HA2). wp_steps.
  unfold wp. rewrite for_each_push_all. simpl. split_and!; [done| |].
  - intros p Hp. simpl in *. rewrite Hsw in Hp.
    destruct (HA2 p Hp) as [Hd|]; [by destruct (HD1 p Hd)|done].
  - rewrite omap_app. by eapply comp_trans.
Qed.

Lemma wp_quit_phase s :
  layers ret s →
  wp (handle_event (ICommand Quit) now) (λ _ s1 es1, to_forward (λ _, False) s es1 s1) s.
Proof.
  intros [Hs Hg]. apply wp_zoom. eapply wp_mono; [by apply handle_quit_spec|].
  intros ? s' es (Hs' & Hnil & _ & _ & Hn).
  assert (active_set s' = ∅) as Hempty by (unfold active_set; by rewrite Hnil).
  split_and!; [done| |done|].
  - rewrite received_of_swarm. apply comp_refl.
  - exists ∅. simpl. rewrite replay_neighbors, replay_neutral, Hempty by done.
    split; [done|]. set_solver.
Qed.

Lemma wp_closed_phase p s :
  inv (swarm s) →
  wp (swarm_handle (hyparview.PeerDisconnected p))
    (λ _ s' _, p ∉ active_set (swarm s')) s.
Proof.
  intros Hs. apply wp_zoom. eapply wp_mono; [by apply closed_leaves_active|].
  intros ? s' es Hp. simpl. unfold active_set. by rewrite elem_of_list_to_set.
Qed.

Lemma wp_disconnected_leaves p s :
  layers ret s →
  wp (handle_event (PeerDisconnected p) now) (λ _ s' _, p ∉ active_set (swarm s')) s.
Proof.
  intros Hs. simpl. apply wp_bind.
  eapply wp_mono; [apply wp_conj; [by apply wp_closed_phase, Hs|
    by apply (ok_swarm_handle (λ _, True) W id T ret)]|].
  intros ? s1 es1 [Hp [Hl1 _]].
  eapply wp_mono; [by apply (wp_gossip_step (λ _, True))|].
  intros ? s2 es2 (_ & Hsw & _). by rewrite Hsw.
Qed.

Lemma wp_handle ev s :
  layers ret s → tracks s → wp (handle ev now) (λ _ s' es, handled s es s') s.
Proof.
  intros Hs Ht. assert (ev = ICommand Quit ∨ ev ≠ ICommand Quit) as [->|Hq]
    by (destruct ev as [|[]| | |]; auto).
  { eapply wp_handle_phases. by apply wp_quit_phase. }
  apply (wp_handle_phases (λ p, ev = PeerDisconnected p)).
  pose proof (ok_topic_event (λ p, ev = PeerDisconnected p) W id T ret now in_window ev Hq
    ltac:(done) s Hs) as Hok.
  assert (wp (handle_event ev now)
    (λ _ s1 _, ∀ p, ev = PeerDisconnected p → p ∉ active_set (swarm s1)) s) as Hleft.
  { apply wp_done in Hok as (a & s1 & es & Hrun & _). apply wp_done.
    exists a, s1, es. split; [done|]. intros p ->.
    pose proof (wp_disconnected_leaves p s Hs) as Hd. unfold wp in Hd. by rewrite Hrun in Hd. }
  eapply wp_mono; [apply wp_conj; [exact Hok|exact Hleft]|].
  intros ? s1 es1 [[Hl1 Hst] HD]. pose proof (tstep_weaken _ _ _ _ Hst) as [_ Ho].
  split_and!; [done..|]. destruct Hst as [(_ & _ & Hr) (_ & Hk & _)].
  exists (active_set (swarm s)). split; [done|]. intros p Hp. by apply Hk, Ht.
Qed.

End handle.
End release.

Lemma tinv_layers s : tinv s ↔ layers (plumtree.message_id_retention
  (plumtree.config (gossip s))) s ∧ tracks s.
Proof. unfold tinv, layers, winv. naive_solver. Qed.

Lemma wp_handle_tinv ev now s :
  plumtree.overflow_checks = false → tinv s → wp (handle ev now) (λ _ s' _, tinv s') s.
Proof.
  intros Hrel [Hl Ht]%tinv_layers.
  eapply wp_mono; [by eapply (wp_handle Hrel False [] 0)|].
  intros ? s' es ((? & ? & _) & ? & _). by split_and!.
Qed.

(** ** The two phases of a run that finished *)

Lemma handle_done ev now s u s' es :
  handle ev now s = Done (u, s', es) →
  ∃ s1 out s2 io, handle_event ev now s = Done (tt, s1, out) ∧
    forward_neighbors out now s1 = Done (tt, s2, io) ∧ es = out ++ io ∧ swarm s' = swarm s2.
Proof.
  unfold handle, mbind, act_bind, collect. intros Hrun.
  destruct (handle_event ev now s) as [[[[] s1] out]|]; [|done].
  destruct (forward_neighbors out now s1) as [[[[] s2] io]|] eqn:Hf; [|done].
  unfold modify in Hrun. rewrite for_each_push_all in Hrun. simplify_eq.
  by exists s1, out, s2, io.
Qed.

(** Forwarding only talks to the broadcast layer. *)
Lemma forward_done es now s u s' io :
  forward_neighbors es now s = Done (u, s', io) →
  swarm s' = swarm s ∧ ∃ gs, io = from_gossip <$> gs.
Proof.
  revert s s' io. unfold forward_neighbors.
  induction es as [|e es IH]; intros s s' io; cbn [for_each].
  { intros [= <- <- <-]. split; [done|]. by exists []. }
  unfold mbind, act_bind. set (body := match e with EmitEvent _ => _ | _ => _ end).
  assert (∀ u1 s1 io1, body s = Done (u1, s1, io1) →
    swarm s1 = swarm s ∧ ∃ gs, io1 = from_gossip <$> gs) as Hbody.
  { intros u1 s1 io1. unfold body, gossip_handle, zoom, mret, act_ret.
    destruct e as [|[p|p| |]| | |];
      try (intros [= <- <- <-]; split; [done|]; by exists []).
    - destruct (plumtree.handle _ now (gossip s)) as [[[? ?] ?]|]; [|done].
      intros [= <- <- <-]. split; [done|]. by eexists.
    - destruct (plumtree.handle _ now (gossip s)) as [[[? ?] ?]|]; [|done].
      intros [= <- <- <-]. split; [done|]. by eexists. }
  destruct (body s) as [[[u1 s1] io1]|]; [|done].
  destruct (Hbody u1 s1 io1 eq_refl) as [Hsw1 [gs1 ->]].
  destruct (for_each es _ s1) as [[[u2 s2] io2]|] eqn:Hrest; [|done].
  intros [= <- <- <-]. destruct (IH s1 s2 io2) as [Hsw2 [gs2 ->]].
  { rewrite Hrest. by destruct u2. }
  split; [congruence|]. exists (gs1 ++ gs2). by rewrite fmap_app.
Qed.

(** Join requests, goodbyes and disconnect requests of a topic. *)
Definition join_of (e : OutEvent PI) : option PI :=
  match e with SendMessage p (MSwarm (hyparview.MJoin _)) => Some p | _ => None end.

Definition goodbye_of (e : OutEvent PI) : option PI :=
  match e with
  | SendMessage p (MSwarm (hyparview.MDisconnect d)) =>
      if hyparview.alive d then None else Some p
  | _ => None
  end.

Lemma join_of_gossip (gs : list (plumtree.OutEvent PI)) : omap join_of (from_gossip <$> gs) = [].
Proof. induction gs as [|[| |[]] gs IH]; done. Qed.

Lemma goodbye_of_gossip (gs : list (plumtree.OutEvent PI)) :
  omap goodbye_of (from_gossip <$> gs) = [].
Proof. induction gs as [|[| |[]] gs IH]; done. Qed.

Lemma goodbye_of_swarm (es : list (hyparview.OutEvent PI)) :
  omap goodbye_of (from_swarm <$> es) = told_goodbye es.
Proof.
  unfold told_goodbye.
  induction es as [|[? []| | |[]|] es IH]; csimpl; rewrite ?IH; done.
Qed.

Lemma wp_request_joins (peers : list PI) s :
  wp (for_each peers (λ peer, swarm_handle (hyparview.RequestJoin peer)))
    (λ _ _ es, omap join_of es = peers) s.
Proof.
  revert s. induction peers as [|p peers IH]; intros s; [by apply wp_ret|].
  cbn [for_each]. apply wp_bind, wp_zoom. unfold hyparview.handle. simpl.
  unfold hyparview.handle_join. wp_steps.
  destruct (hyparview.shuffle_scheduled (swarm s)); wp_steps;
    (eapply wp_mono; [apply IH|]); intros ? s' es He; csimpl; by rewrite He.
Qed.

(** What a run that finished sent and left behind. *)
Lemma join_done peers now s u s' es :
  handle (ICommand (Join peers)) now s = Done (u, s', es) → omap join_of es = peers.
Proof.
  intros (s1 & out & s2 & io & Hev & Hf & -> & _)%handle_done.
  apply forward_done in Hf as [_ [gs ->]]. rewrite omap_app, join_of_gossip, app_nil_r.
  pose proof (wp_request_joins peers s) as Hj. simpl in Hev. unfold wp in Hj.
  by rewrite Hev in Hj.
Qed.

Lemma quit_done now s u s' es :
  inv (swarm s) → handle (ICommand Quit) now s = Done (u, s', es) →
  omap goodbye_of es = active_peers (swarm s).
Proof.
  intros Hs (s1 & out & s2 & io & Hev & Hf & -> & _)%handle_done.
  apply forward_done in Hf as [_ [gs ->]]. rewrite omap_app, goodbye_of_gossip, app_nil_r.
  pose proof (handle_quit_spec (swarm s) Hs) as Hq. simpl in Hev.
  unfold swarm_handle, zoom in Hev. unfold wp in Hq.
  destruct (hyparview.handle hyparview.Quit (swarm s)) as [[[? ?] es0]|]; [|done].
  simplify_eq. rewrite goodbye_of_swarm. naive_solver.
Qed.

Lemma disconnect_done p d now s u s' es :
  inv (swarm s) → p ∈ active_set (swarm s) →
  handle (RecvMessage p (MSwarm (hyparview.MDisconnect d))) now s = Done (u, s', es) →
  DisconnectPeer p ∈ es.
Proof.
  intros Hs Hp (s1 & out & s2 & io & Hev & Hf & -> & _)%handle_done.
  apply elem_of_app. left. unfold active_set in Hp. rewrite elem_of_list_to_set in Hp.
  pose proof (disconnect_received_closes p d (swarm s) Hs Hp) as Hd. unfold wp in Hd.
  simpl in Hev. unfold mbind, act_bind, modify, swarm_handle, zoom in Hev. simpl in Hev.
  destruct (hyparview.handle _ (swarm s)) as [[[? ?] es0]|]; [|done]. simplify_eq.
  by apply (list_elem_of_fmap_2 from_swarm) in Hd.
Qed.

Lemma closed_done p now s u s' es :
  plumtree.overflow_checks = false → tinv s →
  handle (PeerDisconnected p) now s = Done (u, s', es) → p ∉ active_set (swarm s').
Proof.
  intros Hrel [Hl _]%tinv_layers (s1 & out & s2 & io & Hev & Hf & -> & Hsw)%handle_done.
  apply forward_done in Hf as [Hsw2 _]. rewrite Hsw, Hsw2.
  pose proof (wp_disconnected_leaves Hrel False [] 0 _ now ltac:(done) p s Hl) as Hd.
  unfold wp in Hd. by rewrite Hev in Hd.
Qed.

(** The state after a run of timed events. *)
Definition topic_after (evs : list (InEvent PI * N)) (s : St) : St :=
  match for_each evs (λ '(ev, t), handle ev t) s with Done (_, s', _) => s' | Panic => s end.

Lemma tinv_after evs s :
  plumtree.overflow_checks = false → tinv s → tinv (topic_after evs s).
Proof.
  intros Hrel Hs.
  assert (ok tinv (λ _ _ _, True) (for_each evs (λ '(ev, t), handle ev t))) as Hrun.
  { apply ok_for_each; [done|]. intros [ev t] _ s0 Hs0.
    eapply wp_mono; [by apply wp_handle_tinv|]. done. }
  specialize (Hrun s Hs). unfold wp, topic_after in *.
  by destruct (for_each evs _ s) as [[[? ?] ?]|]; [apply Hrun|].
Qed.

(** ** Properties *)

(** The frame, and one announcement at its largest, fit the smallest message size. *)
Definition header_fits : Prop :=
  (0 < plumtree.ihave_postcard_max_size)%N ∧
  (postcard_header_size + 3 + plumtree.ihave_postcard_max_size ≤ MIN_MAX_MESSAGE_SIZE)%N.

Lemma with_rng_tinv me me_data cfg (r : R) :
  header_fits → (MIN_MAX_MESSAGE_SIZE ≤ max_message_size cfg)%N →
  1 ≤ hyparview.active_view_capacity (membership cfg) →
  1 ≤ hyparview.passive_view_capacity (membership cfg) →
  ∃ s : St, with_rng me me_data cfg r = Done s ∧ tinv s.
Proof.
  intros [Hpos Hfit] Hmin Ha Hp. unfold with_rng, usize_sub. rewrite decide_True by done.
  rewrite decide_True by lia. eexists. split; [done|].
  unfold tinv, tracks. cbn [swarm gossip]. split_and!.
  - by apply inv_new.
  - split; simpl; try done. lia.
  - intros p. rewrite active_set_new. set_solver.
Qed.

Lemma with_rng_config me me_data cfg (r : R) s :
  with_rng me me_data cfg r = Done s → plumtree.config (gossip s) = broadcast cfg.
Proof.
  unfold with_rng, usize_sub. intros Hs. repeat case_decide; try done.
  - by injection Hs as <-.
  - destruct plumtree.overflow_checks; [done|]. by injection Hs as <-.
Qed.

(** A topic starts well-formed whenever the configured message size reaches the minimum
    the constructor asserts (and the frame fits it), and the constructor panics below
    that minimum. *)
Theorem topic_constructor me me_data cfg (r : R) :
  header_fits →
  1 ≤ hyparview.active_view_capacity (membership cfg) →
  1 ≤ hyparview.passive_view_capacity (membership cfg) →
  if decide (MIN_MAX_MESSAGE_SIZE ≤ max_message_size cfg)%N
  then ∃ s : St, with_rng me me_data cfg r = Done s ∧ tinv s
  else with_rng (IS := IS) me me_data cfg r = Panic.
Proof.
  intros Hfit Ha Hp. case_decide as Hmin; [by apply with_rng_tinv|].
  unfold with_rng. by rewrite decide_False.
Qed.

(** The topic state handles every event (commands, messages from any peer, timers, closed
    connections) without a panic in a release build, both layers keep their invariants,
    and every neighbor of the membership layer stays a peer of the broadcast tree. *)
Theorem topic_handle_inv ev now s :
  plumtree.overflow_checks = false → tinv s → wp (handle ev now) (λ _ s' _, tinv s') s.
Proof. apply wp_handle_tinv. Qed.

(** Through both layers, within one retention window the application of a topic gets a
    swarm message at most once, whatever events the topic handles. *)
Theorem topic_delivers_at_most_once id t0 evs s :
  plumtree.overflow_checks = false → tinv s →
  Forall (λ '(_, t), t0 ≤ t <
    t0 + plumtree.message_id_retention (plumtree.config (gossip s)))%N evs →
  wp (for_each evs (λ '(ev, t), handle ev t))
    (λ _ s' es, tinv s' ∧ topic_deliveries id es ≤ 1) s.
Proof.
  intros Hrel [Hl Ht]%tinv_layers Hw. set (ret := plumtree.message_id_retention _) in *.
  assert (ok (λ s, layers ret s ∧ tracks s) (λ s es s',
    once (λ _, True) True id (t0 + ret) (gossip s) (omap received_of es) (gossip s'))
    (for_each evs (λ '(ev, t), handle ev t))) as Hrun.
  { assert (Compositional (λ s es s', once (λ _, True) True id (t0 + ret) (gossip s)
      (omap received_of es) (gossip s'))) as Hcomp.
    { split; [intros; apply comp_refl|]. intros. rewrite omap_app. by eapply comp_trans. }
    apply ok_for_each; [done|]. intros [ev t] Hin s' [Hl' Ht'].
    eapply Forall_forall in Hw; [|exact Hin]. simpl in Hw.
    eapply wp_mono; [by apply (wp_handle Hrel True id (t0 + ret) ret t); [lia|..]|].
    by intros ? s2 es (? & ? & ?). }
  eapply wp_mono; [by apply Hrun|].
  intros ? s' es [[Hl' Ht'] (_ & _ & Ho)]. split; [|by apply Ho].
  destruct Hl' as [? [? _]]. by split_and!.
Qed.

(** The peers of the broadcast tree are not only neighbors: a [Prune] from any peer, here
    one outside the active view, makes it a lazy peer without making it a neighbor. *)
Theorem stranger_enters_tree p now s :
  plumtree.init (gossip s) = true → p ∉ active_set (swarm s) →
  wp (handle (RecvMessage p (MGossip plumtree.MPrune)) now) (λ _ s' _,
    p ∈ plumtree.lazy_push_peers (gossip s') ∧ p ∉ active_set (swarm s')) s.
Proof.
  intros Hi Hp. unfold handle. wp_steps. apply wp_collect. simpl. wp_steps. apply wp_zoom.
  apply wp_handle_initialised; [done|]. simpl. unfold plumtree.handle_message. wp_steps.
  unfold plumtree.on_prune, plumtree.add_lazy. wp_steps. apply wp_collect, wp_ret. wp_steps.
  split; [|done]. simpl. set_solver.
Qed.

(** Forwarding the first neighbor event does emit an output event: the broadcast layer
    starts its eviction timer on its first call. *)
Lemma first_forward_emits p now s :
  plumtree.init (gossip s) = false →
  wp (forward_neighbors [EmitEvent (NeighborUp p)] now) (λ _ _ es,
    es = [ScheduleTimer (plumtree.cache_evict_interval (plumtree.config (gossip s)))
            (TGossip plumtree.EvictCache)]) s.
Proof.
  intros Hi. unfold forward_neighbors. cbn [for_each]. wp_steps. apply wp_zoom.
  unfold plumtree.handle. wp_steps. rewrite Hi. unfold plumtree.on_evict_cache_timer. wp_steps.
  simpl. unfold plumtree.on_neighbor_up, plumtree.add_eager. by wp_steps.
Qed.

End facts.

(** ** A concrete topic *)

#[local] Existing Instance release_env.
#[local] Instance sample_wire : WireEnv := {| postcard_header_size := 33 |}.

Lemma sample_header_fits : header_fits.
Proof. by vm_compute. Qed.

Definition fresh_topic : State N (nodup_list N) N := {|
  me := 1%N;
  swarm := hyparview.new 1%N None hyparview.default_config 42%N;
  gossip := plumtree.new 1%N plumtree.default_config 4063;
  stats := default_stats
|}.

Lemma fresh_topic_tinv : tinv fresh_topic.
Proof.
  destruct (with_rng_tinv (IS := nodup_list N) 1%N None default_config 42%N sample_header_fits)
    as (s & Hrun & Hs); [by vm_compute|simpl; lia..|].
  assert (with_rng 1%N None default_config 42%N = Done fresh_topic) as Heq by reflexivity.
  rewrite Heq in Hrun. by injection Hrun as <-.
Qed.

(** Peers 2 and 3 have joined. *)
Definition joined_topic : State N (nodup_list N) N :=
  topic_after [(RecvMessage 2 (MSwarm (hyparview.MJoin None)), 0);
               (RecvMessage 3 (MSwarm (hyparview.MJoin None)), 0)]%N fresh_topic.

Lemma joined_topic_tinv : tinv joined_topic.
Proof. apply tinv_after; [reflexivity|apply fresh_topic_tinv]. Qed.

Example joined_views :
  active_peers (swarm joined_topic) = [2; 3]%N ∧
  btree_set_iter (plumtree.eager_push_peers (gossip joined_topic)) = [2; 3]%N.
Proof. by vm_compute. Qed.

(** *** Witnesses *)

Lemma topic_handle_inv_witness :
  wp (handle (PeerDisconnected 2%N) 5) (λ _ s' _, tinv s') joined_topic.
Proof. apply topic_handle_inv; [reflexivity|exact joined_topic_tinv]. Defined.

Definition topic_events : list (InEvent N * N) :=
  [(RecvMessage 2 (MGossip (plumtree.MGossip (bye_gossip 3))), 10);
   (PeerDisconnected 2, 15);
   (RecvMessage 3 (MGossip (plumtree.MGossip (bye_gossip 1))), 20)]%N.

Lemma stranger_enters_tree_witness :
  wp (handle (RecvMessage 9%N (MGossip plumtree.MPrune)) 5) (λ _ s' _,
    9%N ∈ plumtree.lazy_push_peers (gossip s') ∧ 9%N ∉ active_set (swarm s')) joined_topic.
Proof. apply stranger_enters_tree; [vm_compute; reflexivity|decide_compute]. Defined.
