(* ===== verification/GossipState.v ===== *)
(** * The protocol state of a node: [src/proto/state.rs]

    [Module state] translates the outermost state machine: the map of joined topics, the
    routing of input events to topic states, the bookkeeping of which topics use the
    connection to a peer, and the message metrics.

    The iteration order of the [HashMap] of topics is the parameter [hash_order]; the
    encoded size of a message (postcard) is [message_size].  Metrics counters are
    unbounded. *)

From Stdlib Require Import NArith.
From stdpp Require Import prelude gmap.
From S2P Require Import Prelude ProtoUtil Hyparview Plumtree Topic.

Module state.

(** [TopicId([u8; 32])] *)
Abbreviation TopicId := Bytes.

(** ** Messages, timers and events *)

Record Message (PI : Type) : Type := mkMessage {
  msg_topic : TopicId;
  msg_message : topic.Message PI
}.
Arguments mkMessage {PI}.
Arguments msg_topic {PI}.
Arguments msg_message {PI}.

Definition kind {PI} (m : Message PI) : topic.MessageKind := topic.kind (msg_message m).

Record Timer (PI : Type) : Type := mkTimer {
  timer_topic : TopicId;
  timer_timer : topic.Timer PI
}.
Arguments mkTimer {PI}.
Arguments timer_topic {PI}.
Arguments timer_timer {PI}.

Inductive InEvent (PI : Type) : Type :=
| RecvMessage (from : PI) (message : Message PI)
| ICommand (topic : TopicId) (command : topic.Command PI)
| TimerExpired (timer : Timer PI)
| PeerDisconnected (peer : PI)
| UpdatePeerData (data : PeerData).
Arguments RecvMessage {PI}.
Arguments ICommand {PI}.
Arguments TimerExpired {PI}.
Arguments PeerDisconnected {PI}.
Arguments UpdatePeerData {PI}.

Inductive OutEvent (PI : Type) : Type :=
| SendMessage (to : PI) (message : Message PI)
| EmitEvent (topic : TopicId) (event : topic.Event PI)
| ScheduleTimer (delay : N) (timer : Timer PI)
| DisconnectPeer (peer : PI)
| OPeerData (peer : PI) (data : PeerData).
Arguments SendMessage {PI}.
Arguments EmitEvent {PI}.
Arguments ScheduleTimer {PI}.
Arguments DisconnectPeer {PI}.
Arguments OPeerData {PI}.

Inductive InEventMapped (PI : Type) : Type :=
| All (event : topic.InEvent PI)
| TopicEvent (topic : TopicId) (event : topic.InEvent PI).
Arguments All {PI}.
Arguments TopicEvent {PI}.

(** [From<InEvent> for InEventMapped] *)
Definition map_event {PI} (event : InEvent PI) : InEventMapped PI :=
  match event with
  | RecvMessage from (mkMessage topic message) =>
      TopicEvent topic (topic.RecvMessage from message)
  | ICommand topic command => TopicEvent topic (topic.ICommand command)
  | TimerExpired (mkTimer topic timer) => TopicEvent topic (topic.TimerExpired timer)
  | PeerDisconnected peer => All (topic.PeerDisconnected peer)
  | UpdatePeerData data => All (topic.UpdatePeerData data)
  end.

(** ** External code *)

(** [HashMap] iterates over its keys in some order; [postcard] computes the encoded size
    of a message or fails. *)
Class NodeEnv (PI : Type) : Type := {
  hash_order : gset TopicId → list TopicId;
  message_size : Message PI → option N;
  hash_order_perm : ∀ ts, hash_order ts ≡ₚ elements ts
}.

(** ** Metrics (the counters of [src/metrics.rs] the protocol uses) *)

Record Metrics : Type := mkMetrics {
  msgs_ctrl_sent : N;
  msgs_ctrl_recv : N;
  msgs_data_sent : N;
  msgs_data_recv : N;
  msgs_data_sent_size : N;
  msgs_data_recv_size : N;
  msgs_ctrl_sent_size : N;
  msgs_ctrl_recv_size : N;
  neighbor_up : N;
  neighbor_down : N
}.

Section metrics.
Context {PI : Type} `{!NodeEnv PI}.
Implicit Types (m : Metrics).

Definition size_or_zero (message : Message PI) : N := default 0%N (message_size message).

Definition track_out_event (m : Metrics) (event : OutEvent PI) : Metrics :=
  match event with
  | SendMessage _ message =>
      match kind message with
      | topic.Data =>
          mkMetrics (msgs_ctrl_sent m) (msgs_ctrl_recv m) (msgs_data_sent m + 1)
            (msgs_data_recv m) (msgs_data_sent_size m + size_or_zero message)
            (msgs_data_recv_size m) (msgs_ctrl_sent_size m) (msgs_ctrl_recv_size m)
            (neighbor_up m) (neighbor_down m)
      | topic.Control =>
          mkMetrics (msgs_ctrl_sent m + 1) (msgs_ctrl_recv m) (msgs_data_sent m)
            (msgs_data_recv m) (msgs_data_sent_size m) (msgs_data_recv_size m)
            (msgs_ctrl_sent_size m + size_or_zero message) (msgs_ctrl_recv_size m)
            (neighbor_up m) (neighbor_down m)
      end
  | EmitEvent _ (topic.NeighborUp _) =>
      mkMetrics (msgs_ctrl_sent m) (msgs_ctrl_recv m) (msgs_data_sent m) (msgs_data_recv m)
        (msgs_data_sent_size m) (msgs_data_recv_size m) (msgs_ctrl_sent_size m)
        (msgs_ctrl_recv_size m) (neighbor_up m + 1) (neighbor_down m)
  | EmitEvent _ (topic.NeighborDown _) =>
      mkMetrics (msgs_ctrl_sent m) (msgs_ctrl_recv m) (msgs_data_sent m) (msgs_data_recv m)
        (msgs_data_sent_size m) (msgs_data_recv_size m) (msgs_ctrl_sent_size m)
        (msgs_ctrl_recv_size m) (neighbor_up m) (neighbor_down m + 1)
  | _ => m
  end%N.

Definition track_out_events (events : list (OutEvent PI)) (m : Metrics) : Metrics :=
  foldl track_out_event m events.

Definition track_in_event (event : InEvent PI) (m : Metrics) : Metrics :=
  match event with
  | RecvMessage _ message =>
      match kind message with
      | topic.Data =>
          mkMetrics (msgs_ctrl_sent m) (msgs_ctrl_recv m) (msgs_data_sent m)
            (msgs_data_recv m + 1) (msgs_data_sent_size m)
            (msgs_data_recv_size m + size_or_zero message) (msgs_ctrl_sent_size m)
            (msgs_ctrl_recv_size m) (neighbor_up m) (neighbor_down m)
      | topic.Control =>
          mkMetrics (msgs_ctrl_sent m) (msgs_ctrl_recv m + 1) (msgs_data_sent m)
            (msgs_data_recv m) (msgs_data_sent_size m) (msgs_data_recv_size m)
            (msgs_ctrl_sent_size m) (msgs_ctrl_recv_size m + size_or_zero message)
            (neighbor_up m) (neighbor_down m)
      end
  | _ => m
  end%N.

End metrics.

(** ** State *)

(** [HashMap<PI, HashSet<TopicId>>] *)
Abbreviation ConnsMap PI := (gmap PI (gset TopicId)).

Record State (PI IS R : Type) `{PeerIdentity PI} : Type := mkState {
  me : PI;
  me_data : PeerData;
  config : topic.Config;
  rng : R;
  states : gmap TopicId (topic.State PI IS R);
  peer_topics : gmap PI (gset TopicId)
}.
Arguments mkState {PI IS R _}.
Arguments me {PI IS R _}.
Arguments me_data {PI IS R _}.
Arguments config {PI IS R _}.
Arguments rng {PI IS R _}.
Arguments states {PI IS R _}.
Arguments peer_topics {PI IS R _}.

Section defs.
Context {PI : Type} `{PeerIdentity PI} {IS : Type} `{!IndexSetImpl PI IS}
  {R : Type} `{!Rng R} `{!plumtree.GossipEnv} `{!WireEnv} `{!NodeEnv PI}.

Abbreviation St := (State PI IS R).
Abbreviation Act := (act (State PI IS R) (OutEvent PI)).

Definition set_states (x : gmap TopicId (topic.State PI IS R)) (s : St) : St :=
  mkState (me s) (me_data s) (config s) (rng s) x (peer_topics s).
Definition set_peer_topics (x : gmap PI (gset TopicId)) (s : St) : St :=
  mkState (me s) (me_data s) (config s) (rng s) (states s) x.
Definition set_rng (x : R) (s : St) : St :=
  mkState (me s) (me_data s) (config s) x (states s) (peer_topics s).
Definition set_me_data (x : PeerData) (s : St) : St :=
  mkState (me s) x (config s) (rng s) (states s) (peer_topics s).

Definition new (me : PI) (me_data : PeerData) (config : topic.Config) (rng : R) : outcome St :=
  if decide (MIN_MAX_MESSAGE_SIZE ≤ topic.max_message_size config)%N
  then Done (mkState me me_data config rng ∅ ∅)
  else Panic.

Definition state (t : TopicId) (s : St) : option (topic.State PI IS R) := states s !! t.

Definition reset_stats (t : TopicId) (s : St) : St :=
  match states s !! t with
  | Some st => set_states (<[t := topic.reset_stats st]> (states s)) s
  | None => s
  end.

Definition topics (s : St) : list TopicId := hash_order (dom (states s)).

Definition has_active_peers (t : TopicId) (s : St) : bool :=
  default false (topic.has_active_peers <$> state t s).

Definition max_message_size (s : St) : N := topic.max_message_size (config s).

Definition handle_out_event (t : TopicId) (event : topic.OutEvent PI) : Act unit :=
  match event with
  | topic.SendMessage to message => push (SendMessage to (mkMessage t message))
  | topic.EmitEvent event => push (EmitEvent t event)
  | topic.ScheduleTimer delay timer => push (ScheduleTimer delay (mkTimer t timer))
  | topic.DisconnectPeer peer =>
      s ← get;
      empty ←
        match peer_topics s !! peer with
        | Some list =>
            let removed := bool_decide (t ∈ list) in
            let list := list ∖ {[t]} in
            put (set_peer_topics (<[peer := list]> (peer_topics s)) s);;
            mret (removed || bool_decide (list = ∅))
        | None => mret false
        end;
      if empty : bool then
        modify (λ s, set_peer_topics (delete peer (peer_topics s)) s);;
        push (DisconnectPeer peer)
      else mret tt
  | topic.OPeerData peer data => push (OPeerData peer data)
  end.

(** [let out = state.handle(event, now); for event in out { handle_out_event(..) }] for
    a topic that has a state. *)
Definition run_topic (t : TopicId) (st : topic.State PI IS R) (event : topic.InEvent PI)
    (now : N) : Act unit :=
  match topic.handle event now st with
  | Panic => panic
  | Done (_, st', out) =>
      modify (λ s, set_states (<[t := st']> (states s)) s);;
      for_each out (handle_out_event t)
  end.

Definition is_join (event : topic.InEvent PI) : bool :=
  match event with topic.ICommand (topic.Join _) => true | _ => false end.

Definition is_quit (event : topic.InEvent PI) : bool :=
  match event with topic.ICommand topic.Quit => true | _ => false end.

(** When receiving a join command, initialize state if it doesn't exist. *)
Definition ensure_state (t : TopicId) : Act unit :=
  s ← get;
  match states s !! t with
  | Some _ => mret tt
  | None =>
      let '(seeded, rng') := from_rng (rng s) in
      match topic.with_rng (me s) (Some (me_data s)) (config s) seeded with
      | Panic => panic
      | Done st => put (set_rng rng' (set_states (<[t := st]> (states s)) s))
      end
  end.

(** When receiving messages, note that the topic may want to keep this connection. *)
Definition note_connection (t : TopicId) (event : topic.InEvent PI) : Act unit :=
  match event with
  | topic.RecvMessage from _ =>
      modify (λ s, set_peer_topics
        (<[from := {[t]} ∪ default ∅ (peer_topics s !! from)]> (peer_topics s)) s)
  | _ => mret tt
  end.

Definition handle_topic_event (t : TopicId) (event : topic.InEvent PI) (now : N) : Act unit :=
  (if is_join event then ensure_state t else mret tt);;
  let quit := is_quit event in
  s ← get;
  match states s !! t with
  | Some st =>
      note_connection t event;;
      run_topic t st event now
  | None => mret tt
  end;;
  if quit then modify (λ s, set_states (delete t (states s)) s) else mret tt.

Definition handle_all (event : topic.InEvent PI) (now : N) : Act unit :=
  match event with
  | topic.UpdatePeerData data => modify (set_me_data data)
  | _ => mret tt
  end;;
  s ← get;
  for_each (hash_order (dom (states s))) (λ t,
    s ← get;
    match states s !! t with
    | Some st => run_topic t st event now
    | None => mret tt
    end).

(** The protocol part of [handle]. *)
Definition handle_mapped (event : InEvent PI) (now : N) : Act unit :=
  match map_event event with
  | TopicEvent t event => handle_topic_event t event now
  | All event => handle_all event now
  end.

Definition handle (event : InEvent PI) (now : N) (metrics : option Metrics)
    : Act (option Metrics) :=
  let metrics := track_in_event event <$> metrics in
  outbox ← collect (handle_mapped event now);
  for_each outbox push;;
  mret (track_out_events outbox <$> metrics).

End defs.
End state.
