(* ===== verification/GossipStateFacts.v ===== *)
(** * Correctness of the node state

    Routing of events between the topics of a node, the life of a topic from join to
    quit, the invariant over all topics, deliveries per topic and the bookkeeping of
    connections. *)

From Stdlib Require Import Strings.Byte NArith.
From stdpp Require Import prelude gmap.
From S2P Require Import Prelude ProtoUtil Concrete Hyparview HyparviewFacts.
From S2P Require Import Plumtree PlumtreeFacts Topic TopicFacts GossipState.
Import state.

Section facts.
Context {PI : Type} `{PeerIdentity PI} {IS : Type} `{!IndexSetImpl PI IS}
  {R : Type} `{!Rng R} `{!plumtree.GossipEnv} `{!WireEnv} `{!NodeEnv PI}.
Abbreviation St := (State PI IS R).
Abbreviation Act := (act (State PI IS R) (OutEvent PI)).
Implicit Types (s : St) (p peer : PI) (es : list (OutEvent PI)) (t : TopicId)
  (st : topic.State PI IS R) (out : list (topic.OutEvent PI)).

(** ** Output events of a topic *)

(** What becomes of one output event of topic [t]: it is tagged with the topic; the
    request to disconnect a peer is passed on or dropped. *)
Definition routes t (e : topic.OutEvent PI) es : Prop :=
  match e with
  | topic.SendMessage to message => es = [SendMessage to (mkMessage t message)]
  | topic.EmitEvent event => es = [EmitEvent t event]
  | topic.ScheduleTimer delay timer => es = [ScheduleTimer delay (mkTimer t timer)]
  | topic.DisconnectPeer peer => es = [] ∨ es = [DisconnectPeer peer]
  | topic.OPeerData peer data => es = [OPeerData peer data]
  end.

Inductive routed t : list (topic.OutEvent PI) → list (OutEvent PI) → Prop :=
| routed_nil : routed t [] []
| routed_cons e out es1 es2 :
    routes t e es1 → routed t out es2 → routed t (e :: out) (es1 ++ es2).

(** The event belongs to the topic, or concerns a peer as a whole. *)
Definition of_topic t (e : OutEvent PI) : Prop :=
  match e with
  | SendMessage _ message => msg_topic message = t
  | EmitEvent t' _ => t' = t
  | ScheduleTimer _ timer => timer_topic timer = t
  | DisconnectPeer _ | OPeerData _ _ => True
  end.

(** A delivery of topic [t] to the application. *)
Definition received_in t (e : OutEvent PI) : option (plumtree.OutEvent PI) :=
  match e with
  | EmitEvent t' (topic.Received g) =>
      if decide (t' = t) then Some (plumtree.EmitEvent (plumtree.Received g)) else None
  | _ => None
  end.

Definition node_deliveries t (id : plumtree.MessageId) es : nat :=
  deliveries id (omap (received_in t) es).

Lemma routed_of_topic t out es : routed t out es → Forall (of_topic t) es.
Proof.
  induction 1 as [|e out es1 es2 He _ IH]; [done|]. apply Forall_app. split; [|done].
  destruct e; simpl in He; destruct_or?; subst; repeat constructor.
Qed.

Lemma routed_received t out es :
  routed t out es → omap (received_in t) es = omap received_of out.
Proof.
  induction 1 as [|e out es1 es2 He _ IH]; [done|]. rewrite omap_app, IH.
  destruct e as [|[]| | |]; simpl in He; destruct_or?; subst; csimpl; try done.
  by rewrite decide_True.
Qed.

Lemma routed_received_other t t' out es :
  t' ≠ t → routed t out es → omap (received_in t') es = [].
Proof.
  intros Hne. induction 1 as [|e out es1 es2 He _ IH]; [done|]. rewrite omap_app, IH.
  destruct e as [|[]| | |]; simpl in He; destruct_or?; subst; csimpl; try done.
  by rewrite decide_False.
Qed.

(** An event other than a disconnect request is passed on. *)
Lemma routed_send t out es to m :
  routed t out es → topic.SendMessage to m ∈ out → SendMessage to (mkMessage t m) ∈ es.
Proof.
  induction 1 as [|e out es1 es2 He _ IH]; [set_solver|].
  intros [<-|Hin]%elem_of_cons; apply elem_of_app; [left|right; auto].
  simpl in He. subst. set_solver.
Qed.

Lemma wp_handle_out_event t e s :
  wp (handle_out_event t e) (λ _ s' es,
    routes t e es ∧ s' = set_peer_topics (peer_topics s') s) s.
Proof.
  destruct e as [to m|ev|d ti|p|p d]; simpl; wp_steps;
    try (split; [done|by destruct s]).
  destruct (peer_topics s !! p) as [ts|]; wp_steps; [|split; [by left|by destruct s]].
  destruct (bool_decide (t ∈ ts) || _); wp_steps; (split; [auto|by destruct s]).
Qed.

Lemma wp_handle_out_events t out s :
  wp (for_each out (handle_out_event t)) (λ _ s' es,
    routed t out es ∧ s' = set_peer_topics (peer_topics s') s) s.
Proof.
  revert s. induction out as [|e out IH]; intros s.
  { apply wp_ret. split; [constructor|by destruct s]. }
  cbn [for_each]. apply wp_bind. eapply wp_mono; [apply wp_handle_out_event|].
  intros ? s1 es1 [Hr1 Hs1]. eapply wp_mono; [apply IH|].
  intros ? s2 es2 [Hr2 Hs2]. split; [by constructor|].
  rewrite Hs2. rewrite Hs1. by destruct s.
Qed.

(** Running a topic replaces its state and routes its output. *)
Definition ran t (Q : topic.State PI IS R → list (topic.OutEvent PI) → Prop) s s' es : Prop :=
  ∃ st' out, Q st' out ∧ routed t out es ∧
    s' = set_peer_topics (peer_topics s') (set_states (<[t := st']> (states s)) s).

Lemma wp_run_topic t st e now Q s :
  wp (topic.handle e now) (λ _ st' out, Q st' out) st →
  wp (run_topic t st e now) (λ _ s' es, ran t Q s s' es) s.
Proof.
  intros Ht. unfold run_topic. unfold wp in Ht.
  destruct (topic.handle e now st) as [[[? st'] out]|]; [|done]. wp_steps.
  eapply wp_mono; [apply wp_handle_out_events|].
  intros ? s' es [Hr Hs']. exists st', out. split_and!; [done..|].
  rewrite Hs' at 1. by destruct s.
Qed.

(** ** Invariant and step relation *)

(** The constructor's condition on the configuration and positive view capacities. *)
Definition good_config (cfg : topic.Config) : Prop :=
  (MIN_MAX_MESSAGE_SIZE ≤ topic.max_message_size cfg)%N ∧
  1 ≤ hyparview.active_view_capacity (topic.membership cfg) ∧
  1 ≤ hyparview.passive_view_capacity (topic.membership cfg).

Definition topic_ok (cfg : topic.Config) st : Prop :=
  tinv st ∧ plumtree.config (topic.gossip st) = topic.broadcast cfg.

(** Every joined topic satisfies its invariant under the node's configuration. *)
Definition ninv s : Prop :=
  good_config (config s) ∧ map_Forall (λ _ st, topic_ok (config s) st) (states s).

Definition retention (cfg : topic.Config) : N :=
  plumtree.message_id_retention (topic.broadcast cfg).

(** Only the topics in [touch] change, and only they produce output; topic [t], if joined,
    stays joined and takes a step that delivers the message at most once. *)
Definition nstep (touch : TopicId → Prop) (W : Prop) (id : plumtree.MessageId) (T : N)
    (t : TopicId) s es s' : Prop :=
  config s' = config s ∧ me s' = me s ∧
  (∀ t', ¬ touch t' → states s' !! t' = states s !! t') ∧
  Forall (λ e, ∃ t', touch t' ∧ of_topic t' e) es ∧
  (W → ∀ st, states s !! t = Some st → ∃ st', states s' !! t = Some st' ∧
     once (λ _, True) True id T (topic.gossip st) (omap (received_in t) es) (topic.gossip st')).

#[export] Instance nstep_compositional touch W id T t : Compositional (nstep touch W id T t).
Proof.
  split.
  - intros s. split_and!; [done..|]. intros _ st Hst. exists st. split; [done|]. apply comp_refl.
  - intros s1 es1 s2 es2 s3 (Hc1 & Hm1 & Hf1 & He1 & Ht1) (Hc2 & Hm2 & Hf2 & He2 & Ht2).
    split_and!; [congruence|congruence| |by apply Forall_app|].
    + intros t' Ht'. by rewrite Hf2, Hf1.
    + intros HW st Hst. destruct (Ht1 HW st Hst) as (st1 & Hst1 & Ho1).
      destruct (Ht2 HW st1 Hst1) as (st2 & Hst2 & Ho2). exists st2. split; [done|].
      rewrite omap_app. by eapply comp_trans.
Qed.

Section release.
Hypothesis release_build : plumtree.overflow_checks = false.
Hypothesis frame_fits : header_fits.

Section step.
Context (touch : TopicId → Prop) (W : Prop) (id : plumtree.MessageId) (T now : N)
  (t : TopicId).
Abbreviation in_window cfg := (W → T ≤ now + retention cfg ∧ now < T)%N.

Lemma wp_topic_step ev cfg st :
  in_window cfg → topic_ok cfg st →
  wp (topic.handle ev now) (λ _ st' out, topic_ok cfg st' ∧
    (W → once (λ _, True) True id T (topic.gossip st) (omap received_of out)
           (topic.gossip st'))) st.
Proof.
  intros Hw [[Hl Ht]%tinv_layers Hcfg]. rewrite Hcfg in Hl.
  eapply wp_mono; [by apply (wp_handle release_build W id T (retention cfg) now Hw)|].
  intros ? st' out ((Hi & Hp & _) & Ht' & Ho). split; [split; [by split_and!|]|].
  - destruct Ho as [(_ & Hc & _) _]. congruence.
  - intros HW. destruct Ho as (Hc & Hk & Ho). split_and!; auto.
Qed.

(** Running a joined topic. *)
Lemma wp_run_topic_step t0 st ev s :
  ninv s → in_window (config s) → touch t0 → states s !! t0 = Some st →
  wp (run_topic t0 st ev now) (λ _ s' es, ninv s' ∧ nstep touch W id T t s es s') s.
Proof.
  intros [Hcfg Hall] Hw Hto Hst.
  eapply wp_mono; [apply wp_run_topic, (wp_topic_step ev (config s) st Hw), (Hall t0 st Hst)|].
  intros ? s' es (st' & out & [Hok Ho] & Hr & Hs'). rewrite Hs'. split.
  - split; [done|]. by apply map_Forall_insert_2.
  - split_and!; [done|done| | |]; simpl.
    + intros t' Ht'. rewrite lookup_insert_ne; [done|]. by intros ->.
    + eapply Forall_impl; [by eapply routed_of_topic|]. by eauto.
    + intros HW stt Hstt. destruct (decide (t = t0)) as [->|Hne].
      * rewrite Hst in Hstt. simplify_eq. exists st'. rewrite lookup_insert_eq.
        split; [done|]. rewrite (routed_received t0 out es) by done. by apply Ho.
      * exists stt. rewrite lookup_insert_ne by done. split; [done|].
        rewrite (routed_received_other t0 t out es) by done. apply comp_refl.
Qed.

(** A change that leaves topics and configuration alone. *)
Lemma nstep_frame s s' :
  config s' = config s → me s' = me s → states s' = states s →
  (ninv s → ninv s') ∧ nstep touch W id T t s [] s'.
Proof.
  intros Hc Hm Hst. unfold ninv, nstep. rewrite Hc, Hm, Hst. split_and!; [done..|].
  intros _ st Hl. exists st. split; [done|]. apply comp_refl.
Qed.

Lemma wp_ensure_state t0 s :
  ninv s → touch t0 →
  wp (ensure_state t0) (λ _ s' es,
    ninv s' ∧ nstep touch W id T t s es s' ∧ is_Some (states s' !! t0) ∧ es = []) s.
Proof.
  intros [Hcfg Hall] Hto. unfold ensure_state. wp_steps.
  destruct (states s !! t0) as [st|] eqn:Hst.
  { wp_steps. destruct (nstep_frame s s) as [Hi Hn]; [done..|].
    split_and!; [by split|done|by eexists|done]. }
  destruct (from_rng (rng s)) as [seeded r']. destruct Hcfg as (Hmin & Ha & Hp).
  destruct (with_rng_tinv (IS := IS) (me s) (Some (me_data s)) (config s) seeded frame_fits
    Hmin Ha Hp) as (st & Hrun & Hok).
  pose proof (with_rng_config _ _ _ _ _ Hrun) as Hc. rewrite Hrun. wp_steps. split_and!.
  - split; [by split_and!|]. apply map_Forall_insert_2; [by split|done].
  - split_and!; [done|done| |done|]; simpl.
    + intros t' Ht'. rewrite lookup_insert_ne; [done|]. by intros ->.
    + intros _ stt Hstt. exists stt. rewrite lookup_insert_ne by congruence.
      split; [done|]. apply comp_refl.
  - simpl. rewrite lookup_insert_eq. by eexists.
  - done.
Qed.

Lemma ok_note_connection t0 ev : ok ninv (nstep touch W id T t) (note_connection t0 ev).
Proof.
  destruct ev; simpl; try (apply ok_ret; apply _). apply ok_modify. intros s Hs.
  destruct (nstep_frame s (set_peer_topics
    (<[from:={[t0]} ∪ default ∅ (peer_topics s !! from)]> (peer_topics s)) s)); auto.
Qed.

(** The invariant with the window, which depends on the configuration only. *)
Definition wninv s : Prop := ninv s ∧ in_window (config s).

Lemma wp_wninv {A} (m : Act A) s :
  in_window (config s) →
  wp m (λ _ s' es, ninv s' ∧ nstep touch W id T t s es s') s →
  wp m (λ _ s' es, wninv s' ∧ nstep touch W id T t s es s') s.
Proof.
  intros Hw Hm. eapply wp_mono; [exact Hm|]. intros ? s' es [Hs' Hn].
  split; [|done]. split; [done|]. destruct Hn as [Hc _]. by rewrite Hc.
Qed.

Lemma wp_handle_joined t0 ev s :
  wninv s → touch t0 →
  wp (match states s !! t0 with
      | Some st => note_connection t0 ev;; run_topic t0 st ev now
      | None => mret tt
      end) (λ _ s' es, wninv s' ∧ nstep touch W id T t s es s') s.
Proof.
  intros [Hs Hw] Hto.
  destruct (states s !! t0) as [st|] eqn:Hst.
  2:{ apply wp_ret. split; [done|]. apply comp_refl. }
  apply wp_wninv; [done|]. apply wp_bind.
  eapply wp_mono with (Q := λ _ s1 es1, ninv s1 ∧ nstep touch W id T t s es1 s1 ∧
    states s1 = states s).
  { eapply wp_mono; [apply wp_conj; [by apply ok_note_connection|]|].
    - instantiate (1 := λ _ s1 _, states s1 = states s). by destruct ev; simpl; wp_steps.
    - intros ? s1 es1 [[? ?] ?]. done. }
  intros ? s1 es1 (Hs1 & Hn1 & Hst1). pose proof Hn1 as [Hc1 _].
  eapply wp_mono; [apply wp_run_topic_step; rewrite ?Hc1, ?Hst1; done|].
  intros ? s2 es2 [Hs2 Hn2]. split; [done|]. by eapply comp_trans.
Qed.

Lemma ok_handle_topic_event t0 ev :
  touch t0 → (W → is_quit ev = true → t0 ≠ t) →
  ok wninv (nstep touch W id T t) (handle_topic_event t0 ev now).
Proof.
  intros Hto Hq. unfold handle_topic_event. cbn zeta. apply ok_bind; [apply _| |intros _].
  { destruct (is_join ev); [|apply ok_ret; apply _]. intros s [Hs Hw].
    apply wp_wninv; [done|]. eapply wp_mono; [by apply wp_ensure_state|].
    by intros ? s' es (? & ? & _). }
  apply ok_get_bind. intros s1 Hs1. apply wp_ok_bind; [apply _|].
  eapply wp_mono; [by apply wp_handle_joined|]. intros ? s2 es2 [Hs2 Hn2].
  split_and!; [done..|].
  destruct (is_quit ev) eqn:Hquit; [|apply ok_ret; apply _].
  apply ok_modify. intros s [[Hcfg Hall] Hw]. split.
  - split; [|done]. split; [done|]. by apply map_Forall_delete.
  - split_and!; [done|done| |done|]; simpl.
    + intros t' Ht'. rewrite lookup_delete_ne; [done|]. by intros ->.
    + intros HW st Hst. exists st. rewrite lookup_delete_ne by auto.
      split; [done|]. apply comp_refl.
Qed.

Lemma ok_handle_all ev :
  (∀ t0, touch t0) → ok wninv (nstep touch W id T t) (handle_all ev now).
Proof.
  intros Hto. unfold handle_all. apply ok_bind; [apply _| |intros _].
  { destruct ev; try (apply ok_ret; apply _). apply ok_modify. intros s [Hs Hw].
    destruct (nstep_frame s (set_me_data data s)) as [Hi Hn]; [done..|].
    split; [split; auto|done]. }
  apply ok_bind; [apply _|apply ok_get; apply _|intros s0].
  apply ok_for_each; [apply _|]. intros t0 _. apply ok_get_bind. intros s [Hs Hw].
  destruct (states s !! t0) as [st|] eqn:Hst.
  2:{ apply wp_ret. split; [done|]. apply comp_refl. }
  apply wp_wninv; [done|]. by apply wp_run_topic_step.
Qed.

Lemma ok_handle_mapped ev :
  (∀ t0 e, map_event ev = TopicEvent t0 e → touch t0 ∧ (W → is_quit e = true → t0 ≠ t)) →
  (∀ e, map_event ev = All e → ∀ t0, touch t0) →
  ok wninv (nstep touch W id T t) (handle_mapped ev now).
Proof.
  intros Ht Ha. unfold handle_mapped. destruct (map_event ev) as [e|t0 e] eqn:He.
  - apply ok_handle_all. by eapply Ha.
  - destruct (Ht t0 e eq_refl) as [Hto Hq]. by apply ok_handle_topic_event.
Qed.

End step.
(** Collecting and handing out the outbox does not change what was done. *)
Lemma wp_node_handle ev now m (Q : St → list (OutEvent PI) → Prop) s :
  wp (handle_mapped ev now) (λ _ s' es, Q s' es) s →
  wp (handle ev now m) (λ _ s' es, Q s' es) s.
Proof.
  intros Hm. unfold handle. wp_steps. apply wp_collect. eapply wp_mono; [exact Hm|].
  intros ? s' es HQ. wp_steps. unfold wp. rewrite for_each_push_all. simpl.
  by rewrite app_nil_r.
Qed.

Lemma wp_handle_ninv ev now m s :
  ninv s → wp (handle ev now m) (λ _ s' _, ninv s') s.
Proof.
  intros Hs. apply (wp_node_handle ev now m (λ s' _, ninv s')). eapply wp_mono.
  - apply (ok_handle_mapped (λ _, True) False [] 0 now []); [done|done|by split].
  - by intros ? s' es [[? _] _].
Qed.

End release.

(** ** Properties *)

(** C2: In a release build the node handles every input event, of any topic and from any
    peer, without a panic, and every topic it is in afterwards (also one just joined)
    satisfies the invariants of both protocol layers. *)
Theorem node_handle_inv ev now m s :
  plumtree.overflow_checks = false → header_fits → ninv s →
  wp (handle ev now m) (λ _ s' _, ninv s') s.
Proof. intros Hrel Hfit. by apply wp_handle_ninv. Qed.

(** Topics are independent: an event for one topic (a message, a command, a timer)
    leaves the state of every other topic untouched, and whatever it sends, schedules or
    reports carries the event's topic. *)
Theorem topics_isolated ev t e now m s :
  plumtree.overflow_checks = false → header_fits → ninv s →
  map_event ev = TopicEvent t e →
  wp (handle ev now m) (λ _ s' es,
    (∀ t', t' ≠ t → states s' !! t' = states s !! t') ∧ Forall (of_topic t) es) s.
Proof.
  intros Hrel Hfit Hs He.
  apply (wp_node_handle ev now m (λ s' es,
    (∀ t', t' ≠ t → states s' !! t' = states s !! t') ∧ Forall (of_topic t) es)).
  eapply wp_mono.
  - apply (ok_handle_mapped Hrel Hfit (.= t) False [] 0 now []); [| |by split].
    + intros t0 e0 He0. rewrite He in He0. by simplify_eq.
    + intros e0 He0. by rewrite He in He0.
  - intros ? s' es [_ (_ & _ & Hf & Hes & _)]. split; [exact Hf|].
    eapply Forall_impl; [exact Hes|]. by intros x (t' & -> & ?).
Qed.

(** An event for a topic the node has not joined does nothing at all, unless it is the
    command to join: no state is created, no message sent, no connection noted. *)
Theorem unknown_topic_ignored ev t e now m s :
  map_event ev = TopicEvent t e → is_join e = false → states s !! t = None →
  ∃ m', handle ev now m s = Done (m', s, []).
Proof.
  intros He Hj Ht. unfold handle, handle_mapped. rewrite He. unfold handle_topic_event.
  rewrite Hj. unfold mbind, act_bind, collect, get. simpl. rewrite Ht. simpl.
  destruct (is_quit e); simpl; [|by eexists]. unfold modify. simpl.
  rewrite delete_id by done. eexists. by destruct s.
Qed.

(** C1: End to end, within one retention window, the application gets a swarm message of a
    joined topic at most once, whatever events the node handles for this and for other
    topics, as long as the topic is not left in between. *)
Theorem node_delivers_at_most_once t (id : plumtree.MessageId) (start : N)
    (evs : list (InEvent PI * N)) s :
  plumtree.overflow_checks = false → header_fits → ninv s → is_Some (states s !! t) →
  Forall (λ '(ev, now), start ≤ now < start + retention (config s))%N evs →
  Forall (λ '(ev, now), ev ≠ ICommand t topic.Quit) evs →
  wp (for_each evs (λ '(ev, now), handle ev now None;; mret tt)) (λ _ s' es,
    ninv s' ∧ is_Some (states s' !! t) ∧ node_deliveries t id es ≤ 1) s.
Proof.
  intros Hrel Hfit Hs [st Hst] Hw Hq. set (T := (start + retention (config s))%N) in *.
  assert (ok (λ s', ninv s' ∧ config s' = config s)
    (nstep (λ _, True) True id T t)
    (for_each evs (λ '(ev, now), handle ev now None;; mret tt))) as Hrun.
  { apply ok_for_each; [apply _|]. intros [ev now] Hin s1 [Hs1 Hc1].
    pose proof (proj1 (Forall_forall _ _) Hw _ Hin) as Hnow.
    pose proof (proj1 (Forall_forall _ _) Hq _ Hin) as Hnq. simpl in Hnow, Hnq.
    apply wp_bind. eapply wp_mono.
    - apply (wp_node_handle ev now None (λ s2 es, wninv True T now s2 ∧
        nstep (λ _, True) True id T t s1 es s2)).
      apply (ok_handle_mapped Hrel Hfit (λ _, True) True id T now t).
      + intros t1 e He. split; [done|]. intros _ He' ->. destruct Hnq.
        destruct ev as [? []|? []|[]| |]; simpl in *; simplify_eq; done.
      + done.
      + split; [done|]. intros _. rewrite Hc1. unfold T. lia.
    - intros ? s2 es [[Hs2 _] Hn]. wp_steps. rewrite app_nil_r.
      split; [split; [done|]|done]. destruct Hn as [Hc2 _]. congruence. }
  eapply wp_mono; [by apply Hrun|].
  intros ? s' es [[Hs' _] (_ & _ & _ & _ & Ht)].
  destruct (Ht I st Hst) as (st' & Hst' & (_ & _ & Ho)). split_and!; [done|by eexists|].
  by apply Ho.
Qed.

(** The join requests and goodbyes of a topic. *)
Definition join_in t (e : OutEvent PI) : option PI :=
  match e with
  | SendMessage p (mkMessage t' m) =>
      if decide (t' = t) then join_of (topic.SendMessage p m) else None
  | _ => None
  end.

Definition goodbye_in t (e : OutEvent PI) : option PI :=
  match e with
  | SendMessage p (mkMessage t' m) =>
      if decide (t' = t) then goodbye_of (topic.SendMessage p m) else None
  | _ => None
  end.

Lemma routed_joins t out es : routed t out es → omap (join_in t) es = omap join_of out.
Proof.
  induction 1 as [|e out es1 es2 He _ IH]; [done|]. rewrite omap_app, IH.
  destruct e; simpl in He; destruct_or?; subst; csimpl; try done.
  rewrite decide_True by done. by case_match.
Qed.

Lemma routed_goodbyes t out es : routed t out es → omap (goodbye_in t) es = omap goodbye_of out.
Proof.
  induction 1 as [|e out es1 es2 He _ IH]; [done|]. rewrite omap_app, IH.
  destruct e; simpl in He; destruct_or?; subst; csimpl; try done.
  rewrite decide_True by done. by case_match.
Qed.

(** Running a joined topic whose run is known to finish. *)
Lemma wp_run_topic_done t st e now s :
  plumtree.overflow_checks = false → tinv st →
  wp (run_topic t st e now) (λ _ s' es,
    ran t (λ st' out, tinv st' ∧ topic.handle e now st = Done (tt, st', out)) s s' es) s.
Proof.
  intros Hrel Hst. apply wp_run_topic. pose proof (wp_handle_tinv e now st Hrel Hst) as Hok.
  unfold wp in *. by destruct (topic.handle e now st) as [[[[] st'] out]|].
Qed.

(** Joining a topic creates its state, if there is none yet, and sends one [Join] to each
    of the given peers, in order. *)
Theorem join_enters_topic t peers now m s :
  plumtree.overflow_checks = false → header_fits → ninv s →
  wp (handle (ICommand t (topic.Join peers)) now m) (λ _ s' es,
    is_Some (states s' !! t) ∧ omap (join_in t) es = peers) s.
Proof.
  intros Hrel Hfit Hs. apply (wp_node_handle _ now m (λ s' es,
    is_Some (states s' !! t) ∧ omap (join_in t) es = peers)).
  unfold handle_mapped. simpl. unfold handle_topic_event. simpl. apply wp_bind.
  eapply wp_mono; [apply (wp_ensure_state Hfit (λ _, True) False [] 0 [] t); done|].
  intros ? s1 es1 (Hs1 & _ & [st Hst] & ->). wp_steps. rewrite Hst. wp_steps.
  destruct Hs1 as [_ Hall].
  eapply wp_mono; [apply (wp_run_topic_done t st _ now s1 Hrel), (Hall t st Hst)|].
  intros ? s2 es2 (st' & out & [_ Hrun] & Hr & ->). wp_steps. simpl.
  split; [rewrite lookup_insert_eq; by eexists|]. rewrite app_nil_r.
  rewrite (routed_joins t out) by done. by eapply join_done.
Qed.

(** Leaving a topic drops its state and says goodbye exactly once to each neighbor the
    topic had. *)
Theorem quit_leaves_topic t st now m s :
  plumtree.overflow_checks = false → ninv s → states s !! t = Some st →
  wp (handle (ICommand t topic.Quit) now m) (λ _ s' es,
    states s' = delete t (states s) ∧
    omap (goodbye_in t) es = active_peers (topic.swarm st)) s.
Proof.
  intros Hrel [_ Hall] Hst. apply (wp_node_handle _ now m (λ s' es,
    states s' = delete t (states s) ∧
    omap (goodbye_in t) es = active_peers (topic.swarm st))).
  unfold handle_mapped. simpl. unfold handle_topic_event. simpl. wp_steps. rewrite Hst. wp_steps.
  pose proof (Hall t st Hst) as [Hok _].
  eapply wp_mono; [by apply (wp_run_topic_done t st _ now s Hrel)|].
  intros ? s2 es2 (st' & out & [_ Hrun] & Hr & ->). wp_steps. simpl.
  rewrite delete_insert_eq. split; [done|]. rewrite app_nil_r.
  rewrite (routed_goodbyes t out) by done. eapply quit_done; [|done]. apply Hok.
Qed.

(** [p] is no neighbor in any topic outside the list. *)
Definition gone_but p (ts : list TopicId) s : Prop :=
  ∀ t st, states s !! t = Some st → t ∉ ts → p ∉ active_set (topic.swarm st).

Lemma wp_closed_loop p now (ts : list TopicId) s :
  plumtree.overflow_checks = false → ninv s → gone_but p ts s →
  wp (for_each ts (λ t,
        s ← get;
        match states s !! t with
        | Some st => run_topic t st (topic.PeerDisconnected p) now
        | None => mret tt
        end)) (λ _ s' _, gone_but p [] s') s.
Proof.
  intros Hrel. revert s. induction ts as [|t ts IH]; intros s Hs Hg; [by apply wp_ret|].
  cbn [for_each]. wp_steps. destruct (states s !! t) as [st|] eqn:Hst.
  2:{ wp_steps. apply IH; [done|]. intros t' st' Hst' Ht'. apply (Hg t' st' Hst').
      apply not_elem_of_cons. split; [congruence|done]. }
  pose proof Hs as [_ Hall]. pose proof (Hall t st Hst) as [Hok _].
  eapply wp_mono; [apply wp_conj; [by apply (wp_run_topic_done t st _ now s Hrel)|
    apply (wp_run_topic_step Hrel (λ _, True) False [] 0 now []); done]|].
  intros ? s1 es1 [(st1 & out & [_ Hrun] & _ & Hs1) [Hi1 _]]. apply IH; [done|].
  intros t' st' Hst' Ht'. rewrite Hs1 in Hst'. simpl in Hst'.
  destruct (decide (t' = t)) as [->|Hne].
  - rewrite lookup_insert_eq in Hst'. simplify_eq. by eapply closed_done.
  - rewrite lookup_insert_ne in Hst' by done. apply (Hg t' st' Hst').
    by apply not_elem_of_cons.
Qed.

(** When the connection to a peer closes, every topic learns it, in whatever order the
    hash map yields them: afterwards the peer is in no active view of the node. *)
Theorem closed_connection_reaches_all_topics p now m s :
  plumtree.overflow_checks = false → ninv s →
  wp (handle (PeerDisconnected p) now m) (λ _ s' _,
    ∀ t st, states s' !! t = Some st → p ∉ active_set (topic.swarm st)) s.
Proof.
  intros Hrel Hs. apply (wp_node_handle _ now m (λ s' _,
    ∀ t st, states s' !! t = Some st → p ∉ active_set (topic.swarm st))).
  unfold handle_mapped. simpl. unfold handle_all. wp_steps.
  eapply wp_mono; [apply wp_closed_loop; [done|done|]|].
  - intros t st Hst Ht. destruct Ht. rewrite hash_order_perm.
    apply elem_of_elements, elem_of_dom. by eexists.
  - intros ? s' es Hg t st Hst. eapply Hg; [exact Hst|]. apply not_elem_of_nil.
Qed.

(** A disconnect request is honoured when the topic is among those using the connection. *)
Lemma wp_out_events_disconnect t p out ts s :
  peer_topics s !! p = Some ts → t ∈ ts → topic.DisconnectPeer p ∈ out →
  wp (for_each out (handle_out_event t)) (λ _ _ es, DisconnectPeer p ∈ es) s.
Proof.
  revert s. induction out as [|e out IH]; intros s Hp Ht Hin; [by apply not_elem_of_nil in Hin|].
  cbn [for_each]. apply wp_bind.
  assert (∀ s1 es1, peer_topics s1 !! p = Some ts → topic.DisconnectPeer p ∈ out →
    wp (for_each out (handle_out_event t)) (λ _ _ es2, DisconnectPeer p ∈ es1 ++ es2) s1) as Hrec.
  { intros s1 es1 Hp1 Hin1. eapply wp_mono; [by apply IH|]. intros. simpl. set_solver. }
  assert (e = topic.DisconnectPeer p ∨ e ≠ topic.DisconnectPeer p) as [->|Hne].
  { destruct e as [| | |q|]; auto. destruct (decide (q = p)); naive_solver. }
  - simpl. wp_steps. rewrite Hp. wp_steps. rewrite bool_decide_true by done.
    cbn [orb]. wp_steps.
    eapply wp_mono; [apply wp_handle_out_events|]. intros. simpl. set_solver.
  - assert (topic.DisconnectPeer p ∈ out) as Hin' by set_solver.
    destruct e as [| | |q|]; simpl; wp_steps; auto.
    destruct (peer_topics s !! q) as [ts'|] eqn:Hq; wp_steps; auto.
    assert (q ≠ p) as Hqp by congruence.
    destruct (_ || _); wp_steps; apply Hrec; auto; simpl;
      rewrite ?lookup_delete_ne, lookup_insert_ne by done; done.
Qed.

(** When a neighbor leaves one topic with a [Disconnect], the node closes the connection
    to it even though the peer is still a neighbor in another topic, which keeps it in
    its active view. *)
Theorem disconnect_closes_shared_connection p d t t' st st' now m s :
  plumtree.overflow_checks = false → ninv s → t ≠ t' →
  states s !! t = Some st → states s !! t' = Some st' →
  p ∈ active_set (topic.swarm st) → p ∈ active_set (topic.swarm st') →
  wp (handle (RecvMessage p (mkMessage t (topic.MSwarm (hyparview.MDisconnect d)))) now m)
    (λ _ s' es, DisconnectPeer p ∈ es ∧
      ∃ st'', states s' !! t' = Some st'' ∧ p ∈ active_set (topic.swarm st'')) s.
Proof.
  intros Hrel [_ Hall] Hne Hst Hst' Hp Hp'.
  apply (wp_node_handle _ now m (λ s' es, DisconnectPeer p ∈ es ∧
    ∃ st'', states s' !! t' = Some st'' ∧ p ∈ active_set (topic.swarm st''))).
  unfold handle_mapped. simpl. unfold handle_topic_event. simpl. wp_steps. rewrite Hst. wp_steps.
  pose proof (Hall t st Hst) as [Hok _].
  pose proof (wp_handle_tinv (topic.RecvMessage p (topic.MSwarm (hyparview.MDisconnect d)))
    now st Hrel Hok) as Hrun.
  unfold run_topic. unfold wp in Hrun.
  destruct (topic.handle _ now st) as [[[u st1] out]|] eqn:Hout; [|done]. wp_steps.
  pose proof (disconnect_done p d now st u st1 out ltac:(apply Hok) Hp Hout) as Hd.
  eapply wp_mono; [apply wp_conj; [apply wp_handle_out_events|
    eapply (wp_out_events_disconnect t p out); [simpl; apply lookup_insert_eq|set_solver|done]]|].
  intros ? s2 es2 [[_ Hs2] He2]. wp_steps. split; [simpl; set_solver|].
  exists st'. rewrite Hs2. simpl. by rewrite lookup_insert_ne.
Qed.

End facts.

(** ** A concrete node *)

#[local] Existing Instance release_env.
#[local] Existing Instance sample_wire.
#[local] Instance sample_node_env : NodeEnv N :=
  {| hash_order := elements; message_size _ := Some 100%N; hash_order_perm _ := reflexivity _ |}.

Definition topic_a : TopicId := replicate 32 "097"%byte.
Definition topic_b : TopicId := replicate 32 "098"%byte.

(** A node with one topic, joined by peers 2 and 3, and a second topic with the same
    neighbors. *)
Definition sample_gossip : State N (nodup_list N) N := {|
  me := 1%N;
  me_data := [];
  config := topic.default_config;
  rng := 7%N;
  states := {[topic_a := joined_topic; topic_b := joined_topic]};
  peer_topics := ∅
|}.

Lemma sample_gossip_ninv : ninv sample_gossip.
Proof.
  split; [split_and!; [by vm_compute|simpl; lia..]|].
  assert (topic_ok topic.default_config joined_topic) as Hok
    by (split; [exact joined_topic_tinv|reflexivity]).
  apply map_Forall_insert_2; [exact Hok|]. by apply map_Forall_singleton.
Qed.

(** *** Witnesses *)

Lemma node_handle_inv_witness :
  wp (handle (ICommand topic_a (topic.Join [9%N])) 5 None) (λ _ s' _, ninv s') sample_gossip.
Proof.
  apply node_handle_inv; [reflexivity|exact sample_header_fits|exact sample_gossip_ninv].
Defined.

Lemma topics_isolated_witness :
  wp (handle (ICommand topic_a (topic.Broadcast bye plumtree.Swarm)) 5 None) (λ _ s' es,
    (∀ t', t' ≠ topic_a → states s' !! t' = states sample_gossip !! t') ∧
    Forall (of_topic topic_a) es) sample_gossip.
Proof.
  apply (topics_isolated _ topic_a (topic.ICommand (topic.Broadcast bye plumtree.Swarm)));
    [reflexivity|exact sample_header_fits|exact sample_gossip_ninv|reflexivity].
Defined.

Definition node_events : list (InEvent N * N) :=
  [(RecvMessage 2 (mkMessage topic_a (topic.MGossip (plumtree.MGossip (bye_gossip 3)))), 10);
   (ICommand topic_b topic.Quit, 12);
   (RecvMessage 3 (mkMessage topic_a (topic.MGossip (plumtree.MGossip (bye_gossip 1)))), 20)]%N.

Lemma node_delivers_at_most_once_witness :
  wp (for_each node_events (λ '(ev, now), handle ev now None;; mret tt)) (λ _ s' es,
    ninv s' ∧ is_Some (states s' !! topic_a) ∧
    node_deliveries topic_a (toy_hash bye) es ≤ 1) sample_gossip.
Proof.
  apply (node_delivers_at_most_once topic_a (toy_hash bye) 10 node_events sample_gossip);
    [reflexivity|exact sample_header_fits|exact sample_gossip_ninv|by eexists| |].
  - repeat constructor; vm_compute; done.
  - repeat constructor; discriminate.
Defined.

Lemma join_enters_topic_witness :
  wp (handle (ICommand hello (topic.Join [8; 9]%N)) 5 None) (λ _ s' es,
    is_Some (states s' !! hello) ∧ omap (join_in hello) es = [8; 9]%N) sample_gossip.
Proof.
  apply (join_enters_topic hello [8; 9]%N 5 None sample_gossip);
    [reflexivity|exact sample_header_fits|exact sample_gossip_ninv].
Defined.

Lemma quit_leaves_topic_witness :
  wp (handle (ICommand topic_a topic.Quit) 5 None) (λ _ s' es,
    states s' = delete topic_a (states sample_gossip) ∧
    omap (goodbye_in topic_a) es = active_peers (topic.swarm joined_topic)) sample_gossip.
Proof.
  apply (quit_leaves_topic topic_a joined_topic 5 None sample_gossip);
    [reflexivity|exact sample_gossip_ninv|reflexivity].
Defined.

Lemma closed_connection_reaches_all_topics_witness :
  wp (handle (PeerDisconnected 2%N) 5 None) (λ _ s' _,
    ∀ t st, states s' !! t = Some st → 2%N ∉ active_set (topic.swarm st)) sample_gossip.
Proof.
  apply (closed_connection_reaches_all_topics 2%N 5 None sample_gossip);
    [reflexivity|exact sample_gossip_ninv].
Defined.

Lemma disconnect_closes_shared_connection_witness :
  wp (handle (RecvMessage 2%N (mkMessage topic_a (topic.MSwarm (hyparview.MDisconnect
        (hyparview.mkDisconnect true false))))) 5 None)
    (λ _ s' es, DisconnectPeer 2%N ∈ es ∧
      ∃ st'', states s' !! topic_b = Some st'' ∧ 2%N ∈ active_set (topic.swarm st''))
    sample_gossip.
Proof.
  apply (disconnect_closes_shared_connection 2%N (hyparview.mkDisconnect true false)
    topic_a topic_b joined_topic joined_topic 5 None sample_gossip);
    [reflexivity|exact sample_gossip_ninv|discriminate|reflexivity|reflexivity|
     decide_compute|decide_compute].
Defined.
