(* ===== verification/ChatHistory.v ===== *)
(** * Chat history and delivery state: [src/chat_history.rs]

    [Module chat_history] translates the delivery state machine ([DeliveryState]), the
    reducer of delivery facts, and the in-memory history store.  Hashing (blake3), the
    clock, reading the legacy file and parsing it (serde_json) are parameters; media
    metadata and mentions are carried along unread and are type parameters.  Event ids
    keep Rust's [u64] arithmetic. *)

From Stdlib Require Import NArith.
From stdpp Require Import prelude gmap strings.
From S2P Require Import Prelude.

Module chat_history.

Definition SCHEMA_VERSION : N := 1.

(** ** Delivery state *)

Inductive DeliveryState : Type := Queued | Sent | Delivered | Seen | Failed.

#[export] Instance DeliveryState_eq_dec : EqDecision DeliveryState.
Proof. solve_decision. Defined.

Definition can_transition_to (self other : DeliveryState) : bool :=
  if decide (self = other) then true
  else
    match self, other with
    | Queued, Sent | Queued, Failed
    | Sent, Delivered | Sent, Seen | Sent, Failed
    | Delivered, Seen | Delivered, Failed => true
    | _, _ => false
    end.

(** ** Delivery facts and their reducer *)

Inductive DeliveryPhase : Type := PQueued | PSending | PDelivered | PFailed.

#[export] Instance DeliveryPhase_eq_dec : EqDecision DeliveryPhase.
Proof. solve_decision. Defined.

Inductive QueuedReason : Type := Initial | Retry | Offline | AwaitingWorker | LegacyUnknown.

#[export] Instance QueuedReason_eq_dec : EqDecision QueuedReason.
Proof. solve_decision. Defined.

Record DeliveryFacts : Type := mkFacts {
  phase : DeliveryPhase;
  queued_reason : QueuedReason;
  generation : N;
  active_attempt : option N;
  awaiting_ack : bool;
  publication_observed : bool;
  read_observed : bool;
  failure_code : option string
}.

#[export] Instance DeliveryFacts_eq_dec : EqDecision DeliveryFacts.
Proof. solve_decision. Defined.

Definition default_facts : DeliveryFacts :=
  mkFacts PQueued Initial 0 None false false false None.

Definition from_legacy (state : DeliveryState) : DeliveryFacts :=
  match state with
  | Queued => mkFacts PQueued LegacyUnknown 0 None false false false None
  | Sent => mkFacts PSending LegacyUnknown 0 None true true false None
  | Delivered => mkFacts PDelivered LegacyUnknown 0 None false true false None
  | Seen => mkFacts PDelivered LegacyUnknown 0 None false true true None
  | Failed => mkFacts PFailed LegacyUnknown 0 None false false false None
  end.

Definition label (f : DeliveryFacts) : string :=
  match phase f with
  | PQueued => "Sending"
  | PSending => if publication_observed f then "Sent" else "Sending"
  | PDelivered => if read_observed f then "Read" else "Delivered"
  | PFailed => "Failed"
  end.

Inductive DeliveryEvent : Type :=
| StartAttempt (generation : N)
| Published (generation : N)
| Timeout (generation : N)
| EFailed (generation : N) (code : string)
| Receipt (generation : N)
| Read (generation : N)
| ERetry (generation : N) (reason : QueuedReason).

Definition event_generation (e : DeliveryEvent) : N :=
  match e with
  | StartAttempt g | Published g | Timeout g | EFailed g _ | Receipt g | Read g
  | ERetry g _ => g
  end.

(** [reduce_delivery]: the new facts and whether the event was applied. *)
Definition reduce_delivery (f : DeliveryFacts) (event : DeliveryEvent) : DeliveryFacts * bool :=
  if decide (event_generation event < generation f)%N then (f, false)
  else
    match event with
    | Receipt g =>
        (mkFacts PDelivered (queued_reason f) (N.max (generation f) g) (active_attempt f)
           false true (read_observed f) (failure_code f), true)
    | Read g =>
        (mkFacts PDelivered (queued_reason f) (N.max (generation f) g) (active_attempt f)
           false true true (failure_code f), true)
    | StartAttempt g =>
        (mkFacts PSending (queued_reason f) g (Some g) true (publication_observed f)
           (read_observed f) None, true)
    | Published g =>
        (mkFacts PSending (queued_reason f) (N.max (generation f) g) (active_attempt f)
           true true (read_observed f) (failure_code f), true)
    | Timeout g =>
        if read_observed f || bool_decide (phase f = PDelivered) then (f, false)
        else (mkFacts PFailed (queued_reason f) (N.max (generation f) g) (active_attempt f)
                false (publication_observed f) (read_observed f) (Some "timeout"), true)
    | EFailed g code =>
        if read_observed f || bool_decide (phase f = PDelivered) then (f, false)
        else (mkFacts PFailed (queued_reason f) (N.max (generation f) g) (active_attempt f)
                false (publication_observed f) (read_observed f) (Some code), true)
    | ERetry g reason =>
        (mkFacts PQueued reason g None false (publication_observed f) (read_observed f)
           (failure_code f), true)
    end.

Record InvalidTransition : Type := mkInvalidTransition {
  it_event_id : N;
  it_current : DeliveryState;
  it_attempted : DeliveryState
}.

(** ** Entries and the store *)

Section store.
Context {MediaMetadata Mention : Type}.

Record HistoryEntry : Type := mkEntry {
  event_id : N;
  hash : string;
  sender : string;
  timestamp : N;
  kind : string;
  topic : Bytes;
  text_preview : string;
  signed_bytes : Bytes;
  delivery_state : DeliveryState;
  delivery_facts : DeliveryFacts;
  image_bytes : option Bytes;
  image_identifier : option string;
  media_metadata : option MediaMetadata;
  mentions : list Mention
}.

Definition set_event_id (id : N) (e : HistoryEntry) : HistoryEntry :=
  mkEntry id (hash e) (sender e) (timestamp e) (kind e) (topic e) (text_preview e)
    (signed_bytes e) (delivery_state e) (delivery_facts e) (image_bytes e)
    (image_identifier e) (media_metadata e) (mentions e).
Definition set_delivery (d : DeliveryState) (f : DeliveryFacts) (e : HistoryEntry)
    : HistoryEntry :=
  mkEntry (event_id e) (hash e) (sender e) (timestamp e) (kind e) (topic e) (text_preview e)
    (signed_bytes e) d f (image_bytes e) (image_identifier e) (media_metadata e) (mentions e).

(** [HistoryEntry::new], with the hash function and the clock's reading. *)
Definition new_entry (blake3_hex : Bytes → string) (now : N) (topic : Bytes)
    (sender : string) (signed_bytes : Bytes) (kind text_preview : string) : HistoryEntry :=
  mkEntry 0 (blake3_hex signed_bytes) sender now kind topic text_preview signed_bytes
    Queued default_facts None None None [].

Record ChatHistoryStore : Type := mkStore {
  schema_version : N;
  entries : list HistoryEntry;
  data_dir : string;
  next_event_id : N
}.

Implicit Types (s : ChatHistoryStore) (e : HistoryEntry).

Definition set_entries (l : list HistoryEntry) s : ChatHistoryStore :=
  mkStore (schema_version s) l (data_dir s) (next_event_id s).

Definition empty_at (dir : string) : ChatHistoryStore := mkStore SCHEMA_VERSION [] dir 1.

(** The legacy file as the file system presents it. *)
Inductive file : Type :=
| Missing
| Unreadable
| Contents (raw : string).

Inductive load_error : Type :=
| ReadFailed
| ParseFailed
| UnsupportedSchema (version : N).

(** Rows without facts of their own get those of the legacy state. *)
Definition adapt_facts e : HistoryEntry :=
  if decide (delivery_facts e = default_facts ∧ delivery_state e ≠ Queued)
  then set_delivery (delivery_state e) (from_legacy (delivery_state e)) e
  else e.

Definition max_event_id (l : list HistoryEntry) : option N :=
  match l with
  | [] => None
  | e :: l' => Some (foldl (λ m e', N.max m (event_id e')) (event_id e) l')
  end.

(** [load], given the file and the JSON parser. *)
Definition load (parse : string → option ChatHistoryStore) (dir : string) (f : file)
    : load_error + option ChatHistoryStore :=
  match f with
  | Missing => inr None
  | Unreadable => inl ReadFailed
  | Contents raw =>
      match parse raw with
      | None => inl ParseFailed
      | Some store =>
          if decide (schema_version store = SCHEMA_VERSION) then
            let l := adapt_facts <$> entries store in
            inr (Some (mkStore (schema_version store) l dir
              (N.min u64_max (default 0%N (max_event_id l) + 1))))
          else inl (UnsupportedSchema (schema_version store))
      end
  end.

Definition load_or_default (parse : string → option ChatHistoryStore) (dir : string) (f : file)
    : ChatHistoryStore :=
  match load parse dir f with
  | inr (Some store) => store
  | inr None => empty_at dir
  | inl _ => empty_at dir
  end.

Definition push e s : ChatHistoryStore := set_entries (entries s ++ [e]) s.

(** The increment of the counter panics or wraps at the end of the [u64] range. *)
Definition push_with_id (checks : bool) e s : outcome (N * ChatHistoryStore) :=
  let id := next_event_id s in
  match u64_incr checks id with
  | Panic => Panic
  | Done next =>
      Done (id, mkStore (schema_version s) (entries s ++ [set_event_id id e]) (data_dir s) next)
  end.

Definition push_with_explicit_id (checks : bool) e (explicit_id : N) s
    : outcome ChatHistoryStore :=
  match (if decide (next_event_id s ≤ explicit_id)%N then u64_incr checks explicit_id
         else Done (next_event_id s)) with
  | Panic => Panic
  | Done next =>
      Done (mkStore (schema_version s) (entries s ++ [set_event_id explicit_id e])
              (data_dir s) next)
  end.

Definition seed_next_event_id (checks : bool) (max_external_id : N) s
    : outcome ChatHistoryStore :=
  match (if decide (next_event_id s ≤ max_external_id)%N then u64_incr checks max_external_id
         else Done (next_event_id s)) with
  | Panic => Panic
  | Done next => Done (mkStore (schema_version s) (entries s) (data_dir s) next)
  end.

Definition get_by_event_id (id : N) s : option HistoryEntry :=
  snd <$> list_find (λ e, event_id e = id) (entries s).

(** The found entry is updated in place: the first one with this id. *)
Definition update_delivery_state (id : N) (new_state : DeliveryState) s
    : InvalidTransition + ChatHistoryStore :=
  match list_find (λ e, event_id e = id) (entries s) with
  | None => inl (mkInvalidTransition id Queued new_state)
  | Some (i, e) =>
      if can_transition_to (delivery_state e) new_state then
        inr (set_entries (<[i := set_delivery new_state (from_legacy new_state) e]> (entries s)) s)
      else inl (mkInvalidTransition id (delivery_state e) new_state)
  end.

Definition latest_hash s : option string := hash <$> last (entries s).

Definition len s : nat := length (entries s).

Definition is_empty s : bool := bool_decide (entries s = []).

Definition clear s : ChatHistoryStore := set_entries [] s.

Definition remove_topic (t : Bytes) s : nat * ChatHistoryStore :=
  let kept := filter (λ e, topic e ≠ t) (entries s) in
  (length (entries s) - length kept, set_entries kept s).

Definition get_outgoing_queue (t : Bytes) (local_hex : string) s : list HistoryEntry :=
  filter (λ e, topic e = t ∧ sender e = local_hex ∧
               (delivery_state e = Queued ∨ delivery_state e = Sent)) (entries s).

Definition find_by_hash (h : string) s : option HistoryEntry :=
  snd <$> list_find (λ e, hash e = h) (entries s).

Definition for_topic (t : Bytes) s : list HistoryEntry :=
  filter (λ e, topic e = t) (entries s).

(** The backwards scan: collect matching entries until [count] are found. *)
Fixpoint scan_back (t : Bytes) (count : nat) (result rest : list HistoryEntry)
    : list HistoryEntry :=
  match rest with
  | [] => result
  | e :: rest' =>
      if decide (topic e = t) then
        let result := result ++ [e] in
        if decide (count ≤ length result) then result else scan_back t count result rest'
      else scan_back t count result rest'
  end.

Definition get_recent_messages_for_topic (t : Bytes) (count : nat) s : list HistoryEntry :=
  if decide (count = 0) then []
  else reverse (scan_back t count [] (reverse (entries s))).

Definition count_for_topic (t : Bytes) s : nat := length (for_topic t s).

Definition get_recent_messages (count : nat) s : list HistoryEntry :=
  if decide (count = 0) then []
  else drop (length (entries s) - count) (entries s).

Definition get_by_delivery_state (st : DeliveryState) s : list HistoryEntry :=
  filter (λ e, delivery_state e = st) (entries s).

End store.
Arguments HistoryEntry : clear implicits.
Arguments ChatHistoryStore : clear implicits.
End chat_history.
