(* ===== verification/ChatHistoryFacts.v ===== *)
(** * Correctness of delivery tracking and of the history store

    The delivery state machine never goes back, the reducer keeps delivery evidence
    (with one exception), event ids are unique and stable, and the optimised queries
    agree with their definitions. *)

From Stdlib Require Import NArith.
From stdpp Require Import prelude gmap strings.
From S2P Require Import Prelude ChatHistory.
Import chat_history.

(** ** Delivery states *)

Definition allowed (a b : DeliveryState) : Prop := can_transition_to a b = true.

(** Progress of a state. *)
Definition progress (d : DeliveryState) : nat :=
  match d with Queued => 0 | Sent => 1 | Delivered => 2 | Seen | Failed => 3 end.

Lemma allowed_progress a b : allowed a b → a = b ∨ progress a < progress b.
Proof. destruct a, b; vm_compute; intros Hab; first [by left|discriminate Hab|right; lia]. Qed.

Lemma rtc_allowed_progress a b : rtc allowed a b → a = b ∨ progress a < progress b.
Proof.
  induction 1 as [|a b c Hab _ IH]; [by left|].
  apply allowed_progress in Hab as [->|Hab]; [done|]. destruct IH as [->|]; right; lia.
Qed.

(** Whatever sequence of accepted updates a message goes through, its delivery state
    never returns to a state it has left, and [Seen] and [Failed] are final. *)
Theorem delivery_never_goes_back a b :
  rtc allowed a b → (rtc allowed b a → a = b) ∧ (a = Seen ∨ a = Failed → a = b).
Proof.
  intros Hab. apply rtc_allowed_progress in Hab. split.
  - intros Hba. apply rtc_allowed_progress in Hba. destruct Hab, Hba; auto; lia.
  - intros Ha. destruct Hab as [|Hlt]; [done|]. destruct Ha; subst; destruct b; simpl in *; lia.
Qed.

(** ** The reducer of delivery facts *)

(** The facts after a sequence of events. *)
Definition reduce_all (f : DeliveryFacts) (evs : list DeliveryEvent) : DeliveryFacts :=
  foldl (λ f e, (reduce_delivery f e).1) f evs.

(** Evidence that only ever accumulates. *)
Definition keeps_evidence (f f' : DeliveryFacts) : Prop :=
  (generation f ≤ generation f')%N ∧
  (publication_observed f = true → publication_observed f' = true) ∧
  (read_observed f = true → read_observed f' = true).

Lemma reduce_keeps_evidence f e : keeps_evidence f (reduce_delivery f e).1.
Proof.
  unfold reduce_delivery, keeps_evidence. case_decide as Hg; [by split_and!|].
  destruct e; simpl in *; try case_match; simpl; split_and!; auto; lia.
Qed.

(** Events that report a failure or further evidence of delivery. *)
Definition late_report (e : DeliveryEvent) : Prop :=
  match e with Timeout _ | EFailed _ _ | Receipt _ | Read _ => True | _ => False end.

Lemma reduce_late_report f e :
  phase f = PDelivered → late_report e → phase (reduce_delivery f e).1 = PDelivered.
Proof.
  intros Hp He. unfold reduce_delivery. case_decide; [done|].
  destruct e; simpl in *; try done;
    rewrite Hp, bool_decide_eq_true_2, orb_true_r by done; exact Hp.
Qed.

(** The reducer accumulates evidence: over any sequence of events the generation and
    the observations of publication and of reading never go back; events of an older
    generation change nothing; and a delivered message stays delivered under any late
    timeouts, failures, receipts and reads. *)
Theorem reducer_keeps_evidence f evs :
  keeps_evidence f (reduce_all f evs) ∧
  (∀ e, (event_generation e < generation f)%N → reduce_delivery f e = (f, false)) ∧
  (phase f = PDelivered → Forall late_report evs → phase (reduce_all f evs) = PDelivered).
Proof.
  split_and!.
  - unfold reduce_all. revert f. induction evs as [|e evs IH]; intros f.
    { unfold keeps_evidence. split_and!; auto with lia. }
    simpl. destruct (IH (reduce_delivery f e).1) as (? & ? & ?).
    destruct (reduce_keeps_evidence f e) as (? & ? & ?). split_and!; auto with lia.
  - intros e He. unfold reduce_delivery. by rewrite decide_True.
  - unfold reduce_all. intros Hp Hl. revert f Hp. induction Hl as [|e evs He _ IH]; intros f Hp.
    { done. }
    simpl. apply IH. by apply reduce_late_report.
Qed.

(** A late publication callback erases a receipt: after a [Receipt], a [Published] event
    of the same generation takes the message back to sending and awaiting an
    acknowledgement, and an unread message is labelled "Sent" again. *)
Theorem late_publication_erases_receipt f g :
  (generation f ≤ g)%N →
  let f1 := (reduce_delivery f (Receipt g)).1 in
  let f2 := (reduce_delivery f1 (Published g)).1 in
  phase f1 = PDelivered ∧ awaiting_ack f1 = false ∧
  phase f2 = PSending ∧ awaiting_ack f2 = true ∧
  (read_observed f = false → label f1 = "Delivered" ∧ label f2 = "Sent").
Proof.
  intros Hg f1 f2.
  assert (f1 = mkFacts PDelivered (queued_reason f) (N.max (generation f) g)
    (active_attempt f) false true (read_observed f) (failure_code f)) as Hf1.
  { unfold f1, reduce_delivery. simpl. by rewrite decide_False by lia. }
  assert (f2 = mkFacts PSending (queued_reason f) (N.max (N.max (generation f) g) g)
    (active_attempt f) true true (read_observed f) (failure_code f)) as Hf2.
  { unfold f2. rewrite Hf1. unfold reduce_delivery. simpl. by rewrite decide_False by lia. }
  rewrite Hf1, Hf2. unfold label. simpl. split_and!; [done..|]. by intros ->.
Qed.

(** ** The store *)

Section store.
Context {MM ME : Type}.
Abbreviation Entry := (HistoryEntry MM ME).
Abbreviation Store := (ChatHistoryStore MM ME).
Implicit Types (s : Store) (e : Entry).

(** Every id in use is below the counter. *)
Definition ids_below s : Prop := Forall (λ e, (event_id e < next_event_id s)%N) (entries s).

Lemma list_find_none_ids (l : list Entry) id :
  Forall (λ e, event_id e ≠ id) l → list_find (λ e, event_id e = id) l = None.
Proof. intros Hl. apply list_find_None. done. Qed.

Lemma list_find_app_fresh (l : list Entry) e id :
  Forall (λ e, event_id e ≠ id) l → event_id e = id →
  snd <$> list_find (λ e, event_id e = id) (l ++ [e]) = Some e.
Proof.
  intros Hl He. rewrite list_find_app_r by (by apply list_find_none_ids).
  simpl. by rewrite decide_True.
Qed.

Lemma list_find_app_other (l : list Entry) e id :
  event_id e ≠ id →
  snd <$> list_find (λ e, event_id e = id) (l ++ [e]) =
  snd <$> list_find (λ e, event_id e = id) l.
Proof.
  intros He. induction l as [|x l IH]; simpl.
  - by rewrite decide_False.
  - case_decide; [done|].
    destruct (list_find _ (l ++ [e])) as [[]|], (list_find _ l) as [[]|];
      simpl in *; simplify_eq; done.
Qed.

(** Event ids are unique and stable: [push_with_id] hands out an id no stored entry has,
    the new entry is found under it and nothing else is found differently, and the
    property is re-established for the next call. *)
Theorem event_ids_fresh checks e s :
  ids_below s → (next_event_id s < u64_max)%N →
  ∃ s', push_with_id checks e s = Done (next_event_id s, s') ∧ ids_below s' ∧
    get_by_event_id (next_event_id s) s = None ∧
    get_by_event_id (next_event_id s) s' = Some (set_event_id (next_event_id s) e) ∧
    ∀ id, id ≠ next_event_id s → get_by_event_id id s' = get_by_event_id id s.
Proof.
  intros Hs Hmax. unfold push_with_id, u64_incr. rewrite decide_True by done.
  assert (Forall (λ x, event_id x ≠ next_event_id s) (entries s)) as Hne.
  { eapply Forall_impl; [exact Hs|]. intros x Hx. simpl in Hx. lia. }
  eexists. split; [done|]. split_and!.
  - apply Forall_app. split.
    + eapply Forall_impl; [exact Hs|]. simpl. lia.
    + repeat constructor. simpl. lia.
  - unfold get_by_event_id. by rewrite list_find_none_ids.
  - unfold get_by_event_id. simpl. by rewrite list_find_app_fresh.
  - intros id Hid. unfold get_by_event_id. simpl. rewrite list_find_app_other; [done|].
    simpl. congruence.
Qed.

Lemma max_event_id_bound (l : list Entry) e m :
  e ∈ l → max_event_id l = Some m → (event_id e ≤ m)%N.
Proof.
  destruct l as [|x l]; [done|]. simpl. intros Hin [= <-].
  assert (∀ (l' : list Entry) acc, (acc ≤ foldl (λ m e', N.max m (event_id e')) acc l')%N ∧
    ∀ y, y ∈ l' → (event_id y ≤ foldl (λ m e', N.max m (event_id e')) acc l')%N) as Hf.
  { induction l' as [|y l' IH]; intros acc; simpl; [split; [lia|set_solver]|].
    destruct (IH (N.max acc (event_id y))) as [H1 H2]. split; [lia|].
    intros z [->|Hz]%elem_of_cons; [lia|auto]. }
  destruct (Hf l (event_id x)) as [H1 H2].
  apply elem_of_cons in Hin as [->|Hin]; [done|auto].
Qed.

(** A loaded history starts with unused ids, whatever counter the file had. *)
Lemma load_ids_below parse dir raw s :
  load parse dir (Contents raw) = inr (Some s) →
  Forall (λ e, (event_id e < u64_max)%N) (entries s) → ids_below s.
Proof.
  unfold load. destruct (parse raw) as [store|]; [|done]. case_decide; [|done].
  intros [= <-]. simpl. intros Hmax. apply Forall_forall. intros e He. simpl in *.
  pose proof (proj1 (Forall_forall _ _) Hmax e He) as Hlt. simpl in Hlt.
  destruct (max_event_id _) as [m|] eqn:Hm; simpl.
  - pose proof (max_event_id_bound _ _ _ He Hm). lia.
  - destruct (adapt_facts <$> entries store); [set_solver|done].
Qed.

(** The backwards scan takes the first matches. *)
Lemma scan_back_take t count result rest :
  length result < count →
  scan_back t count result rest =
  result ++ take (count - length result) (filter (λ e : Entry, topic e = t) rest).
Proof.
  revert result. induction rest as [|e rest IH]; intros result Hlen.
  { rewrite filter_nil, take_nil. by rewrite app_nil_r. }
  simpl. rewrite filter_cons. case_decide; [|by apply IH].
  rewrite length_app. simpl. destruct (count - length result) as [|k] eqn:Hk; [lia|]. simpl.
  case_decide as Hle.
  - replace k with 0 by lia. done.
  - rewrite IH by (rewrite length_app; simpl; lia). rewrite length_app, <-app_assoc. simpl.
    by replace (count - (length result + 1)) with k by lia.
Qed.

(** The bounded backwards scan for a topic's recent messages returns exactly the last
    [count] messages of the topic, oldest first. *)
Theorem recent_for_topic_correct t count s :
  get_recent_messages_for_topic t count s =
  drop (length (for_topic t s) - count) (for_topic t s).
Proof.
  unfold get_recent_messages_for_topic, for_topic. case_decide as Hc.
  { subst. by rewrite drop_ge by lia. }
  rewrite scan_back_take by (simpl; lia). simpl. rewrite Nat.sub_0_r, filter_reverse.
  rewrite take_reverse, reverse_involutive. done.
Qed.

(** Removing a topic removes its messages and no others, and counts them. *)
Lemma remove_topic_exact t s :
  let '(n, s') := remove_topic t s in
  n = count_for_topic t s ∧ for_topic t s' = [] ∧
  ∀ t', t' ≠ t → for_topic t' s' = for_topic t' s.
Proof.
  unfold remove_topic, count_for_topic, for_topic. simpl. split_and!.
  - induction (entries s) as [|e l IH]; [done|]. rewrite !filter_cons.
    pose proof (length_filter (λ e : Entry, topic e ≠ t) l).
    destruct (decide (topic e = t)), (decide (topic e ≠ t)); simpl; try done; lia.
  - induction (entries s) as [|e l IH]; [done|]. rewrite filter_cons.
    case_decide; [|done]. rewrite filter_cons. by rewrite decide_False.
  - intros t' Ht'. induction (entries s) as [|e l IH]; [done|]. rewrite filter_cons.
    case_decide as He; rewrite !filter_cons.
    + case_decide; [by f_equal|done].
    + rewrite IH. rewrite (decide_False (P := topic e = t')); [done|].
      congruence.
Qed.

(** An update touches one entry and follows the state machine. *)
Lemma update_delivery_state_spec id d s :
  match update_delivery_state id d s with
  | inl err => (get_by_event_id id s = None ∧ err = mkInvalidTransition id Queued d) ∨
      ∃ e, get_by_event_id id s = Some e ∧ ¬ allowed (delivery_state e) d ∧
        err = mkInvalidTransition id (delivery_state e) d
  | inr s' => ∃ i e, entries s !! i = Some e ∧ event_id e = id ∧
      allowed (delivery_state e) d ∧
      entries s' = <[i := set_delivery d (from_legacy d) e]> (entries s) ∧
      next_event_id s' = next_event_id s
  end.
Proof.
  unfold update_delivery_state, get_by_event_id.
  destruct (list_find _ (entries s)) as [[i e]|] eqn:Hf; simpl; [|by left].
  apply list_find_Some in Hf as (Hi & Hid & _).
  destruct (can_transition_to (delivery_state e) d) eqn:Ha.
  - by exists i, e.
  - right. exists e. split_and!; [done| |done]. unfold allowed. congruence.
Qed.

End store.

(** ** Witnesses *)

Definition sample_entry : HistoryEntry unit unit :=
  new_entry (λ _, "00") 1000 [] "alice" [] "text" "hi".

Definition sample_store : ChatHistoryStore unit unit :=
  mkStore SCHEMA_VERSION [set_event_id 1 sample_entry; set_event_id 2 sample_entry] "/data" 3.

Lemma delivery_never_goes_back_witness :
  (rtc allowed Sent Queued → Queued = Sent) ∧ (Queued = Seen ∨ Queued = Failed → Queued = Sent).
Proof.
  apply (delivery_never_goes_back Queued Sent). apply rtc_once. vm_compute. reflexivity.
Defined.

Lemma late_publication_erases_receipt_witness :
  let f1 := (reduce_delivery default_facts (Receipt 4)).1 in
  let f2 := (reduce_delivery f1 (Published 4)).1 in
  phase f1 = PDelivered ∧ awaiting_ack f1 = false ∧
  phase f2 = PSending ∧ awaiting_ack f2 = true ∧
  (read_observed default_facts = false → label f1 = "Delivered" ∧ label f2 = "Sent").
Proof. apply (late_publication_erases_receipt default_facts 4). vm_compute. discriminate. Defined.

Lemma event_ids_fresh_witness :
  ∃ s', push_with_id true sample_entry sample_store = Done (3%N, s') ∧ ids_below s' ∧
    get_by_event_id 3 sample_store = None ∧
    get_by_event_id 3 s' = Some (set_event_id 3 sample_entry) ∧
    ∀ id, id ≠ 3%N → get_by_event_id id s' = get_by_event_id id sample_store.
Proof.
  apply (event_ids_fresh true sample_entry sample_store);
    [repeat constructor; vm_compute; reflexivity|vm_compute; reflexivity].
Defined.
