(* ===== verification/Outbox.v ===== *)
(** * The durable outbox: [src/outbox.rs]

    [Module outbox] translates the store of outgoing messages: entries keyed by event id
    together with the list of ids in insertion order.  The clock's reading, hashing
    (blake3), the file and its parser (serde_json), and the iteration order of the
    [HashMap] are parameters.  Durations and instants are in milliseconds. *)

From Stdlib Require Import NArith.
From stdpp Require Import prelude gmap strings.
From S2P Require Import Prelude ChatHistory.

Module outbox.
Import chat_history.

Definition OUTBOX_SCHEMA_VERSION : N := 1.

(** 7 days *)
Definition DEFAULT_OUTBOX_TTL : N := 7 * 24 * 60 * 60 * 1000.

Record OutboxEntry : Type := mkOutboxEntry {
  oe_event_id : N;
  oe_hash : string;
  oe_topic : Bytes;
  oe_signed_bytes : Bytes;
  oe_delivery_state : DeliveryState;
  created_at : N;
  retry_count : N
}.

Definition set_state (d : DeliveryState) (e : OutboxEntry) : OutboxEntry :=
  mkOutboxEntry (oe_event_id e) (oe_hash e) (oe_topic e) (oe_signed_bytes e) d
    (created_at e) (retry_count e).
Definition set_retry_count (n : N) (e : OutboxEntry) : OutboxEntry :=
  mkOutboxEntry (oe_event_id e) (oe_hash e) (oe_topic e) (oe_signed_bytes e)
    (oe_delivery_state e) (created_at e) n.

(** [OutboxEntry::new], with the hash function and the clock's reading. *)
Definition new (blake3_hex : Bytes → string) (now_ms : N) (event_id : N) (topic : Bytes)
    (signed_bytes : Bytes) : OutboxEntry :=
  mkOutboxEntry event_id (blake3_hex signed_bytes) topic signed_bytes Queued now_ms 0.

Record OutboxStore : Type := mkOutboxStore {
  os_schema_version : N;
  os_entries : gmap N OutboxEntry;
  ordered_ids : list N;
  os_data_dir : string;
  os_ttl : N
}.

Implicit Types (s : OutboxStore) (e : OutboxEntry).

Definition set_content (m : gmap N OutboxEntry) (ids : list N) s : OutboxStore :=
  mkOutboxStore (os_schema_version s) m ids (os_data_dir s) (os_ttl s).

Definition empty_at (dir : string) : OutboxStore :=
  mkOutboxStore OUTBOX_SCHEMA_VERSION ∅ [] dir DEFAULT_OUTBOX_TTL.

Definition with_ttl (dir : string) (ttl : N) : OutboxStore :=
  mkOutboxStore OUTBOX_SCHEMA_VERSION ∅ [] dir ttl.

(** [load], given the file and the JSON parser. *)
Definition load (parse : string → option OutboxStore) (dir : string) (f : file)
    : load_error + option OutboxStore :=
  match f with
  | Missing => inr None
  | Unreadable => inl ReadFailed
  | Contents raw =>
      match parse raw with
      | None => inl ParseFailed
      | Some store =>
          if decide (os_schema_version store = OUTBOX_SCHEMA_VERSION) then
            let m := if bool_decide (os_entries store = ∅)
                        && negb (bool_decide (ordered_ids store = []))
                     then ∅ else os_entries store in
            inr (Some (mkOutboxStore (os_schema_version store) m (ordered_ids store)
                         dir DEFAULT_OUTBOX_TTL))
          else inl (UnsupportedSchema (os_schema_version store))
      end
  end.

Definition load_or_default (parse : string → option OutboxStore) (dir : string) (f : file)
    : OutboxStore :=
  match load parse dir f with
  | inr (Some store) => store
  | inr None => empty_at dir
  | inl _ => empty_at dir
  end.

(** [for id in &to_remove { entries.remove(id) }; ordered_ids.retain(..)] *)
Definition remove_ids (to_remove : list N) s : OutboxStore :=
  set_content (foldl (λ m id, delete id m) (os_entries s) to_remove)
    (filter (.∉ to_remove) (ordered_ids s)) s.

(** The ids, in order, whose entry satisfies a test. *)
Definition ids_where (P : OutboxEntry → bool) s : list N :=
  omap (λ id, match os_entries s !! id with
              | Some e => if P e then Some id else None
              | None => None
              end) (ordered_ids s).

(** [now_ms().saturating_sub(self.ttl.as_millis() as u64)] *)
Definition cutoff (now_ms : N) s : N := (now_ms - os_ttl s mod (u64_max + 1))%N.

Definition expire_internal (now_ms : N) s : OutboxStore :=
  remove_ids (ids_where (λ e, bool_decide (created_at e ≤ cutoff now_ms s)%N) s) s.

Definition expire (now_ms : N) s : nat * OutboxStore :=
  let s' := expire_internal now_ms s in
  (size (os_entries s) - size (os_entries s'), s').

Inductive push_error : Type :=
| Duplicate (event_id : N)
| NotQueued (state : DeliveryState).

Definition push e s : push_error + OutboxStore :=
  if decide (is_Some (os_entries s !! oe_event_id e)) then inl (Duplicate (oe_event_id e))
  else inr (set_content (<[oe_event_id e := e]> (os_entries s))
              (ordered_ids s ++ [oe_event_id e]) s).

Definition push_queued e s : push_error + OutboxStore :=
  if decide (oe_delivery_state e = Queued) then push e s
  else inl (NotQueued (oe_delivery_state e)).

Definition get (id : N) s : option OutboxEntry := os_entries s !! id.

Definition remove (id : N) s : bool * OutboxStore :=
  if decide (is_Some (os_entries s !! id)) then
    (true, set_content (delete id (os_entries s)) (filter (.≠ id) (ordered_ids s)) s)
  else (false, s).

(** [entries()]: in insertion order. *)
Definition entries s : list OutboxEntry := omap (λ id, os_entries s !! id) (ordered_ids s).

Definition pending s : list OutboxEntry :=
  filter (λ e, oe_delivery_state e = Queued) (entries s).

Definition with_state (d : DeliveryState) s : list OutboxEntry :=
  filter (λ e, oe_delivery_state e = d) (entries s).

Definition update_delivery_state (id : N) (new_state : DeliveryState) s
    : InvalidTransition + OutboxStore :=
  match os_entries s !! id with
  | None => inl (mkInvalidTransition id Queued new_state)
  | Some e =>
      if can_transition_to (oe_delivery_state e) new_state then
        inr (set_content (<[id := set_state new_state e]> (os_entries s)) (ordered_ids s) s)
      else inl (mkInvalidTransition id (oe_delivery_state e) new_state)
  end.

(** The [u32] counter panics or wraps at its end. *)
Definition increment_retry (checks : bool) (id : N) s : outcome (option N * OutboxStore) :=
  match os_entries s !! id with
  | None => Done (None, s)
  | Some e =>
      match (if decide (retry_count e < u32_max)%N then Done (retry_count e + 1)%N
             else if checks then Panic else Done 0%N) with
      | Panic => Panic
      | Done n =>
          Done (Some n, set_content (<[id := set_retry_count n e]> (os_entries s))
                          (ordered_ids s) s)
      end
  end.

(** [entries.values().find(..)], [values] being the map's iteration order. *)
Definition get_by_hash (values : gmap N OutboxEntry → list OutboxEntry) (h : string) s
    : option OutboxEntry :=
  snd <$> list_find (λ e, oe_hash e = h) (values (os_entries s)).

Definition contains (id : N) s : bool := bool_decide (is_Some (os_entries s !! id)).

Definition len s : nat := size (os_entries s).

Definition is_empty s : bool := bool_decide (os_entries s = ∅).

Definition clear s : OutboxStore := set_content ∅ [] s.

Definition remove_topic (t : Bytes) s : nat * OutboxStore :=
  let to_remove := ids_where (λ e, bool_decide (oe_topic e = t)) s in
  (length to_remove, remove_ids to_remove s).

Definition set_ttl (ttl : N) s : OutboxStore :=
  mkOutboxStore (os_schema_version s) (os_entries s) (ordered_ids s) (os_data_dir s) ttl.

Definition ttl s : N := os_ttl s.

End outbox.
