(* ===== verification/OutboxFacts.v ===== *)
(** * Correctness of the outbox

    The map and the order of the outbox agree after any sequence of operations, the
    queue is first-in first-out and free of duplicates, expiry and removal take exactly
    what they should, and what a loaded file with a lost map does to the order. *)

From Stdlib Require Import NArith.
From stdpp Require Import prelude gmap strings.
From S2P Require Import Prelude ChatHistory Outbox.
Import chat_history outbox.

Implicit Types (s : OutboxStore) (e : OutboxEntry).

(** The order lists exactly the keys, each once, and every entry sits under its id. *)
Record owf s : Prop := mkOwf {
  owf_nodup : NoDup (ordered_ids s);
  owf_ids : ∀ id, id ∈ ordered_ids s ↔ is_Some (os_entries s !! id);
  owf_key : ∀ id e, os_entries s !! id = Some e → oe_event_id e = id
}.

(** ** Lemmas *)

Lemma elem_of_ids_where P s id :
  id ∈ ids_where P s ↔ id ∈ ordered_ids s ∧ ∃ e, os_entries s !! id = Some e ∧ P e = true.
Proof.
  unfold ids_where. rewrite list_elem_of_omap. split.
  - intros (id' & Hin & Hf). destruct (os_entries s !! id') as [e|] eqn:He; [|done].
    destruct (P e) eqn:HP; [|done]. simplify_eq. eauto.
  - intros (Hin & e & He & HP). exists id. by rewrite He, HP.
Qed.

Lemma lookup_delete_all (ids : list N) (m : gmap N OutboxEntry) id :
  foldl (λ m id, delete id m) m ids !! id = if decide (id ∈ ids) then None else m !! id.
Proof.
  revert m. induction ids as [|i ids IH]; intros m; [done|]. simpl. rewrite IH.
  destruct (decide (id ∈ ids)); [by rewrite decide_True by (by right)|].
  destruct (decide (id = i)) as [->|Hne].
  - rewrite lookup_delete_eq. by rewrite decide_True by left.
  - rewrite lookup_delete_ne by done. rewrite decide_False; [done|]. set_solver.
Qed.

Lemma owf_remove_ids ids s : owf s → owf (remove_ids ids s).
Proof.
  intros [Hnd Hids Hkey]. unfold remove_ids. split; simpl.
  - by apply NoDup_filter.
  - intros id. rewrite list_elem_of_filter, lookup_delete_all, Hids.
    case_decide; [|naive_solver]. split; [naive_solver|by intros [? ?]].
  - intros id e. rewrite lookup_delete_all. case_decide; [done|auto].
Qed.

(** Removing the ids with a property keeps the other entries, in order. *)
Lemma entries_remove_where P s :
  owf s → outbox.entries (remove_ids (ids_where P s) s) =
          filter (λ e, P e = false) (outbox.entries s).
Proof.
  intros Hs. unfold outbox.entries, remove_ids. cbn [ordered_ids os_entries set_content].
  assert (∀ id e, id ∈ ordered_ids s → os_entries s !! id = Some e →
    (id ∈ ids_where P s ↔ P e = true)) as Hin.
  { intros id e Hid He. rewrite elem_of_ids_where. naive_solver. }
  assert (∀ id, id ∈ ordered_ids s → is_Some (os_entries s !! id)) as Hsome
    by (intros; by apply Hs).
  set (gone := ids_where P s) in *. clearbody gone.
  induction (ordered_ids s) as [|id ids IH]; [done|].
  destruct (Hsome id) as [e He]; [left|].
  rewrite filter_cons. csimpl. rewrite He, filter_cons.
  destruct (Hin id e) as [Hin1 Hin2]; [left|done|].
  assert (∀ id' e', id' ∈ ids → os_entries s !! id' = Some e' → (id' ∈ gone ↔ P e' = true))
    as Hrest by (intros; apply Hin; [by right|done]).
  destruct (P e) eqn:HP.
  - rewrite decide_False by auto. rewrite (decide_False (P := true = false)) by done.
    apply IH; [done|]. intros; apply Hsome; by right.
  - rewrite decide_True by naive_solver. rewrite (decide_True (P := false = false)) by done.
    csimpl. rewrite lookup_delete_all, decide_False by naive_solver. rewrite He. f_equal.
    apply IH; [done|]. intros; apply Hsome; by right.
Qed.

Lemma length_entries s : owf s → length (outbox.entries s) = size (os_entries s).
Proof.
  intros [Hnd Hids Hkey].
  assert (dom (os_entries s) = list_to_set (ordered_ids s)) as Hdom.
  { apply set_eq. intros id. rewrite elem_of_dom, elem_of_list_to_set. by rewrite Hids. }
  rewrite <-size_dom, Hdom, size_list_to_set by done. unfold outbox.entries.
  assert (∀ id, id ∈ ordered_ids s → is_Some (os_entries s !! id)) as Hsome by (by intros; apply Hids).
  clear -Hsome. induction (ordered_ids s) as [|id ids IH]; [done|]. csimpl.
  destruct (Hsome id) as [e ->]; [left|]. simpl. f_equal. apply IH.
  intros. apply Hsome. by right.
Qed.

(** ** Operations in sequence *)

Inductive op : Type :=
| OpPush (e : OutboxEntry)
| OpPushQueued (e : OutboxEntry)
| OpRemove (id : N)
| OpUpdate (id : N) (d : DeliveryState)
| OpRetry (id : N)
| OpExpire (now : N)
| OpRemoveTopic (t : Bytes)
| OpSetTtl (ttl : N)
| OpClear.

(** A rejected operation leaves the store unchanged. *)
Definition apply (s : OutboxStore) (o : op) : OutboxStore :=
  match o with
  | OpPush e => match push e s with inr s' => s' | inl _ => s end
  | OpPushQueued e => match push_queued e s with inr s' => s' | inl _ => s end
  | OpRemove id => (remove id s).2
  | OpUpdate id d => match update_delivery_state id d s with inr s' => s' | inl _ => s end
  | OpRetry id => match increment_retry false id s with Done (_, s') => s' | Panic => s end
  | OpExpire now => (expire now s).2
  | OpRemoveTopic t => (remove_topic t s).2
  | OpSetTtl ttl => set_ttl ttl s
  | OpClear => clear s
  end.

Lemma owf_empty dir : owf (outbox.empty_at dir).
Proof. split; simpl; [constructor| |done]. intros id. split; [set_solver|by intros [? ?]]. Qed.

Lemma owf_push e s s' : owf s → push e s = inr s' → owf s'.
Proof.
  intros [Hnd Hids Hkey]. unfold push. case_decide as Hd; [done|]. intros [= <-]. split; simpl.
  - apply NoDup_app. split_and!; [done| |apply NoDup_singleton].
    intros id Hid ->%list_elem_of_singleton. by apply Hd, Hids.
  - intros id. rewrite elem_of_app, list_elem_of_singleton, Hids, lookup_insert.
    case_decide; naive_solver.
  - intros id x. rewrite lookup_insert. case_decide; naive_solver.
Qed.

(** Replacing an entry under its own id. *)
Lemma owf_replace id e e' s :
  owf s → os_entries s !! id = Some e → oe_event_id e' = oe_event_id e →
  owf (set_content (<[id := e']> (os_entries s)) (ordered_ids s) s).
Proof.
  intros [Hnd Hids Hkey] He Hid. split; simpl; [done| |].
  - intros i. rewrite Hids, lookup_insert. case_decide; naive_solver.
  - intros i x. rewrite lookup_insert. case_decide; [|auto]. intros [= <-].
    rewrite Hid. subst. by apply Hkey.
Qed.

Lemma owf_remove id s : owf s → owf (remove id s).2.
Proof.
  intros Hs. unfold remove. case_decide; [|done].
  destruct Hs as [Hnd Hids Hkey]. split; simpl.
  - by apply NoDup_filter.
  - intros i. rewrite list_elem_of_filter, Hids, lookup_delete. case_decide; naive_solver.
  - intros i x. rewrite lookup_delete. case_decide; naive_solver.
Qed.

Lemma owf_apply s o : owf s → owf (apply s o).
Proof.
  intros Hs. destruct o as [e|e|id|id d|id|now|t|ttl|]; simpl.
  - destruct (push e s) eqn:Hp; [done|]. by eapply owf_push.
  - unfold push_queued. case_decide; [|done].
    destruct (push e s) eqn:Hp; [done|]. by eapply owf_push.
  - by apply owf_remove.
  - unfold update_delivery_state. destruct (os_entries s !! id) as [e|] eqn:He; [|done].
    destruct (can_transition_to _ d); [|done]. by eapply owf_replace.
  - unfold increment_retry. destruct (os_entries s !! id) as [e|] eqn:He; [|done].
    case_decide; by eapply owf_replace.
  - by apply owf_remove_ids.
  - by apply owf_remove_ids.
  - destruct Hs as [? ? ?]. by split.
  - split; simpl; [constructor| |done]. intros id. split; [set_solver|by intros [? ?]].
Qed.

(** ** Properties *)

(** After any sequence of operations, accepted or rejected, on a new outbox the list of
    ids and the map agree: no id is listed twice, exactly the stored ids are listed, and
    listing the entries yields each stored entry exactly once. *)
Theorem outbox_order_consistent dir ops :
  let s := foldl apply (outbox.empty_at dir) ops in
  owf s ∧ length (outbox.entries s) = len s ∧
  ∀ id e, get id s = Some e → e ∈ outbox.entries s.
Proof.
  intros s.
  assert (owf s) as Hs.
  { unfold s. generalize (owf_empty dir). generalize (outbox.empty_at dir).
    induction ops as [|o ops IH]; intros s0 H0; [done|]. simpl. by apply IH, owf_apply. }
  split_and!; [done|by apply length_entries|].
  intros id e He. unfold outbox.entries. apply list_elem_of_omap. exists id.
  split; [|done]. apply (owf_ids s Hs). by eexists.
Qed.

(** A message is queued at most once and in order: pushing an id that is stored is
    refused and changes nothing; otherwise the entry is found under its id and comes last
    in the queue, behind everything already there. *)
Theorem outbox_push_fifo e s :
  owf s →
  match push e s with
  | inl err => err = Duplicate (oe_event_id e) ∧ is_Some (get (oe_event_id e) s)
  | inr s' => get (oe_event_id e) s = None ∧ get (oe_event_id e) s' = Some e ∧
      outbox.entries s' = outbox.entries s ++ [e]
  end.
Proof.
  intros Hs. unfold push, get. case_decide as Hd; [done|]. simpl.
  rewrite lookup_insert_eq. apply eq_None_not_Some in Hd. split_and!; [done..|].
  unfold outbox.entries. simpl. rewrite omap_app. f_equal.
  - assert (oe_event_id e ∉ ordered_ids s) as Hnot.
    { rewrite (owf_ids s Hs), Hd. by intros [? ?]. }
    revert Hnot. induction (ordered_ids s) as [|id ids IH]; [done|]. intros Hnot. csimpl.
    rewrite lookup_insert_ne by set_solver. destruct (os_entries s !! id); [f_equal|];
      apply IH; set_solver.
  - csimpl. by rewrite lookup_insert_eq.
Qed.

(** Expiry removes exactly the entries created at or before the cutoff, keeps the others
    in order, and reports how many it removed. *)
Theorem outbox_expire_exact now s :
  owf s →
  outbox.entries (expire now s).2 =
    filter (λ e, ¬ (created_at e ≤ cutoff now s)%N) (outbox.entries s) ∧
  (expire now s).1 =
    length (filter (λ e, (created_at e ≤ cutoff now s)%N) (outbox.entries s)).
Proof.
  intros Hs. set (P := λ e, bool_decide (created_at e ≤ cutoff now s)%N).
  pose proof (entries_remove_where P s Hs) as He.
  assert (filter (λ e, P e = false) (outbox.entries s) =
    filter (λ e, ¬ (created_at e ≤ cutoff now s)%N) (outbox.entries s)) as Hf.
  { apply list_filter_iff. intros e. unfold P. by rewrite bool_decide_eq_false. }
  unfold expire, expire_internal. cbn [fst snd]. fold P.
  rewrite He, Hf. split; [done|].
  rewrite <-(length_entries s), <-length_entries by (try apply owf_remove_ids; done).
  rewrite He, Hf. clear. induction (outbox.entries s) as [|e l IH]; [done|].
  rewrite !filter_cons.
  pose proof (length_filter (λ e, ¬ (created_at e ≤ cutoff now s)%N) l).
  destruct (decide (created_at e ≤ cutoff now s)%N);
    destruct (decide (¬ (created_at e ≤ cutoff now s)%N)); simpl; try done; lia.
Qed.

(** A file whose map was lost keeps its list of ids through [load]; pushing one of those ids
    again then lists the entry twice. *)
Lemma lost_map_duplicates parse dir raw store e :
  parse raw = Some store → os_schema_version store = OUTBOX_SCHEMA_VERSION →
  os_entries store = ∅ → ordered_ids store = [oe_event_id e] →
  ∃ s s', load parse dir (Contents raw) = inr (Some s) ∧ push e s = inr s' ∧
    outbox.entries s' = [e; e].
Proof.
  intros Hp Hv Hm Hids. unfold load. rewrite Hp, decide_True, Hm, Hids by done. simpl.
  eexists _, _. split; [done|]. split; [unfold push; by rewrite decide_False|].
  unfold outbox.entries. simpl. by rewrite lookup_insert_eq.
Qed.

(** ** Witnesses *)

Definition sample_outbox : OutboxStore :=
  foldl apply (outbox.empty_at "/data")
    [OpPush (new (λ _, "00") 1000 1 [] []); OpPush (new (λ _, "01") 5000 2 [] [])].

Lemma sample_outbox_owf : owf sample_outbox.
Proof. unfold sample_outbox. simpl. repeat apply (owf_apply _ (OpPush _)). apply owf_empty. Qed.

Lemma outbox_push_fifo_witness :
  match push (new (λ _, "02") 7000 3 [] []) sample_outbox with
  | inl err => err = Duplicate 3 ∧ is_Some (get 3 sample_outbox)
  | inr s' => get 3 sample_outbox = None ∧ get 3 s' = Some (new (λ _, "02") 7000 3 [] []) ∧
      outbox.entries s' = outbox.entries sample_outbox ++ [new (λ _, "02") 7000 3 [] []]
  end.
Proof. apply (outbox_push_fifo (new (λ _, "02") 7000 3 [] [])). exact sample_outbox_owf. Defined.

Lemma outbox_expire_exact_witness :
  outbox.entries (expire 604802000 sample_outbox).2 =
    filter (λ e, ¬ (created_at e ≤ cutoff 604802000 sample_outbox)%N)
      (outbox.entries sample_outbox) ∧
  (expire 604802000 sample_outbox).1 =
    length (filter (λ e, (created_at e ≤ cutoff 604802000 sample_outbox)%N)
      (outbox.entries sample_outbox)).
Proof. apply outbox_expire_exact. exact sample_outbox_owf. Defined.
