(* ===== verification/Ordering.v ===== *)
(** * Ordering of encrypted group messages: [src/group_encryption/ordering.rs]

    [Module ordering] translates the Lamport clock, the ordering state with its ready
    queue and its graph of dependencies, and the operations of [LamportOrderer], together
    with the envelope constructors of [src/group_encryption/message.rs].  The control
    messages of p2panda are a type parameter; their encoding (postcard), the hash
    (blake3) and the iteration order of [HashMap] and [HashSet] are the fields of
    [OrderEnv]. *)

From Stdlib Require Import NArith.
From stdpp Require Import prelude gmap.
From S2P Require Import Prelude.

Module ordering.

Abbreviation PeerId := Bytes.
Abbreviation OpId := Bytes.

(** ** Envelopes ([message.rs]) *)

Inductive EncryptedGroupContent (Control : Type) : Type :=
| CControl (control : Control)
| CApplication (ciphertext : Bytes) (generation : N).
Arguments CControl {Control} control.
Arguments CApplication {Control} ciphertext generation.

Record EncryptedGroupEnvelope (Control : Type) : Type := mkEnvelope {
  id : OpId;
  sender : PeerId;
  content : EncryptedGroupContent Control;
  direct_messages : list Bytes
}.
Arguments mkEnvelope {Control}.
Arguments id {Control}.
Arguments sender {Control}.
Arguments content {Control}.
Arguments direct_messages {Control}.

Class OrderEnv (Control : Type) : Type := {
  postcard_content : EncryptedGroupContent Control → option Bytes;
  blake3_hash : Bytes → Bytes;
  order_overflow_checks : bool;
  id_order : gset OpId → list OpId;
  id_order_perm : ∀ s, id_order s ≡ₚ elements s
}.

(** ** The Lamport clock *)

Definition LamportClock : Type := N.

Definition clock_default : LamportClock := 1%N.

(** [LamportClock::tick]: the old value and the advanced clock. *)
Definition tick (checks : bool) (c : LamportClock) : outcome (N * LamportClock) :=
  match u64_incr checks c with
  | Done c' => Done (c, c')
  | Panic => Panic
  end.

Definition observe (checks : bool) (c other : LamportClock) : outcome LamportClock :=
  u64_incr checks (N.max c other).

Inductive OrderingError : Type :=
| InvariantViolation (msg : Bytes)
| CycleDetected (op : OpId).

(** ** The ordering state *)

Record OrderingState (Control : Type) : Type := mkOrderingState {
  clock : LamportClock;
  my_id : PeerId;
  ready : list OpId;
  dependents : gmap OpId (gset OpId);
  deps_of : gmap OpId (list OpId);
  messages : gmap OpId (EncryptedGroupEnvelope Control);
  welcome_message : option (EncryptedGroupEnvelope Control)
}.
Arguments mkOrderingState {Control}.
Arguments clock {Control}.
Arguments my_id {Control}.
Arguments ready {Control}.
Arguments dependents {Control}.
Arguments deps_of {Control}.
Arguments messages {Control}.
Arguments welcome_message {Control}.

Section ordering.
Context {Control : Type} `{!OrderEnv Control}.
Abbreviation Envelope := (EncryptedGroupEnvelope Control).
Abbreviation State := (OrderingState Control).
Implicit Types (y : State) (m : Envelope) (key dep : OpId).

Definition content_id (c : EncryptedGroupContent Control) : OpId :=
  blake3_hash (default [] (postcard_content c)).

Definition new_control (from : PeerId) (control : Control) (dms : list Bytes) : Envelope :=
  let c := CControl control in mkEnvelope (content_id c) from c dms.

Definition new_application (from : PeerId) (ciphertext : Bytes) (generation : N)
    (dms : list Bytes) : Envelope :=
  let c := CApplication ciphertext generation in mkEnvelope (content_id c) from c dms.

(** Field updates. *)
Definition set_clock (c : LamportClock) y : State :=
  mkOrderingState c (my_id y) (ready y) (dependents y) (deps_of y) (messages y)
    (welcome_message y).
Definition set_ready (l : list OpId) y : State :=
  mkOrderingState (clock y) (my_id y) l (dependents y) (deps_of y) (messages y)
    (welcome_message y).
Definition set_dependents (d : gmap OpId (gset OpId)) y : State :=
  mkOrderingState (clock y) (my_id y) (ready y) d (deps_of y) (messages y)
    (welcome_message y).
Definition set_deps_of (d : gmap OpId (list OpId)) y : State :=
  mkOrderingState (clock y) (my_id y) (ready y) (dependents y) d (messages y)
    (welcome_message y).
Definition set_messages (ms : gmap OpId Envelope) y : State :=
  mkOrderingState (clock y) (my_id y) (ready y) (dependents y) (deps_of y) ms
    (welcome_message y).
Definition set_welcome_message (w : option Envelope) y : State :=
  mkOrderingState (clock y) (my_id y) (ready y) (dependents y) (deps_of y) (messages y) w.

Definition new (me : PeerId) : State := mkOrderingState clock_default me [] ∅ ∅ ∅ None.

Definition is_welcomed y : bool := bool_decide (is_Some (welcome_message y)).

Definition pending_count y : nat := size (deps_of y) - length (ready y).

Definition ready_count y : nat := length (ready y).

Definition is_ready y (x : OpId) : bool := bool_decide (x ∈ ready y).

Definition is_processed y (x : OpId) : bool :=
  is_ready y x
  || match welcome_message y with
     | Some welcome => bool_decide (id welcome = x)
     | None => false
     end
  || (bool_decide (deps_of y !! x = None)
      && bool_decide (dependents y !! x = None)
      && bool_decide (messages y !! x = None)).

Definition all_deps_satisfied y (deps : list OpId) : bool := forallb (is_processed y) deps.

(** A stored message of another sender. *)
Definition foreign y (x : OpId) : bool :=
  match messages y !! x with
  | Some m => bool_decide (sender m ≠ my_id y)
  | None => false
  end.

(** The stored messages of other senders, but the one being queued. *)
Definition extract_dependencies y (exclude_id : OpId) : list OpId :=
  filter (λ x, x ≠ exclude_id ∧ foreign y x) (id_order (dom (messages y))).

(** ** Cascading readiness

    [cascade_ready] recurses after taking an entry out of [deps_of], so the number of
    entries bounds the depth of the recursion. *)

(** [y.deps_of.remove(&dep_id); y.ready.push_back(dep_id)] *)
Definition promote dep y : State :=
  set_ready (ready y ++ [dep]) (set_deps_of (delete dep (deps_of y)) y).

(** One iteration of the loop over the dependents, given the recursive call. *)
Definition cascade_step (rec : State → OpId → OrderingError + State)
    (acc : OrderingError + State) dep : OrderingError + State :=
  match acc with
  | inl e => inl e
  | inr y =>
      match deps_of y !! dep with
      | None => inr y
      | Some deps => if all_deps_satisfied y deps then rec (promote dep y) dep else inr y
      end
  end.

(** The body: take the set of dependents out of the map and visit each of them. *)
Definition cascade_body (rec : State → OpId → OrderingError + State) y key
    : OrderingError + State :=
  foldl (cascade_step rec) (inr (set_dependents (delete key (dependents y)) y))
    (id_order (default ∅ (dependents y !! key))).

Fixpoint cascade_fuel (fuel : nat) y key : OrderingError + State :=
  match fuel with
  | O => inr y
  | S fuel' => cascade_body (cascade_fuel fuel') y key
  end.

Definition cascade_ready y key : OrderingError + State :=
  cascade_fuel (S (size (deps_of y))) y key.

(** ** The operations of [LamportOrderer] *)

Definition next_control_message y (control_message : Control) (dms : list Bytes)
    : outcome (OrderingError + State * Envelope) :=
  match tick order_overflow_checks (clock y) with
  | Panic => Panic
  | Done (_, c) =>
      let y := set_clock c y in
      let envelope := new_control (my_id y) control_message dms in
      Done (inr (set_messages (<[id envelope := envelope]> (messages y)) y, envelope))
  end.

Definition next_application_message y (generation : N) (ciphertext : Bytes)
    : outcome (OrderingError + State * Envelope) :=
  match tick order_overflow_checks (clock y) with
  | Panic => Panic
  | Done (_, c) =>
      let y := set_clock c y in
      let envelope := new_application (my_id y) ciphertext generation [] in
      Done (inr (set_messages (<[id envelope := envelope]> (messages y)) y, envelope))
  end.

(** [y.dependents.entry(dep).or_default().insert(x)] *)
Definition add_dependent (x : OpId) (d : gmap OpId (gset OpId)) dep : gmap OpId (gset OpId) :=
  <[dep := {[x]} ∪ default ∅ (d !! dep)]> d.

Definition queue y m : OrderingError + State :=
  let x := id m in
  if decide (sender m = my_id y) then inr y
  else if decide (is_Some (messages y !! x)) then inr y
  else
    let y := set_messages (<[x := m]> (messages y)) y in
    let deps := extract_dependencies y x in
    if bool_decide (deps = []) then inr (set_ready (ready y ++ [x]) y)
    else if all_deps_satisfied y deps then
      cascade_ready (set_ready (ready y ++ [x]) y) x
    else
      let y := set_deps_of (<[x := deps]> (deps_of y)) y in
      inr (set_dependents (foldl (add_dependent x) (dependents y) deps) y).

Definition set_welcome y m : OrderingError + State :=
  let y := set_welcome_message (Some m) y in
  inr (match messages y !! id m with
       | Some _ => y
       | None => set_messages (<[id m := m]> (messages y)) y
       end).

(** The loop of [next_ready_message]: an id is popped; the welcome message and ids whose
    message is gone are skipped. *)
Fixpoint pop_ready (welcome_id : OpId) (l : list OpId) y
    : OrderingError + State * option Envelope :=
  match l with
  | [] => inr (set_ready [] y, None)
  | next_id :: l' =>
      let y := set_deps_of (delete next_id (deps_of y)) y in
      if decide (next_id = welcome_id) then pop_ready welcome_id l' y
      else
        match messages y !! next_id with
        | None => pop_ready welcome_id l' y
        | Some message =>
            let y := set_ready l' (set_messages (delete next_id (messages y)) y) in
            match cascade_ready y next_id with
            | inl e => inl e
            | inr y => inr (y, Some message)
            end
        end
  end.

Definition next_ready_message y : OrderingError + State * option Envelope :=
  match welcome_message y with
  | None => inr (y, None)
  | Some welcome => pop_ready (id welcome) (ready y) y
  end.

End ordering.
End ordering.
