(* ===== verification/OrderingFacts.v ===== *)
(** * Correctness of the group message ordering

    The cascade over the dependency graph terminates and satisfies its recursive
    equation; the orderer refines a plain queue in order of arrival, in which nothing
    ever waits; and a message with the same content as one of the node's own is never
    released. *)

From Stdlib Require Import Strings.Byte NArith.
From stdpp Require Import prelude gmap.
From S2P Require Import Prelude Ordering.
Import ordering.

Lemma omap_ext_elem {A B} (g h : A → option B) (l : list A) :
  (∀ a, a ∈ l → g a = h a) → omap g l = omap h l.
Proof.
  induction l as [|a l IH]; intros Hx; [done|]. csimpl.
  rewrite (Hx a), IH by set_solver. done.
Qed.

Section facts.
Context {Control : Type} `{!OrderEnv Control}.
Abbreviation Envelope := (EncryptedGroupEnvelope Control).
Abbreviation State := (OrderingState Control).
Implicit Types (y z : State) (m : Envelope) (key dep x : OpId).

(** ** The cascade *)

(** A loop over dependents keeps whatever relation its recursive call and its own
    updates keep. *)
Lemma cascade_fold_rule (R : State → State → Prop) rec l y z :
  PreOrder R →
  (∀ z dep deps, R y z → deps_of z !! dep = Some deps → all_deps_satisfied z deps →
     ∃ z', rec (promote dep z) dep = inr z' ∧ R z z') →
  R y z →
  ∃ z', foldl (cascade_step rec) (inr z) l = inr z' ∧ R y z'.
Proof.
  intros HR Hrec. revert z. induction l as [|dep l IH]; intros z Hyz; [by eexists|].
  simpl. destruct (deps_of z !! dep) as [deps|] eqn:Hd; [|by apply IH].
  destruct (all_deps_satisfied z deps) eqn:Hs; [|by apply IH].
  destruct (Hrec z dep deps Hyz Hd) as (z' & -> & Hz); [by rewrite Hs|].
  apply IH. by etrans.
Qed.

Lemma cascade_rule (R : State → State → Prop) :
  PreOrder R →
  (∀ y key, R y (set_dependents (delete key (dependents y)) y)) →
  (∀ y dep deps, deps_of y !! dep = Some deps → all_deps_satisfied y deps →
     R y (promote dep y)) →
  ∀ fuel y key, ∃ y', cascade_fuel fuel y key = inr y' ∧ R y y'.
Proof.
  intros HR Hdel Hprom fuel. induction fuel as [|fuel IH]; intros y key; simpl.
  { eexists; split; [done|reflexivity]. }
  apply cascade_fold_rule; [done| |by apply Hdel].
  intros z dep deps _ Hd Hs. destruct (IH (promote dep z) dep) as (z' & -> & ?).
  exists z'. split; [done|]. etrans; [by eapply Hprom|done].
Qed.

(** What a cascade may change: entries leave [deps_of] and their ids become ready. *)
Definition cascade_frame y z : Prop :=
  clock z = clock y ∧ my_id z = my_id y ∧ messages z = messages y ∧
  welcome_message z = welcome_message y ∧ deps_of z ⊆ deps_of y ∧
  (∀ x, x ∈ ready z → x ∈ ready y ∨ is_Some (deps_of y !! x)).

#[local] Instance cascade_frame_preorder : PreOrder cascade_frame.
Proof.
  split; [by intros y; repeat split; auto|].
  intros y1 y2 y3 (?&?&?&?&Hs&Hr) (?&?&?&?&Hs'&Hr').
  repeat split; try congruence; [by etrans|].
  intros x [?|[deps ?]]%Hr'; [by auto|]. right. exists deps. by eapply lookup_weaken.
Qed.

Lemma cascade_fuel_frame fuel y key :
  ∃ y', cascade_fuel fuel y key = inr y' ∧ cascade_frame y y'.
Proof.
  apply (cascade_rule cascade_frame); [apply _|by repeat split; auto|].
  intros z dep deps Hd _. repeat split; simpl; auto.
  - apply delete_subseteq.
  - intros x [?| ->%list_elem_of_singleton]%elem_of_app; [by auto|]. right. by rewrite Hd.
Qed.

Lemma cascade_ready_frame y key :
  ∃ y', cascade_ready y key = inr y' ∧ cascade_frame y y'.
Proof. apply cascade_fuel_frame. Qed.

Lemma size_promote dep deps y :
  deps_of y !! dep = Some deps → size (deps_of (promote dep y)) < size (deps_of y).
Proof.
  intros Hd. simpl. rewrite map_size_delete_Some by by rewrite Hd.
  assert (size (deps_of y) ≠ 0) by (apply map_size_ne_0_lookup; eauto). lia.
Qed.

(** Recursive calls are made on states with fewer waiting messages only. *)
Lemma cascade_body_ext rec1 rec2 y key :
  (∀ z dep, size (deps_of z) < size (deps_of y) → rec1 z dep = rec2 z dep) →
  (∀ z dep, ∃ z', rec1 z dep = inr z' ∧ cascade_frame z z') →
  cascade_body rec1 y key = cascade_body rec2 y key.
Proof.
  intros Heq Hrec. unfold cascade_body. generalize (id_order (default ∅ (dependents y !! key))).
  assert (Hle : size (deps_of (set_dependents (delete key (dependents y)) y))
                ≤ size (deps_of y)) by done.
  revert Hle. generalize (set_dependents (delete key (dependents y)) y).
  intros z Hz l. revert z Hz. induction l as [|dep l IH]; intros z Hz; [done|]. simpl.
  destruct (deps_of z !! dep) as [deps|] eqn:Hd; [|by apply IH].
  destruct (all_deps_satisfied z deps); [|by apply IH].
  pose proof (size_promote _ _ _ Hd) as Hlt.
  rewrite <-Heq by lia. destruct (Hrec (promote dep z) dep) as (z' & -> & (_&_&_&_&Hs&_)).
  apply IH. apply map_subseteq_size in Hs. lia.
Qed.

Lemma cascade_fuel_enough f1 f2 y key :
  size (deps_of y) < f1 → size (deps_of y) < f2 →
  cascade_fuel f1 y key = cascade_fuel f2 y key.
Proof.
  revert f2 y key. induction f1 as [|f1 IH]; intros [|f2] y key ??; [lia..|].
  apply cascade_body_ext; [|by intros; apply cascade_fuel_frame].
  intros z dep ?. apply IH; lia.
Qed.

(** [cascade_ready] terminates: whatever the dependency graph, cyclic ones
    included, the bounded recursion satisfies the recursive equation of the code, ends
    without an error, and only moves waiting messages to the ready queue. *)
Theorem cascade_ready_terminates y key :
  cascade_ready y key = cascade_body cascade_ready y key ∧
  ∃ y', cascade_ready y key = inr y' ∧ cascade_frame y y'.
Proof.
  split; [|apply cascade_ready_frame].
  apply cascade_body_ext; [|by intros; apply cascade_fuel_frame].
  intros z dep ?. apply cascade_fuel_enough; lia.
Qed.

Lemma id_order_empty : id_order (∅ : gset OpId) = [].
Proof. apply Permutation_nil. symmetry. by rewrite id_order_perm, elements_empty. Qed.

Lemma cascade_ready_no_dependents y key :
  dependents y = ∅ → cascade_ready y key = inr y.
Proof.
  intros Hd. unfold cascade_ready, cascade_fuel, cascade_body. fold (@cascade_fuel Control _).
  rewrite Hd, lookup_empty. cbn [default]. rewrite id_order_empty. cbn.
  rewrite delete_empty, <-Hd. by destruct y.
Qed.

(** ** Runs of the orderer *)

Inductive op : Type :=
| OControl (control : Control) (dms : list Bytes)
| OApplication (generation : N) (ciphertext : Bytes)
| OQueue (m : Envelope)
| OWelcome (m : Envelope)
| ONext.

(** One call of the orderer, with the message [next_ready_message] yields. *)
Definition step y (o : op) : outcome (OrderingError + State * option Envelope) :=
  let created r :=
    match r with
    | Done (inr (y', _)) => Done (inr (y', None))
    | Done (inl e) => Done (inl e)
    | Panic => Panic
    end in
  let updated r :=
    match r with
    | inr y' => Done (inr (y', None))
    | inl e => Done (inl e)
    end in
  match o with
  | OControl control dms => created (next_control_message y control dms)
  | OApplication generation ciphertext =>
      created (next_application_message y generation ciphertext)
  | OQueue m => updated (queue y m)
  | OWelcome m => updated (set_welcome y m)
  | ONext => Done (next_ready_message y)
  end.

(** A sequence of calls and the messages it yields, in order. *)
Fixpoint run y (ops : list op) : outcome (OrderingError + State * list Envelope) :=
  match ops with
  | [] => Done (inr (y, []))
  | o :: ops' =>
      match step y o with
      | Done (inr (y', yielded)) =>
          match run y' ops' with
          | Done (inr (y'', ms)) => Done (inr (y'', option_list yielded ++ ms))
          | r => r
          end
      | Done (inl e) => Done (inl e)
      | Panic => Panic
      end
  end.

(** ** The reference: a queue in order of arrival *)

Record fifo : Type := mkFifo {
  waiting : list Envelope;
  kept : gset OpId;
  opened : bool
}.

Definition fifo_empty : fifo := mkFifo [] ∅ false.

Definition keep x (f : fifo) : fifo := mkFifo (waiting f) ({[x]} ∪ kept f) (opened f).

Definition fifo_step (me : PeerId) (f : fifo) (o : op) : fifo * option Envelope :=
  match o with
  | OControl control _ => (keep (content_id (CControl control)) f, None)
  | OApplication generation ciphertext =>
      (keep (content_id (CApplication ciphertext generation)) f, None)
  | OQueue m =>
      if decide (sender m = me ∨ id m ∈ kept f ∨ id m ∈ id <$> waiting f) then (f, None)
      else (mkFifo (waiting f ++ [m]) (kept f) (opened f), None)
  | OWelcome m =>
      (mkFifo (filter (λ m', id m' ≠ id m) (waiting f)) ({[id m]} ∪ kept f) true, None)
  | ONext =>
      match opened f, waiting f with
      | true, m :: w => (mkFifo w (kept f) (opened f), Some m)
      | _, _ => (f, None)
      end
  end.

Fixpoint fifo_run (me : PeerId) (f : fifo) (ops : list op) : list Envelope :=
  match ops with
  | [] => []
  | o :: ops' =>
      option_list (fifo_step me f o).2 ++ fifo_run me (fifo_step me f o).1 ops'
  end.

(** The way the group layer drives the orderer: it is welcomed once, and it creates no
    message with the content of one that still waits. *)
Definition admissible (f : fifo) (o : op) : Prop :=
  match o with
  | OControl control _ => content_id (CControl control) ∉ id <$> waiting f
  | OApplication generation ciphertext =>
      content_id (CApplication ciphertext generation) ∉ id <$> waiting f
  | OWelcome _ => opened f = false
  | _ => True
  end.

Fixpoint admissible_run (me : PeerId) (f : fifo) (ops : list op) : Prop :=
  match ops with
  | [] => True
  | o :: ops' => admissible f o ∧ admissible_run me (fifo_step me f o).1 ops'
  end.

(** The id of the welcome message. *)
Definition welcome_id y : option OpId := id <$> welcome_message y.

(** The messages the ready queue will yield. *)
Definition yieldable y x : option Envelope :=
  if decide (welcome_id y = Some x) then None else messages y !! x.

Record refines y (f : fifo) : Prop := mkRefines {
  ref_deps : deps_of y = ∅;
  ref_dependents : dependents y = ∅;
  ref_nodup : NoDup (ready y);
  ref_stored x : x ∈ ready y → is_Some (messages y !! x);
  ref_welcome x : welcome_id y = Some x → is_Some (messages y !! x);
  ref_keyed x m : messages y !! x = Some m → id m = x;
  ref_foreign x : foreign y x → x ∈ ready y ∨ welcome_id y = Some x;
  ref_waiting : waiting f = omap (yieldable y) (ready y);
  ref_kept x : x ∈ kept f ↔
    is_Some (messages y !! x) ∧ (x ∉ ready y ∨ welcome_id y = Some x);
  ref_opened : opened f = is_welcomed y
}.

(** ** Each operation refines the queue *)

Lemma foreign_spec y x :
  foreign y x ↔ ∃ m, messages y !! x = Some m ∧ sender m ≠ my_id y.
Proof.
  unfold foreign. destruct (messages y !! x) as [m|]; [|naive_solver].
  rewrite bool_decide_spec. naive_solver.
Qed.

Lemma refines_new me : refines (new me) fifo_empty.
Proof.
  split; simpl; try set_solver; [apply NoDup_nil_2|].
  intros x. rewrite lookup_empty. split; [set_solver|]. intros [[? [=]] _].
Qed.

Lemma waiting_ids y f x :
  refines y f → x ∈ id <$> waiting f ↔ x ∈ ready y ∧ welcome_id y ≠ Some x.
Proof.
  intros []. rewrite ref_waiting0, list_elem_of_fmap. unfold yieldable. split.
  - intros (m & -> & (z & Hz & Hm)%list_elem_of_omap). case_decide; [done|].
    by rewrite (ref_keyed0 _ _ Hm).
  - intros [Hr Hw]. destruct (ref_stored0 x Hr) as [m Hm].
    exists m. split; [by rewrite (ref_keyed0 _ _ Hm)|].
    apply list_elem_of_omap. exists x. by rewrite decide_False.
Qed.

Lemma stored_ids y f x :
  refines y f → is_Some (messages y !! x) ↔ x ∈ kept f ∨ x ∈ id <$> waiting f.
Proof.
  intros HR. rewrite (waiting_ids _ _ _ HR), (ref_kept _ _ HR).
  pose proof (ref_stored _ _ HR x). destruct (decide (welcome_id y = Some x)),
    (decide (x ∈ ready y)); naive_solver.
Qed.

Lemma refines_create y f (e : Envelope) c :
  refines y f → sender e = my_id y → id e ∉ id <$> waiting f →
  refines (set_messages (<[id e := e]> (messages y)) (set_clock c y)) (keep (id e) f).
Proof.
  intros HR He Hw. rewrite (waiting_ids _ _ _ HR) in Hw. destruct HR.
  split; simpl; try done.
  - intros x Hx. apply lookup_insert_is_Some. destruct (decide (id e = x)); auto.
  - intros x Hx. apply lookup_insert_is_Some. destruct (decide (id e = x)); auto.
  - intros x m [[<- <-]|[? ?]]%lookup_insert_Some; auto.
  - intros x (m & Hm & Hs)%foreign_spec. simpl in Hm.
    apply lookup_insert_Some in Hm as [[<- <-]|[? Hm]]; [done|].
    apply ref_foreign0, foreign_spec. eauto.
  - rewrite ref_waiting0. apply omap_ext_elem. intros x Hx. unfold yieldable. simpl.
    change (welcome_id (set_messages _ _)) with (welcome_id y).
    case_decide; [done|]. rewrite lookup_insert_ne; [done|]. naive_solver.
  - intros x. rewrite elem_of_union, elem_of_singleton, ref_kept0, lookup_insert_is_Some.
    change (welcome_id (set_messages _ _)) with (welcome_id y).
    destruct (decide (x = id e)) as [->|Hne].
    + destruct (decide (welcome_id y = Some (id e))), (decide (id e ∈ ready y)); naive_solver.
    + naive_solver.
Qed.

(** The dependencies of a new message never hold it back. *)
Lemma refines_deps_satisfied y f m :
  refines y f →
  let y' := set_messages (<[id m := m]> (messages y)) y in
  all_deps_satisfied y' (extract_dependencies y' (id m)) = true.
Proof.
  intros HR y'. apply Is_true_eq_true. unfold all_deps_satisfied.
  rewrite forallb_True, Forall_forall. intros z Hz.
  apply list_elem_of_filter in Hz as [[Hne (m' & Hm & Hs)%foreign_spec] _].
  simpl in Hm. rewrite lookup_insert_ne in Hm by done.
  unfold is_processed, is_ready. simpl.
  destruct (ref_foreign _ _ HR z) as [Hr|Hw]; [by apply foreign_spec; eauto| |].
  - by rewrite (bool_decide_true (z ∈ ready y)).
  - unfold welcome_id in Hw. destruct (welcome_message y) as [w|]; simplify_eq/=.
    rewrite (bool_decide_true (id w = id w)) by done. by destruct (bool_decide _).
Qed.

Lemma queue_accepts y f m :
  refines y f → sender m ≠ my_id y → messages y !! id m = None →
  queue y m = inr (set_ready (ready y ++ [id m])
                     (set_messages (<[id m := m]> (messages y)) y)).
Proof.
  intros HR Hs Hm. unfold queue. rewrite decide_False by done.
  rewrite decide_False by (rewrite Hm; by intros [? [=]]).
  case_bool_decide; [done|]. rewrite (refines_deps_satisfied _ _ _ HR).
  apply cascade_ready_no_dependents. apply (ref_dependents _ _ HR).
Qed.

Lemma refines_queue y f m :
  refines y f →
  ∃ y', queue y m = inr y' ∧ refines y' (fifo_step (my_id y) f (OQueue m)).1 ∧
    clock y' = clock y ∧ my_id y' = my_id y.
Proof.
  intros HR. simpl. pose proof (stored_ids _ _ (id m) HR) as Hst.
  destruct (decide (sender m = my_id y ∨ is_Some (messages y !! id m))) as [Hdup|Hnew].
  { exists y. rewrite decide_True by naive_solver. split; [|done]. unfold queue.
    destruct (decide (sender m = my_id y)); [done|]. rewrite decide_True; naive_solver. }
  apply Decidable.not_or in Hnew as [Hs Hm].
  rewrite decide_False by naive_solver. apply eq_None_not_Some in Hm.
  eexists; split; [by eapply queue_accepts|]. split; [|done].
  assert (Hnr : id m ∉ ready y).
  { intros [m' Hm']%(ref_stored _ _ HR). by rewrite Hm in Hm'. }
  assert (Hnw : welcome_id y ≠ Some (id m)).
  { intros [m' Hm']%(ref_welcome _ _ HR). by rewrite Hm in Hm'. }
  destruct HR. split; simpl; try done.
  - apply NoDup_app. split_and!; [done| |apply NoDup_singleton]. set_solver.
  - intros x Hx. apply lookup_insert_is_Some. destruct (decide (id m = x)); [by auto|].
    right. split; [done|]. set_solver.
  - intros x Hx. apply lookup_insert_is_Some. destruct (decide (id m = x)); auto.
  - intros x m' [[<- <-]|[? ?]]%lookup_insert_Some; auto.
  - intros x (m' & Hm' & Hs')%foreign_spec. simpl in Hm'.
    apply lookup_insert_Some in Hm' as [[<- <-]|[? Hm']]; [set_solver|].
    destruct (ref_foreign0 x) as [?|?]; [apply foreign_spec; by eauto|set_solver|by right].
  - rewrite ref_waiting0, omap_app. f_equal.
    + apply omap_ext_elem. intros x Hx. unfold yieldable. simpl.
      change (welcome_id (set_ready _ _)) with (welcome_id y).
      case_decide; [done|]. rewrite lookup_insert_ne; [done|]. naive_solver.
    + csimpl. unfold yieldable. change (welcome_id (set_ready _ _)) with (welcome_id y).
      rewrite decide_False by done. simpl. by rewrite lookup_insert_eq.
  - intros x. rewrite ref_kept0, lookup_insert_is_Some, not_elem_of_app, list_elem_of_singleton.
    change (welcome_id (set_ready _ _)) with (welcome_id y).
    destruct (decide (x = id m)) as [->|Hne]; [|naive_solver].
    rewrite Hm. split; [intros [[? [=]] _]|naive_solver].
Qed.

Lemma waiting_welcomed y z f x :
  refines y f → welcome_id y = None → welcome_id z = Some x →
  (∀ x' m, messages y !! x' = Some m → messages z !! x' = Some m) →
  filter (λ m, id m ≠ x) (waiting f) = omap (yieldable z) (ready y).
Proof.
  intros HR Hy Hz Hsub. rewrite (ref_waiting _ _ HR).
  assert (Hst : ∀ x', x' ∈ ready y → ∃ m, messages y !! x' = Some m ∧ id m = x').
  { intros x' [m Hm]%(ref_stored _ _ HR). eauto using ref_keyed. }
  clear HR. induction (ready y) as [|a l IH]; [done|]. csimpl.
  destruct (Hst a) as (m & Hm & Ha); [set_solver|].
  assert (yieldable y a = Some m) as -> by (unfold yieldable; by rewrite Hy, decide_False).
  assert (yieldable z a = if decide (a = x) then None else Some m) as ->.
  { unfold yieldable. rewrite Hz, (Hsub _ _ Hm).
    destruct (decide (a = x)), (decide (Some x = Some a)); congruence. }
  rewrite filter_cons, IH by set_solver. rewrite Ha. by destruct (decide (a = x)), (decide (a ≠ x)).
Qed.

Lemma refines_welcome y f m :
  refines y f → opened f = false →
  ∃ y', set_welcome y m = inr y' ∧ refines y' (fifo_step (my_id y) f (OWelcome m)).1 ∧
    clock y' = clock y ∧ my_id y' = my_id y.
Proof.
  intros HR Ho. eexists. split; [done|]. rewrite (ref_opened _ _ HR) in Ho.
  assert (Hw : welcome_message y = None).
  { by destruct (welcome_message y) eqn:E; [unfold is_welcomed in Ho; rewrite E in Ho|]. }
  set (ms := match messages y !! id m with
             | Some _ => messages y
             | None => <[id m := m]> (messages y) end).
  set (y' := mkOrderingState (clock y) (my_id y) (ready y) (dependents y) (deps_of y) ms
               (Some m)).
  assert (Hsub : ∀ x m', messages y !! x = Some m' → ms !! x = Some m').
  { intros x m' Hx. unfold ms. destruct (messages y !! id m) eqn:E; [done|].
    rewrite lookup_insert_ne; [done|]. intros <-. by rewrite E in Hx. }
  assert (Hinv : ∀ x m', ms !! x = Some m' → messages y !! x = Some m' ∨ x = id m ∧ m' = m).
  { intros x m'. unfold ms. destruct (messages y !! id m) eqn:E; [by auto|].
    intros [[]|[]]%lookup_insert_Some; auto. }
  assert (Hin : is_Some (ms !! id m)).
  { unfold ms. destruct (messages y !! id m) eqn:E; [by rewrite E|]. by rewrite lookup_insert_eq. }
  enough (refines y' (fifo_step (my_id y) f (OWelcome m)).1) as Hy'.
  { unfold y', ms in Hy'. simpl. by destruct (messages y !! id m). }
  assert (Hwid : welcome_id y = None) by (unfold welcome_id; by rewrite Hw).
  pose proof (waiting_welcomed y y' f (id m) HR Hwid eq_refl Hsub) as Hwait.
  destruct HR. split; simpl; try done.
  - intros x [m' ?]%ref_stored0. eauto.
  - by intros x [= <-].
  - intros x m' [?|[-> ->]]%Hinv; auto.
  - intros x (m' & Hm' & Hs)%foreign_spec. simpl in *.
    apply Hinv in Hm' as [Hm'|[-> ->]]; [|by right].
    destruct (ref_foreign0 x) as [?|?]; [apply foreign_spec; by eauto|by left|congruence].
  - intros x. rewrite elem_of_union, elem_of_singleton, ref_kept0, Hwid. split.
    + intros [->|[[m' ?] [?|[=]]]]; [by auto|]. split; eauto.
    + intros [[m' Hx] Hor]. apply Hinv in Hx as [Hx|[-> ->]]; [|by left].
      destruct Hor as [?|[= <-]]; [|by left]. right. eauto.
Qed.

Lemma refines_skip y f x l :
  refines (set_ready (x :: l) y) f → welcome_id y = Some x → refines (set_ready l y) f.
Proof.
  intros [] Hw. simpl in *. split; simpl; try done.
  - by inversion ref_nodup0.
  - intros z Hz. apply ref_stored0. set_solver.
  - intros z Hf. change (Is_true (foreign (set_ready (x :: l) y) z)) in Hf.
    destruct (ref_foreign0 z Hf) as [[->|?]%elem_of_cons|?]; auto.
  - rewrite ref_waiting0. csimpl. unfold yieldable at 1.
    change (welcome_id (set_ready (x :: l) y)) with (welcome_id y). by rewrite decide_True.
  - intros z. rewrite ref_kept0, not_elem_of_cons.
    change (welcome_id (set_ready _ y)) with (welcome_id y). rewrite Hw.
    destruct (decide (z = x)); naive_solver.
Qed.

Lemma refines_yield y f x l m :
  refines (set_ready (x :: l) y) f → welcome_id y ≠ Some x → messages y !! x = Some m →
  ∃ w, waiting f = m :: w ∧
    refines (set_ready l (set_messages (delete x (messages y)) y))
      (mkFifo w (kept f) (opened f)).
Proof.
  intros [] Hw Hm. simpl in *. exists (omap (yieldable (set_ready (x :: l) y)) l).
  inversion_clear ref_nodup0 as [|?? Hx Hl]. split.
  { rewrite ref_waiting0. csimpl. unfold yieldable at 1.
    change (welcome_id (set_ready (x :: l) y)) with (welcome_id y).
    rewrite decide_False by done. simpl. by rewrite Hm. }
  split; simpl; try done.
  - intros z Hz. rewrite lookup_delete_ne by set_solver. apply ref_stored0. set_solver.
  - intros z Hz. rewrite lookup_delete_ne by (intros ->; by destruct Hw).
    by apply ref_welcome0.
  - intros z m' [? ?]%lookup_delete_Some. auto.
  - intros z (m' & Hm' & Hs)%foreign_spec. simpl in *.
    apply lookup_delete_Some in Hm' as [Hne Hm'].
    destruct (ref_foreign0 z) as [[->|?]%elem_of_cons|?]; [|done|by left|by right].
    apply foreign_spec. eauto.
  - apply omap_ext_elem. intros z Hz. unfold yieldable. simpl.
    rewrite lookup_delete_ne by set_solver. done.
  - intros z. rewrite ref_kept0, not_elem_of_cons, lookup_delete_is_Some.
    change (welcome_id (set_ready _ _)) with (welcome_id y).
    destruct (decide (z = x)) as [->|]; naive_solver.
Qed.

Lemma refines_pop y f w l :
  refines (set_ready l y) f → welcome_message y = Some w →
  ∃ y', pop_ready (id w) l y = inr (y', head (waiting f)) ∧
    refines y' (mkFifo (tail (waiting f)) (kept f) (opened f)) ∧
    clock y' = clock y ∧ my_id y' = my_id y.
Proof.
  intros HR Hw. assert (Hwid : welcome_id y = Some (id w)) by (unfold welcome_id; by rewrite Hw).
  induction l as [|x l IH].
  { eexists. pose proof (ref_waiting _ _ HR) as Hf. simpl in Hf. rewrite Hf. split; [done|].
    split; [|done]. destruct f. simpl in *. by subst. }
  cbn [pop_ready]. assert (set_deps_of (delete x (deps_of y)) y = y) as ->.
  { pose proof (ref_deps _ _ HR) as Hd. simpl in Hd. rewrite Hd, delete_empty, <-Hd. by destruct y. }
  case_decide as Hx.
  { apply IH. eapply refines_skip; [done|]. by subst. }
  destruct (ref_stored _ _ HR x) as [m Hm]; [set_solver|]. simpl in Hm. rewrite Hm.
  destruct (refines_yield _ _ _ _ m HR) as (ws & -> & HR'); [congruence|done|].
  rewrite cascade_ready_no_dependents by apply (ref_dependents _ _ HR'). by eexists.
Qed.

Lemma refines_next y f :
  refines y f →
  ∃ y', next_ready_message y = inr (y', (fifo_step (my_id y) f ONext).2) ∧
    refines y' (fifo_step (my_id y) f ONext).1 ∧ clock y' = clock y ∧ my_id y' = my_id y.
Proof.
  intros HR. unfold next_ready_message. simpl. rewrite (ref_opened _ _ HR).
  unfold is_welcomed. destruct (welcome_message y) as [w|] eqn:Hw; [|by exists y].
  rewrite bool_decide_true by done.
  assert (HR' : refines (set_ready (ready y) y) f) by by destruct y.
  destruct (refines_pop _ _ _ _ HR' Hw) as (y' & -> & Hy' & ? & ?). exists y'.
  pose proof (ref_opened _ _ HR) as Ho. unfold is_welcomed in Ho.
  rewrite Hw, bool_decide_true in Ho by done.
  destruct f as [[|m ws] k o]; simpl in *; by subst.
Qed.

(** ** The refinement *)

Lemma tick_below checks (c : LamportClock) : (c < u64_max)%N → tick checks c = Done (c, (c + 1)%N).
Proof. intros Hc. unfold tick, u64_incr. by rewrite decide_True. Qed.

Lemma step_refines y f o :
  refines y f → admissible f o → (clock y < u64_max)%N →
  ∃ y', step y o = Done (inr (y', (fifo_step (my_id y) f o).2)) ∧
    refines y' (fifo_step (my_id y) f o).1 ∧ my_id y' = my_id y ∧
    (clock y' ≤ clock y + 1)%N.
Proof.
  intros HR Ha Hc. destruct o as [c dms|g ct|m|m|]; simpl in Ha.
  - eexists. unfold step, next_control_message. rewrite tick_below by done. split; [done|].
    split; [|done]. by apply (refines_create y f (new_control (my_id y) c dms) (clock y + 1)%N).
  - eexists. unfold step, next_application_message. rewrite tick_below by done.
    split; [done|]. split; [|done]. 
    by apply (refines_create y f (new_application (my_id y) ct g []) (clock y + 1)%N).
  - destruct (refines_queue _ _ m HR) as (y' & Hq & ? & Hck & ?). exists y'.
    unfold step. rewrite Hq. split; [simpl; by case_decide|]. split_and!; [done..|rewrite Hck; lia].
  - destruct (refines_welcome _ _ m HR Ha) as (y' & Hq & ? & Hck & ?). exists y'.
    unfold step. rewrite Hq. split_and!; [done..|rewrite Hck; lia].
  - destruct (refines_next _ _ HR) as (y' & Hq & ? & Hck & ?). exists y'.
    unfold step. rewrite Hq. split_and!; [done..|rewrite Hck; lia].
Qed.

Lemma run_refines y f ops :
  refines y f → admissible_run (my_id y) f ops →
  (clock y + N.of_nat (length ops) ≤ u64_max)%N →
  ∃ y', run y ops = Done (inr (y', fifo_run (my_id y) f ops)) ∧ deps_of y' = ∅.
Proof.
  revert y f. induction ops as [|o ops IH]; intros y f HR Ha Hc.
  { exists y. split; [done|]. apply (ref_deps _ _ HR). }
  destruct Ha as [Ha Hrun]. simpl length in Hc.
  destruct (step_refines _ _ _ HR Ha) as (y1 & Hs & HR1 & Hid & Hc1); [lia|].
  destruct (IH y1 _ HR1) as (y' & Hr & Hd); [by rewrite Hid|lia|].
  exists y'. split; [|done]. simpl. by rewrite Hs, Hr, Hid.
Qed.

(** The orderer is a queue in order of arrival.  When the group is welcomed once and
    creates no message with the content of one that still waits, every call succeeds and
    yields exactly what a plain queue yields: other senders' messages not stored yet, in
    the order in which they were queued, the welcome message left out, nothing before the
    welcome; no message ever waits for a dependency. *)
Theorem orderer_refines_fifo me ops :
  admissible_run me fifo_empty ops → (N.of_nat (length ops) < u64_max)%N →
  ∃ y, run (new me) ops = Done (inr (y, fifo_run me fifo_empty ops)) ∧ deps_of y = ∅.
Proof.
  intros Ha Hl. apply (run_refines (new me) fifo_empty); [apply refines_new|done|].
  change (clock (new me)) with 1%N. lia.
Qed.

(** ** Messages that share their content with one of the node's own *)

(** A stored id that neither is ready nor waits. *)
Record stuck x y : Prop := mkStuck {
  stuck_stored : is_Some (messages y !! x);
  stuck_not_ready : x ∉ ready y;
  stuck_not_waiting : deps_of y !! x = None
}.

(** Messages are stored under their own id. *)
Definition keyed y : Prop := ∀ x m, messages y !! x = Some m → id m = x.

(** The states between which a call moves, with what it yields. *)
Definition keeps_stuck y (r : OrderingError + State * option Envelope) : Prop :=
  ∃ y' o, r = inr (y', o) ∧ (keyed y → keyed y') ∧
    (∀ x, stuck x y → stuck x y' ∧ (keyed y → id <$> o ≠ Some x)).

Lemma stuck_cascade x y z : cascade_frame y z → stuck x y → stuck x z.
Proof.
  intros (_ & _ & Hm & _ & Hd & Hr) []. split; [by rewrite Hm| |].
  - intros [?|[? Hx]]%Hr; [done|]. congruence.
  - by eapply lookup_weaken_None.
Qed.

Lemma keyed_frame y z : cascade_frame y z → keyed y → keyed z.
Proof. intros (_ & _ & Hm & _) Hk x m. rewrite Hm. apply Hk. Qed.

Lemma keyed_insert y z m : keyed y → messages z = <[id m := m]> (messages y) → keyed z.
Proof.
  intros Hk Hz x m'. rewrite Hz. intros [[<- <-]|[? ?]]%lookup_insert_Some; [done|by apply Hk].
Qed.

Lemma stuck_insert x y z m :
  stuck x y → messages z = <[id m := m]> (messages y) → ready z = ready y →
  deps_of z = deps_of y → stuck x z.
Proof.
  intros [] Hm Hr Hd. split; [|by rewrite Hr|by rewrite Hd].
  rewrite Hm. apply lookup_insert_is_Some. destruct (decide (id m = x)); auto.
Qed.

Lemma queue_keeps_stuck y m :
  ∃ y', queue y m = inr y' ∧ (keyed y → keyed y') ∧ (∀ x, stuck x y → stuck x y').
Proof.
  unfold queue. case_decide; [by eauto|]. case_decide as Hm; [by eauto|].
  set (y1 := set_messages (<[id m := m]> (messages y)) y).
  assert (Hk : keyed y → keyed y1) by (intros; by eapply keyed_insert).
  assert (Hst : ∀ x, stuck x y → stuck x y1 ∧ x ≠ id m).
  { intros x Hx. split; [by eapply stuck_insert|]. intros ->. by destruct Hm, Hx. }
  assert (Hrdy : ∀ x, stuck x y → stuck x (set_ready (ready y1 ++ [id m]) y1)).
  { intros x [[] ?]%Hst. split; [done| |done]. simpl in *. set_solver. }
  case_bool_decide; [by eauto|]. destruct (all_deps_satisfied _ _).
  - destruct (cascade_ready_frame (set_ready (ready y1 ++ [id m]) y1) (id m)) as (y' & -> & Hf).
    exists y'. split_and!; [done| |].
    + intros Hy. eapply keyed_frame; [done|]. by apply Hk.
    + intros x Hx. eapply stuck_cascade; [done|]. by apply Hrdy.
  - eexists. split_and!; [done|exact Hk|]. intros x [[] ?]%Hst. split; [done..|].
    simpl. by rewrite lookup_insert_ne.
Qed.

Lemma pop_keeps_stuck w l y z :
  (∀ x, x ∈ l → x ∈ ready y) →
  messages z = messages y → deps_of z ⊆ deps_of y →
  keeps_stuck y (pop_ready w l z).
Proof.
  revert z. induction l as [|a l IH]; intros z Hl Hm Hd; simpl.
  { eexists _, None. split; [done|]. split; [intros Hk x m; simpl; rewrite Hm; apply Hk|].
    intros x []. split; [|done]. split; simpl; [by rewrite Hm|set_solver|].
    by eapply lookup_weaken_None. }
  set (z1 := set_deps_of (delete a (deps_of z)) z).
  assert (Hd1 : deps_of z1 ⊆ deps_of y) by (etrans; [apply delete_subseteq|done]).
  case_decide; [by apply IH; [set_solver| |]|].
  destruct (messages z !! a) as [m|] eqn:Ha; [|by apply IH; [set_solver| |]].
  destruct (cascade_ready_frame (set_ready l (set_messages (delete a (messages z)) z1)) a)
    as (y' & -> & Hf).
  eexists _, _. split; [done|]. split.
  - intros Hk. eapply keyed_frame; [done|]. intros x m'. simpl. rewrite Hm.
    intros [? ?]%lookup_delete_Some. by apply Hk.
  - intros x []. assert (x ≠ a) by (intros ->; set_solver). split.
    + eapply stuck_cascade; [done|]. split; simpl; [|set_solver|].
      * by rewrite Hm, lookup_delete_ne.
      * by eapply lookup_weaken_None.
    + intros Hk [= Hx]. rewrite Hm in Ha. apply Hk in Ha. congruence.
Qed.

Lemma next_keeps_stuck y : keeps_stuck y (next_ready_message y).
Proof.
  unfold next_ready_message. destruct (welcome_message y) as [w|].
  - by apply pop_keeps_stuck.
  - eexists _, _. split; [done|]. split; [done|]. intros x ?. by split.
Qed.

Lemma welcome_keeps_stuck y m :
  ∃ y', set_welcome y m = inr y' ∧ (keyed y → keyed y') ∧ (∀ x, stuck x y → stuck x y').
Proof.
  eexists. split; [done|]. simpl. destruct (messages y !! id m) eqn:Hm.
  - split; [done|]. intros x []. by split.
  - split; [intros; by eapply keyed_insert|]. intros x Hx. by eapply stuck_insert.
Qed.

Lemma tick_release (c : LamportClock) : ∃ c', tick false c = Done (c, c').
Proof. unfold tick, u64_incr. case_decide; eauto. Qed.

Lemma step_keeps_stuck y o :
  order_overflow_checks = false → ∃ r, step y o = Done r ∧ keeps_stuck y r.
Proof.
  intros Hov. destruct (tick_release (clock y)) as [c Hc].
  assert (Hcr : ∀ m, keeps_stuck y
    (inr (set_messages (<[id m := m]> (messages y)) (set_clock c y), None))).
  { intros m. eexists _, None. split; [done|]. split; [intros; by eapply keyed_insert|].
    intros x Hx. split; [|done]. by eapply stuck_insert. }
  destruct o as [ct dms|g ct|m|m|]; unfold step.
  - unfold next_control_message. rewrite Hov, Hc. eexists; split; [done|].
    apply (Hcr (new_control (my_id y) ct dms)).
  - unfold next_application_message. rewrite Hov, Hc. eexists; split; [done|].
    apply (Hcr (new_application (my_id y) ct g [])).
  - destruct (queue_keeps_stuck y m) as (y' & -> & Hk & Hs). eexists; split; [done|].
    eexists _, None. split_and!; [done..|]. intros x Hx. split; [by apply Hs|done].
  - destruct (welcome_keeps_stuck y m) as (y' & -> & Hk & Hs). eexists; split; [done|].
    eexists _, None. split_and!; [done..|]. intros x Hx. split; [by apply Hs|done].
  - eexists; split; [done|]. apply next_keeps_stuck.
Qed.

Lemma run_keeps_stuck y ops x :
  order_overflow_checks = false → keyed y → stuck x y →
  ∃ y' ms, run y ops = Done (inr (y', ms)) ∧ keyed y' ∧ x ∉ id <$> ms.
Proof.
  intros Hov. revert y. induction ops as [|o ops IH]; intros y Hk Hx.
  { eexists _, _. split; [done|]. split; [done|]. set_solver. }
  destruct (step_keeps_stuck y o Hov) as (r & Hs & (y1 & out & -> & Hk1 & Hx1)).
  destruct (Hx1 x Hx) as [Hx' Hout].
  destruct (IH y1) as (y' & ms & Hr & ? & Hms); [by auto..|].
  eexists _, _. split; [simpl; by rewrite Hs, Hr|]. split; [done|].
  rewrite fmap_app, not_elem_of_app. split; [|done].
  destruct out as [m|]; simpl in *; [|set_solver]. specialize (Hout Hk). set_solver.
Qed.

Lemma keyed_new me : keyed (new me).
Proof. by intros x m; simpl; rewrite lookup_empty. Qed.

Lemma run_keyed me ops y ms :
  order_overflow_checks = false → run (new me) ops = Done (inr (y, ms)) → keyed y.
Proof.
  intros Hov. pose proof (keyed_new me) as Hk. revert ms Hk. generalize (new (Control:=Control) me).
  induction ops as [|o ops IH]; intros z ms Hk Hr; simplify_eq/=; [done|].
  destruct (step_keeps_stuck z o Hov) as (r & Hs & (y1 & out & -> & Hk1 & _)).
  rewrite Hs in Hr. destruct (run y1 ops) as [[|[y2 ms2]]|] eqn:Hr2; simplify_eq/=.
  eapply IH; [|done]. auto.
Qed.

(** The id of a message is the hash of its content without the sender, and a node keeps
    its own messages for ever.  So once a node has created a control message, the same
    control message of any other member (a key update carries no data, for example) has
    the same id, is dropped as a duplicate, and no later sequence of calls yields it. *)
Theorem own_content_blocks_peers me ops0 y ms0 control dms peer dms' ops :
  order_overflow_checks = false →
  run (new me) ops0 = Done (inr (y, ms0)) →
  content_id (CControl control) ∉ ready y →
  deps_of y !! content_id (CControl control) = None →
  let theirs := new_control peer control dms' in
  ∃ y1 mine, next_control_message y control dms = Done (inr (y1, mine)) ∧
    queue y1 theirs = inr y1 ∧
    ∃ y2 ms, run y1 ops = Done (inr (y2, ms)) ∧ id theirs ∉ id <$> ms.
Proof.
  intros Hov H0 Hr Hd theirs. pose proof (run_keyed _ _ _ _ Hov H0) as Hk.
  unfold next_control_message. rewrite Hov. destruct (tick_release (clock y)) as [c ->].
  eexists _, _. split; [done|]. split.
  { unfold queue. case_decide; [done|]. rewrite decide_True; [done|].
    simpl. by rewrite lookup_insert_eq. }
  destruct (run_keeps_stuck
    (set_messages (<[id theirs := new_control (my_id y) control dms]> (messages y))
       (set_clock c y)) ops (id theirs) Hov) as (y2 & ms & ? & _ & ?); [..|by eauto].
  - by eapply (keyed_insert y _ (new_control (my_id y) control dms)).
  - split; [|done..]. simpl. by rewrite lookup_insert_eq.
Qed.

End facts.

(** ** Concrete runs *)

Definition sample_content (c : EncryptedGroupContent Byte.byte) : option Bytes :=
  Some match c with
       | CControl b => [x00; b]
       | CApplication ciphertext _ => x01 :: ciphertext
       end.

#[local] Program Instance sample_order_env : OrderEnv Byte.byte :=
  {| postcard_content := sample_content; blake3_hash := λ b, b;
     order_overflow_checks := false; id_order := elements |}.
Next Obligation. done. Qed.

Definition alice : PeerId := [x0a].
Definition bob : PeerId := [x0b].

Definition sample_ops : list (op (Control:=Byte.byte)) :=
  [OQueue (new_application bob [x05] 1 []);
   OControl x01 []; OWelcome (new_control alice x01 []);
   OQueue (new_control bob x02 []); OQueue (new_control bob x02 []);
   ONext; ONext; ONext].

Lemma orderer_refines_fifo_witness :
  ∃ y, run (new alice) sample_ops
       = Done (inr (y, fifo_run alice fifo_empty sample_ops)) ∧ deps_of y = ∅.
Proof.
  apply (orderer_refines_fifo alice sample_ops); [|vm_compute; reflexivity].
  repeat split; vm_compute; set_solver.
Defined.

Example sample_yields :
  fifo_run alice fifo_empty sample_ops
  = [new_application bob [x05] 1 []; new_control bob x02 []].
Proof. vm_compute. reflexivity. Qed.

Lemma own_content_blocks_peers_witness :
  ∃ y1 mine, next_control_message (new alice) x07 [] = Done (inr (y1, mine)) ∧
    queue y1 (new_control bob x07 []) = inr y1 ∧
    ∃ y2 ms, run y1 sample_ops = Done (inr (y2, ms)) ∧
      id (new_control bob x07 []) ∉ id <$> ms.
Proof.
  apply (own_content_blocks_peers alice [] (new alice) [] x07 [] bob [] sample_ops);
    try reflexivity. vm_compute. set_solver.
Defined.
