(* ===== verification/Admission.v ===== *)
(** * Candidate admission: [src/candidate_admission.rs]

    [Module candidate_admission] translates the rolling admission policy for discovered
    peers.  [Instant] and [Duration] are nanoseconds; [Instant::duration_since] saturates
    and [Instant::checked_sub] fails below the epoch of the clock.  The capacity hints of
    [VecDeque] and [HashMap] have no effect on the behaviour and are left out. *)

From Stdlib Require Import NArith.
From stdpp Require Import prelude gmap.
From S2P Require Import Prelude.

Module candidate_admission.

Definition secs (n : N) : N := (n * 1000000000)%N.

Definition DEFAULT_CANDIDATE_COOLDOWN : N := secs 600.
Definition DEFAULT_MAX_PER_CYCLE : nat := 20.
Definition DEFAULT_MAX_PER_WINDOW : nat := 10.
Definition DEFAULT_WINDOW : N := secs 60.
Definition REMEMBERED_MIN : nat := 128.
Definition REMEMBERED_MAX : nat := 256.
Definition DEFAULT_MAX_REMEMBERED : nat := 192.

Record CandidateAdmissionConfig : Type := mkConfig {
  cooldown : N;
  max_per_cycle : nat;
  max_per_window : nat;
  window : N;
  max_remembered : nat
}.

Definition config_default : CandidateAdmissionConfig :=
  mkConfig DEFAULT_CANDIDATE_COOLDOWN DEFAULT_MAX_PER_CYCLE DEFAULT_MAX_PER_WINDOW
    DEFAULT_WINDOW DEFAULT_MAX_REMEMBERED.

(** [RAdmitted] is the constructor [Admitted] of the code. *)
Inductive AdmissionResult : Type :=
| RAdmitted
| WithinCooldown
| WindowFull.

#[export] Instance admission_result_eq_dec : EqDecision AdmissionResult.
Proof. solve_decision. Defined.

Record CandidateAdmission (Peer : Type) `{Countable Peer} : Type := mkAdmission {
  remembered : list Peer;
  remembered_at : gmap Peer N;
  attempt_times : list N;
  config : CandidateAdmissionConfig
}.
Arguments mkAdmission {Peer _ _}.
Arguments remembered {Peer _ _}.
Arguments remembered_at {Peer _ _}.
Arguments attempt_times {Peer _ _}.
Arguments config {Peer _ _}.

Section admission.
Context {Peer : Type} `{Countable Peer}.
Abbreviation State := (CandidateAdmission Peer).
Implicit Types (a : State) (peer : Peer) (now cutoff : N).

(** [usize::clamp] *)
Definition clamp (lo hi n : nat) : nat := if decide (n < lo) then lo else Nat.min n hi.

Definition new (c : CandidateAdmissionConfig) : State :=
  mkAdmission [] ∅ []
    (mkConfig (cooldown c) (max_per_cycle c) (max_per_window c) (window c)
       (clamp REMEMBERED_MIN REMEMBERED_MAX (max_remembered c))).

(** [now.duration_since(at)] *)
Definition duration_since now (at_ : N) : N := now - at_.

(** [now.checked_sub(d)] *)
Definition checked_sub now (d : N) : option N :=
  if decide (d ≤ now)%N then Some (now - d)%N else None.

(** The first loop of [prune]: peers are popped from the front and kept or forgotten. *)
Fixpoint prune_remembered (cool now : N) (l : list Peer) (m : gmap Peer N)
    : list Peer * gmap Peer N :=
  match l with
  | [] => ([], m)
  | peer :: l' =>
      let expired := match m !! peer with
                     | Some at_ => bool_decide (cool ≤ duration_since now at_)%N
                     | None => false
                     end in
      if expired then prune_remembered cool now l' (delete peer m)
      else let '(keep, m') := prune_remembered cool now l' m in (peer :: keep, m')
  end.

(** The second loop: timestamps are popped from the front while they are old. *)
Fixpoint prune_times cutoff (l : list N) : list N :=
  match l with
  | t :: l' => if decide (t ≤ cutoff)%N then prune_times cutoff l' else l
  | [] => []
  end.

Definition prune now a : State :=
  let '(keep, m) := prune_remembered (cooldown (config a)) now (remembered a)
                      (remembered_at a) in
  let times := match checked_sub now (window (config a)) with
               | Some cutoff => prune_times cutoff (attempt_times a)
               | None => attempt_times a
               end in
  mkAdmission keep m times (config a).

(** The loop of [enforce_bound]: the oldest peers are popped while there are too many. *)
Fixpoint enforce_loop (bound : nat) (l : list Peer) (m : gmap Peer N)
    : list Peer * gmap Peer N :=
  if decide (bound < length l) then
    match l with
    | oldest :: l' => enforce_loop bound l' (delete oldest m)
    | [] => (l, m)
    end
  else (l, m).

Definition enforce_bound a : State :=
  let '(l, m) := enforce_loop (max_remembered (config a)) (remembered a) (remembered_at a) in
  mkAdmission l m (attempt_times a) (config a).

Definition admit_candidate peer now a : AdmissionResult * State :=
  let a := prune now a in
  if decide (is_Some (remembered_at a !! peer)) then (WithinCooldown, a)
  else if decide (max_per_window (config a) ≤ length (attempt_times a)) then (WindowFull, a)
  else
    (RAdmitted,
     enforce_bound (mkAdmission (remembered a ++ [peer]) (<[peer := now]> (remembered_at a))
                      (attempt_times a ++ [now]) (config a))).

(** The loop of [admit_batch], with the peers admitted so far. *)
Fixpoint admit_loop (candidates : list Peer) now (out : list Peer) a : list Peer * State :=
  match candidates with
  | [] => (out, a)
  | peer :: rest =>
      if decide (max_per_cycle (config a) ≤ length out) then (out, a)
      else
        match admit_candidate peer now a with
        | (RAdmitted, a') => admit_loop rest now (out ++ [peer]) a'
        | (_, a') => admit_loop rest now out a'
        end
  end.

Definition admit_batch (candidates : list Peer) now a : list Peer * State :=
  admit_loop candidates now [] (prune now a).

Definition remembered_len a : nat := length (remembered a).

Definition is_remembered peer a : bool := bool_decide (is_Some (remembered_at a !! peer)).

Definition attempts_in_window now a : nat * State :=
  let a := prune now a in (length (attempt_times a), a).

End admission.
End candidate_admission.
