(* ===== verification/AdmissionFacts.v ===== *)
(** * Correctness of the candidate admission policy

    The bounded bookkeeping is well-formed at all times; admissions never exceed the
    limit of any window of time; and when the memory is large enough for the
    configuration (the default one included) every decision is the one a policy with the
    complete history of admissions would take. *)

From Stdlib Require Import NArith.
From stdpp Require Import prelude gmap sorting.
From S2P Require Import Prelude Admission.
Import candidate_admission.

Section facts.
Context {Peer : Type} `{Countable Peer}.
Abbreviation State := (CandidateAdmission Peer).
Abbreviation history := (list (Peer * N)).
Implicit Types (a : State) (p : Peer) (r h : history) (now d t n : N) (ts : list N).

(** ** Calls of the policy *)

Inductive op : Type :=
| Admit (peer : Peer) (now : N)
| Batch (candidates : list Peer) (now : N)
| Attempts (now : N).

Definition op_time (o : op) : N :=
  match o with
  | Admit _ now => now
  | Batch _ now => now
  | Attempts now => now
  end.

(** A call, with the admissions it makes. *)
Definition step a (o : op) : history * State :=
  match o with
  | Admit peer now =>
      match admit_candidate peer now a with
      | (RAdmitted, a') => ([(peer, now)], a')
      | (_, a') => ([], a')
      end
  | Batch candidates now =>
      let '(out, a') := admit_batch candidates now a in ((λ p, (p, now)) <$> out, a')
  | Attempts now => ([], (attempts_in_window now a).2)
  end.

(** A sequence of calls, with the history of all admissions, oldest first. *)
Fixpoint run a (ops : list op) : history * State :=
  match ops with
  | [] => ([], a)
  | o :: ops' =>
      let '(h1, a1) := step a o in
      let '(h2, a2) := run a1 ops' in
      (h1 ++ h2, a2)
  end.

(** The clock does not go back. *)
Fixpoint chronological n (ops : list op) : Prop :=
  match ops with
  | [] => True
  | o :: ops' => (n ≤ op_time o)%N ∧ chronological (op_time o) ops'
  end.

(** ** Bookkeeping of remembered peers *)

(** The map holds exactly the pairs of a list without repeated peers. *)
Definition agree (m : gmap Peer N) r : Prop :=
  NoDup r.*1 ∧ ∀ p t, m !! p = Some t ↔ (p, t) ∈ r.

(** Not yet expired at an instant. *)
Definition fresh d now (e : Peer * N) : Prop := (now - e.2 < d)%N.

#[local] Instance fresh_dec d now e : Decision (fresh d now e).
Proof. unfold fresh. apply _. Defined.

Lemma agree_absent m r p : agree m r → m !! p = None ↔ p ∉ r.*1.
Proof.
  intros [_ Hm]. rewrite list_elem_of_fmap, eq_None_not_Some. unfold is_Some.
  setoid_rewrite Hm. split; [|naive_solver]. intros Hn ([q t] & -> & ?). eauto.
Qed.

Lemma agree_delete m k p t r :
  agree m (k ++ (p, t) :: r) → agree (delete p m) (k ++ r).
Proof.
  intros [Hnd Hm]. rewrite fmap_app, fmap_cons in Hnd. split.
  - rewrite fmap_app. apply NoDup_app in Hnd as (? & Hd & Hnd).
    apply NoDup_cons in Hnd as [_ ?]. apply NoDup_app. set_solver.
  - intros q u. rewrite lookup_delete_Some, Hm.
    assert (Hp : (p, u) ∉ k ++ r).
    { intros Hin. apply NoDup_app in Hnd as (_ & Hd & Hnd). apply NoDup_cons in Hnd as [Hr _].
      apply elem_of_app in Hin as [Hin|Hin].
      - apply (Hd p); [by apply (list_elem_of_fmap_2 fst _ (p, u))|set_solver].
      - apply Hr. by apply (list_elem_of_fmap_2 fst _ (p, u)). }
    rewrite !elem_of_app, elem_of_cons in *.
    destruct (decide (p = q)) as [->|]; naive_solver.
Qed.

Lemma agree_insert m r p now :
  agree m r → m !! p = None → agree (<[p := now]> m) (r ++ [(p, now)]).
Proof.
  intros Ha Hp. pose proof (proj1 (agree_absent _ _ p Ha) Hp) as Hr.
  destruct Ha as [Hnd Hm]. split.
  - rewrite fmap_app. apply NoDup_app. split_and!; [done|set_solver|apply NoDup_singleton].
  - intros q u. rewrite lookup_insert_Some, Hm, elem_of_app, list_elem_of_singleton.
    assert ((p, u) ∉ r) by (intros ?; apply Hr; by apply (list_elem_of_fmap_2 fst _ (p, u))).
    naive_solver.
Qed.

(** The first loop of [prune] keeps exactly the peers that are still fresh. *)
Lemma prune_remembered_spec d now k r m :
  agree m (k ++ r) →
  ∃ m', prune_remembered d now r.*1 m = ((filter (fresh d now) r).*1, m') ∧
    agree m' (k ++ filter (fresh d now) r).
Proof.
  revert k m. induction r as [|[p t] r IH]; intros k m Ha; [by eexists|]. csimpl.
  assert (m !! p = Some t) as -> by (apply Ha; set_solver).
  rewrite filter_cons. unfold duration_since.
  case_bool_decide as Hd; destruct (decide (fresh d now (p, t))) as [Hf|Hf];
    unfold fresh in Hf; simpl in Hf; try lia.
  - destruct (IH k (delete p m)) as (m' & -> & ?); [by eapply agree_delete|]. eauto.
  - destruct (IH (k ++ [(p, t)]) m) as (m' & -> & Hm'); [by rewrite <-(assoc_L (++))|].
    exists m'. split; [done|]. by rewrite <-(assoc_L (++)) in Hm'.
Qed.

(** The loop of [enforce_bound] drops the oldest peers until the bound is met. *)
Lemma enforce_loop_spec bound r m :
  agree m r →
  let r' := drop (length r - bound) r in
  ∃ m', enforce_loop bound r.*1 m = (r'.*1, m') ∧ agree m' r'.
Proof.
  revert m. induction r as [|[p t] r IH]; intros m Ha; [by eexists|].
  change (enforce_loop bound ((p, t) :: r).*1 m)
    with (if decide (bound < S (length r.*1)) then enforce_loop bound r.*1 (delete p m)
          else (((p, t) :: r).*1, m)).
  rewrite length_fmap. simpl length. case_decide as Hb.
  - destruct (IH (delete p m)) as (m' & -> & ?); [by apply (agree_delete _ [] _ t)|].
    exists m'. replace (S (length r) - bound) with (S (length r - bound)) by lia. done.
  - exists m. replace (S (length r) - bound) with 0 by lia. done.
Qed.

(** ** The invariant of the bookkeeping *)

(** The remembered peers with their times, well-formed and within the bound. *)
Record remembers a r : Prop := mkRemembers {
  rem_list : remembered a = r.*1;
  rem_map : agree (remembered_at a) r;
  rem_bound : length r ≤ max_remembered (config a)
}.

Lemma remembers_prune now a r :
  remembers a r → remembers (prune now a) (filter (fresh (cooldown (config a)) now) r).
Proof.
  intros []. unfold prune. rewrite rem_list0.
  destruct (prune_remembered_spec (cooldown (config a)) now [] r (remembered_at a))
    as (m' & -> & ?); [done|].
  split; simpl; [done..|]. etrans; [apply length_filter|done].
Qed.

Lemma config_prune now a : config (prune now a) = config a.
Proof. unfold prune. by destruct (prune_remembered _ _ _ _). Qed.

Lemma config_enforce a : config (enforce_bound a) = config a.
Proof. unfold enforce_bound. by destruct (enforce_loop _ _ _). Qed.

Lemma times_enforce a : attempt_times (enforce_bound a) = attempt_times a.
Proof. unfold enforce_bound. by destruct (enforce_loop _ _ _). Qed.

(** What one attempt does, on every branch. *)
Lemma admit_cases p now a r :
  remembers a r →
  let f := filter (fresh (cooldown (config a)) now) r in
  let a1 := prune now a in
  (p ∈ f.*1 ∧ admit_candidate p now a = (WithinCooldown, a1)) ∨
  ((p ∉ f.*1) ∧ max_per_window (config a) ≤ length (attempt_times a1) ∧
   admit_candidate p now a = (WindowFull, a1)) ∨
  ((p ∉ f.*1) ∧ length (attempt_times a1) < max_per_window (config a) ∧
   ∃ a2, admit_candidate p now a = (RAdmitted, a2) ∧
     remembers a2 (drop (S (length f) - max_remembered (config a)) (f ++ [(p, now)])) ∧
     attempt_times a2 = attempt_times a1 ++ [now] ∧ config a2 = config a).
Proof.
  intros Hr f a1. pose proof (remembers_prune now a r Hr) as Hr1. fold f a1 in Hr1.
  pose proof (config_prune now a) as Hc. fold a1 in Hc.
  pose proof (agree_absent _ _ p (rem_map _ _ Hr1)) as Habs.
  unfold admit_candidate. fold a1. rewrite Hc.
  destruct (decide (is_Some (remembered_at a1 !! p))) as [Hin|Hin].
  { left. split; [|done]. destruct (decide (p ∈ f.*1)) as [?|Hn]; [done|].
    apply Habs in Hn. rewrite Hn in Hin. by destruct Hin. }
  apply eq_None_not_Some in Hin. pose proof (proj1 Habs Hin) as Hf. right.
  case_decide as Hw; [by left|]. right. split; [done|]. split; [lia|].
  eexists. split; [done|]. rewrite times_enforce, config_enforce. split; [|done].
  destruct Hr1. unfold enforce_bound. simpl. rewrite rem_list0.
  pose proof (agree_insert _ _ p now rem_map0 Hin) as Hag.
  destruct (enforce_loop_spec (max_remembered (config a)) _ _ Hag) as (m' & He & Hm').
  rewrite fmap_app in He. simpl in He. rewrite He.
  rewrite length_app in *. simpl in *. rewrite Nat.add_1_r in *. split; [done..|].
  simpl. rewrite length_drop, length_app. simpl. lia.
Qed.

Lemma admit_remembers p now a r :
  remembers a r →
  ∃ r', remembers (admit_candidate p now a).2 r' ∧
    config (admit_candidate p now a).2 = config a.
Proof.
  intros Hr. destruct (admit_cases p now a r Hr)
    as [[_ ->]|[(_ & _ & ->)|(_ & _ & a2 & -> & ? & _ & ?)]]; simpl;
    eauto using remembers_prune, config_prune.
Qed.

Lemma loop_remembers ps now out a r :
  remembers a r →
  ∃ r', remembers (admit_loop ps now out a).2 r' ∧
    config (admit_loop ps now out a).2 = config a.
Proof.
  revert out a r. induction ps as [|p ps IH]; intros out a r Hr; simpl; [by eauto|].
  case_decide; [by eauto|]. destruct (admit_remembers p now a r Hr) as (r1 & Hr1 & Hc).
  destruct (admit_candidate p now a) as [res a1]. simpl in *. rewrite <-Hc.
  destruct res; by eapply IH.
Qed.

Lemma step_remembers a o r :
  remembers a r → ∃ r', remembers (step a o).2 r' ∧ config (step a o).2 = config a.
Proof.
  intros Hr. destruct o as [p now|ps now|now]; simpl.
  - destruct (admit_remembers p now a r Hr) as (r' & Hr').
    destruct (admit_candidate p now a) as [[] ?]; eauto.
  - unfold admit_batch.
    destruct (loop_remembers ps now [] (prune now a) _ (remembers_prune now a r Hr))
      as (r' & Hr' & Hc).
    destruct (admit_loop _ _ _ _) as [out a']. simpl in *.
    exists r'. by rewrite Hc, config_prune.
  - eauto using remembers_prune, config_prune.
Qed.

Lemma clamp_spec lo hi (k : nat) : lo ≤ hi → lo ≤ clamp lo hi k ≤ hi.
Proof. unfold clamp. case_decide; lia. Qed.

Lemma remembers_new c : remembers (new c) [].
Proof.
  split; simpl; [done| |lia]. split; [apply NoDup_nil_2|].
  intros p t. rewrite lookup_empty. set_solver.
Qed.

Lemma run_remembers a ops r :
  remembers a r → ∃ r', remembers (run a ops).2 r' ∧ config (run a ops).2 = config a.
Proof.
  revert a r. induction ops as [|o ops IH]; intros a r Hr; simpl; [by eauto|].
  destruct (step_remembers a o r Hr) as (r1 & Hr1 & Hc).
  destruct (step a o) as [h1 a1]. simpl in *. destruct (IH a1 r1 Hr1) as (r' & Hr' & Hc').
  destruct (run a1 ops) as [h2 a2]. simpl in *. rewrite <-Hc. eauto.
Qed.

(** The memory of the policy is bounded and consistent.  For every configuration and
    every sequence of calls, even with a clock that goes back, the queue of remembered
    peers has no repeated peer, never more than the clamped capacity (at most 256), and the
    map of admission times has exactly the queue's peers as keys. *)
Theorem remembered_bounded c ops :
  let a := (run (new c) ops).2 in
  NoDup (remembered a) ∧
  remembered_len a ≤ clamp REMEMBERED_MIN REMEMBERED_MAX (max_remembered c) ∧
  remembered_len a ≤ REMEMBERED_MAX ∧
  (∀ p, is_remembered p a ↔ p ∈ remembered a).
Proof.
  intros a. destruct (run_remembers _ ops _ (remembers_new c)) as (r & [Hl Hm Hb] & Hc).
  fold a in Hl, Hm, Hb, Hc. rewrite Hc in Hb. simpl in Hb.
  unfold remembered_len, is_remembered. rewrite Hl, length_fmap.
  pose proof (clamp_spec REMEMBERED_MIN REMEMBERED_MAX (max_remembered c)) as Hcl.
  split_and!; [apply Hm|done|unfold REMEMBERED_MIN, REMEMBERED_MAX in *; lia|].
  intros p. rewrite bool_decide_spec. pose proof (agree_absent _ _ p Hm) as Hp.
  rewrite eq_None_not_Some in Hp.
  destruct (decide (p ∈ r.*1)), (decide (is_Some (remembered_at a !! p))); tauto.
Qed.

(** ** The rolling window *)

(** The admissions of a window of length [d] that ends at [t]. *)
Definition in_window d t (s : N) : Prop := (s ≤ t ∧ t < s + d)%N.

#[local] Instance in_window_dec d t s : Decision (in_window d t s).
Proof. unfold in_window. apply _. Defined.

(** What the queue of timestamps means, for the instants [ts] of all admissions so far and
    the last instant [n] the policy has seen. *)
Record windowed n a ts : Prop := mkWindowed {
  win_past : Forall (λ s, (s ≤ n)%N) (attempt_times a ++ ts);
  win_sorted : StronglySorted N.le (attempt_times a);
  win_times now : (n ≤ now)%N →
    filter (in_window (window (config a)) now) (attempt_times a)
    = filter (in_window (window (config a)) now) ts;
  win_bound t :
    length (filter (in_window (window (config a)) t) ts) ≤ max_per_window (config a)
}.

Lemma windowed_new c : windowed 0 (new c) [].
Proof. split; simpl; [constructor|constructor|done|lia]. Qed.

Lemma prune_times_spec cutoff ts :
  StronglySorted N.le ts → prune_times cutoff ts = filter (λ s, cutoff < s)%N ts.
Proof.
  induction 1 as [|s ts Hs IH Hle]; [done|]. simpl. rewrite filter_cons.
  case_decide; case_decide; [lia|done| |lia].
  f_equal. symmetry. apply filter_all. rewrite Forall_forall in Hle.
  intros x ?%Hle. lia.
Qed.

(** Pruning leaves exactly the timestamps of the window that ends now. *)
Lemma prune_window now a n ts :
  windowed n a ts → (n ≤ now)%N →
  attempt_times (prune now a) = filter (in_window (window (config a)) now) (attempt_times a).
Proof.
  intros [Hp Hs _ _] Hn. apply Forall_app in Hp as [Hp _]. rewrite Forall_forall in Hp.
  unfold prune. destruct (prune_remembered _ _ _ _) as [keep m]. simpl.
  unfold checked_sub, in_window. case_decide.
  - rewrite prune_times_spec by done. apply filter_ext_elem. intros x ?%Hp. lia.
  - symmetry. apply filter_all. intros x ?%Hp. lia.
Qed.

Lemma windowed_prune now a n ts :
  windowed n a ts → (n ≤ now)%N →
  windowed now (prune now a) ts ∧
  attempt_times (prune now a) = filter (in_window (window (config a)) now) ts.
Proof.
  intros Hw Hn. pose proof (prune_window _ _ _ _ Hw Hn) as Ht. destruct Hw as [Hp Hs He Hb].
  split; [|by rewrite Ht, He]. split; rewrite ?config_prune, ?Ht; [| | |done].
  - apply Forall_app in Hp as [Hp Hts]. rewrite Forall_forall in Hp, Hts.
    apply Forall_app. rewrite !Forall_forall. split.
    + intros x [_ ?%Hp]%list_elem_of_filter. lia.
    + intros x ?%Hts. lia.
  - by apply StronglySorted_filter.
  - intros now' Hn'. rewrite <-He by lia. rewrite list_filter_filter.
    apply Forall_app in Hp as [Hp _]. rewrite Forall_forall in Hp.
    apply filter_ext_elem. intros x ?%Hp. unfold in_window. lia.
Qed.

Lemma windowed_admit now a a2 ts :
  windowed now a ts → attempt_times a = filter (in_window (window (config a)) now) ts →
  length (attempt_times a) < max_per_window (config a) →
  attempt_times a2 = attempt_times a ++ [now] → config a2 = config a →
  windowed now a2 (ts ++ [now]).
Proof.
  intros [Hp Hs He Hb] Ht Hl Ha Hc. rewrite Forall_app in Hp. destruct Hp as [Hp Hts].
  split; rewrite ?Ha, ?Hc.
  - rewrite !Forall_app. split_and!; auto; by repeat constructor.
  - apply StronglySorted_app_2; [|done|by repeat constructor].
    intros x1 x2 Hx1 ->%list_elem_of_singleton. by eapply Forall_forall in Hp.
  - intros now' Hn'. by rewrite !filter_app, He.
  - intros t. rewrite filter_app, length_app. destruct (decide (now ≤ t)%N) as [Hle|Hlt].
    + assert (length (filter (in_window (window (config a)) t) ts)
              ≤ length (attempt_times a)).
      { rewrite Ht. apply count_mono. intros x Hx [_ ?]. rewrite Forall_forall in Hts.
        specialize (Hts x Hx). unfold in_window. lia. }
      pose proof (length_filter (in_window (window (config a)) t) [now]). simpl in *. lia.
    + rewrite filter_cons_False by (unfold in_window; lia). simpl.
      specialize (Hb t). simpl. lia.
Qed.

(** A span of [k] windows holds at most [k] times the limit of one. *)
Lemma windows_bound n a ts (k : nat) t :
  windowed n a ts →
  length (filter (in_window (N.of_nat k * window (config a)) t) ts)
  ≤ k * max_per_window (config a).
Proof.
  intros Hw. revert t. induction k as [|k IH]; intros t.
  { assert (length (filter (in_window (N.of_nat 0 * window (config a)) t) ts)
            ≤ length (filter (λ _ : N, False) ts)) as Hz.
    { apply count_mono. intros x _ []. lia. }
    etrans; [exact Hz|]. clear. induction ts; [done|]. by rewrite filter_cons_False by tauto. }
  pose proof (win_bound _ _ _ Hw t) as Hb.
  destruct (decide (window (config a) ≤ t)%N) as [Hle|Hlt].
  - specialize (IH (t - window (config a))%N).
    etrans; [|apply (Nat.add_le_mono _ _ _ _ Hb IH)]. apply count_split.
    unfold in_window. intros x _ [? ?]. lia.
  - etrans; [|etrans; [apply Hb|lia]]. apply count_mono.
    unfold in_window. intros x _ [? ?]. lia.
Qed.

(** ** The complete history as a reference *)

(** The capacity covers everything that can be admitted within a cooldown. *)
Definition remembers_enough (c : CandidateAdmissionConfig) : Prop :=
  (0 < window c)%N ∧
  S (N.to_nat (cooldown c / window c)) * max_per_window c ≤ max_remembered c.

(** The decision with the history of all admissions at hand. *)
Definition decision (c : CandidateAdmissionConfig) h p now : AdmissionResult :=
  if decide (p ∈ (filter (fresh (cooldown c) now) h).*1) then WithinCooldown
  else if decide (max_per_window c ≤ length (filter (in_window (window c) now) h.*2))
  then WindowFull
  else RAdmitted.

Record tracks n a h r : Prop := mkTracks {
  tr_rem : remembers a r;
  tr_win : windowed n a h.*2;
  tr_fresh : remembers_enough (config a) → ∀ now, (n ≤ now)%N →
    filter (fresh (cooldown (config a)) now) r = filter (fresh (cooldown (config a)) now) h
}.

Lemma tracks_prune now n a h r :
  tracks n a h r → (n ≤ now)%N →
  tracks now (prune now a) h (filter (fresh (cooldown (config a)) now) r).
Proof.
  intros [Hr Hw Hf] Hn. split; [by apply remembers_prune|by eapply windowed_prune|].
  rewrite config_prune. intros He now' Hn'. rewrite <-Hf by (done || lia).
  apply list_filter_filter_l. intros x. unfold fresh. lia.
Qed.

(** No fresh peer is evicted when the capacity is large enough. *)
Lemma no_eviction now a a2 h p :
  remembers_enough (config a) → config a2 = config a →
  windowed now a2 (h ++ [(p, now)]).*2 →
  S (length (filter (fresh (cooldown (config a)) now) h)) ≤ max_remembered (config a).
Proof.
  intros [Hpos Hcap] Hc Hw. set (k := S (N.to_nat (cooldown (config a) / window (config a)))).
  pose proof (windows_bound _ _ _ k now Hw) as Hb. rewrite Hc in Hb.
  etrans; [|exact Hcap]. etrans; [|exact Hb]. rewrite length_filter_fmap.
  pose proof (win_past _ _ _ Hw) as Hp. rewrite Forall_app in Hp. destruct Hp as [_ Hp].
  rewrite Forall_forall in Hp. setoid_rewrite list_elem_of_fmap in Hp.
  assert (Hspan : (cooldown (config a) < N.of_nat k * window (config a))%N).
  { unfold k. rewrite Nat2N.inj_succ, N2Nat.id.
    pose proof (N.mul_succ_div_gt (cooldown (config a)) (window (config a))). lia. }
  rewrite filter_app, length_app. rewrite (filter_cons_True _ (p, now)).
  2: { unfold in_window. simpl. lia. }
  assert (length (filter (fresh (cooldown (config a)) now) h)
    ≤ length (filter (λ x, in_window (N.of_nat k * window (config a)) now x.2) h)); [|simpl; lia].
  apply count_mono. intros x Hx. unfold fresh, in_window.
  assert (x.2 ≤ now)%N by (apply Hp; exists x; set_solver). lia.
Qed.

Lemma tracks_admit p now n a h r :
  tracks n a h r → (n ≤ now)%N →
  ∃ r', tracks now (admit_candidate p now a).2
    (h ++ if decide ((admit_candidate p now a).1 = RAdmitted) then [(p, now)] else []) r'.
Proof.
  intros Ht Hn. pose proof (tracks_prune now _ _ _ _ Ht Hn) as Ht1.
  destruct (windowed_prune now _ _ _ (tr_win _ _ _ _ Ht) Hn) as [Hw Htimes].
  destruct (admit_cases p now a r (tr_rem _ _ _ _ Ht))
    as [[_ ->]|[(_ & _ & ->)|(_ & Hl & a2 & -> & Hr2 & Ht2 & Hc2)]]; simpl;
    [rewrite app_nil_r; by eauto..|].
  assert (Hw2 : windowed now a2 (h ++ [(p, now)]).*2).
  { rewrite fmap_app. rewrite <-(config_prune now a) in Hl, Htimes.
    eapply windowed_admit; [done..|]. by rewrite config_prune. }
  eexists. split; [done..|]. rewrite Hc2. intros He now' Hn'.
  pose proof (tr_fresh _ _ _ _ Ht He now Hn) as Hf.
  pose proof (no_eviction _ _ _ _ _ He Hc2 Hw2) as Hle. rewrite <-Hf in Hle.
  replace (S _ - _) with 0 by lia. rewrite drop_0, !filter_app. f_equal.
  rewrite Hf. apply list_filter_filter_l. intros x. unfold fresh. lia.
Qed.

Lemma tracks_loop ps now out n a h r :
  tracks n a h r → (n ≤ now)%N →
  ∃ admitted n' r', (n' ≤ now)%N ∧ (admit_loop ps now out a).1 = out ++ admitted ∧
    tracks n' (admit_loop ps now out a).2 (h ++ ((λ p, (p, now)) <$> admitted)) r'.
Proof.
  revert out n a h r. induction ps as [|p ps IH]; intros out n a h r Ht Hn; simpl.
  { exists [], n, r. by rewrite !app_nil_r. }
  case_decide. { exists [], n, r. by rewrite !app_nil_r. }
  destruct (tracks_admit p now _ _ _ _ Ht Hn) as [r1 Ht1].
  destruct (admit_candidate p now a) as [res a1]. simpl in Ht1.
  destruct res; simpl in Ht1; [|rewrite app_nil_r in Ht1; by eapply IH..].
  destruct (IH (out ++ [p]) _ _ _ _ Ht1) as (new & n' & r' & ? & -> & ?); [done|].
  exists (p :: new), n', r'. by rewrite fmap_cons, <-!(assoc_L (++)) in *.
Qed.

Lemma tracks_step a o n h r :
  tracks n a h r → (n ≤ op_time o)%N →
  ∃ n' r', (n' ≤ op_time o)%N ∧ tracks n' (step a o).2 (h ++ (step a o).1) r'.
Proof.
  intros Ht Hn. destruct o as [p now|ps now|now]; simpl in *.
  - destruct (tracks_admit p now _ _ _ _ Ht Hn) as [r' Ht'].
    destruct (admit_candidate p now a) as [[] a']; eauto.
  - pose proof (tracks_prune now _ _ _ _ Ht Hn) as Ht1. unfold admit_batch.
    destruct (tracks_loop ps now [] _ _ _ _ Ht1) as (new & n' & r' & ? & He & ?); [lia|].
    destruct (admit_loop _ _ _ _) as [out a']. simpl in *. subst. eauto.
  - exists now. rewrite app_nil_r. eauto using tracks_prune, N.le_refl.
Qed.

(** The instants of all calls are at or before an instant. *)
Definition before now (ops : list op) : Prop := Forall (λ o, (op_time o ≤ now)%N) ops.

Lemma tracks_run ops n a h r now :
  tracks n a h r → (n ≤ now)%N → chronological n ops → before now ops →
  ∃ n' r', (n' ≤ now)%N ∧ tracks n' (run a ops).2 (h ++ (run a ops).1) r'.
Proof.
  revert n a h r. induction ops as [|o ops IH]; intros n a h r Ht Hn Hc Hb; simpl.
  { rewrite app_nil_r. eauto. }
  destruct Hc as [Hle Hc]. apply Forall_cons in Hb as [Hb1 Hb].
  destruct (tracks_step a o n h r Ht Hle) as (n1 & r1 & Hn1 & Ht1).
  destruct (step a o) as [h1 a1]. simpl in Ht1.
  destruct (IH n1 a1 (h ++ h1) r1 Ht1) as (n' & r' & ? & Ht'); [lia| |done|].
  { destruct ops as [|o' ops']; [done|]. simpl in *. naive_solver lia. }
  destruct (run a1 ops) as [h2 a2]. simpl in *. rewrite <-(assoc_L (++)) in Ht'. eauto.
Qed.

Lemma tracks_new c : tracks 0 (new c) [] [].
Proof. split; [apply remembers_new|apply windowed_new|done]. Qed.

Lemma run_config c ops : config (run (new c) ops).2 = config (new (Peer:=Peer) c).
Proof. by destruct (run_remembers _ ops _ (remembers_new c)) as (? & _ & ?). Qed.

Lemma last_instant ops : ∃ now, before now ops.
Proof.
  induction ops as [|o ops [now Hb]]; [by exists 0%N; constructor|].
  exists (N.max now (op_time o)). constructor; [lia|].
  eapply Forall_impl; [exact Hb|]. simpl. lia.
Qed.

(** The rate limit holds for every window.  For every configuration and every
    chronological sequence of calls, single attempts and batches mixed, no span of time
    as long as the window contains more admissions than [max_per_window]. *)
Theorem window_never_exceeded c ops t :
  chronological 0 ops →
  length (filter (in_window (window c) t) (run (new c) ops).1.*2) ≤ max_per_window c.
Proof.
  intros Hc. destruct (last_instant ops) as [now Hb].
  destruct (tracks_run ops _ _ _ _ now (tracks_new c)) as (n & r & _ & Ht); [lia|done..|].
  pose proof (win_bound _ _ _ (tr_win _ _ _ _ Ht) t) as Hw. by rewrite run_config in Hw.
Qed.

(** The bounded memory decides like the complete history.  When the capacity covers
    what can be admitted within a cooldown, which the default configuration guarantees,
    then after every chronological sequence of calls an attempt is answered
    [WithinCooldown] exactly when the peer was admitted less than the cooldown ago,
    [WindowFull] exactly when the current window is used up, and admitted otherwise: a peer
    is never admitted twice within a cooldown and never locked out after it. *)
Theorem admission_exact c ops p now :
  remembers_enough (config (new (Peer:=Peer) c)) →
  chronological 0 ops → before now ops →
  (admit_candidate p now (run (new c) ops).2).1 = decision c (run (new c) ops).1 p now.
Proof.
  intros He Hc Hb.
  destruct (tracks_run ops _ _ _ _ now (tracks_new c)) as (n & r & Hn & Ht); [lia|done..|].
  simpl in Ht. destruct (windowed_prune now _ _ _ (tr_win _ _ _ _ Ht) Hn) as [_ Htimes].
  rewrite <-(run_config c ops) in He. pose proof (tr_fresh _ _ _ _ Ht He now Hn) as Hf.
  pose proof (admit_cases p now _ r (tr_rem _ _ _ _ Ht)) as Hcases.
  cbv zeta in Hcases. rewrite Hf, Htimes, run_config in Hcases. simpl in Hcases. unfold decision.
  destruct Hcases as [[? ->]|[(? & ? & ->)|(? & ? & a2 & -> & _)]]; simpl;
    repeat case_decide; done || lia.
Qed.

End facts.

(** ** The default configuration *)

Definition sample_calls : list (op (Peer:=N)) :=
  [Batch [1; 2; 1; 3]%N (secs 100); Admit 1%N (secs 200); Attempts (secs 300);
   Admit 1%N (secs 700)].

Lemma sample_chronological : chronological 0 sample_calls.
Proof. repeat split; vm_compute; discriminate. Qed.

Lemma sample_before : before (secs 800) sample_calls.
Proof. repeat constructor; vm_compute; discriminate. Qed.

Lemma default_remembers_enough {Peer : Type} `{Countable Peer} :
  remembers_enough (config (new (Peer:=Peer) config_default)).
Proof. split; [done|]. vm_compute. lia. Qed.

Example sample_admissions :
  (run (new config_default) sample_calls).1
  = [(1%N, secs 100); (2%N, secs 100); (3%N, secs 100); (1%N, secs 700)].
Proof. vm_compute. reflexivity. Qed.

Lemma window_never_exceeded_witness :
  length (filter (in_window (window config_default) (secs 110))
    (run (new config_default) sample_calls).1.*2) ≤ max_per_window config_default.
Proof.
  apply (window_never_exceeded config_default sample_calls (secs 110)).
  apply sample_chronological.
Defined.

Lemma admission_exact_witness :
  (admit_candidate 2%N (secs 800) (run (new config_default) sample_calls).2).1
  = decision config_default (run (new config_default) sample_calls).1 2%N (secs 800).
Proof.
  apply (admission_exact config_default sample_calls 2%N (secs 800)).
  - apply default_remembers_enough.
  - apply sample_chronological.
  - apply sample_before.
Defined.
