(* ===== verification/Joiner.v ===== *)
(** * The dynamic peer joiner: [src/dynamic_joiner.rs]

    [Module dynamic_joiner] translates the state behind the lock, its handlers, and the
    background task with its join workers as a step relation: the loop and every worker are
    at some point of their code, and any of them may take the next step.  The semaphore is
    the number of permits left; a worker holds one until its future is dropped.  What
    [GossipSender::join_peers] answers, when sleeping ends and when the task is cancelled is
    left to the environment.  The jitter of the delays, logging and counters for diagnostics
    are left out. *)

From Stdlib Require Import NArith.
From stdpp Require Import prelude gmap.
From S2P Require Import Prelude.

Module dynamic_joiner.

Section joiner.
Context {EndpointId : Type} `{Countable EndpointId}.
Implicit Types (peer : EndpointId).

Inductive NeighborEvent : Type :=
| Up (peer : EndpointId)
| Down (peer : EndpointId).

(** Durations in milliseconds. *)
Record DynamicPeerJoinerConfig : Type := mkConfig {
  max_candidates_per_batch : nat;
  max_concurrent_joins : nat;
  max_pending_queue : nat;
  max_retries_per_peer : N;
  initial_retry_delay : N;
  max_retry_delay : N
}.

Definition config_default : DynamicPeerJoinerConfig := mkConfig 64 5 64 3 1000 60000.

(** [pending] maps a peer to the attempt of its [PeerJoinState]. *)
Record JoinerState : Type := mkState {
  known : gset EndpointId;
  pending : gmap EndpointId N;
  queued : list EndpointId;
  queued_set : gset EndpointId;
  dropped_count : N;
  local : EndpointId
}.

Implicit Types (st : JoinerState).

Definition set_known (k : gset EndpointId) st : JoinerState :=
  mkState k (pending st) (queued st) (queued_set st) (dropped_count st) (local st).
Definition set_pending (p : gmap EndpointId N) st : JoinerState :=
  mkState (known st) p (queued st) (queued_set st) (dropped_count st) (local st).
Definition set_queue (q : list EndpointId) (qs : gset EndpointId) st : JoinerState :=
  mkState (known st) (pending st) q qs (dropped_count st) (local st).
Definition add_dropped st : JoinerState :=
  mkState (known st) (pending st) (queued st) (queued_set st) (dropped_count st + 1) (local st).

(** ** Handlers *)

(** [queued.retain(|p| *p != peer); queued_set.remove(peer)] *)
Definition dequeue peer st : JoinerState :=
  set_queue (filter (λ p, p ≠ peer) (queued st)) (queued_set st ∖ {[peer]}) st.

Definition handle_neighbor_event (e : NeighborEvent) st : JoinerState :=
  match e with
  | Up peer =>
      let st := set_known ({[peer]} ∪ known st) st in
      let st := set_pending (delete peer (pending st)) st in
      dequeue peer st
  | Down peer => set_known (known st ∖ {[peer]}) st
  end.

(** The filter of [handle_discovery_batch] over the first [max_batch] peers. *)
Fixpoint admissible_from (seen : gset EndpointId) (peers : list EndpointId) st
    : list EndpointId :=
  match peers with
  | [] => []
  | peer :: peers' =>
      if decide (peer ∈ seen) then admissible_from seen peers' st
      else
        let rest := admissible_from ({[peer]} ∪ seen) peers' st in
        if decide (peer = local st) then rest
        else if decide (peer ∈ known st) then rest
        else if decide (is_Some (pending st !! peer)) then rest
        else if decide (peer ∈ queued_set st) then rest
        else peer :: rest
  end.

Definition admissible (max_batch : nat) (peers : list EndpointId) st : list EndpointId :=
  admissible_from ∅ (take max_batch peers) st.

Definition queue_peer (max_queue : nat) peer st : JoinerState :=
  if decide (peer ∈ queued_set st) then st
  else if decide (max_queue ≤ length (queued st)) then add_dropped st
  else set_queue (queued st ++ [peer]) ({[peer]} ∪ queued_set st) st.

(** The update of [spawn_join_worker] *)
Definition start_pending peer st : JoinerState :=
  dequeue peer (set_pending (<[peer := 0%N]> (pending st)) st).

(** The pop of [drain_queue] *)
Definition pop_queued st : option (EndpointId * JoinerState) :=
  match queued st with
  | peer :: q => Some (peer, set_queue q (queued_set st ∖ {[peer]}) st)
  | [] => None
  end.

(** ** Workers *)

(** Where a worker is in [attempt_join_with_retries], with its attempt and delay: before the
    check for cancellation, waiting for the join, sleeping; about to return, with its part of
    the state updated; finished, with its permit given back. *)
Inductive Phase : Type :=
| Checking (attempt delay : N)
| Joining (attempt delay : N)
| Sleeping (attempt delay : N)
| Returning
| Completed.

#[export] Instance phase_eq_dec : EqDecision Phase.
Proof. solve_decision. Defined.

Record Worker : Type := mkWorker {
  w_peer : EndpointId;
  w_phase : Phase
}.

(** A worker leaves the set of pending peers. *)
Definition abandon_join peer st : JoinerState := set_pending (delete peer (pending st)) st.

Definition join_succeeded peer st : JoinerState :=
  abandon_join peer (set_known ({[peer]} ∪ known st) st).

(** The attempt is recorded if the peer is still pending. *)
Definition note_attempt peer (attempt : N) st : JoinerState :=
  if decide (is_Some (pending st !! peer))
  then set_pending (<[peer := attempt]> (pending st)) st else st.

(** ** The task *)

(** Where the loop is: selecting, spawning for the rest of a batch, draining the queue, or
    ended. *)
Inductive LoopPc : Type :=
| Selecting
| Admitting (rest : list EndpointId)
| Draining
| Stopped.

Record Joiner : Type := mkJoiner {
  state : JoinerState;
  permits : nat;
  workers : gmap N Worker;
  next_worker : N;
  pc : LoopPc;
  cancelled : bool
}.

Implicit Types (j : Joiner).

Section loop.
Context (config : DynamicPeerJoinerConfig).

Definition max_concurrent : nat := Nat.max (max_concurrent_joins config) 1.
Definition max_batch : nat := Nat.max (max_candidates_per_batch config) 1.
Definition max_queue : nat := Nat.max (max_pending_queue config) 1.

(** The start of [run_joiner_loop] *)
Definition start (me : EndpointId) : Joiner :=
  mkJoiner (mkState ∅ ∅ [] ∅ 0 me) max_concurrent ∅ 0 Selecting false.

(** [spawn_join_worker] with a permit already taken *)
Definition spawn peer st (left : nat) (p : LoopPc) j : Joiner :=
  mkJoiner (start_pending peer st) left
    (<[next_worker j := mkWorker peer (Checking 0 (initial_retry_delay config))]> (workers j))
    (next_worker j + 1) p (cancelled j).

(** Replace the state and the phase of a worker. *)
Definition worker_to (n : N) peer (ph : Phase) st j : Joiner :=
  mkJoiner st (permits j) (<[n := mkWorker peer ph]> (workers j)) (next_worker j) (pc j)
    (cancelled j).

Definition with_pc (p : LoopPc) j : Joiner :=
  mkJoiner (state j) (permits j) (workers j) (next_worker j) p (cancelled j).

Definition with_state st j : Joiner :=
  mkJoiner st (permits j) (workers j) (next_worker j) (pc j) (cancelled j).

(** A neighbour event is handled. *)
Inductive event_step : Joiner → NeighborEvent → Joiner → Prop :=
| loop_event j e :
    pc j = Selecting → event_step j e (with_state (handle_neighbor_event e (state j)) j).

(** The other steps of the loop. *)
Inductive loop_step : Joiner → Joiner → Prop :=
| loop_batch j peers :
    pc j = Selecting →
    loop_step j
      (match admissible max_batch peers (state j) with
       | [] => j
       | l => with_pc (Admitting l) j
       end)
| loop_admit_spawn j peer rest left :
    pc j = Admitting (peer :: rest) → permits j = S left →
    loop_step j (spawn peer (state j) left (Admitting rest) j)
| loop_admit_queue j peer rest :
    pc j = Admitting (peer :: rest) → permits j = 0 →
    loop_step j (with_pc (Admitting rest) (with_state (queue_peer max_queue peer (state j)) j))
| loop_admitted j :
    pc j = Admitting [] → loop_step j (with_pc Draining j)
| loop_drain_spawn j peer st left :
    pc j = Draining → permits j = S left → pop_queued (state j) = Some (peer, st) →
    loop_step j (spawn peer st left Draining j)
| loop_drained j :
    pc j = Draining → permits j = 0 ∨ pop_queued (state j) = None →
    loop_step j (with_pc Selecting j)
| loop_reap j n w :
    pc j = Selecting → workers j !! n = Some w → w_phase w = Completed →
    loop_step j
      (mkJoiner (state j) (permits j) (delete n (workers j)) (next_worker j) Draining
         (cancelled j))
| loop_stop j :
    pc j = Selecting →
    loop_step j
      (mkJoiner (state j) max_concurrent ∅ (next_worker j) Stopped (cancelled j)).

(** Steps of a worker. *)
Inductive worker_step : Joiner → N → Joiner → Prop :=
| w_check_cancelled j n peer a d :
    workers j !! n = Some (mkWorker peer (Checking a d)) → cancelled j = true →
    worker_step j n (worker_to n peer Returning (abandon_join peer (state j)) j)
| w_check j n peer a d :
    workers j !! n = Some (mkWorker peer (Checking a d)) → cancelled j = false →
    worker_step j n (worker_to n peer (Joining a d) (state j) j)
| w_join_ok j n peer a d :
    workers j !! n = Some (mkWorker peer (Joining a d)) →
    worker_step j n (worker_to n peer Returning (join_succeeded peer (state j)) j)
| w_join_retry j n peer a d :
    workers j !! n = Some (mkWorker peer (Joining a d)) → (a < max_retries_per_peer config)%N →
    worker_step j n
      (worker_to n peer (Sleeping a d) (note_attempt peer (a + 1) (state j)) j)
| w_join_exhausted j n peer a d :
    workers j !! n = Some (mkWorker peer (Joining a d)) → (max_retries_per_peer config ≤ a)%N →
    worker_step j n (worker_to n peer Returning (abandon_join peer (state j)) j)
| w_sleep_cancelled j n peer a d :
    workers j !! n = Some (mkWorker peer (Sleeping a d)) → cancelled j = true →
    worker_step j n (worker_to n peer Returning (abandon_join peer (state j)) j)
| w_wake j n peer a d :
    workers j !! n = Some (mkWorker peer (Sleeping a d)) →
    worker_step j n
      (worker_to n peer (Checking (a + 1) (N.min (2 * d) (max_retry_delay config))) (state j) j)
| w_return j n peer :
    workers j !! n = Some (mkWorker peer Returning) →
    worker_step j n
      (mkJoiner (state j) (S (permits j)) (<[n := mkWorker peer Completed]> (workers j))
         (next_worker j) (pc j) (cancelled j)).

(** A step of the task: of the loop, of a worker, or the token being cancelled. *)
Inductive joiner_step : Joiner → Joiner → Prop :=
| step_event j e j' : event_step j e j' → joiner_step j j'
| step_loop j j' : loop_step j j' → joiner_step j j'
| step_worker j n j' : worker_step j n j' → joiner_step j j'
| step_cancel j :
    joiner_step j
      (mkJoiner (state j) (permits j) (workers j) (next_worker j) (pc j) true).

Definition reachable (me : EndpointId) j : Prop := rtc joiner_step (start me) j.

End loop.
End joiner.
Arguments NeighborEvent : clear implicits.
Arguments JoinerState EndpointId {_ _}.
Arguments Worker : clear implicits.
Arguments LoopPc : clear implicits.
Arguments Joiner EndpointId {_ _}.
End dynamic_joiner.
