(* ===== verification/JoinerFacts.v ===== *)
(** * Correctness of the dynamic peer joiner

    In every interleaving of the loop and its workers the number of joins under way and the
    queue stay within their bounds, the node never joins itself, every worker ends after a
    bounded number of attempts, and a queued peer is never stranded.  Two joins of the same
    peer may be under way at once after the peer came and went as a neighbour; without such
    events they may not. *)

From Stdlib Require Import NArith.
From stdpp Require Import prelude gmap.
From S2P Require Import Prelude Joiner.
Import dynamic_joiner.

Section facts.
Context {EndpointId : Type} `{Countable EndpointId} (config : DynamicPeerJoinerConfig)
  (me : EndpointId).
Implicit Types (peer p : EndpointId) (st : JoinerState EndpointId) (j : Joiner EndpointId).

(** ** Workers that hold a permit *)

Definition busy (ws : gmap N (Worker EndpointId)) : gmap N (Worker EndpointId) :=
  filter (λ kw, w_phase kw.2 ≠ Completed) ws.

Lemma busy_spawn ws n w :
  ws !! n = None → w_phase w ≠ Completed → size (busy (<[n := w]> ws)) = S (size (busy ws)).
Proof.
  intros Hn Hw. unfold busy. rewrite map_filter_insert_True by done.
  apply map_size_insert_None, map_lookup_filter_None. by left.
Qed.

Lemma busy_move ws n w w' :
  ws !! n = Some w → w_phase w ≠ Completed → w_phase w' ≠ Completed →
  size (busy (<[n := w']> ws)) = size (busy ws).
Proof.
  intros Hn Hw Hw'. unfold busy. rewrite map_filter_insert_True by done.
  apply map_size_insert_Some. exists w. by apply map_lookup_filter_Some.
Qed.

Lemma busy_return ws n w w' :
  ws !! n = Some w → w_phase w ≠ Completed → w_phase w' = Completed →
  S (size (busy (<[n := w']> ws))) = size (busy ws).
Proof.
  intros Hn Hw Hw'. unfold busy. rewrite map_filter_insert_False by naive_solver.
  rewrite map_filter_delete.
  assert (filter (λ kw, w_phase kw.2 ≠ Completed) ws !! n = Some w) as Hf
    by by apply map_lookup_filter_Some.
  rewrite map_size_delete, Hf. simpl.
  assert (size (filter (λ kw : N * Worker EndpointId, w_phase kw.2 ≠ Completed) ws) ≠ 0).
  { intros He%map_size_empty_inv. rewrite He in Hf. by apply lookup_empty_Some in Hf. }
  lia.
Qed.

Lemma busy_reap ws n w :
  ws !! n = Some w → w_phase w = Completed → size (busy (delete n ws)) = size (busy ws).
Proof.
  intros Hn Hw. unfold busy. rewrite map_filter_delete, delete_id; [done|].
  apply map_lookup_filter_None. right. intros w' Hw' Hc. simpl in Hc. congruence.
Qed.

(** ** The invariant *)

Definition attempt_ok (ph : Phase) : Prop :=
  match ph with
  | Checking a _ | Joining a _ => (a ≤ max_retries_per_peer config)%N
  | Sleeping a _ => (a < max_retries_per_peer config)%N
  | _ => True
  end.

Record st_inv st : Prop := mkStInv {
  si_local : local st = me;
  si_nodup : NoDup (queued st);
  si_mirror : queued_set st = list_to_set (queued st);
  si_bound : length (queued st) ≤ max_queue config;
  si_disjoint p : p ∈ queued st → pending st !! p = None;
  si_self : (me ∉ queued st) ∧ pending st !! me = None
}.

Record inv j : Prop := mkInv {
  inv_state : st_inv (state j);
  inv_permits : permits j + size (busy (workers j)) = max_concurrent config;
  inv_workers n w : workers j !! n = Some w →
    (n < next_worker j)%N ∧ w_peer w ≠ me ∧ attempt_ok (w_phase w);
  inv_rest rest : pc j = Admitting rest →
    NoDup rest ∧ ∀ p, p ∈ rest → p ≠ me ∧ pending (state j) !! p = None ∧ p ∉ queued (state j);
  inv_stranded : pc j = Selecting → queued (state j) ≠ [] →
    permits j = 0 ∨ ∃ n w, workers j !! n = Some w ∧ w_phase w = Completed
}.

(** A removed peer leaves the queue and its mirror. *)
Lemma dequeue_inv peer st : st_inv st → st_inv (dequeue peer st).
Proof.
  intros [? ? Hm ? Hd [? ?]]. split; simpl; try done.
  - by apply NoDup_filter.
  - rewrite Hm. apply set_eq. intros p. rewrite elem_of_difference, elem_of_singleton,
      !elem_of_list_to_set, list_elem_of_filter. tauto.
  - etransitivity; [apply length_filter|done].
  - intros p [_ Hp]%list_elem_of_filter. auto.
  - split; [|done]. rewrite list_elem_of_filter. tauto.
Qed.

Lemma elem_of_dequeue p peer st : p ∈ queued (dequeue peer st) ↔ p ≠ peer ∧ p ∈ queued st.
Proof. simpl. by rewrite list_elem_of_filter. Qed.

Lemma give_up_inv peer st : st_inv st → st_inv (abandon_join peer st).
Proof.
  intros [? ? ? ? Hd [? ?]]. split; simpl; try done.
  - intros p Hp. apply lookup_delete_None. auto.
  - split; [done|]. apply lookup_delete_None. auto.
Qed.

Lemma note_attempt_inv peer a st : st_inv st → st_inv (note_attempt peer a st).
Proof.
  intros [? ? ? ? Hd [? Hs]]. unfold note_attempt. case_decide as Hp; [|by split].
  assert (∀ p, pending st !! p = None → <[peer := a]> (pending st) !! p = None) as Hk.
  { intros p Hn. apply lookup_insert_None. split; [done|]. intros ->. rewrite Hn in Hp.
    by destruct Hp. }
  split; simpl; auto.
Qed.

Lemma event_inv e st : st_inv st → st_inv (handle_neighbor_event e st).
Proof.
  intros Hi. destruct e as [peer|peer]; simpl; [|by destruct Hi].
  apply dequeue_inv. by apply (give_up_inv peer) in Hi as [].
Qed.

Lemma queue_peer_inv peer st :
  st_inv st → pending st !! peer = None → peer ≠ me → peer ∉ queued st →
  st_inv (queue_peer (max_queue config) peer st).
Proof.
  intros [? ? Hm ? Hd [? ?]] Hp Hne Hq. unfold queue_peer.
  case_decide; [by split|]. case_decide; [by split|]. split; simpl; try done.
  - apply NoDup_app. split_and!; [done| |apply NoDup_singleton].
    intros p Hp' ->%list_elem_of_singleton. done.
  - rewrite Hm. set_solver.
  - rewrite length_app. simpl. lia.
  - intros p [Hp'| ->%list_elem_of_singleton]%elem_of_app; auto.
  - split; [set_solver|done].
Qed.

Lemma start_pending_inv peer st :
  st_inv st → peer ≠ me → st_inv (start_pending peer st).
Proof.
  intros Hi Hne. destruct (dequeue_inv peer st Hi) as [? ? ? ? Hd [? Hs]].
  unfold start_pending. split; simpl in *; try done.
  - intros p Hp. apply lookup_insert_None. split; [by apply Hd|].
    apply list_elem_of_filter in Hp as [Hp _]. done.
  - split; [done|]. by apply lookup_insert_None.
Qed.

Lemma pop_queued_Some st peer st' :
  st_inv st → pop_queued st = Some (peer, st') →
  st_inv st' ∧ peer ≠ me ∧ pending st' = pending st ∧ (∀ p, p ∈ queued st' → p ∈ queued st).
Proof.
  unfold pop_queued. intros [? Hnd Hm Hb Hd [? ?]] Hp. destruct (queued st) as [|x q] eqn:Hq; [done|].
  injection Hp as -> <-. apply NoDup_cons in Hnd as [Hx Hnd]. simpl in Hb.
  split_and!; [|set_solver|done|simpl; set_solver]. split; simpl; try done.
  - rewrite Hm. simpl. set_solver.
  - lia.
  - intros p Hp. apply Hd. by right.
  - split; [set_solver|done].
Qed.

Lemma admissible_from_spec seen peers st :
  NoDup (admissible_from seen peers st) ∧
  ∀ p, p ∈ admissible_from seen peers st →
    (p ∉ seen) ∧ p ≠ local st ∧ (p ∉ known st) ∧ pending st !! p = None ∧ p ∉ queued_set st.
Proof.
  revert seen. induction peers as [|x peers IH]; intros seen; cbn [admissible_from].
  { split; [constructor|]. set_solver. }
  case_decide as Hs; [apply IH|]. destruct (IH ({[x]} ∪ seen)) as [Hnd Hin].
  assert (∀ p, p ∈ admissible_from ({[x]} ∪ seen) peers st →
    (p ∉ seen) ∧ p ≠ local st ∧ (p ∉ known st) ∧ pending st !! p = None ∧ p ∉ queued_set st)
    as Hin' by (intros p Hp; apply Hin in Hp; set_solver).
  case_decide as Hl; [done|]. case_decide as Hk; [done|]. case_decide as Hp; [done|].
  case_decide as Hq; [done|]. split.
  - apply NoDup_cons. split; [|done]. intros Hx. apply Hin in Hx. set_solver.
  - intros p [->|Hp']%elem_of_cons; [|by apply Hin'].
    split_and!; try done. by apply eq_None_not_Some.
Qed.

Lemma inv_event j e :
  inv j → pc j = Selecting → inv (with_state (handle_neighbor_event e (state j)) j).
Proof.
  intros [Hst Hpm Hw _ Hs] Hpc. split; simpl; try done.
  - by apply event_inv.
  - intros rest Hr. congruence.
  - intros _ Hq. apply Hs; [done|]. intros He. apply Hq.
    destruct e as [peer|peer]; simpl; by rewrite ?He.
Qed.

Lemma inv_batch j peers :
  inv j → pc j = Selecting →
  inv (match admissible (max_batch config) peers (state j) with
       | [] => j
       | l => with_pc (Admitting l) j
       end).
Proof.
  intros Hi Hpc. destruct (admissible_from_spec ∅ (take (max_batch config) peers) (state j))
    as [Hnd Hin]. fold (admissible (max_batch config) peers (state j)) in Hnd, Hin.
  destruct (admissible _ _ _) as [|x l] eqn:Ha; [done|].
  destruct Hi as [Hst Hpm Hw _ Hs]. split; simpl; try done.
  intros rest [= <-]. split; [done|]. intros p Hp. destruct (Hin p Hp) as (_ & Hl & _ & Hpd & Hq).
  rewrite (si_local _ Hst) in Hl. rewrite (si_mirror _ Hst), elem_of_list_to_set in Hq. done.
Qed.

Lemma inv_spawn j peer st left (k : LoopPc EndpointId) :
  inv j → permits j = S left → st_inv st → peer ≠ me →
  (∀ rest, k = Admitting rest → NoDup rest ∧
     ∀ q, q ∈ rest → q ≠ peer ∧ q ≠ me ∧ pending st !! q = None ∧ q ∉ queued st) →
  k ≠ Selecting →
  inv (spawn config peer st left k j).
Proof.
  intros [Hst Hpm Hw _ _] Hl Hst' Hne Hr Hp. split; simpl.
  - by apply start_pending_inv.
  - rewrite busy_spawn; [lia| |done].
    destruct (workers j !! next_worker j) as [w|] eqn:Hn; [|done].
    apply Hw in Hn as [Hlt _]. lia.
  - intros n w [[<- <-]|[_ Hn]]%lookup_insert_Some.
    + split_and!; [lia|done|]. simpl. lia.
    + apply Hw in Hn as (? & ? & ?). split_and!; [lia|done..].
  - intros rest ->. destruct (Hr rest eq_refl) as [Hnd Hin]. split; [done|].
    intros q Hq. destruct (Hin q Hq) as (? & ? & ? & ?). split_and!; [done| |].
    + by rewrite lookup_insert_ne.
    + rewrite list_elem_of_filter. tauto.
  - done.
Qed.

Lemma inv_loop j j' : inv j → loop_step config j j' → inv j'.
Proof.
  intros Hi Hs. destruct Hs as [j peers Hpc|j peer rest left Hpc Hl|j peer rest Hpc Hl
    |j Hpc|j peer st left Hpc Hl Hq|j Hpc Hd|j n w Hpc Hn Hw|j Hpc].
  - by apply inv_batch.
  - destruct (inv_rest _ Hi _ Hpc) as [[Hx Hnd]%NoDup_cons Hin].
    destruct (Hin peer) as (Hne & _ & _); [left|].
    apply inv_spawn; [done|done|apply Hi|done| |done]. intros rest' [= <-]. split; [done|].
    intros q Hq. destruct (Hin q) as (? & ? & ?); [by right|]. split_and!; [|done..].
    intros ->. done.
  - destruct (inv_rest _ Hi _ Hpc) as [[Hx Hnd]%NoDup_cons Hin].
    destruct (Hin peer) as (Hne & Hpd & Hq); [left|].
    destruct Hi as [Hst Hpm Hw _ Hs]. split; simpl; try done.
    + by apply queue_peer_inv.
    + intros rest' [= <-]. split; [done|]. intros q Hqr.
      destruct (Hin q) as (? & ? & ?); [by right|]. unfold queue_peer.
      case_decide; [done|]. case_decide; [done|]. simpl. split_and!; [done..|].
      intros [?| ->%list_elem_of_singleton]%elem_of_app; done.
  - destruct Hi as [Hst Hpm Hw _ Hs]. by split.
  - destruct (pop_queued_Some _ _ _ (inv_state _ Hi) Hq) as (Hst' & Hne & _ & _).
    by apply inv_spawn.
  - destruct Hi as [Hst Hpm Hw _ Hs]. split; simpl; try done.
    intros _ Hq. destruct Hd as [Hd|Hd]; [by left|]. exfalso. apply Hq.
    unfold pop_queued in Hd. by destruct (queued (state j)).
  - destruct Hi as [Hst Hpm Hws _ Hs]. split; simpl; try done.
    + by erewrite busy_reap.
    + intros m w' [_ Hm]%lookup_delete_Some. by apply Hws.
  - destruct Hi as [Hst Hpm Hws _ Hs]. by split.
Qed.

(** A worker that goes on with its permit. *)
Lemma inv_move j n peer ph ph' st :
  inv j → workers j !! n = Some (mkWorker peer ph) → ph ≠ Completed → ph' ≠ Completed →
  attempt_ok ph' → st_inv st →
  (∀ p, p ∈ queued st ↔ p ∈ queued (state j)) →
  (∀ p, pending (state j) !! p = None → pending st !! p = None) →
  inv (worker_to n peer ph' st j).
Proof.
  intros [Hst Hpm Hw Hr Hs] Hn Hp Hp' Ha Hst' Hq Hpd. split; simpl.
  - done.
  - by erewrite busy_move.
  - intros m w [[<- <-]|[_ Hm]]%lookup_insert_Some; [|by apply Hw].
    destruct (Hw _ _ Hn) as (? & ? & _). done.
  - intros rest Hrest. destruct (Hr rest Hrest) as [Hnd Hin]. split; [done|].
    intros p Hpr. destruct (Hin p Hpr) as (? & ? & ?). rewrite Hq. auto.
  - intros Hpc Hne. destruct (Hs Hpc) as [?|(m & w & Hm & Hc)]; [|by left|right].
    + intros He. destruct (queued st) as [|x q]; [done|]. specialize (Hq x).
      rewrite He in Hq. set_solver.
    + exists m, w. split; [|done]. rewrite lookup_insert_ne; [done|]. intros <-.
      rewrite Hn in Hm. injection Hm as <-. done.
Qed.

Lemma inv_worker j n j' : inv j → worker_step config j n j' → inv j'.
Proof.
  intros Hi Hs.
  assert (∀ p q, pending (state j) !! q = None → pending (abandon_join p (state j)) !! q = None) as Hgive.
  { intros p q Hq. simpl. apply lookup_delete_None. by right. }
  destruct Hs as [j n peer a d Hn Hc|j n peer a d Hn Hc|j n peer a d Hn|j n peer a d Hn Ha
    |j n peer a d Hn Ha|j n peer a d Hn Hc|j n peer a d Hn|j n peer Hn];
    pose proof (inv_workers _ Hi _ _ Hn) as (_ & _ & Hok); simpl in Hok.
  - eapply inv_move; eauto; try done. apply give_up_inv, Hi.
  - eapply inv_move; eauto; try done. apply Hi.
  - eapply inv_move; eauto; try done; [|intros p; apply (Hgive peer)].
    apply give_up_inv. by destruct (inv_state _ Hi).
  - eapply inv_move; eauto; try done; [apply note_attempt_inv, Hi| |].
    + intros p. unfold note_attempt. by case_decide.
    + intros p Hp. unfold note_attempt. case_decide as Hd; [|done]. simpl.
      apply lookup_insert_None. split; [done|]. intros ->. rewrite Hp in Hd. by destruct Hd.
  - eapply inv_move; eauto; try done. apply give_up_inv, Hi.
  - eapply inv_move; eauto; try done. apply give_up_inv, Hi.
  - eapply inv_move; eauto; try done; [simpl; lia|apply Hi].
  - destruct Hi as [Hst Hpm Hw Hr Hs]. split; simpl; try done.
    + pose proof (busy_return _ _ _ (mkWorker peer Completed) Hn). simpl in *.
      assert (S (size (busy (<[n := mkWorker peer Completed]> (workers j)))) = size (busy (workers j)))
        by auto. lia.
    + intros m w [[<- <-]|[_ Hm]]%lookup_insert_Some; [|by apply Hw].
      destruct (Hw _ _ Hn) as (? & ? & _). done.
    + intros _ _. right. exists n, (mkWorker peer Completed). by rewrite lookup_insert_eq.
Qed.

Lemma inv_start : inv (start config me).
Proof.
  split; simpl; try done.
  - split; simpl; [done|constructor|done|lia|by intros p ?%not_elem_of_nil|].
    split; [apply not_elem_of_nil|done].
Qed.

Lemma joiner_inv_step j j' : inv j → joiner_step config j j' → inv j'.
Proof.
  intros Hi Hs. destruct Hs as [j e j' Hs|j j' Hs|j n j' Hs|j];
    [|by eapply inv_loop|by eapply inv_worker|]; [destruct Hs; by apply inv_event|].
  destruct Hi. by split.
Qed.

Lemma inv_reachable j : reachable config me j → inv j.
Proof.
  unfold reachable. generalize inv_start. generalize (start config me). intros j0 H0 Hr.
  induction Hr as [|j1 j2 j3 Hs _ IH]; eauto using joiner_inv_step.
Qed.

(** ** Bounds *)

(** Workers with a join or a retry ahead of them. *)
Definition active (ph : Phase) : bool :=
  match ph with
  | Checking _ _ | Joining _ _ | Sleeping _ _ => true
  | Returning | Completed => false
  end.

(** In every interleaving of the loop, its workers, neighbour events and cancellation:
    the workers that hold a permit and the free permits add up to the configured number; the
    queue has no duplicates, agrees with its mirror, stays within its capacity and shares no
    peer with the pending ones; the node never tries to join itself; and no worker gets to
    more attempts than the configured retries and one. *)
Theorem joiner_bounded j :
  reachable config me j →
  permits j + size (filter (λ kw, w_phase kw.2 ≠ Completed) (workers j)) = max_concurrent config ∧
  (NoDup (queued (state j)) ∧ queued_set (state j) = list_to_set (queued (state j)) ∧
   length (queued (state j)) ≤ max_queue config ∧
   (∀ p, p ∈ queued (state j) → pending (state j) !! p = None)) ∧
  ((me ∉ queued (state j)) ∧ pending (state j) !! me = None ∧
   ∀ n w, workers j !! n = Some w → w_peer w ≠ me) ∧
  (∀ n p a d, workers j !! n = Some (mkWorker p (Joining a d)) →
     (a ≤ max_retries_per_peer config)%N).
Proof.
  intros Hr%inv_reachable. destruct Hr as [[? ? ? ? ? []] Hp Hw _ _].
  split_and!; [done..| |].
  - intros n w Hn. by apply Hw in Hn as (_ & ? & _).
  - intros n p a d Hn. by apply Hw in Hn as (_ & _ & ?).
Qed.

(** A queued peer is never stranded: whenever the loop waits with peers in the queue,
    some worker has finished, which makes the loop drain the queue, or all slots are taken
    and there is a worker that can take its next step. *)
Theorem queued_not_stranded j :
  reachable config me j → pc j = Selecting → queued (state j) ≠ [] →
  ∃ n w, workers j !! n = Some w ∧
    (w_phase w = Completed ∨ (permits j = 0 ∧ ∃ j', worker_step config j n j')).
Proof.
  intros Hr Hpc Hq. pose proof (inv_reachable _ Hr) as Hi.
  destruct (inv_stranded _ Hi Hpc Hq) as [Hz|(n & w & Hn & Hw)]; [|by eauto].
  pose proof (inv_permits _ Hi) as Hp. unfold max_concurrent in Hp.
  assert (busy (workers j) ≠ ∅) as (n & w & Hn)%map_choose.
  { intros He. rewrite He in Hp. rewrite map_size_empty in Hp. lia. }
  apply map_lookup_filter_Some in Hn as [Hn Hb]. exists n, w. split; [done|]. right.
  split; [done|]. destruct w as [p [a d|a d|a d| |]]; simpl in Hb; [|..|done].
  - destruct (cancelled j) eqn:Hc; eexists; [by eapply w_check_cancelled|by eapply w_check].
  - eexists. by eapply w_join_ok.
  - eexists. by eapply w_wake.
  - eexists. by eapply w_return.
Qed.

(** ** Workers end *)

(** An upper bound for the steps a worker still takes. *)
Definition rank (ph : Phase) : N :=
  match ph with
  | Checking a _ => 3 * (max_retries_per_peer config - a) + 4
  | Joining a _ => 3 * (max_retries_per_peer config - a) + 3
  | Sleeping a _ => 3 * (max_retries_per_peer config - a) + 2
  | Returning => 1
  | Completed => 0
  end.

Definition rank_of j (n : N) : N := from_option (λ w, rank (w_phase w)) 0%N (workers j !! n).

(** Every step of a worker brings it closer to its end, which it reaches after at most
    three steps for each attempt and one more, whatever the joins answer; the steps of the
    others leave it where it is, or abort it when the task stops. *)
Theorem worker_ends j :
  reachable config me j →
  (∀ n, (rank_of j n ≤ 3 * (max_retries_per_peer config + 1) + 1)%N) ∧
  (∀ n j', worker_step config j n j' →
     (rank_of j' n < rank_of j n)%N ∧ ∀ m, m ≠ n → workers j' !! m = workers j !! m) ∧
  (∀ n j' w, loop_step config j j' → workers j !! n = Some w →
     workers j' !! n = Some w ∨ workers j' !! n = None).
Proof.
  intros Hr. pose proof (inv_reachable _ Hr) as Hi. split_and!.
  - intros n. unfold rank_of. destruct (workers j !! n) as [w|] eqn:Hn; simpl; [|lia].
    destruct (w_phase w); simpl; lia.
  - intros n j' Hs. destruct Hs as [j n p a d Hn|j n p a d Hn|j n p a d Hn|j n p a d Hn|j n p a d Hn
      |j n p a d Hn|j n p a d Hn|j n p Hn];
      pose proof (inv_workers _ Hi _ _ Hn) as (_ & _ & Hok); simpl in Hok;
      (split; [|intros m Hm; simpl; by rewrite lookup_insert_ne]);
      unfold rank_of; simpl; rewrite Hn, lookup_insert_eq; simpl; lia.
  - intros n j' w Hs Hn. destruct Hs; simpl; auto.
    + destruct (admissible _ _ _); auto.
    + left. rewrite lookup_insert_ne; [done|]. intros <-.
      apply (inv_workers _ Hi) in Hn as [? _]. lia.
    + left. rewrite lookup_insert_ne; [done|]. intros <-.
      apply (inv_workers _ Hi) in Hn as [? _]. lia.
    + destruct (decide (n0 = n)) as [->|Hne]; [right; apply lookup_delete_eq|].
      left. by rewrite lookup_delete_ne.
Qed.

(** ** One join per peer *)

(** Steps in which no peer comes up as a neighbour. *)
Inductive calm_step : Joiner EndpointId → Joiner EndpointId → Prop :=
| calm_down j p j' : event_step j (Down p) j' → calm_step j j'
| calm_loop j j' : loop_step config j j' → calm_step j j'
| calm_worker j n j' : worker_step config j n j' → calm_step j j'
| calm_cancel j :
    calm_step j (mkJoiner (state j) (permits j) (workers j) (next_worker j) (pc j) true).

Lemma calm_joiner j j' : calm_step j j' → joiner_step config j j'.
Proof. intros []; eauto using joiner_step. Qed.

Record single j : Prop := mkSingle {
  single_pending n w : workers j !! n = Some w → active (w_phase w) = true →
    is_Some (pending (state j) !! w_peer w);
  single_distinct n m w w' : workers j !! n = Some w → workers j !! m = Some w' →
    active (w_phase w) = true → active (w_phase w') = true → w_peer w = w_peer w' → n = m
}.

Lemma single_spawn j peer st left (k : LoopPc EndpointId) :
  single j → (∀ p, is_Some (pending (state j) !! p) → is_Some (pending st !! p)) →
  pending (state j) !! peer = None → single (spawn config peer st left k j).
Proof.
  intros [Hp Hd] Hst Hn.
  assert (∀ n w, workers j !! n = Some w → active (w_phase w) = true → w_peer w ≠ peer) as Hne.
  { intros n w Hw Ha <-. apply Hp in Hw; [|done]. rewrite Hn in Hw. by destruct Hw. }
  split; simpl.
  - intros n w [[<- <-]|[_ Hw]]%lookup_insert_Some Ha; [by rewrite lookup_insert_eq|].
    rewrite lookup_insert_is_Some. right. split; [|by eapply Hst, Hp]. by apply not_eq_sym, (Hne n).
  - intros n m w w' [[<- <-]|[_ Hw]]%lookup_insert_Some [[<- <-]|[_ Hw']]%lookup_insert_Some Ha Ha' He;
      [done|..].
    + by destruct (Hne m w').
    + by destruct (Hne n w).
    + by eapply Hd.
Qed.

(** A worker that goes on, and leaves the pending peers when it becomes inactive. *)
Lemma single_move j n peer ph ph' st :
  single j → workers j !! n = Some (mkWorker peer ph) →
  (active ph' = true → active ph = true) →
  (∀ p, p ≠ peer ∨ active ph' = true → is_Some (pending (state j) !! p) → is_Some (pending st !! p)) →
  active ph = true →
  single (worker_to n peer ph' st j).
Proof.
  intros [Hp Hd] Hn Hph Hst Hact. split; simpl.
  - intros m w [[<- <-]|[Hne Hw]]%lookup_insert_Some Ha; simpl in *.
    + apply Hst; [by right|]. by apply (Hp n (mkWorker peer ph)).
    + apply Hst; [|by eapply Hp]. left. intros He. apply Hne.
      by apply (Hd n m (mkWorker peer ph) w).
  - intros m m' w w' [[<- <-]|[Hne Hw]]%lookup_insert_Some [[<- <-]|[Hne' Hw']]%lookup_insert_Some
      Ha Ha' He; simpl in *; [done|..].
    + by apply (Hd n m' (mkWorker peer ph) w'); auto.
    + by apply (Hd m n w (mkWorker peer ph)); auto.
    + by eapply Hd.
Qed.

Lemma single_worker j n j' : single j → worker_step config j n j' → single j'.
Proof.
  intros Hi Hs.
  assert (∀ peer q ph, q ≠ peer ∨ active ph = true → active ph = false →
    is_Some (pending (state j) !! q) → is_Some (pending (abandon_join peer (state j)) !! q)) as Hgive.
  { intros peer q ph [Hq|Hq] Hf; [|congruence]. simpl. by rewrite lookup_delete_ne. }
  destruct Hs as [j n p a d Hn|j n p a d Hn|j n p a d Hn|j n p a d Hn|j n p a d Hn
      |j n p a d Hn|j n p a d Hn|j n p Hn].
  - eapply single_move; eauto.
  - eapply single_move; eauto.
  - eapply single_move; eauto. intros q Hq. by apply (Hgive p q Returning).
  - eapply single_move; eauto. intros q _ Hq. unfold note_attempt. case_decide; [|done]. simpl.
    rewrite lookup_insert_is_Some. destruct (decide (p = q)); auto.
  - eapply single_move; eauto.
  - eapply single_move; eauto.
  - eapply single_move; eauto.
  - destruct Hi as [Hp Hd]. split; simpl.
    + intros m w [[<- <-]|[Hne Hw]]%lookup_insert_Some Ha; [done|by eapply Hp].
    + intros m m' w w' [[<- <-]|[Hne Hw]]%lookup_insert_Some [[<- <-]|[Hne' Hw']]%lookup_insert_Some
        Ha Ha' He; try done. by eapply Hd.
Qed.

Lemma single_loop j j' : inv j → single j → loop_step config j j' → single j'.
Proof.
  intros Hi Hs Hl. destruct Hl as [j peers Hpc|j peer rest left Hpc Hl|j peer rest Hpc Hl
    |j Hpc|j peer st left Hpc Hl Hq|j Hpc Hd|j n w Hpc Hn Hw|j Hpc].
  - destruct (admissible _ _ _); [done|]. by destruct Hs.
  - destruct (inv_rest _ Hi _ Hpc) as [_ Hin]. apply single_spawn; [done..|].
    apply Hin. left.
  - destruct Hs as [Hp Hd]. split; simpl; [|done]. intros n w Hn Ha. specialize (Hp n w Hn Ha).
    unfold queue_peer. case_decide; [done|]. by case_decide.
  - by destruct Hs.
  - destruct (pop_queued_Some _ _ _ (inv_state _ Hi) Hq) as (_ & _ & Hpd & _).
    apply single_spawn; [done|by rewrite Hpd|]. apply (si_disjoint _ (inv_state _ Hi)).
    unfold pop_queued in Hq. destruct (queued (state j)); [done|]. injection Hq as <- _. left.
  - by destruct Hs.
  - destruct Hs as [Hp Hd]. split; simpl.
    + intros m w' [_ Hm]%lookup_delete_Some. by eapply Hp.
    + intros m m' w1 w2 [_ Hm]%lookup_delete_Some [_ Hm']%lookup_delete_Some. by eapply Hd.
  - split; simpl; [by intros n w ?%lookup_empty_Some|by intros n m w w' ?%lookup_empty_Some].
Qed.

(** As long as no peer comes up as a neighbour, at most one worker is joining or retrying
    a given peer, and that peer is pending. *)
Theorem one_join_per_peer j n m w w' :
  rtc calm_step (start config me) j →
  workers j !! n = Some w → workers j !! m = Some w' →
  active (w_phase w) = true → active (w_phase w') = true →
  is_Some (pending (state j) !! w_peer w) ∧ (w_peer w = w_peer w' → n = m).
Proof.
  intros Hr. enough (inv j ∧ single j) as [_ [Hp Hd]].
  { intros Hn Hm Ha Ha'. split; [by apply (Hp n)|by apply (Hd n m w w')]. }
  assert (inv (start config me) ∧ single (start config me)) as H0.
  { split; [apply inv_start|]. split; simpl; [by intros k v ?%lookup_empty_Some|].
    by intros k k' v v' ?%lookup_empty_Some. }
  revert H0 Hr. generalize (start config me). intros j0 H0 Hr.
  induction Hr as [|j1 j2 j3 Hs _ IH]; [done|]. apply IH. destruct H0 as [Hi Hsg].
  split; [eapply joiner_inv_step; eauto using calm_joiner|].
  destruct Hs as [j1 p j2 Hs|j1 j2 Hs|j1 k j2 Hs|j1];
    [inversion Hs; subst; by destruct Hsg|by eapply single_loop|by eapply single_worker
    |by destruct Hsg].
Qed.

(** From a waiting loop with a free slot, a batch of one new peer leads back to the waiting
    loop with a worker that is joining the peer. *)
Lemma batch_joins j peer left :
  pc j = Selecting → permits j = S left → cancelled j = false → queued (state j) = [] →
  queued_set (state j) = ∅ → local (state j) ≠ peer → (peer ∉ known (state j)) →
  pending (state j) !! peer = None →
  rtc (joiner_step config) j
    (mkJoiner (start_pending peer (state j)) left
       (<[next_worker j := mkWorker peer (Joining 0 (initial_retry_delay config))]> (workers j))
       (next_worker j + 1) Selecting false).
Proof.
  intros Hpc Hl Hc Hq Hqs Hloc Hk Hp.
  assert (admissible (max_batch config) [peer] (state j) = [peer]) as Ha.
  { unfold admissible, max_batch. destruct (Nat.max _ 1) as [|b] eqn:Hb; [lia|]. simpl.
    rewrite take_nil. cbn [admissible_from].
    case_decide; [set_solver|]. case_decide; [by subst|]. case_decide; [done|].
    case_decide as H4; [rewrite Hp in H4; by destruct H4|].
    case_decide as H5; [rewrite Hqs in H5; set_solver|done]. }
  eapply rtc_l; [apply step_loop, (loop_batch config j [peer]); done|]. rewrite Ha.
  eapply rtc_l; [apply step_loop; by eapply loop_admit_spawn|].
  eapply rtc_l; [apply step_loop; by eapply loop_admitted|].
  eapply rtc_l; [apply step_loop; eapply loop_drained; [done|]|].
  { right. unfold pop_queued. simpl. by rewrite Hq. }
  eapply rtc_l.
  { eapply (step_worker _ _ (next_worker j)), w_check; [apply lookup_insert_eq|done]. }
  unfold worker_to, with_pc, spawn. simpl. rewrite insert_insert_eq, Hc. apply rtc_refl.
Qed.

(** Two joins of one peer may be under way at once: when the peer comes up and goes down
    as a neighbour while its worker waits for the join, a new batch with the peer starts a
    second worker. *)
Theorem two_joins_of_one_peer peer :
  peer ≠ me → 2 ≤ max_concurrent_joins config →
  ∃ j, reachable config me j ∧ ∃ n m a a' d d', n ≠ m ∧
    workers j !! n = Some (mkWorker peer (Joining a d)) ∧
    workers j !! m = Some (mkWorker peer (Joining a' d')).
Proof.
  intros Hne Hc. destruct (max_concurrent config) as [|[|k]] eqn:Hk;
    [unfold max_concurrent in Hk; lia..|].
  pose proof (batch_joins (start config me) peer (S k)) as H1. simpl in H1.
  set (j1 := mkJoiner _ (S k) _ _ _ _) in H1.
  set (j2 := with_state (handle_neighbor_event (Up peer) (state j1)) j1).
  set (j3 := with_state (handle_neighbor_event (Down peer) (state j2)) j2).
  pose proof (batch_joins j3 peer k) as H2.
  set (j4 := mkJoiner _ k _ _ _ _) in H2.
  exists j4. split.
  - unfold reachable. etransitivity; [apply H1; try done; set_solver|].
    eapply rtc_l; [by eapply (step_event _ _ (Up peer)), loop_event|]. fold j2.
    eapply rtc_l; [by eapply (step_event _ _ (Down peer)), loop_event|]. fold j3.
    apply H2; try done; simpl; [set_solver|set_solver|]. apply lookup_delete_eq.
  - exists 0%N, 1%N, 0%N, 0%N, (initial_retry_delay config), (initial_retry_delay config).
    split; [done|]. unfold j4, j3, j2, j1. simpl. split; [|by rewrite lookup_insert_eq].
    by rewrite lookup_insert_ne, lookup_insert_eq.
Qed.

End facts.

(** ** Witnesses: one slot, two candidates *)

Definition one_slot : DynamicPeerJoinerConfig := mkConfig 64 1 64 3 1000 60000.

Definition sample_1 : Joiner N := with_pc (Admitting [1; 2]%N) (start one_slot 0%N).
Definition sample_2 : Joiner N := spawn one_slot 1%N (state sample_1) 0 (Admitting [2]%N) sample_1.
Definition sample_3 : Joiner N :=
  with_pc (Admitting []) (with_state (queue_peer (max_queue one_slot) 2%N (state sample_2)) sample_2).
Definition sample_4 : Joiner N := with_pc Draining sample_3.
Definition sample_5 : Joiner N := with_pc Selecting sample_4.

Lemma sample_calm : rtc (calm_step one_slot) (start one_slot 0%N) sample_5.
Proof.
  eapply rtc_l; [by apply calm_loop, (loop_batch one_slot (start one_slot 0%N) [1; 2; 1; 0]%N)|].
  assert (admissible (max_batch one_slot) [1; 2; 1; 0]%N (state (start one_slot 0%N)) = [1; 2]%N) as ->
    by (vm_compute; reflexivity).
  fold sample_1.
  eapply rtc_l; [by apply calm_loop, (loop_admit_spawn one_slot sample_1 1%N [2]%N 0)|].
  eapply rtc_l; [by apply calm_loop, (loop_admit_queue one_slot sample_2 2%N [])|].
  eapply rtc_l; [by apply calm_loop, (loop_admitted one_slot sample_3)|].
  eapply rtc_l; [apply calm_loop, (loop_drained one_slot sample_4); [done|by left]|].
  apply rtc_refl.
Qed.

Lemma sample_5_reachable : reachable one_slot 0%N sample_5.
Proof.
  unfold reachable. eapply rtc_subrel; [|exact sample_calm]. intros j j'. apply calm_joiner.
Qed.

Lemma joiner_bounded_witness : length (queued (state sample_5)) = 1 ∧ NoDup (queued (state sample_5)).
Proof.
  destruct (joiner_bounded one_slot 0%N sample_5 sample_5_reachable) as (_ & (Hnd & _) & _).
  split; [vm_compute; reflexivity|exact Hnd].
Defined.

Lemma queued_not_stranded_witness :
  ∃ n w, workers sample_5 !! n = Some w ∧
    (w_phase w = Completed ∨ (permits sample_5 = 0 ∧ ∃ j', worker_step one_slot sample_5 n j')).
Proof.
  apply (queued_not_stranded one_slot 0%N sample_5 sample_5_reachable); [done|].
  vm_compute. discriminate.
Defined.

Lemma worker_ends_witness : (rank_of one_slot sample_5 0 ≤ 13)%N.
Proof. apply (worker_ends one_slot 0%N sample_5 sample_5_reachable). Defined.

Lemma one_join_per_peer_witness : is_Some (pending (state sample_5) !! 1%N).
Proof.
  apply (one_join_per_peer one_slot 0%N sample_5 0%N 0%N (mkWorker 1%N (Checking 0 1000))
    (mkWorker 1%N (Checking 0 1000)) sample_calm); vm_compute; reflexivity.
Defined.

Lemma two_joins_of_one_peer_witness :
  ∃ j, reachable config_default 0%N j ∧ ∃ n m a a' d d', n ≠ m ∧
    workers j !! n = Some (mkWorker 7%N (Joining a d)) ∧
    workers j !! m = Some (mkWorker 7%N (Joining a' d')).
Proof. apply (two_joins_of_one_peer config_default 0%N 7%N); [discriminate|simpl; lia]. Defined.
