(* ===== verification/Discovery.v ===== *)
(** * Discovery records and their validation: [src/discovery_record.rs],
      [src/discovery_validation.rs]

    [Module discovery_record] holds the payload of a record and its construction, [Module
    discovery_validation] the validation of what a lookup returns.  The signed [Record] and
    its codec belong to the crate distributed_topic_tracker, identities to iroh; they are the
    interface [Tracker].  The texts of errors and the conversion of the counters for
    diagnostics are left out. *)

From Stdlib Require Import NArith.
From stdpp Require Import prelude gmap.
From S2P Require Import Prelude Text ProtoUtil.

Module discovery_record.

Definition DISCOVERY_RECORD_CONTENT_VERSION : N := 2.
Definition DISCOVERY_RECORD_MAX_PAYLOAD_SIZE : N := 1024.

Record DiscoveryRecordPayload : Type := mkPayload {
  endpoint_id : Bytes;
  version : N;
  room_name : option Text;
  ticket : option Text
}.

(** [DiscoveryRecordPayload::new] *)
Definition new (eid : Bytes) (room : option Text) (tick : option Text) : DiscoveryRecordPayload :=
  mkPayload eid DISCOVERY_RECORD_CONTENT_VERSION room tick.

(** The signed record: [size] is the length of [to_bytes], [verify] checks the signature for
    a topic and a minute, [valid_key] says whether bytes are an [EndpointId].  A record that
    was signed carries what was signed, and a signature only verifies for a key. *)
Class Tracker : Type := {
  Record_ : Type;
  SigningKey : Type;
  public_key : SigningKey → Bytes;
  size : Record_ → N;
  unix_minute : Record_ → N;
  content : Record_ → option DiscoveryRecordPayload;
  pub_key : Record_ → Bytes;
  verify : Bytes → N → Record_ → bool;
  valid_key : Bytes → bool;
  record_sign : Bytes → N → DiscoveryRecordPayload → SigningKey → option Record_;
  record_sign_content topic minute p sk r :
    record_sign topic minute p sk = Some r →
    content r = Some p ∧ unix_minute r = minute ∧ pub_key r = public_key sk ∧
    verify topic minute r = true;
  verify_valid_key topic minute r : verify topic minute r = true → valid_key (pub_key r) = true
}.

Section record.
Context `{!Tracker}.

Definition create_discovery_record (topic : Bytes) (minute : N) (eid : Bytes) (sk : SigningKey)
    (room tick : option Text) : option Record_ :=
  record_sign topic minute (new eid room tick) sk.

Definition decode_discovery_record (r : Record_) : option Bytes := endpoint_id <$> content r.

End record.
End discovery_record.

Module discovery_validation.
Import discovery_record.

Definition DEFAULT_MAX_RECORD_AGE_MINUTES : N := 10.
Definition DEFAULT_MAX_CLOCK_SKEW_MINUTES : N := 2.
Definition DEFAULT_MAX_RECORD_SIZE : N := 256.
Definition DEFAULT_MAX_RECORDS_PER_LOOKUP : nat := 20.
Definition DEFAULT_MAX_CANDIDATE_PEERS : nat := 20.
Definition HARD_MAX_RECORDS_PER_LOOKUP : nat := 20.
Definition HARD_MAX_CANDIDATE_PEERS : nat := 20.
Definition HARD_MAX_RECORD_SIZE : N := 256.

Inductive RejectionReason : Type :=
| Oversized (sz max : N)
| Stale (age_minutes max_age : N)
| FutureRecord (skew_minutes max_skew : N)
| DecodeFailure
| IdentityMismatch
| InvalidSignature
| SelfFiltered
| Duplicate.

Record ValidationCounters : Type := mkCounters {
  total : nat;
  oversized : nat;
  stale : nat;
  future : nat;
  decode_failure : nat;
  identity_mismatch : nat;
  invalid_signature : nat;
  self_filtered : nat;
  duplicates : nat;
  accepted : nat
}.

Definition counters_default : ValidationCounters := mkCounters 0 0 0 0 0 0 0 0 0 0.

Implicit Types (k : ValidationCounters).

Definition all_rejected k : bool := bool_decide (accepted k = 0) && bool_decide (0 < total k).

Definition total_rejected k : nat :=
  oversized k + stale k + future k + decode_failure k + identity_mismatch k
  + invalid_signature k + self_filtered k + duplicates k.

Definition count_examined k : ValidationCounters :=
  mkCounters (S (total k)) (oversized k) (stale k) (future k) (decode_failure k)
    (identity_mismatch k) (invalid_signature k) (self_filtered k) (duplicates k) (accepted k).

Definition count_accepted k : ValidationCounters :=
  mkCounters (total k) (oversized k) (stale k) (future k) (decode_failure k)
    (identity_mismatch k) (invalid_signature k) (self_filtered k) (duplicates k) (S (accepted k)).

Definition count_rejected (r : RejectionReason) k : ValidationCounters :=
  match r with
  | Oversized _ _ =>
      mkCounters (total k) (S (oversized k)) (stale k) (future k) (decode_failure k)
        (identity_mismatch k) (invalid_signature k) (self_filtered k) (duplicates k) (accepted k)
  | Stale _ _ =>
      mkCounters (total k) (oversized k) (S (stale k)) (future k) (decode_failure k)
        (identity_mismatch k) (invalid_signature k) (self_filtered k) (duplicates k) (accepted k)
  | FutureRecord _ _ =>
      mkCounters (total k) (oversized k) (stale k) (S (future k)) (decode_failure k)
        (identity_mismatch k) (invalid_signature k) (self_filtered k) (duplicates k) (accepted k)
  | DecodeFailure =>
      mkCounters (total k) (oversized k) (stale k) (future k) (S (decode_failure k))
        (identity_mismatch k) (invalid_signature k) (self_filtered k) (duplicates k) (accepted k)
  | IdentityMismatch =>
      mkCounters (total k) (oversized k) (stale k) (future k) (decode_failure k)
        (S (identity_mismatch k)) (invalid_signature k) (self_filtered k) (duplicates k) (accepted k)
  | InvalidSignature =>
      mkCounters (total k) (oversized k) (stale k) (future k) (decode_failure k)
        (identity_mismatch k) (S (invalid_signature k)) (self_filtered k) (duplicates k) (accepted k)
  | SelfFiltered =>
      mkCounters (total k) (oversized k) (stale k) (future k) (decode_failure k)
        (identity_mismatch k) (invalid_signature k) (S (self_filtered k)) (duplicates k) (accepted k)
  | Duplicate =>
      mkCounters (total k) (oversized k) (stale k) (future k) (decode_failure k)
        (identity_mismatch k) (invalid_signature k) (self_filtered k) (S (duplicates k)) (accepted k)
  end.

Record PeerCandidates : Type := mkCandidates {
  peers : list Bytes;
  counters : ValidationCounters
}.

Record ValidationConfig : Type := mkConfig {
  topic : Bytes;
  max_record_age_minutes : N;
  max_clock_skew_minutes : N;
  max_record_size : N;
  max_records_per_lookup : nat;
  max_candidate_peers : nat
}.

(** [ValidationConfig::new] *)
Definition config_new (t : Bytes) : ValidationConfig :=
  mkConfig t DEFAULT_MAX_RECORD_AGE_MINUTES DEFAULT_MAX_CLOCK_SKEW_MINUTES
    DEFAULT_MAX_RECORD_SIZE DEFAULT_MAX_RECORDS_PER_LOOKUP DEFAULT_MAX_CANDIDATE_PEERS.

Record DiscoveryRecordValidator : Type := mkValidator {
  config : ValidationConfig;
  now_minute : N
}.

(** [DiscoveryRecordValidator::new] *)
Definition validator_new (c : ValidationConfig) (now : N) : DiscoveryRecordValidator :=
  mkValidator
    (mkConfig (topic c) (max_record_age_minutes c) (max_clock_skew_minutes c)
       (N.min (max_record_size c) HARD_MAX_RECORD_SIZE)
       (Nat.min (max_records_per_lookup c) HARD_MAX_RECORDS_PER_LOOKUP)
       (Nat.min (max_candidate_peers c) HARD_MAX_CANDIDATE_PEERS)) now.

(** ** Random order *)

(** [peers.swap(i, j)] *)
Definition swap {A} (i j : nat) (l : list A) : list A :=
  match l !! i, l !! j with
  | Some x, Some y => <[j := x]> (<[i := y]> l)
  | _, _ => l
  end.

Section randomise.
Context {R : Type} `{!Rng R} {A : Type}.

(** [for i in from..from + steps]: one element drawn for each of the first places. *)
Fixpoint partial_shuffle (steps from : nat) (l : list A) (rng : R) : list A * R :=
  match steps with
  | 0 => (l, rng)
  | S steps' =>
      let '(d, rng) := random_range (length l - from) rng in
      partial_shuffle steps' (S from) (swap from (from + d) l) rng
  end.

Definition randomise_and_cap (l : list A) (cap : nat) (rng : R) : list A * R :=
  match l with
  | [] => ([], rng)
  | _ :: _ =>
      if decide (length l ≤ cap) then shuffle l rng
      else let '(l', rng) := partial_shuffle cap 0 l rng in (take cap l', rng)
  end.

End randomise.

(** ** Validation *)

Section validate.
Context `{!Tracker}.
Implicit Types (v : DiscoveryRecordValidator) (r : Record_).

(** The timestamp check of [validate_single] *)
Definition check_minute v (m : N) : res RejectionReason unit :=
  let c := config v in
  if decide (now_minute v < m)%N then
    let skew := (m - now_minute v)%N in
    if decide (max_clock_skew_minutes c < skew)%N
    then Err (FutureRecord skew (max_clock_skew_minutes c)) else Ok tt
  else
    let age := (now_minute v - m)%N in
    if decide (max_record_age_minutes c < age)%N
    then Err (Stale age (max_record_age_minutes c)) else Ok tt.

Definition validate_single v r : res RejectionReason Bytes :=
  let c := config v in
  if decide (max_record_size c < size r)%N then Err (Oversized (size r) (max_record_size c))
  else
    check_minute v (unix_minute r);;
    payload ← ok_or DecodeFailure (content r);
    if decide (version payload ≠ DISCOVERY_RECORD_CONTENT_VERSION) then Err DecodeFailure
    else if decide (pub_key r ≠ endpoint_id payload) then Err IdentityMismatch
    else if verify (topic c) (unix_minute r) r then Ok (endpoint_id payload) else Err InvalidSignature.

(** The loop of [filter_and_build] over the records taken. *)
Fixpoint filter_loop v (local_key : option Bytes) (records : list Record_) k (seen : gset Bytes)
    (candidates : list Bytes) : outcome PeerCandidates :=
  match records with
  | [] => Done (mkCandidates candidates k)
  | r :: records' =>
      let k := count_examined k in
      match validate_single v r with
      | Err reason => filter_loop v local_key records' (count_rejected reason k) seen candidates
      | Panicked => Panic
      | Ok eid =>
          if decide (local_key = Some eid) then
            filter_loop v local_key records' (count_rejected SelfFiltered k) seen candidates
          else if decide (eid ∈ seen) then
            filter_loop v local_key records' (count_rejected Duplicate k) seen candidates
          else if decide (max_candidate_peers (config v) ≤ length candidates) then
            Done (mkCandidates candidates k)
          else if valid_key eid then
            filter_loop v local_key records' (count_accepted k) ({[eid]} ∪ seen) (candidates ++ [eid])
          else Panic
      end
  end.

Definition filter_and_build v (records : list Record_) (local_key : option Bytes)
    : outcome PeerCandidates :=
  filter_loop v local_key (take (max_records_per_lookup (config v)) records) counters_default ∅ [].

End validate.
End discovery_validation.
