(* ===== verification/DiscoveryFacts.v ===== *)
(** * Correctness of the validation of discovery records

    A lookup yields exactly the first valid peers, each once, none the node itself and
    boundedly many, and every one of them signed a fresh record for the topic; the random
    order neither adds nor repeats a peer; and a record the node's peers publish is accepted
    while it is fresh. *)

From Stdlib Require Import NArith.
From stdpp Require Import prelude gmap.
From S2P Require Import Prelude Text ProtoUtil Concrete Discovery.
Import discovery_record discovery_validation.

Section validate.
Context `{!Tracker}.
Implicit Types (v : DiscoveryRecordValidator) (r : Record_) (k : ValidationCounters)
  (c : ValidationConfig) (eid : Bytes).

(** What makes a record acceptable. *)
Definition acceptable v eid r : Prop :=
  (size r ≤ max_record_size (config v))%N ∧
  (unix_minute r ≤ now_minute v + max_clock_skew_minutes (config v))%N ∧
  (now_minute v ≤ unix_minute r + max_record_age_minutes (config v))%N ∧
  (∃ p, content r = Some p ∧ version p = DISCOVERY_RECORD_CONTENT_VERSION ∧
        endpoint_id p = eid) ∧
  pub_key r = eid ∧ verify (topic (config v)) (unix_minute r) r = true.

Lemma check_minute_Ok v m :
  check_minute v m = Ok tt ↔
  (m ≤ now_minute v + max_clock_skew_minutes (config v))%N ∧
  (now_minute v ≤ m + max_record_age_minutes (config v))%N.
Proof. unfold check_minute. repeat case_decide; (split; [intros|]; done || lia). Qed.

Lemma validate_single_Ok v r eid : validate_single v r = Ok eid ↔ acceptable v eid r.
Proof.
  unfold validate_single, acceptable. split.
  - case_decide as Hs; [done|]. intros Hv. apply bind_Ok in Hv as ([] & Ht%check_minute_Ok & Hv).
    apply bind_Ok in Hv as (p & Hp%ok_or_Ok & Hv). repeat case_decide; try done.
    destruct (verify _ _ _) eqn:Hver; [|done]. injection Hv as <-.
    split_and!; try done; [lia..|]. by exists p.
  - intros (Hs & Hf & Ha & (p & Hp & Hver & <-) & Hk & Hsig).
    rewrite decide_False by lia.
    rewrite (proj2 (check_minute_Ok v (unix_minute r))) by done. rewrite Hp. simpl.
    rewrite !decide_False by tauto. by rewrite Hsig.
Qed.

Lemma validate_single_settled v r : settled (validate_single v r).
Proof.
  unfold validate_single, check_minute. case_decide; [done|]. apply settled_bind.
  - repeat case_decide; done.
  - intros _. apply settled_bind; [apply settled_ok_or|]. intros p.
    repeat case_decide; try done. by destruct (verify _ _ _).
Qed.

Definition accepted_id v r : option Bytes :=
  match validate_single v r with
  | Ok eid => Some eid
  | _ => None
  end.

(** The ids of the acceptable records of other nodes, in order. *)
Definition valid_ids v (local_key : option Bytes) (rs : list Record_) : list Bytes :=
  filter (λ eid, local_key ≠ Some eid) (omap (accepted_id v) rs).

Lemma valid_ids_cons v loc r rs :
  valid_ids v loc (r :: rs) =
  match accepted_id v r with
  | Some eid => if decide (loc = Some eid) then valid_ids v loc rs else eid :: valid_ids v loc rs
  | None => valid_ids v loc rs
  end.
Proof.
  unfold valid_ids. simpl. destruct (accepted_id v r) as [eid|]; [|done].
  rewrite filter_cons. repeat case_decide; done || tauto.
Qed.

(** Counters add up. *)
Definition balanced k (n : nat) : Prop := accepted k = n ∧ total k = accepted k + total_rejected k.

Lemma balanced_rejected k n reason :
  balanced k n → balanced (count_rejected reason (count_examined k)) n.
Proof. unfold balanced, total_rejected. destruct reason; simpl; lia. Qed.

Lemma balanced_accepted k n : balanced k n → balanced (count_accepted (count_examined k)) (S n).
Proof. unfold balanced, total_rejected. simpl. lia. Qed.

Lemma filter_loop_exact v loc rs k seen cands :
  seen = list_to_set cands → length cands ≤ max_candidate_peers (config v) →
  balanced k (length cands) →
  ∃ out, filter_loop v loc rs k seen cands = Done out ∧
    peers out = cands ++ take (max_candidate_peers (config v) - length cands)
                  (filter (λ e, e ∉ cands) (first_occurrences (valid_ids v loc rs))) ∧
    accepted (counters out) = length (peers out) ∧
    total (counters out) ≤ total k + length rs ∧
    (total (counters out) = accepted (counters out) + total_rejected (counters out) ∨
     (total (counters out) = S (accepted (counters out) + total_rejected (counters out)) ∧
      length (peers out) = max_candidate_peers (config v))).
Proof.
  intros -> Hl Hb. revert k cands Hl Hb.
  induction rs as [|r rs IH]; intros k cands Hl Hb; cbn [filter_loop].
  { exists (mkCandidates cands k). destruct Hb as [Ha Ht]. simpl. split_and!; [done|..|by left].
    - by rewrite filter_nil, take_nil, app_nil_r.
    - done.
    - lia. }
  rewrite valid_ids_cons. unfold accepted_id.
  pose proof (validate_single_settled v r) as Hset.
  assert (∀ reason, ∃ out,
    filter_loop v loc rs (count_rejected reason (count_examined k)) (list_to_set cands) cands = Done out ∧
    peers out = cands ++ take (max_candidate_peers (config v) - length cands)
                  (filter (λ e, e ∉ cands) (first_occurrences (valid_ids v loc rs))) ∧
    accepted (counters out) = length (peers out) ∧
    total (counters out) ≤ total k + length (r :: rs) ∧
    (total (counters out) = accepted (counters out) + total_rejected (counters out) ∨
     (total (counters out) = S (accepted (counters out) + total_rejected (counters out)) ∧
      length (peers out) = max_candidate_peers (config v)))) as Hrej.
  { intros reason. destruct (IH (count_rejected reason (count_examined k)) cands) as (out & ? & ? & ? & Ht & ?);
      [done|by apply balanced_rejected|]. exists out. split_and!; [done..| |done].
    destruct reason; simpl in *; lia. }
  destruct (validate_single v r) as [eid|reason|] eqn:Hv; [|apply Hrej|done].
  case_decide as Hloc; [apply Hrej|].
  destruct (decide (eid ∈ cands)) as [Hin|Hin].
  { rewrite decide_True by by apply elem_of_list_to_set. rewrite first_occurrences_old by done.
    apply Hrej. }
  rewrite decide_False by by rewrite elem_of_list_to_set.
  case_decide as Hfull.
  { exists (mkCandidates cands (count_examined k)). destruct Hb as [Ha Ht]. simpl.
    split_and!; [done| |done|lia|].
    - replace (_ - _) with 0 by lia. by rewrite take_0, app_nil_r.
    - right. unfold total_rejected in *. simpl. lia. }
  apply validate_single_Ok in Hv as (_ & _ & _ & _ & Hk & Hs).
  apply verify_valid_key in Hs. rewrite Hk in Hs. rewrite Hs.
  destruct (IH (count_accepted (count_examined k)) (cands ++ [eid])) as (out & Ho & Hp & Ha & Ht & Hc).
  { rewrite length_app. simpl. lia. }
  { rewrite length_app, Nat.add_1_r. by apply balanced_accepted. }
  replace ({[eid]} ∪ list_to_set cands : gset Bytes) with (list_to_set (cands ++ [eid]) : gset Bytes)
    by set_solver.
  exists out. split_and!; [done| |done|simpl in *; lia|done].
  rewrite Hp, first_occurrences_new, length_app by done. simpl.
  replace (max_candidate_peers (config v) - length cands)
    with (S (max_candidate_peers (config v) - (length cands + 1))) by lia.
  by rewrite <- app_assoc.
Qed.

(** Whatever a lookup returns, validation ends without a panic and yields, of the first
    records up to the bound, the ids of the acceptable ones of other nodes, each once, in
    order, cut at the bound for candidates; so there are at most twenty, none is the node's
    own, and each signed an acceptable record for the topic.  The counters add up, except
    that the record at which the bound is noticed is in no category. *)
Theorem filter_and_build_exact c now rs loc :
  let v := validator_new c now in
  ∃ out, filter_and_build v rs loc = Done out ∧
    peers out = take (Nat.min (max_candidate_peers c) 20)
      (first_occurrences (valid_ids v loc (take (Nat.min (max_records_per_lookup c) 20) rs))) ∧
    (NoDup (peers out) ∧ length (peers out) ≤ 20 ∧
     ∀ eid, eid ∈ peers out → loc ≠ Some eid ∧ ∃ r, r ∈ rs ∧ acceptable v eid r) ∧
    (accepted (counters out) = length (peers out) ∧ total (counters out) ≤ 20 ∧
     accepted (counters out) + total_rejected (counters out) ≤ total (counters out)
       ≤ S (accepted (counters out) + total_rejected (counters out))).
Proof.
  intros v. unfold filter_and_build.
  destruct (filter_loop_exact v loc (take (max_records_per_lookup (config v)) rs)
    counters_default ∅ []) as (out & Ho & Hp & Ha & Ht & Hc); [done|simpl; lia|done|].
  exists out. rewrite filter_all in Hp by (intros; apply not_elem_of_nil). simpl in Hp.
  rewrite Nat.sub_0_r in Hp. split_and!; try done.
  - rewrite Hp. eapply sublist_NoDup; [apply NoDup_first_occurrences|apply sublist_take].
  - rewrite Hp, length_take. unfold HARD_MAX_CANDIDATE_PEERS. lia.
  - intros eid Hin. rewrite Hp in Hin. apply subseteq_take in Hin.
    rewrite elem_of_first_occurrences in Hin. apply list_elem_of_filter in Hin as [Hne (r & Hr & Hid)%list_elem_of_omap]. split; [done|].
    exists r. split; [by eapply subseteq_take|]. apply validate_single_Ok.
    unfold accepted_id in Hid. by destruct (validate_single v r); simplify_eq.
  - rewrite length_take in Ht. simpl in Ht. unfold HARD_MAX_RECORDS_PER_LOOKUP in Ht. lia.
  - lia.
  - lia.
Qed.

(** A record a node publishes about itself, signed with its key, is accepted by every
    validator of the topic while it is fresh and small enough. *)
Theorem own_record_accepted c now minute sk room tick r :
  create_discovery_record (topic c) minute (public_key sk) sk room tick = Some r →
  (size r ≤ N.min (max_record_size c) 256)%N →
  (minute ≤ now + max_clock_skew_minutes c)%N → (now ≤ minute + max_record_age_minutes c)%N →
  validate_single (validator_new c now) r = Ok (public_key sk).
Proof.
  intros Hc Hs Hf Ha. apply record_sign_content in Hc as (Hp & Hm & Hk & Hv).
  apply validate_single_Ok. unfold acceptable. simpl. rewrite Hm. split_and!; [done..| |done|done].
  by eexists.
Qed.

End validate.

(** ** Random order *)

Lemma insert_Permutation {A} (l : list A) i x y :
  l !! i = Some x → <[i := y]> l ≡ₚ y :: delete i l.
Proof.
  intros Hi. assert (<[i := y]> l !! i = Some y) as Hy
    by (apply list_lookup_insert_eq; by eapply lookup_lt_Some).
  rewrite (delete_Permutation _ _ _ Hy). f_equiv.
  rewrite !delete_take_drop, take_insert_ge, drop_insert_lt by lia. done.
Qed.

Lemma swap_Permutation {A} i j (l : list A) : swap i j l ≡ₚ l.
Proof.
  unfold swap. destruct (l !! i) as [x|] eqn:Hi; [|done]. destruct (l !! j) as [y|] eqn:Hj; [|done].
  destruct (decide (i = j)) as [->|Hne].
  { simplify_eq. by rewrite list_insert_insert_eq, list_insert_id. }
  assert (<[i := y]> l !! j = Some y) as Hj' by by rewrite list_lookup_insert_ne.
  rewrite (insert_Permutation _ _ _ x Hj').
  assert (y :: delete j (<[i := y]> l) ≡ₚ y :: delete i l) as Heq%(Permutation_cons_inv).
  { rewrite <- (delete_Permutation _ _ _ Hj'). by eapply insert_Permutation. }
  rewrite Heq. symmetry. by apply delete_Permutation.
Qed.

Section randomise.
Context {R : Type} `{!Rng R} {A : Type}.
Implicit Types (l : list A) (rng : R).

Lemma partial_shuffle_perm steps from l rng : (partial_shuffle steps from l rng).1 ≡ₚ l.
Proof.
  revert from l rng. induction steps as [|n IH]; intros from l rng; simpl; [done|].
  destruct (random_range _ rng) as [d rng']. by rewrite IH, swap_Permutation.
Qed.

(** The random choice is a part of the candidates: together with what it leaves out it is
    a reordering of them, so it adds and repeats nothing, and it has as many elements as the
    cap and the candidates allow. *)
Theorem randomise_and_cap_exact l cap rng :
  ∃ rest, (randomise_and_cap l cap rng).1 ++ rest ≡ₚ l ∧
          length (randomise_and_cap l cap rng).1 = Nat.min cap (length l).
Proof.
  unfold randomise_and_cap. destruct l as [|x l']; [exists []; by rewrite Nat.min_0_r|].
  set (l := x :: l'). case_decide as Hc.
  - exists []. rewrite app_nil_r, shuffle_perm. split; [done|lia].
  - pose proof (partial_shuffle_perm cap 0 l rng) as Hp.
    destruct (partial_shuffle cap 0 l rng) as [l2 rng']. simpl in *.
    exists (drop cap l2). split; [by rewrite take_drop|]. by rewrite length_take, Hp.
Qed.

End randomise.

(** ** Witness: records that name their topic, minute and key *)

Definition toy_tracker : Tracker.
Proof.
  refine {|
    Record_ := Bytes * N * DiscoveryRecordPayload * Bytes;
    SigningKey := Bytes;
    public_key key := key;
    size _ := 171%N;
    unix_minute r := r.1.1.2;
    content r := Some r.1.2;
    pub_key r := r.2;
    verify t m r := bool_decide (r.1.1 = (t, m));
    valid_key _ := true;
    record_sign t m p key := Some (t, m, p, key)
  |}.
  - intros t m p key r [= <-]. split_and!; [done..|]. by apply bool_decide_eq_true.
  - done.
Defined.

Lemma own_record_accepted_witness :
  validate_single (H := toy_tracker) (validator_new (config_new [Byte.x07]) 100)
    (([Byte.x07], 95%N, discovery_record.new [Byte.x2a] None None, [Byte.x2a])
       : Record_ (Tracker := toy_tracker)) = Ok [Byte.x2a].
Proof.
  apply (own_record_accepted (H := toy_tracker) (config_new [Byte.x07]) 100 95
    ([Byte.x2a] : SigningKey (Tracker := toy_tracker)) None None);
    [reflexivity|by vm_compute..].
Defined.
