(* ===== verification/Authorization.v ===== *)
(** * Room roles and moderation events: [src/authorization.rs]

    [Module authorization] translates the authority of a managed room: roles, permissions,
    the signed events that change them, their evaluation and application, the bootstrap
    certificate and persistence.  Serialization, signatures and the hash are the interfaces
    of [Signing], collected in [AuthEnv].  The text of a decoding error is left out. *)

From Stdlib Require Import Strings.Byte NArith.
From stdpp Require Import prelude gmap strings.
From S2P Require Import Prelude Signing.

Module authorization.
Import protocol_signing.

Abbreviation TopicId := Bytes.

Definition AUTHORIZATION_VERSION : N := 1.
Definition EVENT_ID_LEN : nat := 32.
Definition SIGNING_DOMAIN : string := "boru/room-authorization".
Definition BOOTSTRAP_DOMAIN : string := "boru/room-authorization-bootstrap".

(** ** Roles and permissions *)

Inductive Role : Type := Guest | Member | Moderator | Owner.

Inductive Permission : Type :=
| SendMessages | PinMessages | ScreenShare | ManageRoom | Invite | Kick | Ban | ManageRoles.

#[export] Instance role_eq_dec : EqDecision Role.
Proof. solve_decision. Defined.

#[export] Instance permission_eq_dec : EqDecision Permission.
Proof. solve_decision. Defined.

#[export] Instance permission_countable : Countable Permission.
Proof.
  refine {| encode p := match p with
                        | SendMessages => 1 | PinMessages => 2 | ScreenShare => 3
                        | ManageRoom => 4 | Invite => 5 | Kick => 6 | Ban => 7
                        | ManageRoles => 8
                        end%positive;
            decode n := match n with
                        | 1 => Some SendMessages | 2 => Some PinMessages
                        | 3 => Some ScreenShare | 4 => Some ManageRoom | 5 => Some Invite
                        | 6 => Some Kick | 7 => Some Ban | 8 => Some ManageRoles
                        | _ => None
                        end%positive |}.
  by intros [].
Defined.

Definition default_permissions (r : Role) : list Permission :=
  match r with
  | Owner => [SendMessages; PinMessages; ScreenShare; ManageRoom; Invite; Kick; Ban; ManageRoles]
  | Moderator => [SendMessages; PinMessages; ScreenShare; Invite; Kick; Ban]
  | Member => [SendMessages; PinMessages; ScreenShare]
  | Guest => [SendMessages]
  end.

Definition permissions_of (r : Role) : gset Permission := list_to_set (default_permissions r).

Definition authority (r : Role) : N :=
  match r with
  | Guest => 0
  | Member => 1
  | Moderator => 2
  | Owner => 3
  end.

(** ** Events and state *)

Inductive AuthorizationAction : Type :=
| AGrant (permission : Permission)
| ARevoke (permission : Permission)
| AChangeRole (role : Role)
| ABan
| AUnban
| AAdmit (role : Role).

#[export] Instance action_eq_dec : EqDecision AuthorizationAction.
Proof. solve_decision. Defined.

Record AuthorizationEvent : Type := mkEvent {
  version : N;
  e_group_id : TopicId;
  event_id : Bytes;
  sequence : N;
  actor : PublicKey;
  target : PublicKey;
  action : AuthorizationAction;
  signature : Bytes
}.

Inductive AuthorizationError : Type :=
| UnsupportedVersion (v : N)
| WrongGroup
| InvalidSignature
| EventIdMismatch
| Replay
| OutOfOrder (expected_after actual : N)
| UnknownActor
| UnknownTarget
| Banned
| PermissionDenied
| OwnerSafety
| InvalidTransition
| Decode.

Record AuthorizationState : Type := mkState {
  group_id : TopicId;
  owner : PublicKey;
  members : gmap PublicKey Role;
  permissions : gmap PublicKey (gset Permission);
  banned : gset PublicKey;
  last_sequence : N;
  applied_events : gset Bytes
}.

Record StoredAuthorizationState : Type := mkStored {
  st_version : N;
  st_state : AuthorizationState
}.

Record AuthorizationBootstrap : Type := mkBootstrap {
  b_version : N;
  b_group_id : TopicId;
  b_owner : PublicKey;
  b_signature : Bytes
}.

Class AuthEnv : Type := {
  auth_ed25519 :: Ed25519;
  auth_hasher :: Hasher;
  auth_event_postcard ::
    Postcard (string * N * (TopicId * Bytes * N * PublicKey * PublicKey * AuthorizationAction));
  auth_bootstrap_postcard :: Postcard (string * N * (N * TopicId * PublicKey));
  auth_state_postcard :: Postcard StoredAuthorizationState
}.

Implicit Types (s : AuthorizationState) (e : AuthorizationEvent) (peer : PublicKey).

(** ** Queries *)

Definition role_of s peer : option Role := members s !! peer.

Definition is_banned s peer : bool := bool_decide (peer ∈ banned s).

Definition has_applied_event s (x : Bytes) : bool := bool_decide (x ∈ applied_events s).

Definition allows s peer (p : Permission) : bool :=
  bool_decide (is_Some (members s !! peer))
  && negb (is_banned s peer)
  && match permissions s !! peer with
     | Some ps => bool_decide (p ∈ ps)
     | None => false
     end.

Definition new (gid : TopicId) (o : PublicKey) : AuthorizationState :=
  mkState gid o {[o := Owner]} {[o := permissions_of Owner]} ∅ 0 ∅.

Definition owner_count s : nat := size (filter (λ kv, kv.2 = Owner) (members s)).

Definition keys_match s : bool :=
  bool_decide (dom (members s) ⊆ dom (permissions s))
  && bool_decide (dom (permissions s) ⊆ dom (members s)).

Definition validate s : res AuthorizationError unit :=
  if bool_decide (members s !! owner s ≠ Some Owner)
     || bool_decide (owner_count s ≠ 1)
     || is_banned s (owner s)
     || negb (keys_match s)
  then Err InvalidTransition
  else Ok tt.

(** Field updates. *)
Definition set_members (m : gmap PublicKey Role) s : AuthorizationState :=
  mkState (group_id s) (owner s) m (permissions s) (banned s) (last_sequence s)
    (applied_events s).
Definition set_permissions (p : gmap PublicKey (gset Permission)) s : AuthorizationState :=
  mkState (group_id s) (owner s) (members s) p (banned s) (last_sequence s)
    (applied_events s).
Definition set_banned (b : gset PublicKey) s : AuthorizationState :=
  mkState (group_id s) (owner s) (members s) (permissions s) b (last_sequence s)
    (applied_events s).
Definition set_applied (n : N) (x : Bytes) s : AuthorizationState :=
  mkState (group_id s) (owner s) (members s) (permissions s) (banned s) n
    ({[x]} ∪ applied_events s).

(** [members.insert(peer, role)] with the default permissions of the role. *)
Definition put_role peer (r : Role) s : AuthorizationState :=
  set_permissions (<[peer := permissions_of r]> (permissions s))
    (set_members (<[peer := r]> (members s)) s).

(** The new state, or the error and the unchanged state. *)
Definition admit_member peer (r : Role) s : res AuthorizationError unit * AuthorizationState :=
  if is_banned s peer || bool_decide (is_Some (members s !! peer)) || bool_decide (r = Owner)
  then (Err InvalidTransition, s)
  else (Ok tt, put_role peer r s).

Section authorization.
Context `{!AuthEnv}.

(** ** Signed events *)

Definition signing_bytes (v : N) (gid : TopicId) (eid : Bytes) (seq : N)
    (act tgt : PublicKey) (a : AuthorizationAction) : res AuthorizationError Bytes :=
  ok_or Decode (canonical_signed_bytes SIGNING_DOMAIN v (gid, eid, seq, act, tgt, a)).

Definition derive_id (gid : TopicId) (seq : N) (act tgt : PublicKey)
    (a : AuthorizationAction) : res AuthorizationError Bytes :=
  bytes ← signing_bytes AUTHORIZATION_VERSION gid (replicate EVENT_ID_LEN x00) seq act tgt a;
  mret (blake3 bytes).

Definition sign_event (secret : SecretKey) (gid : TopicId) (seq : N) (tgt : PublicKey)
    (a : AuthorizationAction) : res AuthorizationError AuthorizationEvent :=
  let act := public secret in
  eid ← derive_id gid seq act tgt a;
  unsigned ← signing_bytes AUTHORIZATION_VERSION gid eid seq act tgt a;
  mret (mkEvent AUTHORIZATION_VERSION gid eid seq act tgt a (sign secret unsigned)).

(** [last_sequence.saturating_add(1)] *)
Definition next_sequence s : N := N.min (last_sequence s + 1) u64_max.

Definition verify_event e s : res AuthorizationError unit :=
  ensure (bool_decide (version e = AUTHORIZATION_VERSION)) (UnsupportedVersion (version e));;
  ensure (bool_decide (e_group_id e = group_id s)) WrongGroup;;
  ensure (negb (has_applied_event s (event_id e))) Replay;;
  ensure (bool_decide (sequence e = next_sequence s))
    (OutOfOrder (last_sequence s) (sequence e));;
  expected ← derive_id (e_group_id e) (sequence e) (actor e) (target e) (action e);
  ensure (bool_decide (event_id e = expected)) EventIdMismatch;;
  bytes ← signing_bytes (version e) (e_group_id e) (event_id e) (sequence e) (actor e)
            (target e) (action e);
  ensure (key_verify (actor e) bytes (signature e)) InvalidSignature.

(** ** Policy *)

(** Whether a moderator may grant or revoke the permission. *)
Definition moderator_grants (p : Permission) : bool :=
  match p with
  | PinMessages | Invite | Kick | Ban => true
  | _ => false
  end.

Definition manages_target s e (actor_role : Role) : bool :=
  match role_of s (target e) with
  | Some r => bool_decide (target e ≠ owner s)
              && bool_decide (authority r < authority actor_role)%N
  | None => false
  end.

Definition allowed s e (actor_role : Role) : bool :=
  match action e with
  | AGrant p | ARevoke p =>
      manages_target s e actor_role
      && match actor_role with
         | Owner => true
         | Moderator => moderator_grants p
         | Guest | Member => false
         end
  | AChangeRole r =>
      bool_decide (actor_role = Owner) && bool_decide (r ≠ Owner)
      && manages_target s e actor_role
  | ABan =>
      manages_target s e actor_role
      && (bool_decide (actor_role = Owner) || bool_decide (actor_role = Moderator))
  | AUnban =>
      manages_target s e actor_role
      && (bool_decide (actor_role = Owner) || bool_decide (actor_role = Moderator))
      && is_banned s (target e)
  | AAdmit r =>
      bool_decide (actor_role = Owner)
      && bool_decide (role_of s (target e) = None)
      && bool_decide (r ≠ Owner)
      && negb (is_banned s (target e))
  end.

(** The error of a denied event. *)
Definition denial s e : AuthorizationError :=
  if bool_decide (target e = owner s) || bool_decide (action e = AChangeRole Owner)
  then OwnerSafety
  else match role_of s (target e) with
       | None => UnknownTarget
       | Some _ => PermissionDenied
       end.

Definition evaluate s e : res AuthorizationError unit :=
  validate s;;
  verify_event e s;;
  actor_role ← ok_or UnknownActor (role_of s (actor e));
  ensure (negb (is_banned s (actor e))) Banned;;
  ensure (negb (is_banned s (target e) && bool_decide (action e ≠ AUnban))) Banned;;
  ensure (allowed s e actor_role) (denial s e).

(** The mutation of [apply]. *)
Definition perform e s : AuthorizationState :=
  match action e with
  | AGrant p =>
      set_permissions
        (<[target e := {[p]} ∪ default ∅ (permissions s !! target e)]> (permissions s)) s
  | ARevoke p =>
      set_permissions
        (<[target e := default ∅ (permissions s !! target e) ∖ {[p]}]> (permissions s)) s
  | AChangeRole r => put_role (target e) r s
  | AAdmit r => put_role (target e) r s
  | ABan => set_banned ({[target e]} ∪ banned s) s
  | AUnban => set_banned (banned s ∖ {[target e]}) s
  end.

(** [apply]: the result and the state afterwards. *)
Definition apply e s : res AuthorizationError unit * AuthorizationState :=
  match evaluate s e with
  | Ok _ =>
      let s' := set_applied (sequence e) (event_id e) (perform e s) in (validate s', s')
  | r => (r, s)
  end.

(** ** Persistence *)

Definition state_to_bytes s : option Bytes := to_stdvec (mkStored AUTHORIZATION_VERSION s).

Definition state_from_bytes (bytes : Bytes) : res AuthorizationError AuthorizationState :=
  stored ← ok_or Decode (from_bytes bytes);
  ensure (bool_decide (st_version stored = AUTHORIZATION_VERSION))
    (UnsupportedVersion (st_version stored));;
  validate (st_state stored);;
  mret (st_state stored).

(** ** Bootstrap *)

Definition bootstrap_bytes (v : N) (gid : TopicId) (o : PublicKey)
    : res AuthorizationError Bytes :=
  ok_or Decode (canonical_signed_bytes BOOTSTRAP_DOMAIN v (v, gid, o)).

Definition bootstrap_sign (secret : SecretKey) (gid : TopicId)
    : res AuthorizationError AuthorizationBootstrap :=
  bytes ← bootstrap_bytes AUTHORIZATION_VERSION gid (public secret);
  mret (mkBootstrap AUTHORIZATION_VERSION gid (public secret) (sign secret bytes)).

Definition bootstrap_verify (b : AuthorizationBootstrap) (expected_group : TopicId)
    (pinned_owner : PublicKey) : res AuthorizationError unit :=
  ensure (bool_decide (b_version b = AUTHORIZATION_VERSION)) (UnsupportedVersion (b_version b));;
  ensure (bool_decide (b_group_id b = expected_group) && bool_decide (b_owner b = pinned_owner))
    WrongGroup;;
  bytes ← bootstrap_bytes (b_version b) (b_group_id b) (b_owner b);
  ensure (key_verify (b_owner b) bytes (b_signature b)) InvalidSignature.

End authorization.
End authorization.
