(* ===== verification/AuthorizationFacts.v ===== *)
(** * Correctness of room authorization

    Every accepted event keeps the room valid and every refused one leaves it unchanged;
    nobody gains authority over a peer of the same or a higher rank; the owner never loses
    control; events apply once and in order.  A moderator keeps the power to ban after the
    permission was revoked. *)

From Stdlib Require Import Strings.Byte NArith.
From stdpp Require Import prelude gmap strings.
From S2P Require Import Prelude Signing Concrete Authorization.
Import authorization.

Implicit Types (s : AuthorizationState) (e : AuthorizationEvent) (p peer : PublicKey).

(** ** Validity as a proposition *)

Record valid s : Prop := mkValid {
  valid_owner : members s !! owner s = Some Owner;
  valid_sole p : members s !! p = Some Owner → p = owner s;
  valid_unbanned : owner s ∉ banned s;
  valid_dom : dom (permissions s) = dom (members s)
}.

Lemma owner_count_one s :
  members s !! owner s = Some Owner →
  owner_count s = 1 ↔ ∀ p, members s !! p = Some Owner → p = owner s.
Proof.
  intros Ho. unfold owner_count. split.
  - intros Hc p Hp. destruct (decide (p = owner s)) as [|Hne]; [done|].
    assert (({[p := Owner; owner s := Owner]} : gmap PublicKey Role)
            ⊆ filter (λ kv, kv.2 = Owner) (members s)) as Hsub%map_subseteq_size.
    { apply map_subseteq_spec. intros q r [[<- <-]|[_ [<- <-]%lookup_singleton_Some]]%lookup_insert_Some;
        by apply map_lookup_filter_Some. }
    rewrite map_size_insert_None, map_size_singleton in Hsub by by rewrite lookup_singleton_ne.
    lia.
  - intros Hs. assert (filter (λ kv, kv.2 = Owner) (members s) = {[owner s := Owner]}) as ->.
    { apply map_eq. intros q. destruct (decide (q = owner s)) as [->|Hq].
      - rewrite lookup_singleton_eq. by apply map_lookup_filter_Some.
      - rewrite lookup_singleton_ne by done. apply map_lookup_filter_None. right.
        intros r Hr Hro. simpl in Hro. subst. by apply Hq, Hs. }
    apply map_size_singleton.
Qed.

Lemma keys_match_true s : keys_match s = true ↔ dom (permissions s) = dom (members s).
Proof.
  unfold keys_match. rewrite andb_true_iff, !bool_decide_eq_true. split; [|by intros ->].
  intros []. by apply set_eq_subseteq.
Qed.

Lemma validate_Ok s : validate s = Ok tt ↔ valid s.
Proof.
  unfold validate, is_banned. split.
  - destruct (_ || _) eqn:Hb; [done|]. intros _.
    rewrite !orb_false_iff, negb_false_iff, keys_match_true in Hb.
    destruct Hb as [[[Ho Hc] Hn] Hk]. apply bool_decide_eq_false in Ho, Hc, Hn.
    apply dec_stable in Ho, Hc. split; [done| |done..]. by apply owner_count_one.
  - intros []. rewrite (bool_decide_false (_ ≠ _)) by tauto.
    rewrite (bool_decide_false (_ ≠ 1)).
    2: { intros Hc. apply Hc. by apply owner_count_one. }
    rewrite (bool_decide_false (_ ∈ _)) by done.
    by rewrite (proj2 (keys_match_true s)).
Qed.

Lemma valid_new gid o : valid (new gid o).
Proof.
  split; simpl; [by rewrite lookup_singleton_eq| |set_solver|by rewrite !dom_singleton_L].
  intros p [-> _]%lookup_singleton_Some. done.
Qed.

Lemma valid_put_role s p r :
  valid s → p ≠ owner s → r ≠ Owner → valid (put_role p r s).
Proof.
  intros [] Hp Hr. split; simpl; [by rewrite lookup_insert_ne| |done|].
  - intros q [[_ ?]|[_ ?]]%lookup_insert_Some; [done|auto].
  - rewrite !dom_insert_L. by f_equal.
Qed.

Lemma valid_set_permissions s p ps :
  valid s → is_Some (members s !! p) → valid (set_permissions (<[p := ps]> (permissions s)) s).
Proof.
  intros [] Hp. split; simpl; [done..|]. rewrite dom_insert_L, valid_dom0.
  apply elem_of_dom in Hp. set_solver.
Qed.

Lemma valid_set_banned s b : valid s → owner s ∉ b → valid (set_banned b s).
Proof. by intros []. Qed.

Lemma valid_set_applied s n x : valid s → valid (set_applied n x s).
Proof. by intros []. Qed.

(** A test peer admitted outside the event log keeps the room valid. *)
Lemma valid_admit_member s p r : valid s → valid (admit_member p r s).2.
Proof.
  intros Hv. unfold admit_member. destruct (_ || _) eqn:Hb; [done|].
  rewrite !orb_false_iff in Hb. destruct Hb as [[_ Hm] Hr].
  apply bool_decide_eq_false in Hm, Hr. apply valid_put_role; [done| |done].
  intros ->. apply Hm. rewrite (valid_owner _ Hv). by eexists.
Qed.

Section facts.
Context `{!AuthEnv}.

(** ** What an accepted event satisfies *)

Lemma manages_target_true s e r :
  manages_target s e r = true ↔
  ∃ rt, role_of s (target e) = Some rt ∧ target e ≠ owner s ∧
    (authority rt < authority r)%N.
Proof.
  unfold manages_target. destruct (role_of s (target e)) as [rt|]; [|naive_solver].
  rewrite andb_true_iff, !bool_decide_eq_true. naive_solver.
Qed.

Lemma evaluate_Ok s e :
  evaluate s e = Ok tt →
  ∃ r, valid s ∧ verify_event e s = Ok tt ∧ role_of s (actor e) = Some r ∧
    (actor e ∉ banned s) ∧ (target e ∈ banned s → action e = AUnban) ∧
    allowed s e r = true.
Proof.
  unfold evaluate, is_banned.
  intros ([] & Hv & ([] & Hver & (r & Hr%ok_or_Ok & ([] & Hb%ensure_Ok & ([] & Ht%ensure_Ok
    & Ha%ensure_Ok)%bind_Ok)%bind_Ok)%bind_Ok)%bind_Ok)%bind_Ok.
  rewrite negb_true_iff in Hb, Ht. apply bool_decide_eq_false in Hb.
  exists r. split_and!; [by apply validate_Ok|done..| |done].
  intros Hin. rewrite (bool_decide_true _ Hin), andb_true_l in Ht.
  apply bool_decide_eq_false in Ht. by apply dec_stable.
Qed.

(** The new state of an accepted event. *)
Definition applied e s : AuthorizationState :=
  set_applied (sequence e) (event_id e) (perform e s).

Lemma perform_valid s e : evaluate s e = Ok tt → valid (applied e s).
Proof.
  intros (r & Hv & _ & Hr & _ & _ & Ha)%evaluate_Ok. apply valid_set_applied.
  unfold allowed in Ha. unfold perform.
  destruct (action e) as [p|p|r'| | |r']; rewrite ?andb_true_iff in Ha;
    rewrite ?manages_target_true in Ha; rewrite ?bool_decide_eq_true in Ha.
  - destruct Ha as [(rt & ? & ? & ?) _]. by apply valid_set_permissions.
  - destruct Ha as [(rt & ? & ? & ?) _]. by apply valid_set_permissions.
  - destruct Ha as [[_ ?] (rt & ? & ? & ?)]. by apply valid_put_role.
  - destruct Ha as [(rt & ? & ? & ?) _]. apply valid_set_banned; [done|].
    pose proof (valid_unbanned _ Hv). set_solver.
  - destruct Ha as [[(rt & ? & ? & ?) _] _]. apply valid_set_banned; [done|].
    pose proof (valid_unbanned _ Hv). set_solver.
  - destruct Ha as [[[_ Hn] ?] _]. apply valid_put_role; [done| |done].
    intros Ht. unfold role_of in Hn. by rewrite Ht, (valid_owner _ Hv) in Hn.
Qed.

Lemma settled_validate s : settled (validate s).
Proof. unfold validate. by destruct (_ || _). Qed.
#[local] Hint Resolve settled_validate : boru.

Lemma settled_evaluate s e : settled (evaluate s e).
Proof.
  unfold evaluate, verify_event, derive_id, signing_bytes. auto 25 with boru.
Qed.

Lemma applied_frame e s :
  owner (applied e s) = owner s ∧ group_id (applied e s) = group_id s ∧
  last_sequence (applied e s) = sequence e ∧
  applied_events (applied e s) = {[event_id e]} ∪ applied_events s.
Proof. unfold applied, perform. by destruct (action e). Qed.

Lemma apply_cases e s :
  (evaluate s e = Ok tt ∧ apply e s = (Ok tt, applied e s)) ∨
  (∃ err, evaluate s e = Err err ∧ apply e s = (Err err, s)).
Proof.
  unfold apply. destruct (settled_cases _ (settled_evaluate s e)) as [[[] He]|[err He]]; rewrite He; [|by eauto].
  left. split; [done|]. fold (applied e s). pose proof (perform_valid _ _ He) as Hv.
  by apply validate_Ok in Hv as ->.
Qed.

(** Applying an event is atomic and safe.  For every state and event, [apply] either
    accepts, and the room is then valid, with the same owner, who is the only one and is
    not banned, with permissions for exactly the members; or it returns an error and
    changes nothing.  The check after the mutation never fails. *)
Theorem apply_atomic e s :
  match apply e s with
  | (Ok _, s') => evaluate s e = Ok tt ∧ valid s' ∧ owner s' = owner s ∧
                  group_id s' = group_id s ∧ last_sequence s' = sequence e
  | (Err _, s') => s' = s
  | (Panicked, _) => False
  end.
Proof.
  destruct (apply_cases e s) as [[He ->]|(err & _ & ->)]; [|done].
  pose proof (applied_frame e s). split_and!; try done; [by apply perform_valid|naive_solver..].
Qed.

(** ** Authority *)

(** All a peer is and may do in the room. *)
Definition standing s p : option Role * option (gset Permission) * bool :=
  (role_of s p, permissions s !! p, is_banned s p).

Lemma standing_other e s p : p ≠ target e → standing (applied e s) p = standing s p.
Proof.
  intros Hp. unfold standing, applied, perform, role_of, is_banned.
  destruct (action e); simpl; rewrite ?lookup_insert_ne by done; repeat f_equal;
    apply bool_decide_ext; set_solver.
Qed.

Lemma allowed_rank s e r :
  allowed s e r = true → r = Owner ∨ r = Moderator.
Proof.
  unfold allowed. destruct (action e); rewrite ?andb_true_iff, ?orb_true_iff,
    ?bool_decide_eq_true; destruct r; naive_solver.
Qed.

Lemma allowed_target s e r :
  valid s → allowed s e r = true →
  target e ≠ owner s ∧
  (∀ rt, role_of s (target e) = Some rt → (authority rt < authority r)%N) ∧
  (∀ rt, role_of (applied e s) (target e) = Some rt → (authority rt < authority r)%N) ∧
  (role_of (applied e s) (target e) ≠ role_of s (target e) → r = Owner).
Proof.
  intros Hv Ha. unfold allowed in Ha. unfold applied, perform, role_of in *.
  destruct (action e) as [p|p|r'| | |r']; simpl; rewrite ?andb_true_iff in Ha;
    rewrite ?manages_target_true in Ha; rewrite ?bool_decide_eq_true in Ha;
    rewrite ?lookup_insert_eq.
  1, 2, 4: destruct Ha as [(rt & Hrt & ? & ?) _]; unfold role_of in Hrt; naive_solver.
  2: destruct Ha as [[(rt & Hrt & ? & ?) _] _]; unfold role_of in Hrt; naive_solver.
  - destruct Ha as [[-> Hr'] (rt & Hrt & ? & ?)]. unfold role_of in Hrt.
    split_and!; [done|naive_solver| |done]. intros ? [= <-]. by destruct r'.
  - destruct Ha as [[[-> Hn] Hr'] _]. split_and!; [|by rewrite Hn| |done].
    + intros Ht. by rewrite Ht, (valid_owner _ Hv) in Hn.
    + intros ? [= <-]. by destruct r'.
Qed.

(** C7: No escalation of authority.  An accepted event was signed by an actor who is a
    moderator or the owner and is not banned, and it changes the role, the permissions and
    the ban of nobody but its target.  The target is not the owner, ranks strictly below
    the actor before and after, so nobody changes their own standing or makes an equal; and
    roles are changed by the owner only. *)
Theorem no_escalation e s s' p :
  apply e s = (Ok tt, s') → standing s' p ≠ standing s p →
  p = target e ∧ p ≠ owner s ∧ verify_event e s = Ok tt ∧
  ∃ r, role_of s (actor e) = Some r ∧ (r = Owner ∨ r = Moderator) ∧ (actor e ∉ banned s) ∧
    (∀ rt, role_of s p = Some rt → (authority rt < authority r)%N) ∧
    (∀ rt, role_of s' p = Some rt → (authority rt < authority r)%N) ∧
    (role_of s' p ≠ role_of s p → r = Owner).
Proof.
  intros Hap Hst. destruct (apply_cases e s) as [[He Hap']|(err & _ & Hap')];
    rewrite Hap in Hap'; [|done]. injection Hap' as ->.
  destruct (decide (p = target e)) as [->|Hne]; [|by rewrite standing_other in Hst].
  apply evaluate_Ok in He as (r & Hv & Hver & Hr & Hb & _ & Ha).
  pose proof (allowed_rank _ _ _ Ha). pose proof (allowed_target _ _ _ Hv Ha). naive_solver.
Qed.

(** ** Runs of the room *)

Fixpoint run s (es : list AuthorizationEvent) : AuthorizationState :=
  match es with
  | [] => s
  | e :: es' => run (apply e s).2 es'
  end.

(** The events of a run that were accepted, in order. *)
Fixpoint accepted s (es : list AuthorizationEvent) : list AuthorizationEvent :=
  match es with
  | [] => []
  | e :: es' =>
      (if is_ok (apply e s).1 then [e] else []) ++ accepted (apply e s).2 es'
  end.

Lemma run_invariant (P : AuthorizationState → Prop) s es :
  P s → (∀ s e, P s → evaluate s e = Ok tt → P (applied e s)) → P (run s es).
Proof.
  intros HP Hstep. revert s HP. induction es as [|e es IH]; intros s HP; [done|]. simpl.
  apply IH. destruct (apply_cases e s) as [[He ->]|(err & _ & ->)]; simpl; auto.
Qed.

(** The owner never loses control.  Whatever events a room processes after its
    creation, it stays valid, the creator is its only owner, is not banned and is allowed
    every action. *)
Theorem owner_keeps_control gid o es perm :
  let s := run (new gid o) es in
  valid s ∧ owner s = o ∧ (∀ p, role_of s p = Some Owner ↔ p = o) ∧ allows s o perm = true.
Proof.
  intros s.
  assert (valid s ∧ owner s = o ∧ permissions s !! o = Some (permissions_of Owner))
    as (Hv & Ho & Hp).
  { apply run_invariant; [split; [apply valid_new|by simpl; rewrite lookup_singleton_eq]|].
    intros s1 e (Hv & Ho & Hp) He. split; [by apply perform_valid|].
    pose proof (applied_frame e s1) as (Hown & _).
    split; [congruence|]. apply evaluate_Ok in He as (r & _ & _ & _ & _ & _ & Ha).
    destruct (allowed_target _ _ _ Hv Ha) as [Ht _].
    pose proof (standing_other e s1 o) as Hs. rewrite Ho in Ht.
    specialize (Hs (not_eq_sym Ht)). apply (f_equal (λ x, x.1.2)) in Hs.
    exact (eq_trans Hs Hp). }
  destruct Hv as [Hvo Hvs Hvb Hvd]. split; [done|]. split; [done|]. rewrite Ho in *.
  split; [unfold role_of; naive_solver|]. unfold allows, is_banned.
  rewrite (bool_decide_true (is_Some _)), (bool_decide_false (_ ∈ _)) by (by rewrite ?Hvo).
  rewrite Hp. apply bool_decide_eq_true. destruct perm; set_solver.
Qed.

(** ** Order and replay *)

Lemma verify_event_Ok e s :
  verify_event e s = Ok tt →
  (event_id e ∉ applied_events s) ∧ sequence e = next_sequence s ∧
  version e = AUTHORIZATION_VERSION ∧ e_group_id e = group_id s.
Proof.
  unfold verify_event, has_applied_event.
  intros ([] & Hve%ensure_Ok & ([] & Hg%ensure_Ok & ([] & Hf%ensure_Ok
    & ([] & Hs%ensure_Ok & _)%bind_Ok)%bind_Ok)%bind_Ok)%bind_Ok.
  rewrite negb_true_iff in Hf. apply bool_decide_eq_true in Hve, Hg, Hs.
  by apply bool_decide_eq_false in Hf.
Qed.

Lemma evaluate_verified s e : evaluate s e = Ok tt → verify_event e s = Ok tt.
Proof. by intros (r & _ & ? & _)%evaluate_Ok. Qed.

Lemma accepted_in_order s es n :
  last_sequence s = n → (n + N.of_nat (length es) < u64_max)%N →
  sequence <$> accepted s es
  = (λ i, (n + N.of_nat i)%N) <$> seq 1 (length (accepted s es)).
Proof.
  revert s n. induction es as [|e es IH]; intros s n Hn Hlen; [done|]. simpl in *.
  destruct (apply_cases e s) as [[He ->]|(err & _ & ->)]; simpl; [|apply IH; lia].
  pose proof (proj1 (proj2 (verify_event_Ok _ _ (evaluate_verified _ _ He)))) as Hseq.
  pose proof (applied_frame e s) as (_ & _ & Hls & _).
  unfold next_sequence in Hseq. rewrite Hn in Hseq.
  rewrite (IH _ (n + 1)%N) by lia. f_equal; [lia|].
  rewrite <-(fmap_S_seq 1), <-list_fmap_compose. apply list_fmap_ext. intros i x _. simpl. lia.
Qed.

(** Events apply once and in order.  In a room that processes fewer than 2^64 - 1
    events, whatever they are, the accepted ones carry the sequence numbers 1, 2, 3, ...; and
    an event that was accepted is refused ever after, without any effect. *)
Theorem events_once_in_order gid o es :
  (N.of_nat (length es) < u64_max)%N →
  sequence <$> accepted (new gid o) es
  = N.of_nat <$> seq 1 (length (accepted (new gid o) es)) ∧
  ∀ s e es', (apply e s).1 = Ok tt →
    ∃ err, apply e (run (apply e s).2 es') = (Err err, run (apply e s).2 es').
Proof.
  intros Hlen. split.
  - rewrite (accepted_in_order _ _ 0) by done. apply list_fmap_ext. intros i x _. lia.
  - intros s e es'. destruct (apply_cases e s) as [[He ->]|(err & _ & ->)]; [|done]. intros _.
    cbn [snd]. set (s' := run _ es').
    assert (event_id e ∈ applied_events s') as Hin.
    { apply (run_invariant (λ s, event_id e ∈ applied_events s)).
      - pose proof (applied_frame e s) as (_ & _ & _ & ->). set_solver.
      - intros s1 e1 ? _. pose proof (applied_frame e1 s1) as (_ & _ & _ & ->). set_solver. }
    destruct (apply_cases e s') as [[He' _]|(err & _ & ->)]; [|by eauto].
    apply evaluate_verified, verify_event_Ok in He' as [Hn _]. done.
Qed.

(** ** Signing *)

(** What a key holder signs is what the room verifies.  An event signed for the group
    with the next sequence number passes verification in every state that has not applied
    it, and it carries the signer as actor. *)
Theorem signed_event_verifies secret s t a e :
  sign_event secret (group_id s) (next_sequence s) t a = Ok e →
  event_id e ∉ applied_events s →
  actor e = public secret ∧ target e = t ∧ action e = a ∧ verify_event e s = Ok tt.
Proof.
  unfold sign_event.
  intros (eid & Hid & (bytes & Hb & [= <-])%bind_Ok)%bind_Ok Hf. simpl in *.
  split_and!; [done..|]. unfold verify_event, has_applied_event. simpl.
  rewrite (bool_decide_false (eid ∈ _)) by done. rewrite !bool_decide_true by done. simpl.
  rewrite Hid. simpl. rewrite bool_decide_true by done. simpl.
  rewrite Hb. simpl. by rewrite key_verify_sign.
Qed.

Lemma state_roundtrip s bytes :
  valid s → state_to_bytes s = Some bytes → state_from_bytes bytes = Ok s.
Proof.
  intros Hv Hb%postcard_roundtrip. unfold state_from_bytes. rewrite Hb. simpl.
  by rewrite (proj2 (validate_Ok s) Hv).
Qed.

Lemma state_loaded_valid bytes s : state_from_bytes bytes = Ok s → valid s.
Proof.
  unfold state_from_bytes.
  intros (st & _ & ([] & _ & ([] & Hv & [= <-])%bind_Ok)%bind_Ok)%bind_Ok.
  by apply validate_Ok.
Qed.

(** ** A gap in the policy *)

(** Revoking the permission to ban has no effect on a moderator.  The evaluation of a ban
    looks at the role only: a verified ban by an unbanned moderator of a member or guest
    is accepted also when the room does not allow that moderator to ban. *)
Theorem revoked_moderator_still_bans e s r :
  valid s → verify_event e s = Ok tt → action e = ABan →
  role_of s (actor e) = Some Moderator → actor e ∉ banned s →
  role_of s (target e) = Some r → (authority r < 2)%N →
  target e ∉ banned s →
  allows s (actor e) Ban = false →
  (apply e s).1 = Ok tt ∧ is_banned (apply e s).2 (target e) = true ∧
  allows (apply e s).2 (actor e) Ban = false.
Proof.
  intros Hv Hver Ha Hr Hb Hrt Hlt Htb Hno.
  assert (target e ≠ owner s) as Ho.
  { intros Ht. unfold role_of in Hrt. rewrite Ht, (valid_owner _ Hv) in Hrt.
    injection Hrt as <-. simpl in Hlt. lia. }
  assert (evaluate s e = Ok tt) as He.
  { unfold evaluate, is_banned. rewrite (proj2 (validate_Ok s) Hv). simpl. rewrite Hver. simpl.
    rewrite Hr. simpl.
    rewrite (bool_decide_false (actor e ∈ _)), (bool_decide_false (target e ∈ _)) by done.
    simpl. unfold allowed. rewrite Ha.
    assert (manages_target s e Moderator = true) as -> by (apply manages_target_true; eauto).
    done. }
  destruct (apply_cases e s) as [[_ ->]|(err & He' & _)]; [|by rewrite He in He']. simpl.
  split; [done|]. unfold applied, perform. rewrite Ha. split.
  - apply bool_decide_eq_true. simpl. set_solver.
  - unfold allows, is_banned in *. simpl. assert (actor e ≠ target e).
    { intros Heq. rewrite Heq, Hrt in Hr. injection Hr as ->. simpl in Hlt. lia. }
    rewrite (bool_decide_ext (actor e ∈ {[target e]} ∪ banned s) (actor e ∈ banned s));
      [done|set_solver].
Qed.

End facts.

(** ** A concrete room *)

#[local] Instance role_countable : Countable Role.
Proof.
  refine (inj_countable' (A := bool * bool)
    (λ r, match r with Guest => (false, false) | Member => (false, true)
                     | Moderator => (true, false) | Owner => (true, true) end)
    (λ c, match c with (false, false) => Guest | (false, true) => Member
                     | (true, false) => Moderator | (true, true) => Owner end) _).
  by intros [].
Defined.

#[local] Instance action_countable : Countable AuthorizationAction.
Proof.
  refine (inj_countable' (A := (Permission + Permission) + (Role + (Role + bool)))
    (λ a, match a with AGrant p => inl (inl p) | ARevoke p => inl (inr p)
                     | AChangeRole r => inr (inl r) | AAdmit r => inr (inr (inl r))
                     | ABan => inr (inr (inr true)) | AUnban => inr (inr (inr false)) end)
    (λ c, match c with inl (inl p) => AGrant p | inl (inr p) => ARevoke p
                     | inr (inl r) => AChangeRole r | inr (inr (inl r)) => AAdmit r
                     | inr (inr (inr true)) => ABan | inr (inr (inr false)) => AUnban end) _).
  by intros [].
Defined.

#[local] Instance state_eq_dec : EqDecision AuthorizationState.
Proof. solve_decision. Defined.

#[local] Instance stored_eq_dec : EqDecision StoredAuthorizationState.
Proof. solve_decision. Defined.

#[local] Instance stored_countable : Countable StoredAuthorizationState.
Proof.
  refine (inj_countable' (λ st, (st_version st, group_id (st_state st), owner (st_state st),
      members (st_state st), permissions (st_state st), banned (st_state st),
      last_sequence (st_state st), applied_events (st_state st)))
    (λ '(v, g, o, m, p, b, l, a), mkStored v (mkState g o m p b l a)) _).
  by intros [? []].
Defined.

#[local] Instance ser_action : Ser AuthorizationAction := ser_countable.
#[local] Instance ser_stored : Ser StoredAuthorizationState := ser_countable.

#[local] Instance sample_auth_env : AuthEnv :=
  {| auth_ed25519 := toy_ed25519;
     auth_hasher := toy_hasher;
     auth_event_postcard := ser_postcard;
     auth_bootstrap_postcard := ser_postcard;
     auth_state_postcard := ser_postcard |}.

Definition sample_gid : TopicId := [x07].
Definition olga : PublicKey := [x01].
Definition mona : PublicKey := [x02].
Definition bert : PublicKey := [x03].

Definition force {E A} (d : A) (r : res E A) : A := match r with Ok a => a | _ => d end.

Definition no_event : AuthorizationEvent := mkEvent 0 [] [] 0 [] [] ABan [].

(** An event signed for the state. *)
Definition signed (who : PublicKey) s (t : PublicKey) (a : AuthorizationAction)
    : AuthorizationEvent :=
  force no_event (sign_event who (group_id s) (next_sequence s) t a).

(** Sign and apply. *)
Definition act (who : PublicKey) (t : PublicKey) (a : AuthorizationAction) s
    : AuthorizationState := (apply (signed who s t a) s).2.

(** The owner makes [mona] a moderator without the permission to ban. *)
Definition sample_room : AuthorizationState :=
  act olga mona (ARevoke Ban)
    (act olga bert (AAdmit Member) (act olga mona (AAdmit Moderator) (new sample_gid olga))).

Definition sample_ban : AuthorizationEvent := signed mona sample_room bert ABan.

Lemma sample_room_valid : valid sample_room.
Proof. apply validate_Ok. vm_compute. reflexivity. Qed.

Lemma sample_ban_applied : apply sample_ban sample_room = (Ok tt, act mona bert ABan sample_room).
Proof.
  rewrite (surjective_pairing (apply sample_ban sample_room)). f_equal.
Qed.

Lemma sample_ban_effect :
  bool_decide (standing (act mona bert ABan sample_room) bert = standing sample_room bert) = false.
Proof. vm_compute. reflexivity. Qed.

Lemma no_escalation_witness :
  bert = target sample_ban ∧ bert ≠ owner sample_room ∧
  verify_event sample_ban sample_room = Ok tt ∧
  ∃ r, role_of sample_room (actor sample_ban) = Some r ∧ (r = Owner ∨ r = Moderator) ∧
    (actor sample_ban ∉ banned sample_room) ∧
    (∀ rt, role_of sample_room bert = Some rt → (authority rt < authority r)%N) ∧
    (∀ rt, role_of (act mona bert ABan sample_room) bert = Some rt →
      (authority rt < authority r)%N) ∧
    (role_of (act mona bert ABan sample_room) bert ≠ role_of sample_room bert → r = Owner).
Proof.
  apply (no_escalation sample_ban sample_room (act mona bert ABan sample_room) bert).
  - apply sample_ban_applied.
  - apply (bool_decide_eq_false_1 _ sample_ban_effect).
Defined.

Lemma signed_event_verifies_witness :
  actor sample_ban = public mona ∧ target sample_ban = bert ∧ action sample_ban = ABan ∧
  verify_event sample_ban sample_room = Ok tt.
Proof.
  apply (@signed_event_verifies sample_auth_env mona sample_room bert ABan sample_ban).
  - vm_compute. reflexivity.
  - decide_compute.
Defined.

Lemma revoked_moderator_still_bans_witness :
  (apply sample_ban sample_room).1 = Ok tt ∧
  is_banned (apply sample_ban sample_room).2 (target sample_ban) = true ∧
  allows (apply sample_ban sample_room).2 (actor sample_ban) Ban = false.
Proof.
  apply (revoked_moderator_still_bans sample_ban sample_room Member).
  - apply sample_room_valid.
  - vm_compute. reflexivity.
  - vm_compute. reflexivity.
  - vm_compute. reflexivity.
  - decide_compute.
  - vm_compute. reflexivity.
  - vm_compute. reflexivity.
  - decide_compute.
  - vm_compute. reflexivity.
Defined.

Lemma events_once_in_order_witness :
  sequence <$> accepted (new sample_gid olga) [no_event; sample_ban]
  = N.of_nat <$> seq 1 (length (accepted (new sample_gid olga) [no_event; sample_ban])) ∧
  ∀ s e es', (apply e s).1 = Ok tt →
    ∃ err, apply e (run (apply e s).2 es') = (Err err, run (apply e s).2 es').
Proof. apply (events_once_in_order sample_gid olga [no_event; sample_ban]). reflexivity. Defined.

Lemma apply_atomic_witness :
  match apply sample_ban sample_room with
  | (Ok _, s') => evaluate sample_room sample_ban = Ok tt ∧ valid s' ∧
                  owner s' = owner sample_room ∧ group_id s' = group_id sample_room ∧
                  last_sequence s' = sequence sample_ban
  | (Err _, s') => s' = sample_room
  | (Panicked, _) => False
  end.
Proof. apply (apply_atomic sample_ban sample_room). Defined.

Lemma owner_keeps_control_witness :
  let s := run (new sample_gid olga) [sample_ban] in
  valid s ∧ owner s = olga ∧ (∀ p, role_of s p = Some Owner ↔ p = olga) ∧
  allows s olga ManageRoom = true.
Proof. apply (owner_keeps_control sample_gid olga [sample_ban] ManageRoom). Defined.
