(* ===== verification/GroupEvents.v ===== *)
(** * Group membership events and replay markers: [src/group_events.rs], [src/group_replay.rs]

    [Module group_replay] models the table of replay markers behind SQLite: the statements
    act on a map from the primary key to the row; a failure of the driver is an argument
    of each call, the order in which a query returns rows is the interface [RowOrder].
    [Module group_events] translates the signed membership events, their verification and
    application.  The clock, the driver and the random nonce are arguments. *)

From Stdlib Require Import Strings.Byte NArith ZArith.
From stdpp Require Import prelude gmap strings sorting.
From S2P Require Import Prelude Signing.

Module group_replay.

Definition EVENT_ID_LEN : nat := 16.
Definition REPLAY_PRUNE_BATCH : nat := 500.

Inductive RecordOutcome : Type := Recorded | AlreadySeen.

(** The texts of the errors are left out. *)
Inductive ReplayStoreError : Type := Db | Lock.

(** A row of [group_event_replay] beside its key [(group_id, event_id)]. *)
Record Marker : Type := mkMarker { epoch : Z; seen_at : Z }.

Abbreviation Table := (gmap (Bytes * Bytes) Marker).

(** The order in which SQLite returns the rows of a table. *)
Class RowOrder : Type := {
  rows : Table → list ((Bytes * Bytes) * Marker);
  rows_perm t : rows t ≡ₚ map_to_list t
}.

(** What the driver answers: a failure, or nothing. *)
Abbreviation Fault := (option ReplayStoreError).

Definition contains (fault : Fault) (t : Table) (group_id event_id : Bytes)
    : res ReplayStoreError bool :=
  match fault with
  | Some err => Err err
  | None => Ok (bool_decide (is_Some (t !! (group_id, event_id))))
  end.

(** [INSERT OR IGNORE] *)
Definition record (fault : Fault) (group_id : Bytes) (ep : N) (event_id : Bytes)
    (seen : N) (t : Table) : res ReplayStoreError RecordOutcome * Table :=
  match fault with
  | Some err => (Err err, t)
  | None =>
      match t !! (group_id, event_id) with
      | Some _ => (Ok AlreadySeen, t)
      | None =>
          (Ok Recorded, <[(group_id, event_id) := mkMarker (as_i64 ep) (as_i64 seen)]> t)
      end
  end.

(** [WHERE group_id = ?1 AND epoch < ?2] *)
Definition expired (group_id : Bytes) (min_epoch : Z) (row : (Bytes * Bytes) * Marker) : Prop :=
  row.1.1 = group_id ∧ (epoch row.2 < min_epoch)%Z.

#[export] Instance expired_dec g m row : Decision (expired g m row).
Proof. unfold expired. apply _. Defined.

Section store.
Context `{!RowOrder}.

(** One [DELETE]: at most a batch of the expired rows. *)
Definition delete_batch (group_id : Bytes) (min_epoch : Z) (t : Table) : nat * Table :=
  let selected := take REPLAY_PRUNE_BATCH (filter (expired group_id min_epoch) (rows t)) in
  (length selected, foldr delete t selected.*1).

(** The loop; [faults i] is the answer of the driver to the [i]-th statement.  Each
    round that continues deletes a full batch, so the number of rows is enough fuel. *)
Fixpoint prune_loop (fuel : nat) (faults : nat → Fault) (i total : nat) (group_id : Bytes)
    (min_epoch : Z) (t : Table) : res ReplayStoreError nat * Table :=
  match fuel with
  | O => (Panicked, t)
  | S fuel' =>
      match faults i with
      | Some err => (Err err, t)
      | None =>
          let '(deleted, t') := delete_batch group_id min_epoch t in
          if decide (deleted < REPLAY_PRUNE_BATCH)
          then (Ok (total + deleted), t')
          else prune_loop fuel' faults (S i) (total + deleted) group_id min_epoch t'
      end
  end.

Definition prune_older_than (faults : nat → Fault) (group_id : Bytes) (min_epoch : N)
    (t : Table) : res ReplayStoreError nat * Table :=
  prune_loop (S (size t)) faults 0 0 group_id (as_i64 min_epoch) t.

End store.

End group_replay.

Module group_events.
Import protocol_signing group_replay.

Abbreviation TopicId := Bytes.

Definition GROUP_EVENT_VERSION : N := 2.
Definition MAX_GROUP_EVENT_PAYLOAD : N := 16384.
Definition MAX_GROUP_EVENT_CLOCK_SKEW_SECS : N := 86400.
Definition REPLAY_WINDOW_PRIOR_EPOCHS : N := 2.
Definition REPLAY_MEMORY_CACHE_MAX : nat := 4096.
Definition EVENT_ID_LEN : nat := 16.
Definition EVENT_ID_DOMAIN : Bytes := String.list_byte_of_string "boru.group-event.id".
Definition GROUP_EVENT_PROTOCOL : string := "boru/group-event".

Inductive Role : Type := Owner | Member.

#[export] Instance role_eq_dec : EqDecision Role.
Proof. solve_decision. Defined.

Inductive GroupEventPayload : Type :=
| PMemberInvited (member : PublicKey)
| PMemberJoined (member : PublicKey)
| PMemberLeft (member : PublicKey)
| PMemberRemoved (member : PublicKey)
| PMetadataChanged (name description : option string)
| PEpochChanged (ep : N).

Record GroupEventEnvelope : Type := mkEnvelope {
  version : N;
  g_group_id : TopicId;
  event_id : Bytes;
  nonce : Bytes;
  g_epoch : N;
  actor : PublicKey;
  timestamp : N;
  payload : GroupEventPayload;
  signature : Bytes
}.

Inductive GroupEvent : Type :=
| MemberInvited (e : GroupEventEnvelope)
| MemberJoined (e : GroupEventEnvelope)
| MemberLeft (e : GroupEventEnvelope)
| MemberRemoved (e : GroupEventEnvelope)
| MetadataChanged (e : GroupEventEnvelope)
| EpochChanged (e : GroupEventEnvelope).

Inductive GroupValidationError : Type :=
| Decode
| UnsupportedVersion (v : N)
| InvalidSignature
| WrongGroup
| WrongEpoch (expected actual : N)
| NotMember
| PermissionDenied
| Replay
| EventIdMismatch
| NonceGeneration
| ReplayStoreFailed (err : ReplayStoreError)
| TimestampOutOfRange
| PayloadTooLarge (len : nat)
| PayloadMismatch.

(** The state.  [replay_store] says whether a store is attached; its table, which several
    states may share, is passed beside the state. *)
Record GroupState : Type := mkGroup {
  group_id : TopicId;
  owner : PublicKey;
  epoch : N;
  members : gmap PublicKey Role;
  invited : gset PublicKey;
  seen : gmap Bytes N;
  replay_store : bool
}.

Class GroupEnv : Type := {
  group_ed25519 :: Ed25519;
  group_hasher :: Hasher;
  group_rows :: RowOrder;
  overflow_checks : bool;
  payload_postcard :: Postcard GroupEventPayload;
  unsigned_postcard :: Postcard (string * N *
    (TopicId * Bytes * Bytes * N * PublicKey * N * GroupEventPayload));
  legacy_postcard :: Postcard
    (N * TopicId * Bytes * Bytes * N * PublicKey * N * GroupEventPayload);
  id_postcard :: Postcard
    (N * PublicKey * TopicId * N * N * Bytes * GroupEventPayload);
  event_postcard :: Postcard GroupEvent
}.

(** What one call sees of the clock and of the driver. *)
Record Ambient : Type := mkAmbient {
  now_secs : N;
  contains_fault : Fault;
  record_now_secs : N;
  record_fault : Fault;
  prune_faults : nat → Fault
}.

Implicit Types (e : GroupEvent) (s : GroupState) (p : GroupEventPayload) (t : Table).

Definition envelope e : GroupEventEnvelope :=
  match e with
  | MemberInvited v | MemberJoined v | MemberLeft v | MemberRemoved v | MetadataChanged v
  | EpochChanged v => v
  end.

Definition from_payload (v : GroupEventEnvelope) p : GroupEvent :=
  match p with
  | PMemberInvited _ => MemberInvited v
  | PMemberJoined _ => MemberJoined v
  | PMemberLeft _ => MemberLeft v
  | PMemberRemoved _ => MemberRemoved v
  | PMetadataChanged _ _ => MetadataChanged v
  | PEpochChanged _ => EpochChanged v
  end.

(** The variant of the event is the variant of its payload. *)
Definition variant_matches e : bool :=
  match e, payload (envelope e) with
  | MemberInvited _, PMemberInvited _ | MemberJoined _, PMemberJoined _
  | MemberLeft _, PMemberLeft _ | MemberRemoved _, PMemberRemoved _
  | MetadataChanged _, PMetadataChanged _ _ | EpochChanged _, PEpochChanged _ => true
  | _, _ => false
  end.

(** ** The state *)

Definition new (gid : TopicId) (o : PublicKey) : GroupState :=
  mkGroup gid o 0 {[o := Owner]} ∅ ∅ false.

Definition attach_replay_store s : GroupState :=
  mkGroup (group_id s) (owner s) (epoch s) (members s) (invited s) (seen s) true.

Definition with_replay_store (gid : TopicId) (o : PublicKey) : GroupState :=
  attach_replay_store (new gid o).

(** Field updates. *)
Definition set_roster (m : gmap PublicKey Role) (i : gset PublicKey) s : GroupState :=
  mkGroup (group_id s) (owner s) (epoch s) m i (seen s) (replay_store s).
Definition set_epoch (n : N) s : GroupState :=
  mkGroup (group_id s) (owner s) n (members s) (invited s) (seen s) (replay_store s).
Definition set_seen (c : gmap Bytes N) s : GroupState :=
  mkGroup (group_id s) (owner s) (epoch s) (members s) (invited s) c (replay_store s).

(** The order of [sort_unstable] on pairs of an epoch and an id; ids are distinct. *)
Definition marker_le (x y : N * Bytes) : Prop :=
  (x.1 < y.1)%N ∨ (x.1 = y.1 ∧ bytes_le x.2 y.2).

#[export] Instance marker_le_dec : RelDecision marker_le.
Proof. intros x y. unfold marker_le. apply _. Defined.

(** The ids [cap_seen_cache] drops. *)
Definition evicted (c : gmap Bytes N) : list (N * Bytes) :=
  take (size c - REPLAY_MEMORY_CACHE_MAX)
    (merge_sort marker_le ((λ kv, (kv.2, kv.1)) <$> map_to_list c)).

Definition cap_seen_cache s : GroupState :=
  if decide (size (seen s) ≤ REPLAY_MEMORY_CACHE_MAX) then s
  else set_seen (foldl (λ c id, delete id c) (seen s) (evicted (seen s)).*2) s.

Section group_events.
Context `{!GroupEnv}.

Definition prune_replay (amb : Ambient) s t : GroupState * Table :=
  let min_epoch := (epoch s - REPLAY_WINDOW_PRIOR_EPOCHS)%N in
  (set_seen (filter (λ kv, min_epoch ≤ kv.2)%N (seen s)) s,
   if replay_store s
   then (prune_older_than (prune_faults amb) (group_id s) min_epoch t).2
   else t).

(** ** Signed contents *)

Definition unsigned_bytes (v : N) (gid : TopicId) (eid nce : Bytes) (ep : N)
    (act : PublicKey) (ts : N) p : res GroupValidationError Bytes :=
  ok_or Decode (canonical_signed_bytes GROUP_EVENT_PROTOCOL v (gid, eid, nce, ep, act, ts, p)).

Definition legacy_unsigned_bytes (v : N) (gid : TopicId) (eid nce : Bytes) (ep : N)
    (act : PublicKey) (ts : N) p : res GroupValidationError Bytes :=
  ok_or Decode (to_stdvec (v, gid, eid, nce, ep, act, ts, p)).

Definition make_event_id (v : N) (act : PublicKey) (gid : TopicId) (ep ts : N) (nce : Bytes) p
    : res GroupValidationError Bytes :=
  body ← ok_or Decode (to_stdvec (v, act, gid, ep, ts, nce, p));
  mret (take EVENT_ID_LEN (blake3 (EVENT_ID_DOMAIN ++ body))).

Definition sign_with_nonce (secret : SecretKey) (gid : TopicId) (ep ts : N) (nce : Bytes) p
    : res GroupValidationError GroupEvent :=
  let act := public secret in
  eid ← make_event_id GROUP_EVENT_VERSION act gid ep ts nce p;
  unsigned ← unsigned_bytes GROUP_EVENT_VERSION gid eid nce ep act ts p;
  mret (from_payload
    (mkEnvelope GROUP_EVENT_VERSION gid eid nce ep act ts p (sign secret unsigned)) p).

(** [sign] and [sign_at] with the nonce [getrandom] delivered, if it did. *)
Definition sign_at (random : option Bytes) (secret : SecretKey) (gid : TopicId) (ep ts : N) p
    : res GroupValidationError GroupEvent :=
  nce ← ok_or NonceGeneration random;
  sign_with_nonce secret gid ep ts nce p.

Definition encode e : res GroupValidationError Bytes := ok_or Decode (to_stdvec e).
Definition decode (bytes : Bytes) : res GroupValidationError GroupEvent :=
  ok_or Decode (from_bytes bytes).

(** ** Verification *)

(** The check of the new epoch of [EpochChanged]. *)
Definition epoch_advances s p : res GroupValidationError unit :=
  match p with
  | PEpochChanged n =>
      if decide (n ≤ epoch s)%N
      then expected ← checked (u64_incr overflow_checks (epoch s));
           Err (WrongEpoch expected n)
      else Ok tt
  | _ => Ok tt
  end.

(** The role of the actor. *)
Definition actor_role s (v : GroupEventEnvelope) : res GroupValidationError Role :=
  if bool_decide (actor v = owner s) then Ok Owner
  else if bool_decide (is_Some (members s !! actor v)) then Ok Member
  else if match payload v with PMemberJoined m => bool_decide (m = actor v) | _ => false end
          && bool_decide (actor v ∈ invited s) then Ok Member
  else Err NotMember.

Definition allowed s (v : GroupEventEnvelope) (role : Role) : bool :=
  match payload v with
  | PMemberInvited _ | PMemberRemoved _ | PMetadataChanged _ _ | PEpochChanged _ =>
      bool_decide (role = Owner)
  | PMemberLeft m => bool_decide (role = Member) && bool_decide (m = actor v)
  | PMemberJoined m => bool_decide (m = actor v) && bool_decide (m ∈ invited s)
  end.

(** Whether the marker of the event is known, in the cache or in the store. *)
Definition check_replay (fault : Fault) s t (eid : Bytes) : res GroupValidationError unit :=
  ensure (bool_decide (seen s !! eid = None)) Replay;;
  if replay_store s
  then match contains fault t (group_id s) eid with
       | Ok persisted => ensure (negb persisted) Replay
       | Err err => Err (ReplayStoreFailed err)
       | Panicked => Panicked
       end
  else Ok tt.

Definition verify (amb : Ambient) e s t : res GroupValidationError Role :=
  let v := envelope e in
  ensure (bool_decide (version v = GROUP_EVENT_VERSION)) (UnsupportedVersion (version v));;
  ensure (bool_decide (g_group_id v = group_id s)) WrongGroup;;
  ensure (bool_decide (g_epoch v = epoch s)) (WrongEpoch (epoch s) (g_epoch v));;
  ensure (variant_matches e) PayloadMismatch;;
  epoch_advances s (payload v);;
  encoded ← ok_or Decode (to_stdvec (payload v));
  ensure (bool_decide (N.of_nat (length encoded) ≤ MAX_GROUP_EVENT_PAYLOAD)%N)
    (PayloadTooLarge (length encoded));;
  ensure (bool_decide (abs_diff (now_secs amb) (timestamp v)
                       ≤ MAX_GROUP_EVENT_CLOCK_SKEW_SECS)%N) TimestampOutOfRange;;
  unsigned ← unsigned_bytes (version v) (g_group_id v) (event_id v) (nonce v) (g_epoch v)
               (actor v) (timestamp v) (payload v);
  legacy ← legacy_unsigned_bytes (version v) (g_group_id v) (event_id v) (nonce v) (g_epoch v)
             (actor v) (timestamp v) (payload v);
  ensure (verify_canonical_or_legacy (actor v) (signature v) unsigned legacy)
    InvalidSignature;;
  expected_id ← make_event_id (version v) (actor v) (g_group_id v) (g_epoch v) (timestamp v)
                  (nonce v) (payload v);
  ensure (bool_decide (expected_id = event_id v)) EventIdMismatch;;
  check_replay (contains_fault amb) s t (event_id v);;
  role ← actor_role s v;
  ensure (allowed s v role) PermissionDenied;;
  mret role.

(** ** Application *)

(** The change of the roster and the epoch. *)
Definition mutate p s : GroupState :=
  match p with
  | PMemberInvited m => set_roster (members s) ({[m]} ∪ invited s) s
  | PMemberJoined m => set_roster (<[m := Member]> (members s)) (invited s ∖ {[m]}) s
  | PMemberLeft m | PMemberRemoved m => set_roster (delete m (members s)) (invited s) s
  | PMetadataChanged _ _ => s
  | PEpochChanged n => set_epoch n s
  end.

(** The marker is recorded before the state changes. *)
Definition record_marker (amb : Ambient) (v : GroupEventEnvelope) s t
    : res GroupValidationError unit * Table :=
  if replay_store s
  then match record (record_fault amb) (group_id s) (g_epoch v) (event_id v)
               (record_now_secs amb) t with
       | (Ok Recorded, t') => (Ok tt, t')
       | (Ok AlreadySeen, t') => (Err Replay, t')
       | (Err err, t') => (Err (ReplayStoreFailed err), t')
       | (Panicked, t') => (Panicked, t')
       end
  else (Ok tt, t).

(** What [apply_to] does after the verification. *)
Definition commit (amb : Ambient) e s t : res GroupValidationError unit * GroupState * Table :=
  let v := envelope e in
  match record_marker amb v s t with
  | (Ok _, t') =>
      let s1 := mutate (payload v) s in
      let s2 := cap_seen_cache (set_seen (<[event_id v := g_epoch v]> (seen s1)) s1) in
      match payload v with
      | PEpochChanged _ => let '(s3, t3) := prune_replay amb s2 t' in (Ok tt, s3, t3)
      | _ => (Ok tt, s2, t')
      end
  | (r, t') => (r, s, t')
  end.

Definition apply_to (amb : Ambient) e s t : res GroupValidationError unit * GroupState * Table :=
  match verify amb e s t with
  | Ok _ => commit amb e s t
  | Err err => (Err err, s, t)
  | Panicked => (Panicked, s, t)
  end.

End group_events.
End group_events.
