(* ===== verification/GroupEventsFacts.v ===== *)
(** * Facts on group membership events and replay markers

    The pruning loop of the marker table, who may change the roster and the epoch,
    rejection of replayed events across pruning and restarts, the bound of the cache,
    atomicity of errors, and the invitation a removal leaves in place. *)

From Stdlib Require Import Strings.Byte NArith ZArith.
From stdpp Require Import prelude gmap strings sorting.
From S2P Require Import Prelude Signing Concrete GroupEvents.

Import protocol_signing group_replay group_events.

(** ** The marker table *)

Section table.
Context `{!RowOrder}.
Implicit Types (t : Table) (g : Bytes) (m : Z).

(** The rows one statement deletes. *)
Abbreviation selected g m t := (take REPLAY_PRUNE_BATCH (filter (expired g m) (rows t))).

Lemma elem_of_expired_rows g m t k r :
  (k, r) ∈ filter (expired g m) (rows t) ↔ expired g m (k, r) ∧ t !! k = Some r.
Proof. rewrite list_elem_of_filter, rows_perm, elem_of_map_to_list. done. Qed.

Lemma elem_of_selected g m t k :
  k ∈ (selected g m t).*1 → ∃ r, expired g m (k, r) ∧ t !! k = Some r.
Proof.
  intros ([k' r] & -> & Hin)%list_elem_of_fmap. exists r. apply elem_of_expired_rows.
  revert Hin. apply subseteq_take.
Qed.

Lemma NoDup_selected g m t : NoDup (selected g m t).*1.
Proof.
  rewrite fmap_take. eapply sublist_NoDup; [|apply sublist_take].
  apply NoDup_fmap_fst.
  - intros k r1 r2 [_ H1]%elem_of_expired_rows [_ H2]%elem_of_expired_rows. congruence.
  - apply NoDup_filter. rewrite rows_perm. apply NoDup_map_to_list.
Qed.

(** One statement removes as many rows as it reports, all of them expired. *)
Lemma delete_batch_size g m t :
  let '(n, t') := delete_batch g m t in size t' + n = size t.
Proof.
  unfold delete_batch. rewrite <- (length_fmap fst (selected g m t)).
  apply size_deletes; [apply NoDup_selected|].
  intros k (r & _ & Hr)%elem_of_selected. eauto.
Qed.

Lemma delete_batch_lookup g m t k :
  (delete_batch g m t).2 !! k = if decide (k ∈ (selected g m t).*1) then None else t !! k.
Proof. apply lookup_deletes. Qed.

Lemma delete_batch_sub g m t : (delete_batch g m t).2 ⊆ t.
Proof.
  apply map_subseteq_spec. intros k r. rewrite delete_batch_lookup. by case_decide.
Qed.

Lemma delete_batch_keeps g m t k r :
  t !! k = Some r → ¬ expired g m (k, r) → (delete_batch g m t).2 !! k = Some r.
Proof.
  intros Hr Hn. rewrite delete_batch_lookup, decide_False; [done|].
  intros (r' & He & Hr')%elem_of_selected. congruence.
Qed.

(** A statement that deletes less than a batch deleted every expired row. *)
Lemma delete_batch_last g m t k r :
  (delete_batch g m t).1 < REPLAY_PRUNE_BATCH →
  (delete_batch g m t).2 !! k = Some r → ¬ expired g m (k, r).
Proof.
  unfold delete_batch. cbn [fst snd]. rewrite length_take. intros Hlt.
  rewrite lookup_deletes. case_decide as Hk; [done|]. intros Hr He. apply Hk.
  rewrite take_ge by lia. apply list_elem_of_fmap. exists (k, r). split; [done|].
  by apply elem_of_expired_rows.
Qed.

(** What the loop guarantees whatever the driver answers. *)
Record pruned g m (total : nat) t (r : res ReplayStoreError nat) t' : Prop := {
  pruned_settled : settled r;
  pruned_sub : t' ⊆ t;
  pruned_keeps k x : t !! k = Some x → ¬ expired g m (k, x) → t' !! k = Some x;
  pruned_all n : r = Ok n → n + size t' = total + size t ∧
    ∀ k x, t' !! k = Some x → ¬ expired g m (k, x)
}.

Lemma prune_loop_pruned fuel faults i total g m t :
  size t < fuel →
  let '(r, t') := prune_loop fuel faults i total g m t in pruned g m total t r t'.
Proof.
  revert i total t. induction fuel as [|fuel IH]; intros i total t Hf; [lia|].
  cbn [prune_loop]. destruct (faults i) as [err|]; [by split|].
  pose proof (delete_batch_size g m t) as Hsz.
  pose proof (delete_batch_sub g m t) as Hsub.
  pose proof (delete_batch_keeps g m t) as Hkeep.
  pose proof (delete_batch_last g m t) as Hlast.
  destruct (delete_batch g m t) as [n t1]. cbn [fst snd] in *. case_decide as Hlt.
  - split; [done|done|done|]. intros ? [= <-]. split; [lia|]. naive_solver.
  - assert (size t1 < fuel) as Hf' by (unfold REPLAY_PRUNE_BATCH in *; lia).
    specialize (IH (S i) (total + n) t1 Hf').
    destruct (prune_loop _ _ _ _ _ _ _) as [r t2]. destruct IH as [? ? ? Hall].
    split; [done|by etrans|by eauto|]. intros ? Hr. destruct (Hall _ Hr). split; [lia|done].
Qed.

Lemma prune_loop_no_faults fuel i total g m t :
  size t < fuel → is_ok (prune_loop fuel (λ _, None) i total g m t).1 = true.
Proof.
  revert i total t. induction fuel as [|fuel IH]; intros i total t Hf; [lia|]. cbn [prune_loop].
  pose proof (delete_batch_size g m t) as Hsz. destruct (delete_batch g m t) as [n t1].
  case_decide; [done|]. apply IH. unfold REPLAY_PRUNE_BATCH in *. lia.
Qed.

Lemma prune_loop_ext fuel faults i total g m t :
  (∀ i, faults i = None) →
  prune_loop fuel faults i total g m t = prune_loop fuel (λ _, None) i total g m t.
Proof.
  intros Hn. revert i total t. induction fuel as [|fuel IH]; intros; simpl; [done|].
  rewrite Hn. destruct (delete_batch g m t). by case_decide.
Qed.

Lemma prune_older_than_sub faults g min_epoch t :
  let '(_, t') := prune_older_than faults g min_epoch t in
  t' ⊆ t ∧ filter (λ kv, ¬ expired g (as_i64 min_epoch) kv) t ⊆ t'.
Proof.
  unfold prune_older_than.
  pose proof (prune_loop_pruned (S (size t)) faults 0 0 g (as_i64 min_epoch) t ltac:(lia)) as Hp.
  destruct (prune_loop _ _ _ _ _ _ _) as [r t']. destruct Hp as [_ Hsub Hkeep _].
  split; [done|]. apply map_subseteq_spec. intros k x [Hk Hn]%map_lookup_filter_Some.
  by apply Hkeep.
Qed.

(** Pruning the marker table in batches is one range delete.  The loop ends for every
    table; with no failure of the database it removes exactly the markers of the group
    whose epoch is below the bound and returns their number; and whatever fails, no other
    marker is lost. *)
Theorem prune_older_than_exact faults g min_epoch t :
  let old := expired g (as_i64 min_epoch) in
  let '(r, t') := prune_older_than faults g min_epoch t in
  settled r ∧ t' ⊆ t ∧
  filter (λ kv, ¬ old kv) t ⊆ t' ∧
  (∀ n, r = Ok n → t' = filter (λ kv, ¬ old kv) t ∧ n + size t' = size t) ∧
  ((∀ i, faults i = None) → is_ok r = true).
Proof.
  intros old. pose proof (prune_older_than_sub faults g min_epoch t) as Hsub.
  unfold prune_older_than in *.
  pose proof (prune_loop_pruned (S (size t)) faults 0 0 g (as_i64 min_epoch) t ltac:(lia)) as Hp.
  assert ((∀ i, faults i = None) →
    is_ok (prune_loop (S (size t)) faults 0 0 g (as_i64 min_epoch) t).1 = true) as Hok.
  { intros Hn. rewrite prune_loop_ext by done. by apply prune_loop_no_faults; lia. }
  destruct (prune_loop _ _ _ _ _ _ _) as [r t']. destruct Hp as [Hs _ _ Hall], Hsub.
  split_and!; [done..| |by apply Hok].
  intros n Hn. destruct (Hall n Hn) as [Hsz Hno]. split; [|done].
  apply map_subseteq_po; [|done]. apply map_subseteq_spec. intros k x Hk.
  apply map_lookup_filter_Some. split; [by eapply lookup_weaken|by apply Hno].
Qed.

End table.

(** ** The cache *)

#[local] Instance marker_le_total : Total marker_le.
Proof.
  intros [a x] [b y]. unfold marker_le. simpl.
  destruct (N.lt_trichotomy a b) as [?|[->|?]]; [auto| |auto].
  destruct (total bytes_le x y); auto.
Qed.

#[local] Instance marker_le_trans : Transitive marker_le.
Proof.
  intros [a x] [b y] [c z]. unfold marker_le. simpl.
  intros [?|[-> ?]] [?|[-> ?]]; [left; lia|auto|auto|]. right. split; [done|by etrans].
Qed.

Section cache.
Implicit Types (c : gmap Bytes N).

(** The entries by age. *)
Abbreviation by_age c := (merge_sort marker_le ((λ kv, (kv.2, kv.1)) <$> map_to_list c)).

Lemma by_age_perm c : by_age c ≡ₚ (λ kv, (kv.2, kv.1)) <$> map_to_list c.
Proof. apply merge_sort_Permutation. Qed.

Lemma elem_of_by_age c x id : (x, id) ∈ by_age c ↔ c !! id = Some x.
Proof.
  rewrite by_age_perm, list_elem_of_fmap. split.
  - intros ([k v] & [= -> ->] & Hin). by apply elem_of_map_to_list.
  - intros Hl. exists (id, x). split; [done|]. by apply elem_of_map_to_list.
Qed.

Lemma length_by_age c : length (by_age c) = size c.
Proof. by rewrite by_age_perm, length_fmap, length_map_to_list. Qed.

Lemma NoDup_by_age_ids c : NoDup (by_age c).*2.
Proof.
  rewrite by_age_perm, <- list_fmap_compose. apply NoDup_fst_map_to_list.
Qed.

Lemma elem_of_evicted c id : id ∈ (evicted c).*2 → ∃ x, (x, id) ∈ evicted c ∧ c !! id = Some x.
Proof.
  intros ([x id'] & -> & Hin)%list_elem_of_fmap. exists x. split; [done|].
  apply elem_of_by_age. revert Hin. apply subseteq_take.
Qed.

Lemma NoDup_evicted c : NoDup (evicted c).*2.
Proof.
  unfold evicted. rewrite fmap_take. eapply sublist_NoDup; [|apply sublist_take].
  apply NoDup_by_age_ids.
Qed.

(** An entry that stays is not older than one that goes. *)
Lemma evicted_older c x y id :
  x ∈ evicted c → (y, id) ∉ evicted c → c !! id = Some y → marker_le x (y, id).
Proof.
  unfold evicted. set (n := size c - _). intros Hx Hy Hin%elem_of_by_age.
  assert (StronglySorted marker_le (by_age c)) as Hs by (apply StronglySorted_merge_sort; apply _).
  rewrite <- (take_drop n (by_age c)) in Hs, Hin.
  apply elem_of_app in Hin as [Hin|Hin]; [done|].
  by eapply (StronglySorted_app_1_elem_of marker_le).
Qed.

End cache.

(** The in-memory replay cache is bounded and forgets the oldest epochs first.  Capping
    leaves at most 4096 entries, drops only what exceeds the bound, changes no entry that
    stays, and no entry that goes is of a later epoch than one that stays. *)
Theorem cap_seen_cache_oldest s :
  size (seen (cap_seen_cache s)) = size (seen s) `min` REPLAY_MEMORY_CACHE_MAX ∧
  seen (cap_seen_cache s) ⊆ seen s ∧
  ∀ id x id' y, seen s !! id = Some x → seen (cap_seen_cache s) !! id = None →
    seen (cap_seen_cache s) !! id' = Some y → (x ≤ y)%N.
Proof.
  unfold cap_seen_cache. case_decide as Hle; [split_and!; [lia|done|]; congruence|].
  cbn [seen set_seen]. rewrite foldl_deletes.
  assert (length (evicted (seen s)).*2 = size (seen s) - REPLAY_MEMORY_CACHE_MAX) as Hlen.
  { unfold evicted. rewrite length_fmap, length_take, length_by_age. lia. }
  split_and!.
  - assert (size (foldr delete (seen s) (evicted (seen s)).*2) + length (evicted (seen s)).*2
      = size (seen s)); [|lia].
    apply size_deletes; [apply NoDup_evicted|]. intros k (x & _ & Hx)%elem_of_evicted. eauto.
  - apply map_subseteq_spec. intros k x. rewrite lookup_deletes. by case_decide.
  - intros id x id' y Hx. rewrite !lookup_deletes.
    case_decide as Hin; [|congruence]. intros _. case_decide as Hn; [done|]. intros Hy.
    apply elem_of_evicted in Hin as (x' & Hin & Hx'). simplify_eq.
    destruct (evicted_older _ _ y id' Hin) as [?|[? _]]; simpl in *; [|done|lia|lia].
    intros Hc. apply Hn. apply list_elem_of_fmap. by exists (y, id').
Qed.

(** ** Verification and application *)

Section events.
Context `{!GroupEnv}.
Implicit Types (amb : Ambient) (e : GroupEvent) (s : GroupState) (t : Table).

(** What a verified event satisfies. *)
Record verified amb e s t (role : Role) : Prop := {
  ver_group : g_group_id (envelope e) = group_id s;
  ver_epoch : g_epoch (envelope e) = epoch s;
  ver_advances : epoch_advances s (payload (envelope e)) = Ok tt;
  ver_signed : ∃ bytes,
    protocol_signing.verify (actor (envelope e)) (signature (envelope e)) bytes = true ∧
    let v := envelope e in
    (unsigned_bytes (version v) (g_group_id v) (event_id v) (nonce v) (g_epoch v) (actor v)
       (timestamp v) (payload v) = Ok bytes ∨
     legacy_unsigned_bytes (version v) (g_group_id v) (event_id v) (nonce v) (g_epoch v)
       (actor v) (timestamp v) (payload v) = Ok bytes);
  ver_fresh : check_replay (contains_fault amb) s t (event_id (envelope e)) = Ok tt;
  ver_role : actor_role s (envelope e) = Ok role;
  ver_allowed : allowed s (envelope e) role = true
}.

Lemma verify_verified amb e s t role : verify amb e s t = Ok role → verified amb e s t role.
Proof.
  unfold verify.
  intros ([] & _ & ([] & Hg%ensure_Ok & ([] & He%ensure_Ok & ([] & _ & ([] & Ha &
    (enc & _ & ([] & _ & ([] & _ & (u & Hu & (l & Hl & ([] & Hsig%ensure_Ok &
    (i & _ & ([] & _ & ([] & Hf & (r & Hr & ([] & Hal%ensure_Ok & [= <-])%bind_Ok)%bind_Ok
    )%bind_Ok)%bind_Ok)%bind_Ok)%bind_Ok)%bind_Ok)%bind_Ok)%bind_Ok)%bind_Ok)%bind_Ok
    )%bind_Ok)%bind_Ok)%bind_Ok)%bind_Ok)%bind_Ok.
  apply bool_decide_eq_true in Hg, He. split; try done.
  apply orb_true_iff in Hsig as [Hk|Hk]; [exists u|exists l]; (split; [exact Hk|]).
  - by left.
  - by right.
Qed.

Lemma verified_owner amb e s t role :
  verified amb e s t role → role = Owner → actor (envelope e) = owner s.
Proof.
  intros [_ _ _ _ _ Hr _] ->. unfold actor_role in Hr.
  destruct (decide (actor (envelope e) = owner s)) as [|Hne]; [done|].
  rewrite bool_decide_false in Hr by done.
  destruct (bool_decide (is_Some _)); [done|]. by destruct (_ && _).
Qed.

(** The table after recording the marker: one new row, or a refusal. *)
Lemma record_marker_cases amb v s t :
  (∃ t', record_marker amb v s t = (Ok tt, t') ∧
     (replay_store s = false → t' = t) ∧
     (replay_store s = true → t !! (group_id s, event_id v) = None ∧
        t' = <[(group_id s, event_id v) :=
                 mkMarker (as_i64 (g_epoch v)) (as_i64 (record_now_secs amb))]> t)) ∨
  (∃ err, record_marker amb v s t = (Err err, t)).
Proof.
  unfold record_marker, record. destruct (replay_store s); [|by left; exists t].
  destruct (record_fault amb); [by eauto|]. destruct (t !! _) eqn:Ht; [by eauto|].
  left. eexists. done.
Qed.

(** The state after recording the event. *)
Definition committed amb e s : GroupState :=
  let s1 := mutate (payload (envelope e)) s in
  cap_seen_cache (set_seen (<[event_id (envelope e) := g_epoch (envelope e)]> (seen s1)) s1).

Lemma commit_cases amb e s t :
  (∃ t1, record_marker amb (envelope e) s t = (Ok tt, t1) ∧
     (commit amb e s t = (Ok tt, committed amb e s, t1) ∨
      ∃ n, payload (envelope e) = PEpochChanged n ∧
        commit amb e s t = (Ok tt, (prune_replay amb (committed amb e s) t1).1,
                            (prune_replay amb (committed amb e s) t1).2))) ∨
  (∃ err, commit amb e s t = (Err err, s, t)).
Proof.
  unfold commit. destruct (record_marker_cases amb (envelope e) s t) as [(t1 & Hr & _)|(err & Hr)];
    rewrite Hr; [|by eauto].
  left. exists t1. split; [done|]. unfold committed.
  destruct (payload (envelope e)) eqn:Hp; [by left..|]. right. exists ep. split; [done|].
  by destruct (prune_replay _ _ _).
Qed.

(** Application: accepted, or refused with the state and the table unchanged. *)
Lemma apply_to_cases amb e s t :
  (∃ role, verified amb e s t role ∧ apply_to amb e s t = commit amb e s t ∧
     (commit amb e s t).1.1 = Ok tt) ∨
  (is_ok (apply_to amb e s t).1.1 = false ∧
   (apply_to amb e s t).1.2 = s ∧ (apply_to amb e s t).2 = t).
Proof.
  unfold apply_to. destruct (verify amb e s t) as [role|err|] eqn:Hv; [|by right..].
  destruct (commit_cases amb e s t) as [(t1 & _ & [Hc|(n & _ & Hc)])|(err & Hc)].
  - left. exists role. rewrite Hc. eauto using verify_verified.
  - left. exists role. rewrite Hc. eauto using verify_verified.
  - right. by rewrite Hc.
Qed.

Lemma cap_seen_cache_frame s :
  group_id (cap_seen_cache s) = group_id s ∧ owner (cap_seen_cache s) = owner s ∧
  epoch (cap_seen_cache s) = epoch s ∧ members (cap_seen_cache s) = members s ∧
  invited (cap_seen_cache s) = invited s ∧ replay_store (cap_seen_cache s) = replay_store s.
Proof. unfold cap_seen_cache. by case_decide. Qed.

(** An accepted event changes the roster and the epoch as its payload says. *)
Lemma apply_to_frame amb e s t s' t' :
  apply_to amb e s t = (Ok tt, s', t') →
  ∃ role, verified amb e s t role ∧
  let s1 := mutate (payload (envelope e)) s in
  group_id s' = group_id s ∧ owner s' = owner s ∧ replay_store s' = replay_store s ∧
  epoch s' = epoch s1 ∧ members s' = members s1 ∧ invited s' = invited s1.
Proof.
  intros Ha. destruct (apply_to_cases amb e s t) as [(role & Hv & Heq & _)|(Hno & _)];
    [|by rewrite Ha in Hno].
  exists role. split; [done|]. intros s1. rewrite Ha in Heq.
  pose proof (cap_seen_cache_frame
    (set_seen (<[event_id (envelope e) := g_epoch (envelope e)]> (seen s1)) s1))
    as (Hg & Ho & He & Hm & Hi & Hs).
  assert (group_id s1 = group_id s ∧ owner s1 = owner s ∧ replay_store s1 = replay_store s)
    as (<- & <- & <-) by (unfold s1; by destruct (payload _)).
  destruct (commit_cases amb e s t) as [(t1 & _ & [Hc|(n & _ & Hc)])|(err & Hc)];
    rewrite Hc in Heq; simplify_eq; done.
Qed.

(** C6: Only the owner and the peer concerned change a group.  An accepted event is signed by
    its actor; a peer enters the roster only by its own event and only when invited, which
    uses up the invitation; a peer disappears from it only by its own event or the owner's;
    only the owner invites and advances the epoch, which never goes back; and the owner of
    the group never changes. *)
Theorem roster_authority amb e s t s' t' :
  apply_to amb e s t = (Ok tt, s', t') →
  let v := envelope e in
  (∃ bytes, protocol_signing.verify (actor v) (signature v) bytes = true ∧
    (unsigned_bytes (version v) (g_group_id v) (event_id v) (nonce v) (g_epoch v) (actor v)
       (timestamp v) (payload v) = Ok bytes ∨
     legacy_unsigned_bytes (version v) (g_group_id v) (event_id v) (nonce v) (g_epoch v)
       (actor v) (timestamp v) (payload v) = Ok bytes)) ∧
  owner s' = owner s ∧
  (∀ x, members s !! x = None → is_Some (members s' !! x) →
    x = actor v ∧ x ∈ invited s ∧ x ∉ invited s') ∧
  (∀ x, is_Some (members s !! x) → members s' !! x = None →
    x = actor v ∨ actor v = owner s) ∧
  (∀ x, x ∉ invited s → x ∈ invited s' → actor v = owner s) ∧
  (epoch s' = epoch s ∨ (epoch s < epoch s')%N ∧ actor v = owner s).
Proof.
  intros Ha v. apply apply_to_frame in Ha as (role & Hv & _ & -> & _ & -> & -> & ->).
  split; [apply Hv|]. split; [done|]. pose proof (verified_owner _ _ _ _ _ Hv) as Ho.
  destruct Hv as [_ _ Hadv _ _ _ Hal]. fold v in Hadv, Hal, Ho |- *.
  unfold allowed in Hal. destruct (payload v) eqn:Hp; simpl in *;
    rewrite ?andb_true_iff, ?bool_decide_eq_true in Hal.
  - split_and!; [by intros ? -> []|intros ? []; congruence| |by left].
    intros x Hx [->%elem_of_singleton|]%elem_of_union; [by apply Ho|done].
  - destruct Hal as [-> Hi]. split_and!; [| |set_solver|by left].
    + intros x Hx Hs. destruct (decide (x = actor v)) as [->|]; [set_solver|].
      rewrite lookup_insert_ne, Hx in Hs by done. by destruct Hs.
    + intros x [r Hx] Hn. apply lookup_insert_None in Hn as [Hn _]. congruence.
  - destruct Hal as [_ ->]. split_and!; [| |done|by left].
    + intros x Hx [r Hs]. by apply lookup_delete_Some in Hs as [_ Hs]; simplify_eq.
    + intros x [r Hx] [->|Hn]%lookup_delete_None; [by left|congruence].
  - split_and!; [|by right; apply Ho|done|by left].
    intros x Hx [r Hs]. by apply lookup_delete_Some in Hs as [_ Hs]; simplify_eq.
  - split_and!; [by intros ? -> []|by right; apply Ho|done|by left].
  - split_and!; [by intros ? -> []|by right; apply Ho|done|].
    right. split; [|by apply Ho]. case_decide; [|lia]. by destruct (checked _).
Qed.

(** ** Replays *)

(** What happens to a group: events arrive, markers are pruned. *)
Inductive GroupOp : Type :=
| OApply (amb : Ambient) (e : GroupEvent)
| OPrune (amb : Ambient).

Definition op (o : GroupOp) (st : GroupState * Table) : GroupState * Table :=
  match o with
  | OApply amb e => let '(_, s', t') := apply_to amb e st.1 st.2 in (s', t')
  | OPrune amb => prune_replay amb st.1 st.2
  end.

Definition run_ops (ops : list GroupOp) (st : GroupState * Table) : GroupState * Table :=
  foldl (λ st o, op o st) st ops.

Definition i64_top : N := 9223372036854775807.

(** The event is behind the state: its marker is stored, or its epoch has left the window. *)
Definition spent (gid eid : Bytes) (ep : N) (st : GroupState * Table) : Prop :=
  group_id st.1 = gid ∧ replay_store st.1 = true ∧ (ep ≤ epoch st.1)%N ∧
  ((ep + REPLAY_WINDOW_PRIOR_EPOCHS < epoch st.1)%N ∨
   ∃ x, st.2 !! (gid, eid) = Some (mkMarker (as_i64 ep) x)).

Lemma as_i64_small n : (n ≤ i64_top)%N → as_i64 n = Z.of_N n.
Proof. intros. unfold as_i64, i64_top in *. by rewrite decide_True. Qed.

Lemma prune_spent amb gid eid ep st :
  (epoch st.1 ≤ i64_top)%N → spent gid eid ep st → spent gid eid ep (prune_replay amb st.1 st.2).
Proof.
  destruct st as [s t]. unfold spent, prune_replay. simpl. intros Hle (Hg & Hs & Hep & Hsp).
  rewrite Hs. split_and!; [done..|].
  destruct (decide (ep + REPLAY_WINDOW_PRIOR_EPOCHS < epoch s)%N) as [|Heq]; [by left|].
  destruct Hsp as [|[x Hx]]; [by left|].
  set (m := (epoch s - REPLAY_WINDOW_PRIOR_EPOCHS)%N).
  pose proof (prune_older_than_sub (prune_faults amb) (group_id s) m t) as Hp.
  destruct (prune_older_than _ _ _ _) as [r t']. destruct Hp as [_ Hp].
  right. exists x. eapply lookup_weaken; [|exact Hp]. apply map_lookup_filter_Some.
  split; [done|]. unfold expired. simpl. rewrite !as_i64_small by lia.
  intros [_ Hlt]. subst m. lia.
Qed.

Lemma epoch_mono amb e s t : (epoch s ≤ epoch (apply_to amb e s t).1.2)%N.
Proof.
  destruct (apply_to amb e s t) as [[r s'] t'] eqn:Ha. simpl.
  destruct (apply_to_cases amb e s t) as [(role & Hv & Heq & Hok)|(_ & Hs & _)];
    [|by rewrite Ha in Hs; simpl in Hs; subst].
  rewrite Ha in Heq. rewrite <- Heq in Hok. simpl in Hok. subst r.
  apply apply_to_frame in Ha as (role' & [_ _ Hadv _ _ _ _] & _ & _ & _ & -> & _).
  unfold epoch_advances in Hadv. destruct (payload _); simpl; try done.
  case_decide; [|lia]. by destruct (checked _).
Qed.

(** Recording a marker keeps the ones there are. *)
Lemma record_marker_keeps amb v s t k x :
  t !! k = Some x → (record_marker amb v s t).2 !! k = Some x.
Proof.
  intros Hk. destruct (record_marker_cases amb v s t) as [(t' & -> & Hn & Hy)|(err & ->)]; [|done].
  simpl. destruct (replay_store s); [|by rewrite Hn]. destruct (Hy eq_refl) as [Hf ->].
  rewrite lookup_insert_ne; [done|]. intros <-. congruence.
Qed.

Lemma apply_spent amb e gid eid ep s t :
  (epoch (op (OApply amb e) (s, t)).1 ≤ i64_top)%N →
  spent gid eid ep (s, t) → spent gid eid ep (op (OApply amb e) (s, t)).
Proof.
  intros Hle Hsp. simpl in *. pose proof (epoch_mono amb e s t) as Hm.
  destruct (apply_to_cases amb e s t) as [(role & Hv & Heq & Hok)|(_ & Hs & Ht)].
  2: { destruct (apply_to amb e s t) as [[r s'] t']. simpl in *. by subst. }
  destruct (apply_to amb e s t) as [[r s'] t'] eqn:Ha. rewrite <- Heq in Hok. simpl in *. subst r.
  pose proof (apply_to_frame _ _ _ _ _ _ Ha) as (_ & _ & Hg & _ & Hst & He & _).
  destruct Hsp as (Hgid & Hs & Hep & Hsp). simpl in *.
  destruct (commit_cases amb e s t) as [(t1 & Hr & Hc)|(err & Hc)]; [|by rewrite Hc in Heq].
  assert (∀ s2, group_id s2 = gid → replay_store s2 = true → (epoch s ≤ epoch s2)%N →
    spent gid eid ep (s2, t1)) as Hmid.
  { intros s2 ? ? ?. split_and!; simpl; [done..|lia|]. destruct Hsp as [|[x Hx]]; [left; lia|].
    right. exists x. pose proof (record_marker_keeps amb (envelope e) s t _ _ Hx) as Hk.
    by rewrite Hr in Hk. }
  destruct Hc as [Hc|(n & Hn & Hc)]; rewrite Hc in Heq; injection Heq as Hs' Ht'; subst.
  - apply Hmid; [congruence|congruence|lia].
  - apply (prune_spent amb _ _ _ (committed amb e s, t1)); [done|]. simpl in *.
    apply Hmid; [congruence|congruence|lia].
Qed.

Lemma epoch_mono_op o st : (epoch st.1 ≤ epoch (op o st).1)%N.
Proof.
  destruct o as [amb e|amb]; simpl; [|done]. pose proof (epoch_mono amb e st.1 st.2) as Hm.
  by destruct (apply_to _ _ _ _) as [[??]?].
Qed.

Lemma epoch_mono_run ops st : (epoch st.1 ≤ epoch (run_ops ops st).1)%N.
Proof.
  revert st. induction ops as [|o ops IH]; intros st; simpl; [done|].
  etrans; [apply epoch_mono_op|apply IH].
Qed.

Lemma run_spent ops gid eid ep st :
  (epoch (run_ops ops st).1 ≤ i64_top)%N →
  spent gid eid ep st → spent gid eid ep (run_ops ops st).
Proof.
  revert st. induction ops as [|o ops IH]; intros st Hle Hsp; [done|].
  apply IH; [done|]. pose proof (epoch_mono_run ops (op o st)) as Hm. unfold run_ops in *.
  pose proof (epoch_mono_op o st) as Hm'. destruct o as [amb e|amb].
  - destruct st as [s t]. apply apply_spent; [|done]. exact (N.le_trans _ _ _ Hm Hle).
  - apply prune_spent; [|done]. exact (N.le_trans _ _ _ Hm' (N.le_trans _ _ _ Hm Hle)).
Qed.

(** An accepted event is spent at once. *)
Lemma accepted_spent amb e s t s' t' :
  apply_to amb e s t = (Ok tt, s', t') → replay_store s = true → (epoch s' ≤ i64_top)%N →
  spent (group_id s) (event_id (envelope e)) (epoch s) (s', t').
Proof.
  intros Ha Hst Hle. pose proof (epoch_mono amb e s t) as Hm.
  destruct (apply_to_cases amb e s t) as [(role & Hv & Heq & _)|(Hno & _)];
    [|by rewrite Ha in Hno].
  pose proof (apply_to_frame _ _ _ _ _ _ Ha) as (_ & _ & Hg & _ & Hst' & _).
  rewrite Ha in Heq, Hm. simpl in Hm. pose proof (ver_epoch _ _ _ _ _ Hv) as Hep.
  destruct (commit_cases amb e s t) as [(t1 & Hr & Hc)|(err & Hc)]; [|by rewrite Hc in Heq].
  assert (t1 !! (group_id s, event_id (envelope e))
    = Some (mkMarker (as_i64 (epoch s)) (as_i64 (record_now_secs amb)))) as Hrow.
  { destruct (record_marker_cases amb (envelope e) s t) as [(t2 & Hr' & _ & Hy)|(err & Hr')];
      rewrite Hr in Hr'; [|done]. injection Hr' as <-. destruct (Hy Hst) as [_ ->].
    by rewrite lookup_insert_eq, Hep. }
  destruct Hc as [Hc|(n & Hn & Hc)]; rewrite Hc in Heq; injection Heq as -> ->.
  - split_and!; simpl; [done|congruence|lia|eauto].
  - apply (prune_spent amb _ _ _ (committed amb e s, t1)); [done|]. simpl in *.
    split_and!; simpl; [done|congruence|lia|eauto].
Qed.

(** A spent event is refused by every state over the store, whatever its cache remembers,
    unless its epoch is the event's and the store has forgotten the event. *)
Lemma spent_refused amb e s t s3 :
  let ep := g_epoch (envelope e) in
  spent (g_group_id (envelope e)) (event_id (envelope e)) ep (s, t) →
  group_id s3 = group_id s → replay_store s3 = true →
  (epoch s3 = ep → (epoch s ≤ ep + REPLAY_WINDOW_PRIOR_EPOCHS)%N) →
  is_ok (apply_to amb e s3 t).1.1 = false ∧ (apply_to amb e s3 t).1.2 = s3 ∧
  (apply_to amb e s3 t).2 = t.
Proof.
  intros ep (Hg & _ & Hep & Hsp) Hg3 Hs3 He3. simpl in *.
  destruct (apply_to_cases amb e s3 t) as [(role & [_ Hv _ _ Hf _ _] & _)|]; [|done].
  exfalso. destruct Hsp as [|[x Hx]]; [specialize (He3 (eq_sym Hv)); lia|]. unfold check_replay, contains in Hf.
  apply bind_Ok in Hf as ([] & _ & Hf). rewrite Hs3, Hg3, Hg, Hx in Hf.
  by destruct (contains_fault amb).
Qed.

(** C5: With a replay store an accepted event is not accepted again.  After any further
    events and prunings the group refuses it and nothing changes; and so does every other
    state over the same store, rebuilt with any cache, any roster and any epoch, except that
    a state put back to the very epoch of the event is covered only while the group is within
    the retention window of that epoch (the current epoch and the two before it), since
    markers older than that are pruned.  Epochs stay in the range of the signed column that
    stores them. *)
Theorem replay_refused amb e s t s' t' ops amb' s3 :
  replay_store s = true →
  apply_to amb e s t = (Ok tt, s', t') →
  (epoch (run_ops ops (s', t')).1 ≤ i64_top)%N →
  group_id s3 = group_id s → replay_store s3 = true →
  (epoch s3 = g_epoch (envelope e) →
     epoch (run_ops ops (s', t')).1 ≤ g_epoch (envelope e) + REPLAY_WINDOW_PRIOR_EPOCHS)%N →
  let t2 := (run_ops ops (s', t')).2 in
  is_ok (apply_to amb' e s3 t2).1.1 = false ∧ (apply_to amb' e s3 t2).1.2 = s3 ∧
  (apply_to amb' e s3 t2).2 = t2.
Proof.
  intros Hst Ha Hle Hg3 Hs3 He3 t2.
  pose proof (epoch_mono_run ops (s', t')) as Hm.
  assert (spent (group_id s) (event_id (envelope e)) (epoch s) (run_ops ops (s', t'))) as Hsp.
  { apply run_spent; [done|]. eapply accepted_spent; [done..|]. simpl in *. lia. }
  apply apply_to_frame in Ha as (role & Hv & _).
  rewrite <- (ver_group _ _ _ _ _ Hv) in Hsp, Hg3. rewrite <- (ver_epoch _ _ _ _ _ Hv) in Hsp.
  apply (spent_refused amb' e (run_ops ops (s', t')).1 t2); [|destruct Hsp; congruence|done..].
  subst t2. by destruct (run_ops ops (s', t')).
Qed.

(** ** Signing *)

(** What is signed verifies.  An event signed for the group and its current epoch, of
    acceptable size and age, whose id is not known as a replay, passes verification with
    the role of the signer whenever that role permits it; and the event an encoding
    decodes to is the event that was encoded. *)
Theorem signed_group_event_verifies secret amb s t ts nce p e role enc legacy bytes :
  sign_with_nonce secret (group_id s) (epoch s) ts nce p = Ok e →
  epoch_advances s p = Ok tt →
  to_stdvec p = Some enc → (N.of_nat (length enc) ≤ MAX_GROUP_EVENT_PAYLOAD)%N →
  (abs_diff (now_secs amb) ts ≤ MAX_GROUP_EVENT_CLOCK_SKEW_SECS)%N →
  to_stdvec (GROUP_EVENT_VERSION, group_id s, event_id (envelope e), nce, epoch s,
    public secret, ts, p) = Some legacy →
  check_replay (contains_fault amb) s t (event_id (envelope e)) = Ok tt →
  actor_role s (envelope e) = Ok role → allowed s (envelope e) role = true →
  group_events.encode e = Ok bytes →
  verify amb e s t = Ok role ∧ actor (envelope e) = public secret ∧
  group_events.decode bytes = Ok e.
Proof.
  unfold sign_with_nonce.
  intros (eid & Hid & (u & Hu & [= <-])%bind_Ok)%bind_Ok Hadv Henc Hlen Hts Hleg Hf Hr Hal Hby.
  set (v := mkEnvelope _ _ _ _ _ _ _ _ _) in *.
  assert (envelope (from_payload v p) = v) as Hv by by destruct p.
  rewrite Hv in *. split; [|split; [done|]].
  - unfold verify. rewrite Hv. subst v. cbn [version g_group_id g_epoch payload timestamp actor
      event_id nonce signature] in *.
    rewrite !(bool_decide_true (_ = _)) by done. cbn [ensure mbind res_bind].
    assert (variant_matches (from_payload (mkEnvelope GROUP_EVENT_VERSION (group_id s) eid nce
      (epoch s) (public secret) ts p (sign secret u)) p) = true) as -> by by destruct p.
    cbn [ensure mbind res_bind]. rewrite Hadv. cbn [mbind res_bind]. rewrite Henc.
    cbn [ok_or mbind res_bind]. rewrite !bool_decide_true by done. cbn [ensure mbind res_bind].
    rewrite Hu. cbn [mbind res_bind]. unfold legacy_unsigned_bytes. rewrite Hleg.
    cbn [ok_or mbind res_bind]. rewrite verify_signed. cbn [ensure mbind res_bind].
    rewrite Hid. cbn [mbind res_bind]. rewrite bool_decide_true by done.
    cbn [ensure mbind res_bind]. rewrite Hf. cbn [mbind res_bind]. rewrite Hr.
    cbn [mbind res_bind]. by rewrite Hal.
  - unfold group_events.encode, group_events.decode in *. apply ok_or_Ok in Hby.
    by rewrite (postcard_roundtrip _ _ Hby).
Qed.

(** ** Removal and invitations *)

(** Removing an invited peer does not revoke its invitation.  A removal leaves the
    invitations as they are, so the peer may still join: its join is permitted in the
    state after the removal, and applied it makes the peer a member. *)
Theorem removed_invitee_may_join amb e s t s' t' x v :
  apply_to amb e s t = (Ok tt, s', t') →
  payload (envelope e) = PMemberRemoved x → x ∈ invited s → x ≠ owner s →
  actor v = x → payload v = PMemberJoined x →
  members s' !! x = None ∧
  actor_role s' v = Ok Member ∧ allowed s' v Member = true ∧
  members (mutate (payload v) s') !! x = Some Member.
Proof.
  intros Ha Hp Hi Ho Hv Hpv.
  apply apply_to_frame in Ha as (role & _ & _ & Hown & _ & _ & Hm & Hinv).
  rewrite Hp in Hm, Hinv. simpl in Hm, Hinv.
  assert (members s' !! x = None) as Hn by (by rewrite Hm, lookup_delete_eq).
  split; [done|]. unfold actor_role, allowed. rewrite Hpv, Hv, Hinv, Hown, Hn.
  rewrite (bool_decide_false (x = owner s)) by done.
  rewrite (bool_decide_false (is_Some None)) by (by intros []).
  rewrite !bool_decide_true by done. split_and!; [done..|]. simpl. by rewrite lookup_insert_eq.
Qed.

End events.

(** ** A concrete group *)

#[local] Instance ser_payload : Ser GroupEventPayload.
Proof.
  refine (ser_inj
    (B := (PublicKey + PublicKey) + ((PublicKey + PublicKey)
          + ((option string * option string) + N)))
    (λ p, match p with
          | PMemberInvited m => inl (inl m)
          | PMemberJoined m => inl (inr m)
          | PMemberLeft m => inr (inl (inl m))
          | PMemberRemoved m => inr (inl (inr m))
          | PMetadataChanged n d => inr (inr (inl (n, d)))
          | PEpochChanged n => inr (inr (inr n))
          end)
    (λ x, Some match x with
               | inl (inl m) => PMemberInvited m
               | inl (inr m) => PMemberJoined m
               | inr (inl (inl m)) => PMemberLeft m
               | inr (inl (inr m)) => PMemberRemoved m
               | inr (inr (inl (n, d))) => PMetadataChanged n d
               | inr (inr (inr n)) => PEpochChanged n
               end) _).
  by intros [].
Defined.

#[local] Instance ser_envelope : Ser GroupEventEnvelope.
Proof.
  refine (ser_inj
    (λ v, (version v, g_group_id v, event_id v, nonce v, g_epoch v, actor v, timestamp v,
           payload v, signature v))
    (λ '(a, b, c, d, e, f, g, h, i), Some (mkEnvelope a b c d e f g h i)) _).
  by intros [].
Defined.

#[local] Instance ser_event : Ser GroupEvent.
Proof.
  refine (ser_inj (B := N * GroupEventEnvelope)
    (λ e, match e with
          | MemberInvited v => (0, v) | MemberJoined v => (1, v) | MemberLeft v => (2, v)
          | MemberRemoved v => (3, v) | MetadataChanged v => (4, v) | EpochChanged v => (5, v)
          end)%N
    (λ '(n, v), match n with
                | 0 => Some (MemberInvited v) | 1 => Some (MemberJoined v)
                | 2 => Some (MemberLeft v) | 3 => Some (MemberRemoved v)
                | 4 => Some (MetadataChanged v) | 5 => Some (EpochChanged v)
                | _ => None
                end)%N _).
  by intros [].
Defined.

#[local] Instance map_order : RowOrder.
Proof. refine {| rows := map_to_list |}. done. Defined.

#[local] Instance sample_group_env : GroupEnv :=
  {| group_ed25519 := toy_ed25519; group_hasher := toy_hasher; overflow_checks := true;
     payload_postcard := ser_postcard; unsigned_postcard := ser_postcard;
     legacy_postcard := ser_postcard; id_postcard := ser_postcard;
     event_postcard := ser_postcard |}.

Definition gale : PublicKey := [x01].
Definition hugo : PublicKey := [x02].

Definition sample_group : GroupState := with_replay_store [x07] gale.

Definition calm : Ambient := mkAmbient 1000 None 1000 None (λ _, None).

Definition dummy_event : GroupEvent := EpochChanged (mkEnvelope 0 [] [] [] 0 [] 0 (PEpochChanged 0) []).

(** An event of a peer for the state, with a one-byte nonce. *)
Definition authored (who : PublicKey) (s : GroupState) (n : Byte.byte) (p : GroupEventPayload)
    : GroupEvent :=
  match sign_with_nonce who (group_id s) (epoch s) 1000 [n] p with
  | Ok e => e
  | _ => dummy_event
  end.

Definition after (who : PublicKey) (n : Byte.byte) (p : GroupEventPayload)
    (st : GroupState * Table) : GroupState * Table :=
  op (OApply calm (authored who st.1 n p)) st.

(** The owner invites [hugo]. *)
Definition invited_group : GroupState * Table :=
  after gale x01 (PMemberInvited hugo) (sample_group, ∅).

Definition sample_join : GroupEvent := authored hugo invited_group.1 x02 (PMemberJoined hugo).
Definition joined_group : GroupState * Table := op (OApply calm sample_join) invited_group.
Definition sample_removal : GroupEvent :=
  authored gale invited_group.1 x03 (PMemberRemoved hugo).
Definition removed_group : GroupState * Table := op (OApply calm sample_removal) invited_group.

Lemma accepted_op amb e st :
  is_ok (apply_to amb e st.1 st.2).1.1 = true →
  apply_to amb e st.1 st.2 = (Ok tt, (op (OApply amb e) st).1, (op (OApply amb e) st).2).
Proof. intros Hok. simpl. destruct (apply_to _ _ _ _) as [[[[]| |]?]?]; done. Qed.

Lemma roster_authority_witness :
  let v := envelope sample_join in
  let s := invited_group.1 in
  let s' := joined_group.1 in
  (∃ bytes, protocol_signing.verify (actor v) (signature v) bytes = true ∧
    (unsigned_bytes (version v) (g_group_id v) (event_id v) (nonce v) (g_epoch v) (actor v)
       (timestamp v) (payload v) = Ok bytes ∨
     legacy_unsigned_bytes (version v) (g_group_id v) (event_id v) (nonce v) (g_epoch v)
       (actor v) (timestamp v) (payload v) = Ok bytes)) ∧
  owner s' = owner s ∧
  (∀ x, members s !! x = None → is_Some (members s' !! x) →
    x = actor v ∧ x ∈ invited s ∧ x ∉ invited s') ∧
  (∀ x, is_Some (members s !! x) → members s' !! x = None →
    x = actor v ∨ actor v = owner s) ∧
  (∀ x, x ∉ invited s → x ∈ invited s' → actor v = owner s) ∧
  (epoch s' = epoch s ∨ (epoch s < epoch s')%N ∧ actor v = owner s).
Proof.
  apply (roster_authority calm sample_join invited_group.1 invited_group.2
    joined_group.1 joined_group.2).
  apply accepted_op. vm_compute. reflexivity.
Defined.

Lemma replay_refused_witness :
  let t2 := (run_ops [OPrune calm] joined_group).2 in
  is_ok (apply_to calm sample_join invited_group.1 t2).1.1 = false ∧
  (apply_to calm sample_join invited_group.1 t2).1.2 = invited_group.1 ∧
  (apply_to calm sample_join invited_group.1 t2).2 = t2.
Proof.
  apply (replay_refused calm sample_join invited_group.1 invited_group.2
    joined_group.1 joined_group.2 [OPrune calm] calm invited_group.1).
  - vm_compute. reflexivity.
  - apply accepted_op. vm_compute. reflexivity.
  - decide_compute.
  - reflexivity.
  - vm_compute. reflexivity.
  - intros _. decide_compute.
Defined.

(** The group moves on by three epochs, and prunes. *)
Definition moved_group : GroupState * Table :=
  run_ops [OPrune calm]
    (after gale x05 (PEpochChanged 3) joined_group).

(** A state that is rebuilt over the store starts at epoch 0: three epochs later it accepts
    the invitation of epoch 0 again, as its marker is pruned. *)
Example rebuilt_state_accepts_again :
  let e := authored gale sample_group x01 (PMemberInvited hugo) in
  epoch moved_group.1 = 3%N ∧
  is_ok (apply_to calm e moved_group.1 moved_group.2).1.1 = false ∧
  is_ok (apply_to calm e (with_replay_store [x07] gale) moved_group.2).1.1 = true.
Proof. vm_compute. done. Qed.

Lemma signed_group_event_verifies_witness :
  verify calm sample_join invited_group.1 invited_group.2 = Ok Member ∧
  actor (envelope sample_join) = public (Ed25519 := toy_ed25519) hugo ∧
  group_events.decode (ser sample_join) = Ok sample_join.
Proof.
  apply (@signed_group_event_verifies sample_group_env hugo calm invited_group.1
    invited_group.2 1000 [x02] (PMemberJoined hugo) sample_join Member
    (ser (PMemberJoined hugo))
    (ser (GROUP_EVENT_VERSION, group_id invited_group.1, event_id (envelope sample_join),
      [x02], epoch invited_group.1, hugo, 1000%N, PMemberJoined hugo))
    (ser sample_join)).
  - vm_compute. reflexivity.
  - reflexivity.
  - reflexivity.
  - decide_compute.
  - decide_compute.
  - vm_compute. reflexivity.
  - vm_compute. reflexivity.
  - vm_compute. reflexivity.
  - vm_compute. reflexivity.
  - reflexivity.
Defined.

Lemma removed_invitee_may_join_witness :
  members removed_group.1 !! hugo = None ∧
  actor_role removed_group.1 (envelope sample_join) = Ok Member ∧
  allowed removed_group.1 (envelope sample_join) Member = true ∧
  members (mutate (payload (envelope sample_join)) removed_group.1) !! hugo = Some Member.
Proof.
  apply (removed_invitee_may_join calm sample_removal invited_group.1 invited_group.2
    removed_group.1 removed_group.2 hugo (envelope sample_join)).
  - apply accepted_op. vm_compute. reflexivity.
  - vm_compute. reflexivity.
  - decide_compute.
  - decide_compute.
  - vm_compute. reflexivity.
  - vm_compute. reflexivity.
Defined.

(** The signed column turns epochs from 2^63 on negative: the marker of the current epoch
    2^63 is below the window bound 2^63 - 2, and pruning forgets it. *)
Example epoch_cast_drops_marker :
  let t := (record None [x07] 9223372036854775808 [x01] 1000 ∅).2 in
  contains None t [x07] [x01] = Ok true ∧
  contains None (prune_older_than (λ _, None) [x07] 9223372036854775806 t).2 [x07] [x01]
  = Ok false.
Proof. vm_compute. done. Qed.

Lemma prune_older_than_exact_witness :
  let old := expired [x07] (as_i64 3) in
  let '(r, t') := prune_older_than (λ _, None) [x07] 3 invited_group.2 in
  settled r ∧ t' ⊆ invited_group.2 ∧
  filter (λ kv, ¬ old kv) invited_group.2 ⊆ t' ∧
  (∀ n, r = Ok n → t' = filter (λ kv, ¬ old kv) invited_group.2 ∧
     n + size t' = size invited_group.2) ∧
  ((∀ i : nat, None = (None : Fault)) → is_ok r = true).
Proof. apply (prune_older_than_exact (λ _, None) [x07] 3 invited_group.2). Defined.
