(* ===== verification/CallSession.v ===== *)
(** * Call sessions: [src/call/mod.rs], [src/call/session.rs], [src/call/frame.rs]

    [Module call] has the identity and kind of a call, [Module media_session] the tracks of
    a real-time media session, [Module session] the authenticated lifecycle of one call,
    [Module frame] the wrapping media clock.  Instants are milliseconds of a monotonic
    clock and are arguments. *)

From Stdlib Require Import NArith.
From stdpp Require Import prelude gmap.
From S2P Require Import Prelude Signing.

Module call.

Abbreviation CallId := Bytes.

Inductive CallKind : Type := Voice | Video.

#[export] Instance kind_eq_dec : EqDecision CallKind.
Proof. solve_decision. Defined.

Definition audio_enabled (k : CallKind) : bool := true.
Definition video_enabled (k : CallKind) : bool :=
  match k with Video => true | Voice => false end.

End call.

(** ** Tracks *)

Module media_session.
Import call.

Inductive MediaTrack : Type := TVoice | TScreen.
Inductive TrackState : Type := Stopped | Starting | Active | Reconnecting.

#[export] Instance track_eq_dec : EqDecision MediaTrack.
Proof. solve_decision. Defined.

#[export] Instance track_state_eq_dec : EqDecision TrackState.
Proof. solve_decision. Defined.

#[export] Instance track_countable : Countable MediaTrack.
Proof.
  refine (inj_countable' (λ t, match t with TVoice => false | TScreen => true end)
    (λ b, match b with false => TVoice | true => TScreen end) _).
  by intros [].
Defined.

Record MediaPresence : Type := mkPresence {
  session_active : bool;
  voice : TrackState;
  screen : TrackState
}.

Record RealtimeMediaSession : Type := mkMedia {
  id : option CallId;
  peer : option PublicKey;
  tracks : gmap MediaTrack TrackState
}.

Implicit Types (m : RealtimeMediaSession) (t : MediaTrack).

Definition new : RealtimeMediaSession :=
  mkMedia None None {[TVoice := Stopped; TScreen := Stopped]}.

Definition begin (i : CallId) (p : PublicKey) m : RealtimeMediaSession :=
  mkMedia (Some i) (Some p) (tracks m).

Definition set_track t (st : TrackState) m : RealtimeMediaSession :=
  mkMedia (id m) (peer m) (<[t := st]> (tracks m)).

Definition track t m : TrackState := default Stopped (tracks m !! t).

Definition reconnect_track t m : RealtimeMediaSession :=
  if bool_decide (track t m = Active) then set_track t Reconnecting m else m.

Definition stop_track t m : RealtimeMediaSession :=
  let m' := set_track t Stopped m in
  if bool_decide (map_Forall (λ _ st, st = Stopped) (tracks m'))
  then mkMedia None None (tracks m')
  else m'.

Definition stop_all m : RealtimeMediaSession :=
  mkMedia None None (<[TScreen := Stopped]> (<[TVoice := Stopped]> (tracks m))).

Definition presence m : MediaPresence :=
  mkPresence (bool_decide (is_Some (id m))) (track TVoice m) (track TScreen m).

End media_session.

(** ** The lifecycle of one call *)

Module session.
Import call.

Inductive SessionState : Type :=
| Idle | Offered | Ringing | Active | Reconnecting | Declined | Ended.

#[export] Instance session_state_eq_dec : EqDecision SessionState.
Proof. solve_decision. Defined.

Definition is_terminal (st : SessionState) : bool :=
  match st with Declined | Ended => true | _ => false end.

Inductive SessionSignal : Type :=
| Offer (call_id : CallId) (kind : CallKind)
| Accept (call_id : CallId)
| Decline (call_id : CallId)
| Leave (call_id : CallId)
| Reconnect (call_id : CallId) (generation : N).

Definition signal_call_id (sg : SessionSignal) : CallId :=
  match sg with
  | Offer c _ | Accept c | Decline c | Leave c | Reconnect c _ => c
  end.

Inductive SessionError : Type := UnauthorizedPeer | WrongCall | WrongState | TimedOut.

Record SessionUpdate : Type := mkUpdate { changed : bool; up_state : SessionState }.

Record SessionDiagnostics : Type := mkDiag {
  accepted : N;
  declined : N;
  leaves : N;
  reconnects : N;
  unauthorized : N;
  timeouts : N
}.

Record CallSession : Type := mkSession {
  call_id : CallId;
  kind : CallKind;
  local_peer : PublicKey;
  remote_peer : PublicKey;
  state : SessionState;
  deadline : option N;
  generation : N;
  diagnostics : SessionDiagnostics
}.

Implicit Types (c : CallSession) (sg : SessionSignal).

(** [saturating_add(1)] on a counter *)
Definition sat_incr (n : N) : N := N.min (n + 1) u64_max.

Definition count_accepted (d : SessionDiagnostics) : SessionDiagnostics :=
  mkDiag (sat_incr (accepted d)) (declined d) (leaves d) (reconnects d) (unauthorized d)
    (timeouts d).
Definition count_declined (d : SessionDiagnostics) : SessionDiagnostics :=
  mkDiag (accepted d) (sat_incr (declined d)) (leaves d) (reconnects d) (unauthorized d)
    (timeouts d).
Definition count_leave (d : SessionDiagnostics) : SessionDiagnostics :=
  mkDiag (accepted d) (declined d) (sat_incr (leaves d)) (reconnects d) (unauthorized d)
    (timeouts d).
Definition count_reconnect (d : SessionDiagnostics) : SessionDiagnostics :=
  mkDiag (accepted d) (declined d) (leaves d) (sat_incr (reconnects d)) (unauthorized d)
    (timeouts d).
Definition count_unauthorized (d : SessionDiagnostics) : SessionDiagnostics :=
  mkDiag (accepted d) (declined d) (leaves d) (reconnects d) (sat_incr (unauthorized d))
    (timeouts d).
Definition count_timeout (d : SessionDiagnostics) : SessionDiagnostics :=
  mkDiag (accepted d) (declined d) (leaves d) (reconnects d) (unauthorized d)
    (sat_incr (timeouts d)).

(** A move: new state, deadline and diagnostics. *)
Definition goto (st : SessionState) (dl : option N)
    (f : SessionDiagnostics → SessionDiagnostics) c : CallSession :=
  mkSession (call_id c) (kind c) (local_peer c) (remote_peer c) st dl (generation c)
    (f (diagnostics c)).

Definition set_kind (k : CallKind) c : CallSession :=
  mkSession (call_id c) k (local_peer c) (remote_peer c) (state c) (deadline c)
    (generation c) (diagnostics c).

Definition set_generation (g : N) c : CallSession :=
  mkSession (call_id c) (kind c) (local_peer c) (remote_peer c) (state c) (deadline c)
    g (diagnostics c).

Definition new (i : CallId) (k : CallKind) (l r : PublicKey) : CallSession :=
  mkSession i k l r Idle None 0 (mkDiag 0 0 0 0 0 0).

(** The result and the session afterwards. *)
Abbreviation Applied := (res SessionError SessionUpdate * CallSession)%type.

Definition update (b : bool) c : Applied := (Ok (mkUpdate b (state c)), c).

Definition start_offer (now timeout : N) c : Applied :=
  if bool_decide (state c ≠ Idle) then (Err WrongState, c)
  else update true (goto Offered (Some (now + timeout)%N) id c).

Definition authorize (p : PublicKey) c : res SessionError unit * CallSession :=
  if bool_decide (p ≠ remote_peer c)
  then (Err UnauthorizedPeer, goto (state c) (deadline c) count_unauthorized c)
  else (Ok tt, c).

Definition receive_offer (now : N) (p : PublicKey) (k : CallKind) (timeout : N) c : Applied :=
  match authorize p c with
  | (Err e, c') => (Err e, c')
  | (Panicked, c') => (Panicked, c')
  | (Ok _, c') =>
      if bool_decide (state c' ≠ Idle) then (Err WrongState, c')
      else update true (goto Ringing (Some (now + timeout)%N) id (set_kind k c'))
  end.

(** Five seconds. *)
Definition SIGNAL_TIMEOUT : N := 5000.

Definition apply (now : N) (p : PublicKey) sg c : Applied :=
  match authorize p c with
  | (Err e, c') => (Err e, c')
  | (Panicked, c') => (Panicked, c')
  | (Ok _, c) =>
      if bool_decide (signal_call_id sg ≠ call_id c) then (Err WrongCall, c)
      else match sg with
      | Offer _ k => receive_offer now p k SIGNAL_TIMEOUT c
      | Accept _ =>
          match state c with
          | Offered | Ringing | Reconnecting => update true (goto Active None count_accepted c)
          | Active => update false c
          | _ => (Err WrongState, c)
          end
      | Decline _ =>
          match state c with
          | Offered | Ringing => update true (goto Declined None count_declined c)
          | Declined => update false c
          | _ => (Err WrongState, c)
          end
      | Leave _ =>
          if is_terminal (state c) then update false c
          else update true (goto Ended None count_leave c)
      | Reconnect _ g =>
          match state c with
          | Active =>
              if bool_decide (generation c < g)%N
              then update true (goto Reconnecting (Some (now + SIGNAL_TIMEOUT)%N)
                                  count_reconnect (set_generation g c))
              else (Err WrongState, c)
          | Reconnecting =>
              if bool_decide (g = generation c) then update false c else (Err WrongState, c)
          | _ => (Err WrongState, c)
          end
      end
  end.

(** The update of an overdue session, if it is one, and the session afterwards. *)
Definition expire (now : N) c : option SessionUpdate * CallSession :=
  if match deadline c with Some d => bool_decide (d ≤ now)%N | None => false end
     && match state c with Offered | Ringing | Reconnecting => true | _ => false end
  then let c' := goto Ended None count_timeout c in (Some (mkUpdate true (state c')), c')
  else (None, c).

End session.

(** ** The media clock *)

Module frame.

Definition FRAME_MS : N := 20.
Definition SAMPLE_RATE : N := 48000.
Definition SAMPLES_PER_FRAME : N := (SAMPLE_RATE / 1000) * FRAME_MS.

Record AudioSeq : Type := mkSeq { sequence : N; timestamp : N }.

(** [a.wrapping_add(b)] and [a.wrapping_sub(b)] on [u32] *)
Definition u32_wrapping_add (a b : N) : N := (a + b) mod (u32_max + 1).
Definition u32_wrapping_sub (a b : N) : N := (a + (u32_max + 1) - b) mod (u32_max + 1).

Definition next_frame (s : AudioSeq) : AudioSeq :=
  mkSeq (u32_wrapping_add (sequence s) 1)
    (u32_wrapping_add (timestamp s) (SAMPLES_PER_FRAME mod (u32_max + 1))).

Definition sequence_newer_than (candidate reference : N) : bool :=
  bool_decide (candidate ≠ reference)
  && bool_decide (u32_wrapping_sub candidate reference < 2147483648)%N.

Definition sequence_older_than (candidate reference : N) : bool :=
  bool_decide (reference ≠ candidate)
  && bool_decide (u32_wrapping_sub reference candidate < 2147483648)%N.

End frame.
