(* ===== verification/CallSessionFacts.v ===== *)
(** * Facts on call sessions

    The lifecycle of a session as a step relation with its invariants, who can move a
    session, pending sessions time out, independence of the media tracks, and the serial
    arithmetic of the media clock. *)

From Stdlib Require Import NArith ZArith Strings.Byte.
From stdpp Require Import prelude gmap.
From S2P Require Import Prelude Signing CallSession.

(** ** The lifecycle *)

Section lifecycle.
Import call session.
Implicit Types (c : CallSession) (sg : SessionSignal) (p : PublicKey).

(** The identity of a session. *)
Definition same_call c c' : Prop :=
  call_id c' = call_id c ∧ local_peer c' = local_peer c ∧ remote_peer c' = remote_peer c.

(** What a state machine for a call allows: the edges of the lifecycle. *)
Inductive edge : SessionState → SessionState → Prop :=
| edge_offer : edge Idle Offered
| edge_ring : edge Idle Ringing
| edge_accept st : st = Offered ∨ st = Ringing ∨ st = Reconnecting → edge st Active
| edge_decline st : st = Offered ∨ st = Ringing → edge st Declined
| edge_leave st : is_terminal st = false → edge st Ended
| edge_reconnect : edge Active Reconnecting.

(** The sessions the operations make of a session. *)
Inductive session_step c : CallSession → Prop :=
| step_start now timeout : session_step c (start_offer now timeout c).2
| step_receive now p k timeout : session_step c (receive_offer now p k timeout c).2
| step_apply now p sg : session_step c (apply now p sg c).2
| step_expire now : session_step c (expire now c).2.

(** A session waits for an answer exactly when it has a deadline. *)
Definition waiting (st : SessionState) : bool :=
  match st with Offered | Ringing | Reconnecting => true | _ => false end.

Definition timed c : Prop := is_Some (deadline c) ↔ waiting (state c) = true.

(** Everything an operation may do to a session. *)
Record conservative c c' : Prop := {
  cons_same : same_call c c';
  cons_edge : state c' = state c ∨ edge (state c) (state c');
  cons_generation : (generation c ≤ generation c')%N;
  cons_timed : timed c → timed c'
}.

Lemma conservative_refl c : conservative c c.
Proof. by split; [split| left| |]. Qed.

Lemma conservative_goto st dl f g c :
  edge (state c) st → (is_Some dl ↔ waiting st = true) → (generation c ≤ g)%N →
  conservative c (goto st dl f (set_generation g c)).
Proof. intros He Hd Hg. split; [by split|by right|done|by intros _]. Qed.

Lemma conservative_move st dl f c :
  edge (state c) st → (is_Some dl ↔ waiting st = true) → conservative c (goto st dl f c).
Proof. intros He Hd. split; [by split|by right|done|by intros _]. Qed.

Lemma receive_offer_conservative now p k timeout c :
  conservative c (receive_offer now p k timeout c).2.
Proof.
  unfold receive_offer, authorize. case_bool_decide; [by split; [split|left| |]|].
  case_bool_decide as Hi; [apply conservative_refl|].
  split; [by split| |done|by split].
  right. simpl. rewrite Hi. constructor.
Qed.

Lemma apply_conservative now p sg c : conservative c (apply now p sg c).2.
Proof.
  unfold apply, authorize. case_bool_decide; [by split; [split|left| |]|].
  case_bool_decide; [apply conservative_refl|].
  destruct sg as [i k|i|i|i|i g]; [apply receive_offer_conservative|..].
  - destruct (state c) eqn:Hs; try apply conservative_refl;
      (apply conservative_move; [rewrite Hs; constructor; auto|by split; [intros []|]]).
  - destruct (state c) eqn:Hs; try apply conservative_refl;
      (apply conservative_move; [rewrite Hs; constructor; auto|by split; [intros []|]]).
  - destruct (is_terminal (state c)) eqn:Hs; [apply conservative_refl|].
    apply conservative_move; [by constructor|by split; [intros []|]].
  - destruct (state c) eqn:Hs; try apply conservative_refl.
    + case_bool_decide; [|apply conservative_refl].
      apply conservative_goto; [rewrite Hs; constructor|done|lia].
    + case_bool_decide; apply conservative_refl.
Qed.

Lemma step_conservative c c' : session_step c c' → conservative c c'.
Proof.
  intros [now timeout|now p k timeout|now p sg|now].
  - unfold start_offer. case_bool_decide as Hi; [apply conservative_refl|].
    apply conservative_move; [|done]. rewrite Hi. constructor.
  - apply receive_offer_conservative.
  - apply apply_conservative.
  - unfold expire. destruct (_ && _) eqn:Hd; [|apply conservative_refl].
    apply andb_true_iff in Hd as [_ Hd].
    apply conservative_move; [|by split; [intros []|]]. constructor. by destruct (state c).
Qed.

(** The sessions a call goes through. *)
Inductive reachable (i : CallId) (k : CallKind) (l r : PublicKey) : CallSession → Prop :=
| reach_new : reachable i k l r (new i k l r)
| reach_step c c' : reachable i k l r c → session_step c c' → reachable i k l r c'.

Lemma reachable_inv i k l r c :
  reachable i k l r c →
  timed c ∧ call_id c = i ∧ local_peer c = l ∧ remote_peer c = r.
Proof.
  induction 1 as [|c c' _ (Ht & Hi & Hl & Hr) Hs].
  - split; [by split; [intros []|]|done].
  - apply step_conservative in Hs as [(? & ? & ?) _ _ Ht']. split; [auto|]. by split_and!; congruence.
Qed.

(** Every session follows the lifecycle of a call.  In each reachable session an
    operation keeps the call, the local and the remote peer, moves along an edge of the
    lifecycle or not at all, never leaves a terminal state, never lowers the reconnect
    generation, and a deadline is set exactly while an answer is outstanding. *)
Theorem session_lifecycle i k l r c c' :
  reachable i k l r c → session_step c c' →
  (call_id c' = i ∧ local_peer c' = l ∧ remote_peer c' = r) ∧
  (state c' = state c ∨ edge (state c) (state c')) ∧
  (is_terminal (state c) = true → state c' = state c) ∧
  (generation c ≤ generation c')%N ∧
  (is_Some (deadline c') ↔ state c' = Offered ∨ state c' = Ringing ∨ state c' = Reconnecting).
Proof.
  intros Hr Hs. pose proof (reachable_inv _ _ _ _ _ (reach_step _ _ _ _ _ _ Hr Hs))
    as (Ht & Hid).
  apply step_conservative in Hs as [_ He Hg _].
  split; [done|]. split; [done|]. split.
  - intros Hterm. destruct He as [|He]; [done|].
    destruct He as [| |? [->|[->| ->]]|? [->| ->]|st Hst|]; try done. by rewrite Hst in Hterm.
  - split; [done|]. unfold timed in Ht. rewrite Ht. unfold waiting. destruct (state c'); naive_solver.
Qed.

(** Only the authenticated remote peer moves a session, and only for its own call.  A
    signal from anyone else is refused and counted; a signal for another call, or one
    that does not fit the state, is refused and changes nothing; and a session becomes
    active only by an accept of the remote peer. *)
Theorem session_authority now p sg c :
  let '(r, c') := apply now p sg c in
  (p ≠ remote_peer c →
    r = Err UnauthorizedPeer ∧ c' = goto (state c) (deadline c) count_unauthorized c) ∧
  (p = remote_peer c → ∀ e, r = Err e → c' = c) ∧
  (state c' ≠ state c → p = remote_peer c ∧ signal_call_id sg = call_id c) ∧
  (state c ≠ Active → state c' = Active → sg = Accept (call_id c) ∧ waiting (state c) = true) ∧
  settled r.
Proof.
  unfold apply, authorize. destruct (decide (p = remote_peer c)) as [->|Hp].
  2: { rewrite bool_decide_true by done. split_and!; try done. }
  rewrite bool_decide_false by naive_solver.
  destruct (decide (signal_call_id sg = call_id c)) as [Hc|Hc].
  2: { rewrite bool_decide_true by done. split_and!; try done. }
  rewrite bool_decide_false by naive_solver.
  destruct sg as [i k|i|i|i|i g]; simpl in Hc; subst i.
  - unfold receive_offer, authorize. rewrite bool_decide_false by naive_solver.
    by case_bool_decide; split_and!.
  - by destruct (state c) eqn:Hs; split_and!; rewrite ?Hs.
  - by destruct (state c) eqn:Hs; split_and!; rewrite ?Hs.
  - by destruct (is_terminal (state c)); split_and!.
  - destruct (state c) eqn:Hs; try case_bool_decide; by split_and!; rewrite ?Hs.
Qed.

(** No call rings forever.  A reachable session that waits for an answer has a deadline,
    and from that instant on expiring it ends it, once; a session that does not wait is
    not affected. *)
Theorem pending_session_expires i k l r c :
  reachable i k l r c →
  if waiting (state c)
  then ∃ d, deadline c = Some d ∧
       (∀ now, (d ≤ now)%N → (expire now c).1 = Some (mkUpdate true Ended) ∧
          state (expire now c).2 = Ended ∧
          ∀ later, expire later (expire now c).2 = (None, (expire now c).2)) ∧
       (∀ now, (now < d)%N → expire now c = (None, c))
  else ∀ now, expire now c = (None, c).
Proof.
  intros (Ht & _)%reachable_inv. unfold timed in Ht.
  destruct (waiting (state c)) eqn:Hw.
  - destruct (proj2 Ht eq_refl) as [d Hd]. exists d. split; [done|]. split.
    + intros now Hle. unfold expire. rewrite Hd, bool_decide_true by done.
      unfold waiting in Hw. by rewrite Hw.
    + intros now Hlt. unfold expire. rewrite Hd, bool_decide_false by lia. done.
  - intros now. unfold expire. unfold waiting in Hw. rewrite Hw, andb_false_r. done.
Qed.

End lifecycle.

(** ** Tracks *)

Section tracks.
Import call media_session.
Implicit Types (m : RealtimeMediaSession) (t : MediaTrack).

Lemma track_set t t' st m :
  track t' (set_track t st m) = if decide (t' = t) then st else track t' m.
Proof.
  unfold track, set_track. simpl. case_decide as Ht.
  - subst. by rewrite lookup_insert_eq.
  - by rewrite lookup_insert_ne.
Qed.

(** Tracks are independent and the session lives as long as one of them.  Stopping or
    reconnecting a track leaves the other alone; after a stop the session has lost its
    identity exactly when it had none or both tracks are stopped. *)
Theorem tracks_independent t t' m :
  (∀ x, is_Some (tracks m !! x)) → t' ≠ t →
  track t' (stop_track t m) = track t' m ∧ track t (stop_track t m) = Stopped ∧
  track t' (reconnect_track t m) = track t' m ∧
  (track t (reconnect_track t m) ≠ track t m → track t m = Active) ∧
  session_active (presence (stop_track t m))
  = session_active (presence m) && negb (bool_decide (track t' m = Stopped)).
Proof.
  intros Hall Hne. pose proof (track_set t t' Stopped m) as Hs'.
  pose proof (track_set t t Stopped m) as Hs.
  rewrite decide_False in Hs' by done. rewrite decide_True in Hs by done.
  assert (map_Forall (λ _ st, st = Stopped) (tracks (set_track t Stopped m))
    ↔ track t' m = Stopped) as Hall'.
  { rewrite <- Hs'. split.
    - intros Hf. unfold track. destruct (Hall t') as [st Hst]. apply (Hf t').
      simpl. rewrite lookup_insert_ne, Hst by done. simpl.
      pose proof (Hf t' st) as H. simpl in H. rewrite lookup_insert_ne in H by done.
      by rewrite H.
    - intros Ht x st Hx. simpl in Hx. destruct (decide (x = t)) as [->|Hx'].
      + rewrite lookup_insert_eq in Hx. congruence.
      + assert (x = t') as -> by (by destruct x, t, t').
        unfold track in Ht. simpl in Ht. by rewrite Hx in Ht. }
  unfold stop_track. rewrite (bool_decide_ext _ _ Hall').
  split_and!.
  - by case_bool_decide.
  - by case_bool_decide.
  - unfold reconnect_track. case_bool_decide; [|done]. by rewrite track_set, decide_False.
  - unfold reconnect_track. by case_bool_decide.
  - case_bool_decide; simpl; by rewrite ?andb_false_r, ?andb_true_r.
Qed.

End tracks.

(** ** The media clock *)

Section clock.
Import frame.

Lemma newer_spec a b :
  (a ≤ u32_max)%N → (b ≤ u32_max)%N →
  sequence_newer_than a b = true ↔
  ∃ k, (0 < k < 2147483648)%N ∧ a = u32_wrapping_add b k.
Proof.
  intros Ha Hb. unfold sequence_newer_than, u32_wrapping_add, u32_wrapping_sub, u32_max in *.
  rewrite andb_true_iff, !bool_decide_eq_true. split.
  - intros [Hne Hlt]. exists ((a + (4294967295 + 1) - b) mod (4294967295 + 1))%N.
    zify. Z.to_euclidean_division_equations. lia.
  - intros (k & Hk & ->). zify. Z.to_euclidean_division_equations. lia.
Qed.

(** The serial order of the media clock survives wrap-around.  A sequence number is
    newer than another exactly when it is ahead of it by less than half the range; older
    is the converse of newer, no number is both, distances of exactly half the range are
    neither; and up to that distance every later frame of a stream is newer. *)
Theorem serial_order a b n ts :
  (a ≤ u32_max)%N → (b ≤ u32_max)%N → 0 < n → (N.of_nat n < 2147483648)%N →
  (sequence_newer_than a b = true ↔
     ∃ k, (0 < k < 2147483648)%N ∧ a = u32_wrapping_add b k) ∧
  sequence_older_than a b = sequence_newer_than b a ∧
  sequence_newer_than a b && sequence_older_than a b = false ∧
  sequence_newer_than (u32_wrapping_add b 2147483648) b = false ∧
  sequence_newer_than (sequence (Nat.iter n next_frame (mkSeq b ts))) b = true.
Proof.
  intros Ha Hb Hn Hn'. split; [by apply newer_spec|]. split; [done|].
  assert (∀ m, sequence (Nat.iter m next_frame (mkSeq b ts))
    = u32_wrapping_add b (N.of_nat m)) as Hit.
  { induction m as [|m IH]; simpl.
    - unfold u32_wrapping_add, u32_max in *. zify. Z.to_euclidean_division_equations. lia.
    - rewrite IH. unfold u32_wrapping_add, u32_max in *. zify.
      Z.to_euclidean_division_equations. lia. }
  split_and!.
  - apply not_true_iff_false. rewrite andb_true_iff.
    intros [(k & Hk & ->)%newer_spec H]; [|done..].
    unfold sequence_older_than, u32_wrapping_sub, u32_wrapping_add, u32_max in *.
    rewrite andb_true_iff, !bool_decide_eq_true in H. zify. Z.to_euclidean_division_equations. lia.
  - apply not_true_iff_false. rewrite newer_spec; [|unfold u32_wrapping_add, u32_max;
      zify; Z.to_euclidean_division_equations; lia|done].
    intros (k & Hk & Heq). unfold u32_wrapping_add, u32_max in *. zify.
    Z.to_euclidean_division_equations. lia.
  - rewrite Hit. apply newer_spec; [|done|].
    + unfold u32_wrapping_add, u32_max. zify. Z.to_euclidean_division_equations. lia.
    + exists (N.of_nat n). split; [lia|done].
Qed.

End clock.

(** ** A concrete call *)

Section sample.
Import call session.

Definition ring_id : CallId := [x01; x02].
Definition anna : PublicKey := [x0a].
Definition boris : PublicKey := [x0b].

(** [boris] rings [anna]. *)
Definition ringing_session : CallSession :=
  (receive_offer 100 boris Voice 5000 (new ring_id Voice anna boris)).2.
Definition active_session : CallSession := (apply 200 boris (Accept ring_id) ringing_session).2.

Lemma ringing_reachable : reachable ring_id Voice anna boris ringing_session.
Proof. eapply reach_step; [apply reach_new|apply step_receive]. Qed.

Lemma session_lifecycle_witness :
  (call_id active_session = ring_id ∧ local_peer active_session = anna ∧
   remote_peer active_session = boris) ∧
  (state active_session = state ringing_session ∨
   edge (state ringing_session) (state active_session)) ∧
  (is_terminal (state ringing_session) = true → state active_session = state ringing_session) ∧
  (generation ringing_session ≤ generation active_session)%N ∧
  (is_Some (deadline active_session) ↔ state active_session = Offered ∨
   state active_session = Ringing ∨ state active_session = Reconnecting).
Proof.
  apply (session_lifecycle ring_id Voice anna boris ringing_session active_session).
  - apply ringing_reachable.
  - apply step_apply.
Defined.

Lemma pending_session_expires_witness :
  if waiting (state ringing_session)
  then ∃ d, deadline ringing_session = Some d ∧
       (∀ now, (d ≤ now)%N → (expire now ringing_session).1 = Some (mkUpdate true Ended) ∧
          state (expire now ringing_session).2 = Ended ∧
          ∀ later, expire later (expire now ringing_session).2
                   = (None, (expire now ringing_session).2)) ∧
       (∀ now, (now < d)%N → expire now ringing_session = (None, ringing_session))
  else ∀ now, expire now ringing_session = (None, ringing_session).
Proof.
  apply (pending_session_expires ring_id Voice anna boris ringing_session).
  apply ringing_reachable.
Defined.

End sample.

Section sample_tracks.
Import media_session.

Definition both_active : RealtimeMediaSession :=
  set_track TScreen Active (set_track TVoice Active (begin ring_id boris new)).

Lemma tracks_independent_witness :
  track TVoice (stop_track TScreen both_active) = track TVoice both_active ∧
  track TScreen (stop_track TScreen both_active) = Stopped ∧
  track TVoice (reconnect_track TScreen both_active) = track TVoice both_active ∧
  (track TScreen (reconnect_track TScreen both_active) ≠ track TScreen both_active →
   track TScreen both_active = Active) ∧
  session_active (presence (stop_track TScreen both_active))
  = session_active (presence both_active) && negb (bool_decide (track TVoice both_active = Stopped)).
Proof.
  apply (tracks_independent TScreen TVoice both_active).
  - intros []; vm_compute; eexists; reflexivity.
  - discriminate.
Defined.

End sample_tracks.

Section sample_clock.
Import frame.

Lemma serial_order_witness :
  (sequence_newer_than 1 4294967295 = true ↔
     ∃ k, (0 < k < 2147483648)%N ∧ 1%N = u32_wrapping_add 4294967295 k) ∧
  sequence_older_than 1 4294967295 = sequence_newer_than 4294967295 1 ∧
  sequence_newer_than 1 4294967295 && sequence_older_than 1 4294967295 = false ∧
  sequence_newer_than (u32_wrapping_add 4294967295 2147483648) 4294967295 = false ∧
  sequence_newer_than (sequence (Nat.iter 3 next_frame (mkSeq 4294967295 7))) 4294967295 = true.
Proof.
  apply (serial_order 1 4294967295 3 7); [done|done|lia|done].
Defined.

End sample_clock.
