(* ===== verification/CallWire.v ===== *)
(** * Call messages on the wire: [src/call/wire.rs], [src/call/bounds.rs], [src/call/media.rs]

    [Module bounds] and [Module wire] translate the control messages, the checks on values
    a peer controls, the negotiation of media and the length-prefixed frames; [Module
    media] the fixed header of media datagrams and the sizing of payloads.  Postcard is
    the interface of [Signing]; numbers of the messages are [N]. *)

From Stdlib Require Import Strings.Byte NArith.
From stdpp Require Import prelude gmap strings.
From S2P Require Import Prelude Signing CallSession.

(** ** Big-endian integers *)

Definition byte_of (n : N) : Byte.byte := default x00 (Byte.of_N (n mod 256)).

(** [n.to_be_bytes()] of an integer of [w] bytes and [from_be_bytes]. *)
Fixpoint to_be (w : nat) (n : N) : Bytes :=
  match w with
  | O => []
  | S w' => to_be w' (n / 256) ++ [byte_of n]
  end.

Definition from_be (bs : Bytes) : N := foldl (λ acc b, acc * 256 + Byte.to_N b)%N 0%N bs.

Module wire.
Import call.

Definition CALL_CONTROL_VERSION : N := 1.
Definition MAX_CALL_CONTROL_FRAME_SIZE : N := 65536.

Inductive CallControlFrameError : Type :=
| FrameTooLarge (declared maximum : N)
| TruncatedLength (actual : N)
| TruncatedPayload (declared actual : N)
| Deserialize
| Serialize
| InvalidValue (reason : string).

Inductive AudioCodec : Type := Opus.
Inductive VideoCodec : Type := H264.

#[export] Instance audio_codec_eq_dec : EqDecision AudioCodec.
Proof. solve_decision. Defined.
#[export] Instance video_codec_eq_dec : EqDecision VideoCodec.
Proof. solve_decision. Defined.

Record AudioCapabilities : Type := mkAudioCaps {
  codecs : list AudioCodec;
  sample_rates : list N;
  channels : list N;
  frame_ms : list N
}.

Record VideoCapabilities : Type := mkVideoCaps {
  v_codecs : list VideoCodec;
  max_width : N;
  max_height : N;
  max_fps : N
}.

Record MediaCapabilities : Type := mkCaps {
  audio : AudioCapabilities;
  video : option VideoCapabilities
}.

Record NegotiatedVideo : Type := mkNegVideo {
  codec : VideoCodec;
  width : N;
  height : N;
  fps : N
}.

Record NegotiatedMedia : Type := mkNeg {
  n_audio_codec : AudioCodec;
  n_sample_rate : N;
  n_channels : N;
  n_frame_ms : N;
  n_video : option NegotiatedVideo
}.

Definition v1_defaults : MediaCapabilities :=
  mkCaps (mkAudioCaps [Opus] [48000%N] [1%N] [20%N])
    (Some (mkVideoCaps [H264] 1920 1080 30)).

Inductive RejectReason : Type :=
| RDeclined | RBusy | RBlocked | RUnauthorized | RUnsupportedVersion | RNoCommonAudioCodec
| RNoCommonVideoCodec | RNoAudioDevice | RNoCamera | RPermissionDenied | RProtocolError.

Inductive HangupReason : Type :=
| LocalHangup | RemoteHangup | ConnectionLost | ProtocolError | AuthorizationRevoked
| DeviceError | Shutdown | NegotiationTimeout.

Inductive CallControl : Type :=
| Hello (version : N) (call_id : CallId)
| Offer (call_id : CallId) (kind : CallKind) (capabilities : MediaCapabilities)
| Ringing (call_id : CallId)
| Accept (call_id : CallId) (selected : NegotiatedMedia)
| Reject (call_id : CallId) (reason : RejectReason)
| Busy (call_id : CallId)
| MediaState (call_id : CallId) (audio_muted video_enabled : bool)
| RequestKeyframe (call_id : CallId) (track_id : N)
| KeepAlive (call_id : CallId)
| Reconnect (call_id : CallId) (generation : N)
| Hangup (call_id : CallId) (reason : HangupReason).

End wire.

Module bounds.
Import wire.

Definition MAX_CAPABILITY_LIST_ENTRIES : nat := 8.
Definition MAX_AUDIO_SAMPLE_RATE : N := 192000.
Definition MAX_AUDIO_CHANNELS : N := 8.
Definition MAX_AUDIO_FRAME_MS : N := 120.
Definition MAX_VIDEO_FPS : N := 60.
Definition MAX_VIDEO_WIDTH : N := 1920.
Definition MAX_VIDEO_HEIGHT : N := 1080.

(** [x == 0 || x > max] *)
Definition out_of (max x : N) : bool := bool_decide (x = 0%N) || bool_decide (max < x)%N.

(** [list.len() > MAX_CAPABILITY_LIST_ENTRIES] *)
Definition too_many {A} (l : list A) : bool :=
  bool_decide (MAX_CAPABILITY_LIST_ENTRIES < length l).

Definition validate_audio_capabilities (v : AudioCapabilities) : res string unit :=
  ensure (negb (too_many (codecs v))) "too many audio codecs";;
  ensure (negb (too_many (sample_rates v))) "too many audio sample rates";;
  ensure (negb (too_many (channels v))) "too many audio channel counts";;
  ensure (negb (too_many (frame_ms v))) "too many audio frame durations";;
  ensure (negb (existsb (out_of MAX_AUDIO_SAMPLE_RATE) (sample_rates v)))
    "audio sample rate out of bounds";;
  ensure (negb (existsb (out_of MAX_AUDIO_CHANNELS) (channels v)))
    "audio channel count out of bounds";;
  ensure (negb (existsb (out_of MAX_AUDIO_FRAME_MS) (frame_ms v)))
    "audio frame duration out of bounds".

Definition validate_capabilities (v : MediaCapabilities) : res string unit :=
  validate_audio_capabilities (audio v);;
  match video v with
  | Some vid =>
      ensure (negb (too_many (v_codecs vid))) "too many video codecs";;
      ensure (negb (bool_decide (max_width vid = 0%N) || bool_decide (max_height vid = 0%N)))
        "video dimensions must be non-zero";;
      ensure (negb (bool_decide (MAX_VIDEO_WIDTH < max_width vid)%N
                    || bool_decide (MAX_VIDEO_HEIGHT < max_height vid)%N))
        "video resolution out of bounds";;
      ensure (negb (out_of MAX_VIDEO_FPS (max_fps vid))) "video frame rate out of bounds"
  | None => Ok tt
  end.

Definition validate_negotiated_video (v : NegotiatedVideo) : res string unit :=
  ensure (negb (bool_decide (width v = 0%N) || bool_decide (height v = 0%N)))
    "negotiated video dimensions must be non-zero";;
  ensure (negb (bool_decide (MAX_VIDEO_WIDTH < width v)%N
                || bool_decide (MAX_VIDEO_HEIGHT < height v)%N))
    "negotiated video resolution out of bounds";;
  ensure (negb (out_of MAX_VIDEO_FPS (fps v))) "negotiated video frame rate out of bounds".

Definition validate_negotiated_media (v : NegotiatedMedia) : res string unit :=
  ensure (negb (out_of MAX_AUDIO_SAMPLE_RATE (n_sample_rate v)))
    "negotiated audio sample rate out of bounds";;
  ensure (negb (out_of MAX_AUDIO_CHANNELS (n_channels v)))
    "negotiated audio channel count out of bounds";;
  ensure (negb (out_of MAX_AUDIO_FRAME_MS (n_frame_ms v)))
    "negotiated audio frame duration out of bounds";;
  match n_video v with
  | Some vid => validate_negotiated_video vid
  | None => Ok tt
  end.

End bounds.

Module control.
Import call wire bounds.

(** [local.iter().find(|x| remote.contains(x))] *)
Definition first_common {A} `{EqDecision A} (l r : list A) : option A :=
  find (λ x, bool_decide (x ∈ r)) l.

Definition negotiate_video (l r : option VideoCapabilities) : option (option NegotiatedVideo) :=
  match l, r with
  | Some l, Some r =>
      c ← first_common (v_codecs l) (v_codecs r);
      mret (Some (mkNegVideo c (max_width l `min` max_width r)
              (max_height l `min` max_height r) (max_fps l `min` max_fps r)))
  | _, _ => Some None
  end%N.

Definition negotiate (l r : MediaCapabilities) : option NegotiatedMedia :=
  if negb (is_ok (validate_capabilities l)) then None
  else if negb (is_ok (validate_capabilities r)) then None
  else
    c ← first_common (codecs (audio l)) (codecs (audio r));
    rate ← first_common (sample_rates (audio l)) (sample_rates (audio r));
    ch ← first_common (channels (audio l)) (channels (audio r));
    ms ← first_common (frame_ms (audio l)) (frame_ms (audio r));
    vid ← negotiate_video (video l) (video r);
    mret (mkNeg c rate ch ms vid).

Section frames.
Context `{!Postcard CallControl}.

Definition encode_call_control (m : CallControl) : res CallControlFrameError Bytes :=
  payload ← ok_or Serialize (to_stdvec m);
  ensure (bool_decide (N.of_nat (length payload) ≤ MAX_CALL_CONTROL_FRAME_SIZE)%N)
    (FrameTooLarge (N.of_nat (length payload)) MAX_CALL_CONTROL_FRAME_SIZE);;
  mret (to_be 4 (N.of_nat (length payload)) ++ payload).

(** The checks on a decoded message. *)
Definition validate_control (m : CallControl) : res CallControlFrameError unit :=
  match m with
  | Offer _ _ caps =>
      match validate_capabilities caps with
      | Err reason => Err (InvalidValue reason)
      | _ => Ok tt
      end
  | Accept _ selected =>
      match validate_negotiated_media selected with
      | Err reason => Err (InvalidValue reason)
      | _ => Ok tt
      end
  | _ => Ok tt
  end.

Definition decode_call_control (frame : Bytes) : res CallControlFrameError CallControl :=
  ensure (bool_decide (4 ≤ length frame)) (TruncatedLength (N.of_nat (length frame)));;
  let declared := from_be (take 4 frame) in
  ensure (bool_decide (declared ≤ MAX_CALL_CONTROL_FRAME_SIZE)%N)
    (FrameTooLarge declared MAX_CALL_CONTROL_FRAME_SIZE);;
  let payload := drop 4 frame in
  ensure (bool_decide (N.of_nat (length payload) = declared))
    (TruncatedPayload declared (N.of_nat (length payload)));;
  m ← ok_or Deserialize (from_bytes payload);
  validate_control m;;
  mret m.

(** [read_call_control] on the bytes a stream still delivers: a message and the rest, the
    end of the stream, or an error.  A stream that ends inside the prefix counts as ended.
    Errors of the transport other than the end of the stream are not modelled; the code
    passes them on. *)
Inductive StreamError : Type := TooLarge | UnexpectedEof | Invalid (e : CallControlFrameError).

Definition read_call_control (stream : Bytes) : res StreamError (option (CallControl * Bytes)) :=
  if bool_decide (length stream < 4) then Ok None
  else
    let declared := from_be (take 4 stream) in
    ensure (bool_decide (declared ≤ MAX_CALL_CONTROL_FRAME_SIZE)%N) TooLarge;;
    ensure (bool_decide (4 + N.to_nat declared ≤ length stream)) UnexpectedEof;;
    match decode_call_control (take (4 + N.to_nat declared) stream) with
    | Ok m => Ok (Some (m, drop (4 + N.to_nat declared) stream))
    | Err e => Err (Invalid e)
    | Panicked => Panicked
    end.

(** The messages of a stream, until it ends or a message is refused. *)
Fixpoint read_all (fuel : nat) (stream : Bytes) : list CallControl :=
  match fuel with
  | O => []
  | S fuel' =>
      match read_call_control stream with
      | Ok (Some (m, rest)) => m :: read_all fuel' rest
      | _ => []
      end
  end.

End frames.
End control.

Module media.
Import call.

Definition MEDIA_HEADER_LEN : nat := 40.
Definition MEDIA_VERSION : Byte.byte := x01.
Definition FLAG_KEYFRAME : N := 1.
Definition FLAG_DISCONTINUITY : N := 2.
Definition KNOWN_FLAGS : N := N.lor FLAG_KEYFRAME FLAG_DISCONTINUITY.
Definition MAX_ENCODED_VIDEO_FRAME_BYTES : N := 2097152.
Definition MAX_VIDEO_FRAGMENTS_PER_FRAME : N := 2048.
Definition MAGIC : Bytes := String.list_byte_of_string "BCL1".

Inductive MediaKind : Type := Audio | Video.

#[export] Instance media_kind_eq_dec : EqDecision MediaKind.
Proof. solve_decision. Defined.

Inductive MediaDatagramError : Type :=
| TruncatedHeader (actual : nat)
| BadMagic
| BadVersion (v : Byte.byte)
| UnknownKind (k : Byte.byte)
| InvalidFlags (flags : N)
| InvalidCallId
| InvalidTrackId
| InvalidFragmentCount
| FragmentIndexOutOfBounds (index count : N)
| DatagramsUnavailable
| DatagramTooSmall (maximum header : nat)
| TooManyFragments (count maximum : N)
| EncodedFrameTooLarge (advertised maximum : N).

Definition to_wire (k : MediaKind) : Byte.byte :=
  match k with Audio => x01 | Video => x02 end.

Definition from_wire (b : Byte.byte) : res MediaDatagramError MediaKind :=
  match b with
  | x01 => Ok Audio
  | x02 => Ok Video
  | _ => Err (UnknownKind b)
  end.

Record MediaDatagram : Type := mkDatagram {
  kind : MediaKind;
  flags : N;
  call_id : CallId;
  track_id : N;
  sequence : N;
  timestamp : N;
  fragment_index : N;
  fragment_count : N;
  payload : Bytes
}.

Definition validate_fragment_meta (index count : N) (payload_len : N)
    : res MediaDatagramError unit :=
  ensure (bool_decide (count ≠ 0%N)) InvalidFragmentCount;;
  ensure (bool_decide (count ≤ MAX_VIDEO_FRAGMENTS_PER_FRAME)%N)
    (TooManyFragments count MAX_VIDEO_FRAGMENTS_PER_FRAME);;
  ensure (bool_decide (index < count)%N) (FragmentIndexOutOfBounds index count);;
  ensure (bool_decide (payload_len ≤ MAX_ENCODED_VIDEO_FRAME_BYTES)%N)
    (EncodedFrameTooLarge payload_len MAX_ENCODED_VIDEO_FRAME_BYTES).

Definition encode (d : MediaDatagram) : Bytes :=
  MAGIC ++ [MEDIA_VERSION] ++ [to_wire (kind d)] ++ to_be 2 (flags d) ++ call_id d
  ++ to_be 4 (track_id d) ++ to_be 4 (sequence d) ++ to_be 4 (timestamp d)
  ++ to_be 2 (fragment_index d) ++ to_be 2 (fragment_count d) ++ payload d.

(** [&input[from..to]] *)
Definition slice (i j : nat) (input : Bytes) : Bytes := take (j - i) (drop i input).

(** [flags & !KNOWN_FLAGS] on [u16] *)
Definition unknown_flags (f : N) : N := N.ldiff f KNOWN_FLAGS.

Definition parse (input : Bytes) : res MediaDatagramError MediaDatagram :=
  ensure (bool_decide (MEDIA_HEADER_LEN ≤ length input)) (TruncatedHeader (length input));;
  ensure (bool_decide (slice 0 4 input = MAGIC)) BadMagic;;
  let version := nth 4 input x00 in
  ensure (bool_decide (version = MEDIA_VERSION)) (BadVersion version);;
  k ← from_wire (nth 5 input x00);
  let f := from_be (slice 6 8 input) in
  ensure (bool_decide (unknown_flags f = 0%N)) (InvalidFlags f);;
  let call_bytes := slice 8 24 input in
  ensure (negb (forallb (λ b, bool_decide (b = x00)) call_bytes)) InvalidCallId;;
  let track := from_be (slice 24 28 input) in
  ensure (bool_decide (track ≠ 0%N)) InvalidTrackId;;
  let seq := from_be (slice 28 32 input) in
  let ts := from_be (slice 32 36 input) in
  let index := from_be (slice 36 38 input) in
  let count := from_be (slice 38 40 input) in
  validate_fragment_meta index count (N.of_nat (length input - MEDIA_HEADER_LEN));;
  mret (mkDatagram k f call_bytes track seq ts index count (drop MEDIA_HEADER_LEN input)).

(** ** Payload sizing *)

Definition payload_capacity (datagram_size : nat) : res MediaDatagramError nat :=
  if decide (MEDIA_HEADER_LEN ≤ datagram_size) then Ok (datagram_size - MEDIA_HEADER_LEN)
  else Err (DatagramTooSmall datagram_size MEDIA_HEADER_LEN).

Record DatagramSizer : Type := mkSizer {
  refresh_interval : N;
  last_refresh : option N;
  last_maximum : option nat
}.

Definition sizer_new (interval : N) : DatagramSizer := mkSizer interval None None.

Definition refresh (s : DatagramSizer) : DatagramSizer :=
  mkSizer (refresh_interval s) None None.

(** The clock is an argument; [duration_since] saturates at zero. *)
Definition payload_capacity_from (now : N) (maximum : option nat) (s : DatagramSizer)
    : res MediaDatagramError nat * DatagramSizer :=
  let should_refresh :=
    match last_refresh s with
    | None => true
    | Some at_ => bool_decide (refresh_interval s ≤ now - at_)%N
    end in
  if should_refresh then
    match maximum with
    | None => (Err DatagramsUnavailable, s)
    | Some m =>
        match payload_capacity m with
        | Ok capacity => (Ok capacity, mkSizer (refresh_interval s) (Some now) (Some m))
        | r => (r, s)
        end
    end
  else
    match last_maximum s with
    | Some m => (payload_capacity m, s)
    | None => (Panicked, s)
    end.

End media.
