(* ===== verification/CallWireFacts.v ===== *)
(** * Facts on call messages

    Round trips of control frames, streams of frames and media datagrams, the canonical
    form of a parsed datagram, soundness of the negotiation and of the bounds, and sizing
    without panics. *)

From Stdlib Require Import Strings.Byte NArith ZArith.
From stdpp Require Import prelude gmap strings.
From S2P Require Import Prelude Signing Concrete CallSession CallWire.

(** ** Big-endian integers *)

Lemma length_to_be w n : length (to_be w n) = w.
Proof. revert n. induction w as [|w IH]; intros n; simpl; [done|]. rewrite length_app, IH. simpl. lia. Qed.

Lemma to_N_byte_of n : Byte.to_N (byte_of n) = (n mod 256)%N.
Proof.
  unfold byte_of. destruct (Byte.of_N (n mod 256)) as [b|] eqn:Hb.
  - by apply Byte.to_of_N.
  - apply Byte.of_N_None_iff in Hb. pose proof (N.mod_lt n 256). lia.
Qed.

Lemma byte_of_to_N b : byte_of (Byte.to_N b) = b.
Proof.
  unfold byte_of. pose proof (Byte.to_N_bounded b). rewrite N.mod_small by lia.
  by rewrite Byte.of_to_N.
Qed.

Lemma from_be_snoc bs b : from_be (bs ++ [b]) = (from_be bs * 256 + Byte.to_N b)%N.
Proof. unfold from_be. by rewrite foldl_app. Qed.

Lemma from_be_to_be w n : (n < 256 ^ N.of_nat w)%N → from_be (to_be w n) = n.
Proof.
  revert n. induction w as [|w IH]; intros n Hn; simpl.
  - unfold from_be. simpl in *. lia.
  - rewrite from_be_snoc, to_N_byte_of, IH.
    + rewrite N.mul_comm. symmetry. apply N.div_mod'.
    + rewrite Nat2N.inj_succ, N.pow_succ_r' in Hn. apply N.Div0.div_lt_upper_bound. lia.
Qed.

Lemma to_be_from_be bs : to_be (length bs) (from_be bs) = bs.
Proof.
  induction bs as [|b bs IH] using rev_ind; [done|].
  rewrite length_app, Nat.add_comm. simpl. rewrite from_be_snoc.
  pose proof (Byte.to_N_bounded b) as Hb.
  replace ((from_be bs * 256 + Byte.to_N b) / 256)%N with (from_be bs).
  - rewrite IH. f_equal. f_equal. rewrite <- (byte_of_to_N b) at 2. unfold byte_of.
    do 2 f_equal. rewrite N.add_comm, N.Div0.mod_add. done.
  - symmetry. rewrite N.div_add_l, N.div_small by lia. lia.
Qed.

Lemma from_be_bound bs : (from_be bs < 256 ^ N.of_nat (length bs))%N.
Proof.
  induction bs as [|b bs IH] using rev_ind; [done|].
  rewrite from_be_snoc, length_app, Nat.add_comm. simpl length.
  replace (1 + length bs) with (S (length bs)) by lia.
  rewrite Nat2N.inj_succ, N.pow_succ_r'.
  pose proof (Byte.to_N_bounded b). lia.
Qed.

(** ** Control frames *)

Section frames.
Import call wire bounds control.
Context `{!Postcard CallControl}.

(** The prefix of an encoded frame. *)
Lemma encode_call_control_Ok m f :
  encode_call_control m = Ok f →
  ∃ payload, to_stdvec m = Some payload ∧
    (N.of_nat (length payload) ≤ MAX_CALL_CONTROL_FRAME_SIZE)%N ∧
    take 4 f = to_be 4 (N.of_nat (length payload)) ∧ drop 4 f = payload ∧
    length f = 4 + length payload ∧ from_be (take 4 f) = N.of_nat (length payload).
Proof.
  unfold encode_call_control.
  intros (payload & Hp%ok_or_Ok & ([] & Hl%ensure_Ok%bool_decide_eq_true & Hf)%bind_Ok)%bind_Ok.
  exists payload. assert (f = to_be 4 (N.of_nat (length payload)) ++ payload) as ->
    by (unfold mret, res_ret in Hf; congruence).
  assert (take 4 (to_be 4 (N.of_nat (length payload)) ++ payload)
    = to_be 4 (N.of_nat (length payload))) as Ht 
    by (by apply take_app_length'; rewrite length_to_be).
  split; [done|]. split; [done|]. split; [done|]. split; [done|]. split; [done|].
  rewrite Ht. apply from_be_to_be. unfold MAX_CALL_CONTROL_FRAME_SIZE in Hl.
  change (256 ^ N.of_nat 4)%N with 4294967296%N. lia.
Qed.

Lemma decode_encode m f :
  encode_call_control m = Ok f → validate_control m = Ok tt → decode_call_control f = Ok m.
Proof.
  intros (payload & Hp & Hl & _ & Hd & Hlen & Hbe)%encode_call_control_Ok Hv.
  unfold decode_call_control. rewrite Hbe, Hd, !bool_decide_true by (done || lia). simpl.
  rewrite (postcard_roundtrip _ _ Hp). simpl. by rewrite Hv.
Qed.

Lemma read_encode m f rest :
  encode_call_control m = Ok f → validate_control m = Ok tt →
  read_call_control (f ++ rest) = Ok (Some (m, rest)).
Proof.
  intros He Hv. pose proof (decode_encode m f He Hv) as Hd.
  apply encode_call_control_Ok in He as (payload & _ & Hl & _ & _ & Hlen & Hbe).
  unfold read_call_control. rewrite bool_decide_false by (rewrite length_app; lia).
  rewrite !(take_app_le f rest 4) by lia. rewrite Hbe, Nat2N.id.
  rewrite !bool_decide_true by (done || rewrite length_app; lia).
  cbn [ensure mbind res_bind].
  by rewrite take_app_length', drop_app_length', Hd by lia.
Qed.

(** C37: What one side writes on the control stream the other reads.  A stream of encoded
    messages, each acceptable, is read back as the same messages in the same order,
    whatever follows an incomplete prefix at its end. *)
Theorem control_stream_roundtrip (ms : list CallControl) (fs : list Bytes) (tail : Bytes) fuel :
  Forall2 (λ m f, encode_call_control m = Ok f ∧ validate_control m = Ok tt) ms fs →
  length tail < 4 → length ms < fuel →
  read_all fuel (concat fs ++ tail) = ms.
Proof.
  intros Hall Ht. revert fuel. induction Hall as [|m f ms fs [He Hv] _ IH]; intros fuel Hf;
    (destruct fuel as [|fuel]; simpl in *; [lia|]).
  - unfold read_call_control. by rewrite bool_decide_true.
  - rewrite <- app_assoc, (read_encode m f _ He Hv). f_equal. apply IH. lia.
Qed.

End frames.

(** ** Bounds of the values a peer controls *)

Section values.
Import call wire bounds control.

Definition in_range (max x : N) : Prop := (0 < x ≤ max)%N.

(** At most eight entries, each in range. *)
Definition short_list (max : N) (l : list N) : Prop :=
  length l ≤ MAX_CAPABILITY_LIST_ENTRIES ∧ Forall (in_range max) l.

Record audio_ok (a : AudioCapabilities) : Prop := {
  ao_codecs : length (codecs a) ≤ MAX_CAPABILITY_LIST_ENTRIES;
  ao_rates : short_list MAX_AUDIO_SAMPLE_RATE (sample_rates a);
  ao_channels : short_list MAX_AUDIO_CHANNELS (channels a);
  ao_frames : short_list MAX_AUDIO_FRAME_MS (frame_ms a)
}.

Record video_ok (v : VideoCapabilities) : Prop := {
  vo_codecs : length (v_codecs v) ≤ MAX_CAPABILITY_LIST_ENTRIES;
  vo_width : in_range MAX_VIDEO_WIDTH (max_width v);
  vo_height : in_range MAX_VIDEO_HEIGHT (max_height v);
  vo_fps : in_range MAX_VIDEO_FPS (max_fps v)
}.

Definition caps_ok (c : MediaCapabilities) : Prop :=
  audio_ok (audio c) ∧ ∀ v, video c = Some v → video_ok v.

Record neg_ok (n : NegotiatedMedia) : Prop := {
  no_rate : in_range MAX_AUDIO_SAMPLE_RATE (n_sample_rate n);
  no_channels : in_range MAX_AUDIO_CHANNELS (n_channels n);
  no_frame : in_range MAX_AUDIO_FRAME_MS (n_frame_ms n);
  no_video v : n_video n = Some v →
    in_range MAX_VIDEO_WIDTH (width v) ∧ in_range MAX_VIDEO_HEIGHT (height v) ∧
    in_range MAX_VIDEO_FPS (fps v)
}.

Lemma out_of_false max x : out_of max x = false ↔ in_range max x.
Proof.
  unfold out_of, in_range. rewrite orb_false_iff, !bool_decide_eq_false. lia.
Qed.

Lemma too_many_false {A} (l : list A) :
  too_many l = false ↔ length l ≤ MAX_CAPABILITY_LIST_ENTRIES.
Proof. unfold too_many. rewrite bool_decide_eq_false. lia. Qed.

Lemma existsb_out_of max l : existsb (out_of max) l = false ↔ Forall (in_range max) l.
Proof.
  induction l as [|x l IH]; simpl; [by split|].
  by rewrite orb_false_iff, out_of_false, IH, Forall_cons.
Qed.

Lemma ensure_tt {E} b (e : E) : ensure b e = Ok tt ↔ b = true.
Proof. by destruct b. Qed.

Lemma bind_ensure {E} b (e : E) (r : res E unit) :
  (ensure b e;; r) = Ok tt ↔ b = true ∧ r = Ok tt.
Proof. destruct b; simpl; naive_solver. Qed.

Lemma validate_audio_Ok a : validate_audio_capabilities a = Ok tt ↔ audio_ok a.
Proof.
  unfold validate_audio_capabilities.
  rewrite !bind_ensure, ensure_tt, !negb_true_iff, !too_many_false, !existsb_out_of.
  split; [intros (? & ? & ? & ? & ? & ? & ?); by repeat split|].
  by intros [? [] [] []].
Qed.

(** Both dimensions are positive and within the limits. *)
Lemma dimensions_ok w h :
  negb (bool_decide (w = 0%N) || bool_decide (h = 0%N)) = true ∧
  negb (bool_decide (MAX_VIDEO_WIDTH < w)%N || bool_decide (MAX_VIDEO_HEIGHT < h)%N) = true ↔
  in_range MAX_VIDEO_WIDTH w ∧ in_range MAX_VIDEO_HEIGHT h.
Proof.
  unfold in_range. rewrite !negb_true_iff, !orb_false_iff, !bool_decide_eq_false. lia.
Qed.

Lemma validate_capabilities_Ok c : validate_capabilities c = Ok tt ↔ caps_ok c.
Proof.
  unfold validate_capabilities, caps_ok. rewrite <- validate_audio_Ok.
  destruct (validate_audio_capabilities (audio c)) as [[]| |]; simpl; [|naive_solver..].
  destruct (video c) as [v|]; [|naive_solver].
  rewrite !bind_ensure, ensure_tt, !(negb_true_iff (too_many _)), too_many_false,
    (negb_true_iff (out_of _ _)), out_of_false.
  pose proof (dimensions_ok (max_width v) (max_height v)) as Hd. split.
  - intros (? & ? & ? & ?). split; [done|]. intros ? [= <-].
    destruct (proj1 Hd) as [? ?]; [by split|]. by split.
  - intros [_ Hv]. destruct (Hv v eq_refl) as [? ? ? ?].
    destruct (proj2 Hd) as [? ?]; [by split|]. by split_and!.
Qed.

Lemma validate_negotiated_Ok n : validate_negotiated_media n = Ok tt ↔ neg_ok n.
Proof.
  unfold validate_negotiated_media. rewrite !bind_ensure, !negb_true_iff, !out_of_false.
  destruct (n_video n) as [v|] eqn:Hv.
  - unfold validate_negotiated_video.
    rewrite !bind_ensure, ensure_tt, (negb_true_iff (out_of _ _)), out_of_false.
    pose proof (dimensions_ok (width v) (height v)) as Hd. split.
    + intros (? & ? & ? & ? & ? & ?). split; [done..|]. intros ? Heq.
      assert (v0 = v) as -> by congruence. destruct (proj1 Hd) as [? ?]; [by split|done].
    + intros [? ? ? Hn]. destruct (Hn v Hv) as (? & ? & ?).
      destruct (proj2 Hd) as [? ?]; [by split|]. by split_and!.
  - split; [|by intros []]. intros (? & ? & ? & _). split; [done..|congruence].
Qed.

Lemma first_common_Some {A} `{EqDecision A} (l r : list A) x :
  first_common l r = Some x → x ∈ l ∧ x ∈ r.
Proof.
  unfold first_common. intros [Hl Hr]%find_some. apply bool_decide_eq_true in Hr.
  split; [|done]. by apply list_elem_of_In.
Qed.

Lemma first_common_None {A} `{EqDecision A} (l r : list A) :
  first_common l r = None ↔ ∀ x, x ∈ l → x ∉ r.
Proof.
  unfold first_common. split.
  - intros Hn x Hx. apply list_elem_of_In in Hx.
    by apply (find_none _ _ Hn), bool_decide_eq_false in Hx.
  - intros Hn. destruct (find _ l) as [x|] eqn:Hf; [|done].
    apply find_some in Hf as [Hx Hr]. apply bool_decide_eq_true in Hr.
    apply list_elem_of_In in Hx. by destruct (Hn x Hx).
Qed.

Lemma negotiate_video_Some l r vid :
  caps_ok l → caps_ok r → negotiate_video (video l) (video r) = Some vid →
  (is_Some vid ↔ is_Some (video l) ∧ is_Some (video r)) ∧
  (∀ v, vid = Some v →
    in_range MAX_VIDEO_WIDTH (width v) ∧ in_range MAX_VIDEO_HEIGHT (height v) ∧
    in_range MAX_VIDEO_FPS (fps v)) ∧
  ∀ v vl vr, vid = Some v → video l = Some vl → video r = Some vr →
    codec v ∈ v_codecs vl ∧ codec v ∈ v_codecs vr ∧
    (width v ≤ max_width vl ∧ width v ≤ max_width vr ∧
     height v ≤ max_height vl ∧ height v ≤ max_height vr ∧
     fps v ≤ max_fps vl ∧ fps v ≤ max_fps vr)%N.
Proof.
  intros [_ Hl] [_ Hr]. unfold negotiate_video.
  destruct (video l) as [vl|], (video r) as [vr|].
  2-4: intros [= <-]; by split_and!; [split; [intros []|intros [[] []]]|..].
  intros Hb. destruct (first_common _ _) as [c|] eqn:Hc; simpl in Hb; [|done].
  injection Hb as <-. apply first_common_Some in Hc as [? ?].
  destruct (Hl vl eq_refl) as [_ ? ? ?], (Hr vr eq_refl) as [_ ? ? ?]. unfold in_range in *.
  split; [by split|]. split.
  - intros ? [= <-]. simpl. lia.
  - intros ? ? ? [= <-] [= <-] [= <-]. simpl. split_and!; (done || lia).
Qed.

(** Negotiated media suits both sides.  When two participants negotiate, the result lies
    within the protocol's bounds, every selected audio parameter is offered by both, video
    is selected only when both offer it and never exceeds the resolution or frame rate of
    either; and valid capabilities fail to negotiate only when some parameter has no
    common value. *)
Theorem negotiate_sound l r :
  match negotiate l r with
  | Some n =>
      validate_negotiated_media n = Ok tt ∧
      (n_audio_codec n ∈ codecs (audio l) ∧ n_audio_codec n ∈ codecs (audio r)) ∧
      (n_sample_rate n ∈ sample_rates (audio l) ∧ n_sample_rate n ∈ sample_rates (audio r)) ∧
      (n_channels n ∈ channels (audio l) ∧ n_channels n ∈ channels (audio r)) ∧
      (n_frame_ms n ∈ frame_ms (audio l) ∧ n_frame_ms n ∈ frame_ms (audio r)) ∧
      (is_Some (n_video n) ↔ is_Some (video l) ∧ is_Some (video r)) ∧
      ∀ v vl vr, n_video n = Some v → video l = Some vl → video r = Some vr →
        codec v ∈ v_codecs vl ∧ codec v ∈ v_codecs vr ∧
        (width v ≤ max_width vl ∧ width v ≤ max_width vr ∧
         height v ≤ max_height vl ∧ height v ≤ max_height vr ∧
         fps v ≤ max_fps vl ∧ fps v ≤ max_fps vr)%N
  | None =>
      validate_capabilities l ≠ Ok tt ∨ validate_capabilities r ≠ Ok tt ∨
      (∀ x, x ∈ codecs (audio l) → x ∉ codecs (audio r)) ∨
      (∀ x, x ∈ sample_rates (audio l) → x ∉ sample_rates (audio r)) ∨
      (∀ x, x ∈ channels (audio l) → x ∉ channels (audio r)) ∨
      (∀ x, x ∈ frame_ms (audio l) → x ∉ frame_ms (audio r)) ∨
      ∃ vl vr, video l = Some vl ∧ video r = Some vr ∧
        ∀ x, x ∈ v_codecs vl → x ∉ v_codecs vr
  end.
Proof.
  unfold negotiate.
  destruct (validate_capabilities l) as [[]|el|] eqn:Hl; simpl; [|by left..].
  destruct (validate_capabilities r) as [[]|er|] eqn:Hr; simpl; [|by right; left..].
  destruct (first_common (codecs _) _) as [c|] eqn:Hc; simpl;
    [|by right; right; left; apply first_common_None].
  destruct (first_common (sample_rates _) _) as [rate|] eqn:Hrate; simpl;
    [|by do 3 right; left; apply first_common_None].
  destruct (first_common (channels _) _) as [ch|] eqn:Hch; simpl;
    [|by do 4 right; left; apply first_common_None].
  destruct (first_common (frame_ms _) _) as [ms|] eqn:Hms; simpl;
    [|by do 5 right; left; apply first_common_None].
  destruct (negotiate_video _ _) as [vid|] eqn:Hvid; simpl.
  - apply validate_capabilities_Ok in Hl, Hr.
    pose proof (negotiate_video_Some l r vid Hl Hr Hvid) as (Hiff & Hrange & Hle).
    apply first_common_Some in Hc as [? ?], Hrate as [? ?], Hch as [? ?], Hms as [? ?].
    split; [|by split_and!].
    apply validate_negotiated_Ok. destruct Hl as [[_ [_ Hl1] [_ Hl2] [_ Hl3]] _].
    rewrite Forall_forall in Hl1, Hl2, Hl3. by split; simpl; [apply Hl1|apply Hl2|apply Hl3|].
  - do 6 right. unfold negotiate_video in Hvid.
    destruct (video l) as [vl|], (video r) as [vr|]; try done. exists vl, vr. split_and!; [done..|].
    apply first_common_None. by destruct (first_common (v_codecs vl) (v_codecs vr)).
Qed.

End values.

(** ** Decoding is bounded *)

Section decoding.
Import call wire bounds control.
Context `{!Postcard CallControl}.

Lemma validate_capabilities_settled c : settled (validate_capabilities c).
Proof.
  unfold validate_capabilities, validate_audio_capabilities.
  destruct (video c); auto 25 with boru.
Qed.

Lemma validate_negotiated_settled n : settled (validate_negotiated_media n).
Proof.
  unfold validate_negotiated_media, validate_negotiated_video.
  destruct (n_video n); auto 25 with boru.
Qed.

(** A message that passes the checks has its values in range. *)
Lemma validate_control_Ok m :
  validate_control m = Ok tt ↔
  match m with
  | Offer _ _ caps => caps_ok caps
  | Accept _ selected => neg_ok selected
  | _ => True
  end.
Proof.
  destruct m as [|i k caps| |i n| | | | | | |]; simpl; try done.
  - rewrite <- validate_capabilities_Ok. pose proof (validate_capabilities_settled caps).
    by destruct (validate_capabilities caps) as [[]| |].
  - rewrite <- validate_negotiated_Ok. pose proof (validate_negotiated_settled n).
    by destruct (validate_negotiated_media n) as [[]| |].
Qed.

Lemma validate_control_settled m : settled (validate_control m).
Proof.
  unfold validate_control. destruct m; try exact I.
  - by destruct (validate_capabilities _).
  - by destruct (validate_negotiated_media _).
Qed.

(** C39: A decoded control message is bounded.  Whatever bytes arrive, decoding ends with an
    error or with a message whose frame has at most 64 KiB of payload, whose advertised
    lists have at most eight entries, and whose sample rates, channels, durations,
    resolution and frame rate are positive and within the limits of the protocol. *)
Theorem decoded_control_bounded f :
  settled (decode_call_control f) ∧
  ∀ m, decode_call_control f = Ok m →
    (N.of_nat (length f) ≤ 4 + MAX_CALL_CONTROL_FRAME_SIZE)%N ∧
    match m with
    | Offer _ _ caps => caps_ok caps
    | Accept _ selected => neg_ok selected
    | _ => True
    end.
Proof.
  split.
  - unfold decode_call_control. auto 25 using validate_control_settled with boru.
  - intros m. unfold decode_call_control.
    intros ([] & H4%ensure_Ok%bool_decide_eq_true & ([] & Hd%ensure_Ok%bool_decide_eq_true &
      ([] & Hl%ensure_Ok%bool_decide_eq_true & (m' & _ & ([] & Hv & [= <-])%bind_Ok)%bind_Ok
      )%bind_Ok)%bind_Ok)%bind_Ok.
    split; [|by apply validate_control_Ok].
    rewrite length_drop in Hl. lia.
Qed.

End decoding.

(** ** Media datagrams *)

Section datagrams.
Import call media.
Implicit Types (d : MediaDatagram) (input : Bytes).

(** The values a header can carry. *)
Record datagram_ok d : Prop := {
  do_flags : (flags d ≤ u16_max)%N ∧ unknown_flags (flags d) = 0%N;
  do_call : length (call_id d) = 16 ∧ ¬ Forall (λ b, b = x00) (call_id d);
  do_track : (0 < track_id d ≤ u32_max)%N;
  do_sequence : (sequence d ≤ u32_max)%N;
  do_timestamp : (timestamp d ≤ u32_max)%N;
  do_index : (fragment_index d < fragment_count d)%N;
  do_count : (fragment_count d ≤ MAX_VIDEO_FRAGMENTS_PER_FRAME)%N;
  do_payload : (N.of_nat (length (payload d)) ≤ MAX_ENCODED_VIDEO_FRAME_BYTES)%N
}.

Lemma validate_fragment_meta_Ok i n len :
  validate_fragment_meta i n len = Ok tt ↔
  (i < n)%N ∧ (n ≤ MAX_VIDEO_FRAGMENTS_PER_FRAME)%N ∧ (len ≤ MAX_ENCODED_VIDEO_FRAME_BYTES)%N.
Proof.
  unfold validate_fragment_meta. rewrite !bind_ensure, ensure_tt, !bool_decide_eq_true. lia.
Qed.

Lemma all_zero_false (bs : Bytes) :
  negb (forallb (λ b, bool_decide (b = x00)) bs) = true ↔ ¬ Forall (λ b, b = x00) bs.
Proof.
  rewrite negb_true_iff, <- not_true_iff_false, forallb_forall, Forall_forall.
  apply not_iff_compat. split; intros H b Hb.
  - apply (bool_decide_eq_true_1 _). apply H. by apply list_elem_of_In.
  - apply (bool_decide_eq_true_2 _). apply H. by apply list_elem_of_In.
Qed.

(** A datagram is the sequence of its fields. *)
Lemma slices_join input :
  MEDIA_HEADER_LEN ≤ length input →
  input = slice 0 4 input ++ [nth 4 input x00] ++ [nth 5 input x00] ++ slice 6 8 input
    ++ slice 8 24 input ++ slice 24 28 input ++ slice 28 32 input ++ slice 32 36 input
    ++ slice 36 38 input ++ slice 38 40 input ++ drop MEDIA_HEADER_LEN input.
Proof.
  unfold MEDIA_HEADER_LEN, slice. intros Hlen.
  do 40 (destruct input as [|? input]; [simpl in Hlen; lia|]). reflexivity.
Qed.

Lemma length_slice i j input : i ≤ j → j ≤ length input → length (slice i j input) = j - i.
Proof. intros. unfold slice. rewrite length_take, length_drop. lia. Qed.

(** The encoding, cut at the positions the parser uses. *)
Lemma encode_slices d (e := encode d) :
  length (call_id d) = 16 →
  length e = MEDIA_HEADER_LEN + length (payload d) ∧
  slice 0 4 e = MAGIC ∧ nth 4 e x00 = MEDIA_VERSION ∧ nth 5 e x00 = to_wire (kind d) ∧
  slice 6 8 e = to_be 2 (flags d) ∧ slice 8 24 e = call_id d ∧
  slice 24 28 e = to_be 4 (track_id d) ∧ slice 28 32 e = to_be 4 (sequence d) ∧
  slice 32 36 e = to_be 4 (timestamp d) ∧ slice 36 38 e = to_be 2 (fragment_index d) ∧
  slice 38 40 e = to_be 2 (fragment_count d) ∧ drop MEDIA_HEADER_LEN e = payload d.
Proof.
  intros Hc. subst e. unfold encode. destruct d as [k f c tr sq ts fi fc pl]. simpl in *.
  do 16 (destruct c as [|? c]; [done|]). destruct c; [|done]. done.
Qed.

Lemma to_wire_from_wire b k : from_wire b = Ok k ↔ to_wire k = b.
Proof. split; [by destruct b; intros [= <-]|by intros <-; destruct k]. Qed.

Lemma from_wire_settled b : settled (from_wire b).
Proof. by destruct b. Qed.

(** Everything a parsed datagram was checked for. *)
Lemma parse_Ok input d :
  parse input = Ok d ↔
  MEDIA_HEADER_LEN ≤ length input ∧ slice 0 4 input = MAGIC ∧ nth 4 input x00 = MEDIA_VERSION ∧
  nth 5 input x00 = to_wire (kind d) ∧
  unknown_flags (flags d) = 0%N ∧ ¬ Forall (λ b, b = x00) (call_id d) ∧ track_id d ≠ 0%N ∧
  ((fragment_index d < fragment_count d)%N ∧
   (fragment_count d ≤ MAX_VIDEO_FRAGMENTS_PER_FRAME)%N ∧
   (N.of_nat (length input - MEDIA_HEADER_LEN) ≤ MAX_ENCODED_VIDEO_FRAME_BYTES)%N) ∧
  d = mkDatagram (kind d) (from_be (slice 6 8 input)) (slice 8 24 input)
        (from_be (slice 24 28 input)) (from_be (slice 28 32 input))
        (from_be (slice 32 36 input)) (from_be (slice 36 38 input))
        (from_be (slice 38 40 input)) (drop MEDIA_HEADER_LEN input).
Proof.
  unfold parse. split.
  - intros ([] & H1%ensure_Ok%bool_decide_eq_true & ([] & H2%ensure_Ok%bool_decide_eq_true &
      ([] & H3%ensure_Ok%bool_decide_eq_true & (k & H4%to_wire_from_wire &
      ([] & H5%ensure_Ok%bool_decide_eq_true & ([] & H6%ensure_Ok%all_zero_false &
      ([] & H7%ensure_Ok%bool_decide_eq_true & ([] & H8%validate_fragment_meta_Ok & Hd)%bind_Ok
      )%bind_Ok)%bind_Ok)%bind_Ok)%bind_Ok)%bind_Ok)%bind_Ok)%bind_Ok.
    assert (d = mkDatagram k (from_be (slice 6 8 input)) (slice 8 24 input)
        (from_be (slice 24 28 input)) (from_be (slice 28 32 input))
        (from_be (slice 32 36 input)) (from_be (slice 36 38 input))
        (from_be (slice 38 40 input)) (drop MEDIA_HEADER_LEN input)) as -> by
      (unfold mret, res_ret in Hd; congruence).
    by split_and!; try apply H8.
  - intros (H1 & H2 & H3 & H4 & H5 & H6 & H7 & H8 & Hd).
    rewrite Hd in H5, H6, H7, H8. cbn [flags call_id track_id fragment_index fragment_count] in *.
    symmetry in H4. apply to_wire_from_wire in H4.
    rewrite !bool_decide_true, (proj2 (all_zero_false _) H6), H4 by done.
    cbn [ensure mbind res_bind].
    rewrite (proj2 (validate_fragment_meta_Ok _ _ _) H8). cbn [mbind res_bind].
    rewrite Hd at 2. done.
Qed.

(** A parsed input is the encoding of the datagram, which is well formed. *)
Lemma parse_encodes input d : parse input = Ok d → datagram_ok d ∧ input = encode d.
Proof.
  intros (H1 & H2 & H3 & H4 & H5 & H6 & H7 & H8 & Hd)%parse_Ok.
  pose proof (slices_join input H1) as Hj. unfold MEDIA_HEADER_LEN in H1.
  assert (∀ i j, i ≤ j → j ≤ 40 → length (slice i j input) = j - i) as Hs
    by (intros; apply length_slice; lia).
  assert (∀ w i j, i + w = j → j ≤ 40 →
    to_be w (from_be (slice i j input)) = slice i j input) as Hbe.
  { intros w i j Hw Hj'. replace w with (length (slice i j input)) by (rewrite Hs; lia).
    apply to_be_from_be. }
  assert (∀ i j, i ≤ j → j ≤ 40 →
    (from_be (slice i j input) < 256 ^ N.of_nat (j - i))%N) as Hlt
    by (intros; rewrite <- (Hs i j) by done; apply from_be_bound).
  split.
  - rewrite Hd in H5, H6, H7, H8 |- *. simpl in H5, H6, H7, H8.
    pose proof (Hlt 6 8 ltac:(lia) ltac:(lia)). pose proof (Hlt 24 28 ltac:(lia) ltac:(lia)).
    pose proof (Hlt 28 32 ltac:(lia) ltac:(lia)). pose proof (Hlt 32 36 ltac:(lia) ltac:(lia)).
    simpl in *. change (256 ^ N.of_nat 2)%N with 65536%N in *.
    change (256 ^ N.of_nat 4)%N with 4294967296%N in *.
    split; simpl; unfold u16_max, u32_max; rewrite ?length_drop; (done || lia || idtac).
    split; [by apply Hs; lia|done].
  - rewrite Hj at 1. rewrite Hd. unfold encode. simpl kind.
    cbn [flags call_id track_id sequence timestamp fragment_index fragment_count payload].
    rewrite H2, H3, H4. by rewrite !Hbe by lia.
Qed.

(** The encoding of a well-formed datagram is parsed. *)
Lemma parse_encode d : datagram_ok d → parse (encode d) = Ok d.
Proof.
  intros [[Hf Hu] [Hc Hz] Ht Hsq Hts Hi Hn Hp]. apply parse_Ok.
  destruct (encode_slices d Hc) as (Hlen & -> & -> & -> & -> & -> & -> & -> & -> & -> & -> & ->).
  rewrite Hlen. unfold u16_max, u32_max, MAX_VIDEO_FRAGMENTS_PER_FRAME in *.
  rewrite !from_be_to_be by (simpl; lia). split_and!; try (done || lia). by destruct d.
Qed.

(** Media datagrams have one encoding.  Parsing ends on every input; it accepts an input
    exactly when it is the encoding of a well-formed datagram, and returns that datagram:
    encoding and parsing are inverse to each other, no two inputs give the same datagram,
    and nothing outside the limits on flags, identities, fragments and size is accepted. *)
Theorem datagram_roundtrip input d :
  settled (parse input) ∧ (parse input = Ok d ↔ datagram_ok d ∧ input = encode d).
Proof.
  split.
  - unfold parse, validate_fragment_meta. auto 30 using from_wire_settled with boru.
  - split; [apply parse_encodes|]. intros [Hd ->]. by apply parse_encode.
Qed.

(** ** Sizing *)

(** What the connection offers over time. *)
Fixpoint requests (l : list (N * option nat)) (s : DatagramSizer)
    : list (res MediaDatagramError nat) :=
  match l with
  | [] => []
  | (now, maximum) :: l' =>
      let '(r, s') := payload_capacity_from now maximum s in r :: requests l' s'
  end.

(** A cached size is one that leaves room for the header. *)
Definition cached (s : DatagramSizer) : Prop :=
  ∀ at_, last_refresh s = Some at_ →
    ∃ m, last_maximum s = Some m ∧ MEDIA_HEADER_LEN ≤ m.

Lemma payload_capacity_from_cached now maximum s :
  cached s →
  let '(r, s') := payload_capacity_from now maximum s in
  cached s' ∧ settled r ∧ (last_maximum s' = last_maximum s ∨ last_maximum s' = maximum) ∧
  ∀ c, r = Ok c → ∃ m, c + MEDIA_HEADER_LEN = m ∧ (maximum = Some m ∨ last_maximum s = Some m).
Proof.
  intros Hc. unfold payload_capacity_from, payload_capacity.
  destruct (last_refresh s) as [at_|] eqn:Hr; [case_bool_decide|].
  - destruct maximum as [m|]; [|by split_and!; auto]. case_decide; [|by split_and!; auto].
    split_and!; [intros ? [= <-]; eauto|done|by right|]. intros ? [= <-]. exists m. split; [lia|by left].
  - destruct (Hc _ Hr) as (m & Hm & Hle). rewrite Hm, decide_True by done.
    split_and!; [done|done|by left|]. intros ? [= <-]. exists m. split; [lia|by right].
  - destruct maximum as [m|]; [|by split_and!; auto]. case_decide; [|by split_and!; auto].
    split_and!; [intros ? [= <-]; eauto|done|by right|]. intros ? [= <-]. exists m. split; [lia|by left].
Qed.

(** Sizing never underflows and its cache invariant never fails.  From a new sizer, for
    any sequence of instants and datagram sizes, every request returns a capacity or a
    typed error: the [expect] on the cached value is never reached without one, and each
    capacity plus the header is a size the connection offered in that or an earlier
    request. *)
Theorem sizer_safe interval l :
  Forall settled (requests l (sizer_new interval)) ∧
  ∀ i c, requests l (sizer_new interval) !! i = Some (Ok c) →
    ∃ j now, j ≤ i ∧ l !! j = Some (now, Some (c + MEDIA_HEADER_LEN)).
Proof.
  enough (∀ s, cached s →
    Forall settled (requests l s) ∧
    ∀ i c, requests l s !! i = Some (Ok c) →
      (∃ j now, j ≤ i ∧ l !! j = Some (now, Some (c + MEDIA_HEADER_LEN))) ∨
      last_maximum s = Some (c + MEDIA_HEADER_LEN)) as H.
  { destruct (H (sizer_new interval)) as [Hs Hc]; [done|]. split; [done|].
    intros i c Hi. by destruct (Hc i c Hi). }
  induction l as [|[now maximum] l IH]; intros s Hs; [done|]. simpl.
  pose proof (payload_capacity_from_cached now maximum s Hs) as Hstep.
  destruct (payload_capacity_from now maximum s) as [r s'] eqn:Hp.
  destruct Hstep as (Hs' & Hr & Hm' & Hcap). destruct (IH s' Hs') as [Hset Hreq].
  split; [by constructor|]. intros [|i] c Hi; simpl in Hi.
  - injection Hi as ->. destruct (Hcap c eq_refl) as (m & <- & [->|Hm]); [|by right].
    left. exists 0, now. split; [lia|done].
  - destruct (Hreq i c Hi) as [(j & now' & Hj & Hl)|Hm].
    + left. exists (S j), now'. split; [lia|done].
    + destruct Hm' as [Heq|Heq]; rewrite Heq in Hm; [by right|].
      left. exists 0, now. split; [lia|]. by rewrite Hm.
Qed.

End datagrams.

(** ** Concrete messages *)

Section sample_stream.
Import call wire control.

(** A serialization of the messages without further fields. *)
Definition plain_postcard : Postcard CallControl.
Proof.
  refine {| to_stdvec m := match m with
                           | KeepAlive i => Some (x00 :: i)
                           | Busy i => Some (x01 :: i)
                           | _ => None
                           end;
            from_bytes b := match b with
                            | x00 :: i => Some (KeepAlive i)
                            | x01 :: i => Some (Busy i)
                            | _ => None
                            end |}.
  by intros [] b [= <-].
Defined.

Lemma control_stream_roundtrip_witness :
  read_all (Postcard0 := plain_postcard) 3
    (concat [to_be 4 3 ++ [x00; x07; x08]; to_be 4 2 ++ [x01; x07]] ++ [x00])
  = [KeepAlive [x07; x08]; Busy [x07]].
Proof.
  apply (@control_stream_roundtrip plain_postcard [KeepAlive [x07; x08]; Busy [x07]]
    [to_be 4 3 ++ [x00; x07; x08]; to_be 4 2 ++ [x01; x07]] [x00] 3).
  - repeat constructor.
  - simpl. lia.
  - simpl. lia.
Defined.

End sample_stream.

Section sample_decoding.
Import wire control.

Lemma decoded_control_bounded_witness :
  settled (decode_call_control (Postcard0 := plain_postcard) [x00; x00; x00; x01; x00]) ∧
  ∀ m, decode_call_control (Postcard0 := plain_postcard) [x00; x00; x00; x01; x00] = Ok m →
    (N.of_nat (length [x00; x00; x00; x01; x00]) ≤ 4 + MAX_CALL_CONTROL_FRAME_SIZE)%N ∧
    match m with
    | Offer _ _ caps => caps_ok caps
    | Accept _ selected => neg_ok selected
    | _ => True
    end.
Proof. apply (@decoded_control_bounded plain_postcard [x00; x00; x00; x01; x00]). Defined.

End sample_decoding.
