(* ===== verification/CallManager.v ===== *)
(** * The call actor: [src/call/adaptation.rs], [src/call/manager.rs]

    [Module adaptation] translates the congestion controller, [Module manager] the
    statistics accumulator, the call states, the termination path, [handle_control] and the
    command loop [run_actor].  An actor is a record; a command is a handler in the monad of
    [Prelude] whose outputs are the control messages handed to a wire channel, the events
    for the frontend and the shutdown of a runtime, in order.  Channels and connections are
    numbers; what connecting delivers, the clock and the iteration order of the hash map of
    calls are arguments. *)

From Stdlib Require Import NArith.
From stdpp Require Import prelude gmap.
From S2P Require Import Prelude Signing CallSession CallWire.

Module adaptation.

Record VideoResolution : Type := mkRes { r_width : N; r_height : N }.

Record AdaptationDecision : Type := mkDecision {
  audio_kbps : N;
  video_kbps : N;
  video_fps : N;
  resolution : VideoResolution
}.

(** [CallStats]; the round-trip time is in milliseconds. *)
Record CallStats : Type := mkStats {
  rtt : N;
  audio_packets_sent : N;
  audio_packets_received : N;
  audio_packets_lost : N;
  audio_packets_late : N;
  audio_jitter_ms : N;
  audio_playback_underruns : N;
  video_packets_sent : N;
  video_packets_received : N;
  video_packets_dropped : N;
  video_frames_encoded : N;
  video_frames_decoded : N;
  video_frames_dropped : N;
  keyframe_requests : N;
  estimated_send_bitrate : N;
  estimated_receive_bitrate : N
}.

Record AdaptationController : Type := mkController {
  decision : AdaptationDecision;
  level : N;
  congested_samples : N;
  healthy_samples : N;
  previous : option CallStats
}.

Definition default_decision : AdaptationDecision := mkDecision 32 2500 30 (mkRes 1280 720).

Definition default_controller : AdaptationController :=
  mkController default_decision 0 0 0 None.

Definition decision_for_level (l : N) : AdaptationDecision :=
  match l with
  | 1 => mkDecision 24 1500 30 (mkRes 1280 720)
  | 2 => mkDecision 20 1000 15 (mkRes 1280 720)
  | 3 => mkDecision 16 700 15 (mkRes 640 360)
  | _ => default_decision
  end%N.

(** [x * 85 / 100] on [u64] *)
Definition most_of (checks : bool) (x : N) : outcome N :=
  if decide (x * 85 ≤ u64_max)%N then Done (x * 85 / 100)%N
  else if checks then Panic
  else Done ((x * 85) mod (u64_max + 1) / 100)%N.

Definition pressure (checks : bool) (c : AdaptationController) (current : CallStats)
    : outcome bool :=
  match previous c with
  | None => Done false
  | Some prev =>
      let audio_loss := bool_decide (audio_packets_lost prev < audio_packets_lost current)%N in
      let audio_underrun :=
        bool_decide (audio_playback_underruns prev < audio_playback_underruns current)%N in
      let video_drop :=
        bool_decide (video_packets_dropped prev < video_packets_dropped current)%N
        || bool_decide (video_frames_dropped prev < video_frames_dropped current)%N in
      let other := audio_loss || audio_underrun || video_drop in
      if bool_decide (0 < estimated_send_bitrate current)%N
         && bool_decide (0 < estimated_send_bitrate prev)%N
      then match most_of checks (estimated_send_bitrate prev) with
           | Done bound => Done (other || bool_decide (estimated_send_bitrate current < bound)%N)
           | Panic => Panic
           end
      else Done other
  end.

(** [saturating_add(1)] on [u8] *)
Definition u8_incr (n : N) : N := N.min (n + 1) 255.

Definition update (checks : bool) (stats : CallStats) (c : AdaptationController)
    : outcome AdaptationController :=
  match pressure checks c stats with
  | Panic => Panic
  | Done true =>
      let congested := u8_incr (congested_samples c) in
      let '(l, congested) :=
        if decide (2 ≤ congested)%N then (N.min (u8_incr (level c)) 3, 0%N)
        else (level c, congested) in
      Done (mkController (decision_for_level l) l congested 0 (Some stats))
  | Done false =>
      let healthy := u8_incr (healthy_samples c) in
      let '(l, healthy) :=
        if decide (3 ≤ healthy)%N then ((level c - 1)%N, 0%N) else (level c, healthy) in
      Done (mkController (decision_for_level l) l 0 healthy (Some stats))
  end.

End adaptation.

Module manager.
Import call wire media control adaptation.

Abbreviation Channel := N.
Abbreviation Connection := N.
Abbreviation CallGeneration := N.

(** ** Statistics *)

Record AudioJitterStats : Type := mkJitter {
  estimate_ms : N;
  target_ms : N;
  last_arrival : option N;
  last_sequence : option N
}.

Definition jitter_default : AudioJitterStats := mkJitter 0 0 None None.

(** [sequence.wrapping_sub(last) < 0x8000_0000] *)
Definition not_behind (seq last : N) : bool :=
  bool_decide (frame.u32_wrapping_sub seq last < 2147483648)%N.

(** One step of the target towards the desired delay. *)
Definition approach (desired target : N) : N :=
  if decide (4 < abs_diff desired target)%N
  then if decide (target < desired)%N then N.min (target + 5) desired
       else N.max (target - 5) desired
  else target.

Definition jitter_observe (seq arrival : N) (j : AudioJitterStats) : AudioJitterStats :=
  let target := if decide (target_ms j = 0%N) then 75%N else target_ms j in
  if match last_sequence j with None => true | Some last => not_behind seq last end
  then match last_arrival j with
       | None => mkJitter (estimate_ms j) target (Some arrival) (Some seq)
       | Some prev =>
           let deviation := abs_diff (arrival - prev) 20 in
           let estimate := ((estimate_ms j * 7 + deviation) / 8)%N in
           let desired := N.min 200 (N.max 40 (40 + N.min (estimate * 2) u64_max)) in
           mkJitter estimate (approach desired target) (Some arrival) (Some seq)
       end
  else mkJitter (estimate_ms j) target (last_arrival j) (last_sequence j).

Record CallStatsAccumulator : Type := mkAcc {
  snapshot : CallStats;
  last_audio_sequence : option N;
  last_video_sequence : option N;
  audio_jitter : AudioJitterStats
}.

Definition acc_default : CallStatsAccumulator :=
  mkAcc (mkStats 0 0 0 0 0 0 0 0 0 0 0 0 0 0 0 0) None None jitter_default.

Definition sat_add (a b : N) : N := N.min (a + b) u64_max.

Definition audio_received (jitter : N) (c : CallStats) : CallStats :=
  mkStats (rtt c) (audio_packets_sent c) (sat_add (audio_packets_received c) 1)
    (audio_packets_lost c) (audio_packets_late c) jitter (audio_playback_underruns c)
    (video_packets_sent c) (video_packets_received c) (video_packets_dropped c)
    (video_frames_encoded c) (video_frames_decoded c) (video_frames_dropped c)
    (keyframe_requests c) (estimated_send_bitrate c) (estimated_receive_bitrate c).

Definition audio_counted (lost late : N) (c : CallStats) : CallStats :=
  mkStats (rtt c) (audio_packets_sent c) (audio_packets_received c)
    (sat_add (audio_packets_lost c) lost) (sat_add (audio_packets_late c) late)
    (audio_jitter_ms c) (audio_playback_underruns c)
    (video_packets_sent c) (video_packets_received c) (video_packets_dropped c)
    (video_frames_encoded c) (video_frames_decoded c) (video_frames_dropped c)
    (keyframe_requests c) (estimated_send_bitrate c) (estimated_receive_bitrate c).

Definition video_counted (received dropped : N) (c : CallStats) : CallStats :=
  mkStats (rtt c) (audio_packets_sent c) (audio_packets_received c)
    (audio_packets_lost c) (audio_packets_late c) (audio_jitter_ms c)
    (audio_playback_underruns c) (video_packets_sent c)
    (sat_add (video_packets_received c) received) (sat_add (video_packets_dropped c) dropped)
    (video_frames_encoded c) (video_frames_decoded c) (video_frames_dropped c)
    (keyframe_requests c) (estimated_send_bitrate c) (estimated_receive_bitrate c).

Definition set_last (k : MediaKind) (seq : N) (a : CallStatsAccumulator)
    : CallStatsAccumulator :=
  match k with
  | media.Audio => mkAcc (snapshot a) (Some seq) (last_video_sequence a) (audio_jitter a)
  | media.Video => mkAcc (snapshot a) (last_audio_sequence a) (Some seq) (audio_jitter a)
  end.

Definition map_snapshot (f : CallStats → CallStats) (a : CallStatsAccumulator)
    : CallStatsAccumulator :=
  mkAcc (f (snapshot a)) (last_audio_sequence a) (last_video_sequence a) (audio_jitter a).

(** The packet counted as received, with the jitter of audio. *)
Definition count_packet (packet : MediaDatagram) (arrival : N) (a : CallStatsAccumulator)
    : CallStatsAccumulator :=
  match media.kind packet with
  | media.Audio =>
      let j := jitter_observe (sequence packet) arrival (audio_jitter a) in
      mkAcc (audio_received (target_ms j) (snapshot a)) (last_audio_sequence a)
        (last_video_sequence a) j
  | media.Video => map_snapshot (video_counted 1 0) a
  end.

(** Losses and late packets, from the distance to the previous one. *)
Definition count_gap (packet : MediaDatagram) (prev : N) (a : CallStatsAccumulator)
    : CallStatsAccumulator :=
  let delta := frame.u32_wrapping_sub (sequence packet) prev in
  if bool_decide (delta = 0%N) || bool_decide (2147483648 < delta)%N
  then match media.kind packet with
       | media.Audio => map_snapshot (audio_counted 0 1) a
       | media.Video => map_snapshot (video_counted 0 1) a
       end
  else if bool_decide (media.kind packet = media.Audio) && bool_decide (1 < delta)%N
  then map_snapshot (audio_counted (delta - 1) 0) a
  else a.

Definition observe_received (packet : MediaDatagram) (arrival : N) (a : CallStatsAccumulator)
    : CallStatsAccumulator :=
  let prev := match media.kind packet with
              | media.Audio => last_audio_sequence a
              | media.Video => last_video_sequence a
              end in
  let a1 := count_packet packet arrival a in
  let a2 := match prev with Some p => count_gap packet p a1 | None => a1 end in
  if match prev with None => true | Some p => not_behind (sequence packet) p end
  then set_last (media.kind packet) (sequence packet) a2
  else a2.

Definition observe_malformed (a : CallStatsAccumulator) : CallStatsAccumulator :=
  map_snapshot (video_counted 0 1) a.

(** ** Events and calls *)

Inductive CollisionWinner : Type := LocalWins | RemoteWins.

#[export] Instance winner_eq_dec : EqDecision CollisionWinner.
Proof. solve_decision. Defined.

Definition resolve_collision (l r : PublicKey) : CollisionWinner :=
  if decide (bytes_le l r) then LocalWins else RemoteWins.

Inductive CallError : Type :=
| ERejected | EBusy | EConnection | EProtocol | EUnauthorized | EAuthorization | EDevice
| ENegotiationTimeout.

(** [CallEndReason] has the constructors of [HangupReason], and [From] maps each to its
    namesake. *)
Abbreviation CallEndReason := HangupReason.

Inductive CallEvent : Type :=
| EvIncoming (call_id : CallId) (peer : PublicKey) (kind : CallKind)
| EvOutgoingRinging (call_id : CallId) (peer : PublicKey)
| EvActive (call_id : CallId) (peer : PublicKey) (kind : CallKind)
| EvMediaStateChanged (call_id : CallId) (audio_muted video_enabled : bool)
| EvMediaReceived (peer : PublicKey) (datagram : MediaDatagram)
| EvMediaMalformed (peer : PublicKey)
| EvStats (stats : CallStats)
| EvAdaptationChanged (d : AdaptationDecision)
| EvEnded (call_id : CallId) (reason : CallEndReason)
| EvFailed (call_id : option CallId) (reason : CallError).

Record CallState : Type := mkCall {
  peer : PublicKey;
  c_kind : CallKind;
  tx : Channel;
  incoming : bool;
  local_audio_muted : bool;
  remote_audio_muted : bool;
  local_video_enabled : bool;
  remote_video_enabled : bool;
  generation : CallGeneration;
  sess : session.CallSession;
  ending : bool;
  connection : Connection;
  deafened : bool
}.

#[local] Existing Instance session.session_state_eq_dec.

Definition is_active (c : CallState) : bool :=
  bool_decide (session.state (sess c) = session.Active).

(** Field updates. *)
Definition set_session (x : session.CallSession) (c : CallState) : CallState :=
  mkCall (peer c) (c_kind c) (tx c) (incoming c) (local_audio_muted c) (remote_audio_muted c)
    (local_video_enabled c) (remote_video_enabled c) (generation c) x (ending c)
    (connection c) (deafened c).
Definition set_generation (g : CallGeneration) (c : CallState) : CallState :=
  mkCall (peer c) (c_kind c) (tx c) (incoming c) (local_audio_muted c) (remote_audio_muted c)
    (local_video_enabled c) (remote_video_enabled c) g (sess c) (ending c)
    (connection c) (deafened c).
Definition set_ending (c : CallState) : CallState :=
  mkCall (peer c) (c_kind c) (tx c) (incoming c) (local_audio_muted c) (remote_audio_muted c)
    (local_video_enabled c) (remote_video_enabled c) (generation c) (sess c) true
    (connection c) (deafened c).
Definition set_local_media (muted video : bool) (c : CallState) : CallState :=
  mkCall (peer c) (c_kind c) (tx c) (incoming c) muted (remote_audio_muted c)
    video (remote_video_enabled c) (generation c) (sess c) (ending c)
    (connection c) (deafened c).
Definition set_remote_media (muted video : bool) (c : CallState) : CallState :=
  mkCall (peer c) (c_kind c) (tx c) (incoming c) (local_audio_muted c) muted
    (local_video_enabled c) video (generation c) (sess c) (ending c)
    (connection c) (deafened c).
Definition set_deafened (b : bool) (c : CallState) : CallState :=
  mkCall (peer c) (c_kind c) (tx c) (incoming c) (local_audio_muted c) (remote_audio_muted c)
    (local_video_enabled c) (remote_video_enabled c) (generation c) (sess c) (ending c)
    (connection c) b.

(** What the actor does to the outside: hand a message to a wire channel, emit an event,
    stop the tasks and the connection of a call. *)
Inductive Output : Type :=
| Sent (ch : Channel) (m : CallControl)
| Emitted (ev : CallEvent)
| ShutDown (conn : Connection).

Record Actor : Type := mkActor {
  calls : gmap CallId CallState;
  terminal_calls : gset CallId;
  media_state : gmap CallId (bool * bool);
  stats : CallStatsAccumulator;
  adapt : AdaptationController;
  next_generation : CallGeneration;
  running : bool
}.

Definition actor_new : Actor := mkActor ∅ ∅ ∅ acc_default default_controller 1 true.

Definition set_calls (c : gmap CallId CallState) (s : Actor) : Actor :=
  mkActor c (terminal_calls s) (media_state s) (stats s) (adapt s) (next_generation s)
    (running s).
Definition put_call (i : CallId) (c : CallState) (s : Actor) : Actor :=
  set_calls (<[i := c]> (calls s)) s.
Definition drop_call (i : CallId) (s : Actor) : Actor := set_calls (delete i (calls s)) s.
Definition set_terminal (i : CallId) (s : Actor) : Actor :=
  mkActor (calls s) ({[i]} ∪ terminal_calls s) (media_state s) (stats s) (adapt s)
    (next_generation s) (running s).
Definition set_media_state (i : CallId) (m : bool * bool) (s : Actor) : Actor :=
  mkActor (calls s) (terminal_calls s) (<[i := m]> (media_state s)) (stats s) (adapt s)
    (next_generation s) (running s).
Definition set_stats (a : CallStatsAccumulator) (s : Actor) : Actor :=
  mkActor (calls s) (terminal_calls s) (media_state s) a (adapt s) (next_generation s)
    (running s).
Definition set_adapt (a : AdaptationController) (s : Actor) : Actor :=
  mkActor (calls s) (terminal_calls s) (media_state s) (stats s) a (next_generation s)
    (running s).
(** [next_generation.wrapping_add(1).max(1)] *)
Definition bump_generation (s : Actor) : Actor :=
  mkActor (calls s) (terminal_calls s) (media_state s) (stats s) (adapt s)
    (N.max ((next_generation s + 1) mod (u64_max + 1)) 1) (running s).
Definition stop_actor (s : Actor) : Actor :=
  mkActor (calls s) (terminal_calls s) (media_state s) (stats s) (adapt s)
    (next_generation s) false.

Abbreviation M := (act Actor Output).

Definition emit (ev : CallEvent) : M unit := push (Emitted ev).

(** ** Capabilities *)

Definition call_capabilities (k : CallKind) : MediaCapabilities :=
  match k with
  | Voice => mkCaps (audio v1_defaults) None
  | call.Video => v1_defaults
  end.

Definition negotiate_for_capabilities (k : CallKind) (remote : MediaCapabilities)
    : option NegotiatedMedia :=
  negotiate (call_capabilities k) remote.

(** [expect("v1 defaults must negotiate")] *)
Definition negotiate_for_kind (k : CallKind) : M NegotiatedMedia :=
  match negotiate_for_capabilities k (call_capabilities k) with
  | Some n => mret n
  | None => panic
  end.

(** ** Termination *)

Definition generation_matches (current requested : CallGeneration) : bool :=
  bool_decide (requested = 0%N) || bool_decide (requested = current).

Definition terminate_call_inner (i : CallId) (g : CallGeneration) (reason : HangupReason)
    (notify_peer : bool) (failed_reason : option CallError) : M unit :=
  s ← get;
  match calls s !! i with
  | None => mret tt
  | Some c =>
      if negb (generation_matches (generation c) g) then mret tt
      else if ending c then mret tt
      else
        modify (put_call i (set_ending c));;
        if bool_decide (i ∈ terminal_calls s) then mret tt
        else
          modify (set_terminal i);;
          modify (drop_call i);;
          (if notify_peer then push (Sent (tx c) (Hangup i reason)) else mret tt);;
          push (ShutDown (connection c));;
          match failed_reason with
          | Some err => emit (EvFailed (Some i) err)
          | None => emit (EvEnded i reason)
          end
  end.

Definition terminate_call (i : CallId) (g : CallGeneration) (reason : HangupReason)
    (notify_peer failed : bool) : M unit :=
  terminate_call_inner i g reason notify_peer (if failed then Some ERejected else None).

Definition terminate_call_with_error (i : CallId) (g : CallGeneration) (err : CallError)
    : M unit :=
  terminate_call_inner i g RemoteHangup false (Some err).

(** [calls.get(&call_id).map(|call| call.generation).unwrap_or(0)] *)
Definition current_generation (i : CallId) (s : Actor) : CallGeneration :=
  match calls s !! i with Some c => generation c | None => 0%N end.

(** [if let Some(call) = calls.get_mut(&call_id) { ... }]: the value the body computes and
    the call afterwards. *)
Definition with_call {A} (i : CallId) (f : CallState → A * CallState)
    : M (option (A * CallState)) :=
  s ← get;
  match calls s !! i with
  | None => mret None
  | Some c => modify (put_call i (f c).2);; mret (Some (f c))
  end.

(** Apply a signal to the session of a call, with the peer of the call as its sender. *)
Definition signal (now : N) (i : CallId) (sg : session.SessionSignal)
    : M (option (res session.SessionError session.SessionUpdate * CallState)) :=
  with_call i (λ c, let '(r, x) := session.apply now (peer c) sg (sess c) in
                    (r, set_session x c)).

(** ** Control messages *)

Definition MAX_PENDING_CALL_OFFERS : nat := 32.

(** The iteration order of the hash map of calls. *)
Class CallOrder : Type := {
  in_order : gmap CallId CallState → list (CallId * CallState);
  in_order_perm m : in_order m ≡ₚ map_to_list m
}.

Definition pending (c : CallState) : bool := incoming c && negb (is_active c).

Definition pending_offers `{!CallOrder} (s : Actor) : nat :=
  length (filter (λ kv, pending kv.2 = true) (in_order (calls s))).

(** A call state at its start. *)
Definition new_call (p : PublicKey) (k : CallKind) (ch : Channel) (inc : bool)
    (g : CallGeneration) (x : session.CallSession) (conn : Connection) : CallState :=
  mkCall p k ch inc false false false false g x false conn false.

Section actor.
Context `{!CallOrder}.

(** The admission of an offer by the call: refused ([false]) or to be rung. *)
Definition admit_offer (p : PublicKey) (i : CallId) (ch : Channel) : M bool :=
  s ← get;
  if decide (MAX_PENDING_CALL_OFFERS ≤ pending_offers s)
  then push (Sent ch (Busy i));; mret false
  else
    go ← match find (λ kv, is_active kv.2 || bool_decide (peer kv.2 = p)) (in_order (calls s)) with
         | Some (_, existing) =>
             push (Sent ch (Busy i));; mret (negb (bool_decide (peer existing = p)))
         | None => mret true
         end;
    if negb go then mret false
    else
      match find (λ kv, bool_decide (peer kv.2 = p) && negb (incoming kv.2)) (in_order (calls s)) with
      | Some (j, existing) =>
          if bool_decide (resolve_collision p (peer existing) = RemoteWins)
          then push (Sent (tx existing) (Hangup j RemoteHangup));;
               modify (drop_call j);; mret true
          else push (Sent ch (Busy i));; mret false
      | None => mret true
      end.

Definition handle_offer (now : N) (p : PublicKey) (i : CallId) (k : CallKind) (ch : Channel)
    (conn : Connection) (local_peer : PublicKey) : M unit :=
  go ← admit_offer p i ch;
  if negb go then mret tt
  else
    push (Sent ch (Ringing i));;
    let '(r, x) := session.apply now p (session.Offer i k) (session.new i k local_peer p) in
    if negb (is_ok r) then mret tt
    else
      s ← get;
      modify (put_call i (new_call p k ch true (next_generation s) x conn));;
      modify bump_generation;;
      emit (EvIncoming i p k).

Definition handle_control (now : N) (p : PublicKey) (m : CallControl) (ch : Channel)
    (conn : Connection) (local_peer : PublicKey) : M unit :=
  match m with
  | Hello _ _ => mret tt
  | Offer i k _ => handle_offer now p i k ch conn local_peer
  | Ringing _ => mret tt
  | Accept i _ =>
      r ← signal now i (session.Accept i);
      match r with
      | Some (Ok _, c) => emit (EvActive i (peer c) (c_kind c))
      | _ => mret tt
      end
  | Reject i _ =>
      signal now i (session.Decline i);;
      s ← get;
      terminate_call i (current_generation i s) RemoteHangup false true
  | Busy i =>
      s ← get;
      terminate_call_with_error i (current_generation i s) EBusy
  | MediaState i muted video =>
      with_call i (λ c, (tt, set_remote_media muted video c));;
      emit (EvMediaStateChanged i muted video)
  | Reconnect i g =>
      r ← signal now i (session.Reconnect i g);
      match r with
      | Some (Ok _, _) => with_call i (λ c, (tt, set_generation g c));; mret tt
      | _ => mret tt
      end
  | RequestKeyframe _ _ | KeepAlive _ => mret tt
  | Hangup i reason =>
      signal now i (session.Leave i);;
      s ← get;
      terminate_call i (current_generation i s) reason false false
  end.

(** ** Commands *)

Definition NEGOTIATION_TIMEOUT : N := 5000.

(** [Command]; [opened] is what connecting and opening a stream delivered: the connection,
    the outbound channel and the reply channel.  [Incoming] only spawns tasks. *)
Inductive Command : Type :=
| CStart (call_id : CallId) (peer : PublicKey) (kind : CallKind)
    (opened : option (Connection * Channel * Channel))
| CAccept (call_id : CallId)
| CReject (call_id : CallId)
| CSetMuted (call_id : CallId) (muted : bool)
| CSetDeafened (call_id : CallId) (deafened : bool)
| CSetCameraEnabled (call_id : CallId) (enabled : bool)
| CIncoming (conn : Connection)
| CRevokePeer (peer : PublicKey)
| CControl (peer : PublicKey) (m : CallControl) (ch : Channel) (conn : Connection)
| CConnectionClosed (peer : PublicKey)
| CMedia (peer : PublicKey) (packet : option (MediaDatagram * N))
| CNegotiationTimeout (call_id : CallId)
| CTerminate (call_id : CallId) (g : CallGeneration) (reason : HangupReason)
| CReconnect (call_id : CallId)
| CShutdown
| CStatsTick.

Definition start_call (now : N) (i : CallId) (p : PublicKey) (k : CallKind)
    (opened : option (Connection * Channel * Channel)) (local_peer : PublicKey) : M unit :=
  s ← get;
  if existsb (λ kv, is_active kv.2 || bool_decide (peer kv.2 = p)) (in_order (calls s))
  then emit (EvFailed (Some i) ERejected)
  else match opened with
       | None => emit (EvFailed (Some i) EConnection)
       | Some (conn, out, reply) =>
           let x := (session.start_offer now NEGOTIATION_TIMEOUT
                       (session.new i k local_peer p)).2 in
           modify (put_call i (new_call p k reply false (next_generation s) x conn));;
           modify bump_generation;;
           push (Sent out (Hello CALL_CONTROL_VERSION i));;
           push (Sent out (Offer i k (call_capabilities k)));;
           emit (EvOutgoingRinging i p)
       end.

(** Every call of the list whose peer is the given one, by its generation now. *)
Definition end_calls_of (p : PublicKey) (reason : HangupReason) (notify : bool) : M unit :=
  s ← get;
  for_each (filter (λ kv, peer kv.2 = p) (in_order (calls s)))
    (λ kv, terminate_call kv.1 (generation kv.2) reason notify false).

Definition set_media (i : CallId) (m : bool * bool) : M unit :=
  modify (set_media_state i m);;
  s ← get;
  match calls s !! i with
  | Some c => push (Sent (tx c) (MediaState i m.1 m.2))
  | None => mret tt
  end;;
  emit (EvMediaStateChanged i m.1 m.2).

Definition stats_tick (checks : bool) : M unit :=
  s ← get;
  emit (EvStats (snapshot (stats s)));;
  match update checks (snapshot (stats s)) (adapt s) with
  | Panic => panic
  | Done a =>
      modify (set_adapt a);;
      if bool_decide (audio_kbps (decision a) = audio_kbps (decision (adapt s)))
         && bool_decide (video_kbps (decision a) = video_kbps (decision (adapt s)))
         && bool_decide (video_fps (decision a) = video_fps (decision (adapt s)))
         && bool_decide (r_width (resolution (decision a))
                         = r_width (resolution (decision (adapt s))))
         && bool_decide (r_height (resolution (decision a))
                         = r_height (resolution (decision (adapt s))))
      then mret tt
      else emit (EvAdaptationChanged (decision a))
  end.

(** The commands one by one. *)
Definition accept_call (now : N) (i : CallId) : M unit :=
  r ← signal now i (session.Accept i);
  match r with
  | Some (Ok _, c) =>
      selected ← negotiate_for_kind (c_kind c);
      push (Sent (tx c) (Accept i selected));;
      emit (EvActive i (peer c) (c_kind c))
  | _ => mret tt
  end.

Definition reject_call (now : N) (i : CallId) : M unit :=
  r ← signal now i (session.Decline i);
  match r with
  | Some (_, c) => push (Sent (tx c) (Reject i RDeclined))
  | None => mret tt
  end;;
  s ← get;
  terminate_call i (current_generation i s) LocalHangup false false.

Definition negotiation_timeout (now : N) (i : CallId) : M unit :=
  r ← with_call i (λ c, let '(u, x) := session.expire now (sess c) in (u, set_session x c));
  match r with
  | Some (Some _, c) => terminate_call i (generation c) NegotiationTimeout true false
  | _ => mret tt
  end.

Definition terminate_command (now : N) (i : CallId) (g : CallGeneration) (reason : HangupReason)
    : M unit :=
  signal now i (session.Leave i);;
  terminate_call i g reason true false.

Definition reconnect_call (now : N) (i : CallId) : M unit :=
  s ← get;
  match calls s !! i with
  | None => mret tt
  | Some c =>
      let g := N.min (session.generation (sess c) + 1) u64_max in
      r ← signal now i (session.Reconnect i g);
      match r with
      | Some (Ok _, c') =>
          with_call i (λ c, (tt, set_generation g c));;
          push (Sent (tx c') (Reconnect i g))
      | _ => mret tt
      end
  end.

Definition shutdown_all : M unit :=
  s ← get;
  for_each (in_order (calls s))
    (λ kv, terminate_call kv.1 (generation kv.2) Shutdown false false);;
  modify stop_actor.

Definition set_muted (i : CallId) (muted : bool) : M unit :=
  s ← get;
  let m := default (false, false) (media_state s !! i) in
  modify (set_media_state i m);;
  if bool_decide (m.1 = muted) then mret tt
  else
    with_call i (λ c, (tt, set_local_media muted (local_video_enabled c) c));;
    set_media i (muted, m.2).

Definition set_camera_enabled (i : CallId) (enabled : bool) : M unit :=
  s ← get;
  let m := default (false, false) (media_state s !! i) in
  with_call i (λ c, (tt, set_local_media (local_audio_muted c) enabled c));;
  set_media i (m.1, enabled).

(** A parsed packet with its arrival, or a malformed one. *)
Definition media_event (p : PublicKey) (packet : option (MediaDatagram * N)) : M unit :=
  s ← get;
  match packet with
  | Some (d, arrival) =>
      modify (set_stats (observe_received d arrival (stats s)));; emit (EvMediaReceived p d)
  | None => modify (set_stats (observe_malformed (stats s)));; emit (EvMediaMalformed p)
  end.

(** One command; [checks] is whether the build has overflow checks. *)
Definition command (checks : bool) (now : N) (local_peer : PublicKey) (cmd : Command) : M unit :=
  match cmd with
  | CStart i p k opened => start_call now i p k opened local_peer
  | CAccept i => accept_call now i
  | CReject i => reject_call now i
  | CSetMuted i muted => set_muted i muted
  | CSetDeafened i b => with_call i (λ c, (tt, set_deafened b c));; mret tt
  | CSetCameraEnabled i enabled => set_camera_enabled i enabled
  | CIncoming _ => mret tt
  | CRevokePeer p => end_calls_of p AuthorizationRevoked true
  | CControl p m ch conn => handle_control now p m ch conn local_peer
  | CConnectionClosed p => end_calls_of p ConnectionLost false
  | CMedia p packet => media_event p packet
  | CNegotiationTimeout i => negotiation_timeout now i
  | CTerminate i g reason => terminate_command now i g reason
  | CReconnect i => reconnect_call now i
  | CShutdown => shutdown_all
  | CStatsTick => stats_tick checks
  end.

(** The loop of [run_actor]: commands with the instants they are handled at, until the
    actor stops. *)
Fixpoint run_actor (checks : bool) (local_peer : PublicKey) (cmds : list (N * Command))
    : M unit :=
  match cmds with
  | [] => mret tt
  | (now, cmd) :: cmds' =>
      command checks now local_peer cmd;;
      s ← get;
      if running s then run_actor checks local_peer cmds' else mret tt
  end.

End actor.
End manager.
