(* ===== verification/CallManagerFacts.v ===== *)
(** * Facts on the call actor

    The bounds of the adaptation and of the jitter target, the invariant of the actor, at
    most one final event per call, revocation, and the gaps of the control path: consent,
    collisions, busy answers and reused call ids. *)

From Stdlib Require Import NArith ZArith Strings.Byte.
From stdpp Require Import prelude gmap.
From S2P Require Import Prelude Signing CallSession CallSessionFacts.
From S2P Require Import CallWire CallManager.

(** ** Adaptation *)

Section adaptation.
Import adaptation.

(** The counters between two decisions. *)
Record controller_ok (c : AdaptationController) : Prop := {
  co_level : (level c ≤ 3)%N;
  co_decision : decision c = decision_for_level (level c);
  co_congested : (congested_samples c < 2)%N;
  co_healthy : (healthy_samples c < 3)%N;
  co_one : congested_samples c = 0%N ∨ healthy_samples c = 0%N
}.

Lemma controller_default_ok : controller_ok default_controller.
Proof. split; simpl; (done || lia || by left). Qed.

(** Quality adapts in single steps and audio survives.  From a controller with sane
    counters every update leaves sane counters; the level stays between 0 and 3 and moves
    by at most one: up only on the second congested sample in a row, down only on the
    third healthy one; audio keeps between 16 and 40 kbps, and more degradation never
    raises a bitrate, the frame rate or the resolution. *)
Theorem adaptation_steps checks st c c' :
  controller_ok c → update checks st c = Done c' →
  controller_ok c' ∧ (abs_diff (level c) (level c') ≤ 1)%N ∧
  ((level c < level c')%N → congested_samples c = 1%N ∧ pressure checks c st = Done true) ∧
  ((level c' < level c)%N → healthy_samples c = 2%N ∧ pressure checks c st = Done false) ∧
  (16 ≤ audio_kbps (decision c') ≤ 40)%N ∧
  ((level c < level c')%N →
    (audio_kbps (decision c') < audio_kbps (decision c) ∧
     video_kbps (decision c') < video_kbps (decision c) ∧
     video_fps (decision c') ≤ video_fps (decision c) ∧
     r_width (resolution (decision c')) ≤ r_width (resolution (decision c)))%N).
Proof.
  intros [Hl Hd Hc Hh Ho]. unfold update, u8_incr, abs_diff.
  destruct (pressure checks c st) as [[]|] eqn:Hp; [| |done];
    case_decide as Hthr; intros [= <-]; simpl; rewrite Hd;
    (assert (level c = 0 ∨ level c = 1 ∨ level c = 2 ∨ level c = 3)%N as Hcase by lia);
    (split; [split; simpl; (done || lia)|]);
    destruct Hcase as [->|[->|[->| ->]]]; simpl;
    split_and!; intros; (done || lia || split_and!; (done || lia)).
Qed.

End adaptation.

(** ** Statistics *)

Section statistics.
Import call media adaptation manager.

Lemma approach_between lo hi d t :
  (lo ≤ d ≤ hi)%N → (lo ≤ t ≤ hi)%N →
  (lo ≤ approach d t ≤ hi)%N ∧ (abs_diff (approach d t) t ≤ 5)%N.
Proof. unfold approach, abs_diff. repeat case_decide; lia. Qed.

(** Where the target starts from. *)
Definition start_target (j : AudioJitterStats) : N :=
  if decide (target_ms j = 0%N) then 75%N else target_ms j.

Lemma jitter_observe_band seq arrival j :
  target_ms j = 0%N ∨ (40 ≤ target_ms j ≤ 200)%N →
  (40 ≤ target_ms (jitter_observe seq arrival j) ≤ 200)%N ∧
  (abs_diff (target_ms (jitter_observe seq arrival j)) (start_target j) ≤ 5)%N.
Proof.
  intros Ht. unfold jitter_observe. fold (start_target j).
  assert (40 ≤ start_target j ≤ 200)%N as Hs by (unfold start_target; case_decide; lia).
  assert (abs_diff (start_target j) (start_target j) ≤ 5)%N
    by (unfold abs_diff; case_decide; lia).
  destruct (match last_sequence j with Some _ => _ | None => _ end); [|done].
  destruct (last_arrival j); simpl; [|done]. apply approach_between; [lia|done].
Qed.

Lemma jitter_band l :
  l ≠ [] →
  (40 ≤ target_ms (foldl (λ j p, jitter_observe p.1 p.2 j) jitter_default l) ≤ 200)%N.
Proof.
  induction l as [|p l IH] using rev_ind; [done|]. intros _. rewrite foldl_app. simpl.
  apply jitter_observe_band. destruct l; [by left|]. right. by apply IH.
Qed.

(** The playback delay stays in its band.  After any sequence of audio packets the jitter
    target is between 40 and 200 ms; it starts at 75 and moves by at most 5 ms per packet;
    packets behind the newest one leave the estimate, the clock and the sequence alone. *)
Theorem jitter_target_bounded (l : list (N * N)) (p : N * N) :
  let j := foldl (λ j p, jitter_observe p.1 p.2 j) jitter_default l in
  let j' := jitter_observe p.1 p.2 j in
  (40 ≤ target_ms j' ≤ 200)%N ∧
  (abs_diff (target_ms j') (if decide (l = []) then 75 else target_ms j) ≤ 5)%N ∧
  (∀ last, last_sequence j = Some last → not_behind p.1 last = false →
    estimate_ms j' = estimate_ms j ∧ last_arrival j' = last_arrival j ∧
    last_sequence j' = last_sequence j).
Proof.
  intros j j'.
  assert (target_ms j = 0%N ∨ (40 ≤ target_ms j ≤ 200)%N) as Hj.
  { destruct (decide (l = [])) as [->|]; [by left|]. right. by apply jitter_band. }
  destruct (jitter_observe_band p.1 p.2 j Hj) as [Hband Hstep]. split; [done|]. split.
  - unfold start_target in Hstep. destruct (decide (l = [])) as [->|Hl]; [done|].
    pose proof (jitter_band l Hl). rewrite decide_False in Hstep by (subst j; lia). done.
  - intros last Hlast Hb. subst j'. unfold jitter_observe. by rewrite Hlast, Hb.
Qed.

End statistics.

(** ** The invariant of the actor *)

Section actor.
Import call wire media control adaptation manager.
Context `{!CallOrder}.
Implicit Types (s : Actor) (i : CallId) (c : CallState) (es : list Output).

(** A call under its id: the session is the one of this call and of its peer. *)
Definition call_ok s i c : Prop :=
  session.call_id (sess c) = i ∧ session.remote_peer (sess c) = peer c ∧
  (ending c = true → i ∈ terminal_calls s).

Record actor_ok s : Prop := {
  ok_calls i c : calls s !! i = Some c → call_ok s i c;
  ok_bitrate : estimated_send_bitrate (snapshot (stats s)) = 0%N;
  ok_previous st : previous (adapt s) = Some st → estimated_send_bitrate st = 0%N
}.

(** The calls reported as ended. *)
Definition ended es : list CallId :=
  omap (λ o, match o with Emitted (EvEnded i _) => Some i | _ => None end) es.

Lemma ended_app es es' : ended (es ++ es') = ended es ++ ended es'.
Proof. apply omap_app. Qed.

(** A run reports calls as ended that were not, each once. *)
Record once s es s' : Prop := {
  once_mono : terminal_calls s ⊆ terminal_calls s';
  once_nodup : NoDup (ended es);
  once_fresh i : i ∈ ended es → (i ∉ terminal_calls s) ∧ i ∈ terminal_calls s'
}.

#[local] Instance once_compositional : Compositional once.
Proof.
  split.
  - intros s. split; [done|constructor|by intros i ?%not_elem_of_nil].
  - intros s1 es1 s2 es2 s3 [M1 N1 F1] [M2 N2 F2]. split.
    + by etrans.
    + rewrite ended_app. apply NoDup_app. split_and!; [done| |done].
      intros i Hi1 Hi2. destruct (F1 i Hi1), (F2 i Hi2). done.
    + intros i. rewrite ended_app, elem_of_app. intros [Hi|Hi].
      * destruct (F1 i Hi). split; [done|set_solver].
      * destruct (F2 i Hi). split; [set_solver|done].
Qed.

Abbreviation safe := (ok actor_ok once).

Lemma ended_quiet s s' es :
  ended es = [] → terminal_calls s' = terminal_calls s → once s es s'.
Proof.
  intros He Hm. split; rewrite ?He, ?Hm; [done|constructor|by intros i ?%not_elem_of_nil].
Qed.

Lemma safe_ret {A} (a : A) : safe (mret a).
Proof. apply ok_ret, _. Qed.

Lemma safe_bind {A B} (m : M A) (k : A → M B) :
  safe m → (∀ a, safe (k a)) → safe (m ≫= k).
Proof. apply ok_bind, _. Qed.

Lemma safe_get_bind {A} (k : Actor → M A) :
  (∀ s, actor_ok s → wp (k s) (λ _ s' es, actor_ok s' ∧ once s es s') s) → safe (get ≫= k).
Proof. apply ok_get_bind. Qed.

(** Reading the state before an action that is safe whatever was read. *)
Lemma safe_get {A} (k : Actor → M A) : (∀ s, safe (k s)) → safe (get ≫= k).
Proof. intros Hk. apply safe_bind; [apply ok_get, _|done]. Qed.

Lemma safe_modify f :
  (∀ s, actor_ok s → actor_ok (f s)) → (∀ s, terminal_calls (f s) = terminal_calls s) →
  safe (modify f).
Proof. intros Hf Ht. apply ok_modify. intros s Hs. split; [auto|by apply ended_quiet]. Qed.

Lemma safe_push o : ended [o] = [] → safe (push o).
Proof. intros Ho. apply ok_push. intros s _. by apply ended_quiet. Qed.

Lemma safe_emit ev : ended [Emitted ev] = [] → safe (emit ev).
Proof. apply safe_push. Qed.

Lemma wp_skip {A} (a : A) s :
  actor_ok s → wp (mret a) (λ _ s' es, actor_ok s' ∧ once s es s') s.
Proof. intros Hs. apply wp_ret. split; [done|apply comp_refl]. Qed.

(** What a body may do to a call. *)
Definition keeps c c' : Prop :=
  peer c' = peer c ∧ ending c' = ending c ∧
  session.call_id (sess c') = session.call_id (sess c) ∧
  session.remote_peer (sess c') = session.remote_peer (sess c).

Lemma put_call_ok s i c : actor_ok s → call_ok s i c → actor_ok (put_call i c s).
Proof.
  intros [Hc Hb Hp] Hi. split; [|done..]. intros j c'. simpl.
  rewrite lookup_insert_Some. intros [[<- <-]|[_ Hj]]; [exact Hi|exact (Hc j c' Hj)].
Qed.

Lemma safe_with_call {A} i (f : CallState → A * CallState) :
  (∀ c, keeps c (f c).2) → safe (with_call i f).
Proof.
  intros Hf. unfold with_call. apply safe_get_bind. intros s Hs.
  destruct (calls s !! i) as [c|] eqn:Hc; [|by apply wp_skip].
  eapply wp_ok_bind; [apply _|]. apply wp_modify. destruct (Hf c) as (Hp & He & Hid & Hr).
  destruct (ok_calls s Hs i c Hc) as (H1 & H2 & H3).
  split; [|split; [by apply ended_quiet|apply safe_ret]].
  apply put_call_ok; [done|]. split_and!; [congruence|congruence|].
  rewrite He. exact H3.
Qed.

Lemma session_keeps c x : conservative (sess c) x → keeps c (set_session x c).
Proof. intros [(Hi & _ & Hr) _ _ _]. by split_and!. Qed.

Lemma safe_signal now i sg : safe (signal now i sg).
Proof.
  apply safe_with_call. intros c. pose proof (apply_conservative now (peer c) sg (sess c)) as Hx.
  destruct (session.apply _ _ _ _). by apply session_keeps.
Qed.

(** ** Termination *)

Lemma generation_matches_refl g : generation_matches g g = true.
Proof. unfold generation_matches. by rewrite (bool_decide_true (g = g)), orb_true_r. Qed.

(** The outputs of a termination that takes place. *)
Definition farewell (i : CallId) c (reason : HangupReason) (notify : bool)
    (failed : option CallError) : list Output :=
  (if notify then [Sent (tx c) (Hangup i reason)] else []) ++ [ShutDown (connection c)]
  ++ [Emitted (match failed with
               | Some err => EvFailed (Some i) err
               | None => EvEnded i reason
               end)].

(** The state after one. *)
Definition ended_state (i : CallId) s : Actor := drop_call i (set_terminal i s).

Lemma terminate_inner_eq i g reason notify failed s :
  terminate_call_inner i g reason notify failed s =
  match calls s !! i with
  | None => Done (tt, s, [])
  | Some c =>
      if generation_matches (generation c) g && negb (ending c)
      then if decide (i ∈ terminal_calls s)
           then Done (tt, put_call i (set_ending c) s, [])
           else Done (tt, ended_state i s, farewell i c reason notify failed)
      else Done (tt, s, [])
  end.
Proof.
  unfold terminate_call_inner, mbind, act_bind, get. simpl.
  destruct (calls s !! i) as [c|] eqn:Hc; [|done].
  destruct (generation_matches (generation c) g); simpl; [|done].
  destruct (ending c); simpl; [done|]. case_bool_decide as Ht.
  - by rewrite decide_True.
  - rewrite decide_False by done. unfold ended_state, drop_call, set_terminal, set_calls, put_call.
    by destruct notify, failed; simpl; rewrite delete_insert_eq.
Qed.

Lemma ended_state_ok i s : actor_ok s → actor_ok (ended_state i s).
Proof.
  intros [Hc Hb Hp]. split; [|done..]. intros j c. simpl.
  rewrite lookup_delete_Some. intros [_ Hj]. destruct (Hc j c Hj) as (? & ? & He).
  split_and!; [done..|]. intros ?. simpl. set_solver.
Qed.

Lemma ended_farewell i c reason notify failed :
  ended (farewell i c reason notify failed) =
  match failed with Some _ => [] | None => [i] end.
Proof. by destruct notify, failed. Qed.

Lemma safe_terminate_inner i g reason notify failed :
  safe (terminate_call_inner i g reason notify failed).
Proof.
  intros s Hs. unfold wp. rewrite terminate_inner_eq.
  destruct (calls s !! i) as [c|] eqn:Hc; [|split; [done|apply comp_refl]].
  destruct (_ && _); [|split; [done|apply comp_refl]]. case_decide as Ht.
  - split; [|by apply ended_quiet]. apply put_call_ok; [done|].
    destruct (ok_calls s Hs i c Hc) as (? & ? & ?). by split_and!.
  - split; [by apply ended_state_ok|]. split; simpl; rewrite ?ended_farewell.
    + set_solver.
    + destruct failed; [constructor|apply NoDup_singleton].
    + intros j. destruct failed; [by intros ?%not_elem_of_nil|].
      intros ->%list_elem_of_singleton. split; [done|set_solver].
Qed.

Lemma safe_terminate i g reason notify failed : safe (terminate_call i g reason notify failed).
Proof. apply safe_terminate_inner. Qed.

(** ** Control messages and commands *)

#[local] Hint Resolve safe_ret safe_signal safe_terminate safe_terminate_inner : boru.
#[local] Hint Extern 1 (ended _ = _) => reflexivity : boru.
#[local] Hint Resolve safe_push safe_emit : boru.

#[local] Hint Resolve safe_bind : boru.

Lemma drop_call_ok i s : actor_ok s → actor_ok (drop_call i s).
Proof.
  intros [Hc Hb Hp]. split; [|done..]. intros j c. simpl.
  rewrite lookup_delete_Some. intros [_ Hj]. exact (Hc j c Hj).
Qed.

Lemma safe_admit p i ch : safe (admit_offer p i ch).
Proof.
  unfold admit_offer. apply safe_get. intros s. case_decide; [auto 10 with boru|].
  apply safe_bind.
  - destruct (find _ _) as [[]|]; auto 10 with boru.
  - intros []; simpl; [|auto with boru]. destruct (find _ _) as [[j c]|]; [|auto with boru].
    case_bool_decide; [|auto 10 with boru].
    apply safe_bind; [auto with boru|]. intros _.
    apply safe_bind; [by apply safe_modify; [apply drop_call_ok|]|auto with boru].
Qed.

Lemma safe_bump : safe (modify bump_generation).
Proof. apply safe_modify; [|done]. intros s [Hc Hb Hp]. by split. Qed.

(** Adding a call under its id and going on. *)
Lemma wp_add_call {A} i c (k : M A) s :
  actor_ok s →
  session.call_id (sess c) = i → session.remote_peer (sess c) = peer c → ending c = false →
  safe k →
  wp (modify (put_call i c);; k) (λ _ s' es, actor_ok s' ∧ once s es s') s.
Proof.
  intros Hs H1 H2 H3 Hk. apply wp_ok_bind; [apply _|]. apply wp_modify.
  split; [|split; [by apply ended_quiet|done]].
  apply put_call_ok; [done|]. split_and!; [done..|congruence].
Qed.

Lemma safe_offer now p i k ch conn local : safe (handle_offer now p i k ch conn local).
Proof.
  unfold handle_offer. apply safe_bind; [apply safe_admit|]. intros []; simpl; [|auto with boru].
  apply safe_bind; [auto with boru|]. intros _.
  pose proof (apply_conservative now p (session.Offer i k) (session.new i k local p))
    as [(Hi & _ & Hr) _ _ _].
  destruct (session.apply _ _ _ _) as [r x]. simpl in *. destruct (negb _); [auto with boru|].
  apply safe_get_bind. intros s Hs. apply wp_add_call; [done..|].
  apply safe_bind; [apply safe_bump|auto with boru].
Qed.

Lemma safe_control now p m ch conn local : safe (handle_control now p m ch conn local).
Proof.
  destruct m; simpl; auto with boru.
  - apply safe_offer.
  - apply safe_bind; [auto with boru|]. intros [[[] ?]|]; auto with boru.
  - apply safe_bind; [auto with boru|]. intros _. apply safe_get. auto with boru.
  - apply safe_get. intros. apply safe_terminate_inner.
  - apply safe_bind; [by apply safe_with_call|auto with boru].
  - apply safe_bind; [auto with boru|]. intros [[[] ?]|]; auto with boru.
    apply safe_bind; [by apply safe_with_call|auto with boru].
  - apply safe_bind; [auto with boru|]. intros _. apply safe_get. auto with boru.
Qed.

Lemma safe_end_calls p reason notify : safe (end_calls_of p reason notify).
Proof.
  unfold end_calls_of. apply safe_get. intros s. apply ok_for_each; [apply _|].
  auto with boru.
Qed.

Lemma safe_set_media i m : safe (set_media i m).
Proof.
  unfold set_media. apply safe_bind; [by apply safe_modify; [intros s []; split|]|]. intros _.
  apply safe_get. intros s. destruct (calls s !! i); auto 10 with boru.
Qed.

Lemma observe_bitrate packet arrival a :
  estimated_send_bitrate (snapshot (observe_received packet arrival a))
  = estimated_send_bitrate (snapshot a).
Proof.
  unfold observe_received, count_packet, count_gap, set_last, map_snapshot.
  destruct (media.kind packet), (last_audio_sequence a), (last_video_sequence a); simpl;
    repeat (case_match; simpl); done.
Qed.

(** Without a bitrate estimate the controller does no arithmetic that can overflow. *)
Lemma update_Done checks st a :
  estimated_send_bitrate st = 0%N →
  ∃ a', update checks st a = Done a' ∧ previous a' = Some st.
Proof.
  intros Hst. unfold update, pressure. rewrite Hst. destruct (previous a); simpl.
  - destruct (_ || _ || _); case_decide; eauto.
  - case_decide; eauto.
Qed.

Lemma safe_stats_tick checks : safe (stats_tick checks).
Proof.
  unfold stats_tick. apply safe_get_bind. intros s Hs.
  destruct (update_Done checks (snapshot (stats s)) (adapt s)) as (a & -> & Hprev);
    [by apply ok_bitrate|].
  apply wp_ok_bind; [apply _|]. apply wp_push.
  split; [done|]. split; [by apply ended_quiet|].
  apply safe_bind; [|intros _; destruct (_ && _); auto with boru].
  apply safe_modify; [|done]. intros s' [Hc Hb Hp]. split; [done..|].
  simpl. intros st. rewrite Hprev. intros [= <-]. by apply ok_bitrate.
Qed.

Lemma safe_negotiate k : safe (negotiate_for_kind k).
Proof. destruct k; apply safe_ret. Qed.

Lemma safe_start now i p k opened local : safe (start_call now i p k opened local).
Proof.
  unfold start_call. destruct opened as [[[conn out] reply]|].
  - apply safe_get_bind. intros s Hs. destruct (existsb _ _); [by apply safe_emit|].
    apply wp_add_call; [done..|].
    apply safe_bind; [apply safe_bump|auto 10 with boru].
  - apply safe_get. intros s. destruct (existsb _ _); auto with boru.
Qed.

Lemma safe_media_entry i m : safe (modify (set_media_state i m)).
Proof. apply safe_modify; [|done]. by intros s []. Qed.

#[local] Hint Resolve safe_negotiate safe_start safe_stats_tick safe_control safe_end_calls
  safe_set_media safe_media_entry : boru.

Lemma safe_accept now i : safe (accept_call now i).
Proof. apply safe_bind; [auto with boru|]. intros [[[] ?]|]; auto 10 with boru. Qed.

Lemma safe_reject now i : safe (reject_call now i).
Proof.
  apply safe_bind; [auto with boru|]. intros r. apply safe_bind.
  - destruct r as [[]|]; auto with boru.
  - intros _. apply safe_get. auto with boru.
Qed.

Lemma safe_timeout now i : safe (negotiation_timeout now i).
Proof.
  apply safe_bind; [|intros [[[] ?]|]; auto with boru]. apply safe_with_call. intros c.
  pose proof (step_conservative (sess c) _ (step_expire _ now)) as Hx.
  destruct (session.expire now (sess c)). by apply session_keeps.
Qed.

Lemma safe_reconnect now i : safe (reconnect_call now i).
Proof.
  apply safe_get. intros s. destruct (calls s !! i); [|auto with boru].
  apply safe_bind; [auto with boru|]. intros [[[] ?]|]; auto with boru.
  apply safe_bind; [by apply safe_with_call|auto with boru].
Qed.

Lemma safe_shutdown : safe shutdown_all.
Proof.
  apply safe_get. intros s. apply safe_bind.
  - apply ok_for_each; [apply _|]. auto with boru.
  - intros _. apply safe_modify; [|done]. by intros ? [].
Qed.

Lemma safe_set_muted i b : safe (set_muted i b).
Proof.
  apply safe_get. intros s. apply safe_bind; [auto with boru|]. intros _.
  case_bool_decide; [auto with boru|].
  apply safe_bind; [by apply safe_with_call|auto with boru].
Qed.

Lemma safe_set_camera i b : safe (set_camera_enabled i b).
Proof.
  apply safe_get. intros s. apply safe_bind; [by apply safe_with_call|auto with boru].
Qed.

Lemma safe_media p packet : safe (media_event p packet).
Proof.
  apply safe_get_bind. intros s Hs. destruct packet as [[d arrival]|];
    (apply wp_ok_bind; [apply _|]); apply wp_modify;
    (split; [|split; [by apply ended_quiet|auto with boru]]);
    destruct Hs as [Hc Hb Hp]; (split; [done| |done]); simpl.
  - by rewrite observe_bitrate.
  - done.
Qed.

#[local] Hint Resolve safe_accept safe_reject safe_timeout safe_reconnect safe_shutdown
  safe_set_muted safe_set_camera safe_media : boru.

Lemma safe_command checks now local cmd : safe (command checks now local cmd).
Proof.
  destruct cmd; simpl; auto with boru.
  - apply safe_bind; [by apply safe_with_call|auto with boru].
  - apply safe_bind; auto with boru.
Qed.

Lemma safe_run checks local cmds : safe (run_actor checks local cmds).
Proof.
  induction cmds as [|[now cmd] cmds IH]; simpl; [apply safe_ret|].
  apply safe_bind; [apply safe_command|]. intros _. apply safe_get. intros s.
  destruct (running s); auto with boru.
Qed.

Lemma actor_new_ok : actor_ok actor_new.
Proof. split; [|done..]. intros i c. simpl. by rewrite lookup_empty. Qed.

(** C8: A call ends once.  The actor handles every sequence of commands and control messages
    without a panic, each session stays bound to the id and the peer of its call, and no
    call id is ever reported as ended twice. *)
Theorem calls_end_once checks local cmds :
  ∃ s es, run_actor checks local cmds actor_new = Done (tt, s, es) ∧
  (∀ i c, calls s !! i = Some c →
    session.call_id (sess c) = i ∧ session.remote_peer (sess c) = peer c) ∧
  NoDup (ended es) ∧ (∀ i, i ∈ ended es → i ∈ terminal_calls s).
Proof.
  destruct (proj1 (wp_done _ _ _) (safe_run checks local cmds actor_new actor_new_ok))
    as ([] & s & es & Hrun & Hs & [_ Hnd Hf]).
  exists s, es. split_and!; [done| |done|by apply Hf].
  intros i c Hc. by destruct (ok_calls s Hs i c Hc) as (? & ? & _).
Qed.

(** ** Revocation *)

(** No live call has an id that has already ended. *)
Definition unspent s : Prop :=
  ∀ i c, calls s !! i = Some c → (i ∉ terminal_calls s) ∧ ending c = false.

Lemma end_list reason notify (l : list (CallId * CallState)) s :
  NoDup l.*1 → unspent s → (∀ i c, (i, c) ∈ l → calls s !! i = Some c) →
  ∃ s' es, for_each l (λ kv, terminate_call kv.1 (generation kv.2) reason notify false) s
           = Done (tt, s', es) ∧
    calls s' = foldr delete (calls s) l.*1 ∧ ended es = l.*1.
Proof.
  revert s. induction l as [|[i c] l IH]; intros s Hnd Hu Hl; [by exists s, []|].
  apply NoDup_cons in Hnd as [Hi Hnd].
  assert (calls s !! i = Some c) as Hc by (apply Hl; left).
  destruct (Hu i c Hc) as [Ht He].
  destruct (IH (ended_state i s)) as (s' & es & Hrun & Hcalls & Hes); [done| | |].
  - intros j c'. simpl. rewrite lookup_delete_Some. intros [Hne Hj].
    destruct (Hu j c' Hj). split; [set_solver|done].
  - intros j c' Hj. simpl. rewrite lookup_delete_ne; [by apply Hl; right|].
    intros ->. apply Hi. apply list_elem_of_fmap. by exists (j, c').
  - exists s', (farewell i c reason notify None ++ es). split_and!.
    + simpl. unfold mbind, act_bind at 1. unfold terminate_call at 1. simpl.
      rewrite terminate_inner_eq, Hc, He, decide_False by done.
      rewrite generation_matches_refl. simpl. by rewrite Hrun.
    + change (((i, c) :: l).*1) with (i :: l.*1).
      rewrite Hcalls, <- (foldl_deletes (calls s) (i :: l.*1)). simpl. by rewrite foldl_deletes.
    + by rewrite ended_app, ended_farewell, Hes.
Qed.

(** Revoking a peer ends its calls and no others.  In a state without reused ids, the
    command removes exactly the calls of that peer, reports each of them as ended once and
    reports nothing else as ended. *)
Theorem revoke_ends_calls checks now local p s :
  unspent s →
  ∃ s' es, command checks now local (CRevokePeer p) s = Done (tt, s', es) ∧
  calls s' = filter (λ kv, peer kv.2 ≠ p) (calls s) ∧
  NoDup (ended es) ∧
  (∀ i, i ∈ ended es ↔ ∃ c, calls s !! i = Some c ∧ peer c = p).
Proof.
  intros Hu. simpl. unfold end_calls_of, mbind, act_bind, get.
  set (l := filter (λ kv, peer kv.2 = p) (in_order (calls s))).
  assert (∀ i c, (i, c) ∈ l ↔ calls s !! i = Some c ∧ peer c = p) as Hl.
  { intros i c. subst l. rewrite list_elem_of_filter, in_order_perm, elem_of_map_to_list. naive_solver. }
  assert (∀ i, i ∈ l.*1 ↔ ∃ c, calls s !! i = Some c ∧ peer c = p) as Hl1.
  { intros i. rewrite list_elem_of_fmap. split.
    - intros ([j c] & -> & Hin). exists c. by apply Hl.
    - intros (c & Hc). exists (i, c). split; [done|]. by apply Hl. }
  assert (NoDup l.*1) as Hnd.
  { apply NoDup_fmap_fst.
    - intros i c1 c2 [H1 _]%Hl [H2 _]%Hl. congruence.
    - apply NoDup_filter. rewrite in_order_perm. apply NoDup_map_to_list. }
  destruct (end_list AuthorizationRevoked true l s Hnd Hu) as (s' & es & -> & Hc & He).
  { intros i c Hi. by apply Hl. }
  exists s', es. rewrite He. split_and!; [done| |done|done].
  apply map_eq. intros i. rewrite Hc, lookup_deletes. case_decide as Hin.
  - apply Hl1 in Hin as (c & Hci & Hp). symmetry. apply map_lookup_filter_None. right.
    intros c' Hc' Hn. simpl in Hn. congruence.
  - destruct (calls s !! i) as [c|] eqn:Hci.
    + symmetry. apply map_lookup_filter_Some. split; [done|]. simpl. intros Hp. apply Hin, Hl1. eauto.
    + symmetry. apply map_lookup_filter_None. by left.
Qed.

(** ** Gaps in the control path *)

(** A caller can answer its own call.  While an incoming call rings and waits for the
    user, an accept message makes it active, with the same event as an accept by the user,
    whoever sends the message: the actor authorizes the signal as coming from the peer of
    the call. *)
Theorem ringing_accepted_remotely now sender s i c selected ch conn local :
  actor_ok s → calls s !! i = Some c → incoming c = true →
  session.state (sess c) = session.Ringing →
  ∃ s' c', handle_control now sender (Accept i selected) ch conn local s
           = Done (tt, s', [Emitted (EvActive i (peer c) (c_kind c))]) ∧
    calls s' !! i = Some c' ∧ is_active c' = true ∧ incoming c' = true.
Proof.
  intros Hs Hc Hin Hst. destruct (ok_calls s Hs i c Hc) as (Hid & Hr & _).
  simpl. unfold signal, with_call, mbind, act_bind, get, emit, push. rewrite Hc.
  unfold session.apply, session.authorize. rewrite Hr, bool_decide_false by naive_solver.
  simpl. rewrite Hid, bool_decide_false by naive_solver. rewrite Hst. simpl.
  eexists _, _. split; [done|]. simpl. rewrite lookup_insert_eq. by split_and!.
Qed.

(** The first call in the way of an offer, and whether the peer is being called. *)
Definition conflict (p : PublicKey) s : option (CallId * CallState) :=
  find (λ kv, is_active kv.2 || bool_decide (peer kv.2 = p)) (in_order (calls s)).
Definition calling (p : PublicKey) s : option (CallId * CallState) :=
  find (λ kv, bool_decide (peer kv.2 = p) && negb (incoming kv.2)) (in_order (calls s)).

Lemma resolve_collision_same p : resolve_collision p p = LocalWins.
Proof.
  unfold resolve_collision. case_decide as Hn; [done|]. destruct (total bytes_le p p); done.
Qed.

(** The admission of an offer changes nothing; the branch that would give way to the remote
    attempt compares the peer with itself and is never taken. *)
Lemma admit_offer_eq p i ch s :
  admit_offer p i ch s =
  if decide (MAX_PENDING_CALL_OFFERS ≤ pending_offers s) then Done (false, s, [Sent ch (Busy i)])
  else match conflict p s with
       | None => Done (true, s, [])
       | Some (_, c) =>
           if decide (peer c = p) then Done (false, s, [Sent ch (Busy i)])
           else match calling p s with
                | None => Done (true, s, [Sent ch (Busy i)])
                | Some _ => Done (false, s, [Sent ch (Busy i); Sent ch (Busy i)])
                end
       end.
Proof.
  unfold admit_offer, mbind, act_bind, get. case_decide; [done|].
  assert (∀ j c, calling p s = Some (j, c) → peer c = p) as Hp.
  { intros j c [_ Hj]%find_some. by apply andb_true_iff in Hj as [Hj%bool_decide_eq_true _]. }
  fold (conflict p s) (calling p s). destruct (conflict p s) as [[j c]|] eqn:Hf.
  - simpl. destruct (decide (peer c = p)) as [->|Hne]; [by rewrite bool_decide_true|].
    rewrite bool_decide_false by done. simpl.
    destruct (calling p s) as [[j' c']|] eqn:Hc; simpl; [|done].
    by rewrite (Hp j' c' eq_refl), resolve_collision_same.
  - simpl. destruct (calling p s) as [[j' c']|] eqn:Hc; simpl; [|done]. exfalso.
    apply find_some in Hc as [Hin Hc]. pose proof (find_none _ _ Hf _ Hin) as Hn.
    apply andb_true_iff in Hc as [Hc _]. simpl in *. by rewrite Hc, orb_true_r in Hn.
Qed.

(** An admitted offer rings. *)
Lemma handle_offer_admitted now p i k ch conn local s es :
  admit_offer p i ch s = Done (true, s, es) →
  ∃ c, handle_offer now p i k ch conn local s
       = Done (tt, bump_generation (put_call i c s),
               es ++ [Sent ch (Ringing i); Emitted (EvIncoming i p k)]) ∧
    peer c = p ∧ incoming c = true ∧ session.state (sess c) = session.Ringing ∧
    session.call_id (sess c) = i ∧ session.remote_peer (sess c) = p ∧ ending c = false.
Proof.
  intros Ha. unfold handle_offer, mbind, act_bind. rewrite Ha. simpl.
  unfold session.apply, session.authorize, session.receive_offer, session.authorize. simpl.
  rewrite !bool_decide_false by naive_solver. simpl.
  eexists. split; [done|]. by split_and!.
Qed.

Lemma handle_offer_refused now p i k ch conn local s es :
  admit_offer p i ch s = Done (false, s, es) →
  handle_offer now p i k ch conn local s = Done (tt, s, es).
Proof. intros Ha. unfold handle_offer, mbind, act_bind. rewrite Ha. simpl. by rewrite app_nil_r. Qed.

Lemma in_order_singleton i c : in_order {[i := c]} = [(i, c)].
Proof.
  apply Permutation_singleton_r. rewrite in_order_perm, map_to_list_singleton. done.
Qed.

(** When two peers call each other, both calls fail.  The tie-break between distinct
    identities names one winner, but an actor that has called a peer answers the peer's
    offer with busy; and when the busy answer to its own offer arrives, its call fails
    too: no attempt survives a collision. *)
Theorem collision_ends_both now s i c j k caps ch conn ch' conn' me :
  calls s = {[i := c]} → i ∉ terminal_calls s → ending c = false →
  incoming c = false →
  (peer c ≠ me → resolve_collision me (peer c) ≠ resolve_collision (peer c) me) ∧
  ∃ s', (handle_control now (peer c) (Offer j k caps) ch conn me;;
         handle_control now (peer c) (Busy i) ch' conn' me) s
    = Done (tt, s', [Sent ch (Busy j); ShutDown (connection c);
                     Emitted (EvFailed (Some i) EBusy)]) ∧
    calls s' = ∅.
Proof.
  intros Hcalls Ht He Hin. split.
  { intros Hne. unfold resolve_collision. repeat case_decide; try done.
    - destruct Hne. by apply (anti_symm bytes_le).
    - by destruct (total bytes_le me (peer c)). }
  assert (admit_offer (peer c) j ch s = Done (false, s, [Sent ch (Busy j)])) as Ha.
  { rewrite admit_offer_eq. case_decide; [done|]. unfold conflict.
    rewrite Hcalls, in_order_singleton. simpl.
    rewrite (bool_decide_true (peer c = peer c)), orb_true_r by done. by rewrite decide_True. }
  exists (ended_state i s). split; [|simpl; rewrite Hcalls; apply delete_singleton_eq].
  cbn [handle_control]. unfold mbind at 1, act_bind at 1.
  rewrite (handle_offer_refused _ _ _ _ _ _ _ _ _ Ha). unfold mbind, act_bind, get. simpl.
  unfold terminate_call_with_error, current_generation.
  rewrite terminate_inner_eq, Hcalls, lookup_singleton_eq, He, decide_False by done.
  by rewrite generation_matches_refl.
Qed.

(** Busy and ringing at once.  An offer that arrives while a call with another peer is
    active is answered with busy and rings all the same: the caller gets both answers,
    the user an incoming call, and the offer is kept. *)
Theorem busy_offer_still_rings now p i k caps ch conn local s :
  pending_offers s < MAX_PENDING_CALL_OFFERS →
  (∀ j c, calls s !! j = Some c → peer c ≠ p) →
  (∃ j c, calls s !! j = Some c ∧ is_active c = true) →
  ∃ s' c, handle_control now p (Offer i k caps) ch conn local s
    = Done (tt, s', [Sent ch (Busy i); Sent ch (Ringing i); Emitted (EvIncoming i p k)]) ∧
    calls s' = <[i := c]> (calls s) ∧ pending c = true.
Proof.
  intros Hn Hp (j & c & Hj & Hact).
  assert (∀ x, x ∈ in_order (calls s) → peer x.2 ≠ p) as Hall.
  { intros [j' c']. rewrite in_order_perm, elem_of_map_to_list. apply Hp. }
  assert (admit_offer p i ch s = Done (true, s, [Sent ch (Busy i)])) as Ha.
  { rewrite admit_offer_eq, decide_False by lia.
    destruct (conflict p s) as [[j' c']|] eqn:Hf.
    - assert (peer c' ≠ p) as Hne.
      { apply find_some in Hf as [Hin _]. by apply (Hall (j', c')), list_elem_of_In. }
      rewrite decide_False by done. destruct (calling p s) as [[j'' c'']|] eqn:Hc; [|done].
      apply find_some in Hc as [Hin Hc]. apply list_elem_of_In, Hall in Hin. simpl in *.
      by rewrite bool_decide_false in Hc.
    - assert (In (j, c) (in_order (calls s))) as Hin.
      { apply list_elem_of_In. by rewrite in_order_perm, elem_of_map_to_list. }
      apply (find_none _ _ Hf) in Hin. simpl in Hin. by rewrite Hact in Hin. }
  destruct (handle_offer_admitted now p i k ch conn local s _ Ha) as (c' & Hrun & Hpeer & Hin & Hst & _).
  exists (bump_generation (put_call i c' s)), c'. split; [exact Hrun|]. split; [done|].
  unfold pending, is_active. by rewrite Hin, Hst.
Qed.

(** A reused call id never ends.  An offer under the id of a call that has ended is
    admitted like a new one; hanging it up then neither removes it nor tells the user, and
    the entry keeps its peer busy. *)
Theorem reused_id_never_ends now p i k caps ch conn local s reason :
  pending_offers s < MAX_PENDING_CALL_OFFERS → conflict p s = None →
  i ∈ terminal_calls s →
  ∃ s' c, (handle_control now p (Offer i k caps) ch conn local;;
           handle_control now p (Hangup i reason) ch conn local) s
    = Done (tt, s', [Sent ch (Ringing i); Emitted (EvIncoming i p k)]) ∧
    calls s' !! i = Some c ∧ peer c = p ∧ ending c = true.
Proof.
  intros Hn Hf Ht.
  assert (admit_offer p i ch s = Done (true, s, [])) as Ha
    by (rewrite admit_offer_eq, decide_False, Hf by lia; done).
  destruct (handle_offer_admitted now p i k ch conn local s _ Ha)
    as (c & Hrun & Hpeer & Hin & Hst & Hid & Hr & He).
  cbn [handle_control]. unfold mbind at 1, act_bind at 1. rewrite Hrun.
  unfold signal, with_call, mbind, act_bind, get. simpl. rewrite lookup_insert_eq.
  destruct (session.apply _ _ _ _) as [r x]. simpl.
  unfold terminate_call, current_generation. rewrite terminate_inner_eq. simpl.
  rewrite lookup_insert_eq. simpl. rewrite He, decide_True by done.
  rewrite generation_matches_refl. simpl. eexists _, _. split; [done|]. simpl. rewrite lookup_insert_eq.
  by split_and!.
Qed.

End actor.

(** ** A concrete actor *)

Import call wire media control adaptation manager.

#[local] Instance map_call_order : CallOrder.
Proof. refine {| in_order := map_to_list |}. done. Defined.

Definition cara : PublicKey := [x0c].
Definition dave : PublicKey := [x0d].
Definition erin : PublicKey := [x0e].
Definition id1 : CallId := [x01].
Definition id2 : CallId := [x02].

(** The actor of [cara] after some commands. *)
Definition after (cmds : list (N * Command)) : Actor :=
  match run_actor true cara cmds actor_new with Done (_, s, _) => s | Panic => actor_new end.

Definition offer_from (p : PublicKey) (i : CallId) : N * Command :=
  (100%N, CControl p (Offer i Voice (call_capabilities Voice)) 1 1).

Definition ringing : Actor := after [offer_from dave id1].
Definition calling_dave : Actor := after [(100%N, CStart id1 dave Voice (Some (1, 1, 2)%N))].
Definition talking : Actor := after [offer_from dave id1; (200%N, CAccept id1)].
Definition hung_up : Actor := after [offer_from dave id1; (200%N, CTerminate id1 0 LocalHangup)].

Definition no_call : CallState :=
  new_call [] Voice 0 false 0 (session.new [] Voice [] []) 0.
Definition call1 (s : Actor) : CallState := default no_call (calls s !! id1).

Lemma after_ok cmds : actor_ok (after cmds).
Proof.
  unfold after. pose proof (safe_run true cara cmds actor_new actor_new_ok) as Hs.
  unfold wp in Hs. destruct (run_actor _ _ _ _) as [[[? ?] ?]|]; [apply Hs|apply actor_new_ok].
Qed.

Lemma adaptation_steps_witness :
  let st := mkStats 0 0 0 1 0 0 0 0 0 0 0 0 0 0 0 0 in
  let c := mkController default_decision 0 1 0
             (Some (mkStats 0 0 0 0 0 0 0 0 0 0 0 0 0 0 0 0)) in
  let c' := mkController (decision_for_level 1) 1 0 0 (Some st) in
  controller_ok c' ∧ (abs_diff (level c) (level c') ≤ 1)%N ∧
  ((level c < level c')%N → congested_samples c = 1%N ∧ pressure true c st = Done true) ∧
  ((level c' < level c)%N → healthy_samples c = 2%N ∧ pressure true c st = Done false) ∧
  (16 ≤ audio_kbps (decision c') ≤ 40)%N ∧
  ((level c < level c')%N →
    (audio_kbps (decision c') < audio_kbps (decision c) ∧
     video_kbps (decision c') < video_kbps (decision c) ∧
     video_fps (decision c') ≤ video_fps (decision c) ∧
     r_width (resolution (decision c')) ≤ r_width (resolution (decision c)))%N).
Proof.
  intros st c c'. apply (adaptation_steps true st c c').
  - split; simpl; (done || lia || by right).
  - reflexivity.
Defined.

Lemma revoke_ends_calls_witness :
  ∃ s' es, command true 300 cara (CRevokePeer dave) ringing = Done (tt, s', es) ∧
  calls s' = filter (λ kv, peer kv.2 ≠ dave) (calls ringing) ∧
  NoDup (ended es) ∧
  (∀ i, i ∈ ended es ↔ ∃ c, calls ringing !! i = Some c ∧ peer c = dave).
Proof.
  apply (revoke_ends_calls true 300 cara dave ringing).
  assert (terminal_calls ringing = ∅) as Ht by (vm_compute; reflexivity).
  intros i c Hc. split; [rewrite Ht; apply not_elem_of_empty|].
  assert (map_Forall (λ _ c, ending c = false) (calls ringing)) as Hall by decide_compute.
  exact (Hall i c Hc).
Defined.

Lemma ringing_accepted_remotely_witness :
  ∃ s' c', handle_control 200 dave
      (Accept id1 (mkNeg Opus 48000 1 20 None)) 1 1 cara ringing
    = Done (tt, s', [Emitted (EvActive id1 (peer (call1 ringing)) (c_kind (call1 ringing)))]) ∧
    calls s' !! id1 = Some c' ∧ is_active c' = true ∧ incoming c' = true.
Proof.
  apply (ringing_accepted_remotely 200 dave ringing id1 (call1 ringing)
    (mkNeg Opus 48000 1 20 None) 1 1 cara).
  - apply after_ok.
  - vm_compute. reflexivity.
  - vm_compute. reflexivity.
  - vm_compute. reflexivity.
Defined.

Lemma collision_ends_both_witness :
  (peer (call1 calling_dave) ≠ cara →
   resolve_collision cara (peer (call1 calling_dave))
   ≠ resolve_collision (peer (call1 calling_dave)) cara) ∧
  ∃ s', (handle_control 150 (peer (call1 calling_dave))
           (Offer id2 Voice (call_capabilities Voice)) 3 3 cara;;
         handle_control 150 (peer (call1 calling_dave)) (Busy id1) 2 1 cara) calling_dave
    = Done (tt, s', [Sent 3 (Busy id2); ShutDown (connection (call1 calling_dave));
                     Emitted (EvFailed (Some id1) EBusy)]) ∧
    calls s' = ∅.
Proof.
  apply (collision_ends_both 150 calling_dave id1 (call1 calling_dave) id2 Voice
    (call_capabilities Voice) 3 3 2 1 cara).
  - vm_compute. reflexivity.
  - decide_compute.
  - vm_compute. reflexivity.
  - vm_compute. reflexivity.
Defined.

Lemma busy_offer_still_rings_witness :
  ∃ s' c, handle_control 300 erin (Offer id2 Voice (call_capabilities Voice)) 5 5 cara talking
    = Done (tt, s', [Sent 5 (Busy id2); Sent 5 (Ringing id2);
                     Emitted (EvIncoming id2 erin Voice)]) ∧
    calls s' = <[id2 := c]> (calls talking) ∧ pending c = true.
Proof.
  apply (busy_offer_still_rings 300 erin id2 Voice (call_capabilities Voice) 5 5 cara talking).
  - vm_compute. lia.
  - assert (map_Forall (λ _ c, peer c ≠ erin) (calls talking)) as Hall by decide_compute.
    exact Hall.
  - exists id1, (call1 talking). split; vm_compute; reflexivity.
Defined.

Lemma reused_id_never_ends_witness :
  ∃ s' c, (handle_control 300 dave (Offer id1 Voice (call_capabilities Voice)) 5 5 cara;;
           handle_control 300 dave (Hangup id1 RemoteHangup) 5 5 cara) hung_up
    = Done (tt, s', [Sent 5 (Ringing id1); Emitted (EvIncoming id1 dave Voice)]) ∧
    calls s' !! id1 = Some c ∧ peer c = dave ∧ ending c = true.
Proof.
  apply (reused_id_never_ends 300 dave id1 Voice (call_capabilities Voice) 5 5 cara hung_up
    RemoteHangup).
  - vm_compute. lia.
  - vm_compute. reflexivity.
  - decide_compute.
Defined.

Lemma calls_end_once_witness :
  ∃ s es, run_actor true cara [offer_from dave id1; (200%N, CAccept id1); (300%N, CShutdown)]
            actor_new = Done (tt, s, es) ∧
  (∀ i c, calls s !! i = Some c →
    session.call_id (sess c) = i ∧ session.remote_peer (sess c) = peer c) ∧
  NoDup (ended es) ∧ (∀ i, i ∈ ended es → i ∈ terminal_calls s).
Proof.
  apply (calls_end_once true cara
    [offer_from dave id1; (200%N, CAccept id1); (300%N, CShutdown)]).
Defined.
